(* ===== verification/_CoqProject ===== *)
-Q . S2P
Prelude.v
Ranges.v
Bytes.v
Data.v
Kv.v
ChunkIter.v
Tables.v
Chain.v
Tx.v
Concrete.v
TxSpec.v
UpdateSpec.v
Retry.v
PrefixSpec.v
Cleanup.v
Db.v
DbSpec.v
WriteController.v
ControllerSpec.v
ControllerProps.v
Schema.v
Compaction.v
CompactionSpec.v
CompactionProps.v
Ingest.v
IngestSpec.v
IngestProps.v
Replay.v
Source.v
SourceSpec.v
SourceProps.v
Pipeline.v
Harness.v
HarnessSpec.v
HarnessProps.v
HarnessFork.v
Bds.v
BdsProps.v
BdsStore.v
Client.v
Archive.v
ArchiveSpec.v
ArchiveProps.v
ArchiveRun.v
Bits.v
Offsets.v
Pages.v
PagesSpec.v
Pagination.v
TableRead.v
TableReadSpec.v
Slices.v
SliceSpec.v
SliceWrite.v
TableWrite.v
TableArray.v
TableRoundtrip.v
Builders.v
BuildersSpec.v
BuildersProps.v
TableExamples.v
QueryStack.v
QueryArrow.v
QueryPred.v
QueryPredSpec.v
QueryScanSpec.v
QueryRel.v
QueryRelSpec.v
QueryPlan.v
QueryPlanSpec.v
QueryOutput.v
QueryOutputSpec.v
QueryJson.v
QueryExamples.v
QueryRequests.v
QueryRequestsSpec.v
QueryRun.v
QueryRunSpec.v
QueryExecSpec.v
QueryServe.v
