(* ===== verification/Prelude.v ===== *)
(** * A verified model of the hot-blocks data pipeline

    The repository is a Rust workspace for blockchain data.  This development models its
    core: the data sources that follow a chain through forks and finality, the task that
    batches blocks into chunks, the writer that keeps a window of chunks in an ordered
    key-value store, the column format the chunks are stored in, the query engine that
    answers requests from them, and two other consumers of block streams, the archive writer
    and the block data service.

    ** The program

    An HTTP client (crates/data-client) frames the answers of an upstream into lines; the
    standard data source (crates/data-source/src/standard.rs) merges several clients into
    one stream of blocks, finality reports and forks.  The ingest task
    (crates/hotblocks/src/dataset_controller/ingest_generic.rs) batches blocks into chunks
    and sends messages to the write controller (write_controller.rs), the single writer of a
    dataset, which extends or replaces the stored window of chunks, moves the finalized head,
    trims old chunks, and publishes the two heads.  Every change is an optimistic transaction
    (crates/storage/src/db/write/tx.rs, dataset_update.rs) over column families with labels,
    chunks, tables, deletion marks and hash indexes, retried on conflict.  A table of a chunk
    is a set of paged buffers (crates/storage/src/table), filled from the builders and slices
    of crates/array.  Background jobs compact small chunks (db/ops/compaction.rs), purge
    deleted tables and reclaim files (db/write/ops.rs, reclaim.rs).  A request
    (crates/query) compiles to a plan of table scans with predicates and of relations between
    tables; its execution on a chunk lists the rows of every table, chooses the blocks that
    fit a response and writes them as JSON.  The service runs a query over the chunks of a
    snapshot (crates/hotblocks/src/query): it executes the plan on one chunk after another,
    compresses the blocks and streams them in packs, under limits of time and of tasks.

    ** The files

    - Prelude (this file): results ([res]: Ok, Err, Panic), machine integers, lists, the
      hint database [sqd] and the tactics.
    - Ranges: crates/primitives/src/range.
    - Bytes, Data: byte order, the short ids of primitives/src/sid.rs, and the layout of the keys of storage/src/db/data.rs,
      table/key.rs and db/reclaim.rs.
    - Kv, Tables: the interfaces the storage code is written against, as classes with
      laws: the ordered store and its cursors (storage/src/kv.rs, RocksDB), borsh, and table
      readers, with the hash lookups of db/read/blocks_table.rs and transactions_table.rs.
      Concrete instantiates all of them in memory, and every witness runs on that instance.
    - ChunkIter, Chain: the chunk iterator of db/read/chunk.rs, and the chains of chunks it
      walks over.
    - Tx, Retry: db/write/tx.rs and dataset_update.rs; Retry has the attempt loop, the
      backoff and the jitter.  TxSpec, UpdateSpec and PrefixSpec have their theorems.
    - Cleanup: db/write/ops.rs.  Db: db/db.rs with the reads of db/read/snapshot.rs and
      datasets.rs; DbSpec has its theorems.
    - WriteController: write_controller.rs.  ControllerSpec has the invariant and the lemmas
      of its transitions, ControllerProps the theorems.
    - Schema: array/src/schema_metadata.rs, schema_patch.rs, the index types of
      item_index_cast.rs, and db/ops/schema_merge.rs.
    - Compaction: db/ops/compaction.rs.  CompactionSpec (the transaction and the
      plan) and CompactionProps have the theorems.
    - Ingest: ingest_generic.rs, with the traits it uses (data-core/src/chunk_builder.rs,
      data-source/src/types.rs, primitives/src/types.rs) as classes.  IngestSpec has the
      abstract batcher and the refinement, IngestProps the theorems, Replay the composition
      of the ingest task with the controller.
    - Source: data-source/src/standard.rs.  SourceSpec and SourceProps have the theorems,
      Pipeline the composition of the source with the ingest task (ingest.rs).
    - Harness: the reference model of hotblocks-harness/src/model.rs.  HarnessSpec,
      HarnessProps (simulation of the controller) and HarnessFork have the theorems.
    - Bds, BdsProps, BdsStore: the chain, the block writer and the restart of crates/bds.
    - Client: data-client/src/reqwest/lines.rs and client.rs.
    - Archive, ArchiveSpec, ArchiveProps, ArchiveRun: layout.rs, chunk_writer.rs, proc.rs,
      writer.rs, ingest.rs and progress.rs of crates/archive over a file system interface.
    - Bits, Offsets: bit masks, null masks and offset buffers (array/src/builder/bitmask.rs,
      nullmask.rs, offsets.rs, native.rs, array/src/util.rs).
    - Pages, PagesSpec: the page writers of storage/src/table/write.
    - Pagination, TableRead: page selection and the reads of buffers (storage/src/table/read/
      pagination.rs, reader.rs); TableReadSpec the theorems.
    - Slices: array/src/slice with the writes of a slice.  SliceSpec has rows and their
      encoding into buffers, SliceWrite the theorems.
    - TableWrite: the table writer (write/table.rs, storage_writer.rs, array/src/writer/any.rs)
      and its theorems.  TableArray: columns and tables read back (read/array.rs, reader.rs);
      TableRoundtrip the composition of the two.
    - Builders: array/src/builder.  BuildersSpec and BuildersProps the theorems.
      TableExamples has concrete arrow primitives and runs.
    - QueryArrow: columns, masks and the arrow kernels as a class, and bloom-filter/src/lib.rs
      with its column predicate.  QueryPred: the predicates of query/src/scan
      (array_predicate.rs, row_predicate.rs, row_predicate_dsl.rs) with their page statistics,
      and scan.rs, util.rs and storage/reader.rs.  QueryPredSpec and QueryScanSpec have the
      theorems.
    - QueryStack: the address trees of query/src/plan/rel.rs (with key.rs).  QueryRel,
      QueryRelSpec: the relations and row lists (rel.rs, row_list.rs) over data frames.
    - QueryPlan, QueryPlanSpec: table.rs and plan.rs up to the rows of the outputs, with the
      expressions of json/exp.rs.  QueryOutput, QueryOutputSpec: the parent block check and
      the output phase of plan.rs, sort.rs, result.rs and json_writer.rs.  QueryJson: the
      evaluation of expressions and the encoders of JSON values (json/exp.rs, json/encoder),
      and that they write row by row.  QueryExamples has
      plain implementations of the classes and a chunk on which the witnesses run.
    - QueryRequests: the requests of the eight networks with their tables, projections,
      filters, relations and validation, and their compilation to plans (query/src/query, with
      json/lang.rs).  QueryRequestsSpec states what the fields of each request ask of a row
      ([query_asked]), and has the theorems and an example request.
    - QueryRun: hotblocks/src/query (running.rs, response.rs, executor.rs, service.rs) and the
      body of a response (api.rs), over compressors and the execution of plans as classes; the
      data items and the writer of a plan (result.rs, plan.rs).  QueryRunSpec has the theorems
      against the laws of the classes ([CompressorLaws], [ExecutionLaws]); QueryExecSpec shows
      that the execution on stored chunks keeps its laws; QueryServe composes the two and has
      a database on which the witnesses run.

    ** How code becomes definitions

    A function that returns a [Result] returns [res]; a method with a mutable receiver
    returns the new object.  A transaction is its snapshot with the writes staged on top;
    the database is a map from column families to stores, and what other writers do between
    the attempts of a transaction is an argument ([env]).  Unsigned integers are [Z] with
    wrap-around written out ([u64_add]); hypotheses such as [chunk_ok] say where values fit.
    Floating point numbers of the compaction heuristic are binary64 by the Standard
    Library's specification.  Recursion that is not structural has fuel: the iterators take
    the number of stored keys, the retry loop the attempt budget, [find_range] the length of
    the run ([range_fuel]), the loops over pages the bytes left, the writes of slices the
    depth of the slice, and in each case a lemma shows that more fuel changes nothing or
    that the result is the specified one.  The watch channels are their values with the log
    of changes; the channel of the ingest task is the list of messages sent.  The methods of
    the writer traits of crates/array are data ([bit_op], [native_op], [offset_op],
    [buf_op]), so that one law states what each implementation does for all of them.  The
    primitives of arrow on bits and its array constructors are classes with laws
    ([ArrowBits], [ArrowArrays]).

    ** What is shown

    - Keys (Bytes, Data, Ranges): encodings round-trip, key order is chunk order, the
      ranges of datasets and tables are exact; range lists denote the sets they should, up
      to a union that is shown to add points.
    - Store (Chain, TxSpec, UpdateSpec, PrefixSpec): iteration yields exactly the stored
      chunks of a window; [insert_fork] implements [fork_spec] on the list of chunks and fails
      exactly with it; any sequence of updates keeps the chain and touches no other dataset;
      the finalized-prefix check compares block by block.
    - Database (Retry, DbSpec, Cleanup): an update that commits is one run of its callback
      on the state it committed on; retries and sleeps are bounded; creation, deletion and
      cleanup are complete, and reclamation never covers a live table.
    - Controller (ControllerProps): its copy equals the committed state after any messages;
      finalized blocks are never rewritten; the finalized head moves forward and names a
      stored block; retention keeps the window exactly when it reaches and fits the floor, and
      clears it otherwise; a fork is resolved to the highest position the hints allow, and
      refused exactly on hints the window cannot meet; a restart recovers the committed state.
    - Ingest (IngestProps, Replay): the task refines a batcher that keeps a list of pending
      blocks; chunks lose and invent nothing, tile the stream, and respect the flush floor;
      a fork answered by the controller is replayed with a chunk that starts where the
      controller asked, reaches the finalized head, and is accepted.
    - Source and client (SourceProps, Pipeline, Client): no poll panics, the blocks
      yielded form a chain, a fork is reported exactly when the endpoints in use agree on it,
      with the first of the longest lists they sent, progress is made if an endpoint serves;
      the composed pipeline sends linked chunks; line framing does not depend on how bytes
      arrive, if no line feed is followed by a carriage return.
    - Compaction (CompactionProps, Schema): the plan is a gapless run of stored chunks; the
      transaction replaces exactly that run or cancels; the operation is transparent.
    - Harness (HarnessProps, HarnessFork): the reference model keeps its invariants and
      simulates every chunk the controller accepts.
    - Table format (TableRoundtrip, SliceWrite, BuildersProps): whatever is written to a
      table by slices is read back, for every data type, projection and set of row ranges that
      do not touch;
      the writes of slices are exact for every writer that keeps the interface, which the
      table writer and the builders are shown to do; builders give away exactly their rows.
    - Archive (ArchiveProps, ArchiveRun): listing is exact, a restart resumes after the last
      complete chunk, a writer that fails or is interrupted leaves no torn chunk and writes none
      after the one that failed, a run puts every block into exactly one chunk.  Block data
      service (BdsProps, BdsStore): the chain stays linked under pushes, stored marks and
      finality, its heads only move forward, and what it reports as stored was stored.
    - Queries (QueryScanSpec, QueryRelSpec, QueryPlanSpec, QueryOutputSpec): a scan returns
      exactly the rows its predicate selects, with or without page statistics; a relation adds
      exactly the related rows; a plan and its simplification select the same rows; a
      response holds the first blocks that fit, at least one, and both writers print exactly
      its rows, block by block; a query on the wrong parent block is refused, and one whose
      parent lies beyond a hole of more than 100 blocks fails.
    - Requests (QueryRequestsSpec): every request of every network compiles to a well-formed
      plan about the blocks it names, and its execution lists exactly the rows that satisfy
      the filters its fields give, with the related ones.
    - Serving (QueryRunSpec, QueryExecSpec, QueryServe): executing a plan on a window of a
      stored chunk whose columns have the types the projections ask for answers the window,
      and the text of a block does not depend on the window;
      whatever the clocks, slots and time limits, the body of a response is never aborted and
      decompresses to the requested blocks from the first one on, with no wanted one left out,
      and a patient client gets all of them after boundedly many packs ([run_fuel] bounds the
      steps by the sizes of the chunks); never more tasks run than the limit.
    - Deviations are theorems about concrete inputs: [range_union_fills_gap],
      [insert_chunk_accepts_overlap], [pairwise_mergeable_run_fails],
      [plan_mixes_table_sets], [retain_keeps_finalized_below_floor],
      [clear_publishes_finalized_without_head], [touching_ranges_panic],
      [sliced_mask_value_panics], [table_run_no_columns], [list_items_become_nullable],
      [bloom_dynamic_misses_row], [replica_items_unlimited], [wide_hole_fails],
      [carriage_return_depends_on_pieces], [binary_value_panics], [null_list_in_roll].

    ** What is not modelled

    The controller theorems take the controller to be the only writer while an operation
    runs ([quiet]), as the process is designed; [update_dataset_serializable] covers other
    writers, and a compaction between two controller operations is not composed with the
    controller's cached first chunk.  The merge of columns (db/ops/table_merge.rs beyond its
    schema, array/src/reader, io and sort), the computation of column statistics, the JSON
    form of requests and the Parquet reader of crates/query, the block parsers of crates/data,
    Parquet output, the compression formats (their laws are assumed), the routes of the HTTP
    services and command line tools, logging and metrics are outside the model: they drive
    libraries or are tables of field names.  Columns of types that no predicate reads are
    opaque values with the arrow array behind them as a parameter ([arrow_column]); the text of
    numbers and quoted strings is that of other crates ([JsonTexts]).  The engine runs scans and relations in parallel tasks; the model runs them one after the
    other, which gives the same row sets, as each task only adds rows. *)

From Stdlib Require Export ZArith Lia Sorted.
From stdpp Require Export base tactics numbers strings option sets list.

#[global] Open Scope Z_scope.

(** ** Results

    A Rust function that returns [anyhow::Result<A>] is a Rocq function into
    [res A]: [Ok] and [Err] are the two variants of [Result], and [Panic] is an
    unwinding panic ([unwrap], [expect], [assert!], out-of-range indexing),
    which no [?] or [if let Err] of the code intercepts. *)

(** The reasons of [UnapplicableForkReason] (crates/hotblocks/src/errors.rs). *)
Inductive fork_reason : Type :=
| HintsBelowFinalizedHead
| HintConflictsWithFinalizedHead
| BelowRetainedWindow
| StaleRollbackBoundary
| DropsFinalizedBlock
| RewritesFinalizedHistory
| FinalityHashChanged
| FinalityContradictsChunk
| FinalityEvictsFinalizedBlock
| FinalityContradictsStoredBlock.

(** [anyhow::Error]: an untyped message, or one of the typed errors the callers
    downcast to. *)
Inductive error : Type :=
| EMsg (what : string)
| EFork (reason : fork_reason)
| ERetryExhausted (attempts : Z) (deadline_hit : bool)
| EStorage (what : string).

Inductive res (A : Type) : Type :=
| Ok (a : A)
| Err (e : error)
| Panic (what : string).
Arguments Ok {A} a.
Arguments Err {A} e.
Arguments Panic {A} what.

#[export] Instance fork_reason_eq_dec : EqDecision fork_reason.
Proof. solve_decision. Defined.
#[export] Instance error_eq_dec : EqDecision error.
Proof. solve_decision. Defined.
#[export] Instance res_eq_dec {A} `{EqDecision A} : EqDecision (res A).
Proof. solve_decision. Defined.

#[export] Instance res_ret : MRet res := @Ok.
#[export] Instance res_bind : MBind res := λ A B f r,
  match r with Ok a => f a | Err e => Err e | Panic m => Panic m end.
#[export] Instance res_fmap : FMap res := λ A B f r,
  match r with Ok a => Ok (f a) | Err e => Err e | Panic m => Panic m end.

(** [ensure!(c, e)] *)
Definition ensure (c : bool) (e : error) : res unit :=
  if c then Ok tt else Err e.

(** [o.ok_or_else(|| e)] *)
Definition ok_or {A} (o : option A) (e : error) : res A :=
  match o with Some a => Ok a | None => Err e end.

(** [collect::<Result<Vec<_>, _>>()]: the first failure wins. *)
Fixpoint collect {A} (l : list (res A)) : res (list A) :=
  match l with
  | [] => Ok []
  | r :: l => a ← r; as_ ← collect l; Ok (a :: as_)
  end.

Lemma bind_Ok {A B} (f : A → res B) (r : res A) (b : B) :
  (r ≫= f) = Ok b ↔ ∃ a, r = Ok a ∧ f a = Ok b.
Proof.
  destruct r as [a|e|m]; simpl; split; try discriminate; eauto;
    intros (a' & H & ?); congruence.
Qed.

Lemma ensure_Ok c e u : ensure c e = Ok u ↔ c = true.
Proof. destruct c, u; simpl; naive_solver. Qed.

Lemma ok_or_Ok {A} (o : option A) e a : ok_or o e = Ok a ↔ o = Some a.
Proof. destruct o; simpl; naive_solver. Qed.

Lemma collect_Ok {A} (l : list A) : collect (Ok <$> l) = Ok l.
Proof. induction l as [|a l IH]; [done|]. cbn. by rewrite IH. Qed.

(** A computation that does not unwind; [no_panic] proves it by the shape of the term. *)
Definition safe {A} (r : res A) : Prop := ∀ m, r ≠ Panic m.

Lemma safe_Ok {A} (a : A) : safe (Ok a).
Proof. by intros m. Qed.
Lemma safe_Err {A} e : safe (@Err A e).
Proof. by intros m. Qed.
Lemma safe_ensure c e : safe (ensure c e).
Proof. intros m. by destruct c. Qed.
Lemma safe_bind {A B} (f : A → res B) (r : res A) : safe r → (∀ a, r = Ok a → safe (f a)) → safe (r ≫= f).
Proof. intros Hr Hf m. destruct r as [a|e|p]; cbn; [by apply Hf|done|by destruct (Hr p)]. Qed.

Create HintDb safe.
#[export] Hint Resolve safe_Ok safe_Err safe_ensure : safe.
Ltac no_panic :=
  repeat first
    [ solve [eauto with safe]
    | apply safe_bind; [|let a := fresh "a" in let Ha := fresh "Ha" in intros a Ha]
    | match goal with |- safe (match ?x with _ => _ end) => destruct x eqn:? end ].

(** [inv_res] takes a hypothesis that a monadic term returned [Ok] apart into
    the successive values it bound. *)
Ltac inv_res H :=
  repeat match type of H with
  | (_ ≫= _) = Ok _ =>
      let a := fresh "v" in let E := fresh "Hv" in
      apply bind_Ok in H; destruct H as (a & E & H)
  | Ok _ = Ok _ => injection H as H; try subst
  | Err _ = Ok _ => discriminate H
  | Panic _ = Ok _ => discriminate H
  end.

(** ** Machine integers

    Unsigned integers are [Z] with the wrap-around written out: the release
    profile of the workspace compiles [+], [-] and [*] on [u64] to wrapping
    instructions. *)

Definition u64_mod : Z := 2 ^ 64.
Definition u64_max : Z := 2 ^ 64 - 1.
Definition u32_max : Z := 2 ^ 32 - 1.
Definition u64_ok (x : Z) : Prop := 0 <= x <= u64_max.
Definition u64_add (x y : Z) : Z := (x + y) mod u64_mod.
Definition u64_sub (x y : Z) : Z := (x - y) mod u64_mod.

Lemma u64_add_small x y : 0 <= x + y <= u64_max → u64_add x y = x + y.
Proof. unfold u64_add, u64_mod, u64_max. intros. rewrite Z.mod_small; lia. Qed.

Lemma u64_sub_small x y : 0 <= x - y <= u64_max → u64_sub x y = x - y.
Proof. unfold u64_sub, u64_mod, u64_max. intros. rewrite Z.mod_small; lia. Qed.

Lemma u64_add_ok x y : u64_ok (u64_add x y).
Proof.
  unfold u64_ok, u64_add, u64_mod, u64_max.
  pose proof (Z.mod_pos_bound (x + y) (2 ^ 64)). lia.
Qed.

Create HintDb sqd.
#[export] Hint Resolve u64_add_ok : sqd.

(** Boolean comparisons to propositions. *)
Ltac zbool :=
  repeat match goal with
  | H : (_ <=? _) = true |- _ => apply Z.leb_le in H
  | H : (_ <=? _) = false |- _ => apply Z.leb_gt in H
  | H : (_ <? _) = true |- _ => apply Z.ltb_lt in H
  | H : (_ <? _) = false |- _ => apply Z.ltb_ge in H
  | H : (_ =? _) = true |- _ => apply Z.eqb_eq in H
  | H : (_ =? _) = false |- _ => apply Z.eqb_neq in H
  | H : (_ && _)%bool = true |- _ => apply andb_true_iff in H as [? ?]
  | H : (_ || _)%bool = false |- _ => apply orb_false_iff in H as [? ?]
  | H : negb _ = true |- _ => apply negb_true_iff in H
  | H : negb _ = false |- _ => apply negb_false_iff in H
  end.

(** Case analysis on the scrutinee of an [if] in the goal or in a hypothesis. *)
Ltac case_if :=
  match goal with
  | |- context [if ?b then _ else _] => destruct b eqn:?
  end.
Ltac case_if_in H :=
  match type of H with
  | context [if ?b then _ else _] => destruct b eqn:?
  end.

(** ** Lists *)

(** Membership in lists built from [::], [++] and [[]]. *)
Ltac lmem :=
  rewrite ?elem_of_cons, ?elem_of_app, ?list_elem_of_singleton, ?elem_of_nil in *;
  solve [intuition auto].

Lemma Forall_app_l {A} (P : A → Prop) l k : Forall P (l ++ k) → Forall P l.
Proof. rewrite Forall_app. tauto. Qed.
Lemma Forall_app_r {A} (P : A → Prop) l k : Forall P (l ++ k) → Forall P k.
Proof. rewrite Forall_app. tauto. Qed.
#[export] Hint Resolve Forall_app_l Forall_app_r : sqd.

(** [Iterator::take_while] *)
Fixpoint take_while {A} (f : A → bool) (l : list A) : list A :=
  match l with [] => [] | x :: l => if f x then x :: take_while f l else [] end.

Lemma take_while_all {A} (f : A → bool) l : (∀ x, x ∈ l → f x = true) → take_while f l = l.
Proof.
  induction l as [|x l IH]; intros Hl; simpl; [done|]. rewrite (Hl x) by lmem. f_equal.
  apply IH. intros y Hy. apply Hl. lmem.
Qed.

Lemma take_while_ext {A} (f g : A → bool) l :
  (∀ x, x ∈ l → f x = g x) → take_while f l = take_while g l.
Proof.
  induction l as [|x l IH]; intros Hl; simpl; [done|]. rewrite (Hl x) by lmem.
  destruct (g x); [|done]. f_equal. apply IH. intros y Hy. apply Hl. lmem.
Qed.

Lemma take_while_snoc {A} (f : A → bool) l x :
  take_while f (l ++ [x]) =
  if forallb f l then if f x then l ++ [x] else l else take_while f l.
Proof.
  induction l as [|y l IH]; simpl; [done|]. destruct (f y); simpl; [|done].
  rewrite IH. destruct (forallb f l); [|done]. by destruct (f x).
Qed.

Lemma take_while_prefix {A} (f : A → bool) l : ∃ k, l = take_while f l ++ k.
Proof.
  induction l as [|x l [k IH]]; simpl; [by exists []|]. destruct (f x).
  - exists k. simpl. by f_equal.
  - by exists (x :: l).
Qed.

Lemma StronglySorted_snoc {A} (R : A → A → Prop) l x :
  StronglySorted R (l ++ [x]) ↔ StronglySorted R l ∧ Forall (λ y, R y x) l.
Proof.
  induction l as [|y l IH]; simpl.
  - split; [split; constructor|]. intros _. repeat constructor.
  - split.
    + intros [Hs Hf]%StronglySorted_inv. apply IH in Hs as [Hs Hx].
      apply Forall_app in Hf as [Hf Hy]. apply Forall_cons in Hy as [Hy _].
      split; constructor; done.
    + intros [[Hs Hf]%StronglySorted_inv [Hy Hx]%Forall_cons].
      constructor; [by apply IH|]. apply Forall_app. by repeat constructor.
Qed.

Lemma StronglySorted_elem {A} (R : A → A → Prop) x l :
  StronglySorted R (x :: l) → ∀ y, y ∈ l → R x y.
Proof. intros [_ Hf]%StronglySorted_inv y Hy. rewrite Forall_forall in Hf. auto. Qed.

Lemma StronglySorted_filter {A} (R : A → A → Prop) (P : A → Prop) `{!∀ x, Decision (P x)} l : StronglySorted R l → StronglySorted R (filter P l).
Proof.
  induction 1 as [|x l Hs IH Hx]; [constructor|]. rewrite filter_cons. case_decide; [|done]. constructor; [done|].
  rewrite Forall_forall in Hx |- *. intros y [_ Hy]%list_elem_of_filter. auto.
Qed.

Lemma StronglySorted_reverse {A} (R : A → A → Prop) l : StronglySorted R l → StronglySorted (flip R) (reverse l).
Proof.
  induction 1 as [|a l Hs IH Ha]; [constructor|]. rewrite reverse_cons. apply StronglySorted_snoc. split; [done|].
  by apply Forall_reverse.
Qed.

Lemma list_filter_all {A} (P : A → Prop) `{!∀ x, Decision (P x)} (l : list A) :
  (∀ x, x ∈ l → P x) → filter P l = l.
Proof.
  induction l as [|x l IH]; intros Hl; [done|]. rewrite filter_cons_True by (apply Hl; lmem).
  f_equal. apply IH. intros y Hy. apply Hl. lmem.
Qed.

Lemma list_filter_none {A} (P : A → Prop) `{!∀ x, Decision (P x)} (l : list A) :
  (∀ x, x ∈ l → ¬ P x) → filter P l = [].
Proof.
  induction l as [|x l IH]; intros Hl; [done|]. rewrite filter_cons_False by (apply Hl; lmem).
  apply IH. intros y Hy. apply Hl. lmem.
Qed.

Lemma list_filter_iff' {A} (P Q : A → Prop) `{!∀ x, Decision (P x), !∀ x, Decision (Q x)} (l : list A) :
  Forall (λ x, P x ↔ Q x) l → filter P l = filter Q l.
Proof.
  induction 1 as [|x l Hx _ IH]; [done|]. rewrite !filter_cons, IH.
  by apply decide_ext.
Qed.

(** A loop [for x in l { f(x)? }] over a state. *)
Fixpoint fold_res {A B} (f : A → B → res A) (l : list B) (a : A) : res A :=
  match l with [] => Ok a | b :: l => a ← f a b; fold_res f l a end.

Lemma fold_res_app {A B} (f : A → B → res A) l k a :
  fold_res f (l ++ k) a = (a' ← fold_res f l a; fold_res f k a').
Proof.
  revert a; induction l as [|b l IH]; intros a; [done|]. simpl.
  destruct (f a b) as [a'| |]; simpl; [apply IH|done..].
Qed.

Lemma safe_fold_res {A B} (f : A → B → res A) l : (∀ a b, safe (f a b)) → ∀ a, safe (fold_res f l a).
Proof. intros Hf. induction l as [|b l IH]; intros a; cbn [fold_res]; [apply safe_Ok|]. apply safe_bind; auto. Qed.

Lemma forallb_take_drop {A} (f : A → bool) n l :
  forallb f l = true → forallb f (take n l) = true ∧ forallb f (drop n l) = true.
Proof.
  rewrite <-(take_drop n l) at 1. rewrite forallb_app. by intros [? ?]%andb_true_iff.
Qed.
