(* ===== verification/Ranges.v ===== *)
(** * Ranges: index range lists

    Models crates/primitives/src/range: [RangeList] (mod.rs) and the range-list
    arithmetic it is built on (arith.rs).  A half-open range of [Idx] is a pair
    of integers; an iterator that the source consumes with [collect] is the list
    it yields, and a [panic!] inside it is [Panic].

    The theorems read a range list as the set of indexes it covers. *)

From Equations Require Import Equations.
From S2P Require Import Prelude.

Record range : Type := Range { rstart : Z; rend : Z }.

#[export] Instance range_eq_dec : EqDecision range.
Proof. solve_decision. Defined.

(** [Range::is_empty] *)
Definition is_empty (r : range) : bool := negb (rstart r <? rend r).

(** ** arith.rs *)

(** [seal], with [head] the item just taken by [list.next()] and [rest] what
    the peekable iterator still holds. *)
Fixpoint seal_from (head : range) (rest : list range) : res (list range) :=
  match rest with
  | [] => Ok [head]
  | next :: rest' =>
      match rend head ?= rstart next with
      | Lt => out ← seal_from next rest'; Ok (head :: out)
      | Eq => seal_from (Range (rstart head) (rend next)) rest'
      | Gt => Panic "unordered or intersecting ranges found in range list"
      end
  end.

Definition seal (l : list range) : res (list range) :=
  match l with [] => Ok [] | head :: rest => seal_from head rest end.

Fixpoint intersection (l1 : list range) : list range → list range :=
  fix go (l2 : list range) : list range :=
    match l1, l2 with
    | h1 :: t1, h2 :: t2 =>
        let start := Z.max (rstart h1) (rstart h2) in
        let '(end_, rest) :=
          match rend h1 ?= rend h2 with
          | Lt => (rend h1, intersection t1 l2)
          | Eq => (rend h1, intersection t1 t2)
          | Gt => (rend h2, go t2)
          end in
        if start <? end_ then Range start end_ :: rest else rest
    | _, _ => []
    end.

(** The merging iterator of [union], before [seal]: each step consumes the list
    whose head ends first and moves the start of the other head. *)
Equations? union_merge (l1 l2 : list range) : list range
  by wf (length l1 + length l2)%nat lt :=
  union_merge [] l2 := l2;
  union_merge l1 [] := l1;
  union_merge (h1 :: t1) (h2 :: t2) :=
    let start := Z.min (rstart h1) (rstart h2) in
    let end_ := Z.min (rend h1) (rend h2) in
    Range start end_ ::
      match (rend h1 =? end_), (rend h2 =? end_) with
      | true, true => union_merge t1 t2
      | true, false => union_merge t1 (Range end_ (rend h2) :: t2)
      | false, true =>
          union_merge (if rstart h1 <? end_ then Range end_ (rend h1) :: t1 else h1 :: t1) t2
      | false, false => []
      end.
Proof.
  - simpl; lia.
  - simpl; lia.
  - case_if; simpl; lia.
Qed.

Definition union (l1 l2 : list range) : res (list range) := seal (union_merge l1 l2).

(** ** mod.rs *)

(** [RangeList::try_from]: the windowed check over neighbours. *)
Fixpoint neighbours_ordered (prev : range) (l : list range) : bool :=
  match l with
  | [] => true
  | current :: l' =>
      if rend prev >? rstart current then false else neighbours_ordered current l'
  end.

Definition try_from (l : list range) : res (list range) :=
  if existsb is_empty l then
    Err (EMsg "range list can only contain non-empty ranges")
  else match l with
  | [] => Ok l
  | prev :: l' =>
      if neighbours_ordered prev l' then Ok l
      else Err (EMsg "found unordered or overlapping ranges")
  end.

(** [RangeList::end]; [Idx::default()] is 0. *)
Definition list_end (l : list range) : Z := from_option rend 0 (last l).

(** The inner loop of [paginate] over one page.  When the page does not end with
    the intersection, the intersection ends with the range ([i.end] is the
    minimum of both), so [ranges.next()] has been called before looping. *)
Inductive page_scan : Type :=
| PageFull
| PageDone (included : list range) (ranges : list range)
| PageEnd (included : list range).

Fixpoint scan_page (page : range) (included : list range) (ranges : list range)
  : page_scan :=
  match ranges with
  | [] => PageEnd included
  | r :: tl =>
      let i := Range (Z.max (rstart page) (rstart r)) (Z.min (rend page) (rend r)) in
      if bool_decide (i = page) then PageFull
      else
        let included :=
          if rend i >? rstart i
          then included ++ [Range (rstart i - rstart page) (rend i - rstart page)]
          else included in
        let ranges' := if rend i =? rend r then tl else ranges in
        if rend page =? rend i then PageDone included ranges'
        else scan_page page included tl
  end.

(** [if included_ranges.len() > 0 { return Some((pix, Some(..))) }] *)
Definition emit (pix : Z) (included : list range) (out : list (Z * option (list range)))
  : list (Z * option (list range)) :=
  match included with [] => out | _ :: _ => (pix, Some included) :: out end.

(** The items the iterator of [paginate] yields from page [pix] on; [offsets] is
    [page_offsets[pix..]]. *)
Fixpoint paginate_from (pix : Z) (offsets : list Z) (ranges : list range)
  : res (list (Z * option (list range))) :=
  match offsets with
  | a :: ((b :: _) as rest) =>
      if is_empty (Range a b) then Panic "assertion failed: !page.is_empty()"
      else match scan_page (Range a b) [] ranges with
      | PageFull => out ← paginate_from (pix + 1) rest ranges; Ok ((pix, None) :: out)
      | PageEnd included => Ok (emit pix included [])
      | PageDone included ranges' =>
          out ← paginate_from (pix + 1) rest ranges'; Ok (emit pix included out)
      end
  | _ => Ok []
  end.

Definition paginate (l : list range) (page_offsets : list Z)
  : res (list (Z * option (list range))) :=
  match page_offsets with
  | [] => Panic "attempt to subtract with overflow"
  | _ => paginate_from 0 page_offsets l
  end.

(** [from_sorted_indexes]; indexes are [u32] and [idx + 1] wraps. *)
Definition idx_succ (idx : Z) : Z := (idx + 1) mod 2 ^ 32.

Fixpoint indexes_loop (beg end_ : Z) (iter : list Z) : res (list range) :=
  match iter with
  | [] => Ok [Range beg end_]
  | idx :: iter' =>
      match end_ ?= idx with
      | Lt => out ← indexes_loop idx (idx_succ idx) iter'; Ok (Range beg end_ :: out)
      | Eq => indexes_loop beg (idx_succ idx) iter'
      | Gt => Panic "index list was unsorted"
      end
  end.

Definition from_sorted_indexes (indexes : list Z) : res (list range) :=
  match indexes with
  | [] => Ok []
  | idx :: iter => indexes_loop idx (idx_succ idx) iter
  end.

(** ** The set a range list covers *)

Definition in_range (i : Z) (r : range) : Prop := rstart r <= i < rend r.
Definition covers (l : list range) (i : Z) : Prop := Exists (in_range i) l.

(** [wf lo l]: non-empty, ordered, disjoint ranges, none below [lo]. *)
Fixpoint wf (lo : Z) (l : list range) : Prop :=
  match l with
  | [] => True
  | r :: l => lo <= rstart r < rend r ∧ wf (rend r) l
  end.

(** [sealed lo l]: in addition no two neighbours touch. *)
Fixpoint sealed (lo : Z) (l : list range) : Prop :=
  match l with
  | [] => True
  | r :: l => lo < rstart r < rend r ∧ sealed (rend r) l
  end.

(** What [RangeList::try_from] accepts. *)
Definition well_formed (l : list range) : Prop := ∃ lo, wf lo l.

Lemma covers_nil i : covers [] i ↔ False.
Proof. apply Exists_nil. Qed.
Lemma covers_cons r l i : covers (r :: l) i ↔ in_range i r ∨ covers l i.
Proof. apply Exists_cons. Qed.
Lemma covers_app l k i : covers (l ++ k) i ↔ covers l i ∨ covers k i.
Proof. apply Exists_app. Qed.

Create Rewrite HintDb covers.
#[local] Hint Rewrite covers_nil covers_cons covers_app : covers.

Ltac covers := autorewrite with covers in *; unfold in_range in *; simpl in *.

Lemma wf_weaken lo lo' l : lo' <= lo → wf lo l → wf lo' l.
Proof. destruct l; simpl; intuition lia. Qed.

Lemma wf_covers_lo lo l i : wf lo l → covers l i → lo <= i.
Proof.
  revert lo; induction l as [|r l IH]; intros lo; covers; [tauto|].
  intros [? Hw] [?|Hc]; [lia|]. specialize (IH _ Hw Hc). lia.
Qed.

Lemma wf_elem lo l r : wf lo l → r ∈ l → lo <= rstart r < rend r.
Proof.
  revert lo; induction l as [|r' l IH]; intros lo; simpl; [lmem|].
  intros [? Hw] [->|Hr]%elem_of_cons; [lia|]. specialize (IH _ Hw Hr). lia.
Qed.

Lemma sealed_wf lo l : sealed lo l → wf lo l.
Proof.
  revert lo; induction l as [|r l IH]; simpl; [done|].
  intros lo [? ?]; split; [lia|auto].
Qed.

Lemma well_formed_tail r l : well_formed (r :: l) → wf (rend r) l.
Proof. intros [lo [_ ?]]; done. Qed.

(** *** [try_from] *)

Lemma neighbours_ordered_spec prev l :
  existsb is_empty l = false →
  neighbours_ordered prev l = true ↔ wf (rend prev) l.
Proof.
  revert prev; induction l as [|r l IH]; intros prev; simpl; [done|].
  unfold is_empty at 1. intros [Hr Hl]%orb_false_iff. zbool.
  rewrite Z.gtb_ltb. case_if; zbool; [|rewrite IH by done];
    split; try done; try lia; intuition lia.
Qed.

Lemma wf_no_empty lo l : wf lo l → existsb is_empty l = false.
Proof.
  revert lo; induction l as [|r l IH]; simpl; [done|].
  intros lo [? Hw]. rewrite (IH _ Hw). unfold is_empty.
  destruct (Z.ltb_spec (rstart r) (rend r)); simpl; [done|lia].
Qed.

Lemma try_from_spec l : try_from l = Ok l ↔ well_formed l.
Proof.
  unfold try_from. split.
  - destruct (existsb is_empty l) eqn:E; [done|].
    destruct l as [|r l]; [exists 0; done|]. simpl in E.
    apply orb_false_iff in E as [Hr Hl]. case_if; [intros _|done].
    apply neighbours_ordered_spec in Heqb; [|done].
    exists (rstart r). unfold is_empty in Hr. zbool. simpl. split; [lia|done].
  - intros [lo Hw]. rewrite (wf_no_empty _ _ Hw).
    destruct l as [|r l]; [done|]. destruct Hw as [? Hw].
    rewrite (proj2 (neighbours_ordered_spec r l (wf_no_empty _ _ Hw)) Hw). done.
Qed.

(** *** [seal] *)

Lemma seal_from_covers head rest lo out :
  lo < rstart head < rend head → wf (rend head) rest →
  seal_from head rest = Ok out →
  sealed lo out ∧ ∀ i, covers out i ↔ covers (head :: rest) i.
Proof.
  revert head lo out; induction rest as [|next rest IH]; intros head lo out Hlo Hw; simpl.
  - intros [= <-]. simpl. split; [intuition lia|done].
  - destruct Hw as [Hn Hw]. destruct (Z.compare_spec (rend head) (rstart next)); [| |done].
    + intros Ho. apply (IH _ lo) in Ho as [? Ho]; simpl; [|lia|done].
      split; [done|]. intros i. rewrite Ho. covers. intuition lia.
    + intros Ho. inv_res Ho. apply (IH _ (rend head)) in Hv as [? Hv]; [|lia|done].
      simpl. split; [split; [lia|done]|]. intros i. specialize (Hv i). covers. tauto.
Qed.

Lemma seal_from_total head rest :
  rstart head < rend head → wf (rend head) rest → ∃ out, seal_from head rest = Ok out.
Proof.
  revert head; induction rest as [|next rest IH]; intros head ? Hw; simpl; [eauto|].
  destruct Hw as [Hn Hw]. destruct (Z.compare_spec (rend head) (rstart next)); [| |lia].
  - apply IH; simpl; [lia|done].
  - destruct (IH next) as [out ->]; simpl; [lia|done|eauto].
Qed.

Lemma seal_spec l : well_formed l →
  ∃ out lo, seal l = Ok out ∧ sealed lo out ∧ ∀ i, covers out i ↔ covers l i.
Proof.
  destruct l as [|r l]; intros Hwf.
  - exists [], 0. done.
  - pose proof (well_formed_tail _ _ Hwf) as Hw. destruct Hwf as [lo [Hr _]].
    destruct (seal_from_total r l) as [out Ho]; [lia|done|].
    exists out, (rstart r - 1). split; [done|]. eapply seal_from_covers; eauto. lia.
Qed.

(** *** [intersection] *)

Lemma intersection_nil_r l : intersection l [] = [].
Proof. by destruct l. Qed.

Lemma intersection_cons h1 t1 h2 t2 :
  intersection (h1 :: t1) (h2 :: t2) =
    let start := Z.max (rstart h1) (rstart h2) in
    let '(end_, rest) :=
      match rend h1 ?= rend h2 with
      | Lt => (rend h1, intersection t1 (h2 :: t2))
      | Eq => (rend h1, intersection t1 t2)
      | Gt => (rend h2, intersection (h1 :: t1) t2)
      end in
    if start <? end_ then Range start end_ :: rest else rest.
Proof. reflexivity. Qed.

(** Induction on the two lists the way the loop consumes them. *)
Lemma two_lists_ind {A} (P : list A → list A → Prop) :
  (∀ l, P [] l) → (∀ l, P l []) →
  (∀ h1 t1 h2 t2, P t1 (h2 :: t2) → P t1 t2 → P (h1 :: t1) t2 → P (h1 :: t1) (h2 :: t2)) →
  ∀ l1 l2, P l1 l2.
Proof. intros H1 H2 H l1; induction l1; [done|]. induction l2; auto. Qed.

(** One emission of the loop: [rest] is what the remaining iterations yield, all
    at or above the consumed end. *)
Lemma intersection_emit h1 t1 h2 t2 lo rest :
  let e := Z.min (rend h1) (rend h2) in
  let s := Z.max (rstart h1) (rstart h2) in
  lo <= s → wf (rend h1) t1 → wf (rend h2) t2 →
  wf (Z.max lo e) rest →
  (∀ i, covers rest i ↔ covers (h1 :: t1) i ∧ covers (h2 :: t2) i ∧ e <= i) →
  wf lo (if s <? e then Range s e :: rest else rest) ∧
  ∀ i, covers (if s <? e then Range s e :: rest else rest) i ↔
       covers (h1 :: t1) i ∧ covers (h2 :: t2) i.
Proof.
  intros e s Hs Ht1 Ht2 Hw Hc. split.
  - case_if; zbool; [simpl; split; [lia|]|]; (eapply wf_weaken; [|done]; lia).
  - intros i. pose proof (wf_covers_lo _ _ i Ht1). pose proof (wf_covers_lo _ _ i Ht2).
    specialize (Hc i). subst e s.
    destruct (Z.lt_ge_cases i (Z.min (rend h1) (rend h2))); case_if; zbool; covers; intuition lia.
Qed.

Lemma intersection_wf_covers l1 l2 lo1 lo2 :
  wf lo1 l1 → wf lo2 l2 →
  wf (Z.max lo1 lo2) (intersection l1 l2) ∧
  ∀ i, covers (intersection l1 l2) i ↔ covers l1 i ∧ covers l2 i.
Proof.
  revert lo1 lo2; pattern l1, l2; apply two_lists_ind; clear l1 l2.
  - intros l lo1 lo2 _ _. destruct l; simpl; (split; [done|]); intros; covers; tauto.
  - intros l lo1 lo2 _ _. rewrite intersection_nil_r. simpl. split; [done|]. intros; covers; tauto.
  - intros h1 t1 h2 t2 IH1 IH2 IH3 lo1 lo2 Hw1 Hw2. rewrite intersection_cons.
    pose proof Hw1 as [Hh1 Ht1]; pose proof Hw2 as [Hh2 Ht2].
    assert (Hc1 := λ i, wf_covers_lo _ _ i Ht1).
    assert (Hc2 := λ i, wf_covers_lo _ _ i Ht2).
    pose proof (intersection_emit h1 t1 h2 t2 (Z.max lo1 lo2)) as Hemit. cbv zeta in *.
    destruct (Z.compare_spec (rend h1) (rend h2)) as [He|He|He].
    + destruct (IH2 (rend h1) (rend h2)) as [Hw Hc]; [done..|].
      replace (rend h1) with (Z.min (rend h1) (rend h2)) by lia.
      apply Hemit; try done; try lia; [eapply wf_weaken; [|done]; lia|].
      intros i. specialize (Hc i); specialize (Hc1 i); specialize (Hc2 i). covers. intuition lia.
    + destruct (IH1 (rend h1) lo2) as [Hw Hc]; [done..|].
      replace (rend h1) with (Z.min (rend h1) (rend h2)) by lia.
      apply Hemit; try done; try lia; [eapply wf_weaken; [|done]; lia|].
      intros i. specialize (Hc i); specialize (Hc1 i); specialize (Hc2 i). covers. intuition lia.
    + destruct (IH3 lo1 (rend h2)) as [Hw Hc]; [done..|].
      replace (rend h2) with (Z.min (rend h1) (rend h2)) by lia.
      apply Hemit; try done; try lia; [eapply wf_weaken; [|done]; lia|].
      intros i. specialize (Hc i); specialize (Hc1 i); specialize (Hc2 i). covers. intuition lia.
Qed.

Lemma sealed_weaken lo lo' l : lo' <= lo → sealed lo l → sealed lo' l.
Proof. destruct l; simpl; intuition lia. Qed.

(** The intersection of lists whose ranges do not touch is such a list. *)
Lemma intersection_sealed l1 l2 lo1 lo2 : sealed lo1 l1 → sealed lo2 l2 →
  sealed (Z.max lo1 lo2) (intersection l1 l2).
Proof.
  revert lo1 lo2; pattern l1, l2; apply two_lists_ind; clear l1 l2.
  - intros l lo1 lo2 _ _. by destruct l.
  - intros l lo1 lo2 _ _. by rewrite intersection_nil_r.
  - intros h1 t1 h2 t2 IH1 IH2 IH3 lo1 lo2 Hw1 Hw2. rewrite intersection_cons.
    pose proof Hw1 as [Hh1 Ht1]; pose proof Hw2 as [Hh2 Ht2]. cbv zeta.
    assert (Hemit : ∀ e lo rest, sealed lo rest → Z.max lo1 lo2 <= lo → (Z.max (rstart h1) (rstart h2) < e → e <= lo) →
      sealed (Z.max lo1 lo2) (if Z.max (rstart h1) (rstart h2) <? e then Range (Z.max (rstart h1) (rstart h2)) e :: rest else rest)).
    { intros e lo rest Hr Hlo He. case_if; zbool; [|by eapply sealed_weaken].
      simpl. split; [lia|]. eapply sealed_weaken; [|exact Hr]. auto. }
    destruct (Z.compare_spec (rend h1) (rend h2)) as [He|He|He].
    + eapply Hemit; [by apply IH2|lia|lia].
    + eapply Hemit; [by apply (IH1 (rend h1) lo2)|lia|lia].
    + eapply Hemit; [by apply (IH3 lo1 (rend h2))|lia|lia].
Qed.

(** *** [union] *)

Lemma union_merge_nil_r l : union_merge l [] = l.
Proof. destruct l; by simp union_merge. Qed.

Lemma union_merge_nil_l l : union_merge [] l = l.
Proof. by simp union_merge. Qed.

(** The step of the merging iterator, with the impossible case (neither head
    ends first) gone. *)
Lemma union_merge_step h1 t1 h2 t2 :
  let e := Z.min (rend h1) (rend h2) in
  ∃ l1 l2, union_merge (h1 :: t1) (h2 :: t2)
           = Range (Z.min (rstart h1) (rstart h2)) e :: union_merge l1 l2 ∧
    (length l1 + length l2 < length (h1 :: t1) + length (h2 :: t2))%nat ∧
    (l1 = t1 ∧ rend h1 = e ∨
     l1 = (if rstart h1 <? e then Range e (rend h1) :: t1 else h1 :: t1) ∧ e < rend h1) ∧
    (l2 = t2 ∧ rend h2 = e ∨ l2 = Range e (rend h2) :: t2 ∧ e < rend h2).
Proof.
  cbv zeta. simp union_merge. cbv zeta.
  destruct (Z.eqb_spec (rend h1) (Z.min (rend h1) (rend h2))) as [E1|E1];
  destruct (Z.eqb_spec (rend h2) (Z.min (rend h1) (rend h2))) as [E2|E2]; [..|lia];
    (eexists _, _; split; [reflexivity|]); repeat split; simpl; try lia;
    try (left; split; [done|lia]); try (right; split; [done|lia]).
  case_if; simpl; lia.
Qed.

Lemma union_merge_wf n l1 l2 lo :
  (length l1 + length l2 < n)%nat → wf lo l1 → wf lo l2 → wf lo (union_merge l1 l2).
Proof.
  revert l1 l2 lo; induction n as [|n IH]; intros l1 l2 lo Hn Hw1 Hw2; [lia|].
  destruct l1 as [|h1 t1]; [by rewrite union_merge_nil_l|].
  destruct l2 as [|h2 t2]; [by rewrite union_merge_nil_r|].
  destruct (union_merge_step h1 t1 h2 t2) as (l1 & l2 & -> & Hlen & Hl1 & Hl2).
  destruct Hw1 as [Hh1 Ht1], Hw2 as [Hh2 Ht2]. simpl. split; [lia|].
  apply IH; [lia|..].
  - destruct Hl1 as [[-> He]|[-> He]]; [by rewrite <-He|].
    case_if; zbool; simpl; split; try lia; done.
  - destruct Hl2 as [[-> He]|[-> He]]; [by rewrite <-He|]. simpl; split; [lia|done].
Qed.

Lemma union_merge_covers n l1 l2 lo i :
  (length l1 + length l2 < n)%nat → wf lo l1 → wf lo l2 →
  covers l1 i ∨ covers l2 i → covers (union_merge l1 l2) i.
Proof.
  revert l1 l2 lo; induction n as [|n IH]; intros l1 l2 lo Hn Hw1 Hw2; [lia|].
  destruct l1 as [|h1 t1]; [rewrite union_merge_nil_l; covers; tauto|].
  destruct l2 as [|h2 t2]; [rewrite union_merge_nil_r; covers; tauto|].
  destruct (union_merge_step h1 t1 h2 t2) as (l1 & l2 & -> & Hlen & Hl1 & Hl2).
  destruct Hw1 as [Hh1 Ht1], Hw2 as [Hh2 Ht2]. intros Hi.
  destruct (decide (Z.min (rstart h1) (rstart h2) <= i < Z.min (rend h1) (rend h2)))
    as [?|Hout]; [left; done|right].
  apply (IH _ _ (Z.min (rend h1) (rend h2))); [lia|..].
  - destruct Hl1 as [[-> He]|[-> He]]; [by rewrite <-He|].
    case_if; zbool; simpl; split; try lia; done.
  - destruct Hl2 as [[-> He]|[-> He]]; [by rewrite <-He|]. simpl; split; [lia|done].
  - destruct Hl1 as [[-> He1]|[-> He1]]; destruct Hl2 as [[-> He2]|[-> He2]];
      repeat case_if; zbool; covers; intuition lia.
Qed.

(** An index [union] adds beyond the two lists lies in a gap: above a range of
    the first list and below a range of the second. *)
Definition gap_above (l1 l2 : list range) (i : Z) : Prop :=
  ∃ r1 r2, r1 ∈ l1 ∧ r2 ∈ l2 ∧ rend r1 <= i < rstart r2.

Lemma union_merge_sound n l1 l2 lo i :
  (length l1 + length l2 < n)%nat → wf lo l1 → wf lo l2 →
  covers (union_merge l1 l2) i → covers l1 i ∨ covers l2 i ∨ gap_above l1 l2 i.
Proof.
  revert l1 l2 lo; induction n as [|n IH]; intros l1 l2 lo Hn Hw1 Hw2; [lia|].
  destruct l1 as [|h1 t1]; [rewrite union_merge_nil_l; tauto|].
  destruct l2 as [|h2 t2]; [rewrite union_merge_nil_r; tauto|].
  destruct (union_merge_step h1 t1 h2 t2) as (l1 & l2 & -> & Hlen & Hl1 & Hl2).
  pose proof Hw1 as [Hh1 Ht1]; pose proof Hw2 as [Hh2 Ht2].
  rewrite covers_cons. unfold in_range at 1; simpl.
  intros [Hi|Hi].
  { destruct (decide (rstart h1 <= i < rend h1)); [left; by left|].
    destruct (decide (rstart h2 <= i < rend h2)); [right; left; by left|]. lia. }
  apply (IH _ _ (Z.min (rend h1) (rend h2))) in Hi; [|lia|..].
  2:{ destruct Hl1 as [[-> He]|[-> He]]; [by rewrite <-He|].
      case_if; zbool; simpl; split; try lia; done. }
  2:{ destruct Hl2 as [[-> He]|[-> He]]; [by rewrite <-He|]. simpl; split; [lia|done]. }
  (* every range left in the first list ends where one of [h1 :: t1] ends *)
  assert (Hends : ∀ r, r ∈ l1 → Z.min (rend h1) (rend h2) < rend r ∧
                       ∃ r', r' ∈ h1 :: t1 ∧ rend r' = rend r).
  { intros r Hr. assert (r ∈ t1 ∨ rend r = rend h1 ∧ Z.min (rend h1) (rend h2) < rend h1) as [Ht|Ht].
    { destruct Hl1 as [[-> He]|[-> He]]; [by left|].
      case_if_in Hr; apply elem_of_cons in Hr as [->|]; simpl; auto. }
    - pose proof (wf_elem _ _ _ Ht1 Ht). split; [lia|]. exists r. lmem.
    - split; [lia|]. exists h1. split; [lmem|lia]. }
  destruct Hi as [Hi|[Hi|(r1 & r2 & Hr1 & Hr2 & Hi)]].
  - left. destruct Hl1 as [[-> He]|[-> He]]; [by right|].
    case_if_in Hi; zbool; covers; intuition lia.
  - right. destruct Hl2 as [[-> He]|[-> He]]; [left; by right|].
    apply covers_cons in Hi as [Hi|?]; [|left; by right]. unfold in_range in Hi; simpl in Hi.
    destruct (decide (rstart h2 <= i)); [left; left; unfold in_range; lia|right].
    exists h1, h2. split; [lmem|]. split; [lmem|lia].
  - destruct (Hends _ Hr1) as (? & r' & ? & ?). right; right.
    destruct Hl2 as [[-> He]|[-> He]].
    + exists r', r2. split; [done|]. split; [lmem|lia].
    + apply elem_of_cons in Hr2 as [->|]; [simpl in Hi; lia|].
      exists r', r2. split; [done|]. split; [lmem|lia].
Qed.

(** *** [from_sorted_indexes] *)

Lemma indexes_loop_spec beg iter : ∀ end_,
  0 <= beg < end_ → Forall (λ i, end_ <= i < u32_max) iter → StronglySorted Z.lt iter →
  ∃ out, indexes_loop beg end_ iter = Ok out ∧ sealed (beg - 1) out ∧
    ∀ i, covers out i ↔ beg <= i < end_ ∨ i ∈ iter.
Proof.
  revert beg. induction iter as [|idx iter IH]; intros beg end_ Hbe Hall Hs.
  - exists [Range beg end_]. simpl. split; [done|]. split; [intuition lia|].
    intros i. covers. lmem.
  - apply Forall_cons in Hall as [Hidx Hall]. apply StronglySorted_inv in Hs as [Hs Hlt].
    assert (Hsucc : idx_succ idx = idx + 1).
    { unfold idx_succ. rewrite Z.mod_small; unfold u32_max in *; lia. }
    assert (Forall (λ i, idx + 1 <= i < u32_max) iter).
    { apply Forall_forall. intros x Hx. rewrite Forall_forall in Hall, Hlt.
      specialize (Hall _ Hx). specialize (Hlt _ Hx). lia. }
    simpl. rewrite Hsucc. destruct (Z.compare_spec end_ idx) as [He|He|He]; [| |lia].
    + destruct (IH beg (idx + 1)) as (out & -> & Hsl & Hc); [lia|done..|].
      exists out. split; [done|]. split; [done|]. intros i. rewrite Hc, elem_of_cons.
      intuition lia.
    + destruct (IH idx (idx + 1)) as (out & -> & Hsl & Hc); [lia|done..|].
      exists (Range beg end_ :: out). split; [done|]. simpl. split.
      * split; [lia|]. destruct out as [|r out]; [done|]. simpl in *. intuition lia.
      * intros i. rewrite covers_cons, Hc, elem_of_cons. unfold in_range. simpl. intuition lia.
Qed.

(** *** [paginate] *)

(** The part of a range list inside one page, relative to the page start. *)
Definition page_part (page : range) (ranges : list range) (i : Z) : Prop :=
  in_range i page ∧ covers ranges i.

Lemma scan_page_spec page ranges included lo :
  rstart page < rend page → wf lo ranges →
  (∀ i, covers included i → 0 <= i < rend page - rstart page ∧ i + rstart page < lo) →
  match scan_page page included ranges with
  | PageFull => ∃ r, r ∈ ranges ∧ rstart r <= rstart page ∧ rend page <= rend r
  | PageDone included' ranges' =>
      (∃ lo', wf lo' ranges') ∧
      (∀ i, covers included' i ↔
            covers included i ∨ page_part page ranges (i + rstart page)) ∧
      (∀ i, rend page <= i → covers ranges' i ↔ covers ranges i)
  | PageEnd included' =>
      (∀ i, covers included' i ↔
            covers included i ∨ page_part page ranges (i + rstart page)) ∧
      (∀ i, covers ranges i → i < rend page)
  end.
Proof.
  intros Hp. revert included lo. induction ranges as [|r tl IH]; intros included lo Hw Hinc; simpl.
  { unfold page_part. split; intros; covers; tauto. }
  destruct Hw as [Hr Hw]. case_bool_decide as Hfull.
  { exists r. split; [lmem|]. destruct page as [ps pe]; simpl in *. injection Hfull as E1 E2. lia. }
  match goal with |- context [scan_page page ?x tl] => set (inc := x) end.
  assert (Hcov : ∀ x, covers inc x ↔ covers included x ∨
                      in_range (x + rstart page) page ∧ in_range (x + rstart page) r).
  { intros x. subst inc. rewrite Z.gtb_ltb. case_if; zbool; covers; intuition lia. }
  destruct (Z.eqb_spec (rend page) (Z.min (rend page) (rend r))) as [He|He].
  - split; [|split].
    + case_if; zbool; [eauto|]. exists lo. simpl. split; [lia|done].
    + intros x. rewrite Hcov. unfold page_part.
      pose proof (wf_covers_lo _ _ (x + rstart page) Hw). covers. intuition lia.
    + intros x Hx. case_if; zbool; covers; intuition lia.
  - specialize (IH inc (rend r) Hw). destruct (scan_page page inc tl) as [|inc' rs'|inc'].
    + destruct IH as (r' & ? & ?); [|exists r'; split; [lmem|done]].
      intros x. rewrite Hcov. intros [Hx|Hx]; [specialize (Hinc _ Hx)|]; unfold in_range in *; lia.
    + destruct IH as (? & Hc & Hrest).
      { intros x. rewrite Hcov. intros [Hx|Hx]; [specialize (Hinc _ Hx)|]; unfold in_range in *; lia. }
      split; [done|]. split.
      * intros x. rewrite Hc, Hcov. unfold page_part. covers. tauto.
      * intros x Hx. rewrite (Hrest _ Hx). covers. intuition lia.
    + destruct IH as (Hc & Hrest).
      { intros x. rewrite Hcov. intros [Hx|Hx]; [specialize (Hinc _ Hx)|]; unfold in_range in *; lia. }
      split.
      * intros x. rewrite Hc, Hcov. unfold page_part. covers. tauto.
      * intros x. covers. intros [?|?]; [lia|auto].
Qed.

(** [selects out k x]: the page list [out] selects the row at offset [x] of page
    [k]; a page without a range list is selected as a whole. *)
Definition selects (out : list (Z * option (list range))) (k x : Z) : Prop :=
  ∃ sel, (k, sel) ∈ out ∧ match sel with None => True | Some rl => covers rl x end.

Lemma selects_nil k x : selects [] k x ↔ False.
Proof. split; [intros (? & ?%elem_of_nil & _)|]; done. Qed.

Lemma selects_cons k sel out k' x :
  selects ((k, sel) :: out) k' x ↔
  k = k' ∧ match sel with None => True | Some rl => covers rl x end ∨ selects out k' x.
Proof.
  unfold selects. split.
  - intros (s & [[= -> ->]|Hs]%elem_of_cons & ?); [tauto|right; eauto].
  - intros [[-> ?]|(s & ? & ?)]; eexists; (split; [|done]); lmem.
Qed.

Lemma selects_emit k inc out k' x :
  selects (emit k inc out) k' x ↔ k = k' ∧ covers inc x ∨ selects out k' x.
Proof. destruct inc; cbn [emit]; [covers; tauto|apply selects_cons]. Qed.

Lemma paginate_from_cons pix a b rest ranges :
  paginate_from pix (a :: b :: rest) ranges =
    if is_empty (Range a b) then Panic "assertion failed: !page.is_empty()"
    else match scan_page (Range a b) [] ranges with
    | PageFull => out ← paginate_from (pix + 1) (b :: rest) ranges; Ok ((pix, None) :: out)
    | PageEnd included => Ok (emit pix included [])
    | PageDone included ranges' =>
        out ← paginate_from (pix + 1) (b :: rest) ranges'; Ok (emit pix included out)
    end.
Proof. reflexivity. Qed.

#[local] Arguments paginate_from : simpl never.

(** Pages are reported in order: nothing below the first one. *)
Lemma paginate_from_lo offsets : ∀ pix ranges out k x,
  paginate_from pix offsets ranges = Ok out → selects out k x → pix <= k.
Proof.
  induction offsets as [|a [|b rest] IH]; intros pix ranges out k x;
    [intros [= <-]; rewrite selects_nil; tauto..|].
  rewrite paginate_from_cons. case_if; [done|].
  destruct (scan_page (Range a b) [] ranges); intros Ho; inv_res Ho;
    rewrite ?selects_cons, ?selects_emit, ?selects_nil; intros [[-> _]|Hs]; try lia; try done;
    pose proof (IH _ _ _ _ _ Hv Hs); lia.
Qed.

Lemma paginate_from_spec offsets : ∀ pix ranges lo,
  wf lo ranges → StronglySorted Z.lt offsets →
  ∃ out, paginate_from pix offsets ranges = Ok out ∧
    ∀ k a b x, offsets !! k = Some a → offsets !! S k = Some b → a <= x < b →
      covers ranges x ↔ selects out (pix + Z.of_nat k) (x - a).
Proof.
  induction offsets as [|a [|b rest] IH]; intros pix ranges lo Hw Hs;
    [exists []; split; [done|]; intros [|k] ? ? ? ? ?; simplify_eq/=..|].
  assert (Hab : a < b).
  { apply StronglySorted_inv in Hs as [_ Hs]. apply Forall_cons in Hs as [? _]. done. }
  assert (Hge : ∀ k c, (b :: rest) !! k = Some c → b <= c).
  { intros [|k] c Hk; simplify_eq/=; [lia|]. apply StronglySorted_inv in Hs as [Hs _].
    apply StronglySorted_inv in Hs as [_ Hs]. rewrite Forall_forall in Hs.
    apply list_elem_of_lookup_2 in Hk. specialize (Hs _ Hk). lia. }
  apply StronglySorted_inv in Hs as [Hs _]. rewrite paginate_from_cons.
  assert (is_empty (Range a b) = false) as ->.
  { unfold is_empty; simpl. apply negb_false_iff. lia. }
  pose proof (scan_page_spec (Range a b) ranges [] lo Hab Hw) as Hscan.
  destruct (scan_page (Range a b) [] ranges) as [|inc rs|inc].
  - destruct (IH (pix + 1) ranges lo Hw Hs) as (out & Ho & Hout). rewrite Ho. eexists; split; [done|].
    destruct Hscan as (r & Hr & ? & ?); [intros; covers; done|].
    intros [|k] a' b' x Ha Hb Hx; simplify_eq/=; rewrite selects_cons.
    + split; [intros _; left; split; [lia|done]|intros _].
      apply Exists_exists. exists r. unfold in_range. split; [done|lia].
    + rewrite (Hout _ _ _ _ Ha Hb Hx).
      replace (pix + 1 + Z.of_nat k) with (pix + Z.of_nat (S k)) by lia. intuition lia.
  - destruct Hscan as ((lo' & Hw') & Hin & Hrest); [intros; covers; done|].
    destruct (IH (pix + 1) rs lo' Hw' Hs) as (out & Ho & Hout). rewrite Ho.
    eexists; split; [done|].
    intros [|k] a' b' x Ha Hb Hx; simplify_eq/=; rewrite selects_emit, Hin.
    + unfold page_part, in_range. simpl. replace (x - a' + a') with x by lia.
      split; [intros; left; split; [lia|right; split; [lia|done]]|].
      intros [[_ [[]%covers_nil|[_ ?]]]|Hsel]; [done|].
      pose proof (paginate_from_lo _ _ _ _ _ _ Ho Hsel). lia.
    + rewrite <-(Hrest x) by (pose proof (Hge _ _ Ha); simpl; lia).
      rewrite (Hout _ _ _ _ Ha Hb Hx).
      replace (pix + 1 + Z.of_nat k) with (pix + Z.of_nat (S k)) by lia. intuition lia.
  - destruct Hscan as (Hin & Hrest); [intros; covers; done|]. eexists; split; [done|].
    intros [|k] a' b' x Ha Hb Hx; simplify_eq/=; rewrite selects_emit, Hin, selects_nil.
    + unfold page_part, in_range. simpl. replace (x - a' + a') with x by lia.
      rewrite covers_nil. intuition lia.
    + split; [|intuition lia]. intros Hc%Hrest. pose proof (Hge _ _ Ha). simpl in *. lia.
Qed.

(** ** Properties *)

(** [RangeList::intersection] of two well-formed lists is again a list that
    [RangeList::try_from] accepts, and it covers exactly the indexes both lists
    cover. *)
Theorem range_intersection_spec (l1 l2 : list range) :
  try_from l1 = Ok l1 → try_from l2 = Ok l2 →
  try_from (intersection l1 l2) = Ok (intersection l1 l2) ∧
  ∀ i, covers (intersection l1 l2) i ↔ covers l1 i ∧ covers l2 i.
Proof.
  rewrite !try_from_spec. intros [lo1 H1] [lo2 H2].
  destruct (intersection_wf_covers _ _ _ _ H1 H2) as [Hw Hc].
  split; [by exists (Z.max lo1 lo2)|done].
Qed.

Lemma range_intersection_witness :
  intersection [Range 0 5; Range 7 9] [Range 3 8] = [Range 3 5; Range 7 8] ∧
  (covers [Range 3 5; Range 7 8] 4 ↔
   covers [Range 0 5; Range 7 9] 4 ∧ covers [Range 3 8] 4).
Proof.
  split; [reflexivity|].
  exact (proj2 (range_intersection_spec [Range 0 5; Range 7 9] [Range 3 8]
                  eq_refl eq_refl) 4).
Defined.

(** [RangeList::union] of two well-formed lists never panics, yields ranges
    of which no two overlap or touch, and covers every index of either list; an
    index it adds beyond them lies above some range of the first list and below
    some range of the second. *)
Theorem range_union_spec (l1 l2 : list range) :
  try_from l1 = Ok l1 → try_from l2 = Ok l2 →
  ∃ out lo, union l1 l2 = Ok out ∧ sealed lo out ∧
    (∀ i, covers l1 i ∨ covers l2 i → covers out i) ∧
    (∀ i, covers out i → covers l1 i ∨ covers l2 i ∨ gap_above l1 l2 i).
Proof.
  rewrite !try_from_spec. intros [lo1 H1] [lo2 H2].
  set (lo := Z.min lo1 lo2). set (n := S (length l1 + length l2)).
  assert (wf lo l1) by (eapply wf_weaken; [|done]; lia).
  assert (wf lo l2) by (eapply wf_weaken; [|done]; lia).
  destruct (seal_spec (union_merge l1 l2)) as (out & lo' & Ho & Hs & Hc).
  { exists lo. apply (union_merge_wf n); try done. lia. }
  exists out, lo'. split; [done|]. split; [done|]. split; intros i Hi.
  - rewrite Hc. apply (union_merge_covers n _ _ lo); try done. lia.
  - rewrite Hc in Hi. apply (union_merge_sound n _ _ lo) in Hi; try done. lia.
Qed.

Lemma range_union_witness :
  union [Range 0 3; Range 8 9] [Range 2 5] = Ok [Range 0 5; Range 8 9] ∧
  ∃ out lo, union [Range 0 3; Range 8 9] [Range 2 5] = Ok out ∧ sealed lo out ∧
    (∀ i, covers [Range 0 3; Range 8 9] i ∨ covers [Range 2 5] i → covers out i) ∧
    (∀ i, covers out i → covers [Range 0 3; Range 8 9] i ∨ covers [Range 2 5] i ∨
                         gap_above [Range 0 3; Range 8 9] [Range 2 5] i).
Proof.
  split; [vm_compute; reflexivity|].
  exact (range_union_spec [Range 0 3; Range 8 9] [Range 2 5] eq_refl eq_refl).
Defined.

(** [RangeList::union] is not exact and not symmetric: when the first list
    ends before the second one starts, the gap between them is filled, while the
    swapped arguments give the two ranges. *)
Theorem range_union_fills_gap :
  union [Range 0 1] [Range 5 6] = Ok [Range 0 6] ∧
  union [Range 5 6] [Range 0 1] = Ok [Range 0 1; Range 5 6] ∧
  ¬ covers [Range 0 1] 3 ∧ ¬ covers [Range 5 6] 3 ∧ covers [Range 0 6] 3.
Proof.
  split; [vm_compute; reflexivity|]. split; [vm_compute; reflexivity|].
  covers. intuition lia.
Qed.

(** [RangeList::paginate] of a well-formed list over strictly increasing page
    offsets selects row [x - a] of page [k = [a, b)] exactly when the list covers
    the row [x] of that page, and never panics. *)
Theorem range_paginate_spec (l : list range) (page_offsets : list Z) :
  try_from l = Ok l → page_offsets ≠ [] → StronglySorted Z.lt page_offsets →
  ∃ out, paginate l page_offsets = Ok out ∧
    ∀ k a b x, page_offsets !! k = Some a → page_offsets !! S k = Some b → a <= x < b →
      covers l x ↔ selects out (Z.of_nat k) (x - a).
Proof.
  rewrite try_from_spec. intros [lo Hw] Hne Hs.
  destruct (paginate_from_spec page_offsets 0 l lo Hw Hs) as (out & Ho & Hout).
  exists out. split; [by destruct page_offsets|done].
Qed.

Lemma range_paginate_witness :
  paginate [Range 5 10; Range 12 25] [0; 10; 20; 30]
    = Ok [(0, Some [Range 5 10]); (1, Some [Range 2 10]); (2, Some [Range 0 5])] ∧
  ∃ out, paginate [Range 5 10; Range 12 25] [0; 10; 20; 30] = Ok out ∧
    ∀ k a b x, [0; 10; 20; 30] !! k = Some a → [0; 10; 20; 30] !! S k = Some b → a <= x < b →
      covers [Range 5 10; Range 12 25] x ↔ selects out (Z.of_nat k) (x - a).
Proof.
  split; [reflexivity|]. apply range_paginate_spec; [reflexivity|discriminate|].
  repeat constructor.
Defined.

(** [RangeList::from_sorted_indexes] of strictly increasing [u32] indexes
    below [u32::MAX] yields maximal ranges that cover exactly those indexes. *)
Theorem range_from_sorted_indexes_spec (indexes : list Z) :
  Forall (λ i, 0 <= i < u32_max) indexes → StronglySorted Z.lt indexes →
  ∃ out lo, from_sorted_indexes indexes = Ok out ∧ sealed lo out ∧
    ∀ i, covers out i ↔ i ∈ indexes.
Proof.
  destruct indexes as [|idx iter]; intros Hall Hs.
  { exists [], 0. split; [done|]. split; [done|]. intros i. covers. lmem. }
  apply Forall_cons in Hall as [Hidx Hall]. apply StronglySorted_inv in Hs as [Hs Hlt].
  destruct (indexes_loop_spec idx iter (idx + 1)) as (out & Ho & Hsl & Hc); [lia| |done|].
  { apply Forall_forall. intros x Hx. rewrite Forall_forall in Hall, Hlt.
    specialize (Hall _ Hx). specialize (Hlt _ Hx). lia. }
  exists out, (idx - 1). cbn [from_sorted_indexes].
  unfold idx_succ at 1. rewrite Z.mod_small by (unfold u32_max in *; lia).
  split; [done|]. split; [done|]. intros i. rewrite Hc, elem_of_cons. intuition lia.
Qed.

Lemma range_from_sorted_indexes_witness :
  from_sorted_indexes [1; 2; 3; 7] = Ok [Range 1 4; Range 7 8] ∧
  ∃ out lo, from_sorted_indexes [1; 2; 3; 7] = Ok out ∧ sealed lo out ∧
    ∀ i, covers out i ↔ i ∈ [1; 2; 3; 7].
Proof.
  split; [reflexivity|].
  apply range_from_sorted_indexes_spec; repeat constructor; vm_compute; congruence.
Defined.
