(* ===== verification/Bytes.v ===== *)
(** * Bytes: byte strings, their order and big-endian integers

    Keys of the database are byte strings compared lexicographically (RocksDB's
    default bytewise comparator, [Ord] on [\[u8\]]).  A byte is a [Z] in
    [0..255].  Integers inside keys are written with [to_be_bytes]. *)
From S2P Require Import Prelude.

Abbreviation bytes := (list Z).

Definition byte_ok (b : Z) : Prop := 0 <= b <= 255.
Definition bytes_ok (k : bytes) : Prop := Forall byte_ok k.

(** [Ord::cmp] on byte slices. *)
Fixpoint bytes_cmp (a b : bytes) : comparison :=
  match a, b with
  | [], [] => Eq
  | [], _ :: _ => Lt
  | _ :: _, [] => Gt
  | x :: a, y :: b => match x ?= y with Eq => bytes_cmp a b | c => c end
  end.

Definition bytes_leb (a b : bytes) : bool :=
  match bytes_cmp a b with Gt => false | _ => true end.
Definition bytes_ltb (a b : bytes) : bool :=
  match bytes_cmp a b with Lt => true | _ => false end.
Definition bytes_lt (a b : bytes) : Prop := bytes_cmp a b = Lt.
Definition bytes_le (a b : bytes) : Prop := bytes_cmp a b ≠ Gt.

(** [x.to_be_bytes()] for an [n]-byte unsigned integer, and its inverse. *)
Fixpoint be_bytes (n : nat) (x : Z) : bytes :=
  match n with
  | O => []
  | S n => (x / 256 ^ Z.of_nat n) mod 256 :: be_bytes n x
  end.
Fixpoint from_be_bytes (k : bytes) : Z :=
  match k with
  | [] => 0
  | b :: k => b * 256 ^ Z.of_nat (length k) + from_be_bytes k
  end.

(** The bytes of a Rust [str]. *)
Definition str_bytes (s : string) : bytes :=
  (λ c, Z.of_nat (Ascii.nat_of_ascii c)) <$> String.list_ascii_of_string s.

(** ** Order *)

Lemma bytes_cmp_refl a : bytes_cmp a a = Eq.
Proof. induction a as [|x a IH]; simpl; [done|]. by rewrite Z.compare_refl. Qed.

Lemma bytes_cmp_eq a b : bytes_cmp a b = Eq ↔ a = b.
Proof.
  split; [|intros ->; apply bytes_cmp_refl].
  revert b; induction a as [|x a IH]; intros [|y b]; simpl; try done.
  destruct (Z.compare_spec x y) as [->|?|?]; try done. intros ?%IH. by subst.
Qed.

Lemma bytes_cmp_antisym a b : bytes_cmp b a = CompOpp (bytes_cmp a b).
Proof.
  revert b; induction a as [|x a IH]; intros [|y b]; simpl; try done.
  rewrite (Z.compare_antisym x y). destruct (x ?= y); simpl; auto.
Qed.

Lemma bytes_lt_trans a b c : bytes_lt a b → bytes_lt b c → bytes_lt a c.
Proof.
  unfold bytes_lt. revert b c; induction a as [|x a IH]; intros [|y b] [|z c]; simpl; try done.
  destruct (Z.compare_spec x y), (Z.compare_spec y z), (Z.compare_spec x z);
    subst; try done; try lia; eauto.
Qed.

Lemma bytes_lt_irrefl a : ¬ bytes_lt a a.
Proof. unfold bytes_lt. by rewrite bytes_cmp_refl. Qed.

Lemma bytes_le_lteq a b : bytes_le a b ↔ bytes_lt a b ∨ a = b.
Proof.
  unfold bytes_le, bytes_lt. rewrite <-bytes_cmp_eq. destruct (bytes_cmp a b); naive_solver.
Qed.

Lemma bytes_lt_nle a b : bytes_lt a b ↔ ¬ bytes_le b a.
Proof.
  unfold bytes_le, bytes_lt. rewrite (bytes_cmp_antisym a b).
  destruct (bytes_cmp a b); simpl; naive_solver.
Qed.

Lemma bytes_le_lt_trans a b c : bytes_le a b → bytes_lt b c → bytes_lt a c.
Proof. rewrite bytes_le_lteq. intros [?| ->]; eauto using bytes_lt_trans. Qed.
Lemma bytes_lt_le_trans a b c : bytes_lt a b → bytes_le b c → bytes_lt a c.
Proof. rewrite bytes_le_lteq. intros ? [?|<-]; eauto using bytes_lt_trans. Qed.
Lemma bytes_le_trans a b c : bytes_le a b → bytes_le b c → bytes_le a c.
Proof. rewrite !bytes_le_lteq. intros [?| ->] [?| ->]; eauto using bytes_lt_trans. Qed.
Lemma bytes_lt_le a b : bytes_lt a b → bytes_le a b.
Proof. rewrite bytes_le_lteq. tauto. Qed.
Lemma bytes_le_refl a : bytes_le a a.
Proof. apply bytes_le_lteq. by right. Qed.
#[export] Hint Resolve bytes_lt_trans bytes_le_lt_trans bytes_lt_le_trans bytes_le_trans
  bytes_lt_le bytes_le_refl : sqd.

Lemma bytes_leb_spec a b : bytes_leb a b = true ↔ bytes_le a b.
Proof. unfold bytes_leb, bytes_le. destruct (bytes_cmp a b); naive_solver. Qed.
Lemma bytes_ltb_spec a b : bytes_ltb a b = true ↔ bytes_lt a b.
Proof. unfold bytes_ltb, bytes_lt. destruct (bytes_cmp a b); naive_solver. Qed.
Lemma bytes_leb_false a b : bytes_leb a b = false ↔ bytes_lt b a.
Proof. rewrite bytes_lt_nle, <-bytes_leb_spec. destruct (bytes_leb a b); naive_solver. Qed.

#[export] Instance bytes_lt_dec a b : Decision (bytes_lt a b).
Proof. unfold bytes_lt. apply _. Defined.
#[export] Instance bytes_le_dec a b : Decision (bytes_le a b).
Proof. unfold bytes_le. apply _. Defined.

(** Keys that share a prefix compare by what follows it; keys with prefixes of
    one length compare by the prefixes first. *)
Lemma bytes_cmp_app p a b : bytes_cmp (p ++ a) (p ++ b) = bytes_cmp a b.
Proof. induction p as [|x p IH]; simpl; [done|]. by rewrite Z.compare_refl. Qed.

Lemma bytes_cmp_app_len p q a b : length p = length q →
  bytes_cmp (p ++ a) (q ++ b)
  = match bytes_cmp p q with Eq => bytes_cmp a b | c => c end.
Proof.
  revert q; induction p as [|x p IH]; intros [|y q]; simpl; intros Hl; try done; try lia.
  destruct (x ?= y); [|done..]. apply IH. lia.
Qed.

(** ** Big-endian integers *)

Lemma be_bytes_length n x : length (be_bytes n x) = n.
Proof. induction n; simpl; auto. Qed.

Lemma be_bytes_ok n x : bytes_ok (be_bytes n x).
Proof.
  induction n as [|n IH]; simpl; constructor; [|done].
  unfold byte_ok. pose proof (Z.mod_pos_bound (x / 256 ^ Z.of_nat n) 256). lia.
Qed.

Lemma be_bytes_mod n x : be_bytes n (x mod 256 ^ Z.of_nat n) = be_bytes n x.
Proof.
  assert (∀ m, (n <= m)%nat → be_bytes n (x mod 256 ^ Z.of_nat m) = be_bytes n x) as H;
    [|by apply H].
  induction n as [|n IH]; intros m Hm; [done|]. cbn [be_bytes]. f_equal; [|apply IH; lia].
  assert (E : 256 ^ Z.of_nat m = 256 ^ Z.of_nat n * (256 * 256 ^ (Z.of_nat m - Z.of_nat n - 1))).
  { rewrite <-Z.pow_succ_r, <-Z.pow_add_r by lia. f_equal. lia. }
  rewrite E, Z.rem_mul_r by lia.
  rewrite (Z.mul_comm (256 ^ Z.of_nat n) ((x / _) mod _)), Z.div_add by lia.
  rewrite (Z.div_small (x mod _)), Z.add_0_l by (apply Z.mod_pos_bound; lia).
  apply Z.mod_mod_divide, Z.divide_factor_l.
Qed.

Lemma from_be_bytes_be n x : 0 <= x < 256 ^ Z.of_nat n → from_be_bytes (be_bytes n x) = x.
Proof.
  revert x; induction n as [|n IH]; intros x Hx; [simpl in *; lia|].
  cbn [be_bytes from_be_bytes]. rewrite be_bytes_length.
  rewrite <-(be_bytes_mod n x), IH by (apply Z.mod_pos_bound; lia).
  rewrite Nat2Z.inj_succ, Z.pow_succ_r in Hx by lia.
  rewrite (Z.mod_small (x / _)).
  - pose proof (Z.div_mod x (256 ^ Z.of_nat n)). lia.
  - split; [apply Z.div_pos; lia|]. apply Z.div_lt_upper_bound; lia.
Qed.

Lemma be_bytes_cmp n x y :
  0 <= x < 256 ^ Z.of_nat n → 0 <= y < 256 ^ Z.of_nat n →
  bytes_cmp (be_bytes n x) (be_bytes n y) = (x ?= y).
Proof.
  revert x y; induction n as [|n IH]; intros x y Hx Hy.
  { simpl in *. assert (x = 0) as -> by lia. assert (y = 0) as -> by lia. done. }
  cbn [be_bytes bytes_cmp]. rewrite Nat2Z.inj_succ, Z.pow_succ_r in Hx, Hy by lia.
  assert (Hs : ∀ z, 0 <= z < 256 * 256 ^ Z.of_nat n →
                    (z / 256 ^ Z.of_nat n) mod 256 = z / 256 ^ Z.of_nat n).
  { intros z Hz. apply Z.mod_small. split; [apply Z.div_pos; lia|].
    apply Z.div_lt_upper_bound; lia. }
  rewrite !Hs by done. rewrite <-(be_bytes_mod n x), <-(be_bytes_mod n y).
  rewrite IH by (apply Z.mod_pos_bound; lia).
  pose proof (Z.div_mod x (256 ^ Z.of_nat n)). pose proof (Z.div_mod y (256 ^ Z.of_nat n)).
  pose proof (Z.mod_pos_bound x (256 ^ Z.of_nat n)). pose proof (Z.mod_pos_bound y (256 ^ Z.of_nat n)).
  set (d := 256 ^ Z.of_nat n) in *. assert (0 < d) by (subst d; lia).
  destruct (Z.compare_spec (x / d) (y / d)) as [E|E|E].
  - destruct (Z.compare_spec (x mod d) (y mod d)); symmetry;
      [apply Z.compare_eq_iff|apply Z.compare_lt_iff|apply Z.compare_gt_iff]; nia.
  - symmetry. apply Z.compare_lt_iff. nia.
  - symmetry. apply Z.compare_gt_iff. nia.
Qed.

(** * Sid: short identifiers

    Models crates/primitives/src/sid.rs.  [SID<N>] is a zero-padded array of [N]
    bytes; a Rust [&str] is the list of its bytes. *)

Section SID.
Context (N : nat).

(** [SID { bytes }] *)
Abbreviation sid := bytes.

(** [u8::is_ascii_alphanumeric() || b == b'-' || b == b'_'] *)
Definition is_valid_byte (b : Z) : bool :=
  ((48 <=? b) && (b <=? 57) || (65 <=? b) && (b <=? 90) || (97 <=? b) && (b <=? 122)
   || (b =? 45) || (b =? 95))%bool.

(** [iter().position(|b| *b == 0)] *)
Fixpoint position_zero (k : bytes) : option nat :=
  match k with
  | [] => None
  | b :: k => if b =? 0 then Some O else S <$> position_zero k
  end.

(** [SID::try_new] *)
Definition try_new (k : bytes) : res sid :=
  let slice := match position_zero k with Some e => take e k | None => k end in
  let tail := match position_zero k with Some e => drop e k | None => [] end in
  if negb (forallb (λ b, b =? 0) tail) then
    Err (EMsg "only trailing 0 bytes are allowed in SID")
  else if negb (forallb is_valid_byte slice) then
    Err (EMsg "only ascii alphanumeric, '-' and '_' characters are allowed in SID strings")
  else Ok k.

(** [let mut bytes = [0; N]; bytes[..value.len()].copy_from_slice(value)] *)
Definition pad (value : bytes) : bytes := value ++ replicate (N - length value) 0.

(** [TryFrom<&[u8]>] *)
Definition sid_from_bytes (value : bytes) : res sid :=
  if Z.of_nat (length value) >? Z.of_nat N then Err (EMsg "binary string is too long")
  else try_new (pad value).

(** [TryFrom<&str>], [FromStr::from_str] *)
Definition sid_from_str (value : bytes) : res sid :=
  if Z.of_nat (length value) >? Z.of_nat N then Err (EMsg "string is too long")
  else if negb (forallb is_valid_byte value) then
    Err (EMsg "only ascii alphanumeric, '-' and '_' characters are allowed in short id strings")
  else Ok (pad value).

(** [SID::from_str]: [s.try_into().unwrap()] *)
Definition sid_from_str_unwrap (s : bytes) : res sid :=
  match sid_from_str s with Ok a => Ok a | Err _ => Panic "unwrap" | Panic m => Panic m end.

(** [SID::as_str] *)
Definition as_str (s : sid) : bytes :=
  match position_zero s with Some e => take e s | None => s end.

(** [BorshDeserialize::deserialize] after the [N] bytes were read. *)
Definition sid_deserialize (raw : bytes) : res sid :=
  match try_new raw with
  | Ok s => Ok s
  | Err _ => Err (EStorage "InvalidData")
  | Panic m => Panic m
  end.

(** The values the constructors produce. *)
Definition sid_ok (s : sid) : Prop :=
  ∃ str, s = pad str ∧ (length str <= N)%nat ∧ forallb is_valid_byte str = true.

Lemma valid_byte_nonzero b : is_valid_byte b = true → b ≠ 0 ∧ byte_ok b ∧ b < 255.
Proof.
  unfold is_valid_byte, byte_ok. rewrite !orb_true_iff, !andb_true_iff, !Z.leb_le, !Z.eqb_eq. lia.
Qed.

Lemma position_zero_valid str k :
  forallb is_valid_byte str = true →
  position_zero (str ++ k) = (λ e, (length str + e)%nat) <$> position_zero k.
Proof.
  induction str as [|b str IH]; simpl.
  - intros _. by destruct (position_zero k).
  - intros [Hb Hs]%andb_true_iff. apply valid_byte_nonzero in Hb as (Hb & _).
    apply Z.eqb_neq in Hb as ->. rewrite IH by done. by destruct (position_zero k).
Qed.

Lemma position_zero_pad str :
  forallb is_valid_byte str = true → (length str <= N)%nat →
  position_zero (pad str) = if decide (length str = N) then None else Some (length str).
Proof.
  intros Hv Hl. unfold pad. rewrite position_zero_valid by done.
  destruct (decide (length str = N)) as [E|E].
  - replace (N - length str)%nat with O by lia. done.
  - destruct (N - length str)%nat eqn:E'; [lia|]. simpl. f_equal. lia.
Qed.

Lemma pad_length str : (length str <= N)%nat → length (pad str) = N.
Proof. intros. unfold pad. rewrite length_app, length_replicate. lia. Qed.

Lemma as_str_pad str :
  forallb is_valid_byte str = true → (length str <= N)%nat → as_str (pad str) = str.
Proof.
  intros Hv Hl. unfold as_str. rewrite position_zero_pad by done. unfold pad.
  destruct (decide _) as [E|E].
  - replace (N - length str)%nat with O by lia. apply app_nil_r.
  - by rewrite take_app_length.
Qed.

Lemma forallb_zero_replicate n : forallb (λ b, b =? 0) (replicate n 0) = true.
Proof. by induction n. Qed.

Lemma try_new_pad str :
  forallb is_valid_byte str = true → (length str <= N)%nat → try_new (pad str) = Ok (pad str).
Proof.
  intros Hv Hl. unfold try_new. rewrite position_zero_pad by done. unfold pad.
  destruct (decide _) as [E|E].
  - replace (N - length str)%nat with O by lia. simpl. by rewrite app_nil_r, Hv.
  - by rewrite take_app_length, drop_app_length, forallb_zero_replicate, Hv.
Qed.

Lemma sid_ok_length s : sid_ok s → length s = N.
Proof. intros (str & -> & ? & ?). by apply pad_length. Qed.

Lemma position_zero_take k e : position_zero k = Some e → (e < length k)%nat.
Proof.
  revert e; induction k as [|b k IH]; simpl; [done|]. intros e. case_if; [intros [= <-]; lia|].
  destruct (position_zero k) eqn:E; simpl; intros [= <-]. specialize (IH _ eq_refl). lia.
Qed.

Lemma forallb_zero_eq k : forallb (λ b, b =? 0) k = true → k = replicate (length k) 0.
Proof.
  induction k as [|b k IH]; simpl; [done|]. intros [?%Z.eqb_eq ?]%andb_true_iff. subst. f_equal; auto.
Qed.

Lemma try_new_ok k s : length k = N → try_new k = Ok s → s = k ∧ sid_ok k.
Proof.
  unfold try_new. intros Hl. destruct (position_zero k) as [e|] eqn:E.
  - case_if; [done|]. case_if; [done|]. zbool. intros [= <-]. split; [done|].
    apply position_zero_take in E. exists (take e k). rewrite length_take.
    split; [|split; [lia|done]]. unfold pad. rewrite length_take.
    rewrite <-(take_drop e k) at 1. f_equal.
    rewrite (forallb_zero_eq (drop e k)), length_drop by done. f_equal. lia.
  - simpl. case_if; [done|]. zbool. intros [= <-]. split; [done|].
    exists k. split; [|split; [lia|done]]. unfold pad.
    replace (N - length k)%nat with O by lia. by rewrite app_nil_r.
Qed.

(** [SID] round trips: parsing a string yields a zero-padded array of exactly
    [N] bytes whose [as_str] is the string again, and the array re-reads as
    itself through the borsh path ([try_new]) and through [TryFrom<&[u8]>]. *)
Theorem sid_str_roundtrip (value s : bytes) :
  sid_from_str value = Ok s →
  as_str s = value ∧ length s = N ∧ sid_deserialize s = Ok s ∧ sid_from_bytes s = Ok s.
Proof.
  unfold sid_from_str. rewrite Z.gtb_ltb. case_if; [done|]. case_if; [done|]. zbool.
  intros [= <-]. assert (length value <= N)%nat by lia.
  assert (Hl : length (pad value) = N) by (by apply pad_length).
  split; [by apply as_str_pad|]. split; [done|].
  unfold sid_deserialize, sid_from_bytes. rewrite try_new_pad, Hl, Z.gtb_ltb, Z.ltb_irrefl by done.
  split; [done|]. unfold pad at 1. rewrite Hl, Nat.sub_diag. simpl. rewrite app_nil_r.
  by apply try_new_pad.
Qed.

(** [SID::try_new] accepts exactly the zero-padded valid strings, so two
    accepted identifiers with one [as_str] are equal. *)
Theorem sid_try_new_exact (k : bytes) :
  length k = N → (try_new k = Ok k ↔ sid_ok k) ∧
  ∀ k', length k' = N → try_new k = Ok k → try_new k' = Ok k' → as_str k = as_str k' → k = k'.
Proof.
  intros Hl. split.
  - split; [intros H; by apply (try_new_ok _ _ Hl) in H as [_ ?]|].
    intros (str & -> & ? & ?). by apply try_new_pad.
  - intros k' Hl' H H'. apply (try_new_ok _ _ Hl) in H as (_ & str & -> & ? & ?).
    apply (try_new_ok _ _ Hl') in H' as (_ & str' & -> & ? & ?).
    rewrite !as_str_pad by done. by intros ->.
Qed.
End SID.

Lemma sid_str_roundtrip_witness :
  as_str [101; 118; 109; 0] = [101; 118; 109] ∧ length [101; 118; 109; 0] = 4%nat ∧
  sid_deserialize [101; 118; 109; 0] = Ok [101; 118; 109; 0] ∧
  sid_from_bytes 4 [101; 118; 109; 0] = Ok [101; 118; 109; 0].
Proof. exact (sid_str_roundtrip 4 [101; 118; 109] [101; 118; 109; 0] eq_refl). Defined.

Lemma sid_try_new_exact_witness :
  try_new [101; 0; 109; 0] = Err (EMsg "only trailing 0 bytes are allowed in SID") ∧
  (try_new [101; 118; 109; 0] = Ok [101; 118; 109; 0] ↔ sid_ok 4 [101; 118; 109; 0]).
Proof.
  split; [reflexivity|]. exact (proj1 (sid_try_new_exact 4 [101; 118; 109; 0] eq_refl)).
Defined.
