(* ===== verification/Data.v ===== *)
(** * Data: dataset labels, chunks and the keys they are stored under

    Models crates/storage/src/db/data.rs, crates/storage/src/db/table_id.rs and
    [BlockRef] of crates/primitives/src/types.rs. *)
From S2P Require Import Prelude Bytes.

(** [DatasetId = SID<48>], [DatasetKind = SID<16>], [TableId] is a 16-byte UUID. *)
Abbreviation DatasetId := bytes.
Abbreviation DatasetKind := bytes.
Abbreviation TableId := bytes.

Definition dataset_id_ok (d : DatasetId) : Prop := sid_ok 48 d.
Definition table_id_ok (t : TableId) : Prop := length t = 16%nat ∧ bytes_ok t.

Record BlockRef : Type := mkBlockRef { number : Z; hash : string }.

#[export] Instance BlockRef_eq_dec : EqDecision BlockRef.
Proof. solve_decision. Defined.

(** ** Labels *)

Inductive DatasetLabel : Type :=
| LabelV0 (kind : DatasetKind) (version : Z) (finalized_head : option BlockRef).

#[export] Instance DatasetLabel_eq_dec : EqDecision DatasetLabel.
Proof. solve_decision. Defined.

Definition label_kind (l : DatasetLabel) : DatasetKind :=
  match l with LabelV0 kind _ _ => kind end.
Definition label_version (l : DatasetLabel) : Z :=
  match l with LabelV0 _ version _ => version end.
Definition bump_version (l : DatasetLabel) : DatasetLabel :=
  match l with LabelV0 kind version fin => LabelV0 kind (u64_add version 1) fin end.
Definition label_finalized_head (l : DatasetLabel) : option BlockRef :=
  match l with LabelV0 _ _ fin => fin end.
Definition label_set_finalized_head (l : DatasetLabel) (b : option BlockRef) : DatasetLabel :=
  match l with LabelV0 kind version _ => LabelV0 kind version b end.

(** ** Chunks

    [tables] is a [BTreeMap<String, TableId>]: its entries in key order. *)

Inductive Chunk : Type :=
| ChunkV0 (first_block last_block : Z) (last_block_hash parent_block_hash : string)
    (tables : list (string * TableId))
| ChunkV1 (first_block last_block : Z) (last_block_hash parent_block_hash : string)
    (first_block_time last_block_time : option Z) (tables : list (string * TableId)).

#[export] Instance Chunk_eq_dec : EqDecision Chunk.
Proof. solve_decision. Defined.

Definition first_block (c : Chunk) : Z :=
  match c with ChunkV0 fb _ _ _ _ => fb | ChunkV1 fb _ _ _ _ _ _ => fb end.
Definition last_block (c : Chunk) : Z :=
  match c with ChunkV0 _ lb _ _ _ => lb | ChunkV1 _ lb _ _ _ _ _ => lb end.
Definition last_block_hash (c : Chunk) : string :=
  match c with ChunkV0 _ _ h _ _ => h | ChunkV1 _ _ h _ _ _ _ => h end.
Definition parent_block_hash (c : Chunk) : string :=
  match c with ChunkV0 _ _ _ p _ => p | ChunkV1 _ _ _ p _ _ _ => p end.
Definition first_block_time (c : Chunk) : option Z :=
  match c with ChunkV0 _ _ _ _ _ => None | ChunkV1 _ _ _ _ t _ _ => t end.
Definition last_block_time (c : Chunk) : option Z :=
  match c with ChunkV0 _ _ _ _ _ => None | ChunkV1 _ _ _ _ _ t _ => t end.
Definition tables (c : Chunk) : list (string * TableId) :=
  match c with ChunkV0 _ _ _ _ ts => ts | ChunkV1 _ _ _ _ _ _ ts => ts end.
Definition blocks_count (c : Chunk) : Z :=
  match c with
  | ChunkV0 fb lb _ _ _ => u64_add (u64_sub lb fb) 1
  | ChunkV1 fb lb _ _ _ _ _ => u64_add (u64_sub lb fb) 1
  end.
Definition next_block (c : Chunk) : Z :=
  match c with
  | ChunkV0 _ lb _ _ _ => u64_add lb 1
  | ChunkV1 _ lb _ _ _ _ _ => u64_add lb 1
  end.

(** [BTreeMap::get] *)
Fixpoint table_get (name : string) (ts : list (string * TableId)) : option TableId :=
  match ts with
  | [] => None
  | (n, t) :: ts => if decide (n = name) then Some t else table_get name ts
  end.

(** ** Keys *)

(** [ChunkId::new]: the dataset id followed by the big-endian last block. *)
Definition chunk_id (dataset_id : DatasetId) (last_block : Z) : bytes :=
  take 48 dataset_id ++ be_bytes 8 last_block.
Definition chunk_id_for (dataset_id : DatasetId) (chunk : Chunk) : bytes :=
  chunk_id dataset_id (last_block chunk).

(** [ChunkId::dataset_id]: [DatasetId::try_from(&self.bytes[0..48]).unwrap()] *)
Definition chunk_id_dataset (id : bytes) : res DatasetId :=
  match sid_from_bytes 48 (take 48 id) with
  | Ok d => Ok d | Err _ => Panic "unwrap" | Panic m => Panic m
  end.
Definition chunk_id_last_block (id : bytes) : Z := from_be_bytes (drop 48 id).

(** [HashIndexKey]: the dataset id followed by the bytes of the hash. *)
Definition hash_index_key (dataset_id : DatasetId) (hash : bytes) : bytes :=
  dataset_id ++ hash.
Definition set_hash (key : bytes) (hash : bytes) : bytes := take 48 key ++ hash.

(** [prefix_upper_bound]: the loop pops trailing [0xFF] bytes and increments the
    last remaining one; it runs over the reversed vector. *)
Fixpoint upper_bound_rev (rev_end : bytes) : bytes :=
  match rev_end with
  | [] => []
  | last :: rest => if last <? 255 then last + 1 :: rest else upper_bound_rev rest
  end.
Definition prefix_upper_bound (prefix : bytes) : bytes := rev (upper_bound_rev (rev prefix)).

(** [HashIndexKey::dataset_range] *)
Definition dataset_range (dataset_id : DatasetId) : bytes * bytes :=
  (dataset_id, prefix_upper_bound dataset_id).

(** [TableId::try_from_key]: [Uuid::from_slice] accepts exactly 16 bytes. *)
Definition try_from_key (key : bytes) : option TableId :=
  if (length key =? 16)%nat then Some key else None.

(** [encode_transaction_position] (crates/storage/src/db/write/tx.rs). *)
Definition encode_transaction_position (block_number transaction_index : Z) : bytes :=
  be_bytes 8 block_number ++ be_bytes 4 transaction_index.

(** ** Facts about keys *)

Lemma dataset_id_length d : dataset_id_ok d → length d = 48%nat.
Proof. apply sid_ok_length. Qed.

Lemma dataset_id_bytes_ok d : dataset_id_ok d → bytes_ok d.
Proof.
  intros (str & -> & _ & Hv). unfold bytes_ok, pad. apply Forall_app. split.
  - apply Forall_forall. intros b Hb. apply valid_byte_nonzero.
    rewrite forallb_forall in Hv. apply Hv. by apply list_elem_of_In.
  - apply Forall_replicate. unfold byte_ok. lia.
Qed.

Lemma chunk_id_app d b : dataset_id_ok d → chunk_id d b = d ++ be_bytes 8 b.
Proof.
  intros Hd. unfold chunk_id. f_equal. apply take_ge. rewrite (dataset_id_length _ Hd). lia.
Qed.

Lemma chunk_id_length d b : dataset_id_ok d → length (chunk_id d b) = 56%nat.
Proof. intros Hd. by rewrite chunk_id_app, length_app, be_bytes_length, dataset_id_length. Qed.

Lemma chunk_id_dataset_new d b : dataset_id_ok d → chunk_id_dataset (chunk_id d b) = Ok d.
Proof.
  intros Hd. rewrite chunk_id_app by done. unfold chunk_id_dataset.
  rewrite take_app_length' by (by rewrite dataset_id_length).
  destruct Hd as (str & -> & Hl & Hv). unfold sid_from_bytes.
  rewrite pad_length, Z.gtb_ltb, Z.ltb_irrefl by done.
  unfold pad at 1. rewrite pad_length, Nat.sub_diag by done. simpl. rewrite app_nil_r.
  by rewrite try_new_pad.
Qed.

Lemma chunk_id_last_block_new d b :
  dataset_id_ok d → u64_ok b → chunk_id_last_block (chunk_id d b) = b.
Proof.
  intros Hd Hb. rewrite chunk_id_app by done. unfold chunk_id_last_block.
  rewrite drop_app_length' by (by rewrite dataset_id_length).
  apply from_be_bytes_be. unfold u64_ok, u64_max in Hb. simpl. lia.
Qed.

Lemma chunk_id_cmp d d' a b :
  dataset_id_ok d → dataset_id_ok d' → u64_ok a → u64_ok b →
  bytes_cmp (chunk_id d a) (chunk_id d' b)
  = match bytes_cmp d d' with Eq => a ?= b | c => c end.
Proof.
  intros Hd Hd' Ha Hb. rewrite !chunk_id_app by done.
  rewrite bytes_cmp_app_len by (by rewrite !dataset_id_length).
  unfold u64_ok, u64_max in *. rewrite be_bytes_cmp; simpl; [done|lia..].
Qed.

Lemma chunk_id_inj d d' a b :
  dataset_id_ok d → dataset_id_ok d' → u64_ok a → u64_ok b →
  chunk_id d a = chunk_id d' b → d = d' ∧ a = b.
Proof.
  intros Hd Hd' Ha Hb E. apply bytes_cmp_eq in E. rewrite chunk_id_cmp in E by done.
  destruct (bytes_cmp d d') eqn:Ed; try done.
  apply bytes_cmp_eq in Ed. apply Z.compare_eq in E. done.
Qed.

(** [prefix_upper_bound] read from the front. *)
Lemma upper_bound_rev_snoc l x :
  upper_bound_rev (l ++ [x])
  = match upper_bound_rev l with [] => if x <? 255 then [x + 1] else [] | u => u ++ [x] end.
Proof.
  induction l as [|y l IH]; simpl; [done|]. by destruct (y <? 255).
Qed.

Lemma prefix_upper_bound_cons x p :
  prefix_upper_bound (x :: p)
  = match prefix_upper_bound p with [] => if x <? 255 then [x + 1] else [] | u => x :: u end.
Proof.
  unfold prefix_upper_bound. simpl. rewrite upper_bound_rev_snoc.
  destruct (upper_bound_rev (rev p)) as [|y u]; simpl; [by case_if|].
  rewrite rev_app_distr. simpl. by destruct (rev u).
Qed.

Lemma prefix_range_iff p k :
  bytes_ok p → bytes_ok k →
  (∃ h, k = p ++ h) ↔
  bytes_le p k ∧ match prefix_upper_bound p with [] => True | u => bytes_lt k u end.
Proof.
  revert k; induction p as [|x p IH]; intros k Hp Hk.
  { simpl. split; [intros _|eauto]. split; [|done]. by destruct k. }
  apply Forall_cons in Hp as [Hx Hp]. rewrite prefix_upper_bound_cons.
  destruct k as [|y k].
  { split; [by intros [h ?]|]. intros [H _]. by destruct H. }
  apply Forall_cons in Hk as [Hy Hk]. specialize (IH k Hp Hk).
  assert (Hpre : (∃ h, y :: k = (x :: p) ++ h) ↔ y = x ∧ ∃ h, k = p ++ h).
  { split; [intros [h [= -> ->]]; eauto|]. intros [-> [h ->]]. by exists h. }
  rewrite Hpre, IH. clear Hpre IH. unfold bytes_le, bytes_lt, byte_ok in *. simpl.
  destruct (prefix_upper_bound p) as [|u0 u] eqn:Eu.
  - destruct (Z.ltb_spec x 255); simpl;
      destruct (Z.compare_spec x y); try destruct (Z.compare_spec y (x + 1));
      destruct k; naive_solver lia.
  - simpl. destruct (Z.compare_spec x y); destruct (Z.compare_spec y x); subst; naive_solver lia.
Qed.

Lemma prefix_upper_bound_nonempty p : Exists (λ b, b < 255) p → prefix_upper_bound p ≠ [].
Proof.
  induction p as [|x p IH]; [by intros ?%Exists_nil|]. rewrite Exists_cons, prefix_upper_bound_cons.
  destruct (prefix_upper_bound p) as [|u0 u]; [|done].
  intros [Hx|Hp]; [|by apply IH in Hp]. apply Z.ltb_lt in Hx as ->. done.
Qed.

Lemma dataset_id_not_full d : dataset_id_ok d → Exists (λ b, b < 255) d.
Proof.
  intros Hd. pose proof (dataset_id_length _ Hd) as Hlen. destruct Hd as (str & -> & Hl & Hv).
  unfold pad in *. destruct str as [|b str]; simpl.
  - left. lia.
  - left. simpl in Hv. apply andb_true_iff in Hv as [Hb _].
    apply valid_byte_nonzero in Hb. lia.
Qed.

(** A prefix is below its upper bound, whatever follows it. *)
Lemma prefix_lt_upper_bound p h : prefix_upper_bound p ≠ [] → bytes_lt (p ++ h) (prefix_upper_bound p).
Proof.
  induction p as [|x p IH]; [done|]. rewrite prefix_upper_bound_cons. intros Hne.
  destruct (prefix_upper_bound p) as [|u0 u] eqn:Eu; unfold bytes_lt in *; simpl.
  - destruct (x <? 255); [|done]. by rewrite (proj2 (Z.compare_lt_iff x (x + 1))) by lia.
  - rewrite Z.compare_refl. by apply IH.
Qed.

(** ** Properties *)

(** [ChunkId] keys are faithful and ordered: the key of a chunk gives back
    the dataset and the last block, keys of one dataset compare as their last
    blocks do, and keys of two datasets compare as the dataset ids do, so the
    chunks of a dataset are contiguous in [CF_CHUNKS] and sorted by block. *)
Theorem chunk_id_order (d d' : DatasetId) (a b : Z) :
  dataset_id_ok d → dataset_id_ok d' → u64_ok a → u64_ok b →
  chunk_id_dataset (chunk_id d a) = Ok d ∧ chunk_id_last_block (chunk_id d a) = a ∧
  (d = d' → bytes_cmp (chunk_id d a) (chunk_id d' b) = (a ?= b)) ∧
  (d ≠ d' → bytes_cmp (chunk_id d a) (chunk_id d' b) = bytes_cmp d d').
Proof.
  intros Hd Hd' Ha Hb. split; [by apply chunk_id_dataset_new|].
  split; [by apply chunk_id_last_block_new|]. rewrite chunk_id_cmp by done.
  split; [intros ->; by rewrite bytes_cmp_refl|].
  intros Hne. destruct (bytes_cmp d d') eqn:E; [|done..].
  by apply bytes_cmp_eq in E.
Qed.

(** The dataset id of the string [s], for concrete instances. *)
Definition dataset_named (s : string) : DatasetId := pad 48 (str_bytes s).

Lemma dataset_named_ok s :
  (length (str_bytes s) <= 48)%nat → forallb is_valid_byte (str_bytes s) = true →
  dataset_id_ok (dataset_named s).
Proof. intros. by exists (str_bytes s). Qed.

Lemma chunk_id_order_witness :
  bytes_cmp (chunk_id (dataset_named "eth") 255) (chunk_id (dataset_named "eth") 256) = Lt ∧
  chunk_id_dataset (chunk_id (dataset_named "eth") 255) = Ok (dataset_named "eth").
Proof.
  assert (H : dataset_id_ok (dataset_named "eth")).
  { apply dataset_named_ok; vm_compute; [lia|reflexivity]. }
  assert (H1 : u64_ok 255) by (vm_compute; intuition congruence).
  assert (H2 : u64_ok 256) by (vm_compute; intuition congruence).
  destruct (chunk_id_order (dataset_named "eth") (dataset_named "eth") 255 256 H H H1 H2)
    as (E1 & _ & E2 & _).
  split; [exact (E2 eq_refl)|exact E1].
Defined.

(** [HashIndexKey::dataset_range] is exactly the dataset: a key lies in
    [start, end) if and only if it is the key of some hash of that dataset, and
    the end bound is never empty (an empty bound would be no bound at all). *)
Theorem hash_index_dataset_range (d : DatasetId) (key : bytes) :
  dataset_id_ok d → bytes_ok key →
  let '(start, end_) := dataset_range d in
  end_ ≠ [] ∧
  (bytes_le start key ∧ bytes_lt key end_ ↔ ∃ h, key = hash_index_key d h).
Proof.
  intros Hd Hk. unfold dataset_range, hash_index_key.
  pose proof (prefix_upper_bound_nonempty _ (dataset_id_not_full _ Hd)) as Hne.
  split; [done|]. rewrite (prefix_range_iff d key (dataset_id_bytes_ok _ Hd) Hk).
  by destruct (prefix_upper_bound d).
Qed.

Lemma hash_index_dataset_range_witness :
  bytes_ok (hash_index_key (dataset_named "eth") (str_bytes "0xab")) ∧
  let '(start, end_) := dataset_range (dataset_named "eth") in
  end_ ≠ [] ∧
  (bytes_le start (hash_index_key (dataset_named "eth") (str_bytes "0xab")) ∧
   bytes_lt (hash_index_key (dataset_named "eth") (str_bytes "0xab")) end_ ↔
   ∃ h, hash_index_key (dataset_named "eth") (str_bytes "0xab")
        = hash_index_key (dataset_named "eth") h).
Proof.
  assert (Hk : bytes_ok (hash_index_key (dataset_named "eth") (str_bytes "0xab"))).
  { vm_compute. repeat (constructor; [split; discriminate|]). constructor. }
  split; [exact Hk|]. apply hash_index_dataset_range; [|exact Hk].
  apply dataset_named_ok; vm_compute; [lia|reflexivity].
Defined.

(** Reusing one [HashIndexKey] buffer is the same as building a fresh key per
    hash, and keys determine the dataset and the hash. *)
Theorem hash_index_key_reuse (d d' : DatasetId) (h0 h h' : bytes) :
  dataset_id_ok d → dataset_id_ok d' →
  set_hash (hash_index_key d h0) h = hash_index_key d h ∧
  (hash_index_key d h = hash_index_key d' h' → d = d' ∧ h = h').
Proof.
  intros Hd Hd'. unfold set_hash, hash_index_key.
  rewrite take_app_length' by (by rewrite dataset_id_length). split; [done|].
  intros E. apply app_inj_1; [by rewrite !dataset_id_length|done].
Qed.

Lemma hash_index_key_reuse_witness :
  set_hash (hash_index_key (dataset_named "eth") []) [1; 2]
  = hash_index_key (dataset_named "eth") [1; 2].
Proof.
  assert (H : dataset_id_ok (dataset_named "eth")).
  { apply dataset_named_ok; vm_compute; [lia|reflexivity]. }
  exact (proj1 (hash_index_key_reuse _ _ [] [1; 2] [] H H)).
Defined.

(** * TableKey: the keys of a table's data

    Models crates/storage/src/table/key.rs and crates/storage/src/db/reclaim.rs.
    Every key of a table is its 16-byte id, a tag byte and big-endian indexes, so the
    keys of one table are a contiguous range, and whole files below the smallest
    live id hold no live data. *)

Inductive TableKey : Type :=
| Key_Schema
| Key_Statistic (column : Z)
| Key_Offsets (buffer : Z)
| Key_Page (buffer index : Z).

Definition serialize (k : TableKey) (out : bytes) : bytes :=
  match k with
  | Key_Schema => out ++ [0]
  | Key_Statistic column => (out ++ [1]) ++ be_bytes 2 column
  | Key_Offsets buffer => (out ++ [2]) ++ be_bytes 2 buffer
  | Key_Page buffer index => ((out ++ [3]) ++ be_bytes 2 buffer) ++ be_bytes 4 index
  end.

(** The factory reuses one buffer: every method first truncates it to the name. *)
Record TableKeyFactory : Type := mkFactory { buf : bytes; name_len : nat }.

Definition factory_new (table_name : bytes) : TableKeyFactory :=
  mkFactory table_name (length table_name).
Definition factory_clear (f : TableKeyFactory) : TableKeyFactory :=
  mkFactory (take (name_len f) (buf f)) (name_len f).
Definition factory_push (f : TableKeyFactory) (b : Z) : bytes * TableKeyFactory :=
  let f := factory_clear f in (buf f ++ [b], mkFactory (buf f ++ [b]) (name_len f)).
Definition factory_start (f : TableKeyFactory) : bytes * TableKeyFactory := factory_push f 0.
Definition factory_end (f : TableKeyFactory) : bytes * TableKeyFactory := factory_push f 255.
Definition factory_make (f : TableKeyFactory) (k : TableKey) : bytes * TableKeyFactory :=
  let f := factory_clear f in
  (serialize k (buf f), mkFactory (serialize k (buf f)) (name_len f)).

(** [as u16] and [as u32] truncate. *)
Definition factory_schema (f : TableKeyFactory) := factory_make f Key_Schema.
Definition factory_statistic (f : TableKeyFactory) (column_index : Z) :=
  factory_make f (Key_Statistic (column_index mod 2 ^ 16)).
Definition factory_offsets (f : TableKeyFactory) (buffer : Z) :=
  factory_make f (Key_Offsets (buffer mod 2 ^ 16)).
Definition factory_page (f : TableKeyFactory) (buffer page : Z) :=
  factory_make f (Key_Page (buffer mod 2 ^ 16) (page mod 2 ^ 32)).

(** ** Reclaim rules (reclaim.rs) *)

Definition RECLAIM_LOWER_BOUND : bytes := replicate 16 0.

Definition reclaim_upper_bound (watermark : option TableId) : bytes :=
  match watermark with Some id => id | None => replicate 17 255 end.

(** [Iterator::min] on ids. *)
Definition min_id (a : option TableId) (b : TableId) : option TableId :=
  match a with
  | None => Some b
  | Some x => if bytes_ltb b x then Some b else Some x
  end.
Definition watermark (live dirty : list TableId) : option TableId :=
  fold_left min_id (live ++ dirty) None.

Definition sst_is_unlinkable (level : Z) (end_key : option bytes) (upper_bound : bytes) : bool :=
  ((level >? 0) && match end_key with Some e => bytes_leb e upper_bound | None => false end)%bool.

(** ** Facts *)

(** A factory in use: whatever was written after the name. *)
Definition factory_for (id : TableId) (f : TableKeyFactory) : Prop :=
  ∃ rest, buf f = id ++ rest ∧ name_len f = length id.

Lemma factory_new_for id : factory_for id (factory_new id).
Proof. exists []. by rewrite app_nil_r. Qed.

Lemma factory_clear_for id f : factory_for id f → factory_clear f = mkFactory id (length id).
Proof. intros (rest & Hb & Hn). unfold factory_clear. by rewrite Hb, Hn, take_app_length. Qed.

Lemma serialize_app k out : serialize k out = out ++ serialize k [].
Proof. destruct k; simpl; rewrite <-?app_assoc; done. Qed.

(** The tag byte is below 255, and something always follows the id. *)
Lemma serialize_head k : ∃ tag rest, serialize k [] = tag :: rest ∧ 0 <= tag <= 3.
Proof. destruct k; simpl; eexists _, _; (split; [reflexivity|lia]). Qed.

Definition table_key (id : TableId) (k : TableKey) : bytes := serialize k id.

Lemma factory_make_spec id f k : factory_for id f →
  (factory_make f k).1 = table_key id k ∧ factory_for id (factory_make f k).2.
Proof.
  intros Hf. unfold factory_make. rewrite (factory_clear_for id f Hf). split; [done|].
  exists (serialize k []). simpl. by rewrite serialize_app.
Qed.

Lemma factory_push_spec id f b : factory_for id f →
  (factory_push f b).1 = id ++ [b] ∧ factory_for id (factory_push f b).2.
Proof.
  intros Hf. unfold factory_push. rewrite (factory_clear_for id f Hf). split; [done|].
  by exists [b].
Qed.

(** Two keys of tables with different ids compare as the ids do. *)
Lemma table_key_cmp id id' x y : length id = length id' →
  bytes_cmp (id ++ x) (id' ++ y) = match bytes_cmp id id' with Eq => bytes_cmp x y | c => c end.
Proof. apply bytes_cmp_app_len. Qed.

Lemma table_key_in_range_len id id' k : length id = 16%nat → length id' = 16%nat →
  bytes_le (id ++ [0]) (table_key id' k) ∧ bytes_lt (table_key id' k) (id ++ [255]) ↔ id' = id.
Proof.
  intros Hl Hl'. unfold bytes_le, bytes_lt, table_key. rewrite serialize_app.
  destruct (serialize_head k) as (tag & rest & -> & Ht).
  rewrite !table_key_cmp by congruence. rewrite (bytes_cmp_antisym id' id).
  destruct (bytes_cmp id' id) eqn:E; simpl.
  - apply bytes_cmp_eq in E. split; [done|]. intros _. split.
    + assert (tag = 0 ∨ tag = 1 ∨ tag = 2 ∨ tag = 3) as [->|[->|[->| ->]]] by lia; by destruct rest.
    + by rewrite (proj2 (Z.compare_lt_iff tag 255)) by lia.
  - split; [|intros ->; by rewrite bytes_cmp_refl in E]. by intros [? _].
  - split; [|intros ->; by rewrite bytes_cmp_refl in E]. by intros [_ ?].
Qed.

Lemma min_id_le ids : ∀ a m, fold_left min_id ids a = Some m →
  (∀ x, a = Some x → bytes_le m x) ∧ (∀ x, x ∈ ids → bytes_le m x) ∧ (a = Some m ∨ m ∈ ids).
Proof.
  induction ids as [|i ids IH]; simpl; intros a m Hm.
  - subst. repeat split; [|by intros x ?%elem_of_nil|by left]. intros x [= ->]. apply bytes_le_refl.
  - destruct (IH _ _ Hm) as (A & B & D). destruct a as [x|]; simpl in *.
    + destruct (bytes_ltb i x) eqn:E.
      * apply bytes_ltb_spec in E. specialize (A i eq_refl). repeat split.
        -- intros y [= <-]. eapply bytes_le_trans; [done|by apply bytes_lt_le].
        -- intros y [->|Hy]%elem_of_cons; auto.
        -- right. rewrite elem_of_cons. destruct D as [[= ->]|?]; auto.
      * assert (bytes_le x i) by (apply not_true_iff_false in E; rewrite bytes_ltb_spec, bytes_lt_nle in E;
          destruct (decide (bytes_le x i)); tauto).
        specialize (A x eq_refl). repeat split.
        -- by intros y [= <-].
        -- intros y [->|Hy]%elem_of_cons; [by eapply bytes_le_trans|auto].
        -- rewrite elem_of_cons. destruct D; auto.
    + repeat split; [done| |].
      * intros y [->|Hy]%elem_of_cons; auto.
      * right. rewrite elem_of_cons. destruct D as [[= ->]|?]; auto.
Qed.

Lemma min_id_some ids : ∀ x, ∃ m, fold_left min_id ids (Some x) = Some m.
Proof.
  induction ids as [|i ids IH]; intros x; simpl; [eauto|]. destruct (bytes_ltb i x); apply IH.
Qed.

Lemma watermark_spec live dirty :
  match watermark live dirty with
  | Some m => m ∈ live ++ dirty ∧ ∀ x, x ∈ live ++ dirty → bytes_le m x
  | None => live ++ dirty = []
  end.
Proof.
  unfold watermark. destruct (live ++ dirty) as [|i ids] eqn:E; [done|].
  destruct (fold_left min_id (i :: ids) None) as [m|] eqn:Em.
  - destruct (min_id_le _ _ _ Em) as (_ & B & [|D]); [done|]. done.
  - simpl in Em. destruct (min_id_some ids i) as [m Hm]. congruence.
Qed.

(** A file at or below a bound id holds no key of that table or a later one. *)
Lemma unlinkable_below (m : TableId) (level : Z) (end_key key : bytes) (id : TableId) (k : TableKey) :
  length m = 16%nat → length id = 16%nat → bytes_le m id →
  sst_is_unlinkable level (Some end_key) (reclaim_upper_bound (Some m)) = true →
  bytes_le key end_key → key ≠ table_key id k.
Proof.
  intros Hlm Hli Hmin Hu Hle ->. unfold sst_is_unlinkable in Hu.
  apply andb_true_iff in Hu as [_ Hu]. apply bytes_leb_spec in Hu. simpl in Hu.
  pose proof (bytes_le_trans _ _ _ Hle Hu) as Hk. unfold table_key in Hk.
  rewrite serialize_app in Hk. destruct (serialize_head k) as (tag & rest & E & _). rewrite E in Hk.
  rewrite <-(app_nil_r m) in Hk. unfold bytes_le in Hk, Hmin.
  rewrite table_key_cmp in Hk by congruence. rewrite (bytes_cmp_antisym m id) in Hk.
  destruct (bytes_cmp m id); simpl in Hk; done.
Qed.

(** ** Properties *)

(** The keys a factory makes do not depend on what it made before, and the range
    [start..end) of a table holds a table key if and only if it is a key of that
    table: purging it deletes the table and nothing else. *)
Theorem table_key_range (id id' : TableId) (f : TableKeyFactory) (k : TableKey) :
  table_id_ok id → table_id_ok id' → factory_for id f →
  (factory_make f k).1 = (factory_make (factory_new id) k).1 ∧
  factory_for id (factory_make f k).2 ∧
  let start := (factory_start f).1 in
  let end_ := (factory_end f).1 in
  (bytes_le start (factory_make (factory_new id') k).1 ∧
   bytes_lt (factory_make (factory_new id') k).1 end_ ↔ id' = id).
Proof.
  intros Hid Hid' Hf. destruct (factory_make_spec id f k Hf) as [E F].
  destruct (factory_make_spec id (factory_new id) k (factory_new_for id)) as [E' _].
  destruct (factory_make_spec id' (factory_new id') k (factory_new_for id')) as [E'' _].
  unfold factory_start, factory_end.
  destruct (factory_push_spec id f 0 Hf) as [-> _], (factory_push_spec id f 255 Hf) as [-> _].
  rewrite E, E', E''. split; [done|]. split; [done|].
  destruct Hid, Hid'. by apply table_key_in_range_len.
Qed.

Lemma table_key_range_witness :
  (factory_page (mkFactory (replicate 16 7 ++ [9; 9]) 16) 3 5).1
  = replicate 16 7 ++ [3; 0; 3; 0; 0; 0; 5] ∧
  bytes_lt (factory_page (factory_new (replicate 16 7)) 3 5).1 (factory_end (factory_new (replicate 16 7))).1.
Proof.
  assert (Hid : table_id_ok (replicate 16 7)) by (split; [reflexivity|repeat constructor; unfold byte_ok; lia]).
  assert (Hf : factory_for (replicate 16 7) (mkFactory (replicate 16 7 ++ [9; 9]) 16)) by (by exists [9; 9]).
  destruct (table_key_range _ _ _ (Key_Page 3 5) Hid Hid Hf) as (E & _ & _).
  destruct (table_key_range _ _ _ (Key_Page 3 5) Hid Hid (factory_new_for (replicate 16 7))) as (_ & _ & R).
  split; [etransitivity; [exact E|reflexivity]|]. exact (proj2 (proj2 R eq_refl)).
Defined.
