(* ===== verification/Kv.v ===== *)
(** * Kv: the key-value store the database is built on

    Models the traits of crates/storage/src/kv.rs, which
    crates/storage/src/db/rocks.rs implements for RocksDB iterators.  RocksDB
    itself is not part of the repository: a column family is any type [M] with
    the operations of [KvStore] whose behaviour is the documented one
    ([KvStoreLaws]): the content is a strictly ordered list of entries, [put] and
    [delete] change one key, and the cursor moves are those of
    [rocksdb::DBRawIterator].  The laws speak about runs without I/O errors; the
    definitions built on the cursor propagate its errors.

    [GmapKv], a finite map enumerated in key order, is a concrete instance. *)
From stdpp Require Import gmap sorting.
From stdpp Require Import countable.
From S2P Require Import Prelude Bytes Data.

Abbreviation entry := (bytes * bytes)%type.

(** ** The cursor trait of kv.rs *)

Class KvReadCursor (C : Type) := {
  cur_seek_first : C → res C;
  cur_seek : bytes → C → res C;
  cur_seek_prev : bytes → C → res C;
  cur_next : C → res C;
  cur_prev : C → res C;
  cur_is_valid : C → bool;
  cur_key : C → bytes;
  cur_value : C → bytes
}.

(** Position of the first entry whose key satisfies [f]. *)
Fixpoint first_index (f : bytes → bool) (es : list entry) : option nat :=
  match es with
  | [] => None
  | e :: es => if f e.1 then Some O else S <$> first_index f es
  end.

(** Position of the last entry of the longest prefix whose keys satisfy [f]. *)
Fixpoint last_index (f : bytes → bool) (es : list entry) : option nat :=
  match es with
  | [] => None
  | e :: es => if f e.1 then Some (match last_index f es with Some i => S i | None => O end)
               else None
  end.

(** A store: point operations, its content in key order, and a cursor over it. *)
Class KvStore (M C : Type) := {
  #[global] kv_cursor_ops :: KvReadCursor C;
  kv_empty : M;
  kv_get : M → bytes → option bytes;
  kv_put : M → bytes → bytes → M;
  kv_delete : M → bytes → M;
  kv_entries : M → list entry;
  kv_cursor : M → C
}.

Class KvStoreLaws (M C : Type) `{KvStore M C} := {
  kv_sorted m : StronglySorted (λ a b, bytes_lt a.1 b.1) (kv_entries m);
  kv_get_entries m k v : kv_get m k = Some v ↔ (k, v) ∈ kv_entries m;
  kv_get_empty k : kv_get kv_empty k = None;
  kv_get_put m k v k' : kv_get (kv_put m k v) k' = if decide (k = k') then Some v else kv_get m k';
  kv_get_delete m k k' : kv_get (kv_delete m k) k' = if decide (k = k') then None else kv_get m k';
  (* a cursor is a position in a fixed list of entries *)
  cur_entries : C → list entry;
  cur_pos : C → option nat;
  cur_new m : cur_entries (kv_cursor m) = kv_entries m;
  cur_valid_iff c : cur_is_valid c = bool_decide (is_Some (cur_pos c));
  cur_at c i : cur_pos c = Some i → cur_entries c !! i = Some (cur_key c, cur_value c);
  cur_seek_first_spec c : ∃ c', cur_seek_first c = Ok c' ∧ cur_entries c' = cur_entries c ∧
    cur_pos c' = match cur_entries c with [] => None | _ => Some O end;
  cur_seek_spec k c : ∃ c', cur_seek k c = Ok c' ∧ cur_entries c' = cur_entries c ∧
    cur_pos c' = first_index (bytes_leb k) (cur_entries c);
  cur_seek_prev_spec k c : ∃ c', cur_seek_prev k c = Ok c' ∧ cur_entries c' = cur_entries c ∧
    cur_pos c' = last_index (λ k', bytes_leb k' k) (cur_entries c);
  cur_next_spec c i : cur_pos c = Some i →
    ∃ c', cur_next c = Ok c' ∧ cur_entries c' = cur_entries c ∧
    cur_pos c' = if decide (S i < length (cur_entries c))%nat then Some (S i) else None;
  cur_prev_spec c i : cur_pos c = Some i →
    ∃ c', cur_prev c = Ok c' ∧ cur_entries c' = cur_entries c ∧
    cur_pos c' = match i with O => None | S i => Some i end
}.

(** ** Consequences of the laws *)

(** A strictly ordered list is determined by its members. *)
Lemma sorted_entries_ext (l k : list entry) :
  StronglySorted (λ a b, bytes_lt a.1 b.1) l → StronglySorted (λ a b, bytes_lt a.1 b.1) k →
  (∀ e, e ∈ l ↔ e ∈ k) → l = k.
Proof.
  revert k; induction l as [|x l IH]; intros [|y k] Hl Hk Hm; [done|..].
  { exfalso. apply (elem_of_nil y), Hm. lmem. }
  { exfalso. apply (elem_of_nil x), Hm. lmem. }
  apply StronglySorted_inv in Hl as [Hl Hx]. apply StronglySorted_inv in Hk as [Hk Hy].
  rewrite Forall_forall in Hx, Hy.
  assert (x = y) as ->.
  { assert (x ∈ y :: k) as [?|Hxk]%elem_of_cons by (apply Hm; lmem); [done|].
    assert (y ∈ x :: l) as [?|Hyl]%elem_of_cons by (apply Hm; lmem); [done|].
    specialize (Hx _ Hyl). specialize (Hy _ Hxk). simpl in *.
    by destruct (bytes_lt_irrefl (fst x)); eapply bytes_lt_trans. }
  f_equal. apply IH; try done. intros e. specialize (Hm e). rewrite !elem_of_cons in Hm.
  assert (Hn : ∀ e', e' = y → (e' ∉ l) ∧ (e' ∉ k)).
  { intros e' ->. split; intros He; [specialize (Hx _ He)|specialize (Hy _ He)];
      by destruct (bytes_lt_irrefl (fst y)). }
  specialize (Hn e). naive_solver.
Qed.

Section consequences.
Context `{KvStoreLaws M C}.

Lemma kv_entries_put m k v e :
  e ∈ kv_entries (kv_put m k v) ↔ e = (k, v) ∨ e.1 ≠ k ∧ e ∈ kv_entries m.
Proof.
  destruct e as [k' v']. rewrite <-!kv_get_entries, kv_get_put. simpl.
  case_decide; subst; naive_solver.
Qed.

Lemma kv_entries_delete m k e :
  e ∈ kv_entries (kv_delete m k) ↔ e.1 ≠ k ∧ e ∈ kv_entries m.
Proof.
  destruct e as [k' v']. rewrite <-!kv_get_entries, kv_get_delete. simpl.
  case_decide; subst; naive_solver.
Qed.

(** Stores with the same lookups have the same content. *)
Lemma kv_entries_ext m m' :
  (∀ k, kv_get m k = kv_get m' k) → kv_entries m = kv_entries m'.
Proof.
  intros Hg. apply sorted_entries_ext; [apply kv_sorted..|].
  intros [k v]. by rewrite <-!kv_get_entries, Hg.
Qed.

Lemma kv_get_None m k : kv_get m k = None ↔ ∀ v, (k, v) ∉ kv_entries m.
Proof.
  split.
  - intros Hn v Hv%kv_get_entries. congruence.
  - intros Hn. destruct (kv_get m k) as [v|] eqn:E; [|done].
    by apply kv_get_entries, Hn in E.
Qed.
End consequences.

(** ** An instance: finite maps enumerated in key order *)

Lemma first_index_lookup f es i :
  first_index f es = Some i → ∃ e, es !! i = Some e.
Proof.
  revert i; induction es as [|e es IH]; simpl; [done|]. intros i. case_if; [intros [= <-]; eauto|].
  destruct (first_index f es); simpl; intros [= <-]. apply (IH _ eq_refl).
Qed.

Lemma last_index_lookup f es i : last_index f es = Some i → ∃ e, es !! i = Some e.
Proof.
  revert i; induction es as [|e es IH]; simpl; [done|]. intros i. case_if; [|done].
  destruct (last_index f es); intros [= <-]; eauto.
Qed.

Module GmapKv.

Abbreviation t := (gmap bytes bytes).
Definition cursor : Type := list entry * option nat.

Definition entry_le (a b : entry) : Prop := bytes_le a.1 b.1.
#[export] Instance entry_le_dec : RelDecision entry_le.
Proof. intros a b. apply bytes_le_dec. Defined.

Definition entries (m : t) : list entry := merge_sort entry_le (map_to_list m).

(** The entry under the cursor. *)
Definition at_pos (c : cursor) : option entry := c.2 ≫= λ i, c.1 !! i.

#[export] Instance cursor_ops : KvReadCursor cursor := {|
  cur_seek_first c := Ok (c.1, match c.1 with [] => None | _ => Some O end);
  cur_seek k c := Ok (c.1, first_index (bytes_leb k) c.1);
  cur_seek_prev k c := Ok (c.1, last_index (λ k', bytes_leb k' k) c.1);
  cur_next c := Ok (c.1, c.2 ≫= λ i, if decide (S i < length c.1)%nat then Some (S i) else None);
  cur_prev c := Ok (c.1, c.2 ≫= λ i, match i with O => None | S i => Some i end);
  cur_is_valid c := bool_decide (is_Some (at_pos c));
  cur_key c := from_option fst [] (at_pos c);
  cur_value c := from_option snd [] (at_pos c)
|}.

#[export] Instance ops : KvStore t cursor := {|
  kv_empty := ∅;
  kv_get m k := m !! k;
  kv_put m k v := <[k:=v]> m;
  kv_delete m k := base.delete k m;
  kv_entries := entries;
  kv_cursor m := (entries m, None)
|}.

Lemma entries_elem m k v : (k, v) ∈ entries m ↔ m !! k = Some v.
Proof. unfold entries. rewrite merge_sort_Permutation. apply elem_of_map_to_list. Qed.

#[export] Instance entry_le_total : Total entry_le.
Proof.
  intros a b. unfold entry_le. destruct (decide (bytes_le a.1 b.1)) as [?|Hn]; [by left|right].
  apply bytes_lt_nle in Hn. by apply bytes_lt_le.
Qed.
#[export] Instance entry_le_trans : Transitive entry_le.
Proof. intros a b c. apply bytes_le_trans. Qed.

Lemma entries_sorted m : StronglySorted (λ a b, bytes_lt a.1 b.1) (entries m).
Proof.
  assert (Hs : StronglySorted entry_le (entries m)) by (unfold entries; apply (StronglySorted_merge_sort entry_le)).
  assert (Hn : NoDup ((entries m).*1)).
  { unfold entries. rewrite merge_sort_Permutation. apply NoDup_fst_map_to_list. }
  induction Hs as [|e es Hs IH He]; [constructor|].
  rewrite fmap_cons in Hn. apply NoDup_cons in Hn as [Hn1 Hn]. constructor; [auto|].
  rewrite Forall_forall in He |- *. intros e' He'. specialize (He _ He').
  apply bytes_le_lteq in He as [?|E]; [done|]. rewrite E in Hn1.
  by destruct Hn1; apply list_elem_of_fmap_2.
Qed.

Definition pos (c : cursor) : option nat := c.2 ≫= λ i, (λ _, i) <$> c.1 !! i.

Lemma pos_moved es p : (∀ i, p = Some i → ∃ e, es !! i = Some e) → pos (es, p) = p.
Proof. destruct p as [i|]; [|done]. intros Hp. destruct (Hp i eq_refl) as [e He]. unfold pos; simpl. by rewrite He. Qed.

Lemma pos_inv c i : pos c = Some i → c.2 = Some i ∧ ∃ e, c.1 !! i = Some e ∧ at_pos c = Some e.
Proof.
  destruct c as [es [j|]]; unfold pos, at_pos; simpl; [|done].
  destruct (es !! j) eqn:E; simpl; [|done]. intros [= <-]. eauto.
Qed.

#[export] Instance laws : KvStoreLaws t cursor.
Proof.
  refine {| cur_entries c := c.1; cur_pos := pos |}.
  - apply entries_sorted.
  - intros. simpl. by rewrite entries_elem.
  - intros. apply lookup_empty.
  - intros. apply lookup_insert.
  - intros. apply lookup_delete.
  - done.
  - intros [es [i|]]; unfold pos, at_pos; simpl; [|done].
    apply bool_decide_ext. rewrite fmap_is_Some. done.
  - intros c i (_ & [k v] & He & Ha)%pos_inv. simpl. by rewrite Ha.
  - intros c. eexists; split; [done|]. split; [done|]. apply pos_moved. simpl.
    destruct c.1; intros i [= <-]; eauto.
  - intros k c. eexists; split; [done|]. split; [done|]. apply pos_moved, first_index_lookup.
  - intros k c. eexists; split; [done|]. split; [done|]. apply pos_moved, last_index_lookup.
  - intros c i (Hi & e & He & _)%pos_inv. eexists; split; [done|]. split; [done|]. simpl. rewrite Hi.
    apply pos_moved. simpl. case_decide; intros j [= <-]. apply lookup_lt_is_Some_2. done.
  - intros c i (Hi & e & He & _)%pos_inv. eexists; split; [done|]. split; [done|]. simpl. rewrite Hi.
    apply pos_moved. simpl. destruct i; intros j [= <-]. apply lookup_lt_is_Some_2.
    apply lookup_lt_Some in He. lia.
Defined.
End GmapKv.

(** ** Borsh serialization as an interface

    Labels and chunks are stored as borsh bytes; the encoders and decoders are
    derived by the [borsh] crate and are not part of the repository.  [Borsh]
    lists the ones the storage layer calls and [BorshLaws] what it relies on:
    decoding what was encoded gives the value back, and a fixed-size array
    decodes to itself.  [bit_codec] is a concrete instance. *)

Class Borsh := {
  chunk_to_vec : Chunk → bytes;
  chunk_from_slice : bytes → option Chunk;
  label_to_vec : DatasetLabel → bytes;
  label_from_slice : bytes → option DatasetLabel;
  (** [borsh::from_slice::<ChunkId>], [ChunkId { bytes: [u8; 56] }] *)
  chunk_id_from_slice : bytes → option bytes
}.

Class BorshLaws `{Borsh} := {
  chunk_roundtrip c : chunk_from_slice (chunk_to_vec c) = Some c;
  label_roundtrip l : label_from_slice (label_to_vec l) = Some l;
  chunk_id_roundtrip k : length k = 56%nat → chunk_id_from_slice k = Some k
}.

(** ** An instance *)

#[export] Instance BlockRef_countable : Countable BlockRef.
Proof.
  refine (inj_countable' (λ b, (number b, hash b)) (λ p, mkBlockRef p.1 p.2) _). by intros [].
Defined.
#[export] Instance DatasetLabel_countable : Countable DatasetLabel.
Proof.
  refine (inj_countable' (λ l, match l with LabelV0 k v f => (k, v, f) end)
            (λ p, LabelV0 p.1.1 p.1.2 p.2) _). by intros [].
Defined.
#[export] Instance Chunk_countable : Countable Chunk.
Proof.
  refine (inj_countable'
    (λ c, match c with
          | ChunkV0 f l h p ts => inl (f, l, h, p, ts)
          | ChunkV1 f l h p ft lt ts => inr (f, l, h, p, ft, lt, ts)
          end)
    (λ s, match s with
          | inl (f, l, h, p, ts) => ChunkV0 f l h p ts
          | inr (f, l, h, p, ft, lt, ts) => ChunkV1 f l h p ft lt ts
          end) _).
  by intros [].
Defined.

(** A positive number as its bits, lowest first. *)
Fixpoint pos_bits (p : positive) : bytes :=
  match p with xH => [] | xO p => 0 :: pos_bits p | xI p => 1 :: pos_bits p end.
Fixpoint bits_pos (k : bytes) : positive :=
  match k with [] => xH | b :: k => if b =? 0 then xO (bits_pos k) else xI (bits_pos k) end.

Lemma bits_pos_bits p : bits_pos (pos_bits p) = p.
Proof. induction p; simpl; by f_equal. Qed.

Definition bit_codec : Borsh := {|
  chunk_to_vec c := pos_bits (encode c);
  chunk_from_slice k := decode (bits_pos k);
  label_to_vec l := pos_bits (encode l);
  label_from_slice k := decode (bits_pos k);
  chunk_id_from_slice k := if (length k =? 56)%nat then Some k else None
|}.

Lemma bit_codec_laws : @BorshLaws bit_codec.
Proof.
  constructor; simpl.
  - intros c. by rewrite bits_pos_bits, decode_encode.
  - intros l. by rewrite bits_pos_bits, decode_encode.
  - intros k ->. done.
Qed.
