(* ===== verification/ChunkIter.v ===== *)
(** * ChunkIter: iterating the chunks of a dataset

    Models crates/storage/src/db/read/chunk.rs: [ChunkIterator] over the cursor
    of [CF_CHUNKS], forward and reversed, and proves what it yields when the
    column family is well formed. *)

From S2P Require Import Prelude Bytes Data Kv.

Record ChunkIterator (C : Type) : Type := mkChunkIterator {
  it_cursor : C;
  it_dataset_id : DatasetId;
  it_from_block : Z;
  it_to_block : option Z;
  it_first_seek : bool;
  it_is_reversed : bool
}.
Arguments mkChunkIterator {C}.
Arguments it_cursor {C}.
Arguments it_dataset_id {C}.
Arguments it_from_block {C}.
Arguments it_to_block {C}.
Arguments it_first_seek {C}.
Arguments it_is_reversed {C}.

(** [validate_chunk] *)
Definition validate_chunk (id : bytes) (chunk : Chunk) : res unit :=
  _ ← ensure (chunk_id_last_block id =? last_block chunk) (EMsg "chunk has unexpected last block");
  ensure (first_block chunk <=? last_block chunk) (EMsg "chunk is invalid").

Section iterator.
Context {C : Type} `{KvReadCursor C} `{Borsh}.

Definition chunk_iterator (cursor : C) (dataset_id : DatasetId) (from_block : Z)
    (to_block : option Z) : ChunkIterator C :=
  mkChunkIterator cursor dataset_id from_block to_block true false.

Definition into_reversed (it : ChunkIterator C) : ChunkIterator C :=
  mkChunkIterator (it_cursor it) (it_dataset_id it) (it_from_block it) (it_to_block it)
    true (negb (it_is_reversed it)).

Definition seek_first (it : ChunkIterator C) : res C :=
  cur_seek (chunk_id (it_dataset_id it) (it_from_block it)) (it_cursor it).

Definition seek_last (it : ChunkIterator C) : res C :=
  match it_to_block it with
  | Some to_block => cur_seek_prev (chunk_id (it_dataset_id it) to_block) (it_cursor it)
  | None => cur_seek_prev (chunk_id (it_dataset_id it) u64_max) (it_cursor it)
  end.

(** The cursor move at the start of [next_chunk]. *)
Definition advance (it : ChunkIterator C) : res C :=
  if it_first_seek it then
    if it_is_reversed it then seek_last it else seek_first it
  else
    if it_is_reversed it then cur_prev (it_cursor it) else cur_next (it_cursor it).

(** What [next_chunk] makes of the entry under the cursor. *)
Definition read_chunk (dataset_id : DatasetId) (from_block : Z) (to_block : option Z)
    (key value : bytes) : res (option Chunk) :=
  current_id ← ok_or (chunk_id_from_slice key) (EStorage "borsh");
  id_dataset ← chunk_id_dataset current_id;
  if negb (bool_decide (id_dataset = dataset_id)) then Ok None
  else
    chunk ← ok_or (chunk_from_slice value) (EMsg "failed to deserialize chunk");
    _ ← validate_chunk current_id chunk;
    if ((from_block <=? last_block chunk)
        && match to_block with None => true | Some end_ => first_block chunk <=? end_ end)%bool
    then Ok (Some chunk) else Ok None.

Definition next_chunk (it : ChunkIterator C) : res (option Chunk * ChunkIterator C) :=
  cursor ← advance it;
  let it := mkChunkIterator cursor (it_dataset_id it) (it_from_block it) (it_to_block it)
              false (it_is_reversed it) in
  if negb (cur_is_valid cursor) then Ok (None, it)
  else
    c ← read_chunk (it_dataset_id it) (it_from_block it) (it_to_block it)
          (cur_key cursor) (cur_value cursor);
    Ok (c, it).

(** The items the iterator yields until it returns [None] or a failure, at which
    every consumer stops. *)
Fixpoint chunk_items (fuel : nat) (it : ChunkIterator C) : list (res Chunk) :=
  match fuel with
  | O => []
  | S fuel =>
      match next_chunk it with
      | Ok (Some c, it) => Ok c :: chunk_items fuel it
      | Ok (None, _) => []
      | Err e => [Err e]
      | Panic m => [Panic m]
      end
  end.
End iterator.

Section list_chunks.
Context {M C : Type} `{KvStore M C} `{Borsh}.

(** [list_chunks] of a snapshot or transaction view [m] of [CF_CHUNKS]; one more
    step than there are entries always reaches the end. *)
Definition list_chunks (m : M) (dataset_id : DatasetId) (from_block : Z) (to_block : option Z)
  : list (res Chunk) :=
  chunk_items (S (length (kv_entries m)))
    (chunk_iterator (kv_cursor m) dataset_id from_block to_block).

(** [list_chunks(..).into_reversed()] *)
Definition list_chunks_rev (m : M) (dataset_id : DatasetId) (from_block : Z)
    (to_block : option Z) : list (res Chunk) :=
  chunk_items (S (length (kv_entries m)))
    (into_reversed (chunk_iterator (kv_cursor m) dataset_id from_block to_block)).

(** [.next().transpose()] of such an iterator. *)
Definition first_item (items : list (res Chunk)) : res (option Chunk) :=
  match items with [] => Ok None | r :: _ => Some <$> r end.
End list_chunks.

(** ** Well-formed [CF_CHUNKS] *)

Definition chunk_ok (c : Chunk) : Prop :=
  0 <= first_block c <= last_block c ∧ last_block c < u64_max.

Section spec.
Context `{Borsh}.

(** An entry of [CF_CHUNKS] as the writers leave it. *)
Definition chunk_entry (e : entry) (d : DatasetId) (c : Chunk) : Prop :=
  dataset_id_ok d ∧ chunk_ok c ∧ e = (chunk_id_for d c, chunk_to_vec c).

Definition cf_chunks_ok (es : list entry) : Prop :=
  ∀ e, e ∈ es → ∃ d c, chunk_entry e d c.

(** The chunks of dataset [d], in key order. *)
Definition stored_chunk (d : DatasetId) (e : entry) : option Chunk :=
  if decide (take 48 e.1 = d) then chunk_from_slice e.2 else None.
Definition stored_chunks (es : list entry) (d : DatasetId) : list Chunk :=
  omap (stored_chunk d) es.
End spec.

Section facts.
Context {M C : Type} `{HK : KvStore M C} `{HL : !KvStoreLaws M C} `{HB : Borsh} `{HBL : !BorshLaws}.

(** The iteration as a function of the entries still ahead of the cursor. *)
Fixpoint scan (d : DatasetId) (from : Z) (to : option Z) (l : list entry) : list (res Chunk) :=
  match l with
  | [] => []
  | e :: l =>
      match read_chunk d from to e.1 e.2 with
      | Ok (Some c) => Ok c :: scan d from to l
      | Ok None => []
      | Err e => [Err e]
      | Panic m => [Panic m]
      end
  end.

Lemma next_chunk_at it c' i e :
  advance it = Ok c' → cur_pos c' = Some i → cur_entries c' !! i = Some e →
  next_chunk it =
    (r ← read_chunk (it_dataset_id it) (it_from_block it) (it_to_block it) e.1 e.2;
     Ok (r, mkChunkIterator c' (it_dataset_id it) (it_from_block it) (it_to_block it)
              false (it_is_reversed it))).
Proof.
  intros Ha Hp He. unfold next_chunk. rewrite Ha. cbn [mbind res_bind].
  rewrite cur_valid_iff, Hp. pose proof (cur_at _ _ Hp) as Hat. rewrite He in Hat.
  injection Hat as ->. done.
Qed.

Lemma next_chunk_end it c' :
  advance it = Ok c' → cur_pos c' = None → ∃ it', next_chunk it = Ok (None, it').
Proof.
  intros Ha Hp. unfold next_chunk. rewrite Ha. cbn [mbind res_bind].
  rewrite cur_valid_iff, Hp. eexists. done.
Qed.

(** One step of the iteration, given the entries ahead. *)
Lemma chunk_items_step fuel it c' rest :
  advance it = Ok c' →
  match cur_pos c' with
  | None => rest = []
  | Some i => ∃ e rest', rest = e :: rest' ∧ cur_entries c' !! i = Some e ∧
      chunk_items fuel (mkChunkIterator c' (it_dataset_id it) (it_from_block it)
                          (it_to_block it) false (it_is_reversed it))
      = scan (it_dataset_id it) (it_from_block it) (it_to_block it) rest'
  end →
  chunk_items (S fuel) it = scan (it_dataset_id it) (it_from_block it) (it_to_block it) rest.
Proof.
  intros Ha Hr. cbn [chunk_items]. destruct (cur_pos c') as [i|] eqn:Hp.
  - destruct Hr as (e & rest' & -> & He & Hs). rewrite (next_chunk_at _ _ _ _ Ha Hp He).
    cbn [scan]. destruct (read_chunk _ _ _ _ _) as [[c|]| |]; simpl; try done. by rewrite Hs.
  - subst. destruct (next_chunk_end _ _ Ha Hp) as [it' ->]. done.
Qed.

Lemma chunk_items_forward d from to fuel : ∀ c i,
  cur_pos c = Some i → (length (cur_entries c) - i <= fuel)%nat →
  chunk_items fuel (mkChunkIterator c d from to false false)
  = scan d from to (drop (S i) (cur_entries c)).
Proof.
  induction fuel as [|fuel IH]; intros c i Hp Hf; pose proof (cur_at _ _ Hp) as Hat;
    apply lookup_lt_Some in Hat; [lia|].
  destruct (cur_next_spec c i Hp) as (c' & Hn & He & Hp').
  rewrite (chunk_items_step fuel _ c' (drop (S i) (cur_entries c))); [done|exact Hn|].
  rewrite Hp'. case_decide as Hlt.
  - destruct (lookup_lt_is_Some_2 _ _ Hlt) as [e Hlook].
    exists e, (drop (S (S i)) (cur_entries c)).
    split; [by apply drop_S|]. rewrite He. split; [done|]. simpl.
    rewrite (IH c' (S i)), He; [done|done|rewrite He; lia].
  - apply drop_ge. lia.
Qed.

Lemma chunk_items_backward d from to fuel : ∀ c i,
  cur_pos c = Some i → (i < fuel)%nat →
  chunk_items fuel (mkChunkIterator c d from to false true)
  = scan d from to (reverse (take i (cur_entries c))).
Proof.
  induction fuel as [|fuel IH]; intros c i Hp Hf; pose proof (cur_at _ _ Hp) as Hat;
    apply lookup_lt_Some in Hat; [lia|].
  destruct (cur_prev_spec c i Hp) as (c' & Hn & He & Hp').
  rewrite (chunk_items_step fuel _ c' (reverse (take i (cur_entries c)))); [done|exact Hn|].
  rewrite Hp'. destruct i as [|i]; [done|].
  destruct (lookup_lt_is_Some_2 (cur_entries c) i) as [e Hlook]; [lia|].
  exists e, (reverse (take i (cur_entries c))).
  split; [by rewrite (take_S_r _ _ _ Hlook), reverse_snoc|]. rewrite He. split; [done|]. simpl.
  rewrite (IH c' i), He; [done|done|lia].
Qed.

(** The entries from the seek position on are the ones at or above the key. *)
Lemma first_index_filter k es :
  StronglySorted (λ a b, bytes_lt a.1 b.1) es →
  match first_index (bytes_leb k) es with Some i => drop i es | None => [] end
  = filter (λ e, bytes_le k e.1) es.
Proof.
  induction es as [|e es IH]; intros Hs; simpl; [done|].
  pose proof (StronglySorted_elem _ _ _ Hs) as Hlt. apply StronglySorted_inv in Hs as [Hs _].
  rewrite filter_cons. case_decide as Hk.
  - apply bytes_leb_spec in Hk as Hb. rewrite Hb. simpl. f_equal. symmetry.
    apply list_filter_all. intros x Hx. specialize (Hlt _ Hx).
    apply bytes_lt_le, (bytes_le_lt_trans _ (fst e)); done.
  - destruct (bytes_leb k e.1) eqn:Hb; [by apply bytes_leb_spec in Hb|].
    rewrite <-IH by done. by destruct (first_index _ es).
Qed.

Lemma last_index_filter k es :
  StronglySorted (λ a b, bytes_lt a.1 b.1) es →
  match last_index (λ k', bytes_leb k' k) es with Some i => take (S i) es | None => [] end
  = filter (λ e, bytes_le e.1 k) es.
Proof.
  induction es as [|e es IH]; intros Hs; simpl; [done|].
  pose proof (StronglySorted_elem _ _ _ Hs) as Hlt. apply StronglySorted_inv in Hs as [Hs _].
  rewrite filter_cons. case_decide as Hk.
  - apply bytes_leb_spec in Hk as Hb. rewrite Hb. simpl. f_equal. rewrite <-IH by done.
    by destruct (last_index _ es).
  - destruct (bytes_leb e.1 k) eqn:Hb; [by apply bytes_leb_spec in Hb|].
    symmetry. apply list_filter_none. intros x Hx. specialize (Hlt _ Hx).
    intros Hle. apply Hk. apply bytes_lt_le, (bytes_lt_le_trans _ (fst x)); done.
Qed.

(** [read_chunk] on a well-formed entry. *)
Definition in_window (from : Z) (to : option Z) (c : Chunk) : bool :=
  ((from <=? last_block c) && match to with None => true | Some e => first_block c <=? e end)%bool.

Lemma chunk_ok_u64 c : chunk_ok c → u64_ok (last_block c) ∧ u64_ok (first_block c).
Proof. unfold chunk_ok, u64_ok. lia. Qed.

Lemma stored_chunk_entry d e d' c :
  chunk_entry e d' c → stored_chunk d e = if decide (d' = d) then Some c else None.
Proof.
  intros (Hd' & Hc & ->). unfold stored_chunk, chunk_id_for. simpl.
  rewrite chunk_id_app by done. rewrite take_app_length' by (by rewrite dataset_id_length).
  case_decide; [apply chunk_roundtrip|done].
Qed.

Lemma read_chunk_entry d from to e d' c :
  dataset_id_ok d → chunk_entry e d' c →
  read_chunk d from to e.1 e.2
  = Ok (if decide (d' = d) then if in_window from to c then Some c else None else None).
Proof.
  intros Hd (Hd' & Hc & ->). unfold read_chunk, chunk_id_for. simpl.
  rewrite chunk_id_roundtrip by (by apply chunk_id_length). simpl.
  rewrite chunk_id_dataset_new by done. simpl. case_bool_decide as E; simpl;
    [rewrite decide_True by done|by rewrite decide_False by done].
  rewrite chunk_roundtrip. simpl. unfold validate_chunk.
  rewrite chunk_id_last_block_new, Z.eqb_refl by (done || by apply chunk_ok_u64). simpl.
  destruct Hc as [Hc _]. destruct (Z.leb_spec (first_block c) (last_block c)); [|lia]. simpl.
  unfold in_window. by case_if.
Qed.

(** What the iteration takes from a list of well-formed entries. *)
Fixpoint taken (d : DatasetId) (f : Chunk → bool) (l : list entry) : list Chunk :=
  match l with
  | [] => []
  | e :: l =>
      match stored_chunk d e with
      | Some c => if f c then c :: taken d f l else []
      | None => []
      end
  end.

Lemma scan_taken d from to l :
  dataset_id_ok d → cf_chunks_ok l → scan d from to l = Ok <$> taken d (in_window from to) l.
Proof.
  intros Hd. induction l as [|e l IH]; intros Hl; [done|].
  destruct (Hl e) as (d' & c & He); [lmem|]. cbn [scan taken].
  rewrite (read_chunk_entry d from to e d' c Hd He), (stored_chunk_entry d e d' c He).
  case_decide; [|done]. case_if; [|done]. cbn [fmap list_fmap]. f_equal. apply IH.
  intros x Hx. apply Hl. lmem.
Qed.

Lemma taken_ext d f g l :
  (∀ e c, e ∈ l → stored_chunk d e = Some c → f c = g c) → taken d f l = taken d g l.
Proof.
  induction l as [|e l IH]; intros Hl; [done|]. cbn [taken].
  destruct (stored_chunk d e) as [c|] eqn:E; [|done]. rewrite (Hl e c) by (done || lmem).
  case_if; [|done]. f_equal. apply IH. intros e' c' He'. apply Hl. lmem.
Qed.

(** Where an entry of dataset [d'] sits relative to a key of dataset [d]. *)
Lemma chunk_entry_cmp d b e d' c :
  dataset_id_ok d → u64_ok b → chunk_entry e d' c →
  bytes_cmp e.1 (chunk_id d b) = match bytes_cmp d' d with Eq => last_block c ?= b | o => o end.
Proof.
  intros Hd Hb (Hd' & Hc & ->). simpl. apply chunk_id_cmp; try done. by apply chunk_ok_u64.
Qed.

(** Past an entry of a greater dataset there is nothing of [d]. *)
Lemma stored_chunks_above d e d' c l :
  dataset_id_ok d → chunk_entry e d' c → bytes_cmp d' d = Gt → cf_chunks_ok l →
  (∀ e', e' ∈ l → bytes_lt e.1 e'.1) → stored_chunks l d = [].
Proof.
  intros Hd He Hgt. unfold stored_chunks. induction l as [|x l IH]; intros Hl Hlt; [done|].
  cbn [omap list_omap]. destruct (Hl x) as (dx & cx & Hx); [lmem|].
  rewrite (stored_chunk_entry d x dx cx Hx). case_decide as E.
  - exfalso. subst dx. specialize (Hlt x ltac:(lmem)). unfold bytes_lt in Hlt.
    destruct Hx as (Hdx & Hcx & ->), He as (Hde & Hce & ->). simpl in Hlt.
    unfold chunk_id_for in Hlt. rewrite chunk_id_cmp, Hgt in Hlt
      by (done || by apply chunk_ok_u64). done.
  - apply IH; intros y Hy; [apply Hl|apply Hlt]; lmem.
Qed.

Lemma stored_chunks_below d e d' c l :
  dataset_id_ok d → chunk_entry e d' c → bytes_cmp d' d = Lt → cf_chunks_ok l →
  (∀ e', e' ∈ l → bytes_lt e'.1 e.1) → stored_chunks l d = [].
Proof.
  intros Hd He Hlt'. unfold stored_chunks. induction l as [|x l IH]; intros Hl Hlt; [done|].
  cbn [omap list_omap]. destruct (Hl x) as (dx & cx & Hx); [lmem|].
  rewrite (stored_chunk_entry d x dx cx Hx). case_decide as E.
  - exfalso. subst dx. specialize (Hlt x ltac:(lmem)). unfold bytes_lt in Hlt.
    destruct Hx as (Hdx & Hcx & ->), He as (Hde & Hce & ->). simpl in Hlt.
    unfold chunk_id_for in Hlt.
    rewrite chunk_id_cmp, bytes_cmp_antisym, Hlt' in Hlt by (done || by apply chunk_ok_u64). done.
  - apply IH; intros y Hy; [apply Hl|apply Hlt]; lmem.
Qed.

Lemma cf_chunks_ok_cons e l : cf_chunks_ok (e :: l) → (∃ d c, chunk_entry e d c) ∧ cf_chunks_ok l.
Proof. intros Hl. split; [apply Hl; lmem|]. intros x Hx. apply Hl. lmem. Qed.

Lemma cf_chunks_ok_snoc e l : cf_chunks_ok (l ++ [e]) → (∃ d c, chunk_entry e d c) ∧ cf_chunks_ok l.
Proof. intros Hl. split; [apply Hl; lmem|]. intros x Hx. apply Hl. lmem. Qed.

(** The same as orderings of blocks. *)
Lemma chunk_entry_ge d b e d' c :
  dataset_id_ok d → u64_ok b → chunk_entry e d' c →
  bytes_le (chunk_id d b) e.1 ↔
  match bytes_cmp d' d with Eq => b <= last_block c | Lt => False | Gt => True end.
Proof.
  intros Hd Hb He. pose proof (chunk_entry_cmp d b e d' c Hd Hb He) as Hcmp.
  unfold bytes_le. rewrite bytes_cmp_antisym, Hcmp.
  destruct (bytes_cmp d' d); [|naive_solver..].
  destruct (Z.compare_spec (last_block c) b); simpl; split; try done; try lia; congruence.
Qed.

Lemma chunk_entry_le d b e d' c :
  dataset_id_ok d → u64_ok b → chunk_entry e d' c →
  bytes_le e.1 (chunk_id d b) ↔
  match bytes_cmp d' d with Eq => last_block c <= b | Lt => True | Gt => False end.
Proof.
  intros Hd Hb He. pose proof (chunk_entry_cmp d b e d' c Hd Hb He) as Hcmp.
  unfold bytes_le. rewrite Hcmp.
  destruct (bytes_cmp d' d); [|naive_solver..].
  destruct (Z.compare_spec (last_block c) b); simpl; split; try done; try lia; congruence.
Qed.

Lemma bytes_cmp_ne a b o : bytes_cmp a b = o → o ≠ Eq → a ≠ b.
Proof. intros <- Ho ->. by rewrite bytes_cmp_refl in Ho. Qed.

Lemma taken_forward d from f es :
  dataset_id_ok d → u64_ok from → cf_chunks_ok es →
  StronglySorted (λ a b, bytes_lt a.1 b.1) es →
  taken d f (filter (λ e, bytes_le (chunk_id d from) e.1) es)
  = take_while f (filter (λ c, from <= last_block c) (stored_chunks es d)).
Proof.
  intros Hd Hf. induction es as [|e es IH]; intros Hok Hs; [done|].
  pose proof (StronglySorted_elem _ _ _ Hs) as Hlt. apply StronglySorted_inv in Hs as [Hs _].
  apply cf_chunks_ok_cons in Hok as [(d' & c & He) Hok]. specialize (IH Hok Hs).
  pose proof (chunk_entry_ge d from e d' c Hd Hf He) as Hge.
  assert (Hst : stored_chunks (e :: es) d
                = if decide (d' = d) then c :: stored_chunks es d else stored_chunks es d).
  { unfold stored_chunks. cbn [omap list_omap]. rewrite (stored_chunk_entry d e d' c He).
    by case_decide. }
  rewrite Hst, filter_cons. clear Hst. destruct (bytes_cmp d' d) eqn:Ecmp.
  - apply bytes_cmp_eq in Ecmp as ->. rewrite (decide_True (P := d = d)), filter_cons by done.
    case_decide as Hk; rewrite Hge in Hk; [|by rewrite decide_False].
    rewrite decide_True by done. cbn [taken take_while].
    rewrite (stored_chunk_entry d e d c He), decide_True by done. by rewrite IH.
  - apply bytes_cmp_ne in Ecmp; [|done].
    rewrite (decide_False (P := d' = d)) by done.
    rewrite decide_False by (rewrite Hge; tauto). done.
  - rewrite (stored_chunks_above d e d' c es) by done. apply bytes_cmp_ne in Ecmp; [|done].
    rewrite (decide_False (P := d' = d)), decide_True by (done || by apply Hge). cbn [taken].
    by rewrite (stored_chunk_entry d e d' c He), decide_False by done.
Qed.

Lemma taken_backward d hi f es :
  dataset_id_ok d → u64_ok hi → cf_chunks_ok es →
  StronglySorted (λ a b, bytes_lt a.1 b.1) es →
  taken d f (reverse (filter (λ e, bytes_le e.1 (chunk_id d hi)) es))
  = take_while f (reverse (filter (λ c, last_block c <= hi) (stored_chunks es d))).
Proof.
  intros Hd Hf. induction es as [|e es IH] using rev_ind; intros Hok Hs; [done|].
  apply StronglySorted_snoc in Hs as [Hs Hlt]. rewrite Forall_forall in Hlt.
  apply cf_chunks_ok_snoc in Hok as [(d' & c & He) Hok]. specialize (IH Hok Hs).
  pose proof (chunk_entry_le d hi e d' c Hd Hf He) as Hge.
  assert (Hst : stored_chunks (es ++ [e]) d
                = stored_chunks es d ++ if decide (d' = d) then [c] else []).
  { unfold stored_chunks. rewrite omap_app. cbn [omap list_omap].
    rewrite (stored_chunk_entry d e d' c He). by case_decide. }
  rewrite Hst, filter_app, filter_cons, filter_nil. clear Hst. destruct (bytes_cmp d' d) eqn:Ecmp.
  - apply bytes_cmp_eq in Ecmp as ->. rewrite (decide_True (P := d = d)) by done.
    rewrite filter_app, filter_cons, filter_nil.
    case_decide as Hk; rewrite Hge in Hk; [|by rewrite decide_False, !app_nil_r].
    rewrite decide_True, !reverse_snoc by done. cbn [taken take_while].
    rewrite (stored_chunk_entry d e d c He), decide_True by done. by rewrite IH.
  - rewrite (stored_chunks_below d e d' c es) by done. apply bytes_cmp_ne in Ecmp; [|done].
    rewrite (decide_False (P := d' = d)), decide_True, reverse_snoc by (done || by apply Hge).
    cbn [taken]. by rewrite (stored_chunk_entry d e d' c He), decide_False by done.
  - apply bytes_cmp_ne in Ecmp; [|done]. rewrite (decide_False (P := d' = d)) by done.
    rewrite decide_False by (rewrite Hge; tauto). by rewrite !app_nil_r.
Qed.

(** ** What [list_chunks] yields *)

Lemma list_chunks_scan m d from to :
  list_chunks m d from to
  = scan d from to (filter (λ e, bytes_le (chunk_id d from) e.1) (kv_entries m)).
Proof.
  unfold list_chunks. rewrite <-first_index_filter by apply kv_sorted.
  destruct (cur_seek_spec (chunk_id d from) (kv_cursor m)) as (c & Hc & He & Hp).
  rewrite cur_new in *.
  match goal with |- _ = scan _ _ _ ?l =>
    rewrite (chunk_items_step _ _ c l); [done|exact Hc|] end.
  rewrite Hp. destruct (first_index _ _) as [i|] eqn:Hi; [|done].
  destruct (first_index_lookup _ _ _ Hi) as [e Hlook]. exists e, (drop (S i) (kv_entries m)).
  split; [by apply drop_S|]. rewrite He. split; [done|]. simpl. rewrite <-He.
  apply chunk_items_forward; [by rewrite Hp|]. rewrite He. lia.
Qed.

Definition upper_block (to : option Z) : Z := match to with Some b => b | None => u64_max end.

Lemma list_chunks_rev_scan m d from to :
  list_chunks_rev m d from to
  = scan d from to (reverse (filter (λ e, bytes_le e.1 (chunk_id d (upper_block to))) (kv_entries m))).
Proof.
  unfold list_chunks_rev. rewrite <-last_index_filter by apply kv_sorted.
  destruct (cur_seek_prev_spec (chunk_id d (upper_block to)) (kv_cursor m)) as (c & Hc & He & Hp).
  rewrite cur_new in *.
  match goal with |- _ = scan _ _ _ ?l =>
    rewrite (chunk_items_step _ _ c l); [done| |] end.
  { unfold advance, seek_last; simpl. by destruct to. }
  rewrite Hp. destruct (last_index _ _) as [i|] eqn:Hi; [|done].
  destruct (last_index_lookup _ _ _ Hi) as [e Hlook].
  exists e, (reverse (take i (kv_entries m))).
  split; [by rewrite (take_S_r _ _ _ Hlook), reverse_snoc|]. rewrite He. split; [done|]. simpl.
  rewrite <-He. apply chunk_items_backward; [by rewrite Hp|].
  apply lookup_lt_Some in Hlook. rewrite He. lia.
Qed.

Lemma cf_chunks_ok_sub l k : cf_chunks_ok l → (∀ e, e ∈ k → e ∈ l) → cf_chunks_ok k.
Proof. intros Hl Hsub e He. auto. Qed.

Lemma list_chunks_spec m d from to :
  dataset_id_ok d → u64_ok from → cf_chunks_ok (kv_entries m) →
  list_chunks m d from to
  = Ok <$> take_while (in_window from to)
             (filter (λ c, from <= last_block c) (stored_chunks (kv_entries m) d)).
Proof.
  intros Hd Hf Hok. rewrite list_chunks_scan, scan_taken, taken_forward; try done.
  - apply kv_sorted.
  - eapply cf_chunks_ok_sub; [done|]. intros e. rewrite list_elem_of_filter. tauto.
Qed.

Lemma list_chunks_rev_spec m d from to :
  dataset_id_ok d → u64_ok (upper_block to) → cf_chunks_ok (kv_entries m) →
  list_chunks_rev m d from to
  = Ok <$> take_while (in_window from to)
       (reverse (filter (λ c, last_block c <= upper_block to) (stored_chunks (kv_entries m) d))).
Proof.
  intros Hd Hf Hok. rewrite list_chunks_rev_scan, scan_taken, taken_backward; try done.
  - apply kv_sorted.
  - eapply cf_chunks_ok_sub; [done|]. intros e. rewrite elem_of_reverse, list_elem_of_filter. tauto.
Qed.

(** ** The stored chunks themselves *)

Lemma stored_chunks_elem es d c :
  cf_chunks_ok es → dataset_id_ok d →
  c ∈ stored_chunks es d ↔ (chunk_id_for d c, chunk_to_vec c) ∈ es ∧ chunk_ok c.
Proof.
  intros Hok Hd. unfold stored_chunks. rewrite list_elem_of_omap. split.
  - intros (e & He & Hs). destruct (Hok e He) as (d' & c' & Hce).
    rewrite (stored_chunk_entry d e d' c' Hce) in Hs. case_decide; [|done]. subst.
    injection Hs as ->. destruct Hce as (_ & ? & ->). done.
  - intros [He Hc]. eexists; split; [done|].
    rewrite (stored_chunk_entry d _ d c); [by rewrite decide_True|]. by split.
Qed.

Lemma stored_chunks_sorted es d :
  cf_chunks_ok es → StronglySorted (λ a b, bytes_lt a.1 b.1) es → dataset_id_ok d →
  StronglySorted (λ a b, last_block a < last_block b) (stored_chunks es d).
Proof.
  intros Hok Hs Hd. induction es as [|e es IH]; [constructor|].
  pose proof (StronglySorted_elem _ _ _ Hs) as Hlt. apply StronglySorted_inv in Hs as [Hs _].
  apply cf_chunks_ok_cons in Hok as [(d' & c & He) Hok]. specialize (IH Hok Hs).
  unfold stored_chunks in *. cbn [omap list_omap]. rewrite (stored_chunk_entry d e d' c He).
  case_decide; [|done]. subst d'. constructor; [done|]. apply Forall_forall. intros c' Hc'.
  apply stored_chunks_elem in Hc' as [Hc' Hcok]; [|done..]. specialize (Hlt _ Hc').
  destruct He as (_ & Hc & ->). unfold bytes_lt, chunk_id_for in Hlt. simpl in Hlt.
  rewrite chunk_id_cmp, bytes_cmp_refl in Hlt by (done || by apply chunk_ok_u64).
  by apply Z.compare_lt_iff.
Qed.

Lemma stored_chunks_ok es d c : cf_chunks_ok es → dataset_id_ok d → c ∈ stored_chunks es d → chunk_ok c.
Proof. intros Hok Hd [_ ?]%stored_chunks_elem; done. Qed.
End facts.
