(* ===== verification/Tables.v ===== *)
(** * Tables: reading block and transaction hashes from stored tables

    Models crates/storage/src/db/read/blocks_table.rs and transactions_table.rs.
    They sit on the table reader (crates/storage/src/table/read), which is the
    interface [TableReader] here: what a schema lookup and a column read return,
    with the laws [TableReaderLaws] that a slice is a slice of the column. *)

From S2P Require Import Prelude Bytes.

(** The Arrow types the two files distinguish. *)
Inductive data_type : Type := UInt16 | UInt32 | UInt64 | Utf8 | OtherType.

#[export] Instance data_type_eq_dec : EqDecision data_type.
Proof. solve_decision. Defined.

(** A cell of a finished array: its validity bit and the value in the buffer. *)
Record cell : Type := mkCell { cell_valid : bool; cell_num : Z; cell_str : string }.

Class TableReader (T : Type) := {
  schema_index_of : T → string → option nat;
  field_type : T → nat → data_type;
  num_rows : T → nat;
  (** [create_column_reader(col)?.read_slice(&mut builder, offset, len)?] *)
  read_slice : T → nat → nat → nat → res (list cell);
  (** [create_column_reader(col)?.read(&mut builder)?] *)
  read_column : T → nat → res (list cell)
}.

Class TableReaderLaws (T : Type) `{TableReader T} := {
  column : T → nat → list cell;
  column_length t i : length (column t i) = num_rows t;
  read_column_spec t i : read_column t i = Ok (column t i);
  read_slice_spec t i off len :
    (off + len <= num_rows t)%nat → read_slice t i off len = Ok (take len (drop off (column t i)))
}.

Section blocks_table.
Context {T : Type} `{TableReader T}.

(** [schema().index_of(name)?] *)
Definition index_of (t : T) (name : string) : res nat :=
  ok_or (schema_index_of t name) (EMsg "no such column").

Definition read_block_numbers (t : T) : res (data_type * list cell) :=
  col_idx ← index_of t "number";
  cells ← read_column t col_idx;
  Ok (field_type t col_idx, cells).

Definition read_string_cell (t : T) (column : string) (row_index : nat) : res string :=
  col_idx ← index_of t column;
  values ← read_slice t col_idx row_index 1;
  match field_type t col_idx with
  | Utf8 => match values with v :: _ => Ok (cell_str v) | [] => Panic "index out of bounds" end
  | _ => Err (EMsg "column has unexpected data type")
  end.

(** [find_block_row]: the first row among those with the least number at or above
    [block] ([min_by_key] keeps the first minimum). *)
Fixpoint min_row (block : Z) (row : nat) (numbers : list Z) : option (nat * Z) :=
  match numbers with
  | [] => None
  | n :: numbers =>
      let rest := min_row block (S row) numbers in
      if n >=? block then
        match rest with
        | Some (r, m) => if m <? n then Some (r, m) else Some (row, n)
        | None => Some (row, n)
        end
      else rest
  end.
Definition find_block_row (numbers : list Z) (block : Z) : option nat :=
  fst <$> min_row block 0 numbers.

(** [find_exact_block_row]: [iter().position(|n| *n == block)] *)
Fixpoint find_exact_block_row (numbers : list Z) (block : Z) : option nat :=
  match numbers with
  | [] => None
  | n :: numbers => if n =? block then Some O else S <$> find_exact_block_row numbers block
  end.

(** [get_parent_block_hash]; [block_number as u32] truncates. *)
Definition get_parent_block_hash (t : T) (block_number : Z) : res string :=
  '(ty, cells) ← read_block_numbers t;
  let numbers := cell_num <$> cells in
  maybe_row_idx ←
    match ty with
    | UInt32 => Ok (find_block_row numbers (block_number mod 2 ^ 32))
    | UInt64 => Ok (find_block_row numbers block_number)
    | _ => Err (EMsg "'number' column has unexpected data type")
    end;
  row_index ← ok_or maybe_row_idx (EMsg "block was not found in the given table");
  read_string_cell t "parent_hash" row_index.

Definition find_block_hash (t : T) (block_number : Z) : res (option string) :=
  '(ty, cells) ← read_block_numbers t;
  let numbers := cell_num <$> cells in
  maybe_row_idx ←
    match ty with
    | UInt32 =>
        Ok (if block_number <=? u32_max then find_exact_block_row numbers block_number else None)
    | UInt64 => Ok (find_exact_block_row numbers block_number)
    | _ => Err (EMsg "'number' column has unexpected data type")
    end;
  match maybe_row_idx with
  | None => Ok None
  | Some row_index => Some <$> read_string_cell t "hash" row_index
  end.

(** [array.null_count() == 0] *)
Definition no_nulls (cells : list cell) : bool := forallb cell_valid cells.

Section for_each.
Context {A : Type} (visit : A → Z → string → res A).

(** [for i in 0..len { visit(numbers[i], hashes.value(i))? }] *)
Fixpoint visit_rows (numbers hashes : list cell) (a : A) : res A :=
  match numbers, hashes with
  | n :: numbers, h :: hashes =>
      a ← visit a (cell_num n) (cell_str h); visit_rows numbers hashes a
  | _, _ => Ok a
  end.

Definition BLOCK_HASH_BATCH_SIZE : nat := 4096.

(** The [while offset < num_rows] loop. *)
Fixpoint block_hash_batches (fuel : nat) (t : T) (number_idx hash_idx offset : nat) (a : A)
  : res A :=
  match fuel with
  | O => Ok a
  | S fuel =>
      if decide (offset < num_rows t)%nat then
        let len := Nat.min BLOCK_HASH_BATCH_SIZE (num_rows t - offset) in
        numbers ← read_slice t number_idx offset len;
        hashes ← read_slice t hash_idx offset len;
        _ ← ensure (no_nulls numbers && no_nulls hashes)
              (EMsg "block number and hash columns must not contain nulls");
        a ← visit_rows numbers hashes a;
        block_hash_batches fuel t number_idx hash_idx (offset + len) a
      else Ok a
  end.

Definition for_each_block_hash (t : T) (a : A) : res A :=
  number_idx ← index_of t "number";
  _ ← match field_type t number_idx with
      | UInt32 | UInt64 => Ok tt
      | _ => Err (EMsg "'number' column has unexpected data type")
      end;
  hash_idx ← index_of t "hash";
  _ ← ensure (bool_decide (field_type t hash_idx = Utf8))
        (EMsg "'hash' column has unexpected data type");
  block_hash_batches (S (num_rows t)) t number_idx hash_idx 0 a.
End for_each.

Section for_each_tx.
Context {A : Type} (visit : A → Z → Z → string → res A).

(** [TransactionIndexes::value] *)
Definition transaction_index_value (ty : data_type) (c : cell) : res Z :=
  match ty with
  | UInt16 | UInt32 => Ok (cell_num c)
  | _ => if cell_num c <=? u32_max then Ok (cell_num c)
         else Err (EMsg "transaction_index does not fit u32")
  end.

Fixpoint visit_tx_rows (ty : data_type) (numbers indexes hashes : list cell) (a : A) : res A :=
  match numbers, indexes, hashes with
  | n :: numbers, i :: indexes, h :: hashes =>
      idx ← transaction_index_value ty i;
      a ← visit a (cell_num n) idx (cell_str h);
      visit_tx_rows ty numbers indexes hashes a
  | _, _, _ => Ok a
  end.

Definition TRANSACTION_HASH_BATCH_SIZE : nat := 4096.

Fixpoint transaction_hash_batches (fuel : nat) (t : T) (number_idx index_idx hash_idx offset : nat)
    (a : A) : res A :=
  match fuel with
  | O => Ok a
  | S fuel =>
      if decide (offset < num_rows t)%nat then
        let len := Nat.min TRANSACTION_HASH_BATCH_SIZE (num_rows t - offset) in
        numbers ← read_slice t number_idx offset len;
        indexes ← read_slice t index_idx offset len;
        hashes ← read_slice t hash_idx offset len;
        _ ← ensure (no_nulls numbers && no_nulls indexes && no_nulls hashes)
              (EMsg "transaction position and hash columns must not contain nulls");
        a ← visit_tx_rows (field_type t index_idx) numbers indexes hashes a;
        transaction_hash_batches fuel t number_idx index_idx hash_idx (offset + len) a
      else Ok a
  end.

Definition for_each_transaction_hash (t : T) (a : A) : res A :=
  number_idx ← index_of t "block_number";
  _ ← match field_type t number_idx with
      | UInt32 | UInt64 => Ok tt
      | _ => Err (EMsg "'block_number' column has unexpected data type")
      end;
  index_idx ← index_of t "transaction_index";
  _ ← match field_type t index_idx with
      | UInt16 | UInt32 | UInt64 => Ok tt
      | _ => Err (EMsg "'transaction_index' column has unexpected data type")
      end;
  hash_idx ← index_of t "hash";
  _ ← ensure (bool_decide (field_type t hash_idx = Utf8))
        (EMsg "'hash' column has unexpected data type");
  transaction_hash_batches (S (num_rows t)) t number_idx index_idx hash_idx 0 a.
End for_each_tx.
End blocks_table.

(** ** Facts *)

Section facts.
Context {T : Type} `{HT : TableReader T} `{HTL : !TableReaderLaws T}.

(** The rows of a blocks table, as pairs of number and hash. *)
Definition rows_of (numbers hashes : list cell) : list (Z * string) :=
  zip (cell_num <$> numbers) (cell_str <$> hashes).

Lemma visit_rows_fold {A} (visit : A → Z → string → res A) numbers hashes a :
  visit_rows visit numbers hashes a
  = fold_res (λ a p, visit a p.1 p.2) (rows_of numbers hashes) a.
Proof.
  revert hashes a; induction numbers as [|n numbers IH]; intros [|h hashes] a; try done.
  simpl. destruct (visit a _ _); simpl; auto.
Qed.

Lemma block_hash_batches_fold {A} (visit : A → Z → string → res A) t i j fuel : ∀ off a,
  no_nulls (column t i) = true → no_nulls (column t j) = true →
  (num_rows t - off < fuel)%nat →
  block_hash_batches visit fuel t i j off a
  = fold_res (λ a p, visit a p.1 p.2) (drop off (rows_of (column t i) (column t j))) a.
Proof.
  assert (Hlen : length (rows_of (column t i) (column t j)) = num_rows t).
  { unfold rows_of. rewrite length_zip_with, !length_fmap, !column_length. lia. }
  induction fuel as [|fuel IH]; intros off a Hi Hj Hf; [lia|]. cbn [block_hash_batches].
  case_decide as Hoff; [|by rewrite drop_ge by lia].
  set (len := Nat.min BLOCK_HASH_BATCH_SIZE (num_rows t - off)).
  assert (Hl : (0 < len <= num_rows t - off)%nat) by (unfold len, BLOCK_HASH_BATCH_SIZE; lia).
  rewrite !read_slice_spec by lia. cbn [mbind res_bind].
  assert (no_nulls (take len (drop off (column t i))) = true) as ->
    by (by apply forallb_take_drop, forallb_take_drop).
  assert (no_nulls (take len (drop off (column t j))) = true) as ->
    by (by apply forallb_take_drop, forallb_take_drop).
  cbn [andb ensure mbind res_bind]. rewrite visit_rows_fold.
  rewrite <-(take_drop len (drop off (rows_of _ _))), fold_res_app, drop_drop.
  assert (Hrows : rows_of (take len (drop off (column t i))) (take len (drop off (column t j)))
                  = take len (drop off (rows_of (column t i) (column t j)))).
  { unfold rows_of. rewrite zip_with_drop, zip_with_take, !fmap_take, !fmap_drop. done. }
  rewrite Hrows. destruct (fold_res _ _ _); cbn [mbind res_bind]; [|done..].
  apply IH; [done..|lia].
Qed.

(** A blocks table as the writers produce it: an unsigned number column and a
    string hash column without nulls, and a string parent hash column. *)
Definition blocks_table_ok (t : T) (i j : nat) : Prop :=
  schema_index_of t "number" = Some i ∧ schema_index_of t "hash" = Some j ∧
  (field_type t i = UInt32 ∨ field_type t i = UInt64) ∧ field_type t j = Utf8 ∧
  no_nulls (column t i) = true ∧ no_nulls (column t j) = true.

Lemma for_each_block_hash_fold {A} (visit : A → Z → string → res A) t i j a :
  blocks_table_ok t i j →
  for_each_block_hash visit t a
  = fold_res (λ a p, visit a p.1 p.2) (rows_of (column t i) (column t j)) a.
Proof.
  intros (Hi & Hj & Hty & Hty' & Hn & Hn'). unfold for_each_block_hash, index_of.
  rewrite Hi. cbn [ok_or mbind res_bind]. assert (∀ (x : res unit), (match field_type t i with UInt32 | UInt64 => Ok tt
    | _ => x end) = Ok tt) as -> by (by intros x; destruct Hty as [-> | ->]).
  cbn [mbind res_bind]. rewrite Hj. cbn [mbind res_bind ok_or]. rewrite Hty'.
  cbn [mbind res_bind]. rewrite bool_decide_true by done. cbn [mbind res_bind ensure].
  rewrite block_hash_batches_fold by (done || lia). done.
Qed.

Lemma find_exact_row_spec numbers block :
  match find_exact_block_row numbers block with
  | Some r => numbers !! r = Some block ∧ ∀ r', (r' < r)%nat → numbers !! r' ≠ Some block
  | None => block ∉ numbers
  end.
Proof.
  induction numbers as [|n numbers IH]; simpl; [apply not_elem_of_nil|].
  destruct (Z.eqb_spec n block) as [->|Hn]; [split; [done|lia]|].
  destruct (find_exact_block_row numbers block) as [r|]; simpl.
  - destruct IH as [Hr Hmin]. split; [done|]. intros [|r'] Hr'; simpl; [congruence|].
    apply Hmin. lia.
  - rewrite not_elem_of_cons. auto.
Qed.

Lemma min_row_spec block numbers : ∀ row,
  match min_row block row numbers with
  | Some (r, m) => (row <= r)%nat ∧ numbers !! (r - row)%nat = Some m ∧ block <= m ∧
      (∀ r' m', numbers !! r' = Some m' → block <= m' → m <= m' ∧ (m' = m → (r <= row + r')%nat))
  | None => ∀ m, m ∈ numbers → m < block
  end.
Proof.
  induction numbers as [|n numbers IH]; intros row; simpl; [intros m ?%elem_of_nil; done|].
  specialize (IH (S row)). rewrite Z.geb_leb. destruct (min_row block (S row) numbers) as [[r m]|].
  - destruct IH as (Hr & Hlk & Hm & Hmin).
    assert (Hlk' : (n :: numbers) !! (r - row)%nat = Some m).
    { replace (r - row)%nat with (S (r - S row)) by lia. done. }
    assert (Hrest : ∀ r' m', numbers !! r' = Some m' → block <= m' →
              m <= m' ∧ (m' = m → (r <= row + S r')%nat)).
    { intros r' m' Hr' Hb. destruct (Hmin r' m' Hr' Hb). lia. }
    destruct (Z.leb_spec block n).
    + destruct (Z.ltb_spec m n).
      * split; [lia|]. split; [done|]. split; [done|]. intros [|r'] m' Hr' Hb; simplify_eq/=; [lia|auto].
      * rewrite Nat.sub_diag. split; [lia|]. split; [done|]. split; [done|].
        intros [|r'] m' Hr' Hb; simplify_eq/=; [lia|]. destruct (Hrest r' m' Hr' Hb). lia.
    + split; [lia|]. split; [done|]. split; [done|]. intros [|r'] m' Hr' Hb; simplify_eq/=; [lia|auto].
  - destruct (Z.leb_spec block n).
    + rewrite Nat.sub_diag. split; [lia|]. split; [done|]. split; [done|].
      intros [|r'] m' Hr' Hb; simplify_eq/=; [lia|]. apply list_elem_of_lookup_2, IH in Hr'. lia.
    + intros m [->|Hm]%elem_of_cons; [lia|auto].
Qed.

(** [row] is the first of the rows whose number is the least at or above [n]. *)
Definition least_row (numbers : list Z) (n : Z) (row : nat) : Prop :=
  ∃ m, numbers !! row = Some m ∧ n <= m ∧
    ∀ r' m', numbers !! r' = Some m' → n <= m' → m <= m' ∧ (m' = m → (row <= r')%nat).

Lemma find_block_row_spec numbers n row : find_block_row numbers n = Some row ↔ least_row numbers n row.
Proof.
  unfold find_block_row, least_row. pose proof (min_row_spec n numbers 0) as Hm.
  destruct (min_row n 0 numbers) as [[r m]|]; cbn.
  - rewrite Nat.sub_0_r in Hm. destruct Hm as (_ & Hr & Hn & Hmin). split; [intros [= <-]; by exists m|].
    intros (m' & Hr' & Hn' & Hmin'). f_equal. destruct (Hmin _ _ Hr' Hn') as [A B], (Hmin' _ _ Hr Hn) as [A' B'].
    assert (m' = m) as -> by lia. specialize (B eq_refl). specialize (B' eq_refl). lia.
  - split; [done|]. intros (m & Hr & Hn & _). apply list_elem_of_lookup_2, Hm in Hr. lia.
Qed.

(** The parent hash that a blocks table gives for block [n]: the one of the first block at
    or above it.  The number column may be 32 bits wide, and [n] is cut to its width. *)
Definition table_parent_hash (t : T) (n : Z) (h : string) : Prop :=
  ∃ i j row v, schema_index_of t "number" = Some i ∧ schema_index_of t "parent_hash" = Some j ∧
    field_type t j = Utf8 ∧
    (field_type t i = UInt32 ∧ least_row (cell_num <$> column t i) (n mod 2 ^ 32) row ∨
     field_type t i = UInt64 ∧ least_row (cell_num <$> column t i) n row) ∧
    column t j !! row = Some v ∧ cell_str v = h.

Lemma read_string_cell_spec t name row h : (row < num_rows t)%nat →
  read_string_cell t name row = Ok h ↔
  ∃ j v, schema_index_of t name = Some j ∧ field_type t j = Utf8 ∧ column t j !! row = Some v ∧ cell_str v = h.
Proof.
  intros Hrow. unfold read_string_cell, index_of. destruct (schema_index_of t name) as [j|]; cbn;
    [|split; [done|by intros (? & ? & ? & _)]].
  rewrite read_slice_spec by lia. cbn. rewrite <-(column_length t j) in Hrow.
  destruct (lookup_lt_is_Some_2 _ _ Hrow) as [v Hv]. rewrite (drop_S _ _ _ Hv). cbn. split.
  - destruct (field_type t j) eqn:Et; try done. intros [= <-]. by exists j, v.
  - intros (j' & v' & [= <-] & -> & Hv' & <-). congruence.
Qed.

Lemma get_parent_block_hash_spec t n h : get_parent_block_hash t n = Ok h ↔ table_parent_hash t n h.
Proof.
  unfold get_parent_block_hash, read_block_numbers, index_of, table_parent_hash.
  destruct (schema_index_of t "number") as [i|]; cbn; [|split; [done|by intros (? & ? & ? & ? & ? & _)]].
  rewrite read_column_spec. cbn.
  assert (Hlt : ∀ n' row, least_row (cell_num <$> column t i) n' row → (row < num_rows t)%nat).
  { intros n' row (m & Hm & _). apply lookup_lt_Some in Hm. by rewrite length_fmap, column_length in Hm. }
  assert (Hgo : ∀ n', (row_index ← ok_or (find_block_row (cell_num <$> column t i) n')
      (EMsg "block was not found in the given table"); read_string_cell t "parent_hash" row_index) = Ok h ↔
    ∃ j row v, schema_index_of t "parent_hash" = Some j ∧ field_type t j = Utf8 ∧
      least_row (cell_num <$> column t i) n' row ∧ column t j !! row = Some v ∧ cell_str v = h).
  { intros n'. destruct (find_block_row _ n') as [row|] eqn:E; cbn.
    - apply find_block_row_spec in E. rewrite (read_string_cell_spec t _ row h (Hlt _ _ E)).
      split; [intros (j & v & ? & ? & ? & ?); by exists j, row, v|].
      intros (j & row' & v & A & B & F & G). apply find_block_row_spec in E, F.
      exists j, v. rewrite E in F. injection F as <-. done.
    - split; [done|]. intros (j & row & v & _ & _ & F & _). apply find_block_row_spec in F. congruence. }
  destruct (field_type t i) eqn:Ei; cbn; try rewrite Hgo;
    (split; [|intros (i' & j & row & v & [= <-] & A & B & [[E F]|[E F]] & G); rewrite Ei in E; try done; by exists j, row, v]);
    try done; intros (j & row & v & A & B & F & G & K); exists i, j, row, v; auto 8.
Qed.

Lemma table_parent_hash_unique t n h h' : table_parent_hash t n h → table_parent_hash t n h' → h = h'.
Proof. rewrite <-!get_parent_block_hash_spec. congruence. Qed.
End facts.
