(* ===== verification/Chain.v ===== *)
(** * Chain: what a dataset's list of chunks must look like

    The invariant of the storage layer: the chunks of a dataset, in key order, do
    not overlap, and two chunks that meet are linked by hash.  [tiled] is the
    stronger shape the ingest path maintains: no gaps.  These are specifications;
    the code that maintains them is in [Tx], [Compaction] and [WriteController]. *)

From S2P Require Import Prelude Bytes Data Kv ChunkIter.

Definition linked (a b : Chunk) : Prop :=
  last_block a < first_block b ∧
  (last_block a + 1 = first_block b → last_block_hash a = parent_block_hash b).

Definition follows (a b : Chunk) : Prop :=
  last_block a + 1 = first_block b ∧ last_block_hash a = parent_block_hash b.

(** A relation between neighbours. *)
Fixpoint adjacent {A} (R : A → A → Prop) (l : list A) : Prop :=
  match l with
  | a :: ((b :: _) as l') => R a b ∧ adjacent R l'
  | _ => True
  end.

Definition chain (l : list Chunk) : Prop := Forall chunk_ok l ∧ adjacent linked l.
Definition tiled (l : list Chunk) : Prop := Forall chunk_ok l ∧ adjacent follows l.

Section adjacent.
Context {A : Type} (R : A → A → Prop).

Lemma adjacent_cons_cons a b l : adjacent R (a :: b :: l) ↔ R a b ∧ adjacent R (b :: l).
Proof. done. Qed.

Lemma adjacent_app l k : adjacent R (l ++ k) ↔
  adjacent R l ∧ adjacent R k ∧
  match last l, head k with Some a, Some b => R a b | _, _ => True end.
Proof.
  induction l as [|a l IH]; [simpl; by destruct k; intuition|].
  destruct l as [|b l].
  - destruct k as [|c k]; simpl; tauto.
  - rewrite <-!app_comm_cons, !adjacent_cons_cons, last_cons_cons.
    rewrite !app_comm_cons, IH. tauto.
Qed.

Lemma adjacent_snoc l x :
  adjacent R (l ++ [x]) ↔ adjacent R l ∧ match last l with Some a => R a x | None => True end.
Proof. rewrite adjacent_app. simpl. destruct (last l); tauto. Qed.
End adjacent.

Lemma adjacent_reverse {A} (R : A → A → Prop) l : adjacent R l → adjacent (λ a b, R b a) (reverse l).
Proof.
  induction l as [|x l IH]; intros Ha; [done|]. rewrite reverse_cons. apply adjacent_snoc.
  destruct l as [|y l]; [done|]. apply adjacent_cons_cons in Ha as [Hxy Ha]. split; [by apply IH|].
  by rewrite reverse_cons, last_snoc.
Qed.

Lemma adjacent_impl {A} (R S : A → A → Prop) l :
  (∀ a b, R a b → S a b) → adjacent R l → adjacent S l.
Proof.
  intros HRS. induction l as [|a [|b l] IH]; try done.
  rewrite !adjacent_cons_cons. intros [? ?]. auto.
Qed.

Lemma follows_linked a b : chunk_ok b → follows a b → linked a b.
Proof. unfold follows, linked. intros _ [? ?]. split; [lia|done]. Qed.

Lemma tiled_chain l : tiled l → chain l.
Proof.
  intros [Hok Ha]. split; [done|]. eapply adjacent_impl; [|done].
  intros a b [? ?]. split; [lia|done].
Qed.

Lemma chain_app l k : chain (l ++ k) → chain l ∧ chain k.
Proof. intros [[? ?]%Forall_app (?&?&_)%adjacent_app]. done. Qed.
Lemma tiled_app l k : tiled (l ++ k) → tiled l ∧ tiled k.
Proof. intros [[? ?]%Forall_app (?&?&_)%adjacent_app]. done. Qed.

Lemma chain_snoc l c :
  chain l → chunk_ok c → match last l with Some a => linked a c | None => True end → chain (l ++ [c]).
Proof.
  intros [Hl Ha] Hc Hlast. split; [apply Forall_app; split; [done|by apply Forall_singleton]|].
  by apply adjacent_snoc.
Qed.
Lemma tiled_snoc l c :
  tiled l → chunk_ok c → match last l with Some a => follows a c | None => True end → tiled (l ++ [c]).
Proof.
  intros [Hl Ha] Hc Hlast. split; [apply Forall_app; split; [done|by apply Forall_singleton]|].
  by apply adjacent_snoc.
Qed.

(** In a chain every earlier chunk ends before every later one starts. *)
Lemma chain_sorted l : chain l → StronglySorted (λ a b, last_block a < first_block b) l.
Proof.
  induction l as [|a l IH]; intros [Hok Ha]; [constructor|].
  apply Forall_cons in Hok as [Ha' Hok].
  destruct l as [|b l]; [repeat constructor|]. apply adjacent_cons_cons in Ha as [[Hab _] Ha].
  specialize (IH (conj Hok Ha)). constructor; [done|]. constructor; [done|].
  apply Forall_cons in Hok as [Hb Hok]. unfold chunk_ok in Hb.
  pose proof (StronglySorted_elem _ _ _ IH) as Hs. apply Forall_forall. intros c Hc.
  specialize (Hs c Hc). simpl in Hs. lia.
Qed.

Lemma chain_elem_ok l c : chain l → c ∈ l → chunk_ok c.
Proof. intros [Hok _] Hc. rewrite Forall_forall in Hok. auto. Qed.

(** A block is covered by at most one chunk of a chain. *)
Lemma chain_covering_unique l b c c' : chain l → c ∈ l → c' ∈ l →
  first_block c <= b <= last_block c → first_block c' <= b <= last_block c' → c' = c.
Proof.
  intros Hs%chain_sorted Hc Hc' Hb Hb'. induction Hs as [|a l Hs IH Ha]; [by apply elem_of_nil in Hc|].
  rewrite Forall_forall in Ha. rewrite elem_of_cons in Hc, Hc'.
  destruct Hc as [->|Hc], Hc' as [->|Hc']; [done| | |auto];
    match goal with H : _ ∈ l |- _ => specialize (Ha _ H); simpl in Ha end; lia.
Qed.

(** Chunk lists ordered by last block are determined by their members. *)
Lemma sorted_chunks_ext (l k : list Chunk) :
  StronglySorted (λ a b, last_block a < last_block b) l →
  StronglySorted (λ a b, last_block a < last_block b) k →
  (∀ c, c ∈ l ↔ c ∈ k) → l = k.
Proof.
  revert k; induction l as [|x l IH]; intros [|y k] Hl Hk Hm; [done|..].
  { exfalso. apply (not_elem_of_nil y), Hm. lmem. }
  { exfalso. apply (not_elem_of_nil x), Hm. lmem. }
  pose proof (StronglySorted_elem _ _ _ Hl) as Hx. pose proof (StronglySorted_elem _ _ _ Hk) as Hy.
  apply StronglySorted_inv in Hl as [Hl _]. apply StronglySorted_inv in Hk as [Hk _].
  assert (x = y) as ->.
  { assert (x ∈ y :: k) as [?|Hxk]%elem_of_cons by (apply Hm; lmem); [done|].
    assert (y ∈ x :: l) as [?|Hyl]%elem_of_cons by (apply Hm; lmem); [done|].
    specialize (Hx _ Hyl). specialize (Hy _ Hxk). simpl in *. lia. }
  f_equal. apply IH; try done. intros c. specialize (Hm c). rewrite !elem_of_cons in Hm.
  assert (c ∈ l → c ≠ y) by (intros Hc ->; specialize (Hx _ Hc); simpl in *; lia).
  assert (c ∈ k → c ≠ y) by (intros Hc ->; specialize (Hy _ Hc); simpl in *; lia).
  tauto.
Qed.

Lemma chain_sorted_last l : chain l → StronglySorted (λ a b, last_block a < last_block b) l.
Proof.
  intros Hc. pose proof (chain_sorted _ Hc) as Hs. destruct Hc as [Hok _].
  induction Hs as [|a l Hs IH Ha]; [constructor|]. apply Forall_cons in Hok as [? Hok].
  constructor; [auto|]. rewrite Forall_forall in Ha, Hok |- *. intros b Hb.
  specialize (Ha b Hb). specialize (Hok b Hb). unfold chunk_ok in *. lia.
Qed.

Lemma sorted_app_ne l k c c' :
  StronglySorted (λ a b, last_block a < last_block b) (l ++ [c] ++ k) →
  c' ∈ l ∨ c' ∈ k → last_block c' ≠ last_block c.
Proof.
  induction l as [|a l IH]; simpl; intros [Hs Hf]%StronglySorted_inv; rewrite Forall_forall in Hf.
  - intros [?%elem_of_nil|Hk]; [done|]. specialize (Hf _ Hk). simpl in Hf. lia.
  - rewrite elem_of_cons. intros [[->|Hl]|Hk]; [|apply IH; auto..].
    assert (Hin : c ∈ l ++ [c] ++ k) by set_solver. specialize (Hf c Hin). simpl in Hf. lia.
Qed.

(** Dropping any chunk of a chain leaves a chain; dropping an end of a gapless one
    leaves a gapless one. *)
Lemma chain_delete l c k : chain (l ++ [c] ++ k) → chain (l ++ k).
Proof.
  intros Hch. pose proof (chain_sorted _ Hch) as Hs. destruct Hch as [Hok Ha].
  rewrite !Forall_app in Hok. destruct Hok as (Hl & Hc & Hk). rewrite Forall_singleton in Hc.
  split; [by rewrite Forall_app|]. apply adjacent_app in Ha as (Al & Ack & Hx).
  apply adjacent_app in Ack as (_ & Ak & Hck). apply adjacent_app. repeat split; try done.
  destruct (last l) as [a|] eqn:El; [|done]. destruct (head k) as [b|] eqn:Eb; [|done].
  simpl in Hx, Hck. destruct Hx as [? _], Hck as [? _]. unfold chunk_ok in Hc. split; [lia|].
  intros; lia.
Qed.

(** ** The chunk view of a key-value store under puts and deletes *)

Section view.
Context {M C : Type} `{HK : KvStore M C} `{HL : !KvStoreLaws M C} `{HB : Borsh} `{HBL : !BorshLaws}.

Definition chunks_of (m : M) (d : DatasetId) : list Chunk := stored_chunks (kv_entries m) d.
Definition chunks_cf_ok (m : M) : Prop := cf_chunks_ok (kv_entries m).

Lemma chunks_of_elem m d c : chunks_cf_ok m → dataset_id_ok d →
  c ∈ chunks_of m d ↔ kv_get m (chunk_id_for d c) = Some (chunk_to_vec c) ∧ chunk_ok c.
Proof. intros Hok Hd. unfold chunks_of. rewrite stored_chunks_elem by done. by rewrite kv_get_entries. Qed.

Lemma chunks_of_sorted m d : chunks_cf_ok m → dataset_id_ok d →
  StronglySorted (λ a b, last_block a < last_block b) (chunks_of m d).
Proof. intros Hok Hd. apply stored_chunks_sorted; [done|apply kv_sorted|done]. Qed.

Lemma chunks_of_ok m d : chunks_cf_ok m → dataset_id_ok d → Forall chunk_ok (chunks_of m d).
Proof. intros Hok Hd. apply Forall_forall. intros c. by apply stored_chunks_ok. Qed.

Lemma chunk_to_vec_inj c c' : chunk_to_vec c = chunk_to_vec c' → c = c'.
Proof. intros E. apply (f_equal chunk_from_slice) in E. rewrite !chunk_roundtrip in E. congruence. Qed.

Lemma chunk_id_for_inj d d' c c' :
  dataset_id_ok d → dataset_id_ok d' → chunk_ok c → chunk_ok c' →
  chunk_id_for d c = chunk_id_for d' c' → d = d' ∧ last_block c = last_block c'.
Proof. intros ? ? ? ?. apply chunk_id_inj; try done; by apply chunk_ok_u64. Qed.

Lemma chunks_put_ok m d c : chunks_cf_ok m → dataset_id_ok d → chunk_ok c →
  chunks_cf_ok (kv_put m (chunk_id_for d c) (chunk_to_vec c)).
Proof.
  intros Hok Hd Hc e [->|[_ He]]%kv_entries_put; [exists d, c; by split|auto].
Qed.

Lemma chunks_put_elem m d c d' c' :
  chunks_cf_ok m → dataset_id_ok d → dataset_id_ok d' → chunk_ok c →
  c' ∈ chunks_of (kv_put m (chunk_id_for d c) (chunk_to_vec c)) d' ↔
  (d' = d ∧ c' = c) ∨ (c' ∈ chunks_of m d' ∧ (d' = d → last_block c' ≠ last_block c)).
Proof.
  intros Hok Hd Hd' Hc. rewrite !chunks_of_elem by auto using chunks_put_ok.
  rewrite kv_get_put. case_decide as E.
  - split.
    + intros [[= Hv] Hc']. left. apply chunk_to_vec_inj in Hv as ->.
      apply chunk_id_for_inj in E as [-> _]; done.
    + intros [[-> ->]|[[Hg Hc'] Hne]]; [done|].
      apply chunk_id_for_inj in E as [-> E]; try done. by specialize (Hne eq_refl).
  - split.
    + intros [Hg Hc']. right. split; [done|]. intros -> Hl. apply E.
      unfold chunk_id_for. by rewrite Hl.
    + intros [[-> ->]|[? _]]; done.
Qed.

Lemma chunks_delete_ok m k : chunks_cf_ok m → chunks_cf_ok (kv_delete m k).
Proof. intros Hok e [_ He]%kv_entries_delete. auto. Qed.

Lemma chunks_delete_elem m d c d' c' :
  chunks_cf_ok m → dataset_id_ok d → dataset_id_ok d' → chunk_ok c →
  c' ∈ chunks_of (kv_delete m (chunk_id_for d c)) d' ↔
  c' ∈ chunks_of m d' ∧ (d' = d → last_block c' ≠ last_block c).
Proof.
  intros Hok Hd Hd' Hc. rewrite !chunks_of_elem by auto using chunks_delete_ok.
  rewrite kv_get_delete. case_decide as E.
  - split; [by intros [? _]|]. intros [[Hg Hc'] Hne].
    apply chunk_id_for_inj in E as [-> E]; try done. by specialize (Hne eq_refl).
  - split; [|tauto]. intros [Hg Hc']. split; [done|]. intros -> Hl. apply E.
    unfold chunk_id_for. by rewrite Hl.
Qed.

(** Other datasets are not affected. *)
Lemma chunks_put_other m d c d' :
  chunks_cf_ok m → dataset_id_ok d → dataset_id_ok d' → chunk_ok c → d' ≠ d →
  chunks_of (kv_put m (chunk_id_for d c) (chunk_to_vec c)) d' = chunks_of m d'.
Proof.
  intros. apply sorted_chunks_ext; [apply chunks_of_sorted; auto using chunks_put_ok..|].
  intros c'. rewrite chunks_put_elem by done. tauto.
Qed.

Lemma chunks_delete_other m d c d' :
  chunks_cf_ok m → dataset_id_ok d → dataset_id_ok d' → chunk_ok c → d' ≠ d →
  chunks_of (kv_delete m (chunk_id_for d c)) d' = chunks_of m d'.
Proof.
  intros. apply sorted_chunks_ext; [apply chunks_of_sorted; auto using chunks_delete_ok..|].
  intros c'. rewrite chunks_delete_elem by done. tauto.
Qed.

(** Writing a chunk above the head appends it; deleting the head drops it. *)
Lemma chunks_put_head m d c l :
  chunks_cf_ok m → dataset_id_ok d → chunk_ok c → chunks_of m d = l →
  Forall (λ x, last_block x < last_block c) l →
  chunks_of (kv_put m (chunk_id_for d c) (chunk_to_vec c)) d = l ++ [c].
Proof.
  intros Hok Hd Hc Hl Hall. apply sorted_chunks_ext.
  - apply chunks_of_sorted; auto using chunks_put_ok.
  - apply StronglySorted_snoc. split; [subst; by apply chunks_of_sorted|done].
  - intros c'. rewrite chunks_put_elem, Hl, elem_of_app, list_elem_of_singleton by done.
    rewrite Forall_forall in Hall. split; [tauto|]. intros [Hin| ->]; [|by left].
    right. split; [done|]. intros _. specialize (Hall _ Hin). simpl in *. lia.
Qed.

Lemma chunks_delete_member m d c l k :
  chunks_cf_ok m → dataset_id_ok d → chunks_of m d = l ++ [c] ++ k →
  chunks_of (kv_delete m (chunk_id_for d c)) d = l ++ k.
Proof.
  intros Hok Hd Hl.
  assert (Hc : chunk_ok c) by (apply (stored_chunks_ok (kv_entries m) d); try done;
    change (c ∈ chunks_of m d); rewrite Hl; lmem).
  pose proof (chunks_of_sorted m d Hok Hd) as Hs. rewrite Hl in Hs.
  assert (Hs' : StronglySorted (λ a b, last_block a < last_block b) (l ++ k) ∧
                Forall (λ x, last_block x ≠ last_block c) (l ++ k)).
  { clear -Hs. induction l as [|a l IH]; simpl in *.
    - apply StronglySorted_inv in Hs as [Hs Hf]. split; [done|].
      eapply Forall_impl; [exact Hf|]. simpl. intros; lia.
    - apply StronglySorted_inv in Hs as [Hs Hf]. destruct (IH Hs) as [? ?].
      apply Forall_app in Hf as [Hf1 Hf2]. apply Forall_cons in Hf2 as [? Hf2].
      split; [constructor; [done|by apply Forall_app]|]. constructor; [lia|done]. }
  destruct Hs' as [Hs' Hne]. apply sorted_chunks_ext.
  - apply chunks_of_sorted; auto using chunks_delete_ok.
  - done.
  - intros c'. rewrite chunks_delete_elem, Hl by done. rewrite Forall_forall in Hne.
    split.
    + intros [Hin Hn]. specialize (Hn eq_refl). rewrite !elem_of_app, list_elem_of_singleton in *.
      destruct Hin as [?|[-> |?]]; tauto.
    + intros Hin. split; [rewrite !elem_of_app in *; tauto|]. intros _. by apply Hne.
Qed.

(** Writing a chunk that fits between two parts of the list. *)
Lemma chunks_put_between m d c l k :
  chunks_cf_ok m → dataset_id_ok d → chunk_ok c → chunks_of m d = l ++ k →
  StronglySorted (λ a b, last_block a < last_block b) (l ++ [c] ++ k) →
  chunks_of (kv_put m (chunk_id_for d c) (chunk_to_vec c)) d = l ++ [c] ++ k.
Proof.
  intros Hok Hd Hc Hl Hs. apply sorted_chunks_ext; [|done|].
  - apply chunks_of_sorted; auto using chunks_put_ok.
  - intros c'. rewrite chunks_put_elem, Hl by done. rewrite !elem_of_app, list_elem_of_singleton.
    assert (c' ∈ l ∨ c' ∈ k → last_block c' ≠ last_block c) by (apply (sorted_app_ne _ _ _ _ Hs)).
    tauto.
Qed.

(** Listing the whole dataset. *)
Lemma list_all m d : chunks_cf_ok m → dataset_id_ok d →
  list_chunks m d 0 None = Ok <$> chunks_of m d.
Proof.
  intros Hok Hd. rewrite list_chunks_spec by (done || (unfold u64_ok, u64_max; lia)).
  fold (chunks_of m d). pose proof (chunks_of_ok m d Hok Hd) as Hall. rewrite Forall_forall in Hall.
  rewrite list_filter_all; [rewrite take_while_all; [done|]|]; intros c Hc; specialize (Hall c Hc);
    unfold in_window, chunk_ok in *; lia.
Qed.

Lemma list_all_rev m d : chunks_cf_ok m → dataset_id_ok d →
  list_chunks_rev m d 0 None = Ok <$> reverse (chunks_of m d).
Proof.
  intros Hok Hd. rewrite list_chunks_rev_spec by (done || (unfold u64_ok, u64_max; simpl; lia)).
  fold (chunks_of m d). pose proof (chunks_of_ok m d Hok Hd) as Hall. rewrite Forall_forall in Hall.
  rewrite list_filter_all; [rewrite take_while_all; [done|]|]; intros c Hc;
    rewrite ?elem_of_reverse in Hc; specialize (Hall c Hc);
    unfold in_window, chunk_ok in *; simpl; lia.
Qed.

(** On a chain the two cuts of the iterator are one filter. *)
Lemma chain_window from to l : chain l →
  take_while (in_window from to) (filter (λ c, from <= last_block c) l)
  = filter (λ c, in_window from to c = true) l.
Proof.
  intros Hch. pose proof (chain_sorted _ Hch) as Hs. destruct Hch as [Hok _].
  induction Hs as [|a l Hs IH Ha]; [done|]. apply Forall_cons in Hok as [Hoa Hok]. specialize (IH Hok).
  rewrite !filter_cons. destruct (decide (from <= last_block a)) as [Hf|Hf].
  - simpl. destruct (in_window from to a) eqn:E; simpl; [by rewrite IH|].
    symmetry. apply list_filter_none. intros c Hc. unfold in_window in E |- *.
    rewrite (proj2 (Z.leb_le _ _) Hf) in E. destruct to as [b|]; [|done]. simpl in E. zbool.
    rewrite Forall_forall in Ha. specialize (Ha c Hc). unfold chunk_ok in Hoa.
    rewrite (proj2 (Z.leb_gt (first_block c) b)) by lia. by rewrite andb_false_r.
  - rewrite decide_False; [done|]. unfold in_window. rewrite (proj2 (Z.leb_gt _ _)) by lia. done.
Qed.

Lemma list_chunks_window m d from to :
  chunks_cf_ok m → dataset_id_ok d → u64_ok from → chain (chunks_of m d) →
  list_chunks m d from to = Ok <$> filter (λ c, in_window from to c = true) (chunks_of m d).
Proof.
  intros Hok Hd Hf Hch. rewrite list_chunks_spec by done. fold (chunks_of m d).
  by rewrite chain_window.
Qed.
End view.

(** Iterating [list_chunks(d, from, to)] yields, in ascending order and without
    an error, exactly the stored chunks of [d] that reach [from] and start no later
    than [to]; with no upper bound, the reversed iterator yields the same chunks
    backwards when started at block 0. *)
Theorem list_chunks_exact {M C : Type} `{KvStoreLaws M C} `{BorshLaws} (m : M) (d : DatasetId)
    (from : Z) (to : option Z) :
  chunks_cf_ok m → dataset_id_ok d → u64_ok from → chain (chunks_of m d) →
  (∃ l, list_chunks m d from to = Ok <$> l ∧
    StronglySorted (λ a b, last_block a < first_block b) l ∧
    (∀ c, c ∈ l ↔ c ∈ chunks_of m d ∧ from <= last_block c ∧
                  (∀ e, to = Some e → first_block c <= e))) ∧
  list_chunks_rev m d 0 None = reverse (list_chunks m d 0 None).
Proof.
  intros Hok Hd Hf Hch. split.
  - eexists. split; [by apply list_chunks_window|]. split.
    + pose proof (chain_sorted _ Hch) as Hs. clear -Hs. induction Hs as [|a l Hs IH Ha]; [constructor|].
      rewrite filter_cons. case_decide; [|done]. constructor; [done|].
      rewrite Forall_forall in Ha |- *. intros c [_ Hc]%list_elem_of_filter. auto.
    + intros c. rewrite list_elem_of_filter. unfold in_window. rewrite andb_true_iff, Z.leb_le.
      destruct to as [e|]; rewrite ?Z.leb_le; naive_solver.
  - rewrite list_all_rev, list_all by done. apply fmap_reverse.
Qed.
