(* ===== verification/Tx.v ===== *)
(** * Tx: staging changes to datasets in an optimistic transaction

    Models crates/storage/src/db/write/tx.rs (the operations of [Tx]),
    crates/storage/src/db/write/dataset_update.rs and the column families of
    crates/storage/src/db/db.rs.

    A database state gives every column family a key-value store.  A transaction
    holds the state it was opened on, the write batch staged so far and the keys
    it read for update; its iterators and reads see the staged batch on top of
    that state.  Staging a put or a delete does not fail. *)

From S2P Require Import Prelude Bytes Data Kv ChunkIter Tables.

Inductive cf : Type :=
| CF_DATASETS | CF_CHUNKS | CF_TABLES | CF_DIRTY_TABLES | CF_DELETED_TABLES
| CF_BLOCK_HASHES | CF_TRANSACTION_HASHES.

#[export] Instance cf_eq_dec : EqDecision cf.
Proof. solve_decision. Defined.

(** [ReadSnapshot::create_table_reader]: opening a table of [CF_TABLES]. *)
Class TableStore (M T : Type) := { open_table : M → TableId → res T }.

Inductive write_op : Type :=
| Put (c : cf) (key value : bytes)
| Del (c : cf) (key : bytes).

#[export] Instance write_op_eq_dec : EqDecision write_op.
Proof. solve_decision. Defined.

Definition op_cf (o : write_op) : cf := match o with Put c _ _ => c | Del c _ => c end.
Definition op_key (o : write_op) : bytes := match o with Put _ k _ => k | Del _ k => k end.

Section tx.
Context {M C T : Type} `{KvStore M C} `{Borsh} `{TableReader T} `{TableStore M T}.

(** The content of every column family. *)
Definition db : Type := cf → M.

Definition apply_op (o : write_op) (d : db) : db := λ c,
  if decide (op_cf o = c) then
    match o with Put _ k v => kv_put (d c) k v | Del _ k => kv_delete (d c) k end
  else d c.

(** A write batch is applied in the order it was staged. *)
Definition apply_batch (ops : list write_op) (d : db) : db :=
  fold_left (λ d o, apply_op o d) ops d.

Record Tx : Type := mkTx {
  tx_db : db;
  tx_batch : list write_op;
  tx_tracked : list (cf * bytes);
  tx_block_hash_index : bool;
  tx_transaction_hash_index : bool
}.

(** [Tx::with_retry_policy(db, ..).with_block_hash_index(..).with_transaction_hash_index(..)] *)
Definition tx_begin (d : db) (block_hash_index transaction_hash_index : bool) : Tx :=
  mkTx d [] [] block_hash_index transaction_hash_index.

(** What reads and iterators of the transaction see. *)
Definition tx_view (tx : Tx) : db := apply_batch (tx_batch tx) (tx_db tx).

Definition stage (o : write_op) (tx : Tx) : Tx :=
  mkTx (tx_db tx) (tx_batch tx ++ [o]) (tx_tracked tx)
    (tx_block_hash_index tx) (tx_transaction_hash_index tx).
Definition put_cf (c : cf) (k v : bytes) : Tx → Tx := stage (Put c k v).
Definition delete_cf (c : cf) (k : bytes) : Tx → Tx := stage (Del c k).

(** [get_pinned_for_update_cf]: a read that joins the conflict check. *)
Definition get_for_update (c : cf) (k : bytes) (tx : Tx) : option bytes * Tx :=
  (kv_get (tx_view tx c) k,
   mkTx (tx_db tx) (tx_batch tx) ((c, k) :: tx_tracked tx)
     (tx_block_hash_index tx) (tx_transaction_hash_index tx)).

(** ** Labels *)

Definition find_label_for_update (d : DatasetId) (tx : Tx) : res (option DatasetLabel * Tx) :=
  let '(maybe_bytes, tx) := get_for_update CF_DATASETS d tx in
  match maybe_bytes with
  | Some bs => label ← ok_or (label_from_slice bs) (EStorage "borsh"); Ok (Some label, tx)
  | None => Ok (None, tx)
  end.

Definition get_label_for_update (d : DatasetId) (tx : Tx) : res (DatasetLabel * Tx) :=
  '(maybe, tx) ← find_label_for_update d tx;
  label ← ok_or maybe (EMsg "dataset not found");
  Ok (label, tx).

Definition write_label (d : DatasetId) (label : DatasetLabel) : Tx → Tx :=
  put_cf CF_DATASETS d (label_to_vec label).

Definition delete_label (d : DatasetId) : Tx → Tx := delete_cf CF_DATASETS d.

(** ** Chunks *)

Definition write_chunk (d : DatasetId) (chunk : Chunk) (tx : Tx) : Tx :=
  fold_left (λ tx table, delete_cf CF_DIRTY_TABLES table tx) (tables chunk).*2
    (put_cf CF_CHUNKS (chunk_id_for d chunk) (chunk_to_vec chunk) tx).

Definition delete_table (table_id : TableId) : Tx → Tx := put_cf CF_DELETED_TABLES table_id [].

Definition delete_chunk (d : DatasetId) (chunk : Chunk) (tx : Tx) : Tx :=
  fold_left (λ tx table, delete_table table tx) (tables chunk).*2
    (delete_cf CF_CHUNKS (chunk_id_for d chunk) tx).

(** [Tx::list_chunks], forward and [into_reversed]. *)
Definition tx_list_chunks (d : DatasetId) (from : Z) (to : option Z) (tx : Tx) : list (res Chunk) :=
  list_chunks (tx_view tx CF_CHUNKS) d from to.
Definition tx_list_chunks_rev (d : DatasetId) (from : Z) (to : option Z) (tx : Tx)
  : list (res Chunk) :=
  list_chunks_rev (tx_view tx CF_CHUNKS) d from to.

(** ** Hash indexes *)

(** [is_indexed_kind]: only "evm". *)
Definition is_indexed_kind (kind : DatasetKind) : bool :=
  bool_decide (kind = pad 16 (str_bytes "evm")).

(** [ReadSnapshot::new(self.db).create_table_reader(id)] *)
Definition open_db_table (tx : Tx) (id : TableId) : res T := open_table (tx_db tx CF_TABLES) id.

Definition index_block_hashes (d : DatasetId) (chunk : Chunk) (tx : Tx) : res Tx :=
  match table_get "blocks" (tables chunk) with
  | None => Ok tx
  | Some id =>
      reader ← open_db_table tx id;
      for_each_block_hash
        (λ tx number hash,
          Ok (put_cf CF_BLOCK_HASHES (hash_index_key d (str_bytes hash)) (be_bytes 8 number) tx))
        reader tx
  end.

Definition index_transaction_hashes (d : DatasetId) (chunk : Chunk) (tx : Tx) : res Tx :=
  match table_get "transactions" (tables chunk) with
  | None => Ok tx
  | Some id =>
      reader ← open_db_table tx id;
      for_each_transaction_hash
        (λ tx block_number transaction_index hash,
          Ok (put_cf CF_TRANSACTION_HASHES (hash_index_key d (str_bytes hash))
                (encode_transaction_position block_number transaction_index) tx))
        reader tx
  end.

Definition index_hashes (d : DatasetId) (chunk : Chunk) (tx : Tx) : res Tx :=
  if (negb (tx_block_hash_index tx) && negb (tx_transaction_hash_index tx))%bool then Ok tx
  else
    '(maybe_label, tx) ← find_label_for_update d tx;
    match maybe_label with
    | None => Ok tx
    | Some label =>
        if negb (is_indexed_kind (label_kind label)) then Ok tx
        else
          tx ← (if tx_block_hash_index tx then index_block_hashes d chunk tx else Ok tx);
          if tx_transaction_hash_index tx then index_transaction_hashes d chunk tx else Ok tx
    end.

(** [has_hash_entries]: one seek of an iterator bounded above by [end]. *)
Definition has_hash_entries (c : cf) (d : DatasetId) (tx : Tx) : res bool :=
  let '(start, end_) := dataset_range d in
  cursor ← cur_seek start (kv_cursor (tx_view tx c));
  Ok (cur_is_valid cursor && bytes_ltb (cur_key cursor) end_)%bool.

Definition unindex_block_hashes (d : DatasetId) (chunk : Chunk) (tx : Tx) : res Tx :=
  has ← has_hash_entries CF_BLOCK_HASHES d tx;
  if negb has then Ok tx
  else match table_get "blocks" (tables chunk) with
  | None => Ok tx
  | Some id =>
      reader ← open_db_table tx id;
      for_each_block_hash
        (λ tx _ hash, Ok (delete_cf CF_BLOCK_HASHES (hash_index_key d (str_bytes hash)) tx))
        reader tx
  end.

Definition unindex_transaction_hashes (d : DatasetId) (chunk : Chunk) (tx : Tx) : res Tx :=
  has ← has_hash_entries CF_TRANSACTION_HASHES d tx;
  if negb has then Ok tx
  else match table_get "transactions" (tables chunk) with
  | None => Ok tx
  | Some id =>
      reader ← open_db_table tx id;
      for_each_transaction_hash
        (λ tx _ _ hash, Ok (delete_cf CF_TRANSACTION_HASHES (hash_index_key d (str_bytes hash)) tx))
        reader tx
  end.

Definition unindex_hashes (d : DatasetId) (chunk : Chunk) (tx : Tx) : res Tx :=
  tx ← unindex_block_hashes d chunk tx;
  unindex_transaction_hashes d chunk tx.

(** ** Inserting chunks *)

(** The loop of [insert_fork] over the chunks from the head down. *)
Fixpoint insert_fork_loop (d : DatasetId) (chunk : Chunk) (existing : list (res Chunk)) (tx : Tx)
  : res Tx :=
  match existing with
  | [] => Ok tx
  | head_result :: existing =>
      head ← head_result;
      if first_block chunk <=? first_block head then
        tx ← unindex_hashes d head tx;
        insert_fork_loop d chunk existing (delete_chunk d head tx)
      else if u64_add (last_block head) 1 =? first_block chunk then
        _ ← ensure (bool_decide (last_block_hash head = parent_block_hash chunk))
              (EMsg "chain continuity is violated between new chunk and its existing parent");
        Ok tx
      else if last_block head <? first_block chunk then
        Err (EMsg "there is a gap between new chunk and existing")
      else Err (EMsg "new chunk overlaps with existing")
  end.

Definition insert_fork (d : DatasetId) (chunk : Chunk) (tx : Tx) : res Tx :=
  tx ← insert_fork_loop d chunk (tx_list_chunks_rev d 0 None tx) tx;
  index_hashes d chunk (write_chunk d chunk tx).

(** [validate_chunk_insertion]: checks against up to two neighbours. *)
Definition check_neighbour (chunk n : Chunk) : res unit :=
  _ ← ensure (Z.min (last_block n) (last_block chunk) <? Z.max (first_block n) (first_block chunk))
        (EMsg "new chunk overlaps with existing");
  _ ← (if u64_add (last_block chunk) 1 =? first_block n then
         ensure (bool_decide (last_block_hash chunk = parent_block_hash n))
           (EMsg "chain continuity was violated between new and existing")
       else Ok tt);
  if u64_add (last_block n) 1 =? first_block chunk then
    ensure (bool_decide (last_block_hash n = parent_block_hash chunk))
      (EMsg "chain continuity was violated between new and existing")
  else Ok tt.

Definition validate_chunk_insertion (d : DatasetId) (chunk : Chunk) (tx : Tx) : res unit :=
  _ ← ensure (first_block chunk <=? last_block chunk) (EMsg "Condition failed");
  fold_res (λ _ r, n ← r; check_neighbour chunk n)
    (take 2 (tx_list_chunks_rev d 0 (Some (u64_add (last_block chunk) 1)) tx)) tt.

(** ** Reading block hashes *)

Definition blocks_table (chunk : Chunk) : res TableId :=
  ok_or (table_get "blocks" (tables chunk)) (EMsg "'blocks' table does not exist in chunk").

(** [validate_parent_block_hash]; the inner [Err] carries the actual hash. *)
Definition validate_parent_block_hash (chunk : Chunk) (block_number : Z) (expected : string) (tx : Tx)
  : res (option string) :=
  let verdict actual := if bool_decide (actual = expected) then None else Some actual in
  if first_block chunk =? block_number then Ok (verdict (parent_block_hash chunk))
  else if u64_add (last_block chunk) 1 =? block_number then Ok (verdict (last_block_hash chunk))
  else
    _ ← ensure ((first_block chunk <? block_number) && (block_number <=? last_block chunk))%bool
          (EMsg "chunk does not have information about parent hash of block");
    id ← blocks_table chunk;
    reader ← open_db_table tx id;
    parent_hash ← get_parent_block_hash reader block_number;
    Ok (verdict parent_hash).

Definition find_block_hash_in_chunk (chunk : Chunk) (block_number : Z) (tx : Tx)
  : res (option string) :=
  id ← blocks_table chunk;
  reader ← open_db_table tx id;
  find_block_hash reader block_number.

Definition find_stored_block_hash (d : DatasetId) (block_number : Z) (tx : Tx)
  : res (option string) :=
  maybe_chunk ← first_item (tx_list_chunks d block_number (Some block_number) tx);
  match maybe_chunk with
  | None => Ok None
  | Some chunk => find_block_hash_in_chunk chunk block_number tx
  end.

Definition read_block_hashes (chunk : Chunk) (from to : Z) (tx : Tx) : res (list (Z * string)) :=
  id ← blocks_table chunk;
  reader ← open_db_table tx id;
  for_each_block_hash
    (λ hashes number hash,
      Ok (if ((from <=? number) && (number <=? to))%bool then hashes ++ [(number, hash)] else hashes))
    reader [].

(** ** The finalized prefix *)

Inductive divergence : Type :=
| NotStored (number : Z) (hash : string)
| Mismatch (stored_number : Z) (stored_hash : string) (number : Z) (hash : string)
| MissingFromReplacement (stored_number : Z) (stored_hash : string).

(** [seek_stored]: [buffer] is [stored[pos..]]; pulls stored chunks in until it is
    non-empty or none is left. *)
Fixpoint seek_stored (from up_to : Z) (tx : Tx) (chunks : list Chunk) (buffer : list (Z * string))
  : res (list Chunk * list (Z * string)) :=
  match buffer with
  | _ :: _ => Ok (chunks, buffer)
  | [] =>
      match chunks with
      | [] => Ok ([], [])
      | next :: chunks =>
          buffer ← read_block_hashes next from up_to tx;
          seek_stored from up_to tx chunks buffer
      end
  end.

Record prefix_state : Type := mkPrefixState {
  ps_chunks : list Chunk;
  ps_buffer : list (Z * string);
  ps_divergence : option divergence
}.

(** The closure passed to [for_each_block_hash]. *)
Definition prefix_visit (from up_to : Z) (tx : Tx) (s : prefix_state) (number : Z) (hash : string)
  : res prefix_state :=
  if (bool_decide (is_Some (ps_divergence s)) || (number >? up_to))%bool then Ok s
  else
    '(chunks, buffer) ← seek_stored from up_to tx (ps_chunks s) (ps_buffer s);
    match buffer with
    | [] => Ok (mkPrefixState chunks buffer (Some (NotStored number hash)))
    | (stored_number, stored_hash) :: rest =>
        if ((stored_number =? number) && bool_decide (stored_hash = hash))%bool
        then Ok (mkPrefixState chunks rest None)
        else Ok (mkPrefixState chunks buffer
                   (Some (Mismatch stored_number stored_hash number hash)))
    end.

(** [validate_finalized_prefix]; the inner [Err] carries the divergence. *)
Definition validate_finalized_prefix (d : DatasetId) (chunk : Chunk) (up_to : Z) (tx : Tx)
  : res (option divergence) :=
  let from := first_block chunk in
  stored ← collect (tx_list_chunks d from (Some up_to) tx);
  id ← blocks_table chunk;
  reader ← open_db_table tx id;
  s ← for_each_block_hash (prefix_visit from up_to tx) reader (mkPrefixState stored [] None);
  match ps_divergence s with
  | Some v => Ok (Some v)
  | None =>
      '(_, buffer) ← seek_stored from up_to tx (ps_chunks s) (ps_buffer s);
      match buffer with
      | [] => Ok None
      | (stored_number, stored_hash) :: _ =>
          Ok (Some (MissingFromReplacement stored_number stored_hash))
      end
  end.

(** ** DatasetUpdate *)

Record DatasetUpdate : Type := mkDatasetUpdate {
  upd_tx : Tx;
  upd_dataset_id : DatasetId;
  upd_label : DatasetLabel
}.

Definition update_new (tx : Tx) (d : DatasetId) : res DatasetUpdate :=
  '(label, tx) ← get_label_for_update d tx;
  Ok (mkDatasetUpdate tx d label).

Definition with_tx (u : DatasetUpdate) (tx : Tx) : DatasetUpdate :=
  mkDatasetUpdate tx (upd_dataset_id u) (upd_label u).

Definition upd_insert_chunk (chunk : Chunk) (u : DatasetUpdate) : res DatasetUpdate :=
  _ ← validate_chunk_insertion (upd_dataset_id u) chunk (upd_tx u);
  tx ← index_hashes (upd_dataset_id u) chunk (write_chunk (upd_dataset_id u) chunk (upd_tx u));
  Ok (with_tx u tx).

Definition upd_insert_fork (chunk : Chunk) (u : DatasetUpdate) : res DatasetUpdate :=
  tx ← insert_fork (upd_dataset_id u) chunk (upd_tx u); Ok (with_tx u tx).

Definition upd_delete_chunk (chunk : Chunk) (u : DatasetUpdate) : res DatasetUpdate :=
  tx ← unindex_hashes (upd_dataset_id u) chunk (upd_tx u);
  Ok (with_tx u (delete_chunk (upd_dataset_id u) chunk tx)).

Definition upd_set_finalized_head (b : option BlockRef) (u : DatasetUpdate) : DatasetUpdate :=
  mkDatasetUpdate (upd_tx u) (upd_dataset_id u) (label_set_finalized_head (upd_label u) b).

(** [finish]: bumps the version and writes the label. *)
Definition upd_finish (u : DatasetUpdate) : Tx :=
  write_label (upd_dataset_id u) (bump_version (upd_label u)) (upd_tx u).
End tx.
Arguments db : clear implicits.
Arguments Tx : clear implicits.
Arguments DatasetUpdate : clear implicits.
