(* ===== verification/Concrete.v ===== *)
(** * Concrete: an in-memory instance of the storage interfaces

    Stores are finite maps ([GmapKv]), values are encoded with [bit_codec] and a
    table is a list of rows kept under its id.  With these the operations of the
    storage layer evaluate, and the laws the theorems assume of the interfaces
    hold. *)

From stdpp Require Import gmap.
From S2P Require Import Prelude Bytes Data Kv ChunkIter Tables Chain Tx.

Module Mem.

#[export] Existing Instances GmapKv.cursor_ops GmapKv.ops GmapKv.laws.

(** A row: block number, hash, parent hash. *)
Record row : Type := mkRow { row_number : Z; row_hash : string; row_parent : string }.
Definition table : Type := list row.

Definition cells (t : table) (i : nat) : list cell :=
  match i with
  | 0%nat => (λ r, mkCell true (row_number r) "") <$> t
  | 1%nat => (λ r, mkCell true 0 (row_hash r)) <$> t
  | 2%nat => (λ r, mkCell true 0 (row_parent r)) <$> t
  | _ => (λ _, mkCell true 0 "") <$> t
  end.

#[export] Instance table_ops : TableReader table := {|
  schema_index_of _ name :=
    if decide (name = "number") then Some 0%nat
    else if decide (name = "hash") then Some 1%nat
    else if decide (name = "parent_hash") then Some 2%nat else None;
  field_type _ i := match i with 0%nat => UInt64 | _ => Utf8 end;
  num_rows t := length t;
  read_slice t i off len := Ok (take len (drop off (cells t i)));
  read_column t i := Ok (cells t i)
|}.

#[export] Instance table_laws : TableReaderLaws table.
Proof.
  refine {| column := cells |}; [|done..].
  intros t [|[|[|i]]]; simpl; apply length_fmap.
Defined.

(** A stored table: three bytes per row. *)
Definition name_of (b : Z) : string := String (Ascii.ascii_of_N (Z.to_N b)) EmptyString.
Fixpoint decode_rows (v : bytes) : table :=
  match v with
  | n :: h :: p :: v => mkRow n (name_of h) (name_of p) :: decode_rows v
  | _ => []
  end.

#[export] Instance store : TableStore GmapKv.t table := {|
  open_table m id := match m !! id with
                     | Some v => Ok (decode_rows v)
                     | None => Err (EStorage "no such table")
                     end
|}.

#[export] Instance codec : Borsh := bit_codec.
#[export] Instance codec_laws : BorshLaws := bit_codec_laws.

Abbreviation mdb := (db GmapKv.t).

(** A database with the given labels, chunks and tables. *)
Definition with_entries (l : list entry) : GmapKv.t := list_to_map l.
Definition chunk_entries (d : DatasetId) (cs : list Chunk) : list entry :=
  (λ c, (chunk_id_for d c, chunk_to_vec c)) <$> cs.
Definition make_db (labels : list (DatasetId * DatasetLabel))
    (chunks : list (DatasetId * list Chunk)) (tbls : list (TableId * bytes)) : mdb := λ c,
  match c with
  | CF_DATASETS => with_entries ((λ p, (p.1, label_to_vec p.2)) <$> labels)
  | CF_CHUNKS => with_entries (chunks ≫= λ p, chunk_entries p.1 p.2)
  | CF_TABLES => with_entries tbls
  | _ => ∅
  end.

(** The chunk column family of such a database is well formed. *)
Lemma make_db_chunks_ok labels chunks tbls :
  Forall (λ p, dataset_id_ok p.1 ∧ Forall chunk_ok p.2) chunks →
  chunks_cf_ok (make_db labels chunks tbls CF_CHUNKS).
Proof.
  intros Hall [k v] He. apply (proj2 (kv_get_entries _ _ _)) in He.
  change (with_entries (chunks ≫= λ p, chunk_entries p.1 p.2) !! k = Some v) in He.
  apply elem_of_list_to_map_2, list_elem_of_bind in He as ([d cs] & Hin & Hp).
  apply list_elem_of_fmap in Hin as (c & [= -> ->] & Hc).
  rewrite Forall_forall in Hall. destruct (Hall _ Hp) as [Hd Hcs].
  rewrite Forall_forall in Hcs. exists d, c. split_and!; simpl in *; auto.
Qed.

(** The decoded chunks of a dataset, by evaluation. *)
Definition d0 : DatasetId := dataset_named "eth".
Definition d1 : DatasetId := dataset_named "sol".
Lemma d0_ok : dataset_id_ok d0.
Proof. apply dataset_named_ok; vm_compute; [lia|reflexivity]. Qed.
Lemma d1_ok : dataset_id_ok d1.
Proof. apply dataset_named_ok; vm_compute; [lia|reflexivity]. Qed.

Definition evm_label (fin : option BlockRef) : DatasetLabel :=
  LabelV0 (pad 16 (str_bytes "evm")) 0 fin.

(** A chunk over [first..=last] with no tables. *)
Definition plain (first last : Z) (parent hash : string) : Chunk :=
  ChunkV0 first last hash parent [].
(** A chunk with a blocks table. *)
Definition with_blocks (first last : Z) (parent hash : string) (id : TableId) : Chunk :=
  ChunkV0 first last hash parent [("blocks", id)].
End Mem.
