(* ===== verification/TxSpec.v ===== *)
(** * TxSpec: what the transaction operations do to a dataset

    Theorems about [Tx]: how staged operations change the chunk list of a
    dataset, that every insertion keeps the chain invariant of [Chain], and that
    the finalized-prefix check is an exact comparison. *)

From S2P Require Import Prelude Bytes Data Kv ChunkIter Tables Chain Tx Concrete.

Section facts.
Context {M C T : Type} `{HK : KvStore M C} `{HL : !KvStoreLaws M C}
  `{HB : Borsh} `{HBL : !BorshLaws} `{HT : TableReader T} `{HS : !TableStore M T}.
Implicit Types tx : Tx M.

(** ** Views *)

Lemma tx_view_stage o tx : tx_view (stage o tx) = apply_op o (tx_view tx).
Proof. unfold tx_view, stage, apply_batch. simpl. by rewrite fold_left_app. Qed.

Lemma apply_op_other (o : write_op) (d : db M) c : op_cf o ≠ c → apply_op o d c = d c.
Proof. intros. unfold apply_op. by rewrite decide_False. Qed.

Lemma apply_put c k v (d : db M) : apply_op (Put c k v) d c = kv_put (d c) k v.
Proof. unfold apply_op. by rewrite decide_True. Qed.
Lemma apply_del c k (d : db M) : apply_op (Del c k) d c = kv_delete (d c) k.
Proof. unfold apply_op. by rewrite decide_True. Qed.

(** [tx'] continues [tx], staging only into the column families [cs]. *)
Definition frame (cs : list cf) (tx tx' : Tx M) : Prop :=
  tx_db tx' = tx_db tx ∧
  tx_block_hash_index tx' = tx_block_hash_index tx ∧
  tx_transaction_hash_index tx' = tx_transaction_hash_index tx ∧
  (∀ c, c ∉ cs → tx_view tx' c = tx_view tx c) ∧
  (∀ ck, ck ∈ tx_tracked tx → ck ∈ tx_tracked tx').

Lemma frame_refl cs tx : frame cs tx tx.
Proof. by repeat split. Qed.

Lemma frame_trans cs tx1 tx2 tx3 : frame cs tx1 tx2 → frame cs tx2 tx3 → frame cs tx1 tx3.
Proof.
  intros (A1 & A2 & A3 & A4 & A5) (B1 & B2 & B3 & B4 & B5). repeat split; try congruence; [|auto].
  intros c Hc. rewrite B4, A4; done.
Qed.

Lemma frame_weaken cs cs' tx tx' : (∀ c, c ∈ cs → c ∈ cs') → frame cs tx tx' → frame cs' tx tx'.
Proof. intros Hsub (A1 & A2 & A3 & A4 & A5). repeat split; try done. intros c Hc. apply A4. auto. Qed.

Lemma frame_view cs tx tx' c : frame cs tx tx' → c ∉ cs → tx_view tx' c = tx_view tx c.
Proof. intros (_ & _ & _ & Hv & _). auto. Qed.

Lemma frame_stage cs o tx : op_cf o ∈ cs → frame cs tx (stage o tx).
Proof.
  intros Ho. repeat split; [|done]. intros c Hc. rewrite tx_view_stage.
  apply apply_op_other. by intros <-.
Qed.

Lemma frame_fold {B} cs (f : B → write_op) l tx :
  (∀ b, op_cf (f b) ∈ cs) → frame cs tx (fold_left (λ tx b, stage (f b) tx) l tx).
Proof.
  intros Hf. revert tx; induction l as [|b l IH]; intros tx; simpl; [apply frame_refl|].
  eapply frame_trans; [by apply frame_stage|apply IH].
Qed.

(** ** Loops over table rows preserve what every visit preserves *)

Lemma visit_rows_inv {A} (R : A → A → Prop) visit :
  (∀ a, R a a) → (∀ a b c, R a b → R b c → R a c) →
  (∀ a n h a', visit a n h = Ok a' → R a a') →
  ∀ numbers hashes a a', visit_rows visit numbers hashes a = Ok a' → R a a'.
Proof.
  intros Hr Ht Hv. induction numbers as [|n numbers IH]; intros [|h hashes] a a' Ho;
    try (injection Ho as <-; apply Hr). cbn [visit_rows] in Ho. inv_res Ho. eauto.
Qed.

Lemma for_each_block_hash_inv {A} (R : A → A → Prop) visit (t : T) a a' :
  (∀ a, R a a) → (∀ a b c, R a b → R b c → R a c) →
  (∀ a n h a', visit a n h = Ok a' → R a a') →
  for_each_block_hash visit t a = Ok a' → R a a'.
Proof.
  intros Hr Ht Hv. unfold for_each_block_hash. intros Ho. inv_res Ho.
  revert Ho. generalize (S (num_rows t)) 0%nat. intros fuel. revert a.
  induction fuel as [|fuel IH]; intros a off Ho; cbn [block_hash_batches] in Ho; [by simplify_eq|].
  case_decide; [|by simplify_eq]. inv_res Ho.
  eapply Ht; [|by eapply IH]. by eapply visit_rows_inv.
Qed.

Lemma visit_tx_rows_inv {A} (R : A → A → Prop) visit ty :
  (∀ a, R a a) → (∀ a b c, R a b → R b c → R a c) →
  (∀ a n i h a', visit a n i h = Ok a' → R a a') →
  ∀ numbers indexes hashes a a', visit_tx_rows visit ty numbers indexes hashes a = Ok a' → R a a'.
Proof.
  intros Hr Ht Hv. induction numbers as [|n numbers IH]; intros [|i indexes] [|h hashes] a a' Ho;
    try (injection Ho as <-; apply Hr). cbn [visit_tx_rows] in Ho. inv_res Ho. eauto.
Qed.

Lemma for_each_transaction_hash_inv {A} (R : A → A → Prop) visit (t : T) a a' :
  (∀ a, R a a) → (∀ a b c, R a b → R b c → R a c) →
  (∀ a n i h a', visit a n i h = Ok a' → R a a') →
  for_each_transaction_hash visit t a = Ok a' → R a a'.
Proof.
  intros Hr Ht Hv. unfold for_each_transaction_hash. intros Ho. inv_res Ho.
  revert Ho. generalize (S (num_rows t)) 0%nat. intros fuel. revert a.
  induction fuel as [|fuel IH]; intros a off Ho; cbn [transaction_hash_batches] in Ho; [by simplify_eq|].
  case_decide; [|by simplify_eq]. inv_res Ho.
  eapply Ht; [|by eapply IH]. by eapply visit_tx_rows_inv.
Qed.

(** ** Index maintenance only touches the index column families *)

Definition index_cfs : list cf := [CF_BLOCK_HASHES; CF_TRANSACTION_HASHES].

Lemma frame_get_for_update cs c k tx : frame cs tx (get_for_update c k tx).2.
Proof. repeat split. simpl. intros ck Hck. lmem. Qed.

Lemma find_label_frame cs d tx o tx' : find_label_for_update d tx = Ok (o, tx') → frame cs tx tx'.
Proof.
  unfold find_label_for_update. pose proof (frame_get_for_update cs CF_DATASETS d tx) as Hf.
  destruct (get_for_update CF_DATASETS d tx) as [[bs|] tx1]; intros Ho; inv_res Ho; by simplify_eq/=.
Qed.

Lemma index_block_hashes_frame d c tx tx' :
  index_block_hashes d c tx = Ok tx' → frame index_cfs tx tx'.
Proof.
  unfold index_block_hashes. case_match; [|intros [= <-]; apply frame_refl]. intros Ho. inv_res Ho.
  eapply (for_each_block_hash_inv (frame index_cfs)); [apply frame_refl|apply frame_trans| |done].
  intros a n h a' [= <-]. apply frame_stage. simpl. unfold index_cfs. lmem.
Qed.

Lemma index_transaction_hashes_frame d c tx tx' :
  index_transaction_hashes d c tx = Ok tx' → frame index_cfs tx tx'.
Proof.
  unfold index_transaction_hashes. case_match; [|intros [= <-]; apply frame_refl]. intros Ho. inv_res Ho.
  eapply (for_each_transaction_hash_inv (frame index_cfs)); [apply frame_refl|apply frame_trans| |done].
  intros a n i h a' [= <-]. apply frame_stage. simpl. unfold index_cfs. lmem.
Qed.

Lemma index_hashes_frame d c tx tx' : index_hashes d c tx = Ok tx' → frame index_cfs tx tx'.
Proof.
  unfold index_hashes. case_if; [intros [= <-]; apply frame_refl|].
  intros Ho. inv_res Ho. destruct v as [o tx1]. pose proof (find_label_frame index_cfs _ _ _ _ Hv) as Hf.
  destruct o as [label|]; [|by simplify_eq]. case_if_in Ho; [by simplify_eq|].
  inv_res Ho. eapply frame_trans; [done|]. eapply frame_trans.
  - case_if_in Hv0; [by eapply index_block_hashes_frame|simplify_eq; apply frame_refl].
  - case_if_in Ho; [by eapply index_transaction_hashes_frame|simplify_eq; apply frame_refl].
Qed.

Lemma unindex_hashes_frame d c tx tx' : unindex_hashes d c tx = Ok tx' → frame index_cfs tx tx'.
Proof.
  unfold unindex_hashes. intros Ho. inv_res Ho. eapply frame_trans.
  - unfold unindex_block_hashes in Hv. inv_res Hv. case_if_in Hv; [simplify_eq; apply frame_refl|].
    case_match; [|simplify_eq; apply frame_refl]. inv_res Hv.
    eapply (for_each_block_hash_inv (frame index_cfs)); [apply frame_refl|apply frame_trans| |done].
    intros a n h a' [= <-]. apply frame_stage. simpl. unfold index_cfs. lmem.
  - unfold unindex_transaction_hashes in Ho. inv_res Ho. case_if_in Ho; [simplify_eq; apply frame_refl|].
    case_match; [|simplify_eq; apply frame_refl]. inv_res Ho.
    eapply (for_each_transaction_hash_inv (frame index_cfs)); [apply frame_refl|apply frame_trans| |done].
    intros a n i h a' [= <-]. apply frame_stage. simpl. unfold index_cfs. lmem.
Qed.

(** ** Writing and deleting chunks *)

Lemma write_chunk_frame d c tx : frame [CF_CHUNKS; CF_DIRTY_TABLES] tx (write_chunk d c tx).
Proof.
  unfold write_chunk. eapply frame_trans.
  - apply (frame_stage _ (Put CF_CHUNKS (chunk_id_for d c) (chunk_to_vec c))). simpl. lmem.
  - apply (frame_fold _ (λ t, Del CF_DIRTY_TABLES t)). intros. simpl. lmem.
Qed.

Lemma write_chunk_view d c tx :
  tx_view (write_chunk d c tx) CF_CHUNKS
  = kv_put (tx_view tx CF_CHUNKS) (chunk_id_for d c) (chunk_to_vec c).
Proof.
  unfold write_chunk. rewrite (frame_view [CF_DIRTY_TABLES]
    (put_cf CF_CHUNKS (chunk_id_for d c) (chunk_to_vec c) tx)).
  - unfold put_cf. by rewrite tx_view_stage, apply_put.
  - apply (frame_fold _ (λ t, Del CF_DIRTY_TABLES t)). intros. simpl. lmem.
  - rewrite list_elem_of_singleton. done.
Qed.

Lemma delete_chunk_frame d c tx : frame [CF_CHUNKS; CF_DELETED_TABLES] tx (delete_chunk d c tx).
Proof.
  unfold delete_chunk. eapply frame_trans.
  - apply (frame_stage _ (Del CF_CHUNKS (chunk_id_for d c))). simpl. lmem.
  - apply (frame_fold _ (λ t, Put CF_DELETED_TABLES t [])). intros. simpl. lmem.
Qed.

Lemma delete_chunk_view d c tx :
  tx_view (delete_chunk d c tx) CF_CHUNKS = kv_delete (tx_view tx CF_CHUNKS) (chunk_id_for d c).
Proof.
  unfold delete_chunk. rewrite (frame_view [CF_DELETED_TABLES]
    (delete_cf CF_CHUNKS (chunk_id_for d c) tx)).
  - unfold delete_cf. by rewrite tx_view_stage, apply_del.
  - apply (frame_fold _ (λ t, Put CF_DELETED_TABLES t [])). intros. simpl. lmem.
  - rewrite list_elem_of_singleton. done.
Qed.

(** ** Inserting a fork *)

(** What [insert_fork] does to a chunk list: the chunks that start at or above the
    new one go, and what is left must end exactly where the new one starts. *)
Definition fork_spec (l : list Chunk) (c : Chunk) : res (list Chunk) :=
  let kept := take_while (λ x, first_block x <? first_block c) l in
  match last kept with
  | None => Ok [c]
  | Some head =>
      if last_block head + 1 =? first_block c then
        if bool_decide (last_block_hash head = parent_block_hash c) then Ok (kept ++ [c])
        else Err (EMsg "chain continuity is violated between new chunk and its existing parent")
      else if last_block head <? first_block c then
        Err (EMsg "there is a gap between new chunk and existing")
      else Err (EMsg "new chunk overlaps with existing")
  end.

(** The state of one dataset inside a transaction; every other dataset keeps its
    chunks. *)
Definition only_dataset (d : DatasetId) (tx tx' : Tx M) : Prop :=
  ∀ d', dataset_id_ok d' → d' ≠ d →
    chunks_of (tx_view tx' CF_CHUNKS) d' = chunks_of (tx_view tx CF_CHUNKS) d'.

Lemma only_dataset_refl d tx : only_dataset d tx tx.
Proof. done. Qed.
Lemma only_dataset_trans d tx1 tx2 tx3 :
  only_dataset d tx1 tx2 → only_dataset d tx2 tx3 → only_dataset d tx1 tx3.
Proof. intros A B d' Hd' Hne. by rewrite B, A. Qed.
Lemma only_dataset_view d tx tx' :
  tx_view tx' CF_CHUNKS = tx_view tx CF_CHUNKS → only_dataset d tx tx'.
Proof. intros E d' _ _. by rewrite E. Qed.

Lemma index_frame_chunks tx tx' :
  frame index_cfs tx tx' → tx_view tx' CF_CHUNKS = tx_view tx CF_CHUNKS.
Proof. intros Hf. apply (frame_view _ _ _ _ Hf). unfold index_cfs. set_solver. Qed.

(** Deleting one stored chunk. *)
Lemma delete_chunk_spec d c tx l k :
  chunks_cf_ok (tx_view tx CF_CHUNKS) → dataset_id_ok d →
  chunks_of (tx_view tx CF_CHUNKS) d = l ++ [c] ++ k →
  let tx' := delete_chunk d c tx in
  chunks_cf_ok (tx_view tx' CF_CHUNKS) ∧ chunks_of (tx_view tx' CF_CHUNKS) d = l ++ k ∧
  only_dataset d tx tx'.
Proof.
  intros Hok Hd Hl tx'. unfold tx'. rewrite delete_chunk_view.
  split; [by apply chunks_delete_ok|]. split; [by apply chunks_delete_member|].
  intros d' Hd' Hne. rewrite delete_chunk_view. apply chunks_delete_other; try done.
  pose proof (chunks_of_ok _ _ Hok Hd) as Hall. rewrite Hl in Hall.
  rewrite Forall_forall in Hall. apply Hall. lmem.
Qed.

(** Writing one chunk above all stored ones. *)
Lemma write_chunk_spec d c tx l :
  chunks_cf_ok (tx_view tx CF_CHUNKS) → dataset_id_ok d → chunk_ok c →
  chunks_of (tx_view tx CF_CHUNKS) d = l → Forall (λ x, last_block x < last_block c) l →
  let tx' := write_chunk d c tx in
  chunks_cf_ok (tx_view tx' CF_CHUNKS) ∧ chunks_of (tx_view tx' CF_CHUNKS) d = l ++ [c] ∧
  only_dataset d tx tx'.
Proof.
  intros Hok Hd Hc Hl Hall tx'. unfold tx'. rewrite write_chunk_view.
  split; [by apply chunks_put_ok|]. split; [by apply chunks_put_head|].
  intros d' Hd' Hne. rewrite write_chunk_view. by apply chunks_put_other.
Qed.

(** In a chain the chunks below a block are a prefix. *)
Lemma chain_kept_snoc l x b : chain (l ++ [x]) →
  take_while (λ y, first_block y <? b) (l ++ [x])
  = if first_block x <? b then l ++ [x] else take_while (λ y, first_block y <? b) l.
Proof.
  intros Hch. rewrite take_while_snoc.
  destruct (Z.ltb_spec (first_block x) b) as [Hx|Hx].
  - rewrite (proj2 (forallb_forall _ _)); [done|]. intros y Hy. apply list_elem_of_In in Hy.
    pose proof (chain_sorted _ Hch) as [_ Hs]%StronglySorted_snoc.
    rewrite Forall_forall in Hs. specialize (Hs y Hy).
    pose proof (chain_elem_ok _ y Hch ltac:(lmem)) as Hok. unfold chunk_ok in Hok. lia.
  - destruct (forallb _ l) eqn:E; [|done]. symmetry. apply take_while_all. intros y Hy.
    rewrite forallb_forall in E. apply E. by apply list_elem_of_In.
Qed.

(** The loop deletes exactly the chunks outside [kept]. *)
Lemma insert_fork_loop_spec d c l : ∀ tx tx',
  chunks_cf_ok (tx_view tx CF_CHUNKS) → dataset_id_ok d → chunk_ok c → chain l →
  chunks_of (tx_view tx CF_CHUNKS) d = l →
  insert_fork_loop d c (Ok <$> reverse l) tx = Ok tx' →
  let kept := take_while (λ x, first_block x <? first_block c) l in
  fork_spec l c = Ok (kept ++ [c]) ∧
  chunks_cf_ok (tx_view tx' CF_CHUNKS) ∧ chunks_of (tx_view tx' CF_CHUNKS) d = kept ∧
  only_dataset d tx tx'.
Proof.
  induction l as [|x l IH] using rev_ind; intros tx tx' Hok Hd Hc Hch Hl.
  { simpl. intros [= <-]. done. }
  rewrite reverse_snoc. cbn [fmap list_fmap insert_fork_loop mbind res_bind]. cbv zeta.
  unfold fork_spec. rewrite chain_kept_snoc by done.
  assert (Hx : chunk_ok x) by (apply (chain_elem_ok _ _ Hch); lmem).
  destruct (Z.leb_spec (first_block c) (first_block x)) as [Hle|Hgt].
  - intros Ho. inv_res Ho. pose proof (unindex_hashes_frame _ _ _ _ Hv) as Hf%index_frame_chunks.
    rewrite <-Hf in Hok, Hl.
    destruct (delete_chunk_spec d x v l [] Hok Hd Hl) as (Hok' & Hl' & Ho').
    rewrite app_nil_r in Hl'. rewrite (proj2 (Z.ltb_ge _ _)) by done.
    destruct (IH _ _ Hok' Hd Hc (proj1 (chain_app _ _ Hch)) Hl' Ho) as (A & B & D & E).
    repeat split; try done. eapply only_dataset_trans; [|exact E].
    eapply only_dataset_trans; [by apply only_dataset_view|done].
  - rewrite (proj2 (Z.ltb_lt (first_block x) _)) by done. rewrite last_snoc.
    unfold chunk_ok in Hx. rewrite u64_add_small by (unfold u64_max in *; lia).
    case_if; [|intros; case_if; discriminate]. intros Ho. inv_res Ho. apply ensure_Ok in Hv. rewrite Hv.
    repeat split; try done.
Qed.

(** What [fork_spec] returns keeps a chain a chain, a gapless one gapless, and is
    headed by the new chunk. *)
Lemma fork_spec_shape l c l' : chain l → chunk_ok c → fork_spec l c = Ok l' →
  ∃ kept, l' = kept ++ [c] ∧ kept = take_while (λ x, first_block x <? first_block c) l ∧
    match last kept with Some a => follows a c | None => True end.
Proof.
  intros Hch Hc. unfold fork_spec. set (kept := take_while _ l).
  destruct (last kept) as [a|] eqn:E.
  - case_if; [|by case_if]. case_bool_decide; [|done]. intros [= <-]. zbool.
    exists kept. repeat split; try done. by rewrite E.
  - intros [= <-]. apply last_None in E. exists kept. rewrite E. done.
Qed.

Lemma fork_spec_preserves l c l' : chunk_ok c → fork_spec l c = Ok l' →
  chain l → chain l' ∧ (tiled l → tiled l').
Proof.
  intros Hc Hf Hch. destruct (fork_spec_shape _ _ _ Hch Hc Hf) as (kept & -> & Hk & Hlast).
  destruct (take_while_prefix (λ x, first_block x <? first_block c) l) as [k Hl].
  rewrite <-Hk in Hl. split; [|intros Ht].
  - rewrite Hl in Hch. apply chain_app in Hch as [Hch _]. apply chain_snoc; [done..|].
    destruct (last kept); [|done]. by apply follows_linked.
  - rewrite Hl in Ht. apply tiled_app in Ht as [Ht _]. by apply tiled_snoc.
Qed.

Lemma kept_below l c : chain l → chunk_ok c → ∀ l', fork_spec l c = Ok l' →
  Forall (λ x, last_block x < last_block c) (take_while (λ x, first_block x <? first_block c) l).
Proof.
  intros Hch Hc l' Hf. destruct (fork_spec_preserves _ _ _ Hc Hf Hch) as [Hch' _].
  destruct (fork_spec_shape _ _ _ Hch Hc Hf) as (kept & -> & <- & _).
  by apply chain_sorted_last, StronglySorted_snoc in Hch' as [_ ?].
Qed.

Lemma insert_fork_Ok d c tx tx' :
  chunks_cf_ok (tx_view tx CF_CHUNKS) → dataset_id_ok d → chunk_ok c →
  chain (chunks_of (tx_view tx CF_CHUNKS) d) →
  insert_fork d c tx = Ok tx' →
  chunks_cf_ok (tx_view tx' CF_CHUNKS) ∧
  fork_spec (chunks_of (tx_view tx CF_CHUNKS) d) c = Ok (chunks_of (tx_view tx' CF_CHUNKS) d) ∧
  only_dataset d tx tx'.
Proof.
  intros Hok Hd Hc Hch. unfold insert_fork, tx_list_chunks_rev. rewrite list_all_rev by done.
  intros Ho. inv_res Ho. destruct (insert_fork_loop_spec d c _ tx v Hok Hd Hc Hch eq_refl Hv)
    as (Hs & Hok' & Hk & Ho').
  destruct (write_chunk_spec d c v _ Hok' Hd Hc Hk (kept_below _ _ Hch Hc _ Hs)) as (A & B & D).
  apply index_hashes_frame, index_frame_chunks in Ho. rewrite Ho. split; [done|].
  split; [by rewrite B|]. eapply only_dataset_trans; [done|]. eapply only_dataset_trans; [done|].
  by apply only_dataset_view.
Qed.

(** Without index entries and with the indexes off, no table is opened. *)
Definition unindexed (d : DatasetId) (tx : Tx M) : Prop :=
  tx_block_hash_index tx = false ∧ tx_transaction_hash_index tx = false ∧
  has_hash_entries CF_BLOCK_HASHES d tx = Ok false ∧
  has_hash_entries CF_TRANSACTION_HASHES d tx = Ok false.

Lemma unindexed_frame cs d tx tx' : CF_BLOCK_HASHES ∉ cs → CF_TRANSACTION_HASHES ∉ cs →
  frame cs tx tx' → unindexed d tx → unindexed d tx'.
Proof.
  intros H1 H2 (_ & E1 & E2 & Hv & _) (A & B & D & E). unfold unindexed, has_hash_entries in *.
  rewrite E1, E2, !Hv by done. done.
Qed.

Lemma unindex_unindexed d c tx : unindexed d tx → unindex_hashes d c tx = Ok tx.
Proof.
  intros (_ & _ & A & B). unfold unindex_hashes, unindex_block_hashes. rewrite A. simpl.
  unfold unindex_transaction_hashes. by rewrite B.
Qed.

Lemma index_unindexed d c tx : unindexed d tx → index_hashes d c tx = Ok tx.
Proof. intros (A & B & _). unfold index_hashes. by rewrite A, B. Qed.

Lemma insert_fork_loop_unindexed d c l : ∀ tx,
  unindexed d tx → chunk_ok c → chain l →
  match insert_fork_loop d c (Ok <$> reverse l) tx, fork_spec l c with
  | Ok tx', Ok _ => unindexed d tx'
  | Err e, Err e' => e = e'
  | _, _ => False
  end.
Proof.
  induction l as [|x l IH] using rev_ind; intros tx Hu Hc Hch; [done|].
  rewrite reverse_snoc. cbn [fmap list_fmap insert_fork_loop mbind res_bind].
  assert (Hx : chunk_ok x) by (apply (chain_elem_ok _ _ Hch); lmem).
  assert (Hf : fork_spec (l ++ [x]) c = if first_block x <? first_block c then
     if last_block x + 1 =? first_block c then
       if bool_decide (last_block_hash x = parent_block_hash c) then Ok ((l ++ [x]) ++ [c])
       else Err (EMsg "chain continuity is violated between new chunk and its existing parent")
     else if last_block x <? first_block c then
       Err (EMsg "there is a gap between new chunk and existing")
     else Err (EMsg "new chunk overlaps with existing") else fork_spec l c).
  { unfold fork_spec. rewrite chain_kept_snoc by done. case_if; [by rewrite last_snoc|done]. }
  rewrite Hf. clear Hf. destruct (Z.leb_spec (first_block c) (first_block x)) as [Hle|Hgt].
  - rewrite unindex_unindexed by done. cbn [mbind res_bind].
    rewrite (proj2 (Z.ltb_ge (first_block x) _)) by done. apply IH; try done.
    + eapply unindexed_frame; [| |apply delete_chunk_frame|done]; set_solver.
    + exact (proj1 (chain_app _ _ Hch)).
  - rewrite (proj2 (Z.ltb_lt (first_block x) _)) by done. unfold chunk_ok in Hx.
    rewrite u64_add_small by (unfold u64_max in *; lia).
    case_if; [|by case_if]. case_bool_decide; done.
Qed.
End facts.

(** C3: [Tx::insert_fork] implements [fork_spec] on the chunk list of the dataset:
    when it succeeds, the chunks at or above the first block of the new one are
    gone, the rest is kept, the last kept chunk ends right below the new one and
    its hash is the parent of the new one, the new chunk is the head, the chain
    invariant (and gaplessness) is preserved, and no other dataset changes. *)
Theorem insert_fork_refines {M C T : Type} `{KvStoreLaws M C} `{BorshLaws} `{TableReader T}
    `{!TableStore M T} (d : DatasetId) (c : Chunk) (tx tx' : Tx M) :
  chunks_cf_ok (tx_view tx CF_CHUNKS) → dataset_id_ok d → chunk_ok c →
  chain (chunks_of (tx_view tx CF_CHUNKS) d) →
  insert_fork d c tx = Ok tx' →
  let l := chunks_of (tx_view tx CF_CHUNKS) d in
  let l' := chunks_of (tx_view tx' CF_CHUNKS) d in
  fork_spec l c = Ok l' ∧ chain l' ∧ (tiled l → tiled l') ∧ chunks_cf_ok (tx_view tx' CF_CHUNKS) ∧
  (∀ d', dataset_id_ok d' → d' ≠ d →
     chunks_of (tx_view tx' CF_CHUNKS) d' = chunks_of (tx_view tx CF_CHUNKS) d').
Proof.
  intros Hok Hd Hc Hch Ho l l'. destruct (insert_fork_Ok d c tx tx' Hok Hd Hc Hch Ho) as (A & B & D).
  destruct (fork_spec_preserves _ _ _ Hc B Hch). auto.
Qed.

(** [Tx::insert_fork] fails exactly when it should: with no index entries to
    clean up it returns [Ok] when [fork_spec] does, and otherwise the very error of
    [fork_spec] (gap, overlap or broken hash link); it never panics. *)
Theorem insert_fork_exact {M C T : Type} `{KvStoreLaws M C} `{BorshLaws} `{TableReader T}
    `{!TableStore M T} (d : DatasetId) (c : Chunk) (tx : Tx M) :
  chunks_cf_ok (tx_view tx CF_CHUNKS) → dataset_id_ok d → chunk_ok c →
  chain (chunks_of (tx_view tx CF_CHUNKS) d) → unindexed d tx →
  match insert_fork d c tx, fork_spec (chunks_of (tx_view tx CF_CHUNKS) d) c with
  | Ok tx', Ok l' => chunks_of (tx_view tx' CF_CHUNKS) d = l'
  | Err e, Err e' => e = e'
  | _, _ => False
  end.
Proof.
  intros Hok Hd Hc Hch Hu.
  pose proof (insert_fork_loop_unindexed d c _ tx Hu Hc Hch) as Hloop.
  pose proof (insert_fork_Ok d c tx) as Hspec. unfold insert_fork, tx_list_chunks_rev in *.
  rewrite list_all_rev in * by done.
  destruct (insert_fork_loop d c _ tx) as [tx1| |], (fork_spec _ c) as [l'| |] eqn:Hf; try done.
  cbn [mbind res_bind] in *.
  assert (unindexed d (write_chunk d c tx1)) as Hw
    by (eapply unindexed_frame; [| |apply write_chunk_frame|exact Hloop]; set_solver).
  rewrite (index_unindexed _ _ _ Hw) in *.
  destruct (Hspec _ Hok Hd Hc Hch eq_refl) as (_ & [= <-] & _). done.
Qed.

Module ForkExamples.
Import Mem.

(** Two chunks of the chain "p" - "a" - "b", and a replacement for the second. *)
Definition c1 : Chunk := plain 0 9 "p" "a".
Definition c2 : Chunk := plain 10 19 "a" "b".
Definition c2' : Chunk := plain 10 14 "a" "x".
Definition base_db : mdb := make_db [(d0, evm_label None)] [(d0, [c1; c2])] [].
Definition base : Tx GmapKv.t := tx_begin base_db false false.

Lemma base_ok : chunks_cf_ok (tx_view base CF_CHUNKS).
Proof.
  apply (make_db_chunks_ok _ [(d0, [c1; c2])]). repeat constructor; try apply d0_ok; simpl; unfold u64_max; lia.
Qed.

Lemma base_chunks : chunks_of (tx_view base CF_CHUNKS) d0 = [c1; c2].
Proof. vm_compute. reflexivity. Qed.

Lemma base_chain : chain (chunks_of (tx_view base CF_CHUNKS) d0).
Proof.
  rewrite base_chunks. split; [repeat constructor; simpl; unfold u64_max; lia|].
  simpl. split; [|done]. split; simpl; [lia|done].
Qed.

Lemma c2'_ok : chunk_ok c2'.
Proof. split; simpl; unfold u64_max; lia. Qed.

Lemma insert_fork_refines_witness :
  ∃ tx', insert_fork d0 c2' base = Ok tx' ∧
    fork_spec (chunks_of (tx_view base CF_CHUNKS) d0) c2'
    = Ok (chunks_of (tx_view tx' CF_CHUNKS) d0) ∧
    chunks_of (tx_view tx' CF_CHUNKS) d0 = [c1; c2'].
Proof.
  assert (Hr : match insert_fork d0 c2' base with
    | Ok t => chunks_of (tx_view t CF_CHUNKS) d0 = [c1; c2'] | _ => False end) by (vm_compute; reflexivity).
  destruct (insert_fork d0 c2' base) as [tx'| |] eqn:E; [|destruct Hr..].
  exists tx'. split; [reflexivity|]. split; [|exact Hr].
  exact (proj1 (insert_fork_refines d0 c2' base tx' base_ok d0_ok c2'_ok base_chain E)).
Defined.

Lemma insert_fork_exact_witness :
  match insert_fork d0 (plain 30 31 "a" "x") base,
    fork_spec (chunks_of (tx_view base CF_CHUNKS) d0) (plain 30 31 "a" "x") with
  | Ok tx', Ok l' => chunks_of (tx_view tx' CF_CHUNKS) d0 = l'
  | Err e, Err e' => e = e'
  | _, _ => False
  end.
Proof.
  apply insert_fork_exact.
  - exact base_ok.
  - exact d0_ok.
  - split; simpl; unfold u64_max; lia.
  - exact base_chain.
  - vm_compute. repeat split.
Defined.

Lemma list_chunks_exact_witness :
  ∃ l, list_chunks (base_db CF_CHUNKS) d0 5 (Some 9) = Ok <$> l ∧ c1 ∈ l ∧ c2 ∉ l.
Proof.
  destruct (list_chunks_exact (base_db CF_CHUNKS) d0 5 (Some 9)) as [(l & El & _ & Hl) _].
  - exact base_ok.
  - exact d0_ok.
  - split; simpl; unfold u64_max; lia.
  - exact base_chain.
  - pose proof base_chunks as Ec. change (tx_view base CF_CHUNKS) with (base_db CF_CHUNKS) in Ec.
    exists l. split; [exact El|]. rewrite !Hl, Ec. split.
    + split; [lmem|]. simpl. split; [lia|]. intros e [= <-]. lia.
    + intros (_ & _ & Hto). specialize (Hto 9 eq_refl). simpl in Hto. lia.
Defined.
End ForkExamples.
