(* ===== verification/UpdateSpec.v ===== *)
(** * UpdateSpec: what a [DatasetUpdate] does to its dataset

    Theorems about the operations of crates/storage/src/db/write/dataset_update.rs:
    each keeps the chunks of the dataset a chain, and a whole update, as a sequence
    of such operations, changes only its own dataset and bumps its version once. *)

From stdpp Require Import relations.
From S2P Require Import Prelude Bytes Data Kv ChunkIter Tables Chain Tx Concrete TxSpec.

Section facts.
Context {M C T : Type} `{HK : KvStore M C} `{HL : !KvStoreLaws M C}
  `{HB : Borsh} `{HBL : !BorshLaws} `{HT : TableReader T} `{HS : !TableStore M T}.
Implicit Types (u : DatasetUpdate M) (tx : Tx M).

(** The chunks of the dataset under update. *)
Definition upd_chunks u : list Chunk := chunks_of (tx_view (upd_tx u) CF_CHUNKS) (upd_dataset_id u).

(** The state invariant of an update. *)
Record upd_ok u : Prop := {
  upd_ok_id : dataset_id_ok (upd_dataset_id u);
  upd_ok_cf : chunks_cf_ok (tx_view (upd_tx u) CF_CHUNKS);
  upd_ok_chain : chain (upd_chunks u)
}.

(** ** Insertion at the head *)

Lemma check_neighbour_below c n : chunk_ok c → chunk_ok n → last_block n <= last_block c →
  check_neighbour c n = Ok tt → linked n c.
Proof.
  unfold chunk_ok, check_neighbour, u64_max. intros Hc Hn Hle Ho.
  rewrite !u64_add_small in Ho by (unfold u64_max; lia). inv_res Ho.
  apply ensure_Ok in Hv. zbool. split; [lia|]. intros E.
  rewrite (proj2 (Z.eqb_eq _ _) E) in Ho. apply ensure_Ok, bool_decide_eq_true in Ho. done.
Qed.

Lemma validate_chunk_insertion_head d c tx l :
  chunks_cf_ok (tx_view tx CF_CHUNKS) → dataset_id_ok d →
  0 <= first_block c → last_block c < u64_max - 1 →
  chunks_of (tx_view tx CF_CHUNKS) d = l → Forall (λ x, last_block x <= last_block c) l →
  validate_chunk_insertion d c tx = Ok tt →
  chunk_ok c ∧ match last l with Some a => linked a c | None => True end.
Proof.
  intros Hok Hd H0 Hlast Hl Hall. unfold validate_chunk_insertion, tx_list_chunks_rev.
  intros Ho. inv_res Ho. apply ensure_Ok in Hv. zbool.
  assert (Hc : chunk_ok c) by (split; unfold u64_max in *; lia). split; [done|].
  assert (Hadd : u64_add (last_block c) 1 = last_block c + 1)
    by (unfold u64_max in *; apply u64_add_small; unfold u64_max; lia).
  rewrite Hadd, list_chunks_rev_spec in Ho by (try done; simpl; unfold u64_ok, u64_max in *; lia).
  fold (chunks_of (tx_view tx CF_CHUNKS) d) in Ho. rewrite Hl in Ho.
  pose proof (chunks_of_ok _ _ Hok Hd) as Hoks. rewrite Hl in Hoks.
  destruct l as [|a l _] using rev_ind; [done|]. rewrite last_snoc.
  apply Forall_app in Hall as [Hall Ha]. rewrite Forall_singleton in Ha.
  apply Forall_app in Hoks as [Hoks Hoa]. rewrite Forall_singleton in Hoa.
  rewrite list_filter_all in Ho.
  - rewrite reverse_snoc in Ho. cbn [take_while] in Ho.
    assert (in_window 0 (Some (last_block c + 1)) a = true) as Hw
      by (unfold in_window, chunk_ok in *; lia).
    rewrite Hw in Ho. cbn [fmap list_fmap take fold_res mbind res_bind] in Ho.
    inv_res Ho. destruct v0. by apply check_neighbour_below.
  - intros x. rewrite elem_of_app, list_elem_of_singleton. rewrite Forall_forall in Hall. simpl.
    intros [Hx| ->]; [specialize (Hall _ Hx); simpl in Hall|]; lia.
Qed.

Lemma upd_insert_chunk_head c u u' :
  upd_ok u → 0 <= first_block c → last_block c < u64_max - 1 →
  Forall (λ x, last_block x <= last_block c) (upd_chunks u) →
  upd_insert_chunk c u = Ok u' →
  upd_ok u' ∧ upd_chunks u' = upd_chunks u ++ [c] ∧ only_dataset (upd_dataset_id u) (upd_tx u) (upd_tx u').
Proof.
  intros [Hd Hok Hch] H0 Hlast Hall Ho. unfold upd_insert_chunk in Ho. inv_res Ho. destruct v.
  destruct (validate_chunk_insertion_head _ c _ (upd_chunks u) Hok Hd H0 Hlast eq_refl Hall Hv)
    as [Hc Hlink].
  pose proof (chain_snoc _ _ Hch Hc Hlink) as Hch'.
  assert (Hlt : Forall (λ x, last_block x < last_block c) (upd_chunks u))
    by (by apply chain_sorted_last, StronglySorted_snoc in Hch' as [_ ?]).
  destruct (write_chunk_spec _ c _ _ Hok Hd Hc eq_refl Hlt) as (A & B & D).
  apply index_hashes_frame, index_frame_chunks in Hv0.
  assert (E : upd_chunks (with_tx u v0) = upd_chunks u ++ [c])
    by (unfold upd_chunks; simpl; by rewrite Hv0, B).
  split; [|split; [done|]].
  - split; [done|simpl; by rewrite Hv0|]. by rewrite E.
  - eapply only_dataset_trans; [exact D|]. by apply only_dataset_view.
Qed.

(** ** Deletion *)

Lemma upd_delete_chunk_spec c u u' l k :
  upd_ok u → upd_chunks u = l ++ [c] ++ k → upd_delete_chunk c u = Ok u' →
  upd_ok u' ∧ upd_chunks u' = l ++ k ∧ only_dataset (upd_dataset_id u) (upd_tx u) (upd_tx u').
Proof.
  intros [Hd Hok Hch] Hl Ho. unfold upd_delete_chunk in Ho. inv_res Ho.
  apply unindex_hashes_frame, index_frame_chunks in Hv.
  unfold upd_chunks in Hl, Hch. rewrite <-Hv in Hok, Hl, Hch.
  destruct (delete_chunk_spec _ c v l k Hok Hd Hl) as (A & B & D). rewrite Hl in Hch.
  split; [|split; [done|]].
  - split; [done..|]. unfold upd_chunks. simpl. rewrite B. by eapply chain_delete.
  - eapply only_dataset_trans; [|exact D]. by apply only_dataset_view.
Qed.

Lemma upd_insert_fork_spec c u u' :
  upd_ok u → chunk_ok c → upd_insert_fork c u = Ok u' →
  upd_ok u' ∧ fork_spec (upd_chunks u) c = Ok (upd_chunks u') ∧
  only_dataset (upd_dataset_id u) (upd_tx u) (upd_tx u').
Proof.
  intros [Hd Hok Hch] Hc Ho. unfold upd_insert_fork in Ho. inv_res Ho.
  destruct (insert_fork_Ok _ c _ v Hok Hd Hc Hch Hv) as (A & B & D).
  destruct (fork_spec_preserves _ _ _ Hc B Hch) as [E _]. done.
Qed.

(** ** Sequences of operations *)

(** One call on the update handle. *)
Inductive upd_step : DatasetUpdate M → DatasetUpdate M → Prop :=
| step_insert_chunk c u u' :
    0 <= first_block c → last_block c < u64_max - 1 →
    Forall (λ x, last_block x <= last_block c) (upd_chunks u) →
    upd_insert_chunk c u = Ok u' → upd_step u u'
| step_insert_fork c u u' : chunk_ok c → upd_insert_fork c u = Ok u' → upd_step u u'
| step_delete_chunk c u u' : c ∈ upd_chunks u → upd_delete_chunk c u = Ok u' → upd_step u u'
| step_set_finalized_head b u : upd_step u (upd_set_finalized_head b u).

Definition upd_steps : DatasetUpdate M → DatasetUpdate M → Prop := rtc upd_step.

(** What no operation of an update touches. *)
Definition upd_rel (u u' : DatasetUpdate M) : Prop :=
  upd_dataset_id u' = upd_dataset_id u ∧
  label_kind (upd_label u') = label_kind (upd_label u) ∧
  label_version (upd_label u') = label_version (upd_label u) ∧
  tx_view (upd_tx u') CF_DATASETS = tx_view (upd_tx u) CF_DATASETS ∧
  tx_view (upd_tx u') CF_TABLES = tx_view (upd_tx u) CF_TABLES ∧
  tx_db (upd_tx u') = tx_db (upd_tx u) ∧
  (∀ ck, ck ∈ tx_tracked (upd_tx u) → ck ∈ tx_tracked (upd_tx u')).

Lemma upd_rel_trans u1 u2 u3 : upd_rel u1 u2 → upd_rel u2 u3 → upd_rel u1 u3.
Proof.
  intros (A1 & A2 & A3 & A4 & A5 & A6 & A7) (B1 & B2 & B3 & B4 & B5 & B6 & B7).
  split_and!; try congruence. auto.
Qed.

Lemma frame_upd_rel cs u tx' : CF_DATASETS ∉ cs → CF_TABLES ∉ cs → frame cs (upd_tx u) tx' → upd_rel u (with_tx u tx').
Proof. intros Hcs Hct (E & _ & _ & Hv & Ht). repeat split; simpl; auto. Qed.

Lemma insert_fork_loop_frame d c l : ∀ tx tx',
  insert_fork_loop d c l tx = Ok tx' → frame (CF_CHUNKS :: CF_DELETED_TABLES :: index_cfs) tx tx'.
Proof.
  induction l as [|r l IH]; simpl; intros tx tx' Ho; [simplify_eq; apply frame_refl|]. inv_res Ho.
  case_if_in Ho.
  - inv_res Ho. eapply frame_trans; [|by eapply IH]. eapply frame_trans.
    + eapply frame_weaken; [|by eapply unindex_hashes_frame]. set_solver.
    + eapply frame_weaken; [|apply delete_chunk_frame]. set_solver.
  - case_if_in Ho; [inv_res Ho; apply frame_refl|by case_if_in Ho].
Qed.

Definition data_cfs : list cf := CF_CHUNKS :: CF_DIRTY_TABLES :: CF_DELETED_TABLES :: index_cfs.

Lemma write_index_frame d c tx tx' :
  index_hashes d c (write_chunk d c tx) = Ok tx' → frame data_cfs tx tx'.
Proof.
  intros Ho. eapply frame_trans.
  - eapply frame_weaken; [|apply write_chunk_frame]. unfold data_cfs. set_solver.
  - eapply frame_weaken; [|by eapply index_hashes_frame]. unfold data_cfs. set_solver.
Qed.

Lemma upd_step_rel u u' : upd_step u u' → upd_rel u u'.
Proof.
  assert (Hd : CF_DATASETS ∉ data_cfs) by (unfold data_cfs, index_cfs; set_solver).
  assert (Ht : CF_TABLES ∉ data_cfs) by (unfold data_cfs, index_cfs; set_solver).
  intros [c u0 u1 _ _ _ Ho|c u0 u1 _ Ho|c u0 u1 _ Ho|b u0].
  - unfold upd_insert_chunk in Ho. inv_res Ho. eapply frame_upd_rel; [done|done|by eapply write_index_frame].
  - unfold upd_insert_fork, insert_fork in Ho. inv_res Ho. inv_res Hv.
    eapply frame_upd_rel; [exact Hd|exact Ht|]. eapply frame_trans; [|by eapply write_index_frame].
    eapply frame_weaken; [|by eapply insert_fork_loop_frame]. unfold data_cfs. set_solver.
  - unfold upd_delete_chunk in Ho. inv_res Ho. eapply frame_upd_rel; [exact Hd|exact Ht|]. eapply frame_trans.
    + eapply frame_weaken; [|by eapply unindex_hashes_frame]. unfold data_cfs. set_solver.
    + eapply frame_weaken; [|apply delete_chunk_frame]. unfold data_cfs. set_solver.
  - unfold upd_rel. simpl. by destruct (upd_label u0).
Qed.

Lemma upd_step_ok u u' : upd_step u u' → upd_ok u →
  upd_ok u' ∧ only_dataset (upd_dataset_id u) (upd_tx u) (upd_tx u').
Proof.
  intros [c u0 u1 H0 Hl Hall Ho|c u0 u1 Hc Ho|c u0 u1 Hc Ho|b u0] Hok.
  - by destruct (upd_insert_chunk_head c u0 u1 Hok H0 Hl Hall Ho) as (? & _ & ?).
  - by destruct (upd_insert_fork_spec c u0 u1 Hok Hc Ho) as (? & _ & ?).
  - apply list_elem_of_split in Hc as (l & k & Hc).
    by destruct (upd_delete_chunk_spec c u0 u1 l k Hok Hc Ho) as (? & _ & ?).
  - destruct Hok as [Hd Hcf Hch]. split; [constructor; [exact Hd|exact Hcf|exact Hch]|done].
Qed.

Lemma upd_steps_ok u u' : upd_steps u u' → upd_ok u →
  upd_ok u' ∧ upd_rel u u' ∧ only_dataset (upd_dataset_id u) (upd_tx u) (upd_tx u').
Proof.
  induction 1 as [u|u1 u2 u3 Hs _ IH]; intros Hok; [by split_and!|].
  destruct (upd_step_ok _ _ Hs Hok) as [Hok2 Ho2]. pose proof (upd_step_rel _ _ Hs) as Hr.
  destruct (IH Hok2) as (A & B & D). split; [done|]. split; [by eapply upd_rel_trans|].
  destruct Hr as [E _]. rewrite E in D. by eapply only_dataset_trans.
Qed.
End facts.

(** [DatasetUpdate::insert_chunk] at the head: inserting a chunk that ends no
    lower than the stored ones either fails or appends it to a chain that stays a
    chain, and changes no other dataset. *)
Theorem insert_chunk_at_head {M C T : Type} `{KvStoreLaws M C} `{BorshLaws} `{TableReader T}
    `{!TableStore M T} (c : Chunk) (u u' : DatasetUpdate M) :
  upd_ok u → 0 <= first_block c → last_block c < u64_max - 1 →
  Forall (λ x, last_block x <= last_block c) (upd_chunks u) →
  upd_insert_chunk c u = Ok u' →
  upd_chunks u' = upd_chunks u ++ [c] ∧ chain (upd_chunks u') ∧
  (∀ d', dataset_id_ok d' → d' ≠ upd_dataset_id u →
     chunks_of (tx_view (upd_tx u') CF_CHUNKS) d' = chunks_of (tx_view (upd_tx u) CF_CHUNKS) d').
Proof.
  intros Hok H0' Hl Hall Ho. destruct (upd_insert_chunk_head c u u' Hok H0' Hl Hall Ho) as (A & B & D).
  split; [done|]. split; [apply A|exact D].
Qed.

(** A whole update is confined and consistent: after any sequence of
    [insert_chunk] (at the head), [insert_fork], [delete_chunk] and
    [set_finalized_head] calls, the chunks of the dataset are still a chain, every
    other dataset has the chunks it had and the label it had, the kind of the
    dataset is unchanged, and [finish] stages the label with the version bumped
    exactly once. *)
Theorem update_confined {M C T : Type} `{KvStoreLaws M C} `{BorshLaws} `{TableReader T}
    `{!TableStore M T} (u u' : DatasetUpdate M) :
  upd_ok u → upd_steps u u' →
  let d := upd_dataset_id u in
  chain (upd_chunks u') ∧
  label_kind (upd_label u') = label_kind (upd_label u) ∧
  (∀ d', dataset_id_ok d' → d' ≠ d →
     chunks_of (tx_view (upd_finish u') CF_CHUNKS) d' = chunks_of (tx_view (upd_tx u) CF_CHUNKS) d' ∧
     kv_get (tx_view (upd_finish u') CF_DATASETS) d' = kv_get (tx_view (upd_tx u) CF_DATASETS) d') ∧
  kv_get (tx_view (upd_finish u') CF_DATASETS) d
  = Some (label_to_vec (LabelV0 (label_kind (upd_label u)) (u64_add (label_version (upd_label u)) 1)
                          (label_finalized_head (upd_label u')))).
Proof.
  intros Hok Hs d. destruct (upd_steps_ok _ _ Hs Hok) as ([Hd' Hcf Hch] & (E1 & E2 & E3 & E4 & _) & Hother).
  split; [done|]. split; [done|]. unfold upd_finish, write_label, put_cf.
  rewrite tx_view_stage. split.
  - intros d' Hok' Hne. split; [rewrite apply_op_other by done; by apply Hother|].
    rewrite apply_put, kv_get_put, E1, decide_False, E4 by done. done.
  - rewrite apply_put, kv_get_put, E1, decide_True by done. do 2 f_equal.
    rewrite <-E2, <-E3. by destruct (upd_label u').
Qed.

Module UpdateExamples.
Import Mem ForkExamples.

Definition u0 : DatasetUpdate GmapKv.t := mkDatasetUpdate base d0 (evm_label None).

Lemma u0_ok : upd_ok u0.
Proof. split; [apply d0_ok|apply base_ok|apply base_chain]. Qed.

Definition c3 : Chunk := plain 20 29 "b" "c".
Definition u1 : DatasetUpdate GmapKv.t :=
  match upd_insert_chunk c3 u0 with Ok u => u | _ => u0 end.
Lemma insert_c3 : upd_insert_chunk c3 u0 = Ok u1.
Proof.
  assert (Hr : match upd_insert_chunk c3 u0 with Ok _ => true | _ => false end = true)
    by (vm_compute; reflexivity).
  unfold u1. by destruct (upd_insert_chunk c3 u0).
Qed.

Lemma c3_head : Forall (λ x, last_block x <= last_block c3) (upd_chunks u0).
Proof.
  change (upd_chunks u0) with (chunks_of (tx_view base CF_CHUNKS) d0). rewrite base_chunks.
  repeat constructor; simpl; lia.
Qed.

Lemma insert_chunk_at_head_witness : upd_chunks u1 = [c1; c2; c3].
Proof.
  pose proof (proj1 (insert_chunk_at_head c3 u0 u1 u0_ok ltac:(simpl; lia)
    ltac:(unfold u64_max; simpl; lia) c3_head insert_c3)) as H.
  exact (eq_trans H (f_equal (λ l, l ++ [c3]) base_chunks)).
Defined.

Lemma update_confined_witness :
  chain (upd_chunks (upd_set_finalized_head (Some (mkBlockRef 9 "a")) u1)) ∧
  kv_get (tx_view (upd_finish (upd_set_finalized_head (Some (mkBlockRef 9 "a")) u1)) CF_DATASETS) d0
  = Some (label_to_vec (LabelV0 (pad 16 (str_bytes "evm")) 1 (Some (mkBlockRef 9 "a")))).
Proof.
  assert (Hs : upd_steps u0 (upd_set_finalized_head (Some (mkBlockRef 9 "a")) u1)).
  { eapply rtc_l; [|apply rtc_once, step_set_finalized_head].
    apply (step_insert_chunk c3); [simpl; lia|unfold u64_max; simpl; lia|apply c3_head|apply insert_c3]. }
  destruct (update_confined u0 _ u0_ok Hs) as (A & _ & _ & D). split; [exact A|exact D].
Defined.

(** The check of [validate_chunk_insertion] looks only at chunks that end at or
    below [last_block + 1]; a chunk that spans the new one is not among them. *)
Definition wide : DatasetUpdate GmapKv.t :=
  mkDatasetUpdate (tx_begin (make_db [(d0, evm_label None)] [(d0, [plain 0 100 "p" "a"])] []) false false)
    d0 (evm_label None).

(** [validate_chunk_insertion] does not detect every overlap: with the chunk
    0..=100 stored, inserting the chunk 10..=20 of another fork succeeds and leaves
    two overlapping chunks, because the reversed listing bounded by [last_block + 1]
    starts at chunks that end at or below that block. *)
Theorem insert_chunk_accepts_overlap :
  let inside := plain 10 20 "q" "x" in
  upd_chunks wide = [plain 0 100 "p" "a"] ∧
  match upd_insert_chunk inside wide with
  | Ok u => upd_chunks u = [inside; plain 0 100 "p" "a"]
  | _ => False
  end ∧
  tx_list_chunks d0 0 (Some 21) (upd_tx wide) = [Ok (plain 0 100 "p" "a")] ∧
  tx_list_chunks_rev d0 0 (Some 21) (upd_tx wide) = [].
Proof. vm_compute. repeat split. Qed.
End UpdateExamples.
