(* ===== verification/Retry.v ===== *)
(** * Retry: bounded retries of optimistic transactions

    Models the retry policy, the jittered backoff, the hash-index write metrics and
    [Tx::run_with_hash_index_metrics] of crates/storage/src/db/write/tx.rs.

    A run is driven by an environment: for every attempt, the committed state when
    the transaction opens and when it commits (other writers may commit in
    between), the verdict of the commit, the readings of the clock and the jitter
    state other threads race on. *)

From S2P Require Import Prelude Bytes Data Kv ChunkIter Tables Tx Concrete.

(** ** Durations: [std::time::Duration] in nanoseconds, saturating *)

Definition duration_max : Z := u64_max * 10 ^ 9 + 999999999.
Definition dur_add (x y : Z) : Z := Z.min (x + y) duration_max.
Definition dur_mul (x f : Z) : Z := Z.min (x * f) duration_max.
Definition dur_sub (x y : Z) : Z := Z.max (x - y) 0.
Definition duration_ok (x : Z) : Prop := 0 <= x <= duration_max.

(** ** Jitter *)

Definition u64_xor_shr (x n : Z) : Z := Z.lxor x (Z.shiftr x n).
Definition u64_xor_shl (x n : Z) : Z := Z.lxor x (Z.shiftl x n mod u64_mod).

(** One step of the generator. *)
Definition jitter_next (state : Z) : Z :=
  if state =? 0 then 0x9E3779B97F4A7C15
  else
    let x := u64_xor_shr state 12 in
    let x := u64_xor_shl x 25 in
    let x := u64_xor_shr x 27 in
    (x * 0x2545F4914F6CDD1D) mod u64_mod.

(** The compare-exchange loop: [races] are the values other threads installed
    before this one's exchange went through.  Returns the state it installed and the
    drawn duration. *)
Fixpoint jitter (bound state : Z) (races : list Z) : Z * Z :=
  match races with
  | actual :: races => jitter bound actual races
  | [] =>
      let next := jitter_next state in
      let bound_ns := Z.min bound u64_max in
      (next, if bound_ns =? 0 then 0 else next mod bound_ns)
  end.

(** ** The policy *)

Record RetryPolicy : Type := mkRetryPolicy {
  max_attempts : Z;
  deadline : Z;
  base_backoff : Z;
  max_backoff : Z
}.

Definition default_policy : RetryPolicy :=
  mkRetryPolicy 8 (30 * 10 ^ 9) (10 * 10 ^ 6) (10 ^ 9).
Definition with_max_attempts (p : RetryPolicy) (n : Z) : RetryPolicy :=
  mkRetryPolicy (Z.max n 1) (deadline p) (base_backoff p) (max_backoff p).
Definition with_deadline (p : RetryPolicy) (d : Z) : RetryPolicy :=
  mkRetryPolicy (max_attempts p) d (base_backoff p) (max_backoff p).
Definition with_base_backoff (p : RetryPolicy) (d : Z) : RetryPolicy :=
  mkRetryPolicy (max_attempts p) (deadline p) d (max_backoff p).
Definition with_max_backoff (p : RetryPolicy) (d : Z) : RetryPolicy :=
  mkRetryPolicy (max_attempts p) (deadline p) (base_backoff p) d.

(** [1u32.checked_shl(retry).unwrap_or(u32::MAX)] *)
Definition backoff_factor (retry : Z) : Z := if retry <? 32 then 2 ^ retry else u32_max.
Definition backoff_cap (p : RetryPolicy) (retry : Z) : Z :=
  Z.min (dur_mul (base_backoff p) (backoff_factor retry)) (max_backoff p).
Definition backoff (p : RetryPolicy) (retry state : Z) (races : list Z) : Z * Z :=
  jitter (backoff_cap p retry) state races.

(** ** Hash-index write metrics *)

Inductive HashIndex : Type := HashIndex_Block | HashIndex_Transaction.

Record HashIndexWriteMetrics : Type := mkMetrics {
  m_block_hash_index_duration : Z;
  m_block_hash_index_operations : Z;
  m_transaction_hash_index_duration : Z;
  m_transaction_hash_index_operations : Z
}.

Definition metrics_default : HashIndexWriteMetrics := mkMetrics 0 0 0 0.
Definition u64_sat_add (x y : Z) : Z := Z.min (x + y) u64_max.

Definition block_hash_index_duration (m : HashIndexWriteMetrics) : option Z :=
  if m_block_hash_index_operations m >? 0 then Some (m_block_hash_index_duration m) else None.
Definition transaction_hash_index_duration (m : HashIndexWriteMetrics) : option Z :=
  if m_transaction_hash_index_operations m >? 0
  then Some (m_transaction_hash_index_duration m) else None.

Definition metrics_record (m : HashIndexWriteMetrics) (index : HashIndex) (duration : Z)
  : HashIndexWriteMetrics :=
  match index with
  | HashIndex_Block =>
      mkMetrics (dur_add (m_block_hash_index_duration m) duration)
        (u64_sat_add (m_block_hash_index_operations m) 1)
        (m_transaction_hash_index_duration m) (m_transaction_hash_index_operations m)
  | HashIndex_Transaction =>
      mkMetrics (m_block_hash_index_duration m) (m_block_hash_index_operations m)
        (dur_add (m_transaction_hash_index_duration m) duration)
        (u64_sat_add (m_transaction_hash_index_operations m) 1)
  end.

Definition metrics_merge (m other : HashIndexWriteMetrics) : HashIndexWriteMetrics :=
  mkMetrics
    (dur_add (m_block_hash_index_duration m) (m_block_hash_index_duration other))
    (u64_sat_add (m_block_hash_index_operations m) (m_block_hash_index_operations other))
    (dur_add (m_transaction_hash_index_duration m) (m_transaction_hash_index_duration other))
    (u64_sat_add (m_transaction_hash_index_operations m) (m_transaction_hash_index_operations other)).

(** ** The process-wide counters *)

Record tx_counters : Type := mkCounters {
  global_restarts : Z;
  global_retry_attempts : Z;
  global_exhausted : Z;
  global_backoff_ms : Z;
  local_restarts : Z;
  jitter_state : Z
}.

Definition record_restart (c : tx_counters) : tx_counters :=
  mkCounters (u64_add (global_restarts c) 1) (u64_add (global_retry_attempts c) 1)
    (global_exhausted c) (global_backoff_ms c) (u64_add (local_restarts c) 1) (jitter_state c).
Definition record_exhausted (c : tx_counters) : tx_counters :=
  mkCounters (global_restarts c) (global_retry_attempts c) (u64_add (global_exhausted c) 1)
    (global_backoff_ms c) (local_restarts c) (jitter_state c).
(** [duration.as_millis() as u64], added with wrap-around. *)
Definition record_backoff (duration : Z) (c : tx_counters) : tx_counters :=
  mkCounters (global_restarts c) (global_retry_attempts c) (global_exhausted c)
    (u64_add (global_backoff_ms c) ((duration / 10 ^ 6) mod u64_mod)) (local_restarts c)
    (jitter_state c).
Definition set_jitter (s : Z) (c : tx_counters) : tx_counters :=
  mkCounters (global_restarts c) (global_retry_attempts c) (global_exhausted c)
    (global_backoff_ms c) (local_restarts c) s.

(** ** The run *)

Inductive commit_verdict : Type := Committed | Busy | TryAgain | CommitFailed (what : string).

Section run.
Context {M C R : Type} `{KvStore M C}.

Record attempt_env : Type := mkAttemptEnv {
  env_open : db M;            (* committed state at the snapshot *)
  env_commit : db M;          (* committed state when the commit is decided *)
  env_verdict : commit_verdict;
  env_metrics : HashIndexWriteMetrics;
  env_elapsed_conflict : Z;   (* clock at the conflict, before and after the sleep *)
  env_elapsed_sleep : Z;
  env_elapsed_after : Z;
  env_races : list Z
}.

(** What a run leaves behind. *)
Record run_outcome : Type := mkOutcome {
  out_result : res R;
  out_db : db M;
  out_attempts : Z;
  out_metrics : HashIndexWriteMetrics;
  out_counters : tx_counters;
  out_sleeps : list Z
}.

(** The branch for a [Busy] or [TryAgain] commit: give up, or sleep and go on. *)
Definition after_conflict (p : RetryPolicy) (e : attempt_env) (attempt : Z)
    (m : HashIndexWriteMetrics) (c : tx_counters) (sleeps : list Z)
  : run_outcome + (tx_counters * list Z) :=
  let deadline_hit := deadline p <=? env_elapsed_conflict e in
  let budget_left := ((attempt <? max_attempts p) && negb deadline_hit)%bool in
  if negb budget_left then
    inl (mkOutcome (Err (ERetryExhausted attempt deadline_hit)) (env_commit e) attempt m
           (record_exhausted c) sleeps)
  else
    let remaining := dur_sub (deadline p) (env_elapsed_sleep e) in
    let '(js, draw) := backoff p (attempt - 1) (jitter_state c) (env_races e) in
    let sleep := Z.min draw remaining in
    let c := record_backoff sleep (set_jitter js c) in
    let sleeps := sleeps ++ [sleep] in
    if deadline p <=? env_elapsed_after e then
      inl (mkOutcome (Err (ERetryExhausted attempt true)) (env_commit e) attempt m
             (record_exhausted c) sleeps)
    else inr (record_restart c, sleeps).

(** The [loop]; [None] when the fuel runs out.  [attempt] counts the attempts made
    before this iteration. *)
Fixpoint run_loop (fuel : nat) (p : RetryPolicy) (bh th : bool) (cb : Tx M → res (R * Tx M))
    (env : nat → attempt_env) (n : nat) (attempt : Z) (m : HashIndexWriteMetrics)
    (c : tx_counters) (sleeps : list Z) : option run_outcome :=
  match fuel with
  | O => None
  | S fuel =>
      let e := env n in
      let attempt := attempt + 1 in
      match cb (tx_begin (env_open e) bh th) with
      | Err err =>
          Some (mkOutcome (Err err) (env_commit e) attempt (metrics_merge m (env_metrics e)) c sleeps)
      | Panic msg => Some (mkOutcome (Panic msg) (env_commit e) attempt m c sleeps)
      | Ok (result, tx) =>
          let m := metrics_merge m (env_metrics e) in
          match env_verdict e with
          | Committed =>
              Some (mkOutcome (Ok result) (apply_batch (tx_batch tx) (env_commit e)) attempt m c sleeps)
          | CommitFailed what =>
              Some (mkOutcome (Err (EStorage what)) (env_commit e) attempt m c sleeps)
          | Busy | TryAgain =>
              match after_conflict p e attempt m c sleeps with
              | inl outcome => Some outcome
              | inr (c, sleeps) => run_loop fuel p bh th cb env (S n) attempt m c sleeps
              end
          end
      end
  end.

Definition run_with_hash_index_metrics (fuel : nat) (p : RetryPolicy) (bh th : bool)
    (cb : Tx M → res (R * Tx M)) (env : nat → attempt_env) (m : HashIndexWriteMetrics)
    (c : tx_counters) : option run_outcome :=
  run_loop fuel p bh th cb env 0 0 m c [].

(** [Tx::run] *)
Definition run (fuel : nat) (p : RetryPolicy) (bh th : bool) (cb : Tx M → res (R * Tx M))
    (env : nat → attempt_env) (c : tx_counters) : option run_outcome :=
  run_with_hash_index_metrics fuel p bh th cb env metrics_default c.

(** Enough fuel for a policy. *)
Definition run_fuel (p : RetryPolicy) : nat := Z.to_nat (Z.max 1 (max_attempts p)).
End run.
Arguments attempt_env : clear implicits.
Arguments run_outcome : clear implicits.

(** ** The generator never reaches its zero fixed point *)

Lemma xor_shr_nonzero x n : 0 < x → 0 < n → u64_xor_shr x n ≠ 0.
Proof.
  intros Hx Hn. unfold u64_xor_shr. rewrite Z.lxor_eq_0_iff, Z.shiftr_div_pow2 by lia. intros E.
  assert (x / 2 ^ n < x); [|lia]. apply Z.div_lt; [lia|].
  assert (2 ^ 1 <= 2 ^ n) by (apply Z.pow_le_mono_r; lia). lia.
Qed.

Lemma xor_shr_range x n : 0 <= x < u64_mod → 0 <= n → 0 <= u64_xor_shr x n < u64_mod.
Proof.
  unfold u64_xor_shr, u64_mod. intros Hx Hn. pose proof (Z.shiftr_nonneg x n) as Hs.
  assert (0 <= Z.lxor x (Z.shiftr x n)) by (rewrite Z.lxor_nonneg; lia). split; [done|].
  destruct (decide (Z.lxor x (Z.shiftr x n) = 0)) as [->|Hne]; [lia|].
  apply Z.log2_lt_pow2; [lia|].
  eapply Z.le_lt_trans; [apply Z.log2_lxor; lia|].
  assert (Z.shiftr x n <= x).
  { rewrite Z.shiftr_div_pow2 by lia. apply Z.div_le_upper_bound; [apply Z.pow_pos_nonneg; lia|].
    assert (1 <= 2 ^ n) by (apply (Z.pow_le_mono_r 2 0 n); lia). nia. }
  apply Z.max_lub_lt; destruct (decide (x = 0)) as [->|]; simpl; try lia.
  - apply Z.log2_lt_pow2; lia.
  - assert (Z.shiftr 0 n = 0) as -> by (by apply Z.shiftr_0_l). simpl. lia.
  - destruct (decide (Z.shiftr x n = 0)) as [->|]; [simpl; lia|]. apply Z.log2_lt_pow2; lia.
Qed.

Lemma xor_shl_nonzero x : 0 < x < u64_mod → u64_xor_shl x 25 ≠ 0.
Proof.
  unfold u64_xor_shl, u64_mod. intros Hx. rewrite Z.lxor_eq_0_iff, Z.shiftl_mul_pow2 by lia.
  intros E. pose proof (Z.div_mod (x * 2 ^ 25) (2 ^ 64) ltac:(lia)) as Hd. rewrite <-E in Hd.
  set (q := x * 2 ^ 25 / 2 ^ 64) in *.
  (* x (2^25 - 1) = 2^64 q, and 2^25 - 1 is odd *)
  assert (Hdiv : (2 ^ 64 | x)); [|destruct Hdiv as [z Hz]; nia].
  apply (Z.gauss _ (2 ^ 25 - 1)); [exists q; lia|]. reflexivity.
Qed.

Lemma xor_shl_range x n : 0 <= x < u64_mod → 0 <= u64_xor_shl x n < u64_mod.
Proof.
  unfold u64_xor_shl. intros Hx.
  pose proof (Z.mod_pos_bound (Z.shiftl x n) u64_mod ltac:(unfold u64_mod; lia)) as Hm.
  set (y := Z.shiftl x n mod u64_mod) in *. unfold u64_mod in *.
  assert (0 <= Z.lxor x y) by (rewrite Z.lxor_nonneg; lia). split; [done|].
  destruct (decide (Z.lxor x y = 0)) as [->|Hne]; [lia|]. apply Z.log2_lt_pow2; [lia|].
  eapply Z.le_lt_trans; [apply Z.log2_lxor; lia|].
  assert (Hl : ∀ z, 0 <= z < 2 ^ 64 → Z.log2 z < 64).
  { intros z Hz. destruct (decide (z = 0)) as [->|]; [done|]. apply Z.log2_lt_pow2; lia. }
  apply Z.max_lub_lt; auto.
Qed.

Lemma jitter_next_range s : 0 <= s < u64_mod → 0 < jitter_next s < u64_mod.
Proof.
  intros Hs. unfold jitter_next. destruct (Z.eqb_spec s 0) as [->|Hne]; [unfold u64_mod; lia|].
  assert (H1 : 0 < u64_xor_shr s 12 < u64_mod)
    by (pose proof (xor_shr_range s 12); pose proof (xor_shr_nonzero s 12); lia).
  set (x1 := u64_xor_shr s 12) in *.
  assert (H2 : 0 < u64_xor_shl x1 25 < u64_mod)
    by (pose proof (xor_shl_range x1 25); pose proof (xor_shl_nonzero x1); lia).
  set (x2 := u64_xor_shl x1 25) in *.
  assert (H3 : 0 < u64_xor_shr x2 27 < u64_mod)
    by (pose proof (xor_shr_range x2 27); pose proof (xor_shr_nonzero x2 27); lia).
  set (x3 := u64_xor_shr x2 27) in *.
  pose proof (Z.mod_pos_bound (x3 * 0x2545F4914F6CDD1D) u64_mod ltac:(unfold u64_mod; lia)) as Hm.
  assert ((x3 * 0x2545F4914F6CDD1D) mod u64_mod ≠ 0); [|lia].
  intros E. apply Z.mod_divide in E; [|unfold u64_mod; lia].
  assert (Hdiv : (u64_mod | x3)); [|destruct Hdiv as [z Hz]; unfold u64_mod in *; nia].
  apply (Z.gauss _ 0x2545F4914F6CDD1D); [by rewrite Z.mul_comm|reflexivity].
Qed.

Lemma jitter_spec bound races : ∀ s,
  0 <= bound → 0 <= s < u64_mod → Forall (λ a, 0 <= a < u64_mod) races →
  let '(next, draw) := jitter bound s races in
  0 < next < u64_mod ∧ 0 <= draw ∧ (draw < bound ∨ bound = 0 ∧ draw = 0).
Proof.
  induction races as [|a races IH]; intros s Hb Hs Hr; simpl.
  - split; [by apply jitter_next_range|]. destruct (Z.eqb_spec (Z.min bound u64_max) 0) as [E|E].
    + unfold u64_max in E. lia.
    + pose proof (Z.mod_pos_bound (jitter_next s) (Z.min bound u64_max)). unfold u64_max in *. lia.
  - apply Forall_cons in Hr as [Ha Hr]. by apply IH.
Qed.

(** ** What a run does *)

Section run_facts.
Context {M C R : Type} `{HK : KvStore M C}.

(** An attempt whose commit met a conflict. *)
Definition conflicted (e : attempt_env M) : Prop := env_verdict e = Busy ∨ env_verdict e = TryAgain.

(** How a run can end at attempt [i]: a commit of what the callback staged on the
    snapshot of that attempt, or no effect at all. *)
Definition run_ends (p : RetryPolicy) (bh th : bool) (cb : Tx M → res (R * Tx M))
    (env : nat → attempt_env M) (i : nat) (o : run_outcome M R) : Prop :=
  out_attempts o = Z.of_nat i + 1 ∧ out_attempts o <= Z.max 1 (max_attempts p) ∧
  (∀ j, (j < i)%nat → conflicted (env j)) ∧
  let staged := cb (tx_begin (env_open (env i)) bh th) in
  match out_result o with
  | Ok r => ∃ tx, staged = Ok (r, tx) ∧ env_verdict (env i) = Committed ∧
      out_db o = apply_batch (tx_batch tx) (env_commit (env i))
  | Err e => out_db o = env_commit (env i) ∧
      (staged = Err e ∨
       (∃ w, env_verdict (env i) = CommitFailed w ∧ e = EStorage w) ∨
       conflicted (env i) ∧
       (e = ERetryExhausted (out_attempts o) false ∧ max_attempts p <= out_attempts o ∨
        e = ERetryExhausted (out_attempts o) true))
  | Panic m => out_db o = env_commit (env i) ∧ staged = Panic m
  end.

(** Giving up after a conflict is a legitimate end; going on means budget is left. *)
Lemma after_conflict_spec p bh th cb env n m c sleeps :
  conflicted (env n) → Z.of_nat n < Z.max 1 (max_attempts p) →
  (∀ j, (j < n)%nat → conflicted (env j)) →
  match after_conflict p (env n) (Z.of_nat n + 1) m c sleeps with
  | inl o => run_ends p bh th cb env n o
  | inr _ => Z.of_nat (S n) < Z.max 1 (max_attempts p)
  end.
Proof.
  intros Hv Hn Hprev. unfold after_conflict. case_if.
  - repeat split; simpl; try lia; [done|]. right. right. split; [done|].
    destruct (deadline p <=? env_elapsed_conflict (env n)); [by right|left]. split; [done|].
    zbool. rewrite andb_true_r in *. zbool. lia.
  - zbool. destruct (backoff _ _ _ _) as [js draw]. case_if; [|lia].
    repeat split; simpl; try lia; [done|]. right. right. split; [done|]. by right.
Qed.

Lemma run_loop_ends p bh th cb env : ∀ fuel n m c sleeps,
  (Z.of_nat n < Z.max 1 (max_attempts p)) → (Z.max 1 (max_attempts p) - Z.of_nat n <= Z.of_nat fuel) →
  (∀ j, (j < n)%nat → conflicted (env j)) →
  ∃ o i, run_loop fuel p bh th cb env n (Z.of_nat n) m c sleeps = Some o ∧
    run_ends p bh th cb env i o.
Proof.
  induction fuel as [|fuel IH]; intros n m c sleeps Hn Hfuel Hprev; [lia|]. cbn [run_loop].
  destruct (cb (tx_begin (env_open (env n)) bh th)) as [[r tx]|e|msg] eqn:Hcb.
  2,3: eexists _, n; split; [done|]; repeat split; simpl; try lia; auto.
  assert (Hcont : conflicted (env n) → ∀ o,
    o = after_conflict p (env n) (Z.of_nat n + 1) (metrics_merge m (env_metrics (env n))) c sleeps →
    ∃ o' i, match o with inl o => Some o | inr (c, sleeps) => run_loop fuel p bh th cb env (S n)
       (Z.of_nat n + 1) (metrics_merge m (env_metrics (env n))) c sleeps end = Some o' ∧
    run_ends p bh th cb env i o').
  { intros Hv o ->.
    pose proof (after_conflict_spec p bh th cb env n (metrics_merge m (env_metrics (env n))) c sleeps
      Hv Hn Hprev) as Ha.
    destruct (after_conflict _ _ _ _ _ _) as [o|[c' s']]; [by exists o, n|].
    replace (Z.of_nat n + 1) with (Z.of_nat (S n)) by lia. apply IH; [lia..|].
    intros j Hj. destruct (decide (j = n)) as [->|]; [done|]. apply Hprev. lia. }
  destruct (env_verdict (env n)) eqn:Hv.
  - eexists _, n; split; [done|]. repeat split; simpl; try lia; eauto.
  - by apply Hcont; [left|].
  - by apply Hcont; [right|].
  - eexists _, n; split; [done|]. repeat split; simpl; try lia; eauto.
Qed.

(** Every sleep of a run is within its backoff cap and the time left. *)
Definition sleeps_ok (p : RetryPolicy) (sleeps : list Z) : Prop :=
  Forall (λ s, 0 <= s <= max_backoff p ∧ s <= deadline p) sleeps.

Definition policy_ok (p : RetryPolicy) : Prop :=
  duration_ok (deadline p) ∧ duration_ok (base_backoff p) ∧ duration_ok (max_backoff p).

Definition env_ok (e : attempt_env M) : Prop :=
  0 <= env_elapsed_sleep e ∧ Forall (λ a, 0 <= a < u64_mod) (env_races e).

Lemma backoff_spec p n s races :
  policy_ok p → 0 <= n → 0 <= s < u64_mod → Forall (λ a, 0 <= a < u64_mod) races →
  let '(next, draw) := backoff p n s races in
  0 < next < u64_mod ∧ 0 <= draw <= backoff_cap p n ∧ (0 < backoff_cap p n → draw < backoff_cap p n).
Proof.
  unfold policy_ok, duration_ok. intros Hp Hn Hs Hr. unfold backoff.
  assert (Hf : 0 <= backoff_factor n).
  { unfold backoff_factor. case_if; [apply Z.pow_nonneg; lia|unfold u32_max; lia]. }
  assert (0 <= backoff_cap p n) as Hcap by (unfold backoff_cap, dur_mul, duration_max, u64_max in *; lia).
  pose proof (jitter_spec _ races s Hcap Hs Hr) as Hj. destruct (jitter _ _ _). lia.
Qed.

Lemma run_loop_sleeps p bh th (cb : Tx M → res (R * Tx M)) env : policy_ok p → (∀ n, env_ok (env n)) → ∀ fuel n m c sleeps,
  0 <= jitter_state c < u64_mod → sleeps_ok p sleeps →
  ∀ o, run_loop fuel p bh th cb env n (Z.of_nat n) m c sleeps = Some o → sleeps_ok p (out_sleeps o).
Proof.
  intros Hp Henv. induction fuel as [|fuel IH]; intros n m c sleeps Hj Hs o; [done|]. cbn [run_loop].
  destruct (cb _) as [[r tx]|e|msg]; [|by intros [= <-]..].
  assert (Ha : match after_conflict (R:=R) p (env n) (Z.of_nat n + 1) (metrics_merge m (env_metrics (env n))) c sleeps with
    | inl o => sleeps_ok p (out_sleeps o)
    | inr (c', s') => 0 <= jitter_state c' < u64_mod ∧ sleeps_ok p s' end).
  { unfold after_conflict. case_if; [done|]. destruct (Henv n) as [He Hr].
    pose proof (backoff_spec p (Z.of_nat n + 1 - 1) (jitter_state c) _ Hp ltac:(lia) Hj Hr) as Hb.
    destruct (backoff _ _ _ _) as [js draw]. destruct Hb as (Hjs & Hdraw & _).
    assert (sleeps_ok p (sleeps ++ [Z.min draw (dur_sub (deadline p) (env_elapsed_sleep (env n)))])).
    { apply Forall_app. split; [done|]. apply Forall_singleton.
      unfold policy_ok, duration_ok, backoff_cap, dur_sub in *. lia. }
    case_if; simpl; [done|]. split; [lia|done]. }
  destruct (env_verdict (env n)); [by intros [= <-]| | |by intros [= <-]];
    (destruct (after_conflict _ _ _ _ _ _) as [o'|[c' s']]; [by intros [= <-]|];
     destruct Ha; replace (Z.of_nat n + 1) with (Z.of_nat (S n)) by lia; by apply IH).
Qed.
End run_facts.

(** C26: [Tx::run] terminates within its budget and never reports success without a
    commit: with the fuel of the policy it always returns, after at most
    [max(1, max_attempts)] attempts, all but the last of which met a commit
    conflict; [Ok] means the batch the callback staged on the snapshot of the last
    attempt was committed, and every error or panic leaves the committed state
    without any effect of the run; exhaustion is reported only after a conflict. *)
Theorem tx_run_spec {M C R : Type} `{KvStore M C} (p : RetryPolicy) (bh th : bool)
    (cb : Tx M → res (R * Tx M)) (env : nat → attempt_env M) (m : HashIndexWriteMetrics)
    (c : tx_counters) :
  ∃ o i, run_with_hash_index_metrics (run_fuel p) p bh th cb env m c = Some o ∧
    run_ends p bh th cb env i o.
Proof.
  apply (run_loop_ends p bh th cb env _ 0 m c []); [lia| |lia]. unfold run_fuel. lia.
Qed.

(** The backoff is bounded: the jitter generator never returns to its zero fixed
    point whatever other threads install, every sleep of a run is non-negative, at
    most [max_backoff] and at most the deadline, and strictly below the exponential
    cap [min(base * 2^retry, max_backoff)] whenever that cap is positive. *)
Theorem tx_backoff_bounds {M C R : Type} `{KvStore M C} (p : RetryPolicy) (bh th : bool)
    (cb : Tx M → res (R * Tx M)) (env : nat → attempt_env M) (m : HashIndexWriteMetrics)
    (c : tx_counters) (o : run_outcome M R) (fuel : nat) :
  policy_ok p → (∀ n, env_ok (env n)) → 0 <= jitter_state c < u64_mod →
  run_with_hash_index_metrics fuel p bh th cb env m c = Some o →
  sleeps_ok p (out_sleeps o) ∧
  ∀ n s races, 0 <= n → 0 <= s < u64_mod → Forall (λ a, 0 <= a < u64_mod) races →
    let '(next, draw) := backoff p n s races in
    0 < next < u64_mod ∧ 0 <= draw <= backoff_cap p n ∧ (0 < backoff_cap p n → draw < backoff_cap p n).
Proof.
  intros Hp Henv Hj Ho. split.
  - by apply (run_loop_sleeps p bh th cb env Hp Henv fuel 0 m c [] Hj ltac:(constructor)).
  - intros. by apply backoff_spec.
Qed.

Module RetryExamples.
Import Mem.

(** A callback that stages one put, and an environment with two conflicts. *)
Definition put_one (tx : Tx GmapKv.t) : res (unit * Tx GmapKv.t) :=
  Ok (tt, stage (Put CF_DATASETS [1] [2]) tx).
Definition two_conflicts (n : nat) : attempt_env GmapKv.t :=
  mkAttemptEnv (λ _, kv_empty) (λ _, kv_empty) (if (n =? 2)%nat then Committed else Busy)
    metrics_default (Z.of_nat n) (Z.of_nat n) (Z.of_nat n) [].
Definition counters0 : tx_counters := mkCounters 0 0 0 0 0 0.

Lemma tx_backoff_bounds_witness :
  ∃ o, run_with_hash_index_metrics 8 default_policy false false put_one two_conflicts
         metrics_default counters0 = Some o ∧
    sleeps_ok default_policy (out_sleeps o) ∧ out_attempts o = 3 ∧ length (out_sleeps o) = 2%nat.
Proof.
  eexists. split; [reflexivity|].
  split; [|split; reflexivity].
  refine (proj1 (tx_backoff_bounds default_policy false false put_one two_conflicts
      metrics_default counters0 _ 8 _ _ _ _)); [| | |reflexivity].
  - repeat split; vm_compute; discriminate.
  - intros n. split; simpl; [lia|constructor].
  - vm_compute. split; [discriminate|reflexivity].
Defined.
End RetryExamples.
