(* ===== verification/PrefixSpec.v ===== *)
(** * PrefixSpec: the finalized-prefix check and the block-hash reads

    Theorems about [validate_finalized_prefix], [find_block_hash_in_chunk] and
    [find_stored_block_hash] of crates/storage/src/db/write/tx.rs: the streaming
    comparison with its per-chunk buffer is an exact comparison of two lists of
    blocks. *)

From S2P Require Import Prelude Bytes Data Kv ChunkIter Tables Chain Tx Concrete.

(** The first difference of two lists of blocks. *)
Fixpoint first_divergence (stored replacement : list (Z * string)) : option divergence :=
  match stored, replacement with
  | [], [] => None
  | [], (n, h) :: _ => Some (NotStored n h)
  | (sn, sh) :: _, [] => Some (MissingFromReplacement sn sh)
  | (sn, sh) :: stored, (n, h) :: replacement =>
      if decide (sn = n ∧ sh = h) then first_divergence stored replacement
      else Some (Mismatch sn sh n h)
  end.

Lemma first_divergence_None stored replacement :
  first_divergence stored replacement = None ↔ stored = replacement.
Proof.
  revert replacement; induction stored as [|[sn sh] stored IH]; intros [|[n h] replacement]; try done.
  simpl. case_decide as E; [destruct E as [-> ->]; rewrite IH; naive_solver|]. naive_solver.
Qed.

Section facts.
Context {M C T : Type} `{HK : KvStore M C} `{HL : !KvStoreLaws M C}
  `{HB : Borsh} `{HBL : !BorshLaws} `{HT : TableReader T} `{HTL : !TableReaderLaws T}
  `{HS : !TableStore M T}.
Implicit Types tx : Tx M.

(** [rows] are the blocks of a chunk: number and hash, in table order. *)
Definition block_rows tx (c : Chunk) (rows : list (Z * string)) : Prop :=
  ∃ id (t : T) i j, table_get "blocks" (tables c) = Some id ∧ open_db_table tx id = Ok t ∧
    blocks_table_ok t i j ∧ rows = rows_of (column t i) (column t j).

(** The rows with a number in [from..=to]. *)
Definition rows_between (from to : Z) (rows : list (Z * string)) : list (Z * string) :=
  filter (λ p, from <= p.1 <= to) rows.

Lemma fold_filter (P : Z * string → bool) (rows acc : list (Z * string)) :
  fold_res (λ hashes p, Ok (if P p then hashes ++ [(p.1, p.2)] else hashes)) rows acc
  = Ok (acc ++ filter (λ p, P p = true) rows).
Proof.
  revert acc; induction rows as [|[n h] rows IH]; intros acc; simpl; [by rewrite app_nil_r|].
  rewrite IH, filter_cons. destruct (P (n, h)); simpl; [|done]. by rewrite <-app_assoc.
Qed.

Lemma read_block_hashes_spec tx c from to rows :
  block_rows tx c rows → read_block_hashes c from to tx = Ok (rows_between from to rows).
Proof.
  intros (id & t & i & j & Hid & Ht & Hok & ->). unfold read_block_hashes, blocks_table.
  rewrite Hid. cbn [ok_or mbind res_bind]. rewrite Ht. cbn [mbind res_bind].
  rewrite (for_each_block_hash_fold _ _ i j) by done.
  rewrite (fold_filter (λ p, (from <=? p.1) && (p.1 <=? to))%bool). f_equal.
  unfold rows_between. apply list_filter_iff. intros p. rewrite andb_true_iff, !Z.leb_le. done.
Qed.

(** What is still to be compared: the buffer and the unread chunks. *)
Definition remaining (from up_to : Z) (buffer : list (Z * string)) (rowss : list (list (Z * string)))
  : list (Z * string) := buffer ++ rows_between from up_to (concat rowss).

Lemma rows_between_app from to l k :
  rows_between from to (l ++ k) = rows_between from to l ++ rows_between from to k.
Proof. apply filter_app. Qed.

Lemma seek_stored_spec from up_to tx chunks rowss : ∀ buffer,
  Forall2 (block_rows tx) chunks rowss →
  ∃ chunks' rowss' buffer',
    seek_stored from up_to tx chunks buffer = Ok (chunks', buffer') ∧
    Forall2 (block_rows tx) chunks' rowss' ∧
    remaining from up_to buffer' rowss' = remaining from up_to buffer rowss ∧
    (buffer' = [] → remaining from up_to buffer rowss = []).
Proof.
  intros buffer Hall; revert buffer.
  induction Hall as [|c rows chunks rowss Hc Hall IH]; intros buffer.
  - exists [], [], buffer. destruct buffer; by repeat split.
  - destruct buffer as [|b buffer].
    + simpl. rewrite (read_block_hashes_spec _ _ _ _ rows) by done. cbn [mbind res_bind].
      destruct (IH (rows_between from up_to rows)) as (ch & rs & bf & E & A & B & D).
      exists ch, rs, bf. unfold remaining in *. simpl. by rewrite rows_between_app.
    + exists (c :: chunks), (rows :: rowss), (b :: buffer). repeat split; [|done]. by constructor.
Qed.

(** After the first divergence the closure does nothing. *)
Lemma prefix_visit_stuck from up_to tx rows s v :
  ps_divergence s = Some v →
  fold_res (λ s p, prefix_visit from up_to tx s p.1 p.2) rows s = Ok s.
Proof.
  intros Hs. induction rows as [|p rows IH]; [done|]. cbn [fold_res].
  assert (prefix_visit from up_to tx s p.1 p.2 = Ok s) as ->; [|exact IH].
  unfold prefix_visit. by rewrite Hs.
Qed.

(** The verdict computed once the replacement table is exhausted. *)
Definition prefix_finish (from up_to : Z) tx (s : prefix_state) : res (option divergence) :=
  match ps_divergence s with
  | Some v => Ok (Some v)
  | None =>
      '(_, buffer) ← seek_stored from up_to tx (ps_chunks s) (ps_buffer s);
      match buffer with
      | [] => Ok None
      | (stored_number, stored_hash) :: _ =>
          Ok (Some (MissingFromReplacement stored_number stored_hash))
      end
  end.

Lemma prefix_fold from up_to tx rows : ∀ chunks rowss buffer,
  Forall2 (block_rows tx) chunks rowss →
  (s ← fold_res (λ s p, prefix_visit from up_to tx s p.1 p.2) rows (mkPrefixState chunks buffer None);
   prefix_finish from up_to tx s)
  = Ok (first_divergence (remaining from up_to buffer rowss) (filter (λ p, p.1 <= up_to) rows)).
Proof.
  induction rows as [|[n h] rows IH]; intros chunks rowss buffer Hall.
  - simpl. unfold prefix_finish. simpl.
    destruct (seek_stored_spec from up_to tx chunks rowss buffer Hall) as (ch & rs & bf & E & A & B & D).
    rewrite E. simpl. destruct bf as [|[sn sh] bf]; [by rewrite D|].
    rewrite <-B. unfold remaining. done.
  - cbn [fold_res fst snd]. rewrite filter_cons.
    assert (Hv : prefix_visit from up_to tx (mkPrefixState chunks buffer None) n h =
      if n >? up_to then Ok (mkPrefixState chunks buffer None) else
      '(chunks, buffer) ← seek_stored from up_to tx chunks buffer;
      match buffer with
      | [] => Ok (mkPrefixState chunks buffer (Some (NotStored n h)))
      | (sn, sh) :: rest =>
          if ((sn =? n) && bool_decide (sh = h))%bool then Ok (mkPrefixState chunks rest None)
          else Ok (mkPrefixState chunks buffer (Some (Mismatch sn sh n h)))
      end) by done.
    rewrite Hv, Z.gtb_ltb. destruct (Z.ltb_spec up_to n) as [Hgt|Hle].
    { rewrite decide_False by (simpl; lia). cbn [mbind res_bind]. by apply IH. }
    rewrite decide_True by (simpl; lia). simpl.
    destruct (seek_stored_spec from up_to tx chunks rowss buffer Hall) as (ch & rs & bf & E & A & B & D).
    rewrite E. cbn [mbind res_bind]. destruct bf as [|[sn sh] bf].
    + rewrite D by done. simpl. erewrite prefix_visit_stuck by done. done.
    + rewrite <-B. unfold remaining. simpl. case_decide as Heq.
      * destruct Heq as [-> ->]. rewrite Z.eqb_refl, bool_decide_true by done. simpl.
        rewrite (IH ch rs bf) by done. done.
      * assert (((sn =? n) && bool_decide (sh = h))%bool = false) as ->
          by (apply not_true_iff_false; rewrite andb_true_iff, Z.eqb_eq, bool_decide_eq_true; done).
        cbn [mbind res_bind]. erewrite prefix_visit_stuck by done. done.
Qed.

Lemma validate_finalized_prefix_spec d c up_to tx rows rowss :
  chunks_cf_ok (tx_view tx CF_CHUNKS) → dataset_id_ok d → u64_ok (first_block c) →
  chain (chunks_of (tx_view tx CF_CHUNKS) d) →
  block_rows tx c rows →
  Forall2 (block_rows tx)
    (filter (λ x, in_window (first_block c) (Some up_to) x = true)
       (chunks_of (tx_view tx CF_CHUNKS) d)) rowss →
  validate_finalized_prefix d c up_to tx
  = Ok (first_divergence (rows_between (first_block c) up_to (concat rowss))
          (filter (λ p, p.1 <= up_to) rows)).
Proof.
  intros Hok Hd Hf Hch (id & t & i & j & Hid & Ht & Hb & ->) Hall.
  unfold validate_finalized_prefix, tx_list_chunks.
  rewrite list_chunks_window, collect_Ok by done. cbn [mbind res_bind].
  unfold blocks_table. rewrite Hid. cbn [ok_or mbind res_bind]. rewrite Ht. cbn [mbind res_bind].
  rewrite (for_each_block_hash_fold _ _ i j) by done.
  exact (prefix_fold _ _ _ _ _ rowss [] Hall).
Qed.

(** ** Block hash lookups *)

Lemma lookup_rows (numbers hashes : list cell) r n : length numbers = length hashes →
  (cell_num <$> numbers) !! r = Some n →
  ∃ c, hashes !! r = Some c ∧ rows_of numbers hashes !! r = Some (n, cell_str c).
Proof.
  intros Hlen Hr. pose proof Hr as Hlt%lookup_lt_Some. rewrite length_fmap, Hlen in Hlt.
  apply lookup_lt_is_Some_2 in Hlt as [c Hc]. exists c. split; [done|].
  unfold rows_of. rewrite lookup_zip_with, Hr. simpl. by rewrite list_lookup_fmap, Hc.
Qed.

Lemma find_block_hash_spec (t : T) i j b :
  blocks_table_ok t i j → u64_ok b → (field_type t i = UInt32 → Forall (λ n, n <= u32_max) (cell_num <$> column t i)) →
  ∃ o, find_block_hash t b = Ok o ∧
    match o with
    | Some h => (b, h) ∈ rows_of (column t i) (column t j)
    | None => b ∉ (rows_of (column t i) (column t j)).*1
    end.
Proof.
  intros (Hi & Hj & Hty & Hty' & _) Hb H32. unfold find_block_hash, read_block_numbers, index_of.
  rewrite Hi. cbn [ok_or mbind res_bind]. rewrite read_column_spec. cbn [mbind res_bind].
  set (numbers := cell_num <$> column t i).
  assert (Hlen : length (column t i) = length (column t j)) by (by rewrite !column_length).
  assert (Hfst : (rows_of (column t i) (column t j)).*1 = numbers)
    by (unfold rows_of; apply fst_zip; unfold numbers; by rewrite !length_fmap, Hlen).
  assert (Hrow : ∃ o, match field_type t i with
      | UInt32 => Ok (if b <=? u32_max then find_exact_block_row numbers b else None)
      | UInt64 => Ok (find_exact_block_row numbers b)
      | _ => Err (EMsg "'number' column has unexpected data type") end = Ok o ∧
      match o with Some r => numbers !! r = Some b | None => b ∉ numbers end).
  { pose proof (find_exact_row_spec numbers b) as Hx. destruct Hty as [E|E]; rewrite E.
    - destruct (Z.leb_spec b u32_max).
      + eexists; split; [done|]. destruct (find_exact_block_row numbers b); naive_solver.
      + eexists; split; [done|]. intros Hin. specialize (H32 E). rewrite Forall_forall in H32.
        specialize (H32 _ Hin). simpl in H32. lia.
    - eexists; split; [done|]. destruct (find_exact_block_row numbers b); naive_solver. }
  destruct Hrow as (o & -> & Ho). cbn [mbind res_bind]. rewrite Hfst.
  destruct o as [r|]; [|by exists None].
  destruct (lookup_rows (column t i) (column t j) r b Hlen Ho) as (c & Hc & Hin).
  unfold read_string_cell, index_of. rewrite Hj. cbn [ok_or mbind res_bind].
  pose proof (lookup_lt_Some _ _ _ Hc) as Hlt. rewrite column_length in Hlt.
  rewrite read_slice_spec by lia. cbn [mbind res_bind]. rewrite Hty'.
  assert (take 1 (drop r (column t j)) = [c]) as ->.
  { erewrite drop_S by done. done. }
  eexists; split; [done|]. by eapply list_elem_of_lookup_2.
Qed.
End facts.

(** C4: [validate_finalized_prefix] is exact: for a dataset whose chunks form a chain
    and whose blocks tables are readable, it returns the first difference between
    the stored blocks numbered [first_block..=up_to] and the blocks of the new chunk
    up to [up_to], in order, and accepts if and only if the two lists are equal;
    however the stored blocks are split into chunks, the buffered scan sees them all. *)
Theorem validate_finalized_prefix_exact {M C T : Type} `{KvStoreLaws M C} `{BorshLaws}
    `{TableReaderLaws T} `{!TableStore M T} (d : DatasetId) (c : Chunk) (up_to : Z) (tx : Tx M)
    (rows : list (Z * string)) (rowss : list (list (Z * string))) :
  chunks_cf_ok (tx_view tx CF_CHUNKS) → dataset_id_ok d → u64_ok (first_block c) →
  chain (chunks_of (tx_view tx CF_CHUNKS) d) → block_rows tx c rows →
  Forall2 (block_rows tx)
    (filter (λ x, in_window (first_block c) (Some up_to) x = true)
       (chunks_of (tx_view tx CF_CHUNKS) d)) rowss →
  let stored := rows_between (first_block c) up_to (concat rowss) in
  let replacement := filter (λ p, p.1 <= up_to) rows in
  validate_finalized_prefix d c up_to tx = Ok (first_divergence stored replacement) ∧
  (validate_finalized_prefix d c up_to tx = Ok None ↔ stored = replacement).
Proof.
  intros Hok Hd Hf Hch Hr Hall stored replacement.
  pose proof (validate_finalized_prefix_spec d c up_to tx rows rowss Hok Hd Hf Hch Hr Hall) as E.
  fold stored replacement in E. rewrite E, <-first_divergence_None.
  split; [done|]. split; [by intros [= ?]|]. intros Hn. by rewrite Hn.
Qed.

(** [find_stored_block_hash] returns the hash of the block when the chunk that
    covers it has a row for it, and [None] when no chunk reaches the block or the
    covering chunk has no such row (a skipped slot). *)
Theorem find_stored_block_hash_exact {M C T : Type} `{KvStoreLaws M C} `{BorshLaws}
    `{TableReaderLaws T} `{!TableStore M T} (d : DatasetId) (b : Z) (tx : Tx M) :
  chunks_cf_ok (tx_view tx CF_CHUNKS) → dataset_id_ok d → u64_ok b →
  chain (chunks_of (tx_view tx CF_CHUNKS) d) →
  (∀ c, c ∈ chunks_of (tx_view tx CF_CHUNKS) d → ∃ id (t : T) i j,
     table_get "blocks" (tables c) = Some id ∧ open_db_table tx id = Ok t ∧ blocks_table_ok t i j ∧
     field_type t i = UInt64) →
  ∃ o, find_stored_block_hash d b tx = Ok o ∧
    match o with
    | Some h => ∃ c rows, c ∈ chunks_of (tx_view tx CF_CHUNKS) d ∧
        first_block c <= b <= last_block c ∧ block_rows tx c rows ∧ (b, h) ∈ rows
    | None => ∀ c rows, c ∈ chunks_of (tx_view tx CF_CHUNKS) d →
        first_block c <= b <= last_block c → block_rows tx c rows → b ∉ rows.*1
    end.
Proof.
  intros Hok Hd Hb Hch Htab. unfold find_stored_block_hash, tx_list_chunks.
  rewrite list_chunks_window by done.
  pose proof (λ x, list_elem_of_filter (λ c, in_window b (Some b) c = true)
                (chunks_of (tx_view tx CF_CHUNKS) d) x) as Hel.
  assert (Hw : ∀ c, in_window b (Some b) c = true ↔ first_block c <= b <= last_block c)
    by (intros c; unfold in_window; rewrite andb_true_iff, !Z.leb_le; lia).
  destruct (filter _ _) as [|c l] eqn:El.
  { exists None. split; [done|]. intros c rows Hc Hin _.
    exfalso. eapply not_elem_of_nil, Hel. split; [by apply Hw|done]. }
  cbn [fmap list_fmap first_item res_fmap mbind res_bind].
  assert (Hc : in_window b (Some b) c = true ∧ c ∈ chunks_of (tx_view tx CF_CHUNKS) d)
    by (apply Hel; lmem).
  destruct Hc as [Hin%Hw Hc].
  destruct (Htab c Hc) as (id & t & i & j & Hid & Ht & Hbt & H64).
  unfold find_block_hash_in_chunk, blocks_table. rewrite Hid. cbn [ok_or mbind res_bind].
  rewrite Ht. cbn [mbind res_bind].
  destruct (find_block_hash_spec t i j b Hbt Hb ltac:(congruence)) as (o & Ho & Hspec).
  exists o. split; [done|]. assert (Hbr : block_rows tx c (rows_of (column t i) (column t j)))
    by (by exists id, t, i, j).
  destruct o as [h|]; [by exists c, (rows_of (column t i) (column t j))|].
  intros c' rows Hc' Hin' (id' & t' & i' & j' & Hid' & Ht' & (Hi' & Hj' & _) & ->).
  assert (c' = c) as -> by (by eapply chain_covering_unique).
  destruct Hbt as (Hi & Hj & _). congruence.
Qed.

Module PrefixExamples.
Import Mem.

Definition t1 : TableId := replicate 16 1.
Definition t2 : TableId := replicate 16 2.
Definition t3 : TableId := replicate 16 3.
(** Blocks 0 and 1 ("a", "b") in one chunk, 2 ("c") in the next, and a replacement
    for 1..=3. *)
Definition s1 : Chunk := with_blocks 0 1 "p" "b" t1.
Definition s2 : Chunk := with_blocks 2 2 "b" "c" t2.
Definition repl : Chunk := with_blocks 1 3 "a" "z" t3.
Definition pdb : mdb := make_db [(d0, evm_label None)] [(d0, [s1; s2])]
  [(t1, [0; 97; 112; 1; 98; 97]); (t2, [2; 99; 98]); (t3, [1; 98; 97; 2; 99; 98; 3; 122; 99])].
Definition ptx : Tx GmapKv.t := tx_begin pdb false false.

Lemma ptx_ok : chunks_cf_ok (tx_view ptx CF_CHUNKS).
Proof.
  apply (make_db_chunks_ok _ [(d0, [s1; s2])]).
  repeat constructor; try apply d0_ok; simpl; unfold u64_max; lia.
Qed.
Lemma ptx_chunks : chunks_of (tx_view ptx CF_CHUNKS) d0 = [s1; s2].
Proof. vm_compute. reflexivity. Qed.
Lemma ptx_chain : chain (chunks_of (tx_view ptx CF_CHUNKS) d0).
Proof.
  rewrite ptx_chunks. split; [repeat constructor; simpl; unfold u64_max; lia|].
  simpl. split; [|done]. split; simpl; [lia|done].
Qed.

Definition rows_at (id : TableId) : list (Z * string) :=
  match open_db_table ptx id with Ok t => rows_of (cells t 0) (cells t 1) | _ => [] end.
Lemma ptx_rows c id :
  table_get "blocks" (tables c) = Some id → id ∈ [t1; t2; t3] → block_rows ptx c (rows_at id).
Proof.
  intros Hc Hid. rewrite !elem_of_cons, elem_of_nil in Hid.
  assert (Ht : ∃ t, open_db_table ptx id = Ok t)
    by (destruct Hid as [->|[->|[->|[]]]]; eexists; vm_compute; reflexivity).
  destruct Ht as [t Ht]. exists id, t, 0%nat, 1%nat. split; [done|]. split; [done|].
  split; [|unfold rows_at; rewrite Ht; reflexivity].
  repeat split; [by right|unfold no_nulls; simpl..];
    clear; induction t as [|r t IH]; simpl; auto.
Qed.

Lemma validate_finalized_prefix_exact_witness :
  validate_finalized_prefix d0 repl 2 ptx = Ok None.
Proof.
  pose (rowss := [rows_at t1; rows_at t2]).
  apply (validate_finalized_prefix_exact d0 repl 2 ptx (rows_at t3) rowss).
  - exact ptx_ok.
  - exact d0_ok.
  - split; simpl; unfold u64_max; lia.
  - exact ptx_chain.
  - apply ptx_rows; [reflexivity|lmem].
  - rewrite ptx_chunks. repeat constructor; apply ptx_rows; try reflexivity; lmem.
  - vm_compute. reflexivity.
Defined.

Lemma find_stored_block_hash_exact_witness :
  ∃ o, find_stored_block_hash d0 2 ptx = Ok o ∧ o = Some "c".
Proof.
  destruct (find_stored_block_hash_exact d0 2 ptx) as (o & Ho & _).
  - exact ptx_ok.
  - exact d0_ok.
  - split; simpl; unfold u64_max; lia.
  - exact ptx_chain.
  - rewrite ptx_chunks. intros c Hc.
    assert (Hr : ∃ id, table_get "blocks" (tables c) = Some id ∧ id ∈ [t1; t2; t3])
      by (rewrite !elem_of_cons, elem_of_nil in Hc; destruct Hc as [->|[->|[]]];
          eexists; (split; [reflexivity|lmem])).
    destruct Hr as (id & Hid & Hin).
    destruct (ptx_rows c id Hid Hin) as (id' & t & i & j & E1 & E2 & E3 & _).
    exists id', t, i, j. split; [exact E1|]. split; [exact E2|]. split; [exact E3|].
    destruct E3 as (Hi & _). vm_compute in Hi. injection Hi as <-. reflexivity.
  - exists o. split; [exact Ho|]. vm_compute in Ho. injection Ho as <-. reflexivity.
Defined.
End PrefixExamples.
