(* ===== verification/Cleanup.v ===== *)
(** * Cleanup: purging deleted tables and reclaiming disk space

    Models crates/storage/src/db/write/ops.rs.  Writes that bypass transactions go
    straight to the database state; a raw iterator reads the state it was opened on,
    whatever is written while it runs. *)

From S2P Require Import Prelude Bytes Data Kv ChunkIter Tables Chain Tx Concrete.

(** ** Raw iteration *)

Section scan.
Context {M C : Type} `{KvStore M C}.

(** [while it.valid() { if stop(it.key()) break; ..; it.next() } it.status()?] *)
Fixpoint raw_scan (fuel : nat) (stop : bytes → bool) (c : C) : res (list entry) :=
  match fuel with
  | O => Ok []
  | S fuel =>
      if cur_is_valid c then
        if stop (cur_key c) then Ok []
        else
          let e := (cur_key c, cur_value c) in
          c ← cur_next c;
          rest ← raw_scan fuel stop c;
          Ok (e :: rest)
      else Ok []
  end.

Definition scan_from (m : M) (start : bytes) (stop : bytes → bool) : res (list entry) :=
  c ← cur_seek start (kv_cursor m); raw_scan (S (length (kv_entries m))) stop c.
Definition scan_all (m : M) : res (list entry) :=
  c ← cur_seek_first (kv_cursor m); raw_scan (S (length (kv_entries m))) (λ _, false) c.
End scan.

Section ops.
Context {M C T : Type} `{KvStore M C} `{Borsh}.

(** [scan_table_ids]: well-formed ids and malformed keys. *)
Fixpoint split_table_ids (keys : list bytes) : list TableId * list bytes :=
  match keys with
  | [] => ([], [])
  | key :: keys =>
      let '(ids, malformed) := split_table_ids keys in
      match try_from_key key with
      | Some id => (id :: ids, malformed)
      | None => (ids, key :: malformed)
      end
  end.
Definition scan_table_ids (d : db M) (c : cf) : res (list TableId * list bytes) :=
  es ← scan_all (d c); Ok (split_table_ids es.*1).

Definition drop_malformed_keys (d : db M) (c : cf) (keys : list bytes) : db M :=
  match keys with [] => d | _ => apply_batch (Del c <$> keys) d end.

Definition purge_table (d : db M) (id : TableId) : res (db M) :=
  let start_key := (factory_start (factory_new id)).1 in
  let end_key := (factory_end (factory_new id)).1 in
  es ← scan_from (d CF_TABLES) start_key (λ key, bytes_leb end_key key);
  Ok (apply_batch ((Del CF_TABLES <$> es.*1) ++ [Del CF_DELETED_TABLES id; Del CF_DIRTY_TABLES id]) d).

(** [for id in &pending { purge_table(db, id)? }]: tables purged before a failure stay
    purged. *)
Fixpoint purge_tables (ids : list TableId) (d : db M) : db M * res unit :=
  match ids with
  | [] => (d, Ok tt)
  | id :: ids =>
      match purge_table d id with
      | Ok d => purge_tables ids d
      | Err e => (d, Err e)
      | Panic m => (d, Panic m)
      end
  end.

(** The shared body of [logical_cleanup] and [purge_orphan_dirty_tables]. *)
Definition purge_marked (c : cf) (d : db M) : db M * res nat :=
  match scan_table_ids d c with
  | Ok (pending, malformed) =>
      let d := drop_malformed_keys d c malformed in
      let '(d, r) := purge_tables pending d in
      (d, (λ _, length pending) <$> r)
  | Err e => (d, Err e)
  | Panic m => (d, Panic m)
  end.

Definition logical_cleanup (d : db M) : db M * res nat := purge_marked CF_DELETED_TABLES d.
Definition purge_orphan_dirty_tables (d : db M) : db M * res nat := purge_marked CF_DIRTY_TABLES d.

(** [min_live_table_id]: a running minimum over the chunks, then the dirty markers. *)
Definition min_live_table_id (d : db M) : res (option TableId) :=
  es ← scan_all (d CF_CHUNKS);
  min ← fold_res (λ min e,
          chunk ← ok_or (chunk_from_slice e.2) (EStorage "borsh");
          Ok (watermark (option_list min) (tables chunk).*2)) es None;
  '(dirty, _) ← scan_table_ids d CF_DIRTY_TABLES;
  Ok (watermark (option_list min) dirty).

(** [reclaim_disk_space]: the bounds handed to [delete_file_in_range_cf]. *)
Definition reclaim_disk_space (d : db M) : res (bytes * bytes) :=
  min ← min_live_table_id d;
  Ok (RECLAIM_LOWER_BOUND, reclaim_upper_bound min).
End ops.

(** ** Facts *)

Section facts.
Context {M C T : Type} `{HK : KvStore M C} `{HL : !KvStoreLaws M C} `{HB : Borsh} `{HBL : !BorshLaws}.
Implicit Types (d : db M).

Lemma raw_scan_spec stop fuel : ∀ (c : C) i,
  cur_pos c = Some i → (length (cur_entries c) - i < fuel)%nat →
  raw_scan fuel stop c = Ok (take_while (λ e, negb (stop e.1)) (drop i (cur_entries c))).
Proof.
  induction fuel as [|fuel IH]; intros c i Hp Hf; [lia|]. cbn [raw_scan].
  pose proof (cur_at _ _ Hp) as Hat. rewrite cur_valid_iff, bool_decide_true by (rewrite Hp; eauto).
  rewrite (drop_S _ _ _ Hat). cbn [take_while fst]. destruct (stop (cur_key c)); [done|].
  destruct (cur_next_spec c i Hp) as (c' & Hn & He & Hp'). rewrite Hn. cbn [mbind res_bind negb].
  case_decide as Hlt.
  - rewrite (IH c' (S i)), He; [done|done|rewrite He; lia].
  - destruct fuel; cbn [raw_scan]; [|rewrite cur_valid_iff, Hp', bool_decide_false by (by intros [])];
      cbn [mbind res_bind]; by rewrite drop_ge by lia.
Qed.

Lemma raw_scan_end stop fuel (c : C) : cur_pos c = None → raw_scan fuel stop c = Ok [].
Proof.
  intros Hp. destruct fuel; [done|]. cbn [raw_scan].
  by rewrite cur_valid_iff, Hp, bool_decide_false by (by intros []).
Qed.

Lemma scan_all_spec (m : M) : scan_all m = Ok (kv_entries m).
Proof.
  unfold scan_all. destruct (cur_seek_first_spec (kv_cursor m)) as (c & -> & He & Hp).
  rewrite cur_new in *. cbn [mbind res_bind]. destruct (kv_entries m) as [|e es] eqn:E.
  - by apply raw_scan_end.
  - rewrite (raw_scan_spec _ _ _ 0%nat Hp) by (rewrite He; simpl; lia). rewrite He.
    by rewrite take_while_all.
Qed.

Lemma scan_from_spec (m : M) start stop :
  scan_from m start stop
  = Ok (take_while (λ e, negb (stop e.1)) (filter (λ e, bytes_le start e.1) (kv_entries m))).
Proof.
  unfold scan_from. destruct (cur_seek_spec start (kv_cursor m)) as (c & -> & He & Hp).
  rewrite cur_new in *. cbn [mbind res_bind].
  rewrite <-(first_index_filter start (kv_entries m)) by apply kv_sorted.
  destruct (first_index _ _) as [i|].
  - rewrite (raw_scan_spec _ _ _ i Hp), He; [done|rewrite He; lia].
  - by rewrite raw_scan_end.
Qed.

(** Cutting a sorted list at a bound is filtering by it. *)
Lemma take_while_below (es : list entry) hi : StronglySorted (λ a b, bytes_lt a.1 b.1) es →
  take_while (λ e, negb (bytes_leb hi e.1)) es = filter (λ e, bytes_lt e.1 hi) es.
Proof.
  induction 1 as [|e es Hs IH He]; [done|]. simpl. rewrite filter_cons, Forall_forall in *.
  destruct (bytes_leb hi e.1) eqn:E; simpl.
  - apply bytes_leb_spec in E. rewrite decide_False by (by intros ?%bytes_lt_nle).
    symmetry. apply list_filter_none. intros x Hx Hlt. specialize (He x Hx).
    apply (bytes_lt_irrefl hi). eapply bytes_le_lt_trans; [exact E|]. by eapply bytes_lt_trans.
  - apply bytes_leb_false in E. rewrite decide_True by done. by rewrite IH.
Qed.

Lemma filter_sorted (P : entry → Prop) `{!∀ e, Decision (P e)} (es : list entry) :
  StronglySorted (λ a b, bytes_lt a.1 b.1) es → StronglySorted (λ a b, bytes_lt a.1 b.1) (filter P es).
Proof.
  induction 1 as [|e es Hs IH He]; [constructor|]. rewrite filter_cons. case_decide; [|done].
  constructor; [done|]. rewrite Forall_forall in *. intros x [_ Hx]%list_elem_of_filter. auto.
Qed.

(** The scan of a half-open range. *)
Lemma scan_range_elem (m : M) lo hi es :
  scan_from m lo (λ key, bytes_leb hi key) = Ok es →
  ∀ k, k ∈ es.*1 ↔ bytes_le lo k ∧ bytes_lt k hi ∧ ∃ v, (k, v) ∈ kv_entries m.
Proof.
  rewrite scan_from_spec. intros [= <-] k.
  rewrite take_while_below by (apply filter_sorted, kv_sorted).
  rewrite list_elem_of_fmap. split.
  - intros ([k' v] & -> & [Hlt [Hle Hin]%list_elem_of_filter]%list_elem_of_filter). eauto.
  - intros (Hle & Hlt & v & Hin). exists (k, v). split; [done|]. by rewrite !list_elem_of_filter.
Qed.

(** ** Batches of deletes *)

Lemma apply_batch_app (b1 b2 : list write_op) d : apply_batch (b1 ++ b2) d = apply_batch b2 (apply_batch b1 d).
Proof. apply fold_left_app. Qed.

Lemma apply_deletes_get c keys d c' k :
  kv_get (apply_batch (Del c <$> keys) d c') k
  = if decide (c' = c ∧ k ∈ keys) then None else kv_get (d c') k.
Proof.
  revert d; induction keys as [|key keys IH]; intros d; simpl.
  - rewrite decide_False; [done|]. intros [_ ?%elem_of_nil]. done.
  - change (apply_batch _ _) with (apply_batch (Del c <$> keys) (apply_op (Del c key) d)).
    rewrite IH. unfold apply_op. simpl. destruct (decide (c = c')) as [->|Hne].
    + rewrite kv_get_delete. destruct (decide (key = k)) as [->|Hk].
      * rewrite (decide_True (P:=c' = c' ∧ k ∈ k :: keys)) by (split; [done|lmem]). by case_decide.
      * apply decide_ext. rewrite elem_of_cons. naive_solver.
    + rewrite !decide_False by naive_solver. done.
Qed.

Lemma apply_batch_other (b : list write_op) d c : (∀ o, o ∈ b → op_cf o ≠ c) → apply_batch b d c = d c.
Proof.
  revert d; induction b as [|o b IH]; intros d Ho; [done|].
  change (apply_batch (o :: b) d) with (apply_batch b (apply_op o d)). rewrite IH.
  - unfold apply_op. rewrite decide_False; [done|]. apply Ho. lmem.
  - intros o' Ho'. apply Ho. lmem.
Qed.

(** [purge_table] removes the keys in the range of the table and both markers. *)
Lemma purge_table_spec d id : ∃ d', purge_table d id = Ok d' ∧ ∀ c k,
  kv_get (d' c) k =
    match c with
    | CF_TABLES => if decide (bytes_le (id ++ [0]) k ∧ bytes_lt k (id ++ [255])) then None else kv_get (d c) k
    | CF_DELETED_TABLES | CF_DIRTY_TABLES => if decide (k = id) then None else kv_get (d c) k
    | _ => kv_get (d c) k
    end.
Proof.
  unfold purge_table.
  destruct (factory_push_spec id (factory_new id) 0 (factory_new_for id)) as [E0 _].
  destruct (factory_push_spec id (factory_new id) 255 (factory_new_for id)) as [E1 _].
  unfold factory_start, factory_end. rewrite E0, E1.
  destruct (scan_from _ _ _) as [es| |] eqn:Es; [|by rewrite scan_from_spec in Es..].
  cbn [mbind res_bind]. eexists; split; [done|]. intros c k.
  pose proof (scan_range_elem _ _ _ _ Es k) as Hk.
  rewrite apply_batch_app. set (d1 := apply_batch (Del CF_TABLES <$> es.*1) d).
  assert (Hd1 : ∀ c k, kv_get (d1 c) k = if decide (c = CF_TABLES ∧ k ∈ es.*1) then None else kv_get (d c) k)
    by (intros; apply apply_deletes_get).
  unfold apply_batch. cbn [fold_left]. unfold apply_op; simpl.
  destruct c; simpl; rewrite ?kv_get_delete, Hd1, ?(decide_False (P := _ = CF_TABLES ∧ _)) by naive_solver;
    try done; try (by apply decide_ext).
  destruct (decide (bytes_le _ _ ∧ _)) as [Hr|Hr].
  - case_decide as Hin; [done|]. apply kv_get_None. intros v Hv. apply Hin. split; [done|].
    apply Hk. destruct Hr. eauto.
  - rewrite decide_False; [done|]. intros [_ Hin%Hk]. naive_solver.
Qed.

(** A key in the range of one of the tables. *)
Definition in_tables (ids : list TableId) (k : bytes) : Prop :=
  Exists (λ id, bytes_le (id ++ [0]) k ∧ bytes_lt k (id ++ [255])) ids.
#[local] Instance in_tables_dec ids k : Decision (in_tables ids k).
Proof. apply _. Defined.

(** The lookups of the state after the tables [ids] were purged. *)
Definition purged (ids : list TableId) d (c : cf) (k : bytes) : option bytes :=
  match c with
  | CF_TABLES => if decide (in_tables ids k) then None else kv_get (d c) k
  | CF_DELETED_TABLES | CF_DIRTY_TABLES => if decide (k ∈ ids) then None else kv_get (d c) k
  | _ => kv_get (d c) k
  end.

Lemma purge_tables_spec ids : ∀ d, ∃ d', purge_tables ids d = (d', Ok tt) ∧
  ∀ c k, kv_get (d' c) k = purged ids d c k.
Proof.
  induction ids as [|id ids IH]; intros d; simpl.
  - exists d. split; [done|]. intros [] k; simpl; try done; by rewrite decide_False.
  - destruct (purge_table_spec d id) as (d1 & -> & H1). destruct (IH d1) as (d2 & -> & H2).
    exists d2. split; [done|]. intros c k. rewrite H2. destruct c; simpl; rewrite ?H1; try done.
    + destruct (decide (in_tables ids k)) as [Hi|Hi].
      * rewrite decide_True; [done|]. by right.
      * apply decide_ext. unfold in_tables in *. rewrite Exists_cons. tauto.
    + destruct (decide (k ∈ ids)) as [Hi|Hi]; [by rewrite decide_True by lmem|].
      apply decide_ext. rewrite elem_of_cons. tauto.
    + destruct (decide (k ∈ ids)) as [Hi|Hi]; [by rewrite decide_True by lmem|].
      apply decide_ext. rewrite elem_of_cons. tauto.
Qed.

Lemma split_table_ids_spec keys :
  split_table_ids keys = (filter (λ k, length k = 16%nat) keys, filter (λ k, length k ≠ 16%nat) keys).
Proof.
  induction keys as [|k keys IH]; [done|]. simpl. rewrite IH, !filter_cons. unfold try_from_key.
  destruct (Nat.eqb_spec (length k) 16); repeat case_decide; try done.
Qed.

Lemma scan_table_ids_spec d c : scan_table_ids d c
  = Ok (filter (λ k, length k = 16%nat) (kv_entries (d c)).*1,
        filter (λ k, length k ≠ 16%nat) (kv_entries (d c)).*1).
Proof. unfold scan_table_ids. rewrite scan_all_spec. simpl. by rewrite split_table_ids_spec. Qed.

Lemma drop_malformed_get d c keys c' k :
  kv_get (drop_malformed_keys d c keys c') k
  = if decide (c' = c ∧ k ∈ keys) then None else kv_get (d c') k.
Proof.
  rewrite <-apply_deletes_get. unfold drop_malformed_keys. by destruct keys.
Qed.

(** The ids a bookkeeping family marks. *)
Definition marked d (c : cf) : list TableId :=
  filter (λ k, length k = 16%nat) (kv_entries (d c)).*1.

Lemma marked_elem d c id : id ∈ marked d c ↔ length id = 16%nat ∧ is_Some (kv_get (d c) id).
Proof.
  unfold marked. rewrite list_elem_of_filter, list_elem_of_fmap. split.
  - intros (Hl & [k v] & -> & Hin). split; [done|]. exists v. by apply kv_get_entries.
  - intros (Hl & v & Hv). split; [done|]. exists (id, v). split; [done|]. by apply kv_get_entries.
Qed.

Lemma in_tables_key ids id k : Forall (λ i, length i = 16%nat) ids → length id = 16%nat →
  in_tables ids (table_key id k) ↔ id ∈ ids.
Proof.
  intros Hall Hl. unfold in_tables. rewrite Exists_exists. rewrite Forall_forall in Hall. split.
  - intros (i & Hi & Hr). assert (id = i) as ->; [|done].
    by apply (table_key_in_range_len i id k (Hall _ Hi) Hl).
  - intros Hi. exists id. split; [done|]. by apply (table_key_in_range_len id id k).
Qed.

(** Both cleanups: every well-formed mark is acted on, every mark is gone, and nothing
    else changes. *)
Lemma purge_marked_spec d c : c = CF_DELETED_TABLES ∨ c = CF_DIRTY_TABLES →
  ∃ d', purge_marked c d = (d', Ok (length (marked d c))) ∧
    kv_entries (d' c) = [] ∧
    (∀ id k, length id = 16%nat → kv_get (d' CF_TABLES) (table_key id k)
       = if decide (id ∈ marked d c) then None else kv_get (d CF_TABLES) (table_key id k)) ∧
    (∀ c' k, c' ≠ CF_TABLES → c' ≠ c → kv_get (d' c') k
       = if decide ((c' = CF_DELETED_TABLES ∨ c' = CF_DIRTY_TABLES) ∧ k ∈ marked d c) then None
         else kv_get (d c') k).
Proof.
  intros Hc. unfold purge_marked. rewrite scan_table_ids_spec. fold (marked d c).
  set (mal := filter _ _). destruct (purge_tables_spec (marked d c) (drop_malformed_keys d c mal))
    as (d' & -> & Hd'). exists d'. split; [done|].
  assert (Hlen : Forall (λ i, length i = 16%nat) (marked d c))
    by (apply Forall_forall; intros i [? _]%marked_elem; done).
  split_and!.
  - destruct (kv_entries (d' c)) as [|[k v] es] eqn:E; [done|exfalso].
    assert (Hk : kv_get (d' c) k = Some v) by (apply kv_get_entries; rewrite E; lmem).
    assert (Hp : purged (marked d c) (drop_malformed_keys d c mal) c k
      = if decide (k ∈ marked d c) then None else kv_get (drop_malformed_keys d c mal c) k)
      by (by destruct Hc as [-> | ->]).
    rewrite Hd', Hp, drop_malformed_get in Hk. clear Hp. repeat case_decide; try done.
    assert (k ∈ marked d c ∨ k ∈ mal); [|naive_solver].
    destruct (decide (length k = 16%nat)) as [Hl|Hl]; [left; apply marked_elem; eauto|right].
    apply list_elem_of_filter. split; [done|]. apply list_elem_of_fmap. exists (k, v).
    split; [done|]. by apply kv_get_entries.
  - intros id k Hl. rewrite Hd'. simpl. rewrite drop_malformed_get.
    rewrite (decide_False (P := CF_TABLES = c ∧ _)) by (intros [<- _]; naive_solver).
    apply decide_ext. by apply in_tables_key.
  - intros c' k Ht Hne. rewrite Hd'. unfold purged. rewrite drop_malformed_get.
    rewrite (decide_False (P := c' = c ∧ _)) by naive_solver.
    destruct c'; try done; try (rewrite decide_False by naive_solver; done);
      apply decide_ext; naive_solver.
Qed.

(** ** The reclaim watermark *)

Definition live_tables d : list TableId :=
  kv_entries (d CF_CHUNKS) ≫= λ e, match chunk_from_slice e.2 with Some c => (tables c).*2 | None => [] end.

Lemma watermark_min_step (min : option TableId) seen ids :
  match min with
  | Some m => m ∈ seen ∧ ∀ x, x ∈ seen → bytes_le m x
  | None => seen = []
  end →
  match watermark (option_list min) ids with
  | Some m => m ∈ seen ++ ids ∧ ∀ x, x ∈ seen ++ ids → bytes_le m x
  | None => seen ++ ids = []
  end.
Proof.
  intros Hs. pose proof (watermark_spec (option_list min) ids) as Hw.
  destruct (watermark (option_list min) ids) as [m|].
  - destruct Hw as [Hm Hle]. destruct min as [m0|]; simpl in *.
    + destruct Hs as [H0 Hs]. split; [set_solver|]. intros x [Hx|Hx]%elem_of_app.
      * eapply bytes_le_trans; [apply Hle; lmem|auto].
      * apply Hle. lmem.
    + by subst.
  - destruct min; [done|]. by subst.
Qed.

Lemma min_live_chunks es : ∀ min seen r,
  match min with
  | Some m => m ∈ seen ∧ ∀ x, x ∈ seen → bytes_le m x
  | None => seen = []
  end →
  fold_res (λ min (e : entry), chunk ← ok_or (chunk_from_slice e.2) (EStorage "borsh");
              Ok (watermark (option_list min) (tables chunk).*2)) es min = Ok r →
  let all := seen ++ (es ≫= λ e, match chunk_from_slice e.2 with Some c => (tables c).*2 | None => [] end) in
  match r with Some m => m ∈ all ∧ ∀ x, x ∈ all → bytes_le m x | None => all = [] end.
Proof.
  induction es as [|e es IH]; intros min seen r Hs Ho; simpl in Ho.
  - injection Ho as <-. simpl. by rewrite app_nil_r.
  - inv_res Ho. inv_res Hv. apply ok_or_Ok in Hv0. cbn [mbind list_bind]. rewrite Hv0.
    change (foldr _ _ es) with (es ≫= λ e : entry, match chunk_from_slice e.2 with Some c => (tables c).*2 | None => [] end).
    rewrite (assoc_L (++)). eapply IH; [|exact Ho]. by apply watermark_min_step.
Qed.

Lemma min_live_table_id_spec d m : min_live_table_id d = Ok m →
  let all := live_tables d ++ marked d CF_DIRTY_TABLES in
  match m with Some m => m ∈ all ∧ ∀ x, x ∈ all → bytes_le m x | None => all = [] end.
Proof.
  unfold min_live_table_id. rewrite scan_all_spec. intros Ho. cbn [mbind res_bind] in Ho. inv_res Ho.
  rewrite scan_table_ids_spec in Hv0. fold (marked d CF_DIRTY_TABLES) in Hv0.
  injection Hv0 as <-. injection Ho as <-. apply watermark_min_step.
  exact (min_live_chunks _ None [] _ eq_refl Hv).
Qed.
End facts.

(** [Database::cleanup] (and the orphan sweep at startup) is exact: it succeeds,
    reports the number of well-formed marks, leaves no mark behind, removes all data
    of every marked table and of no other table, and changes no other entry of the
    database except marks of the same tables. *)
Theorem cleanup_exact {M C : Type} `{KvStoreLaws M C} (d : db M) (c : cf) :
  c = CF_DELETED_TABLES ∨ c = CF_DIRTY_TABLES →
  ∃ d', (if decide (c = CF_DELETED_TABLES) then logical_cleanup d else purge_orphan_dirty_tables d)
        = (d', Ok (length (marked d c))) ∧
    kv_entries (d' c) = [] ∧
    (∀ id k, length id = 16%nat → kv_get (d' CF_TABLES) (table_key id k)
       = if decide (id ∈ marked d c) then None else kv_get (d CF_TABLES) (table_key id k)) ∧
    (∀ c' k, c' ≠ CF_TABLES → c' ≠ c → kv_get (d' c') k
       = if decide ((c' = CF_DELETED_TABLES ∨ c' = CF_DIRTY_TABLES) ∧ k ∈ marked d c) then None
         else kv_get (d c') k).
Proof.
  intros Hc. destruct (purge_marked_spec d c Hc) as (d' & E & Hd'). exists d'. split; [|done].
  rewrite <-E. destruct Hc as [-> | ->]; [by rewrite decide_True|by rewrite decide_False].
Qed.

(** C27: [Database::reclaim_disk_space] is safe: whenever the watermark is computed, an
    SST that [DeleteFilesInRange] unlinks under the resulting bound contains no key of
    a table that a stored chunk references or that a dirty marker protects. *)
Theorem reclaim_disk_space_safe {M C : Type} `{KvStoreLaws M C} `{BorshLaws} (d : db M)
    (lo hi : bytes) (level : Z) (end_key key : bytes) (id : TableId) (k : TableKey) :
  reclaim_disk_space d = Ok (lo, hi) →
  Forall (λ i, length i = 16%nat) (live_tables d) →
  id ∈ live_tables d ++ marked d CF_DIRTY_TABLES →
  sst_is_unlinkable level (Some end_key) hi = true → bytes_le key end_key →
  key ≠ table_key id k.
Proof.
  unfold reclaim_disk_space. intros Ho Hlen Hin Hu Hle. inv_res Ho.
  pose proof (min_live_table_id_spec d v Hv) as Hm. simpl in Hm.
  assert (Hall : ∀ i, i ∈ live_tables d ++ marked d CF_DIRTY_TABLES → length i = 16%nat).
  { rewrite Forall_forall in Hlen. intros i [Hi|[? _]%marked_elem]%elem_of_app; auto. }
  destruct v as [m|]; [|rewrite Hm in Hin; by apply elem_of_nil in Hin].
  destruct Hm as [Hmin Hmle].
  apply (unlinkable_below m level end_key key id k); auto.
Qed.

Module CleanupExamples.
Import Mem.

Definition ta : TableId := replicate 16 1.
Definition tb : TableId := replicate 16 2.
(** Table [ta] is marked for deletion, [tb] is referenced by a chunk; the mark [9] is
    malformed. *)
Definition cdb : mdb := λ c,
  match c with
  | CF_CHUNKS => with_entries (chunk_entries d0 [with_blocks 0 1 "p" "b" tb])
  | CF_TABLES => with_entries [(table_key ta Key_Schema, [7]); (table_key tb Key_Schema, [8])]
  | CF_DELETED_TABLES => with_entries [(ta, []); ([9], [])]
  | _ => kv_empty
  end.

Lemma cleanup_exact_witness :
  ∃ d', logical_cleanup cdb = (d', Ok 1%nat) ∧ kv_entries (d' CF_DELETED_TABLES) = [] ∧
    kv_get (d' CF_TABLES) (table_key ta Key_Schema) = None ∧
    kv_get (d' CF_TABLES) (table_key tb Key_Schema) = Some [8].
Proof.
  destruct (cleanup_exact cdb CF_DELETED_TABLES (or_introl eq_refl)) as (d' & E & A & B & _).
  exists d'. split; [exact E|]. split; [exact A|].
  split; [exact (B ta Key_Schema eq_refl)|exact (B tb Key_Schema eq_refl)].
Defined.

Lemma reclaim_disk_space_safe_witness : table_key ta (Key_Page 0 0) ≠ table_key tb Key_Schema.
Proof.
  apply (reclaim_disk_space_safe cdb RECLAIM_LOWER_BOUND tb 1 (table_key ta (Key_Page 9 9))).
  - reflexivity.
  - vm_compute. repeat constructor.
  - assert (live_tables cdb = [tb]) as -> by (vm_compute; reflexivity). left.
  - reflexivity.
  - vm_compute. discriminate.
Defined.
End CleanupExamples.
