(* ===== verification/Db.v ===== *)
(** * Db: the database operations and snapshot reads

    Models [Database] of crates/storage/src/db/db.rs, the point reads of
    crates/storage/src/db/read/snapshot.rs and the dataset listing of
    crates/storage/src/db/read/datasets.rs.

    A transaction of an operation runs in an environment that depends on the state
    it starts from ([env d n] is attempt [n] of a run started on [d]); the lifecycle
    lock makes CREATE and DROP exclude each other, so their steps are composed in
    sequence. *)

From S2P Require Import Prelude Bytes Data Kv ChunkIter Tables Chain Tx Concrete.
From S2P Require Import TxSpec UpdateSpec Retry Cleanup.

(** The fields of [Database] the operations read. *)
Record Database : Type := mkDatabase {
  db_block_hash_index : bool;
  db_transaction_hash_index : bool;
  db_tx_retry_policy : RetryPolicy
}.

Section database.
Context {M C T : Type} `{KvStore M C} `{Borsh} `{TableReader T} `{TableStore M T}.
Context (env : db M → nat → attempt_env M) (counters : tx_counters).

(** [Tx::with_retry_policy(&self.db, policy)...run(cb)] on the state [d]. *)
Definition exec {R} (p : RetryPolicy) (bh th : bool) (cb : Tx M → res (R * Tx M)) (d : db M)
  : db M * res R :=
  match run (run_fuel p) p bh th cb (env d) counters with
  | Some o => (out_db o, out_result o)
  | None => (d, Panic "out of fuel")
  end.

(** ** Snapshot reads *)

Definition get_label (d : db M) (id : DatasetId) : res (option DatasetLabel) :=
  match kv_get (d CF_DATASETS) id with
  | Some bs => label ← ok_or (label_from_slice bs) (EStorage "borsh"); Ok (Some label)
  | None => Ok None
  end.

Definition has_dataset (d : db M) (id : DatasetId) : bool :=
  bool_decide (is_Some (kv_get (d CF_DATASETS) id)).

Definition get_first_chunk (d : db M) (id : DatasetId) : res (option Chunk) :=
  first_item (list_chunks (d CF_CHUNKS) id 0 None).
Definition get_last_chunk (d : db M) (id : DatasetId) : res (option Chunk) :=
  first_item (list_chunks_rev (d CF_CHUNKS) id 0 None).

Definition find_block_by_hash (d : db M) (id : DatasetId) (hash : string) : res (option BlockRef) :=
  if negb (has_dataset d id) then Ok None
  else
    match kv_get (d CF_BLOCK_HASHES) (hash_index_key id (str_bytes hash)) with
    | None => Ok None
    | Some bs =>
        if (length bs =? 8)%nat then Ok (Some (mkBlockRef (from_be_bytes bs) hash))
        else Err (EMsg "CF_BLOCK_HASHES value has unexpected length, expected 8 bytes")
    end.

(** [TransactionRef] (crates/primitives/src/types.rs) *)
Record TransactionRef : Type := mkTransactionRef {
  tr_block_number : Z;
  tr_transaction_index : Z;
  tr_hash : string
}.

Definition find_transaction_by_hash (d : db M) (id : DatasetId) (hash : string)
  : res (option TransactionRef) :=
  if negb (has_dataset d id) then Ok None
  else
    match kv_get (d CF_TRANSACTION_HASHES) (hash_index_key id (str_bytes hash)) with
    | None => Ok None
    | Some bs =>
        if (length bs =? 12)%nat then
          Ok (Some (mkTransactionRef (from_be_bytes (take 8 bs)) (from_be_bytes (drop 8 bs)) hash))
        else Err (EMsg "CF_TRANSACTION_HASHES value has unexpected length, expected 12 bytes")
    end.

(** [list_all_datasets(cursor).collect()]: a key is a borsh-encoded [DatasetId]. *)
Definition get_all_datasets (d : db M) : res (list (DatasetId * DatasetLabel)) :=
  es ← scan_all (d CF_DATASETS);
  collect ((λ e : entry,
    id ← (if (length e.1 =? 48)%nat then sid_deserialize e.1
          else Err (EMsg "invalid key in datasets CF"));
    label ← ok_or (label_from_slice e.2) (EMsg "invalid dataset label");
    Ok (id, label)) <$> es).

(** ** Purging index entries *)

Definition BATCH_SIZE : Z := 10000.

Fixpoint purge_index_loop (fuel : nat) (c : cf) (end_ : bytes) (cursor : C)
    (batch : list write_op) (d : db M) : db M * res unit :=
  match fuel with
  | O => (d, Panic "out of fuel")
  | S fuel =>
      if (cur_is_valid cursor && bytes_ltb (cur_key cursor) end_)%bool then
        let batch := batch ++ [Del c (cur_key cursor)] in
        let '(d, batch) :=
          if BATCH_SIZE <=? Z.of_nat (length batch) then (apply_batch batch d, []) else (d, batch) in
        match cur_next cursor with
        | Ok cursor => purge_index_loop fuel c end_ cursor batch d
        | Err e => (d, Err e)
        | Panic m => (d, Panic m)
        end
      else (match batch with [] => d | _ => apply_batch batch d end, Ok tt)
  end.

Definition purge_hash_index (c : cf) (id : DatasetId) (d : db M) : db M * res unit :=
  let '(start, end_) := dataset_range id in
  match cur_seek start (kv_cursor (d c)) with
  | Ok cursor => purge_index_loop (S (length (kv_entries (d c)))) c end_ cursor [] d
  | Err e => (d, Err e)
  | Panic m => (d, Panic m)
  end.

(** [x?; y] for steps that write as they go. *)
Definition then_ {A B} (step : db M * res A) (k : A → db M → db M * res B) : db M * res B :=
  match step with
  | (d, Ok a) => k a d
  | (d, Err e) => (d, Err e)
  | (d, Panic m) => (d, Panic m)
  end.

Definition purge_hash_indexes (id : DatasetId) (d : db M) : db M * res unit :=
  then_ (purge_hash_index CF_BLOCK_HASHES id d) (λ _, purge_hash_index CF_TRANSACTION_HASHES id).

Definition purge_stale_hash_indexes_if_dataset_absent (id : DatasetId) (d : db M) : db M * res unit :=
  if negb (has_dataset d id) then purge_hash_indexes id d else (d, Ok tt).

(** ** CREATE *)

Definition create_dataset_tx (id : DatasetId) (kind : DatasetKind) (tx : Tx M) : res (unit * Tx M) :=
  '(label, tx) ← find_label_for_update id tx;
  _ ← ensure (bool_decide (label = None)) (EMsg "dataset already exists");
  Ok (tt, write_label id (LabelV0 kind 0 None) tx).

Definition create_dataset (D : Database) (id : DatasetId) (kind : DatasetKind) (d : db M)
  : db M * res unit :=
  then_ (purge_stale_hash_indexes_if_dataset_absent id d) (λ _,
    exec (db_tx_retry_policy D) false false (create_dataset_tx id kind)).

Definition create_dataset_if_not_exists_tx (id : DatasetId) (kind : DatasetKind) (tx : Tx M)
  : res (unit * Tx M) :=
  '(label, tx) ← find_label_for_update id tx;
  match label with
  | Some label =>
      _ ← ensure (bool_decide (label_kind label = kind))
            (EMsg "wanted to create dataset, but it already exists with another kind");
      Ok (tt, tx)
  | None => Ok (tt, write_label id (LabelV0 kind 0 None) tx)
  end.

Definition create_dataset_if_not_exists (D : Database) (id : DatasetId) (kind : DatasetKind)
    (d : db M) : db M * res unit :=
  then_ (purge_stale_hash_indexes_if_dataset_absent id d) (λ _,
    exec (db_tx_retry_policy D) false false (create_dataset_if_not_exists_tx id kind)).

(** ** UPDATE *)

Definition update_dataset_tx {R} (id : DatasetId)
    (cb : DatasetUpdate M → res (R * DatasetUpdate M)) (tx : Tx M) : res (R * Tx M) :=
  upd ← update_new tx id;
  '(result, upd) ← cb upd;
  Ok (result, upd_finish upd).

Definition update_dataset {R} (D : Database) (id : DatasetId)
    (cb : DatasetUpdate M → res (R * DatasetUpdate M)) (d : db M) : db M * res R :=
  exec (db_tx_retry_policy D) (db_block_hash_index D) (db_transaction_hash_index D)
    (update_dataset_tx id cb) d.

Definition db_insert_chunk (D : Database) (id : DatasetId) (chunk : Chunk) (d : db M)
  : db M * res unit :=
  update_dataset D id (λ u, u ← upd_insert_chunk chunk u; Ok (tt, u)) d.
Definition db_insert_fork (D : Database) (id : DatasetId) (chunk : Chunk) (d : db M)
  : db M * res unit :=
  update_dataset D id (λ u, u ← upd_insert_fork chunk u; Ok (tt, u)) d.

(** ** DROP *)

Definition delete_dataset_tx (id : DatasetId) (tx : Tx M) : res (unit * Tx M) :=
  '(label, tx) ← find_label_for_update id tx;
  match label with
  | None => Ok (tt, tx)
  | Some _ =>
      tx ← fold_res (λ tx r, chunk ← r; Ok (delete_chunk id chunk tx)) (tx_list_chunks id 0 None tx) tx;
      Ok (tt, delete_label id tx)
  end.

Definition delete_dataset (D : Database) (id : DatasetId) (d : db M) : db M * res unit :=
  then_ (exec (db_tx_retry_policy D) false false (delete_dataset_tx id) d) (λ _ d,
  then_ (purge_hash_indexes id d) (λ _ d,
  then_ (logical_cleanup d) (λ _ d, (d, Ok tt)))).

Definition delete_tables (D : Database) (ids : list TableId) (d : db M) : db M * res unit :=
  exec (db_tx_retry_policy D) false false
    (λ tx, Ok (tt, fold_left (λ tx id, delete_table id tx) ids tx)) d.
End database.
