(* ===== verification/DbSpec.v ===== *)
(** * DbSpec: the promises of the database operations

    CREATE, DROP and UPDATE as a client of crates/storage sees them: a dropped
    dataset leaves nothing behind, a new incarnation of an id starts clean, and
    updates of one dataset are serializable although chunk reads do not join the
    conflict check, because every update reads and bumps the label. *)

From S2P Require Import Prelude Bytes Data Kv ChunkIter Tables Chain Tx Concrete.
From S2P Require Import TxSpec UpdateSpec Retry Cleanup Db.

Section facts.
Context {M C T : Type} `{HK : KvStore M C} `{HL : !KvStoreLaws M C}
  `{HB : Borsh} `{HBL : !BorshLaws} `{HT : TableReader T} `{HS : !TableStore M T}.
Implicit Types (d : db M) (id : DatasetId).

(** ** Purging the hash index of a dataset *)

Lemma purge_index_loop_spec c end_ fuel : ∀ (cur : C) batch d,
  (match cur_pos cur with Some i => length (cur_entries cur) - i | None => 0 end < fuel)%nat →
  StronglySorted (λ a b, bytes_lt a.1 b.1) (cur_entries cur) →
  ∃ d', purge_index_loop fuel c end_ cur batch d = (d', Ok tt) ∧
    ∀ c' k, kv_get (d' c') k = kv_get (apply_batch (batch ++ (Del c <$>
      (filter (λ e, bytes_lt e.1 end_)
         (match cur_pos cur with Some i => drop i (cur_entries cur) | None => [] end)).*1)) d c') k.
Proof.
  induction fuel as [|fuel IH]; intros cur batch d Hf Hs; [lia|]. cbn [purge_index_loop].
  assert (Hdone : ∃ d', (match batch with [] => d | _ => apply_batch batch d end, Ok tt) = (d', Ok tt) ∧
    ∀ c' k, kv_get (d' c') k = kv_get (apply_batch (batch ++ (Del c <$> @nil bytes)) d c') k).
  { eexists; split; [done|]. intros c' k. rewrite app_nil_r. by destruct batch. }
  rewrite cur_valid_iff. destruct (cur_pos cur) as [i|] eqn:Hp; [|exact Hdone].
  rewrite bool_decide_true by eauto. pose proof (cur_at _ _ Hp) as Hat.
  rewrite (drop_S _ _ _ Hat), filter_cons. cbn [andb fst].
  destruct (bytes_ltb (cur_key cur) end_) eqn:Hlt; cycle 1.
  { assert (Hge : ∀ e, e ∈ (cur_key cur, cur_value cur) :: drop (S i) (cur_entries cur) →
      ¬ bytes_lt e.1 end_).
    { apply not_true_iff_false in Hlt. rewrite bytes_ltb_spec in Hlt.
      intros e [->|He]%elem_of_cons He'; [done|]. apply Hlt. eapply bytes_lt_trans; [|exact He'].
      rewrite <-(take_drop (S i) (cur_entries cur)) in Hs.
      rewrite (take_S_r _ _ _ Hat), <-app_assoc in Hs.
      clear -Hs He. induction (take i (cur_entries cur)) as [|a l IHl]; simpl in Hs.
      - by apply (StronglySorted_elem _ _ _ Hs e).
      - apply StronglySorted_inv in Hs as [Hs _]. auto. }
    rewrite decide_False by (apply (Hge (cur_key cur, cur_value cur)); lmem).
    rewrite list_filter_none by (intros e He; apply Hge; lmem). exact Hdone. }
  apply bytes_ltb_spec in Hlt. rewrite decide_True by done.
  destruct (cur_next_spec cur i Hp) as (cur' & Hn & He & Hp').
  set (batch1 := batch ++ [Del c (cur_key cur)]).
  assert (Hrest : match cur_pos cur' with Some j => drop j (cur_entries cur') | None => [] end
                  = drop (S i) (cur_entries cur)).
  { rewrite Hp', He. case_decide; [done|]. symmetry. apply drop_ge. lia. }
  assert (Hfuel : (match cur_pos cur' with Some j => length (cur_entries cur') - j | None => 0 end < fuel)%nat).
  { apply lookup_lt_Some in Hat. rewrite Hp', He. case_decide; lia. }
  rewrite <-He in Hs.
  destruct (BATCH_SIZE <=? Z.of_nat (length batch1)); rewrite Hn.
  - destruct (IH cur' [] (apply_batch batch1 d) Hfuel Hs) as (d' & E & Hd'). exists d'. split; [exact E|].
    intros c' k. rewrite Hd', Hrest. simpl. rewrite <-apply_batch_app. unfold batch1.
    by rewrite <-app_assoc.
  - destruct (IH cur' batch1 d Hfuel Hs) as (d' & E & Hd'). exists d'. split; [exact E|].
    intros c' k. rewrite Hd', Hrest. unfold batch1. by rewrite <-app_assoc.
Qed.

(** Whatever the batch size, the purge removes exactly the keys of the dataset. *)
Lemma purge_hash_index_spec c id d : dataset_id_ok id →
  ∃ d', purge_hash_index c id d = (d', Ok tt) ∧
    ∀ c' k, kv_get (d' c') k =
      if decide (c' = c ∧ bytes_le id k ∧ bytes_lt k (prefix_upper_bound id)) then None
      else kv_get (d c') k.
Proof.
  intros Hid. unfold purge_hash_index, dataset_range.
  destruct (cur_seek_spec id (kv_cursor (d c))) as (cur & -> & He & Hp). rewrite cur_new in *.
  destruct (purge_index_loop_spec c (prefix_upper_bound id) (S (length (kv_entries (d c)))) cur [] d)
    as (d' & E & Hd').
  - rewrite He. destruct (cur_pos cur); lia.
  - rewrite He. apply kv_sorted.
  - exists d'. split; [exact E|]. intros c' k. rewrite Hd', He, Hp. simpl.
    rewrite first_index_filter by apply kv_sorted. rewrite apply_deletes_get.
    destruct (decide (c' = c ∧ bytes_le id k ∧ bytes_lt k (prefix_upper_bound id))) as [[-> Hr]|Hr].
    + case_decide as Hk; [done|]. apply kv_get_None. intros v Hv. apply Hk. split; [done|].
      apply list_elem_of_fmap. exists (k, v). split; [done|]. rewrite !list_elem_of_filter. naive_solver.
    + rewrite decide_False; [done|]. intros [-> Hk]. apply Hr. split; [done|].
      apply list_elem_of_fmap in Hk as ([k' v] & -> & Hk). rewrite !list_elem_of_filter in Hk. naive_solver.
Qed.

(** No entry of the dataset is left in an index family. *)
Definition index_clean (id : DatasetId) (d : db M) : Prop :=
  ∀ c h, c ∈ index_cfs → kv_get (d c) (hash_index_key id h) = None.

Lemma key_in_range id h : dataset_id_ok id →
  bytes_le id (hash_index_key id h) ∧ bytes_lt (hash_index_key id h) (prefix_upper_bound id).
Proof.
  intros Hid. unfold hash_index_key.
  pose proof (prefix_upper_bound_nonempty _ (dataset_id_not_full _ Hid)) as Hne.
  pose proof (dataset_id_bytes_ok _ Hid) as Hb. split.
  - unfold bytes_le. rewrite <-(app_nil_r id) at 1. rewrite bytes_cmp_app. by destruct h.
  - by apply prefix_lt_upper_bound.
Qed.

Lemma purge_hash_indexes_spec id d : dataset_id_ok id →
  ∃ d', purge_hash_indexes id d = (d', Ok tt) ∧ index_clean id d' ∧
    (∀ c k, c ∉ index_cfs → kv_get (d' c) k = kv_get (d c) k) ∧
    (∀ c id' h, dataset_id_ok id' → id' ≠ id → bytes_ok h →
       kv_get (d' c) (hash_index_key id' h) = kv_get (d c) (hash_index_key id' h)).
Proof.
  intros Hid. unfold purge_hash_indexes.
  destruct (purge_hash_index_spec CF_BLOCK_HASHES id d Hid) as (d1 & -> & H1). simpl.
  destruct (purge_hash_index_spec CF_TRANSACTION_HASHES id d1 Hid) as (d2 & -> & H2).
  exists d2. split; [done|]. split_and!.
  - intros c h Hc. unfold index_cfs in Hc. pose proof (key_in_range id h Hid).
    rewrite H2. case_decide as Hn; [done|]. rewrite H1. rewrite decide_True; [done|]. set_solver.
  - intros c k Hc. unfold index_cfs in Hc. rewrite H2, decide_False by set_solver.
    rewrite H1, decide_False by set_solver. done.
  - intros c id' h Hid' Hne Hh.
    assert (Hout : ¬ (bytes_le id (hash_index_key id' h) ∧ bytes_lt (hash_index_key id' h) (prefix_upper_bound id))).
    { intros Hr. assert (bytes_ok (hash_index_key id' h)) as Hk
        by (unfold hash_index_key; apply Forall_app; split; [by apply dataset_id_bytes_ok|done]).
      pose proof (prefix_upper_bound_nonempty _ (dataset_id_not_full _ Hid)) as Hnn.
      destruct (prefix_range_iff id _ (dataset_id_bytes_ok _ Hid) Hk) as [_ Hp].
      destruct Hp as [h' E]; [destruct (prefix_upper_bound id); [done|exact Hr]|].
      unfold hash_index_key in E. apply app_inj_1 in E as [E _]; [done|].
      by rewrite !dataset_id_length. }
    rewrite H2, decide_False by naive_solver. rewrite H1, decide_False by naive_solver. done.
Qed.

(** ** Quiet environments: no other writer during the operation *)

Definition quiet (env : db M → nat → attempt_env M) : Prop :=
  ∀ d n, env_open (env d n) = d ∧ env_commit (env d n) = d.

Lemma exec_spec {R} env counters p bh th (cb : Tx M → res (R * Tx M)) d d' r :
  quiet env → exec env counters p bh th cb d = (d', r) →
  match r with
  | Ok a => ∃ tx, cb (tx_begin d bh th) = Ok (a, tx) ∧ d' = apply_batch (tx_batch tx) d
  | _ => d' = d
  end.
Proof.
  intros Hq. unfold exec, run, run_with_hash_index_metrics.
  destruct (run_loop_ends p bh th cb (env d) (run_fuel p) 0 metrics_default counters [])
    as (o & i & E & (_ & _ & _ & He)); [lia|unfold run_fuel; lia|lia|].
  change (Z.of_nat 0) with 0 in E. rewrite E. intros [= <- <-]. destruct (Hq d i) as [Eo Ec]. rewrite Eo, Ec in He.
  destruct (out_result o); naive_solver.
Qed.

Lemma view_begin d bh th : tx_view (tx_begin d bh th) = d.
Proof. done. Qed.

(** Committing a transaction on the state it was opened on installs its view. *)
Lemma commit_view d (tx : Tx M) : tx_db tx = d → apply_batch (tx_batch tx) d = tx_view tx.
Proof. by intros <-. Qed.

Lemma frame_db cs (tx tx' : Tx M) : frame cs tx tx' → tx_db tx' = tx_db tx.
Proof. by intros (? & _). Qed.

Lemma find_label_spec id (tx : Tx M) o tx' :
  find_label_for_update id tx = Ok (o, tx') →
  tx_view tx' = tx_view tx ∧ tx_db tx' = tx_db tx ∧
  match o with
  | Some l => ∃ bs, kv_get (tx_view tx CF_DATASETS) id = Some bs ∧ label_from_slice bs = Some l
  | None => kv_get (tx_view tx CF_DATASETS) id = None
  end.
Proof.
  unfold find_label_for_update, get_for_update.
  destruct (kv_get (tx_view tx CF_DATASETS) id) as [bs|]; intros Ho.
  - inv_res Ho. apply ok_or_Ok in Hv. simplify_eq/=. eauto 6.
  - by simplify_eq/=.
Qed.

(** ** CREATE *)

Lemma has_dataset_false id d : has_dataset d id = false ↔ kv_get (d CF_DATASETS) id = None.
Proof. unfold has_dataset. rewrite bool_decide_eq_false, eq_None_not_Some. done. Qed.

(** After the purge of an absent dataset its indexes are clean, and nothing outside the
    index families changed. *)
Lemma purge_stale_spec id d : dataset_id_ok id →
  ∃ d', purge_stale_hash_indexes_if_dataset_absent id d = (d', Ok tt) ∧
    (kv_get (d CF_DATASETS) id = None → index_clean id d') ∧
    (∀ c k, c ∉ index_cfs → kv_get (d' c) k = kv_get (d c) k).
Proof.
  intros Hid. unfold purge_stale_hash_indexes_if_dataset_absent.
  destruct (has_dataset d id) eqn:E; simpl.
  - exists d. split; [done|]. split; [|done]. intros Hn%has_dataset_false. congruence.
  - destruct (purge_hash_indexes_spec id d Hid) as (d' & -> & A & B & _). eauto.
Qed.

Lemma index_clean_ext id d d' :
  (∀ c k, c ∈ index_cfs → kv_get (d' c) k = kv_get (d c) k) → index_clean id d → index_clean id d'.
Proof. intros E Hc c h Hi. rewrite E by done. by apply Hc. Qed.

Lemma write_label_get id l (tx : Tx M) c k :
  kv_get (tx_view (write_label id l tx) c) k
  = if decide (c = CF_DATASETS ∧ k = id) then Some (label_to_vec l) else kv_get (tx_view tx c) k.
Proof.
  unfold write_label, put_cf. rewrite tx_view_stage. destruct (decide (c = CF_DATASETS)) as [->|Hne].
  - rewrite apply_put, kv_get_put. apply decide_ext. naive_solver.
  - rewrite apply_op_other by (simpl; congruence). rewrite decide_False by naive_solver. done.
Qed.

Lemma create_dataset_tx_spec id kind d tx :
  create_dataset_tx id kind (tx_begin d false false) = Ok (tt, tx) →
  kv_get (d CF_DATASETS) id = None ∧
  ∀ c k, kv_get (apply_batch (tx_batch tx) d c) k
    = if decide (c = CF_DATASETS ∧ k = id) then Some (label_to_vec (LabelV0 kind 0 None)) else kv_get (d c) k.
Proof.
  unfold create_dataset_tx. intros Ho. inv_res Ho. destruct v as [o tx1].
  destruct (find_label_spec _ _ _ _ Hv) as (Ev & Ed & Hl). inv_res Ho.
  apply ensure_Ok, bool_decide_eq_true in Hv0. subst o. split; [done|]. intros c k.
  simplify_eq. rewrite (commit_view d) by exact Ed. by rewrite write_label_get, Ev.
Qed.

Lemma create_if_not_exists_tx_spec id kind d tx :
  create_dataset_if_not_exists_tx id kind (tx_begin d false false) = Ok (tt, tx) →
  (kv_get (d CF_DATASETS) id = None ∧
   ∀ c k, kv_get (apply_batch (tx_batch tx) d c) k
    = if decide (c = CF_DATASETS ∧ k = id) then Some (label_to_vec (LabelV0 kind 0 None)) else kv_get (d c) k) ∨
  (∃ bs l, kv_get (d CF_DATASETS) id = Some bs ∧ label_from_slice bs = Some l ∧ label_kind l = kind ∧
   apply_batch (tx_batch tx) d = d).
Proof.
  unfold create_dataset_if_not_exists_tx. intros Ho. inv_res Ho. destruct v as [o tx1].
  destruct (find_label_spec _ _ _ _ Hv) as (Ev & Ed & Hl). destruct o as [l|].
  - right. destruct Hl as (bs & Hbs & Hl). inv_res Ho. apply ensure_Ok, bool_decide_eq_true in Hv0.
    exists bs, l. simplify_eq. rewrite (commit_view d) by exact Ed. by rewrite Ev.
  - left. split; [done|]. intros c k. simplify_eq. rewrite (commit_view d) by exact Ed.
    by rewrite write_label_get, Ev.
Qed.

(** ** DROP *)

Lemma delete_chunk_tables_get (ids : list TableId) (tx : Tx M) c k :
  kv_get (tx_view (fold_left (λ tx t, delete_table t tx) ids tx) c) k
  = if decide (c = CF_DELETED_TABLES ∧ k ∈ ids) then Some [] else kv_get (tx_view tx c) k.
Proof.
  revert tx; induction ids as [|t ids IH]; intros tx; simpl.
  - rewrite decide_False; [done|]. intros [_ ?%elem_of_nil]. done.
  - rewrite IH. unfold delete_table, put_cf. rewrite tx_view_stage.
    destruct (decide (c = CF_DELETED_TABLES)) as [->|Hne].
    + rewrite apply_put, kv_get_put. destruct (decide (t = k)) as [->|Hk].
      * rewrite (decide_True (P:=_ ∧ k ∈ k :: ids)) by (split; [done|lmem]). by case_decide.
      * apply decide_ext. rewrite elem_of_cons. naive_solver.
    + rewrite apply_op_other by (simpl; congruence). rewrite !decide_False by naive_solver. done.
Qed.

Lemma delete_chunk_get id c (tx : Tx M) c' k :
  kv_get (tx_view (delete_chunk id c tx) c') k
  = if decide (c' = CF_DELETED_TABLES ∧ k ∈ (tables c).*2) then Some []
    else if decide (c' = CF_CHUNKS ∧ k = chunk_id_for id c) then None else kv_get (tx_view tx c') k.
Proof.
  unfold delete_chunk. rewrite delete_chunk_tables_get. case_decide as H1; [done|].
  unfold delete_cf. rewrite tx_view_stage. destruct (decide (c' = CF_CHUNKS)) as [->|Hne].
  - rewrite apply_del, kv_get_delete. apply decide_ext. naive_solver.
  - rewrite apply_op_other by (simpl; congruence). rewrite decide_False by naive_solver. done.
Qed.

(** Deleting a list of chunks. *)
Definition delete_chunks id (cs : list Chunk) (tx : Tx M) : Tx M :=
  fold_left (λ tx c, delete_chunk id c tx) cs tx.

Lemma delete_chunks_fold id cs : ∀ tx,
  fold_res (λ (tx : Tx M) r, chunk ← r; Ok (delete_chunk id chunk tx)) (Ok <$> cs) tx
  = Ok (delete_chunks id cs tx).
Proof. induction cs as [|c cs IH]; intros tx; [done|]. cbn. apply IH. Qed.

Lemma delete_chunks_frame id cs tx : frame [CF_CHUNKS; CF_DELETED_TABLES] tx (delete_chunks id cs tx).
Proof.
  revert tx; induction cs as [|c cs IH]; intros tx; [apply frame_refl|].
  eapply frame_trans; [apply delete_chunk_frame|apply IH].
Qed.

Lemma delete_chunks_spec id cs : ∀ tx : Tx M,
  chunks_cf_ok (tx_view tx CF_CHUNKS) → dataset_id_ok id → chunks_of (tx_view tx CF_CHUNKS) id = cs →
  let tx' := delete_chunks id cs tx in
  chunks_cf_ok (tx_view tx' CF_CHUNKS) ∧ chunks_of (tx_view tx' CF_CHUNKS) id = [] ∧
  only_dataset id tx tx' ∧
  (∀ c t, c ∈ cs → t ∈ (tables c).*2 → is_Some (kv_get (tx_view tx' CF_DELETED_TABLES) t)) ∧
  (∀ t, is_Some (kv_get (tx_view tx CF_DELETED_TABLES) t) →
        is_Some (kv_get (tx_view tx' CF_DELETED_TABLES) t)).
Proof.
  induction cs as [|c cs IH]; intros tx Hok Hid Hcs.
  - split_and!; try done. by intros c t ?%elem_of_nil.
  - destruct (delete_chunk_spec id c tx [] cs Hok Hid Hcs) as (A & B & D). simpl.
    change (delete_chunks id (c :: cs) tx) with (delete_chunks id cs (delete_chunk id c tx)).
    destruct (IH _ A Hid B) as (A' & B' & D' & E' & F'). split_and!; try done.
    + by eapply only_dataset_trans.
    + intros c0 t [->|Hc]%elem_of_cons Ht; [|by eapply E'].
      apply F'. rewrite delete_chunk_get, decide_True by done. eauto.
    + intros t Ht. apply F'. rewrite delete_chunk_get. case_decide; [eauto|].
      rewrite decide_False by naive_solver. done.
Qed.

(** What the transaction of DROP commits. *)
Lemma delete_dataset_tx_spec id d tx :
  chunks_cf_ok (d CF_CHUNKS) → dataset_id_ok id →
  delete_dataset_tx id (tx_begin d false false) = Ok (tt, tx) →
  let d' := apply_batch (tx_batch tx) d in
  kv_get (d' CF_DATASETS) id = None ∧
  (∀ id', id' ≠ id → kv_get (d' CF_DATASETS) id' = kv_get (d CF_DATASETS) id') ∧
  chunks_cf_ok (d' CF_CHUNKS) ∧
  (is_Some (kv_get (d CF_DATASETS) id) → chunks_of (d' CF_CHUNKS) id = [] ∧
     ∀ c t, c ∈ chunks_of (d CF_CHUNKS) id → t ∈ (tables c).*2 →
       is_Some (kv_get (d' CF_DELETED_TABLES) t)) ∧
  (∀ id', dataset_id_ok id' → id' ≠ id → chunks_of (d' CF_CHUNKS) id' = chunks_of (d CF_CHUNKS) id') ∧
  (∀ c, c ∈ index_cfs → d' c = d c).
Proof.
  intros Hok Hid. unfold delete_dataset_tx. intros Ho. inv_res Ho. destruct v as [o tx1].
  destruct (find_label_spec _ _ _ _ Hv) as (Ev & Ed & Hl). rewrite view_begin in *. simpl in Ed.
  destruct o as [l|]; cycle 1.
  { injection Ho as <-. rewrite (commit_view d) by exact Ed. rewrite Ev. split_and!; try done.
    rewrite Hl. by intros []. }
  apply bind_Ok in Ho as (tx2 & Hv0 & Ho). injection Ho as <-.
  unfold tx_list_chunks in Hv0. rewrite list_all, delete_chunks_fold in Hv0 by (by rewrite ?Ev).
  injection Hv0 as <-. set (cs := chunks_of (tx_view tx1 CF_CHUNKS) id) in *.
  destruct (delete_chunks_spec id cs tx1) as (A & B & D & E & F); [by rewrite Ev|done|done|].
  pose proof (delete_chunks_frame id cs tx1) as Hf. pose proof (frame_db _ _ _ Hf) as Hdb.
  assert (Hv' : ∀ c, c ≠ CF_DATASETS → tx_view (delete_label id (delete_chunks id cs tx1)) c
                = tx_view (delete_chunks id cs tx1) c).
  { intros c Hc. unfold delete_label, delete_cf. rewrite tx_view_stage. apply apply_op_other. simpl. congruence. }
  rewrite (commit_view d) by (simpl; congruence).
  rewrite (Hv' CF_CHUNKS), (Hv' CF_DELETED_TABLES) by done.
  assert (Hlab : ∀ k, kv_get (tx_view (delete_label id (delete_chunks id cs tx1)) CF_DATASETS) k
                = if decide (id = k) then None else kv_get (d CF_DATASETS) k).
  { intros k. unfold delete_label, delete_cf. rewrite tx_view_stage, apply_del, kv_get_delete.
    rewrite (frame_view _ _ _ _ Hf) by set_solver. by rewrite Ev. }
  split_and!.
  - by rewrite Hlab, decide_True.
  - intros id' Hne. by rewrite Hlab, decide_False.
  - done.
  - intros _. split; [done|]. intros c t Hc Ht. apply (E c t); [|done]. unfold cs. by rewrite Ev.
  - intros id' Hid' Hne. rewrite D by done. by rewrite Ev.
  - intros c Hc. rewrite Hv' by (unfold index_cfs in Hc; set_solver).
    rewrite (frame_view _ _ _ _ Hf) by (unfold index_cfs in Hc; set_solver). by rewrite Ev.
Qed.

Lemma chunks_of_ext (m m' : M) id : (∀ k, kv_get m k = kv_get m' k) → chunks_of m id = chunks_of m' id.
Proof. intros E. unfold chunks_of. by rewrite (kv_entries_ext m m' E). Qed.

Lemma chunks_cf_ok_ext (m m' : M) : (∀ k, kv_get m k = kv_get m' k) → chunks_cf_ok m → chunks_cf_ok m'.
Proof. intros E. unfold chunks_cf_ok. by rewrite (kv_entries_ext m m' E). Qed.

(** What a committed DROP guarantees of the state it leaves. *)
Record dropped id d d' : Prop := {
  dropped_label : kv_get (d' CF_DATASETS) id = None;
  dropped_chunks : chunks_of (d' CF_CHUNKS) id = [];
  dropped_index : index_clean id d';
  dropped_marks : kv_entries (d' CF_DELETED_TABLES) = [];
  dropped_tables c t k : c ∈ chunks_of (d CF_CHUNKS) id → t ∈ (tables c).*2 → length t = 16%nat →
    kv_get (d' CF_TABLES) (table_key t k) = None;
  dropped_others id' : dataset_id_ok id' → id' ≠ id →
    kv_get (d' CF_DATASETS) id' = kv_get (d CF_DATASETS) id' ∧
    chunks_of (d' CF_CHUNKS) id' = chunks_of (d CF_CHUNKS) id' ∧
    (∀ c h, c ∈ index_cfs → bytes_ok h →
       kv_get (d' c) (hash_index_key id' h) = kv_get (d c) (hash_index_key id' h))
}.

(** The two physical steps after the logical commit. *)
Lemma drop_physical id d tx :
  chunks_cf_ok (d CF_CHUNKS) → dataset_id_ok id → is_Some (kv_get (d CF_DATASETS) id) →
  delete_dataset_tx id (tx_begin d false false) = Ok (tt, tx) →
  ∃ d', then_ (purge_hash_indexes id (apply_batch (tx_batch tx) d)) (λ _ d,
          then_ (logical_cleanup d) (λ _ d, (d, Ok tt))) = (d', Ok tt) ∧ dropped id d d'.
Proof.
  intros Hok Hid Hlab Ho.
  destruct (delete_dataset_tx_spec id d tx Hok Hid Ho) as (L1 & L2 & K1 & K2 & K3 & I).
  destruct (K2 Hlab) as [K4 K5]. set (d1 := apply_batch (tx_batch tx) d) in *.
  destruct (purge_hash_indexes_spec id d1 Hid) as (d2 & -> & P1 & P2 & P3). simpl.
  destruct (purge_marked_spec d2 CF_DELETED_TABLES (or_introl eq_refl)) as (d3 & E & Q1 & Q2 & Q3).
  unfold logical_cleanup. rewrite E. simpl. exists d3. split; [done|].
  assert (Hd3 : ∀ c k, c ≠ CF_TABLES → c ≠ CF_DELETED_TABLES → c ≠ CF_DIRTY_TABLES →
                kv_get (d3 c) k = kv_get (d2 c) k)
    by (intros c k ? ? ?; rewrite Q3, decide_False by naive_solver; done).
  assert (Hd2 : ∀ c k, c = CF_DATASETS ∨ c = CF_CHUNKS ∨ c = CF_DELETED_TABLES → kv_get (d2 c) k = kv_get (d1 c) k)
    by (intros c k Hc; apply P2; unfold index_cfs; set_solver).
  constructor.
  - by rewrite Hd3, Hd2 by (done || auto).
  - rewrite <-K4. apply chunks_of_ext. intros k. by rewrite Hd3, Hd2 by (done || auto).
  - intros c h Hc. rewrite Hd3 by (unfold index_cfs in Hc; set_solver). by apply P1.
  - done.
  - intros c t k Hc Ht Hlen. rewrite Q2 by done. rewrite decide_True; [done|]. apply marked_elem. split; [done|].
    rewrite Hd2 by auto. by eapply K5.
  - intros id' Hid' Hne. split_and!.
    + rewrite Hd3, Hd2 by (done || auto). by apply L2.
    + rewrite <-K3 by done. apply chunks_of_ext. intros k. by rewrite Hd3, Hd2 by (done || auto).
    + intros c h Hc Hh. rewrite Hd3 by (unfold index_cfs in Hc; set_solver).
      rewrite P3 by done. by rewrite I.
Qed.
End facts.

(** [Database::delete_dataset] is all or nothing: with no other writer, it either
    fails without changing anything, or the label, every chunk, every hash-index entry
    and all table data of the dataset are gone and no deletion mark is left, while
    every other dataset keeps its label, its chunks and its index entries. *)
Theorem delete_dataset_complete {M C T : Type} `{KvStoreLaws M C} `{BorshLaws} `{TableReader T}
    `{!TableStore M T} (env : db M → nat → attempt_env M) (counters : tx_counters) (D : Database)
    (id : DatasetId) (d d' : db M) (r : res unit) :
  quiet env → dataset_id_ok id → chunks_cf_ok (d CF_CHUNKS) → is_Some (kv_get (d CF_DATASETS) id) →
  delete_dataset env counters D id d = (d', r) →
  match r with Ok _ => dropped id d d' | _ => d' = d end.
Proof.
  intros Hq Hid Hok Hlab. unfold delete_dataset.
  destruct (exec _ _ _ _ _ _ d) as [d1 r1] eqn:E. apply (exec_spec _ _ _ _ _ _ _ _ _ Hq) in E.
  destruct r1 as [[]|e|m]; simpl; [|by intros [= <- <-]..].
  destruct E as (tx & Ho & ->). destruct (drop_physical id d tx Hok Hid Hlab Ho) as (d2 & -> & Hd).
  by intros [= <- <-].
Qed.

(** A new incarnation of a dataset id starts clean: [create_dataset] succeeds only
    if the id had no label, and then the label is version 0 with no finalized head and
    no hash-index entry of an earlier incarnation is left; whatever it returns, no other
    label, no chunk and no table entry changes. *)
Theorem create_dataset_fresh {M C : Type} `{KvStoreLaws M C} `{BorshLaws}
    (env : db M → nat → attempt_env M) (counters : tx_counters) (D : Database)
    (id : DatasetId) (kind : DatasetKind) (d d' : db M) (r : res unit) :
  quiet env → dataset_id_ok id →
  create_dataset env counters D id kind d = (d', r) →
  (∀ c k, c ∉ index_cfs → (c = CF_DATASETS → k ≠ id) → kv_get (d' c) k = kv_get (d c) k) ∧
  match r with
  | Ok _ => kv_get (d CF_DATASETS) id = None ∧ get_label d' id = Ok (Some (LabelV0 kind 0 None)) ∧
      index_clean id d'
  | _ => kv_get (d' CF_DATASETS) id = kv_get (d CF_DATASETS) id
  end.
Proof.
  intros Hq Hid. unfold create_dataset.
  destruct (purge_stale_spec id d Hid) as (d1 & -> & P1 & P2). simpl. intros E.
  apply (exec_spec _ _ _ _ _ _ _ _ _ Hq) in E. unfold index_cfs in *.
  destruct r as [[]|e|m]; [|subst; split; [auto|apply P2; set_solver]..].
  destruct E as (tx & Ho & ->). destruct (create_dataset_tx_spec id kind d1 tx Ho) as [Hn Hg].
  rewrite P2 in Hn by set_solver. split_and!; [|done|..].
  - intros c k Hc Hk. rewrite Hg, decide_False by naive_solver. by apply P2.
  - unfold get_label. rewrite Hg, decide_True by done. by rewrite label_roundtrip.
  - intros c h Hc. unfold index_cfs in Hc. rewrite Hg, decide_False by set_solver. by apply P1.
Qed.

(** ** Serializability of updates *)

Section serial.
Context {M C T : Type} `{HK : KvStore M C} `{HL : !KvStoreLaws M C}
  `{HB : Borsh} `{HBL : !BorshLaws} `{HT : TableReader T} `{HS : !TableStore M T}.
Implicit Types (d : db M) (id : DatasetId).

(** A batch either decides the value of a key or leaves it alone. *)
Lemma apply_batch_dichotomy (b : list write_op) c k :
  (∀ d d', kv_get (apply_batch b d c) k = kv_get (apply_batch b d' c) k) ∨
  (∀ d, kv_get (apply_batch b d c) k = kv_get (d c) k).
Proof.
  induction b as [|o b IH] using rev_ind; [by right|].
  destruct (decide (op_cf o = c ∧ op_key o = k)) as [[<- <-]|Hne].
  - left. intros d d'. rewrite !apply_batch_app. unfold apply_batch at 1 3; cbn [fold_left].
    destruct o; simpl; rewrite ?apply_put, ?apply_del, ?kv_get_put, ?kv_get_delete, ?decide_True by done; done.
  - assert (Ho : ∀ d, kv_get (apply_op o d c) k = kv_get (d c) k).
    { intros d. unfold apply_op. case_decide as Hc; [|done]. destruct o; simpl in *;
        rewrite ?kv_get_put, ?kv_get_delete, decide_False by naive_solver; done. }
    destruct IH as [IH|IH]; [left|right]; intros; rewrite !apply_batch_app;
      unfold apply_batch at 1; cbn [fold_left]; [unfold apply_batch at 2; cbn [fold_left]|];
      rewrite ?Ho; [apply IH|apply IH].
Qed.

Lemma apply_batch_get_ext (b : list write_op) d d' c k :
  kv_get (d c) k = kv_get (d' c) k → kv_get (apply_batch b d c) k = kv_get (apply_batch b d' c) k.
Proof. intros E. destruct (apply_batch_dichotomy b c k) as [Hb|Hb]; [apply Hb|by rewrite !Hb]. Qed.

(** Two well-formed stores with the same chunks for a dataset agree on its keys. *)
Lemma chunks_of_keys (m m' : M) id b : chunks_cf_ok m → chunks_cf_ok m' → dataset_id_ok id → u64_ok b →
  chunks_of m id = chunks_of m' id → kv_get m (chunk_id id b) = kv_get m' (chunk_id id b).
Proof.
  intros Hok Hok' Hid Hb E.
  assert (Hsub : ∀ m1 m2, chunks_cf_ok m1 → chunks_cf_ok m2 → chunks_of m1 id = chunks_of m2 id →
    ∀ v, kv_get m1 (chunk_id id b) = Some v → kv_get m2 (chunk_id id b) = Some v).
  { intros m1 m2 H1 H2 E12 v Hv. pose proof Hv as Hin. rewrite kv_get_entries in Hin.
    destruct (H1 _ Hin) as (id' & c & Hid' & Hc & [= Hk ->]).
    apply chunk_id_inj in Hk as [<- ->]; try done; [|by apply chunk_ok_u64].
    assert (Hc1 : c ∈ chunks_of m1 id) by (by apply chunks_of_elem).
    rewrite E12 in Hc1. by apply chunks_of_elem in Hc1 as [? _]. }
  destruct (kv_get m _) eqn:E1; [symmetry; by apply (Hsub m m')|].
  destruct (kv_get m' _) eqn:E2; [|done]. apply (Hsub m' m) in E2; [congruence|done..].
Qed.

(** Committing a batch on a state with other datasets changed. *)
Lemma commit_elsewhere (b : list write_op) d d' id :
  chunks_cf_ok (d CF_CHUNKS) → chunks_cf_ok (d' CF_CHUNKS) → dataset_id_ok id →
  chunks_of (d' CF_CHUNKS) id = chunks_of (d CF_CHUNKS) id →
  chunks_cf_ok (apply_batch b d CF_CHUNKS) →
  chunks_cf_ok (apply_batch b d' CF_CHUNKS) ∧
  chunks_of (apply_batch b d' CF_CHUNKS) id = chunks_of (apply_batch b d CF_CHUNKS) id.
Proof.
  intros Hok Hok' Hid E Hb.
  assert (Hb' : chunks_cf_ok (apply_batch b d' CF_CHUNKS)).
  { intros [k v] Hin. apply (proj2 (kv_get_entries _ _ _)) in Hin.
    destruct (apply_batch_dichotomy b CF_CHUNKS k) as [Hd|Hd].
    - rewrite (Hd d' d) in Hin. apply Hb. by apply kv_get_entries.
    - rewrite Hd in Hin. apply Hok'. by apply kv_get_entries. }
  split; [done|]. apply sorted_chunks_ext; [by apply chunks_of_sorted..|].
  intros c. rewrite !chunks_of_elem by done. split; intros [Hg Hc]; (split; [|done]); rewrite <-Hg;
    apply apply_batch_get_ext, chunks_of_keys; try done; by apply chunk_ok_u64.
Qed.

Lemma update_new_spec id d bh th u : update_new (tx_begin d bh th) id = Ok u →
  upd_dataset_id u = id ∧ tx_view (upd_tx u) = d ∧ tx_db (upd_tx u) = d ∧
  (CF_DATASETS, id) ∈ tx_tracked (upd_tx u) ∧
  ∃ bs, kv_get (d CF_DATASETS) id = Some bs ∧ label_from_slice bs = Some (upd_label u).
Proof.
  unfold update_new, get_label_for_update, find_label_for_update, get_for_update.
  rewrite view_begin. destruct (kv_get (d CF_DATASETS) id) as [bs|] eqn:E; [|done].
  destruct (label_from_slice bs) as [l|] eqn:El; [|done]. intros [= <-]. simpl.
  split_and!; try done; [lmem|eauto].
Qed.

(** [finish] stages the bumped label, so the committed label always changes. *)
Lemma bumped_label_differs k v f : 0 <= v → v < u64_mod →
  label_to_vec (LabelV0 k (u64_add v 1) f) ≠ label_to_vec (LabelV0 k v f).
Proof.
  intros H0 H1 E. apply (f_equal label_from_slice) in E. rewrite !label_roundtrip in E.
  injection E as E. unfold u64_add, u64_mod in *. destruct (decide (v = 2 ^ 64 - 1)) as [->|];
    [done|]. rewrite Z.mod_small in E by lia. lia.
Qed.

(** The value and state one committed attempt of an update produces. *)
Lemma update_attempt_spec {R} id (cb : DatasetUpdate M → res (R * DatasetUpdate M)) d d' bh th r tx :
  dataset_id_ok id → chunks_cf_ok (d CF_CHUNKS) → chunks_cf_ok (d' CF_CHUNKS) →
  chain (chunks_of (d CF_CHUNKS) id) →
  (∀ u r u', cb u = Ok (r, u') → upd_steps u u') →
  update_dataset_tx id cb (tx_begin d bh th) = Ok (r, tx) →
  (∀ c k, (c, k) ∈ tx_tracked tx → kv_get (d' c) k = kv_get (d c) k) →
  (kv_get (d' CF_DATASETS) id = kv_get (d CF_DATASETS) id →
   chunks_of (d' CF_CHUNKS) id = chunks_of (d CF_CHUNKS) id) →
  ∃ u u', cb u = Ok (r, u') ∧ get_label d' id = Ok (Some (upd_label u)) ∧
    upd_chunks u = chunks_of (d' CF_CHUNKS) id ∧
    chunks_of (apply_batch (tx_batch tx) d' CF_CHUNKS) id = upd_chunks u' ∧ chain (upd_chunks u') ∧
    get_label (apply_batch (tx_batch tx) d') id
    = Ok (Some (LabelV0 (label_kind (upd_label u)) (u64_add (label_version (upd_label u)) 1)
                  (label_finalized_head (upd_label u')))).
Proof.
  intros Hid Hok Hok' Hch Hcb Ho Htr Hrely. unfold update_dataset_tx in Ho.
  apply bind_Ok in Ho as (u & Hu & Ho). apply bind_Ok in Ho as ([r' u'] & Hcbu & Ho).
  injection Ho as -> <-.
  destruct (update_new_spec id d bh th u Hu) as (Eid & Ev & Ed & Ht & bs & Hbs & Hl).
  pose proof (Hcb _ _ _ Hcbu) as Hs.
  assert (Hcu : upd_chunks u = chunks_of (d CF_CHUNKS) id) by (unfold upd_chunks; by rewrite Ev, Eid).
  assert (Huok : upd_ok u) by (constructor; [by rewrite Eid|by rewrite Ev|by rewrite Hcu]).
  destruct (upd_steps_ok u u' Hs Huok) as ([Hid' Hcf' Hch'] & (E1 & E2 & E3 & E4 & _ & E5 & E6) & _).
  assert (Hlab : kv_get (d' CF_DATASETS) id = kv_get (d CF_DATASETS) id)
    by (apply Htr; simpl; by apply E6).
  specialize (Hrely Hlab). exists u, u'. split; [done|].
  assert (Hfv : apply_batch (tx_batch (upd_finish u')) d = tx_view (upd_finish u'))
    by (apply commit_view; simpl; congruence).
  assert (Hfc : tx_view (upd_finish u') CF_CHUNKS = tx_view (upd_tx u') CF_CHUNKS)
    by (unfold upd_finish, write_label, put_cf; rewrite tx_view_stage; by apply apply_op_other).
  destruct (commit_elsewhere (tx_batch (upd_finish u')) d d' id Hok Hok' Hid Hrely) as [_ Hc];
    [by rewrite Hfv, Hfc|].
  split_and!.
  - unfold get_label. by rewrite Hlab, Hbs, Hl.
  - by rewrite Hcu, Hrely.
  - rewrite Hc, Hfv, Hfc. unfold upd_chunks. by rewrite E1, Eid.
  - done.
  - unfold get_label. rewrite (apply_batch_get_ext _ d' d) by done. rewrite Hfv.
    unfold upd_finish. rewrite write_label_get, decide_True by (by rewrite E1, Eid).
    rewrite label_roundtrip. simpl. rewrite <-E2, <-E3. by destruct (upd_label u').
Qed.
End serial.

(** C10: updates of one dataset are serializable although the chunks an update reads do
    not join the conflict check.  Suppose a commit goes through only if the keys the
    transaction read for update are unchanged since its snapshot, and every other
    writer that changes the chunks of the dataset changes its label.  Then whenever
    [update_dataset] returns [Ok], its callback ran on exactly the label and the chunks
    that were committed at that moment, the committed chunks are the callback's result
    and form a chain, and the label is the committed one with its version bumped once. *)
Theorem update_dataset_serializable {M C T R : Type} `{KvStoreLaws M C} `{BorshLaws}
    `{TableReader T} `{!TableStore M T} (env : nat → attempt_env M) (p : RetryPolicy) (bh th : bool)
    (id : DatasetId) (cb : DatasetUpdate M → res (R * DatasetUpdate M)) (m : HashIndexWriteMetrics)
    (counters : tx_counters) (o : run_outcome M R) (r : R) :
  dataset_id_ok id →
  (∀ i, chunks_cf_ok (env_open (env i) CF_CHUNKS) ∧ chunks_cf_ok (env_commit (env i) CF_CHUNKS) ∧
        chain (chunks_of (env_open (env i) CF_CHUNKS) id)) →
  (∀ u r u', cb u = Ok (r, u') → upd_steps u u') →
  (∀ i r tx, update_dataset_tx id cb (tx_begin (env_open (env i)) bh th) = Ok (r, tx) →
     env_verdict (env i) = Committed → ∀ c k, (c, k) ∈ tx_tracked tx →
     kv_get (env_commit (env i) c) k = kv_get (env_open (env i) c) k) →
  (∀ i, kv_get (env_commit (env i) CF_DATASETS) id = kv_get (env_open (env i) CF_DATASETS) id →
     chunks_of (env_commit (env i) CF_CHUNKS) id = chunks_of (env_open (env i) CF_CHUNKS) id) →
  run_with_hash_index_metrics (run_fuel p) p bh th (update_dataset_tx id cb) env m counters = Some o →
  out_result o = Ok r →
  ∃ i u u', cb u = Ok (r, u') ∧ get_label (env_commit (env i)) id = Ok (Some (upd_label u)) ∧
    upd_chunks u = chunks_of (env_commit (env i) CF_CHUNKS) id ∧
    chunks_of (out_db o CF_CHUNKS) id = upd_chunks u' ∧ chain (upd_chunks u') ∧
    get_label (out_db o) id
    = Ok (Some (LabelV0 (label_kind (upd_label u)) (u64_add (label_version (upd_label u)) 1)
                  (label_finalized_head (upd_label u')))).
Proof.
  intros Hid Henv Hcb Hiso Hrely Hrun Hr.
  destruct (run_loop_ends p bh th (update_dataset_tx id cb) env (run_fuel p) 0 m counters [])
    as (o' & i & E & (_ & _ & _ & He)); [lia|unfold run_fuel; lia|lia|].
  change (Z.of_nat 0) with 0 in E. unfold run_with_hash_index_metrics in Hrun.
  rewrite E in Hrun. injection Hrun as <-. rewrite Hr in He. destruct He as (tx & Ho & Hv & Hdb).
  destruct (Henv i) as (H1' & H2' & H3'). exists i. rewrite Hdb.
  eapply (update_attempt_spec id cb (env_open (env i)) (env_commit (env i)) bh th r tx); eauto.
Qed.

Module DbExamples.
Import Mem ForkExamples.

Definition still (d : mdb) (n : nat) : attempt_env GmapKv.t :=
  mkAttemptEnv d d Committed metrics_default 0 0 0 [].
Lemma still_quiet : quiet still.
Proof. done. Qed.
Definition dbase : Database := mkDatabase false false default_policy.
Definition counters0 : tx_counters := mkCounters 0 0 0 0 0 0.

Lemma delete_dataset_complete_witness :
  ∃ d', delete_dataset still counters0 dbase d0 base_db = (d', Ok tt) ∧ dropped d0 base_db d'.
Proof.
  set (o := delete_dataset still counters0 dbase d0 base_db).
  assert (Eo : o.2 = Ok tt) by (vm_compute; reflexivity).
  assert (E : o = (o.1, Ok tt)) by (rewrite <-Eo; apply surjective_pairing).
  exists o.1. split; [exact E|].
  refine (delete_dataset_complete still counters0 dbase d0 base_db o.1 (Ok tt) still_quiet d0_ok _ _ E).
  - exact base_ok.
  - vm_compute. eexists. reflexivity.
Defined.

Lemma create_dataset_fresh_witness :
  ∃ d', create_dataset still counters0 dbase d1 (pad 16 (str_bytes "evm")) base_db = (d', Ok tt) ∧
    get_label d' d1 = Ok (Some (LabelV0 (pad 16 (str_bytes "evm")) 0 None)).
Proof.
  set (o := create_dataset still counters0 dbase d1 (pad 16 (str_bytes "evm")) base_db).
  assert (Eo : o.2 = Ok tt) by (vm_compute; reflexivity).
  assert (E : o = (o.1, Ok tt)) by (rewrite <-Eo; apply surjective_pairing).
  exists o.1. split; [exact E|].
  exact (proj1 (proj2 (proj2 (create_dataset_fresh still counters0 dbase d1 (pad 16 (str_bytes "evm"))
    base_db o.1 (Ok tt) still_quiet d1_ok E)))).
Defined.

(** An update that inserts the fork of [ForkExamples], on the second attempt. *)
Definition fork_cb (u : DatasetUpdate GmapKv.t) : res (unit * DatasetUpdate GmapKv.t) :=
  u' ← upd_insert_fork c2' u; Ok (tt, u').
Definition retried (n : nat) : attempt_env GmapKv.t :=
  mkAttemptEnv base_db base_db (if (n =? 1)%nat then Committed else Busy) metrics_default 0 0 0 [].

Lemma update_dataset_serializable_witness :
  ∃ o, run_with_hash_index_metrics (run_fuel default_policy) default_policy false false
         (update_dataset_tx d0 fork_cb) retried metrics_default counters0 = Some o ∧
    out_attempts o = 2 ∧
    ∃ i u u', fork_cb u = Ok (tt, u') ∧ get_label (env_commit (retried i)) d0 = Ok (Some (upd_label u)) ∧
      chunks_of (out_db o CF_CHUNKS) d0 = upd_chunks u' ∧ chain (upd_chunks u').
Proof.
  set (r := run_with_hash_index_metrics (run_fuel default_policy) default_policy false false
         (update_dataset_tx d0 fork_cb) retried metrics_default counters0).
  assert (Hok : option_map (λ o, (out_attempts o, out_result o)) r = Some (2, Ok tt))
    by (vm_compute; reflexivity).
  destruct r as [o|] eqn:Er; [|discriminate Hok]. injection Hok as Ha Hr.
  exists o. split; [reflexivity|]. split; [exact Ha|].
  destruct (update_dataset_serializable retried default_policy false false d0 fork_cb metrics_default
    counters0 o tt d0_ok) as (i & u & u' & A & B & _ & D & E & _).
  - intros i. split; [exact base_ok|]. split; [exact base_ok|exact base_chain].
  - intros u [] u' Hu. unfold fork_cb in Hu. apply bind_Ok in Hu as (u1 & Hu1 & Hu). injection Hu as <-.
    apply relations.rtc_once, (step_insert_fork c2'); [exact c2'_ok|exact Hu1].
  - reflexivity.
  - reflexivity.
  - exact Er.
  - exact Hr.
  - exists i, u, u'. auto.
Defined.
End DbExamples.
