(* ===== verification/WriteController.v ===== *)
(** * WriteController: the single writer of a dataset

    Models crates/hotblocks/src/dataset_controller/write_controller.rs: the in-memory
    copy of the committed head and finalized head, the transactions that extend,
    replace, finalize and trim the window, and the publication of the two watermarks.

    A method takes the controller and the database state and returns both with its
    result.  The watch channels are their current values and the log of the changes
    subscribers see, in order. *)

From S2P Require Import Prelude Bytes Data Kv ChunkIter Tables Chain Tx Retry.
From S2P Require Import Cleanup Db.

(** [types::DatasetKind] *)
Inductive dataset_kind : Type :=
| Evm | Solana | Bitcoin | HyperliquidFills | HyperliquidReplicaCmds | Tron.

Definition kind_as_str (k : dataset_kind) : string :=
  match k with
  | Evm => "evm" | Solana => "solana" | Bitcoin => "bitcoin" | HyperliquidFills => "hl-fills"
  | HyperliquidReplicaCmds => "hl-replica-cmds" | Tron => "tron"
  end.
Definition storage_kind (k : dataset_kind) : res DatasetKind :=
  sid_from_str_unwrap 16 (str_bytes (kind_as_str k)).

Record Rollback : Type := mkRollback {
  resume_from : Z;
  expected_parent_hash : option string;
  reach_at_least : option Z
}.

Inductive FlushFloorUpdate : Type := FloorUnchanged | FloorSet (floor : option Z).

Inductive FinalityIgnoreReason : Type :=
| Regressive | AlreadyFinalized | IgnoredBelowRetainedWindow | NoBlockAtHeight.

Inductive FinalityDecision : Type :=
| FinApplied (b : BlockRef)
| FinIgnored (reason : FinalityIgnoreReason)
| FinIntegrityFault (reason : fork_reason).

Inductive CommittedFinalityUpdate : Type :=
| CommittedApplied (b : BlockRef)
| CommittedIgnored (reason : FinalityIgnoreReason).

(** A change a subscriber of one of the channels observes. *)
Inductive pub_event : Type := PubHead (b : option BlockRef) | PubFinalized (b : option BlockRef).

Record WriteController : Type := mkWriteController {
  wc_dataset_id : DatasetId;
  wc_dataset_kind : dataset_kind;
  wc_first_block : Z;
  wc_parent_block_hash : option string;
  wc_first_chunk_head : option BlockRef;
  wc_head : option BlockRef;
  wc_finalized_head : option BlockRef;
  wc_head_sender : option BlockRef;
  wc_finalized_head_sender : option BlockRef;
  wc_events : list pub_event
}.

Definition get_chunk_head (c : Chunk) : BlockRef := mkBlockRef (last_block c) (last_block_hash c).

Definition publish_head (w : WriteController) : WriteController :=
  if decide (wc_head_sender w = wc_head w) then w
  else mkWriteController (wc_dataset_id w) (wc_dataset_kind w) (wc_first_block w)
         (wc_parent_block_hash w) (wc_first_chunk_head w) (wc_head w) (wc_finalized_head w)
         (wc_head w) (wc_finalized_head_sender w) (wc_events w ++ [PubHead (wc_head w)]).
Definition publish_finalized_head (w : WriteController) : WriteController :=
  if decide (wc_finalized_head_sender w = wc_finalized_head w) then w
  else mkWriteController (wc_dataset_id w) (wc_dataset_kind w) (wc_first_block w)
         (wc_parent_block_hash w) (wc_first_chunk_head w) (wc_head w) (wc_finalized_head w)
         (wc_head_sender w) (wc_finalized_head w)
         (wc_events w ++ [PubFinalized (wc_finalized_head w)]).

Definition set_head (b : option BlockRef) (w : WriteController) : WriteController :=
  publish_head
    (mkWriteController (wc_dataset_id w) (wc_dataset_kind w) (wc_first_block w)
       (wc_parent_block_hash w) (wc_first_chunk_head w) b (wc_finalized_head w)
       (wc_head_sender w) (wc_finalized_head_sender w) (wc_events w)).
Definition set_finalized_head (b : option BlockRef) (w : WriteController) : WriteController :=
  publish_finalized_head
    (mkWriteController (wc_dataset_id w) (wc_dataset_kind w) (wc_first_block w)
       (wc_parent_block_hash w) (wc_first_chunk_head w) (wc_head w) b
       (wc_head_sender w) (wc_finalized_head_sender w) (wc_events w)).
(** [self.first_chunk_head = b] *)
Definition set_first_chunk_head (b : option BlockRef) (w : WriteController) : WriteController :=
  mkWriteController (wc_dataset_id w) (wc_dataset_kind w) (wc_first_block w)
    (wc_parent_block_hash w) b (wc_head w) (wc_finalized_head w)
    (wc_head_sender w) (wc_finalized_head_sender w) (wc_events w).
(** [self.first_block = b; self.parent_block_hash = h] *)
Definition set_window (b : Z) (h : option string) (w : WriteController) : WriteController :=
  mkWriteController (wc_dataset_id w) (wc_dataset_kind w) b h (wc_first_chunk_head w) (wc_head w)
    (wc_finalized_head w) (wc_head_sender w) (wc_finalized_head_sender w) (wc_events w).

Definition clear_heads (w : WriteController) : WriteController :=
  set_first_chunk_head None (set_finalized_head None (set_head None w)).

Definition wc_next_block (w : WriteController) : Z :=
  match wc_head w with Some h => u64_add (number h) 1 | None => wc_first_block w end.
Definition head_hash (w : WriteController) : option string :=
  match wc_head w with Some h => Some (hash h) | None => wc_parent_block_hash w end.
Definition starts_at (w : WriteController) (block_number : Z) (parent_hash : option string) : bool :=
  ((wc_first_block w =? block_number) && bool_decide (wc_parent_block_hash w = parent_hash))%bool.

(** [trim_floor]; [next_block - first_chunk_head] wraps. *)
Definition trim_floor (first_chunk_head : option Z) (next_block max_blocks : Z) : option Z :=
  match first_chunk_head with
  | None => None
  | Some f => if u64_sub next_block f >? max_blocks then Some (u64_sub next_block max_blocks) else None
  end.

Section controller.
Context {M C T : Type} `{KvStore M C} `{Borsh} `{TableReader T} `{TableStore M T}.
Context (env : db M → nat → attempt_env M) (counters : tx_counters) (D : Database).

(** ** Construction *)

Definition wc_new (id : DatasetId) (kind : dataset_kind) (head_sender fin_sender : option BlockRef)
    (d : db M) : db M * res WriteController :=
  match storage_kind kind with
  | Ok k =>
      then_ (create_dataset_if_not_exists env counters D id k d) (λ _ d,
        (d,
         label ← get_label d id;
         first_chunk ← get_first_chunk d id;
         last_chunk ← get_last_chunk d id;
         Ok (publish_finalized_head (publish_head
           (mkWriteController id kind
              (from_option first_block 0 first_chunk)
              (parent_block_hash <$> first_chunk)
              (get_chunk_head <$> first_chunk)
              (get_chunk_head <$> last_chunk)
              (label ≫= label_finalized_head)
              head_sender fin_sender [])))))
  | Err e => (d, Err e)
  | Panic m => (d, Panic m)
  end.

(** ** Fork resolution *)

(** [prev.windows(2).all(|s| s[0].number < s[1].number)] *)
Fixpoint ascending (prev : list BlockRef) : bool :=
  match prev with
  | a :: ((b :: _) as rest) => ((number a <? number b) && ascending rest)%bool
  | _ => true
  end.

Fixpoint drop_while {A} (f : A → bool) (l : list A) : list A :=
  match l with [] => [] | x :: l' => if f x then drop_while f l' else l end.

(** The loop over stored chunks from the top; [prev_blocks] is the reversed, partly
    consumed list of hints. *)
Fixpoint resume_loop (chunks : list (res Chunk)) (prev_blocks : list BlockRef)
  : res (option (Z * option string)) :=
  match chunks with
  | [] => Ok None
  | chunk_result :: chunks =>
      head ← chunk_result;
      if match prev_blocks with b :: _ => number b <? last_block head | [] => false end
      then resume_loop chunks prev_blocks
      else
        let prev_blocks := drop_while (λ b, number b >? last_block head) prev_blocks in
        match prev_blocks with
        | b :: _ =>
            if ((number b =? last_block head) && bool_decide (hash b = last_block_hash head))%bool
            then Ok (Some (u64_add (number b) 1, Some (hash b)))
            else resume_loop chunks prev_blocks
        | [] => Ok (Some (u64_add (last_block head) 1, Some (last_block_hash head)))
        end
  end.

(** The hints at and above the finalized head, or why the fork cannot be applied. *)
Definition hints_above (fin : option BlockRef) (prev : list BlockRef) : res (list BlockRef) :=
  match fin with
  | None => Ok prev
  | Some fin =>
      match drop_while (λ b, number b <? number fin) prev with
      | [] => Err (EFork HintsBelowFinalizedHead)
      | b :: rest =>
          if ((number b =? number fin) && negb (bool_decide (hash b = hash fin)))%bool
          then Err (EFork HintConflictsWithFinalizedHead)
          else Ok (b :: rest)
      end
  end.

Definition compute_rollback (w : WriteController) (prev : list BlockRef) (d : db M) : res Rollback :=
  _ ← ensure (negb (bool_decide (prev = []))) (EMsg "no previous blocks where provided");
  _ ← ensure (ascending prev) (EMsg "list of previous blocks does not have ascending order");
  maybe_label ← get_label d (wc_dataset_id w);
  label ← ok_or maybe_label (EMsg "dataset no longer exists");
  let finalized_head := label_finalized_head label in
  prev ← hints_above finalized_head prev;
  top ← match last prev with Some b => Ok b | None => Panic "unwrap" end;
  resumed ← resume_loop (list_chunks_rev (d CF_CHUNKS) (wc_dataset_id w) 0 (Some (number top)))
              (reverse prev);
  '(from, parent) ←
    match resumed with
    | Some r => Ok r
    | None =>
        first_chunk ← get_first_chunk d (wc_dataset_id w);
        match first_chunk with
        | Some chunk => Ok (first_block chunk, Some (parent_block_hash chunk))
        | None => Ok (wc_first_block w, wc_parent_block_hash w)
        end
    end;
  Ok (mkRollback from parent
        (match finalized_head with
         | Some fin => if from <=? number fin then Some (number fin) else None
         | None => None
         end)).

(** ** Retention *)

Inductive retain_status : Type :=
| StRange (first_chunk head : Chunk) (finalized_head : option BlockRef)
| StHashMismatch
| StGap (existed : Z)
| StClear.

(** The head chunk of the dataset under update. *)
Definition upd_last_chunk (u : DatasetUpdate M) : res (option Chunk) :=
  first_item (tx_list_chunks_rev (upd_dataset_id u) 0 None (upd_tx u)).
Definition upd_first_chunk (u : DatasetUpdate M) : res (option Chunk) :=
  first_item (tx_list_chunks (upd_dataset_id u) 0 None (upd_tx u)).

Fixpoint retain_loop (from_block : Z) (parent : option string) (delete_mismatch : bool)
    (chunks : list (res Chunk)) (status : retain_status) (u : DatasetUpdate M)
  : res (retain_status * DatasetUpdate M) :=
  match chunks with
  | [] => Ok (status, upd_set_finalized_head None u)
  | chunk_result :: chunks =>
      chunk ← chunk_result;
      if last_block chunk <? from_block then
        u ← upd_delete_chunk chunk u;
        retain_loop from_block parent delete_mismatch chunks status u
      else if from_block <? first_block chunk then
        if delete_mismatch then
          u ← upd_delete_chunk chunk u;
          retain_loop from_block parent delete_mismatch chunks
            (match status with StClear => StGap (first_block chunk) | s => s end) u
        else Err (EMsg "there is a gap between first requested block and already existing chunk")
      else
        hash_check ← match parent with
                     | Some h => validate_parent_block_hash chunk from_block h (upd_tx u)
                     | None => Ok None
                     end;
        match hash_check with
        | Some actual_hash =>
            if delete_mismatch then
              u ← upd_delete_chunk chunk u;
              retain_loop from_block parent delete_mismatch chunks StHashMismatch u
            else Err (EMsg "hash mismatch")
        | None =>
            maybe_head ← upd_last_chunk u;
            head ← match maybe_head with
                   | Some c => Ok c
                   | None => Panic "bottom chunk can't exist without head chunk"
                   end;
            let finalized_head :=
              match label_finalized_head (upd_label u) with
              | Some h => if first_block chunk <=? number h then Some h else None
              | None => None
              end in
            let u := match finalized_head with None => upd_set_finalized_head None u | Some _ => u end in
            Ok (StRange chunk head finalized_head, u)
        end
  end.

Definition retain_tx (from_block : Z) (parent : option string) (delete_mismatch : bool)
    (u : DatasetUpdate M) : res (retain_status * DatasetUpdate M) :=
  retain_loop from_block parent delete_mismatch
    (tx_list_chunks (upd_dataset_id u) 0 None (upd_tx u)) StClear u.

(** What [_retain] does with the committed status. *)
Definition apply_status (status : retain_status) (w : WriteController) : WriteController * bool :=
  match status with
  | StRange first_chunk head finalized_head =>
      (set_first_chunk_head (Some (get_chunk_head first_chunk))
         (set_finalized_head finalized_head (set_head (Some (get_chunk_head head)) w)), true)
  | StHashMismatch | StGap _ | StClear => (clear_heads w, false)
  end.

Definition _retain (w : WriteController) (from_block : Z) (parent : option string)
    (delete_mismatch : bool) (d : db M) : WriteController * db M * res bool :=
  if starts_at w from_block parent then (w, d, Ok true)
  else
    match update_dataset env counters D (wc_dataset_id w)
            (retain_tx from_block parent delete_mismatch) d with
    | (d, Ok status) =>
        let '(w, kept_head) := apply_status status w in
        (set_window from_block parent w, d, Ok kept_head)
    | (d, Err e) => (w, d, Err e)
    | (d, Panic m) => (w, d, Panic m)
    end.

Definition retain (w : WriteController) (from_block : Z) (parent : option string) (d : db M) :=
  _retain w from_block parent true d.
Definition init_retention (w : WriteController) (from_block : Z) (parent : option string) (d : db M) :=
  _retain w from_block parent false d.

(** ** Finality *)

Definition resolve_finality (u : DatasetUpdate M) (current : option BlockRef)
    (replacement : option Chunk) (logical_floor : Z) (report : BlockRef) : res FinalityDecision :=
  post_head ←
    match replacement with
    | Some chunk => Ok (get_chunk_head chunk)
    | None =>
        maybe ← upd_last_chunk u;
        chunk ← ok_or maybe (EMsg "can't finalize an empty dataset");
        Ok (get_chunk_head chunk)
    end;
  let clamped := number report >? number post_head in
  let effective := if clamped then post_head else report in
  if number effective <? logical_floor then Ok (FinIgnored IgnoredBelowRetainedWindow)
  else
    let against_current :=
      match current with
      | Some cur =>
          if number effective <? number cur then Some (FinIgnored Regressive)
          else if number effective =? number cur then
            if bool_decide (hash effective = hash cur) then Some (FinIgnored AlreadyFinalized)
            else Some (FinIntegrityFault FinalityHashChanged)
          else None
      | None => None
      end in
    match against_current with
    | Some verdict => Ok verdict
    | None =>
        if clamped then Ok (FinApplied effective)
        else
          let in_batch :=
            match replacement with
            | Some c =>
                if ((first_block c <=? number report) && (number report <=? last_block c))%bool
                then Some c else None
            | None => None
            end in
          match in_batch with
          | Some chunk =>
              found ← find_block_hash_in_chunk chunk (number report) (upd_tx u);
              match found with
              | Some h =>
                  Ok (if bool_decide (h = hash report) then FinApplied report
                      else FinIntegrityFault FinalityContradictsChunk)
              | None =>
                  stored ← find_stored_block_hash (upd_dataset_id u) (number report) (upd_tx u);
                  match stored with
                  | Some _ => Ok (FinIntegrityFault FinalityEvictsFinalizedBlock)
                  | None => Ok (FinIgnored NoBlockAtHeight)
                  end
              end
          | None =>
              stored ← find_stored_block_hash (upd_dataset_id u) (number report) (upd_tx u);
              match stored with
              | Some h =>
                  Ok (if bool_decide (h = hash report) then FinApplied report
                      else FinIntegrityFault FinalityContradictsStoredBlock)
              | None => Ok (FinIgnored NoBlockAtHeight)
              end
          end
    end.

Definition multiple_writers : error := EMsg "seems like the dataset is controlled by multiple processes".

Definition finalize_tx (w : WriteController) (head report : BlockRef) (u : DatasetUpdate M)
  : res (CommittedFinalityUpdate * DatasetUpdate M) :=
  _ ← ensure (bool_decide (label_finalized_head (upd_label u) = wc_finalized_head w)) multiple_writers;
  maybe_head_chunk ← upd_last_chunk u;
  _ ← match maybe_head_chunk with
      | Some c => ensure (bool_decide (last_block_hash c = hash head)) multiple_writers
      | None => Err multiple_writers
      end;
  decision ← resolve_finality u (label_finalized_head (upd_label u)) None (wc_first_block w) report;
  match decision with
  | FinApplied new_head => Ok (CommittedApplied new_head, upd_set_finalized_head (Some new_head) u)
  | FinIgnored reason => Ok (CommittedIgnored reason, u)
  | FinIntegrityFault reason => Err (EFork reason)
  end.

Definition finalize (w : WriteController) (report : BlockRef) (d : db M)
  : WriteController * db M * res unit :=
  match wc_head w with
  | None => (w, d, Ok tt)
  | Some head =>
      match update_dataset env counters D (wc_dataset_id w) (finalize_tx w head report) d with
      | (d, Ok (CommittedApplied new_head)) => (set_finalized_head (Some new_head) w, d, Ok tt)
      | (d, Ok (CommittedIgnored _)) => (w, d, Ok tt)
      | (d, Err e) => (w, d, Err e)
      | (d, Panic m) => (w, d, Panic m)
      end
  end.

(** ** New chunks *)

Definition new_chunk_tx (w : WriteController) (finalized_head : option BlockRef) (chunk : Chunk)
    (u : DatasetUpdate M)
  : res ((option BlockRef * option FinalityIgnoreReason) * DatasetUpdate M) :=
  first_stored ← upd_first_chunk u;
  let window_start := from_option first_block (wc_first_block w) first_stored in
  _ ← ensure (window_start <=? first_block chunk) (EFork BelowRetainedWindow);
  boundary_owner ← first_item (tx_list_chunks (upd_dataset_id u) (first_block chunk)
                                 (Some (first_block chunk)) (upd_tx u));
  _ ← match boundary_owner with
      | Some existing =>
          ensure (negb ((first_block existing <? first_block chunk) &&
                        (first_block chunk <=? last_block existing)))%bool (EFork StaleRollbackBoundary)
      | None => Ok tt
      end;
  let current := label_finalized_head (upd_label u) in
  _ ← match current with
      | Some cur =>
          if first_block chunk <=? number cur then
            _ ← ensure (number cur <=? last_block chunk) (EFork DropsFinalizedBlock);
            diverged ← validate_finalized_prefix (upd_dataset_id u) chunk (number cur) (upd_tx u);
            match diverged with Some _ => Err (EFork RewritesFinalizedHistory) | None => Ok tt end
          else Ok tt
      | None => Ok tt
      end;
  '(new_finalized_head, ignored) ←
    match finalized_head with
    | None => Ok (current, None)
    | Some report =>
        decision ← resolve_finality u current (Some chunk) (wc_first_block w) report;
        match decision with
        | FinApplied new_head => Ok (Some new_head, None)
        | FinIgnored reason => Ok (current, Some reason)
        | FinIntegrityFault reason => Err (EFork reason)
        end
    end;
  u ← upd_insert_fork chunk (upd_set_finalized_head new_finalized_head u);
  Ok ((new_finalized_head, ignored), u).

(** [abandon_tables]: the error of [delete_tables] is only logged. *)
Definition abandon_tables (chunk : Chunk) (d : db M) : db M :=
  (delete_tables env counters D (tables chunk).*2 d).1.

Definition new_chunk (w : WriteController) (finalized_head : option BlockRef) (chunk : Chunk)
    (d : db M) : WriteController * db M * res unit :=
  match update_dataset env counters D (wc_dataset_id w) (new_chunk_tx w finalized_head chunk) d with
  | (d, Ok (fin, _)) =>
      let w := set_finalized_head fin (set_head (Some (get_chunk_head chunk)) w) in
      let w :=
        if match wc_first_chunk_head w with
           | Some h => first_block chunk <=? number h
           | None => true
           end
        then set_first_chunk_head (wc_head w) w else w in
      (w, d, Ok tt)
  | (d, Err e) => (w, abandon_tables chunk d, Err e)
  | (d, Panic m) => (w, d, Panic m)
  end.

(** ** Messages *)

(** A chunk as the ingest task hands it over; [nc_tables] are the prepared tables. *)
Record NewChunk (P : Type) : Type := mkNewChunk {
  nc_finalized_head : option BlockRef;
  nc_parent_block_hash : string;
  nc_first_block : Z;
  nc_last_block : Z;
  nc_last_block_hash : string;
  nc_first_block_time : option Z;
  nc_last_block_time : option Z;
  nc_tables : P
}.

Inductive IngestMessage (P : Type) : Type :=
| MsgFinalizedHead (b : BlockRef)
| MsgNewChunk (c : NewChunk P)
| MsgFork (prev_blocks : list BlockRef) (receiver_alive : bool).

(** The table writer: materializes the prepared tables in [CF_TABLES]. *)
Context {P : Type} (build_tables : P → db M → db M * res (list (string * TableId))).

Definition write_new_chunk (w : WriteController) (nc : NewChunk P) (d : db M)
  : WriteController * db M * res unit :=
  match build_tables (nc_tables P nc) d with
  | (d, Ok ts) =>
      new_chunk w (nc_finalized_head P nc)
        (ChunkV1 (nc_first_block P nc) (nc_last_block P nc) (nc_last_block_hash P nc)
           (nc_parent_block_hash P nc) (nc_first_block_time P nc) (nc_last_block_time P nc) ts) d
  | (d, Err e) => (w, d, Err e)
  | (d, Panic m) => (w, d, Panic m)
  end.

(** Returns the rollback handed to the ingest task too. *)
Definition handle_ingest_msg (w : WriteController) (msg : IngestMessage P)
    (retain_from_head : option Z) (d : db M)
  : WriteController * db M * res (FlushFloorUpdate * option Rollback) :=
  match msg with
  | MsgFinalizedHead _ b =>
      let '(w, d, r) := finalize w b d in
      (w, d, (λ _, (FloorUnchanged, None)) <$> r)
  | MsgNewChunk _ nc =>
      match write_new_chunk w nc d with
      | (w, d, Ok _) =>
          match retain_from_head ≫= trim_floor (number <$> wc_first_chunk_head w) (wc_next_block w) with
          | Some floor =>
              let '(w, d, r) := retain w floor None d in
              (w, d, (λ _, (FloorSet None, None)) <$> r)
          | None => (w, d, Ok (FloorSet None, None))
          end
      | (w, d, Err e) => (w, d, Err e)
      | (w, d, Panic m) => (w, d, Panic m)
      end
  | MsgFork _ prev alive =>
      match compute_rollback w prev d with
      | Ok rollback =>
          (w, d, Ok (if alive then (FloorSet (reach_at_least rollback), Some rollback)
                     else (FloorSet None, None)))
      | Err e => (w, d, Err e)
      | Panic m => (w, d, Panic m)
      end
  end.
End controller.
