(* ===== verification/ControllerSpec.v ===== *)
(** * ControllerSpec: the invariants of the write path

    Theorems about [WriteController]: its working copy always equals the committed
    state, the window stays gapless, the finalized head stays inside the window, and
    no transition other than retention rewrites finalized history. *)

From stdpp Require Import relations.
From S2P Require Import Prelude Bytes Data Kv ChunkIter Tables Chain Tx Concrete.
From S2P Require Import TxSpec UpdateSpec Retry PrefixSpec Cleanup Db DbSpec WriteController.

Section facts.
Context {M C T : Type} `{HK : KvStore M C} `{HL : !KvStoreLaws M C}
  `{HB : Borsh} `{HBL : !BorshLaws} `{HT : TableReader T} `{HTL : !TableReaderLaws T}
  `{HS : !TableStore M T}.
Context (env : db M → nat → attempt_env M) (counters : tx_counters) (D : Database).
Implicit Types (d : db M) (id : DatasetId) (w : WriteController) (u : DatasetUpdate M).

(** ** The committed state of a dataset *)

(** The finalized head lies inside the window. *)
Definition fin_in_window (fin : option BlockRef) (cs : list Chunk) : Prop :=
  match fin with
  | None => True
  | Some f => ∃ a b, head cs = Some a ∧ last cs = Some b ∧ first_block a <= number f <= last_block b
  end.

Record ds_state d id (l : DatasetLabel) (cs : list Chunk) : Prop := {
  ds_label : kv_get (d CF_DATASETS) id = Some (label_to_vec l);
  ds_cf : chunks_cf_ok (d CF_CHUNKS);
  ds_chunks : chunks_of (d CF_CHUNKS) id = cs;
  ds_tiled : tiled cs;
  ds_fin : fin_in_window (label_finalized_head l) cs
}.

Lemma ds_chain d id l cs : ds_state d id l cs → chain cs.
Proof. intros []. by apply tiled_chain. Qed.

(** The state right after [DatasetUpdate::new]. *)
Definition fresh_update d id (l : DatasetLabel) u : Prop :=
  upd_dataset_id u = id ∧ upd_label u = l ∧ tx_view (upd_tx u) = d ∧ tx_db (upd_tx u) = d.

Lemma fresh_chunks d id l u : fresh_update d id l u → upd_chunks u = chunks_of (d CF_CHUNKS) id.
Proof. intros (E1 & _ & E3 & _). unfold upd_chunks. by rewrite E1, E3. Qed.

Lemma fresh_ok d id l cs u : dataset_id_ok id → ds_state d id l cs → fresh_update d id l u → upd_ok u.
Proof.
  intros Hid Hs Hf. pose proof (ds_chain _ _ _ _ Hs) as Hch. pose proof (fresh_chunks _ _ _ _ Hf) as Ec.
  destruct Hf as (E1 & _ & E3 & _), Hs. constructor; [by rewrite E1|by rewrite E3|]. by rewrite Ec, ds_chunks0.
Qed.

(** The state a committed update leaves. *)
Record committed d d' u' id : Prop := {
  cm_label : kv_get (d' CF_DATASETS) id = Some (label_to_vec (bump_version (upd_label u')));
  cm_cf : chunks_cf_ok (d' CF_CHUNKS);
  cm_chunks : chunks_of (d' CF_CHUNKS) id = upd_chunks u';
  cm_tables : d' CF_TABLES = d CF_TABLES;
  cm_others id' : dataset_id_ok id' → id' ≠ id →
    chunks_of (d' CF_CHUNKS) id' = chunks_of (d CF_CHUNKS) id' ∧
    kv_get (d' CF_DATASETS) id' = kv_get (d CF_DATASETS) id'
}.

(** An update without other writers: it runs on the committed state and, if it
    succeeds, its result is the new committed state; if not, nothing changes. *)
Lemma update_quiet {R} (cb : DatasetUpdate M → res (R * DatasetUpdate M)) d d' id l cs r :
  quiet env → dataset_id_ok id → ds_state d id l cs →
  (∀ u a u', fresh_update d id l u → cb u = Ok (a, u') → upd_steps u u') →
  update_dataset env counters D id cb d = (d', r) →
  match r with
  | Ok a => ∃ u u', fresh_update d id l u ∧ cb u = Ok (a, u') ∧ upd_ok u' ∧ committed d d' u' id
  | _ => d' = d
  end.
Proof.
  intros Hq Hid Hs Hcb E. apply (exec_spec _ _ _ _ _ _ _ _ _ Hq) in E.
  destruct r as [a|e|m]; [|done..]. destruct E as (tx & Ho & ->). unfold update_dataset_tx in Ho.
  apply bind_Ok in Ho as (u & Hu & Ho). apply bind_Ok in Ho as ([r' u'] & Hcbu & Ho).
  injection Ho as -> <-.
  destruct (update_new_spec id d _ _ u Hu) as (Eid & Ev & Ed & Ht & bs & Hbs & Hl).
  assert (Hf : fresh_update d id l u).
  { split_and!; try done. rewrite (ds_label _ _ _ _ Hs) in Hbs. injection Hbs as <-.
    rewrite label_roundtrip in Hl. congruence. }
  pose proof (Hcb _ _ _ Hf Hcbu) as Hst.
  destruct (upd_steps_ok u u' Hst (fresh_ok _ _ _ _ _ Hid Hs Hf)) as (Hok & (E1 & E2 & E3 & E4 & E5 & E6 & E7) & Ho).
  exists u, u'. split; [done|]. split; [done|]. split; [done|].
  rewrite (commit_view d) by (simpl; congruence).
  assert (Hfc : ∀ c, c ≠ CF_DATASETS → tx_view (upd_finish u') c = tx_view (upd_tx u') c).
  { intros c Hc. unfold upd_finish, write_label, put_cf. rewrite tx_view_stage. by apply apply_op_other. }
  constructor.
  - unfold upd_finish. rewrite write_label_get, decide_True by (split; [done|congruence]). done.
  - rewrite Hfc by done. apply Hok.
  - rewrite Hfc by done. unfold upd_chunks. by rewrite E1, Eid.
  - rewrite Hfc, E5 by done. by rewrite Ev.
  - intros id' Hid' Hne. rewrite Hfc by done. rewrite Eid in Ho. split.
    + rewrite (Ho id' Hid' Hne). by rewrite Ev.
    + unfold upd_finish. rewrite write_label_get, decide_False by (intros [_ ?]; congruence).
      rewrite E4. by rewrite Ev.
Qed.

Lemma committed_state d d' u' id : upd_ok u' → upd_dataset_id u' = id → committed d d' u' id →
  tiled (upd_chunks u') → fin_in_window (label_finalized_head (upd_label u')) (upd_chunks u') →
  ds_state d' id (bump_version (upd_label u')) (upd_chunks u').
Proof. intros Hok Hid [] Ht Hf. constructor; try done. by destruct (upd_label u'). Qed.

(** ** Reads inside an update *)

Lemma first_item_Ok (l : list Chunk) : first_item (Ok <$> l) = Ok (head l).
Proof. by destruct l. Qed.

Lemma upd_first_chunk_spec u : upd_ok u → upd_first_chunk u = Ok (head (upd_chunks u)).
Proof.
  intros [Hid Hcf _]. unfold upd_first_chunk, tx_list_chunks. rewrite list_all by done.
  apply first_item_Ok.
Qed.

Lemma head_reverse {A} (l : list A) : head (reverse l) = last l.
Proof. destruct l as [|x l _] using rev_ind; [done|]. by rewrite reverse_snoc, last_snoc. Qed.

Lemma upd_last_chunk_spec u : upd_ok u → upd_last_chunk u = Ok (last (upd_chunks u)).
Proof.
  intros [Hid Hcf _]. unfold upd_last_chunk, tx_list_chunks_rev. rewrite list_all_rev by done.
  rewrite first_item_Ok. by rewrite head_reverse.
Qed.

(** A block hash found in stored history lies in a stored chunk. *)
Lemma find_stored_in_chunk u b h : upd_ok u → u64_ok b →
  find_stored_block_hash (upd_dataset_id u) b (upd_tx u) = Ok (Some h) →
  ∃ c, c ∈ upd_chunks u ∧ first_block c <= b <= last_block c ∧
    find_block_hash_in_chunk c b (upd_tx u) = Ok (Some h).
Proof.
  intros [Hid Hcf Hch] Hb. unfold find_stored_block_hash, tx_list_chunks.
  rewrite list_chunks_window by done. rewrite first_item_Ok. cbn [mbind res_bind].
  fold (upd_chunks u).
  destruct (head (filter _ _)) as [c|] eqn:E; [|done]. intros Hf. exists c.
  assert (Hc : c ∈ filter (λ c, in_window b (Some b) c = true) (upd_chunks u))
    by (destruct (filter _ _); simplify_eq/=; lmem).
  apply list_elem_of_filter in Hc as [Hw Hc]. split; [done|]. split; [|done].
  unfold in_window in Hw. rewrite andb_true_iff, !Z.leb_le in Hw. lia.
Qed.

(** ** Finality decisions *)

(** What an applied report is: above the current finalized head, at or above the
    logical floor, and either the resulting head or a block found where it was
    reported. *)
Lemma resolve_applied u cur repl floor report b : upd_ok u → u64_ok (number report) →
  resolve_finality u cur repl floor report = Ok (FinApplied b) →
  floor <= number b ∧ (∀ f, cur = Some f → number f < number b) ∧
  ((∃ c, match repl with Some r => c = r | None => last (upd_chunks u) = Some c end ∧
         b = get_chunk_head c ∧ last_block c < number report) ∨
   b = report ∧
   ((∃ c, repl = Some c ∧ first_block c <= number b <= last_block c ∧
        find_block_hash_in_chunk c (number b) (upd_tx u) = Ok (Some (hash b))) ∨
    (match repl with Some c => number b < first_block c | None => True end ∧
     ∃ c, c ∈ upd_chunks u ∧ first_block c <= number b <= last_block c ∧
        find_block_hash_in_chunk c (number b) (upd_tx u) = Ok (Some (hash b))))).
Proof.
  intros Hok Hr. unfold resolve_finality. intros Ho.
  apply bind_Ok in Ho as (ph & Hph & Ho).
  assert (Hpc : ∃ c, match repl with Some r => c = r | None => last (upd_chunks u) = Some c end ∧
                     ph = get_chunk_head c).
  { destruct repl as [r|]; [simplify_eq; eauto|]. rewrite upd_last_chunk_spec in Hph by done.
    cbn [mbind res_bind] in Hph. inv_res Hph. apply ok_or_Ok in Hv. eauto. }
  destruct Hpc as (pc & Hpc & ->). cbn [number get_chunk_head] in *.
  rewrite Z.gtb_ltb in Ho. set (clamped := last_block pc <? number report) in *.
  set (eff := if clamped then get_chunk_head pc else report) in *.
  destruct (Z.ltb_spec (number eff) floor) as [|Hfl]; [done|].
  assert (Hcur : (match cur with
      | Some cur => if number eff <? number cur then Some (FinIgnored Regressive)
          else if number eff =? number cur then
            if bool_decide (hash eff = hash cur) then Some (FinIgnored AlreadyFinalized)
            else Some (FinIntegrityFault FinalityHashChanged) else None
      | None => None end) = None ∧ ∀ f, cur = Some f → number f < number eff).
  { destruct cur as [f|]; [|done].
    destruct (Z.ltb_spec (number eff) (number f)); [done|].
    destruct (Z.eqb_spec (number eff) (number f)); [case_bool_decide; done|].
    split; [done|]. intros ? [= <-]. lia. }
  destruct Hcur as [Hnone Hlt]. rewrite Hnone in Ho.
  destruct clamped eqn:Ecl; unfold clamped in Ecl; zbool.
  { injection Ho as <-. unfold eff in *. split; [done|]. split; [done|]. left. eauto. }
  unfold eff in *. clear eff Hnone.
  assert (Hstored : (stored ← find_stored_block_hash (upd_dataset_id u) (number report) (upd_tx u);
      match stored with
      | Some h => Ok (if bool_decide (h = hash report) then FinApplied report
                      else FinIntegrityFault FinalityContradictsStoredBlock)
      | None => Ok (FinIgnored NoBlockAtHeight) end) = Ok (FinApplied b) →
    b = report ∧ ∃ c, c ∈ upd_chunks u ∧ first_block c <= number b <= last_block c ∧
        find_block_hash_in_chunk c (number b) (upd_tx u) = Ok (Some (hash b))).
  { intros Hs. apply bind_Ok in Hs as ([h|] & Hf & Hs); [|done]. case_bool_decide; simplify_eq.
    split; [done|]. by apply find_stored_in_chunk. }
  destruct repl as [r|]; cycle 1.
  { destruct (Hstored Ho) as [-> Hin]. split; [done|]. split; [done|]. right. split; [done|]. by right. }
  subst pc. destruct ((first_block r <=? number report) && (number report <=? last_block r))%bool eqn:Eb; zbool.
  - apply bind_Ok in Ho as ([h|] & Hf & Ho).
    + case_bool_decide; simplify_eq. split; [done|]. split; [done|]. right. split; [done|]. left. eauto.
    + apply bind_Ok in Ho as ([h|] & _ & Ho); done.
  - destruct (Hstored Ho) as [-> Hin]. split; [done|]. split; [done|]. right. split; [done|]. right.
    split; [|done]. apply andb_false_iff in Eb as [Eb|Eb]; zbool; lia.
Qed.

(** ** New chunks *)

(** The guard on the finalized prefix. *)
Definition prefix_guard u (c : Chunk) : Prop :=
  ∀ f, label_finalized_head (upd_label u) = Some f → first_block c <= number f →
    number f <= last_block c ∧
    validate_finalized_prefix (upd_dataset_id u) c (number f) (upd_tx u) = Ok None.

(** Where the finalized head after the chunk comes from. *)
Definition fin_source w u (report : option BlockRef) (c : Chunk) (fin : option BlockRef) : Prop :=
  fin = label_finalized_head (upd_label u) ∨
  ∃ r b, report = Some r ∧ fin = Some b ∧
    resolve_finality u (label_finalized_head (upd_label u)) (Some c) (wc_first_block w) r = Ok (FinApplied b).

Lemma new_chunk_tx_inv w report c u fin ig u' : upd_ok u →
  new_chunk_tx w report c u = Ok ((fin, ig), u') →
  match head (upd_chunks u) with
  | Some a => first_block a <= first_block c
  | None => wc_first_block w <= first_block c
  end ∧
  prefix_guard u c ∧ fin_source w u report c fin ∧
  upd_insert_fork c (upd_set_finalized_head fin u) = Ok u'.
Proof.
  intros Hok. unfold new_chunk_tx. rewrite upd_first_chunk_spec by done. cbn [mbind res_bind].
  intros Ho. apply bind_Ok in Ho as ([] & Hw & Ho). apply ensure_Ok in Hw. zbool.
  apply bind_Ok in Ho as (bo & _ & Ho). apply bind_Ok in Ho as ([] & _ & Ho).
  apply bind_Ok in Ho as ([] & Hg & Ho). apply bind_Ok in Ho as ([fin0 ig0] & Hd & Ho).
  apply bind_Ok in Ho as (u1 & Hi & Ho). injection Ho as -> -> ->.
  split; [by destruct (head (upd_chunks u))|]. split_and!; [| |done].
  - intros f Hf Hle. rewrite Hf in Hg. apply Z.leb_le in Hle. rewrite Hle in Hg.
    apply bind_Ok in Hg as ([] & Hg1 & Hg). apply ensure_Ok in Hg1. zbool. split; [done|].
    apply bind_Ok in Hg as ([v|] & Hv & Hg); done.
  - destruct report as [r|]; [|left; by simplify_eq].
    apply bind_Ok in Hd as ([b|reason|reason] & Hr & Hd); simplify_eq.
    + right. eauto.
    + by left.
Qed.

Lemma new_chunk_tx_steps w report c u a u' : chunk_ok c → upd_ok u →
  new_chunk_tx w report c u = Ok (a, u') → upd_steps u u'.
Proof.
  destruct a as [fin ig]. intros Hc Hok Ho.
  destruct (new_chunk_tx_inv w report c u fin ig u' Hok Ho) as (_ & _ & _ & Hi).
  eapply rtc_l; [apply step_set_finalized_head|]. apply rtc_once. by eapply step_insert_fork.
Qed.

Lemma tiled_first_le cs a x : tiled cs → head cs = Some a → x ∈ cs → first_block a <= first_block x.
Proof.
  intros Ht Ha Hx. pose proof (chain_sorted _ (tiled_chain _ Ht)) as Hs. destruct Ht as [Hok _].
  destruct cs as [|y cs]; [done|]. simplify_eq/=. apply Forall_cons in Hok as [Hy _].
  apply elem_of_cons in Hx as [->|Hx]; [lia|]. pose proof (StronglySorted_elem _ _ _ Hs x Hx) as Hlt.
  unfold chunk_ok in Hy. simpl in Hlt. lia.
Qed.

Lemma tiled_last_ge cs z x : tiled cs → last cs = Some z → x ∈ cs → last_block x <= last_block z.
Proof.
  intros Ht Hz Hx. pose proof (chain_sorted_last _ (tiled_chain _ Ht)) as Hs.
  destruct cs as [|y cs _] using rev_ind; [done|]. rewrite last_snoc in Hz. simplify_eq.
  apply StronglySorted_snoc in Hs as [_ Hs]. rewrite Forall_forall in Hs.
  rewrite elem_of_app, list_elem_of_singleton in Hx. destruct Hx as [Hx| ->]; [|lia].
  specialize (Hs x Hx). simpl in Hs. lia.
Qed.

(** A block inside a chunk of the window is inside the window. *)
Lemma tiled_window cs x b : tiled cs → x ∈ cs → first_block x <= number b <= last_block x →
  fin_in_window (Some b) cs.
Proof.
  intros Ht Hx Hb. destruct (head cs) as [a|] eqn:Ea; [|by destruct cs; [apply elem_of_nil in Hx|]].
  destruct (last cs) as [z|] eqn:Ez; [|by apply last_None in Ez as ->].
  pose proof (tiled_first_le _ _ _ Ht Ea Hx). pose proof (tiled_last_ge _ _ _ Ht Ez Hx).
  exists a, z. split; [done|]. split; [done|]. lia.
Qed.

(** The chunk list after a fork, in the terms of the window. *)
Lemma fork_window cs c cs' : tiled cs → chunk_ok c → fork_spec cs c = Ok cs' →
  (∀ a, head cs = Some a → first_block a <= first_block c) →
  ∃ kept dropped, cs = kept ++ dropped ∧ cs' = kept ++ [c] ∧ tiled cs' ∧
    Forall (λ x, last_block x < first_block c) kept ∧
    Forall (λ x, first_block c <= first_block x) dropped ∧
    match head cs with
    | Some a => ∃ a', head cs' = Some a' ∧ first_block a' = first_block a ∧ (kept ≠ [] → a' = a)
    | None => kept = []
    end.
Proof.
  intros Ht Hc Hf Hw. pose proof (tiled_chain _ Ht) as Hch.
  destruct (fork_spec_shape _ _ _ Hch Hc Hf) as (kept & -> & Hk & Hlast).
  destruct (fork_spec_preserves _ _ _ Hc Hf Hch) as [Hch' Ht'].
  destruct (take_while_prefix (λ x, first_block x <? first_block c) cs) as [dropped Hcs].
  rewrite <-Hk in Hcs. exists kept, dropped. split_and!; [done|done|by apply Ht'|..].
  - by apply chain_sorted, StronglySorted_snoc in Hch' as [_ ?].
  - destruct dropped as [|x dropped]; [constructor|].
    assert (Hx : first_block c <= first_block x).
    { assert (Hk' : kept = take_while (λ x, first_block x <? first_block c) (kept ++ x :: dropped)) by congruence.
      clear -Hk'. induction kept as [|y kept IH]; simpl in Hk'.
      - destruct (Z.ltb_spec (first_block x) (first_block c)); [done|lia].
      - destruct (first_block y <? first_block c); [|done]. injection Hk' as Hk'. auto. }
    rewrite Hcs in Ht. apply tiled_app in Ht as [_ Ht]. apply Forall_forall. intros y Hy.
    pose proof (tiled_first_le _ x y Ht eq_refl Hy). lia.
  - destruct (head cs) as [a|] eqn:Ea; [|by destruct cs, kept].
    destruct kept as [|k kept]; simpl.
    + exists c. split; [done|]. split; [|done]. specialize (Hw a eq_refl).
      assert (Hd : first_block c <= first_block a); [|lia].
      destruct cs as [|y cs]; [done|]. simplify_eq/=.
      destruct (Z.ltb_spec (first_block a) (first_block c)); [done|lia].
    + exists k. rewrite Hcs in Ea. simpl in Ea. by simplify_eq.
Qed.

Lemma label_set_fin l fin : label_finalized_head (label_set_finalized_head l fin) = fin.
Proof. by destruct l. Qed.

Lemma label_bump_fin l : label_finalized_head (bump_version l) = label_finalized_head l.
Proof. by destruct l. Qed.

Lemma upd_insert_fork_label c u u' : upd_insert_fork c u = Ok u' →
  upd_label u' = upd_label u ∧ upd_dataset_id u' = upd_dataset_id u.
Proof. unfold upd_insert_fork. intros Ho. by apply bind_Ok in Ho as (tx & _ & [= <-]). Qed.

(** The finalized head stays in the window and never moves back. *)
Lemma new_chunk_fin w report c u fin cs' : upd_ok u → tiled (upd_chunks u) → chunk_ok c →
  (∀ r, report = Some r → u64_ok (number r)) →
  (∀ a, head (upd_chunks u) = Some a → first_block a <= first_block c) →
  fin_in_window (label_finalized_head (upd_label u)) (upd_chunks u) →
  prefix_guard u c → fin_source w u report c fin → fork_spec (upd_chunks u) c = Ok cs' →
  fin_in_window fin cs' ∧
  (∀ f, label_finalized_head (upd_label u) = Some f → ∃ f', fin = Some f' ∧
     (f' = f ∨ number f < number f')).
Proof.
  intros Hok Ht Hc Hrep Hwin Hfin Hg Hsrc Hf.
  destruct (fork_window _ _ _ Ht Hc Hf Hwin) as (kept & dropped & Hcs & -> & Ht' & _ & _ & Hhead).
  assert (Hc1 : first_block c <= last_block c) by (unfold chunk_ok in Hc; lia).
  destruct Hsrc as [->|(r & b & -> & -> & Hr)].
  - split; [|intros f ->; eauto].
    destruct (label_finalized_head (upd_label u)) as [f|] eqn:Ef; [|done].
    destruct Hfin as (a & z & Ha & Hz & Hin). rewrite Ha in Hhead.
    destruct Hhead as (a' & Ha' & Ea' & _). exists a', c. rewrite last_snoc.
    split_and!; [done..|lia|].
    destruct (Z.le_gt_cases (first_block c) (number f)) as [Hle|Hgt]; [|lia].
    by apply (Hg f Ef).
  - apply resolve_applied in Hr as (_ & Hlt & Hb); [|done|by apply Hrep].
    split; [|intros f Hf'; exists b; split; [done|right; auto]].
    assert (Hb' : (∃ x, x ∈ upd_chunks u ∧ first_block x <= number b ∧ number b <= last_block c) ∨
                  first_block c <= number b <= last_block c).
    { destruct Hb as [(x & -> & -> & _)|[-> [(x & [= <-] & Hx & _)|(Hlt' & x & Hx & Hin & _)]]];
        [right; simpl; lia|by right|]. left. exists x. split; [done|]. lia. }
    destruct (head (upd_chunks u)) as [a|] eqn:Ea.
    + destruct Hhead as (a' & Ha' & Ea' & _). exists a', c. rewrite last_snoc. split_and!; [done..| |].
      * specialize (Hwin a eq_refl). destruct Hb' as [(x & Hx & Hx1 & _)|?]; [|lia].
        pose proof (tiled_first_le _ a x Ht Ea Hx). lia.
      * destruct Hb' as [(x & _ & _ & ?)|?]; lia.
    + destruct (upd_chunks u) as [|y l] eqn:Eu; [|done]. subst kept. exists c, c. split_and!; try done;
        destruct Hb' as [(x & Hx & _)|?]; try lia; by apply elem_of_nil in Hx.
Qed.

(** ** Blocks *)

(** The blocks of a chunk in the tables [m], and that they are what the chunk says:
    numbered inside its range, the last one being its head. *)
Definition chunk_rows (m : M) (c : Chunk) (rows : list (Z * string)) : Prop :=
  (∃ id (t : T) i j, table_get "blocks" (tables c) = Some id ∧ open_table m id = Ok t ∧
     blocks_table_ok t i j ∧ rows = rows_of (column t i) (column t j) ∧
     (field_type t i = UInt32 → Forall (λ n, n <= u32_max) (cell_num <$> column t i))) ∧
  Forall (λ p, first_block c <= p.1 <= last_block c) rows ∧
  last rows = Some (last_block c, last_block_hash c).

Lemma chunk_rows_block m c rows (tx : Tx M) : tx_db tx CF_TABLES = m → chunk_rows m c rows → block_rows tx c rows.
Proof. intros <- ((id & t & i & j & A & B & E & F & _) & _). exists id, t, i, j. done. Qed.

(** A hash found in a chunk is one of its rows. *)
Lemma find_in_chunk_rows m c rows (tx : Tx M) b h : tx_db tx CF_TABLES = m → chunk_rows m c rows → u64_ok b →
  find_block_hash_in_chunk c b tx = Ok (Some h) → (b, h) ∈ rows.
Proof.
  intros <- ((id & t & i & j & Hid & Ht & Hok & -> & H32) & _) Hb.
  unfold find_block_hash_in_chunk, blocks_table, open_db_table. rewrite Hid. cbn [ok_or mbind res_bind].
  rewrite Ht. cbn [mbind res_bind]. destruct (find_block_hash_spec t i j b Hok Hb H32) as (o & -> & Ho).
  by intros [= ->].
Qed.

Definition below (n : Z) (rows : list (Z * string)) : list (Z * string) := filter (λ p, p.1 <= n) rows.

Lemma below_app n l k : below n (l ++ k) = below n l ++ below n k.
Proof. apply filter_app. Qed.
Lemma below_none n rows lo : Forall (λ p, lo <= p.1) rows → n < lo → below n rows = [].
Proof.
  intros Hr Hlt. apply list_filter_none. rewrite Forall_forall in Hr.
  intros p Hp. specialize (Hr p Hp). simpl in Hr. lia.
Qed.

Lemma chunk_rows_from m c rows lo : chunk_rows m c rows → lo <= first_block c →
  Forall (λ p, lo <= p.1) rows.
Proof. intros (_ & Hr & _) Hlo. eapply Forall_impl; [exact Hr|]. simpl. intros; lia. Qed.

(** The stored blocks that the finalized-prefix check reads, when all chunks start at
    or above [lo]. *)
Lemma window_rows m (tx : Tx M) lo n cs rowss : tx_db tx CF_TABLES = m →
  Forall2 (chunk_rows m) cs rowss → Forall (λ x, lo <= first_block x ∧ first_block x <= last_block x) cs →
  ∃ rw, Forall2 (block_rows tx) (filter (λ x, in_window lo (Some n) x = true) cs) rw ∧
    rows_between lo n (concat rw) = below n (concat rowss).
Proof.
  intros Hm Hall. induction Hall as [|c rows cs rowss Hc Hall IH]; intros Hlo; [by exists []|].
  apply Forall_cons in Hlo as [Hlc Hlo]. destruct (IH Hlo) as (rw & Hrw & E).
  rewrite filter_cons. cbn [concat]. rewrite below_app.
  assert (Hw : in_window lo (Some n) c = (first_block c <=? n)).
  { unfold in_window. by rewrite (proj2 (Z.leb_le lo (last_block c))) by lia. }
  destruct (Z.leb_spec (first_block c) n) as [Hin|Hout].
  - rewrite decide_True by done. exists (rows :: rw). split.
    + constructor; [by eapply chunk_rows_block|done].
    + cbn [concat]. unfold rows_between in *. rewrite filter_app, E. f_equal.
      apply list_filter_iff'. pose proof (chunk_rows_from _ _ _ lo Hc ltac:(lia)) as Hr.
      rewrite Forall_forall in Hr |- *. intros p Hp. specialize (Hr p Hp). simpl in Hr. lia.
  - rewrite decide_False by (rewrite Hw; done). exists rw. split; [done|].
    by rewrite (below_none _ _ _ (chunk_rows_from _ _ _ (first_block c) Hc ltac:(lia)) Hout).
Qed.

(** The blocks at or below the finalized head survive a fork unchanged. *)
Lemma fork_keeps_finalized u c cs' f rows rowss : upd_ok u → tiled (upd_chunks u) → chunk_ok c →
  (∀ a, head (upd_chunks u) = Some a → first_block a <= first_block c) →
  prefix_guard u c → fork_spec (upd_chunks u) c = Ok cs' →
  label_finalized_head (upd_label u) = Some f →
  Forall2 (chunk_rows (tx_db (upd_tx u) CF_TABLES)) (upd_chunks u) rowss →
  chunk_rows (tx_db (upd_tx u) CF_TABLES) c rows →
  ∃ rowss', Forall2 (chunk_rows (tx_db (upd_tx u) CF_TABLES)) cs' rowss' ∧
    below (number f) (concat rowss') = below (number f) (concat rowss).
Proof.
  intros Hok Ht Hc Hwin Hg Hf Hfin Hrows Hrc. set (m := tx_db (upd_tx u) CF_TABLES) in *.
  destruct (fork_window _ _ _ Ht Hc Hf Hwin) as (kept & dropped & Hcs & -> & _ & Hk & Hd & _).
  pose proof Hrows as Hsplit. rewrite Hcs in Hsplit.
  apply Forall2_app_inv_l in Hsplit as (rk & rd & Hrk & Hrd & ->).
  exists (rk ++ [rows]). split; [apply Forall2_app; [done|by apply Forall2_cons]|].
  rewrite !concat_app, !below_app. f_equal. cbn [concat]. rewrite app_nil_r.
  assert (Hdok : Forall (λ x, first_block c <= first_block x ∧ first_block x <= last_block x) dropped).
  { destruct Ht as [Hall _]. rewrite Hcs in Hall. apply Forall_app in Hall as [_ Hall].
    rewrite Forall_forall in *. intros x Hx. specialize (Hall x Hx). specialize (Hd x Hx).
    unfold chunk_ok in Hall. simpl in Hd. lia. }
  destruct (Z.le_gt_cases (first_block c) (number f)) as [Hle|Hgt].
  - destruct (Hg f Hfin Hle) as [_ Hv].
    destruct (window_rows m (upd_tx u) (first_block c) (number f) dropped rd eq_refl Hrd Hdok) as (rw & Hrw & E).
    destruct Hok as [Hid Hcf Hch].
    assert (Hu64 : u64_ok (first_block c)) by (by apply chunk_ok_u64).
    rewrite (validate_finalized_prefix_spec _ c (number f) _ rows rw) in Hv; try done.
    + injection Hv as Hv. apply first_divergence_None in Hv. by rewrite <-E, Hv.
    + by eapply chunk_rows_block.
    + fold (upd_chunks u). rewrite Hcs, filter_app.
      rewrite (list_filter_none _ kept); [done|]. rewrite Forall_forall in Hk. intros x Hx Hw.
      specialize (Hk x Hx). unfold in_window in Hw. rewrite andb_true_iff, Z.leb_le in Hw. simpl in Hk. lia.
  - assert (Hrd' : Forall (λ p, first_block c <= p.1) (concat rd)).
    { clear -Hrd Hdok. induction Hrd as [|x r xs rs Hx _ IH]; [constructor|].
      apply Forall_cons in Hdok as [? Hdok]. cbn [concat]. apply Forall_app. split; [|auto].
      eapply chunk_rows_from; [done|lia]. }
    pose proof (chunk_rows_from _ _ _ (first_block c) Hrc ltac:(lia)) as Hrc'.
    by rewrite (below_none (number f) rows (first_block c)), (below_none (number f) _ (first_block c)).
Qed.

(** ** The controller invariant *)

(** The working copy equals the committed state [l], [cs], and both watermarks are
    published. *)
Record wc_inv w d (l : DatasetLabel) (cs : list Chunk) : Prop := {
  inv_id : dataset_id_ok (wc_dataset_id w);
  inv_state : ds_state d (wc_dataset_id w) l cs;
  inv_head : wc_head w = get_chunk_head <$> last cs;
  inv_first : wc_first_chunk_head w = get_chunk_head <$> head cs;
  inv_fin : wc_finalized_head w = label_finalized_head l;
  inv_pub_head : wc_head_sender w = wc_head w;
  inv_pub_fin : wc_finalized_head_sender w = wc_finalized_head w
}.

(** What subscribers may see: no finalized head without or above a head. *)
Definition watermarks_ok (h f : option BlockRef) : Prop :=
  ∀ b, f = Some b → ∃ a, h = Some a ∧ number b <= number a.

Fixpoint log_ok (h f : option BlockRef) (evs : list pub_event) : Prop :=
  match evs with
  | [] => True
  | PubHead h :: evs => watermarks_ok h f ∧ log_ok h f evs
  | PubFinalized f :: evs => watermarks_ok h f ∧ log_ok h f evs
  end.

(** The pair of watermarks a subscriber ends up with. *)
Definition see (p : option BlockRef * option BlockRef) (e : pub_event) : option BlockRef * option BlockRef :=
  match e with PubHead h => (h, p.2) | PubFinalized f => (p.1, f) end.

Lemma log_ok_app h f evs1 evs2 h' f' :
  log_ok h f evs1 → foldl see (h, f) evs1 = (h', f') → log_ok h' f' evs2 → log_ok h f (evs1 ++ evs2).
Proof.
  revert h f; induction evs1 as [|[b|b] evs1 IH]; simpl; intros h f H1 E H2; [by simplify_eq|..];
    destruct H1; eauto.
Qed.

(** What a transition of the controller guarantees of the log. *)
Definition log_extends w w' : Prop :=
  ∃ evs, wc_events w' = wc_events w ++ evs ∧
    log_ok (wc_head_sender w) (wc_finalized_head_sender w) evs ∧
    foldl see (wc_head_sender w, wc_finalized_head_sender w) evs =
      (wc_head_sender w', wc_finalized_head_sender w').

Lemma log_extends_refl w : log_extends w w.
Proof. exists []. by rewrite app_nil_r. Qed.

Lemma log_extends_trans w1 w2 w3 : log_extends w1 w2 → log_extends w2 w3 → log_extends w1 w3.
Proof.
  intros (e1 & E1 & L1 & S1) (e2 & E2 & L2 & S2). exists (e1 ++ e2). split_and!.
  - by rewrite E2, E1, app_assoc.
  - by eapply log_ok_app.
  - by rewrite foldl_app, S1.
Qed.

Lemma fin_watermarks fin cs : fin_in_window fin cs → watermarks_ok (get_chunk_head <$> last cs) fin.
Proof. intros Hf b ->. destruct Hf as (a & z & _ & -> & ?). exists (get_chunk_head z). simpl. split; [done|lia]. Qed.

(** Publishing a head and then a finalized head. *)
Lemma publish_both w h f :
  wc_head_sender w = wc_head w → wc_finalized_head_sender w = wc_finalized_head w →
  watermarks_ok h (wc_finalized_head w) → watermarks_ok h f →
  let w' := set_finalized_head f (set_head h w) in
  wc_head w' = h ∧ wc_finalized_head w' = f ∧ wc_head_sender w' = h ∧ wc_finalized_head_sender w' = f ∧
  wc_dataset_id w' = wc_dataset_id w ∧ wc_first_chunk_head w' = wc_first_chunk_head w ∧
  wc_first_block w' = wc_first_block w ∧ wc_parent_block_hash w' = wc_parent_block_hash w ∧
  log_extends w w'.
Proof.
  intros E1 E2 H1 H2. rewrite <-E2 in H1. unfold set_finalized_head, set_head, publish_head, publish_finalized_head.
  simpl. destruct (decide (wc_head_sender w = h)) as [Eh|Eh]; simpl;
    (destruct (decide (wc_finalized_head_sender w = f)) as [Ef|Ef]; simpl); split_and!; try done.
  - exists []. rewrite app_nil_r, Eh, Ef. done.
  - eexists [_]. split; [done|]. rewrite Eh. done.
  - eexists [_]. rewrite Ef. done.
  - eexists [_; _]. rewrite <-app_assoc. done.
Qed.

(** Marking tables for deletion touches no other column family. *)
Lemma abandon_tables_other d c cf : quiet env → cf ≠ CF_DELETED_TABLES → abandon_tables env counters D c d cf = d cf.
Proof.
  intros Hq Hcf. unfold abandon_tables, delete_tables.
  destruct (exec _ _ _ _ _ _ d) as [d' r] eqn:E. apply (exec_spec _ _ _ _ _ _ _ _ _ Hq) in E. simpl.
  destruct r as [[]|e|m]; [|by rewrite E..]. destruct E as (tx & [= <-] & ->).
  rewrite (commit_view d).
  - rewrite (frame_view [CF_DELETED_TABLES] (tx_begin d false false)); [done| |set_solver].
    apply (frame_fold _ (λ t, Put CF_DELETED_TABLES t [])). intros. simpl. lmem.
  - eapply (frame_db [CF_DELETED_TABLES] (tx_begin d false false)).
    apply (frame_fold _ (λ t, Put CF_DELETED_TABLES t [])). intros. simpl. lmem.
Qed.

Lemma ds_state_ext d d' id l cs : d' CF_DATASETS = d CF_DATASETS → d' CF_CHUNKS = d CF_CHUNKS →
  ds_state d id l cs → ds_state d' id l cs.
Proof. intros E1 E2 []. constructor; rewrite ?E1, ?E2; done. Qed.

Lemma wc_inv_ext w d d' l cs : d' CF_DATASETS = d CF_DATASETS → d' CF_CHUNKS = d CF_CHUNKS →
  wc_inv w d l cs → wc_inv w d' l cs.
Proof. intros E1 E2 []. constructor; try done. by eapply ds_state_ext. Qed.

(** The effect of a committed chunk on the database. *)
Lemma new_chunk_commit w report c d d' l cs fin ig :
  quiet env → dataset_id_ok (wc_dataset_id w) → ds_state d (wc_dataset_id w) l cs → chunk_ok c →
  (∀ r, report = Some r → u64_ok (number r)) →
  update_dataset env counters D (wc_dataset_id w) (new_chunk_tx w report c) d = (d', Ok (fin, ig)) →
  ∃ u cs', fresh_update d (wc_dataset_id w) l u ∧ upd_ok u ∧ prefix_guard u c ∧
    fin_source w u report c fin ∧
    (∀ a, head cs = Some a → first_block a <= first_block c) ∧
    (cs = [] → wc_first_block w <= first_block c) ∧
    fork_spec cs c = Ok cs' ∧
    ds_state d' (wc_dataset_id w) (bump_version (label_set_finalized_head l fin)) cs' ∧
    d' CF_TABLES = d CF_TABLES ∧
    (∀ f, label_finalized_head l = Some f → ∃ f', fin = Some f' ∧ (f' = f ∨ number f < number f')).
Proof.
  intros Hq Hid Hs Hc Hrep E. set (id := wc_dataset_id w) in *.
  apply (update_quiet _ d d' id l cs _ Hq Hid Hs) in E.
  2: { intros u a u' Hf Ho. eapply new_chunk_tx_steps; [done| |done]. by eapply fresh_ok. }
  destruct E as (u & u' & Hf & Ho & Hok' & Hcm). pose proof (fresh_ok _ _ _ _ _ Hid Hs Hf) as Hok.
  pose proof (fresh_chunks _ _ _ _ Hf) as Ecs. rewrite (ds_chunks _ _ _ _ Hs) in Ecs.
  destruct (new_chunk_tx_inv _ _ _ _ _ _ _ Hok Ho) as (Hw & Hg & Hsrc & Hi).
  pose proof (upd_insert_fork_label _ _ _ Hi) as [El Eid].
  assert (Hok1 : upd_ok (upd_set_finalized_head fin u)) by (destruct Hok; by constructor).
  destruct (upd_insert_fork_spec c _ _ Hok1 Hc Hi) as (_ & Hfork & _).
  change (upd_chunks (upd_set_finalized_head fin u)) with (upd_chunks u) in Hfork.
  assert (Hwin : ∀ a, head (upd_chunks u) = Some a → first_block a <= first_block c)
    by (intros a Ha; by rewrite Ha in Hw).
  destruct Hf as (F1 & F2 & F3 & F4). pose proof (ds_fin _ _ _ _ Hs) as Hfin.
  pose proof (ds_tiled _ _ _ _ Hs) as Ht. rewrite <-Ecs in Ht, Hfin. rewrite <-F2 in Hfin.
  destruct (new_chunk_fin w report c u fin _ Hok Ht Hc Hrep Hwin Hfin Hg Hsrc Hfork) as [Hfw Hmono].
  destruct (fork_window _ _ _ Ht Hc Hfork Hwin) as (kept & dropped & _ & _ & Ht' & _).
  exists u, (upd_chunks u'). rewrite <-Ecs. split_and!; try done.
  - intros Hn. by rewrite Hn in Hw.
  - simpl in El. rewrite <-F2, <-El. apply (committed_state d); try done.
    + by rewrite Eid.
    + by rewrite El, label_set_fin.
  - by destruct Hcm.
  - by rewrite <-F2.
Qed.

(** The watermarks a chunk publishes. *)
Lemma new_chunk_watermarks u c fin cs' : chunk_ok c → prefix_guard u c →
  last cs' = Some c → fin_in_window fin cs' →
  watermarks_ok (Some (get_chunk_head c)) (label_finalized_head (upd_label u)) ∧
  watermarks_ok (Some (get_chunk_head c)) fin.
Proof.
  intros Hc Hg Hl Hf. split.
  - intros f Hf'. exists (get_chunk_head c). split; [done|]. unfold chunk_ok in Hc. simpl.
    destruct (Z.le_gt_cases (first_block c) (number f)) as [Hle|Hgt]; [by apply (Hg f Hf')|lia].
  - apply fin_watermarks in Hf. by rewrite Hl in Hf.
Qed.

Lemma new_chunk_spec w report c d w' d' r l cs :
  quiet env → wc_inv w d l cs → chunk_ok c → (∀ r, report = Some r → u64_ok (number r)) →
  new_chunk env counters D w report c d = (w', d', r) →
  match r with
  | Ok _ => ∃ u fin cs', fresh_update d (wc_dataset_id w) l u ∧ prefix_guard u c ∧
      fin_source w u report c fin ∧
      fork_spec cs c = Ok cs' ∧ wc_inv w' d' (bump_version (label_set_finalized_head l fin)) cs' ∧
      (∀ a, head cs = Some a → first_block a <= first_block c) ∧
      (cs = [] → wc_first_block w <= first_block c) ∧
      d' CF_TABLES = d CF_TABLES ∧
      (∀ f, label_finalized_head l = Some f → ∃ f', fin = Some f' ∧ (f' = f ∨ number f < number f')) ∧
      log_extends w w'
  | _ => w' = w ∧ wc_inv w d' l cs ∧ d' CF_TABLES = d CF_TABLES
  end.
Proof.
  intros Hq [Hid Hs Hh Hfc Hfin Hph Hpf] Hc Hrep. unfold new_chunk.
  destruct (update_dataset _ _ _ _ _ d) as [d1 [[fin ig]|e|m]] eqn:E; cycle 1.
  - intros [= <- <- <-]. apply (update_quiet _ _ _ _ l cs _ Hq Hid Hs) in E.
    + simpl in E. subst d1. split; [done|]. split; [|by rewrite abandon_tables_other].
      apply (wc_inv_ext w d); [by rewrite abandon_tables_other..|done].
    + intros u a u' Hf Ho. eapply new_chunk_tx_steps; [done| |done]. by eapply fresh_ok.
  - intros [= <- <- <-]. apply (update_quiet _ _ _ _ l cs _ Hq Hid Hs) in E; [by simpl in E; subst|].
    intros u a u' Hf Ho. eapply new_chunk_tx_steps; [done| |done]. by eapply fresh_ok.
  - destruct (new_chunk_commit _ _ _ _ _ _ _ _ _ Hq Hid Hs Hc Hrep E)
      as (u & cs' & Hf & Hok & Hg & Hsrc & Hwin & Hemp & Hfork & Hds & Htab & Hmono).
    destruct (fork_window _ _ _ (ds_tiled _ _ _ _ Hs) Hc Hfork Hwin)
      as (kept & dropped & Hcs & Hcs' & _ & Hkept & _ & Hhead).
    assert (Hlast : last cs' = Some c) by (by rewrite Hcs', last_snoc).
    pose proof (ds_fin _ _ _ _ Hds) as Hfw. rewrite label_bump_fin, label_set_fin in Hfw.
    destruct (new_chunk_watermarks u c fin cs' Hc Hg Hlast Hfw) as [Hw1 Hw2].
    assert (Hfu : label_finalized_head (upd_label u) = wc_finalized_head w)
      by (destruct Hf as (_ & -> & _); done).
    rewrite Hfu in Hw1.
    destruct (publish_both w (Some (get_chunk_head c)) fin Hph Hpf Hw1 Hw2)
      as (P1 & P2 & P3 & P4 & P5 & P6 & P7 & P8 & Plog).
    set (w1 := set_finalized_head fin (set_head (Some (get_chunk_head c)) w)) in *.
    intros [= <- <- <-]. exists u, fin, cs'. split_and!; try done.
    + match goal with |- wc_inv ?x _ _ _ => set (w2 := x) end.
      assert (Hsame : wc_dataset_id w2 = wc_dataset_id w ∧ wc_head w2 = Some (get_chunk_head c) ∧
        wc_finalized_head w2 = fin ∧ wc_head_sender w2 = Some (get_chunk_head c) ∧
        wc_finalized_head_sender w2 = fin) by (unfold w2; case_if; split_and!; done).
      destruct Hsame as (S1 & S2 & S3 & S4 & S5).
      constructor; rewrite ?S1, ?S2, ?S3, ?S4, ?S5, ?Hlast, ?label_bump_fin, ?label_set_fin; try done.
      unfold w2. rewrite P6, Hfc. clear w2 S1 S2 S3 S4 S5.
      destruct (head cs) as [a|] eqn:Ea; simpl; [|by rewrite Hhead in Hcs'; subst cs'; rewrite P1].
      destruct Hhead as (a' & Ha' & Efirst & Hkn). rewrite Ha'.
      destruct (Z.leb_spec (first_block c) (last_block a)) as [Hle|Hgt]; simpl; rewrite ?P1, ?P6, ?Hfc; simpl.
      * destruct kept as [|k kept]; [rewrite Hcs' in Ha'; simpl in Ha'; congruence|exfalso].
        rewrite Hcs in Ea. simpl in Ea. injection Ea as ->. apply Forall_cons in Hkept as [Hk _].
        simpl in Hk. lia.
      * destruct kept as [|k kept]; [|by rewrite Hkn]. exfalso.
        rewrite Hcs' in Ha'. simpl in Ha'. injection Ha' as <-. rewrite Hcs in Ea.
        destruct (ds_tiled _ _ _ _ Hs) as [Hall _]. rewrite Hcs in Hall. destruct dropped as [|y dr]; [done|].
        simplify_eq/=. apply Forall_cons in Hall as [Hya _]. unfold chunk_ok in Hya. lia.
    + unfold log_extends in *. case_if; simpl; done.
Qed.

(** ** Finality *)

Lemma finalize_tx_steps w h report u a u' : finalize_tx w h report u = Ok (a, u') →
  upd_steps u u' ∧
  ((∃ reason, a = CommittedIgnored reason ∧ u' = u) ∨
   ∃ b, a = CommittedApplied b ∧ u' = upd_set_finalized_head (Some b) u ∧
     resolve_finality u (label_finalized_head (upd_label u)) None (wc_first_block w) report = Ok (FinApplied b)).
Proof.
  unfold finalize_tx. intros Ho. apply bind_Ok in Ho as ([] & _ & Ho).
  apply bind_Ok in Ho as (mh & _ & Ho). apply bind_Ok in Ho as ([] & _ & Ho).
  apply bind_Ok in Ho as ([b|reason|reason] & Hr & Ho); simplify_eq.
  - split; [apply rtc_once, step_set_finalized_head|]. right. eauto.
  - split; [apply rtc_refl|]. left. eauto.
Qed.

Lemma finalize_spec w report d w' d' r l cs :
  quiet env → wc_inv w d l cs → u64_ok (number report) →
  finalize env counters D w report d = (w', d', r) →
  match r with
  | Ok _ => ∃ l', wc_inv w' d' l' cs ∧ d' CF_TABLES = d CF_TABLES ∧ log_extends w w' ∧
      (label_finalized_head l' = label_finalized_head l ∨
       ∃ u b, fresh_update d (wc_dataset_id w) l u ∧ label_finalized_head l' = Some b ∧
         resolve_finality u (label_finalized_head l) None (wc_first_block w) report = Ok (FinApplied b))
  | _ => w' = w ∧ d' = d
  end.
Proof.
  intros Hq Hinv Hr. pose proof Hinv as [Hid Hs Hh Hfc Hfin Hph Hpf]. unfold finalize.
  destruct (wc_head w) as [h|] eqn:Eh.
  2: { intros [= <- <- <-]. exists l. split_and!; [done|done|apply log_extends_refl|by left]. }
  destruct (update_dataset _ _ _ _ _ d) as [d1 r1] eqn:E.
  apply (update_quiet _ _ _ _ l cs _ Hq Hid Hs) in E.
  2: { intros u a u' _ Ho. by apply finalize_tx_steps in Ho as [? _]. }
  destruct r1 as [a|e|m]; [|by intros [= <- <- <-]; simpl in E; subst..].
  destruct E as (u & u' & Hf & Ho & Hok' & Hcm).
  apply finalize_tx_steps in Ho as [Hst Hcase]. pose proof (fresh_ok _ _ _ _ _ Hid Hs Hf) as Hok.
  pose proof (fresh_chunks _ _ _ _ Hf) as Ecs. rewrite (ds_chunks _ _ _ _ Hs) in Ecs.
  pose proof Hf as (F1 & F2 & F3 & F4). pose proof (ds_tiled _ _ _ _ Hs) as Ht.
  assert (Hw : wc_inv w d l cs → ∀ l', ds_state d1 (wc_dataset_id w) l' cs →
    label_finalized_head l' = label_finalized_head l → wc_inv w d1 l' cs).
  { intros _ l' Hl' Ef. constructor; try done; [by rewrite Eh|congruence|congruence]. }
  destruct Hcase as [(reason & -> & ->)|(b & -> & -> & Hres)].
  - intros [= <- <- <-]. exists (bump_version (upd_label u)).
    assert (Hds : ds_state d1 (wc_dataset_id w) (bump_version (upd_label u)) cs).
    { rewrite <-Ecs. apply (committed_state d); [done|done|done|by rewrite Ecs|].
      rewrite F2, Ecs. by destruct Hs. }
    split_and!; [|by destruct Hcm|apply log_extends_refl|left; by rewrite label_bump_fin, F2].
    apply Hw; [done|done|]. by rewrite label_bump_fin, F2.
  - intros [= <- <- <-]. rewrite F2 in Hres.
    pose proof (resolve_applied _ _ _ _ _ _ Hok Hr Hres) as (_ & _ & Hb).
    assert (Hwin : fin_in_window (Some b) cs).
    { rewrite <-Ecs in Ht |- *. assert (Hx : ∃ x, x ∈ upd_chunks u ∧ first_block x <= number b <= last_block x).
      { destruct Hb as [(x & Hx & -> & _)|[-> [(x & ? & _)|(_ & x & Hx & Hin & _)]]]; [|done|eauto].
        exists x. assert (Hxin : x ∈ upd_chunks u) by (by apply last_Some_elem_of).
        split; [done|]. destruct Ht as [Hall _]. rewrite Forall_forall in Hall.
        specialize (Hall x Hxin). unfold chunk_ok in Hall. simpl. lia. }
      destruct Hx as (x & Hx & Hin). by apply (tiled_window _ x). }
    set (l' := label_set_finalized_head l (Some b)).
    assert (Hds : ds_state d1 (wc_dataset_id w) (bump_version l') cs).
    { unfold l'. rewrite <-F2, <-Ecs. apply (committed_state d _ (upd_set_finalized_head (Some b) u)); try done.
      - unfold upd_chunks; simpl. fold (upd_chunks u). by rewrite Ecs.
      - simpl. rewrite label_set_fin. change (fin_in_window (Some b) (upd_chunks u)). by rewrite Ecs. }
    destruct (publish_both w (wc_head w) (Some b)) as (P1 & P2 & P3 & P4 & P5 & P6 & P7 & P8 & Plog);
      [congruence|done|rewrite Eh, Hfin, Hh; apply fin_watermarks; by destruct Hs
      |rewrite Eh, Hh; by apply fin_watermarks|].
    assert (Esh : set_head (wc_head w) w = w).
    { unfold set_head, publish_head. simpl. rewrite decide_True by congruence. by destruct w. }
    rewrite Esh in *. exists (bump_version l'). split_and!.
    + constructor; rewrite ?P1, ?P2, ?P3, ?P4, ?P5, ?P6, ?label_bump_fin; try done.
      * by rewrite Eh.
      * unfold l'. by rewrite label_set_fin.
    + by destruct Hcm.
    + done.
    + right. exists u, b. unfold l'. by rewrite label_bump_fin, label_set_fin.
Qed.

(** ** Retention *)

Definition not_range (st : retain_status) : Prop :=
  match st with StRange _ _ _ => False | _ => True end.

Lemma not_range_gap st n : not_range st → not_range (match st with StClear => StGap n | s => s end).
Proof. by destruct st. Qed.

(** The parent hash that chunk [c] and the tables [m] give for block [n] of [c]. *)
Definition parent_at (m : M) (c : Chunk) (n : Z) (h : string) : Prop :=
  if decide (n = first_block c) then h = parent_block_hash c
  else ∃ id (t : T), table_get "blocks" (tables c) = Some id ∧ open_table m id = Ok t ∧ table_parent_hash t n h.

Lemma parent_at_unique m c n h h' : parent_at m c n h → parent_at m c n h' → h = h'.
Proof.
  unfold parent_at. case_decide; [congruence|]. intros (id & t & A & B & Ht) (id' & t' & A' & B' & Ht').
  rewrite A in A'. injection A' as <-. rewrite B in B'. injection B' as <-. by eapply table_parent_hash_unique.
Qed.

Lemma validate_parent_exact c n expected (tx : Tx M) o : chunk_ok c → first_block c <= n <= last_block c →
  validate_parent_block_hash c n expected tx = Ok o ↔
  ∃ h, parent_at (tx_db tx CF_TABLES) c n h ∧ o = if decide (h = expected) then None else Some h.
Proof.
  intros Hc Hn. unfold chunk_ok in Hc. unfold validate_parent_block_hash, parent_at.
  assert (Hv : ∀ h : string, (if bool_decide (h = expected) then None else Some h)
    = if decide (h = expected) then None else Some h) by (intros h; by case_bool_decide; case_decide).
  destruct (Z.eqb_spec (first_block c) n) as [E|E].
  { destruct (decide (n = first_block c)) as [_|]; [|congruence]. cbv zeta beta. rewrite Hv. split; [intros [= <-]; eauto|by intros (h & -> & ->)]. }
  destruct (decide (n = first_block c)) as [|_]; [congruence|]. rewrite u64_add_small by (unfold u64_max in *; lia).
  rewrite (proj2 (Z.eqb_neq (last_block c + 1) n)) by lia.
  rewrite (proj2 (Z.ltb_lt (first_block c) n)), (proj2 (Z.leb_le n (last_block c))) by lia.
  cbn [andb ensure mbind res_bind]. unfold blocks_table, open_db_table.
  destruct (table_get "blocks" (tables c)) as [id|]; cbn [ok_or mbind res_bind];
    [|split; [done|by intros (? & (? & ? & ? & _) & _)]].
  destruct (open_table _ id) as [t| |] eqn:Et; cbn [mbind res_bind];
    [|split; [done|intros (? & (? & ? & [= <-] & ? & _) & _); congruence]..].
  split.
  - intros (h & Hh & [= <-])%bind_Ok. rewrite Hv. exists h. split; [|done].
    exists id, t. by rewrite <-get_parent_block_hash_spec.
  - intros (h & (id' & t' & [= <-] & Ht' & Hh) & ->). rewrite Et in Ht'. injection Ht' as <-.
    apply get_parent_block_hash_spec in Hh. rewrite Hh. cbn [mbind res_bind]. by rewrite Hv.
Qed.

(** What retention finds at the floor [from]: the chunk [a] that does not end below it holds
    the floor and the requested parent, or it does not. *)
Definition fits_floor (m : M) (from : Z) (parent : option string) (a : Chunk) : Prop :=
  first_block a <= from ∧ ∀ h, parent = Some h → parent_at m a from h.
Definition misses_floor (m : M) (from : Z) (parent : option string) (a : Chunk) : Prop :=
  from < first_block a ∨ ∃ h h', parent = Some h ∧ parent_at m a from h' ∧ h' ≠ h.

(** The finalized head kept with a window that starts at [a]. *)
Definition kept_fin (l : DatasetLabel) (a : Chunk) : option BlockRef :=
  match label_finalized_head l with
  | Some f => if first_block a <=? number f then Some f else None
  | None => None
  end.

(** The chunks that reach the floor. *)
Definition reaching (from : Z) (cs : list Chunk) : list Chunk := filter (λ x, from <= last_block x) cs.

(** What [retain_tx] makes of the chunks it still has to look at. *)
Definition retained (from : Z) (parent : option string) (dm : bool) (rest : list Chunk) u
    (st : retain_status) u' : Prop :=
  let m := tx_db (upd_tx u) CF_TABLES in
  upd_steps u u' ∧
  match st with
  | StRange a h fin => ∃ del, rest = del ++ upd_chunks u' ∧ Forall (λ x, last_block x < from) del ∧
      head (upd_chunks u') = Some a ∧ last (upd_chunks u') = Some h ∧
      first_block a <= from <= last_block a ∧ fits_floor m from parent a ∧ fin = kept_fin (upd_label u) a ∧
      label_finalized_head (upd_label u') = fin
  | _ => upd_chunks u' = [] ∧ label_finalized_head (upd_label u') = None ∧
      (∀ a, head (reaching from rest) = Some a → dm = true ∧ misses_floor m from parent a)
  end.

Lemma upd_delete_chunk_label c u u' : upd_delete_chunk c u = Ok u' → upd_label u' = upd_label u.
Proof. unfold upd_delete_chunk. intros Ho. by apply bind_Ok in Ho as (tx & _ & [= <-]). Qed.

(** Deleting the first of the remaining chunks. *)
Lemma retain_delete c rest u u1 : upd_ok u → upd_chunks u = c :: rest → upd_delete_chunk c u = Ok u1 →
  upd_ok u1 ∧ upd_chunks u1 = rest ∧ upd_label u1 = upd_label u ∧ upd_step u u1.
Proof.
  intros Hok Hc Hd. destruct (upd_delete_chunk_spec c u u1 [] rest Hok Hc Hd) as (A & B & _).
  split; [done|]. split; [done|]. split; [by eapply upd_delete_chunk_label|].
  apply (step_delete_chunk c); [|done]. rewrite Hc. lmem.
Qed.

(** Past the floor nothing is kept. *)
Lemma retain_loop_above from parent dm rest : ∀ status u st u',
  upd_ok u → upd_chunks u = rest → not_range status → Forall (λ x, from < first_block x) rest →
  Forall chunk_ok rest →
  retain_loop from parent dm (Ok <$> rest) status u = Ok (st, u') →
  not_range st ∧ upd_steps u u' ∧ upd_chunks u' = [] ∧ label_finalized_head (upd_label u') = None.
Proof.
  induction rest as [|c rest IH]; intros status u st u' Hok Hc Hn Hab Hall Ho.
  - simpl in Ho. injection Ho as <- <-. split; [done|]. split; [apply rtc_once, step_set_finalized_head|].
    split; [exact Hc|apply label_set_fin].
  - apply Forall_cons in Hab as [Hcf Hab]. apply Forall_cons in Hall as [Hco Hall]. unfold chunk_ok in Hco.
    cbn [fmap list_fmap retain_loop mbind res_bind] in Ho.
    rewrite (proj2 (Z.ltb_ge (last_block c) from)) in Ho by lia.
    rewrite (proj2 (Z.ltb_lt from (first_block c))) in Ho by lia.
    destruct dm; [|done]. apply bind_Ok in Ho as (u1 & Hd & Ho).
    destruct (retain_delete _ _ _ _ Hok Hc Hd) as (Hok1 & Hc1 & El & Hst).
    pose proof (not_range_gap status (first_block c) Hn) as Hn1.
    destruct (IH _ _ _ _ Hok1 Hc1 Hn1 Hab Hall Ho) as (Hn' & Hst' & Hr).
    split; [done|]. split; [by eapply rtc_l|done].
Qed.

Lemma reaching_below from c cs : last_block c < from → reaching from (c :: cs) = reaching from cs.
Proof. intros. unfold reaching. rewrite filter_cons, decide_False by lia. done. Qed.
Lemma reaching_head from c cs : from <= last_block c → head (reaching from (c :: cs)) = Some c.
Proof. intros. unfold reaching. by rewrite filter_cons, decide_True by lia. Qed.

(** The first chunk that reaches the floor misses it: everything goes. *)
Lemma retain_loop_miss from parent dm c rest status u u1 st u' :
  upd_ok u → upd_chunks u = c :: rest → Forall (λ x, from < first_block x) rest → Forall chunk_ok rest →
  from <= last_block c → not_range status → upd_delete_chunk c u = Ok u1 →
  dm = true ∧ misses_floor (tx_db (upd_tx u) CF_TABLES) from parent c →
  retain_loop from parent dm (Ok <$> rest) status u1 = Ok (st, u') → retained from parent dm (c :: rest) u st u'.
Proof.
  intros Hok Hc Hab Hall Hle Hn Hd Hmiss Ho.
  destruct (retain_delete _ _ _ _ Hok Hc Hd) as (Hok1 & Hc1 & El & Hst).
  destruct (retain_loop_above _ _ _ _ _ _ _ _ Hok1 Hc1 Hn Hab Hall Ho) as (Hn' & Hst' & Hr & Hl).
  split; [by eapply rtc_l|]. destruct st; [done|..]; (split_and!; [done..|]); rewrite reaching_head by done;
    intros a [= <-]; done.
Qed.

Lemma retain_loop_spec from parent dm rest : ∀ status u st u',
  upd_ok u → upd_chunks u = rest → not_range status →
  retain_loop from parent dm (Ok <$> rest) status u = Ok (st, u') → retained from parent dm rest u st u'.
Proof.
  induction rest as [|c rest IH]; intros status u st u' Hok Hc Hn Ho.
  { destruct (retain_loop_above from parent dm [] status u st u') as (Hn' & Hst' & Hr); try done.
    split; [done|]. by destruct st; [|destruct Hr..]. }
  pose proof (upd_ok_chain _ Hok) as Hch. rewrite Hc in Hch.
  assert (Hrest : Forall (λ x, last_block c < first_block x) rest).
  { apply Forall_forall. intros x Hx. by apply (StronglySorted_elem _ _ _ (chain_sorted _ Hch)). }
  pose proof (chain_elem_ok _ c Hch ltac:(lmem)) as Hco.
  cbn [fmap list_fmap retain_loop mbind res_bind] in Ho.
  destruct (Z.ltb_spec (last_block c) from) as [Hbelow|Hge].
  - apply bind_Ok in Ho as (u1 & Hd & Ho).
    destruct (retain_delete _ _ _ _ Hok Hc Hd) as (Hok1 & Hc1 & El & Hst).
    destruct (IH _ _ _ _ Hok1 Hc1 Hn Ho) as [Hst' Hr]. pose proof (upd_step_rel _ _ Hst) as (_ & _ & _ & _ & _ & Ed & _).
    rewrite El, Ed in Hr. split; [by eapply rtc_l|]. rewrite reaching_below by done. destruct st as [a h fin| | |]; [|done..].
    destruct Hr as (del & -> & Hdel & Hr). exists (c :: del). split; [done|]. split; [by constructor|done].
  - assert (Habove : Forall (λ x, from < first_block x) rest).
    { eapply Forall_impl; [exact Hrest|]. simpl. intros; lia. }
    assert (Hall : Forall chunk_ok rest) by (by destruct Hch as [[_ ?]%Forall_cons _]).
    destruct (Z.ltb_spec from (first_block c)) as [Hgap|Hin].
    + destruct dm; [|done]. apply bind_Ok in Ho as (u1 & Hd & Ho).
      refine (retain_loop_miss _ _ _ _ _ _ _ _ _ _ Hok Hc Habove Hall Hge _ Hd _ Ho); [by apply not_range_gap|].
      split; [done|by left].
    + apply bind_Ok in Ho as (check & Hcheck & Ho).
      assert (Hp : match check with
        | Some _ => misses_floor (tx_db (upd_tx u) CF_TABLES) from parent c
        | None => fits_floor (tx_db (upd_tx u) CF_TABLES) from parent c end).
      { destruct parent as [h|]; [|injection Hcheck as <-; by split].
        apply validate_parent_exact in Hcheck as (h' & Hh' & ->); [|done|lia].
        case_decide as E; [split; [lia|]; intros ? [= <-]; by subst h'|right; eauto]. }
      clear Hcheck. destruct check as [actual|]; cbv beta iota in Hp.
      * destruct dm; [|done]. apply bind_Ok in Ho as (u1 & Hd & Ho). by eapply (retain_loop_miss _ _ _ _ _ StHashMismatch).
      * rewrite upd_last_chunk_spec in Ho by done. cbn [mbind res_bind] in Ho.
        destruct (last (upd_chunks u)) as [h|] eqn:Eh; [|done]. cbn [mbind res_bind] in Ho.
        change (match label_finalized_head (upd_label u) with
          | Some h => if first_block c <=? number h then Some h else None | None => None end)
          with (kept_fin (upd_label u) c) in Ho. injection Ho as <- <-.
        assert (Hu : upd_chunks (match kept_fin (upd_label u) c with
          None => upd_set_finalized_head None u | Some _ => u end) = upd_chunks u) by (by case_match).
        split; [case_match; [apply rtc_refl|apply rtc_once, step_set_finalized_head]|].
        exists []. rewrite Hu. split_and!; try done; [by rewrite Hc|].
        unfold kept_fin. destruct (label_finalized_head (upd_label u)) as [f|] eqn:Ef;
          [destruct (first_block c <=? number f)|]; simpl; rewrite ?label_set_fin; done.
Qed.

(** Without index entries to maintain, retention decides whenever the parent hash it is asked
    for can be read and it may delete what misses the floor. *)
Definition decidable_floor (m : M) (from : Z) (parent : option string) (dm : bool) (a : Chunk) : Prop :=
  if decide (from < first_block a) then dm = true
  else ∀ h, parent = Some h → ∃ h', parent_at m a from h' ∧ (dm = true ∨ h' = h).

Lemma delete_unindexed id c u : unindexed id (upd_tx u) → upd_dataset_id u = id →
  ∃ u', upd_delete_chunk c u = Ok u' ∧ unindexed id (upd_tx u') ∧ upd_dataset_id u' = id.
Proof.
  intros Hu Eid. unfold upd_delete_chunk. rewrite Eid, unindex_unindexed by done. cbn [mbind res_bind].
  eexists. split; [done|]. split; [|done]. eapply unindexed_frame; [| |apply delete_chunk_frame|done]; set_solver.
Qed.

Lemma retain_loop_total from parent rest : ∀ dm status u,
  upd_ok u → upd_chunks u = rest → unindexed (upd_dataset_id u) (upd_tx u) →
  (∀ a, head (reaching from rest) = Some a → decidable_floor (tx_db (upd_tx u) CF_TABLES) from parent dm a) →
  ∃ o, retain_loop from parent dm (Ok <$> rest) status u = Ok o.
Proof.
  induction rest as [|c rest IH]; intros dm status u Hok Hc Hun Hdec; [by eexists|].
  pose proof (upd_ok_chain _ Hok) as Hch. rewrite Hc in Hch.
  assert (Hrest : Forall (λ x, last_block c < first_block x) rest).
  { apply Forall_forall. intros x Hx. by apply (StronglySorted_elem _ _ _ (chain_sorted _ Hch)). }
  pose proof (chain_elem_ok _ c Hch ltac:(lmem)) as Hco.
  destruct (delete_unindexed _ c u Hun eq_refl) as (u1 & Hd & Hun1 & Eid).
  destruct (retain_delete _ _ _ _ Hok Hc Hd) as (Hok1 & Hc1 & El & Hst).
  pose proof (upd_step_rel _ _ Hst) as (_ & _ & _ & _ & _ & Ed & _). rewrite <-Eid in Hun1.
  cbn [fmap list_fmap retain_loop mbind res_bind]. rewrite Hd.
  destruct (Z.ltb_spec (last_block c) from) as [Hbelow|Hge]; cbn [mbind res_bind].
  { apply (IH dm _ _ Hok1 Hc1 Hun1). rewrite Ed. by rewrite <-(reaching_below from c). }
  assert (Hgo : ∀ st, ∃ o, retain_loop from parent true (Ok <$> rest) st u1 = Ok o).
  { intros st. apply (IH true _ _ Hok1 Hc1 Hun1). intros a Ha. apply head_Some_elem_of, list_elem_of_filter in Ha as [_ Ha].
    rewrite Forall_forall in Hrest. specialize (Hrest a Ha). simpl in Hrest. unfold decidable_floor.
    by rewrite decide_True by lia. }
  specialize (Hdec c (reaching_head from c rest Hge)). unfold decidable_floor in Hdec.
  destruct (Z.ltb_spec from (first_block c)) as [Hgap|Hin].
  { rewrite decide_True in Hdec by done. subst dm. apply Hgo. }
  rewrite decide_False in Hdec by lia.
  assert (Hcheck : ∃ o, match parent with Some h => validate_parent_block_hash c from h (upd_tx u) | None => Ok None end = Ok o ∧
    (∀ x, o = Some x → dm = true)).
  { destruct parent as [h|]; [|by exists None]. destruct (Hdec h eq_refl) as (h' & Hh' & Hor).
    exists (if decide (h' = h) then None else Some h'). rewrite validate_parent_exact by (done || lia).
    split; [eauto|]. case_decide; [done|]. destruct Hor; done. }
  destruct Hcheck as ([x|] & -> & Hx); cbn [mbind res_bind]; [rewrite (Hx x eq_refl); apply Hgo|].
  rewrite upd_last_chunk_spec by done. cbn [mbind res_bind]. rewrite Hc.
  destruct (last (c :: rest)) as [z|] eqn:Ez; [cbn; eauto|by apply last_None in Ez].
Qed.

Lemma kept_fin_window l a cs' cs del : tiled cs → fin_in_window (label_finalized_head l) cs → cs = del ++ cs' →
  head cs' = Some a → fin_in_window (kept_fin l a) cs'.
Proof.
  intros Ht Hf -> Ha. unfold kept_fin. destruct (label_finalized_head l) as [f|]; [|done].
  destruct (Z.leb_spec (first_block a) (number f)) as [Hle|]; [|done].
  destruct Hf as (x & z & _ & Hz & Hin). rewrite last_app in Hz.
  exists a, z. split; [done|]. destruct (last cs') as [z'|] eqn:Ez'.
  - simplify_eq. split; [done|]. lia.
  - apply last_None in Ez' as ->. done.
Qed.

Lemma clear_heads_fields w : let w' := clear_heads w in
  wc_head w' = None ∧ wc_finalized_head w' = None ∧ wc_first_chunk_head w' = None ∧
  wc_head_sender w' = None ∧ wc_finalized_head_sender w' = None ∧ wc_dataset_id w' = wc_dataset_id w.
Proof.
  unfold clear_heads, set_head, set_finalized_head, publish_head, publish_finalized_head. simpl.
  repeat (case_decide; simpl); done.
Qed.

(** What retention guarantees. *)
Definition retain_result (m : M) w (from : Z) (parent : option string) (dm : bool) l cs (kept : bool) w' l' cs' : Prop :=
  if starts_at w from parent then kept = true ∧ w' = w ∧ l' = l ∧ cs' = cs
  else wc_first_block w' = from ∧ wc_parent_block_hash w' = parent ∧
    if kept then ∃ a del, cs = del ++ cs' ∧ Forall (λ x, last_block x < from) del ∧
      head cs' = Some a ∧ first_block a <= from <= last_block a ∧ fits_floor m from parent a ∧
      label_finalized_head l' = kept_fin l a ∧ log_extends w w'
    else cs' = [] ∧ label_finalized_head l' = None ∧
      ∀ a, head (reaching from cs) = Some a → dm = true ∧ misses_floor m from parent a.

Lemma retain_spec w from parent dm d w' d' r l cs :
  quiet env → wc_inv w d l cs → _retain env counters D w from parent dm d = (w', d', r) →
  match r with
  | Ok kept => ∃ l' cs', wc_inv w' d' l' cs' ∧ d' CF_TABLES = d CF_TABLES ∧
      retain_result (d CF_TABLES) w from parent dm l cs kept w' l' cs'
  | _ => w' = w ∧ d' = d
  end.
Proof.
  intros Hq Hinv. pose proof Hinv as [Hid Hs Hh Hfc Hfin Hph Hpf]. unfold _retain, retain_result.
  destruct (starts_at w from parent) eqn:Est.
  { intros [= <- <- <-]. by exists l, cs. }
  destruct (update_dataset _ _ _ _ _ d) as [d1 r1] eqn:E.
  assert (Hrt : ∀ u a u', fresh_update d (wc_dataset_id w) l u → retain_tx from parent dm u = Ok (a, u') →
    retained from parent dm (upd_chunks u) u a u').
  { intros u a u' Hf Ho. pose proof (fresh_ok _ _ _ _ _ Hid Hs Hf) as Hok. unfold retain_tx, tx_list_chunks in Ho.
    rewrite list_all in Ho by apply Hok.
    exact (retain_loop_spec from parent dm (upd_chunks u) StClear u a u' Hok eq_refl I Ho). }
  apply (update_quiet _ _ _ _ l cs _ Hq Hid Hs) in E.
  2: { intros u a u' Hf Ho. by destruct (Hrt _ _ _ Hf Ho). }
  destruct r1 as [st|e|m]; [|by intros [= <- <- <-]; simpl in E; subst..].
  destruct E as (u & u' & Hf & Ho & Hok' & Hcm). destruct (Hrt _ _ _ Hf Ho) as [Hst Hr].
  pose proof (fresh_chunks _ _ _ _ Hf) as Ecs. rewrite (ds_chunks _ _ _ _ Hs) in Ecs. rewrite Ecs in Hr.
  destruct Hf as (F1 & F2 & F3 & F4). rewrite F2, F4 in Hr.
  pose proof (upd_steps_ok u u' Hst ltac:(by eapply fresh_ok; [exact Hid|exact Hs|by split_and!]))
    as (_ & (E1 & _) & _).
  pose proof (ds_tiled _ _ _ _ Hs) as Ht. pose proof (ds_fin _ _ _ _ Hs) as Hw.
  assert (Hds : tiled (upd_chunks u') → fin_in_window (label_finalized_head (upd_label u')) (upd_chunks u') →
    ds_state d1 (wc_dataset_id w) (bump_version (upd_label u')) (upd_chunks u')).
  { intros. apply (committed_state d); try done. congruence. }
  assert (Hclear : upd_chunks u' = [] ∧ label_finalized_head (upd_label u') = None →
    wc_inv (set_window from parent (clear_heads w)) d1 (bump_version (upd_label u')) []).
  { intros [En Ef]. rewrite En, Ef in Hds. destruct (clear_heads_fields w) as (C1 & C2 & C3 & C4 & C5 & C6).
    constructor; cbn [set_window wc_dataset_id wc_head wc_finalized_head wc_first_chunk_head
      wc_head_sender wc_finalized_head_sender];
      rewrite ?C1, ?C2, ?C3, ?C4, ?C5, ?C6, ?label_bump_fin; try done.
    apply Hds; [split; [constructor|done]|done]. }
  destruct st as [a h fin| |n|]; cbn [apply_status]; intros [= <- <- <-].
  2-4: exists (bump_version (upd_label u')), []; split; [by apply Hclear; destruct Hr as (? & ? & ?)|]; split; [by destruct Hcm|];
       split_and!; try done; rewrite ?label_bump_fin; by destruct Hr as (? & ? & ?).
  destruct Hr as (del & Hcs & Hdel & Ha & Hlast & Hin & Hfits & Hfin' & Hl').
  assert (Ht' : tiled (upd_chunks u')) by (rewrite Hcs in Ht; by apply tiled_app in Ht as [_ ?]).
  pose proof (kept_fin_window l a _ cs del Ht Hw Hcs Ha) as Hkw. rewrite <-Hfin' in Hkw.
  assert (Hsame : wc_head w = Some (get_chunk_head h))
    by (rewrite Hh, Hcs, last_app, Hlast; done).
  assert (Hwo : watermarks_ok (Some (get_chunk_head h)) (wc_finalized_head w))
    by (rewrite <-Hsame, Hh, Hfin; by apply fin_watermarks).
  assert (Hwn : watermarks_ok (Some (get_chunk_head h)) fin)
    by (apply fin_watermarks in Hkw; by rewrite Hlast in Hkw).
  destruct (publish_both w (Some (get_chunk_head h)) fin Hph Hpf Hwo Hwn)
    as (P1 & P2 & P3 & P4 & P5 & P6 & P7 & P8 & Plog).
  exists (bump_version (upd_label u')), (upd_chunks u'). split_and!.
  - constructor; simpl; rewrite ?P1, ?P2, ?P3, ?P4, ?P5, ?Hlast, ?Ha, ?label_bump_fin; try done.
    apply Hds; [done|by rewrite Hl'].
  - by destruct Hcm.
  - done.
  - done.
  - exists a, del. rewrite label_bump_fin. by split_and!; try lia; try congruence.
Qed.

(** ** Fork resolution *)

(** A position at which a replacement can start: right above a stored chunk, or at the
    bottom of the window. *)
Definition on_boundary w (cs : list Chunk) (from : Z) (parent : option string) : Prop :=
  ∃ kept dropped, cs = kept ++ dropped ∧
    match last kept with
    | Some a => from = last_block a + 1 ∧ parent = Some (last_block_hash a)
    | None => match head cs with
              | Some a => from = first_block a ∧ parent = Some (parent_block_hash a)
              | None => from = wc_first_block w ∧ parent = wc_parent_block_hash w
              end
    end.

Lemma drop_while_suffix {A} (f : A → bool) l : ∃ k, l = k ++ drop_while f l ∧ Forall (λ x, f x = true) k.
Proof.
  induction l as [|x l (k & E & Hk)]; simpl; [by exists []|]. destruct (f x) eqn:Ef.
  - exists (x :: k). simpl. split; [congruence|by constructor].
  - by exists [].
Qed.

Lemma drop_while_head {A} (f : A → bool) l x k : drop_while f l = x :: k → f x = false.
Proof. induction l as [|y l IH]; simpl; [done|]. destruct (f y) eqn:E; [done|]. by intros [= <- <-]. Qed.

Lemma take_while_app_all {A} (f : A → bool) l k : (∀ x, x ∈ l → f x = true) →
  take_while f (l ++ k) = l ++ take_while f k.
Proof.
  induction l as [|y l IH]; simpl; intros Hl; [done|]. rewrite (Hl y) by lmem. f_equal.
  apply IH. intros x Hx. apply Hl. lmem.
Qed.

Lemma tiled_kept_le (l : list Chunk) a x : StronglySorted (λ a b, last_block a < first_block b) l →
  last l = Some a → x ∈ l → Forall chunk_ok l → last_block x <= last_block a.
Proof.
  intros Hs Hl Hx Hok. destruct l as [|y l _] using rev_ind; [done|]. rewrite last_snoc in Hl. simplify_eq.
  apply StronglySorted_snoc in Hs as [_ Hs]. rewrite elem_of_app, list_elem_of_singleton in Hx.
  destruct Hx as [Hx| ->]; [|lia]. rewrite Forall_forall in Hs, Hok. specialize (Hs x Hx).
  specialize (Hok a ltac:(set_solver)). unfold chunk_ok in Hok. simpl in Hs. lia.
Qed.

Lemma drop_while_sub {A} (f : A → bool) l x : x ∈ drop_while f l → x ∈ l.
Proof. intros Hx. destruct (drop_while_suffix f l) as (k & -> & _). lmem. Qed.

(** A chunk the hints confirm: its head is one of them, or they all lie above it. *)
Definition meets (hints : list BlockRef) (c : Chunk) : Prop :=
  get_chunk_head c ∈ hints ∨ ∀ b, b ∈ hints → last_block c < number b.

Lemma meets_skip hints c b : StronglySorted (λ a b, number b < number a) (b :: hints) →
  number b <= last_block c → (number b = last_block c → hash b ≠ last_block_hash c) → ¬ meets (b :: hints) c.
Proof.
  intros [_ Hb]%StronglySorted_inv Hle Hne [Hin|Hall]; [|specialize (Hall b ltac:(lmem)); lia].
  rewrite Forall_forall in Hb. apply elem_of_cons in Hin as [E|Hin].
  - apply Hne; by rewrite <-E.
  - specialize (Hb _ Hin). simpl in Hb. lia.
Qed.

Lemma meets_suffix k hints c : Forall (λ b, last_block c < number b) k → meets (k ++ hints) c ↔ meets hints c.
Proof.
  rewrite Forall_forall. intros Hk. unfold meets. setoid_rewrite elem_of_app. split.
  - intros [[Hin|Hin]|Hall]; [|by left|right; auto]. specialize (Hk _ Hin). simpl in Hk. lia.
  - intros [Hin|Hall]; [auto|right; intros b [Hb|Hb]; auto].
Qed.

(** The loop stops at the first chunk, from the top, that the hints confirm. *)
Lemma resume_loop_spec (l : list Chunk) : ∀ prev o,
  Forall chunk_ok l → StronglySorted (λ a b, last_block b < last_block a) l →
  StronglySorted (λ a b, number b < number a) prev → resume_loop (Ok <$> l) prev = Ok o →
  match o with
  | Some (n, h) => ∃ l1 c l2, l = l1 ++ c :: l2 ∧ Forall (λ x, ¬ meets prev x) l1 ∧ meets prev c ∧
      n = last_block c + 1 ∧ h = Some (last_block_hash c)
  | None => Forall (λ x, ¬ meets prev x) l
  end.
Proof.
  induction l as [|c l IH]; intros prev o Hall Hl Hp Ho; [by injection Ho as <-|].
  apply Forall_cons in Hall as [Hc Hall]. apply StronglySorted_inv in Hl as [Hl Hlc].
  cbn [fmap list_fmap resume_loop mbind res_bind] in Ho.
  assert (Hadd : u64_add (last_block c) 1 = last_block c + 1)
    by (unfold chunk_ok, u64_max in Hc; apply u64_add_small; unfold u64_max; lia).
  assert (Hcons : ∀ prev' : list BlockRef, ¬ meets prev c → (∀ x, x ∈ l → meets prev' x ↔ meets prev x) →
    match o with
    | Some (n, h) => ∃ l1 x l2, l = l1 ++ x :: l2 ∧ Forall (λ x, ¬ meets prev' x) l1 ∧ meets prev' x ∧
        n = last_block x + 1 ∧ h = Some (last_block_hash x)
    | None => Forall (λ x, ¬ meets prev' x) l
    end →
    match o with
    | Some (n, h) => ∃ l1 x l2, c :: l = l1 ++ x :: l2 ∧ Forall (λ x, ¬ meets prev x) l1 ∧ meets prev x ∧
        n = last_block x + 1 ∧ h = Some (last_block_hash x)
    | None => Forall (λ x, ¬ meets prev x) (c :: l)
    end).
  { intros prev' Hmc Hiff. destruct o as [[n h]|].
    - intros (l1 & x & l2 & -> & H1 & Hx & E). exists (c :: l1), x, l2. split; [done|].
      rewrite Hiff in Hx by (apply elem_of_app; right; lmem). split; [|done]. constructor; [done|]. rewrite Forall_forall in H1 |- *.
      intros y Hy. rewrite <-Hiff by (apply elem_of_app; by left). auto.
    - rewrite Forall_cons, !Forall_forall. intros H1. split; [done|]. intros y Hy. rewrite <-Hiff by done. auto. }
  destruct (match prev with b :: _ => number b <? last_block c | [] => false end) eqn:Eskip.
  { destruct prev as [|b prev]; [done|]. zbool. apply (Hcons (b :: prev)); [|done|by apply IH].
    apply meets_skip; [done|lia|]. intros; lia. }
  destruct (drop_while_suffix (λ b, number b >? last_block c) prev) as (k & Ek & Hk).
  assert (Hk' : ∀ x, last_block x <= last_block c → Forall (λ b, last_block x < number b) k).
  { intros x Hx. eapply Forall_impl; [exact Hk|]. simpl. intros. lia. }
  destruct (drop_while _ prev) as [|b rest] eqn:Ed.
  - injection Ho as <-. exists [], c, l. rewrite app_nil_r in Ek. split_and!; [done..| |by rewrite Hadd|done].
    right. rewrite Ek. specialize (Hk' c ltac:(lia)). rewrite Forall_forall in Hk'. auto.
  - pose proof (drop_while_head (λ b, number b >? last_block c) prev b rest Ed) as Hnb. simpl in Hnb.
    destruct ((number b =? last_block c) && bool_decide (hash b = last_block_hash c))%bool eqn:Eb.
    + zbool. case_bool_decide as Eh; [|done]. injection Ho as <-. exists [], c, l.
      split_and!; [done..| |congruence|congruence]. left. rewrite Ek. unfold get_chunk_head. rewrite <-Eh.
      replace (last_block c) with (number b). destruct b. set_solver.
    + assert (Hs : StronglySorted (λ a b, number b < number a) (b :: rest)).
      { rewrite Ek in Hp. clear -Hp. induction k; [done|]. simpl in Hp. apply StronglySorted_inv in Hp as [Hp _]. auto. }
      apply (Hcons (b :: rest)); [| |by apply IH].
      * rewrite Ek, meets_suffix by (apply Hk'; lia). apply meets_skip; [done|lia|]. intros E Eh.
        rewrite E, Z.eqb_refl, bool_decide_true in Eb by done. done.
      * intros x Hx. rewrite Ek, meets_suffix; [done|]. apply Hk'. rewrite Forall_forall in Hlc.
        specialize (Hlc x Hx). simpl in Hlc. lia.
Qed.

Lemma take_while_sub {A} (f : A → bool) l x : x ∈ take_while f l → x ∈ l.
Proof. intros Hx. destruct (take_while_prefix f l) as [k ->]. lmem. Qed.

Lemma resume_loop_total (l : list Chunk) prev : ∃ o, resume_loop (Ok <$> l) prev = Ok o.
Proof.
  revert prev. induction l as [|c l IH]; intros prev; [by eexists|].
  cbn [fmap list_fmap resume_loop mbind res_bind]. case_if; [apply IH|].
  destruct (drop_while _ prev); [by eexists|]. case_if; [by eexists|apply IH].
Qed.

(** Hints in order. *)
Definition ordered (prev : list BlockRef) : Prop := StronglySorted (λ a b, number a < number b) prev.

Lemma ascending_spec prev : ascending prev = true ↔ ordered prev.
Proof.
  unfold ordered. induction prev as [|a [|b prev] IH]; [split; [constructor|done]|split; [repeat constructor|done]|].
  cbn [ascending]. rewrite andb_true_iff, Z.ltb_lt. split.
  - intros [Hab [Hs Hb]%IH%StronglySorted_inv]. constructor; [by constructor|]. constructor; [done|].
    eapply Forall_impl; [exact Hb|]. simpl. intros; lia.
  - intros [Hs [Hab _]%Forall_cons]%StronglySorted_inv. split; [done|]. by apply IH.
Qed.

(** The hints that matter: those not below the finalized head. *)
Definition relevant (fin : option BlockRef) (prev : list BlockRef) : list BlockRef :=
  match fin with Some f => filter (λ b, number f <= number b) prev | None => prev end.

(** Why a list of hints cannot be resolved: there are none, they are not in order, they all
    lie below the finalized head, or one of them contradicts it. *)
Definition bad_hints (fin : option BlockRef) (prev : list BlockRef) : Prop :=
  prev = [] ∨ ¬ ordered prev ∨
  ∃ f, fin = Some f ∧
    ((∀ b, b ∈ prev → number b < number f) ∨ ∃ b, b ∈ prev ∧ number b = number f ∧ hash b ≠ hash f).

Lemma drop_below_relevant f prev : ordered prev →
  drop_while (λ b, number b <? number f) prev = relevant (Some f) prev.
Proof.
  unfold relevant. induction prev as [|b prev IH]; [done|]. intros [Hs Hb]%StronglySorted_inv.
  cbn [drop_while]. rewrite filter_cons. destruct (Z.ltb_spec (number b) (number f)).
  - rewrite decide_False by lia. by apply IH.
  - rewrite decide_True by lia. f_equal. symmetry. apply list_filter_all. rewrite Forall_forall in Hb.
    intros x Hx. specialize (Hb x Hx). simpl in Hb. lia.
Qed.

Lemma relevant_sub fin prev b : b ∈ relevant fin prev → b ∈ prev.
Proof. destruct fin; [|done]. by intros [_ ?]%list_elem_of_filter. Qed.
Lemma relevant_ordered fin prev : ordered prev → ordered (relevant fin prev).
Proof. destruct fin; [apply StronglySorted_filter|done]. Qed.

Lemma hints_above_spec fin prev : prev ≠ [] → ordered prev →
  match hints_above fin prev with
  | Ok prev' => prev' ≠ [] ∧ prev' = relevant fin prev ∧ ¬ bad_hints fin prev
  | Err _ => bad_hints fin prev
  | Panic _ => False
  end.
Proof.
  intros Hne Hs. unfold hints_above. destruct fin as [f|].
  2: { split; [done|]. split; [done|]. by intros [|[|(f & ? & _)]]. }
  rewrite drop_below_relevant by done.
  assert (Hin : ∀ x, x ∈ relevant (Some f) prev ↔ number f <= number x ∧ x ∈ prev) by (intros x; apply (list_elem_of_filter (λ b, number f <= number b))).
  destruct (relevant (Some f) prev) as [|b rest] eqn:Er.
  - right; right. exists f. split; [done|]. left. intros x Hx. destruct (Z.lt_ge_cases (number x) (number f)); [done|].
    exfalso. apply (not_elem_of_nil x), Hin. done.
  - destruct (proj1 (Hin b) ltac:(lmem)) as [Hfb Hb]. destruct ((number b =? number f) && _)%bool eqn:Ec.
    + right; right. exists f. split; [done|]. right. exists b. apply andb_true_iff in Ec as [E1%Z.eqb_eq E2].
      rewrite negb_true_iff, bool_decide_eq_false in E2. done.
    + split; [done|]. split; [done|]. intros [|[|(f' & [= <-] & [Hall|(x & Hx & En & Eh)])]]; [done..| |].
      * specialize (Hall b Hb). lia.
      * assert (Hxr : x ∈ b :: rest) by (apply Hin; split; [lia|done]). apply elem_of_cons in Hxr as [->|Hxr].
        -- rewrite En, Z.eqb_refl, bool_decide_false in Ec by done. done.
        -- assert (Hsr : ordered (b :: rest)) by (rewrite <-Er; by apply StronglySorted_filter).
           apply StronglySorted_inv in Hsr as [_ Hbr]. rewrite Forall_forall in Hbr. specialize (Hbr x Hxr). simpl in Hbr. lia.
Qed.

(** What a resolved rollback is: it starts on a boundary of the window, right above the highest
    chunk that the relevant hints confirm (or at the bottom when they confirm none), and it
    must reach the finalized head again when it starts at or below it. *)
Definition rollback_ok w (l : DatasetLabel) (cs : list Chunk) (prev : list BlockRef) (rb : Rollback) : Prop :=
  let hints := relevant (label_finalized_head l) prev in
  on_boundary w cs (resume_from rb) (expected_parent_hash rb) ∧
  (∀ c, c ∈ cs → last_block c + 1 = resume_from rb → meets hints c) ∧
  (∀ c, c ∈ cs → resume_from rb <= last_block c → ¬ meets hints c) ∧
  reach_at_least rb = match label_finalized_head l with
                      | Some f => if resume_from rb <=? number f then Some (number f) else None
                      | None => None
                      end.

Lemma tiled_last_unique cs a b : tiled cs → a ∈ cs → b ∈ cs → last_block a = last_block b → a = b.
Proof.
  intros Ht Ha Hb E. pose proof (tiled_chain _ Ht) as Hch. destruct Ht as [Hall _]. rewrite Forall_forall in Hall.
  pose proof (Hall a Ha) as Hoa. pose proof (Hall b Hb) as Hob. unfold chunk_ok in Hoa, Hob.
  apply (chain_covering_unique cs (last_block a)); try done; lia.
Qed.

(** The chunks walked from the top, and that the hints confirm none of the others. *)
Lemma walked_chunks cs hints top : tiled cs → last hints = Some top →
  let walked := take_while (in_window 0 (Some (number top))) (reverse (filter (λ c, last_block c <= number top) cs)) in
  walked = reverse (filter (λ c, last_block c <= number top) cs) ∧
  StronglySorted (λ a b, last_block b < last_block a) walked ∧
  (ordered hints → ∀ c, c ∈ cs → c ∉ walked → ¬ meets hints c).
Proof.
  intros Ht Hl walked. pose proof Ht as [Hall _]. rewrite Forall_forall in Hall.
  assert (E : walked = reverse (filter (λ c, last_block c <= number top) cs)).
  { unfold walked. set (k := reverse _). rewrite <-(app_nil_r k) at 1.
    rewrite take_while_app_all; [by rewrite app_nil_r|]. intros x Hx. unfold k in Hx.
    rewrite elem_of_reverse, list_elem_of_filter in Hx. destruct Hx as [Hle Hx]. specialize (Hall x Hx).
    unfold in_window, chunk_ok in *. lia. }
  split; [done|]. rewrite E. split.
  - apply (StronglySorted_reverse (λ a b, last_block a < last_block b)), StronglySorted_filter.
    pose proof (chain_sorted _ (tiled_chain _ Ht)) as Hs. clear -Hs Hall. induction Hs as [|c cs Hs IH Hc]; [constructor|].
    constructor; [apply IH; intros; apply Hall; lmem|]. rewrite Forall_forall in Hc |- *. intros x Hx.
    specialize (Hc x Hx). specialize (Hall x ltac:(lmem)). unfold chunk_ok in Hall. simpl in Hc. lia.
  - intros Hs c Hc Hnw. rewrite elem_of_reverse, list_elem_of_filter in Hnw.
    assert (number top < last_block c) by (destruct (Z.lt_ge_cases (number top) (last_block c)); [done|by destruct Hnw]).
    intros [Hin|Habove]; [|specialize (Habove top (last_Some_elem_of _ _ Hl)); lia].
    destruct hints as [|z k _] using rev_ind; [done|]. rewrite last_snoc in Hl. injection Hl as ->.
    apply StronglySorted_snoc in Hs as [_ Hs]. rewrite Forall_forall in Hs.
    apply elem_of_app in Hin as [Hin|Hin%list_elem_of_singleton].
    + specialize (Hs _ Hin). simpl in Hs. lia.
    + rewrite <-Hin in *. simpl in *. lia.
Qed.

(** Above the chunk it stops at, the loop met no chunk that the hints confirm. *)
Lemma stop_maximal cs hints top l1 c l2 : tiled cs → last hints = Some top → ordered hints →
  reverse (filter (λ x, last_block x <= number top) cs) = l1 ++ c :: l2 → Forall (λ x, ¬ meets hints x) l1 →
  ∀ x, x ∈ cs → last_block c < last_block x → ¬ meets hints x.
Proof.
  intros Ht Hl Hs E H1 x Hx Hlt. destruct (walked_chunks cs hints top Ht Hl) as (Ew & Hsort & Hout).
  rewrite Ew in Hsort, Hout. destruct (decide (x ∈ l1 ++ c :: l2)) as [Hw|Hn]; [|by apply Hout; rewrite ?E].
  rewrite E in Hsort. apply elem_of_app in Hw as [Hw|Hw]; [rewrite Forall_forall in H1; auto|].
  exfalso. assert (Hs2 : StronglySorted (λ a b, last_block b < last_block a) (c :: l2)).
  { clear -Hsort. induction l1; [done|]. simpl in Hsort. apply StronglySorted_inv in Hsort as [? _]. auto. }
  apply elem_of_cons in Hw as [->|Hw]; [lia|]. pose proof (StronglySorted_elem _ _ _ Hs2 x Hw) as Hc. simpl in Hc. lia.
Qed.

Lemma compute_rollback_spec w prev d l cs :
  wc_inv w d l cs → Forall (λ b, u64_ok (number b)) prev →
  match compute_rollback w prev d with
  | Ok rb => rollback_ok w l cs prev rb ∧ ¬ bad_hints (label_finalized_head l) prev
  | Err _ => bad_hints (label_finalized_head l) prev
  | Panic _ => False
  end.
Proof.
  clear env counters D.
  intros [Hid Hs _ _ _ _ _] Hprev. unfold compute_rollback.
  case_bool_decide as Hne; [by left|]. cbn [negb ensure mbind res_bind].
  destruct (ascending prev) eqn:Easc; cbn [ensure mbind res_bind].
  2: { right; left. rewrite <-ascending_spec. by rewrite Easc. }
  apply ascending_spec in Easc.
  unfold get_label. rewrite (ds_label _ _ _ _ Hs), label_roundtrip. cbn [ok_or mbind res_bind].
  pose proof (hints_above_spec (label_finalized_head l) prev Hne Easc) as Hh.
  destruct (hints_above _ prev) as [hints|e|m] eqn:Hp; [|done..]. destruct Hh as (Hne' & Eh & Hgood).
  cbn [mbind res_bind]. destruct (last hints) as [top|] eqn:El; [|by apply last_None in El].
  cbn [mbind res_bind].
  assert (Htop : u64_ok (number top)).
  { rewrite Forall_forall in Hprev. apply Hprev. apply last_Some_elem_of in El. rewrite Eh in El.
    by apply relevant_sub in El. }
  assert (Ho : ordered hints) by (rewrite Eh; by apply relevant_ordered).
  rewrite list_chunks_rev_spec by (done || apply (ds_cf _ _ _ _ Hs)).
  fold (chunks_of (d CF_CHUNKS) (wc_dataset_id w)). rewrite (ds_chunks _ _ _ _ Hs). cbn [upper_block].
  pose proof (ds_tiled _ _ _ _ Hs) as Ht. pose proof Ht as [Hall _]. rewrite Forall_forall in Hall.
  destruct (walked_chunks cs hints top Ht El) as (Ew & Hsort & Hout). rewrite Ew in Hsort, Hout |- *.
  set (walked := reverse _) in *.
  assert (Hsub : ∀ x, x ∈ walked → x ∈ cs) by (intros x; unfold walked; rewrite elem_of_reverse, list_elem_of_filter; tauto).
  destruct (resume_loop_total walked (reverse hints)) as [res Hres]. rewrite Hres. cbn [mbind res_bind].
  assert (Hmr : ∀ x, meets (reverse hints) x ↔ meets hints x) by (intros x; unfold meets; by setoid_rewrite elem_of_reverse).
  apply resume_loop_spec in Hres; [|apply Forall_forall; auto|done|by apply (StronglySorted_reverse (λ a b, number a < number b))].
  unfold rollback_ok. rewrite <-Eh. destruct res as [[n h]|].
  - cbn [mbind res_bind]. destruct Hres as (l1 & c & l2 & E & H1 & Hm & -> & ->). rewrite Hmr in Hm.
    assert (Hc : c ∈ cs) by (apply Hsub; rewrite E; apply elem_of_app; right; lmem).
    split; [|done]. split_and!; cbn [resume_from expected_parent_hash].
    + pose proof Hc as (k1 & k2 & ->)%list_elem_of_split. exists (k1 ++ [c]), k2.
      rewrite <-app_assoc, last_snoc. done.
    + intros c' Hc' E'. by replace c' with c by (apply (tiled_last_unique cs); try done; lia).
    + intros x Hx Hle. eapply (stop_maximal cs hints top l1 c l2); try done; [|lia].
      eapply Forall_impl; [exact H1|]. intros y. simpl. by rewrite Hmr.
    + done.
  - unfold get_first_chunk. rewrite list_all, first_item_Ok by (done || apply (ds_cf _ _ _ _ Hs)).
    rewrite (ds_chunks _ _ _ _ Hs). cbn [mbind res_bind].
    assert (Hnone : ∀ x, x ∈ cs → ¬ meets hints x).
    { intros x Hx. destruct (decide (x ∈ walked)) as [Hw|]; [|auto]. rewrite Forall_forall in Hres.
      specialize (Hres x Hw). by rewrite Hmr in Hres. }
    destruct (head cs) as [a|] eqn:Ea; cbn [mbind res_bind]; (split; [|done]); split_and!;
      cbn [resume_from expected_parent_hash]; try done; try (intros; by apply Hnone).
    + exists [], cs. simpl. by rewrite Ea.
    + intros c Hc E. pose proof (tiled_first_le _ a c Ht Ea Hc). specialize (Hall c Hc). unfold chunk_ok in Hall. lia.
    + exists [], cs. simpl. by rewrite Ea.
    + intros c Hc. destruct cs; [by apply elem_of_nil in Hc|done].
Qed.

(** A chunk that starts at such a position, with the expected parent, is accepted. *)
Lemma boundary_accepted w cs from parent c : tiled cs → chunk_ok c → on_boundary w cs from parent →
  first_block c = from → (∀ h, parent = Some h → parent_block_hash c = h) →
  ∃ cs', fork_spec cs c = Ok cs'.
Proof.
  intros Ht Hc (kept & dropped & -> & Hb) Hf Hp. unfold fork_spec.
  assert (Hk : take_while (λ x, first_block x <? first_block c) (kept ++ dropped) = kept).
  { pose proof (chain_sorted _ (tiled_chain _ Ht)) as Hs. destruct Ht as [Hall Hadj].
    apply adjacent_app in Hadj as (_ & _ & Hcross). apply Forall_app in Hall as [Hok Hod].
    destruct kept as [|k0 kept0] eqn:Ek; [|rewrite <-Ek in *].
    - destruct dropped as [|y dropped]; [done|]. simpl in *. destruct Hb as [Hb _].
      rewrite Hf, Hb. by rewrite Z.ltb_irrefl.
    - destruct (last kept) as [a|] eqn:El; [|apply last_None in El; congruence].
      destruct Hb as [Hb _].
      assert (Hka : ∀ x, x ∈ kept → (first_block x <? first_block c) = true).
      { intros x Hx. rewrite Forall_forall in Hok.
        pose proof (tiled_kept_le kept a x) as Hle. pose proof (Hok x Hx) as Hox. unfold chunk_ok in Hox.
        apply Z.ltb_lt. rewrite Hf, Hb.
        assert (last_block x <= last_block a); [|lia].
        apply Hle; [|done|done|by rewrite Forall_forall]. clear -Hs. induction kept as [|y kept IH]; [constructor|].
        simpl in Hs. apply StronglySorted_inv in Hs as [Hs Hy]. apply Forall_app in Hy as [Hy _].
        constructor; auto. }
      clear Hs. rewrite take_while_app_all by done.
      destruct dropped as [|y dropped]; [by rewrite app_nil_r|].
      simpl in Hcross |- *. destruct Hcross as [Hcr _].
      rewrite (proj2 (Z.ltb_ge (first_block y) (first_block c))) by lia. by rewrite app_nil_r. }
  rewrite Hk. destruct (last kept) as [a|] eqn:El; [|eauto]. destruct Hb as [Hb Hh].
  rewrite Hf, Hb, Z.eqb_refl, bool_decide_true by (symmetry; by apply Hp). eauto.
Qed.

(** ** Construction *)

Lemma create_if_not_exists_present id k d l cs d' r : quiet env → dataset_id_ok id → ds_state d id l cs →
  create_dataset_if_not_exists env counters D id k d = (d', r) →
  d' = d ∧ (r = Ok tt → label_kind l = k).
Proof.
  intros Hq Hid Hs. unfold create_dataset_if_not_exists, purge_stale_hash_indexes_if_dataset_absent.
  unfold has_dataset. rewrite (ds_label _ _ _ _ Hs). rewrite bool_decide_true by eauto. simpl. intros E.
  apply (exec_spec _ _ _ _ _ _ _ _ _ Hq) in E. destruct r as [[]|e|m]; [|by split..].
  destruct E as (tx & Ho & ->). destruct (create_if_not_exists_tx_spec _ _ _ _ Ho) as [[Hn _]|(bs & l' & Hb & Hl & Hk & E)].
  - rewrite (ds_label _ _ _ _ Hs) in Hn. done.
  - rewrite E. split; [done|]. rewrite (ds_label _ _ _ _ Hs) in Hb. injection Hb as <-.
    rewrite label_roundtrip in Hl. by injection Hl as ->.
Qed.

Lemma create_if_not_exists_absent id k d d' : quiet env → dataset_id_ok id →
  kv_get (d CF_DATASETS) id = None → chunks_cf_ok (d CF_CHUNKS) → chunks_of (d CF_CHUNKS) id = [] →
  create_dataset_if_not_exists env counters D id k d = (d', Ok tt) →
  ds_state d' id (LabelV0 k 0 None) [].
Proof.
  intros Hq Hid Hn Hcf Hc. unfold create_dataset_if_not_exists.
  destruct (purge_stale_spec id d Hid) as (d1 & -> & _ & P2). simpl. intros E. unfold index_cfs in P2.
  apply (exec_spec _ _ _ _ _ _ _ _ _ Hq) in E. destruct E as (tx & Ho & ->).
  destruct (create_if_not_exists_tx_spec _ _ _ _ Ho) as [[Hn1 Hg]|(bs & l' & Hb & _)].
  - assert (Hck : ∀ k', kv_get (d CF_CHUNKS) k' = kv_get (apply_batch (tx_batch tx) d1 CF_CHUNKS) k')
      by (intros k'; rewrite Hg, decide_False by naive_solver; symmetry; apply P2; set_solver).
    constructor.
    + by rewrite Hg, decide_True.
    + by eapply chunks_cf_ok_ext.
    + rewrite <-Hc. symmetry. by apply chunks_of_ext.
    + split; [constructor|done].
    + done.
  - rewrite P2, Hn in Hb by set_solver. done.
Qed.

(** The controller read from a committed state. *)
Lemma wc_new_state id kind d l cs hs fs : dataset_id_ok id → ds_state d id l cs →
  ∃ w, (label ← get_label d id;
        first_chunk ← get_first_chunk d id;
        last_chunk ← get_last_chunk d id;
        Ok (publish_finalized_head (publish_head
          (mkWriteController id kind (from_option first_block 0 first_chunk)
             (parent_block_hash <$> first_chunk) (get_chunk_head <$> first_chunk)
             (get_chunk_head <$> last_chunk) (label ≫= label_finalized_head) hs fs [])))) = Ok w ∧
    wc_inv w d l cs ∧ wc_parent_block_hash w = parent_block_hash <$> head cs ∧
    wc_first_block w = from_option first_block 0 (head cs).
Proof.
  intros Hid Hs. unfold get_label. rewrite (ds_label _ _ _ _ Hs), label_roundtrip. cbn [ok_or mbind res_bind].
  pose proof (ds_cf _ _ _ _ Hs) as Hcf.
  unfold get_first_chunk, get_last_chunk. rewrite list_all, list_all_rev, !first_item_Ok by done.
  rewrite head_reverse, (ds_chunks _ _ _ _ Hs). cbn [mbind res_bind option_bind].
  eexists; split; [done|]. unfold publish_finalized_head, publish_head. simpl.
  repeat (case_decide; simpl); (split; [|done]); constructor; simpl; done.
Qed.

Lemma wc_new_spec id kind d l cs hs fs d' w : quiet env → dataset_id_ok id →
  (ds_state d id l cs ∨ kv_get (d CF_DATASETS) id = None ∧ chunks_cf_ok (d CF_CHUNKS) ∧
     chunks_of (d CF_CHUNKS) id = [] ∧ cs = [] ∧ ∃ k, storage_kind kind = Ok k ∧ l = LabelV0 k 0 None) →
  wc_new env counters D id kind hs fs d = (d', Ok w) →
  wc_inv w d' l cs ∧ wc_parent_block_hash w = parent_block_hash <$> head cs ∧
  wc_first_block w = from_option first_block 0 (head cs).
Proof.
  intros Hq Hid Hcase. unfold wc_new. destruct (storage_kind kind) as [k|e|m]; [|done..].
  destruct (create_dataset_if_not_exists _ _ _ _ _ d) as [d1 r1] eqn:Ec.
  destruct r1 as [[]|e|m]; [|done..]. cbn [then_]. intros [= <- Ho].
  assert (Hs : ds_state d1 id l cs).
  { destruct Hcase as [Hs|(Hn & Hcf & Hc & -> & k' & [= <-] & ->)].
    - by destruct (create_if_not_exists_present _ _ _ _ _ _ _ Hq Hid Hs Ec) as [-> _].
    - by eapply create_if_not_exists_absent. }
  destruct (wc_new_state id kind d1 l cs hs fs Hid Hs) as (w' & E & Hw). rewrite E in Ho. by injection Ho as <-.
Qed.
End facts.
