(* ===== verification/ControllerProps.v ===== *)
(** * ControllerProps: what the writer of a dataset guarantees

    The theorems about the controller's transitions, stated over the invariant of
    [ControllerSpec]: construction, new chunks, finality, retention, fork resolution,
    and any sequence of ingest messages. *)

From stdpp Require Import relations.
From S2P Require Import Prelude Bytes Data Kv ChunkIter Tables Chain Tx Concrete.
From S2P Require Import TxSpec UpdateSpec Retry PrefixSpec Cleanup Db DbSpec WriteController ControllerSpec.

Section props.
Context {M C T : Type} `{HK : KvStore M C} `{HL : !KvStoreLaws M C}
  `{HB : Borsh} `{HBL : !BorshLaws} `{HT : TableReader T} `{HTL : !TableReaderLaws T}
  `{HS : !TableStore M T}.
Context (env : db M → nat → attempt_env M) (counters : tx_counters) (D : Database).
Implicit Types (d : db M) (id : DatasetId) (w : WriteController) (u : DatasetUpdate M).

(** ** Finality and stored blocks *)

(** The finalized head names a block of the window (INV-6). *)
Definition fin_named (fin : option BlockRef) (rowss : list (list (Z * string))) : Prop :=
  ∀ b, fin = Some b → (number b, hash b) ∈ concat rowss.

Lemma in_concat_rows m cs rowss x b h (tx : Tx M) :
  Forall2 (chunk_rows m) cs rowss → tx_db tx CF_TABLES = m → x ∈ cs → u64_ok b →
  find_block_hash_in_chunk x b tx = Ok (Some h) → (b, h) ∈ concat rowss.
Proof.
  intros Hall Hm Hx Hb Hf. apply list_elem_of_lookup_1 in Hx as [i Hi].
  destruct (Forall2_lookup_l _ _ _ _ _ Hall Hi) as (rows & Hr & Hrows).
  rewrite list_elem_of_In, in_concat. exists rows. rewrite <-!list_elem_of_In.
  split; [by eapply list_elem_of_lookup_2|by eapply find_in_chunk_rows].
Qed.

Lemma head_row m c rows : chunk_rows m c rows → (last_block c, last_block_hash c) ∈ rows.
Proof. intros (_ & _ & Hl). by apply last_Some_elem_of. Qed.

Lemma below_elem n h rowss : (n, h) ∈ concat rowss ↔ (n, h) ∈ below n (concat rowss).
Proof. unfold below. rewrite list_elem_of_filter. split; [intros Hin; split; [simpl; lia|exact Hin]|by intros [_ ?]]. Qed.

(** The rows of a chunk are determined by its tables. *)
Lemma chunk_rows_unique m c r1 r2 : chunk_rows m c r1 → chunk_rows m c r2 → r1 = r2.
Proof.
  intros ((i1 & t1 & a1 & b1 & A1 & B1 & K1 & -> & _) & _) ((i2 & t2 & a2 & b2 & A2 & B2 & K2 & -> & _) & _).
  destruct K1 as (I1 & J1 & _), K2 as (I2 & J2 & _). simplify_eq.
  assert (t1 = t2) as <- by congruence. by simplify_eq.
Qed.

Lemma chunk_rows_list_unique m cs r1 r2 :
  Forall2 (chunk_rows m) cs r1 → Forall2 (chunk_rows m) cs r2 → r1 = r2.
Proof.
  intros H1. revert r2. induction H1 as [|c r cs rs Hc _ IH]; intros r2 H2; inversion H2; subst; [done|].
  f_equal; [by eapply chunk_rows_unique|auto].
Qed.

(** The rows of the window after a fork, and where the finalized head is among them. *)
Lemma fork_rows u c cs' kept dropped rk rd rows m w r b :
  upd_ok u → tx_db (upd_tx u) CF_TABLES = m → u64_ok (number r) →
  upd_chunks u = kept ++ dropped → cs' = kept ++ [c] →
  Forall (λ x, first_block c <= first_block x) dropped →
  Forall2 (chunk_rows m) kept rk → Forall2 (chunk_rows m) dropped rd → chunk_rows m c rows →
  resolve_finality u (label_finalized_head (upd_label u)) (Some c) (wc_first_block w) r = Ok (FinApplied b) →
  (number b, hash b) ∈ concat (rk ++ [rows]).
Proof.
  intros Hok Hm Hr Hcs -> Hd Hrk Hrd Hrc Hres. rewrite concat_app. simpl. rewrite app_nil_r, elem_of_app.
  apply resolve_applied in Hres as (_ & _ & Hb); [|done..].
  destruct Hb as [(x & -> & -> & _)|[-> [(x & [= <-] & Hx & Hfx)|(Hlt & x & Hx & Hin & Hfx)]]].
  - right. by eapply head_row.
  - right. by eapply find_in_chunk_rows.
  - left. eapply (in_concat_rows m kept); try done. rewrite Hcs, elem_of_app in Hx.
    destruct Hx as [|Hx]; [done|]. rewrite Forall_forall in Hd. specialize (Hd x Hx). simpl in Hd. lia.
Qed.

(** C1: finalized history is immutable (INV-12, INV-13) and the finalized head always
    names a stored block (INV-6).  If the tables of every stored chunk and of the new chunk
    hold the blocks the chunks claim, then after an accepted chunk the window is again of
    that kind, every block at or below the old finalized head is still there unchanged and
    no block was added below it, and the possibly advanced finalized head is the number and
    hash of a stored block. *)
Theorem new_chunk_keeps_finalized w report c d w' d' l cs rowss rows :
  quiet env → wc_inv w d l cs → chunk_ok c → (∀ r, report = Some r → u64_ok (number r)) →
  Forall2 (chunk_rows (d CF_TABLES)) cs rowss → chunk_rows (d CF_TABLES) c rows →
  fin_named (label_finalized_head l) rowss →
  new_chunk env counters D w report c d = (w', d', Ok tt) →
  ∃ l' cs' rowss', wc_inv w' d' l' cs' ∧ Forall2 (chunk_rows (d' CF_TABLES)) cs' rowss' ∧
    last cs' = Some c ∧ fin_named (label_finalized_head l') rowss' ∧
    ∀ f, label_finalized_head l = Some f →
      below (number f) (concat rowss') = below (number f) (concat rowss) ∧
      ∃ f', label_finalized_head l' = Some f' ∧ (f' = f ∨ number f < number f').
Proof.
  intros Hq Hinv Hc Hrep Hrows Hrc Hnamed Ho.
  apply (new_chunk_spec env counters D w report c d w' d' _ l cs Hq Hinv Hc Hrep) in Ho.
  destruct Ho as (u & fin & cs' & Hf & Hg & Hsrc & Hfork & Hinv' & Hwin & _ & Htab & Hmono & _).
  pose proof (inv_state _ _ _ _ Hinv) as Hs. pose proof (inv_id _ _ _ _ Hinv) as Hid.
  pose proof (fresh_ok _ _ _ _ _ Hid Hs Hf) as Hok. pose proof (fresh_chunks _ _ _ _ Hf) as Ecs.
  rewrite (ds_chunks _ _ _ _ Hs) in Ecs. destruct Hf as (F1 & F2 & F3 & F4).
  destruct (fork_window cs c cs' (ds_tiled _ _ _ _ Hs) Hc Hfork Hwin)
    as (kept & dropped & Hcs & Hcs' & _ & _ & Hd & _).
  exists (bump_version (label_set_finalized_head l fin)), cs'.
  rewrite label_bump_fin, label_set_fin, Htab.
  pose proof Hrows as Hsplit. rewrite Hcs in Hsplit.
  apply Forall2_app_inv_l in Hsplit as (rk & rd & Hrk & Hrd & Erowss).
  assert (Hkeep : ∀ f, label_finalized_head l = Some f →
    below (number f) (concat (rk ++ [rows])) = below (number f) (concat rowss)).
  { intros f Hfin. rewrite <-Ecs in Hfork, Hwin, Hrows. pose proof (ds_tiled _ _ _ _ Hs) as Ht.
    rewrite <-Ecs in Ht. rewrite <-F2 in Hfin. rewrite <-F4 in Hrows, Hrc.
    destruct (fork_keeps_finalized u c cs' f rows rowss Hok Ht Hc Hwin Hg Hfork Hfin Hrows Hrc)
      as (rowss' & Hr' & <-). f_equal. f_equal. rewrite Hcs', F4 in Hr'.
    apply Forall2_app_inv_l in Hr' as (rk' & rc' & Hrk' & Hrc' & ->).
    rewrite (chunk_rows_list_unique _ _ _ _ Hrk Hrk'). f_equal.
    apply (chunk_rows_list_unique (d CF_TABLES) [c]); [|done]. rewrite F4 in Hrc. by constructor. }
  exists (rk ++ [rows]). split; [done|]. split; [|split; [by rewrite Hcs', last_snoc|]].
  { rewrite Hcs'. apply Forall2_app; [done|by constructor]. }
  split; [|eauto]. intros b ->. destruct Hsrc as [Esrc|(r & b' & -> & [= <-] & Hres)].
  - rewrite F2 in Esrc. rewrite below_elem, Hkeep, <-below_elem by done. by apply Hnamed.
  - apply (fork_rows u c cs' kept dropped rk rd rows (d CF_TABLES) w r); try done;
      [by rewrite F4|by apply Hrep|by rewrite Ecs].
Qed.

(** ** Finality reports *)

Definition hash_at (n : Z) (rows : list (Z * string)) : option string :=
  head (filter (λ p, p.1 = n) rows).*2.

Lemma hash_at_Some n h rows : NoDup rows.*1 → (n, h) ∈ rows → hash_at n rows = Some h.
Proof.
  unfold hash_at. induction rows as [|[k g] rows IH]; [by intros _ ?%elem_of_nil|].
  cbn [fmap list_fmap fst]. intros [Hk Hnd]%NoDup_cons [[= <- <-]|Hin]%elem_of_cons; rewrite filter_cons; simpl.
  - by rewrite decide_True.
  - rewrite decide_False; [by apply IH|]. intros ->. apply Hk, list_elem_of_fmap. by exists (n, h).
Qed.

Lemma hash_at_None n rows : n ∉ rows.*1 → hash_at n rows = None.
Proof.
  intros Hn. unfold hash_at. rewrite list_filter_none; [done|]. intros [k g] Hp. simpl. intros ->.
  apply Hn, list_elem_of_fmap. by exists (n, g).
Qed.

(** The verdict on a report from the block the rows have at its height. *)
Definition at_height (rows : list (Z * string)) (fault : fork_reason) (missing : FinalityDecision)
    (report : BlockRef) : FinalityDecision :=
  match hash_at (number report) rows with
  | Some h => if decide (h = hash report) then FinApplied report else FinIntegrityFault fault
  | None => missing
  end.

(** The verdict the current finalized head gives already. *)
Definition against_current (cur : option BlockRef) (eff : BlockRef) : option FinalityDecision :=
  f ← cur;
  if decide (number eff < number f) then Some (FinIgnored Regressive)
  else if decide (eff = f) then Some (FinIgnored AlreadyFinalized)
  else if decide (number eff = number f) then Some (FinIntegrityFault FinalityHashChanged)
  else None.

(** What a finality report means, over the stored blocks and, when it comes with a
    chunk, the blocks of the chunk. *)
Definition finality_spec (cur : option BlockRef) (floor : Z) (stored : list (Z * string))
    (repl : option (Chunk * list (Z * string))) (post_head report : BlockRef) : FinalityDecision :=
  let eff := if decide (number post_head < number report) then post_head else report in
  let in_store := at_height stored FinalityContradictsStoredBlock (FinIgnored NoBlockAtHeight) report in
  if decide (number eff < floor) then FinIgnored IgnoredBelowRetainedWindow
  else if against_current cur eff is Some v then v
  else if decide (number post_head < number report) then FinApplied post_head
  else match repl with
       | Some (c, rows) =>
           if decide (first_block c <= number report)
           then at_height rows FinalityContradictsChunk
                  (if hash_at (number report) stored is Some _
                   then FinIntegrityFault FinalityEvictsFinalizedBlock
                   else FinIgnored NoBlockAtHeight) report
           else in_store
       | None => in_store
       end.

Lemma find_in_chunk_hash_at m c rows (tx : Tx M) b : tx_db tx CF_TABLES = m → chunk_rows m c rows → u64_ok b →
  NoDup rows.*1 → find_block_hash_in_chunk c b tx = Ok (hash_at b rows).
Proof.
  intros <- ((id & t & i & j & Hid & Ht & Hok & -> & H32) & _) Hb Hnd.
  unfold find_block_hash_in_chunk, blocks_table, open_db_table. rewrite Hid. cbn [ok_or mbind res_bind].
  rewrite Ht. cbn [mbind res_bind]. destruct (find_block_hash_spec t i j b Hok Hb H32) as ([h|] & -> & Ho).
  - by rewrite (hash_at_Some _ h).
  - by rewrite hash_at_None.
Qed.

Lemma hash_at_app n l k : n ∉ l.*1 → hash_at n (l ++ k) = hash_at n k.
Proof.
  intros Hn. unfold hash_at. rewrite filter_app, (list_filter_none _ l); [done|].
  intros [x g] Hp. simpl. intros ->. apply Hn, list_elem_of_fmap. by exists (n, g).
Qed.

Lemma hash_at_app_l n l k : n ∉ k.*1 → hash_at n (l ++ k) = hash_at n l.
Proof.
  intros Hn. unfold hash_at. rewrite filter_app, (list_filter_none _ k), app_nil_r; [done|].
  intros [x g] Hp. simpl. intros ->. apply Hn, list_elem_of_fmap. by exists (n, g).
Qed.

Lemma rows_outside m c rows n : chunk_rows m c rows → (n < first_block c ∨ last_block c < n) → n ∉ rows.*1.
Proof.
  intros (_ & Hr & _) Hout ([k g] & -> & Hp)%list_elem_of_fmap. rewrite Forall_forall in Hr.
  specialize (Hr _ Hp). simpl in *. lia.
Qed.

Lemma rowss_outside m cs rowss n : Forall2 (chunk_rows m) cs rowss →
  (∀ x, x ∈ cs → n < first_block x ∨ last_block x < n) → n ∉ (concat rowss).*1.
Proof.
  induction 1 as [|c rows cs rowss Hc _ IH]; intros Hout; [apply not_elem_of_nil|].
  cbn [concat]. rewrite fmap_app, elem_of_app. intros [Hin|Hin].
  - eapply rows_outside; [exact Hc| |exact Hin]. apply Hout. lmem.
  - apply IH; [|done]. intros x Hx. apply Hout. lmem.
Qed.

(** A lookup in stored history is a lookup in all its rows. *)
Lemma find_stored_hash_at u b rowss : upd_ok u → u64_ok b →
  Forall2 (chunk_rows (tx_db (upd_tx u) CF_TABLES)) (upd_chunks u) rowss → Forall (λ r, NoDup r.*1) rowss →
  find_stored_block_hash (upd_dataset_id u) b (upd_tx u) = Ok (hash_at b (concat rowss)).
Proof.
  intros [Hid Hcf Hch] Hb Hrows Hnd. unfold find_stored_block_hash, tx_list_chunks.
  rewrite list_chunks_window by done. rewrite first_item_Ok. cbn [mbind res_bind]. fold (upd_chunks u) in *.
  assert (Hw : ∀ c, in_window b (Some b) c = true ↔ first_block c <= b <= last_block c)
    by (intros c; unfold in_window; rewrite andb_true_iff, !Z.leb_le; lia).
  revert Hch Hnd. induction Hrows as [|c rows cs rowss Hc Hrows IH]; intros Hch Hnd; [done|].
  apply Forall_cons in Hnd as [Hn Hnd]. pose proof (chain_sorted _ Hch) as Hs.
  rewrite filter_cons. cbn [concat]. case_decide as Hin.
  - simpl. rewrite (find_in_chunk_hash_at _ _ rows _ _ eq_refl Hc Hb Hn). rewrite hash_at_app_l; [done|].
    apply Hw in Hin. eapply rowss_outside; [done|]. intros x Hx.
    pose proof (StronglySorted_elem _ _ _ Hs x Hx) as Hlt. simpl in Hlt. lia.
  - rewrite hash_at_app.
    + apply IH; [|done]. by apply (chain_app [c]) in Hch as [_ ?].
    + eapply rows_outside; [done|]. rewrite Hw in Hin. lia.
Qed.

Lemma decide_ltb {A} x y (a b : A) : (if decide (x < y) then a else b) = if x <? y then a else b.
Proof. by destruct (Z.ltb_spec x y); case_decide; try lia. Qed.

Lemma against_current_code cur eff :
  match cur with
  | Some cur =>
      if number eff <? number cur then Some (FinIgnored Regressive)
      else if number eff =? number cur then
        if bool_decide (hash eff = hash cur) then Some (FinIgnored AlreadyFinalized)
        else Some (FinIntegrityFault FinalityHashChanged)
      else None
  | None => None
  end = against_current cur eff.
Proof.
  destruct cur as [f|]; [|done]. unfold against_current. simpl. rewrite decide_ltb.
  destruct (number eff <? number f); [done|]. destruct eff as [n h], f as [n' h']; simpl.
  destruct (Z.eqb_spec n n') as [->|Hne].
  - case_bool_decide as Hh; [subst; by rewrite decide_True|].
    rewrite decide_False by naive_solver. by rewrite decide_True.
  - rewrite !decide_False by naive_solver. done.
Qed.

(** The reads of the code find what the rows have. *)
Lemma resolve_finality_reads u cur repl floor report post_head rowss :
  upd_ok u → u64_ok (number report) →
  Forall2 (chunk_rows (tx_db (upd_tx u) CF_TABLES)) (upd_chunks u) rowss → Forall (λ r, NoDup r.*1) rowss →
  match repl with
  | Some (c, rows) => post_head = get_chunk_head c ∧ NoDup rows.*1 ∧
      chunk_rows (tx_db (upd_tx u) CF_TABLES) c rows
  | None => (get_chunk_head <$> last (upd_chunks u)) = Some post_head
  end →
  resolve_finality u cur (fst <$> repl) floor report
  = Ok (finality_spec cur floor (concat rowss) repl post_head report).
Proof.
  intros Hok Hr Hrows Hnd Hpost. unfold resolve_finality.
  assert (Hph : match fst <$> repl with
    | Some chunk => Ok (get_chunk_head chunk)
    | None => maybe ← upd_last_chunk u; chunk ← ok_or maybe (EMsg "can't finalize an empty dataset");
              Ok (get_chunk_head chunk)
    end = Ok post_head).
  { destruct repl as [[c rows]|]; simpl; [by destruct Hpost as (-> & _)|].
    rewrite upd_last_chunk_spec by done. by destruct (last (upd_chunks u)); simplify_eq/=. }
  rewrite Hph. cbn [mbind res_bind]. rewrite Z.gtb_ltb. unfold finality_spec.
  rewrite (find_stored_hash_at u _ rowss Hok Hr Hrows Hnd). cbn [mbind res_bind].
  rewrite !decide_ltb. set (eff := if number post_head <? number report then post_head else report).
  destruct (number eff <? floor); [done|]. rewrite against_current_code.
  destruct (against_current cur eff) as [v|]; [done|].
  destruct (Z.ltb_spec (number post_head) (number report)) as [|Hle]; [done|]. unfold at_height.
  assert (Hstore : (match hash_at (number report) (concat rowss) with
      | Some h => Ok (if bool_decide (h = hash report) then FinApplied report
                      else FinIntegrityFault FinalityContradictsStoredBlock)
      | None => Ok (FinIgnored NoBlockAtHeight) end)
    = Ok (match hash_at (number report) (concat rowss) with
          | Some h => if decide (h = hash report) then FinApplied report
                      else FinIntegrityFault FinalityContradictsStoredBlock
          | None => FinIgnored NoBlockAtHeight end))
    by (destruct (hash_at _ _); [by case_bool_decide; case_decide|done]).
  destruct repl as [[c rows]|]; simpl; [|done]. destruct Hpost as (-> & Hn & Hc). simpl in Hle.
  rewrite (proj2 (Z.leb_le (number report) _) Hle), andb_true_r.
  destruct (Z.leb_spec (first_block c) (number report)) as [Hin|Hout].
  - rewrite decide_True by done. rewrite (find_in_chunk_hash_at _ c rows _ _ eq_refl Hc Hr Hn).
    cbn [mbind res_bind]. destruct (hash_at (number report) rows); [by case_bool_decide; case_decide|].
    by destruct (hash_at _ (concat rowss)).
  - by rewrite decide_False by lia.
Qed.

(** C6: a finality report is judged by the blocks the window really has.  The head after
    the batch clamps it; below the logical floor, behind or equal to the current finalized
    head it is ignored; a different hash at the current finalized height, or at the height
    of a stored or incoming block, is an integrity fault, as is a batch that would evict the
    reported block; otherwise it is applied.  The decision reads at most one chunk, found by
    seek, and one row, found by binary search. *)
Theorem resolve_finality_exact u cur repl floor report post_head rowss :
  upd_ok u → u64_ok (number report) →
  Forall2 (chunk_rows (tx_db (upd_tx u) CF_TABLES)) (upd_chunks u) rowss → Forall (λ r, NoDup r.*1) rowss →
  match repl with
  | Some (c, rows) => post_head = get_chunk_head c ∧ NoDup rows.*1 ∧
      chunk_rows (tx_db (upd_tx u) CF_TABLES) c rows
  | None => (get_chunk_head <$> last (upd_chunks u)) = Some post_head
  end →
  resolve_finality u cur (fst <$> repl) floor report
  = Ok (finality_spec cur floor (concat rowss) repl post_head report).
Proof. apply resolve_finality_reads. Qed.

(** [finalize] never touches the window, moves the finalized head only forward and only
    to a block that is stored (INV-6), keeps the working copy equal to the committed state
    and publishes no finalized head above the head; when it fails nothing has changed. *)
Theorem finalize_correct w report d w' d' r l cs rowss :
  quiet env → wc_inv w d l cs → u64_ok (number report) →
  Forall2 (chunk_rows (d CF_TABLES)) cs rowss → fin_named (label_finalized_head l) rowss →
  finalize env counters D w report d = (w', d', r) →
  match r with
  | Ok _ => ∃ l', wc_inv w' d' l' cs ∧ d' CF_TABLES = d CF_TABLES ∧ log_extends w w' ∧
      fin_named (label_finalized_head l') rowss ∧
      ∀ f, label_finalized_head l = Some f → ∃ f', label_finalized_head l' = Some f' ∧
        (f' = f ∨ number f < number f')
  | _ => w' = w ∧ d' = d
  end.
Proof.
  intros Hq Hinv Hr Hrows Hnamed Ho.
  apply (finalize_spec env counters D w report d w' d' r l cs Hq Hinv Hr) in Ho.
  destruct r as [[]|e|m]; [|done..]. destruct Ho as (l' & Hinv' & Htab & Hlog & Hcase).
  exists l'. split; [done|]. split; [done|]. split; [done|].
  destruct Hcase as [E|(u & b & Hf & E & Hres)]; rewrite E; [split; [done|eauto]|].
  pose proof (inv_state _ _ _ _ Hinv) as Hs. pose proof (fresh_ok _ _ _ _ _ (inv_id _ _ _ _ Hinv) Hs Hf) as Hok.
  pose proof (fresh_chunks _ _ _ _ Hf) as Ecs. rewrite (ds_chunks _ _ _ _ Hs) in Ecs.
  destruct Hf as (_ & _ & _ & F4). apply resolve_applied in Hres as (_ & Hlt & Hb); [|done..].
  split; [|intros f Hf; exists b; auto]. intros ? [= <-].
  destruct Hb as [(x & Hx & -> & _)|[-> [(x & ? & _)|(_ & x & Hx & Hin & Hfx)]]]; [|done|].
  - simpl. rewrite Ecs in Hx. apply last_Some_elem_of, list_elem_of_lookup_1 in Hx as [i Hi].
    destruct (Forall2_lookup_l _ _ _ _ _ Hrows Hi) as (rows & Hri & Hrows').
    rewrite list_elem_of_In, in_concat. exists rows. rewrite <-!list_elem_of_In.
    split; [by eapply list_elem_of_lookup_2|by eapply head_row].
  - eapply in_concat_rows; [done|by rewrite F4| |done|done]. by rewrite <-Ecs.
Qed.

(** ** Extending the window *)

(** C5: a chunk is accepted only as an extension or a replacement of a suffix of the window
    ([fork_spec]), never below it; afterwards the working copy equals the committed state,
    the window is gapless and ends in the chunk, the finalized head did not move back, and
    subscribers never saw a finalized head above the head (INV-5).  A rejected chunk leaves
    the controller and the window as they were; its tables are only marked for deletion. *)
Theorem new_chunk_correct w report c d w' d' r l cs :
  quiet env → wc_inv w d l cs → chunk_ok c → (∀ r, report = Some r → u64_ok (number r)) →
  new_chunk env counters D w report c d = (w', d', r) →
  match r with
  | Ok _ => ∃ fin cs', fork_spec cs c = Ok cs' ∧
      wc_inv w' d' (bump_version (label_set_finalized_head l fin)) cs' ∧ tiled cs' ∧
      (∀ f, label_finalized_head l = Some f → ∃ f', fin = Some f' ∧ (f' = f ∨ number f < number f')) ∧
      (∃ kept dropped, cs = kept ++ dropped ∧ cs' = kept ++ [c]) ∧
      match head cs with
      | Some a => first_block a <= first_block c
      | None => wc_first_block w <= first_block c
      end ∧ log_extends w w'
  | _ => w' = w ∧ wc_inv w d' l cs ∧ d' CF_TABLES = d CF_TABLES
  end.
Proof.
  intros Hq Hinv Hc Hrep Ho. apply (new_chunk_spec env counters D w report c d w' d' r l cs Hq Hinv Hc Hrep) in Ho.
  destruct r as [[]|e|m]; [|done..].
  destruct Ho as (u & fin & cs' & _ & _ & _ & Hfork & Hinv' & Hwin & Hemp & _ & Hmono & Hlog).
  destruct (fork_window cs c cs' (ds_tiled _ _ _ _ (inv_state _ _ _ _ Hinv)) Hc Hfork Hwin)
    as (kept & dropped & Hcs & Hcs' & Ht & _).
  exists fin, cs'. split_and!; try done; [eauto|]. destruct cs as [|a cs]; simpl; [by apply Hemp|by apply Hwin].
Qed.

(** ** Retention *)

Lemma reaching_all cs floor a : tiled cs → head cs = Some a → floor <= last_block a → reaching floor cs = cs.
Proof.
  intros Ht Ha Hle. apply list_filter_all. intros x Hx.
  destruct cs as [|y cs]; [done|]. simplify_eq/=. pose proof Ht as [Hall _].
  apply elem_of_cons in Hx as [->|Hx]; [done|].
  pose proof (StronglySorted_elem _ _ _ (chain_sorted _ (tiled_chain _ Ht)) x Hx) as Hlt. simpl in Hlt.
  rewrite Forall_forall in Hall. specialize (Hall x ltac:(lmem)). unfold chunk_ok in Hall. lia.
Qed.

Lemma reaching_suffix from del cs' a : tiled (del ++ cs') → head cs' = Some a →
  Forall (λ x, last_block x < from) del → from <= last_block a → reaching from (del ++ cs') = cs'.
Proof.
  intros Ht Ha Hdel Hle. unfold reaching. rewrite filter_app, list_filter_none.
  - apply (reaching_all cs' from a); [|done..]. by apply tiled_app in Ht as [_ ?].
  - rewrite Forall_forall in Hdel. intros x Hx. specialize (Hdel x Hx). simpl in Hdel. lia.
Qed.

Lemma retain_tx_total w from parent dm d l cs : wc_inv w d l cs →
  ∀ u, fresh_update d (wc_dataset_id w) l u → unindexed (wc_dataset_id w) (upd_tx u) →
  (∀ a, head (reaching from cs) = Some a → decidable_floor (d CF_TABLES) from parent dm a) →
  ∃ o, retain_tx from parent dm u = Ok o.
Proof.
  intros Hinv u Hf Hun Hdec. pose proof (inv_state _ _ _ _ Hinv) as Hs.
  pose proof (fresh_ok _ _ _ _ _ (inv_id _ _ _ _ Hinv) Hs Hf) as Hok.
  pose proof (fresh_chunks _ _ _ _ Hf) as Ecs. rewrite (ds_chunks _ _ _ _ Hs) in Ecs. pose proof Hf as (E1 & _ & _ & E4).
  unfold retain_tx, tx_list_chunks. rewrite list_all by apply Hok.
  apply (retain_loop_total from parent (upd_chunks u)); [done|done|by rewrite E1|]. by rewrite Ecs, E4.
Qed.

(** C7: [retain] ([dm] set) and [init_retention] look at the first chunk that does not end
    below the requested block.  The window is kept exactly when that chunk contains the block
    and gives it the requested parent hash (its own parent hash at its first block, else the
    one of its blocks table); then exactly the chunks that end below the block are dropped and
    the finalized head stays when it is not below the first kept chunk, else it is reset.  The
    window is cleared exactly when no chunk reaches the block, or when that chunk starts above
    it or gives it another parent, which [init_retention] refuses instead.  The working copy
    equals the committed state, and a failure changes nothing.  Without index entries to
    maintain, the transaction goes through whenever the requested parent can be read and
    [init_retention] has nothing to refuse. *)
Theorem retain_exact w from parent dm d w' d' r l cs :
  quiet env → wc_inv w d l cs → _retain env counters D w from parent dm d = (w', d', r) →
  match r with
  | Ok kept => ∃ l' cs', wc_inv w' d' l' cs' ∧ d' CF_TABLES = d CF_TABLES ∧
      if starts_at w from parent then kept = true ∧ w' = w ∧ l' = l ∧ cs' = cs
      else wc_first_block w' = from ∧ wc_parent_block_hash w' = parent ∧
        if kept then
          cs' = reaching from cs ∧ wc_head w' = wc_head w ∧
          ∃ a, head (reaching from cs) = Some a ∧ fits_floor (d CF_TABLES) from parent a ∧
             label_finalized_head l' =
               (f ← label_finalized_head l; if decide (first_block a <= number f) then Some f else None)
        else cs' = [] ∧ label_finalized_head l' = None ∧ wc_head w' = None ∧
          ∀ a, head (reaching from cs) = Some a → dm = true ∧ misses_floor (d CF_TABLES) from parent a
  | _ => w' = w ∧ d' = d
  end ∧
  (∀ u, fresh_update d (wc_dataset_id w) l u → unindexed (wc_dataset_id w) (upd_tx u) →
     (∀ a, head (reaching from cs) = Some a → decidable_floor (d CF_TABLES) from parent dm a) →
     ∃ o, retain_tx from parent dm u = Ok o).
Proof.
  intros Hq Hinv Ho. split; [|by apply retain_tx_total].
  apply (retain_spec env counters D w from parent dm d w' d' r l cs Hq Hinv) in Ho.
  destruct r as [kept|e|m]; [|done..]. destruct Ho as (l' & cs' & Hinv' & Htab & Hr).
  exists l', cs'. split; [done|]. split; [done|]. unfold retain_result in Hr.
  destruct (starts_at w from parent); [done|]. destruct Hr as (E1 & E2 & Hr). split; [done|]. split; [done|].
  pose proof (inv_head _ _ _ _ Hinv') as Hh'. pose proof (inv_head _ _ _ _ Hinv) as Hh.
  destruct kept; [|destruct Hr as (-> & ? & ?); done].
  destruct Hr as (a & del & Hcs & Hdel & Ha & Hin & Hfits & Hfin & _).
  assert (Er : reaching from cs = cs').
  { rewrite Hcs. apply (reaching_suffix from del cs' a); [|done..|lia]. rewrite <-Hcs. by eapply ds_tiled, inv_state. }
  rewrite Er. split; [done|]. split.
  - rewrite Hh', Hh, Hcs, last_app. destruct (last cs') as [z|] eqn:El; [done|]. by apply last_None in El as ->.
  - exists a. split; [done|]. split; [done|]. rewrite Hfin. unfold kept_fin.
    destruct (label_finalized_head l) as [f|]; simpl; [|done]. by destruct (Z.leb_spec (first_block a) (number f)); case_decide; try lia.
Qed.

(** A floor inside the window, without an expected parent, keeps a chunk. *)
Lemma retain_loop_inside from dm rest : ∀ status u st u' a z,
  upd_ok u → upd_chunks u = rest → tiled rest → head rest = Some a → last rest = Some z →
  first_block a <= from <= last_block z →
  retain_loop from None dm (Ok <$> rest) status u = Ok (st, u') → ¬ not_range st.
Proof.
  induction rest as [|c rest IH]; intros status u st u' a z Hok Hc Ht Ha Hz Hin Ho; [done|].
  injection Ha as ->. cbn [fmap list_fmap retain_loop mbind res_bind] in Ho.
  destruct (Z.ltb_spec (last_block a) from) as [Hlt|Hge].
  - apply bind_Ok in Ho as (u1 & Hd & Ho). destruct (retain_delete _ _ _ _ Hok Hc Hd) as (Hok1 & Hc1 & _).
    destruct rest as [|b rest]; [simpl in Hz; simplify_eq; lia|].
    pose proof (tiled_app [a] (b :: rest) Ht) as [_ Ht1]. destruct Ht as [_ [[Hab _] _]].
    eapply (IH _ _ _ _ b z Hok1 Hc1 Ht1); [done|done| |exact Ho]. lia.
  - rewrite (proj2 (Z.ltb_ge from (first_block a))) in Ho by lia.
    rewrite upd_last_chunk_spec in Ho by done. cbn [mbind res_bind] in Ho.
    destruct (last (upd_chunks u)); [|done]. injection Ho as <- _. simpl. tauto.
Qed.

Lemma retain_inside w from dm d w' d' kept l cs a z :
  quiet env → wc_inv w d l cs → head cs = Some a → last cs = Some z → first_block a <= from <= last_block z →
  _retain env counters D w from None dm d = (w', d', Ok kept) → kept = true.
Proof.
  intros Hq Hinv Ha Hz Hin. unfold _retain. destruct (starts_at w from None); [by intros [= _ _ <-]|].
  destruct (update_dataset _ _ _ _ _ d) as [d1 r1] eqn:E. pose proof (inv_state _ _ _ _ Hinv) as Hs.
  pose proof (inv_id _ _ _ _ Hinv) as Hid.
  apply (update_quiet env counters D _ _ _ _ l cs _ Hq Hid Hs) in E.
  - destruct r1 as [st|e|m]; [|done..]. destruct E as (u & u' & Hf & Ho & _).
    pose proof (fresh_ok _ _ _ _ _ Hid Hs Hf) as Hok. unfold retain_tx, tx_list_chunks in Ho.
    rewrite list_all in Ho by apply Hok. pose proof (fresh_chunks _ _ _ _ Hf) as Ecs.
    rewrite (ds_chunks _ _ _ _ Hs) in Ecs.
    pose proof (retain_loop_inside from dm (upd_chunks u) StClear u st u' a z Hok eq_refl) as Hr.
    rewrite Ecs in Hr. unfold upd_chunks in Ecs. rewrite Ecs in Ho.
    specialize (Hr (ds_tiled _ _ _ _ Hs) Ha Hz Hin Ho).
    destruct st; simpl in *; try tauto. by intros [= _ _ <-].
  - intros u a' u' Hf Ho. pose proof (fresh_ok _ _ _ _ _ Hid Hs Hf) as Hok. unfold retain_tx, tx_list_chunks in Ho.
    rewrite list_all in Ho by apply Hok.
    exact (proj1 (retain_loop_spec from None dm (upd_chunks u) StClear u a' u' Hok eq_refl I Ho)).
Qed.

(** The floor that keeps the last [n] blocks lies above the first chunk and inside the
    window. *)
Lemma trim_floor_window w d l cs n floor : wc_inv w d l cs → 1 <= n <= u64_max →
  trim_floor (number <$> wc_first_chunk_head w) (wc_next_block w) n = Some floor →
  ∃ a z, head cs = Some a ∧ last cs = Some z ∧ last_block a < floor <= last_block z ∧
    floor = last_block z + 1 - n.
Proof.
  intros Hinv Hn. rewrite (inv_first _ _ _ _ Hinv). unfold wc_next_block. rewrite (inv_head _ _ _ _ Hinv).
  pose proof (ds_tiled _ _ _ _ (inv_state _ _ _ _ Hinv)) as Ht.
  destruct cs as [|a cs]; [done|]. destruct (last (a :: cs)) as [z|] eqn:Ez; [|by apply last_None in Ez].
  simpl. pose proof (tiled_last_ge _ z a Ht Ez ltac:(lmem)) as Haz. pose proof Ht as [Hall _].
  rewrite Forall_forall in Hall. pose proof (Hall a ltac:(lmem)) as Hoa.
  pose proof (Hall z ltac:(by apply last_Some_elem_of)) as Hoz. unfold chunk_ok in Hoa, Hoz.
  rewrite u64_add_small by lia. rewrite u64_sub_small by lia.
  destruct (Z.gtb_spec (last_block z + 1 - last_block a) n) as [Hgt|]; [|done].
  rewrite u64_sub_small by lia. intros [= <-]. exists a, z. split_and!; try done; lia.
Qed.

(** ** Ingest messages *)

Lemma set_head_first_block b w : wc_first_block (set_head b w) = wc_first_block w.
Proof. unfold set_head, publish_head. by case_decide. Qed.
Lemma set_finalized_head_first_block b w : wc_first_block (set_finalized_head b w) = wc_first_block w.
Proof. unfold set_finalized_head, publish_finalized_head. by case_decide. Qed.

Lemma new_chunk_first_block w report c d w' d' r : new_chunk env counters D w report c d = (w', d', r) →
  wc_first_block w' = wc_first_block w.
Proof.
  unfold new_chunk. destruct (update_dataset _ _ _ _ _ d) as [d1 [[fin ig]|e|m]]; intros [= <- _ _]; [|done..].
  transitivity (wc_first_block (set_finalized_head fin (set_head (Some (get_chunk_head c)) w))); [by case_if|].
  by rewrite set_finalized_head_first_block, set_head_first_block.
Qed.

Context {P : Type} (build_tables : P → db M → db M * res (list (string * TableId))).

(** The table writer touches neither labels nor chunks. *)
Context (build_frame : ∀ p d d' r, build_tables p d = (d', r) →
  d' CF_DATASETS = d CF_DATASETS ∧ d' CF_CHUNKS = d CF_CHUNKS).

Definition chunk_of (nc : NewChunk P) (ts : list (string * TableId)) : Chunk :=
  ChunkV1 (nc_first_block P nc) (nc_last_block P nc) (nc_last_block_hash P nc)
    (nc_parent_block_hash P nc) (nc_first_block_time P nc) (nc_last_block_time P nc) ts.

(** What the ingest task guarantees of its messages. *)
Definition msg_ok (msg : IngestMessage P) : Prop :=
  match msg with
  | MsgFinalizedHead _ b => u64_ok (number b)
  | MsgNewChunk _ nc => chunk_ok (chunk_of nc []) ∧
      (∀ r, nc_finalized_head P nc = Some r → u64_ok (number r))
  | MsgFork _ prev _ => Forall (λ b, u64_ok (number b)) prev
  end.

Lemma write_new_chunk_spec w nc d w' d' r l cs : quiet env → wc_inv w d l cs → msg_ok (MsgNewChunk P nc) →
  write_new_chunk env counters D build_tables w nc d = (w', d', r) →
  match r with
  | Ok _ => ∃ ts l' cs', fork_spec cs (chunk_of nc ts) = Ok cs' ∧ wc_inv w' d' l' cs' ∧
      last cs' = Some (chunk_of nc ts) ∧ wc_first_block w' = wc_first_block w ∧ log_extends w w'
  | _ => w' = w ∧ wc_inv w d' l cs
  end.
Proof.
  intros Hq Hinv [Hc Hrep]. unfold write_new_chunk.
  destruct (build_tables _ d) as [d1 r1] eqn:Eb. apply build_frame in Eb as [B1 B2].
  pose proof (wc_inv_ext w d d1 l cs B1 B2 Hinv) as Hinv1.
  destruct r1 as [ts|e|m]; [|by intros [= <- <- <-]..]. fold (chunk_of nc ts). intros Ho.
  pose proof (new_chunk_first_block _ _ _ _ _ _ _ Ho) as Hfb.
  apply (new_chunk_spec env counters D w _ (chunk_of nc ts) d1 w' d' r l cs Hq Hinv1 Hc Hrep) in Ho.
  destruct r as [[]|e|m]; [|by destruct Ho as (-> & ? & _)..].
  destruct Ho as (u & fin & cs' & _ & _ & _ & Hfork & Hinv' & Hwin & _ & _ & _ & Hlog).
  destruct (fork_window cs (chunk_of nc ts) cs' (ds_tiled _ _ _ _ (inv_state _ _ _ _ Hinv)) Hc Hfork Hwin)
    as (kept & dropped & _ & Hcs' & _).
  exists ts, (bump_version (label_set_finalized_head l fin)), cs'. split_and!; try done. by rewrite Hcs', last_snoc.
Qed.

(** Trimming inside the window. *)
Lemma trim_spec w d w' d' r l cs floor a z : quiet env → wc_inv w d l cs →
  head cs = Some a → last cs = Some z → last_block a < floor <= last_block z →
  retain env counters D w floor None d = (w', d', r) →
  match r with
  | Ok _ => ∃ l' cs', wc_inv w' d' l' cs' ∧ last cs' = Some z ∧ log_extends w w' ∧
      cs' = if decide (wc_first_block w = floor ∧ wc_parent_block_hash w = None) then cs
            else reaching floor cs
  | _ => w' = w ∧ d' = d
  end.
Proof.
  intros Hq Hinv Ha Hz Hin Ho. unfold retain in Ho. pose proof Ho as Hr.
  apply (retain_spec env counters D w floor None true d w' d' r l cs Hq Hinv) in Hr.
  destruct r as [kept|e|m]; [|done..]. destruct Hr as (l' & cs' & Hinv' & _ & Hr).
  pose proof (ds_tiled _ _ _ _ (inv_state _ _ _ _ Hinv)) as Ht. pose proof Ht as [Hall _].
  rewrite Forall_forall in Hall. pose proof (Hall a ltac:(destruct cs; simplify_eq/=; lmem)) as Hoa.
  unfold chunk_ok in Hoa.
  assert (kept = true) as -> by (eapply (retain_inside w floor true d w' d' kept l cs a z); [done..|lia|done]).
  exists l', cs'. unfold retain_result in Hr.
  destruct (starts_at w floor None) eqn:Es; unfold starts_at in Es.
  - destruct Hr as (_ & -> & -> & ->). apply andb_true_iff in Es as [E1%Z.eqb_eq E2%bool_decide_eq_true].
    rewrite decide_True by done. split_and!; [done|done|apply log_extends_refl|done].
  - rewrite decide_False by (intros [E1 E2]; rewrite E1, Z.eqb_refl, bool_decide_true in Es; done).
    destruct Hr as (_ & _ & b & del & Hcs & Hdel & Hb & Hbin & _ & _ & Hlog). split_and!; [done| |done|].
    + rewrite Hcs, last_app in Hz. destruct (last cs') eqn:El; [done|]. by apply last_None in El as ->.
    + rewrite Hcs. symmetry. apply (reaching_suffix floor del cs' b); [by rewrite <-Hcs|done..|lia].
Qed.

(** The bound a controller configured with [Head(n)] passes. *)
Definition bound_ok (retain_from_head : option Z) : Prop :=
  ∀ n, retain_from_head = Some n → 1 <= n <= u64_max.

(** The whole handler of a chunk message. *)
Lemma handle_chunk_spec w nc rf d w' d' r l cs : quiet env → wc_inv w d l cs → msg_ok (MsgNewChunk P nc) →
  bound_ok rf → handle_ingest_msg env counters D build_tables w (MsgNewChunk P nc) rf d = (w', d', r) →
  match r with
  | Ok a => a = (FloorSet None, None) ∧ ∃ ts cs1 l' cs', fork_spec cs (chunk_of nc ts) = Ok cs1 ∧
      wc_inv w' d' l' cs' ∧ last cs' = Some (chunk_of nc ts) ∧ log_extends w w' ∧
      match rf with
      | None => cs' = cs1
      | Some n => let floor := nc_last_block P nc + 1 - n in
          cs' = cs1 ∧ wc_first_block w = floor ∨ cs' = reaching floor cs1
      end
  | _ => ∃ l' cs', wc_inv w' d' l' cs' ∧ log_extends w w' ∧ (cs ≠ [] → cs' ≠ [])
  end.
Proof.
  intros Hq Hinv Hm Hb. cbn [handle_ingest_msg].
  destruct (write_new_chunk _ _ _ _ _ _ d) as [[w1 d1] r1] eqn:E.
  apply (write_new_chunk_spec w nc d w1 d1 r1 l cs Hq Hinv Hm) in E.
  destruct r1 as [[]|e|m]; [|destruct E as [-> ?]; intros [= <- <- <-]; exists l, cs;
    split_and!; [done|apply log_extends_refl|done]..].
  destruct E as (ts & l1 & cs1 & Hfork & Hinv1 & Hlast & Hfb & Hlog).
  destruct (rf ≫= trim_floor _ _) as [floor|] eqn:Ef.
  - apply bind_Some in Ef as (n & -> & Ef).
    destruct (trim_floor_window _ _ _ _ n floor Hinv1 (Hb n eq_refl) Ef) as (a & z & Ha & Hz & Hin & Efl).
    destruct (retain _ _ _ w1 floor None d1) as [[w2 d2] r2] eqn:Er.
    apply (trim_spec w1 d1 w2 d2 r2 l1 cs1 floor a z Hq Hinv1 Ha Hz Hin) in Er. rewrite Hz in Hlast. simplify_eq.
    intros [= <- <- <-]. destruct r2 as [k|e|m]; cbn [fmap res_fmap].
    + destruct Er as (l2 & cs2 & Hinv2 & Hl2 & Hlog2 & Hcs2). split; [done|].
      exists ts, cs1, l2, cs2. split_and!; [done..|by eapply log_extends_trans|]. simpl in Hcs2.
      case_decide as Hd; [left; split; [done|]|by right]. rewrite <-Hfb. by destruct Hd.
    + destruct Er as [-> ->]. exists l1, cs1. split_and!; [done..|]. by intros _ ->.
    + destruct Er as [-> ->]. exists l1, cs1. split_and!; [done..|]. by intros _ ->.
  - intros [= <- <- <-]. split; [done|]. exists ts, cs1, l1, cs1. split_and!; try done.
    destruct rf as [n|]; [|done]. simpl in Ef. right. symmetry.
    destruct (head cs1) as [a|] eqn:Ea; [|destruct cs1; done].
    eapply reaching_all; [by eapply ds_tiled, inv_state|done|].
    rewrite (inv_first _ _ _ _ Hinv1), Ea in Ef. unfold wc_next_block in Ef.
    rewrite (inv_head _ _ _ _ Hinv1), Hlast in Ef. simpl in Ef.
    pose proof (ds_tiled _ _ _ _ (inv_state _ _ _ _ Hinv1)) as Ht.
    assert (Hain : a ∈ cs1) by (destruct cs1; simplify_eq/=; lmem).
    pose proof (tiled_last_ge _ _ a Ht Hlast Hain) as Haz. simpl in Haz. destruct Hm as [Hc _].
    pose proof (Hb n eq_refl). pose proof Ht as [Hall _]. rewrite Forall_forall in Hall.
    specialize (Hall a Hain). unfold chunk_ok in Hall, Hc. simpl in Hc.
    rewrite u64_add_small, u64_sub_small in Ef by lia.
    destruct (Z.gtb_spec (nc_last_block P nc + 1 - last_block a) n); [done|]. lia.
Qed.

(** One message handled, whatever its outcome. *)
Definition ingest_step (rf : option Z) : relation (WriteController * db M) := λ s s',
  ∃ msg r, msg_ok msg ∧ handle_ingest_msg env counters D build_tables s.1 msg rf s.2 = (s'.1, s'.2, r).

Lemma ingest_step_spec rf w d w' d' l cs : quiet env → bound_ok rf → wc_inv w d l cs →
  ingest_step rf (w, d) (w', d') →
  ∃ l' cs', wc_inv w' d' l' cs' ∧ log_extends w w' ∧ (cs ≠ [] → cs' ≠ []).
Proof.
  intros Hq Hb Hinv (msg & r & Hm & Ho). simpl in Ho. destruct msg as [b|nc|prev alive].
  - cbn [handle_ingest_msg] in Ho. destruct (finalize _ _ _ w b d) as [[w1 d1] r1] eqn:E.
    apply (finalize_spec env counters D w b d w1 d1 r1 l cs Hq Hinv Hm) in E. injection Ho as <- <- <-.
    destruct r1 as [[]|e|m]; [|destruct E as [-> ->]; exists l, cs; split_and!; [done|apply log_extends_refl|done]..].
    destruct E as (l' & Hinv' & _ & Hlog & _). by exists l', cs.
  - apply (handle_chunk_spec w nc rf d w' d' r l cs Hq Hinv Hm Hb) in Ho. destruct r as [a|e|m]; [|done..].
    destruct Ho as (_ & ts & cs1 & l' & cs' & _ & Hinv' & Hl & Hlog & _). exists l', cs'.
    split_and!; [done..|]. by intros _ ->.
  - cbn [handle_ingest_msg] in Ho.
    assert (w' = w ∧ d' = d) as [-> ->] by (destruct (compute_rollback _ _ _); by injection Ho as <- <- _).
    exists l, cs. split_and!; [done|apply log_extends_refl|done].
Qed.

(** C2: after any sequence of ingest messages, handled successfully or not, the writer's
    working copy equals the committed dataset, whose window is gapless and contains the
    finalized head; subscribers never observed a finalized head without a head or above it
    (INV-5); and a window bounded to the last [n >= 1] blocks is never emptied. *)
Theorem ingest_invariant rf w d w' d' l cs : quiet env → bound_ok rf → wc_inv w d l cs →
  rtc (ingest_step rf) (w, d) (w', d') →
  ∃ l' cs', wc_inv w' d' l' cs' ∧ log_extends w w' ∧ (cs ≠ [] → cs' ≠ []).
Proof.
  intros Hq Hb Hinv Hr. remember (w, d) as s eqn:Es. remember (w', d') as s' eqn:Es'.
  revert w d l cs Es Hinv. induction Hr as [s|s [w1 d1] s' Hst _ IH]; intros w d l cs -> Hinv.
  - injection Es' as <- <-. exists l, cs. split_and!; [done|apply log_extends_refl|done].
  - destruct (ingest_step_spec rf w d w1 d1 l cs Hq Hb Hinv Hst) as (l1 & cs1 & Hinv1 & Hlog1 & Hne1).
    destruct (IH Es' w1 d1 l1 cs1 eq_refl Hinv1) as (l2 & cs2 & Hinv2 & Hlog2 & Hne2).
    exists l2, cs2. split_and!; [done|by eapply log_extends_trans|auto].
Qed.

(** A chunk message under [Head(n)] commits the chunk and then drops only whole chunks
    that lie below the last [n] blocks: the last [n] blocks of the new window are all kept,
    the chunk stays the head, and every chunk entirely below them is gone, except when the
    floor already is the controller's logical start. *)
Theorem trim_keeps_last_blocks w nc n d w' d' a l cs : quiet env → wc_inv w d l cs → msg_ok (MsgNewChunk P nc) →
  1 <= n <= u64_max →
  handle_ingest_msg env counters D build_tables w (MsgNewChunk P nc) (Some n) d = (w', d', Ok a) →
  ∃ ts cs1 l' cs', fork_spec cs (chunk_of nc ts) = Ok cs1 ∧ wc_inv w' d' l' cs' ∧
    last cs' = Some (chunk_of nc ts) ∧
    (∀ x, x ∈ cs1 → nc_last_block P nc - n < last_block x → x ∈ cs') ∧
    (wc_first_block w ≠ nc_last_block P nc + 1 - n → cs' = reaching (nc_last_block P nc + 1 - n) cs1).
Proof.
  intros Hq Hinv Hm Hn Ho.
  apply (handle_chunk_spec w nc (Some n) d w' d' _ l cs Hq Hinv Hm) in Ho; [|by intros ? [= <-]].
  destruct Ho as (_ & ts & cs1 & l' & cs' & Hf & Hinv' & Hl & _ & Hcase).
  exists ts, cs1, l', cs'. split_and!; [done..| |].
  - destruct Hcase as [[-> _]| ->]; [auto|]. intros x Hx Hlt. apply list_elem_of_filter. split; [lia|done].
  - destruct Hcase as [[_ ?]| ->]; done.
Qed.

(** ** Fork resolution *)


(** ** Construction *)

(** A controller constructed over a stored dataset, as after a restart, starts from the
    committed state: head, finalized head and logical start with its parent hash are those
    of the stored window, and both watermarks are published.  Over an absent dataset it
    creates an empty one of its kind. *)
Theorem wc_new_recovers id kind d l cs hs fs d' w : quiet env → dataset_id_ok id →
  (ds_state d id l cs ∨ kv_get (d CF_DATASETS) id = None ∧ chunks_cf_ok (d CF_CHUNKS) ∧
     chunks_of (d CF_CHUNKS) id = [] ∧ cs = [] ∧ ∃ k, storage_kind kind = Ok k ∧ l = LabelV0 k 0 None) →
  wc_new env counters D id kind hs fs d = (d', Ok w) →
  wc_inv w d' l cs ∧ wc_parent_block_hash w = parent_block_hash <$> head cs ∧
  wc_first_block w = from_option first_block 0 (head cs) ∧
  wc_head_sender w = get_chunk_head <$> last cs ∧ wc_finalized_head_sender w = label_finalized_head l.
Proof.
  intros Hq Hid Hcase Ho. pose proof (wc_new_spec env counters D id kind d l cs hs fs d' w Hq Hid Hcase Ho)
    as (Hinv & Hp & Hf). split; [done|]. split; [done|]. split; [done|].
  destruct Hinv. split; congruence.
Qed.
End props.

Module ControllerExamples.
Import Mem ForkExamples DbExamples PrefixExamples.

(** Blocks 0..=2 ("a", "b", "c"), the last one finalized; the tables of a replacement of
    the last chunk that keeps "c" and adds "z". *)
Definition t4 : TableId := replicate 16 4.
Definition fin2 : BlockRef := mkBlockRef 2 "c".
Definition kdb : mdb := make_db [(d0, evm_label (Some fin2))] [(d0, [s1; s2])]
  [(t1, [0; 97; 112; 1; 98; 97]); (t2, [2; 99; 98]); (t4, [2; 99; 98; 3; 122; 99])].
Definition next : Chunk := with_blocks 2 3 "b" "z" t4.
Definition w0 : WriteController :=
  mkWriteController d0 Evm 0 (Some "p") (Some (mkBlockRef 1 "b")) (Some fin2) (Some fin2)
    (Some fin2) (Some fin2) [].

Lemma kdb_state : ds_state kdb d0 (evm_label (Some fin2)) [s1; s2].
Proof.
  constructor.
  - vm_compute. reflexivity.
  - apply (make_db_chunks_ok _ [(d0, [s1; s2])]).
    repeat constructor; try apply d0_ok; simpl; unfold u64_max; lia.
  - vm_compute. reflexivity.
  - split; [repeat constructor; simpl; unfold u64_max; lia|].
    simpl. split; [|done]. split; simpl; [lia|done].
  - exists s1, s2. split; [done|]. split; [done|]. simpl. lia.
Qed.
Lemma w0_inv : wc_inv w0 kdb (evm_label (Some fin2)) [s1; s2].
Proof. constructor; try done; [exact d0_ok|exact kdb_state]. Qed.

Definition krows (id : TableId) : list (Z * string) :=
  match open_table (kdb CF_TABLES) id with Ok t => rows_of (cells t 0) (cells t 1) | _ => [] end.
Lemma mem_rows (m : GmapKv.t) c id t : table_get "blocks" (tables c) = Some id → open_table m id = Ok t →
  Forall (λ p, first_block c <= p.1 <= last_block c) (rows_of (cells t 0) (cells t 1)) →
  last (rows_of (cells t 0) (cells t 1)) = Some (last_block c, last_block_hash c) →
  chunk_rows m c (rows_of (cells t 0) (cells t 1)).
Proof.
  intros Hc Ht Hr Hl. split; [|by split]. exists id, t, 0%nat, 1%nat. split; [done|]. split; [done|].
  split; [|split; [reflexivity|done]].
  repeat split; [by right|unfold no_nulls; simpl..];
    clear; induction t as [|r t IH]; simpl; auto.
Qed.
Lemma kdb_rows c id : table_get "blocks" (tables c) = Some id → id ∈ [t1; t2; t4] →
  Forall (λ p, first_block c <= p.1 <= last_block c) (krows id) →
  last (krows id) = Some (last_block c, last_block_hash c) → chunk_rows (kdb CF_TABLES) c (krows id).
Proof.
  intros Hc Hid. rewrite !elem_of_cons, elem_of_nil in Hid.
  assert (Ht : ∃ t, open_table (kdb CF_TABLES) id = Ok t)
    by (destruct Hid as [->|[->|[->|[]]]]; eexists; vm_compute; reflexivity).
  destruct Ht as [t Ht]. unfold krows. rewrite Ht. by apply (mem_rows _ c id).
Qed.
Definition kall : list (list (Z * string)) := [krows t1; krows t2].
Ltac krow := apply kdb_rows; [reflexivity|lmem|vm_compute; repeat constructor; intros [=]|vm_compute; reflexivity].
Lemma kall_ok : Forall2 (chunk_rows (kdb CF_TABLES)) [s1; s2] kall.
Proof. constructor; [krow|constructor; [krow|constructor]]. Qed.
Lemma next_rows : chunk_rows (kdb CF_TABLES) next (krows t4).
Proof. krow. Qed.
Lemma kfin_named : fin_named (label_finalized_head (evm_label (Some fin2))) kall.
Proof. intros b [= <-]. vm_compute. right. right. left. Qed.
Lemma next_ok : chunk_ok next.
Proof. split; simpl; unfold u64_max; lia. Qed.
Lemma small_ok z : 0 <= z < 100 → u64_ok z.
Proof. unfold u64_ok, u64_max. lia. Qed.

(** Splits an outcome known up to the database. *)
Lemma outcome_split {A B R} (o : A * B * R) r : o.2 = r → ∃ w d, o = (w, d, r).
Proof. destruct o as [[w d] r']. simpl. intros <-. eauto. Qed.

Lemma new_chunk_keeps_finalized_witness : ∃ w' d' l' cs' rowss',
  new_chunk still counters0 dbase w0 (Some (mkBlockRef 3 "z")) next kdb = (w', d', Ok tt) ∧
  wc_inv w' d' l' cs' ∧ fin_named (label_finalized_head l') rowss' ∧
  below 2 (concat rowss') = [(0, "a"); (1, "b"); (2, "c")].
Proof.
  destruct (outcome_split (new_chunk still counters0 dbase w0 (Some (mkBlockRef 3 "z")) next kdb) (Ok tt))
    as (w' & d' & E); [vm_compute; reflexivity|].
  destruct (new_chunk_keeps_finalized still counters0 dbase w0 (Some (mkBlockRef 3 "z")) next kdb w' d'
    (evm_label (Some fin2)) [s1; s2] kall (krows t4) still_quiet w0_inv next_ok)
    as (l' & cs' & rowss' & Hinv & _ & _ & Hn & Hf).
  - intros r [= <-]. apply small_ok. simpl. lia.
  - exact kall_ok.
  - exact next_rows.
  - exact kfin_named.
  - exact E.
  - exists w', d', l', cs', rowss'. split; [exact E|]. split; [exact Hinv|]. split; [exact Hn|].
    etransitivity; [exact (proj1 (Hf fin2 eq_refl))|vm_compute; reflexivity].
Defined.

(** The update opened on [kdb]. *)
Definition kupd : DatasetUpdate GmapKv.t :=
  mkDatasetUpdate (tx_begin kdb false false) d0 (evm_label (Some fin2)).
Lemma kupd_ok : upd_ok kupd.
Proof. apply (fresh_ok kdb d0 (evm_label (Some fin2)) [s1; s2]); [exact d0_ok|exact kdb_state|done]. Qed.

Lemma resolve_finality_exact_witness :
  resolve_finality kupd (Some fin2) None 0 (mkBlockRef 1 "b") = Ok (FinIgnored Regressive).
Proof.
  rewrite (resolve_finality_exact kupd (Some fin2) None 0 (mkBlockRef 1 "b") fin2 kall kupd_ok).
  - vm_compute. reflexivity.
  - apply small_ok. simpl. lia.
  - change (upd_chunks kupd) with (chunks_of (kdb CF_CHUNKS) d0). rewrite (ds_chunks _ _ _ _ kdb_state).
    exact kall_ok.
  - repeat constructor; vm_compute; intros Hin; inversion Hin; subst; inversion H1.
  - vm_compute. reflexivity.
Defined.

Lemma finalize_correct_witness : ∃ w' d' l',
  finalize still counters0 dbase w0 (mkBlockRef 2 "c") kdb = (w', d', Ok tt) ∧
  wc_inv w' d' l' [s1; s2] ∧ fin_named (label_finalized_head l') kall.
Proof.
  destruct (outcome_split (finalize still counters0 dbase w0 (mkBlockRef 2 "c") kdb) (Ok tt))
    as (w' & d' & E); [vm_compute; reflexivity|].
  destruct (finalize_correct still counters0 dbase w0 (mkBlockRef 2 "c") kdb w' d' (Ok tt)
    (evm_label (Some fin2)) [s1; s2] kall still_quiet w0_inv) as (l' & Hinv & _ & _ & Hn & _).
  - apply small_ok. simpl. lia.
  - exact kall_ok.
  - exact kfin_named.
  - exact E.
  - exists w', d', l'. auto.
Defined.

Lemma new_chunk_correct_witness : ∃ w' d' l' cs',
  new_chunk still counters0 dbase w0 None next kdb = (w', d', Ok tt) ∧ wc_inv w' d' l' cs' ∧
  fork_spec [s1; s2] next = Ok cs'.
Proof.
  destruct (outcome_split (new_chunk still counters0 dbase w0 None next kdb) (Ok tt))
    as (w' & d' & E); [vm_compute; reflexivity|].
  destruct (new_chunk_correct still counters0 dbase w0 None next kdb w' d' (Ok tt)
    (evm_label (Some fin2)) [s1; s2] still_quiet w0_inv next_ok) as (fin & cs' & Hf & Hinv & _).
  - intros r [=].
  - exact E.
  - exists w', d'. eexists. exists cs'. split; [exact E|]. split; [exact Hinv|exact Hf].
Defined.

Lemma retain_exact_witness : ∃ w' d' l' cs',
  _retain still counters0 dbase w0 2 (Some "b") true kdb = (w', d', Ok true) ∧
  wc_inv w' d' l' cs' ∧ cs' = [s2].
Proof.
  destruct (outcome_split (_retain still counters0 dbase w0 2 (Some "b") true kdb) (Ok true))
    as (w' & d' & E); [vm_compute; reflexivity|].
  destruct (retain_exact still counters0 dbase w0 2 (Some "b") true kdb w' d' (Ok true)
    (evm_label (Some fin2)) [s1; s2] still_quiet w0_inv E) as [(l' & cs' & Hinv & _ & _ & _ & Hcs & _) _].
  exists w', d', l', cs'. split; [exact E|]. split; [exact Hinv|]. rewrite Hcs. reflexivity.
Defined.

(** Inside a chunk the parent hash is read from its table: the block below 1 is "a". *)
Example retain_reads_parent :
  (_retain still counters0 dbase w0 1 (Some "a") true kdb).2 = Ok true ∧
  (_retain still counters0 dbase w0 1 (Some "x") true kdb).2 = Ok false ∧
  (_retain still counters0 dbase w0 1 (Some "x") false kdb).2 = Err (EMsg "hash mismatch").
Proof. vm_compute. repeat split. Qed.

(** Tables that are written already. *)
Definition built (ts : list (string * TableId)) (d : mdb) : mdb * res (list (string * TableId)) := (d, Ok ts).
Lemma built_frame p d d' r : built p d = (d', r) →
  d' CF_DATASETS = d CF_DATASETS ∧ d' CF_CHUNKS = d CF_CHUNKS.
Proof. intros [= <- _]. done. Qed.
Definition next_msg : NewChunk (list (string * TableId)) :=
  mkNewChunk _ None "b" 2 3 "z" None None [("blocks", t4)].
Lemma next_msg_ok : msg_ok (MsgNewChunk _ next_msg).
Proof. split; [split; simpl; unfold u64_max; lia|intros r [=]]. Qed.

Lemma ingest_invariant_witness : ∃ w' d' l' cs',
  handle_ingest_msg still counters0 dbase built w0 (MsgNewChunk _ next_msg) (Some 2) kdb
    = (w', d', Ok (FloorSet None, None)) ∧ wc_inv w' d' l' cs' ∧ log_extends w0 w' ∧ cs' ≠ [].
Proof.
  destruct (outcome_split (handle_ingest_msg still counters0 dbase built w0 (MsgNewChunk _ next_msg) (Some 2) kdb)
    (Ok (FloorSet None, None))) as (w' & d' & E); [vm_compute; reflexivity|].
  destruct (ingest_invariant still counters0 dbase built built_frame (Some 2) w0 kdb w' d'
    (evm_label (Some fin2)) [s1; s2] still_quiet) as (l' & cs' & Hinv & Hlog & Hne).
  - intros n [= <-]. unfold u64_max. lia.
  - exact w0_inv.
  - apply rtc_once. exists (MsgNewChunk _ next_msg), (Ok (FloorSet None, None)). split; [exact next_msg_ok|exact E].
  - exists w', d', l', cs'. split; [exact E|]. split; [exact Hinv|]. split; [exact Hlog|]. apply Hne. discriminate.
Defined.

Lemma trim_keeps_last_blocks_witness : ∃ w' d' l' cs',
  handle_ingest_msg still counters0 dbase built w0 (MsgNewChunk _ next_msg) (Some 2) kdb
    = (w', d', Ok (FloorSet None, None)) ∧ wc_inv w' d' l' cs' ∧ head cs' = last cs'.
Proof.
  destruct (outcome_split (handle_ingest_msg still counters0 dbase built w0 (MsgNewChunk _ next_msg) (Some 2) kdb)
    (Ok (FloorSet None, None))) as (w' & d' & E); [vm_compute; reflexivity|].
  destruct (trim_keeps_last_blocks still counters0 dbase built built_frame w0 next_msg 2 kdb w' d'
    (FloorSet None, None) (evm_label (Some fin2)) [s1; s2] still_quiet w0_inv next_msg_ok)
    as (ts & cs1 & l' & cs' & Hf & Hinv & Hl & _ & Hcs).
  - unfold u64_max. lia.
  - exact E.
  - exists w', d', l', cs'. split; [exact E|]. split; [exact Hinv|]. rewrite Hcs by (simpl; lia).
    vm_compute in Hf. injection Hf as <-. reflexivity.
Defined.


Lemma wc_new_recovers_witness : ∃ d' w, wc_new still counters0 dbase d0 Evm None None kdb = (d', Ok w) ∧
  wc_inv w d' (evm_label (Some fin2)) [s1; s2] ∧ wc_finalized_head_sender w = Some fin2.
Proof.
  set (o := wc_new still counters0 dbase d0 Evm None None kdb).
  assert (Eo : match o.2 with Ok w => wc_head w | _ => None end = Some fin2) by (vm_compute; reflexivity).
  assert (E : o = (o.1, o.2)) by apply surjective_pairing.
  destruct (o.2) as [w|e|m]; [|discriminate Eo..]. exists o.1, w. split; [exact E|].
  destruct (wc_new_recovers still counters0 dbase d0 Evm kdb (evm_label (Some fin2)) [s1; s2] None None o.1 w
    still_quiet d0_ok) as (Hinv & _ & _ & _ & Hf); [left; exact kdb_state|exact E|].
  split; [exact Hinv|exact Hf].
Defined.

(** The window of [ForkExamples] with block 3 finalized, and its controller. *)
Definition fin3 : BlockRef := mkBlockRef 3 "f".
Definition base_fin : mdb := make_db [(d0, evm_label (Some fin3))] [(d0, [c1; c2])] [].
Definition w3 : WriteController :=
  mkWriteController d0 Evm 0 (Some "p") (Some (mkBlockRef 9 "a")) (Some (mkBlockRef 19 "b")) (Some fin3)
    (Some (mkBlockRef 19 "b")) (Some fin3) [].

Lemma w3_inv : wc_inv w3 base_fin (evm_label (Some fin3)) [c1; c2].
Proof.
  constructor; try done; [exact d0_ok|]. constructor.
  - vm_compute. reflexivity.
  - apply (make_db_chunks_ok _ [(d0, [c1; c2])]).
    repeat constructor; try apply d0_ok; simpl; unfold u64_max; lia.
  - vm_compute. reflexivity.
  - split; [repeat constructor; simpl; unfold u64_max; lia|].
    simpl. split; [|done]. split; simpl; [lia|done].
  - exists c1, c2. split; [done|]. split; [done|]. simpl. lia.
Qed.

(** Retention keeps a finalized head that lies below the requested block when the chunk
    it cuts still contains it, although the write-path document resets [fin] whenever
    [fin.number < from]: from a consistent window with block 3 finalized, retaining from
    block 5 leaves block 3 published as the finalized head of a window that starts at 5. *)
Theorem retain_keeps_finalized_below_floor :
  wc_inv w3 base_fin (evm_label (Some fin3)) [c1; c2] ∧
  let '(w', _, r) := retain still counters0 dbase w3 5 None base_fin in
  r = Ok true ∧ wc_first_block w' = 5 ∧ wc_finalized_head_sender w' = Some fin3.
Proof. split; [exact w3_inv|]. vm_compute. auto. Qed.

(** A cleared window is published in two steps, the head first: between them a
    subscriber sees a finalized head without a head, which the watermark bounds (INV-5)
    exclude.  Here retention from above the window clears it. *)
Theorem clear_publishes_finalized_without_head :
  wc_inv w3 base_fin (evm_label (Some fin3)) [c1; c2] ∧
  let '(w', _, r) := retain still counters0 dbase w3 100 None base_fin in
  r = Ok false ∧ wc_events w' = [PubHead None; PubFinalized None] ∧
  ¬ log_ok (wc_head_sender w3) (wc_finalized_head_sender w3) (wc_events w').
Proof.
  split; [exact w3_inv|].
  set (o := retain still counters0 dbase w3 100 None base_fin).
  assert (E : (o.2, wc_events o.1.1) = (Ok false, [PubHead None; PubFinalized None])) by (vm_compute; reflexivity).
  destruct o as [[w' d'] r]. simpl in E. injection E as -> ->. split; [done|]. split; [done|].
  intros [Hw _]. destruct (Hw fin3 eq_refl) as (a & [=] & _).
Qed.
End ControllerExamples.
