(* ===== verification/Schema.v ===== *)
(** * Schema: table schemas and their merging

    Models the schema part of table compaction: crates/array/src/schema_metadata.rs (the
    sort key kept in the schema metadata), crates/array/src/schema_patch.rs (copy-on-write
    schema edits), the index type lattice of crates/array/src/item_index_cast.rs, and
    crates/storage/src/db/ops/schema_merge.rs. *)

From stdpp Require Import gmap.
From Stdlib Require Import Ascii Decimal DecimalString DecimalN.
From S2P Require Import Prelude.

(** The Arrow data types the code tells apart; every other type is a tag. *)
Inductive DataType : Type :=
| DT_UInt16 | DT_UInt32 | DT_UInt64
| DT_List (item_name : string) (item_type : DataType) (item_nullable : bool)
| DT_Other (tag : Z).

#[export] Instance DataType_eq_dec : EqDecision DataType.
Proof. solve_decision. Defined.

Record Field : Type := mkField { field_name : string; field_data_type : DataType; is_nullable : bool }.

#[export] Instance Field_eq_dec : EqDecision Field.
Proof. solve_decision. Defined.

Record Schema : Type := mkSchema { fields : list Field; metadata : gmap string string }.

#[export] Instance Schema_eq_dec : EqDecision Schema.
Proof. solve_decision. Defined.

(** ** The sort key *)

Definition SQD_SORT_KEY : string := "sqd_sort_key".

(** [str::split(',')] *)
Fixpoint split_comma (s : string) : list string :=
  match s with
  | EmptyString => [EmptyString]
  | String c s =>
      if decide (c = ","%char) then EmptyString :: split_comma s
      else match split_comma s with
           | part :: rest => String c part :: rest
           | [] => [String c EmptyString]
           end
  end.

(** [str::parse::<usize>]: an optional plus sign, then decimal digits that fit. *)
Definition parse_digits (s : string) : option Z :=
  match s with
  | EmptyString => None
  | _ => u ← NilEmpty.uint_of_string s;
         let n := Z.of_N (N.of_uint u) in
         if n <=? u64_max then Some n else None
  end.
Definition parse_usize (s : string) : option Z :=
  match s with
  | String "+"%char s => parse_digits s
  | s => parse_digits s
  end.

Definition parse_sort_key (key : string) (num_columns : nat) : res (list Z) :=
  indexes ← ok_or (mapM parse_usize (split_comma key)) (EMsg "invalid digit found in string");
  _ ← ensure (forallb (λ i, i <? Z.of_nat num_columns) indexes) (EMsg "sort key refers to non-existent column");
  Ok indexes.

Definition get_sort_key (schema : Schema) : res (list Z) :=
  match metadata schema !! SQD_SORT_KEY with
  | Some key => parse_sort_key key (length (fields schema))
  | None => Ok []
  end.

Definition print_usize (n : Z) : string := NilZero.string_of_uint (N.to_uint (Z.to_N n)).

Definition print_sort_key (key : list Z) : string :=
  match key with
  | [] => EmptyString
  | k :: key => foldl (λ out i, out +:+ "," +:+ print_usize i) (print_usize k) key
  end.

(** ** Schema patches *)

Record SchemaPatch : Type := mkSchemaPatch { original : Schema; new_schema : option Schema }.

Definition patch_new (s : Schema) : SchemaPatch := mkSchemaPatch s None.
Definition patch_schema (p : SchemaPatch) : Schema := default (original p) (new_schema p).
Definition patch_fields (p : SchemaPatch) : list Field := fields (patch_schema p).
Definition patch_metadata (p : SchemaPatch) : gmap string string := metadata (patch_schema p).

(** [find_by_name]: the first field of that name with its position. *)
Fixpoint find_field (name : string) (i : nat) (fs : list Field) : option (nat * Field) :=
  match fs with
  | [] => None
  | f :: fs => if decide (field_name f = name) then Some (i, f) else find_field name (S i) fs
  end.
Definition find_by_name (p : SchemaPatch) (name : string) : option (nat * Field) :=
  find_field name 0 (patch_fields p).

(** Assignment through [new_schema_mut], which copies the original on first use. *)
Definition set_metadata (m : gmap string string) (p : SchemaPatch) : SchemaPatch :=
  mkSchemaPatch (original p) (Some (mkSchema (patch_fields p) m)).

(** [fields[index] = field]; out of range panics. *)
Definition set_field (index : nat) (field : Field) (p : SchemaPatch) : res SchemaPatch :=
  if decide (index < length (patch_fields p))%nat
  then Ok (mkSchemaPatch (original p) (Some (mkSchema (<[index:=field]> (patch_fields p)) (patch_metadata p))))
  else Panic "index out of bounds".

Definition patch_set_sort_key (key : list Z) (p : SchemaPatch) : res SchemaPatch :=
  if forallb (λ i, i <? Z.of_nat (length (patch_fields p))) key then
    let key := print_sort_key key in
    Ok (if decide (patch_metadata p !! SQD_SORT_KEY = Some key) then p
        else set_metadata (<[SQD_SORT_KEY:=key]> (patch_metadata p)) p)
  else Panic "assertion failed".

Definition patch_finish (p : SchemaPatch) : Schema := patch_schema p.

(** [schema_metadata::set_sort_key] *)
Definition set_sort_key (schema : Schema) (key : list Z) : res Schema :=
  p ← patch_set_sort_key key (patch_new schema); Ok (patch_finish p).

(** ** Index types *)

Definition common_index_inner (a b : DataType) : option DataType :=
  match a, b with
  | DT_UInt16, DT_UInt16 => Some DT_UInt16
  | DT_UInt16, DT_UInt32 => Some DT_UInt32
  | DT_UInt32, DT_UInt32 => Some DT_UInt32
  | DT_UInt32, DT_UInt64 => Some DT_UInt64
  | DT_UInt64, DT_UInt64 => Some DT_UInt64
  | _, _ => None
  end.
Definition common_index (a b : DataType) : option DataType :=
  match common_index_inner a b with Some t => Some t | None => common_index_inner b a end.
Definition common_item_index_type (a b : DataType) : option DataType :=
  match a, b with
  | DT_List an a an_null, DT_List _ b bn_null =>
      (λ t, DT_List an t (an_null || bn_null)) <$> common_index a b
  | a, b => common_index a b
  end.

(** ** Merging *)

(** The loop over the two sort keys: the columns have the same names. *)
Fixpoint same_key_columns (a b : Schema) (ka kb : list Z) : bool :=
  match ka, kb with
  | ai :: ka, bi :: kb =>
      (bool_decide (field_name <$> fields a !! Z.to_nat ai = field_name <$> fields b !! Z.to_nat bi) &&
       same_key_columns a b ka kb)%bool
  | _, _ => true
  end.

Definition types_merge (a b : DataType) : bool :=
  if decide (a = b) then true else bool_decide (is_Some (common_item_index_type a b)).

Definition can_merge_schemas (a b : Schema) : bool :=
  if decide (a = b) then true
  else if negb (length (fields a) =? length (fields b))%nat then false
  else match get_sort_key a, get_sort_key b with
  | Ok ka, Ok kb =>
      if negb (length ka =? length kb)%nat then false
      else if negb (same_key_columns a b ka kb) then false
      else forallb (λ bf, match find_field (field_name bf) 0 (fields a) with
                          | Some (_, af) => types_merge (field_data_type af) (field_data_type bf)
                          | None => false
                          end) (fields b)
  | _, _ => false
  end.

Definition merge_fields (a b : Field) : res (option Field) :=
  if decide (field_name a = field_name b) then
    let data_type := if decide (field_data_type a = field_data_type b) then Some (field_data_type a)
                     else common_item_index_type (field_data_type a) (field_data_type b) in
    Ok ((λ t, mkField (field_name a) t (is_nullable a || is_nullable b)) <$> data_type)
  else Panic "assertion failed: a.name() == b.name()".

Fixpoint merge_schema_fields (base : SchemaPatch) (fs : list Field) : res SchemaPatch :=
  match fs with
  | [] => Ok base
  | new_field :: fs =>
      '(bi, bf) ← ok_or (find_by_name base (field_name new_field)) (EMsg "field does not exist in the base schema");
      if decide (bf = new_field) then merge_schema_fields base fs
      else
        merged ← merge_fields bf new_field;
        f ← ok_or merged (EMsg "failed to merge field: data types are not compatible");
        base ← set_field bi f base;
        merge_schema_fields base fs
  end.

Definition merge_schema (base : SchemaPatch) (schema : Schema) : res SchemaPatch :=
  if decide (patch_fields base = fields schema) then Ok base else merge_schema_fields base (fields schema).

(** [data_types_equal]: equality that ignores list item names and nullability. *)
Fixpoint data_types_equal (a b : DataType) : bool :=
  (bool_decide (a = b) ||
   match a, b with
   | DT_List _ a _, DT_List _ b _ => data_types_equal a b
   | _, _ => false
   end)%bool.

(** The schema [TableMerge::prepare] builds from the schemas of the merged tables, oldest
    first. *)
Definition strip_unknown_metadata (s : Schema) : Schema :=
  let p := patch_new s in
  patch_finish
    (if bool_decide (map_Forall (λ k _, k = SQD_SORT_KEY) (patch_metadata p)) then p
     else set_metadata (filter (λ kv, kv.1 = SQD_SORT_KEY) (patch_metadata p)) p).

Fixpoint merge_schemas (base : SchemaPatch) (schemas : list Schema) : res SchemaPatch :=
  match schemas with
  | [] => Ok base
  | s :: schemas => base ← merge_schema base s; merge_schemas base schemas
  end.

Definition merged_schema (schemas : list Schema) : res Schema :=
  match reverse schemas with
  | [] => Err (EMsg "nothing to merge")
  | last_schema :: older =>
      p ← merge_schemas (patch_new (strip_unknown_metadata last_schema)) older;
      Ok (patch_finish p)
  end.

(** ** Sort key round trip *)

Definition no_comma (s : string) : Prop := ∀ a b, s ≠ a +:+ String "," b.

Lemma string_app_cons c (a b : string) : String c a +:+ b = String c (a +:+ b).
Proof. done. Qed.
Lemma string_app_nil (b : string) : "" +:+ b = b.
Proof. done. Qed.
Lemma string_app_assoc (a b c : string) : a +:+ (b +:+ c) = (a +:+ b) +:+ c.
Proof. induction a as [|x a IH]; [done|]. by rewrite !string_app_cons, IH. Qed.

Lemma no_comma_cons c s : no_comma (String c s) → c ≠ ","%char ∧ no_comma s.
Proof.
  intros Hn. split; [intros ->; by apply (Hn "" s)|].
  intros a b ->. by apply (Hn (String c a) b).
Qed.

Lemma split_no_comma s : no_comma s → split_comma s = [s].
Proof.
  induction s as [|c s IH]; simpl; [done|]. intros [Hc Hs]%no_comma_cons.
  rewrite decide_False by done. by rewrite IH.
Qed.

Lemma split_app s t : no_comma s → split_comma (s +:+ String "," t) = s :: split_comma t.
Proof.
  induction s as [|c s IH]; [done|]. intros [Hc Hs]%no_comma_cons. rewrite string_app_cons. simpl.
  rewrite decide_False by done. by rewrite IH.
Qed.

(** Decimal digits. *)
Lemma string_of_uint_no_comma u : no_comma (NilEmpty.string_of_uint u).
Proof.
  intros a. revert u. induction a as [|x a IH]; intros u b E.
  - rewrite string_app_nil in E. destruct u; discriminate E.
  - rewrite string_app_cons in E. destruct u; simpl in E; try discriminate E; injection E as _ E; by apply (IH _ _ E).
Qed.

Lemma print_usize_uint n : print_usize n = NilEmpty.string_of_uint (N.to_uint (Z.to_N n)).
Proof.
  unfold print_usize, NilZero.string_of_uint. destruct (N.to_uint (Z.to_N n)) eqn:E; try done.
  exfalso. pose proof (DecimalN.Unsigned.to_of Nil) as H. simpl in H.
  assert (Hn : Z.to_N n = 0%N) by (rewrite <-(DecimalN.Unsigned.of_to (Z.to_N n)), E; done).
  rewrite Hn in E. done.
Qed.

Lemma print_usize_no_comma n : no_comma (print_usize n).
Proof. rewrite print_usize_uint. apply string_of_uint_no_comma. Qed.

Lemma parse_print_usize n : u64_ok n → parse_usize (print_usize n) = Some n.
Proof.
  intros Hn. unfold u64_ok in Hn. rewrite print_usize_uint.
  set (u := N.to_uint (Z.to_N n)).
  assert (Hd : parse_digits (NilEmpty.string_of_uint u) = Some n).
  { unfold parse_digits. pose proof (NilEmpty.usu u) as Hu. unfold u in *.
    destruct (NilEmpty.string_of_uint _) eqn:E; [exfalso|].
    - assert (Hnil : N.to_uint (Z.to_N n) = Nil) by (destruct (N.to_uint (Z.to_N n)); discriminate E || done).
      assert (Hz : Z.to_N n = 0%N) by (rewrite <-(DecimalN.Unsigned.of_to (Z.to_N n)), Hnil; done).
      rewrite Hz in Hnil. done.
    - rewrite Hu. simpl. rewrite DecimalN.Unsigned.of_to, Z2N.id by lia.
      by rewrite (proj2 (Z.leb_le n u64_max)) by lia. }
  unfold parse_usize. destruct u as [|u|u|u|u|u|u|u|u|u|u]; exact Hd.
Qed.

Lemma foldl_app_l (key : list Z) : ∀ a b : string,
  foldl (λ out i, out +:+ "," +:+ print_usize i) (a +:+ b) key
  = a +:+ foldl (λ out i, out +:+ "," +:+ print_usize i) b key.
Proof.
  induction key as [|i key IH]; intros a b; cbn [foldl]; [done|].
  rewrite <-(IH a (b +:+ _)). f_equal. by rewrite <-!string_app_assoc.
Qed.

Lemma print_sort_key_cons k j key :
  print_sort_key (k :: j :: key) = print_usize k +:+ String "," (print_sort_key (j :: key)).
Proof.
  unfold print_sort_key. cbn [foldl]. rewrite foldl_app_l. f_equal.
  exact (foldl_app_l key "," (print_usize j)).
Qed.

Lemma split_print key : key ≠ [] → split_comma (print_sort_key key) = print_usize <$> key.
Proof.
  destruct key as [|k key]; [done|]. intros _. revert k. induction key as [|j key IH]; intros k.
  - simpl. apply split_no_comma, print_usize_no_comma.
  - rewrite print_sort_key_cons, split_app by apply print_usize_no_comma. by rewrite IH.
Qed.

Lemma parse_print_key key n : key ≠ [] → Forall (λ i, u64_ok i ∧ i < Z.of_nat n) key →
  parse_sort_key (print_sort_key key) n = Ok key.
Proof.
  intros Hne Hall. unfold parse_sort_key. rewrite split_print by done.
  assert (Hm : mapM parse_usize (print_usize <$> key) = Some key).
  { apply mapM_Some, Forall2_fmap_l, Forall_Forall2_diag. eapply Forall_impl; [exact Hall|].
    intros i [Hi _]. by apply parse_print_usize. }
  rewrite Hm. cbn [ok_or mbind res_bind].
  rewrite (proj2 (forallb_forall _ _)); [done|].
  intros i Hi%list_elem_of_In. rewrite Forall_forall in Hall. apply Z.ltb_lt. by apply Hall.
Qed.

(** A sort key written into the schema metadata reads back: for a non-empty key over
    existing columns [set_sort_key] succeeds, leaves the fields as they are, and
    [get_sort_key] returns the key.  A key that refers to a missing column panics, and the
    empty key is stored as a string that [get_sort_key] refuses. *)
Theorem sort_key_roundtrip (s : Schema) (key : list Z) : Forall u64_ok key →
  if decide (Forall (λ i, i < Z.of_nat (length (fields s))) key) then
    ∃ s', set_sort_key s key = Ok s' ∧ fields s' = fields s ∧
      match key with [] => ∃ e, get_sort_key s' = Err e | _ => get_sort_key s' = Ok key end
  else ∃ m, set_sort_key s key = Panic m.
Proof.
  intros Hu. unfold set_sort_key, patch_set_sort_key. change (patch_fields (patch_new s)) with (fields s).
  case_decide as Hall.
  - assert (Hb : forallb (λ i, i <? Z.of_nat (length (fields s))) key = true).
    { apply forallb_forall. intros i Hi%list_elem_of_In. rewrite Forall_forall in Hall. by apply Z.ltb_lt, Hall. }
    rewrite Hb. cbn [mbind res_bind]. eexists. split; [done|]. split; [by case_decide|].
    assert (Hg : metadata (patch_finish (if decide (patch_metadata (patch_new s) !! SQD_SORT_KEY = Some (print_sort_key key))
        then patch_new s else set_metadata (<[SQD_SORT_KEY:=print_sort_key key]> (patch_metadata (patch_new s))) (patch_new s)))
        !! SQD_SORT_KEY = Some (print_sort_key key)).
    { case_decide as Hd; [exact Hd|]. simpl. by rewrite lookup_insert_eq. }
    unfold get_sort_key. rewrite Hg.
    assert (Hf : ∀ (b : bool) p q, fields (patch_finish p) = fields s → fields (patch_finish q) = fields s →
      fields (patch_finish (if b then p else q)) = fields s) by (intros []; done).
    destruct key as [|k key]; [by eexists|]. apply parse_print_key; [done|].
    rewrite Forall_forall in *. intros i Hi. split; [by apply Hu|].
    replace (length (fields _)) with (length (fields s)); [by apply Hall|]. by case_decide.
  - assert (Hb : forallb (λ i, i <? Z.of_nat (length (fields s))) key = false).
    { destruct (forallb _ key) eqn:E; [|done]. exfalso. apply Hall. rewrite forallb_forall in E.
      apply Forall_forall. intros i Hi%list_elem_of_In. by apply Z.ltb_lt, E. }
    rewrite Hb. by eexists.
Qed.

(** ** Merge decisions *)

Lemma common_index_sym a b : is_Some (common_index a b) → is_Some (common_index b a).
Proof. unfold common_index. destruct a, b; simpl; intros [x E]; (discriminate E || by eexists). Qed.

Lemma types_merge_sym a b : types_merge a b = true → types_merge b a = true.
Proof.
  unfold types_merge. case_decide as Hab; [intros _; by rewrite decide_True|].
  rewrite decide_False by congruence. rewrite !bool_decide_eq_true. unfold common_item_index_type.
  destruct a, b; try apply common_index_sym. rewrite !fmap_is_Some. apply common_index_sym.
Qed.

Lemma find_field_elem name fs : ∀ k i f, find_field name k fs = Some (i, f) →
  field_name f = name ∧ (k <= i)%nat ∧ fs !! (i - k)%nat = Some f.
Proof.
  induction fs as [|g fs IH]; intros k i f; simpl; [done|]. case_decide as Hn.
  - intros [= <- <-]. by rewrite Nat.sub_diag.
  - intros Hf. destruct (IH _ _ _ Hf) as (E & Hle & Hl). split; [done|]. split; [lia|].
    replace (i - k)%nat with (S (i - S k)) by lia. done.
Qed.

Lemma find_field_NoDup fs : NoDup (field_name <$> fs) → ∀ k f, f ∈ fs →
  ∃ i, find_field (field_name f) k fs = Some (i, f).
Proof.
  induction fs as [|g fs IH]; intros Hnd k f Hf; [by apply elem_of_nil in Hf|].
  cbn [fmap list_fmap] in Hnd. apply NoDup_cons in Hnd as [Hg Hnd]. cbn [find_field].
  apply elem_of_cons in Hf as [->|Hf]; [rewrite decide_True by done; eauto|].
  rewrite decide_False; [by apply IH|]. intros E. apply Hg. rewrite E. by apply list_elem_of_fmap_2.
Qed.

Lemma find_field_insert name f fs : ∀ k i g, fs !! i = Some g → field_name g = field_name f → name ≠ field_name f →
  find_field name k (<[i:=f]> fs) = find_field name k fs.
Proof.
  induction fs as [|h fs IH]; intros k [|i] g Hl Hg Hne; simplify_eq/=.
  - by rewrite !decide_False by congruence.
  - case_decide; [done|]. by eapply IH.
Qed.

(** Every new field has a mergeable counterpart. *)
Definition mergeable (base new : list Field) : Prop :=
  ∀ n, n ∈ new → ∃ i bf, find_field (field_name n) 0 base = Some (i, bf) ∧
    types_merge (field_data_type bf) (field_data_type n) = true.

Lemma merge_fields_ok bf n : field_name bf = field_name n →
  types_merge (field_data_type bf) (field_data_type n) = true →
  ∃ f, merge_fields bf n = Ok (Some f) ∧ field_name f = field_name bf.
Proof.
  intros Hn Hm. unfold merge_fields. rewrite decide_True by done. unfold types_merge in Hm.
  case_decide; [by eexists|]. apply bool_decide_eq_true in Hm as [t ->]. by eexists.
Qed.

Lemma merge_schema_fields_ok new : ∀ p, NoDup (field_name <$> new) → mergeable (patch_fields p) new →
  ∃ p', merge_schema_fields p new = Ok p' ∧ field_name <$> patch_fields p' = field_name <$> patch_fields p.
Proof.
  induction new as [|n new IH]; intros p Hnd Hm; [by eexists|].
  cbn [fmap list_fmap] in Hnd. apply NoDup_cons in Hnd as [Hn Hnd].
  destruct (Hm n ltac:(lmem)) as (i & bf & Hf & Ht). cbn [merge_schema_fields].
  unfold find_by_name. rewrite Hf. cbn [ok_or mbind res_bind].
  destruct (find_field_elem _ _ _ _ _ Hf) as (Hname & _ & Hl). rewrite Nat.sub_0_r in Hl.
  case_decide; [apply IH; [done|]; intros m Hmem; apply Hm; lmem|].
  destruct (merge_fields_ok bf n Hname Ht) as (f & -> & Hfn). cbn [ok_or mbind res_bind].
  unfold set_field. rewrite decide_True by (by eapply lookup_lt_Some). cbn [mbind res_bind].
  match goal with |- context [merge_schema_fields ?q new] => set (p1 := q) end.
  assert (Hp1 : patch_fields p1 = <[i:=f]> (patch_fields p)) by done.
  destruct (IH p1 Hnd) as (p' & E & En).
  - intros m Hmem. destruct (Hm m ltac:(lmem)) as (j & bg & Hg & Htg). exists j, bg. split; [|done].
    rewrite Hp1, (find_field_insert _ _ _ _ _ bf); try done.
    intros Em. apply Hn. rewrite <-Hname, <-Hfn, <-Em. by apply list_elem_of_fmap_2.
  - exists p'. split; [done|]. rewrite En, Hp1, list_fmap_insert. apply list_insert_id.
    by rewrite list_lookup_fmap, Hl, Hfn.
Qed.

(** The plan's pairwise test is sound for two tables: when [can_merge_schemas] accepts
    two schemas with distinct column names, [TableMerge::prepare] builds a merged schema of
    the two with the columns of the newer one. *)
Theorem can_merge_schemas_sound (a b : Schema) :
  NoDup (field_name <$> fields a) → NoDup (field_name <$> fields b) → can_merge_schemas a b = true →
  ∃ s, merged_schema [a; b] = Ok s ∧ field_name <$> fields s = field_name <$> fields b.
Proof.
  intros Ha Hb Hm. unfold merged_schema. cbn [reverse rev_append merge_schemas].
  change (reverse [a; b]) with [b; a]. cbn [merge_schemas].
  set (p := patch_new (strip_unknown_metadata b)).
  assert (Hp : patch_fields p = fields b).
  { unfold p, patch_fields, patch_schema, strip_unknown_metadata, patch_finish. simpl. by case_bool_decide. }
  unfold merge_schema. case_decide as Heq.
  { cbn [mbind res_bind]. eexists. split; [done|]. by rewrite <-Hp. }
  destruct (merge_schema_fields_ok (fields a) p Ha) as (p' & E & En).
  - unfold can_merge_schemas in Hm. case_decide as Hab; [subst; congruence|].
    destruct (length (fields a) =? length (fields b))%nat eqn:Elen; [|done]. apply Nat.eqb_eq in Elen.
    destruct (get_sort_key a) as [ka| |]; [|done..]. destruct (get_sort_key b) as [kb| |]; [|done..].
    destruct (length ka =? length kb)%nat; [|done]. destruct (same_key_columns a b ka kb); [|done].
    cbn [negb] in Hm. rewrite forallb_forall in Hm.
    assert (Hin : ∀ f, f ∈ fields b → ∃ g, g ∈ fields a ∧ field_name g = field_name f ∧
      types_merge (field_data_type g) (field_data_type f) = true).
    { intros f Hf. specialize (Hm f (proj1 (list_elem_of_In _ _) Hf)).
      destruct (find_field (field_name f) 0 (fields a)) as [[i g]|] eqn:Eg; [|done].
      apply find_field_elem in Eg as (En & _ & Hl). exists g. split; [by eapply list_elem_of_lookup_2|done]. }
    assert (Hsub : field_name <$> fields b ⊆+ field_name <$> fields a).
    { apply NoDup_submseteq; [done|]. intros x (f & -> & Hf)%list_elem_of_fmap.
      destruct (Hin f Hf) as (g & Hg & <- & _). by apply list_elem_of_fmap_2. }
    apply submseteq_length_Permutation in Hsub; [|by rewrite !length_fmap, Elen].
    intros f Hf. rewrite Hp.
    assert (Hn : field_name f ∈ field_name <$> fields b) by (rewrite Hsub; by apply list_elem_of_fmap_2).
    apply list_elem_of_fmap in Hn as (h & Eh & Hh). destruct (find_field_NoDup _ Hb 0 h Hh) as [i Hi].
    exists i, h. rewrite Eh. split; [done|]. destruct (Hin h Hh) as (g & Hg & Egn & Ht).
    replace f with g; [by apply types_merge_sym|].
    destruct (find_field_NoDup _ Ha 0 g Hg) as [j1 Hj1], (find_field_NoDup _ Ha 0 f Hf) as [j2 Hj2].
    rewrite Egn, <-Eh, Hj2 in Hj1. congruence.
  - rewrite E. cbn [mbind res_bind]. eexists. split; [done|]. by rewrite <-Hp.
Qed.

Module SchemaExamples.
Definition one_column (t : DataType) : Schema := mkSchema [mkField "n" t false] ∅.

Lemma sort_key_roundtrip_witness :
  ∃ s', set_sort_key (mkSchema [mkField "a" DT_UInt32 false; mkField "b" DT_UInt64 true] ∅) [1; 0] = Ok s' ∧
    get_sort_key s' = Ok [1; 0].
Proof.
  pose proof (sort_key_roundtrip (mkSchema [mkField "a" DT_UInt32 false; mkField "b" DT_UInt64 true] ∅) [1; 0]) as H.
  destruct (decide _) as [Hd|Hd].
  - destruct H as (s' & E & _ & G); [repeat constructor; unfold u64_max; lia|]. exists s'. split; [exact E|exact G].
  - exfalso. apply Hd. repeat constructor; simpl; lia.
Defined.

Lemma can_merge_schemas_sound_witness :
  ∃ s, merged_schema [one_column DT_UInt16; one_column DT_UInt32] = Ok s ∧ field_name <$> fields s = ["n"].
Proof.
  apply (can_merge_schemas_sound (one_column DT_UInt16) (one_column DT_UInt32)).
  - apply NoDup_singleton.
  - apply NoDup_singleton.
  - reflexivity.
Defined.

(** The pairwise test does not extend to a run: three tables whose neighbours pass
    [can_merge_schemas] can have no merged schema, because a 16-bit and a 64-bit index
    column have no common type although both meet a 32-bit one.  A compaction planned over
    such a run fails every time it is attempted. *)
Theorem pairwise_mergeable_run_fails :
  can_merge_schemas (one_column DT_UInt16) (one_column DT_UInt32) = true ∧
  can_merge_schemas (one_column DT_UInt32) (one_column DT_UInt64) = true ∧
  ∃ e, merged_schema [one_column DT_UInt16; one_column DT_UInt32; one_column DT_UInt64] = Err e.
Proof. split; [reflexivity|]. split; [reflexivity|]. eexists. vm_compute. reflexivity. Qed.
End SchemaExamples.
