(* ===== verification/Compaction.v ===== *)
(** * Compaction: merging small chunks of a dataset

    Models crates/storage/src/db/ops/compaction.rs: the choice of a run of chunks to merge
    (bounded by rows, by write amplification and by length), the transaction that replaces
    the run by one chunk unless the dataset changed meanwhile, and the clean-up of the
    tables of an abandoned merge.

    Sizes are [usize] row counts.  Write amplification is computed in [f64], here the IEEE
    754 binary64 arithmetic of the Standard Library's [SpecFloat].  Writing the merged
    tables is the argument [merge_tables]. *)

From stdpp Require Import gmap.
From Stdlib Require Import SpecFloat.
From S2P Require Import Prelude Bytes Data Kv ChunkIter Tables Chain Tx Concrete.
From S2P Require Import TxSpec UpdateSpec Retry Cleanup Db Schema.

(** ** Machine floats *)

Definition f64 : Type := spec_float.
Definition f64_of_usize (n : Z) : f64 := binary_normalize 53 1024 n 0 false.
Definition f64_div : f64 → f64 → f64 := SFdiv 53 1024.
Definition f64_zero : f64 := S754_zero false.

Definition MAX_CHUNK_SIZE : Z := 200000.
(** 1.9 *)
Definition WA_LIMIT : f64 := S754_finite false 8556839292003942 (-52).
Definition MERGE_HORIZON : nat := 500.
Definition COMPACTION_LEN_LIMIT : nat := 50.

Record MergedChunk : Type := mkMergedChunk { mc_first_block : Z; mc_last_block : Z; mc_size : Z }.

Inductive CompactionStatus : Type :=
| CompactionOk (merged : list MergedChunk)
| Canceled
| NotingToCompact.

(** ** The choice of a range *)

Definition max_size (sizes : list Z) : Z := foldr Z.max 0 sizes.
Definition sum_sizes (sizes : list Z) : Z := foldl u64_add 0 sizes.

Definition score_merge (chunk_sizes : list Z) (max_wa : option f64) : Z :=
  let max_size := f64_of_usize (max_size chunk_sizes) in
  let full_size := sum_sizes chunk_sizes in
  if SFeqb max_size f64_zero then 1
  else match max_wa with
       | Some wa_limit => if SFltb (f64_div (f64_of_usize full_size) max_size) wa_limit then 0 else full_size
       | None => full_size
       end.

(** [&chunk_sizes[left..right]] *)
Definition slice (sizes : list Z) (left right : nat) : list Z := take (right - left) (drop left sizes).

Inductive widened : Type := Found (right : nat) (score : Z) | Exhausted (right : nat).

(** The loop of [find_range]; [room] is how far [right] may still grow. *)
Fixpoint widen (sizes : list Z) (left right room : nat) (threshold : Z) (wa : f64) : widened :=
  let score := score_merge (slice sizes left right) (Some wa) in
  if score >=? threshold then Found right score
  else match room with
       | S room => widen sizes left (S right) room threshold wa
       | O => if score >? 0 then Found right score else Exhausted right
       end.

(** [iter().position(|e| e == max)] *)
Fixpoint position (x : Z) (l : list Z) : nat :=
  match l with [] => 0 | y :: l => if x =? y then 0 else S (position x l) end.

Fixpoint find_range (fuel : nat) (sizes : list Z) (start end_ : nat) (threshold : Z) (wa : f64) (len_limit : nat)
  : option (nat * nat * Z) :=
  match fuel with
  | O => None
  | S fuel =>
      if (end_ <=? start + 1)%nat then None
      else
        let right_limit := Nat.min end_ (start + len_limit) in
        match widen sizes start (start + 1) (right_limit - (start + 1)) threshold wa with
        | Found right_ score => Some (start, right_, score)
        | Exhausted right_ =>
            let max_el := max_size (slice sizes start right_) in
            let max_idx := position max_el (slice sizes start right_) in
            match find_range fuel sizes start (start + max_idx) max_el wa len_limit with
            | Some r => Some r
            | None => find_range fuel sizes (start + max_idx + 1) end_ max_el wa len_limit
            end
        end
  end.

(** The recursion shrinks the range, so its length is fuel enough. *)
Definition range_fuel (start end_ : nat) : nat := S (end_ - start).

(** ** The scan of the newest chunks *)

Section compaction.
Context {M C T : Type} `{KvStore M C} `{Borsh} `{TableReader T} `{TableStore M T}.
(** [TableReader::schema] *)
Context (schema : T → Schema).
Context (max_chunk_size : Z) (wa_limit : f64) (len_limit : nat).

Record plan_state : Type := mkPlanState {
  ps_first_applicable_block : Z;
  ps_chunk_data_sizes : list (list Z);
  ps_last_schema_map : gmap string Schema;
  ps_first_block : option Z
}.

Definition plan_start : plan_state := mkPlanState u64_max [[]] ∅ None.

(** The loop over the tables of a chunk: the most rows of a table and whether every schema
    merges with the one seen last. *)
Fixpoint scan_tables (d : db M) (last_empty : bool) (ts : list (string * TableId))
    (max_rows : Z) (compatible : bool) (schemas : gmap string Schema) : res (Z * bool * gmap string Schema) :=
  match ts with
  | [] => Ok (max_rows, compatible, schemas)
  | (key, id) :: ts =>
      reader ← open_table (d CF_TABLES) id;
      let max_rows := Z.max (Z.of_nat (num_rows reader)) max_rows in
      let this_schema := schema reader in
      let compatible :=
        match schemas !! key with
        | Some last_schema => (compatible && can_merge_schemas this_schema last_schema)%bool
        | None => if last_empty then compatible else false
        end in
      scan_tables d last_empty ts max_rows compatible (<[key:=this_schema]> schemas)
  end.

(** [chunk_data_sizes.last_mut().unwrap().push(n)] *)
Fixpoint push_last (n : Z) (runs : list (list Z)) : list (list Z) :=
  match runs with
  | [] => []
  | [run] => [run ++ [n]]
  | run :: runs => run :: push_last n runs
  end.

Definition scan_chunk (d : db M) (el : Chunk) (s : plan_state) : res plan_state :=
  let last_empty := bool_decide (ps_last_schema_map s = ∅) in
  let data_continuous := match ps_first_block s with
                         | Some first_block => u64_add (last_block el) 1 =? first_block
                         | None => true
                         end in
  let mismatch := (negb last_empty && negb (length (tables el) =? size (ps_last_schema_map s))%nat)%bool in
  '(max_rows, compatible, schemas) ←
    scan_tables d last_empty (tables el) 0 (negb mismatch) (if mismatch then ∅ else ps_last_schema_map s);
  let max_rows := if max_rows =? 0 then blocks_count el else max_rows in
  let runs :=
    if (compatible && data_continuous && (max_rows <? max_chunk_size))%bool
    then push_last max_rows (ps_chunk_data_sizes s)
    else ps_chunk_data_sizes s ++ [[max_rows]] in
  let runs := if max_rows >=? max_chunk_size then runs ++ [[]] else runs in
  Ok (mkPlanState (first_block el) runs schemas (Some (first_block el))).

(** The reverse scan stops after [horizon] chunks. *)
Fixpoint scan_chunks (d : db M) (horizon : nat) (chunks : list (res Chunk)) (s : plan_state)
    {struct chunks} : res plan_state :=
  match chunks with
  | [] => Ok s
  | chunk_result :: chunks =>
      el ← chunk_result;
      match horizon with
      | O => Ok s
      | S horizon => s ← scan_chunk d el s; scan_chunks d horizon chunks s
      end
  end.

(** The loop over a finished run: [right] grows until the rows suffice. *)
Fixpoint take_full (run : list Z) (right room : nat) : nat :=
  if score_merge (slice run 0 right) None <? max_chunk_size then
    match room with
    | S room => take_full run (S right) room
    | O => right
    end
  else right.

(** How many of the chunks from the first applicable one to skip and to take. *)
Fixpoint choose_run (runs : list (list Z)) (skip : nat) : nat * nat :=
  match runs with
  | [] => (skip, 0%nat)
  | run :: runs =>
      if (length run <? 2)%nat then choose_run runs (skip + length run)
      else match runs with
           | _ :: _ => (skip, take_full run 1 (length run - 1))
           | [] =>
               match find_range (range_fuel 0 (length run)) run 0 (length run) max_chunk_size wa_limit len_limit with
               | Some (left_, right_, _) => ((skip + left_)%nat, (right_ - left_)%nat)
               | None => choose_run runs (skip + length run)
               end
           end
  end.

Definition prepare_merge_plan (id : DatasetId) (d : db M) : res (list Chunk) :=
  s ← scan_chunks d MERGE_HORIZON (list_chunks_rev (d CF_CHUNKS) id 0 None) plan_start;
  let runs := reverse (reverse <$> ps_chunk_data_sizes s) in
  let '(skip, take_) := choose_run runs 0 in
  collect (take take_ (drop skip (list_chunks (d CF_CHUNKS) id (ps_first_applicable_block s) None))).

(** ** The replacement *)

Definition make_chunk (first_chunk last_chunk : Chunk) (ts : list (string * TableId)) : Chunk :=
  ChunkV1 (first_block first_chunk) (last_block last_chunk) (last_block_hash last_chunk)
    (parent_block_hash first_chunk) (first_block_time first_chunk) (last_block_time last_chunk) ts.

(** [zip(...)] of the current chunks with the merged ones: [None] on a difference, else the
    number of pairs. *)
Fixpoint compare_chunks (current : list (res Chunk)) (merge : list Chunk) : res (option nat) :=
  match current, merge with
  | c :: current, m :: merge =>
      c ← c;
      if decide (c = m) then compared ← compare_chunks current merge; Ok (option_map S compared)
      else Ok None
  | _, _ => Ok (Some 0%nat)
  end.

Definition data_was_changed (id : DatasetId) (first_chunk last_chunk : Chunk) (merge : list Chunk) (tx : Tx M)
  : res bool :=
  compared ← compare_chunks
    (tx_list_chunks id (first_block first_chunk) (Some (last_block last_chunk)) tx) merge;
  Ok (match compared with Some n => negb (n =? length merge)%nat | None => true end).

Definition delete_merged_chunks (id : DatasetId) (merge : list Chunk) (tx : Tx M) : Tx M :=
  foldl (λ tx c, delete_chunk id c tx) tx merge.

(** [ChunkReader::get_table_reader] *)
Definition get_table_reader (d : db M) (c : Chunk) (name : string) : res T :=
  id ← ok_or (table_get name (tables c)) (EMsg "table does not exist in chunk");
  open_table (d CF_TABLES) id.

Definition merged_size (d : db M) (c : Chunk) : res MergedChunk :=
  size ← fold_res (λ acc p, r ← get_table_reader d c p.1; Ok (Z.max acc (Z.of_nat (num_rows r)))) (tables c) 0;
  Ok (mkMergedChunk (first_block c) (last_block c) size).

(** The transaction; [d] is the snapshot the plan was made on. *)
Definition compaction_tx (d : db M) (id : DatasetId) (first_chunk last_chunk : Chunk) (merge : list Chunk)
    (new_chunk : Chunk) (tx : Tx M) : res (CompactionStatus * Tx M) :=
  '(found, tx) ← find_label_for_update id tx;
  match found with
  | None => Ok (Canceled, tx)
  | Some label =>
      changed ← data_was_changed id first_chunk last_chunk merge tx;
      if (changed : bool) then Ok (Canceled, tx)
      else
        let tx := write_chunk id new_chunk (delete_merged_chunks id merge tx) in
        let tx := write_label id (bump_version label) tx in
        merged_chunks ← collect (merged_size d <$> merge);
        Ok (CompactionOk merged_chunks, tx)
  end.

Context (env : db M → nat → attempt_env M) (counters : tx_counters).
(** [TableMerge::prepare], [TableBuilder] and [TableMerge::write]: writes the merge of the
    tables and returns its id. *)
Context (merge_tables : list T → db M → db M * res TableId).

(** [merge_all_tables]; [d0] is the snapshot. *)
Fixpoint merge_all_tables (d0 : db M) (merge : list Chunk) (names : list string)
    (ts : list (string * TableId)) (d : db M) : db M * res (list (string * TableId)) :=
  match names with
  | [] => (d, Ok ts)
  | name :: names =>
      match collect ((λ c, get_table_reader d0 c name) <$> merge) with
      | Ok readers =>
          match merge_tables readers d with
          | (d, Ok id) => merge_all_tables d0 merge names (ts ++ [(name, id)]) d
          | (d, Err e) => (d, Err e)
          | (d, Panic m) => (d, Panic m)
          end
      | Err e => (d, Err e)
      | Panic m => (d, Panic m)
      end
  end.

Definition abandon_new_chunk_tables (p : RetryPolicy) (new_chunk : Chunk) (d : db M) : db M * res unit :=
  exec env counters p false false
    (λ tx, Ok (tt, foldl (λ tx id, delete_table id tx) tx (tables new_chunk).*2)) d.

Definition execute (p : RetryPolicy) (id : DatasetId) (d0 : db M) : db M * res CompactionStatus :=
  match prepare_merge_plan id d0 with
  | Ok ((first_chunk :: _ :: _) as merge) =>
      let last_chunk := default first_chunk (last merge) in
      match merge_all_tables d0 merge (tables first_chunk).*1 [] d0 with
      | (d, Ok ts) =>
          let new_chunk := make_chunk first_chunk last_chunk ts in
          let '(d, outcome) := exec env counters p false false
            (compaction_tx d0 id first_chunk last_chunk merge new_chunk) d in
          match outcome with
          | Ok (CompactionOk merged) => (d, Ok (CompactionOk merged))
          | Ok st => match abandon_new_chunk_tables p new_chunk d with
                     | (d, Ok _) => (d, Ok st)
                     | (d, Err e) => (d, Err e)
                     | (d, Panic m) => (d, Panic m)
                     end
          | Err e => ((abandon_new_chunk_tables p new_chunk d).1, Err e)
          | Panic m => (d, Panic m)
          end
      | (d, Err e) => (d, Err e)
      | (d, Panic m) => (d, Panic m)
      end
  | Ok _ => (d0, Ok NotingToCompact)
  | Err e => (d0, Err e)
  | Panic m => (d0, Panic m)
  end.
End compaction.

(** [perform_dataset_compaction]: the defaults of the limits. *)
Definition perform_dataset_compaction {M C T : Type} `{KvStore M C} `{Borsh} `{TableReader T} `{TableStore M T}
    (schema : T → Schema) (env : db M → nat → attempt_env M) (counters : tx_counters)
    (merge_tables : list T → db M → db M * res TableId) (p : RetryPolicy) (id : DatasetId)
    (max_chunk_size : option Z) (write_amplification_limit : option f64) (compaction_len_limit : option nat)
    (d : db M) : db M * res CompactionStatus :=
  execute schema (default MAX_CHUNK_SIZE max_chunk_size) (default WA_LIMIT write_amplification_limit)
    (default COMPACTION_LEN_LIMIT compaction_len_limit) env counters merge_tables p id d.
