(* ===== verification/CompactionSpec.v ===== *)
(** * CompactionSpec: compaction is transparent

    The transaction of a compaction replaces a run of chunks by one chunk over the same
    blocks, or changes nothing; the plan chooses a gapless run of the newest chunks; and
    the whole operation preserves the committed state of the dataset up to that
    replacement. *)
From stdpp Require Import gmap.
From S2P Require Import Prelude Bytes Data Kv ChunkIter Tables Chain Tx Concrete TxSpec UpdateSpec Retry PrefixSpec Cleanup Db DbSpec WriteController ControllerSpec Schema Compaction.

(** The chunk over a run, with the tables of [new]. *)
Definition covers_run (new : Chunk) (merge : list Chunk) : Prop :=
  ∃ a z, head merge = Some a ∧ last merge = Some z ∧
    first_block new = first_block a ∧ last_block new = last_block z ∧
    last_block_hash new = last_block_hash z ∧ parent_block_hash new = parent_block_hash a.

Lemma make_chunk_covers a z merge ts : head merge = Some a → last merge = Some z →
  covers_run (make_chunk a z ts) merge.
Proof. intros Ha Hz. by exists a, z. Qed.

Lemma compare_chunks_spec cur : ∀ merge, ∃ o, compare_chunks (Ok <$> cur) merge = Ok o ∧
  (o = Some (length merge) ↔ merge `prefix_of` cur).
Proof.
  induction cur as [|c cur IH]; intros [|m merge]; cbn [fmap list_fmap compare_chunks mbind res_bind].
  - exists (Some 0%nat). split; [done|]. split; [intros _; apply prefix_nil|done].
  - exists (Some 0%nat). split; [done|]. split; [done|]. intros Hp. by apply prefix_nil_not in Hp.
  - exists (Some 0%nat). split; [done|]. split; [intros _; apply prefix_nil|done].
  - case_decide as Hc.
    + destruct (IH merge) as (o & -> & Ho). cbn [mbind res_bind]. eexists. split; [done|]. subst m. split.
      * intros E. apply prefix_cons, Ho. by destruct o; simplify_eq/=.
      * intros Hp%prefix_cons_inv_2. apply Ho in Hp as ->. done.
    + exists None. split; [done|]. split; [done|]. intros Hp%prefix_cons_inv_1. congruence.
Qed.

Lemma head_Some_elem {A} (l : list A) x : head l = Some x → x ∈ l.
Proof. destruct l; [done|]. intros [= ->]. apply list_elem_of_here. Qed.

(** In a chain the chunks that reach a block are a suffix. *)
Lemma chain_suffix cs lo : chain cs → ∃ l, cs = l ++ filter (λ c, lo <= last_block c) cs ∧
  Forall (λ c, last_block c < lo) l.
Proof.
  intros Hch. pose proof (chain_sorted_last _ Hch) as Hs. clear Hch.
  induction Hs as [|c cs Hs (l & E & Hl) Hc]; [by exists []|]. rewrite filter_cons. case_decide as Hlo.
  - exists []. split; [|done]. simpl. f_equal. symmetry. apply list_filter_all. intros x Hx.
    rewrite Forall_forall in Hc. specialize (Hc x Hx). simpl in Hc. lia.
  - exists (c :: l). split; [simpl; f_equal; exact E|]. constructor; [lia|done].
Qed.

(** The chunks of a chain that meet a range of blocks are a contiguous part of it. *)
Lemma chain_middle cs lo hi : chain cs → ∃ l k,
  cs = l ++ filter (λ c, in_window lo (Some hi) c = true) cs ++ k.
Proof.
  intros Hch. destruct (chain_suffix cs lo Hch) as (l & E & _). rewrite <-chain_window by done.
  destruct (take_while_prefix (in_window lo (Some hi)) (filter (λ c, lo <= last_block c) cs)) as [k Ek].
  exists l, k. by rewrite <-Ek.
Qed.

(** A non-empty part of a chain is the window over its own blocks. *)
Lemma chain_part_window l merge k a z : chain (l ++ merge ++ k) → head merge = Some a → last merge = Some z →
  filter (λ c, in_window (first_block a) (Some (last_block z)) c = true) (l ++ merge ++ k) = merge.
Proof.
  intros Hch Ha Hz. pose proof (chain_sorted _ Hch) as Hs.
  assert (Hw : ∀ c, in_window (first_block a) (Some (last_block z)) c = true ↔
    first_block a <= last_block c ∧ first_block c <= last_block z).
  { intros c. unfold in_window. by rewrite andb_true_iff, !Z.leb_le. }
  assert (Hain : a ∈ merge) by (by apply head_Some_elem).
  assert (Hzin : z ∈ merge) by (by apply last_Some_elem_of).
  assert (Hok : ∀ c, c ∈ l ++ merge ++ k → chunk_ok c) by (intros c Hc; by eapply chain_elem_ok).
  assert (Hoa : chunk_ok a) by (apply Hok; set_solver). unfold chunk_ok in Hoa.
  rewrite !filter_app, (list_filter_none _ l), (list_filter_none _ k), app_nil_r; simpl.
  - apply list_filter_all. intros c Hc. apply Hw. apply chain_app in Hch as [_ Hch].
    apply chain_app in Hch as [Hch _].
    assert (Hle : first_block a <= first_block c ∧ last_block c <= last_block z).
    { split.
      - destruct merge as [|x merge]; simplify_eq/=. apply elem_of_cons in Hc as [->|Hc]; [lia|].
        pose proof (StronglySorted_elem _ _ _ (chain_sorted _ Hch) c Hc) as Hlt. simpl in Hlt.
        lia.
      - destruct merge as [|x merge _] using rev_ind; [done|]. rewrite last_snoc in Hz. simplify_eq.
        pose proof (chain_sorted_last _ Hch) as Hs'. apply StronglySorted_snoc in Hs' as [_ Hs'].
        rewrite elem_of_app, list_elem_of_singleton in Hc. destruct Hc as [Hc| ->]; [|lia].
        rewrite Forall_forall in Hs'. specialize (Hs' c Hc). simpl in Hs'. lia. }
    assert (Hoc : chunk_ok c) by (apply Hok; set_solver). unfold chunk_ok in Hoc. lia.
  - intros c Hc Hin%Hw. rewrite app_assoc in Hs.
    assert (Hzc : last_block z < first_block c); [|lia].
    clear -Hs Hzin Hc. rewrite <-app_assoc in Hs. induction l as [|x l IH]; simpl in Hs.
    + induction merge as [|x merge IH]; [by apply elem_of_nil in Hzin|]. simpl in Hs.
      apply StronglySorted_inv in Hs as [Hs Hx]. apply elem_of_cons in Hzin as [->|Hzin]; [|auto].
      rewrite Forall_forall in Hx. apply Hx. set_solver.
    + apply StronglySorted_inv in Hs as [Hs _]. auto.
  - intros c Hc Hin%Hw. assert (Hca : last_block c < first_block a); [|lia].
    clear -Hs Hain Hc. induction l as [|x l IH]; simpl in Hs; [by apply elem_of_nil in Hc|].
    apply StronglySorted_inv in Hs as [Hs Hx]. apply elem_of_cons in Hc as [->|Hc]; [|auto].
    rewrite Forall_forall in Hx. apply Hx. set_solver.
Qed.

(** So a run is a prefix of the current window exactly when it is a part of the chain. *)
Lemma window_prefix cs merge a z : chain cs → chain merge → head merge = Some a → last merge = Some z →
  merge `prefix_of` filter (λ c, in_window (first_block a) (Some (last_block z)) c = true) cs ↔
  ∃ l k, cs = l ++ merge ++ k.
Proof.
  intros Hch Hm Ha Hz. split; [|intros (l & k & ->); by rewrite chain_part_window].
  intros [ext E]. destruct (chain_middle cs (first_block a) (last_block z) Hch) as (l & k & Ecs).
  rewrite E in Ecs. exists l, (ext ++ k). by rewrite Ecs at 1; rewrite <-!app_assoc.
Qed.

Section facts.
Context {M C T : Type} `{HK : KvStore M C} `{HL : !KvStoreLaws M C}
  `{HB : Borsh} `{HBL : !BorshLaws} `{HT : TableReader T} `{HS : !TableStore M T}.
Implicit Types (d : db M) (id : DatasetId) (tx : Tx M).

Lemma delete_merged_frame id cs : ∀ tx, frame [CF_CHUNKS; CF_DELETED_TABLES] tx (delete_merged_chunks id cs tx).
Proof.
  induction cs as [|c cs IH]; intros tx; [apply frame_refl|].
  eapply frame_trans; [apply delete_chunk_frame|apply IH].
Qed.

Lemma delete_merged_spec id l k cs : ∀ tx,
  chunks_cf_ok (tx_view tx CF_CHUNKS) → dataset_id_ok id →
  chunks_of (tx_view tx CF_CHUNKS) id = l ++ cs ++ k →
  let tx' := delete_merged_chunks id cs tx in
  chunks_cf_ok (tx_view tx' CF_CHUNKS) ∧ chunks_of (tx_view tx' CF_CHUNKS) id = l ++ k ∧ only_dataset id tx tx'.
Proof.
  induction cs as [|c cs IH]; intros tx Hok Hid Hcs; [by split_and!|].
  destruct (delete_chunk_spec id c tx l (cs ++ k) Hok Hid Hcs) as (A & B & D).
  destruct (IH _ A Hid B) as (A' & B' & D'). split_and!; [done..|]. by eapply only_dataset_trans.
Qed.

(** Replacing a run by a chunk over the same blocks keeps the shape. *)
Lemma replace_adjacent (R : Chunk → Chunk → Prop) l merge k new :
  (∀ x a, R x a → first_block new = first_block a → parent_block_hash new = parent_block_hash a → R x new) →
  (∀ z x, R z x → last_block new = last_block z → last_block_hash new = last_block_hash z → R new x) →
  covers_run new merge → adjacent R (l ++ merge ++ k) → adjacent R (l ++ [new] ++ k).
Proof.
  intros Hl Hr (a & z & Ha & Hz & E1 & E2 & E3 & E4) Hadj.
  apply adjacent_app in Hadj as (Al & Amk & Hx). apply adjacent_app in Amk as (_ & Ak & Hy).
  rewrite head_app, Ha in Hx. rewrite Hz in Hy. apply adjacent_app. split; [done|]. split.
  - apply adjacent_app. split; [done|]. split; [done|]. simpl. destruct (head k); [|done]. by eapply Hr.
  - simpl. destruct (last l); [|done]. by eapply Hl.
Qed.

Lemma replace_chain l merge k new : covers_run new merge → chain (l ++ merge ++ k) → chain (l ++ [new] ++ k).
Proof.
  intros Hc [Hok Hadj]. split.
  - apply Forall_app in Hok as [Hl Hmk]. apply Forall_app in Hmk as [Hm Hk].
    apply Forall_app. split; [done|]. apply Forall_app. split; [|done]. constructor; [|constructor].
    destruct Hc as (a & z & Ha & Hz & E1 & E2 & _). rewrite Forall_forall in Hm.
    pose proof (Hm a (head_Some_elem _ _ Ha)) as Hoa. pose proof (Hm z (last_Some_elem_of _ _ Hz)) as Hoz.
    unfold chunk_ok in *. rewrite E1, E2. apply adjacent_app in Hadj as (_ & Hadj & _).
    apply adjacent_app in Hadj as (Hadj & _ & _).
    assert (Hm' : chain merge) by (split; [by apply Forall_forall|done]).
    destruct merge as [|x merge]; simplify_eq/=. destruct merge as [|y merge]; [simplify_eq/=; lia|].
    assert (Hzin : z ∈ y :: merge) by (by apply last_Some_elem_of).
    pose proof (StronglySorted_elem _ _ _ (chain_sorted _ Hm') z Hzin) as Hlt. simpl in Hlt. lia.
  - eapply replace_adjacent; [| |done|done]; unfold linked.
    + intros x a [? ?] E1 E2. rewrite E1, E2. done.
    + intros z x [? ?] E1 E2. rewrite E1, E2. done.
Qed.

Lemma replace_tiled l merge k new : covers_run new merge → tiled (l ++ merge ++ k) → tiled (l ++ [new] ++ k).
Proof.
  intros Hc Ht. pose proof (replace_chain l merge k new Hc (tiled_chain _ Ht)) as [Hok _]. split; [done|].
  destruct Ht as [_ Hadj]. eapply replace_adjacent; [| |done|done]; unfold follows.
  - intros x a [? ?] E1 E2. rewrite E1, E2. done.
  - intros z x [? ?] E1 E2. rewrite E1, E2. done.
Qed.

Lemma data_was_changed_spec id a z merge tx : chunks_cf_ok (tx_view tx CF_CHUNKS) → dataset_id_ok id →
  chain (chunks_of (tx_view tx CF_CHUNKS) id) → chain merge → head merge = Some a → last merge = Some z →
  ∃ b, data_was_changed id a z merge tx = Ok b ∧
    (b = false ↔ ∃ l k, chunks_of (tx_view tx CF_CHUNKS) id = l ++ merge ++ k).
Proof.
  intros Hok Hid Hch Hm Ha Hz. unfold data_was_changed, tx_list_chunks.
  assert (Hoa : chunk_ok a) by (eapply chain_elem_ok; [exact Hm|by apply head_Some_elem]).
  rewrite list_chunks_window by (done || by apply chunk_ok_u64).
  destruct (compare_chunks_spec (filter (λ c, in_window (first_block a) (Some (last_block z)) c = true)
    (chunks_of (tx_view tx CF_CHUNKS) id)) merge) as (o & -> & Ho). cbn [mbind res_bind].
  eexists. split; [done|]. rewrite <-(window_prefix _ merge a z) by done. rewrite <-Ho.
  destruct o as [n|]; [|done]. rewrite negb_false_iff, Nat.eqb_eq. naive_solver.
Qed.

Lemma compaction_tx_spec d id a z merge new tx st tx' :
  chunks_cf_ok (tx_view tx CF_CHUNKS) → dataset_id_ok id → chain (chunks_of (tx_view tx CF_CHUNKS) id) →
  chain merge → head merge = Some a → last merge = Some z → covers_run new merge →
  compaction_tx d id a z merge new tx = Ok (st, tx') →
  tx_db tx' = tx_db tx ∧ tx_view tx' CF_TABLES = tx_view tx CF_TABLES ∧
  match st with
  | CompactionOk _ => ∃ l k label bs,
      chunks_of (tx_view tx CF_CHUNKS) id = l ++ merge ++ k ∧
      chunks_of (tx_view tx' CF_CHUNKS) id = l ++ [new] ++ k ∧ chunks_cf_ok (tx_view tx' CF_CHUNKS) ∧
      kv_get (tx_view tx CF_DATASETS) id = Some bs ∧ label_from_slice bs = Some label ∧
      kv_get (tx_view tx' CF_DATASETS) id = Some (label_to_vec (bump_version label)) ∧
      (∀ id', dataset_id_ok id' → id' ≠ id →
         chunks_of (tx_view tx' CF_CHUNKS) id' = chunks_of (tx_view tx CF_CHUNKS) id' ∧
         kv_get (tx_view tx' CF_DATASETS) id' = kv_get (tx_view tx CF_DATASETS) id')
  | Canceled => tx_view tx' = tx_view tx ∧
      (kv_get (tx_view tx CF_DATASETS) id = None ∨
       ¬ ∃ l k, chunks_of (tx_view tx CF_CHUNKS) id = l ++ merge ++ k)
  | NotingToCompact => False
  end.
Proof.
  intros Hok Hid Hch Hm Ha Hz Hcov. unfold compaction_tx. intros Ho.
  apply bind_Ok in Ho as ([found tx1] & Hl & Ho). apply find_label_spec in Hl as (Ev & Ed & Hl).
  destruct found as [label|]; [|injection Ho as <- <-; rewrite Ev; auto].
  destruct Hl as (bs & Hbs & Hlab). apply bind_Ok in Ho as (changed & Hc & Ho).
  destruct (data_was_changed_spec id a z merge tx1) as (b & Hb & Hiff); try (by rewrite ?Ev); try done.
  rewrite Hb in Hc. injection Hc as ->. rewrite Ev in Hiff. destruct changed.
  { injection Ho as <- <-. rewrite Ev. split_and!; try done. right. by rewrite <-Hiff. }
  apply bind_Ok in Ho as (merged & _ & Ho). injection Ho as <- <-.
  destruct (proj1 Hiff eq_refl) as (l & k & Hcs).
  assert (Hok1 : chunks_cf_ok (tx_view tx1 CF_CHUNKS)) by (by rewrite Ev).
  assert (Hcs1 : chunks_of (tx_view tx1 CF_CHUNKS) id = l ++ merge ++ k) by (by rewrite Ev).
  destruct (delete_merged_spec id l k merge tx1 Hok1 Hid Hcs1) as (A & B & Dd).
  set (tx2 := delete_merged_chunks id merge tx1) in *.
  assert (Hch2 : chain (l ++ [new] ++ k)) by (apply (replace_chain l merge); [done|by rewrite <-Hcs]).
  assert (Hnew : chunk_ok new) by (eapply chain_elem_ok; [exact Hch2|set_solver]).
  assert (Hput : chunks_of (tx_view (write_chunk id new tx2) CF_CHUNKS) id = l ++ [new] ++ k).
  { rewrite write_chunk_view. apply chunks_put_between; try done. by apply chain_sorted_last. }
  assert (Hfr : frame [CF_CHUNKS; CF_DELETED_TABLES; CF_DIRTY_TABLES] tx1 (write_chunk id new tx2)).
  { eapply frame_trans; [eapply frame_weaken; [|apply delete_merged_frame]; set_solver|].
    eapply frame_weaken; [|apply write_chunk_frame]; set_solver. }
  assert (Hwl : ∀ c, c ≠ CF_DATASETS →
    tx_view (write_label id (bump_version label) (write_chunk id new tx2)) c = tx_view (write_chunk id new tx2) c).
  { intros c Hc. unfold write_label, put_cf. rewrite tx_view_stage. by apply apply_op_other. }
  split; [|split].
  - change (tx_db (write_label id (bump_version label) (write_chunk id new tx2)))
      with (tx_db (write_chunk id new tx2)). by rewrite (frame_db _ _ _ Hfr).
  - rewrite Hwl by done. rewrite (frame_view _ _ _ CF_TABLES Hfr), Ev by set_solver. done.
  - exists l, k, label, bs. rewrite Hwl by done. split_and!; try done.
    + rewrite write_chunk_view. by apply chunks_put_ok.
    + by rewrite write_label_get, decide_True.
    + intros id' Hid' Hne. split.
      * rewrite write_chunk_view, chunks_put_other by done. rewrite (Dd id' Hid' Hne). by rewrite Ev.
      * rewrite write_label_get, decide_False by naive_solver.
        by rewrite (frame_view _ _ _ CF_DATASETS Hfr), Ev by set_solver.
Qed.
End facts.

(** ** The merge plan

    The range search of [Compaction] stays inside the run it searches, respects the length
    limit and terminates; and the plan is a gapless run of the newest chunks, none of which
    is full already. *)

(** ** The range search *)

Lemma widen_bounds sizes left_ wa th room : ∀ right_,
  match widen sizes left_ right_ room th wa with
  | Found r score => (right_ <= r <= right_ + room)%nat ∧ (th <= score ∨ 0 < score)
  | Exhausted r => r = (right_ + room)%nat
  end.
Proof.
  induction room as [|room IH]; intros right_; cbn [widen];
    destruct (Z.geb_spec (score_merge (slice sizes left_ right_) (Some wa)) th); try (split; [lia|by left]).
  - destruct (Z.gtb_spec (score_merge (slice sizes left_ right_) (Some wa)) 0); [split; [lia|by right]|lia].
  - specialize (IH (S right_)). destruct (widen _ _ _ _ _ _); [|lia]. destruct IH. split; [lia|done].
Qed.

Lemma find_range_bounds_gen fuel sizes wa len_limit : ∀ start end_ th l r score,
  find_range fuel sizes start end_ th wa len_limit = Some (l, r, score) →
  (start <= l ∧ l < r ∧ r <= end_ ∧ r - l <= Nat.max 1 len_limit)%nat.
Proof.
  induction fuel as [|fuel IH]; intros start end_ th l r score; cbn [find_range]; [done|].
  destruct (Nat.leb_spec end_ (start + 1)) as [|Hlt]; [done|].
  pose proof (widen_bounds sizes start wa th (Nat.min end_ (start + len_limit) - (start + 1)) (start + 1)) as Hw.
  destruct (widen _ _ _ _ _ _) as [r0 sc|r0].
  - intros [= <- <- <-]. lia.
  - set (mx := max_size (slice sizes start r0)). set (idx := position mx (slice sizes start r0)).
    assert (Hidx : (start + idx <= end_)%nat).
    { assert (Hp : ∀ x l', (position x l' <= length l')%nat).
      { intros x l'. induction l' as [|y l' IHl]; simpl; [lia|]. case_if; lia. }
      specialize (Hp mx (slice sizes start r0)). unfold idx. unfold slice in Hp at 2.
      rewrite length_take in Hp. lia. }
    destruct (find_range fuel sizes start (start + idx) mx wa len_limit) as [[[l1 r1] s1]|] eqn:E1.
    + intros [= <- <- <-]. apply IH in E1. lia.
    + intros E2. apply IH in E2. lia.
Qed.

(** The maximum of a non-empty list of sizes is one of them. *)
Lemma max_size_in l : l ≠ [] → Forall (λ n, 0 <= n) l → max_size l ∈ l.
Proof.
  intros Hne Hall. induction Hall as [|x l Hx Hall IH]; [done|]. unfold max_size in *. cbn [foldr].
  destruct l as [|y l]; [simpl; rewrite Z.max_l by lia; lmem|].
  destruct (Z.max_spec x (foldr Z.max 0 (y :: l))) as [[_ ->]|[_ ->]].
  - apply elem_of_cons. right. by apply IH.
  - apply list_elem_of_here.
Qed.

Lemma position_lt x l : x ∈ l → (position x l < length l)%nat.
Proof.
  induction l as [|y l IH]; [by intros ?%elem_of_nil|]. simpl. destruct (Z.eqb_spec x y); [lia|].
  intros [->|Hx]%elem_of_cons; [done|]. specialize (IH Hx). lia.
Qed.

(** Enough fuel is enough: the search over [start..end] recurses into shorter ranges. *)
Lemma find_range_fuel sizes wa len_limit : Forall (λ n, 0 <= n) sizes →
  ∀ fuel fuel' start end_ th, (end_ <= length sizes)%nat →
  (end_ - start < fuel)%nat → (end_ - start < fuel')%nat →
  find_range fuel sizes start end_ th wa len_limit = find_range fuel' sizes start end_ th wa len_limit.
Proof.
  intros Hall. induction fuel as [|fuel IH]; intros [|fuel'] start end_ th Hlen Hf Hf'; [lia..|].
  cbn [find_range]. destruct (Nat.leb_spec end_ (start + 1)) as [|Hlt]; [done|].
  pose proof (widen_bounds sizes start wa th (Nat.min end_ (start + len_limit) - (start + 1)) (start + 1)) as Hw.
  destruct (widen _ _ _ _ _ _) as [r0 sc|r0]; [done|].
  set (sl := slice sizes start r0).
  assert (Hsl : length sl = (r0 - start)%nat).
  { unfold sl, slice. rewrite length_take, length_drop. lia. }
  assert (Hpos : (position (max_size sl) sl < r0 - start)%nat).
  { rewrite <-Hsl. apply position_lt, max_size_in; [intros E; rewrite E in Hsl; simpl in Hsl; lia|].
    unfold sl, slice. by apply Forall_take, Forall_drop. }
  rewrite (IH fuel' start (start + position (max_size sl) sl)%nat) by lia.
  destruct (find_range fuel' _ start _ _ _ _); [done|]. apply IH; lia.
Qed.

(** ** The scan *)

(** A part of the chunks, newest first, without gaps. *)
Definition gapless_down (part : list Chunk) : Prop := adjacent (λ b a, last_block a + 1 = first_block b) part.
Definition gapless (part : list Chunk) : Prop := adjacent (λ a b, last_block a + 1 = first_block b) part.

(** A run of sizes against the chunks it was read from. *)
Definition run_ok (size : Chunk → Z → Prop) (limit : Z) (part : list Chunk) (run : list Z) : Prop :=
  Forall2 size part run ∧ gapless_down part ∧ Forall (λ n, 0 <= n) run ∧
  ((2 <= length run)%nat → Forall (λ n, n < limit) run).

Record scan_inv (size : Chunk → Z → Prop) (limit : Z) (s : plan_state) (seen : list Chunk) : Prop := {
  sc_parts : ∃ parts, concat parts = seen ∧ Forall2 (run_ok size limit) parts (ps_chunk_data_sizes s);
  sc_last : ∃ runs run, ps_chunk_data_sizes s = runs ++ [run] ∧ Forall (λ n, n < limit) run;
  sc_first : ps_first_block s = first_block <$> last seen;
  sc_applicable : ps_first_applicable_block s = from_option first_block u64_max (last seen)
}.

Lemma scan_start size limit : scan_inv size limit plan_start [].
Proof.
  constructor; try done.
  - exists [[]]. split; [done|]. constructor; [|constructor]. split_and!; try done; simpl; lia.
  - exists [], []. by split.
Qed.

Lemma push_last_snoc n runs run : push_last n (runs ++ [run]) = runs ++ [run ++ [n]].
Proof.
  induction runs as [|r runs IH]; [done|]. cbn [app push_last]. destruct (runs ++ [run]) eqn:E; [by destruct runs|].
  by rewrite IH.
Qed.

Lemma gapless_snoc part c : gapless_down part →
  (∀ b, last part = Some b → last_block c + 1 = first_block b) → gapless_down (part ++ [c]).
Proof. intros Hg Hb. apply adjacent_snoc. split; [done|]. destruct (last part); [by apply Hb|done]. Qed.

Section facts.
Context {M C T : Type} `{HK : KvStore M C} `{HL : !KvStoreLaws M C}
  `{HB : Borsh} `{HBL : !BorshLaws} `{HT : TableReader T} `{HS : !TableStore M T}.
Context (schema : T → Schema) (limit : Z) (wa_limit : f64) (len_limit : nat).
Implicit Types (d : db M) (id : DatasetId) (s : plan_state).

(** The size of a chunk: the rows of its largest table, or its blocks. *)
Definition chunk_size d (c : Chunk) (n : Z) : Prop :=
  ∃ n0, fold_res (λ acc p, r ← open_table (d CF_TABLES) p.2; Ok (Z.max (Z.of_nat (num_rows (r : T))) acc)) (tables c) 0
        = Ok n0 ∧
    n = if n0 =? 0 then blocks_count c else n0.

Lemma scan_tables_rows d le ts : ∀ n b m n' b' m', scan_tables schema d le ts n b m = Ok (n', b', m') →
  n <= n' ∧
  fold_res (λ acc p, r ← open_table (d CF_TABLES) p.2; Ok (Z.max (Z.of_nat (num_rows (r : T))) acc)) ts n = Ok n'.
Proof.
  induction ts as [|[key t] ts IH]; intros n b m n' b' m' Ho; cbn [scan_tables] in Ho; [by simplify_eq|].
  apply bind_Ok in Ho as (r & Hr & Ho). apply IH in Ho as [Hle Hf]. split; [lia|].
  cbn [fold_res]. simpl. rewrite Hr. cbn [mbind res_bind]. exact Hf.
Qed.

Lemma blocks_count_nonneg c : 0 <= blocks_count c.
Proof. destruct c; simpl; apply u64_add_ok. Qed.

(** A chunk joins the last run, *)
Lemma scan_join size s seen el n : scan_inv size limit s seen → size el n → 0 <= n < limit →
  (∀ b, ps_first_block s = Some b → last_block el + 1 = b) →
  ∀ m, scan_inv size limit
         (mkPlanState (first_block el) (push_last n (ps_chunk_data_sizes s)) m (Some (first_block el))) (seen ++ [el]).
Proof.
  intros [(parts & Hc & Hp) (rs & run & Hr & Hlim) Hf _] Hel Hn Hcont m.
  rewrite Hr in *. apply Forall2_app_inv_r in Hp as (ps & pl & Hps & Hpl & ->).
  apply Forall2_cons_inv_r in Hpl as (part & tl & (Hl & Hg & H0 & _) & Hnil & ->).
  apply Forall2_nil_inv_r in Hnil as ->. rewrite concat_app in Hc. simpl in Hc. rewrite app_nil_r in Hc.
  constructor; cbn [ps_chunk_data_sizes ps_first_block ps_first_applicable_block]; rewrite ?push_last_snoc, ?last_snoc;
    try done.
  - exists (ps ++ [part ++ [el]]). split; [rewrite concat_app; simpl; by rewrite app_nil_r, app_assoc, Hc|].
    apply Forall2_app; [done|]. constructor; [|constructor]. split_and!.
    + apply Forall2_app; [done|by constructor].
    + apply gapless_snoc; [done|]. intros b Hb. apply Hcont. rewrite Hf, <-Hc, last_app, Hb. done.
    + apply Forall_app. split; [done|]. constructor; [lia|constructor].
    + intros _. apply Forall_app. split; [done|]. constructor; [lia|constructor].
  - eexists rs, _. split; [done|]. apply Forall_app. split; [done|]. constructor; [lia|constructor].
Qed.

(** or starts a new one, which is closed at once when the chunk is full. *)
Lemma scan_open size s seen el n : scan_inv size limit s seen → size el n → 0 <= n →
  ∀ m, scan_inv size limit (mkPlanState (first_block el)
         (if n >=? limit then (ps_chunk_data_sizes s ++ [[n]]) ++ [[]] else ps_chunk_data_sizes s ++ [[n]])
         m (Some (first_block el))) (seen ++ [el]).
Proof.
  intros [(parts & Hc & Hp) _ _ _] Hel Hn m.
  assert (Hone : run_ok size limit [el] [n]) by (split_and!; try done; [by constructor|by constructor|simpl; lia]).
  assert (Hnil : run_ok size limit [] []) by (split_and!; try done; simpl; lia).
  constructor; cbn [ps_chunk_data_sizes ps_first_block ps_first_applicable_block]; rewrite ?last_snoc; try done.
  - destruct (n >=? limit).
    + exists ((parts ++ [[el]]) ++ [[]]). split; [rewrite !concat_app; simpl; by rewrite Hc, app_nil_r|].
      apply Forall2_app; [apply Forall2_app; [done|]|]; by constructor.
    + exists (parts ++ [[el]]). split; [rewrite !concat_app; simpl; by rewrite Hc|].
      apply Forall2_app; [done|]. by constructor.
  - destruct (Z.geb_spec n limit); [by eexists _, []|]. eexists _, [n]. split; [done|]. constructor; [lia|constructor].
Qed.

Lemma scan_chunk_inv d el s s' seen : scan_inv (chunk_size d) limit s seen → chunk_ok el →
  scan_chunk schema limit d el s = Ok s' → scan_inv (chunk_size d) limit s' (seen ++ [el]).
Proof.
  intros Hinv Hel. unfold scan_chunk. intros Ho.
  apply bind_Ok in Ho as ([[n0 compat] schemas] & Hst & Ho). apply scan_tables_rows in Hst as [Hn0 Hrows].
  set (n := if n0 =? 0 then blocks_count el else n0) in *.
  assert (Hn : 0 <= n) by (unfold n; pose proof (blocks_count_nonneg el); case_if; lia).
  assert (Hsz : chunk_size d el n) by (by exists n0).
  injection Ho as <-.
  destruct (compat && _ && (n <? limit))%bool eqn:E.
  - apply andb_true_iff in E as [E Hlt]. apply andb_true_iff in E as [_ Hcont]. apply Z.ltb_lt in Hlt.
    destruct (Z.geb_spec n limit); [lia|]. apply scan_join; [done|done|lia|]. intros b Hb. rewrite Hb in Hcont.
    apply Z.eqb_eq in Hcont. rewrite <-Hcont. unfold chunk_ok, u64_max in *. rewrite u64_add_small; unfold u64_max; lia.
  - by apply scan_open.
Qed.

Lemma scan_chunks_inv d cs : ∀ horizon s s' seen, scan_inv (chunk_size d) limit s seen → Forall chunk_ok cs →
  scan_chunks schema limit d horizon (Ok <$> cs) s = Ok s' →
  scan_inv (chunk_size d) limit s' (seen ++ take horizon cs).
Proof.
  induction cs as [|c cs IH]; intros horizon s s' seen Hinv Hall Ho; cbn [fmap list_fmap scan_chunks mbind res_bind] in Ho.
  - injection Ho as <-. by rewrite take_nil, app_nil_r.
  - apply Forall_cons in Hall as [Hc Hall]. destruct horizon as [|horizon].
    + injection Ho as <-. by rewrite take_0, app_nil_r.
    + apply bind_Ok in Ho as (s1 & Hs & Ho). apply (scan_chunk_inv _ _ _ _ _ Hinv Hc) in Hs.
      simpl. rewrite cons_middle, app_assoc. by apply (IH _ s1).
Qed.

(** ** The choice *)

(** A run read oldest first. *)
Definition run_up (size : Chunk → Z → Prop) (part : list Chunk) (run : list Z) : Prop :=
  Forall2 size part run ∧ gapless part ∧ Forall (λ n, 0 <= n) run ∧
  ((2 <= length run)%nat → Forall (λ n, n < limit) run).

Lemma run_ok_up size part run : run_ok size limit part run → run_up size (reverse part) (reverse run).
Proof.
  intros (Hl & Hg & H0 & H2). split_and!.
  - by apply Forall2_reverse.
  - apply adjacent_reverse in Hg. exact Hg.
  - by apply Forall_reverse.
  - rewrite length_reverse. intros H. by apply Forall_reverse, H2.
Qed.

Lemma take_full_bounds run room : ∀ right_, (right_ <= take_full limit run right_ room <= right_ + room)%nat.
Proof.
  induction room as [|room IH]; intros right_; cbn [take_full]; case_if; try lia. specialize (IH (S right_)). lia.
Qed.

(** A contiguous part of a run of at least two chunks. *)
Definition chosen (size : Chunk → Z → Prop) (m : list Chunk) : Prop :=
  gapless m ∧ ∀ c, c ∈ m → ∃ n, size c n ∧ 0 <= n < limit.

Lemma run_part size part run left_ right_ : run_up size part run → (2 <= length run)%nat →
  (left_ <= right_ <= length run)%nat →
  ∃ l m k, part = l ++ m ++ k ∧ length l = left_ ∧ length m = (right_ - left_)%nat ∧ chosen size m.
Proof.
  intros (Hsz & Hg & H0 & H2) Hlen Hb. pose proof (Forall2_length _ _ _ Hsz) as Hl. specialize (H2 Hlen).
  assert (Hpart : part = take left_ part ++ take (right_ - left_) (drop left_ part) ++ drop (right_ - left_) (drop left_ part))
    by (by rewrite (take_drop (right_ - left_)), take_drop).
  eexists _, _, _. split; [exact Hpart|]. split_and!.
  - rewrite length_take. lia.
  - rewrite length_take, length_drop. lia.
  - split.
    + rewrite Hpart in Hg. unfold gapless in *. apply adjacent_app in Hg as (_ & Hg & _).
      by apply adjacent_app in Hg as (Hg & _ & _).
    + intros c Hc. assert (Hin : c ∈ part) by (rewrite Hpart; set_solver).
      apply list_elem_of_lookup_1 in Hin as [i Hi]. destruct (Forall2_lookup_l _ _ _ _ _ Hsz Hi) as (n & Hn & Hs).
      exists n. split; [done|]. rewrite Forall_lookup in H0, H2. specialize (H0 _ _ Hn). specialize (H2 _ _ Hn).
      simpl in *. lia.
Qed.

Lemma choose_run_spec size parts runs : Forall2 (run_up size) parts runs → ∀ skip0 skip n,
  choose_run limit wa_limit len_limit runs skip0 = (skip, n) →
  ∃ l m k, concat parts = l ++ m ++ k ∧ skip = (skip0 + length l)%nat ∧ n = length m ∧ chosen size m.
Proof.
  assert (Hnil : chosen size []) by (split; [done|]; intros c Hc; by apply elem_of_nil in Hc).
  induction 1 as [|part run parts runs Hrun Hall IH]; intros skip0 skip n Ho; cbn [choose_run] in Ho.
  { injection Ho as <- <-. exists [], [], []. simpl. split_and!; done || lia. }
  pose proof (Forall2_length _ _ _ (proj1 Hrun)) as Hl.
  assert (Hskip : choose_run limit wa_limit len_limit runs (skip0 + length run) = (skip, n) →
    ∃ l m k, concat (part :: parts) = l ++ m ++ k ∧ skip = (skip0 + length l)%nat ∧ n = length m ∧ chosen size m).
  { intros Hr. destruct (IH _ _ _ Hr) as (l & m & k & E & -> & -> & Hch). exists (part ++ l), m, k.
    simpl. rewrite E, <-app_assoc, length_app. split_and!; try done. lia. }
  destruct (Nat.ltb_spec (length run) 2) as [|Hlen]; [by apply Hskip|].
  assert (Hpick : ∀ left_ right_, (left_ <= right_ <= length run)%nat → skip = (skip0 + left_)%nat → n = (right_ - left_)%nat →
    ∃ l m k, concat (part :: parts) = l ++ m ++ k ∧ skip = (skip0 + length l)%nat ∧ n = length m ∧ chosen size m).
  { intros left_ right_ Hb -> ->. destruct (run_part size part run left_ right_ Hrun Hlen Hb) as (l & m & k & E & El & Em & Hch).
    exists l, m, (k ++ concat parts). simpl. rewrite E, <-!app_assoc, El, Em. done. }
  destruct runs as [|run' runs].
  - destruct (find_range _ _ _ _ _ _ _) as [[[l r] sc]|] eqn:Ef; [|by apply Hskip].
    injection Ho as <- <-. apply find_range_bounds_gen in Ef. apply (Hpick l r); [lia|done|done].
  - injection Ho as <- <-. pose proof (take_full_bounds run (length run - 1) 1) as Hb.
    apply (Hpick 0%nat (take_full limit run 1 (length run - 1))); [lia|lia|lia].
Qed.
Lemma concat_reverse {A} (ls : list (list A)) : concat (reverse (reverse <$> ls)) = reverse (concat ls).
Proof.
  induction ls as [|l ls IH]; [done|]. rewrite fmap_cons, reverse_cons, concat_app, IH. simpl.
  by rewrite app_nil_r, reverse_app.
Qed.

(** The chunks that reach the first block of a suffix are the suffix. *)
Lemma suffix_window old new_ : chain (old ++ new_) → ∀ a, head new_ = Some a →
  filter (λ c, in_window (first_block a) None c = true) (old ++ new_) = new_.
Proof.
  intros Hch a Ha. assert (Hw : ∀ c, in_window (first_block a) None c = true ↔ first_block a <= last_block c).
  { intros c. unfold in_window. by rewrite andb_true_r, Z.leb_le. }
  pose proof (chain_sorted _ Hch) as Hs. rewrite filter_app, (list_filter_none _ old), list_filter_all; [done| |].
  - intros c Hc. apply Hw. apply chain_app in Hch as [_ Hch]. pose proof (chain_elem_ok _ c Hch Hc) as Hoc.
    unfold chunk_ok in Hoc. destruct new_ as [|x new_]; [done|]. simplify_eq/=.
    apply elem_of_cons in Hc as [->|Hc]; [lia|].
    pose proof (chain_elem_ok _ a Hch (list_elem_of_here _ _)) as Hoa. unfold chunk_ok in Hoa.
    pose proof (StronglySorted_elem _ _ _ (chain_sorted _ Hch) c Hc) as Hlt. simpl in Hlt. lia.
  - intros c Hc Hin%Hw. assert (Hca : last_block c < first_block a); [|lia].
    apply head_Some_elem in Ha. clear -Hs Ha Hc. induction old as [|x old IH]; simpl in Hs; [by apply elem_of_nil in Hc|].
    apply StronglySorted_inv in Hs as [Hs Hx]. apply elem_of_cons in Hc as [->|Hc]; [|auto].
    rewrite Forall_forall in Hx. apply Hx. set_solver.
Qed.

Lemma applicable_chunks d id old new_ : chunks_cf_ok (d CF_CHUNKS) → dataset_id_ok id →
  chunks_of (d CF_CHUNKS) id = old ++ new_ → chain (old ++ new_) → (new_ = [] → old = []) →
  list_chunks (d CF_CHUNKS) id (from_option first_block u64_max (head new_)) None = Ok <$> new_.
Proof.
  intros Hok Hid Hcs Hch Hemp.
  assert (Hu : u64_ok (from_option first_block u64_max (head new_))).
  { destruct (head new_) as [a|] eqn:Ha; simpl; [|split; unfold u64_max; lia].
    apply chunk_ok_u64. eapply chain_elem_ok; [exact Hch|]. apply head_Some_elem in Ha. set_solver. }
  rewrite list_chunks_window by (done || by rewrite Hcs). rewrite Hcs.
  destruct (head new_) as [a|] eqn:Ha; cbn [from_option]; [by rewrite (suffix_window old new_ Hch a Ha)|].
  destruct new_; [|done]. by rewrite Hemp.
Qed.

(** Once the scan succeeds there is a plan. *)
Lemma plan_of_scan d id cs s : chunks_cf_ok (d CF_CHUNKS) → dataset_id_ok id →
  chunks_of (d CF_CHUNKS) id = cs → chain cs →
  scan_chunks schema limit d MERGE_HORIZON (Ok <$> reverse cs) plan_start = Ok s →
  ∃ merge l k, prepare_merge_plan schema limit wa_limit len_limit id d = Ok merge ∧
    cs = l ++ merge ++ k ∧ (length (merge ++ k) <= MERGE_HORIZON)%nat ∧ chosen (chunk_size d) merge.
Proof.
  intros Hok Hid Hcs Hch Hs. unfold prepare_merge_plan. rewrite list_all_rev, Hcs, Hs by done. cbn [mbind res_bind].
  apply (scan_chunks_inv d (reverse cs) MERGE_HORIZON plan_start s [] (scan_start _ _)) in Hs;
    [|by apply Forall_reverse; destruct Hch].
  simpl in Hs. set (seen := take MERGE_HORIZON (reverse cs)) in *.
  destruct Hs as [(parts & Hc & Hp) _ _ Happ].
  set (runs := reverse (reverse <$> ps_chunk_data_sizes s)) in *.
  assert (Hup : Forall2 (run_up (chunk_size d)) (reverse (reverse <$> parts)) runs).
  { apply Forall2_reverse, Forall2_fmap. eapply Forall2_impl; [exact Hp|]. intros part run. apply run_ok_up. }
  assert (Ecs : cs = reverse (drop MERGE_HORIZON (reverse cs)) ++ reverse seen).
  { rewrite <-reverse_app. unfold seen. by rewrite take_drop, reverse_involutive. }
  assert (Hlist : list_chunks (d CF_CHUNKS) id (ps_first_applicable_block s) None = Ok <$> reverse seen).
  { rewrite Happ. replace (last seen) with (head (reverse seen)) by apply head_reverse.
    apply applicable_chunks with (old := reverse (drop MERGE_HORIZON (reverse cs))); try done; try congruence.
    intros En. assert (seen = []) as Hseen by (by apply (inj reverse)).
    unfold seen in Hseen. destruct (reverse cs) as [|x r] eqn:Er; [done|]. discriminate Hseen. }
  destruct (choose_run limit wa_limit len_limit runs 0) as [skip n] eqn:Ech. rewrite Hlist.
  destruct (choose_run_spec _ _ _ Hup _ _ _ Ech) as (l & m & k & E & -> & -> & Hchosen).
  rewrite concat_reverse, Hc in E. rewrite E. simpl.
  rewrite !fmap_app, drop_app_length' by (by rewrite length_fmap).
  rewrite take_app_length' by (by rewrite length_fmap). rewrite collect_Ok.
  exists m, (reverse (drop MERGE_HORIZON (reverse cs)) ++ l), k. split_and!; [done| | |done].
  - rewrite Ecs at 1. by rewrite E, app_assoc.
  - assert (Hlen : length (l ++ m ++ k) = length seen) by (by rewrite <-E, length_reverse).
    rewrite length_app in Hlen. unfold seen in Hlen. rewrite length_take in Hlen. lia.
Qed.

Lemma prepare_plan_spec d id cs merge : chunks_cf_ok (d CF_CHUNKS) → dataset_id_ok id →
  chunks_of (d CF_CHUNKS) id = cs → chain cs →
  prepare_merge_plan schema limit wa_limit len_limit id d = Ok merge →
  ∃ l k, cs = l ++ merge ++ k ∧ (length (merge ++ k) <= MERGE_HORIZON)%nat ∧ chosen (chunk_size d) merge.
Proof.
  intros Hok Hid Hcs Hch Ho. pose proof Ho as Hs. unfold prepare_merge_plan in Hs.
  rewrite list_all_rev, Hcs in Hs by done. apply bind_Ok in Hs as (s & Hs & _).
  destruct (plan_of_scan d id cs s Hok Hid Hcs Hch Hs) as (m & l & k & E & H1 & H2 & H3).
  rewrite Ho in E. injection E as ->. by exists l, k.
Qed.
End facts.
