(* ===== verification/CompactionProps.v ===== *)
(** * CompactionProps: what compaction guarantees

    The plan, the transaction and the whole operation, with concrete runs. *)

From stdpp Require Import gmap.
From S2P Require Import Prelude Bytes Data Kv ChunkIter Tables Chain Tx Concrete.
From S2P Require Import TxSpec UpdateSpec Retry PrefixSpec Cleanup Db DbSpec WriteController ControllerSpec.
From S2P Require Import Schema Compaction CompactionSpec.

Section props.
Context {M C T : Type} `{HK : KvStore M C} `{HL : !KvStoreLaws M C}
  `{HB : Borsh} `{HBL : !BorshLaws} `{HT : TableReader T} `{HS : !TableStore M T}.
Context (schema : T → Schema) (limit : Z) (wa_limit : f64) (len_limit : nat).
Implicit Types (d : db M) (id : DatasetId) (tx : Tx M).

(** Every table of every chunk can be opened. *)
Definition readable d (cs : list Chunk) : Prop :=
  ∀ c p, c ∈ cs → p ∈ tables c → ∃ t : T, open_table (d CF_TABLES) p.2 = Ok t.

Lemma scan_tables_total d le ts : (∀ p, p ∈ ts → ∃ t : T, open_table (d CF_TABLES) p.2 = Ok t) →
  ∀ n b m, ∃ r, scan_tables schema d le ts n b m = Ok r.
Proof.
  induction ts as [|[key t] ts IH]; intros Ht n b m; [by eexists|]. cbn [scan_tables].
  destruct (Ht (key, t) ltac:(lmem)) as [r Hr]. simpl in Hr. rewrite Hr. cbn [mbind res_bind].
  apply IH. intros p Hp. apply Ht. lmem.
Qed.

Lemma scan_chunks_total d cs : readable d cs → ∀ horizon s, ∃ s', scan_chunks schema limit d horizon (Ok <$> cs) s = Ok s'.
Proof.
  induction cs as [|c cs IH]; intros Hr horizon s; [by eexists|]. cbn [fmap list_fmap scan_chunks mbind res_bind].
  destruct horizon as [|horizon]; [by eexists|]. unfold scan_chunk.
  match goal with |- context [scan_tables schema d ?le ?ts ?n ?b ?m] =>
    destruct (scan_tables_total d le ts (λ p Hp, Hr c p (list_elem_of_here _ _) Hp) n b m) as [[[? ?] ?] ->] end.
  cbn [mbind res_bind]. apply IH. intros c' p Hc Hp. apply (Hr c' p); [lmem|done].
Qed.

(** The merge plan is sound.  Over a dataset whose chunks form a chain with readable
    tables a plan is always found, and it is a contiguous part of at most the 500 newest
    chunks in which every chunk starts right after its predecessor and holds fewer rows than
    a full chunk. *)
Theorem merge_plan_sound d id cs : chunks_cf_ok (d CF_CHUNKS) → dataset_id_ok id →
  chunks_of (d CF_CHUNKS) id = cs → chain cs → readable d cs →
  ∃ merge l k, prepare_merge_plan schema limit wa_limit len_limit id d = Ok merge ∧
    cs = l ++ merge ++ k ∧ (length (merge ++ k) <= MERGE_HORIZON)%nat ∧ gapless merge ∧
    ∀ c, c ∈ merge → ∃ n, chunk_size d c n ∧ 0 <= n < limit.
Proof.
  intros Hok Hid Hcs Hch Hr.
  destruct (scan_chunks_total d (reverse cs)) with (horizon := MERGE_HORIZON) (s := plan_start) as [s Hs].
  { intros c p Hc. apply Hr. by rewrite elem_of_reverse in Hc. }
  destruct (plan_of_scan schema limit wa_limit len_limit d id cs s Hok Hid Hcs Hch Hs)
    as (merge & l & k & E & Ecs & Hlen & Hg & Hsz). by exists merge, l, k.
Qed.

(** The range search respects its bounds: what it returns lies inside the searched part
    of the run, is not empty and is no longer than the length limit (or a single chunk), and
    the recursion ends within the fuel the plan gives it. *)
Theorem find_range_bounds sizes start end_ th l r score :
  Forall (λ n, 0 <= n) sizes → (end_ <= length sizes)%nat →
  (∀ fuel, (range_fuel start end_ <= fuel)%nat →
     find_range fuel sizes start end_ th wa_limit len_limit
     = find_range (range_fuel start end_) sizes start end_ th wa_limit len_limit) ∧
  (find_range (range_fuel start end_) sizes start end_ th wa_limit len_limit = Some (l, r, score) →
   (start <= l ∧ l < r ∧ r <= end_ ∧ r - l <= Nat.max 1 len_limit)%nat).
Proof.
  intros Hall Hlen. split.
  - intros fuel Hf. unfold range_fuel in *. apply find_range_fuel; [done|done|lia|lia].
  - apply find_range_bounds_gen.
Qed.

(** ** The transaction *)

(** The compaction transaction tolerates a stale plan.  Whatever the dataset looks like
    when it runs, it either finds the planned chunks still there, in a row, and replaces
    exactly them by one chunk over the same blocks with the same first parent and last hash,
    bumping the version and touching no other dataset; or it cancels without staging a
    write, and does so only when the dataset is gone or the planned run is. *)
Theorem compaction_replaces_or_cancels d id a z merge ts tx st tx' :
  chunks_cf_ok (tx_view tx CF_CHUNKS) → dataset_id_ok id → chain (chunks_of (tx_view tx CF_CHUNKS) id) →
  chain merge → head merge = Some a → last merge = Some z →
  compaction_tx d id a z merge (make_chunk a z ts) tx = Ok (st, tx') →
  match st with
  | CompactionOk _ => ∃ l k label bs,
      chunks_of (tx_view tx CF_CHUNKS) id = l ++ merge ++ k ∧
      chunks_of (tx_view tx' CF_CHUNKS) id = l ++ [make_chunk a z ts] ++ k ∧
      covers_run (make_chunk a z ts) merge ∧ chain (l ++ [make_chunk a z ts] ++ k) ∧
      kv_get (tx_view tx CF_DATASETS) id = Some bs ∧ label_from_slice bs = Some label ∧
      kv_get (tx_view tx' CF_DATASETS) id = Some (label_to_vec (bump_version label)) ∧
      (∀ id', dataset_id_ok id' → id' ≠ id →
         chunks_of (tx_view tx' CF_CHUNKS) id' = chunks_of (tx_view tx CF_CHUNKS) id' ∧
         kv_get (tx_view tx' CF_DATASETS) id' = kv_get (tx_view tx CF_DATASETS) id')
  | Canceled => tx_view tx' = tx_view tx ∧
      (kv_get (tx_view tx CF_DATASETS) id = None ∨
       ¬ ∃ l k, chunks_of (tx_view tx CF_CHUNKS) id = l ++ merge ++ k)
  | NotingToCompact => False
  end.
Proof.
  intros Hok Hid Hch Hm Ha Hz Ho. pose proof (make_chunk_covers a z merge ts Ha Hz) as Hcov.
  apply (compaction_tx_spec d id a z merge _ tx st tx' Hok Hid Hch Hm Ha Hz Hcov) in Ho as (_ & _ & Ho).
  destruct st; [|done..]. destruct Ho as (l & k & label & bs & E1 & E2 & _ & E3). exists l, k, label, bs.
  split_and!; try done; try (by apply E3). rewrite E1 in Hch. by apply (replace_chain l merge).
Qed.

(** ** The whole operation *)

Context (env : db M → nat → attempt_env M) (counters : tx_counters).
Context (merge_tables : list T → db M → db M * res TableId).
(** Writing tables touches neither labels nor chunks. *)
Context (merge_frame : ∀ ts d d' r, merge_tables ts d = (d', r) →
  d' CF_DATASETS = d CF_DATASETS ∧ d' CF_CHUNKS = d CF_CHUNKS).

Definition same_catalog d d' : Prop := d' CF_DATASETS = d CF_DATASETS ∧ d' CF_CHUNKS = d CF_CHUNKS.

Lemma merge_all_tables_frame d0 merge names : ∀ ts d d' r,
  merge_all_tables merge_tables d0 merge names ts d = (d', r) → same_catalog d d'.
Proof.
  induction names as [|name names IH]; intros ts d d' r; cbn [merge_all_tables]; [by intros [= <- _]|].
  destruct (collect _) as [readers|e|m]; [|by intros [= <- _]..].
  destruct (merge_tables readers d) as [d1 [t|e|m]] eqn:E; apply merge_frame in E as [E1 E2];
    [|by intros [= <- _]..]. intros Ho. apply IH in Ho as [F1 F2]. split; congruence.
Qed.

Lemma abandon_frame p new d d' r : quiet env → abandon_new_chunk_tables env counters p new d = (d', r) →
  same_catalog d d'.
Proof.
  intros Hq Ho. apply (exec_spec _ _ _ _ _ _ _ _ _ Hq) in Ho. destruct r as [[]|e|m]; [|by subst..].
  destruct Ho as (tx & [= <-] & ->).
  set (tx1 := foldl (λ tx id, delete_table id tx) (tx_begin d false false) (tables new).*2).
  assert (Hf : frame [CF_DELETED_TABLES] (tx_begin d false false) tx1).
  { unfold tx1. generalize (tx_begin d false false). induction (tables new).*2 as [|t l IH]; intros tx; [apply frame_refl|].
    simpl. eapply frame_trans; [|apply IH]. apply (frame_stage _ (Put CF_DELETED_TABLES t [])). simpl. lmem. }
  rewrite (commit_view d) by (rewrite (frame_db _ _ _ Hf); done).
  split; rewrite (frame_view _ _ _ _ Hf) by set_solver; done.
Qed.

Lemma fin_window_replace fin l merge k new : covers_run new merge →
  fin_in_window fin (l ++ merge ++ k) → fin_in_window fin (l ++ [new] ++ k).
Proof.
  intros (a & z & Ha & Hz & E1 & E2 & _) Hf. destruct fin as [f|]; [|done].
  destruct Hf as (x & y & Hx & Hy & Hin). rewrite !head_app, Ha in Hx. rewrite !last_app, Hz in Hy.
  unfold fin_in_window. rewrite !head_app, !last_app. simpl.
  destruct (head l); destruct (last k); simplify_eq/=; eexists _, _; split_and!; try done; lia.
Qed.

(** C25: compaction is transparent (INV-17).  Without other writers, an operation that
    reports success has replaced one gapless run of at least two chunks by a single chunk
    over the same blocks, with the same first parent and last hash: the window, its ends and
    the finalized head are what they were and only the label version advanced.  Any other
    outcome, an error included, leaves labels and chunks of every dataset untouched. *)
Theorem compaction_transparent p id d d' r l cs :
  quiet env → dataset_id_ok id → ds_state d id l cs →
  execute schema limit wa_limit len_limit env counters merge_tables p id d = (d', r) →
  match r with
  | Ok (CompactionOk _) => ∃ a b merge new,
      cs = a ++ merge ++ b ∧ (2 <= length merge)%nat ∧ gapless merge ∧ covers_run new merge ∧
      ds_state d' id (bump_version l) (a ++ [new] ++ b) ∧
      (∀ id', dataset_id_ok id' → id' ≠ id →
         chunks_of (d' CF_CHUNKS) id' = chunks_of (d CF_CHUNKS) id' ∧
         kv_get (d' CF_DATASETS) id' = kv_get (d CF_DATASETS) id')
  | _ => same_catalog d d'
  end.
Proof.
  intros Hq Hid Hs. unfold execute. pose proof (ds_chain _ _ _ _ Hs) as Hch. pose proof (ds_cf _ _ _ _ Hs) as Hcf.
  destruct (prepare_merge_plan _ _ _ _ id d) as [merge|e|m] eqn:Ep; [|by intros [= <- <-]..].
  destruct (prepare_plan_spec schema limit wa_limit len_limit d id cs merge Hcf Hid (ds_chunks _ _ _ _ Hs) Hch Ep)
    as (l0 & k0 & Ecs & _ & Hg & _).
  destruct merge as [|c1 [|c2 rest]]; [by intros [= <- <-]..|]. set (merge := c1 :: c2 :: rest) in *.
  assert (Hz : ∃ z, last merge = Some z) by (destruct (last merge) eqn:E; [eauto|by apply last_None in E]).
  destruct Hz as [z Hz]. cbv zeta. rewrite Hz. change (default c1 (Some z)) with z.
  assert (Hm : chain merge).
  { rewrite Ecs in Hch. apply chain_app in Hch as [_ Hch]. by apply chain_app in Hch as [? _]. }
  destruct (merge_all_tables _ d merge _ [] d) as [d1 r1] eqn:Em. apply merge_all_tables_frame in Em as [F1 F2].
  destruct r1 as [ts|e|m]; [|by intros [= <- <-]..].
  pose proof (make_chunk_covers c1 z merge ts eq_refl Hz) as Hcov.
  set (new := make_chunk c1 z ts) in *.
  destruct (exec _ _ _ _ _ _ d1) as [d2 r2] eqn:Ex. apply (exec_spec _ _ _ _ _ _ _ _ _ Hq) in Ex.
  destruct r2 as [st|e|m]; cycle 1.
  { subst d2. destruct (abandon_new_chunk_tables env counters p new d1) as [d3 r3] eqn:Ea. simpl. intros [= <- <-].
    apply abandon_frame in Ea as [G1 G2]; [|done]. split; congruence. }
  { subst d2. intros [= <- <-]. by split. }
  destruct Ex as (tx & Htx & ->).
  apply (compaction_tx_spec d id c1 z merge new) in Htx as (Edb & _ & Hst); try done;
    rewrite ?view_begin; try (by rewrite ?F2); try (by rewrite F2, (ds_chunks _ _ _ _ Hs)).
  rewrite view_begin in Hst. rewrite (commit_view d1) by done.
  destruct st as [mg| |].
  - intros [= <- <-]. destruct Hst as (a & b & label & bs & E1 & E2 & E3 & E4 & E5 & E6 & E7).
    rewrite F1, F2 in *. rewrite (ds_chunks _ _ _ _ Hs) in E1.
    rewrite (ds_label _ _ _ _ Hs) in E4. injection E4 as <-. rewrite label_roundtrip in E5. injection E5 as <-.
    exists a, b, merge, new. split_and!; try done; [simpl; lia|].
    pose proof (ds_tiled _ _ _ _ Hs) as Ht. pose proof (ds_fin _ _ _ _ Hs) as Hfin. rewrite E1 in Ht, Hfin.
    constructor; try done; [by apply (replace_tiled a merge)|]. rewrite label_bump_fin.
    by apply (fin_window_replace _ a merge).
  - destruct Hst as [Ev _]. rewrite Ev. destruct (abandon_new_chunk_tables env counters p new d1) as [d3 r3] eqn:Ea.
    apply abandon_frame in Ea as [G1 G2]; [|done].
    destruct r3; intros [= <- <-]; split; congruence.
  - done.
Qed.
End props.

Module CompactionExamples.
Import Mem ForkExamples DbExamples.

Definition no_schema (t : table) : Schema := mkSchema [] ∅.
Definition t9 : TableId := replicate 16 9.
Definition merge_to_t9 (ts : list table) (d : mdb) : mdb * res TableId := (d, Ok t9).
Lemma merge_to_t9_frame ts d d' r : merge_to_t9 ts d = (d', r) →
  d' CF_DATASETS = d CF_DATASETS ∧ d' CF_CHUNKS = d CF_CHUNKS.
Proof. intros [= <- _]. done. Qed.

Lemma base_state : ds_state base_db d0 (evm_label None) [c1; c2].
Proof.
  constructor.
  - vm_compute. reflexivity.
  - exact base_ok.
  - exact base_chunks.
  - split; [repeat constructor; simpl; unfold u64_max; lia|]. simpl. split; [|done]. split; simpl; [lia|done].
  - done.
Qed.

Lemma merge_plan_sound_witness : ∃ merge l k,
  prepare_merge_plan no_schema MAX_CHUNK_SIZE WA_LIMIT COMPACTION_LEN_LIMIT d0 base_db = Ok merge ∧
  [c1; c2] = l ++ merge ++ k ∧ gapless merge.
Proof.
  destruct (merge_plan_sound no_schema MAX_CHUNK_SIZE WA_LIMIT COMPACTION_LEN_LIMIT base_db d0 [c1; c2])
    as (merge & l & k & E & Ecs & _ & Hg & _).
  - exact base_ok.
  - exact d0_ok.
  - exact base_chunks.
  - rewrite <-base_chunks. exact base_chain.
  - intros c p Hc Hp. rewrite !elem_of_cons, elem_of_nil in Hc.
    destruct Hc as [->|[->|[]]]; by apply elem_of_nil in Hp.
  - exists merge, l, k. auto.
Defined.

Lemma find_range_bounds_witness :
  find_range (range_fuel 0 3) [10; 10; 30] 0 3 MAX_CHUNK_SIZE WA_LIMIT 2 = Some (0%nat, 2%nat, 20) ∧ (0 < 2)%nat.
Proof.
  assert (E : find_range (range_fuel 0 3) [10; 10; 30] 0 3 MAX_CHUNK_SIZE WA_LIMIT 2 = Some (0%nat, 2%nat, 20))
    by (vm_compute; reflexivity). split; [exact E|].
  eapply (find_range_bounds WA_LIMIT 2 [10; 10; 30] 0 3 MAX_CHUNK_SIZE 0 2 20).
  - repeat constructor; lia.
  - simpl. lia.
  - exact E.
Defined.

Lemma compaction_transparent_witness : ∃ d' mg a b merge new,
  perform_dataset_compaction no_schema still counters0 merge_to_t9 default_policy d0 None None None base_db
    = (d', Ok (CompactionOk mg)) ∧
  [c1; c2] = a ++ merge ++ b ∧ covers_run new merge ∧ ds_state d' d0 (bump_version (evm_label None)) (a ++ [new] ++ b).
Proof.
  set (o := perform_dataset_compaction no_schema still counters0 merge_to_t9 default_policy d0 None None None base_db).
  assert (Eo : match o.2 with Ok (CompactionOk _) => true | _ => false end = true) by (vm_compute; reflexivity).
  assert (E : o = (o.1, o.2)) by apply surjective_pairing.
  destruct o.2 as [[mg| |]|e|m]; try discriminate Eo.
  pose proof (compaction_transparent no_schema MAX_CHUNK_SIZE WA_LIMIT COMPACTION_LEN_LIMIT still counters0
    merge_to_t9 merge_to_t9_frame default_policy d0 base_db o.1 (Ok (CompactionOk mg)) (evm_label None) [c1; c2]
    still_quiet d0_ok base_state E) as (a & b & merge & new & E1 & _ & _ & Hc & Hd & _).
  exists o.1, mg, a, b, merge, new. auto.
Defined.

Lemma compaction_replaces_or_cancels_witness : ∃ st tx',
  compaction_tx base_db d0 c1 c2 [c1; c2] (make_chunk c1 c2 []) base = Ok (st, tx') ∧
  match st with
  | CompactionOk _ => ∃ l k, chunks_of (tx_view tx' CF_CHUNKS) d0 = l ++ [make_chunk c1 c2 []] ++ k
  | _ => False
  end.
Proof.
  set (o := compaction_tx base_db d0 c1 c2 [c1; c2] (make_chunk c1 c2 []) base).
  assert (Eo : match o with Ok (CompactionOk _, _) => true | _ => false end = true) by (vm_compute; reflexivity).
  destruct o as [[st tx']|e|m] eqn:E; try discriminate Eo. exists st, tx'. split; [reflexivity|].
  pose proof (compaction_replaces_or_cancels base_db d0 c1 c2 [c1; c2] [] base st tx' base_ok d0_ok base_chain) as Hc.
  destruct st; try discriminate Eo. destruct Hc as (l & k & _ & _ & _ & Hk & _).
  - rewrite <-base_chunks. exact base_chain.
  - reflexivity.
  - reflexivity.
  - exact E.
  - exists l, k. exact Hk.
Defined.

(** ** Table sets that change and change back *)

Definition tx_ : TableId := replicate 16 1.
Definition ty : TableId := replicate 16 2.
Definition tz : TableId := replicate 16 3.
(** Chunks with the tables x, y, z; then x, z; then x, y. *)
Definition oldest : Chunk := ChunkV0 0 9 "a" "p" [("x", tx_); ("y", ty); ("z", tz)].
Definition middle : Chunk := ChunkV0 10 19 "b" "a" [("x", tx_); ("z", tz)].
Definition newest : Chunk := ChunkV0 20 29 "c" "b" [("x", tx_); ("y", ty)].
Definition tdb : mdb := make_db [(d0, evm_label None)] [(d0, [oldest; middle; newest])]
  [(tx_, [0; 97; 97]); (ty, [0; 97; 97]); (tz, [0; 97; 97])].

(** The scan remembers schemas of tables the last chunk does not have: after chunks with
    the tables {x,z} and {x,y} it takes a chunk with {x,y,z} for compatible with its
    successor {x,z}.  The plan merges the two, table y of the second does not exist, and the
    compaction fails. *)
Theorem plan_mixes_table_sets :
  prepare_merge_plan no_schema MAX_CHUNK_SIZE WA_LIMIT COMPACTION_LEN_LIMIT d0 tdb = Ok [oldest; middle] ∧
  table_get "y" (tables middle) = None ∧
  (perform_dataset_compaction no_schema still counters0 merge_to_t9 default_policy d0 None None None tdb).2
  = Err (EMsg "table does not exist in chunk").
Proof. split; [vm_compute; reflexivity|]. split; vm_compute; reflexivity. Qed.
End CompactionExamples.
