(* ===== verification/Ingest.v ===== *)
(** * Ingest: batching the block stream into chunks

    Models crates/hotblocks/src/dataset_controller/ingest_generic.rs: [DataBuilder], which
    buffers rows in memory and spills them to a processor, and [IngestGeneric], the task
    that turns the events of a data source into messages for the write controller.

    The task is a state passing program: the channel to the controller is the list of
    messages sent so far, and the channel is open as long as [accepts] says so.  The chunk
    builder, a trait in crates/data-core/src/chunk_builder.rs, is the class [ChunkBuilder];
    its laws, [ChunkBuilderLaws], say which blocks a builder and a processor hold. *)

From stdpp Require Import list.
From S2P Require Import Prelude Bytes Data Kv ChunkIter Tables Chain Tx Retry.
From S2P Require Import Cleanup Db WriteController.

(** ** The interfaces *)

(** [sqd_primitives::Block]; a [DataMask] is a 32-bit word. *)
Class Block (B : Type) : Type := {
  block_number : B → Z;
  block_hash : B → string;
  block_parent_hash : B → string;
  block_timestamp : B → option Z;
  data_availability_mask : B → Z;
  has_data : Z → string → bool
}.

(** [BlockChunkBuilder] with its [ChunkProcessor]; a method that takes [&mut self] returns
    the object with the result. *)
Class ChunkBuilder (B CB CP PT : Type) : Type := {
  cb_push : B → CB → CB * res unit;
  cb_clear : CB → CB;
  cb_byte_size : CB → Z;
  cb_max_num_rows : CB → Z;
  cb_new_chunk_processor : CB → res CP;
  cb_submit_to_processor : CB → CP → CP * res unit;
  cb_prepare_in_memory : CB → CB * res (list (string * PT));
  cp_max_num_rows : CP → Z;
  cp_finish : CP → res (list (string * PT))
}.

(** What the ingest task relies on: the blocks held, and that the tables of a chunk depend
    only on them, whichever way they were prepared. *)
Class ChunkBuilderLaws (B CB CP PT : Type) `{ChunkBuilder B CB CP PT} : Type := {
  cb_blocks : CB → list B;
  cp_blocks : CP → list B;
  chunk_tables : list B → list (string * PT);
  cb_push_blocks : ∀ b cb cb', cb_push b cb = (cb', Ok tt) → cb_blocks cb' = cb_blocks cb ++ [b];
  cb_clear_blocks : ∀ cb, cb_blocks (cb_clear cb) = [];
  cb_new_blocks : ∀ cb cp, cb_new_chunk_processor cb = Ok cp → cp_blocks cp = [];
  cb_submit_blocks : ∀ cb cp cp', cb_submit_to_processor cb cp = (cp', Ok tt) →
    cp_blocks cp' = cp_blocks cp ++ cb_blocks cb;
  cb_prepare_blocks : ∀ cb cb' ts, cb_prepare_in_memory cb = (cb', Ok ts) →
    cb_blocks cb' = [] ∧ ts = chunk_tables (cb_blocks cb);
  cp_finish_blocks : ∀ cp ts, cp_finish cp = Ok ts → ts = chunk_tables (cp_blocks cp)
}.

(** [DataEvent] of crates/data-source/src/types.rs *)
Inductive DataEvent (B : Type) : Type :=
| EvFinalizedHead (head : BlockRef)
| EvBlock (block : B) (is_final : bool)
| EvFork (prev_blocks : list BlockRef)
| EvMaybeOnHead.
Arguments EvFinalizedHead {B} head.
Arguments EvBlock {B} block is_final.
Arguments EvFork {B} prev_blocks.
Arguments EvMaybeOnHead {B}.

Definition DEFAULT_SPILL_BOUND_BYTES : Z := 30 * 1024 * 1024.

Section ingest.
Context {B CB CP PT : Type} `{Block B} `{ChunkBuilder B CB CP PT}.

(** ** DataBuilder *)

Record DataBuilder : Type := mkDataBuilder {
  db_builder : CB;
  db_processor : option CP;
  db_spill_bound_bytes : Z
}.

Definition data_builder_new (cb : CB) (bound : Z) : DataBuilder := mkDataBuilder cb None bound.

Definition db_push_block (b : B) (s : DataBuilder) : DataBuilder * res unit :=
  let '(cb, r) := cb_push b (db_builder s) in (mkDataBuilder cb (db_processor s) (db_spill_bound_bytes s), r).

Definition num_rows (s : DataBuilder) : Z :=
  u64_add (cb_max_num_rows (db_builder s)) (from_option cp_max_num_rows 0 (db_processor s)).

Definition in_memory_buffered_bytes (s : DataBuilder) : Z := cb_byte_size (db_builder s).

Definition flush_to_processor (s : DataBuilder) : DataBuilder * res unit :=
  let processor :=
    match db_processor s with
    | Some p => Ok p
    | None => cb_new_chunk_processor (db_builder s)
    end in
  match processor with
  | Ok p =>
      match cb_submit_to_processor (db_builder s) p with
      | (p, Ok _) => (mkDataBuilder (cb_clear (db_builder s)) (Some p) (db_spill_bound_bytes s), Ok tt)
      | (p, r) => (mkDataBuilder (db_builder s) (Some p) (db_spill_bound_bytes s), r)
      end
  | Err e => (s, Err e)
  | Panic m => (s, Panic m)
  end.

Definition finish (s : DataBuilder) : DataBuilder * res (list (string * PT)) :=
  if (bool_decide (db_processor s = None) && (cb_byte_size (db_builder s) <=? db_spill_bound_bytes s))%bool then
    let '(cb, r) := cb_prepare_in_memory (db_builder s) in
    (mkDataBuilder cb (db_processor s) (db_spill_bound_bytes s), r)
  else
    match flush_to_processor s with
    | (s, Ok _) =>
        (mkDataBuilder (db_builder s) None (db_spill_bound_bytes s),
         match db_processor s with
         | Some p => cp_finish p
         | None => Panic "called Option::unwrap() on a None value"
         end)
    | (s, Err e) => (s, Err e)
    | (s, Panic m) => (s, Panic m)
    end.

Definition data_builder_clear (s : DataBuilder) : DataBuilder :=
  mkDataBuilder (cb_clear (db_builder s)) None (db_spill_bound_bytes s).

(** ** IngestGeneric *)

(** The position of the data source: the next block it will yield and its parent's hash. *)
Record DataSource : Type := mkDataSource { ds_next_block : Z; ds_parent_block_hash : option string }.
Definition set_position (next : Z) (parent : option string) : DataSource := mkDataSource next parent.

(** [PreparedChunk] is the map from table names to prepared tables, in name order. *)
Definition PreparedChunk : Type := list (string * PT).
#[local] Abbreviation message := (IngestMessage PreparedChunk).

Record IngestGeneric : Type := mkIngest {
  ig_sent : list message;
  ig_data_source : DataSource;
  ig_builder : DataBuilder;
  ig_finalized_head : option BlockRef;
  ig_buffered_blocks : Z;
  ig_parent_block_hash : string;
  ig_first_block : Z;
  ig_first_block_time : option Z;
  ig_last_block : Z;
  ig_last_block_hash : string;
  ig_last_block_time : option Z;
  ig_data_mask : Z;
  ig_flush_floor : option Z;
  ig_withholding : bool
}.

Definition ingest_new (source : DataSource) (cb : CB) (bound : Z) : IngestGeneric :=
  mkIngest [] source (data_builder_new cb bound) None 0 "" (ds_next_block source) None 0 "" None 0 None false.

(** A method of the task: it updates the task and may fail. *)
Definition task (A : Type) : Type := IngestGeneric → IngestGeneric * res A.
#[local] Instance task_ret : MRet task := λ A a s, (s, Ok a).
#[local] Instance task_bind : MBind task := λ A A' f m s,
  match m s with
  | (s, Ok a) => f a s
  | (s, Err e) => (s, Err e)
  | (s, Panic p) => (s, Panic p)
  end.
Definition get : task IngestGeneric := λ s, (s, Ok s).
Definition put (s : IngestGeneric) : task unit := λ _, (s, Ok tt).
Definition fail {A} (e : error) : task A := λ s, (s, Err e).

(** Whether the receiver of the channel is still there after these messages. *)
Context (accepts : list message → bool).

Definition send (m : message) : task unit := λ s,
  if accepts (ig_sent s) then
    (mkIngest (ig_sent s ++ [m]) (ig_data_source s) (ig_builder s) (ig_finalized_head s) (ig_buffered_blocks s)
       (ig_parent_block_hash s) (ig_first_block s) (ig_first_block_time s) (ig_last_block s)
       (ig_last_block_hash s) (ig_last_block_time s) (ig_data_mask s) (ig_flush_floor s) (ig_withholding s), Ok tt)
  else (s, Err (EMsg "channel closed")).

(** The builder goes to a blocking task and comes back with the result. *)
Definition with_blocking_builder {A} (f : DataBuilder → DataBuilder * res A) : task A := λ s,
  let '(b, r) := f (ig_builder s) in
  (mkIngest (ig_sent s) (ig_data_source s) b (ig_finalized_head s) (ig_buffered_blocks s)
     (ig_parent_block_hash s) (ig_first_block s) (ig_first_block_time s) (ig_last_block s)
     (ig_last_block_hash s) (ig_last_block_time s) (ig_data_mask s) (ig_flush_floor s) (ig_withholding s), r).

Definition ingest_set_finalized_head (number_ : Z) (hash_ : string) : task unit := λ s,
  (mkIngest (ig_sent s) (ig_data_source s) (ig_builder s) (Some (mkBlockRef number_ hash_)) (ig_buffered_blocks s)
     (ig_parent_block_hash s) (ig_first_block s) (ig_first_block_time s) (ig_last_block s)
     (ig_last_block_hash s) (ig_last_block_time s) (ig_data_mask s) (ig_flush_floor s) (ig_withholding s), Ok tt).

Definition push_block (b : B) (is_final : bool) : task unit :=
  _ ← with_blocking_builder (db_push_block b);
  s ← get;
  _ ← (if ig_buffered_blocks s =? 0 then
         put (mkIngest (ig_sent s) (ig_data_source s) (ig_builder s) (ig_finalized_head s) (ig_buffered_blocks s)
                (block_parent_hash b) (ig_first_block s) (block_timestamp b) (ig_last_block s)
                (ig_last_block_hash s) (ig_last_block_time s) (ig_data_mask s) (ig_flush_floor s)
                (ig_withholding s))
       else if bool_decide (ig_last_block_hash s = block_parent_hash b) then mret tt
       else fail (EMsg "chain continuity was violated"));
  s ← get;
  _ ← put (mkIngest (ig_sent s) (ig_data_source s) (ig_builder s) (ig_finalized_head s) (ig_buffered_blocks s + 1)
             (ig_parent_block_hash s) (ig_first_block s) (ig_first_block_time s) (block_number b)
             (block_hash b) (block_timestamp b) (ig_data_mask s) (ig_flush_floor s) (ig_withholding s));
  if is_final then ingest_set_finalized_head (block_number b) (block_hash b) else mret tt.

(** [CB::Block::has_data(self.data_mask, name)] selects the tables of the chunk. *)
Definition retain_tables (mask : Z) (ts : PreparedChunk) : PreparedChunk :=
  filter (λ t, has_data mask t.1 = true) ts.

Definition withheld (s : IngestGeneric) : bool :=
  match ig_flush_floor s with
  | Some floor => ig_last_block s <? floor
  | None => false
  end.

Definition flush : task unit :=
  s ← get;
  if ig_buffered_blocks s =? 0 then mret tt
  else if withheld s then
    put (mkIngest (ig_sent s) (ig_data_source s) (ig_builder s) (ig_finalized_head s) (ig_buffered_blocks s)
           (ig_parent_block_hash s) (ig_first_block s) (ig_first_block_time s) (ig_last_block s)
           (ig_last_block_hash s) (ig_last_block_time s) (ig_data_mask s) (ig_flush_floor s) true)
  else
    _ ← put (mkIngest (ig_sent s) (ig_data_source s) (ig_builder s) (ig_finalized_head s) (ig_buffered_blocks s)
               (ig_parent_block_hash s) (ig_first_block s) (ig_first_block_time s) (ig_last_block s)
               (ig_last_block_hash s) (ig_last_block_time s) (ig_data_mask s) None false);
    tables ← with_blocking_builder finish;
    let tables := retain_tables (ig_data_mask s) tables in
    s ← get;
    let first := ig_first_block s in
    _ ← put (mkIngest (ig_sent s) (ig_data_source s) (ig_builder s) (ig_finalized_head s) 0
               (ig_parent_block_hash s) (u64_add (ig_last_block s) 1) (ig_first_block_time s) (ig_last_block s)
               (ig_last_block_hash s) (ig_last_block_time s) (ig_data_mask s) (ig_flush_floor s) (ig_withholding s));
    send (MsgNewChunk _ (mkNewChunk _ (ig_finalized_head s) (ig_parent_block_hash s) first (ig_last_block s)
                           (ig_last_block_hash s) (ig_first_block_time s) (ig_last_block_time s) tables)).

Definition maybe_flush : task unit :=
  s ← get;
  _ ← (if num_rows (ig_builder s) >? 200000 then flush else mret tt);
  s ← get;
  if in_memory_buffered_bytes (ig_builder s) >? db_spill_bound_bytes (ig_builder s)
  then with_blocking_builder flush_to_processor else mret tt.

(** [reply] is what the controller answers on the oneshot channel; [None] when it dropped
    the sender. *)
Definition handle_fork (prev_blocks : list BlockRef) (reply : option Rollback) : task unit :=
  _ ← send (MsgFork _ prev_blocks true);
  _ ← with_blocking_builder (λ b, (data_builder_clear b, Ok tt));
  match reply with
  | None => fail (EMsg "channel closed")
  | Some rb =>
      s ← get;
      put (mkIngest (ig_sent s) (set_position (resume_from rb) (expected_parent_hash rb)) (ig_builder s) None 0
             (ig_parent_block_hash s) (resume_from rb) (ig_first_block_time s) (ig_last_block s)
             (ig_last_block_hash s) (ig_last_block_time s) (ig_data_mask s) (reach_at_least rb) false)
  end.

(** One iteration of the loop of [run]; the reply matters for a fork only. *)
Definition handle_event (ev : DataEvent B * option Rollback) : task unit :=
  match ev.1 with
  | EvFinalizedHead head =>
      _ ← ingest_set_finalized_head (number head) (hash head);
      s ← get;
      if number head <? ig_first_block s then send (MsgFinalizedHead _ head) else mret tt
  | EvBlock block is_final =>
      let mask := data_availability_mask block in
      s ← get;
      _ ← (if bool_decide (ig_data_mask s = mask) then mret tt
           else
             _ ← flush;
             s ← get;
             if ig_buffered_blocks s =? 0 then
               put (mkIngest (ig_sent s) (ig_data_source s) (ig_builder s) (ig_finalized_head s)
                      (ig_buffered_blocks s) (ig_parent_block_hash s) (ig_first_block s)
                      (ig_first_block_time s) (ig_last_block s) (ig_last_block_hash s)
                      (ig_last_block_time s) mask (ig_flush_floor s) (ig_withholding s))
             else fail (EMsg "data availability changed during finalized replay"));
      _ ← push_block block is_final;
      maybe_flush
  | EvFork prev_blocks => handle_fork prev_blocks ev.2
  | EvMaybeOnHead => flush
  end.

(** [run] over the events the source yields, with the replies to its forks. *)
Fixpoint ingest_run (evs : list (DataEvent B * option Rollback)) : task unit :=
  match evs with
  | [] => mret tt
  | ev :: evs => _ ← handle_event ev; ingest_run evs
  end.
End ingest.
