(* ===== verification/IngestSpec.v ===== *)
(** * IngestSpec: an abstract batcher and the refinement of the ingest task to it

    The batcher keeps the blocks not yet sent as a list and decides by an oracle when to
    cut a chunk; rows, bytes, spilling and the processor do not exist.  The ingest task of
    Ingest.v refines it: every run is a run of the batcher with the cuts the row bound
    makes, and with a builder that does not fail and an open channel it fails only where
    the batcher does. *)

From stdpp Require Import list.
From S2P Require Import Prelude Bytes Data Kv ChunkIter Tables Chain Tx Retry.
From S2P Require Import Cleanup Db WriteController Ingest.

Section batcher.
Context {B CB CP PT : Type} `{Block B} `{!ChunkBuilder B CB CP PT} `{!ChunkBuilderLaws B CB CP PT}.
#[local] Abbreviation message := (IngestMessage (list (string * PT))).
#[local] Abbreviation chunk_msg := (NewChunk (list (string * PT))).

(** ** The batcher *)

Record batcher : Type := mkBatcher {
  bt_sent : list message;
  bt_pos : Z;
  bt_floor : option Z;
  bt_pending : list B;
  bt_fin : option BlockRef;
  bt_mask : Z
}.

(** The chunk of the blocks [b :: bs], of which [z] is the last. *)
Definition batch_chunk (st : batcher) (b z : B) : chunk_msg :=
  mkNewChunk _ (bt_fin st) (block_parent_hash b) (bt_pos st) (block_number z) (block_hash z)
    (block_timestamp b) (block_timestamp z) (retain_tables (bt_mask st) (chunk_tables (bt_pending st))).

Definition emit_chunk (st : batcher) : batcher :=
  match head (bt_pending st), last (bt_pending st) with
  | Some b, Some z =>
      if match bt_floor st with Some f => block_number z <? f | None => false end then st
      else mkBatcher (bt_sent st ++ [MsgNewChunk _ (batch_chunk st b z)]) (u64_add (block_number z) 1) None []
             (bt_fin st) (bt_mask st)
  | _, _ => st
  end.

Definition linked_to (bs : list B) (b : B) : bool :=
  match last bs with
  | Some z => bool_decide (block_hash z = block_parent_hash b)
  | None => true
  end.

Definition change_mask (mask : Z) (st : batcher) : option batcher :=
  if decide (bt_mask st = mask) then Some st
  else
    let st := emit_chunk st in
    match bt_pending st with
    | [] => Some (mkBatcher (bt_sent st) (bt_pos st) (bt_floor st) [] (bt_fin st) mask)
    | _ => None
    end.

Definition take_block (b : B) (is_final : bool) (st : batcher) : option batcher :=
  if linked_to (bt_pending st) b then
    Some (mkBatcher (bt_sent st) (bt_pos st) (bt_floor st) (bt_pending st ++ [b])
            (if is_final then Some (mkBlockRef (block_number b) (block_hash b)) else bt_fin st) (bt_mask st))
  else None.

(** One event; [cut] decides whether a block ends a chunk, and [None] is a failure. *)
Definition batch_step (cut : bool) (ev : DataEvent B * option Rollback) (st : batcher) : option batcher :=
  match ev.1 with
  | EvFinalizedHead h =>
      Some (mkBatcher (bt_sent st ++ if number h <? bt_pos st then [MsgFinalizedHead _ h] else [])
              (bt_pos st) (bt_floor st) (bt_pending st) (Some h) (bt_mask st))
  | EvBlock b is_final =>
      st ← change_mask (data_availability_mask b) st;
      st ← take_block b is_final st;
      Some (if cut then emit_chunk st else st)
  | EvFork prev =>
      rb ← ev.2;
      Some (mkBatcher (bt_sent st ++ [MsgFork _ prev true]) (resume_from rb) (reach_at_least rb) [] None (bt_mask st))
  | EvMaybeOnHead => Some (emit_chunk st)
  end.

Fixpoint batch_run (cuts : list bool) (evs : list (DataEvent B * option Rollback)) (st : batcher) : option batcher :=
  match cuts, evs with
  | [], [] => Some st
  | cut :: cuts, ev :: evs => st ← batch_step cut ev st; batch_run cuts evs st
  | _, _ => None
  end.

(** ** The refinement relation *)

(** The blocks a [DataBuilder] holds: the spilled ones, then those in memory. *)
Definition held (s : DataBuilder (CB:=CB) (CP:=CP)) : list B :=
  from_option cp_blocks [] (db_processor s) ++ cb_blocks (db_builder s).

Definition refines (s : IngestGeneric (CB:=CB) (CP:=CP) (PT:=PT)) (st : batcher) : Prop :=
  ig_sent s = bt_sent st ∧ ig_first_block s = bt_pos st ∧ ig_flush_floor s = bt_floor st ∧
  ig_finalized_head s = bt_fin st ∧ ig_data_mask s = bt_mask st ∧
  held (ig_builder s) = bt_pending st ∧ ig_buffered_blocks s = Z.of_nat (length (bt_pending st)) ∧
  (∀ b, head (bt_pending st) = Some b →
     ig_parent_block_hash s = block_parent_hash b ∧ ig_first_block_time s = block_timestamp b) ∧
  (∀ z, last (bt_pending st) = Some z →
     ig_last_block s = block_number z ∧ ig_last_block_hash s = block_hash z ∧
     ig_last_block_time s = block_timestamp z).

(** ** The data builder *)

Lemma flush_to_processor_held s s' : flush_to_processor s = (s', Ok tt) →
  held s' = held s ∧ db_spill_bound_bytes s' = db_spill_bound_bytes s ∧
  cb_blocks (db_builder s') = [] ∧ is_Some (db_processor s').
Proof.
  unfold flush_to_processor, held. destruct (db_processor s) as [p|].
  - destruct (cb_submit_to_processor _ p) as [p' [[]|e|m]] eqn:E; intros [= <-]. cbn.
    rewrite cb_clear_blocks, (cb_submit_blocks _ _ _ E), app_nil_r. eauto.
  - destruct (cb_new_chunk_processor _) as [p|e|m] eqn:En; [|done..].
    destruct (cb_submit_to_processor _ p) as [p' [[]|e|m]] eqn:E; intros [= <-]. cbn.
    rewrite cb_clear_blocks, (cb_submit_blocks _ _ _ E), (cb_new_blocks _ _ En), app_nil_r. eauto.
Qed.

Lemma finish_held s s' ts : finish s = (s', Ok ts) → held s' = [] ∧ ts = chunk_tables (held s).
Proof.
  unfold finish. destruct (_ && _)%bool eqn:Eb.
  - apply andb_true_iff in Eb as [Hn%bool_decide_eq_true _].
    destruct (cb_prepare_in_memory _) as [cb r] eqn:E. intros [= <- ->].
    apply cb_prepare_blocks in E as [E1 E2]. unfold held. cbn. by rewrite Hn, E1.
  - destruct (flush_to_processor s) as [s1 [[]|e|m]] eqn:E; [|done..].
    apply flush_to_processor_held in E as (Hh & _ & Hc & p & Hp). rewrite Hp. intros [= <- Hf].
    apply cp_finish_blocks in Hf. rewrite <-Hh. unfold held. cbn. rewrite Hc, Hp, app_nil_r. done.
Qed.

Lemma push_held b s s' : db_push_block b s = (s', Ok tt) → held s' = held s ++ [b].
Proof.
  unfold db_push_block, held. destruct (cb_push b _) as [cb r] eqn:E. intros [= <- ->]. cbn.
  by rewrite (cb_push_blocks _ _ _ E), app_assoc.
Qed.

Lemma clear_held s : held (data_builder_clear s) = [].
Proof. unfold held. cbn. apply cb_clear_blocks. Qed.

(** ** The task *)

Context (accepts : list message → bool).

Lemma refines_empty s st : refines s st → (ig_buffered_blocks s =? 0) = bool_decide (bt_pending st = []).
Proof.
  intros (_ & _ & _ & _ & _ & _ & -> & _). destruct (bt_pending st) as [|b bs]; [done|].
  rewrite bool_decide_false by done. apply Z.eqb_neq. simpl. lia.
Qed.

Lemma head_last_cons (b : B) bs : ∃ z, last (b :: bs) = Some z.
Proof. destruct (last (b :: bs)) eqn:E; [eauto|]. by apply last_None in E. Qed.

Lemma flush_refines s st s' : refines s st → flush accepts s = (s', Ok tt) → refines s' (emit_chunk st).
Proof.
  intros Hr. pose proof (refines_empty _ _ Hr) as He.
  destruct Hr as (R1 & R2 & R3 & R4 & R5 & R6 & R7 & R8 & R9).
  unfold flush, mbind, task_bind, get, put, mret, task_ret. rewrite He. unfold emit_chunk.
  destruct (bt_pending st) as [|b bs] eqn:Ep.
  { rewrite bool_decide_true by done. intros [= <-]. cbn [head last]. unfold refines. rewrite Ep. by split_and!. }
  rewrite bool_decide_false by done. destruct (head_last_cons b bs) as [z Ez]. cbn [head].
  destruct (R8 b eq_refl) as [P1 P2], (R9 z Ez) as (Z1 & Z2 & Z3). rewrite Ez.
  unfold withheld. rewrite R3, Z1.
  destruct (match bt_floor st with Some f => block_number z <? f | None => false end) eqn:Ef.
  { intros [= <-]. unfold refines. cbn. rewrite Ep. split_and!; try done. by rewrite <-Z1. }
  unfold with_blocking_builder. cbn. destruct (finish (ig_builder s)) as [db [ts|e|m]] eqn:Efi; [|done..].
  apply finish_held in Efi as [Hh ->]. unfold send. cbn. destruct (accepts (ig_sent s)); [|done].
  intros [= <-]. unfold refines. cbn. rewrite R1, R2, R4, R5, P1, P2, Z2, Z3, R6.
  split_and!; try done. unfold batch_chunk. by rewrite Ep.
Qed.

Lemma push_refines s st b f s' : refines s st → push_block b f s = (s', Ok tt) →
  ∃ st', take_block b f st = Some st' ∧ refines s' st'.
Proof.
  intros Hr. pose proof (refines_empty _ _ Hr) as He.
  destruct Hr as (R1 & R2 & R3 & R4 & R5 & R6 & R7 & R8 & R9).
  unfold push_block, mbind, task_bind, get, put, mret, task_ret, with_blocking_builder.
  destruct (db_push_block b (ig_builder s)) as [db [[]|e|m]] eqn:Eb; [|done..]. apply push_held in Eb.
  cbn [ig_buffered_blocks ig_last_block_hash]. rewrite He. unfold take_block, linked_to.
  destruct (bt_pending st) as [|x xs] eqn:Ep.
  - rewrite bool_decide_true by done. cbn. intros Hs. eexists. split; [done|].
    destruct f; injection Hs as <-; unfold refines; cbn;
      rewrite Eb, R6, R7; split_and!; try done; intros ? [= <-]; done.
  - rewrite bool_decide_false by done. destruct (head_last_cons x xs) as [z Ez]. rewrite Ez.
    destruct (R8 x eq_refl) as [P1 P2], (R9 z Ez) as (Z1 & Z2 & Z3). rewrite Z2.
    destruct (bool_decide (block_hash z = block_parent_hash b)); [|done]. cbn. intros Hs. eexists. split; [done|].
    destruct f; injection Hs as <-; unfold refines; cbn [ig_sent ig_builder ig_first_block ig_flush_floor
      ig_finalized_head ig_data_mask ig_buffered_blocks ig_parent_block_hash ig_first_block_time ig_last_block
      ig_last_block_hash ig_last_block_time bt_sent bt_pos bt_floor bt_pending bt_fin bt_mask app];
      rewrite Eb, R6, R7; (split_and!; try done;
        [rewrite app_comm_cons, length_app; simpl; lia
        |rewrite app_comm_cons, last_snoc; by intros ? [= <-]]).
Qed.

Lemma spill_refines s st s' : refines s st → with_blocking_builder flush_to_processor s = (s', Ok tt) →
  refines s' st.
Proof.
  unfold with_blocking_builder. intros (R1 & R2 & R3 & R4 & R5 & R6 & R7 & R8 & R9).
  destruct (flush_to_processor _) as [db r] eqn:E. intros [= <- ->].
  apply flush_to_processor_held in E as (Hh & _). unfold refines. cbn. rewrite Hh. by split_and!.
Qed.

Lemma maybe_flush_refines s st s' : refines s st → maybe_flush accepts s = (s', Ok tt) →
  ∃ cut : bool, refines s' (if cut then emit_chunk st else st).
Proof.
  intros Hr Hm. exists (num_rows (ig_builder s) >? 200000). revert Hm.
  unfold maybe_flush, mbind, task_bind, get, mret, task_ret.
  destruct (num_rows (ig_builder s) >? 200000).
  - destruct (flush accepts s) as [s1 [[]|e|m]] eqn:Ef; [|done..]. apply (flush_refines _ _ _ Hr) in Ef.
    destruct (_ >? _); [by apply spill_refines|by intros [= <-]].
  - destruct (_ >? _); [by apply spill_refines|by intros [= <-]].
Qed.

Lemma change_mask_refines s st mask s' :
  refines s st → bt_mask st ≠ mask → flush accepts s = (s', Ok tt) → (ig_buffered_blocks s' =? 0) = true →
  ∃ st', change_mask mask st = Some st' ∧
    refines (mkIngest (ig_sent s') (ig_data_source s') (ig_builder s') (ig_finalized_head s')
      (ig_buffered_blocks s') (ig_parent_block_hash s') (ig_first_block s') (ig_first_block_time s')
      (ig_last_block s') (ig_last_block_hash s') (ig_last_block_time s') mask (ig_flush_floor s')
      (ig_withholding s')) st'.
Proof.
  intros Hr Hne Hf H0. apply (flush_refines _ _ _ Hr) in Hf. pose proof (refines_empty _ _ Hf) as He.
  rewrite H0 in He. symmetry in He. apply bool_decide_eq_true in He.
  unfold change_mask. rewrite decide_False by done. rewrite He. eexists. split; [done|].
  destruct Hf as (R1 & R2 & R3 & R4 & R5 & R6 & R7 & _). rewrite He in R6, R7.
  unfold refines. cbn. by split_and!.
Qed.

Lemma block_refines s st b f s' r : refines s st → handle_event accepts (EvBlock b f, r) s = (s', Ok tt) →
  ∃ cut st', batch_step cut (EvBlock b f, r) st = Some st' ∧ refines s' st'.
Proof.
  intros Hr. unfold handle_event, mbind, task_bind, get, put, mret, task_ret, fail. cbn [fst].
  assert (Hm : ig_data_mask s = bt_mask st) by apply Hr. rewrite Hm.
  assert (Htail : ∀ s1 st1, change_mask (data_availability_mask b) st = Some st1 → refines s1 st1 →
    match push_block b f s1 with
    | (s, Ok _) => maybe_flush accepts s | (s, Err e) => (s, Err e) | (s, Panic p) => (s, Panic p) end = (s', Ok tt) →
    ∃ cut st', batch_step cut (EvBlock b f, r) st = Some st' ∧ refines s' st').
  { intros s1 st1 Hc H1. destruct (push_block b f s1) as [s2 [[]|e|m]] eqn:Ep; [|done..].
    apply (push_refines _ _ _ _ _ H1) in Ep as (st2 & Ht & H2). intros [cut Hf]%(maybe_flush_refines _ _ _ H2).
    exists cut. eexists. split; [|exact Hf]. unfold batch_step. cbn [fst]. rewrite Hc. cbn. by rewrite Ht. }
  case_bool_decide as Hmask.
  - apply (Htail s st); [|done]. unfold change_mask. by rewrite decide_True.
  - destruct (flush accepts s) as [s1 [[]|e|m]] eqn:Ef; [|done..].
    destruct (ig_buffered_blocks s1 =? 0) eqn:E0; [|done].
    destruct (change_mask_refines s st _ s1 Hr Hmask Ef E0) as (st1 & Hc & H1). by apply Htail with st1.
Qed.

Lemma event_refines s st ev s' : refines s st → handle_event accepts ev s = (s', Ok tt) →
  ∃ cut st', batch_step cut ev st = Some st' ∧ refines s' st'.
Proof.
  destruct ev as [[h|b f|prev|] r]; intros Hr; [| by apply block_refines| |].
  - destruct Hr as (R1 & R2 & R3 & R4 & R5 & R6 & R7 & R8 & R9).
    intros Hh. exists false. eexists. split; [done|]. revert Hh.
    unfold handle_event, mbind, task_bind, get, ingest_set_finalized_head, send, mret, task_ret. cbn.
    rewrite R2. destruct h as [hn hh]. cbn [number hash]. destruct (hn <? bt_pos st).
    + destruct (accepts _); [|done]. intros [= <-]. unfold refines. cbn. rewrite R1. by split_and!.
    + intros [= <-]. unfold refines. cbn. rewrite app_nil_r. by split_and!.
  - unfold handle_event, handle_fork, mbind, task_bind, get, send, with_blocking_builder, put, fail. cbn [fst snd].
    destruct (accepts _); [|done]. cbn. destruct r as [rb|]; [|done]. intros [= <-]. exists false. eexists.
    split; [done|]. destruct Hr as (R1 & _ & _ & _ & R5 & _). unfold refines. cbn.
    rewrite R1. split_and!; try done. apply clear_held.
  - unfold handle_event. cbn [fst]. intros Hf. exists false. eexists. split; [done|]. by eapply flush_refines.
Qed.

Lemma run_refines evs : ∀ s st s', refines s st → ingest_run accepts evs s = (s', Ok tt) →
  ∃ cuts st', length cuts = length evs ∧ batch_run cuts evs st = Some st' ∧ refines s' st'.
Proof.
  induction evs as [|ev evs IH]; intros s st s' Hr; cbn [ingest_run].
  - intros [= <-]. by exists [], st.
  - unfold mbind, task_bind. destruct (handle_event accepts ev s) as [s1 [[]|e|m]] eqn:E; [|done..].
    destruct (event_refines _ _ _ _ Hr E) as (cut & st1 & E1 & H1).
    intros (cuts & st' & Hl & E2 & H2)%(IH _ _ _ H1). exists (cut :: cuts), st'. cbn. rewrite E1. cbn. by rewrite Hl.
Qed.

Lemma new_refines source cb bound : cb_blocks cb = [] →
  refines (ingest_new source cb bound) (mkBatcher [] (ds_next_block source) None [] None 0).
Proof. intros Hc. unfold refines, ingest_new, held. cbn. rewrite Hc. by split_and!. Qed.
End batcher.
