(* ===== verification/IngestProps.v ===== *)
(** * IngestProps: what the ingest task guarantees

    Failure: with a builder that does not fail and an open channel the task fails only where
    the batcher of IngestSpec.v fails.  Batches: what the messages of a run say about the
    blocks of the stream.  Replay: the chunk that answers a rollback, seen by the write
    controller. *)

From stdpp Require Import list.
From S2P Require Import Prelude Bytes Data Kv ChunkIter Tables Chain Tx Retry.
From S2P Require Import Cleanup Db WriteController Ingest IngestSpec.

Section failure.
Context {B CB CP PT : Type} `{Block B} `{!ChunkBuilder B CB CP PT} `{!ChunkBuilderLaws B CB CP PT}.
#[local] Abbreviation message := (IngestMessage (list (string * PT))).
Context (accepts : list message → bool).

(** ** Failure *)

(** No operation of the builder or the processor fails, and the channel stays open. *)
Definition reliable : Prop :=
  (∀ b (cb : CB), (cb_push b cb).2 = Ok tt) ∧
  (∀ cb : CB, ∃ cp, cb_new_chunk_processor (B:=B) (PT:=PT) cb = Ok cp) ∧
  (∀ (cb : CB) cp, (cb_submit_to_processor (B:=B) (PT:=PT) cb cp).2 = Ok tt) ∧
  (∀ cb : CB, ∃ ts, (cb_prepare_in_memory (B:=B) (CP:=CP) cb).2 = Ok ts) ∧
  (∀ cp : CP, ∃ ts, cp_finish (B:=B) (CB:=CB) cp = Ok ts) ∧
  (∀ ms, accepts ms = true).

Context (Hrel : reliable).

Lemma flush_to_processor_total (s : DataBuilder (CB:=CB) (CP:=CP)) :
  ∃ s' p, flush_to_processor s = (s', Ok tt) ∧ db_processor s' = Some p.
Proof.
  destruct Hrel as (_ & Hnew & Hsub & _). unfold flush_to_processor.
  assert (∃ p, match db_processor s with Some p => Ok p | None => cb_new_chunk_processor (db_builder s) end = Ok p)
    as [p ->] by (destruct (db_processor s); eauto).
  specialize (Hsub (db_builder s) p). destruct (cb_submit_to_processor _ p) as [p' r]. cbn in Hsub. rewrite Hsub. eauto.
Qed.

Lemma finish_total (s : DataBuilder (CB:=CB) (CP:=CP)) : ∃ s' ts, finish s = (s', Ok ts).
Proof.
  destruct Hrel as (_ & _ & _ & Hprep & Hfin & _). unfold finish. case_if.
  - destruct (Hprep (db_builder s)) as [ts Hts]. destruct (cb_prepare_in_memory _) as [cb r]. cbn in Hts.
    rewrite Hts. eauto.
  - destruct (flush_to_processor_total s) as (s' & p & -> & Hp). rewrite Hp.
    destruct (Hfin p) as [ts ->]. eauto.
Qed.

Lemma flush_total s : ∃ s', flush (CB:=CB) (CP:=CP) accepts s = (s', Ok tt).
Proof.
  unfold flush, mbind, task_bind, get, put, mret, task_ret, with_blocking_builder, send.
  destruct (_ =? 0); [eauto|]. destruct (withheld s); [eauto|]. cbn.
  destruct (finish_total (ig_builder s)) as (b & ts & ->). cbn.
  rewrite (proj2 (proj2 (proj2 (proj2 (proj2 Hrel))))). eauto.
Qed.

Lemma maybe_flush_total s : ∃ s', maybe_flush (CB:=CB) (CP:=CP) accepts s = (s', Ok tt).
Proof.
  assert (Hspill : ∀ s1, ∃ s', with_blocking_builder (CB:=CB) (CP:=CP) (PT:=PT) flush_to_processor s1 = (s', Ok tt)).
  { intros s1. unfold with_blocking_builder.
    destruct (flush_to_processor_total (ig_builder s1)) as (b & p & -> & _). eauto. }
  unfold maybe_flush, mbind, task_bind, get, mret, task_ret.
  destruct (_ >? 200000).
  - destruct (flush_total s) as [s1 ->]. destruct (_ >? _); eauto.
  - destruct (_ >? _); eauto.
Qed.

Lemma push_total s st b f : refines s st →
  (∃ s', push_block (CB:=CB) (CP:=CP) b f s = (s', Ok tt)) ∨
  (∃ s' e, push_block (CB:=CB) (CP:=CP) b f s = (s', Err e) ∧ take_block b f st = None).
Proof.
  intros Hr. pose proof (refines_empty _ _ Hr) as He. pose proof (proj1 Hrel b (db_builder (ig_builder s))) as Hp.
  unfold push_block, mbind, task_bind, get, put, mret, task_ret, fail, with_blocking_builder, db_push_block.
  destruct (cb_push b _) as [cb r]. cbn in Hp. rewrite Hp. cbn [ig_buffered_blocks ig_last_block_hash].
  rewrite He. unfold take_block, linked_to. destruct (bt_pending st) as [|x xs] eqn:Ep.
  - rewrite bool_decide_true by done. left. destruct f; by eexists.
  - rewrite bool_decide_false by done. destruct (head_last_cons x xs) as [z Ez]. rewrite Ez.
    destruct Hr as (_ & _ & _ & _ & _ & _ & _ & _ & R9). rewrite Ep in R9. destruct (R9 z Ez) as (_ & -> & _).
    destruct (bool_decide (block_hash z = block_parent_hash b)); [left; destruct f; by eexists|right; by eexists _, _].
Qed.

Lemma event_total s st ev : refines s st → (∀ prev, ev.1 = EvFork prev → is_Some ev.2) →
  (∃ s', handle_event (CB:=CB) (CP:=CP) accepts ev s = (s', Ok tt)) ∨
  (∃ s' e, handle_event (CB:=CB) (CP:=CP) accepts ev s = (s', Err e) ∧ ∀ cut, batch_step cut ev st = None).
Proof.
  pose proof (proj2 (proj2 (proj2 (proj2 (proj2 Hrel))))) as Hacc.
  destruct ev as [[h|b f|prev|] r]; intros Hr Hfork; unfold handle_event; cbn [fst snd] in *.
  - left. unfold mbind, task_bind, get, ingest_set_finalized_head, send, mret, task_ret. cbn.
    destruct (_ <? _); rewrite ?Hacc; eauto.
  - unfold mbind, task_bind, get, put, mret, task_ret, fail.
    assert (Htail : ∀ s1 st1, change_mask (data_availability_mask b) st = Some st1 → refines s1 st1 →
      let o := match push_block b f s1 with
        | (s, Ok _) => maybe_flush accepts s | (s, Err e) => (s, Err e) | (s, Panic p) => (s, Panic p) end in
      (∃ s', o = (s', Ok tt)) ∨ (∃ s' e, o = (s', Err e) ∧ ∀ cut, batch_step cut (EvBlock b f, r) st = None)).
    { intros s1 st1 Hc H1. destruct (push_total s1 st1 b f H1) as [[s2 ->]|(s2 & e & -> & Ht)].
      - left. apply maybe_flush_total.
      - right. exists s2, e. split; [done|]. intros cut. unfold batch_step. cbn [fst]. rewrite Hc. cbn. by rewrite Ht. }
    assert (Hm : ig_data_mask s = bt_mask st) by apply Hr. rewrite Hm. case_bool_decide as Hmask.
    { apply (Htail s st); [|done]. unfold change_mask. by rewrite decide_True. }
    destruct (flush_total s) as [s1 Ef]. rewrite Ef. destruct (ig_buffered_blocks s1 =? 0) eqn:E0.
    + destruct (change_mask_refines accepts s st _ s1 Hr Hmask Ef E0) as (st1 & Hc & H1). by apply (Htail _ st1).
    + right. eexists _, _. split; [done|]. intros cut. unfold batch_step, change_mask. cbn [fst].
      rewrite decide_False by done. apply (flush_refines accepts _ _ _ Hr) in Ef.
      rewrite (refines_empty _ _ Ef) in E0. apply bool_decide_eq_false in E0.
      destruct (bt_pending (emit_chunk st)); done.
  - left. destruct (Hfork prev eq_refl) as [rb ->].
    unfold handle_fork, mbind, task_bind, get, send, with_blocking_builder, put. rewrite Hacc. cbn. eauto.
  - left. apply flush_total.
Qed.

(** Every fork of the stream gets a reply. *)
Definition replied (evs : list (DataEvent B * option Rollback)) : Prop :=
  ∀ prev r, (EvFork prev, r) ∈ evs → is_Some r.

Lemma run_total evs : ∀ s st, refines s st → replied evs →
  (∃ s', ingest_run (CB:=CB) (CP:=CP) accepts evs s = (s', Ok tt)) ∨
  (∃ s' e done_ ev rest cuts st', ingest_run (CB:=CB) (CP:=CP) accepts evs s = (s', Err e) ∧
     evs = done_ ++ ev :: rest ∧ batch_run cuts done_ st = Some st' ∧ ∀ cut, batch_step cut ev st' = None).
Proof.
  induction evs as [|ev evs IH]; intros s st Hr Hre; [left; by eexists|]. cbn [ingest_run].
  unfold mbind, task_bind. destruct (event_total s st ev Hr) as [[s1 E]|(s1 & e & -> & Hn)].
  - intros prev Hp. apply (Hre prev ev.2). rewrite <-Hp. apply elem_of_cons. left. by destruct ev.
  - rewrite E. destruct (event_refines accepts _ _ _ _ Hr E) as (cut & st1 & E1 & H1).
    destruct (IH s1 st1 H1) as [?|(s' & e & dn & ev' & rest & cuts & st' & -> & -> & Er & Hn)]; [|by left|right].
    + intros prev r Hp. apply (Hre prev r). apply elem_of_cons. by right.
    + exists s', e, (ev :: dn), ev', rest, (cut :: cuts), st'. split_and!; try done. cbn. by rewrite E1.
  - right. by exists s1, e, [], ev, evs, [], st.
Qed.
End failure.

(** ** Batches *)

Section batches.
Context {B CB CP PT : Type} `{Block B} `{!ChunkBuilder B CB CP PT} `{!ChunkBuilderLaws B CB CP PT}.
#[local] Abbreviation message := (IngestMessage (list (string * PT))).
#[local] Abbreviation chunk_msg := (NewChunk (list (string * PT))).

(** Each block names its predecessor as parent. *)
Fixpoint hash_linked (bs : list B) : Prop :=
  match bs with
  | a :: ((b :: _) as rest) => block_hash a = block_parent_hash b ∧ hash_linked rest
  | _ => True
  end.

(** The chunk messages since the last fork. *)
Definition chunks_since (ms : list message) : list chunk_msg :=
  foldl (λ acc m, match m with
                  | MsgFork _ _ _ => []
                  | MsgNewChunk _ c => acc ++ [c]
                  | MsgFinalizedHead _ _ => acc
                  end) [] ms.

(** What the stream yielded since the last fork: the position and the floor the rollback
    gave, and the blocks. *)
Record episode : Type := mkEpisode { ep_start : Z; ep_floor : option Z; ep_blocks : list B }.
Definition episode_step (ep : episode) (ev : DataEvent B * option Rollback) : episode :=
  match ev with
  | (EvBlock b _, _) => mkEpisode (ep_start ep) (ep_floor ep) (ep_blocks ep ++ [b])
  | (EvFork _, Some rb) => mkEpisode (resume_from rb) (reach_at_least rb) []
  | _ => ep
  end.
Definition last_episode (start : Z) (evs : list (DataEvent B * option Rollback)) : episode :=
  foldl episode_step (mkEpisode start None []) evs.

(** A chunk message describes a batch of blocks. *)
Definition batch_of (bs : list B) (c : chunk_msg) : Prop :=
  hash_linked bs ∧ ∃ b z mask, head bs = Some b ∧ last bs = Some z ∧
    nc_parent_block_hash _ c = block_parent_hash b ∧ nc_first_block_time _ c = block_timestamp b ∧
    nc_last_block _ c = block_number z ∧ nc_last_block_hash _ c = block_hash z ∧
    nc_last_block_time _ c = block_timestamp z ∧
    Forall (λ b, data_availability_mask b = mask) bs ∧
    nc_tables _ c = retain_tables mask (chunk_tables bs).

(** The block ranges of the chunks follow each other from [start]; the next starts at [pos]. *)
Fixpoint tiles (start : Z) (cs : list chunk_msg) (pos : Z) : Prop :=
  match cs with
  | [] => start = pos
  | c :: cs => nc_first_block _ c = start ∧ tiles (u64_add (nc_last_block _ c) 1) cs pos
  end.

(** The first chunk after a rollback reaches its floor. *)
Definition floor_kept (floor : option Z) (cs : list chunk_msg) : Prop :=
  ∀ f c, floor = Some f → head cs = Some c → f <= nc_last_block _ c.

Definition batched (ep : episode) (st : batcher (B:=B) (PT:=PT)) : Prop :=
  ∃ batches, ep_blocks ep = concat batches ++ bt_pending st ∧
    Forall2 batch_of batches (chunks_since (bt_sent st)) ∧
    tiles (ep_start ep) (chunks_since (bt_sent st)) (bt_pos st) ∧
    hash_linked (bt_pending st) ∧ Forall (λ b, data_availability_mask b = bt_mask st) (bt_pending st) ∧
    floor_kept (ep_floor ep) (chunks_since (bt_sent st)) ∧
    (chunks_since (bt_sent st) = [] → bt_floor st = ep_floor ep).

Lemma linked_snoc bs b : hash_linked bs → linked_to bs b = true → hash_linked (bs ++ [b]).
Proof.
  unfold linked_to. induction bs as [|x [|y bs] IH]; [done| |].
  - intros _ E%bool_decide_eq_true. done.
  - intros [Hx Hl] E. split; [done|]. apply (IH Hl). exact E.
Qed.

Lemma tiles_snoc c cs : ∀ start pos, tiles start cs pos → nc_first_block _ c = pos →
  tiles start (cs ++ [c]) (u64_add (nc_last_block _ c) 1).
Proof.
  induction cs as [|x cs IH]; intros start pos; cbn; [intros -> ->; done|].
  intros [Hf Ht] Hc. split; [done|]. by eapply IH.
Qed.

Lemma chunks_since_snoc ms m : chunks_since (ms ++ [m]) =
  match m with
  | MsgFork _ _ _ => []
  | MsgNewChunk _ c => chunks_since ms ++ [c]
  | MsgFinalizedHead _ _ => chunks_since ms
  end.
Proof. unfold chunks_since. by rewrite foldl_app. Qed.

Lemma emit_batched ep st : batched ep st → batched ep (emit_chunk st).
Proof.
  intros Hb. unfold emit_chunk. destruct (head (bt_pending st)) as [b|] eqn:Eh; [|done].
  destruct (last (bt_pending st)) as [z|] eqn:Ez; [|done].
  destruct (match bt_floor st with Some f => block_number z <? f | None => false end) eqn:Ef; [done|].
  destruct Hb as (batches & E & Hall & Ht & Hl & Hm & Hf & Hn).
  exists (batches ++ [bt_pending st]). cbn. rewrite chunks_since_snoc. split_and!; try done.
  - by rewrite concat_app, app_nil_r; cbn; rewrite app_nil_r.
  - apply Forall2_app; [done|]. constructor; [|constructor]. split; [done|].
    exists b, z, (bt_mask st). by split_and!.
  - eapply (tiles_snoc (batch_chunk st b z)); done.
  - intros f c Hfl Hc. destruct (chunks_since (bt_sent st)) as [|c0 cs] eqn:Ec; cbn in Hc; injection Hc as <-.
    + rewrite (Hn eq_refl), Hfl in Ef. cbn. zbool. lia.
    + by apply Hf.
  - intros Hnil. by destruct (chunks_since (bt_sent st)).
Qed.

Lemma change_mask_batched ep st mask st' : batched ep st → change_mask mask st = Some st' →
  batched ep st' ∧ bt_mask st' = mask.
Proof.
  intros Hb. unfold change_mask. case_decide as Hm; [by intros [= <-]|].
  pose proof (emit_batched _ _ Hb) as (batches & E & Hall & Ht & Hl & _ & Hf & Hn).
  destruct (bt_pending (emit_chunk st)) eqn:Ep; [|done]. intros [= <-]. split; [|done].
  exists batches. cbn. by split_and!.
Qed.

Lemma take_block_batched ep st b f st' r : batched ep st → bt_mask st = data_availability_mask b →
  take_block b f st = Some st' → batched (episode_step ep (EvBlock b f, r)) st'.
Proof.
  intros (batches & E & Hall & Ht & Hl & Hm & Hf & Hn) Hmask. unfold take_block.
  destruct (linked_to _ _) eqn:Elk; [|done]. intros [= <-]. exists batches. cbn. split_and!; try done.
  - by rewrite E, app_assoc.
  - by apply linked_snoc.
  - apply Forall_app. split; [done|]. by repeat constructor.
Qed.

Lemma batch_step_batched ep st cut ev st' : batched ep st → batch_step cut ev st = Some st' →
  batched (episode_step ep ev) st'.
Proof.
  intros Hb. destruct ev as [[h|b f|prev|] r]; unfold batch_step; cbn [fst snd].
  - intros [= <-]. destruct Hb as (batches & E & Hall & Ht & Hl & Hm & Hf & Hn).
    assert (Hc : chunks_since (bt_sent st ++ if number h <? bt_pos st then [MsgFinalizedHead _ h] else [])
      = chunks_since (bt_sent st)) by (case_if; [apply chunks_since_snoc|by rewrite app_nil_r]).
    exists batches. cbn [bt_sent bt_pos bt_floor bt_pending bt_fin bt_mask episode_step]. rewrite Hc. by split_and!.
  - destruct (change_mask _ st) as [st1|] eqn:Ec; [|done]. cbn.
    destruct (change_mask_batched _ _ _ _ Hb Ec) as [H1 Hm].
    destruct (take_block b f st1) as [st2|] eqn:Et; [|done]. cbn. intros [= <-].
    pose proof (take_block_batched _ _ _ _ _ r H1 Hm Et) as H2. destruct cut; [by apply emit_batched|done].
  - destruct r as [rb|]; [|done]. cbn. intros [= <-]. exists []. cbn. rewrite chunks_since_snoc.
    split_and!; try done; try constructor.
  - intros [= <-]. by apply emit_batched.
Qed.

Lemma batch_run_batched evs : ∀ cuts ep st st', batched ep st → batch_run cuts evs st = Some st' →
  batched (foldl episode_step ep evs) st'.
Proof.
  induction evs as [|ev evs IH]; intros [|cut cuts] ep st st' Hb; cbn; try done; [by intros [= <-]|].
  destruct (batch_step cut ev st) as [st1|] eqn:E; [|done]. cbn. apply IH. by eapply batch_step_batched.
Qed.

Lemma start_batched start : batched (mkEpisode start None []) (mkBatcher [] start None [] None 0).
Proof. exists []. cbn. split_and!; try done; try constructor. Qed.
End batches.

(** ** The theorems *)

Section theorems.
Context {B CB CP PT : Type} `{Block B} `{!ChunkBuilder B CB CP PT} `{!ChunkBuilderLaws B CB CP PT}.
#[local] Abbreviation message := (IngestMessage (list (string * PT))).
Context (accepts : list message → bool).

(** C12: the ingest task refines the batcher.  Every run over any events, spilling or not,
    is a run of the batcher: the same messages, the same position, floor and finality, and
    the builder and the processor hold exactly the blocks the batcher has pending.  With a
    builder that does not fail, an open channel and every fork answered, a run fails only
    at an event at which the batcher itself fails (a broken parent link, or a change of
    data availability while the floor withholds the pending blocks), and it never panics. *)
Theorem ingest_refines_batcher source cb bound evs : cb_blocks cb = [] →
  let st0 := mkBatcher [] (ds_next_block source) None [] None 0 in
  match ingest_run (CB:=CB) (CP:=CP) accepts evs (ingest_new source cb bound) with
  | (s', Ok _) => ∃ cuts st', length cuts = length evs ∧ batch_run cuts evs st0 = Some st' ∧ refines s' st'
  | (_, Err _) => reliable (B:=B) (CB:=CB) (CP:=CP) accepts → replied evs →
      ∃ before ev after cuts st', evs = before ++ ev :: after ∧
        batch_run cuts before st0 = Some st' ∧ ∀ cut, batch_step cut ev st' = None
  | (_, Panic _) => reliable (B:=B) (CB:=CB) (CP:=CP) accepts → ¬ replied evs
  end.
Proof.
  intros Hcb st0. pose proof (new_refines source cb bound Hcb) as Hr.
  destruct (ingest_run accepts evs _) as [s' [[]|e|m]] eqn:E.
  - by apply (run_refines accepts _ _ _ _ Hr).
  - intros Hrel Hre. destruct (run_total accepts Hrel evs _ _ Hr Hre) as [[s1 E1]|(s1 & e1 & b & ev & a & cuts & st' & _ & ?)].
    + rewrite E in E1. discriminate E1.
    + by exists b, ev, a, cuts, st'.
  - intros Hrel Hre. destruct (run_total accepts Hrel evs _ _ Hr Hre) as [[s1 E1]|(s1 & e1 & b & ev & a & cuts & st' & E1 & _)];
      rewrite E in E1; discriminate E1.
Qed.

(** C13: batching loses and invents nothing.  After any run, the blocks the stream yielded
    since the last fork are the blocks of the chunks sent since then followed by the blocks
    still held; every chunk is a run of parent-linked blocks of one data availability mask
    with the bounds, hashes, times and tables of that run; the block ranges of the chunks
    follow each other without a gap from the position the rollback set; and the first chunk
    after a rollback reaches the floor it set. *)
Theorem ingest_batches_exact source cb bound evs s' : cb_blocks cb = [] →
  ingest_run (CB:=CB) (CP:=CP) accepts evs (ingest_new source cb bound) = (s', Ok tt) →
  let ep := last_episode (ds_next_block source) evs in
  let cs := chunks_since (ig_sent s') in
  ∃ batches, ep_blocks ep = concat batches ++ held (ig_builder s') ∧ Forall2 batch_of batches cs ∧
    tiles (ep_start ep) cs (ig_first_block s') ∧ floor_kept (ep_floor ep) cs.
Proof.
  intros Hcb Hrun. pose proof (new_refines source cb bound Hcb) as Hr.
  destruct (run_refines accepts _ _ _ _ Hr Hrun) as (cuts & st' & _ & Eb & Hr').
  destruct (batch_run_batched evs cuts _ _ _ (start_batched _) Eb) as (batches & E & Hall & Ht & _ & _ & Hf & _).
  destruct Hr' as (R1 & R2 & _ & _ & _ & R6 & _). exists batches. unfold last_episode. rewrite R1, R2, R6. by split_and!.
Qed.
End theorems.

(** ** A builder of lists *)

Module IngestExamples.
Record blk : Type := mkBlk { blk_number : Z; blk_hash : string; blk_parent : string; blk_mask : Z }.

#[export] Instance blk_block : Block blk := {|
  block_number := blk_number; block_hash := blk_hash; block_parent_hash := blk_parent;
  block_timestamp _ := None; data_availability_mask := blk_mask; has_data _ _ := true
|}.

(** A block takes 1000 bytes and 90000 rows; the one table of a chunk lists the numbers. *)
#[export] Instance list_builder : ChunkBuilder blk (list blk) (list blk) (list Z) := {|
  cb_push b cb := (cb ++ [b], Ok tt);
  cb_clear _ := [];
  cb_byte_size cb := 1000 * Z.of_nat (length cb);
  cb_max_num_rows cb := 90000 * Z.of_nat (length cb);
  cb_new_chunk_processor _ := Ok [];
  cb_submit_to_processor cb cp := (cp ++ cb, Ok tt);
  cb_prepare_in_memory cb := ([], Ok [("blocks", blk_number <$> cb)]);
  cp_max_num_rows cp := 90000 * Z.of_nat (length cp);
  cp_finish cp := Ok [("blocks", blk_number <$> cp)]
|}.

#[export] Instance list_builder_laws : ChunkBuilderLaws blk (list blk) (list blk) (list Z).
Proof.
  refine {| cb_blocks cb := cb; cp_blocks cp := cp; chunk_tables bs := [("blocks", blk_number <$> bs)] |};
    try done; cbn; intros; by simplify_eq.
Defined.

Definition open (_ : list (IngestMessage (list (string * list Z)))) : bool := true.
Lemma list_reliable : reliable (B:=blk) (CB:=list blk) (CP:=list blk) open.
Proof. repeat split; intros; cbn; eauto. Qed.

(** Blocks 5, 6, 7 (with a gap at 8) and 9; the third fills a chunk, the last is cut on the
    head, and block 10 does not fit. *)
Definition stream : list (DataEvent blk * option Rollback) :=
  [(EvBlock (mkBlk 5 "e" "d" 0) false, None); (EvFinalizedHead (mkBlockRef 4 "d"), None);
   (EvBlock (mkBlk 6 "f" "e" 0) true, None); (EvBlock (mkBlk 7 "g" "f" 0) false, None);
   (EvBlock (mkBlk 9 "i" "g" 0) false, None); (EvMaybeOnHead, None)].
Definition bad_block : DataEvent blk * option Rollback := (EvBlock (mkBlk 10 "k" "x" 0) false, None).

Lemma ingest_refines_batcher_witness :
  ∃ before ev after, (stream ++ [(EvBlock (mkBlk 10 "j" "i" 0) false, None); bad_block]) = before ++ ev :: after ∧
  ∃ cuts st', batch_run (PT:=list Z) cuts before (mkBatcher [] 5 None [] None 0) = Some st' ∧
    ∀ cut, batch_step cut ev st' = None.
Proof.
  pose proof (ingest_refines_batcher open (mkDataSource 5 (Some "d")) [] 1500
    (stream ++ [(EvBlock (mkBlk 10 "j" "i" 0) false, None); bad_block]) eq_refl) as H. cbv zeta in H.
  set (o := ingest_run open _ _) in H.
  assert (Eo : o.2 = Err (EMsg "chain continuity was violated")) by (vm_compute; reflexivity).
  destruct o as [s' r]. cbn in Eo. subst r.
  destruct H as (before & ev & after & cuts & st' & E & Hrun & Hn).
  - exact list_reliable.
  - intros prev r Hin. exfalso. unfold stream, bad_block in Hin. cbn [app] in Hin.
    rewrite !elem_of_cons, elem_of_nil in Hin. intuition congruence.
  - exists before, ev, after. split; [exact E|]. exists cuts, st'. split; [exact Hrun|exact Hn].
Defined.

Lemma ingest_batches_exact_witness : ∃ s' batches,
  ingest_run open stream (ingest_new (mkDataSource 5 (Some "d")) [] 1500) = (s', Ok tt) ∧
  Forall2 batch_of batches (chunks_since (ig_sent s')) ∧
  (λ c, (nc_first_block _ c, nc_last_block _ c)) <$> chunks_since (ig_sent s') = [(5, 7); (8, 9)].
Proof.
  set (o := ingest_run open stream (ingest_new (mkDataSource 5 (Some "d")) [] 1500)).
  assert (Eo : o.2 = Ok tt) by (vm_compute; reflexivity).
  assert (Ec : (λ c, (nc_first_block _ c, nc_last_block _ c)) <$> chunks_since (ig_sent o.1) = [(5, 7); (8, 9)])
    by (vm_compute; reflexivity).
  assert (E : o = (o.1, o.2)) by apply surjective_pairing. rewrite Eo in E.
  destruct (ingest_batches_exact open (mkDataSource 5 (Some "d")) [] 1500 stream o.1) as (batches & _ & Hall & _).
  - reflexivity.
  - exact E.
  - exists o.1, batches. split; [exact E|]. split; [exact Hall|exact Ec].
Defined.
End IngestExamples.
