(* ===== verification/Replay.v ===== *)
(** * Replay: a rollback, from the controller through the ingest task and back

    Composes the write controller with the ingest task around a fork: the controller answers
    a fork message with a rollback, the task resets and batches the replayed stream, and the
    controller receives the first chunk of the replay, possibly after finality reports. *)

From stdpp Require Import list.
From S2P Require Import Prelude Bytes Data Kv ChunkIter Tables Chain Tx Concrete.
From S2P Require Import TxSpec UpdateSpec Retry PrefixSpec Cleanup Db DbSpec WriteController ControllerSpec.
From S2P Require Import ControllerProps Ingest IngestSpec IngestProps.

(** ** The messages that follow a rollback *)

Section answers.
Context {B CB CP PT : Type} `{Block B} `{!ChunkBuilder B CB CP PT} `{!ChunkBuilderLaws B CB CP PT}.
#[local] Abbreviation message := (IngestMessage (list (string * PT))).

Definition is_fork (ev : DataEvent B * option Rollback) : bool :=
  match ev.1 with EvFork _ => true | _ => false end.
Definition is_chunk (m : message) : bool :=
  match m with MsgNewChunk _ _ => true | _ => false end.

(** Up to the first chunk only reports below the resume position; that chunk starts at the
    position and reaches the floor. *)
Fixpoint answers (rb : Rollback) (ms : list message) : Prop :=
  match ms with
  | [] => True
  | MsgFinalizedHead _ h :: ms => number h < resume_from rb ∧ answers rb ms
  | MsgNewChunk _ c :: _ =>
      nc_first_block _ c = resume_from rb ∧ ∀ f, reach_at_least rb = Some f → f <= nc_last_block _ c
  | MsgFork _ _ _ :: _ => False
  end.

(** The batcher in the episode a rollback opened, after the messages [ms]. *)
Definition answering (rb : Rollback) (pre : list message) (st : batcher (B:=B) (PT:=PT)) : Prop :=
  ∃ ms, bt_sent st = pre ++ ms ∧ answers rb ms ∧
    (forallb (λ m, negb (is_chunk m)) ms = true → bt_pos st = resume_from rb ∧ bt_floor st = reach_at_least rb).

Lemma answers_snoc rb ms m : answers rb ms →
  (forallb (λ m, negb (is_chunk m)) ms = true → answers rb [m]) → answers rb (ms ++ [m]).
Proof.
  induction ms as [|[h|c|prev a] ms IH]; [by intros _ Hm; apply Hm| |done..].
  intros [Hh Ha] Hm. split; [done|]. by apply IH.
Qed.

Lemma no_chunk_snoc ms (m : message) : forallb (λ m, negb (is_chunk m)) (ms ++ [m]) = true →
  forallb (λ m, negb (is_chunk m)) ms = true ∧ is_chunk m = false.
Proof. rewrite forallb_app. cbn. intros Hb. by destruct (forallb _ ms), m. Qed.

Lemma emit_answering rb pre st : answering rb pre st → answering rb pre (emit_chunk st).
Proof.
  intros Ha. unfold emit_chunk. destruct (head _) as [b|]; [|done]. destruct (last _) as [z|]; [|done].
  destruct (match bt_floor st with Some f => block_number z <? f | None => false end) eqn:Ef; [done|].
  destruct Ha as (ms & E & Ha & Hn). exists (ms ++ [MsgNewChunk _ (batch_chunk st b z)]).
  cbn [bt_sent bt_pos bt_floor]. split; [by rewrite E, app_assoc|]. split.
  - apply answers_snoc; [done|]. intros Hc. destruct (Hn Hc) as [Hp Hf]. cbn. split; [done|].
    intros f Hr. rewrite Hf, Hr in Ef. zbool. lia.
  - by intros [_ ?]%no_chunk_snoc.
Qed.

Lemma same_answering rb pre st st' : bt_sent st' = bt_sent st → bt_pos st' = bt_pos st →
  bt_floor st' = bt_floor st → answering rb pre st → answering rb pre st'.
Proof. intros E1 E2 E3 (ms & E & Ha). exists ms. by rewrite E1, E2, E3. Qed.

Lemma step_answering rb pre st cut ev st' : is_fork ev = false → answering rb pre st →
  batch_step cut ev st = Some st' → answering rb pre st'.
Proof.
  intros Hf Ha. destruct ev as [[h|b f|prev|] r]; unfold batch_step; cbn [fst snd]; [| |done|].
  - intros [= <-]. destruct Ha as (ms & E & Ha & Hn). destruct (number h <? bt_pos st) eqn:Eh.
    + exists (ms ++ [MsgFinalizedHead _ h]). cbn [bt_sent bt_pos bt_floor].
      split; [by rewrite E, app_assoc|]. split.
      * apply answers_snoc; [done|]. intros Hc. destruct (Hn Hc) as [Hp _]. cbn. zbool. rewrite <-Hp. done.
      * by intros [? _]%no_chunk_snoc; auto.
    + exists ms. cbn [bt_sent bt_pos bt_floor]. rewrite app_nil_r. auto.
  - unfold change_mask, take_block. destruct (decide _) as [_|_]; cbn.
    + destruct (linked_to _ _); [|done]. cbn. intros [= <-].
      assert (Hs : ∀ p fin m, answering rb pre (mkBatcher (bt_sent st) (bt_pos st) (bt_floor st) p fin m))
        by (intros p fin m; by apply (same_answering rb pre st)).
      destruct cut; [apply emit_answering|]; apply Hs.
    + pose proof (emit_answering _ _ _ Ha) as He. destruct (bt_pending (emit_chunk st)); [|done].
      unfold linked_to. cbn [mbind option_bind bt_sent bt_pos bt_floor bt_pending bt_fin bt_mask last app].
      intros [= <-].
      assert (Hs : ∀ p fin m,
        answering rb pre (mkBatcher (bt_sent (emit_chunk st)) (bt_pos (emit_chunk st)) (bt_floor (emit_chunk st)) p fin m))
        by (intros p fin m; by apply (same_answering rb pre (emit_chunk st))).
      destruct cut; [apply emit_answering|]; apply Hs.
  - intros [= <-]. by apply emit_answering.
Qed.

Lemma run_answering rb pre evs : ∀ cuts st st', forallb (λ ev, negb (is_fork ev)) evs = true →
  answering rb pre st → batch_run cuts evs st = Some st' → answering rb pre st'.
Proof.
  induction evs as [|ev evs IH]; intros [|cut cuts] st st'; cbn; try done; [by intros _ ? [= <-]|].
  intros [Hf Hr]%andb_true_iff Ha. destruct (batch_step cut ev st) as [st1|] eqn:E; [|done]. cbn.
  apply IH; [done|]. eapply step_answering; [|exact Ha|exact E]. by destruct (is_fork ev).
Qed.

(** The messages of a run that starts with a fork. *)
Lemma fork_answers (accepts : list message → bool) s st prev rb evs s' : refines s st →
  forallb (λ ev, negb (is_fork ev)) evs = true →
  ingest_run (CB:=CB) (CP:=CP) accepts ((EvFork prev, Some rb) :: evs) s = (s', Ok tt) →
  ∃ ms, ig_sent s' = ig_sent s ++ MsgFork _ prev true :: ms ∧ answers rb ms.
Proof.
  intros Hr Hf (cuts & st' & Hl & Hrun & Hr')%(run_refines accepts _ _ _ _ Hr).
  destruct cuts as [|cut cuts]; [done|]. cbn in Hrun.
  assert (Ha : answering rb (bt_sent st ++ [MsgFork _ prev true])
    (mkBatcher (bt_sent st ++ [MsgFork _ prev true]) (resume_from rb) (reach_at_least rb) [] None (bt_mask st))).
  { exists []. by rewrite app_nil_r. }
  destruct (run_answering _ _ _ _ _ _ Hf Ha Hrun) as (ms & E & Hans & _). exists ms. split; [|done].
  destruct Hr as [-> _], Hr' as [-> _]. by rewrite E, <-app_assoc.
Qed.
End answers.

(** ** The controller during a replay *)

Section controller.
Context {M C T : Type} `{HK : KvStore M C} `{HL : !KvStoreLaws M C}
  `{HB : Borsh} `{HBL : !BorshLaws} `{HT : TableReader T} `{HTL : !TableReaderLaws T}
  `{HS : !TableStore M T}.
Context (env : db M → nat → attempt_env M) (counters : tx_counters) (D : Database).
Context {P : Type} (build_tables : P → db M → db M * res (list (string * TableId))).
Implicit Types (d : db M) (w : WriteController) (u : DatasetUpdate M).

(** The controller after it handled the messages without an error. *)
Fixpoint deliver (rf : option Z) (ms : list (IngestMessage P)) w d : option (WriteController * db M) :=
  match ms with
  | [] => Some (w, d)
  | m :: ms =>
      match handle_ingest_msg env counters D build_tables w m rf d with
      | (w, d, Ok _) => deliver rf ms w d
      | _ => None
      end
  end.

(** A finalized head at or above the resume position is the one the replay must reach. *)
Definition floor_covers (rb : Rollback) (l : DatasetLabel) : Prop :=
  ∀ f, label_finalized_head l = Some f → resume_from rb <= number f → reach_at_least rb = Some (number f).

Lemma set_finalized_head_other b w : wc_dataset_id (set_finalized_head b w) = wc_dataset_id w ∧
  wc_first_block (set_finalized_head b w) = wc_first_block w ∧
  wc_parent_block_hash (set_finalized_head b w) = wc_parent_block_hash w.
Proof. unfold set_finalized_head, publish_finalized_head. by case_decide. Qed.

Lemma finalize_other w report d w' d' r : finalize env counters D w report d = (w', d', r) →
  wc_dataset_id w' = wc_dataset_id w ∧ wc_first_block w' = wc_first_block w ∧
  wc_parent_block_hash w' = wc_parent_block_hash w.
Proof.
  unfold finalize. destruct (wc_head w); [|by intros [= <- _ _]].
  destruct (update_dataset _ _ _ _ _ d) as [d1 [[b0|reason]|e|m]]; intros [= <- _ _]; [|done..].
  apply set_finalized_head_other.
Qed.

(** A report below the resume position does not move the floor. *)
Lemma report_keeps_floor rb w report rf d w' d' a l cs : quiet env → wc_inv w d l cs → u64_ok (number report) →
  floor_covers rb l → number report < resume_from rb →
  handle_ingest_msg env counters D build_tables w (MsgFinalizedHead P report) rf d = (w', d', Ok a) →
  ∃ l', wc_inv w' d' l' cs ∧ floor_covers rb l'.
Proof.
  intros Hq Hinv Hr Hc Hlt. cbn [handle_ingest_msg].
  destruct (finalize _ _ _ w report d) as [[w1 d1] r1] eqn:E. intros [= <- <- Ha]. destruct r1 as [[]|e|m]; [|done..].
  apply (finalize_spec env counters D w report d w1 d1 _ l cs Hq Hinv Hr) in E as (l' & Hinv' & _ & _ & Hcase).
  exists l'. split; [done|]. intros f Hf Hle. destruct Hcase as [E|(u & b & Hfr & Eb & Hres)]; [apply Hc; congruence|].
  exfalso. rewrite Eb in Hf. injection Hf as ->.
  pose proof (fresh_ok _ _ _ _ _ (inv_id _ _ _ _ Hinv) (inv_state _ _ _ _ Hinv) Hfr) as Hok.
  apply resolve_applied in Hres as (_ & _ & Hb); [|done..].
  destruct Hb as [(c & _ & -> & Hcl)|[-> _]]; [simpl in Hle|]; lia.
Qed.

Lemma reports_keep_floor rb rf ms : ∀ w d w' d' l cs, quiet env → wc_inv w d l cs → floor_covers rb l →
  Forall (λ m, ∃ h, m = MsgFinalizedHead P h ∧ u64_ok (number h) ∧ number h < resume_from rb) ms →
  deliver rf ms w d = Some (w', d') →
  wc_dataset_id w' = wc_dataset_id w ∧ wc_first_block w' = wc_first_block w ∧
  wc_parent_block_hash w' = wc_parent_block_hash w ∧
  ∃ l', wc_inv w' d' l' cs ∧ floor_covers rb l'.
Proof.
  induction ms as [|m ms IH]; intros w d w' d' l cs Hq Hinv Hc Hall; cbn [deliver].
  { intros [= <- <-]. split_and!; [done..|]. eauto. }
  apply Forall_cons in Hall as [(h & -> & Hh & Hlt) Hall].
  destruct (handle_ingest_msg _ _ _ _ w _ rf d) as [[w1 d1] [a|e|m]] eqn:E; [|done..]. intros Hd.
  destruct (report_keeps_floor rb w h rf d w1 d1 a l cs Hq Hinv Hh Hc Hlt E) as (l1 & Hinv1 & Hc1).
  cbn [handle_ingest_msg] in E. destruct (finalize _ _ _ w h d) as [[w2 d2] r2] eqn:Ef.
  apply finalize_other in Ef as (E1 & E2 & E3). injection E as -> _ _.
  destruct (IH _ _ _ _ _ _ Hq Hinv1 Hc1 Hall Hd) as (F1 & F2 & F3 & ?). split_and!; congruence || done.
Qed.

(** ** Acceptance *)

(** The chunk that owns the first block of a boundary starts there. *)
Lemma boundary_owner w cs from parent x : tiled cs → on_boundary w cs from parent → x ∈ cs →
  first_block x <= from <= last_block x → first_block x = from.
Proof.
  intros Ht (kept & dropped & -> & Hb) Hx Hin. pose proof (tiled_chain _ Ht) as Hch.
  assert (Hcover : ∀ y, y ∈ kept ++ dropped → first_block y = from → first_block x = from).
  { intros y Hy Hf. rewrite <-(chain_covering_unique _ from x y Hch Hx Hy Hin); [done|].
    destruct Ht as [Hall _]. rewrite Forall_forall in Hall. specialize (Hall y Hy). unfold chunk_ok in Hall. lia. }
  destruct (last kept) as [a|] eqn:El.
  - destruct Hb as [Hb _]. destruct dropped as [|y dropped].
    + rewrite app_nil_r in *. pose proof (tiled_last_ge _ _ _ Ht El Hx). lia.
    + apply (Hcover y); [apply elem_of_app; right; lmem|]. destruct Ht as [_ Hadj]. apply adjacent_app in Hadj as (_ & _ & Hcr).
      rewrite El in Hcr. destruct Hcr as [Hcr _]. lia.
  - apply last_None in El as ->. destruct dropped as [|y dropped]; [by apply elem_of_nil in Hx|].
    destruct Hb as [Hb _]. apply (Hcover y); [apply elem_of_cons; by left|done].
Qed.

Lemma boundary_not_inside w cs from parent x : tiled cs → on_boundary w cs from parent → x ∈ cs →
  negb ((first_block x <? from) && (from <=? last_block x))%bool = true.
Proof.
  intros Ht Hb Hx. apply negb_true_iff, andb_false_iff.
  destruct (Z.ltb_spec (first_block x) from); [|by left]. right. apply Z.leb_gt.
  destruct (Z.lt_ge_cases (last_block x) from); [done|]. exfalso.
  pose proof (boundary_owner _ _ _ _ x Ht Hb Hx). lia.
Qed.

Lemma boundary_in_window w cs from parent : tiled cs → on_boundary w cs from parent →
  from_option first_block (wc_first_block w) (head cs) <= from.
Proof.
  intros Ht (kept & dropped & E & Hb). destruct (last kept) as [a|] eqn:El.
  - destruct Hb as [Hb _]. destruct cs as [|y ys]; [by destruct kept|].
    assert (Ha : a ∈ y :: ys) by (rewrite E; apply elem_of_app; left; by apply last_Some_elem_of).
    pose proof (tiled_first_le _ _ _ Ht eq_refl Ha). destruct Ht as [Hall _]. rewrite Forall_forall in Hall.
    specialize (Hall a Ha). unfold chunk_ok in Hall. cbn. lia.
  - destruct (head cs); cbn; lia.
Qed.

(** With no index entries to maintain, the store accepts what the fork specification does. *)
Lemma insert_fork_total id c tx : chunks_cf_ok (tx_view tx CF_CHUNKS) → dataset_id_ok id → chunk_ok c →
  chain (chunks_of (tx_view tx CF_CHUNKS) id) → unindexed id tx →
  ∀ cs', fork_spec (chunks_of (tx_view tx CF_CHUNKS) id) c = Ok cs' → ∃ tx', insert_fork id c tx = Ok tx'.
Proof.
  intros Hok Hd Hc Hch Hu cs' Hf. pose proof (insert_fork_loop_unindexed id c _ tx Hu Hc Hch) as Hloop.
  unfold insert_fork, tx_list_chunks_rev. rewrite list_all_rev by done. rewrite Hf in Hloop.
  destruct (insert_fork_loop id c _ tx) as [tx1| |]; [|done..]. cbn [mbind res_bind].
  assert (unindexed id (write_chunk id c tx1)) as Hw
    by (eapply unindexed_frame; [| |apply write_chunk_frame|exact Hloop]; set_solver).
  rewrite (index_unindexed _ _ _ Hw). eauto.
Qed.

(** A chunk at a boundary that reaches the floor and agrees with the finalized history it
    replaces is accepted. *)
Lemma boundary_chunk_accepted w fin c u from parent :
  upd_ok u → tiled (upd_chunks u) → unindexed (upd_dataset_id u) (upd_tx u) → chunk_ok c →
  on_boundary w (upd_chunks u) from parent → first_block c = from →
  (∀ h, parent = Some h → parent_block_hash c = h) →
  (∀ f, label_finalized_head (upd_label u) = Some f → from <= number f →
     number f <= last_block c ∧ validate_finalized_prefix (upd_dataset_id u) c (number f) (upd_tx u) = Ok None) →
  (∀ r, fin = Some r → ∃ v, resolve_finality u (label_finalized_head (upd_label u)) (Some c) (wc_first_block w) r = Ok v ∧
     ∀ reason, v ≠ FinIntegrityFault reason) →
  ∃ a u', new_chunk_tx w fin c u = Ok (a, u') ∧ fork_spec (upd_chunks u) c = Ok (upd_chunks u').
Proof.
  intros Hok Ht Hun Hc Hb <- Hp Hfin Hrep. destruct (boundary_accepted _ _ _ _ _ Ht Hc Hb eq_refl Hp) as [cs' Hcs].
  pose proof Hok as [Hid Hcf Hch]. unfold new_chunk_tx. rewrite upd_first_chunk_spec by done. cbn [mbind res_bind].
  pose proof (proj2 (Z.leb_le _ _) (boundary_in_window _ _ _ _ Ht Hb)) as Hwin.
  rewrite Hwin. cbn [ensure mbind res_bind]. unfold tx_list_chunks at 1.
  rewrite list_chunks_window; [|done|done|unfold chunk_ok, u64_ok in *; lia|done].
  rewrite first_item_Ok. cbn [mbind res_bind].
  match goal with |- context [head (filter ?g ?l)] => set (owners := filter g l) end.
  assert (Hown : match head owners with
    | Some e => ensure (negb ((first_block e <? first_block c) && (first_block c <=? last_block e)))%bool
        (EFork StaleRollbackBoundary) | None => Ok tt end = Ok tt).
  { destruct (head owners) as [x|] eqn:Ex; [|done]. apply head_Some_elem_of, list_elem_of_filter in Ex as [_ Hx].
    apply ensure_Ok. by apply (boundary_not_inside w (upd_chunks u) _ parent). }
  rewrite Hown. cbn [mbind res_bind]. clear Hown.
  assert (Hg : match label_finalized_head (upd_label u) with
    | Some cur => if first_block c <=? number cur then
        _ ← ensure (number cur <=? last_block c) (EFork DropsFinalizedBlock);
        diverged ← validate_finalized_prefix (upd_dataset_id u) c (number cur) (upd_tx u);
        match diverged with Some _ => Err (EFork RewritesFinalizedHistory) | None => Ok tt end else Ok tt
    | None => Ok tt end = Ok tt).
  { destruct (label_finalized_head _) as [f|]; [|done]. destruct (Z.leb_spec (first_block c) (number f)); [|done].
    destruct (Hfin f eq_refl) as [Hle Hv]; [done|]. apply Z.leb_le in Hle. rewrite Hle. cbn [ensure mbind res_bind]. by rewrite Hv. }
  rewrite Hg. cbn [mbind res_bind]. clear Hg.
  assert (Hd : ∃ q, match fin with
    | Some report =>
        decision ← resolve_finality u (label_finalized_head (upd_label u)) (Some c) (wc_first_block w) report;
        match decision with
        | FinApplied new_head => Ok (Some new_head, None)
        | FinIgnored reason => Ok (label_finalized_head (upd_label u), Some reason)
        | FinIntegrityFault reason => Err (EFork reason)
        end
    | None => Ok (label_finalized_head (upd_label u), None) end = Ok q).
  { destruct fin as [r|]; [|by eexists]. destruct (Hrep r eq_refl) as (v & -> & Hv). cbn.
    destruct v as [b|reason|reason]; [by eexists..|by destruct (Hv reason)]. }
  destruct Hd as [[fin' ig] ->]. cbn [mbind res_bind].
  pose proof (insert_fork_total (upd_dataset_id u) c (upd_tx u) Hcf Hid Hc Hch Hun cs' Hcs) as [tx' Htx].
  unfold upd_insert_fork. cbn [upd_dataset_id upd_tx upd_set_finalized_head]. rewrite Htx. cbn [mbind res_bind].
  eexists _, _. split; [done|]. destruct (insert_fork_Ok _ _ _ _ Hcf Hid Hc Hch Htx) as (_ & E & _). exact E.
Qed.
End controller.

(** ** The composition *)

Section replay.
Context {M C T : Type} `{HK : KvStore M C} `{HL : !KvStoreLaws M C}
  `{HB : Borsh} `{HBL : !BorshLaws} `{HT : TableReader T} `{HTL : !TableReaderLaws T}
  `{HS : !TableStore M T}.
Context {B CB CP PT : Type} `{Block B} `{!ChunkBuilder B CB CP PT} `{!ChunkBuilderLaws B CB CP PT}.
Context (env : db M → nat → attempt_env M) (counters : tx_counters) (D : Database).
#[local] Abbreviation prepared := (list (string * PT)).
#[local] Abbreviation message := (IngestMessage prepared).
Context (build_tables : prepared → db M → db M * res (list (string * TableId))).
Context (accepts : list message → bool).

Lemma answers_split rb (fins rest : list message) nc : answers rb (fins ++ MsgNewChunk _ nc :: rest) →
  Forall (λ m, is_chunk m = false) fins →
  Forall (λ m, ∃ h, m = MsgFinalizedHead _ h ∧ number h < resume_from rb) fins ∧
  nc_first_block _ nc = resume_from rb ∧ ∀ f, reach_at_least rb = Some f → f <= nc_last_block _ nc.
Proof.
  induction fins as [|m fins IH]; cbn [app answers]; [by intros ? _|].
  destruct m as [h|c|prev a]; [|by intros _ [? _]%Forall_cons|done].
  intros [Hh Ha] [_ Hall]%Forall_cons. destruct (IH Ha Hall) as (Hf & ?). split; [|done].
  constructor; [by exists h|done].
Qed.

(** What a replayed chunk [c] with blocks [rows] owes to the stored blocks [stored]: it repeats
    them up to the finalized head, and its report names a block of the new chain or one above
    its end. *)
Definition repeats (fin : option BlockRef) (stored : list (Z * string)) (c : Chunk) (rows : list (Z * string)) : Prop :=
  ∀ f, fin = Some f → first_block c <= number f →
    below (number f) rows = rows_between (first_block c) (number f) stored.
Definition names_block (stored : list (Z * string)) (c : Chunk) (rows : list (Z * string)) (r : BlockRef) : Prop :=
  (number r, hash r) ∈ rows ∨ (number r < first_block c ∧ (number r, hash r) ∈ stored) ∨ last_block c < number r.

(** The prefix check over the blocks of the whole window. *)
Lemma window_rows_between m (tx : Tx M) lo n cs rowss : tx_db tx CF_TABLES = m →
  Forall2 (chunk_rows m) cs rowss →
  ∃ rw, Forall2 (block_rows tx) (filter (λ x, in_window lo (Some n) x = true) cs) rw ∧
    rows_between lo n (concat rw) = rows_between lo n (concat rowss).
Proof.
  intros Hm Hall. induction Hall as [|c rows cs rowss Hc Hall IH]; [by exists []|].
  destruct IH as (rw & Hrw & E). rewrite filter_cons. cbn [concat]. unfold rows_between in *. rewrite filter_app.
  case_decide as Hw.
  - exists (rows :: rw). split; [constructor; [by eapply chunk_rows_block|done]|]. cbn [concat]. by rewrite filter_app, E.
  - exists rw. split; [done|]. rewrite E, (list_filter_none _ rows); [done|]. destruct Hc as (_ & Hr & _).
    rewrite Forall_forall in Hr. intros p Hp. specialize (Hr p Hp). simpl in Hr. unfold in_window in Hw.
    destruct (Z.leb_spec lo (last_block c)), (Z.leb_spec (first_block c) n); simpl in Hw; try done; lia.
Qed.

Lemma repeats_validates u c f rows rowss : upd_ok u → chunk_ok c →
  Forall2 (chunk_rows (tx_db (upd_tx u) CF_TABLES)) (upd_chunks u) rowss →
  chunk_rows (tx_db (upd_tx u) CF_TABLES) c rows →
  below (number f) rows = rows_between (first_block c) (number f) (concat rowss) →
  validate_finalized_prefix (upd_dataset_id u) c (number f) (upd_tx u) = Ok None.
Proof.
  intros [Hid Hcf Hch] Hc Hrows Hrc E.
  destruct (window_rows_between _ (upd_tx u) (first_block c) (number f) _ _ eq_refl Hrows) as (rw & Hrw & Er).
  rewrite (validate_finalized_prefix_spec _ c (number f) _ rows rw); try done; [|by apply chunk_ok_u64|by eapply chunk_rows_block].
  f_equal. apply first_divergence_None. by rewrite Er, <-E.
Qed.

Lemma row_hash_unique (rows : list (Z * string)) n h h' : NoDup rows.*1 → (n, h) ∈ rows → (n, h') ∈ rows → h = h'.
Proof. intros Hn Ha Hb. apply (hash_at_Some _ _ _ Hn) in Ha, Hb. congruence. Qed.

(** A finalized head at or above the first block of a chunk that repeats the window is a block
    of the chunk. *)
Lemma repeats_finalized fin stored c rows f : repeats fin stored c rows → fin = Some f →
  (number f, hash f) ∈ stored → first_block c <= number f → (number f, hash f) ∈ rows.
Proof.
  intros Hrep Ef Hin Hle. assert (Hb : (number f, hash f) ∈ below (number f) rows).
  { rewrite (Hrep f Ef Hle). apply list_elem_of_filter. split; [simpl; lia|done]. }
  by apply list_elem_of_filter in Hb as [_ ?].
Qed.

(** A block of the new chain at the height of the finalized head is the finalized head. *)
Lemma repeats_no_conflict m fin floor rowss c rows r : chunk_ok c → NoDup (concat rowss).*1 → NoDup rows.*1 →
  chunk_rows m c rows → fin_named fin rowss → repeats fin (concat rowss) c rows → names_block (concat rowss) c rows r →
  ∀ reason, finality_spec fin floor (concat rowss) (Some (c, rows)) (get_chunk_head c) r ≠ FinIntegrityFault reason.
Proof.
  intros Hc Hns Hnr Hrc Hfn Hrep Hname reason. unfold chunk_ok in Hc.
  assert (Hhead : (last_block c, last_block_hash c) ∈ rows) by (by eapply head_row).
  assert (Hrange : ∀ n h, (n, h) ∈ rows → first_block c <= n <= last_block c).
  { intros n h Hp. destruct Hrc as (_ & Hr & _). rewrite Forall_forall in Hr. by specialize (Hr _ Hp). }
  assert (Hcur : ∀ eff, ((number eff, hash eff) ∈ rows ∨ number eff < first_block c ∧ (number eff, hash eff) ∈ concat rowss) →
    against_current fin eff ≠ Some (FinIntegrityFault FinalityHashChanged)).
  { intros eff Heff. unfold against_current. destruct fin as [f|]; [|done]. simpl. repeat case_decide; try done.
    exfalso. pose proof (Hfn f eq_refl) as Hf. assert (hash eff = hash f).
    { destruct Heff as [Hin|[Hlt Hin]].
      - apply (row_hash_unique rows (number f)); [done|congruence|]. apply (repeats_finalized _ _ _ _ f Hrep); try done.
        apply Hrange in Hin. lia.
      - apply (row_hash_unique (concat rowss) (number f)); [done|congruence|done]. }
    destruct eff, f; simpl in *; congruence. }
  assert (Hcases : ∀ eff v, against_current fin eff = Some v → v = FinIntegrityFault reason → v = FinIntegrityFault FinalityHashChanged).
  { intros eff v. unfold against_current. destruct fin; [|done]. simpl. repeat case_decide; intros [= <-]; done. }
  unfold finality_spec. cbv zeta. simpl (number (get_chunk_head c)).
  destruct (decide (last_block c < number r)) as [Hclamp|Hin].
  - case_decide; [done|]. destruct (against_current fin (get_chunk_head c)) as [v|] eqn:Ev; [|done]. intros E.
    rewrite (Hcases _ _ Ev E) in Ev. by apply (Hcur (get_chunk_head c)) in Ev; [|left].
  - assert (Hr : (number r, hash r) ∈ rows ∨ number r < first_block c ∧ (number r, hash r) ∈ concat rowss)
      by (destruct Hname as [?|[?|?]]; [by left|by right|lia]).
    case_decide; [done|]. destruct (against_current fin r) as [v|] eqn:Ev.
    { intros E. rewrite (Hcases _ _ Ev E) in Ev. by apply (Hcur r) in Ev. }
    unfold at_height. destruct Hr as [Hr|[Hlt Hr]].
    + pose proof (Hrange _ _ Hr). rewrite decide_True by lia. by rewrite (hash_at_Some _ _ _ Hnr Hr), decide_True.
    + rewrite decide_False by lia. by rewrite (hash_at_Some _ _ _ Hns Hr), decide_True.
Qed.

Lemma NoDup_concat_each (rowss : list (list (Z * string))) : NoDup (concat rowss).*1 → Forall (λ r, NoDup r.*1) rowss.
Proof.
  induction rowss as [|r rowss IH]; [constructor|]. cbn [concat]. rewrite fmap_app, NoDup_app. intros (H1 & _ & H2).
  constructor; auto.
Qed.

(** C11: a fork is recovered from end to end.  The controller answers a fork with a rollback;
    the ingest task resets to it and batches the replayed stream; then the first chunk it
    sends starts at the rollback position and reaches the finalized head of the controller
    that receives it, whatever finality reports were delivered before.  So the transaction of
    that controller accepts the chunk as the replacement of the window above the position,
    when the chunk has the expected parent, repeats the stored blocks up to the finalized head
    and reports as finalized a block of the new chain or one above it.  Acceptance is shown for
    a dataset without hash indexes ([unindexed]) whose blocks tables can be read. *)
Theorem replay_accepted w d l cs prev rb s st evs s' fins rest nc ts rf w1 d1 :
  quiet env → wc_inv w d l cs → Forall (λ b, u64_ok (number b)) prev →
  compute_rollback w prev d = Ok rb →
  refines s st → forallb (λ ev, negb (is_fork ev)) evs = true →
  ingest_run (CB:=CB) (CP:=CP) accepts ((EvFork prev, Some rb) :: evs) s = (s', Ok tt) →
  ig_sent s' = ig_sent s ++ MsgFork _ prev true :: fins ++ MsgNewChunk _ nc :: rest →
  Forall (λ m, is_chunk m = false ∧ msg_ok m) fins →
  deliver env counters D build_tables rf fins w d = Some (w1, d1) →
  chunk_ok (chunk_of nc ts) → (∀ h, expected_parent_hash rb = Some h → nc_parent_block_hash _ nc = h) →
  ∃ l1, wc_inv w1 d1 l1 cs ∧ nc_first_block _ nc = resume_from rb ∧
    (∀ f, label_finalized_head l1 = Some f → resume_from rb <= number f → number f <= nc_last_block _ nc) ∧
    ∀ u rowss rows, fresh_update d1 (wc_dataset_id w1) l1 u → unindexed (wc_dataset_id w1) (upd_tx u) →
      Forall2 (chunk_rows (d1 CF_TABLES)) cs rowss → NoDup (concat rowss).*1 →
      chunk_rows (d1 CF_TABLES) (chunk_of nc ts) rows → NoDup rows.*1 →
      fin_named (label_finalized_head l1) rowss →
      repeats (label_finalized_head l1) (concat rowss) (chunk_of nc ts) rows →
      (∀ r, nc_finalized_head _ nc = Some r → u64_ok (number r) ∧ names_block (concat rowss) (chunk_of nc ts) rows r) →
      ∃ a u', new_chunk_tx w1 (nc_finalized_head _ nc) (chunk_of nc ts) u = Ok (a, u') ∧
        fork_spec cs (chunk_of nc ts) = Ok (upd_chunks u').
Proof.
  intros Hq Hinv Hprev Hrb Href Hnf Hrun Hsent Hfins Hdel Hc Hpar.
  pose proof (compute_rollback_spec w prev d l cs Hinv Hprev) as Hspec. rewrite Hrb in Hspec.
  destruct Hspec as [(Hbound & _ & _ & Hreach) _].
  assert (Hcov : floor_covers rb l).
  { intros f Hf Hle. rewrite Hreach, Hf. by apply Z.leb_le in Hle as ->. }
  destruct (fork_answers accepts s st prev rb evs s' Href Hnf Hrun) as (ms & E & Hans).
  rewrite Hsent in E. apply app_inv_head in E. injection E as <-.
  destruct (answers_split rb fins rest nc Hans) as (Hall & Hfirst & Hfloor).
  { eapply Forall_impl; [exact Hfins|]. by intros m [? _]. }
  destruct (reports_keep_floor env counters D build_tables rb rf fins w d w1 d1 l cs Hq Hinv Hcov)
    as (Eid & Efb & Eph & l1 & Hinv1 & Hcov1); [|exact Hdel|].
  { rewrite Forall_forall in Hall, Hfins |- *. intros m Hm. destruct (Hall m Hm) as (h & -> & Hh).
    destruct (Hfins _ Hm) as [_ Hok]. by exists h. }
  exists l1. split; [done|]. split; [done|]. split; [auto|].
  intros u rowss rows Hf Hun Hrows Hns Hrc Hnr Hfn Hrep Hname.
  pose proof (inv_state _ _ _ _ Hinv1) as Hs1. pose proof (fresh_ok _ _ _ _ _ (inv_id _ _ _ _ Hinv1) Hs1 Hf) as Hok.
  pose proof (fresh_chunks _ _ _ _ Hf) as Ecs. rewrite (ds_chunks _ _ _ _ Hs1) in Ecs.
  pose proof Hf as (F1 & F2 & _ & F4). rewrite <-Ecs in *. rewrite <-F4 in Hrows, Hrc.
  apply (boundary_chunk_accepted w1 _ _ _ (resume_from rb) (expected_parent_hash rb)); try done.
  - exact (ds_tiled _ _ _ _ Hs1).
  - by rewrite F1.
  - unfold on_boundary. rewrite Efb, Eph. exact Hbound.
  - intros f Hfin Hle. rewrite F2 in Hfin. split; [by apply Hfloor, Hcov1|].
    eapply repeats_validates; try done. apply Hrep; [done|]. by rewrite (Hfirst : first_block (chunk_of nc ts) = _).
  - intros r Hr. destruct (Hname r Hr) as [Hru Hn]. rewrite F2.
    rewrite (resolve_finality_reads u _ (Some (chunk_of nc ts, rows)) _ r (get_chunk_head (chunk_of nc ts)) rowss)
      by (done || by apply NoDup_concat_each).
    eexists. split; [done|]. by eapply repeats_no_conflict.
Qed.
End replay.

Module ReplayExamples.
Import Mem ForkExamples DbExamples PrefixExamples ControllerExamples IngestExamples.

(** The window 0-1, 2-4 with block 3 finalized; the stream forks at block 4. *)
Definition t5 : TableId := replicate 16 5.
Definition t6 : TableId := replicate 16 6.
Definition s24 : Chunk := with_blocks 2 4 "b" "e" t5.
Definition fin3 : BlockRef := mkBlockRef 3 "d".
Definition rdb : mdb := make_db [(d0, evm_label (Some fin3))] [(d0, [s1; s24])]
  [(t1, [0; 97; 112; 1; 98; 97]); (t5, [2; 99; 98; 3; 100; 99; 4; 101; 100]);
   (t6, [2; 99; 98; 3; 100; 99; 4; 121; 100])].
Definition rw : WriteController :=
  mkWriteController d0 Evm 0 (Some "p") (Some (mkBlockRef 1 "b")) (Some (mkBlockRef 4 "e")) (Some fin3)
    (Some (mkBlockRef 4 "e")) (Some fin3) [].

Lemma rdb_state : ds_state rdb d0 (evm_label (Some fin3)) [s1; s24].
Proof.
  constructor.
  - vm_compute. reflexivity.
  - apply (make_db_chunks_ok _ [(d0, [s1; s24])]).
    repeat constructor; try apply d0_ok; simpl; unfold u64_max; lia.
  - vm_compute. reflexivity.
  - split; [repeat constructor; simpl; unfold u64_max; lia|].
    simpl. split; [|done]. split; simpl; [lia|done].
  - exists s1, s24. split; [done|]. split; [done|]. simpl. lia.
Qed.
Lemma rw_inv : wc_inv rw rdb (evm_label (Some fin3)) [s1; s24].
Proof. constructor; try done; [exact d0_ok|exact rdb_state]. Qed.

(** The replay: block 2 alone stays below the floor, so the first time on the head nothing
    is sent; a finality report below the position goes out at once. *)
Definition hints : list BlockRef := [fin3; mkBlockRef 4 "y"].
Definition back : Rollback := mkRollback 2 (Some "b") (Some 3).
Definition replay : list (DataEvent blk * option Rollback) :=
  [(EvBlock (mkBlk 2 "c" "b" 0) true, None); (EvMaybeOnHead, None);
   (EvFinalizedHead (mkBlockRef 1 "b"), None); (EvBlock (mkBlk 3 "d" "c" 0) true, None);
   (EvBlock (mkBlk 4 "y" "d" 0) false, None); (EvMaybeOnHead, None)].
Definition start : IngestGeneric (CB:=list blk) (CP:=list blk) (PT:=list Z) :=
  ingest_new (mkDataSource 5 (Some "e")) [] 1500.
Definition sent_chunk : NewChunk (list (string * list Z)) :=
  mkNewChunk _ (Some fin3) "b" 2 4 "y" None None [("blocks", [2; 3; 4])].
Definition one_report : list (IngestMessage (list (string * list Z))) := [MsgFinalizedHead _ (mkBlockRef 1 "b")].
Definition write_t6 (_ : list (string * list Z)) (d : mdb) : mdb * res (list (string * TableId)) :=
  (d, Ok [("blocks", t6)]).
Definition after_report : option (WriteController * mdb) :=
  deliver still counters0 dbase write_t6 None one_report rw rdb.
Definition rlabel : DatasetLabel := bump_version (evm_label (Some fin3)).
Definition rupd (d : mdb) : DatasetUpdate GmapKv.t := mkDatasetUpdate (tx_begin d false false) d0 rlabel.

(** What the controller finds when the chunk arrives. *)
Lemma after_report_facts : match after_report with
  | Some (w, d) => wc_dataset_id w = d0 ∧ kv_get (d CF_DATASETS) d0 = Some (label_to_vec rlabel) ∧
      unindexed d0 (upd_tx (rupd d)) ∧ d CF_TABLES = rdb CF_TABLES
  | None => False
  end.
Proof.
  assert (E : match after_report with Some (w, d) => bool_decide (wc_dataset_id w = d0) &&
      bool_decide (kv_get (d CF_DATASETS) d0 = Some (label_to_vec rlabel)) &&
      bool_decide (d CF_TABLES = rdb CF_TABLES) | None => false end = true) by (vm_compute; reflexivity).
  assert (F : match after_report with Some (w, d) => unindexed d0 (upd_tx (rupd d)) | None => False end)
    by (vm_compute; repeat split).
  destruct after_report as [[w d]|]; [|done]. rewrite !andb_true_iff, !bool_decide_eq_true in E. tauto.
Qed.

Definition rrows (id : TableId) : list (Z * string) :=
  match open_table (rdb CF_TABLES) id with Ok t => rows_of (cells t 0) (cells t 1) | _ => [] end.
Lemma rdb_rows c id : table_get "blocks" (tables c) = Some id → id ∈ [t1; t5; t6] →
  Forall (λ p, first_block c <= p.1 <= last_block c) (rrows id) →
  last (rrows id) = Some (last_block c, last_block_hash c) → chunk_rows (rdb CF_TABLES) c (rrows id).
Proof.
  intros Hc Hid. rewrite !elem_of_cons, elem_of_nil in Hid.
  assert (Ht : ∃ t, open_table (rdb CF_TABLES) id = Ok t)
    by (destruct Hid as [->|[->|[->|[]]]]; eexists; vm_compute; reflexivity).
  destruct Ht as [t Ht]. unfold rrows. rewrite Ht. by apply (mem_rows _ c id).
Qed.
Ltac rrow := apply rdb_rows; [reflexivity|lmem|vm_compute; repeat constructor; intros [=]|vm_compute; reflexivity].

(** The stored and the replayed blocks. *)
Lemma rrows_eq : rrows t1 = [(0, "a"); (1, "b")] ∧ rrows t5 = [(2, "c"); (3, "d"); (4, "e")] ∧
  rrows t6 = [(2, "c"); (3, "d"); (4, "y")].
Proof. vm_compute. repeat split. Qed.
Lemma distinct_numbers (l : list (Z * string)) : bool_decide (NoDup l.*1) = true → NoDup l.*1.
Proof. apply bool_decide_eq_true_1. Qed.

Lemma replay_accepted_witness : ∃ w1 d1 a u',
  compute_rollback rw hints rdb = Ok back ∧ after_report = Some (w1, d1) ∧
  new_chunk_tx w1 (Some fin3) (chunk_of sent_chunk [("blocks", t6)]) (rupd d1) = Ok (a, u') ∧
  fork_spec [s1; s24] (chunk_of sent_chunk [("blocks", t6)]) = Ok (upd_chunks u').
Proof.
  assert (Erb : compute_rollback rw hints rdb = Ok back) by (vm_compute; reflexivity).
  set (o := ingest_run open ((EvFork hints, Some back) :: replay) start).
  assert (Eo : o.2 = Ok tt) by (vm_compute; reflexivity).
  assert (Es : ig_sent o.1 = [] ++ MsgFork _ hints true :: one_report ++ MsgNewChunk _ sent_chunk :: [])
    by (vm_compute; reflexivity).
  assert (E : o = (o.1, o.2)) by apply surjective_pairing. rewrite Eo in E.
  pose proof after_report_facts as Hf. destruct after_report as [[w1 d1]|] eqn:Ed; [|destruct Hf].
  destruct Hf as (F1 & F2 & F3 & F4).
  destruct (replay_accepted still counters0 dbase write_t6 open rw rdb (evm_label (Some fin3)) [s1; s24] hints back
    start (mkBatcher [] 5 None [] None 0) replay o.1 one_report [] sent_chunk [("blocks", t6)] None w1 d1)
    as (l1 & Hinv & _ & _ & Hacc).
  - exact still_quiet.
  - exact rw_inv.
  - repeat constructor; apply small_ok; simpl; lia.
  - exact Erb.
  - apply new_refines. reflexivity.
  - reflexivity.
  - exact E.
  - exact Es.
  - repeat constructor; apply small_ok; simpl; lia.
  - exact Ed.
  - split; simpl; unfold u64_max; lia.
  - intros h [= <-]. reflexivity.
  - pose proof (ds_label _ _ _ _ (inv_state _ _ _ _ Hinv)) as Hl. rewrite F1, F2 in Hl. apply (inj Some) in Hl.
    apply (f_equal label_from_slice) in Hl. rewrite !label_roundtrip in Hl. injection Hl as <-.
    destruct rrows_eq as (R1 & R5 & R6).
    destruct (Hacc (rupd d1) [rrows t1; rrows t5] (rrows t6)) as (a & u' & Ha & Hu).
    + rewrite F1. repeat split.
    + rewrite F1. exact F3.
    + rewrite F4. constructor; [rrow|constructor; [rrow|constructor]].
    + rewrite R1, R5. apply distinct_numbers. vm_compute. reflexivity.
    + rewrite F4. rrow.
    + rewrite R6. apply distinct_numbers. vm_compute. reflexivity.
    + intros f [= <-]. rewrite R1, R5. simpl. lmem.
    + intros f [= <-] _. rewrite R1, R5, R6. reflexivity.
    + intros r [= <-]. split; [apply small_ok; simpl; lia|]. left. rewrite R6. simpl. lmem.
    + exists w1, d1, a, u'. split; [exact Erb|]. split; [reflexivity|]. split; [exact Ha|exact Hu].
Defined.
End ReplayExamples.
