(* ===== verification/Source.v ===== *)
(** * Source: the standard data source

    Models crates/data-source/src/standard.rs (with the request of
    crates/data-client/src/types.rs): a set of endpoints that stream blocks from a shared
    position, retry with backoff, and agree on forks.

    The code is written as polls.  What the environment answers is an input: an [answer] says
    what the response future, the block stream and the timer of an endpoint would yield if
    they were polled now, and a poll of an endpoint runs through a list of answers; at the
    end of the list everything is pending.  The client itself is only its answers. *)

From stdpp Require Import list.
From S2P Require Import Prelude Bytes Data Kv ChunkIter Tables Chain Tx Retry.
From S2P Require Import Cleanup Db WriteController Ingest.

(** [BlockStreamRequest]: the position of the source. *)
Record BlockStreamRequest : Type := mkRequest {
  req_first_block : Z;
  req_parent_block_hash : option string
}.
#[export] Instance BlockStreamRequest_eq_dec : EqDecision BlockStreamRequest.
Proof. solve_decision. Defined.

(** [set_parent_block_hash] copies the string or clears the field. *)
Definition set_parent_block_hash (hash : option string) (r : BlockStreamRequest) : BlockStreamRequest :=
  mkRequest (req_first_block r) hash.

Inductive BlockStreamResponse : Type :=
| RespStream (finalized_head : option BlockRef)
| RespFork (prev_blocks : list BlockRef).

(** One poll: [None] is pending.  The stream item is a raw block of the client. *)
Record answer (RB : Type) : Type := mkAnswer {
  an_response : option (res BlockStreamResponse);
  an_item : option (option (res RB));
  an_sleep : bool
}.
Arguments mkAnswer {RB} an_response an_item an_sleep.
Arguments an_response {RB} a.
Arguments an_item {RB} a.
Arguments an_sleep {RB} a.

Inductive EndpointState : Type :=
| EpReady
| EpReq (req : BlockStreamRequest)
| EpStream (finalized_head : Z)
| EpFork (req : BlockStreamRequest) (prev_blocks : list BlockRef)
| EpBackoff (ms : Z).

Record Endpoint : Type := mkEndpoint {
  ep_state : EndpointState;
  ep_error_counter : Z;
  ep_reject_counter : Z;
  ep_last_committed_block : option Z
}.

Record DataSourceState : Type := mkSourceState {
  ss_finalized_head : option BlockRef;
  ss_position : BlockStreamRequest;
  ss_position_is_canonical : bool;
  ss_max_seen_finalized_block : Z;
  ss_fork_consensus_timeout : bool;
  ss_fork_consensus_started_at : option Z
}.

Record StandardDataSource : Type := mkSource {
  src_endpoints : list Endpoint;
  src_state : DataSourceState
}.

(** ** Backoff *)

Definition BACKOFF_MS : list Z := [0; 100; 200; 500; 1000; 2000; 5000; 10000].
Definition backoff_ms (consecutive : Z) : Z :=
  nth (Z.to_nat (Z.min consecutive (Z.of_nat (length BACKOFF_MS) - 1))) BACKOFF_MS 0.

Definition with_state (s : EndpointState) (ep : Endpoint) : Endpoint :=
  mkEndpoint s (ep_error_counter ep) (ep_reject_counter ep) (ep_last_committed_block ep).

(** The state a pause puts an endpoint into. *)
Definition paused (ms : Z) : EndpointState := if ms >? 0 then EpBackoff ms else EpReady.

Definition on_error (ep : Endpoint) : Endpoint :=
  mkEndpoint (paused (backoff_ms (ep_error_counter ep))) (u64_add (ep_error_counter ep) 1)
    (ep_reject_counter ep) (ep_last_committed_block ep).

Definition on_reject (ep : Endpoint) : Endpoint :=
  mkEndpoint (paused (backoff_ms (ep_reject_counter ep))) (ep_error_counter ep)
    (u64_add (ep_reject_counter ep) 1) (ep_last_committed_block ep).

Definition is_on_fork (ep : Endpoint) : bool :=
  match ep_state ep with EpFork _ _ => true | _ => false end.
Definition is_active (ep : Endpoint) : bool :=
  match ep_state ep with EpBackoff _ => false | _ => true end.

(** ** The shared state *)

Definition set_finalized (b : BlockRef) (st : DataSourceState) : DataSourceState :=
  mkSourceState (Some b) (ss_position st) (ss_position_is_canonical st) (ss_max_seen_finalized_block st)
    (ss_fork_consensus_timeout st) (ss_fork_consensus_started_at st).

Definition reset_fork_consensus (st : DataSourceState) : DataSourceState :=
  mkSourceState (ss_finalized_head st) (ss_position st) (ss_position_is_canonical st)
    (ss_max_seen_finalized_block st) false None.

Definition on_new_finalized_head (new_head : option BlockRef) (st : DataSourceState) : DataSourceState * bool :=
  match new_head with
  | None => (st, false)
  | Some new_head =>
      let st := mkSourceState (ss_finalized_head st) (ss_position st) (ss_position_is_canonical st)
                  (Z.max (ss_max_seen_finalized_block st) (number new_head))
                  (ss_fork_consensus_timeout st) (ss_fork_consensus_started_at st) in
      if req_first_block (ss_position st) =? 0 then (st, false)
      else
        match req_parent_block_hash (ss_position st) with
        | None => (st, false)
        | Some current_parent_hash =>
            let is_behind :=
              match ss_finalized_head st with
              | Some c => number new_head <=? number c
              | None => false
              end in
            if is_behind then (st, false)
            else if req_first_block (ss_position st) <=? number new_head then
              if negb (ss_position_is_canonical st) then (st, false)
              else (set_finalized (mkBlockRef (u64_sub (req_first_block (ss_position st)) 1) current_parent_hash) st, true)
            else (set_finalized new_head st, true)
        end
  end.

Section source.
Context {RB B : Type} `{Block B}.
Context (parse : RB → res B).

Definition accept_new_block (block : B) (is_final : bool) (st : DataSourceState) : res (DataSourceState * bool) :=
  if req_first_block (ss_position st) <=? block_number block then
    if match req_parent_block_hash (ss_position st) with
       | Some parent_hash => bool_decide (block_parent_hash block = parent_hash)
       | None => true
       end
    then
      let st := reset_fork_consensus
                  (mkSourceState (ss_finalized_head st)
                     (mkRequest (u64_add (block_number block) 1) (Some (block_hash block))) true
                     (ss_max_seen_finalized_block st) (ss_fork_consensus_timeout st)
                     (ss_fork_consensus_started_at st)) in
      Ok (if is_final then set_finalized (mkBlockRef (block_number block) (block_hash block)) st else st, true)
    else Ok (st, false)
  else Panic "assertion failed".

Definition start_consensus (now : Z) (st : DataSourceState) : DataSourceState :=
  mkSourceState (ss_finalized_head st) (ss_position st) (ss_position_is_canonical st)
    (ss_max_seen_finalized_block st) (ss_fork_consensus_timeout st)
    (Some (default now (ss_fork_consensus_started_at st))).

(** ** Polling an endpoint *)

Definition clear_errors (s : EndpointState) (ep : Endpoint) : Endpoint :=
  mkEndpoint s 0 (ep_reject_counter ep) (ep_last_committed_block ep).

(** The end of a stream; the source may be on the head. *)
Definition on_stream_end (ep : Endpoint) (st : DataSourceState) : bool :=
  let prev_block := Z.max 0 (req_first_block (ss_position st) - 1) in
  ((ss_max_seen_finalized_block st <=? prev_block) &&
   bool_decide (ep_last_committed_block ep = Some prev_block))%bool.

Definition pending : answer RB := mkAnswer None None false.

Fixpoint poll_endpoint (fuel : nat) (now : Z) (answers : list (answer RB)) (ep : Endpoint) (st : DataSourceState)
  : res (Endpoint * DataSourceState * option (DataEvent B)) :=
  match fuel with
  | O => Panic "out of fuel"
  | S fuel =>
      let polled := default pending (head answers) in
      let answers' := tail answers in
      match ep_state ep with
      | EpReady => poll_endpoint fuel now answers (with_state (EpReq (ss_position st)) ep) st
      | EpReq req =>
          match an_response polled with
          | None => Ok (ep, st, None)
          | Some (Ok (RespStream finalized_head)) =>
              let '(st, updated) := on_new_finalized_head finalized_head st in
              let ep := clear_errors (EpStream (from_option number 0 finalized_head)) ep in
              if updated then
                match finalized_head with
                | Some h => Ok (ep, st, Some (EvFinalizedHead h))
                | None => Panic "called Option::unwrap() on a None value"
                end
              else poll_endpoint fuel now answers' ep st
          | Some (Ok (RespFork prev_blocks)) =>
              poll_endpoint fuel now answers' (clear_errors (EpFork req prev_blocks) ep) (start_consensus now st)
          | Some (Err _) => poll_endpoint fuel now answers' (on_error ep) st
          | Some (Panic m) => Panic m
          end
      | EpStream finalized_head =>
          match an_item polled with
          | None => Ok (ep, st, None)
          | Some None =>
              let on_head := on_stream_end ep st in
              let ep := clear_errors EpReady ep in
              if on_head then Ok (ep, st, Some EvMaybeOnHead) else poll_endpoint fuel now answers' ep st
          | Some (Some (Ok new_block)) =>
              match parse new_block with
              | Ok block =>
                  let ep := clear_errors (ep_state ep) ep in
                  if req_first_block (ss_position st) <=? block_number block then
                    let is_final := block_number block <=? finalized_head in
                    '((st, accepted) : DataSourceState * bool) ← accept_new_block block is_final st;
                    if accepted then
                      Ok (mkEndpoint (ep_state ep) (ep_error_counter ep) 0 (Some (block_number block)), st,
                          Some (EvBlock block is_final))
                    else poll_endpoint fuel now answers' (on_reject ep) st
                  else poll_endpoint fuel now answers' ep st
              | Err _ => poll_endpoint fuel now answers' (on_error ep) st
              | Panic m => Panic m
              end
          | Some (Some (Err _)) => poll_endpoint fuel now answers' (on_error ep) st
          | Some (Some (Panic m)) => Panic m
          end
      | EpFork req _ =>
          if bool_decide (req = ss_position st) then Ok (ep, st, None)
          else poll_endpoint fuel now answers (with_state EpReady ep) st
      | EpBackoff _ =>
          if an_sleep polled then poll_endpoint fuel now answers' (with_state EpReady ep) st
          else Ok (ep, st, None)
      end
  end.

(** Each answer is followed by at most two moves that poll nothing. *)
Definition poll_fuel (answers : list (answer RB)) : nat := 3 * length answers + 3.

(** ** Polling the source *)

(** The inputs of one poll: the clock, whether the two second timer of the consensus has
    elapsed, and the answers for each endpoint. *)
Record poll_input : Type := mkPollInput {
  pi_now : Z;
  pi_timeout : bool;
  pi_answers : list (list (answer RB))
}.

(** The endpoints in order, up to the first that is ready; [i] counts them. *)
Fixpoint poll_endpoints (now : Z) (i : nat) (answers : list (list (answer RB))) (eps : list Endpoint)
    (st : DataSourceState) : res (list Endpoint * DataSourceState * option (nat * DataEvent B)) :=
  match eps with
  | [] => Ok ([], st, None)
  | ep :: eps =>
      let mine := default [] (head answers) in
      '(ep, st, event) ← poll_endpoint (poll_fuel mine) now mine ep st;
      match event with
      | Some ev => Ok (ep :: eps, st, Some (i, ev))
      | None =>
          '(eps, st, event) ← poll_endpoints now (S i) (tail answers) eps st;
          Ok (ep :: eps, st, event)
      end
  end.

(** A committed block makes the strikes of the other endpoints stale. *)
Definition forgive (ep : Endpoint) : Endpoint :=
  let reject_attributable := ((ep_reject_counter ep >? 0) && (ep_error_counter ep =? 0))%bool in
  mkEndpoint (if (reject_attributable && negb (is_active ep))%bool then EpReady else ep_state ep)
    (ep_error_counter ep) 0 (ep_last_committed_block ep).
Definition forgive_others (committed : nat) (eps : list Endpoint) : list Endpoint :=
  imap (λ j ep, if decide (j = committed) then ep else forgive ep) eps.

(** [fork_consensus_timeout]: the timer is armed on the first use and stays until it fires. *)
Definition fork_consensus_timeout (elapsed : bool) (st : DataSourceState) : DataSourceState * bool :=
  (mkSourceState (ss_finalized_head st) (ss_position st) (ss_position_is_canonical st)
     (ss_max_seen_finalized_block st) (negb elapsed) (ss_fork_consensus_started_at st), elapsed).

(** The longest list of hints, the first among equals. *)
Definition longest_fork (eps : list Endpoint) : list BlockRef :=
  foldl (λ chain ep, match ep_state ep with
                     | EpFork _ prev => if (length chain <? length prev)%nat then prev else chain
                     | _ => chain
                     end) [] eps.

Definition extract_fork (s : StandardDataSource) : res (StandardDataSource * list BlockRef) :=
  let chain := longest_fork (src_endpoints s) in
  let s := mkSource (with_state EpReady <$> src_endpoints s) (reset_fork_consensus (src_state s)) in
  if bool_decide (chain = []) then Panic "assertion failed" else Ok (s, chain).

Definition count (f : Endpoint → bool) (eps : list Endpoint) : Z := Z.of_nat (length (filter (λ ep, f ep = true) eps)).

Definition poll_next_event (inp : poll_input) (s : StandardDataSource)
  : res (StandardDataSource * option (DataEvent B)) :=
  '(eps, st, committed) ← poll_endpoints (pi_now inp) 0 (pi_answers inp) (src_endpoints s) (src_state s);
  match committed with
  | Some (i, event) =>
      let eps := match event with EvBlock _ _ => forgive_others i eps | _ => eps end in
      Ok (mkSource eps st, Some event)
  | None =>
      let forks := count is_on_fork eps in
      if forks >? 0 then
        let active := count is_active eps in
        let '(st, decided) :=
          if forks >? Z.of_nat (length eps) / 2 then (st, true)
          else if forks =? active then (st, true)
          else fork_consensus_timeout (pi_timeout inp) st in
        if decided then
          _ ← match ss_fork_consensus_started_at st with
              | Some _ => Ok tt
              | None => Panic "fork consensus must start with the first fork signal"
              end;
          '(s, chain) ← extract_fork (mkSource eps st);
          Ok (s, Some (EvFork chain))
        else Ok (mkSource eps st, None)
      else Ok (mkSource eps (reset_fork_consensus st), None)
  end.

Definition source_new (clients : nat) : StandardDataSource :=
  mkSource (replicate clients (mkEndpoint EpReady 0 0 None))
    (mkSourceState None (mkRequest 0 None) false 0 false None).

Definition source_set_position (next_block : Z) (parent_block_hash : option string) (s : StandardDataSource)
  : StandardDataSource :=
  mkSource ((λ ep, mkEndpoint EpReady (ep_error_counter ep) 0 None) <$> src_endpoints s)
    (reset_fork_consensus
       (mkSourceState None
          (set_parent_block_hash parent_block_hash
             (mkRequest next_block (req_parent_block_hash (ss_position (src_state s)))))
          false (ss_max_seen_finalized_block (src_state s)) (ss_fork_consensus_timeout (src_state s))
          (ss_fork_consensus_started_at (src_state s)))).

Definition get_next_block (s : StandardDataSource) : Z := req_first_block (ss_position (src_state s)).
Definition get_parent_block_hash (s : StandardDataSource) : option string :=
  req_parent_block_hash (ss_position (src_state s)).
End source.
