(* ===== verification/SourceSpec.v ===== *)
(** * SourceSpec: the invariant of the standard data source

    A poll of a well-formed source always returns: the assertions of the code hold and the
    loop over an endpoint ends.  What a poll reports is described by [emits]: how the event
    relates to the position before and after it. *)

From stdpp Require Import list.
From S2P Require Import Prelude Bytes Data Kv ChunkIter Tables Chain Tx Retry.
From S2P Require Import Cleanup Db WriteController Ingest Source.

Section spec.
Context {RB B : Type} `{Block B}.
Context (parse : RB → res B).
Implicit Types (st : DataSourceState) (ep : Endpoint) (answers : list (answer RB)).

(** ** Well-formed inputs and states *)

(** A client reports a fork with at least one hint, numbers are 64-bit, a block leaves room
    for its successor, and nothing panics. *)
Definition answer_ok (a : answer RB) : Prop :=
  (∀ r, an_response a = Some r →
     match r with
     | Ok (RespFork prev) => prev ≠ []
     | Ok (RespStream fin) => ∀ h, fin = Some h → u64_ok (number h)
     | Err _ => True
     | Panic _ => False
     end) ∧
  (∀ r, an_item a = Some (Some r) →
     match r with
     | Ok rb => match parse rb with
                | Ok b => 0 <= block_number b < u64_max
                | Err _ => True
                | Panic _ => False
                end
     | Err _ => True
     | Panic _ => False
     end).

Definition first_of st : Z := req_first_block (ss_position st).

(** The finalized head the source remembers lies below the position. *)
Definition state_ok st : Prop :=
  u64_ok (first_of st) ∧ ∀ f, ss_finalized_head st = Some f → 0 <= number f < first_of st.

(** An endpoint that reported a fork at the current position has started the consensus. *)
Definition endpoint_ok st ep : Prop :=
  match ep_state ep with
  | EpReq req => req_first_block req <= first_of st
  | EpFork req prev => prev ≠ [] ∧ req_first_block req <= first_of st ∧
      (req = ss_position st → is_Some (ss_fork_consensus_started_at st))
  | _ => True
  end.

Definition source_ok (s : StandardDataSource) : Prop :=
  state_ok (src_state s) ∧ Forall (endpoint_ok (src_state s)) (src_endpoints s).

(** The position moves up, or stays with the consensus it has. *)
Definition advances st st' : Prop :=
  first_of st < first_of st' ∨
  ss_position st' = ss_position st ∧
  (is_Some (ss_fork_consensus_started_at st) → is_Some (ss_fork_consensus_started_at st')).

Lemma advances_refl st : advances st st.
Proof. right. auto. Qed.
Lemma advances_trans st1 st2 st3 : advances st1 st2 → advances st2 st3 → advances st1 st3.
Proof.
  unfold advances, first_of. intros [H1|[E1 H1]] [H2|[E2 H2]]; [left; lia|left; congruence|left; congruence|].
  right. split; [congruence|auto].
Qed.
Lemma endpoint_ok_mono st st' ep : advances st st' → endpoint_ok st ep → endpoint_ok st' ep.
Proof.
  unfold advances, endpoint_ok, first_of. destruct (ep_state ep) as [|req| |req prev|]; try done.
  - intros [Hlt|[E _]]; [lia|by rewrite E].
  - intros Hadv (Hp & Hle & Hs). split; [done|]. destruct Hadv as [Hlt|[E Hst]].
    + split; [lia|]. intros ->. lia.
    + rewrite E. auto.
Qed.

(** ** Events *)

(** How an event relates the states before and after. *)
Definition emits st (ev : option (DataEvent B)) st' : Prop :=
  match ev with
  | None | Some EvMaybeOnHead =>
      ss_position st' = ss_position st ∧ ss_finalized_head st' = ss_finalized_head st
  | Some (EvFork prev) =>
      prev ≠ [] ∧ ss_position st' = ss_position st ∧ ss_finalized_head st' = ss_finalized_head st
  | Some (EvFinalizedHead h) => ss_position st' = ss_position st ∧ u64_ok (number h) ∧
      ∃ f, ss_finalized_head st' = Some f ∧ number f = Z.min (number h) (first_of st - 1) ∧
        ∀ c, ss_finalized_head st = Some c → number c < number h
  | Some (EvBlock b is_final) =>
      first_of st <= block_number b < u64_max ∧
      (∀ h, req_parent_block_hash (ss_position st) = Some h → block_parent_hash b = h) ∧
      ss_position st' = mkRequest (block_number b + 1) (Some (block_hash b)) ∧
      ss_finalized_head st' = if is_final then Some (mkBlockRef (block_number b) (block_hash b))
                              else ss_finalized_head st
  end.

Lemma on_new_finalized_head_spec fin st st' updated : state_ok st → (∀ h, fin = Some h → u64_ok (number h)) →
  on_new_finalized_head fin st = (st', updated) →
  state_ok st' ∧ advances st st' ∧
  (if updated then ∃ h, fin = Some h ∧ emits st (Some (EvFinalizedHead h)) st' else emits st None st').
Proof.
  intros [Hu Hf] Hh. unfold on_new_finalized_head, advances, first_of in *. destruct fin as [h|].
  2: { intros [= <- <-]. split_and!; try done. by right. }
  specialize (Hh h eq_refl). unfold u64_ok in *. cbn [ss_position ss_finalized_head ss_position_is_canonical].
  destruct (Z.eqb_spec (req_first_block (ss_position st)) 0) as [|H0].
  { intros [= <- <-]. split_and!; try done. by right. }
  destruct (req_parent_block_hash (ss_position st)) as [ph|]; [|intros [= <- <-]; split_and!; try done; by right].
  destruct (match ss_finalized_head st with Some c => number h <=? number c | None => false end) eqn:Eb;
    [intros [= <- <-]; split_and!; try done; by right|].
  assert (Hc : ∀ c, ss_finalized_head st = Some c → number c < number h).
  { intros c Ec. rewrite Ec in Eb. zbool. lia. }
  destruct (Z.leb_spec (req_first_block (ss_position st)) (number h)) as [Hle|Hlt].
  - destruct (ss_position_is_canonical st); cbn [negb]; [|intros [= <- <-]; split_and!; try done; by right].
    intros [= <- <-]. unfold state_ok, emits, first_of, u64_ok. cbn. rewrite u64_sub_small by lia.
    split_and!; try done; try lia.
    + intros f [= <-]. cbn. lia.
    + by right.
    + exists h. split_and!; try done; try lia. eexists. split; [done|]. cbn. split; [lia|done].
  - intros [= <- <-]. unfold state_ok, emits, first_of, u64_ok. cbn. split_and!; try done; try lia.
    + intros f [= <-]. lia.
    + by right.
    + exists h. split_and!; try done; try lia. eexists. split; [done|]. split; [lia|done].
Qed.

Lemma accept_spec block is_final st : state_ok st → 0 <= block_number block < u64_max →
  first_of st <= block_number block →
  ∃ st' accepted, accept_new_block block is_final st = Ok (st', accepted) ∧
    if accepted : bool then state_ok st' ∧ first_of st < first_of st' ∧ emits st (Some (EvBlock block is_final)) st'
    else st' = st.
Proof.
  intros [Hu Hf] Hb Hle. unfold accept_new_block, first_of in *. apply Z.leb_le in Hle as Hle'. rewrite Hle'.
  destruct (match req_parent_block_hash (ss_position st) with Some _ => _ | None => true end) eqn:Ep.
  2: { by eexists _, false. }
  eexists _, true. split; [done|]. unfold reset_fork_consensus. cbn.
  rewrite u64_add_small by (unfold u64_max in *; lia). unfold state_ok, emits, first_of, u64_ok.
  assert (Hlink : ∀ h, req_parent_block_hash (ss_position st) = Some h → block_parent_hash block = h).
  { intros h Eh. rewrite Eh in Ep. by apply bool_decide_eq_true in Ep. }
  destruct is_final; cbn; split_and!; try done; try lia.
  - intros f [= <-]. cbn. lia.
  - intros f Ef. specialize (Hf f Ef). lia.
Qed.

(** ** Polling an endpoint *)

(** The moves that poll nothing. *)
Definition idle_moves (s : EndpointState) : nat :=
  match s with EpFork _ _ => 2 | EpReady => 1 | _ => 0 end.

(** A pending endpoint that reported a fork did so at the current position. *)
Definition settled st ep : Prop :=
  match ep_state ep with EpFork req _ => req = ss_position st | _ => True end.

Definition polled_ok st (o : res (Endpoint * DataSourceState * option (DataEvent B))) : Prop :=
  ∃ ep' st' ev, o = Ok (ep', st', ev) ∧ state_ok st' ∧ endpoint_ok st' ep' ∧ advances st st' ∧ emits st ev st' ∧
    (ev = None → settled st' ep') ∧ (∀ prev, ev ≠ Some (EvFork prev)).

(** A step that keeps position and finalized head, followed by the rest. *)
Lemma polled_ok_step st st' o : ss_position st' = ss_position st → ss_finalized_head st' = ss_finalized_head st →
  advances st st' → polled_ok st' o → polled_ok st o.
Proof.
  intros E1 E2 Ha (ep' & st'' & ev & -> & Hs & He & Ha' & Hem & Hset & Hnf). exists ep', st'', ev.
  split_and!; try done; [by eapply advances_trans|].
  destruct ev as [[h|b f|prev|]|]; unfold emits, first_of in *; rewrite ?E1, ?E2 in Hem; done.
Qed.

Lemma idle_paused ms : (idle_moves (paused ms) <= 1)%nat.
Proof. unfold paused. case_if; simpl; lia. Qed.
Lemma endpoint_ok_paused st ms e r l : endpoint_ok st (mkEndpoint (paused ms) e r l).
Proof. unfold endpoint_ok, paused. cbn. by case_if. Qed.

Lemma start_consensus_advances now st : advances st (start_consensus now st).
Proof. right. split; [done|]. intros _. by eexists. Qed.

Lemma poll_endpoint_spec now fuel : ∀ answers ep st,
  state_ok st → endpoint_ok st ep → Forall answer_ok answers →
  (3 * length answers + idle_moves (ep_state ep) < fuel)%nat →
  polled_ok st (poll_endpoint parse fuel now answers ep st).
Proof.
  induction fuel as [|fuel IH]; intros answers ep st Hs He Ha Hf; [lia|]. cbn [poll_endpoint].
  assert (Hrest : ∀ ep' st', answers ≠ [] → state_ok st' → endpoint_ok st' ep' →
    polled_ok st' (poll_endpoint parse fuel now (tail answers) ep' st')).
  { intros ep' st' Hne Hs' He'. apply IH; [done|done| |].
    - destruct answers; [done|]. by apply Forall_cons in Ha as [_ ?].
    - destruct answers as [|a answers]; [done|]. cbn [tail length] in *.
      assert (idle_moves (ep_state ep') <= 2)%nat by (destruct (ep_state ep'); simpl; lia). lia. }
  assert (Hpend : settled st ep → polled_ok st (Ok (ep, st, None))).
  { intros Hset. exists ep, st, None. split_and!; try done. apply advances_refl. }
  assert (Hans : answers = [] ∧ default (pending (RB:=RB)) (head answers) = pending ∨
    ∃ a, default (pending (RB:=RB)) (head answers) = a ∧ answers ≠ [] ∧ answer_ok a).
  { destruct answers as [|a answers]; [by left|]. right. apply Forall_cons in Ha as [? _]. by exists a. }
  unfold endpoint_ok in He. destruct (ep_state ep) as [|req|fh|req prev|ms] eqn:Eep.
  - apply IH; [done| |done|cbn [with_state ep_state idle_moves] in *; lia]. unfold endpoint_ok. cbn. unfold first_of. lia.
  - destruct Hans as [[-> ->]|(a & -> & Hne & Hr & _)]; [apply Hpend; unfold settled; by rewrite Eep|].
    destruct (an_response a) as [r|]; [|apply Hpend; unfold settled; by rewrite Eep].
    specialize (Hr r eq_refl). destruct r as [[fin|prev]|e|m]; [| | |done].
    + destruct (on_new_finalized_head fin st) as [st' upd] eqn:Eo.
      destruct (on_new_finalized_head_spec fin st st' upd Hs Hr Eo) as (Hs' & Hadv & Hu). destruct upd.
      * destruct Hu as (h & -> & Hem). eexists _, st', _. by split_and!.
      * destruct Hu as [E1 E2]. eapply polled_ok_step; [done|done|done|]. by apply Hrest.
    + apply (polled_ok_step st (start_consensus now st)); [done|done|apply start_consensus_advances|].
      apply Hrest; [done|done|]. unfold endpoint_ok. cbn. split_and!; [done|exact He|by eexists].
    + apply Hrest; [done|done|apply endpoint_ok_paused].
  - destruct Hans as [[-> ->]|(a & -> & Hne & _ & Hi)]; [apply Hpend; unfold settled; by rewrite Eep|].
    destruct (an_item a) as [[r|]|]; [| |apply Hpend; unfold settled; by rewrite Eep].
    + specialize (Hi r eq_refl). destruct r as [rb|e|m]; [|apply Hrest; [done|done|apply endpoint_ok_paused]|done].
      destruct (parse rb) as [b|e|m]; [|apply Hrest; [done|done|apply endpoint_ok_paused]|done].
      destruct (Z.leb_spec (req_first_block (ss_position st)) (block_number b)) as [Hle|Hlt].
      * destruct (accept_spec b (block_number b <=? fh) st Hs Hi Hle) as (st' & acc & Eacc & Hacc).
        rewrite Eacc. cbn [mbind res_bind]. destruct acc.
        -- destruct Hacc as (Hs' & Hlt & Hem). eexists _, st', _. split_and!; try done.
           by left.
        -- subst st'. apply Hrest; [done|done|apply endpoint_ok_paused].
      * apply Hrest; [done|done|]. done.
    + destruct (on_stream_end ep st); [|by apply Hrest].
      eexists _, st, _. split_and!; try done. apply advances_refl.
  - destruct He as (Hp & Hle & Hst). case_bool_decide as Eq; [apply Hpend; unfold settled; by rewrite Eep|].
    apply IH; [done|done|done|]. cbn [with_state ep_state idle_moves] in *. lia.
  - destruct Hans as [[-> ->]|(a & -> & Hne & _)]; [apply Hpend; unfold settled; by rewrite Eep|].
    destruct (an_sleep a); [by apply Hrest|apply Hpend; unfold settled; by rewrite Eep].
Qed.

Lemma poll_endpoint_ok now answers ep st : state_ok st → endpoint_ok st ep → Forall answer_ok answers →
  polled_ok st (poll_endpoint parse (poll_fuel answers) now answers ep st).
Proof.
  intros Hs He Ha. apply poll_endpoint_spec; [done..|]. unfold poll_fuel.
  assert (idle_moves (ep_state ep) <= 2)%nat by (destruct (ep_state ep); simpl; lia). lia.
Qed.

(** ** Polling the source *)

Definition input_ok (inp : poll_input (RB:=RB)) : Prop := Forall (Forall answer_ok) (pi_answers inp).

Lemma poll_endpoints_spec now eps : ∀ i (answers : list (list (answer RB))) st,
  state_ok st → Forall (endpoint_ok st) eps → Forall (Forall answer_ok) answers →
  ∃ eps' st' ev, poll_endpoints parse now i answers eps st = Ok (eps', st', ev) ∧
    state_ok st' ∧ Forall (endpoint_ok st') eps' ∧ length eps' = length eps ∧ advances st st' ∧
    emits st (snd <$> ev) st' ∧ (ev = None → Forall (settled st') eps') ∧
    (∀ j prev, ev ≠ Some (j, EvFork prev)).
Proof.
  induction eps as [|ep eps IH]; intros i answers st Hs He Ha; cbn [poll_endpoints].
  { exists [], st, None. split_and!; try done. apply advances_refl. }
  apply Forall_cons in He as [Hep Heps].
  assert (Hmine : Forall answer_ok (default [] (head answers))).
  { destruct answers as [|a answers]; [constructor|]. by apply Forall_cons in Ha as [? _]. }
  destruct (poll_endpoint_ok now _ ep st Hs Hep Hmine) as (ep' & st1 & ev & -> & Hs1 & Hep' & Hadv & Hem & Hset & Hnf).
  cbn [mbind res_bind].
  assert (Heps1 : Forall (endpoint_ok st1) eps).
  { eapply Forall_impl; [exact Heps|]. intros x. by apply endpoint_ok_mono. }
  destruct ev as [ev|].
  - exists (ep' :: eps), st1, (Some (i, ev)). split_and!; try done; [by constructor|].
    intros j prev [= -> ->]. by apply (Hnf prev).
  - assert (Ht : Forall (Forall answer_ok) (tail answers)).
    { destruct answers; [constructor|]. by apply Forall_cons in Ha as [_ ?]. }
    destruct (IH (S i) (tail answers) st1 Hs1 Heps1 Ht) as (eps' & st2 & ev & -> & Hs2 & He2 & Hl & Hadv2 & Hem2 & Hset2 & Hnf2).
    cbn [mbind res_bind]. destruct Hem as [E1 E2]. exists (ep' :: eps'), st2, ev. split_and!; try done.
    + constructor; [by eapply endpoint_ok_mono|done].
    + simpl. by rewrite Hl.
    + by eapply advances_trans.
    + destruct ev as [[j [h|b f|prev|]]|]; unfold emits, first_of in *; cbn in *; rewrite ?E1, ?E2 in Hem2; done.
    + intros ->. specialize (Hset2 eq_refl). destruct Hem2 as [E3 _].
      constructor; [|done]. specialize (Hset eq_refl). unfold settled in *. by rewrite E3.
Qed.

Lemma forgive_ok st ep : endpoint_ok st ep → endpoint_ok st (forgive ep).
Proof. unfold forgive, endpoint_ok. cbn. by case_if. Qed.

Lemma forgive_others_ok st i eps : Forall (endpoint_ok st) eps → Forall (endpoint_ok st) (forgive_others i eps).
Proof.
  rewrite !Forall_lookup. intros Hall j ep. unfold forgive_others. rewrite list_lookup_imap.
  destruct (eps !! j) as [ep0|] eqn:E; [|done]. cbn. intros [= <-]. specialize (Hall j ep0 E).
  case_decide; [done|by apply forgive_ok].
Qed.

Lemma longest_fork_ne eps st ep : Forall (endpoint_ok st) eps → ep ∈ eps → is_on_fork ep = true →
  longest_fork eps ≠ [].
Proof.
  unfold longest_fork. intros Hall Hin Hf.
  assert (Hgen : ∀ l acc, Forall (endpoint_ok st) l → acc ≠ [] ∨ (∃ e, e ∈ l ∧ is_on_fork e = true) →
    foldl (λ chain ep, match ep_state ep with
      | EpFork _ prev => if (length chain <? length prev)%nat then prev else chain | _ => chain end) acc l ≠ []).
  { induction l as [|e l IH]; intros acc Hl Hor; cbn [foldl].
    - destruct Hor as [?|(e & He & _)]; [done|by apply elem_of_nil in He].
    - apply Forall_cons in Hl as [He Hl]. apply IH; [done|]. unfold endpoint_ok in He.
      destruct Hor as [Hne|(e' & [->|He']%elem_of_cons & Hf')]; [| |right; by exists e'].
      + left. destruct (ep_state e); try done. destruct He as [? _]. by case_if.
      + unfold is_on_fork in Hf'. destruct (ep_state e); try done. destruct He as [Hp _]. left.
        destruct (length acc <? length prev_blocks)%nat eqn:El; [done|]. apply Nat.ltb_ge in El.
        intros ->. destruct prev_blocks; [done|]. simpl in El. lia. }
  apply Hgen; [done|]. right. by exists ep.
Qed.

Lemma count_pos f eps : count f eps > 0 → ∃ ep, ep ∈ eps ∧ f ep = true.
Proof.
  unfold count. destruct (filter _ eps) as [|ep l] eqn:E; [simpl; lia|]. intros _. exists ep.
  assert (Hin : ep ∈ filter (λ ep, f ep = true) eps) by (rewrite E; apply elem_of_cons; by left).
  apply list_elem_of_filter in Hin as [? ?]. done.
Qed.

(** The source between polls: where it is, and what it does not do. *)
Lemma poll_next_event_spec inp s : source_ok s → input_ok inp →
  ∃ s' ev, poll_next_event parse inp s = Ok (s', ev) ∧ source_ok s' ∧ emits (src_state s) ev (src_state s') ∧
    length (src_endpoints s') = length (src_endpoints s).
Proof.
  intros [Hs He] Hi. unfold poll_next_event.
  destruct (poll_endpoints_spec (pi_now inp) (src_endpoints s) 0 (pi_answers inp) _ Hs He Hi)
    as (eps & st & ev & -> & Hs' & He' & Hl & Hadv & Hem & Hset & Hnf). cbn [mbind res_bind].
  destruct ev as [[i ev]|].
  { eexists _, (Some ev). split; [done|]. split; [split; [done|]|].
    - cbn. destruct ev; [done|by apply forgive_others_ok|done..].
    - split; [done|]. cbn. destruct ev; [done| |done..]. unfold forgive_others. by rewrite length_imap. }
  specialize (Hset eq_refl). destruct Hem as [E1 E2].
  destruct (count is_on_fork eps >? 0) eqn:Ec.
  2: { eexists _, None. split; [done|]. split_and!; try done. split; [done|]. cbn.
       rewrite Forall_forall in He', Hset |- *. intros ep Hep. specialize (He' ep Hep). specialize (Hset ep Hep).
       assert (Hnof : is_on_fork ep = false).
       { destruct (is_on_fork ep) eqn:Ef; [|done]. exfalso.
         unfold count in Ec. assert (Hin : ep ∈ filter (λ ep, is_on_fork ep = true) eps) by (by apply list_elem_of_filter).
         destruct (filter _ eps) as [|x xs] eqn:Ex; [by apply elem_of_nil in Hin|]. simpl in Ec. done. }
       unfold is_on_fork, endpoint_ok in *. by destruct (ep_state ep). }
  assert (Hcp : count is_on_fork eps > 0) by (rewrite Z.gtb_ltb in Ec; zbool; lia).
  destruct (count_pos _ _ Hcp) as (ep & Hep & Hf).
  assert (Hstart : is_Some (ss_fork_consensus_started_at st)).
  { rewrite Forall_forall in He', Hset. specialize (He' ep Hep). specialize (Hset ep Hep).
    unfold is_on_fork, endpoint_ok, settled in *. destruct (ep_state ep); try done. by apply He'. }
  match goal with |- context [let '(_, _) := ?o in _] => set (dec := o) end.
  assert (Hdec : ss_position dec.1 = ss_position st ∧ ss_finalized_head dec.1 = ss_finalized_head st ∧
    ss_fork_consensus_started_at dec.1 = ss_fork_consensus_started_at st).
  { unfold dec. repeat case_if; done. }
  destruct dec as [st2 d]. cbn in Hdec. destruct Hdec as (D1 & D2 & D3).
  assert (Hs2 : state_ok st2) by (unfold state_ok, first_of in *; by rewrite D1, D2).
  assert (Hadv2 : advances st st2) by (right; split; [done|by rewrite D3]).
  destruct d.
  - rewrite D3. destruct Hstart as [t0 ->]. cbn [mbind res_bind]. unfold extract_fork. cbn.
    rewrite bool_decide_false by (by eapply longest_fork_ne). cbn [mbind res_bind].
    eexists _, (Some _). split; [done|]. split; [split; [done|]|].
    + cbn. apply Forall_fmap, Forall_true. by intros.
    + split; [|cbn; by rewrite length_fmap].
      split; [by eapply longest_fork_ne|]. cbn. split; congruence.
  - eexists _, None. split; [done|]. split; [|split; [cbn; split; congruence|done]].
    split; [done|]. cbn. eapply Forall_impl; [exact He'|]. intros x. by apply endpoint_ok_mono.
Qed.

Lemma source_new_ok n : source_ok (source_new n).
Proof.
  split; [split; [unfold u64_ok, u64_max; cbn; lia|done]|]. cbn. apply Forall_replicate. done.
Qed.

Lemma set_position_ok next parent s : u64_ok next → source_ok (source_set_position next parent s).
Proof. intros Hn. split; [by split|]. cbn. apply Forall_fmap, Forall_true. by intros. Qed.
End spec.
