(* ===== verification/SourceProps.v ===== *)
(** * SourceProps: what the standard data source guarantees

    Safety of every poll of every reachable source, the chain its block events form, when
    and how it reports a fork, and that a client that serves the position makes it move. *)

From stdpp Require Import list relations.
From S2P Require Import Prelude Bytes Data Kv ChunkIter Tables Chain Tx Retry.
From S2P Require Import Cleanup Db WriteController Ingest IngestSpec IngestProps Source SourceSpec.

Section props.
Context {RB B : Type} `{Block B}.
Context (parse : RB → res B).

(** ** Runs *)

(** What happens to a source: it is polled, or moved by its user. *)
Inductive source_step : StandardDataSource → StandardDataSource → Prop :=
| step_poll inp s s' ev : input_ok parse inp → poll_next_event parse inp s = Ok (s', ev) → source_step s s'
| step_position next parent s : u64_ok next → source_step s (source_set_position next parent s).

Lemma source_step_ok s s' : source_step s s' → source_ok s → source_ok s'.
Proof.
  intros [inp s1 s2 ev Hi E|next parent s1 Hn] Hok; [|by apply set_position_ok].
  destruct (poll_next_event_spec parse inp s1 Hok Hi) as (s3 & ev2 & E2 & Hok2 & _). congruence.
Qed.

Lemma reachable_ok n s : rtc source_step (source_new n) s → source_ok s.
Proof.
  generalize (source_new_ok n). generalize (source_new n). intros s0 Hok Hr.
  induction Hr as [|s1 s2 s3 Hst _ IH]; [done|]. apply IH. by eapply source_step_ok.
Qed.

(** A run of polls and the events it yields. *)
Fixpoint poll_run (inps : list (poll_input (RB:=RB))) (s : StandardDataSource)
  : res (StandardDataSource * list (DataEvent B)) :=
  match inps with
  | [] => Ok (s, [])
  | inp :: inps =>
      '(s, ev) ← poll_next_event parse inp s;
      '(s, evs) ← poll_run inps s;
      Ok (s, match ev with Some ev => ev :: evs | None => evs end)
  end.

Definition block_of (ev : DataEvent B) : list B := match ev with EvBlock b _ => [b] | _ => [] end.
Definition blocks_of (evs : list (DataEvent B)) : list B := concat (block_of <$> evs).

(** The blocks extend the position [pos] to [pos']: numbers ascend, each block names its
    predecessor, and the position is the one after the last. *)
Fixpoint extends (pos : BlockStreamRequest) (bs : list B) (pos' : BlockStreamRequest) : Prop :=
  match bs with
  | [] => pos' = pos
  | b :: bs =>
      req_first_block pos <= block_number b < u64_max ∧
      (∀ h, req_parent_block_hash pos = Some h → block_parent_hash b = h) ∧
      extends (mkRequest (block_number b + 1) (Some (block_hash b))) bs pos'
  end.

Lemma emits_extends st ev st' : emits st (Some ev) st' → extends (ss_position st) (block_of ev) (ss_position st').
Proof.
  destruct ev as [h|b f|prev|]; cbn; [by intros [-> _]| |by intros (_ & -> & _)|by intros [-> _]].
  intros (Hb & Hl & -> & _). done.
Qed.

Lemma extends_app pos1 pos2 pos3 bs1 bs2 : extends pos1 bs1 pos2 → extends pos2 bs2 pos3 →
  extends pos1 (bs1 ++ bs2) pos3.
Proof.
  revert pos1. induction bs1 as [|b bs1 IH]; intros pos1; cbn; [by intros ->|].
  intros (Hb & Hl & He) H2. split; [done|]. split; [done|]. by apply IH.
Qed.

Lemma poll_run_extends inps : ∀ s s' evs, source_ok s → Forall (input_ok parse) inps →
  poll_run inps s = Ok (s', evs) →
  source_ok s' ∧ extends (ss_position (src_state s)) (blocks_of evs) (ss_position (src_state s')).
Proof.
  induction inps as [|inp inps IH]; intros s s' evs Hok Hi; cbn [poll_run].
  { intros [= <- <-]. done. }
  apply Forall_cons in Hi as [Hi Hall].
  destruct (poll_next_event_spec parse inp s Hok Hi) as (s1 & ev & -> & Hok1 & Hem & _). cbn [mbind res_bind].
  destruct (poll_run inps s1) as [[s2 evs2]|e|m] eqn:E; [|done..]. cbn [mbind res_bind]. intros [= <- <-].
  destruct (IH s1 s2 evs2 Hok1 Hall E) as [Hok2 He]. split; [done|]. destruct ev as [ev|].
  - unfold blocks_of. cbn. eapply extends_app; [by apply emits_extends|exact He].
  - destruct Hem as [<- _]. exact He.
Qed.

Lemma poll_run_total inps : ∀ s, source_ok s → Forall (input_ok parse) inps → ∃ s' evs, poll_run inps s = Ok (s', evs).
Proof.
  induction inps as [|inp inps IH]; intros s Hok Hi; cbn [poll_run]; [by eexists _, _|].
  apply Forall_cons in Hi as [Hi Hall].
  destruct (poll_next_event_spec parse inp s Hok Hi) as (s1 & ev & -> & Hok1 & _). cbn [mbind res_bind].
  destruct (IH s1 Hok1 Hall) as (s2 & evs & ->). cbn. by eexists _, _.
Qed.

(** C19: polling is safe.  Whatever the clients answer and however the source was used
    before, a poll returns: its loop over the answers ends, and none of the assertions of
    the code (a block below the position, a fork without a started consensus, a fork without
    hints) can fail, given that clients report forks with at least one hint.  A finality
    report raises the remembered finalized head, which stays below the position; every
    other event leaves position and finalized head as [emits] says. *)
Theorem source_poll_safe n s inp : rtc source_step (source_new n) s → input_ok parse inp →
  ∃ s' ev, poll_next_event parse inp s = Ok (s', ev) ∧ emits (src_state s) ev (src_state s') ∧
    length (src_endpoints s') = length (src_endpoints s) ∧
    ∀ f, ss_finalized_head (src_state s') = Some f → 0 <= number f < get_next_block s'.
Proof.
  intros Hr%reachable_ok Hi. destruct (poll_next_event_spec parse inp s Hr Hi) as (s' & ev & E & Hok & Hem & Hl).
  exists s', ev. split_and!; [done..|]. apply Hok.
Qed.

(** C20: between two moves by its user, the blocks a source yields are one chain.  Over any
    sequence of polls, with any number of endpoints failing, lagging or disagreeing, the
    block events taken together ascend from the position, each naming the block before it
    as parent (the first one the hash the position expects), and the position ends right
    after the last of them. *)
Theorem source_blocks_chain n s inps : rtc source_step (source_new n) s → Forall (input_ok parse) inps →
  ∃ s' evs, poll_run inps s = Ok (s', evs) ∧
    extends (ss_position (src_state s)) (blocks_of evs) (ss_position (src_state s')).
Proof.
  intros Hr%reachable_ok Hi. destruct (poll_run_total inps s Hr Hi) as (s' & evs & E).
  exists s', evs. split; [done|]. by eapply poll_run_extends.
Qed.

(** ** Forks *)

(** The hints of an endpoint that has reported a fork, and all the hints in endpoint order. *)
Definition signal (ep : Endpoint) : option (list BlockRef) :=
  match ep_state ep with EpFork _ prev => Some prev | _ => None end.
Definition signals (eps : list Endpoint) : list (list BlockRef) := omap signal eps.
Definition backing_off (ep : Endpoint) : Prop := ∃ ms, ep_state ep = EpBackoff ms.

(** The endpoints agree on a fork: some report it, and they are more than half of all
    endpoints, or every endpoint that is not in backoff does, or the patience is over. *)
Definition agree (eps : list Endpoint) (timeout : bool) : Prop :=
  signals eps ≠ [] ∧
  ((length eps < 2 * length (signals eps))%nat ∨
   (∀ ep, ep ∈ eps → ¬ backing_off ep → is_Some (signal ep)) ∨ timeout = true).

(** [chain] is the first of the longest lists of [hints]. *)
Definition first_longest (hints : list (list BlockRef)) (chain : list BlockRef) : Prop :=
  ∃ l1 l2, hints = l1 ++ chain :: l2 ∧
    Forall (λ h, (length h < length chain)%nat) l1 ∧ Forall (λ h, (length h <= length chain)%nat) l2.

Lemma signal_spec ep : match signal ep with Some _ => is_on_fork ep = true | None => is_on_fork ep = false end.
Proof. unfold signal, is_on_fork. by destruct (ep_state ep). Qed.

Lemma count_signals eps : count is_on_fork eps = Z.of_nat (length (signals eps)).
Proof.
  unfold count, signals. f_equal. induction eps as [|ep eps IH]; [done|]. rewrite filter_cons. cbn [omap list_omap].
  pose proof (signal_spec ep) as Hs. destruct (signal ep) eqn:E; cbn [omap list_omap]; rewrite Hs.
  - rewrite decide_True by done. cbn. by rewrite IH.
  - by rewrite decide_False by done.
Qed.

Lemma active_spec ep : is_active ep = true ↔ ¬ backing_off ep.
Proof.
  unfold is_active, backing_off. destruct (ep_state ep); split; try done; try (by intros _ [? ?]).
  intros Hn. exfalso. apply Hn. by eexists.
Qed.

(** The two counts agree when every active endpoint is on the fork. *)
Lemma count_active eps : count is_on_fork eps <= count is_active eps ∧
  (count is_on_fork eps = count is_active eps ↔ ∀ ep, ep ∈ eps → ¬ backing_off ep → is_Some (signal ep)).
Proof.
  unfold count. induction eps as [|ep eps [Hle IH]]; [split; [done|]; split; [intros _ ep ?%elem_of_nil; done|done]|].
  setoid_rewrite elem_of_cons. rewrite !filter_cons. pose proof (signal_spec ep) as Hs. pose proof (active_spec ep) as Ha.
  assert (Hsub : is_on_fork ep = true → is_active ep = true) by (unfold is_on_fork, is_active; by destruct (ep_state ep)).
  destruct (is_on_fork ep) eqn:Ef.
  - rewrite Hsub, !decide_True by done. cbn [length]. rewrite !Nat2Z.inj_succ.
    destruct (signal ep) as [h|] eqn:Eh; [|done]. split; [lia|]. rewrite (Z.succ_inj_wd _ _), IH. split; [|auto].
    intros Hall x [->|Hx] Hx'; [by rewrite Eh|auto].
  - rewrite (decide_False (P:=false = true)) by done. destruct (is_active ep) eqn:Eact.
    + rewrite decide_True by done. cbn [length]. rewrite Nat2Z.inj_succ. split; [lia|]. split; [lia|]. intros Hall. exfalso.
      destruct (Hall ep) as [h Hh]; [by left|by apply Ha|]. by rewrite Hh in Hs.
    + rewrite decide_False by done. split; [done|]. rewrite IH. split; [|auto].
      intros Hall x [->|Hx] Hx'; [|auto]. by apply Ha in Hx'.
Qed.

(** The fold over the endpoints picks the first longest list. *)
Lemma longest_fork_signals eps :
  longest_fork eps = foldl (λ chain prev, if (length chain <? length prev)%nat then prev else chain) [] (signals eps).
Proof.
  unfold longest_fork. generalize (@nil BlockRef). induction eps as [|ep eps IH]; intros acc; [done|].
  cbn. unfold signal. destruct (ep_state ep); cbn; apply IH.
Qed.

Lemma fold_longest hints : ∀ acc : list BlockRef,
  let r := foldl (λ chain prev, if (length chain <? length prev)%nat then prev else chain) acc hints in
  r = acc ∧ Forall (λ h, (length h <= length acc)%nat) hints ∨
  (length acc < length r)%nat ∧ first_longest hints r.
Proof.
  induction hints as [|h hints IH]; intros acc; [by left|]. cbn [foldl].
  destruct (Nat.ltb_spec (length acc) (length h)) as [Hlt|Hge].
  - destruct (IH h) as [[-> Hall]|(Hlt' & l1 & l2 & E & H1 & H2)]; right.
    + split; [done|]. exists [], hints. split_and!; [done|constructor|done].
    + split; [lia|]. set (r := foldl _ h hints) in *. exists (h :: l1), l2. rewrite E at 1. split_and!; [done|by constructor|done].
  - destruct (IH acc) as [[-> Hall]|(Hlt' & l1 & l2 & E & H1 & H2)].
    + left. split; [done|]. by constructor.
    + right. split; [done|]. set (r := foldl _ acc hints) in *. exists (h :: l1), l2. rewrite E at 1.
      split_and!; [done|constructor; [lia|done]|done].
Qed.

Lemma longest_fork_first st eps : Forall (endpoint_ok st) eps → signals eps ≠ [] → first_longest (signals eps) (longest_fork eps).
Proof.
  intros Hok Hne. rewrite longest_fork_signals. destruct (fold_longest (signals eps) []) as [[_ Hall]|[_ ?]]; [|done].
  exfalso. destruct (signals eps) as [|h hs] eqn:E; [done|]. apply Forall_cons in Hall as [Hh _]. cbn in Hh.
  assert (Hin : h ∈ signals eps) by (rewrite E; lmem). apply list_elem_of_omap in Hin as (ep & Hep & Hs).
  rewrite Forall_forall in Hok. specialize (Hok ep Hep). unfold signal, endpoint_ok in *.
  destruct (ep_state ep); try done. injection Hs as ->. destruct Hok as [Hp _]. destruct h; [done|]. cbn in Hh. lia.
Qed.

Lemma consensus_agree eps timeout : count is_on_fork eps > 0 →
  ((count is_on_fork eps >? Z.of_nat (length eps) / 2) || (count is_on_fork eps =? count is_active eps) || timeout)%bool = true
  ↔ agree eps timeout.
Proof.
  intros Hpos. unfold agree. destruct (count_active eps) as [_ Hact].
  rewrite !orb_true_iff, Z.eqb_eq, Hact, Z.gtb_lt, count_signals.
  assert (Hne : signals eps ≠ []) by (rewrite count_signals in Hpos; destruct (signals eps); [cbn in Hpos; lia|done]).
  assert (Hhalf : Z.of_nat (length eps) / 2 < Z.of_nat (length (signals eps)) ↔ (length eps < 2 * length (signals eps))%nat).
  { pose proof (Z.div_mod (Z.of_nat (length eps)) 2 ltac:(lia)). pose proof (Z.mod_pos_bound (Z.of_nat (length eps)) 2). lia. }
  rewrite Hhalf. tauto.
Qed.

(** C21: the fork consensus.  A poll in which some endpoint has a block, a finality report or
    the end of its stream to report yields that, never a fork.  Otherwise, with [eps] the
    endpoints after the poll, every fork they report is about the current position, and the
    source reports a fork exactly if some endpoint does and either more than half of all
    endpoints do, or every endpoint that is not in backoff does, or the two seconds of patience
    are over; it reports the first of the longest lists of hints and makes every endpoint ready
    to start over.  If they do not agree it stays pending and keeps the endpoints' states. *)
Theorem fork_consensus_exact n s inp : rtc source_step (source_new n) s → input_ok parse inp →
  ∃ eps st reported s' ev,
    poll_endpoints parse (pi_now inp) 0 (pi_answers inp) (src_endpoints s) (src_state s) = Ok (eps, st, reported) ∧
    poll_next_event parse inp s = Ok (s', ev) ∧
    match reported with
    | Some (_, e) => ev = Some e ∧ ∀ prev, e ≠ EvFork prev
    | None =>
        (∀ ep req prev, ep ∈ eps → ep_state ep = EpFork req prev → req = ss_position (src_state s)) ∧
        ((agree eps (pi_timeout inp) ∧
          ∃ chain, ev = Some (EvFork chain) ∧ first_longest (signals eps) chain ∧
            src_endpoints s' = with_state EpReady <$> eps) ∨
         (¬ agree eps (pi_timeout inp) ∧ ev = None ∧ src_endpoints s' = eps))
    end.
Proof.
  intros Hok%reachable_ok Hi. pose proof Hok as [Hs He].
  destruct (poll_endpoints_spec parse (pi_now inp) (src_endpoints s) 0 (pi_answers inp) _ Hs He Hi)
    as (eps & st & reported & E & _ & He' & _ & _ & Hem & Hset & Hnf).
  destruct (poll_next_event_spec parse inp s Hok Hi) as (s' & ev & Ep & _).
  exists eps, st, reported, s', ev. split; [done|]. split; [done|].
  unfold poll_next_event in Ep. rewrite E in Ep. cbn [mbind res_bind] in Ep. destruct reported as [[i e]|].
  { injection Ep as _ <-. split; [done|]. intros prev ->. by apply (Hnf i prev). }
  split.
  { intros ep req prev Hep Hst. specialize (Hset eq_refl). rewrite Forall_forall in Hset. specialize (Hset ep Hep).
    unfold settled in Hset. rewrite Hst in Hset. destruct Hem as [Hem _]. congruence. }
  destruct (count is_on_fork eps >? 0) eqn:Ec.
  2: { injection Ep as <- <-. right. split; [|done]. intros [Hne _]. apply Hne. rewrite count_signals in Ec.
       destruct (signals eps); [done|]. cbn in Ec. done. }
  assert (Hpos : count is_on_fork eps > 0) by (rewrite Z.gtb_ltb in Ec; zbool; lia).
  pose proof (consensus_agree eps (pi_timeout inp) Hpos) as Hag.
  match type of Ep with context [let '(_, _) := ?o in _] => set (dec := o) in * end.
  assert (Hd : dec.2 = true ↔ agree eps (pi_timeout inp)).
  { rewrite <-Hag. unfold dec. repeat case_if; cbn; by rewrite ?orb_true_r, ?orb_false_l. }
  destruct dec as [st2 [|]]; cbn in Hd.
  - left. split; [by apply Hd|]. destruct (ss_fork_consensus_started_at st2); [|done]. cbn [mbind res_bind] in Ep.
    unfold extract_fork in Ep. cbn [src_endpoints src_state] in Ep. case_bool_decide; [done|]. cbn [mbind res_bind] in Ep.
    injection Ep as <- <-. exists (longest_fork eps). split; [done|]. split; [|done].
    eapply longest_fork_first; [done|]. by apply Hd.
  - right. split; [|by injection Ep as <- <-]. intros Ha%Hd. done.
Qed.

(** ** Progress *)

(** The answers of a client that serves the position: a stream, then a block that links. *)
Definition serves (pos : BlockStreamRequest) (answers : list (answer RB)) : Prop :=
  ∃ a1 a2 rest fin rb b, answers = a1 :: a2 :: rest ∧ an_response a1 = Some (Ok (RespStream fin)) ∧
    an_item a2 = Some (Some (Ok rb)) ∧ parse rb = Ok b ∧ req_first_block pos <= block_number b ∧
    (∀ h, req_parent_block_hash pos = Some h → block_parent_hash b = h).

Lemma on_new_finalized_head_position fin st : ss_position (on_new_finalized_head fin st).1 = ss_position st.
Proof.
  unfold on_new_finalized_head. destruct fin; [|done]. cbn. repeat case_if; try done.
  destruct (req_parent_block_hash _); [|done]. repeat case_if; done.
Qed.

Lemma serves_ready now answers ep st : ep_state ep = EpReady → serves (ss_position st) answers →
  ∀ ep' st' ev, poll_endpoint parse (poll_fuel answers) now answers ep st = Ok (ep', st', ev) → is_Some ev.
Proof.
  intros Er (a1 & a2 & rest & fin & rb & b & -> & E1 & E2 & Eb & Hle & Hl) ep' st' ev.
  unfold poll_fuel. replace (3 * length (a1 :: a2 :: rest) + 3)%nat with (S (S (S (3 * length rest + 6)))) by (cbn; lia).
  cbn [poll_endpoint]. rewrite Er.
  cbn [poll_endpoint with_state ep_state]. change (default pending (head (a1 :: a2 :: rest))) with a1. rewrite E1.
  pose proof (on_new_finalized_head_position fin st) as Hp.
  destruct (on_new_finalized_head fin st) as [st1 upd]. cbn in Hp. destruct upd.
  { destruct fin; [|done]. intros [= _ _ <-]. by eexists. }
  cbn [poll_endpoint clear_errors ep_state tail]. change (default pending (head (a2 :: rest))) with a2.
  rewrite E2, Eb, Hp.
  apply Z.leb_le in Hle as ->. unfold accept_new_block. rewrite Hp. intros Ho. revert Ho.
  assert (Hlink : match req_parent_block_hash (ss_position st) with
    | Some h => bool_decide (block_parent_hash b = h) | None => true end = true).
  { destruct (req_parent_block_hash _) as [h|]; [|done]. apply bool_decide_true. by apply Hl. }
  rewrite Hlink. destruct (req_first_block (ss_position st) <=? block_number b); [|done].
  cbn [mbind res_bind]. intros [= _ _ <-]. by eexists.
Qed.

Lemma poll_endpoints_progress now eps : ∀ i answers st k ep, state_ok st → Forall (endpoint_ok st) eps →
  Forall (Forall (answer_ok parse)) answers →
  eps !! k = Some ep → ep_state ep = EpReady → (∃ mine, answers !! k = Some mine ∧ serves (ss_position st) mine) →
  ∃ eps' st' ev, poll_endpoints parse now i answers eps st = Ok (eps', st', Some ev).
Proof.
  induction eps as [|e eps IH]; intros i answers st k ep Hs He Ha Hk Er Hm; [done|]. cbn [poll_endpoints].
  apply Forall_cons in He as [Hep Heps].
  assert (Hmine : Forall (answer_ok parse) (default [] (head answers))).
  { destruct answers as [|a answers]; [constructor|]. by apply Forall_cons in Ha as [? _]. }
  destruct (poll_endpoint_ok parse now _ e st Hs Hep Hmine) as (e' & st1 & ev & E & Hs1 & _ & Hadv & Hem & _ & _).
  rewrite E. cbn [mbind res_bind]. destruct ev as [ev|]; [by eexists _, _, _|]. destruct k as [|k].
  - cbn in Hk. injection Hk as ->. destruct Hm as (mine & Hmi & Hserve). destruct answers; [done|].
    cbn in Hmi. injection Hmi as ->. by destruct (serves_ready _ _ _ _ Er Hserve _ _ _ E).
  - destruct (IH (S i) (tail answers) st1 k ep) as (eps' & st' & ev & ->); [done| | |done|done| |].
    + eapply Forall_impl; [exact Heps|]. intros x. by apply endpoint_ok_mono.
    + destruct answers; [constructor|]. by apply Forall_cons in Ha as [_ ?].
    + destruct Hm as (mine & Hmi & Hserve). exists mine. destruct answers; [done|]. cbn in *.
      split; [done|]. destruct Hem as [-> _]. done.
    + cbn. by eexists _, _, _.
Qed.

(** C22: progress.  If at least one endpoint is ready to ask and its client serves the
    position, with a stream that begins with a block that links, then a poll yields an event,
    whatever the other endpoints do. *)
Theorem source_progress s inp k ep mine : source_ok s → input_ok parse inp →
  src_endpoints s !! k = Some ep → ep_state ep = EpReady →
  pi_answers inp !! k = Some mine → serves (ss_position (src_state s)) mine →
  ∃ s' ev, poll_next_event parse inp s = Ok (s', Some ev).
Proof.
  intros [Hs He] Hi Hk Er Hm Hserve. unfold poll_next_event.
  destruct (poll_endpoints_progress (pi_now inp) (src_endpoints s) 0 (pi_answers inp) (src_state s) k ep)
    as (eps & st & [i ev] & ->); [done..|by exists mine|]. cbn. by eexists _, ev.
Qed.
End props.

Module SourceExamples.
Import IngestExamples.

Definition parse_blk (b : blk) : res blk := Ok b.
Definition quiet_answer : answer blk := mkAnswer None None false.
Definition respond (r : BlockStreamResponse) : answer blk := mkAnswer (Some (Ok r)) None false.
Definition item (b : blk) : answer blk := mkAnswer None (Some (Some (Ok b))) false.

(** Two endpoints after position 5 with parent "d". *)
Definition at5 : StandardDataSource := source_set_position 5 (Some "d") (source_new 2).
Lemma at5_reachable : rtc (source_step parse_blk) (source_new 2) at5.
Proof. apply rtc_once, step_position. unfold u64_ok, u64_max. lia. Qed.
Lemma at5_ok : source_ok at5.
Proof. apply (reachable_ok parse_blk 2). exact at5_reachable. Qed.

(** The first endpoint streams a block that does not link, is asked again, and then serves. *)
Definition serve5 : list (answer blk) :=
  [respond (RespStream None); item (mkBlk 5 "e" "d" 0)].
Definition stray : list (answer blk) :=
  [respond (RespStream None); item (mkBlk 5 "x" "y" 0); quiet_answer].
Definition first_poll : poll_input := mkPollInput 0 false [stray; serve5].
Definition second_poll : poll_input := mkPollInput 1 false [[]; [item (mkBlk 7 "g" "e" 0)]].
Definition fork_poll : poll_input :=
  mkPollInput 2 false [[respond (RespFork [mkBlockRef 4 "z"])];
                       [respond (RespFork [mkBlockRef 3 "w"; mkBlockRef 4 "z"])]].

Ltac answers := repeat first [apply Forall_nil_2 | apply Forall_cons_2];
  split; intros r Hr; vm_compute in Hr; simplify_eq; cbn; unfold u64_max; try done; lia.
Lemma first_poll_ok : input_ok parse_blk first_poll.
Proof. unfold input_ok; cbn; unfold stray, serve5; answers. Qed.
Lemma second_poll_ok : input_ok parse_blk second_poll.
Proof. unfold input_ok; cbn; answers. Qed.
Lemma fork_poll_ok : input_ok parse_blk fork_poll.
Proof. unfold input_ok; cbn; answers. Qed.

Lemma source_poll_safe_witness : ∃ s' ev, poll_next_event parse_blk first_poll at5 = Ok (s', ev) ∧
  emits (src_state at5) ev (src_state s') ∧ ev = Some (EvBlock (mkBlk 5 "e" "d" 0) false).
Proof.
  destruct (source_poll_safe parse_blk 2 at5 first_poll at5_reachable first_poll_ok) as (s' & ev & E & Hem & _).
  exists s', ev. split; [exact E|]. split; [exact Hem|]. vm_compute in E. congruence.
Defined.

Lemma source_blocks_chain_witness : ∃ s' evs, poll_run parse_blk [first_poll; second_poll] at5 = Ok (s', evs) ∧
  extends (mkRequest 5 (Some "d")) (blocks_of evs) (mkRequest 8 (Some "g")).
Proof.
  destruct (source_blocks_chain parse_blk 2 at5 [first_poll; second_poll] at5_reachable) as (s' & evs & E & Hx).
  - constructor; [exact first_poll_ok|]. constructor; [exact second_poll_ok|constructor].
  - exists s', evs. split; [exact E|].
    assert (Ep : ss_position (src_state s') = mkRequest 8 (Some "g")) by (vm_compute in E; injection E as <- <-; reflexivity).
    rewrite Ep in Hx. exact Hx.
Defined.

Lemma fork_consensus_exact_witness : ∃ s' chain,
  poll_next_event parse_blk fork_poll at5 = Ok (s', Some (EvFork chain)) ∧
  first_longest [[mkBlockRef 4 "z"]; [mkBlockRef 3 "w"; mkBlockRef 4 "z"]] chain.
Proof.
  destruct (fork_consensus_exact parse_blk 2 at5 fork_poll at5_reachable fork_poll_ok)
    as (eps & st & reported & s' & ev & E & Ep & H).
  assert (Eo : (λ o : res (list Endpoint * DataSourceState * option (nat * DataEvent blk)),
      match o with Ok (eps, _, reported) => Some (signals eps, match reported with None => true | _ => false end) | _ => None end)
      (poll_endpoints parse_blk 2 0 (pi_answers fork_poll) (src_endpoints at5) (src_state at5))
    = Some ([[mkBlockRef 4 "z"]; [mkBlockRef 3 "w"; mkBlockRef 4 "z"]], true)) by (vm_compute; reflexivity).
  cbn [pi_now fork_poll] in E. rewrite E in Eo. cbn beta iota in Eo. injection Eo as Es Er.
  destruct reported; [discriminate|]. destruct H as [_ [(_ & chain & -> & Hf & _)|(Hn & _)]].
  - exists s', chain. rewrite Es in Hf. split; [exact Ep|exact Hf].
  - exfalso. apply Hn. split; [rewrite Es; discriminate|]. left. rewrite Es.
    assert (El : length eps = 2%nat) by (vm_compute in E; injection E as <- _; reflexivity). rewrite El. cbn. lia.
Defined.

Lemma source_progress_witness : ∃ s' ev, poll_next_event parse_blk first_poll at5 = Ok (s', Some ev).
Proof.
  apply (source_progress parse_blk at5 first_poll 1 (mkEndpoint EpReady 0 0 None) serve5 at5_ok first_poll_ok).
  - reflexivity.
  - reflexivity.
  - reflexivity.
  - exists (respond (RespStream None)), (item (mkBlk 5 "e" "d" 0)), [], None, (mkBlk 5 "e" "d" 0), (mkBlk 5 "e" "d" 0).
    repeat split; [cbn; lia|]. intros h [= <-]. reflexivity.
Defined.
End SourceExamples.
