(* ===== verification/Pipeline.v ===== *)
(** * Pipeline: the ingest task over the standard data source

    Models the composition that crates/hotblocks/src/dataset_controller/ingest.rs sets up
    and the loop of [IngestGeneric::run] drives: the task polls the source, handles the
    event, and moves the source when a rollback tells it to.  The chunks that come out are
    a chain the store can take. *)

From stdpp Require Import list.
From S2P Require Import Prelude Bytes Data Kv ChunkIter Tables Chain Tx Retry.
From S2P Require Import Cleanup Db WriteController ControllerProps Ingest IngestSpec IngestProps.
From S2P Require Import Source SourceSpec SourceProps.

Section pipeline.
Context {RB B CB CP PT : Type} `{Block B} `{!ChunkBuilder B CB CP PT} `{!ChunkBuilderLaws B CB CP PT}.
#[local] Abbreviation prepared := (list (string * PT)).
#[local] Abbreviation message := (IngestMessage prepared).
Context (parse : RB → res B) (accepts : list message → bool).

Record Pipe : Type := mkPipe {
  pp_source : StandardDataSource;
  pp_ingest : IngestGeneric (CB:=CB) (CP:=CP) (PT:=PT)
}.

(** [ingest]: the source is positioned, and the task built over it. *)
Definition pipe_new (clients : nat) (first_block : Z) (parent_block_hash : option string) (cb : CB) (bound : Z)
  : Pipe :=
  let source := source_set_position first_block parent_block_hash (source_new clients) in
  mkPipe source (ingest_new (mkDataSource (get_next_block source) (get_parent_block_hash source)) cb bound).

(** One turn: a poll of the source and, if it is ready, the handling of the event.  The last
    thing a handled fork does is to move the source. *)
Definition pipe_step (inp : poll_input (RB:=RB)) (reply : option Rollback) (p : Pipe) : Pipe * res unit :=
  match poll_next_event parse inp (pp_source p) with
  | Ok (source, None) => (mkPipe source (pp_ingest p), Ok tt)
  | Ok (source, Some ev) =>
      match handle_event accepts (ev, reply) (pp_ingest p) with
      | (ingest, Ok _) =>
          (mkPipe (match ev, reply with
                   | EvFork _, Some rb => source_set_position (resume_from rb) (expected_parent_hash rb) source
                   | _, _ => source
                   end) ingest, Ok tt)
      | (ingest, r) => (mkPipe source ingest, r)
      end
  | Err e => (p, Err e)
  | Panic m => (p, Panic m)
  end.

Fixpoint pipe_run (turns : list (poll_input (RB:=RB) * option Rollback)) (p : Pipe) : Pipe * res unit :=
  match turns with
  | [] => (p, Ok tt)
  | (inp, reply) :: turns =>
      match pipe_step inp reply p with
      | (p, Ok _) => pipe_run turns p
      | o => o
      end
  end.

(** ** The chunks of a feed *)

(** The blocks are numbered from [lo] up and leave room for a successor. *)
Fixpoint in_order (lo : Z) (bs : list B) : Prop :=
  match bs with
  | [] => True
  | b :: bs => lo <= block_number b < u64_max ∧ in_order (block_number b + 1) bs
  end.

(** The parent the first pending block names, or the one the position expects. *)
Definition next_parent (pos : BlockStreamRequest) (pending : list B) : option string :=
  match pending with
  | b :: _ => Some (block_parent_hash b)
  | [] => req_parent_block_hash pos
  end.

Definition as_chunk (c : NewChunk prepared) : Chunk := chunk_of c [].

(** The chunks are a gapless linked chain from [start] with first parent [parent], after which
    comes [next] with the parent [expected]. *)
Definition chained (start : Z) (parent : option string) (cs : list (NewChunk prepared)) (next : Z)
    (expected : option string) : Prop :=
  tiled (as_chunk <$> cs) ∧
  (∀ c, head cs = Some c → nc_first_block _ c = start ∧ ∀ h, parent = Some h → nc_parent_block_hash _ c = h) ∧
  match last cs with
  | Some c => next = nc_last_block _ c + 1 ∧ expected = Some (nc_last_block_hash _ c)
  | None => next = start ∧ ∀ h, parent = Some h → expected = Some h
  end.

(** The batcher and the position of the source that feeds it. *)
Record fed (start : Z) (parent : option string) (pos : BlockStreamRequest) (st : batcher (B:=B) (PT:=PT)) : Prop := {
  fed_pos : match last (bt_pending st) with
            | Some z => pos = mkRequest (block_number z + 1) (Some (block_hash z))
            | None => req_first_block pos = bt_pos st
            end;
  fed_order : in_order (bt_pos st) (bt_pending st);
  fed_u64 : u64_ok (bt_pos st);
  fed_chain : chained start parent (chunks_since (bt_sent st)) (bt_pos st) (next_parent pos (bt_pending st))
}.

Lemma in_order_last lo bs z : in_order lo bs → last bs = Some z → lo <= block_number z < u64_max.
Proof.
  revert lo. induction bs as [|b [|b' bs] IH]; intros lo; cbn [in_order]; [done| |].
  - intros [Hb _] [= <-]. done.
  - intros [Hb Hr] Hz. rewrite last_cons_cons in Hz. specialize (IH _ Hr Hz). lia.
Qed.

Lemma in_order_snoc lo bs b : in_order lo bs → lo <= block_number b < u64_max →
  (∀ z, last bs = Some z → block_number z < block_number b) → in_order lo (bs ++ [b]).
Proof.
  revert lo. induction bs as [|x bs IH]; intros lo; cbn [in_order app]; [done|].
  intros [Hx Hr] Hb Hz. split; [done|]. apply IH; [done| |].
  - assert (block_number x < block_number b); [|lia]. destruct bs as [|y bs]; [by apply Hz|].
    cbn in Hr. destruct (head_last_cons y bs) as [z Ez]. specialize (Hz z).
    rewrite last_cons_cons in Hz. specialize (Hz Ez). pose proof (in_order_last _ (y :: bs) z Hr Ez). lia.
  - intros z Ez. apply Hz. destruct bs; [done|]. by rewrite last_cons_cons.
Qed.

Lemma chained_snoc start parent cs next expected c : chained start parent cs next expected →
  nc_first_block _ c = next → expected = Some (nc_parent_block_hash _ c) → chunk_ok (as_chunk c) →
  chained start parent (cs ++ [c]) (nc_last_block _ c + 1) (Some (nc_last_block_hash _ c)).
Proof.
  intros (Ht & Hh & Hl) Hf He Hc. unfold chained. rewrite last_snoc. split; [|split; [|done]].
  - rewrite fmap_app. destruct Ht as [Hall Hadj]. split; [apply Forall_app; split; [done|by constructor]|].
    apply adjacent_app. split; [done|]. split; [done|]. rewrite fmap_last.
    destruct (last cs) as [x|]; [|done]. destruct Hl as [E1 E2]. cbn. split; cbn; [lia|congruence].
  - intros x Hx. destruct cs as [|y cs]; [|by apply Hh]. cbn in Hx. injection Hx as ->.
    destruct Hl as [E1 E2]. split; [lia|]. intros h Eh. specialize (E2 h Eh). congruence.
Qed.

Lemma emit_fed start parent pos st : fed start parent pos st → fed start parent pos (emit_chunk st).
Proof.
  intros Hfed. pose proof Hfed as [Hp Ho Hu Hc]. unfold emit_chunk.
  destruct (head (bt_pending st)) as [b|] eqn:Eh; [|done]. destruct (last (bt_pending st)) as [z|] eqn:Ez; [|done].
  destruct (match bt_floor st with Some f => block_number z <? f | None => false end); [done|].
  pose proof (in_order_last _ _ _ Ho Ez) as Hz.
  rewrite u64_add_small by (unfold u64_ok, u64_max in *; lia).
  constructor; cbn [bt_pending bt_pos bt_sent last in_order next_parent]; [by rewrite Hp|done|unfold u64_ok in *; lia|].
  rewrite chunks_since_snoc, Hp. cbn [req_parent_block_hash].
  apply (chained_snoc _ _ _ _ _ (batch_chunk st b z) Hc); [done| |].
  - destruct (bt_pending st); [done|]. cbn in Eh. injection Eh as ->. done.
  - split; cbn; unfold u64_ok in *; lia.
Qed.

(** The events of the source feed the batcher. *)
Lemma linked_to_fed start parent pos st b : fed start parent pos st →
  (∀ h, req_parent_block_hash pos = Some h → block_parent_hash b = h) → linked_to (bt_pending st) b = true.
Proof.
  intros [Hp _ _ _] Hl. unfold linked_to. destruct (last (bt_pending st)) as [z|]; [|done].
  apply bool_decide_true. symmetry. apply Hl. by rewrite Hp.
Qed.

Lemma change_mask_fed start parent pos mask st st' : fed start parent pos st → change_mask mask st = Some st' →
  fed start parent pos st'.
Proof.
  intros Hf. unfold change_mask. case_decide; [by intros [= <-]|].
  pose proof (emit_fed _ _ _ _ Hf) as [Hp Ho Hu Hc].
  destruct (bt_pending (emit_chunk st)) eqn:Ep; [|done]. intros [= <-]. constructor; cbn; done.
Qed.

Lemma take_block_fed start parent pos b f st st' : fed start parent pos st →
  req_first_block pos <= block_number b < u64_max →
  (∀ h, req_parent_block_hash pos = Some h → block_parent_hash b = h) →
  take_block b f st = Some st' → fed start parent (mkRequest (block_number b + 1) (Some (block_hash b))) st'.
Proof.
  intros [Hp Ho Hu Hc] Hb Hl. unfold take_block. destruct (linked_to _ _); [|done]. intros [= <-].
  assert (Hbig : bt_pos st <= block_number b ∧ ∀ z, last (bt_pending st) = Some z → block_number z < block_number b).
  { destruct (last (bt_pending st)) as [z|] eqn:Ez.
    - pose proof (in_order_last _ _ _ Ho Ez). rewrite Hp in Hb. cbn in Hb. split; [lia|]. intros ? [= <-]. lia.
    - split; [lia|done]. }
  destruct Hbig as [Hge Hgt]. constructor; cbn [bt_pending bt_pos bt_sent]; [by rewrite last_snoc|by apply in_order_snoc; [|lia|]|done|].
  destruct (bt_pending st) as [|x xs]; [|exact Hc].
  destruct Hc as (Ht & Hh & Hlast). cbn [app next_parent] in *. split; [done|]. split; [done|].
  destruct (last (chunks_since (bt_sent st))) as [c|].
  - destruct Hlast as [E1 E2]. split; [done|]. f_equal. by apply Hl.
  - destruct Hlast as [E1 E2]. split; [done|]. intros h Eh. f_equal. apply Hl, E2, Eh.
Qed.

(** Where the feed starts over: the last rollback that was applied. *)
Definition origin_step (inp : poll_input (RB:=RB)) (reply : option Rollback) (p : Pipe) (o : Z * option string)
  : Z * option string :=
  match poll_next_event parse inp (pp_source p), reply with
  | Ok (_, Some (EvFork _)), Some rb => (resume_from rb, expected_parent_hash rb)
  | _, _ => o
  end.
Fixpoint pipe_origin (turns : list (poll_input (RB:=RB) * option Rollback)) (p : Pipe) (o : Z * option string)
  : Z * option string :=
  match turns with
  | [] => o
  | (inp, reply) :: turns => pipe_origin turns (pipe_step inp reply p).1 (origin_step inp reply p o)
  end.

(** A handled event keeps the feed; a fork starts it over. *)
Lemma batch_step_fed start parent ss ss' st cut ev r st' : fed start parent (ss_position ss) st →
  emits ss (Some ev) ss' → batch_step cut (ev, r) st = Some st' → (∀ prev, ev ≠ EvFork prev) →
  fed start parent (ss_position ss') st'.
Proof.
  intros Hf Hem. destruct ev as [h|b f|prev|]; unfold batch_step; cbn [fst snd]; intros Hst Hnf.
  - injection Hst as <-. destruct Hem as [-> _]. destruct Hf as [Hp Ho Hu Hc].
    constructor; cbn [bt_pending bt_pos bt_sent]; try done.
    case_if; [by rewrite chunks_since_snoc|by rewrite app_nil_r].
  - destruct Hem as (Hb & Hl & -> & _). destruct (change_mask _ st) as [st1|] eqn:Ec; [|done]. cbn in Hst.
    apply (change_mask_fed _ _ _ _ _ _ Hf) in Ec. destruct (take_block b f st1) as [st2|] eqn:Et; [|done].
    injection Hst as <-. apply (take_block_fed _ _ _ _ _ _ _ Ec Hb Hl) in Et.
    destruct cut; [by apply emit_fed|done].
  - by destruct (Hnf prev).
  - injection Hst as <-. destruct Hem as [-> _]. by apply emit_fed.
Qed.

Lemma start_fed next parent st : u64_ok next → bt_pos st = next → bt_pending st = [] → chunks_since (bt_sent st) = [] →
  fed next parent (mkRequest next parent) st.
Proof.
  intros Hu Hp Hn Hc. constructor; rewrite ?Hn, ?Hp, ?Hc; done.
Qed.

(** The invariant of the composition, with the ghost origin. *)
Definition piped (o : Z * option string) (p : Pipe) : Prop :=
  source_ok (pp_source p) ∧ ∃ st, refines (pp_ingest p) st ∧ fed o.1 o.2 (ss_position (src_state (pp_source p))) st.

(** The environment: well-behaved clients, and 64-bit rollback positions. *)
Definition turn_ok (t : poll_input (RB:=RB) * option Rollback) : Prop :=
  input_ok parse t.1 ∧ ∀ rb, t.2 = Some rb → u64_ok (resume_from rb).

Lemma pipe_new_piped clients first parent cb bound : u64_ok first → cb_blocks cb = [] →
  piped (first, parent) (pipe_new clients first parent cb bound).
Proof.
  intros Hu Hcb. split; [by apply set_position_ok|]. eexists. split; [by apply new_refines|].
  by apply start_fed.
Qed.

Lemma pipe_step_piped o p t p' : piped o p → turn_ok t → pipe_step t.1 t.2 p = (p', Ok tt) →
  piped (origin_step t.1 t.2 p o) p'.
Proof.
  intros (Hs & st & Hr & Hf) [Hi Hrb]. unfold pipe_step, origin_step.
  destruct (poll_next_event_spec parse t.1 (pp_source p) Hs Hi) as (s' & ev & -> & Hs' & Hem & _).
  destruct ev as [ev|].
  2: { intros [= <-]. split; [done|]. exists st. split; [done|]. cbn in *. by destruct Hem as [-> _]. }
  destruct (handle_event accepts (ev, t.2) (pp_ingest p)) as [ig [[]|e|m]] eqn:Eh; [|done..].
  destruct (event_refines accepts _ _ _ _ Hr Eh) as (cut & st' & Eb & Hr').
  assert (Hkeep : (∀ prev, ev ≠ EvFork prev) → piped o (mkPipe s' ig)).
  { intros Hnf. split; [done|]. exists st'. split; [done|]. by apply (batch_step_fed _ _ _ _ _ _ _ _ _ Hf Hem Eb). }
  destruct ev as [h|b f|prev|]; [intros [= <-]; by apply Hkeep| | |intros [= <-]; by apply Hkeep].
  - intros [= <-]. by apply Hkeep.
  - unfold batch_step in Eb. cbn [fst snd] in Eb. destruct (t.2) as [rb|]; [|done]. injection Eb as <-.
    intros [= <-]. specialize (Hrb rb eq_refl). split; [by apply set_position_ok|]. eexists. split; [exact Hr'|].
    apply start_fed; [done..|]. cbn [bt_sent]. by rewrite chunks_since_snoc.
Qed.

Lemma pipe_run_piped turns : ∀ o p p', piped o p → Forall turn_ok turns → pipe_run turns p = (p', Ok tt) →
  piped (pipe_origin turns p o) p'.
Proof.
  induction turns as [|[inp reply] turns IH]; intros o p p' Hp Ht; cbn [pipe_run pipe_origin].
  { by intros [= <-]. }
  apply Forall_cons in Ht as [Ht Hall]. destruct (pipe_step inp reply p) as [p1 [[]|e|m]] eqn:E; [|done..].
  intros Hrun. apply (IH _ p1 p'); [|done|done]. by apply (pipe_step_piped o p (inp, reply)).
Qed.

(** ** What can fail *)

(** The task holds back blocks below its floor when a block with other data arrives. *)
Definition mask_conflict (inp : poll_input (RB:=RB)) (p : Pipe) : Prop :=
  ∃ s b f floor, poll_next_event parse inp (pp_source p) = Ok (s, Some (EvBlock b f)) ∧
    data_availability_mask b ≠ ig_data_mask (pp_ingest p) ∧ 0 < ig_buffered_blocks (pp_ingest p) ∧
    ig_flush_floor (pp_ingest p) = Some floor ∧ ig_last_block (pp_ingest p) < floor.

Lemma batch_step_stuck start parent ss ss' st ev r : fed start parent (ss_position ss) st →
  emits ss (Some ev) ss' → (∀ prev, ev = EvFork prev → is_Some r) → (∀ cut, batch_step cut (ev, r) st = None) →
  ∃ b f z floor, ev = EvBlock b f ∧ bt_mask st ≠ data_availability_mask b ∧ last (bt_pending st) = Some z ∧
    bt_floor st = Some floor ∧ block_number z < floor.
Proof.
  intros Hf Hem Hre Hn. specialize (Hn false). destruct ev as [h|b f|prev|]; unfold batch_step in Hn; cbn [fst snd] in Hn;
    [done| |by destruct (Hre prev eq_refl) as [? ->]|done].
  destruct Hem as (Hb & Hl & _). destruct (change_mask (data_availability_mask b) st) as [st1|] eqn:Ec.
  { apply (change_mask_fed _ _ _ _ _ _ Hf) in Ec. cbn in Hn. unfold take_block in Hn.
    by rewrite (linked_to_fed _ _ _ _ b Ec Hl) in Hn. }
  unfold change_mask in Ec. case_decide as Hm; [done|]. unfold emit_chunk in Ec.
  destruct (head (bt_pending st)) as [x|] eqn:Eh; [|by destruct (bt_pending st)].
  destruct (last (bt_pending st)) as [z|] eqn:Ez; [|apply last_None in Ez; by rewrite Ez in Ec].
  destruct (bt_floor st) as [floor|]; [|done]. destruct (block_number z <? floor) eqn:El; [|done].
  exists b, f, z, floor. zbool. done.
Qed.

Lemma pipe_step_total o p t : reliable (B:=B) (CB:=CB) (CP:=CP) accepts → piped o p → turn_ok t → is_Some t.2 →
  (∃ p', pipe_step t.1 t.2 p = (p', Ok tt)) ∨ (∃ p' e, pipe_step t.1 t.2 p = (p', Err e) ∧ mask_conflict t.1 p).
Proof.
  intros Hrel (Hs & st & Hr & Hf) [Hi _] Hre. unfold pipe_step, mask_conflict.
  destruct (poll_next_event_spec parse t.1 (pp_source p) Hs Hi) as (s' & ev & -> & Hs' & Hem & _).
  destruct ev as [ev|]; [|left; by eexists].
  destruct (event_total accepts Hrel (pp_ingest p) st (ev, t.2) Hr) as [[ig ->]|(ig & e & -> & Hn)]; [done|left; by eexists|].
  right. eexists _, e. split; [done|].
  destruct (batch_step_stuck _ _ _ _ _ _ _ Hf Hem (λ _ _, Hre) Hn) as (b & f & z & floor & -> & Hm & Ez & Efl & Hlt).
  destruct Hr as (_ & _ & R3 & _ & R5 & _ & R7 & _ & R9). destruct (R9 z Ez) as (Z1 & _).
  exists s', b, f, floor. rewrite R3, R5, R7, Z1. split_and!; try done.
  destruct (bt_pending st); [done|]. simpl. lia.
Qed.

(** C18: the chunks of a feed are one chain.  The ingest task over the standard data source
    sends, since the last rollback it applied (or since its start), chunks that tile the
    blocks without gap or overlap, each naming the last hash of the one before as parent;
    the first starts at the position of that rollback and has the parent it expects.  This
    holds over any sequence of polls, of any number of endpoints that fail, lag or
    disagree, however the row bound cuts the chunks. *)
Theorem pipeline_chunks_chain clients first parent cb bound turns p' :
  u64_ok first → cb_blocks cb = [] → Forall turn_ok turns →
  pipe_run turns (pipe_new clients first parent cb bound) = (p', Ok tt) →
  let o := pipe_origin turns (pipe_new clients first parent cb bound) (first, parent) in
  let sent := chunks_since (ig_sent (pp_ingest p')) in
  tiled (as_chunk <$> sent) ∧
  (∀ c, head sent = Some c → nc_first_block _ c = o.1 ∧ ∀ h, o.2 = Some h → nc_parent_block_hash _ c = h) ∧
  ig_first_block (pp_ingest p') = match last sent with Some c => nc_last_block _ c + 1 | None => o.1 end ∧
  ig_first_block (pp_ingest p') <= get_next_block (pp_source p').
Proof.
  intros Hu Hcb Ht Hrun o sent.
  destruct (pipe_run_piped turns _ _ _ (pipe_new_piped clients first parent cb bound Hu Hcb) Ht Hrun)
    as (Hs & st & Hr & [Hp Ho _ (Hti & Hh & Hl)]). fold o in Hh, Hl.
  destruct Hr as (R1 & R2 & _). unfold sent. rewrite R1, R2. split_and!; try done.
  - destruct (last (chunks_since (bt_sent st))); apply Hl.
  - unfold get_next_block. destruct (last (bt_pending st)) as [z|] eqn:Ez; [|by rewrite Hp].
    rewrite Hp. cbn. pose proof (in_order_last _ _ _ Ho Ez). lia.
Qed.

(** C23: the composition does not get stuck.  With a builder that does not fail, an open
    channel, replies to forks and clients that keep their contract, every turn of the task
    returns; a poll never panics, no block of the source ever violates the continuity the
    task checks, and the one way to fail is a change of the data mask while blocks below the
    replay floor are held back. *)
Theorem pipeline_total clients first parent cb bound turns :
  reliable (B:=B) (CB:=CB) (CP:=CP) accepts → u64_ok first → cb_blocks cb = [] →
  Forall (λ t, turn_ok t ∧ is_Some t.2) turns →
  let p := pipe_new clients first parent cb bound in
  (∃ p', pipe_run turns p = (p', Ok tt)) ∨
  (∃ done_ t rest p1 p' e, turns = done_ ++ t :: rest ∧ pipe_run done_ p = (p1, Ok tt) ∧
     pipe_run turns p = (p', Err e) ∧ mask_conflict t.1 p1).
Proof.
  intros Hrel Hu Hcb Ht p. pose proof (pipe_new_piped clients first parent cb bound Hu Hcb) as Hp. fold p in Hp.
  clearbody p. revert Hp. generalize (first, parent) as o. revert p.
  induction turns as [|[inp reply] turns IH]; intros p o Hp; cbn [pipe_run]; [left; by eexists|].
  apply Forall_cons in Ht as [[Ht Hre] Hall].
  destruct (pipe_step_total o p (inp, reply) Hrel Hp Ht Hre) as [[p1 E]|(p1 & e & E & Hc)]; cbn [fst snd] in E.
  - rewrite E. destruct (IH Hall p1 _ (pipe_step_piped _ _ (inp, reply) _ Hp Ht E))
      as [?|(dn & t & rest & p2 & p' & e & -> & E1 & E2 & Hc)]; [by left|right].
    exists ((inp, reply) :: dn), t, rest, p2, p', e. split_and!; try done. cbn [pipe_run]. by rewrite E.
  - right. exists [], (inp, reply), turns, p, p1, e. rewrite E. by split_and!.
Qed.
End pipeline.

Module PipelineExamples.
Import IngestExamples SourceExamples.

(** Blocks 5 and 7 arrive and are sent on the head; then one client leaves the chain and the
    patience with the other runs out.  The reply is to resume at 4 and to reach 6, so block 4
    is held back on the head, and sent with block 6. *)
Definition back4 : Rollback := mkRollback 4 (Some "c") (Some 6).
Definition one (timeout : bool) (a : list (answer blk)) : poll_input := mkPollInput 3 timeout [[]; a].
Definition stream_end : answer blk := mkAnswer None (Some None) false.
Definition with_reply (i : poll_input (RB:=blk)) : poll_input (RB:=blk) * option Rollback := (i, Some back4).
Definition until_fork : list (poll_input (RB:=blk)) :=
  [first_poll; second_poll; one false [stream_end];
   one true [respond (RespFork [mkBlockRef 3 "w"; mkBlockRef 4 "z"])];
   one false [respond (RespStream None); item (mkBlk 4 "z" "c" 0)]; one false [stream_end]].
Definition feed : list (poll_input (RB:=blk) * option Rollback) :=
  with_reply <$> until_fork ++ [one false [respond (RespStream None); item (mkBlk 6 "y" "z" 0)]; one false [stream_end]].
(** Block 6 comes with other data. *)
Definition feed_masked : list (poll_input (RB:=blk) * option Rollback) :=
  with_reply <$> until_fork ++ [one false [respond (RespStream None); item (mkBlk 6 "y" "z" 1)]].
Definition started : Pipe (CB:=list blk) (CP:=list blk) (PT:=list Z) := pipe_new 2 5 (Some "d") [] 1500.

Lemma start5 : u64_ok 5.
Proof. unfold u64_ok, u64_max. lia. Qed.
Lemma empty_builder : cb_blocks (B:=blk) (CB:=list blk) (CP:=list blk) (PT:=list Z) [] = [].
Proof. reflexivity. Qed.
Lemma turn_with_reply i : input_ok parse_blk i → turn_ok parse_blk (with_reply i) ∧ is_Some (with_reply i).2.
Proof. intros Hi. split; [|by eexists]. split; [done|]. intros rb [= <-]. unfold u64_ok, u64_max. cbn. lia. Qed.
Lemma until_fork_ok : Forall (input_ok parse_blk) until_fork.
Proof.
  constructor; [exact first_poll_ok|]. constructor; [exact second_poll_ok|].
  repeat constructor; intros r Hr; vm_compute in Hr; simplify_eq; cbn; unfold u64_max; try done; lia.
Qed.
Lemma feed_ok : Forall (λ t, turn_ok parse_blk t ∧ is_Some t.2) feed.
Proof.
  apply Forall_fmap. eapply Forall_impl; [|exact turn_with_reply]. apply Forall_app. split; [exact until_fork_ok|].
  repeat constructor; intros r Hr; vm_compute in Hr; simplify_eq; cbn; unfold u64_max; try done; lia.
Qed.
Lemma feed_masked_ok : Forall (λ t, turn_ok parse_blk t ∧ is_Some t.2) feed_masked.
Proof.
  apply Forall_fmap. eapply Forall_impl; [|exact turn_with_reply]. apply Forall_app. split; [exact until_fork_ok|].
  repeat constructor; intros r Hr; vm_compute in Hr; simplify_eq; cbn; unfold u64_max; try done; lia.
Qed.

Lemma pipeline_chunks_chain_witness : ∃ p' c,
  pipe_run parse_blk open feed started = (p', Ok tt) ∧
  chunks_since (ig_sent (pp_ingest p')) = [c] ∧ (nc_first_block _ c, nc_last_block _ c) = (4, 6) ∧
  nc_parent_block_hash _ c = "c" ∧ tiled (as_chunk <$> [c]).
Proof.
  set (o := pipe_run parse_blk open feed started).
  assert (Eo : o.2 = Ok tt) by (vm_compute; reflexivity).
  assert (E : o = (o.1, o.2)) by apply surjective_pairing. rewrite Eo in E.
  assert (Ec : ∃ c, chunks_since (ig_sent (pp_ingest o.1)) = [c] ∧ (nc_first_block _ c, nc_last_block _ c) = (4, 6))
    by (vm_compute; eexists; split; reflexivity).
  destruct Ec as (c & Ec & Er).
  assert (Eor : pipe_origin parse_blk open feed started (5, Some "d") = (4, Some "c")) by (vm_compute; reflexivity).
  destruct (pipeline_chunks_chain (CB:=list blk) parse_blk open 2 5 (Some "d") [] 1500 feed o.1 start5 empty_builder) as (Ht & Hh & _).
  - eapply Forall_impl; [exact feed_ok|]. intros t [? _]. done.
  - exact E.
  - change (pipe_new 2 5 (Some "d") [] 1500) with started in Hh. rewrite Eor in Hh. rewrite Ec in Ht, Hh.
    destruct (Hh c eq_refl) as [_ Hp]. exists o.1, c. split_and!; [exact E|exact Ec|exact Er|by apply Hp|exact Ht].
Defined.

Lemma pipeline_total_witness :
  (∃ p', pipe_run parse_blk open feed started = (p', Ok tt)) ∧
  ∃ done_ t rest p1, feed_masked = done_ ++ t :: rest ∧ pipe_run parse_blk open done_ started = (p1, Ok tt) ∧
    mask_conflict parse_blk t.1 p1.
Proof.
  pose proof (pipeline_total (CB:=list blk) parse_blk open 2 5 (Some "d") [] 1500 feed list_reliable start5 empty_builder feed_ok) as H1.
  pose proof (pipeline_total (CB:=list blk) parse_blk open 2 5 (Some "d") [] 1500 feed_masked list_reliable start5 empty_builder
    feed_masked_ok) as H2. cbv zeta in H1, H2. fold started in H1, H2.
  assert (E1 : (pipe_run parse_blk open feed started).2 = Ok tt) by (vm_compute; reflexivity).
  assert (E2 : ∃ e, (pipe_run parse_blk open feed_masked started).2 = Err e) by (vm_compute; eexists; reflexivity).
  split.
  - destruct H1 as [H1|(dn & t & rest & p1 & p' & e & _ & _ & E & _)]; [exact H1|]. rewrite E in E1. discriminate E1.
  - destruct H2 as [[p' E]|(dn & t & rest & p1 & p' & e & Ef & Er & _ & Hc)].
    + destruct E2 as [e E2]. rewrite E in E2. discriminate E2.
    + exists dn, t, rest, p1. split_and!; [exact Ef|exact Er|exact Hc].
Defined.
End PipelineExamples.
