(* ===== verification/Harness.v ===== *)
(** * Harness: the reference model of the test harness

    Models crates/hotblocks-harness/src/model.rs, the block-exact oracle the simulator and the
    service are compared with, and the data types it uses from types.rs.  Methods on
    [&mut self] return the model after the call with the result; an assertion of [wf] that
    fails is a [Panic]. *)

From stdpp Require Import list.
From S2P Require Import Prelude Data Chain.

(** ** Data (types.rs) *)

Record Block : Type := mkBlock {
  b_number : Z;
  b_hash : string;
  b_parent_number : Z;
  b_parent_hash : string;
  b_timestamp_ms : Z;
  b_fork_id : Z
}.
Definition as_ref (b : Block) : BlockRef := mkBlockRef (b_number b) (b_hash b).

Record Anchor : Type := mkAnchor { anchor_number : Z; anchor_hash : option string }.

#[export] Instance block_eq_dec : EqDecision Block.
Proof. solve_decision. Defined.
#[export] Instance anchor_eq_dec : EqDecision Anchor.
Proof. solve_decision. Defined.

(** [block_hash]: four rounds of splitmix64 printed as hexadecimal. *)
Definition wrapping_mul (x y : Z) : Z := (x * y) mod u64_mod.
Definition splitmix64 (x : Z) : Z :=
  let z := wrapping_mul (Z.lxor x (Z.shiftr x 30)) 0xBF58476D1CE4E5B9 in
  let z := wrapping_mul (Z.lxor z (Z.shiftr z 27)) 0x94D049BB133111EB in
  Z.lxor z (Z.shiftr z 31).
Definition rng_next (s : Z) : Z * Z :=
  let s := u64_add s 0x9E3779B97F4A7C15 in (s, splitmix64 s).
Definition rng_below (n s : Z) : res (Z * Z) :=
  if n =? 0 then Panic "attempt to calculate the remainder with a divisor of zero"
  else let '(s, x) := rng_next s in Ok (s, x mod n).

(** ** The model (model.rs) *)

Inductive Finalize : Type := FinalizeApplied | FinalizeIgnored | FinalizeIntegrityFault.

Inductive ForkResolution : Type :=
| Resume (from : Z) (parent_hash : option string)
| ResetTo (a : Anchor)
| ForkIntegrityFault.

Inductive Predicted : Type :=
| PredictedOk (hi : Z)
| NoData
| RangeUnavailable
| Conflict (hints : list BlockRef).

#[export] Instance finalize_eq_dec : EqDecision Finalize.
Proof. solve_decision. Defined.
#[export] Instance fork_resolution_eq_dec : EqDecision ForkResolution.
Proof. solve_decision. Defined.

Record Model : Type := mkModel {
  seg : list Block;
  anchor : Anchor;
  m_fin : option BlockRef;
  ver : Z
}.

Definition model_new (a : Anchor) : Model := mkModel [] a None 0.

Definition m_first (m : Model) : option Z := b_number <$> head (seg m).
Definition m_head (m : Model) : option BlockRef := as_ref <$> last (seg m).
Definition m_next (m : Model) : Z :=
  match last (seg m) with
  | Some b => u64_add (b_number b) 1
  | None => u64_add (anchor_number (anchor m)) 1
  end.
Definition m_span (m : Model) : nat := length (seg m).

(** [<[T]>::partition_point]: on a slice that the predicate splits, the length of the prefix
    where it holds. *)
Definition partition_point {A} (f : A → bool) (l : list A) : nat := length (take_while f l).

Definition m_hash_at (m : Model) (n : Z) : option string :=
  let i := partition_point (λ b, b_number b <=? n) (seg m) in
  if (0 <? i)%nat then b_hash <$> seg m !! (i - 1)%nat
  else if anchor_number (anchor m) <=? n then anchor_hash (anchor m)
  else None.

(** [binary_search_by_key] on numbers that ascend. *)
Definition m_block_at (m : Model) (n : Z) : option Block :=
  head (filter (λ b, b_number b = n) (seg m)).

Definition stored_or_anchor (m : Model) (r : BlockRef) : bool :=
  bool_decide (m_hash_at m (number r) = Some (hash r)).

(** [assert!] *)
Definition assert (c : bool) (what : string) : res unit := if c then Ok tt else Panic what.

(** [for w in seg.windows(2)] *)
Fixpoint windows2 {A} (l : list A) : list (A * A) :=
  match l with
  | a :: ((b :: _) as l') => (a, b) :: windows2 l'
  | _ => []
  end.

Definition wf (m : Model) : res unit :=
  _ ← fold_res (λ _ w,
        _ ← assert (b_number w.1 <? b_number w.2) "INV-1: segment is not ascending";
        _ ← assert (b_parent_number w.2 =? b_number w.1) "INV-1: a block is missing";
        assert (bool_decide (b_parent_hash w.2 = b_hash w.1)) "INV-2: segment is not linked")
      (windows2 (seg m)) tt;
  _ ← match head (seg m) with
      | Some first =>
          _ ← assert (anchor_number (anchor m) <? b_number first) "INV-3: the anchor does not sit below the window";
          match anchor_hash (anchor m) with
          | Some h => assert (bool_decide (b_parent_hash first = h)) "INV-3: window does not link to its anchor"
          | None => Ok tt
          end
      | None => Ok tt
      end;
  match m_fin m with
  | Some fin =>
      match m_first m, m_head m with
      | Some first, Some head =>
          _ ← assert ((first <=? number fin) && (number fin <=? number head)) "INV-5: finalized watermark outside";
          assert (bool_decide (b_hash <$> m_block_at m (number fin) = Some (hash fin)))
            "INV-6: finalized watermark does not name the stored block"
      | _, _ => Panic "INV-5: finalized watermark without a window"
      end
  | None => Ok tt
  end.

Definition valid_run (blocks : list Block) : res unit :=
  fold_res (λ _ w,
    _ ← ensure (b_number w.1 <? b_number w.2) (EMsg "block run is not ascending");
    _ ← ensure (b_parent_number w.2 =? b_number w.1) (EMsg "block run has a hole");
    ensure (bool_decide (b_parent_hash w.2 = b_hash w.1)) (EMsg "block run is not linked"))
  (windows2 blocks) tt.

Definition with_fin (fin : option BlockRef) (m : Model) : Model := mkModel (seg m) (anchor m) fin (ver m).
Definition with_seg (bs : list Block) (m : Model) : Model := mkModel bs (anchor m) (m_fin m) (ver m).
Definition bump (m : Model) : Model := mkModel (seg m) (anchor m) (m_fin m) (u64_add (ver m) 1).

Definition finalize_inner (r : BlockRef) (m : Model) : Model * Finalize :=
  match m_head m, m_first m with
  | Some head, Some first =>
      let e := Z.min (number r) (number head) in
      if e <? first then (m, FinalizeIgnored)
      else if match m_fin m with Some fin => e <? number fin | None => false end then (m, FinalizeIgnored)
      else
        let settle (at_e : string) :=
          if match m_fin m with
             | Some fin => ((e =? number fin) && negb (bool_decide (at_e = hash fin)))%bool
             | None => false
             end
          then (m, FinalizeIntegrityFault)
          else
            let new := mkBlockRef e at_e in
            if bool_decide (m_fin m = Some new) then (m, FinalizeIgnored)
            else (with_fin (Some new) m, FinalizeApplied) in
        if e =? number r then
          match m_block_at m e with
          | None => (m, FinalizeIgnored)
          | Some stored =>
              if bool_decide (b_hash stored = hash r) then settle (b_hash stored) else (m, FinalizeIntegrityFault)
          end
        else settle (hash head)
  | _, _ => (m, FinalizeIgnored)
  end.

Definition apply_finality (fin : option BlockRef) (m : Model) : Model * res unit :=
  match fin with
  | None => (m, Ok tt)
  | Some r =>
      match finalize_inner r m with
      | (m, FinalizeApplied) | (m, FinalizeIgnored) => (m, Ok tt)
      | (m, FinalizeIntegrityFault) => (m, Err (EMsg "INTEGRITY_FAULT: finality report contradicts stored data"))
      end
  end.

Definition model_finalize (r : BlockRef) (m : Model) : Model * res Finalize :=
  match finalize_inner r m with
  | (m, FinalizeApplied) => let m := bump m in (m, _ ← wf m; Ok FinalizeApplied)
  | (m, outcome) => (m, Ok outcome)
  end.

(** The common end of EXTEND and REPLACE: the new segment, one version, the finality report;
    a contradicting report restores the model. *)
Definition commit_segment (bs : list Block) (fin : option BlockRef) (m : Model) : Model * res unit :=
  let previous := m in
  match apply_finality fin (bump (with_seg bs m)) with
  | (m, Ok _) => (m, wf m)
  | (_, Err e) => (previous, Err e)
  | (m, Panic p) => (m, Panic p)
  end.

Definition extend_checks (m : Model) (blocks : list Block) : res unit :=
  match blocks with
  | [] => Err (EMsg "EXTEND with an empty run")
  | b0 :: _ =>
      _ ← valid_run blocks;
      _ ← ensure (m_next m <=? b_number b0) (EMsg "EXTEND below the next block");
      match m_head m with
      | Some head =>
          _ ← ensure (b_parent_number b0 =? number head) (EMsg "EXTEND skips a block");
          ensure (bool_decide (b_parent_hash b0 = hash head)) (EMsg "EXTEND breaks linkage")
      | None =>
          match anchor_hash (anchor m) with
          | Some a => ensure (bool_decide (b_parent_hash b0 = a)) (EMsg "EXTEND breaks linkage")
          | None => Ok tt
          end
      end
  end.

Definition extend (blocks : list Block) (fin : option BlockRef) (m : Model) : Model * res unit :=
  match extend_checks m blocks with
  | Ok _ => commit_segment (seg m ++ blocks) fin m
  | r => (m, r)
  end.

Definition replacement_evicts_reported_block (from : Z) (blocks : list Block) (report : BlockRef) (m : Model)
  : res bool :=
  post ← match last blocks with Some z => Ok (b_number z) | None => Panic "REPLACE blocks are non-empty" end;
  first ← (if number report >? post then Ok 0
           else match m_first m with Some f => Ok f | None => Panic "REPLACE window is non-empty" end);
  Ok (if ((number report >? post) || (number report <? first))%bool then false
      else if match m_fin m with Some fin => number report <=? number fin | None => false end then false
      else ((from <=? number report) && (number report <=? post) &&
            forallb (λ b, negb (b_number b =? number report)) blocks &&
            bool_decide (is_Some (m_block_at m (number report))))%bool).

Definition same_blocks (l k : list Block) : bool :=
  ((length l =? length k)%nat &&
   forallb (λ p, (b_number p.1 =? b_number p.2) && bool_decide (b_hash p.1 = b_hash p.2)) (zip l k))%bool.

Definition replace_checks (m : Model) (from : Z) (blocks : list Block) (fin : option BlockRef) : res unit :=
  match seg m, blocks with
  | [], _ => Err (EMsg "REPLACE on an empty window")
  | _, [] => Err (EMsg "REPLACE with an empty run")
  | s0 :: _, b0 :: _ =>
      _ ← valid_run blocks;
      _ ← ensure (from <=? b_number b0) (EMsg "REPLACE run starts below the fork point");
      _ ← ensure (b_number s0 <=? from) (EMsg "INV-14: REPLACE is below the window floor");
      _ ← match m_fin m with
          | Some f =>
              if from <=? number f then
                let stored := filter (λ b, from <= b_number b ∧ b_number b <= number f) (seg m) in
                let replayed := filter (λ b, b_number b <= number f) blocks in
                ensure (same_blocks stored replayed) (EMsg "INV-13: REPLACE alters the finalized prefix")
              else Ok tt
          | None => Ok tt
          end;
      let keep := partition_point (λ b, b_number b <? from) (seg m) in
      _ ← match (if (keep =? 0)%nat then None else seg m !! (keep - 1)%nat) with
          | Some base =>
              ensure ((b_parent_number b0 =? b_number base) && bool_decide (b_parent_hash b0 = b_hash base))
                (EMsg "REPLACE breaks linkage")
          | None =>
              match anchor_hash (anchor m) with
              | Some a => ensure (bool_decide (b_parent_hash b0 = a)) (EMsg "REPLACE breaks linkage")
              | None => Ok tt
              end
          end;
      match fin with
      | Some report =>
          evicts ← replacement_evicts_reported_block from blocks report m;
          ensure (negb evicts) (EMsg "INTEGRITY_FAULT: replacement evicts the block reported final")
      | None => Ok tt
      end
  end.

Definition replace (from : Z) (blocks : list Block) (fin : option BlockRef) (m : Model) : Model * res unit :=
  match replace_checks m from blocks fin with
  | Ok _ => commit_segment (take (partition_point (λ b, b_number b <? from) (seg m)) (seg m) ++ blocks) fin m
  | r => (m, r)
  end.

Definition reset (a : Anchor) (m : Model) : Model * res unit :=
  let m := mkModel [] a None (u64_add (ver m) 1) in (m, wf m).

Definition model_retain (from : Z) (hash_ : option string) (m : Model) : Model * res unit :=
  let floor := default (u64_add (anchor_number (anchor m)) 1) (m_first m) in
  if ((from =? floor) || (bool_decide (seg m = []) && (from <? floor)))%bool then
    match hash_, anchor_hash (anchor m) with
    | Some h, Some a =>
        if ((from =? floor) && negb (bool_decide (h = a)))%bool then reset (mkAnchor (u64_sub from 1) (Some h)) m
        else (m, Ok tt)
    | _, _ => (m, Ok tt)
    end
  else if from <? floor then reset (mkAnchor (u64_sub from 1) hash_) m
  else if (negb (bool_decide (seg m = [])) && (from <=? m_next m))%bool then
    let drop_ := partition_point (λ b, b_number b <? from) (seg m) in
    match (if (drop_ =? 0)%nat then None else seg m !! (drop_ - 1)%nat) with
    | None => (m, Panic "index out of bounds")
    | Some b =>
        let new_anchor := as_ref b in
        if match hash_ with Some h => negb (bool_decide (h = hash new_anchor)) | None => false end
        then reset (mkAnchor (u64_sub from 1) hash_) m
        else
          let fin := match m_fin m with
                     | Some f => if number f <? from then None else Some f
                     | None => None
                     end in
          let m := mkModel (drop drop_ (seg m)) (mkAnchor (number new_anchor) (Some (hash new_anchor))) fin
                     (u64_add (ver m) 1) in
          (m, wf m)
    end
  else reset (mkAnchor (u64_sub from 1) hash_) m.

(** The hints that finality leaves: those from the finalized height up. *)
Definition fork_hints (m : Model) (hints : list BlockRef) : option (list BlockRef) :=
  match m_fin m with
  | None => Some hints
  | Some fin =>
      match list_find (λ h, number fin <= number h) hints with
      | None => None
      | Some (keep, h0) =>
          if ((number h0 =? number fin) && negb (bool_decide (hash h0 = hash fin)))%bool then None
          else Some (drop keep hints)
      end
  end.

(** Direct evidence: a hint at the anchor with another hash than a known one. *)
Definition anchor_contradicted (m : Model) (hints : list BlockRef) : option BlockRef :=
  match anchor_hash (anchor m), list_find (λ h, number h = anchor_number (anchor m)) hints with
  | Some a, Some (_, h) => if bool_decide (hash h = a) then None else Some h
  | _, _ => None
  end.

Definition resolve_fork (hints : list BlockRef) (m : Model) : res ForkResolution :=
  _ ← ensure (negb (bool_decide (hints = []))) (EMsg "ForkSignal with no hints");
  _ ← ensure (forallb (λ w, number w.1 <? number w.2) (windows2 hints)) (EMsg "ForkSignal hints are not ascending");
  Ok match fork_hints m hints with
     | None => ForkIntegrityFault
     | Some hints =>
         match anchor_contradicted m hints with
         | Some h => ResetTo (mkAnchor (anchor_number (anchor m)) (Some (hash h)))
         | None =>
             match last (filter (λ h, stored_or_anchor m h = true) hints), m_fin m with
             | Some h, _ => Resume (u64_add (number h) 1) (Some (hash h))
             | None, Some fin => Resume (u64_add (number fin) 1) (Some (hash fin))
             | None, None =>
                 Resume (default (u64_add (anchor_number (anchor m)) 1) (m_first m)) (anchor_hash (anchor m))
             end
         end
     end.

Definition P_CONFLICT_WINDOW : nat := 100.

Definition conflict_hints (m : Model) (at_ : Z) : list BlockRef :=
  let hi := partition_point (λ b, b_number b <=? at_) (seg m) in
  let lo := (hi - P_CONFLICT_WINDOW)%nat in
  as_ref <$> take (hi - lo) (drop lo (seg m)).

Definition predict_query (from : Z) (to : option Z) (finalized_only : bool) (expected_parent : option string)
    (m : Model) : Predicted :=
  let tip := if finalized_only then m_fin m else m_head m in
  if match m_first m with Some first => from <? first | None => false end then RangeUnavailable
  else if match expected_parent, tip with
          | Some expected, Some t =>
              ((from =? u64_add (number t) 1) && negb (bool_decide (expected = hash t)))%bool
          | _, _ => false
          end
  then Conflict (conflict_hints m (u64_sub from 1))
  else match tip with
       | None => NoData
       | Some t =>
           let hi := number t in
           if from >? hi then NoData
           else if match expected_parent, m_hash_at m (u64_sub from 1) with
                   | Some expected, Some stored => negb (bool_decide (stored = expected))
                   | _, _ => false
                   end
           then Conflict (conflict_hints m (u64_sub from 1))
           else PredictedOk (match to with Some to => Z.min to hi | None => hi end)
       end.

(** The emission of the blocks; [expected_emission] is the chain kind's. *)
Definition blocks_in (m : Model) (from to : Z) : list Block :=
  if to <? from then []
  else
    let lo := partition_point (λ b, b_number b <? from) (seg m) in
    let hi := partition_point (λ b, b_number b <=? to) (seg m) in
    take (hi - lo) (drop lo (seg m)).
Definition emission {V} (expected_emission : Block → V) (m : Model) (from l : Z) : list V :=
  expected_emission <$> blocks_in m from l.
