(* ===== verification/HarnessSpec.v ===== *)
(** * HarnessSpec: the invariant of the reference model

    INV-1 to INV-6 as a proposition, the reflection of the assertions of [wf] in it, the
    shape of the window it gives to the searches, and its preservation by every
    transition. *)

From stdpp Require Import list.
From S2P Require Import Prelude Data Chain Harness.

Implicit Types (m : Model) (bs : list Block) (r : BlockRef).

(** ** The invariant *)

Definition child (a b : Block) : Prop :=
  b_number a < b_number b ∧ b_parent_number b = b_number a ∧ b_parent_hash b = b_hash a.

Definition anchored (a : Anchor) bs : Prop :=
  ∀ first, head bs = Some first → anchor_number a < b_number first ∧
    ∀ h, anchor_hash a = Some h → b_parent_hash first = h.

Definition names_block bs (fin : option BlockRef) : Prop :=
  ∀ f, fin = Some f → ∃ b, b ∈ bs ∧ as_ref b = f.

Record well_formed m : Prop := {
  wf_linked : adjacent child (seg m);
  wf_anchored : anchored (anchor m) (seg m);
  wf_fin : names_block (seg m) (m_fin m)
}.

Definition block_ok (b : Block) : Prop := 0 <= b_number b < u64_max.
Definition numbers_ok m : Prop := 0 <= anchor_number (anchor m) < u64_max ∧ Forall block_ok (seg m).

Definition model_ok m : Prop := well_formed m ∧ numbers_ok m.

(** ** Ascending lists of blocks *)

Definition ascending_blocks bs : Prop := StronglySorted (λ a b, b_number a < b_number b) bs.

Lemma child_ascending bs : adjacent child bs → ascending_blocks bs.
Proof.
  intros Ha. apply Sorted_StronglySorted; [intros a b c; lia|].
  induction bs as [|a [|b bs] IH]; [constructor|repeat constructor|].
  destruct Ha as [[Hab _] Ha]. constructor; [by apply IH|by constructor].
Qed.

Lemma ascending_NoDup bs : ascending_blocks bs → NoDup (b_number <$> bs).
Proof.
  induction bs as [|b bs IH]; intros Hs; [constructor|].
  apply StronglySorted_inv in Hs as [Hs Hf]. cbn. constructor; [|by apply IH].
  intros (x & E & Hx)%list_elem_of_fmap. rewrite Forall_forall in Hf. specialize (Hf x Hx). simpl in Hf. lia.
Qed.

Lemma ascending_last bs b z : ascending_blocks bs → b ∈ bs → last bs = Some z → b_number b <= b_number z.
Proof.
  intros Hs Hb Hz. apply last_Some in Hz as [l ->]. apply StronglySorted_snoc in Hs as [_ Hf].
  rewrite Forall_forall in Hf. rewrite elem_of_app, list_elem_of_singleton in Hb.
  destruct Hb as [Hb| ->]; [specialize (Hf b Hb); simpl in Hf; lia|lia].
Qed.

Lemma ascending_head bs b a : ascending_blocks bs → b ∈ bs → head bs = Some a → b_number a <= b_number b.
Proof.
  destruct bs as [|x bs]; [done|]. intros Hs [->|Hb]%elem_of_cons [= <-]; [lia|].
  pose proof (StronglySorted_elem _ _ _ Hs b Hb). simpl in *. lia.
Qed.

Lemma elem_head {A} (l : list A) x : x ∈ l → ∃ a, head l = Some a.
Proof. destruct l; [by intros ?%elem_of_nil|by eexists]. Qed.
Lemma elem_last {A} (l : list A) x : x ∈ l → ∃ a, last l = Some a.
Proof. intros Hx. destruct (last l) eqn:E; [by eexists|]. apply last_None in E as ->. by apply elem_of_nil in Hx. Qed.

(** A threshold splits an ascending list into the prefix below it and the rest. *)
Lemma take_while_filter (f : Block → bool) bs :
  (∀ a b, b_number a < b_number b → f b = true → f a = true) → ascending_blocks bs →
  take_while f bs = filter (λ b, f b = true) bs.
Proof.
  intros Hmono. induction bs as [|b bs IH]; intros Hs; [done|]. cbn [take_while]. rewrite filter_cons.
  destruct (f b) eqn:E.
  - rewrite decide_True by done. f_equal. apply IH. by apply StronglySorted_inv in Hs as [? _].
  - rewrite decide_False by done. symmetry. apply list_filter_none. intros x Hx Hf.
    rewrite (Hmono b x) in E; [done| |done]. exact (StronglySorted_elem _ _ _ Hs x Hx).
Qed.

Lemma take_partition {A} (f : A → bool) l : take (partition_point f l) l = take_while f l.
Proof.
  unfold partition_point. destruct (take_while_prefix f l) as [k E]. rewrite E at 2.
  by rewrite take_app_length.
Qed.
Lemma partition_le {A} (f : A → bool) l : (partition_point f l <= length l)%nat.
Proof. unfold partition_point. destruct (take_while_prefix f l) as [k E]. rewrite E at 2. rewrite length_app. lia. Qed.

Lemma drop_while_filter (f : Block → bool) bs :
  (∀ a b, b_number a < b_number b → f b = true → f a = true) → ascending_blocks bs →
  drop (partition_point f bs) bs = filter (λ b, f b = false) bs.
Proof.
  intros Hmono. unfold partition_point. induction bs as [|b bs IH]; intros Hs; [done|]. cbn [take_while].
  rewrite filter_cons. destruct (f b) eqn:E.
  - rewrite decide_False by done. cbn. apply IH. by apply StronglySorted_inv in Hs as [? _].
  - rewrite decide_True by done. cbn. f_equal. symmetry. apply list_filter_all. intros x Hx.
    destruct (f x) eqn:Ex; [|done]. rewrite (Hmono b x) in E; [done| |done].
    exact (StronglySorted_elem _ _ _ Hs x Hx).
Qed.

(** The last block of the prefix a search leaves. *)
Lemma partition_last {A} (f : A → bool) l :
  (if (partition_point f l =? 0)%nat then None else l !! (partition_point f l - 1)%nat) = last (take_while f l).
Proof.
  unfold partition_point. destruct (take_while_prefix f l) as [k E].
  destruct (take_while f l) as [|x t] eqn:Et; [done|]. cbn [length Nat.eqb].
  rewrite E, last_lookup. rewrite lookup_app_l by (simpl; lia). f_equal. simpl. lia.
Qed.

Lemma below_mono n : ∀ a b, b_number a < b_number b → (b_number b <? n) = true → (b_number a <? n) = true.
Proof. intros a b ?. rewrite !Z.ltb_lt. lia. Qed.
Lemma upto_mono n : ∀ a b, b_number a < b_number b → (b_number b <=? n) = true → (b_number a <=? n) = true.
Proof. intros a b ?. rewrite !Z.leb_le. lia. Qed.

(** ** Lookups *)

Lemma block_at_Some bs b n : ascending_blocks bs → head (filter (λ b, b_number b = n) bs) = Some b ↔ b ∈ bs ∧ b_number b = n.
Proof.
  intros Hs. split.
  - intros Hh. apply head_Some_elem_of, list_elem_of_filter in Hh. tauto.
  - intros [Hb Hn]. induction bs as [|x bs IH]; [by apply elem_of_nil in Hb|]. rewrite filter_cons.
    apply elem_of_cons in Hb as [->|Hb]; [by rewrite decide_True|].
    pose proof (StronglySorted_elem _ _ _ Hs b Hb) as Hlt. simpl in Hlt.
    rewrite decide_False by lia. apply IH; [|done]. by apply StronglySorted_inv in Hs as [? _].
Qed.

Lemma m_block_at_Some m b n : adjacent child (seg m) → m_block_at m n = Some b ↔ b ∈ seg m ∧ b_number b = n.
Proof. intros Ha. by apply block_at_Some, child_ascending. Qed.

(** ** The assertions *)

Lemma assert_Ok c s : assert c s = Ok tt ↔ c = true.
Proof. by destruct c. Qed.

Lemma windows2_adjacent {A} (R : A → A → Prop) (l : list A) :
  Forall (λ w, R w.1 w.2) (windows2 l) ↔ adjacent R l.
Proof.
  induction l as [|a [|b l] IH]; [split; constructor..|]. cbn [windows2 adjacent].
  rewrite Forall_cons. by rewrite IH.
Qed.

Lemma fold_checks {A} (f : A → res unit) (l : list A) :
  fold_res (λ _ w, f w) l tt = Ok tt ↔ Forall (λ w, f w = Ok tt) l.
Proof.
  induction l as [|x l IH]; cbn; [split; [constructor|done]|]. rewrite Forall_cons, <-IH.
  destruct (f x) as [[]|e|s]; cbn; naive_solver.
Qed.

Lemma bind_unit (r : res unit) (k : unit → res unit) : (r ≫= k) = Ok tt ↔ r = Ok tt ∧ k tt = Ok tt.
Proof. destruct r as [[]|e|s]; cbn; naive_solver. Qed.

Lemma valid_run_spec bs : valid_run bs = Ok tt ↔ adjacent child bs.
Proof.
  unfold valid_run. rewrite fold_checks, <-windows2_adjacent. apply Forall_iff. intros [a b]. unfold child. cbn.
  rewrite !bind_unit, !ensure_Ok, Z.ltb_lt, Z.eqb_eq, bool_decide_eq_true. tauto.
Qed.

Lemma wf_linked_spec m :
  fold_res (λ _ w, _ ← assert (b_number w.1 <? b_number w.2) "INV-1: segment is not ascending";
    _ ← assert (b_parent_number w.2 =? b_number w.1) "INV-1: a block is missing";
    assert (bool_decide (b_parent_hash w.2 = b_hash w.1)) "INV-2: segment is not linked")
    (windows2 (seg m)) tt = Ok tt ↔ adjacent child (seg m).
Proof.
  rewrite fold_checks, <-windows2_adjacent. apply Forall_iff. intros [a b]. unfold child. cbn.
  rewrite !bind_unit, !assert_Ok, Z.ltb_lt, Z.eqb_eq, bool_decide_eq_true. tauto.
Qed.

Lemma wf_anchored_spec m :
  match head (seg m) with
  | Some first =>
      _ ← assert (anchor_number (anchor m) <? b_number first) "INV-3: the anchor does not sit below the window";
      match anchor_hash (anchor m) with
      | Some h => assert (bool_decide (b_parent_hash first = h)) "INV-3: window does not link to its anchor"
      | None => Ok tt
      end
  | None => Ok tt
  end = Ok tt ↔ anchored (anchor m) (seg m).
Proof.
  unfold anchored. destruct (head (seg m)) as [first|]; [|naive_solver].
  rewrite bind_unit, assert_Ok, Z.ltb_lt. destruct (anchor_hash (anchor m)) as [h|].
  - rewrite assert_Ok, bool_decide_eq_true. naive_solver.
  - naive_solver.
Qed.

(** The assertions of [wf] hold exactly on well-formed models. *)
Lemma wf_spec m : wf m = Ok tt ↔ well_formed m.
Proof.
  unfold wf. rewrite !bind_unit, wf_linked_spec, wf_anchored_spec. split.
  - intros (Hl & Ha & Hf). constructor; [done..|]. intros f Ef. rewrite Ef in Hf.
    destruct (m_first m) as [x|], (m_head m) as [y|]; [|done..]. rewrite bind_unit, !assert_Ok, bool_decide_eq_true in Hf.
    destruct Hf as [_ Hb]. apply fmap_Some in Hb as (b & Hb & E). apply m_block_at_Some in Hb as [Hb Hn]; [|done].
    exists b. split; [done|]. destruct f. unfold as_ref. simpl in *. congruence.
  - intros [Hl Ha Hf]. split; [done|]. split; [done|]. destruct (m_fin m) as [f|]; [|done].
    destruct (Hf f eq_refl) as (b & Hb & <-). pose proof (child_ascending _ Hl) as Hs.
    unfold m_first, m_head. destruct (elem_head _ _ Hb) as [x Ex], (elem_last _ _ Hb) as [z Ez].
    rewrite Ex, Ez. cbn. rewrite bind_unit, !assert_Ok, bool_decide_eq_true, andb_true_iff, !Z.leb_le.
    split; [split; [by apply (ascending_head (seg m))|by apply (ascending_last (seg m))]|].
    destruct (m_block_at m (b_number b)) as [b'|] eqn:E.
    + pose proof (proj2 (m_block_at_Some m b (b_number b) Hl) (conj Hb eq_refl)) as E'. rewrite E in E'. cbn. congruence.
    + by rewrite (proj2 (m_block_at_Some m b (b_number b) Hl) (conj Hb eq_refl)) in E.
Qed.

(** ** Finality *)

Lemma well_formed_fields m a b f : a = anchor m → b = seg m → well_formed m → names_block (seg m) f →
  ∀ v, well_formed (mkModel b a f v).
Proof. intros -> -> [Hl Ha _] Hf v. by constructor. Qed.

Lemma finalize_inner_spec r m m' o : well_formed m → finalize_inner r m = (m', o) →
  match o with
  | FinalizeApplied => ∃ b, b ∈ seg m ∧ m' = with_fin (Some (as_ref b)) m ∧
      (b_number b = number r ∧ b_hash b = hash r ∨ b_number b < number r ∧ last (seg m) = Some b) ∧
      ∀ f, m_fin m = Some f → number f < b_number b
  | _ => m' = m
  end.
Proof.
  intros Hw. pose proof (wf_linked _ Hw) as Hl. unfold finalize_inner, m_head, m_first.
  destruct (last (seg m)) as [z|] eqn:Ez; [|by intros [= <- <-]].
  destruct (head (seg m)) as [a|]; [|by intros [= <- <-]]. cbn [fmap option_fmap option_map as_ref number hash].
  rewrite <-Ez. set (e := Z.min (number r) (b_number z)).
  destruct (e <? b_number a); [by intros [= <- <-]|].
  destruct (match m_fin m with Some f => e <? number f | None => false end) eqn:Ereg; [by intros [= <- <-]|].
  assert (Hsettle : ∀ b, b ∈ seg m → b_number b = e →
    (b_number b = number r ∧ b_hash b = hash r ∨ b_number b < number r ∧ last (seg m) = Some b) →
    (if match m_fin m with
        | Some f => ((e =? number f) && negb (bool_decide (b_hash b = hash f)))%bool | None => false end
     then (m, FinalizeIntegrityFault)
     else if bool_decide (m_fin m = Some (mkBlockRef e (b_hash b))) then (m, FinalizeIgnored)
     else (with_fin (Some (mkBlockRef e (b_hash b))) m, FinalizeApplied)) = (m', o) →
    match o with
    | FinalizeApplied => ∃ b, b ∈ seg m ∧ m' = with_fin (Some (as_ref b)) m ∧
        (b_number b = number r ∧ b_hash b = hash r ∨ b_number b < number r ∧ last (seg m) = Some b) ∧
        ∀ f, m_fin m = Some f → number f < b_number b
    | _ => m' = m
    end).
  { intros b Hb Hn Hor. match goal with |- (if ?c then _ else _) = _ → _ => destruct c eqn:Ef end; [by intros [= <- <-]|].
    case_bool_decide as Eq; [by intros [= <- <-]|]. intros [= <- <-]. exists b. split; [done|].
    split; [unfold as_ref; by rewrite Hn|]. split; [done|]. intros f Efin. rewrite Efin in Ereg, Ef, Eq. zbool.
    assert (e ≠ number f); [|lia]. intros Hef. rewrite Hef, Z.eqb_refl in Ef. cbn in Ef.
    apply negb_false_iff, bool_decide_eq_true in Ef. apply Eq. rewrite Hef, Ef. by destruct f. }
  destruct (Z.eqb_spec e (number r)) as [Er|Er].
  - destruct (m_block_at m e) as [b|] eqn:Eb; [|by intros [= <- <-]].
    apply m_block_at_Some in Eb as [Hb Hn]; [|done]. case_bool_decide as Eh; [|by intros [= <- <-]].
    intros E. apply (Hsettle b Hb Hn); [left; split; [lia|done]|exact E].
  - intros E. apply (Hsettle z); [by apply last_Some_elem_of|lia|right; split; [lia|done]|exact E].
Qed.

Lemma finalize_inner_ok r m m' o : well_formed m → finalize_inner r m = (m', o) → well_formed m'.
Proof.
  intros Hw E. apply finalize_inner_spec in E; [|done]. destruct o; [|by subst..].
  destruct E as (b & Hb & -> & _). apply (well_formed_fields m); [done..|]. intros f [= <-]. by exists b.
Qed.

Lemma bump_ok m : well_formed m → well_formed (bump m).
Proof. intros [Hl Ha Hf]. by constructor. Qed.

(** ** The segment *)

(** What a transition leaves: the new segment with its finality, or the model as it was. *)
Definition leaves (m : Model) bs (fin : option BlockRef) (o : Model * res unit) : Prop :=
  match o with
  | (m', Ok _) => well_formed m' ∧ seg m' = bs ∧ anchor m' = anchor m ∧
      ver m' = u64_add (ver m) 1 ∧
      (m_fin m' = m_fin m ∨ ∃ r b, fin = Some r ∧ m_fin m' = Some (as_ref b) ∧ b ∈ bs ∧
         (b_number b = number r ∧ b_hash b = hash r ∨ b_number b < number r ∧ last bs = Some b) ∧
         ∀ f, m_fin m = Some f → number f < b_number b)
  | (m', Err _) => m' = m
  | (_, Panic _) => False
  end.

Lemma commit_segment_leaves bs fin m :
  adjacent child bs → anchored (anchor m) bs → names_block bs (m_fin m) → leaves m bs fin (commit_segment bs fin m).
Proof.
  intros Hl Ha Hf. unfold commit_segment, apply_finality.
  assert (Hw : well_formed (bump (with_seg bs m))) by (by constructor).
  destruct fin as [r|].
  2: { unfold leaves. rewrite (proj2 (wf_spec _) Hw). by split_and!; [..|left]. }
  destruct (finalize_inner r (bump (with_seg bs m))) as [m' o] eqn:E.
  pose proof (finalize_inner_ok _ _ _ _ Hw E) as Hw'. apply finalize_inner_spec in E; [|done].
  unfold leaves. destruct o; [..|done]; rewrite (proj2 (wf_spec _) Hw').
  - destruct E as (b & Hb & -> & Hor & Hlt). split_and!; try done. right. exists r, b. by split_and!.
  - subst m'. by split_and!; [..|left].
Qed.

(** The commit succeeds unless the report is contradicted. *)
Lemma commit_segment_intro bs fin m :
  adjacent child bs → anchored (anchor m) bs → names_block bs (m_fin m) →
  (∀ r, fin = Some r → (finalize_inner r (bump (with_seg bs m))).2 ≠ FinalizeIntegrityFault) →
  commit_segment bs fin m =
    (match fin with Some r => (finalize_inner r (bump (with_seg bs m))).1 | None => bump (with_seg bs m) end, Ok tt).
Proof.
  intros Hl Ha Hf Hr. unfold commit_segment, apply_finality.
  assert (Hw : well_formed (bump (with_seg bs m))) by (by constructor).
  destruct fin as [r|]; [|by rewrite (proj2 (wf_spec _) Hw)].
  specialize (Hr r eq_refl). destruct (finalize_inner r (bump (with_seg bs m))) as [m' o] eqn:E.
  pose proof (finalize_inner_ok _ _ _ _ Hw E) as Hw'. destruct o; [..|done]; by rewrite (proj2 (wf_spec _) Hw').
Qed.

(** ** EXTEND and REPLACE *)

Lemma adjacent_child_app bs1 bs2 : adjacent child bs1 → adjacent child bs2 →
  (∀ z b, last bs1 = Some z → head bs2 = Some b → child z b) → adjacent child (bs1 ++ bs2).
Proof.
  intros H1 H2 Hm. apply adjacent_app. split_and!; [done..|].
  destruct (last bs1), (head bs2); [by apply Hm|done..].
Qed.

Lemma m_next_last m z : numbers_ok m → last (seg m) = Some z → m_next m = b_number z + 1.
Proof.
  intros [_ Hn] Ez. unfold m_next. rewrite Ez. apply last_Some_elem_of in Ez. rewrite Forall_forall in Hn.
  specialize (Hn z Ez). unfold block_ok in Hn. rewrite u64_add_small; lia.
Qed.

Lemma anchored_app a bs bs2 : anchored a bs → (bs = [] → anchored a bs2) → anchored a (bs ++ bs2).
Proof. intros H1 H2. destruct bs; [by apply H2|exact H1]. Qed.

Lemma valid_run_safe bs : safe (valid_run bs).
Proof. apply safe_fold_res. intros _ [a b]. no_panic. Qed.
#[export] Hint Resolve valid_run_safe : safe.
Lemma extend_checks_safe m bs : safe (extend_checks m bs).
Proof. unfold extend_checks. no_panic. Qed.

Lemma extend_checks_spec m bs : extend_checks m bs = Ok tt ↔
  adjacent child bs ∧ ∃ b0, head bs = Some b0 ∧ m_next m <= b_number b0 ∧
    match last (seg m) with
    | Some z => b_parent_number b0 = b_number z ∧ b_parent_hash b0 = b_hash z
    | None => ∀ h, anchor_hash (anchor m) = Some h → b_parent_hash b0 = h
    end.
Proof.
  unfold extend_checks, m_head. destruct bs as [|b0 bs]; [split; [done|by intros (_ & ? & ? & _)]|].
  rewrite !bind_unit, valid_run_spec, ensure_Ok, Z.leb_le. cbn [head].
  assert (Hlk : match as_ref <$> last (seg m) with
    | Some head => _ ← ensure (b_parent_number b0 =? number head) (EMsg "EXTEND skips a block");
        ensure (bool_decide (b_parent_hash b0 = hash head)) (EMsg "EXTEND breaks linkage")
    | None => match anchor_hash (anchor m) with
        | Some a => ensure (bool_decide (b_parent_hash b0 = a)) (EMsg "EXTEND breaks linkage") | None => Ok tt end
    end = Ok tt ↔ match last (seg m) with
    | Some z => b_parent_number b0 = b_number z ∧ b_parent_hash b0 = b_hash z
    | None => ∀ h, anchor_hash (anchor m) = Some h → b_parent_hash b0 = h
    end).
  { destruct (last (seg m)) as [z|]; cbn [fmap option_fmap option_map].
    - by rewrite bind_unit, !ensure_Ok, Z.eqb_eq, bool_decide_eq_true.
    - destruct (anchor_hash (anchor m)); [|naive_solver]. rewrite ensure_Ok, bool_decide_eq_true. naive_solver. }
  rewrite Hlk. naive_solver.
Qed.

Lemma extend_leaves bs fin m : model_ok m →
  leaves m (seg m ++ bs) fin (extend bs fin m) ∧ (∀ m', extend bs fin m = (m', Ok tt) → bs ≠ []).
Proof.
  intros [Hw Hn]. unfold extend. destruct (extend_checks m bs) as [[]|e|s] eqn:Ec.
  - apply extend_checks_spec in Ec as (Hr & b0 & Eb & Hnx & Hlk). split; [|intros ? _ ->; done].
    pose proof Hw as [Hl Ha Hf]. apply commit_segment_leaves.
    + apply adjacent_child_app; [done..|]. intros z b Ez Eb'. rewrite Eb in Eb'. injection Eb' as <-. rewrite Ez in Hlk.
      rewrite (m_next_last m z Hn Ez) in Hnx. destruct Hlk. split_and!; [lia|done..].
    + apply anchored_app; [done|]. intros Enil first Ef. rewrite Ef in Eb. injection Eb as <-.
      unfold m_next in Hnx. rewrite Enil in Hlk, Hnx. cbn in Hlk, Hnx. destruct Hn as [[? ?] _].
      rewrite u64_add_small in Hnx by lia. split; [lia|done].
    + intros f Ef. destruct (Hf f Ef) as (b & Hb & <-). exists b. split; [|done]. apply elem_of_app. by left.
  - split; [done|by intros].
  - by destruct (extend_checks_safe m bs s).
Qed.

Lemma same_blocks_spec l k : same_blocks l k = true ↔ as_ref <$> l = as_ref <$> k.
Proof.
  unfold same_blocks. revert k. induction l as [|a l IH]; intros [|b k]; cbn; [done..|].
  specialize (IH k). rewrite andb_true_iff in IH |- *. rewrite andb_true_iff, Nat.eqb_eq in *.
  rewrite andb_true_iff, Z.eqb_eq, bool_decide_eq_true. unfold as_ref in *. split.
  - intros (E1 & [-> ->] & E2). f_equal. by apply IH.
  - intros [= E1 E2 E3]. apply IH in E3 as [? ?]. done.
Qed.

Definition kept_below (from : Z) bs : list Block := filter (λ b, (b_number b <? from) = true) bs.

Lemma kept_take from m : well_formed m →
  take_while (λ b, b_number b <? from) (seg m) = kept_below from (seg m).
Proof. intros Hw. apply take_while_filter; [apply below_mono|]. apply child_ascending, Hw. Qed.

Lemma kept_linked from m : well_formed m → adjacent child (kept_below from (seg m)).
Proof.
  intros Hw. rewrite <-kept_take by done. destruct (take_while_prefix (λ b, b_number b <? from) (seg m)) as [k E].
  pose proof (wf_linked _ Hw) as Hl. rewrite E in Hl. by apply adjacent_app in Hl as [? _].
Qed.

Lemma kept_head from m : well_formed m → kept_below from (seg m) ≠ [] → head (kept_below from (seg m)) = head (seg m).
Proof.
  intros Hw. rewrite <-kept_take by done. destruct (seg m) as [|b bs]; [done|]. cbn. by destruct (b_number b <? from).
Qed.

Lemma kept_elem from bs b : b ∈ kept_below from bs ↔ b ∈ bs ∧ b_number b < from.
Proof. unfold kept_below. rewrite list_elem_of_filter, Z.ltb_lt. tauto. Qed.

Lemma replace_checks_spec m from bs fin : well_formed m → replace_checks m from bs fin = Ok tt ↔
  adjacent child bs ∧ ∃ s0 b0, head (seg m) = Some s0 ∧ head bs = Some b0 ∧
    from <= b_number b0 ∧ b_number s0 <= from ∧
    (∀ f, m_fin m = Some f → from <= number f →
       as_ref <$> filter (λ b, from <= b_number b ∧ b_number b <= number f) (seg m)
       = as_ref <$> filter (λ b, b_number b <= number f) bs) ∧
    match last (kept_below from (seg m)) with
    | Some base => b_parent_number b0 = b_number base ∧ b_parent_hash b0 = b_hash base
    | None => ∀ h, anchor_hash (anchor m) = Some h → b_parent_hash b0 = h
    end ∧
    ∀ r, fin = Some r → replacement_evicts_reported_block from bs r m = Ok false.
Proof.
  intros Hw. unfold replace_checks. rewrite partition_last, kept_take by done.
  destruct (seg m) as [|s0 sg] eqn:Es; [split; [done|by intros (_ & ? & ? & ? & _)]|].
  destruct bs as [|b0 bs]; [split; [done|by intros (_ & ? & ? & _ & ? & _)]|].
  rewrite !bind_unit, valid_run_spec, !ensure_Ok, !Z.leb_le. cbn [head].
  assert (Hfin : match m_fin m with
    | Some f => if from <=? number f then
        let stored := filter (λ b, from <= b_number b ∧ b_number b <= number f) (s0 :: sg) in
        let replayed := filter (λ b, b_number b <= number f) (b0 :: bs) in
        ensure (same_blocks stored replayed) (EMsg "INV-13: REPLACE alters the finalized prefix") else Ok tt
    | None => Ok tt end = Ok tt ↔ ∀ f, m_fin m = Some f → from <= number f →
       as_ref <$> filter (λ b, from <= b_number b ∧ b_number b <= number f) (s0 :: sg)
       = as_ref <$> filter (λ b, b_number b <= number f) (b0 :: bs)).
  { destruct (m_fin m) as [f|]; [|naive_solver]. destruct (Z.leb_spec from (number f)).
    - rewrite ensure_Ok, same_blocks_spec. naive_solver.
    - split; [|done]. intros _ ? [= <-]. lia. }
  assert (Hlk : match last (kept_below from (s0 :: sg)) with
    | Some base => ensure ((b_parent_number b0 =? b_number base) && bool_decide (b_parent_hash b0 = b_hash base))
        (EMsg "REPLACE breaks linkage")
    | None => match anchor_hash (anchor m) with
        | Some a => ensure (bool_decide (b_parent_hash b0 = a)) (EMsg "REPLACE breaks linkage") | None => Ok tt end
    end = Ok tt ↔ match last (kept_below from (s0 :: sg)) with
    | Some base => b_parent_number b0 = b_number base ∧ b_parent_hash b0 = b_hash base
    | None => ∀ h, anchor_hash (anchor m) = Some h → b_parent_hash b0 = h end).
  { destruct (last (kept_below from (s0 :: sg))) as [base|].
    - by rewrite ensure_Ok, andb_true_iff, Z.eqb_eq, bool_decide_eq_true.
    - destruct (anchor_hash (anchor m)); [|naive_solver]. rewrite ensure_Ok, bool_decide_eq_true. naive_solver. }
  assert (Hev : match fin with
    | Some report => evicts ← replacement_evicts_reported_block from (b0 :: bs) report m;
        ensure (negb evicts) (EMsg "INTEGRITY_FAULT: replacement evicts the block reported final")
    | None => Ok tt end = Ok tt ↔
    ∀ r, fin = Some r → replacement_evicts_reported_block from (b0 :: bs) r m = Ok false).
  { destruct fin as [r|]; [|naive_solver].
    split; [|intros Hr; by rewrite (Hr r eq_refl)]. intros He ? [= <-].
    by destruct (replacement_evicts_reported_block from (b0 :: bs) r m) as [[]|e|p]. }
  rewrite Hfin, Hlk, Hev. split.
  - intros (Hr & H1 & H2 & H3 & H4 & H5). split; [done|]. by exists s0, b0.
  - intros (Hr & ? & ? & [= <-] & [= <-] & H1 & H2 & H3 & H4 & H5). done.
Qed.

Lemma replace_checks_safe m from bs fin : safe (replace_checks m from bs fin).
Proof.
  unfold replace_checks. destruct (seg m) as [|s0 sg] eqn:Es; [no_panic|]. destruct bs as [|b0 bs]; [no_panic|].
  assert (Hev : ∀ r, safe (replacement_evicts_reported_block from (b0 :: bs) r m)).
  { intros r. unfold replacement_evicts_reported_block, m_first. rewrite Es.
    destruct (last (b0 :: bs)) eqn:E; [|by apply last_None in E]. cbn [fmap option_fmap option_map head]. no_panic. }
  no_panic.
Qed.

Lemma replace_leaves from bs fin m : model_ok m →
  leaves m (kept_below from (seg m) ++ bs) fin (replace from bs fin m).
Proof.
  intros [Hw Hn]. unfold replace. destruct (replace_checks m from bs fin) as [[]|e|s] eqn:Ec;
    [|done|by destruct (replace_checks_safe m from bs fin s)].
  apply (replace_checks_spec _ _ _ _ Hw) in Ec as (Hr & s0 & b0 & Es & Eb & Hfrom & Hfl & Hfin & Hlk & _).
  rewrite take_partition, kept_take by done. apply commit_segment_leaves.
  - apply adjacent_child_app; [by apply kept_linked|done|]. intros z b Ez Eb'. rewrite Eb in Eb'. injection Eb' as <-.
    rewrite Ez in Hlk. apply last_Some_elem_of, kept_elem in Ez as [_ Hz]. destruct Hlk. split_and!; [lia|done..].
  - pose proof (wf_anchored _ Hw) as Ha. apply anchored_app.
    + intros first Ef. rewrite kept_head in Ef; [by apply Ha|done|]. intros E. by rewrite E in Ef.
    + intros Enil first Ef. rewrite Eb in Ef. injection Ef as <-. rewrite Enil in Hlk. destruct (Ha s0 Es).
      split; [lia|done].
  - intros f Ef. destruct (wf_fin _ Hw f Ef) as (b & Hb & Hbf).
    destruct (Z.le_gt_cases from (number f)) as [Hle|Hgt].
    + assert (Hin : f ∈ as_ref <$> filter (λ b, b_number b <= number f) bs).
      { rewrite <-Hfin by done. apply list_elem_of_fmap. exists b. split; [done|]. apply list_elem_of_filter.
        rewrite <-Hbf. cbn. split; [|done]. rewrite <-Hbf in Hle. cbn in Hle. lia. }
      apply list_elem_of_fmap in Hin as (b' & -> & [_ Hb']%list_elem_of_filter). exists b'. split; [|done].
      apply elem_of_app. by right.
    + exists b. split; [|done]. apply elem_of_app. left. apply kept_elem. split; [done|]. rewrite <-Hbf in Hgt. exact Hgt.
Qed.

(** ** RESET and RETAIN *)

Lemma reset_spec a m : reset a m = (mkModel [] a None (u64_add (ver m) 1), Ok tt).
Proof. reflexivity. Qed.

Definition kept_from (from : Z) bs : list Block := filter (λ b, from <= b_number b) bs.

(** What RETAIN does: nothing, a trim to the blocks from [from] up with the anchor at the last
    block below, or a reset. *)
Inductive retain_outcome (from : Z) (hash_ : option string) m : Model → Prop :=
| retain_same : retain_outcome from hash_ m m
| retain_trim b : last (kept_below from (seg m)) = Some b → (∀ h, hash_ = Some h → h = b_hash b) →
    retain_outcome from hash_ m (mkModel (kept_from from (seg m)) (mkAnchor (b_number b) (Some (b_hash b)))
      (match m_fin m with Some f => if number f <? from then None else Some f | None => None end)
      (u64_add (ver m) 1))
| retain_reset : retain_outcome from hash_ m (mkModel [] (mkAnchor (u64_sub from 1) hash_) None (u64_add (ver m) 1)).

Lemma kept_split from m : well_formed m → seg m = kept_below from (seg m) ++ kept_from from (seg m).
Proof.
  intros Hw. rewrite <-kept_take by done. rewrite <-(take_drop (partition_point (λ b, b_number b <? from) (seg m)) (seg m)) at 1.
  rewrite take_partition. f_equal. rewrite drop_while_filter; [|apply below_mono|apply child_ascending, Hw].
  apply list_filter_iff. intros b. rewrite Z.ltb_ge. done.
Qed.

Lemma trim_ok from m b : well_formed m → last (kept_below from (seg m)) = Some b → ∀ v,
  well_formed (mkModel (kept_from from (seg m)) (mkAnchor (b_number b) (Some (b_hash b)))
      (match m_fin m with Some f => if number f <? from then None else Some f | None => None end) v).
Proof.
  intros Hw Hb v. pose proof (wf_linked _ Hw) as Hl. rewrite (kept_split from m Hw) in Hl.
  apply adjacent_app in Hl as (_ & Hl & Hm). rewrite Hb in Hm. constructor; cbn; [done| |].
  - intros first Ef. rewrite Ef in Hm. destruct Hm as (? & _ & ?). cbn. split; [done|]. by intros h [= <-].
  - intros f Hf. destruct (m_fin m) as [g|] eqn:Eg; [|done]. destruct (Z.ltb_spec (number g) from); [done|].
    injection Hf as <-. destruct (wf_fin _ Hw g Eg) as (x & Hx & <-). exists x. split; [|done].
    apply list_elem_of_filter. done.
Qed.

Lemma model_retain_spec from hash_ m : model_ok m → 
  ∃ m', model_retain from hash_ m = (m', Ok tt) ∧ retain_outcome from hash_ m m'.
Proof.
  intros [Hw Hn]. unfold model_retain. rewrite !reset_spec.
  set (floor := default _ (m_first m)).
  destruct (Z.eqb_spec from floor) as [->|Hne]; cbn [orb].
  { destruct hash_ as [h|]; [|eexists; split; [done|constructor]].
    destruct (anchor_hash (anchor m)); [|eexists; split; [done|constructor]]. cbn [andb].
    case_bool_decide; cbn; (eexists; split; [done|constructor]). }
  destruct (_ && _)%bool eqn:Eb.
  { destruct hash_ as [h|]; [|eexists; split; [done|constructor]].
    destruct (anchor_hash (anchor m)); eexists; (split; [done|constructor]). }
  destruct (Z.ltb_spec from floor) as [Hlt|Hge]; [eexists; split; [done|constructor]|].
  destruct (negb _ && _)%bool eqn:Ein; [|eexists; split; [done|constructor]].
  zbool. apply bool_decide_eq_false in H. rewrite partition_last, kept_take by done.
  destruct (last (kept_below from (seg m))) as [b|] eqn:Ez.
  2: { exfalso. apply last_None in Ez. destruct (seg m) as [|s0 sg] eqn:Es; [done|].
       assert (Hs : s0 ∈ kept_below from (s0 :: sg)).
       { apply kept_elem. split; [lmem|]. unfold floor, m_first in Hne, Hge. rewrite Es in Hne, Hge. cbn in *. lia. }
       rewrite Ez in Hs. by apply elem_of_nil in Hs. }
  cbn [as_ref number hash]. destruct (match hash_ with Some h => _ | None => false end) eqn:Eh;
    [eexists; split; [done|constructor]|].
  rewrite drop_while_filter; [|apply below_mono|apply child_ascending, Hw].
  rewrite (list_filter_iff _ (λ b, from <= b_number b)) by (intros x; rewrite Z.ltb_ge; done).
  fold (kept_from from (seg m)). eexists. split.
  - f_equal. apply wf_spec. by apply trim_ok.
  - apply retain_trim; [done|]. intros h ->. by apply negb_false_iff, bool_decide_eq_true in Eh.
Qed.
