(* ===== verification/HarnessProps.v ===== *)
(** * HarnessProps: the oracle is sound, and the write controller agrees with it

    The reference model keeps its invariants under every script and never rewrites finalized
    history; its verdict on a finality report is that of the write controller over the same
    blocks, and a chunk the controller accepts is a transition of the model. *)

From stdpp Require Import list.
From S2P Require Import Prelude Bytes Data Kv ChunkIter Tables Chain Tx Concrete.
From S2P Require Import TxSpec UpdateSpec Retry PrefixSpec Cleanup Db DbSpec WriteController ControllerSpec.
From S2P Require Import ControllerProps Harness HarnessSpec.

Implicit Types (m : Model) (bs : list Block) (r : BlockRef).

(** ** Scripts *)

Inductive transition : Type :=
| TExtend (bs : list Block) (fin : option BlockRef)
| TReplace (from : Z) (bs : list Block) (fin : option BlockRef)
| TFinalize (r : BlockRef)
| TRetain (from : Z) (hash_ : option string)
| TReset (a : Anchor).

Definition run_transition (t : transition) (m : Model) : Model * res unit :=
  match t with
  | TExtend bs fin => extend bs fin m
  | TReplace from bs fin => replace from bs fin m
  | TFinalize r => let '(m, o) := model_finalize r m in (m, _ ← o; Ok tt)
  | TRetain from h => model_retain from h m
  | TReset a => reset a m
  end.
Definition run_script (ts : list transition) (m : Model) : Model := foldl (λ m t, (run_transition t m).1) m ts.

(** Numbers are 64-bit, with room for a successor. *)
Definition transition_ok (t : transition) : Prop :=
  match t with
  | TExtend bs _ | TReplace _ bs _ => Forall block_ok bs
  | TFinalize _ => True
  | TRetain from _ => 1 <= from <= u64_max
  | TReset a => 0 <= anchor_number a < u64_max
  end.

Definition upto (n : Z) bs : list BlockRef := as_ref <$> filter (λ b, b_number b <= n) bs.

(** A transition that is not a retention or a reset keeps the finalized history. *)
Definition keeps_history m m' : Prop :=
  ∀ f, m_fin m = Some f → upto (number f) (seg m') = upto (number f) (seg m) ∧
    ∃ f', m_fin m' = Some f' ∧ (f' = f ∨ number f < number f').
Definition is_fork_write (t : transition) : bool :=
  match t with TExtend _ _ | TReplace _ _ _ | TFinalize _ => true | _ => false end.

Lemma leaves_fin m bs fin m' f : leaves m bs fin (m', Ok tt) → m_fin m = Some f →
  ∃ f', m_fin m' = Some f' ∧ (f' = f ∨ number f < number f').
Proof.
  intros (_ & _ & _ & _ & Hf) Ef. destruct Hf as [E|(r & b & _ & E & _ & _ & Hlt)].
  - exists f. split; [congruence|by left].
  - exists (as_ref b). split; [done|]. right. by apply Hlt.
Qed.

Lemma upto_app n l k : upto n (l ++ k) = upto n l ++ upto n k.
Proof. unfold upto. by rewrite filter_app, fmap_app. Qed.
Lemma upto_none n bs : (∀ b, b ∈ bs → n < b_number b) → upto n bs = [].
Proof. intros Hb. unfold upto. rewrite list_filter_none; [done|]. intros b Hin ?. specialize (Hb b Hin). lia. Qed.

Lemma fin_le_last m f z : well_formed m → m_fin m = Some f → last (seg m) = Some z → number f <= b_number z.
Proof.
  intros Hw Ef Ez. destruct (wf_fin _ Hw f Ef) as (b & Hb & <-).
  apply (ascending_last (seg m)); [by apply child_ascending, Hw|done..].
Qed.

Lemma run_above bs b0 b : adjacent child bs → head bs = Some b0 → b ∈ bs → b_number b0 <= b_number b.
Proof. intros Hr Eb Hb. apply (ascending_head bs); [by apply child_ascending|done..]. Qed.

Lemma extend_history bs fin m m' : model_ok m → extend bs fin m = (m', Ok tt) → keeps_history m m'.
Proof.
  intros Hm E f Ef. destruct (extend_leaves bs fin m Hm) as [Hlv _]. rewrite E in Hlv.
  split; [|by eapply leaves_fin]. destruct Hlv as (_ & -> & _). rewrite upto_app. destruct Hm as [Hw Hn].
  unfold extend in E. destruct (extend_checks m bs) as [[]|e|s] eqn:Ec; [|done..].
  apply extend_checks_spec in Ec as (Hr & b0 & Eb & Hnx & _). rewrite (upto_none _ bs); [by rewrite app_nil_r|].
  intros b Hb. destruct (wf_fin _ Hw f Ef) as (x & Hx & _). destruct (elem_last _ _ Hx) as [z Ez].
  pose proof (fin_le_last _ _ _ Hw Ef Ez). pose proof (run_above _ _ _ Hr Eb Hb).
  rewrite (m_next_last m z Hn Ez) in Hnx. lia.
Qed.

Lemma replace_history from bs fin m m' : model_ok m → replace from bs fin m = (m', Ok tt) → keeps_history m m'.
Proof.
  intros Hm E f Ef. pose proof (replace_leaves from bs fin m Hm) as Hlv. rewrite E in Hlv.
  split; [|by eapply leaves_fin]. destruct Hlv as (_ & -> & _). destruct Hm as [Hw Hn].
  unfold replace in E. destruct (replace_checks m from bs fin) as [[]|e|s] eqn:Ec; [|done..].
  apply (replace_checks_spec _ _ _ _ Hw) in Ec as (Hr & s0 & b0 & Es & Eb & Hfrom & Hfl & Hfin & _).
  rewrite (kept_split from m Hw) at 2. rewrite !upto_app. f_equal. unfold upto at 1.
  destruct (Z.le_gt_cases from (number f)) as [Hle|Hgt].
  - rewrite <-Hfin by done. unfold upto, kept_from. rewrite list_filter_filter. f_equal.
    apply list_filter_iff. intros b. tauto.
  - rewrite (upto_none _ (kept_from from (seg m))) by (intros b [? _]%list_elem_of_filter; lia).
    rewrite list_filter_none; [done|]. intros b Hb ?. pose proof (run_above _ _ _ Hr Eb Hb). lia.
Qed.

Lemma finalize_history r m m' : well_formed m → model_finalize r m = (m', Ok FinalizeApplied) ∨
  (∃ o, model_finalize r m = (m', Ok o) ∧ m' = m) → keeps_history m m'.
Proof.
  intros Hw [E|(o & _ & ->)] f Ef; [|split; [done|]; exists f; split; [done|by left]].
  unfold model_finalize in E. destruct (finalize_inner r m) as [m1 o] eqn:Ei.
  pose proof (finalize_inner_spec _ _ _ _ Hw Ei) as Hs. destruct o; [|done..].
  destruct Hs as (b & Hb & -> & _ & Hlt). injection E as <- _. split; [done|]. exists (as_ref b). split; [done|].
  right. by apply Hlt.
Qed.

Lemma numbers_sub m bs a f v : numbers_ok m → (∀ b, b ∈ bs → b ∈ seg m) → 0 <= anchor_number a < u64_max →
  numbers_ok (mkModel bs a f v).
Proof. intros [_ Hn] Hsub Ha. split; [done|]. cbn. rewrite Forall_forall in *. auto. Qed.

Lemma run_transition_ok t m : model_ok m → transition_ok t →
  match run_transition t m with
  | (m', Ok _) => model_ok m' ∧ (is_fork_write t = true → keeps_history m m')
  | (m', Err _) => m' = m
  | (_, Panic _) => False
  end.
Proof.
  intros Hm Ht. pose proof Hm as [Hw Hn]. destruct t as [bs fin|from bs fin|r|from h|a]; cbn [run_transition].
  - destruct (extend_leaves bs fin m Hm) as [Hlv _]. destruct (extend bs fin m) as [m' [[]|e|s]] eqn:E; [|done..].
    split; [|by intros _; eapply extend_history]. destruct Hlv as (Hw' & Es & Ea & _). split; [done|].
    split; [rewrite Ea; apply Hn|]. rewrite Es. apply Forall_app. split; [apply Hn|done].
  - pose proof (replace_leaves from bs fin m Hm) as Hlv. destruct (replace from bs fin m) as [m' [[]|e|s]] eqn:E; [|done..].
    split; [|by intros _; eapply replace_history]. destruct Hlv as (Hw' & Es & Ea & _). split; [done|].
    split; [rewrite Ea; apply Hn|]. rewrite Es. apply Forall_app. split; [|done].
    destruct Hn as [_ Hn]. rewrite Forall_forall in Hn |- *. intros b [Hb _]%kept_elem. by apply Hn.
  - unfold model_finalize. destruct (finalize_inner r m) as [m' o] eqn:E.
    pose proof (finalize_inner_ok _ _ _ _ Hw E) as Hw'. pose proof (finalize_inner_spec _ _ _ _ Hw E) as Hs.
    destruct o; cbn [mbind res_bind].
    + rewrite (proj2 (wf_spec _) (bump_ok _ Hw')). cbn [mbind res_bind]. destruct Hs as (b & _ & -> & _).
      split; [split; [by apply bump_ok|done]|]. intros _. apply (finalize_history r); [done|]. left.
      unfold model_finalize. rewrite E. by rewrite (proj2 (wf_spec _) (bump_ok _ Hw')).
    + subst m'. split; [done|]. intros _. apply (finalize_history r); [done|]. right. exists FinalizeIgnored.
      unfold model_finalize. by rewrite E.
    + subst m'. split; [done|]. intros _. apply (finalize_history r); [done|]. right. exists FinalizeIntegrityFault.
      unfold model_finalize. by rewrite E.
  - destruct (model_retain_spec from h m Hm) as (m' & -> & Hr). split; [|done]. destruct Hr as [|b Hb _|]; [done| |].
    + split; [by apply trim_ok|]. apply last_Some_elem_of, kept_elem in Hb as [Hb _].
      apply (numbers_sub m); [done|by intros x [_ ?]%list_elem_of_filter|]. cbn.
      destruct Hn as [_ Hn]. rewrite Forall_forall in Hn. by apply (Hn b).
    + split; [by constructor|]. split; [|constructor]. cbn. cbn in Ht. rewrite u64_sub_small by lia. lia.
  - rewrite reset_spec. split; [|done]. split; [by constructor|]. by split; [|constructor].
Qed.

Lemma run_script_ok ts m : model_ok m → Forall transition_ok ts → model_ok (run_script ts m).
Proof.
  revert m. induction ts as [|t ts IH]; intros m Hm Ht; [done|]. apply Forall_cons in Ht as [Ht Hts].
  cbn. apply IH; [|done]. pose proof (run_transition_ok t m Hm Ht) as Hr.
  destruct (run_transition t m) as [m' [[]|e|s]]; cbn; [by destruct Hr|by subst|done].
Qed.

(** The oracle is sound.  Under any script of transitions, refused ones included, the
    assertions INV-1 to INV-6 that the model makes after each transition never fail, a refused
    transition leaves the model as it was, and no EXTEND, REPLACE or FINALIZE changes a block
    at or below the finalized watermark or moves the watermark back. *)
Theorem oracle_invariant a ts t : 0 <= anchor_number a < u64_max → Forall transition_ok ts → transition_ok t →
  let m := run_script ts (model_new a) in
  wf m = Ok tt ∧
  match run_transition t m with
  | (m', Ok _) => wf m' = Ok tt ∧ (is_fork_write t = true → keeps_history m m')
  | (m', Err _) => m' = m
  | (_, Panic _) => False
  end.
Proof.
  intros Ha Hts Ht m. assert (Hm : model_ok m).
  { apply run_script_ok; [|done]. split; [by constructor|by split; [|constructor]]. }
  split; [apply wf_spec, Hm|]. pose proof (run_transition_ok t m Hm Ht) as Hr.
  destruct (run_transition t m) as [m' [[]|e|s]]; [|done..]. destruct Hr as [[Hw _] Hk]. split; [by apply wf_spec|done].
Qed.

(** ** Finality reports *)

Definition rows bs : list (Z * string) := (λ b, (b_number b, b_hash b)) <$> bs.

Lemma hash_at_rows bs n : hash_at n (rows bs) = b_hash <$> head (filter (λ b, b_number b = n) bs).
Proof.
  unfold hash_at, rows. induction bs as [|b bs IH]; [done|]. cbn [fmap list_fmap]. rewrite !filter_cons. cbn [fst].
  by case_decide.
Qed.

(** The verdict of the controller, as the model reports it. *)
Definition apply_verdict (v : FinalityDecision) m : Model * Finalize :=
  match v with
  | FinApplied b => (with_fin (Some b) m, FinalizeApplied)
  | FinIgnored _ => (m, FinalizeIgnored)
  | FinIntegrityFault _ => (m, FinalizeIntegrityFault)
  end.

Lemma finalize_inner_verdict r m a z floor : well_formed m →
  head (seg m) = Some a → last (seg m) = Some z → floor <= b_number a →
  finalize_inner r m = apply_verdict (finality_spec (m_fin m) floor (rows (seg m)) None (as_ref z) r) m.
Proof.
  intros Hw Ea Ez Hfl. pose proof (wf_linked _ Hw) as Hl. pose proof (child_ascending _ Hl) as Hs.
  pose proof (ascending_last _ a z Hs (head_Some_elem_of _ _ Ea) Ez) as Haz.
  unfold finalize_inner, finality_spec, m_head, m_first, at_height. rewrite Ea, Ez, hash_at_rows.
  fold (m_block_at m (number r)). cbn [fmap option_fmap option_map as_ref number hash].
  assert (Hfin : ∀ f, m_fin m = Some f → b_number a <= number f <= b_number z ∧
    b_hash <$> m_block_at m (number f) = Some (hash f)).
  { intros f Ef. destruct (wf_fin _ Hw f Ef) as (b & Hb & <-). cbn.
    rewrite (proj2 (m_block_at_Some m b _ Hl) (conj Hb eq_refl)). split; [|done].
    split; [by apply (ascending_head (seg m))|by apply (ascending_last (seg m))]. }
  destruct (decide (b_number z < number r)) as [Hclamp|Hclamp].
  - rewrite Z.min_r by lia. unfold as_ref. cbn [number]. rewrite (proj2 (Z.ltb_ge (b_number z) _)) by lia.
    rewrite decide_False by lia. rewrite (proj2 (Z.eqb_neq (b_number z) (number r))) by lia.
    destruct (m_fin m) as [f|] eqn:Ef; [|done]. destruct (Hfin f eq_refl) as [Hr Hh]. cbn.
    rewrite (proj2 (Z.ltb_ge (b_number z) _)) by lia. rewrite decide_False by lia.
    destruct (Z.eqb_spec (b_number z) (number f)) as [E|E]; cbn [andb].
    + rewrite <-E in Hh. rewrite (proj2 (m_block_at_Some m z _ Hl) (conj (last_Some_elem_of _ _ Ez) eq_refl)) in Hh.
      injection Hh as Hh. rewrite Hh, bool_decide_true by done. cbn [negb]. destruct f as [fn fh]. cbn in *. subst fn.
      rewrite bool_decide_true by done. by rewrite decide_True by done.
    + rewrite bool_decide_false by (intros [= ->]; by apply E). rewrite decide_False by (intros <-; by apply E).
      by rewrite decide_False.
  - rewrite Z.min_l by lia. rewrite Z.eqb_refl.
    destruct (Z.ltb_spec (number r) (b_number a)) as [Hlow|Hlow].
    { assert (Hnone : m_block_at m (number r) = None).
      { destruct (m_block_at m (number r)) as [b|] eqn:Eb; [|done]. apply m_block_at_Some in Eb as [Hb Hn]; [|done].
        pose proof (ascending_head _ b a Hs Hb Ea). lia. }
      rewrite Hnone. cbn. case_decide; [done|]. destruct (m_fin m) as [f|] eqn:Ef; [|done].
      destruct (Hfin f eq_refl) as [Hr _]. cbn. by rewrite decide_True by lia. }
    rewrite decide_False by lia. destruct (m_fin m) as [f|] eqn:Ef.
    2: { cbn. destruct (m_block_at m (number r)) as [b|]; [|done]. cbn. case_bool_decide as Eh; [|by rewrite decide_False].
         rewrite decide_True by done. rewrite Eh. by destruct r. }
    destruct (Hfin f eq_refl) as [Hr Hh]. cbn.
    destruct (Z.ltb_spec (number r) (number f)) as [Hlt|Hge]; [by rewrite decide_True by lia|].
    rewrite decide_False by lia.
    destruct (decide (number r = number f)) as [E|E].
    + rewrite E, Z.eqb_refl. cbn [andb]. destruct (m_block_at m (number f)) as [b|]; [|done]. cbn in Hh. injection Hh as Hh.
      case_bool_decide as Eh.
      * rewrite (bool_decide_true (b_hash b = hash f)) by done. cbn [negb]. rewrite Hh.
        destruct f as [fn fh], r as [rn rh]. cbn in *. subst. rewrite bool_decide_true by done. by rewrite decide_True.
      * rewrite decide_False by (intros ->; done). by rewrite ?decide_True by done.
    + rewrite (proj2 (Z.eqb_neq (number r) (number f))) by done. cbn [andb].
      rewrite decide_False by (intros ->; by apply E).
      destruct (m_block_at m (number r)) as [b|]; [|done]. cbn. case_bool_decide as Eh; [|by rewrite decide_False].
      rewrite decide_True by done. rewrite Eh. rewrite bool_decide_false by (intros [= ->]; by apply E). by destruct r.
Qed.

Section controller.
Context {M C T : Type} `{HK : KvStore M C} `{HL : !KvStoreLaws M C}
  `{HB : Borsh} `{HBL : !BorshLaws} `{HT : TableReader T} `{HTL : !TableReaderLaws T}
  `{HS : !TableStore M T}.
Implicit Types (u : DatasetUpdate M) (w : WriteController).

(** The model and the update hold the same blocks; the service does not start above them. *)
Record mirrors w u (rowss : list (list (Z * string))) m : Prop := {
  mi_ok : upd_ok u;
  mi_tiled : tiled (upd_chunks u);
  mi_rows : Forall2 (chunk_rows (tx_db (upd_tx u) CF_TABLES)) (upd_chunks u) rowss;
  mi_blocks : rows (seg m) = concat rowss;
  mi_fin : m_fin m = label_finalized_head (upd_label u);
  mi_model : model_ok m;
  mi_anchor : anchor_number (anchor m) < wc_first_block w;
  mi_floor : ∀ a, head (seg m) = Some a → wc_first_block w <= b_number a
}.

Lemma rows_NoDup bs : ascending_blocks bs → NoDup (rows bs).*1.
Proof. intros Hs. unfold rows. rewrite <-list_fmap_compose. by apply ascending_NoDup. Qed.

Lemma NoDup_concat_all (rowss : list (list (Z * string))) : NoDup (concat rowss).*1 → Forall (λ rs, NoDup rs.*1) rowss.
Proof.
  induction rowss as [|rs rss IH]; cbn [concat]; [constructor|]. rewrite fmap_app.
  intros (H1 & _ & H2)%NoDup_app. constructor; auto.
Qed.

(** The head of the last chunk is the last block. *)
Lemma chunk_rows_last (mm : M) cs rowss : Forall2 (chunk_rows mm) cs rowss →
  (get_chunk_head <$> last cs) = ((λ p, mkBlockRef p.1 p.2) <$> last (concat rowss)).
Proof.
  intros Hr. destruct cs as [|c cs _] using rev_ind; [by inversion Hr|].
  apply Forall2_app_inv_l in Hr as (rs & r1 & _ & Hr1 & ->). apply Forall2_cons_inv_l in Hr1 as (rc & rx & Hc & Hn & ->).
  apply Forall2_nil_inv_l in Hn as ->. rewrite last_snoc, concat_app. cbn [concat]. rewrite app_nil_r.
  destruct Hc as (_ & _ & Hl). rewrite last_app, Hl. done.
Qed.

Lemma mirrors_head w u rowss m : mirrors w u rowss m →
  (get_chunk_head <$> last (upd_chunks u)) = (as_ref <$> last (seg m)).
Proof.
  intros [_ _ Hr Hb _ _ _ _]. rewrite (chunk_rows_last _ _ _ Hr), <-Hb. unfold rows. rewrite fmap_last.
  by destruct (last (seg m)).
Qed.

Lemma mirrors_NoDup w u rowss m : mirrors w u rowss m → Forall (λ rs, NoDup rs.*1) rowss.
Proof.
  intros Hm. apply NoDup_concat_all. rewrite <-(mi_blocks _ _ _ _ Hm). apply rows_NoDup, child_ascending.
  apply (mi_model _ _ _ _ Hm).
Qed.

(** The controller judges a finality report like the oracle.  Over the same blocks and the
    same watermark, with the logical floor of the window at or below its first block, the
    decision the storage transaction takes on a report is the oracle's: applied, with the same
    new watermark, ignored, or an integrity fault. *)
Theorem oracle_finality_equiv w u rowss m r : mirrors w u rowss m → u64_ok (number r) → seg m ≠ [] →
  ∃ v, resolve_finality u (label_finalized_head (upd_label u)) None (wc_first_block w) r = Ok v ∧
    finalize_inner r m = apply_verdict v m.
Proof.
  intros Hm Hr Hne. pose proof (mirrors_head _ _ _ _ Hm) as Hh. pose proof (mirrors_NoDup _ _ _ _ Hm) as Hnd.
  destruct Hm as [Hok Ht Hrows Hb Hfin [Hw Hn] _ Hfl]. destruct (seg m) as [|a bs] eqn:Es; [done|].
  destruct (elem_last (seg m) a) as [z Ez]; [rewrite Es; lmem|]. rewrite <-Es in *. rewrite Ez in Hh.
  rewrite (resolve_finality_reads u _ None _ _ (as_ref z) rowss); [|done..]. eexists. split; [done|].
  rewrite <-Hb, <-Hfin. apply (finalize_inner_verdict r m a z); [done|by rewrite Es|done|]. apply Hfl. by rewrite Es.
Qed.

(** ** Chunks *)

(** The verdict the transaction took on the report that came with the chunk. *)
Lemma new_chunk_verdict w r c u fin ig u' : new_chunk_tx w (Some r) c u = Ok ((fin, ig), u') →
  ∃ v, resolve_finality u (label_finalized_head (upd_label u)) (Some c) (wc_first_block w) r = Ok v ∧
    match v with
    | FinApplied b => fin = Some b
    | FinIgnored _ => fin = label_finalized_head (upd_label u)
    | FinIntegrityFault _ => False
    end.
Proof.
  unfold new_chunk_tx. intros Ho. apply bind_Ok in Ho as (? & _ & Ho). apply bind_Ok in Ho as ([] & _ & Ho).
  apply bind_Ok in Ho as (bo & _ & Ho). apply bind_Ok in Ho as ([] & _ & Ho). apply bind_Ok in Ho as ([] & _ & Ho).
  apply bind_Ok in Ho as ([fin0 ig0] & Hd & Ho). apply bind_Ok in Ho as (u1 & _ & Ho). injection Ho as -> -> ->.
  apply bind_Ok in Hd as (v & -> & Hd). exists v. split; [done|]. destruct v; by simplify_eq.
Qed.

Definition same_outcome (v v' : FinalityDecision) : Prop :=
  match v, v' with
  | FinApplied b, FinApplied b' => b = b'
  | FinIgnored _, FinIgnored _ => True
  | _, _ => False
  end.

(** Judging with the chunk at hand and judging after it was written. *)
Lemma verdict_after_write cur floor c (K D R : list (Z * string)) post r v :
  Forall (λ p, p.1 < first_block c) K → Forall (λ p, first_block c <= p.1) D → Forall (λ p, first_block c <= p.1) R →
  finality_spec cur floor (K ++ D) (Some (c, R)) post r = v → (∀ reason, v ≠ FinIntegrityFault reason) →
  same_outcome v (finality_spec cur floor (K ++ R) None post r).
Proof.
  intros HlK HlD HlR <- Hv. unfold finality_spec in *.
  assert (Hout : ∀ l : list (Z * string), Forall (λ p, p.1 < first_block c) l → first_block c <= number r → number r ∉ l.*1).
  { intros l Hl Hle ([n h] & E & Hp)%list_elem_of_fmap. rewrite Forall_forall in Hl. specialize (Hl _ Hp). simpl in *. lia. }
  assert (Hin : ∀ l : list (Z * string), Forall (λ p, first_block c <= p.1) l → number r < first_block c → number r ∉ l.*1).
  { intros l Hl Hle ([n h] & E & Hp)%list_elem_of_fmap. rewrite Forall_forall in Hl. specialize (Hl _ Hp). simpl in *. lia. }
  destruct (decide (number (if decide (number post < number r) then post else r) < floor)); [done|].
  destruct (against_current _ _) as [v|]; [destruct v; cbn; try done; by destruct (Hv reason)|].
  destruct (decide (number post < number r)); [done|]. unfold at_height in *.
  destruct (decide (first_block c <= number r)) as [Hle|Hgt].
  - rewrite (hash_at_app _ K R) by (by apply Hout).
    destruct (hash_at (number r) R) as [h|]; [case_decide; [done|by destruct (Hv FinalityContradictsChunk)]|].
    destruct (hash_at (number r) (K ++ D)); [by destruct (Hv FinalityEvictsFinalizedBlock)|done].
  - rewrite (hash_at_app_l _ K D) in * by (apply Hin; [done|lia]). rewrite (hash_at_app_l _ K R) by (apply Hin; [done|lia]).
    destruct (hash_at (number r) K) as [h|]; [|done].
    case_decide; [done|by destruct (Hv FinalityContradictsStoredBlock)].
Qed.

Lemma rows_filter (P : Z → Prop) `{!∀ b, Decision (P (b_number b))} `{!∀ p : Z * string, Decision (P p.1)} bs :
  rows (filter (λ b, P (b_number b)) bs) = filter (λ p, P p.1) (rows bs).
Proof.
  induction bs as [|b bs IH]; [done|]. unfold rows in *. cbn [fmap list_fmap]. rewrite !filter_cons. cbn [fst].
  destruct (decide (P (b_number b))); [rewrite decide_True by done|rewrite decide_False by done]; cbn; by rewrite IH.
Qed.

Lemma rows_split from bs (K D : list (Z * string)) : rows bs = K ++ D →
  Forall (λ p, p.1 < from) K → Forall (λ p, from <= p.1) D →
  rows (kept_below from bs) = K ∧ rows (kept_from from bs) = D.
Proof.
  intros E HlK HlD. rewrite Forall_forall in HlK, HlD. unfold kept_below, kept_from.
  rewrite (rows_filter (λ n, (n <? from) = true)), (rows_filter (λ n, from <= n)), E, !filter_app. split.
  - rewrite list_filter_all by (intros p Hp; by apply Z.ltb_lt, HlK). rewrite list_filter_none; [by rewrite app_nil_r|].
    intros p Hp Hlt. apply Z.ltb_lt in Hlt. specialize (HlD p Hp). simpl in HlD. lia.
  - rewrite list_filter_none; [by rewrite list_filter_all|]. intros p Hp ?. specialize (HlK p Hp). simpl in HlK. lia.
Qed.

Lemma rows_as_ref bs bs' : rows bs = rows bs' → as_ref <$> bs = as_ref <$> bs'.
Proof.
  intros E. assert (Hf : ∀ l, as_ref <$> l = (λ p, mkBlockRef p.1 p.2) <$> rows l).
  { intros l. unfold rows. by rewrite <-list_fmap_compose. }
  by rewrite !Hf, E.
Qed.

(** What the chunk owes to the chain its blocks belong to: the blocks are a run that the
    chunk describes, attached to the window by parent number and to the anchor by hash. *)
Record carries w (c : Chunk) bs u m : Prop := {
  ca_chunk : chunk_ok c;
  ca_rows : chunk_rows (tx_db (upd_tx u) CF_TABLES) c (rows bs);
  ca_run : adjacent child bs;
  ca_numbers : Forall block_ok bs;
  ca_parent : ∀ b0, head bs = Some b0 → b_parent_hash b0 = parent_block_hash c ∧
    (∀ z, last (kept_below (first_block c) (seg m)) = Some z → b_parent_number b0 = b_number z);
  ca_anchor : kept_below (first_block c) (seg m) = [] →
    ∀ h, anchor_hash (anchor m) = Some h → parent_block_hash c = h;
  ca_floor : ∀ a, head (seg m) = Some a → b_number a <= first_block c
}.

(** The oracle's transition for a chunk. *)
Definition oracle_write (c : Chunk) bs (report : option BlockRef) m : Model * res unit :=
  if m_next m <=? first_block c then extend bs report m else replace (first_block c) bs report m.

(** The split of the blocks that an accepted chunk makes. *)
Record written w (c : Chunk) bs u u' m (rk rd : list (list (Z * string))) : Prop := {
  wr_ok : upd_ok u';
  wr_tiled : tiled (upd_chunks u');
  wr_rows : Forall2 (chunk_rows (tx_db (upd_tx u') CF_TABLES)) (upd_chunks u') (rk ++ [rows bs]);
  wr_kept : rows (kept_below (first_block c) (seg m)) = concat rk;
  wr_dropped : rows (kept_from (first_block c) (seg m)) = concat rd;
  wr_below : Forall (λ p, p.1 < first_block c) (concat rk);
  wr_above : Forall (λ p, first_block c <= p.1) (concat rd);
  wr_link : ∀ z, last (kept_below (first_block c) (seg m)) = Some z → parent_block_hash c = b_hash z;
  wr_empty : kept_below (first_block c) (seg m) = [] → wc_first_block w <= first_block c
}.

Lemma rows_below (mm : M) cs rowss n : Forall2 (chunk_rows mm) cs rowss → Forall (λ x, last_block x < n) cs →
  Forall (λ p, p.1 < n) (concat rowss).
Proof.
  induction 1 as [|c rs cs rowss Hc _ IH]; intros Hl; [constructor|]. apply Forall_cons in Hl as [Hc' Hl].
  cbn [concat]. apply Forall_app. split; [|by apply IH]. destruct Hc as (_ & Hr & _).
  eapply Forall_impl; [exact Hr|]. simpl. intros; lia.
Qed.
Lemma rows_above (mm : M) cs rowss n : Forall2 (chunk_rows mm) cs rowss → Forall (λ x, n <= first_block x) cs →
  Forall (λ p, n <= p.1) (concat rowss).
Proof.
  induction 1 as [|c rs cs rowss Hc _ IH]; intros Hl; [constructor|]. apply Forall_cons in Hl as [Hc' Hl].
  cbn [concat]. apply Forall_app. split; [|by apply IH]. by apply (chunk_rows_from _ _ _ n Hc).
Qed.

Lemma chunk_written w u rowss m c bs report fin ig u' : mirrors w u rowss m → carries w c bs u m →
  new_chunk_tx w report c u = Ok ((fin, ig), u') → ∃ rk rd, rowss = rk ++ rd ∧ written w c bs u u' m rk rd.
Proof.
  intros Hm Hc Htx. destruct Hm as [Hok Ht Hrows Hb _ _ _ Hfl], Hc as [Hco Hcr _ _ _ _ Hcf].
  pose proof (new_chunk_tx_steps _ _ _ _ _ _ Hco Hok Htx) as Hst.
  destruct (upd_steps_ok _ _ Hst Hok) as (Hok' & (_ & _ & _ & _ & _ & Edb & _) & _).
  destruct (new_chunk_tx_inv _ _ _ _ _ _ _ Hok Htx) as (Hwin & _ & _ & Hi).
  apply upd_insert_fork_spec in Hi as (_ & Hfork & _); [|by destruct Hok; constructor|done].
  change (upd_chunks (upd_set_finalized_head fin u)) with (upd_chunks u) in Hfork.
  destruct (fork_window _ _ _ Ht Hco Hfork) as (kept & dropped & Hcs & Hcs' & Ht' & Hk & Hd & Hh).
  { intros a Ea. by rewrite Ea in Hwin. }
  pose proof Hrows as Hsp. rewrite Hcs in Hsp. apply Forall2_app_inv_l in Hsp as (rk & rd & Hrk & Hrd & ->).
  exists rk, rd. split; [done|]. rewrite concat_app in Hb.
  pose proof (rows_below _ _ _ _ Hrk Hk) as Hlk. pose proof (rows_above _ _ _ _ Hrd Hd) as Hld.
  destruct (rows_split _ _ _ _ Hb Hlk Hld) as [E1 E2]. constructor; try done.
  - rewrite Hcs', Edb. apply Forall2_app; [done|by constructor].
  - intros z Ez. pose proof (chunk_rows_last _ _ _ Hrk) as Hl. rewrite <-E1 in Hl. unfold rows in Hl.
    rewrite fmap_last, Ez in Hl. apply fmap_Some in Hl as (x & Hx & E).
    rewrite Hcs' in Ht'. destruct Ht' as [_ Ha]. apply adjacent_snoc in Ha as [_ Ha]. rewrite Hx in Ha.
    destruct Ha as [_ <-]. by injection E as _ <-.
  - intros En. destruct (seg m) as [|a sg] eqn:Es.
    + destruct (upd_chunks u) as [|x xs]; [exact Hwin|]. exfalso. inversion Hrows as [|? rx ? rxs Hx]; subst.
      destruct Hx as (_ & _ & Hx). destruct rx; [done|]. rewrite <-concat_app in Hb.
      match goal with E : _ = rk ++ rd |- _ => rewrite <-E in Hb end. done.
    + transitivity (b_number a); [by apply Hfl|by apply Hcf].
Qed.

Lemma rows_app bs bs' : rows (bs ++ bs') = rows bs ++ rows bs'.
Proof. apply fmap_app. Qed.
Lemma rows_elem b bs : b ∈ bs → (b_number b, b_hash b) ∈ rows bs.
Proof. intros Hb. apply list_elem_of_fmap. by exists b. Qed.

(** The finalized blocks stay, whatever the chunk replaces. *)
Lemma written_below w u rowss m c bs report fin ig u' rk rd f : mirrors w u rowss m → carries w c bs u m →
  new_chunk_tx w report c u = Ok ((fin, ig), u') → rowss = rk ++ rd → written w c bs u u' m rk rd →
  m_fin m = Some f →
  below (number f) (rows (kept_below (first_block c) (seg m) ++ bs)) = below (number f) (rows (seg m)).
Proof.
  intros [Hok Ht Hrows Hb Hfin _ _ _] [Hco Hcr _ _ _ _ _] Htx -> Hwr Ef.
  destruct (new_chunk_tx_inv _ _ _ _ _ _ _ Hok Htx) as (Hwin & Hg & _ & Hi).
  apply upd_insert_fork_spec in Hi as (_ & Hfork & _); [|by destruct Hok; constructor|done].
  change (upd_chunks (upd_set_finalized_head fin u)) with (upd_chunks u) in Hfork. rewrite Hfin in Ef.
  destruct (fork_keeps_finalized u c (upd_chunks u') f (rows bs) (rk ++ rd) Hok Ht Hco) as (rowss' & Hr' & E);
    try done; [by intros a Ea; rewrite Ea in Hwin|].
  rewrite rows_app, (wr_kept _ _ _ _ _ _ _ _ Hwr), Hb, <-E.
  pose proof (wr_rows _ _ _ _ _ _ _ _ Hwr) as Hr2.
  pose proof (new_chunk_tx_steps _ _ _ _ _ _ Hco Hok Htx) as Hst.
  destruct (upd_steps_ok _ _ Hst Hok) as (_ & (_ & _ & _ & _ & _ & Edb & _) & _). rewrite Edb in Hr2.
  rewrite (chunk_rows_list_unique _ _ _ _ Hr' Hr2), concat_app. cbn [concat]. by rewrite app_nil_r.
Qed.

Lemma run_first c bs b0 (mm : M) : chunk_rows mm c (rows bs) → head bs = Some b0 → first_block c <= b_number b0.
Proof.
  intros (_ & Hr & _) Eb. destruct bs as [|b bs]; [done|]. injection Eb as ->. cbn in Hr.
  apply Forall_cons in Hr as [? _]. simpl in *. lia.
Qed.
Lemma carries_head w c bs u m : carries w c bs u m → ∃ b0 z, head bs = Some b0 ∧ last bs = Some z ∧
  as_ref z = get_chunk_head c.
Proof.
  intros Hc. destruct (ca_rows _ _ _ _ _ Hc) as (_ & _ & Hl). unfold rows in Hl. rewrite fmap_last in Hl.
  apply fmap_Some in Hl as (z & Ez & E). injection E as E1 E2.
  destruct (elem_head bs z) as [b0 Eb]; [by apply last_Some_elem_of|]. exists b0, z. split_and!; [done..|].
  unfold as_ref, get_chunk_head. by rewrite E1, E2.
Qed.

(** The written segment satisfies the invariant. *)
Lemma written_segment w u rowss m c bs u' rk rd : mirrors w u rowss m → carries w c bs u m →
  written w c bs u u' m rk rd →
  (∀ f, m_fin m = Some f →
     below (number f) (rows (kept_below (first_block c) (seg m) ++ bs)) = below (number f) (rows (seg m))) →
  adjacent child (kept_below (first_block c) (seg m) ++ bs) ∧
  anchored (anchor m) (kept_below (first_block c) (seg m) ++ bs) ∧
  names_block (kept_below (first_block c) (seg m) ++ bs) (m_fin m).
Proof.
  intros Hm Hc Hwr Hbel. destruct (mi_model _ _ _ _ Hm) as [Hw _].
  destruct (carries_head _ _ _ _ _ Hc) as (b0 & z & Eb & _). destruct (ca_parent _ _ _ _ _ Hc b0 Eb) as [Hph Hpn].
  pose proof (run_first _ _ _ _ (ca_rows _ _ _ _ _ Hc) Eb) as Hlo. split_and!.
  - apply adjacent_child_app; [by apply kept_linked|apply Hc|]. intros x b Ex Eb'. rewrite Eb in Eb'. injection Eb' as <-.
    pose proof (last_Some_elem_of _ _ Ex) as [_ Hx]%kept_elem. split_and!; [lia|by apply Hpn|].
    rewrite Hph. by apply (wr_link _ _ _ _ _ _ _ _ Hwr).
  - pose proof (wf_anchored _ Hw) as Ha. apply anchored_app.
    + intros first Ef. rewrite kept_head in Ef; [by apply Ha|done|]. intros E. by rewrite E in Ef.
    + intros Enil first Ef. rewrite Eb in Ef. injection Ef as <-. pose proof (wr_empty _ _ _ _ _ _ _ _ Hwr Enil).
      pose proof (mi_anchor _ _ _ _ Hm). split; [lia|]. intros h Eh. rewrite Hph. by apply (ca_anchor _ _ _ _ _ Hc).
  - intros f Ef. destruct (wf_fin _ Hw f Ef) as (b & Hb & <-). specialize (Hbel _ Ef). cbn in Hbel.
    assert (Hin : (b_number b, b_hash b) ∈ below (b_number b) (rows (kept_below (first_block c) (seg m) ++ bs))).
    { rewrite Hbel. apply list_elem_of_filter. split; [simpl; lia|by apply rows_elem]. }
    apply list_elem_of_filter in Hin as [_ (x & E & Hx)%list_elem_of_fmap]. injection E as E1 E2. exists x.
    split; [done|]. unfold as_ref. by rewrite E1, E2.
Qed.

Lemma written_floor w u rowss m c bs u' rk rd : mirrors w u rowss m → carries w c bs u m →
  written w c bs u u' m rk rd →
  ∀ a, head (kept_below (first_block c) (seg m) ++ bs) = Some a → wc_first_block w <= b_number a.
Proof.
  intros Hm Hc Hwr a Ea. destruct (mi_model _ _ _ _ Hm) as [Hw _].
  destruct (carries_head _ _ _ _ _ Hc) as (b0 & z & Eb & _).
  destruct (kept_below (first_block c) (seg m)) as [|x K] eqn:EK.
  - pose proof (wr_empty _ _ _ _ _ _ _ _ Hwr EK). cbn in Ea. rewrite Eb in Ea. injection Ea as <-.
    pose proof (run_first _ _ _ _ (ca_rows _ _ _ _ _ Hc) Eb). lia.
  - apply (mi_floor _ _ _ _ Hm). rewrite <-(kept_head (first_block c) m Hw); [by rewrite EK|by rewrite EK].
Qed.

(** The verdict on the report, by the model that holds the written segment. *)
Lemma written_verdict w u rowss m c bs r fin ig u' rk rd : mirrors w u rowss m → carries w c bs u m →
  u64_ok (number r) → new_chunk_tx w (Some r) c u = Ok ((fin, ig), u') → rowss = rk ++ rd →
  written w c bs u u' m rk rd → let m2 := bump (with_seg (kept_below (first_block c) (seg m) ++ bs) m) in
  well_formed m2 → ∃ o, finalize_inner r m2 = (with_fin fin m2, o) ∧ o ≠ FinalizeIntegrityFault.
Proof.
  intros Hm Hc Hr Htx -> Hwr m2 Hw2. destruct (new_chunk_verdict _ _ _ _ _ _ _ Htx) as (v & Hv & Hfin).
  destruct (carries_head _ _ _ _ _ Hc) as (b0 & z & Eb & Ez & Ehd).
  pose proof (mirrors_NoDup _ _ _ _ Hm) as Hnd. pose proof (mi_fin _ _ _ _ Hm) as Ef.
  rewrite (resolve_finality_reads u _ (Some (c, rows bs)) _ _ (get_chunk_head c) (rk ++ rd)) in Hv;
    [|apply Hm|done|apply Hm|done|].
  2: { split; [done|]. split; [apply rows_NoDup, child_ascending, Hc|apply Hc]. }
  injection Hv as Hv. rewrite concat_app in Hv.
  assert (Hro : Forall (λ p, first_block c <= p.1) (rows bs)).
  { by apply (chunk_rows_from _ _ _ _ (ca_rows _ _ _ _ _ Hc)). }
  pose proof (verdict_after_write _ _ _ _ _ _ _ _ _ (wr_below _ _ _ _ _ _ _ _ Hwr) (wr_above _ _ _ _ _ _ _ _ Hwr)
    Hro Hv) as Hsame.
  pose proof (written_floor _ _ _ _ _ _ _ _ _ Hm Hc Hwr) as Hlow.
  destruct (elem_head (seg m2) z) as [a Ea]. { cbn. apply elem_of_app. right. by apply last_Some_elem_of. }
  rewrite (finalize_inner_verdict r m2 a z (wc_first_block w) Hw2 Ea); [| |by apply Hlow].
  2: { cbn. rewrite last_app, Ez. done. }
  assert (Hrw : rows (seg m2) = concat rk ++ rows bs) by (cbn; by rewrite rows_app, (wr_kept _ _ _ _ _ _ _ _ Hwr)).
  rewrite Hrw, Ehd. change (m_fin m2) with (m_fin m). rewrite Ef.
  assert (Hnf : ∀ reason, v ≠ FinIntegrityFault reason) by (intros ? ->; done). specialize (Hsame Hnf).
  destruct v as [b|reason|reason]; [..|done].
  - destruct (finality_spec _ _ _ None _ _) as [b'|?|?] eqn:Esp; [|done..]. cbn in Hsame. subst b' fin.
    by exists FinalizeApplied.
  - destruct (finality_spec _ _ _ None _ _) as [b'|?|?]; [done| |done]. exists FinalizeIgnored. subst fin.
    rewrite <-Ef. done.
Qed.

(** An accepted chunk does not evict the block it reports final. *)
Lemma written_keeps_reported w u rowss m c bs r fin ig u' rk rd s0 : mirrors w u rowss m → carries w c bs u m →
  u64_ok (number r) → new_chunk_tx w (Some r) c u = Ok ((fin, ig), u') → rowss = rk ++ rd →
  head (seg m) = Some s0 → replacement_evicts_reported_block (first_block c) bs r m = Ok false.
Proof.
  intros Hm Hc Hr Htx -> Es. destruct (new_chunk_verdict _ _ _ _ _ _ _ Htx) as (v & Hv & Hfin).
  destruct (carries_head _ _ _ _ _ Hc) as (b0 & z & Eb & Ez & Ehd). pose proof (mirrors_NoDup _ _ _ _ Hm) as Hnd.
  rewrite (resolve_finality_reads u _ (Some (c, rows bs)) _ _ (get_chunk_head c) (rk ++ rd)) in Hv;
    [|apply Hm|done|apply Hm|done|].
  2: { split; [done|]. split; [apply rows_NoDup, child_ascending, Hc|apply Hc]. }
  injection Hv as <-. unfold replacement_evicts_reported_block, m_first. rewrite Ez, Es. cbn [mbind res_bind fmap option_fmap option_map].
  destruct (number r >? b_number z) eqn:Ec; [done|]. cbn [mbind res_bind orb]. f_equal.
  destruct (number r <? b_number s0) eqn:El; [done|].
  destruct (match m_fin m with Some f => number r <=? number f | None => false end) eqn:Efn; [done|].
  destruct (_ && _)%bool eqn:Ev; [exfalso|done]. rewrite Z.gtb_ltb in Ec. zbool.
  match goal with H : bool_decide (is_Some _) = true |- _ => apply bool_decide_eq_true in H as [x Hx] end.
  match goal with H : forallb _ _ = true |- _ => rename H into Hall end.
  assert (Hpost : number (get_chunk_head c) = b_number z) by (by rewrite <-Ehd).
  revert Hfin. unfold finality_spec. rewrite !Hpost.
  rewrite !(decide_False (P := b_number z < number r)) by lia.
  rewrite decide_False by (pose proof (mi_floor _ _ _ _ Hm s0 Es); lia).
  assert (Hag : against_current (label_finalized_head (upd_label u)) r = None).
  { rewrite <-(mi_fin _ _ _ _ Hm). destruct (m_fin m) as [f|]; [|done]. zbool. unfold against_current. cbn.
    rewrite decide_False by lia. rewrite decide_False by (intros ->; lia). by rewrite decide_False by lia. }
  rewrite Hag, decide_True by done. unfold at_height. rewrite !hash_at_rows, <-(mi_blocks _ _ _ _ Hm), hash_at_rows.
  fold (m_block_at m (number r)). rewrite Hx. cbn. rewrite list_filter_none; [done|].
  intros b Hb E. rewrite list_elem_of_In in Hb. apply (proj1 (forallb_forall _ _) Hall) in Hb. by rewrite E, Z.eqb_refl in Hb.
Qed.

Lemma kept_all m from : numbers_ok m → well_formed m → m_next m <= from → kept_below from (seg m) = seg m.
Proof.
  intros Hn Hw Hle. apply list_filter_all. intros b Hb. apply Z.ltb_lt. destruct (elem_last _ _ Hb) as [z Ez].
  rewrite (m_next_last m z Hn Ez) in Hle. pose proof (ascending_last _ b z (child_ascending _ (wf_linked _ Hw)) Hb Ez). lia.
Qed.

(** The oracle accepts the blocks of an accepted chunk. *)
Lemma oracle_write_commits w u rowss m c bs report fin ig u' rk rd : mirrors w u rowss m → carries w c bs u m →
  (∀ r, report = Some r → u64_ok (number r)) → new_chunk_tx w report c u = Ok ((fin, ig), u') → rowss = rk ++ rd →
  written w c bs u u' m rk rd →
  oracle_write c bs report m = commit_segment (kept_below (first_block c) (seg m) ++ bs) report m.
Proof.
  intros Hm Hc Hr Htx Erw Hwr. destruct (mi_model _ _ _ _ Hm) as [Hw Hn].
  destruct (carries_head _ _ _ _ _ Hc) as (b0 & z & Eb & _). destruct (ca_parent _ _ _ _ _ Hc b0 Eb) as [Hph Hpn].
  pose proof (run_first _ _ _ _ (ca_rows _ _ _ _ _ Hc) Eb) as Hlo.
  assert (Hlk : match last (kept_below (first_block c) (seg m)) with
    | Some base => b_parent_number b0 = b_number base ∧ b_parent_hash b0 = b_hash base
    | None => ∀ h, anchor_hash (anchor m) = Some h → b_parent_hash b0 = h end).
  { destruct (last (kept_below (first_block c) (seg m))) as [x|] eqn:Ex.
    - split; [by apply Hpn|]. rewrite Hph. by apply (wr_link _ _ _ _ _ _ _ _ Hwr).
    - intros h Eh. rewrite Hph. apply (ca_anchor _ _ _ _ _ Hc); [by apply last_None|done]. }
  unfold oracle_write. destruct (Z.leb_spec (m_next m) (first_block c)) as [Hnx|Hnx].
  - rewrite (kept_all m _ Hn Hw Hnx) in *. unfold extend.
    rewrite (proj2 (extend_checks_spec m bs)); [done|]. split; [apply Hc|]. exists b0. split_and!; [done|lia|done].
  - unfold replace. rewrite take_partition, kept_take by done.
    rewrite (proj2 (replace_checks_spec m (first_block c) bs report Hw)); [done|]. split; [apply Hc|].
    destruct (head (seg m)) as [s0|] eqn:Es.
    2: { exfalso. destruct (seg m) eqn:E; [|done]. pose proof (wr_empty _ _ _ _ _ _ _ _ Hwr) as He. rewrite E in He.
         specialize (He eq_refl). pose proof (mi_anchor _ _ _ _ Hm). unfold m_next in Hnx. rewrite E in Hnx. cbn in Hnx.
         destruct Hn as [[? ?] _]. rewrite u64_add_small in Hnx by lia. lia. }
    exists s0, b0. split_and!; [done|done|done|by apply (ca_floor _ _ _ _ _ Hc)| |done|].
    + intros f Ef Hle. apply rows_as_ref. rewrite (rows_filter (λ n, n <= number f)).
      rewrite (rows_filter (λ n, first_block c <= n ∧ n <= number f)).
      pose proof (written_below _ _ _ _ _ _ _ _ _ _ _ _ f Hm Hc Htx Erw Hwr Ef) as Hb.
      rewrite (kept_split (first_block c) m Hw) in Hb at 2. rewrite !rows_app, !below_app in Hb.
      apply app_inv_head in Hb. unfold below in Hb. rewrite Hb.
      unfold kept_from. rewrite (rows_filter (λ n, first_block c <= n)), list_filter_filter.
      apply list_filter_iff. intros p. simpl. tauto.
    + intros r ->. apply (written_keeps_reported w u rowss m c bs r fin ig u' rk rd s0); try done. by apply Hr.
Qed.

(** C17: a chunk the controller accepts is a transition of the oracle.  If the model mirrors the
    stored window and the blocks of the chunk are a run, linked by parent numbers as no layer of
    the code checks (GAP-20), that starts in or right after the window, then whenever the
    transaction accepts the chunk, with whatever finality report, the oracle accepts the same
    blocks and the same report, as an EXTEND when they come after the window and as a REPLACE
    from the start of the chunk otherwise, and the model after it mirrors the window after the
    transaction, finalized watermark included. *)
Theorem accepted_chunk_simulated w u rowss m c bs report fin ig u' :
  mirrors w u rowss m → carries w c bs u m → (∀ r, report = Some r → u64_ok (number r)) →
  new_chunk_tx w report c u = Ok ((fin, ig), u') →
  ∃ m' rowss', oracle_write c bs report m = (m', Ok tt) ∧ mirrors w u' rowss' m'.
Proof.
  intros Hm Hc Hr Htx. destruct (chunk_written _ _ _ _ _ _ _ _ _ _ Hm Hc Htx) as (rk & rd & Erw & Hwr).
  rewrite (oracle_write_commits _ _ _ _ _ _ _ _ _ _ _ _ Hm Hc Hr Htx Erw Hwr).
  destruct (written_segment _ _ _ _ _ _ _ _ _ Hm Hc Hwr) as (Hl & Ha & Hf).
  { intros f Ef. by eapply written_below. }
  set (sg := kept_below (first_block c) (seg m) ++ bs) in *.
  assert (Hw2 : well_formed (bump (with_seg sg m))) by (by constructor).
  assert (Hres : ∃ v, commit_segment sg report m = (mkModel sg (anchor m) fin v, Ok tt)).
  { destruct report as [r|].
    - destruct (written_verdict _ _ _ _ _ _ _ _ _ _ _ _ Hm Hc (Hr r eq_refl) Htx Erw Hwr Hw2) as (o & E & Ho).
      fold sg in E. rewrite commit_segment_intro; [|done..|by intros ? [= <-]; rewrite E]. rewrite E. by eexists.
    - rewrite commit_segment_intro; [|done..]. destruct (new_chunk_tx_inv _ _ _ _ _ _ _ (mi_ok _ _ _ _ Hm) Htx)
        as (_ & _ & [->|(? & ? & ? & _)] & _); [|done]. rewrite <-(mi_fin _ _ _ _ Hm). by eexists. }
  destruct Hres as [v Hres]. eexists _, (rk ++ [rows bs]). split; [exact Hres|].
  pose proof (commit_segment_leaves sg report m Hl Ha Hf) as Hlv. rewrite Hres in Hlv. destruct Hlv as [Hw' _].
  pose proof (written_floor _ _ _ _ _ _ _ _ _ Hm Hc Hwr) as Hfl.
  destruct (new_chunk_tx_inv _ _ _ _ _ _ _ (mi_ok _ _ _ _ Hm) Htx) as (_ & _ & _ & Hi).
  apply upd_insert_fork_label in Hi as [El _].
  constructor; try apply Hwr; cbn.
  - unfold sg. rewrite rows_app, (wr_kept _ _ _ _ _ _ _ _ Hwr), concat_app. cbn. by rewrite app_nil_r.
  - rewrite El. symmetry. apply label_set_fin.
  - destruct (mi_model _ _ _ _ Hm) as [_ [Hna Hns]]. split; [|split; [done|]].
    + exact Hw'.
    + apply Forall_app. split; [|apply Hc]. rewrite Forall_forall in Hns |- *. intros b [Hb _]%kept_elem. by apply Hns.
  - apply Hm.
  - exact Hfl.
Qed.
End controller.

Module HarnessExamples.
Import Mem ForkExamples DbExamples PrefixExamples ControllerExamples.

Definition blk (n : Z) (h : string) (pn : Z) (ph : string) : Block := mkBlock n h pn ph 0 0.
Definition at4 : Anchor := mkAnchor 4 (Some "d").
Definition b5 : Block := blk 5 "e" 4 "d".
Definition b6 : Block := blk 6 "f" 5 "e".
Definition b7 : Block := blk 7 "g" 6 "f".
Definition x7 : Block := blk 7 "x" 6 "f".
Definition x8 : Block := blk 8 "y" 7 "x".
Definition fin6 : BlockRef := mkBlockRef 6 "f".

(** Extend, finalize, a refused fork below finality, a fork above it, a trim. *)
Definition script : list transition :=
  [TExtend [b5; b6; b7] None; TFinalize fin6; TReplace 6 [blk 6 "z" 5 "e"] None;
   TReplace 7 [x7; x8] (Some (mkBlockRef 9 "w")); TRetain 6 None].
Lemma script_ok : Forall transition_ok script.
Proof. repeat constructor; cbn; unfold u64_max; lia. Qed.

Lemma oracle_invariant_witness : let m := run_script (take 2 script) (model_new at4) in
  wf m = Ok tt ∧ keeps_history m (run_transition (TReplace 7 [x7; x8] None) m).1.
Proof.
  destruct (oracle_invariant at4 (take 2 script) (TReplace 7 [x7; x8] None)) as [Hw Hk].
  - cbn. unfold u64_max. lia.
  - apply Forall_take. exact script_ok.
  - repeat constructor; cbn; unfold u64_max; lia.
  - split; [exact Hw|].
    assert (Eo : (run_transition (TReplace 7 [x7; x8] None) (run_script (take 2 script) (model_new at4))).2 = Ok tt)
      by (vm_compute; reflexivity).
    destruct (run_transition (TReplace 7 [x7; x8] None) (run_script (take 2 script) (model_new at4))) as [m' r].
    cbn in Eo. subst r. cbn. apply Hk. reflexivity.
Defined.

(** The store with the same window, blocks 5 and 6-7, and a chunk that replaces the last. *)
Definition h1 : Chunk := with_blocks 5 5 "d" "e" t1.
Definition h2 : Chunk := with_blocks 6 7 "e" "g" t2.
Definition h3 : Chunk := with_blocks 6 8 "e" "y" t4.
Definition hdb : mdb := make_db [(d0, evm_label (Some fin6))] [(d0, [h1; h2])]
  [(t1, [5; 101; 100]); (t2, [6; 102; 101; 7; 103; 102]); (t4, [6; 102; 101; 7; 120; 102; 8; 121; 120])].
Definition hw : WriteController :=
  mkWriteController d0 Evm 5 (Some "d") (Some (mkBlockRef 5 "e")) (Some (mkBlockRef 7 "g")) (Some fin6)
    (Some (mkBlockRef 7 "g")) (Some fin6) [].
Definition hupd : DatasetUpdate GmapKv.t := mkDatasetUpdate (tx_begin hdb false false) d0 (evm_label (Some fin6)).
Definition hm : Model := mkModel [b5; b6; b7] at4 (Some fin6) 2.

Lemma hdb_state : ds_state hdb d0 (evm_label (Some fin6)) [h1; h2].
Proof.
  constructor.
  - vm_compute. reflexivity.
  - apply (make_db_chunks_ok _ [(d0, [h1; h2])]).
    repeat constructor; try apply d0_ok; simpl; unfold u64_max; lia.
  - vm_compute. reflexivity.
  - split; [repeat constructor; simpl; unfold u64_max; lia|].
    simpl. split; [|done]. split; simpl; [lia|done].
  - exists h1, h2. split; [done|]. split; [done|]. simpl. lia.
Qed.
Lemma hupd_chunks : upd_chunks hupd = [h1; h2].
Proof. vm_compute. reflexivity. Qed.
Lemma hdb_rows c id bs : table_get "blocks" (tables c) = Some id → id ∈ [t1; t2; t4] →
  match open_table (hdb CF_TABLES) id with Ok t => rows_of (cells t 0) (cells t 1) | _ => [] end = rows bs →
  Forall (λ p, first_block c <= p.1 <= last_block c) (rows bs) →
  last (rows bs) = Some (last_block c, last_block_hash c) → chunk_rows (hdb CF_TABLES) c (rows bs).
Proof.
  intros Hc Hid Hb Hr Hl. split; [|by split]. rewrite !elem_of_cons, elem_of_nil in Hid.
  assert (Ht : ∃ t, open_table (hdb CF_TABLES) id = Ok t)
    by (destruct Hid as [->|[->|[->|[]]]]; eexists; vm_compute; reflexivity).
  destruct Ht as [t Ht]. exists id, t, 0%nat, 1%nat. rewrite Ht in Hb. split; [done|]. split; [done|].
  split; [|split; [exact (eq_sym Hb)|done]].
  repeat split; [by right|unfold no_nulls; simpl..];
    clear; induction t as [|r t IH]; simpl; auto.
Qed.
Ltac hrow := eapply hdb_rows; [reflexivity|lmem|vm_compute; reflexivity|vm_compute; repeat constructor; intros [=]|vm_compute; reflexivity].

Lemma hm_ok : model_ok hm.
Proof.
  split; [apply wf_spec; vm_compute; reflexivity|]. split; [cbn; unfold u64_max; lia|].
  repeat constructor; cbn; unfold u64_max; lia.
Qed.
Lemma hm_mirrors : mirrors hw hupd [rows [b5]; rows [b6; b7]] hm.
Proof.
  constructor.
  - apply (fresh_ok hdb d0 (evm_label (Some fin6)) [h1; h2]); [exact d0_ok|exact hdb_state|done].
  - rewrite hupd_chunks. apply (ds_tiled _ _ _ _ hdb_state).
  - rewrite hupd_chunks. constructor; [hrow|constructor; [hrow|constructor]].
  - reflexivity.
  - reflexivity.
  - exact hm_ok.
  - cbn. lia.
  - intros a [= <-]. cbn. lia.
Qed.
Lemma h3_carries : carries hw h3 [b6; x7; x8] hupd hm.
Proof.
  constructor.
  - split; cbn; unfold u64_max; lia.
  - hrow.
  - repeat split; cbn; lia.
  - repeat constructor; cbn; unfold u64_max; lia.
  - intros b0 [= <-]. split; [reflexivity|]. intros z [= <-]. reflexivity.
  - intros [=].
  - intros a [= <-]. cbn. lia.
Qed.

Lemma oracle_finality_equiv_witness :
  resolve_finality hupd (Some fin6) None 5 (mkBlockRef 9 "w") = Ok (FinApplied (mkBlockRef 7 "g")) ∧
  finalize_inner (mkBlockRef 9 "w") hm = (with_fin (Some (mkBlockRef 7 "g")) hm, FinalizeApplied).
Proof.
  destruct (oracle_finality_equiv hw hupd _ hm (mkBlockRef 9 "w") hm_mirrors) as (v & Hv & Hf).
  - apply small_ok. cbn. lia.
  - intros [=].
  - assert (E : resolve_finality hupd (Some fin6) None 5 (mkBlockRef 9 "w") = Ok (FinApplied (mkBlockRef 7 "g")))
      by (vm_compute; reflexivity).
    split; [exact E|]. cbn [hw wc_first_block hupd upd_label evm_label label_finalized_head] in Hv. rewrite E in Hv.
    injection Hv as <-. exact Hf.
Defined.

Lemma accepted_chunk_simulated_witness : ∃ a u' m' rowss',
  new_chunk_tx hw (Some (mkBlockRef 8 "y")) h3 hupd = Ok (a, u') ∧
  oracle_write h3 [b6; x7; x8] (Some (mkBlockRef 8 "y")) hm = (m', Ok tt) ∧ mirrors hw u' rowss' m'.
Proof.
  assert (E : ∃ fin ig u', new_chunk_tx hw (Some (mkBlockRef 8 "y")) h3 hupd = Ok ((fin, ig), u')).
  { destruct (new_chunk_tx hw (Some (mkBlockRef 8 "y")) h3 hupd) as [[[fin ig] u']|e|p] eqn:E.
    - exists fin, ig, u'. reflexivity.
    - apply (f_equal (λ o, match o with Ok _ => true | _ => false end)) in E. vm_compute in E. discriminate E.
    - apply (f_equal (λ o, match o with Ok _ => true | _ => false end)) in E. vm_compute in E. discriminate E. }
  destruct E as (fin & ig & u' & E).
  destruct (accepted_chunk_simulated hw hupd _ hm h3 [b6; x7; x8] (Some (mkBlockRef 8 "y")) fin ig u' hm_mirrors h3_carries)
    as (m' & rowss' & Ho & Hm).
  - intros r [= <-]. apply small_ok. cbn. lia.
  - exact E.
  - exists (fin, ig), u', m', rowss'. split; [exact E|]. split; [exact Ho|exact Hm].
Defined.
End HarnessExamples.
