(* ===== verification/HarnessFork.v ===== *)
(** * HarnessFork: fork resolution and query prediction of the reference model

    Where the oracle resumes after a fork signal, that the replacement it asks for is one it
    accepts, and what its prediction of a query outcome says about the stored blocks. *)

From stdpp Require Import list.
From S2P Require Import Prelude Data Chain Harness HarnessSpec.

Implicit Types (m : Model) (bs : list Block) (r : BlockRef).

(** ** Positions *)

Lemma kept_upto n bs : filter (λ b, (b_number b <=? n) = true) bs = kept_below (n + 1) bs.
Proof. apply list_filter_iff. intros b. rewrite Z.leb_le, Z.ltb_lt. lia. Qed.

Lemma upto_take n m : well_formed m → take_while (λ b, b_number b <=? n) (seg m) = kept_below (n + 1) (seg m).
Proof.
  intros Hw. rewrite take_while_filter, kept_upto; [done|apply upto_mono|]. apply child_ascending, Hw.
Qed.

(** The chain hash at a position is that of the last block at or below it, or the anchor's. *)
Lemma m_hash_at_spec m n : well_formed m → m_hash_at m n =
  match last (kept_below (n + 1) (seg m)) with
  | Some z => Some (b_hash z)
  | None => if anchor_number (anchor m) <=? n then anchor_hash (anchor m) else None
  end.
Proof.
  intros Hw. unfold m_hash_at. rewrite <-upto_take, <-partition_last by done.
  set (i := partition_point _ _). pose proof (partition_le (λ b, b_number b <=? n) (seg m)) as Hi. fold i in Hi.
  destruct (Nat.eqb_spec i 0) as [->|Hne]; [done|].
  destruct (0 <? i)%nat eqn:E; [|apply Nat.ltb_ge in E; lia].
  destruct (lookup_lt_is_Some_2 (seg m) (i - 1)) as [b ->]; [lia|done].
Qed.

Lemma kept_upto_block m b : well_formed m → b ∈ seg m → last (kept_below (b_number b + 1) (seg m)) = Some b.
Proof.
  intros Hw Hb. apply list_elem_of_split in Hb as (l & k & E). pose proof (child_ascending _ (wf_linked _ Hw)) as Hs.
  rewrite E in Hs |- *. assert (Hk : ∀ x, x ∈ k → b_number b < b_number x).
  { clear -Hs. induction l as [|y l IH]; [exact (StronglySorted_elem _ _ _ Hs)|].
    apply StronglySorted_inv in Hs as [? _]. by apply IH. }
  unfold kept_below. rewrite filter_app, filter_cons, decide_True by (apply Z.ltb_lt; lia).
  rewrite (list_filter_none _ k); [by rewrite last_snoc|].
  intros x Hx Hlt. apply Z.ltb_lt in Hlt. specialize (Hk x Hx). lia.
Qed.

Definition hint_ok r : Prop := 0 <= number r < u64_max.

(** The hints finality leaves are hints, from the finalized height up. *)
Lemma list_find_drop {A} (P : A → Prop) `{!∀ x, Decision (P x)} l i x :
  list_find P l = Some (i, x) → head (drop i l) = Some x ∧ P x.
Proof. intros (E & HP & _)%list_find_Some. split; [|done]. by rewrite head_lookup, lookup_drop, Nat.add_0_r. Qed.

Lemma windows2_sorted hints : forallb (λ w, number w.1 <? number w.2) (windows2 hints) = true →
  StronglySorted (λ a b, number a < number b) hints.
Proof.
  intros Hf. apply Sorted_StronglySorted; [intros a b c; lia|].
  induction hints as [|a [|b l] IH]; [constructor|repeat constructor|]. cbn in Hf. zbool.
  constructor; [by apply IH|by constructor].
Qed.

Lemma fork_hints_spec m hints hs : StronglySorted (λ a b, number a < number b) hints → fork_hints m hints = Some hs →
  (∀ h, h ∈ hs → h ∈ hints) ∧ ∀ f h, m_fin m = Some f → h ∈ hs → number f <= number h.
Proof.
  intros Hs. unfold fork_hints. destruct (m_fin m) as [f|]; [|by intros [= <-]].
  destruct (list_find _ hints) as [[i h0]|] eqn:E; [|done]. apply list_find_drop in E as [Eh Hle].
  destruct (_ && _)%bool; [done|]. intros [= <-]. split.
  - intros h Hh. rewrite <-(take_drop i hints), elem_of_app. by right.
  - intros f' h [= <-] Hh. destruct (drop i hints) as [|x l] eqn:Ed; [by apply elem_of_nil in Hh|].
    injection Eh as ->. apply elem_of_cons in Hh as [->|Hh]; [done|].
    assert (Hd : StronglySorted (λ a b, number a < number b) (h0 :: l)).
    { rewrite <-Ed. clear -Hs. revert i. induction Hs as [|a l Hl IH Hf]; intros [|i]; cbn; [constructor..| |auto].
      by constructor. }
    pose proof (StronglySorted_elem _ _ _ Hd h Hh). simpl in *. lia.
Qed.

(** ** Resuming *)

(** What [Resume] names: a position above finality, and the chain hash before it. *)
Lemma resume_spec m hints from parent : model_ok m → Forall hint_ok hints →
  resolve_fork hints m = Ok (Resume from parent) →
  (∀ f, m_fin m = Some f → number f < from) ∧ m_hash_at m (from - 1) = parent ∧ anchor_number (anchor m) < from.
Proof.
  intros [Hw Hn] Hh. unfold resolve_fork. intros Hr. apply bind_Ok in Hr as ([] & _ & Hr).
  apply bind_Ok in Hr as ([] & Hs & Hr). apply ensure_Ok, windows2_sorted in Hs. injection Hr as Hr.
  destruct (fork_hints m hints) as [hs|] eqn:Ef; [|done]. apply (fork_hints_spec _ _ _ Hs) in Ef as [Hsub Hfin].
  destruct (anchor_contradicted m hs); [done|]. pose proof (wf_anchored _ Hw) as Ha.
  destruct (last (filter (λ h, stored_or_anchor m h = true) hs)) as [h|] eqn:El.
  - injection Hr as <- <-. apply last_Some_elem_of, list_elem_of_filter in El as [Hm Hin].
    apply bool_decide_eq_true in Hm. rewrite Forall_forall in Hh. specialize (Hh h (Hsub h Hin)). unfold hint_ok in Hh.
    rewrite u64_add_small by lia. split; [intros f Ef; specialize (Hfin f h Ef Hin); lia|].
    rewrite Z.add_simpl_r. split; [done|]. rewrite m_hash_at_spec in Hm by done.
    destruct (last (kept_below (number h + 1) (seg m))) as [z|] eqn:Ez.
    + apply last_Some_elem_of, kept_elem in Ez as [Hz Hlt]. destruct (elem_head _ _ Hz) as [a Ea].
      destruct (Ha a Ea) as [? _]. pose proof (ascending_head _ z a (child_ascending _ (wf_linked _ Hw)) Hz Ea). lia.
    + destruct (Z.leb_spec (anchor_number (anchor m)) (number h)); [lia|done].
  - destruct (m_fin m) as [f|] eqn:Ef.
    + injection Hr as <- <-. destruct (wf_fin _ Hw f Ef) as (b & Hb & <-). destruct Hn as [Han Hn].
      rewrite Forall_forall in Hn. specialize (Hn b Hb). unfold block_ok in Hn. cbn. rewrite u64_add_small by lia.
      split; [intros ? [= <-]; cbn; lia|]. rewrite Z.add_simpl_r, m_hash_at_spec by done.
      pose proof (kept_upto_block m b Hw Hb) as Ez.
      rewrite Ez. split; [done|]. destruct (elem_head (seg m) b) as [a Ea]; [by eapply last_Some_elem_of, kept_elem in Ez|].
      apply last_Some_elem_of, kept_elem in Ez as [Hb' _]. destruct (Ha a Ea) as [? _].
      pose proof (ascending_head _ b a (child_ascending _ (wf_linked _ Hw)) Hb' Ea). lia.
    + injection Hr as <- <-. destruct Hn as [Han Hn]. split; [done|]. unfold m_first.
      destruct (head (seg m)) as [a|] eqn:Ea; cbn.
      * destruct (Ha a Ea) as [? _]. split; [|done]. rewrite m_hash_at_spec, Z.sub_add by done.
        assert (Ek : kept_below (b_number a) (seg m) = []).
        { apply list_filter_none. intros x Hx Hlt. apply Z.ltb_lt in Hlt.
          pose proof (ascending_head _ x a (child_ascending _ (wf_linked _ Hw)) Hx Ea). lia. }
        rewrite Ek. cbn. by rewrite (proj2 (Z.leb_le _ _)) by lia.
      * destruct (seg m) as [|x l] eqn:Es; [|done]. rewrite u64_add_small by lia. rewrite m_hash_at_spec, Es by done. cbn.
        rewrite (proj2 (Z.leb_le _ _)) by lia. split; [done|lia].
Qed.

(** An assertion panics or holds. *)
Lemma bind_no_err {A B} (f : A → res B) (c : res A) : (∀ e, c ≠ Err e) → (∀ a e, f a ≠ Err e) → ∀ e, (c ≫= f) ≠ Err e.
Proof. intros Hc Hf e. destruct c as [a|e'|p]; cbn; [apply Hf|by destruct (Hc e')|done]. Qed.
Lemma assert_no_err c s e : assert c s ≠ Err e.
Proof. by destruct c. Qed.
Lemma wf_no_err m e : wf m ≠ Err e.
Proof.
  unfold wf. apply bind_no_err; [|intros _; apply bind_no_err].
  - generalize (windows2 (seg m)). intros l. induction l as [|w l IH]; [done|]. cbn [fold_res].
    apply bind_no_err; [|by intros []]. repeat (apply bind_no_err; [apply assert_no_err|intros []]). apply assert_no_err.
  - destruct (head (seg m)); [|done]. apply bind_no_err; [apply assert_no_err|intros _].
    destruct (anchor_hash (anchor m)); [apply assert_no_err|done].
  - intros _. destruct (m_fin m); [|done]. destruct (m_first m), (m_head m); [|done..].
    apply bind_no_err; [apply assert_no_err|intros _; apply assert_no_err].
Qed.

(** The oracle's fork resolution is consistent with its own transitions.  A resume
    position is above the finalized watermark and above the anchor, and names the chain hash
    right below it; and any run of blocks that starts there and attaches to that hash is
    accepted, as an EXTEND past the window or as a REPLACE of its suffix, provided the
    position is not below the first block of the window. *)
Theorem oracle_fork_resumable m hints from parent bs b0 : model_ok m → Forall hint_ok hints →
  resolve_fork hints m = Ok (Resume from parent) →
  valid_run bs = Ok tt → head bs = Some b0 → from <= b_number b0 →
  (∀ h, parent = Some h → b_parent_hash b0 = h) →
  (∀ z, last (kept_below from (seg m)) = Some z → b_parent_number b0 = b_number z) →
  (∀ s0, head (seg m) = Some s0 → b_number s0 <= from) →
  ∃ m', (if m_next m <=? from then extend bs None m else replace from bs None m) = (m', Ok tt) ∧
    seg m' = kept_below from (seg m) ++ bs ∧ m_fin m' = m_fin m.
Proof.
  intros Hm Hh Hres Hrun Eb Hb Hpar Hpn Hfl. pose proof Hm as [Hw Hn].
  destruct (resume_spec m hints from parent Hm Hh Hres) as (Hfin & Hat & Hanc).
  rewrite m_hash_at_spec, Z.sub_add in Hat by done.
  assert (Hlk : match last (kept_below from (seg m)) with
    | Some base => b_parent_number b0 = b_number base ∧ b_parent_hash b0 = b_hash base
    | None => ∀ h, anchor_hash (anchor m) = Some h → b_parent_hash b0 = h end).
  { destruct (last (kept_below from (seg m))) as [z|]; [split; [by apply Hpn|by apply Hpar]|].
    rewrite (proj2 (Z.leb_le _ _)) in Hat by lia. intros h Eh. apply Hpar. congruence. }
  apply valid_run_spec in Hrun.
  assert (Hlv : ∀ o, o = (if m_next m <=? from then extend bs None m else replace from bs None m) →
    leaves m (kept_below from (seg m) ++ bs) None o ∧ (∀ e, o.2 ≠ Err e)).
  { intros o ->. destruct (Z.leb_spec (m_next m) from) as [Hnx|Hnx].
    - assert (Ek : kept_below from (seg m) = seg m).
      { apply list_filter_all. intros b Hx. apply Z.ltb_lt. destruct (elem_last _ _ Hx) as [z Ez].
        rewrite (m_next_last m z Hn Ez) in Hnx.
        pose proof (ascending_last _ b z (child_ascending _ (wf_linked _ Hw)) Hx Ez). lia. }
      rewrite Ek in *. split; [apply (extend_leaves bs None m Hm)|]. unfold extend.
      rewrite (proj2 (extend_checks_spec m bs)) by (split; [done|]; exists b0; split_and!; [done|lia|done]).
      apply wf_no_err.
    - split; [by apply replace_leaves|]. unfold replace.
      assert (Hs0 : ∃ s0, head (seg m) = Some s0).
      { destruct (seg m) as [|x l] eqn:Es; [|by eexists]. exfalso. unfold m_next in Hnx. rewrite Es in Hnx. cbn in Hnx.
        destruct Hn as [[? ?] _]. rewrite u64_add_small in Hnx by lia. lia. }
      destruct Hs0 as [s0 Es]. rewrite (proj2 (replace_checks_spec m from bs None Hw)).
      + apply wf_no_err.
      + split; [done|]. exists s0, b0. split_and!; [done..|by apply Hfl| |done|done].
        intros f Ef Hle. specialize (Hfin f Ef). lia. }
  destruct (Hlv _ eq_refl) as [Hl He]. destruct (if m_next m <=? from then _ else _) as [m' [[]|e|s]]; [|by destruct (He e)|done].
  exists m'. split; [done|]. destruct Hl as (_ & -> & _ & _ & [->|(? & ? & ? & _)]); done.
Qed.

(** ** Queries *)

Lemma conflict_hints_spec m n : well_formed m → ∃ older,
  as_ref <$> kept_below (n + 1) (seg m) = older ++ conflict_hints m n ∧
  (length (conflict_hints m n) <= 100)%nat ∧ (older ≠ [] → length (conflict_hints m n) = 100%nat).
Proof.
  intros Hw. unfold conflict_hints. rewrite <-upto_take by done.
  destruct (take_while_prefix (λ b, b_number b <=? n) (seg m)) as [k E].
  set (l := take_while _ _) in *. unfold partition_point. fold l. rewrite E.
  rewrite drop_app_le, take_app_le by (rewrite ?length_drop; unfold P_CONFLICT_WINDOW; lia).
  rewrite take_ge by (rewrite length_drop; lia). exists (as_ref <$> take (length l - P_CONFLICT_WINDOW) l).
  rewrite <-fmap_app, take_drop, length_fmap, length_drop. split; [done|]. unfold P_CONFLICT_WINDOW. split; [lia|].
  intros Hne. assert (length l - 100 ≠ 0)%nat; [|lia]. intros E0. rewrite E0 in Hne. done.
Qed.

Lemma blocks_in_spec m from to : well_formed m →
  blocks_in m from to = filter (λ b, from <= b_number b ∧ b_number b <= to) (seg m).
Proof.
  intros Hw. unfold blocks_in. pose proof (child_ascending _ (wf_linked _ Hw)) as Hs.
  destruct (Z.ltb_spec to from) as [Hlt|Hle].
  { symmetry. apply list_filter_none. intros b _ ?. lia. }
  rewrite take_drop_commute. set (hi := partition_point (λ b, b_number b <=? to) (seg m)).
  set (lo := partition_point (λ b, b_number b <? from) (seg m)).
  assert (Hlo : (lo <= hi)%nat).
  { unfold lo, hi, partition_point. rewrite upto_take, kept_take by done. clear -Hle. unfold kept_below.
    induction (seg m) as [|b l IH]; [done|]. rewrite !filter_cons. do 2 case_decide; simpl; lia. }
  replace (lo + (hi - lo))%nat with hi by lia. unfold lo.
  unfold hi. rewrite take_partition, upto_take by done.
  assert (Hsub : ascending_blocks (kept_below (to + 1) (seg m))) by (apply child_ascending; by apply kept_linked).
  assert (Epp : partition_point (λ b, b_number b <? from) (seg m)
    = partition_point (λ b, b_number b <? from) (kept_below (to + 1) (seg m))).
  { unfold partition_point. rewrite (take_while_filter _ (kept_below (to + 1) (seg m))) by (try done; apply below_mono).
    rewrite kept_take by done. unfold kept_below. rewrite list_filter_filter. f_equal. apply list_filter_iff.
    intros b. rewrite !Z.ltb_lt. lia. }
  rewrite Epp, drop_while_filter by (try done; apply below_mono). unfold kept_below. rewrite list_filter_filter.
  apply list_filter_iff. intros b. rewrite Z.ltb_ge, Z.ltb_lt. lia.
Qed.

(** The tip a query may see. *)
Definition query_tip (finalized_only : bool) m : option BlockRef := if finalized_only then m_fin m else m_head m.

Lemma tip_stored finalized_only m t : well_formed m → query_tip finalized_only m = Some t →
  ∃ b, b ∈ seg m ∧ as_ref b = t.
Proof.
  intros Hw. unfold query_tip. destruct finalized_only; [apply (wf_fin _ Hw)|]. unfold m_head.
  intros (z & Ez & ->)%fmap_Some. exists z. split; [by apply last_Some_elem_of|done].
Qed.

(** The predicted outcome of a query.  The range is unavailable exactly below the window;
    a conflict is predicted only when the chain hash before the first requested block is known
    and differs from the asserted one, at the tip as well as inside the window, with the last
    100 stored blocks up to there as hints, all of them if there are fewer; no data means that
    the request starts above the tip or that there is none; and otherwise the assertion
    agrees with what is known and the answer ends at the requested block or at the tip. *)
Theorem oracle_query_exact m from to finalized_only expected : model_ok m → 1 <= from <= u64_max →
  match predict_query from to finalized_only expected m with
  | RangeUnavailable => ∃ a, head (seg m) = Some a ∧ from < b_number a
  | Conflict hints => ∃ e h, expected = Some e ∧ m_hash_at m (from - 1) = Some h ∧ h ≠ e ∧
      (∃ older, as_ref <$> kept_below from (seg m) = older ++ hints ∧ (older ≠ [] → length hints = 100%nat)) ∧
      (length hints <= 100)%nat
  | NoData => ∀ t, query_tip finalized_only m = Some t → number t < from
  | PredictedOk hi => ∃ t, query_tip finalized_only m = Some t ∧ from <= number t ∧
      hi = match to with Some n => Z.min n (number t) | None => number t end ∧
      (∀ a, head (seg m) = Some a → b_number a <= from) ∧
      ∀ e h, expected = Some e → m_hash_at m (from - 1) = Some h → h = e
  end.
Proof.
  intros [Hw Hn] Hf. unfold predict_query. fold (query_tip finalized_only m). rewrite u64_sub_small by lia.
  assert (Hhints : (∃ older, as_ref <$> kept_below from (seg m) = older ++ conflict_hints m (from - 1) ∧
      (older ≠ [] → length (conflict_hints m (from - 1)) = 100%nat)) ∧ (length (conflict_hints m (from - 1)) <= 100)%nat).
  { destruct (conflict_hints_spec m (from - 1) Hw) as (older & E & Hl & Ho). rewrite Z.sub_add in E. eauto. }
  unfold m_first. destruct (match b_number <$> head (seg m) with Some _ => _ | None => false end) eqn:Elow.
  { destruct (head (seg m)) as [a|]; [|done]. cbn in Elow. exists a. split; [done|]. zbool. lia. }
  assert (Hlow : ∀ a, head (seg m) = Some a → b_number a <= from).
  { intros a Ea. rewrite Ea in Elow. cbn in Elow. zbool. lia. }
  destruct (query_tip finalized_only m) as [t|] eqn:Et; [|destruct expected; done].
  destruct (tip_stored _ _ _ Hw Et) as (b & Hb & Hbt).
  assert (Hbn : 0 <= number t < u64_max).
  { destruct Hn as [_ Hn]. rewrite Forall_forall in Hn. rewrite <-Hbt. by apply (Hn b). }
  rewrite u64_add_small by lia.
  destruct (match expected with Some _ => _ | None => false end) eqn:Etip.
  { destruct expected as [e|]; [|done]. zbool. apply bool_decide_eq_false in H0. exists e, (hash t).
    split; [done|]. split; [|split; [congruence|exact Hhints]]. rewrite m_hash_at_spec by done.
    replace (from - 1 + 1) with (b_number b + 1) by (rewrite <-Hbt in H; simpl in H; lia).
    rewrite kept_upto_block by done. by subst t. }
  rewrite Z.gtb_ltb. destruct (Z.ltb_spec (number t) from) as [Hgt|Hle]; [by intros ? [= <-]|].
  destruct expected as [e|].
  - destruct (m_hash_at m (from - 1)) as [h|] eqn:Eh.
    + clear Etip. case_bool_decide as Eq; cbn [negb].
      * exists t. split_and!; [done..|]. intros ? ? [= <-] [= <-]. done.
      * exists e, h. split_and!; try done; apply Hhints.
    + cbn. exists t. by split_and!.
  - exists t. by split_and!.
Qed.

Module ForkResolutionExamples.
Definition blk (n : Z) (h : string) (pn : Z) (ph : string) : Block := mkBlock n h pn ph 0 0.
(** Blocks 5, 6 and 8 (slot 7 is empty) above the anchor 4; block 5 is final. *)
Definition window : Model :=
  mkModel [blk 5 "e" 4 "d"; blk 6 "f" 5 "e"; blk 8 "h" 6 "f"] (mkAnchor 4 (Some "d")) (Some (mkBlockRef 5 "e")) 3.
Lemma window_ok : model_ok window.
Proof.
  split; [apply wf_spec; vm_compute; reflexivity|]. split; [cbn; unfold u64_max; lia|].
  repeat constructor; cbn; unfold u64_max; lia.
Qed.
Definition signal : list BlockRef := [mkBlockRef 4 "d"; mkBlockRef 6 "f"; mkBlockRef 8 "z"].

Lemma oracle_fork_resumable_witness : ∃ m',
  resolve_fork signal window = Ok (Resume 7 (Some "f")) ∧
  replace 7 [blk 7 "y" 6 "f"; blk 8 "z" 7 "y"] None window = (m', Ok tt) ∧ b_number <$> seg m' = [5; 6; 7; 8].
Proof.
  destruct (oracle_fork_resumable window signal 7 (Some "f") [blk 7 "y" 6 "f"; blk 8 "z" 7 "y"] (blk 7 "y" 6 "f"))
    as (m' & E & Es & _).
  - exact window_ok.
  - repeat constructor; cbn; unfold u64_max; lia.
  - vm_compute. reflexivity.
  - vm_compute. reflexivity.
  - reflexivity.
  - cbn. lia.
  - intros h [= <-]. reflexivity.
  - intros z [= <-]. reflexivity.
  - intros s0 [= <-]. cbn. lia.
  - exists m'. split; [vm_compute; reflexivity|]. split; [exact E|]. rewrite Es. vm_compute. reflexivity.
Defined.

Lemma oracle_query_exact_witness :
  predict_query 7 None false (Some "z") window = Conflict [mkBlockRef 5 "e"; mkBlockRef 6 "f"] ∧
  m_hash_at window (7 - 1) = Some "f" ∧ "f" ≠ "z".
Proof.
  pose proof (oracle_query_exact window 7 None false (Some "z") window_ok) as H.
  assert (Hr : 1 <= 7 <= u64_max) by (unfold u64_max; lia). specialize (H Hr).
  assert (E : predict_query 7 None false (Some "z") window = Conflict [mkBlockRef 5 "e"; mkBlockRef 6 "f"])
    by (vm_compute; reflexivity).
  rewrite E in H. destruct H as (e & h & Ee & Eh & Hne & _). injection Ee as <-.
  split; [exact E|]. vm_compute in Eh. injection Eh as <-. split; [vm_compute; reflexivity|exact Hne].
Defined.

(** A match at the anchor of a window that starts above a hole: the oracle says to resume at
    5, and refuses the replacement that does. *)
Definition sparse : Model := mkModel [blk 6 "f" 4 "d"] (mkAnchor 4 (Some "d")) None 1.
Lemma anchor_match_refused :
  wf sparse = Ok tt ∧ resolve_fork [mkBlockRef 4 "d"] sparse = Ok (Resume 5 (Some "d")) ∧
  replace 5 [blk 5 "y" 4 "d"] None sparse = (sparse, Err (EMsg "INV-14: REPLACE is below the window floor")).
Proof. vm_compute. repeat split. Qed.
End ForkResolutionExamples.
