(* ===== verification/Bds.v ===== *)
(** * Bds: the in-memory chain of the block data service

    Models crates/bds/src/chain.rs, util.rs, chain_watch.rs, the fork handling of
    ingest/grow.rs, the writer state of ingest/write.rs, the restore of the chain from the
    database of cassandra/ingest.rs and the partitions of cassandra/store.rs.  A double-ended
    queue is a list; a method on [&mut self] returns the value after the call. *)

From stdpp Require Import list.
From S2P Require Import Prelude Data WriteController.

(** The trait [sqd_primitives::Block]. *)
Class ChainBlock (B : Type) := {
  cb_number : B → Z;
  cb_hash : B → string;
  cb_parent_number : B → Z;
  cb_parent_hash : B → string
}.
Definition block_ptr `{ChainBlock B} (b : B) : BlockRef := mkBlockRef (cb_number b) (cb_hash b).
Definition parent_ptr `{ChainBlock B} (b : B) : BlockRef := mkBlockRef (cb_parent_number b) (cb_parent_hash b).

(** ** Searches (util.rs) *)

(** The loop of [bisect]: [beg] is below the searched number, [end_] is not. *)
Fixpoint bisect_loop (fuel : nat) (numbers : list Z) (n : Z) (beg end_ : nat) : res nat :=
  match fuel with
  | O => Panic "out of fuel"
  | S fuel =>
      if (1 <? end_ - beg)%nat then
        let mid := (beg + Nat.div2 (end_ - beg))%nat in
        match numbers !! mid with
        | None => Panic "index out of bounds"
        | Some x =>
            match Z.compare x n with
            | Lt => bisect_loop fuel numbers n mid end_
            | Eq => Ok mid
            | Gt => bisect_loop fuel numbers n beg mid
            end
        end
      else Ok end_
  end.

(** The first probe uses that numbers ascend by at least one. *)
Definition bisect (numbers : list Z) (n : Z) : res nat :=
  match length numbers with
  | O => Ok 0%nat
  | S end_ =>
      match numbers !! end_ with
      | None => Panic "index out of bounds"
      | Some top =>
          match Z.compare top n with
          | Lt => Ok (end_ + 1)%nat
          | Eq => Ok end_
          | Gt =>
              let beg := (end_ - Z.to_nat (top - n))%nat in
              match numbers !! beg with
              | None => Panic "index out of bounds"
              | Some x => if n <=? x then Ok beg else bisect_loop (S end_) numbers n beg end_
              end
          end
      end
  end.

Definition pop {A} (l : list A) : list A := removelast l.

(** [while prev.last().map_or(false, f) { *prev = pop(prev) }] *)
Definition pop_while {A} (f : A → bool) (l : list A) : list A := reverse (drop_while f (reverse l)).

Fixpoint compute_fork_base (reversed_chain prev : list BlockRef) : option BlockRef :=
  match reversed_chain with
  | [] => None
  | b :: chain =>
      if match last prev with Some p => number p <? number b | None => false end then compute_fork_base chain prev
      else
        let prev := pop_while (λ p, number b <? number p) prev in
        match last prev with
        | None => Some b
        | Some p => if bool_decide (b = p) then Some b else compute_fork_base chain (pop prev)
        end
  end.

(** ** The chain (chain.rs) *)

Record HeadChain : Type := mkHeadChain { hc_blocks : list BlockRef; hc_first_finalized : bool }.
Definition head_chain_empty : HeadChain := mkHeadChain [] false.

Section chain.
Context {B : Type} `{ChainBlock B}.

Record Chain : Type := mkChain {
  c_chain : list BlockRef;
  c_fin : bool;
  c_blocks : list B;
  c_stored : list bool;
  c_min_size : nat
}.

Definition chain_new (h : HeadChain) (min_size : nat) : res Chain :=
  if (hc_first_finalized h && bool_decide (hc_blocks h = []))%bool
  then Panic "assertion failed: !(chain.first_finalized && chain.blocks.is_empty())"
  else Ok (mkChain (hc_blocks h) (hc_first_finalized h) [] [] min_size).

Definition c_len (s : Chain) : nat := length (c_blocks s).
Definition c_base (s : Chain) : option BlockRef := parent_ptr <$> head (c_blocks s).
Definition c_bisect (s : Chain) (n : Z) : res nat := bisect (cb_number <$> c_blocks s) n.
Definition c_is_stored (s : Chain) (i : nat) : res bool :=
  match c_stored s !! i with Some b => Ok b | None => Panic "index out of bounds" end.

(** The block becomes the head of all three queues. *)
Definition append (b : B) (s : Chain) : Chain :=
  mkChain (c_chain s ++ [block_ptr b]) (c_fin s) (c_blocks s ++ [b]) (c_stored s ++ [false]) (c_min_size s).
Definition drop_head (s : Chain) : Chain :=
  mkChain (removelast (c_chain s)) (c_fin s) (removelast (c_blocks s)) (removelast (c_stored s)) (c_min_size s).

Fixpoint push_loop (fuel : nat) (b : B) (s : Chain) : Chain * res unit :=
  match fuel with
  | O => (s, Panic "out of fuel")
  | S fuel =>
      match last (c_chain s) with
      | None => (append b s, Ok tt)
      | Some prev =>
          if bool_decide (prev = parent_ptr b) then (append b s, Ok tt)
          else if cb_parent_number b >? number prev then (s, Err (EMsg "block is missing"))
          else if c_fin s then
            if (1 <? length (c_chain s))%nat then push_loop fuel b (drop_head s)
            else (s, Err (EMsg "block is not based on finalized head"))
          else if (length (c_chain s) =? length (c_blocks s))%nat then push_loop fuel b (drop_head s)
          else (s, Panic "assertion `left == right` failed")
      end
  end.
Definition push (b : B) (s : Chain) : Chain * res unit := push_loop (S (length (c_chain s))) b s.

Definition mark_stored (n : Z) (h : string) (s : Chain) : res (Chain * bool) :=
  pos ← c_bisect s n;
  match c_blocks s !! pos with
  | None => Ok (s, false)
  | Some b =>
      if (negb (cb_number b =? n) || negb (bool_decide (cb_hash b = h)))%bool then Ok (s, false)
      else if (pos <? length (c_stored s))%nat
      then Ok (mkChain (c_chain s) (c_fin s) (c_blocks s) (<[pos := true]> (c_stored s)) (c_min_size s), true)
      else Panic "index out of bounds"
  end.

Fixpoint clean_loop (n : nat) (s : Chain) (dropped : bool) : res (Chain * bool) :=
  match n with
  | O => Ok (s, dropped)
  | S n =>
      match head (c_stored s) with
      | None => Panic "index out of bounds"
      | Some true =>
          clean_loop n (mkChain (if c_fin s then c_chain s else tail (c_chain s)) (c_fin s) (tail (c_blocks s))
                          (tail (c_stored s)) (c_min_size s)) true
      | Some false => Ok (s, dropped)
      end
  end.
Definition clean (s : Chain) : res (Chain * bool) := clean_loop (c_len s - c_min_size s) s false.

Definition finalize_all (s : Chain) : Chain :=
  match c_chain s, last (c_chain s) with
  | [], _ | _, None => s
  | [_], _ => mkChain (c_chain s) true (c_blocks s) (c_stored s) (c_min_size s)
  | _, Some head => mkChain [head] true (c_blocks s) (c_stored s) (c_min_size s)
  end.

Definition chain_finalize (h : BlockRef) (s : Chain) : Chain * res bool :=
  match head (c_chain s), last (c_chain s) with
  | Some front, Some back =>
      if number h <? number front then (s, Ok false)
      else if number back <? number h then
        if (1 <? length (c_chain s))%nat then (finalize_all s, Ok true) else (s, Ok false)
      else
        match bisect (number <$> c_chain s) (number h) with
        | Ok pos =>
            match c_chain s !! pos with
            | None => (s, Panic "index out of bounds")
            | Some x =>
                if bool_decide (x = h) then
                  (mkChain (drop pos (c_chain s)) true (c_blocks s) (c_stored s) (c_min_size s),
                   Ok (negb (c_fin s) || (0 <? pos)%nat))
                else (s, Err (EMsg "block is not part of a chain"))
            end
        | Err e => (s, Err e)
        | Panic m => (s, Panic m)
        end
  | _, _ => (s, Ok false)
  end.

Definition stored_head (s : Chain) : res (option BlockRef) :=
  match list_find (λ is_stored, is_stored = false) (c_stored s) with
  | None => Ok (last (c_chain s))
  | Some (i, _) =>
      match c_blocks s !! i with
      | Some b => Ok (Some (parent_ptr b))
      | None => Panic "index out of bounds"
      end
  end.

(** [for i in (0..=top).rev()]: the highest stored index. *)
Fixpoint last_stored (s : Chain) (top : nat) : res (option BlockRef) :=
  match c_stored s !! top, c_blocks s !! top with
  | Some true, Some b => Ok (Some (block_ptr b))
  | Some false, _ => match top with O => Ok None | S top => last_stored s top end
  | _, _ => Panic "index out of bounds"
  end.
Definition stored_finalized_head (s : Chain) : res (option BlockRef) :=
  if negb (c_fin s) then Ok None
  else if (length (c_blocks s) <? length (c_chain s))%nat then
    match head (c_chain s) with Some b => Ok (Some b) | None => Panic "index out of bounds" end
  else last_stored s (length (c_blocks s) - length (c_chain s)).

Definition c_head (s : Chain) : option BlockRef := last (c_chain s).

Definition chain_fork_base (prev : list BlockRef) (s : Chain) : res (option BlockRef) :=
  match compute_fork_base (reverse (c_chain s)) prev with
  | Some head => Ok (Some head)
  | None => if (c_fin s && negb (bool_decide (c_chain s = [])))%bool
            then Err (EMsg "rollback below finalized head") else Ok None
  end.

(** ** The watched chain (chain_watch.rs): the flag says whether receivers are notified *)

Definition watch_mark_stored (n : Z) (h : string) (s : Chain) : res (Chain * bool) :=
  '(s, marked) ← mark_stored n h s;
  if marked : bool then clean s else Ok (s, false).

Definition watch_finalize (h : BlockRef) (s : Chain) : Chain * res bool * bool :=
  match chain_finalize h s with
  | (s, Ok changed) => (s, Ok changed, changed)
  | (s, r) => (s, r, false)
  end.

Definition watch_push (max_size : nat) (is_final : bool) (b : B) (s : Chain) : Chain * res bool :=
  match push b s with
  | (s, Ok _) =>
      let size := c_len s in
      (if is_final then finalize_all s else s, Ok (size <=? max_size)%nat)
  | (s, Err e) => (s, Err e)
  | (s, Panic m) => (s, Panic m)
  end.

(** ** Forks (ingest/grow.rs)

    The result is the position the data source is moved to. *)
Definition grow_handle_fork (prev : list BlockRef) (first_block : Z) (parent_block_hash : option string)
    (next : Z) (next_parent : option string) (s : Chain) : res (Z * option string) :=
  _ ← ensure (bool_decide (is_Some next_parent)) (EMsg "condition failed");
  _ ← ensure (negb (bool_decide (prev = []))) (EMsg "got a fork event with no previous blocks");
  _ ← ensure (ascending prev) (EMsg "previous blocks are not in ascending order");
  if ((first_block =? next) && bool_decide (next_parent = parent_block_hash))%bool
  then Err (EMsg "first requested block has an unexpected parent")
  else
    match list_find (λ b, first_block <= number b) prev with
    | None => Ok (first_block, parent_block_hash)
    | Some (offset, _) =>
        base ← chain_fork_base (drop offset prev) s;
        match base with
        | Some head =>
            if first_block <=? number head then Ok (u64_add (number head) 1, Some (hash head))
            else Ok (first_block, parent_block_hash)
        | None => Ok (first_block, parent_block_hash)
        end
    end.

(** ** Writes (ingest/write.rs) *)

Record WriteState : Type := mkWriteState {
  ws_pending : list B;
  ws_max_pending : nat;
  ws_last_block : Z;
  ws_waits_new_block : bool
}.
Definition write_state_new (max_pending : nat) : res WriteState :=
  if (0 <? max_pending)%nat then Ok (mkWriteState [] max_pending 0 false)
  else Panic "assertion failed: max_pending > 0".

Definition has_capacity (w : WriteState) : bool := (length (ws_pending w) <? ws_max_pending w)%nat.
Definition is_pending (w : WriteState) (b : B) : bool :=
  bool_decide (block_ptr b ∈ block_ptr <$> ws_pending w).

Fixpoint find_position_loop (w : WriteState) (s : Chain) (pos : nat) : res nat :=
  stored ← c_is_stored s pos;
  b ← match c_blocks s !! pos with Some b => Ok b | None => Panic "index out of bounds" end;
  if (stored || is_pending w b)%bool then Ok (S pos)
  else match pos with O => Ok O | S pos => find_position_loop w s pos end.
Definition find_position (w : WriteState) (s : Chain) : res nat :=
  if bool_decide (c_blocks s = []) then Ok 0%nat
  else
    pos ← c_bisect s (ws_last_block w);
    find_position_loop w s (Nat.min pos (c_len s - 1)).

(** [advance]: the state and the blocks whose write is started. *)
Definition advance (w : WriteState) (s : Chain) : res (WriteState * list B) :=
  if negb (has_capacity w) then Ok (w, [])
  else
    pos ← find_position w s;
    let end_ := Nat.min (pos + ws_max_pending w - length (ws_pending w)) (c_len s) in
    let started := take (end_ - pos) (drop pos (c_blocks s)) in
    Ok (mkWriteState (ws_pending w ++ started) (ws_max_pending w)
          (match last started with Some b => cb_number b | None => ws_last_block w end)
          (end_ =? c_len s)%nat, started).

Definition ready (b : B) (w : WriteState) : WriteState :=
  mkWriteState (filter (λ x, block_ptr x ≠ block_ptr b) (ws_pending w)) (ws_max_pending w)
    (ws_last_block w) (ws_waits_new_block w).
End chain.
Arguments Chain : clear implicits.
Arguments WriteState : clear implicits.

(** ** Blocks (block.rs, data_source.rs) *)

Record Header : Type := mkHeader {
  hd_number : Z;
  hd_hash : string;
  hd_parent_number : Z;
  hd_parent_hash : string;
  hd_timestamp : option Z;
  hd_is_final : bool
}.
#[export] Instance header_block : ChainBlock Header := {|
  cb_number := hd_number; cb_hash := hd_hash; cb_parent_number := hd_parent_number; cb_parent_hash := hd_parent_hash
|}.

(** The header of a parsed JSON block. *)
Record JsonBlockHeader : Type := mkJsonHeader {
  jh_number : Z;
  jh_hash : string;
  jh_parent_hash : string;
  jh_parent_number : option Z;
  jh_timestamp : option Z
}.
Definition parse_header (j : JsonBlockHeader) : res Header :=
  _ ← match jh_parent_number j with
      | Some p => ensure ((p <? jh_number j) || (jh_number j =? 0))%bool (EMsg "condition failed")
      | None => Ok tt
      end;
  Ok (mkHeader (jh_number j) (jh_hash j) (default (Z.max 0 (jh_number j - 1)) (jh_parent_number j))
        (jh_parent_hash j) (jh_timestamp j) false).

(** ** The restored chain (cassandra/ingest.rs, cassandra/store.rs) *)

(** A page of blocks and the end of the partition it is from. *)
Record BlockBatch : Type := mkBatch { bb_blocks : list Header; bb_partition_end : Z }.

(** The blocks of one page: [chain] holds the blocks found so far, highest first; the flag
    says that a final block was met. *)
Fixpoint scan_batch (bs : list Header) (chain : list BlockRef) (expected : BlockRef) : list BlockRef * BlockRef * bool :=
  match bs with
  | [] => (chain, expected, false)
  | b :: bs =>
      if (bool_decide (block_ptr b = expected) || bool_decide (chain = []))%bool then
        if hd_is_final b then (chain ++ [block_ptr b], parent_ptr b, true)
        else scan_batch bs (chain ++ [block_ptr b]) (parent_ptr b)
      else scan_batch bs chain expected
  end.

Fixpoint build_loop (batches : list (res BlockBatch)) (chain : list BlockRef) (expected : BlockRef)
  : res (list BlockRef * BlockRef * bool) :=
  match batches with
  | [] => Ok (chain, expected, false)
  | batch :: batches =>
      batch ← batch;
      let '(chain, expected, final) := scan_batch (bb_blocks batch) chain expected in
      if final : bool then Ok (chain, expected, true)
      else
        _ ← ensure (number expected <=? bb_partition_end batch) (EMsg "block is missing in the database");
        build_loop batches chain expected
  end.

Definition build_chain (batches : list (res BlockBatch)) (first_block : Z) (parent_hash : option string)
  : res HeadChain :=
  '(chain, expected, final) ← build_loop batches [] (mkBlockRef 0 "");
  if bool_decide (chain = []) then Ok (mkHeadChain chain final)
  else
    _ ← ensure (final || (number expected <? first_block) || (first_block =? 0))%bool
          (EMsg "block is missing in the database");
    _ ← match parent_hash with
        | Some h => if number expected <? first_block
                    then ensure (bool_decide (hash expected = h)) (EMsg "the chain is not based on the parent")
                    else Ok tt
        | None => Ok tt
        end;
    Ok (mkHeadChain (reverse chain) final).

(** [validate_chain_base] over the pages in ascending order. *)
Fixpoint base_in_batch (bs : list Header) (first_block : Z) (parent_hash : string) : option bool :=
  match bs with
  | [] => None
  | b :: bs =>
      if first_block <=? hd_parent_number b then Some false
      else if bool_decide (hd_parent_hash b = parent_hash) then Some true
      else base_in_batch bs first_block parent_hash
  end.
Fixpoint validate_chain_base (batches : list (res BlockBatch)) (first_block : Z) (parent_hash : string) : res unit :=
  match batches with
  | [] => Err (EMsg "blocks are present, but none is based on the parent")
  | batch :: batches =>
      batch ← batch;
      match base_in_batch (bb_blocks batch) first_block parent_hash with
      | Some true => Ok tt
      | Some false => Err (EMsg "blocks are present, but none is based on the parent")
      | None => validate_chain_base batches first_block parent_hash
      end
  end.

Definition get_partition (partition_size block_number : Z) : Z := (block_number / partition_size) * partition_size.

(** The iterator of [split_into_partitions] over [start..end_]; [fuel] bounds the items. *)
Fixpoint split_loop (reverse_ : bool) (partition_size : Z) (fuel : nat) (start end_ : Z) : list (Z * Z) :=
  match fuel with
  | O => []
  | S fuel =>
      if end_ <=? start then []
      else if reverse_ then
        let s := Z.max start (get_partition partition_size (u64_sub end_ 1)) in
        (s, u64_sub end_ 1) :: split_loop reverse_ partition_size fuel start s
      else
        let e := u64_add (get_partition partition_size start) partition_size in
        (start, u64_sub e 1) :: split_loop reverse_ partition_size fuel e end_
  end.
Definition split_into_partitions (reverse_ : bool) (partition_size first_block last_block : Z) : list (Z * Z) :=
  let end_ := u64_add last_block 1 in
  split_loop reverse_ partition_size (S (Z.to_nat (end_ - first_block))) first_block end_.
