(* ===== verification/BdsProps.v ===== *)
(** * BdsProps: the chain of the block data service

    The searches are exact, the three queues of the chain stay aligned whatever is pushed,
    stored, cleaned and finalized, a fork never removes the finalized head, the heads that
    are reported are stored, and a restored chain is linked. *)

From stdpp Require Import list.
From S2P Require Import Prelude Data WriteController ControllerSpec Bds.

(** ** Binary search *)

(** Consecutive numbers ascend by at least one. *)
Definition strictly (l : list Z) : Prop := StronglySorted Z.lt l.

Lemma strictly_lookup l i j x y : strictly l → l !! i = Some x → l !! j = Some y → (i <= j)%nat →
  x + Z.of_nat (j - i) <= y.
Proof.
  intros Hs. revert i j x y. induction Hs as [|a l Hl IH Hf]; intros i j x y; [by rewrite lookup_nil|].
  destruct i as [|i], j as [|j]; cbn; intros Hx Hy Hij; [simplify_eq; lia| |lia|].
  - injection Hx as <-. rewrite Forall_lookup in Hf.
    destruct l as [|b l]; [done|].
    assert (a < b) by (apply (Hf 0%nat); done).
    pose proof (IH 0%nat j b y eq_refl Hy ltac:(lia)) as H0. rewrite Nat.sub_0_r in H0. lia.
  - apply (IH i j x y); [done..|lia].
Qed.

(** The index below which exactly the smaller numbers are. *)
Definition splits_at (l : list Z) (n : Z) (i : nat) : Prop :=
  (i <= length l)%nat ∧ (∀ j x, l !! j = Some x → (j < i)%nat → x < n) ∧
  (∀ j x, l !! j = Some x → (i <= j)%nat → n <= x).

Lemma splits_by l n i : strictly l → (i <= length l)%nat →
  (∀ x, l !! pred i = Some x → (0 < i)%nat → x < n) → (∀ x, l !! i = Some x → n <= x) → splits_at l n i.
Proof.
  intros Hs Hi Hb Ha. split; [done|]. split; intros j x Hx Hj.
  - destruct (lookup_lt_is_Some_2 l (pred i)) as [y Hy]; [lia|]. specialize (Hb y Hy ltac:(lia)).
    pose proof (strictly_lookup l j (pred i) x y Hs Hx Hy ltac:(lia)). lia.
  - assert (Hl : (j < length l)%nat) by (by eapply lookup_lt_Some).
    destruct (lookup_lt_is_Some_2 l i) as [y Hy]; [lia|]. specialize (Ha y Hy).
    pose proof (strictly_lookup l i j y x Hs Hy Hx Hj). lia.
Qed.

Lemma bisect_loop_spec l n fuel : ∀ beg end_, strictly l → (end_ < length l)%nat → (beg < end_)%nat →
  (∀ x, l !! beg = Some x → x < n) → (∀ x, l !! end_ = Some x → n <= x) → (end_ - beg < fuel)%nat →
  ∃ i, bisect_loop fuel l n beg end_ = Ok i ∧ splits_at l n i.
Proof.
  induction fuel as [|fuel IH]; intros beg end_ Hs Hl Hbe Hb He Hf; [lia|]. cbn [bisect_loop].
  destruct (Nat.ltb_spec 1 (end_ - beg)) as [Hgap|Hgap].
  - assert (Hd : (0 < Nat.div2 (end_ - beg) < end_ - beg)%nat).
    { rewrite Nat.div2_div. split; [apply Nat.div_str_pos; lia|apply Nat.div_lt; lia]. }
    destruct (lookup_lt_is_Some_2 l (beg + Nat.div2 (end_ - beg))) as [x Hx]; [lia|]. rewrite Hx.
    destruct (Z.compare_spec x n) as [E|E|E].
    + eexists. split; [done|]. apply splits_by; [done|lia| |].
      * intros y Hy _. pose proof (strictly_lookup l _ _ y x Hs Hy Hx ltac:(lia)). lia.
      * intros y Hy. simplify_eq. lia.
    + apply IH; [done|lia|lia| |done|lia]. intros y Hy. by simplify_eq.
    + apply IH; [done|lia|lia|done| |lia]. intros y Hy. simplify_eq. lia.
  - eexists. split; [done|]. apply splits_by; [done|lia| |done]. intros x Hx _. apply Hb. replace beg with (pred end_) by lia. done.
Qed.

Lemma bisect_total l n : strictly l → ∃ i, bisect l n = Ok i ∧ splits_at l n i.
Proof.
  intros Hs. unfold bisect. destruct (length l) as [|e] eqn:El.
  { exists 0%nat. split; [done|]. destruct l; [|done]. split; [done|]. split; intros j x Hj; by rewrite lookup_nil in Hj. }
  destruct (lookup_lt_is_Some_2 l e) as [t Ht]; [lia|]. rewrite Ht. destruct (Z.compare_spec t n) as [E|E|E].
  - exists e. split; [done|]. apply splits_by; [done|lia| |intros x Hx; simplify_eq; lia].
    intros x Hx ?. pose proof (strictly_lookup l _ _ x t Hs Hx Ht ltac:(lia)). lia.
  - exists (e + 1)%nat. split; [done|]. apply splits_by; [done|lia| |].
    + intros x Hx _. replace (pred (e + 1)) with e in Hx by lia. by simplify_eq.
    + intros x Hx. apply lookup_lt_Some in Hx. lia.
  - set (beg := (e - Z.to_nat (t - n))%nat). destruct (lookup_lt_is_Some_2 l beg) as [x Hx]; [lia|]. rewrite Hx.
    pose proof (strictly_lookup l _ _ x t Hs Hx Ht ltac:(lia)) as Hgap.
    destruct (Z.leb_spec n x) as [Hle|Hlt].
    + exists beg. split; [done|]. apply splits_by; [done|lia| |intros y Hy; by simplify_eq].
      intros y Hy Hpos. pose proof (strictly_lookup l _ _ y t Hs Hy Ht ltac:(lia)). lia.
    + apply bisect_loop_spec; [done|lia| |intros y Hy; by simplify_eq|intros y Hy; simplify_eq; lia|lia].
      destruct (decide (beg = e)) as [E'|]; [|lia]. rewrite E' in Hx. simplify_eq. lia.
Qed.

(** The reference definition: how many numbers are smaller. *)
Lemma splits_count l n i : splits_at l n i → i = length (filter (λ x, x < n) l).
Proof.
  intros (Hi & Hb & Ha). rewrite <-(take_drop i l) at 1. rewrite filter_app, length_app.
  rewrite list_filter_all, list_filter_none; [rewrite length_take; simpl; lia| |].
  - intros x (j & Hj)%list_elem_of_lookup. rewrite lookup_drop in Hj. specialize (Ha _ _ Hj ltac:(lia)). lia.
  - intros x (j & Hj)%list_elem_of_lookup. apply lookup_take_Some in Hj as [Hj ?]. by apply (Hb j).
Qed.

(** The interpolating binary search is exact.  On strictly ascending numbers it never
    indexes out of range, its loop ends within the length of the list, and it returns how many
    numbers are smaller than the searched one, which is where that number is or would be
    inserted; the first probe, which assumes that numbers ascend by at least one, is sound. *)
Theorem bisect_exact l n : strictly l → bisect l n = Ok (length (filter (λ x, x < n) l)).
Proof. intros Hs. destruct (bisect_total l n Hs) as (i & -> & Hi). f_equal. by apply splits_count. Qed.

(** ** The invariant of the chain *)

Section chain.
Context {B : Type} `{ChainBlock B}.
Implicit Types (s : Chain B) (b : B).

Definition refs s : list BlockRef := block_ptr <$> c_blocks s.
Definition parent_of (a b : B) : Prop := parent_ptr b = block_ptr a.

(** A block comes after its parent. *)
Definition after_parent b : Prop := cb_parent_number b < cb_number b.

(** The queues are suffixes of one ascending list of references, in which every queued block
    follows its parent.  Unless a finalized head is known, both are the same. *)
Record aligned s (full : list BlockRef) : Prop := {
  al_asc : strictly (number <$> full);
  al_refs : ∃ pre, full = pre ++ refs s ∧ ∀ p b, last pre = Some p → head (c_blocks s) = Some b → parent_ptr b = p;
  al_chain : ∃ cut, full = cut ++ c_chain s;
  al_linked : Chain.adjacent parent_of (c_blocks s);
  al_after : Forall after_parent (c_blocks s)
}.
Record chain_ok s : Prop := {
  co_stored : length (c_stored s) = length (c_blocks s);
  co_aligned : ∃ full, aligned s full;
  co_sync : c_fin s = false → c_chain s = refs s;
  co_fin : c_fin s = true → c_chain s ≠ []
}.

Lemma strictly_app l k : strictly (l ++ k) → strictly l ∧ strictly k.
Proof.
  unfold strictly. induction l as [|x l IH]; cbn; [by split; [constructor|]|].
  intros [Hs Hf]%StronglySorted_inv. apply IH in Hs as [? ?]. apply Forall_app in Hf as [? ?].
  by split; [constructor|].
Qed.

Lemma chain_strictly s : chain_ok s → strictly (number <$> c_chain s).
Proof.
  intros Hs. destruct (co_aligned _ Hs) as [full [Ha _ [cut ->] _ _]]. rewrite fmap_app in Ha.
  by apply strictly_app in Ha as [_ ?].
Qed.
Lemma blocks_strictly s : chain_ok s → strictly (cb_number <$> c_blocks s).
Proof.
  intros Hs. destruct (co_aligned _ Hs) as [full [Ha (pre & -> & _) _ _ _]]. rewrite fmap_app in Ha.
  apply strictly_app in Ha as [_ Ha]. unfold refs in Ha. by rewrite <-list_fmap_compose in Ha.
Qed.

(** Every list is empty or has a last element. *)
Lemma removelast_snoc {A} (l : list A) x : removelast (l ++ [x]) = l.
Proof. apply removelast_last. Qed.
Lemma length_removelast {A} (l : list A) : length (removelast l) = pred (length l).
Proof. destruct l as [|x l _] using rev_ind; [done|]. rewrite removelast_snoc, length_app. simpl. lia. Qed.
Lemma fmap_removelast {A A'} (f : A → A') (l : list A) : f <$> removelast l = removelast (f <$> l).
Proof. destruct l as [|x l _] using rev_ind; [done|]. rewrite fmap_app, removelast_snoc. symmetry. apply removelast_snoc. Qed.
Lemma removelast_app_ne {A} (l k : list A) : k ≠ [] → removelast (l ++ k) = l ++ removelast k.
Proof. intros Hk. by rewrite removelast_app. Qed.

Lemma adjacent_removelast {A} (R : A → A → Prop) l : Chain.adjacent R l → Chain.adjacent R (removelast l).
Proof. destruct l as [|x l _] using rev_ind; [done|]. rewrite removelast_snoc. by intros [? _]%Chain.adjacent_snoc. Qed.

Lemma drop_head_ok s : chain_ok s → c_chain s ≠ [] → (c_fin s = true → (1 < length (c_chain s))%nat) →
  chain_ok (drop_head s).
Proof.
  intros Hs Hne Hf. destruct (co_aligned _ Hs) as [full Ha]. constructor; cbn.
  - by rewrite !length_removelast, (co_stored _ Hs).
  - exists (removelast full). destruct Ha as [Hasc (pre & E & Hp) [cut Ec] Hl Hap]. constructor; cbn.
    + rewrite fmap_removelast. destruct (number <$> full) as [|x l _] using rev_ind; [done|].
      rewrite removelast_snoc. by apply strictly_app in Hasc as [? _].
    + unfold refs. cbn. rewrite fmap_removelast. fold (refs s). destruct (c_blocks s) as [|b0 bs _] eqn:Eb using rev_ind.
      * unfold refs in E. rewrite Eb in E. cbn in E. rewrite app_nil_r in E. subst full. exists (removelast pre).
        unfold refs. rewrite Eb. by rewrite app_nil_r.
      * exists pre. unfold refs in *. rewrite Eb in E |- *. rewrite fmap_app, removelast_snoc in *.
        change (block_ptr <$> [b0]) with [block_ptr b0] in *. rewrite removelast_snoc. split.
        -- rewrite E, app_assoc. apply removelast_snoc.
        -- intros p b Ep Ehd. apply (Hp p b Ep). destruct bs; [done|exact Ehd].
    + exists cut. rewrite Ec. by apply removelast_app_ne.
    + by apply adjacent_removelast.
    + destruct (c_blocks s) as [|x l _] using rev_ind; [constructor|]. rewrite removelast_snoc. by apply Forall_app in Hap as [? _].
  - intros E. rewrite (co_sync _ Hs E). unfold refs. cbn. by rewrite fmap_removelast.
  - intros E. specialize (Hf E). intros En. apply (f_equal length) in En. rewrite length_removelast in En. simpl in En. lia.
Qed.

Lemma append_ok b s : chain_ok s → after_parent b →
  (c_chain s = [] ∨ last (c_chain s) = Some (parent_ptr b)) → chain_ok (append b s).
Proof.
  intros Hs Hb Hor. constructor; cbn.
  - rewrite !length_app, (co_stored _ Hs). done.
  - destruct (co_aligned _ Hs) as [full [Hasc (pre & E & Hp) [cut Ec] Hl Hap]].
    destruct Hor as [En|El].
    + destruct (c_fin s) eqn:Ef; [by destruct (co_fin _ Hs Ef)|]. pose proof (co_sync _ Hs Ef) as Es.
      rewrite En in Es. unfold refs in Es. symmetry in Es. apply fmap_nil_inv in Es.
      exists [block_ptr b]. constructor; unfold refs; cbn; rewrite ?Es, ?En; cbn; [repeat constructor| | |done|by repeat constructor].
      * exists []. by split.
      * by exists [].
    + exists (full ++ [block_ptr b]).
      assert (Elast : last full = Some (parent_ptr b)) by (rewrite Ec, last_app, El; done).
      constructor; cbn.
      * rewrite fmap_app. apply StronglySorted_snoc. split; [done|]. apply Forall_forall. intros x Hx.
        apply list_elem_of_fmap in Hx as (y & -> & Hy). apply last_Some in Elast as [l ->]. rewrite fmap_app in Hasc.
        apply StronglySorted_snoc in Hasc as [_ Hf]. rewrite Forall_forall in Hf.
        apply elem_of_app in Hy as [Hy|Hy%list_elem_of_singleton]; cbn.
        -- specialize (Hf (number y)). unfold after_parent in Hb. cbn in Hf.
           assert (number y < cb_parent_number b) by (apply Hf, list_elem_of_fmap; by exists y). lia.
        -- subst y. exact Hb.
      * exists pre. unfold refs. cbn. rewrite fmap_app, app_assoc. split; [by rewrite E|].
        intros p x Epre Ex. destruct (c_blocks s) as [|y bs] eqn:Eb; cbn in Ex; [|by apply Hp].
        injection Ex as <-. unfold refs in E. rewrite Eb in E. cbn in E. rewrite app_nil_r in E. congruence.
      * exists cut. by rewrite Ec, app_assoc.
      * apply Chain.adjacent_snoc. split; [done|]. destruct (last (c_blocks s)) as [z|] eqn:Ez; [|done].
        unfold parent_of. assert (Eb : last full = Some (block_ptr z)).
        { rewrite E, last_app. unfold refs. by rewrite fmap_last, Ez. }
        congruence.
      * apply Forall_app. by repeat constructor.
  - intros Ef. rewrite (co_sync _ Hs Ef). unfold refs. cbn. by rewrite fmap_app.
  - intros _ En. by destruct (c_chain s).
Qed.

(** What pushing does to the chain: a suffix makes room, the rest ends in the parent. *)
Definition pushed b s (o : Chain B * res unit) : Prop :=
  match o with
  | (s', Ok _) => chain_ok s' ∧ c_fin s' = c_fin s ∧ ∃ kept dropped, c_chain s = kept ++ dropped ∧
      c_chain s' = kept ++ [block_ptr b] ∧
      (last kept = Some (parent_ptr b) ∨ kept = [] ∧ c_fin s = false) ∧
      Forall (λ x, cb_parent_number b <= number x ∧ x ≠ parent_ptr b) dropped
  | (s', Err _) => chain_ok s' ∧ c_fin s' = c_fin s ∧
      ∃ kept prev dropped, c_chain s = kept ++ prev :: dropped ∧ c_chain s' = kept ++ [prev] ∧ prev ≠ parent_ptr b ∧
      (number prev < cb_parent_number b ∨ c_fin s = true ∧ kept = [])
  | (_, Panic _) => False
  end.

Lemma push_loop_spec b fuel : ∀ s, chain_ok s → after_parent b → (length (c_chain s) < fuel)%nat →
  pushed b s (push_loop fuel b s).
Proof.
  induction fuel as [|fuel IH]; intros s Hs Hb Hf; [lia|]. cbn [push_loop].
  destruct (last (c_chain s)) as [prev|] eqn:El.
  2: { apply last_None in El. split; [apply append_ok; auto|]. split; [done|]. exists [], []. cbn. rewrite El.
       split_and!; try done. right. split; [done|]. destruct (c_fin s) eqn:E; [by destruct (co_fin _ Hs E)|done]. }
  pose proof El as (l & Ech)%last_Some.
  case_bool_decide as Ep.
  { subst prev. split; [apply append_ok; auto|]. split; [done|]. exists (c_chain s), []. cbn. rewrite app_nil_r.
    split_and!; try done. by left. }
  destruct (cb_parent_number b >? number prev) eqn:Egt; rewrite Z.gtb_ltb in Egt; zbool.
  { split; [done|]. split; [done|]. exists l, prev, []. split_and!; try done. by left. }
  assert (Hrec : chain_ok (drop_head s) → pushed b s (push_loop fuel b (drop_head s))).
  { intros Hd. specialize (IH (drop_head s) Hd Hb).
    assert (Hlen : (length (c_chain (drop_head s)) < fuel)%nat).
    { cbn. rewrite length_removelast, Ech in *. rewrite length_app in *. simpl in *. lia. }
    specialize (IH Hlen). assert (Edrop : c_chain (drop_head s) = l) by (cbn; by rewrite Ech, removelast_snoc).
    destruct (push_loop fuel b (drop_head s)) as [s' [u|e|m]]; [| |done]; cbn in IH |- *.
    - destruct IH as (Hs' & Efin & kept & dropped & E1 & E2 & E3 & E4). rewrite Ech, removelast_snoc in E1.
      split; [done|]. split; [done|]. exists kept, (dropped ++ [prev]). rewrite Ech, E1, <-app_assoc.
      split_and!; try done. apply Forall_app. split; [done|]. repeat constructor; [lia|done].
    - destruct IH as (Hs' & Efin & kept & p & dropped & E1 & E2 & E3 & E4). rewrite Ech, removelast_snoc in E1.
      split; [done|]. split; [done|]. exists kept, p, (dropped ++ [prev]). rewrite Ech, E1, <-app_assoc. done. }
  destruct (c_fin s) eqn:Efin.
  - destruct (Nat.ltb_spec 1 (length (c_chain s))) as [Hlen|Hlen].
    + apply Hrec, drop_head_ok; [done| |auto]. intros En. by rewrite En in El.
    + split; [done|]. split; [done|]. exists l, prev, []. split_and!; try done. right. split; [done|].
      rewrite Ech, length_app in Hlen. simpl in Hlen. destruct l; [done|]. simpl in Hlen. lia.
  - rewrite (co_sync _ Hs Efin). unfold refs. rewrite length_fmap, Nat.eqb_refl.
    apply Hrec, drop_head_ok; [done| |congruence]. intros En. by rewrite En in El.
Qed.

Lemma push_spec b s : chain_ok s → after_parent b → pushed b s (push b s).
Proof. intros Hs Hb. apply push_loop_spec; [done..|lia]. Qed.

(** ** Stored marks and cleaning *)

Lemma stored_ok s st : chain_ok s → length st = length (c_stored s) →
  chain_ok (mkChain (c_chain s) (c_fin s) (c_blocks s) st (c_min_size s)).
Proof.
  intros [Hl [full [H1 H2 H3 H4 H5]] Hy Hf] El. constructor; cbn; [congruence| |done|done]. exists full. by constructor.
Qed.

Lemma mark_stored_spec n h s : chain_ok s →
  ∃ s' marked, mark_stored n h s = Ok (s', marked) ∧ chain_ok s' ∧ c_chain s' = c_chain s ∧ c_fin s' = c_fin s ∧
    c_blocks s' = c_blocks s ∧
    ∀ i b, c_blocks s !! i = Some b →
      c_stored s' !! i = if decide (block_ptr b = mkBlockRef n h) then Some true else c_stored s !! i.
Proof.
  intros Hs. unfold mark_stored, c_bisect.
  destruct (bisect_total _ n (blocks_strictly s Hs)) as (pos & -> & (_ & Hbel & Habv)). cbn [mbind res_bind].
  assert (Hother : ∀ i b, c_blocks s !! i = Some b → block_ptr b = mkBlockRef n h → i = pos).
  { intros i b Hi [= En _]. assert (Hin : (cb_number <$> c_blocks s) !! i = Some n) by (rewrite list_lookup_fmap, Hi; cbn; congruence).
    destruct (decide (i < pos)%nat) as [Hlt|Hge]; [specialize (Hbel i n Hin Hlt); lia|].
    destruct (decide (i = pos)) as [|Hne]; [done|]. exfalso.
    destruct (lookup_lt_is_Some_2 (cb_number <$> c_blocks s) pos) as [x Hx]; [apply lookup_lt_Some in Hin; lia|].
    pose proof (strictly_lookup _ pos i x n (blocks_strictly s Hs) Hx Hin ltac:(lia)).
    specialize (Habv pos x Hx ltac:(lia)). lia. }
  destruct (c_blocks s !! pos) as [b|] eqn:Eb.
  2: { eexists _, _. split; [done|]. split_and!; try done. intros i b Hi. case_decide as E; [|done].
       rewrite (Hother i b Hi E) in Hi. congruence. }
  destruct (negb (cb_number b =? n) || negb (bool_decide (cb_hash b = h)))%bool eqn:Em.
  { eexists _, _. split; [done|]. split_and!; try done. intros i x Hi.
    destruct (decide (block_ptr x = mkBlockRef n h)) as [E|]; [|done].
    rewrite (Hother i x Hi E) in Hi. rewrite Hi in Eb. injection Eb as <-. injection E as E1 E2.
    rewrite E1, E2, Z.eqb_refl, bool_decide_true in Em by done. done. }
  zbool. apply bool_decide_eq_true in H1.
  assert (Hlt : (pos < length (c_stored s))%nat) by (rewrite (co_stored _ Hs); by eapply lookup_lt_Some).
  rewrite (proj2 (Nat.ltb_lt _ _) Hlt). eexists _, _. split; [done|].
  split; [apply stored_ok; [done|apply length_insert]|]. split_and!; try done. cbn. intros i x Hi.
  destruct (decide (i = pos)) as [->|Hne].
  - rewrite list_lookup_insert_eq by done. rewrite Hi in Eb. injection Eb as ->. unfold block_ptr.
    by rewrite decide_True by congruence.
  - rewrite list_lookup_insert_ne by done. case_decide as E; [|done]. by destruct (Hne (Hother i x Hi E)).
Qed.

Lemma clean_step_ok s b bs st : chain_ok s → c_blocks s = b :: bs → c_stored s = true :: st →
  chain_ok (mkChain (if c_fin s then c_chain s else tail (c_chain s)) (c_fin s) bs st (c_min_size s)).
Proof.
  intros Hs Eb Est. destruct (co_aligned _ Hs) as [full [Hasc (pre & E & Hp) [cut Ec] Hl Hap]].
  rewrite Eb in Hap. apply Forall_cons in Hap as [_ Hap]. pose proof (co_stored _ Hs) as Hlen. rewrite Eb, Est in Hlen. rewrite Eb in Hl.
  assert (Hlink : Chain.adjacent parent_of bs ∧ ∀ x, head bs = Some x → parent_ptr x = block_ptr b).
  { destruct bs as [|x bs]; [by split|]. destruct Hl as [? ?]. split; [done|]. by intros ? [= <-]. }
  destruct (c_fin s) eqn:Ef; constructor; cbn; try done; try (simpl in Hlen; lia).
  - exists full. constructor; cbn; [done| |by exists cut|apply Hlink|done].
    exists (pre ++ [block_ptr b]). unfold refs in *. rewrite Eb in E. cbn in *. rewrite <-app_assoc. split; [done|].
    intros p x Ep Ex. rewrite last_snoc in Ep. injection Ep as <-. by apply Hlink.
  - intros _. by apply (co_fin _ Hs).
  - pose proof (co_sync _ Hs Ef) as Es. unfold refs in Es. rewrite Eb in Es. rewrite Es. cbn.
    exists (block_ptr <$> bs). constructor; cbn; [| |by exists []|apply Hlink|done].
    + pose proof (blocks_strictly s Hs) as Hb. rewrite Eb in Hb. rewrite <-list_fmap_compose.
      cbn in Hb. by apply StronglySorted_inv in Hb as [? _].
    + exists []. by split.
  - intros _. rewrite (co_sync _ Hs Ef). unfold refs. by rewrite Eb.
Qed.

Lemma clean_loop_spec n : ∀ s dropped, chain_ok s → (n <= c_len s)%nat →
  ∃ s' d, clean_loop n s dropped = Ok (s', d) ∧ chain_ok s' ∧ c_fin s' = c_fin s ∧
    (c_fin s = true → c_chain s' = c_chain s) ∧ c_min_size s' = c_min_size s ∧
    ∃ k, (k <= n)%nat ∧ c_blocks s' = drop k (c_blocks s) ∧ c_stored s' = drop k (c_stored s) ∧
      Forall (λ x, x = true) (take k (c_stored s)).
Proof.
  induction n as [|n IH]; intros s dropped Hs Hn; cbn [clean_loop].
  { eexists _, _. split; [done|]. split_and!; try done. exists 0%nat. by split_and!. }
  pose proof (co_stored _ Hs) as Hlen. unfold c_len in Hn.
  destruct (c_stored s) as [|x st] eqn:Est; [simpl in Hlen; lia|]. destruct (c_blocks s) as [|b bs] eqn:Eb; [simpl in *; lia|].
  cbn [head]. destruct x.
  2: { eexists _, _. split; [done|]. split_and!; try done. exists 0%nat. rewrite Est, Eb. split_and!; try done. lia. }
  cbn [tail]. destruct (IH _ true (clean_step_ok s b bs st Hs Eb Est)) as (s' & d & -> & Hs' & Ef & Ec & Em & k & Hk & E1 & E2 & E3).
  { cbn. simpl in Hn. lia. }
  cbn in *. eexists _, _. split; [done|]. split_and!; try done.
  - intros E. rewrite Ec by done. by rewrite E.
  - exists (S k). split; [lia|]. split_and!; try done. cbn. by constructor.
Qed.

Lemma clean_spec s : chain_ok s → ∃ s' d, clean s = Ok (s', d) ∧ chain_ok s' ∧ c_fin s' = c_fin s ∧
  (c_fin s = true → c_chain s' = c_chain s) ∧ c_min_size s' = c_min_size s ∧
  ∃ k, (k <= c_len s - c_min_size s)%nat ∧ c_blocks s' = drop k (c_blocks s) ∧ c_stored s' = drop k (c_stored s) ∧
    Forall (λ x, x = true) (take k (c_stored s)).
Proof. intros Hs. apply clean_loop_spec; [done|]. lia. Qed.

(** ** Finality *)

(** Moving the finalized head up the chain. *)
Lemma cut_ok s k : chain_ok s → (k < length (c_chain s))%nat →
  chain_ok (mkChain (drop k (c_chain s)) true (c_blocks s) (c_stored s) (c_min_size s)).
Proof.
  intros [Hl [full [H1 H2 [cut Ec] H4 H5]] Hy Hf] Hk. constructor; cbn; [done| |done|].
  - exists full. constructor; cbn; [done|done| |done|done]. exists (cut ++ take k (c_chain s)).
    by rewrite <-app_assoc, take_drop.
  - intros _ En. apply (f_equal length) in En. rewrite length_drop in En. simpl in En. lia.
Qed.

Lemma finalize_all_cut s : c_chain s ≠ [] →
  finalize_all s = mkChain (drop (pred (length (c_chain s))) (c_chain s)) true (c_blocks s) (c_stored s) (c_min_size s).
Proof.
  intros Hne. unfold finalize_all. destruct (c_chain s) as [|x [|y l]] eqn:E; [done|done|].
  destruct (last (x :: y :: l)) as [z|] eqn:Ez; [|by apply last_None in Ez]. rewrite last_cons_cons in Ez.
  f_equal. apply last_Some in Ez as [k Ek].
  assert (Hk : length l = length k) by (apply (f_equal length) in Ek; rewrite length_app in Ek; simpl in Ek; lia).
  change (drop (pred (length (x :: y :: l))) (x :: y :: l)) with (drop (length l) (y :: l)).
  by rewrite Hk, Ek, drop_app_length.
Qed.

Lemma finalize_all_ok s : chain_ok s → chain_ok (finalize_all s).
Proof.
  intros Hs. destruct (c_chain s) as [|x l] eqn:E.
  { unfold finalize_all. by rewrite E. }
  rewrite finalize_all_cut by (by rewrite E). apply cut_ok; [done|]. rewrite E. simpl. lia.
Qed.

(** The finalized head only moves up. *)
Definition fin_grows s s' : Prop := c_fin s = true → c_fin s' = true ∧
  ∀ f, head (c_chain s) = Some f → ∃ f', head (c_chain s') = Some f' ∧ (f' = f ∨ number f < number f').

Lemma fin_grows_refl s s' : c_fin s' = c_fin s → (c_fin s = true → c_chain s' = c_chain s) → fin_grows s s'.
Proof. intros E1 E2 Ef. split; [congruence|]. intros f Hf. exists f. rewrite E2 by done. eauto. Qed.
Lemma fin_grows_trans s1 s2 s3 : fin_grows s1 s2 → fin_grows s2 s3 → fin_grows s1 s3.
Proof.
  intros H1 H2 Ef. destruct (H1 Ef) as [E2 Hf2]. destruct (H2 E2) as [E3 Hf3]. split; [done|].
  intros f Hf. destruct (Hf2 f Hf) as (f2 & Hh & Ho). destruct (Hf3 f2 Hh) as (f3 & ? & Ho3). exists f3. split; [done|].
  destruct Ho as [->|?], Ho3 as [->|?]; auto; right; lia.
Qed.

Lemma cut_grows s k : chain_ok s → (k < length (c_chain s))%nat →
  fin_grows s (mkChain (drop k (c_chain s)) true (c_blocks s) (c_stored s) (c_min_size s)).
Proof.
  intros Hs Hk _. split; [done|]. cbn. intros f Hf. destruct (lookup_lt_is_Some_2 (c_chain s) k Hk) as [f' Hf'].
  exists f'. split; [by rewrite head_lookup, lookup_drop, Nat.add_0_r|].
  destruct k as [|k]; [left; rewrite head_lookup in Hf; congruence|right].
  rewrite head_lookup in Hf. pose proof (strictly_lookup _ 0 (S k) (number f) (number f') (chain_strictly s Hs)) as Hlt.
  rewrite !list_lookup_fmap, Hf, Hf' in Hlt. specialize (Hlt eq_refl eq_refl ltac:(lia)). lia.
Qed.

Lemma push_grows b s s' : chain_ok s → after_parent b → (push b s = (s', Ok tt) ∨ ∃ e, push b s = (s', Err e)) →
  fin_grows s s'.
Proof.
  intros Hs Hb Ho Ef. pose proof (push_spec b s Hs Hb) as Hp. destruct Ho as [E|[e E]]; rewrite E in Hp.
  - destruct Hp as (_ & -> & kept & dropped & E1 & -> & Hk & _). split; [done|]. intros f Hf. exists f. split; [|by left].
    destruct Hk as [Hk|[_ ?]]; [|congruence]. rewrite E1 in Hf. destruct kept; [done|exact Hf].
  - destruct Hp as (_ & -> & kept & p & dropped & E1 & -> & _). split; [done|]. intros f Hf. exists f. split; [|by left].
    rewrite E1 in Hf. destruct kept; exact Hf.
Qed.

Lemma chain_finalize_spec h s : chain_ok s →
  match chain_finalize h s with
  | (s', Ok changed) => chain_ok s' ∧ fin_grows s s' ∧ c_blocks s' = c_blocks s ∧ c_stored s' = c_stored s ∧
      (changed = false → c_chain s' = c_chain s) ∧
      (c_chain s' = c_chain s ∧ c_fin s' = c_fin s ∨ c_fin s' = true ∧ (head (c_chain s') = Some h ∨
         ∃ z, last (c_chain s) = Some z ∧ number z < number h ∧ c_chain s' = [z]))
  | (s', Err _) => s' = s ∧ ∃ x, x ∈ c_chain s ∧ number h <= number x ∧ x ≠ h ∧ h ∉ c_chain s
  | (_, Panic _) => False
  end.
Proof.
  intros Hs. unfold chain_finalize. destruct (head (c_chain s)) as [front|] eqn:Eh.
  2: { split_and!; try done; [by apply fin_grows_refl|by left]. }
  destruct (last (c_chain s)) as [back|] eqn:Ez.
  2: { split_and!; try done; [by apply fin_grows_refl|by left]. }
  assert (Hne : c_chain s ≠ []) by (intros E; by rewrite E in Eh).
  destruct (Z.ltb_spec (number h) (number front)) as [|Hlo].
  { split_and!; try done; [by apply fin_grows_refl|by left]. }
  destruct (Z.ltb_spec (number back) (number h)) as [Hhi|Hhi].
  - destruct (Nat.ltb_spec 1 (length (c_chain s))).
    + assert (Hk : (pred (length (c_chain s)) < length (c_chain s))%nat) by lia.
      split; [by apply finalize_all_ok|]. rewrite finalize_all_cut by done. split_and!; try done; [by apply cut_grows|].
      right. split; [done|]. right. exists back. cbn. split_and!; try done.
      apply last_Some in Ez as [l El]. rewrite El, length_app. replace (pred (length l + length [back])) with (length l) by (simpl; lia).
      by rewrite drop_app_length.
    + split_and!; try done; [by apply fin_grows_refl|by left].
  - destruct (bisect_total _ (number h) (chain_strictly s Hs)) as (pos & -> & (Hp & Hb & Ha)).
    assert (Hlen : (pos < length (c_chain s))%nat).
    { destruct (decide (pos < length (c_chain s))%nat); [done|]. exfalso.
      rewrite last_lookup in Ez. assert (Hn : (number <$> c_chain s) !! pred (length (c_chain s)) = Some (number back))
        by (by rewrite list_lookup_fmap, Ez).
      specialize (Hb _ _ Hn). destruct (c_chain s); [done|]. simpl in *. lia. }
    destruct (lookup_lt_is_Some_2 (c_chain s) pos Hlen) as [x Hx]. rewrite Hx.
    assert (Hxn : (number <$> c_chain s) !! pos = Some (number x)) by (by rewrite list_lookup_fmap, Hx).
    case_bool_decide as E.
    + subst x. split; [by apply cut_ok|]. split; [by apply cut_grows|]. split_and!; try done.
      * cbn. intros Hc. apply orb_false_iff in Hc as [_ Hc]. by destruct pos.
      * right. split; [done|]. left. cbn. by rewrite head_lookup, lookup_drop, Nat.add_0_r.
    + split; [done|]. exists x. split; [by eapply list_elem_of_lookup_2|]. split; [by apply (Ha pos)|]. split; [done|].
      intros (j & Hj)%list_elem_of_lookup. assert (Hjn : (number <$> c_chain s) !! j = Some (number h))
        by (by rewrite list_lookup_fmap, Hj).
      destruct (decide (j < pos)%nat) as [Hlt|Hge]; [specialize (Hb j _ Hjn Hlt); lia|].
      pose proof (strictly_lookup _ pos j _ _ (chain_strictly s Hs) Hxn Hjn ltac:(lia)) as Hle.
      specialize (Ha pos _ Hxn ltac:(lia)). assert (j = pos) by lia. subst j. congruence.
Qed.

(** ** Reported heads *)

Lemma stored_head_spec s : chain_ok s → ∃ o, stored_head s = Ok o ∧
  ∀ h, o = Some h → ∀ i b, c_blocks s !! i = Some b → cb_number b <= number h → c_stored s !! i = Some true.
Proof.
  intros Hs. unfold stored_head. pose proof (co_stored _ Hs) as Hlen.
  destruct (list_find _ (c_stored s)) as [[k x]|] eqn:E.
  - apply list_find_Some in E as (Hk & -> & Hfirst).
    destruct (lookup_lt_is_Some_2 (c_blocks s) k) as [b Hb]; [rewrite <-Hlen; by eapply lookup_lt_Some|]. rewrite Hb.
    eexists. split; [done|]. intros h [= <-] i x Hi Hle. cbn in Hle.
    destruct (lookup_lt_is_Some_2 (c_stored s) i) as [v Hv]; [rewrite Hlen; by eapply lookup_lt_Some|].
    assert (Hik : (i < k)%nat).
    { destruct (decide (i < k)%nat); [done|exfalso].
      destruct (co_aligned _ Hs) as [full [_ _ _ _ Hap]].
      assert (Hpar : after_parent b) by (rewrite Forall_lookup in Hap; by apply (Hap k)). unfold after_parent in Hpar.
      pose proof (strictly_lookup _ k i (cb_number b) (cb_number x) (blocks_strictly s Hs)) as Hlt.
      rewrite !list_lookup_fmap, Hb, Hi in Hlt. specialize (Hlt eq_refl eq_refl ltac:(lia)). lia. }
    rewrite Hv. specialize (Hfirst i v Hv Hik). by destruct v.
  - eexists. split; [done|]. intros h _ i b Hi _.
    destruct (lookup_lt_is_Some_2 (c_stored s) i) as [v Hv]; [rewrite Hlen; by eapply lookup_lt_Some|].
    apply list_find_None in E. rewrite Forall_lookup in E. specialize (E i v Hv). rewrite Hv. by destruct v.
Qed.

Lemma last_stored_spec s top : length (c_stored s) = length (c_blocks s) → (top < length (c_blocks s))%nat →
  ∃ o, last_stored s top = Ok o ∧
    match o with
    | Some f => ∃ i b, (i <= top)%nat ∧ c_blocks s !! i = Some b ∧ block_ptr b = f ∧ c_stored s !! i = Some true ∧
        ∀ j, (i < j <= top)%nat → c_stored s !! j = Some false
    | None => ∀ j, (j <= top)%nat → c_stored s !! j = Some false
    end.
Proof.
  intros Hlen. induction top as [|top IH]; intros Ht; cbn [last_stored].
  all: destruct (lookup_lt_is_Some_2 (c_blocks s) _ Ht) as [b Hb]; rewrite Hb.
  all: destruct (lookup_lt_is_Some_2 (c_stored s) _ (eq_ind_r (λ n, (_ < n)%nat) Ht Hlen)) as [v Hv]; rewrite Hv.
  - destruct v.
    + eexists. split; [done|]. exists 0%nat, b. split_and!; try done. intros j ?. lia.
    + eexists. split; [done|]. intros j Hj. by replace j with 0%nat by lia.
  - destruct v.
    + eexists. split; [done|]. exists (S top), b. split_and!; try done. intros j ?. lia.
    + destruct (IH ltac:(lia)) as (o & -> & Ho). exists o. split; [done|]. destruct o as [f|].
      * destruct Ho as (i & b' & Hi & E1 & E2 & E3 & E4). exists i, b'. split_and!; try done; [lia|].
        intros j Hj. destruct (decide (j = S top)) as [->|]; [done|]. apply E4. lia.
      * intros j Hj. destruct (decide (j = S top)) as [->|]; [done|]. apply Ho. lia.
Qed.

(** The finalized head is above what is reported as finalized and stored. *)
Lemma stored_finalized_head_spec s : chain_ok s → ∃ o, stored_finalized_head s = Ok o ∧
  ∀ f, o = Some f → c_fin s = true ∧ (∃ h, head (c_chain s) = Some h ∧ number f <= number h) ∧
    (f ∈ c_chain s ∨ ∃ i b, c_blocks s !! i = Some b ∧ block_ptr b = f ∧ c_stored s !! i = Some true).
Proof.
  intros Hs. unfold stored_finalized_head. destruct (c_fin s) eqn:Ef; cbn [negb]; [|by eexists].
  pose proof (co_fin _ Hs Ef) as Hne. destruct (c_chain s) as [|h l] eqn:Ech; [done|]. cbn [head].
  destruct (Nat.ltb_spec (length (c_blocks s)) (length (h :: l))) as [Hlt|Hge].
  { eexists. split; [done|]. intros f [= <-]. split; [done|]. split; [exists h; split; [done|lia]|]. left. lmem. }
  assert (Htop : (length (c_blocks s) - length (h :: l) < length (c_blocks s))%nat) by (simpl in *; lia).
  destruct (last_stored_spec s _ (co_stored _ Hs) Htop) as (o & -> & Ho). exists o. split; [done|].
  intros f ->. destruct Ho as (i & b & Hi & Hb & <- & Hst & _). split; [done|]. split; [|right; eauto].
  exists h. split; [done|]. destruct (co_aligned _ Hs) as [full [Hasc (pre & E & _) [cut Ec] _ _]].
  rewrite Ech in Ec. assert (Hh : full !! (length cut) = Some h) by (by rewrite Ec, list_lookup_middle).
  assert (Hf : full !! (length pre + i)%nat = Some (block_ptr b)).
  { rewrite E, lookup_app_r by lia. replace (length pre + i - length pre)%nat with i by lia.
    unfold refs. by rewrite list_lookup_fmap, Hb. }
  assert (Hlen : (length pre + length (c_blocks s) = length cut + length (h :: l))%nat).
  { pose proof (f_equal length E) as E1. pose proof (f_equal length Ec) as E2. unfold refs in E1.
    rewrite length_app, length_fmap in E1. rewrite length_app in E2. lia. }
  pose proof (strictly_lookup _ (length pre + i) (length cut) (number (block_ptr b)) (number h) Hasc) as Hle.
  rewrite !list_lookup_fmap, Hf, Hh in Hle. specialize (Hle eq_refl eq_refl ltac:(lia)). lia.
Qed.

(** ** Runs *)

Inductive chain_op : Type :=
| OpPush (is_final : bool) (b : B)
| OpStored (n : Z) (h : string)
| OpFinalize (h : BlockRef).

(** One call through the watch; an error ends the task, so the state after it is not used. *)
Definition run_op (max_size : nat) (op : chain_op) (s : Chain B) : res (Chain B) :=
  match op with
  | OpPush is_final b =>
      match watch_push max_size is_final b s with (s, Ok _) => Ok s | (_, Err e) => Err e | (_, Panic m) => Panic m end
  | OpStored n h => '(s, _) ← watch_mark_stored n h s; Ok s
  | OpFinalize h =>
      match watch_finalize h s with (s, Ok _, _) => Ok s | (_, Err e, _) => Err e | (_, Panic m, _) => Panic m end
  end.
Definition op_ok (op : chain_op) : Prop := match op with OpPush _ b => after_parent b | _ => True end.

Lemma finalize_all_grows s : chain_ok s → fin_grows s (finalize_all s).
Proof.
  intros Hs. destruct (c_chain s) as [|x l] eqn:E.
  - unfold finalize_all. rewrite E. by apply fin_grows_refl.
  - rewrite finalize_all_cut by (by rewrite E). apply cut_grows; [done|]. rewrite E. simpl. lia.
Qed.

Lemma run_op_ok max_size op s : chain_ok s → op_ok op → safe (run_op max_size op s) ∧
  ∀ s', run_op max_size op s = Ok s' → chain_ok s' ∧ fin_grows s s'.
Proof.
  intros Hs Hop. destruct op as [is_final b|n h|h]; cbn [run_op].
  - unfold watch_push. pose proof (push_spec b s Hs Hop) as Hp.
    destruct (push b s) as [s1 [[]|e|m]] eqn:E; [|by split|done]. split; [done|]. intros s' [= <-].
    destruct Hp as (Hs1 & _). pose proof (push_grows b s s1 Hs Hop (or_introl E)) as Hg. destruct is_final; [|done].
    split; [by apply finalize_all_ok|]. eapply fin_grows_trans; [exact Hg|by apply finalize_all_grows].
  - unfold watch_mark_stored. destruct (mark_stored_spec n h s Hs) as (s1 & marked & -> & Hs1 & E1 & E2 & _).
    cbn [mbind res_bind]. destruct marked.
    + destruct (clean_spec s1 Hs1) as (s2 & d & -> & Hs2 & E3 & E4 & _). split; [done|]. intros s' [= <-].
      split; [done|]. apply fin_grows_refl; [congruence|]. intros Ef. rewrite E4 by congruence. done.
    + split; [done|]. intros s' [= <-]. split; [done|]. by apply fin_grows_refl.
  - unfold watch_finalize. pose proof (chain_finalize_spec h s Hs) as Hf.
    destruct (chain_finalize h s) as [s1 [c|e|m]]; [|by split|done]. split; [done|]. intros s' [= <-]. by destruct Hf as (? & ? & _).
Qed.

Fixpoint run_ops (max_size : nat) (ops : list chain_op) (s : Chain B) : res (Chain B) :=
  match ops with [] => Ok s | op :: ops => s ← run_op max_size op s; run_ops max_size ops s end.

(** A chain that starts with a finalized block, or empty. *)
Definition startable (h : HeadChain) : Prop :=
  strictly (number <$> hc_blocks h) ∧ (hc_first_finalized h = true ↔ hc_blocks h ≠ []).

Lemma chain_new_ok h min_size : startable h → ∃ s, chain_new h min_size = Ok s ∧ chain_ok s.
Proof.
  intros [Hs Hf]. unfold chain_new. destruct (hc_first_finalized h) eqn:E.
  - cbn. rewrite bool_decide_false by (by apply Hf). eexists. split; [done|]. constructor; cbn; [done| |done|by intros _; apply Hf].
    exists (hc_blocks h). constructor; cbn; [done| |by exists []|done|constructor]. exists (hc_blocks h). unfold refs. cbn.
    by rewrite app_nil_r.
  - cbn. eexists. split; [done|]. assert (Hn : hc_blocks h = []).
    { destruct (hc_blocks h); [done|]. exfalso. assert (false = true) as [=]. by apply Hf. }
    rewrite Hn. constructor; cbn; [done| |done|done]. exists []. constructor; cbn; [constructor| |by exists []|done|constructor].
    exists []. by split.
Qed.

Lemma run_ops_ok max_size ops : ∀ s, chain_ok s → Forall op_ok ops → safe (run_ops max_size ops s) ∧
  ∀ s', run_ops max_size ops s = Ok s' → chain_ok s' ∧ fin_grows s s'.
Proof.
  induction ops as [|op ops IH]; intros s Hs Ho; cbn [run_ops].
  { split; [done|]. intros s' [= <-]. split; [done|]. by apply fin_grows_refl. }
  apply Forall_cons in Ho as [Ho Hops]. destruct (run_op_ok max_size op s Hs Ho) as [Hsafe Hok].
  destruct (run_op max_size op s) as [s1|e|m]; [|by split|by destruct (Hsafe m)].
  destruct (Hok s1 eq_refl) as [Hs1 Hg]. destruct (IH s1 Hs1 Hops) as [Hsafe' Hok']. split; [done|].
  intros s' E. destruct (Hok' s' E) as [Hs' Hg']. split; [done|]. by eapply fin_grows_trans.
Qed.

(** ** What the store has confirmed *)

(** The references of the chain that are not queued any more. *)
Definition behind s : list BlockRef := take (length (c_chain s) - length (c_blocks s)) (c_chain s).

(** [K] are the blocks the store has confirmed: every block flagged as stored, and every
    reference behind the queue, is one of them. *)
Record confirmed (K : list BlockRef) s : Prop := {
  cf_flags i b : c_blocks s !! i = Some b → c_stored s !! i = Some true → block_ptr b ∈ K;
  cf_behind f : f ∈ behind s → f ∈ K
}.

Lemma confirmed_mono K K' s : (∀ f, f ∈ K → f ∈ K') → confirmed K s → confirmed K' s.
Proof. intros HK [H1 H2]. constructor; eauto. Qed.

Lemma removelast_lookup {A} (l : list A) i x : removelast l !! i = Some x → l !! i = Some x.
Proof.
  destruct l as [|y l _] using rev_ind; [done|]. rewrite removelast_snoc. intros Hi.
  by rewrite lookup_app_l by (by eapply lookup_lt_Some).
Qed.

Lemma append_confirmed K b s : chain_ok s → confirmed K s → confirmed K (append b s).
Proof.
  intros Hs [Hf Hb]. constructor; cbn.
  - intros i x Hi Hst. pose proof (co_stored _ Hs) as Hl. apply lookup_app_Some in Hst as [Hst|[Hge Hst]].
    + rewrite lookup_app_l in Hi by (rewrite <-Hl; by eapply lookup_lt_Some). eauto.
    + apply list_lookup_singleton_Some in Hst as [_ [=]].
  - intros f. unfold behind. cbn. rewrite !length_app, take_app_le by (simpl; lia). simpl.
    replace (length (c_chain s) + 1 - (length (c_blocks s) + 1))%nat with (length (c_chain s) - length (c_blocks s))%nat by lia.
    apply Hb.
Qed.

Lemma drop_head_confirmed K s : confirmed K s → confirmed K (drop_head s).
Proof.
  intros [Hf Hb]. constructor; cbn.
  - intros i b Hi%removelast_lookup Hst%removelast_lookup. eauto.
  - intros f (j & Hj)%list_elem_of_lookup. apply Hb, list_elem_of_lookup. exists j. unfold behind in *. cbn in Hj.
    apply lookup_take_Some in Hj as [Hj Hlt]. rewrite !length_removelast in Hlt. apply removelast_lookup in Hj.
    apply lookup_take_Some. split; [done|]. lia.
Qed.

Lemma push_loop_confirmed K b fuel : ∀ s, chain_ok s → after_parent b → confirmed K s →
  confirmed K (push_loop fuel b s).1.
Proof.
  induction fuel as [|fuel IH]; intros s Hs Hb Hc; cbn [push_loop]; [done|].
  destruct (last (c_chain s)) as [prev|] eqn:El; [|by apply append_confirmed].
  case_bool_decide; [by apply append_confirmed|]. case_if; [done|].
  assert (Hne : c_chain s ≠ []) by (intros En; by rewrite En in El).
  destruct (c_fin s) eqn:Ef.
  - destruct (Nat.ltb_spec 1 (length (c_chain s))); [|done].
    apply IH; [apply drop_head_ok; auto|done|by apply drop_head_confirmed].
  - case_if; [|done]. apply IH; [apply drop_head_ok; [done|done|congruence]|done|by apply drop_head_confirmed].
Qed.

Lemma cut_confirmed K s k fin : confirmed K s → (k < length (c_chain s))%nat →
  confirmed K (mkChain (drop k (c_chain s)) fin (c_blocks s) (c_stored s) (c_min_size s)).
Proof.
  intros [Hf Hb] Hk. constructor; cbn; [done|]. intros f (j & Hj)%list_elem_of_lookup. apply Hb, list_elem_of_lookup.
  exists (k + j)%nat. unfold behind in *. cbn in Hj. rewrite length_drop in Hj. apply lookup_take_Some in Hj as [Hj Hlt].
  rewrite lookup_drop in Hj. apply lookup_take_Some. split; [done|]. lia.
Qed.
Lemma finalize_all_confirmed K s : confirmed K s → confirmed K (finalize_all s).
Proof.
  intros Hc. destruct (c_chain s) as [|x l] eqn:E; [unfold finalize_all; by rewrite E|].
  rewrite finalize_all_cut by (by rewrite E). apply cut_confirmed; [done|]. rewrite E. simpl. lia.
Qed.
Lemma finalize_confirmed K h s : confirmed K s → confirmed K (chain_finalize h s).1.
Proof.
  intros Hc. unfold chain_finalize. destruct (head (c_chain s)); [|done]. destruct (last (c_chain s)); [|done].
  case_if; [done|]. case_if; [case_if; [by apply finalize_all_confirmed|done]|].
  destruct (bisect _ _) as [pos| |]; [|done..]. destruct (c_chain s !! pos) eqn:E; [|done]. case_bool_decide; [|done].
  apply cut_confirmed; [done|by eapply lookup_lt_Some].
Qed.

(** The queue and the chain are the ends of one list, so they overlap position by position. *)
Lemma overlap s i j b f : chain_ok s → c_blocks s !! i = Some b → c_chain s !! j = Some f →
  (i + length (c_chain s) = j + length (c_blocks s))%nat → block_ptr b = f.
Proof.
  intros Hs Hi Hj E. destruct (co_aligned _ Hs) as [full [_ (pre & Ep & _) [cut Ec] _ _]].
  pose proof (f_equal length Ep) as E1. pose proof (f_equal length Ec) as E2. unfold refs in E1.
  rewrite length_app, length_fmap in E1. rewrite length_app in E2.
  assert (H1 : full !! (length pre + i)%nat = Some (block_ptr b)).
  { rewrite Ep, lookup_app_r by lia. replace (length pre + i - length pre)%nat with i by lia.
    unfold refs. by rewrite list_lookup_fmap, Hi. }
  assert (H2 : full !! (length cut + j)%nat = Some f).
  { rewrite Ec, lookup_app_r by lia. by replace (length cut + j - length cut)%nat with j by lia. }
  replace (length cut + j)%nat with (length pre + i)%nat in H2 by lia. congruence.
Qed.

Lemma clean_confirmed K s s' d : chain_ok s → confirmed K s → clean s = Ok (s', d) → confirmed K s'.
Proof.
  intros Hs [Hf Hb] E. destruct (clean_spec s Hs) as (s1 & d1 & E1 & Hs1 & Ef & Ec & _ & k & Hk & Eb & Est & Htrue).
  rewrite E in E1. injection E1 as <- <-. constructor.
  - rewrite Eb, Est. intros i b. rewrite !lookup_drop. apply Hf.
  - intros f (j & Hj)%list_elem_of_lookup. unfold behind in Hj. apply lookup_take_Some in Hj as [Hj Hlt].
    destruct (c_fin s) eqn:Efin.
    2: { assert (En : length (c_chain s') = length (c_blocks s')) by (rewrite (co_sync _ Hs1) by done; apply length_fmap). lia. }
    rewrite Ec in Hj, Hlt by done. rewrite Eb, length_drop in Hlt.
    destruct (decide (j < length (c_chain s) - length (c_blocks s))%nat) as [Hold|Hnew].
    { apply Hb, list_elem_of_lookup. exists j. unfold behind. by apply lookup_take_Some. }
    unfold c_len in Hk. set (i := (j + length (c_blocks s) - length (c_chain s))%nat).
    destruct (lookup_lt_is_Some_2 (c_blocks s) i) as [b Hi]; [apply lookup_lt_Some in Hj; lia|].
    rewrite <-(overlap s i j b f Hs Hi Hj) by lia. apply (Hf i b Hi).
    destruct (lookup_lt_is_Some_2 (c_stored s) i) as [v Hv]; [rewrite (co_stored _ Hs); by eapply lookup_lt_Some|].
    rewrite Hv. f_equal. rewrite Forall_lookup in Htrue. apply (Htrue i v). apply lookup_take_Some. split; [done|]. lia.
Qed.

Lemma mark_stored_confirmed K n h s s' m : chain_ok s → confirmed K s → mark_stored n h s = Ok (s', m) →
  confirmed (K ++ [mkBlockRef n h]) s'.
Proof.
  intros Hs [Hf Hb] E. destruct (mark_stored_spec n h s Hs) as (s1 & m1 & E1 & _ & Ec & _ & Eb & Hst).
  rewrite E in E1. injection E1 as <- <-. constructor.
  - intros i b Hi Hv. rewrite Eb in Hi. rewrite (Hst i b Hi) in Hv. apply elem_of_app. case_decide as Ed; [right; rewrite Ed; lmem|].
    left. eauto.
  - intros f Hin. apply elem_of_app. left. apply Hb. unfold behind in *. by rewrite Ec, Eb in Hin.
Qed.

(** The stored marks among the operations. *)
Definition marks (ops : list chain_op) : list BlockRef :=
  omap (λ op, match op with OpStored n h => Some (mkBlockRef n h) | _ => None end) ops.

Lemma run_op_confirmed K max_size op s s' : chain_ok s → op_ok op → confirmed K s → run_op max_size op s = Ok s' →
  confirmed (K ++ marks [op]) s'.
Proof.
  intros Hs Hop Hc. destruct op as [is_final b|n h|h]; cbn [run_op marks omap list_omap]; rewrite ?app_nil_r.
  - unfold watch_push, push. pose proof (push_loop_confirmed K b (S (length (c_chain s))) s Hs Hop Hc) as Hp.
    destruct (push_loop _ b s) as [s1 [[]|e|m]]; [|done..]. cbn in Hp. intros [= <-].
    destruct is_final; [by apply finalize_all_confirmed|done].
  - unfold watch_mark_stored. intros Ho. apply bind_Ok in Ho as ([s2 d] & Hm & [= ->]).
    apply bind_Ok in Hm as ([s1 marked] & Hm & Ho). pose proof (mark_stored_confirmed K n h s s1 marked Hs Hc Hm) as Hc1.
    destruct (mark_stored_spec n h s Hs) as (s1' & m1 & E1 & Hs1 & _). rewrite Hm in E1. injection E1 as <- <-.
    destruct marked; [by eapply clean_confirmed|]. by injection Ho as <- _.
  - unfold watch_finalize. pose proof (finalize_confirmed K h s Hc) as Hp.
    destruct (chain_finalize h s) as [s1 [c|e|m]]; [|done..]. by intros [= <-].
Qed.

Lemma run_ops_confirmed max_size ops : ∀ K s s', chain_ok s → Forall op_ok ops → confirmed K s →
  run_ops max_size ops s = Ok s' → confirmed (K ++ marks ops) s'.
Proof.
  induction ops as [|op ops IH]; intros K s s' Hs Hops Hc; cbn [run_ops].
  { intros [= <-]. eapply confirmed_mono; [|exact Hc]. intros f ?. apply elem_of_app. by left. }
  apply Forall_cons in Hops as [Hop Hops]. intros (s1 & E1 & E)%bind_Ok.
  destruct (run_op_ok max_size op s Hs Hop) as [_ Hok]. destruct (Hok s1 E1) as [Hs1 _].
  pose proof (IH _ _ _ Hs1 Hops (run_op_confirmed K max_size op s s1 Hs Hop Hc E1) E) as Hc'.
  eapply confirmed_mono; [|exact Hc']. intros f. rewrite <-app_assoc. unfold marks. change (op :: ops) with ([op] ++ ops).
  by rewrite omap_app.
Qed.

Lemma run_ops_app max_size ops1 ops2 : ∀ s, run_ops max_size (ops1 ++ ops2) s
  = (s1 ← run_ops max_size ops1 s; run_ops max_size ops2 s1).
Proof.
  induction ops1 as [|op ops1 IH]; intros s; [done|]. cbn [run_ops app]. destruct (run_op max_size op s); [|done..]. apply IH.
Qed.

Lemma stored_finalized_confirmed K s f : chain_ok s → confirmed K s → stored_finalized_head s = Ok (Some f) → f ∈ K.
Proof.
  intros Hs [Hf Hb]. unfold stored_finalized_head. destruct (c_fin s) eqn:Ef; cbn [negb]; [|done].
  destruct (Nat.ltb_spec (length (c_blocks s)) (length (c_chain s))) as [Hlt|Hge].
  - destruct (head (c_chain s)) as [h|] eqn:Eh; [|done]. intros [= <-]. apply Hb, list_elem_of_lookup. exists 0%nat.
    unfold behind. apply lookup_take_Some. rewrite head_lookup in Eh. split; [done|]. lia.
  - pose proof (co_fin _ Hs Ef) as Hne. destruct (c_chain s) as [|h l] eqn:Ech; [done|].
    assert (Htop : (length (c_blocks s) - length (h :: l) < length (c_blocks s))%nat) by (simpl in *; lia).
    destruct (last_stored_spec s _ (co_stored _ Hs) Htop) as (o & -> & Ho). intros [= ->].
    destruct Ho as (i & b & _ & Hi & <- & Hst & _). eauto.
Qed.

(** C24: the chain of the service is safe.  Started empty or from a restored chain whose first
    block is finalized ([startable]; a chain restored without a final block can panic, see
    [BdsStore.BdsExamples.restored_fork_panics]), and run on any sequence of pushes of blocks
    that are numbered above their parents, stored marks with their cleaning, and finality
    reports: no operation panics; the queues of blocks, stored flags and references stay aligned
    as one linked ascending chain; between any two moments of the run the finalized head is not
    removed and does not move down; the head reported as stored has every queued block at or
    below it flagged as stored, and a flagged block was marked as stored; and the head reported
    as finalized and stored is at or below the finalized head and was confirmed by the store: it
    is a block of the restored chain or one that was marked as stored. *)
Theorem bds_chain_invariant h min_size max_size ops : startable h → Forall op_ok ops →
  ∃ s0, chain_new h min_size = Ok s0 ∧ safe (run_ops max_size ops s0) ∧
    (∀ ops1 ops2 s1 s2, ops = ops1 ++ ops2 → run_ops max_size ops1 s0 = Ok s1 → run_ops max_size ops2 s1 = Ok s2 →
       fin_grows s1 s2) ∧
    ∀ s, run_ops max_size ops s0 = Ok s → chain_ok s ∧
      (∃ o, stored_head s = Ok o ∧ ∀ f, o = Some f →
         ∀ i b, c_blocks s !! i = Some b → cb_number b <= number f → c_stored s !! i = Some true) ∧
      (∀ i b, c_blocks s !! i = Some b → c_stored s !! i = Some true → block_ptr b ∈ hc_blocks h ++ marks ops) ∧
      (∃ o, stored_finalized_head s = Ok o ∧ ∀ f, o = Some f →
         (∃ t, head (c_chain s) = Some t ∧ number f <= number t) ∧ f ∈ hc_blocks h ++ marks ops).
Proof.
  intros Hh Hops. destruct (chain_new_ok h min_size Hh) as (s0 & E & Hs0). exists s0. split; [done|].
  assert (Hc0 : confirmed (hc_blocks h) s0).
  { unfold chain_new in E. destruct (hc_first_finalized h && _)%bool; [done|]. injection E as <-. constructor; cbn; [done|]. intros f. unfold behind. cbn.
    by rewrite Nat.sub_0_r, firstn_all. }
  destruct (run_ops_ok max_size ops s0 Hs0 Hops) as [Hsafe Hok]. split; [done|]. split.
  { intros ops1 ops2 s1 s2 -> E1 E2. apply Forall_app in Hops as [Ho1 Ho2].
    destruct (run_ops_ok max_size ops1 s0 Hs0 Ho1) as [_ Hok1]. destruct (Hok1 s1 E1) as [Hs1 _].
    destruct (run_ops_ok max_size ops2 s1 Hs1 Ho2) as [_ Hok2]. by destruct (Hok2 s2 E2). }
  intros s Es. destruct (Hok s Es) as [Hs _]. split; [done|]. split; [by apply stored_head_spec|].
  pose proof (run_ops_confirmed max_size ops _ _ _ Hs0 Hops Hc0 Es) as Hc. split; [apply (cf_flags _ _ Hc)|].
  destruct (stored_finalized_head_spec s Hs) as (o & Eo & Ho). exists o. split; [done|]. intros f ->.
  destruct (Ho f eq_refl) as (_ & ? & _). split; [done|]. by eapply stored_finalized_confirmed.
Qed.
End chain.
