(* ===== verification/BdsStore.v ===== *)
(** * BdsStore: forks, writes and restarts of the block data service

    Where the service resumes after a fork, which blocks its writer starts, that a chain
    restored from the database is linked, and that block ranges are split by partition. *)

From stdpp Require Import list.
From S2P Require Import Prelude Data Chain WriteController ControllerSpec Bds BdsProps.

(** ** Fork base *)

Definition ascending_refs (l : list BlockRef) : Prop := StronglySorted (λ a b, number a < number b) l.
Definition descending_refs (l : list BlockRef) : Prop := StronglySorted (λ a b, number b < number a) l.

(** Between two hints there is a hint at every height of the chain. *)
Definition dense (chain prev : list BlockRef) : Prop :=
  ∀ b p q, b ∈ chain → p ∈ prev → q ∈ prev → number p <= number b <= number q →
    ∃ r, r ∈ prev ∧ number r = number b.

Lemma ascending_unique l a b : ascending_refs l → a ∈ l → b ∈ l → number a = number b → a = b.
Proof.
  intros Hs. induction Hs as [|x l Hl IH Hf]; intros Ha Hb E; [by apply elem_of_nil in Ha|].
  rewrite Forall_forall in Hf. apply elem_of_cons in Ha as [->|Ha], Hb as [->|Hb]; [done| | |by apply IH].
  - specialize (Hf b Hb). simpl in Hf. lia.
  - specialize (Hf a Ha). simpl in Hf. lia.
Qed.

Lemma drop_while_none {A} (f : A → bool) l : (∀ x, x ∈ l → f x = false) → drop_while f l = l.
Proof. destruct l as [|x l]; [done|]. intros Hf. cbn. by rewrite Hf by lmem. Qed.

Lemma pop_while_filter n l : ascending_refs l → pop_while (λ p, n <? number p) l = filter (λ p, number p <= n) l.
Proof.
  unfold pop_while. induction l as [|x l IH] using rev_ind; intros Hs; [done|].
  apply StronglySorted_snoc in Hs as [Hs Hx]. rewrite reverse_snoc, filter_app. cbn [drop_while].
  destruct (Z.ltb_spec n (number x)) as [Hlt|Hge].
  - rewrite IH by done. rewrite (filter_cons_False _ x) by lia. by rewrite app_nil_r.
  - rewrite filter_cons_True by done. rewrite reverse_cons, reverse_involutive. f_equal.
    symmetry. apply list_filter_all. intros y Hy. rewrite Forall_forall in Hx. specialize (Hx y Hy). simpl in Hx. lia.
Qed.

Lemma last_ascending l z x : ascending_refs l → last l = Some z → x ∈ l → number x <= number z.
Proof.
  intros Hs (k & ->)%last_Some Hx. apply StronglySorted_snoc in Hs as [_ Hf]. rewrite Forall_forall in Hf.
  apply elem_of_app in Hx as [Hx|Hx%list_elem_of_singleton]; [specialize (Hf x Hx); simpl in Hf; lia|subst; lia].
Qed.

Lemma filter_ascending (P : BlockRef → Prop) `{!∀ x, Decision (P x)} l : ascending_refs l → ascending_refs (filter P l).
Proof.
  intros Hs. induction Hs as [|x l Hl IH Hf]; [constructor|]. rewrite filter_cons. case_decide; [|done].
  constructor; [done|]. rewrite Forall_forall in *. intros y [_ Hy]%list_elem_of_filter. auto.
Qed.

(** The block is among the hints, or below all of them. *)
Definition eligible (prev : list BlockRef) (b : BlockRef) : Prop :=
  b ∈ prev ∨ Forall (λ p, number b < number p) prev.
#[export] Instance eligible_dec prev b : Decision (eligible prev b).
Proof. unfold eligible. apply _. Defined.

(** Popping the last hint at or below a height that is at that height leaves the hints below it. *)
Lemma pop_at_height prev p n : ascending_refs prev → last (filter (λ q, number q <= n) prev) = Some p → number p = n →
  pop (filter (λ q, number q <= n) prev) = filter (λ q, number q < n) prev.
Proof.
  intros Hp El Epn. unfold pop. set (low := filter _ prev) in *. apply last_Some in El as [k Ek]. rewrite Ek, removelast_snoc.
  assert (Hk : filter (λ q, number q < n) low = k).
  { pose proof (filter_ascending (λ q, number q <= n) prev Hp) as Hs. fold low in Hs. rewrite Ek in Hs |- *.
    apply StronglySorted_snoc in Hs as [_ Hs]. rewrite Forall_forall in Hs. rewrite filter_app, list_filter_all.
    - rewrite filter_cons_False by lia. by rewrite app_nil_r.
    - intros x Hx. specialize (Hs x Hx). simpl in Hs. lia. }
  rewrite <-Hk. unfold low. rewrite list_filter_filter. apply list_filter_iff. intros x. lia.
Qed.

(** Below a height, only the hints below it matter. *)
Lemma eligible_below prev n x : number x < n → eligible (filter (λ q, number q < n) prev) x ↔ eligible prev x.
Proof.
  intros Hx. unfold eligible. rewrite !Forall_forall, list_elem_of_filter. split.
  - intros [[_ ?]|Hall]; [by left|]. right. intros q Hq. destruct (decide (number q < n)); [|simpl; lia].
    apply Hall. by apply list_elem_of_filter.
  - intros [?|Hall]; [left; by split|]. right. intros q [_ Hq]%list_elem_of_filter. by apply Hall.
Qed.

Lemma dense_below chain prev n : dense chain prev → dense chain (filter (λ q, number q < n) prev).
Proof.
  intros Hs x q1 q2 Hx [_ H1]%list_elem_of_filter [Hq2 H2]%list_elem_of_filter Hr.
  destruct (Hs x q1 q2 Hx H1 H2 Hr) as (r & Hin & Er). exists r. split; [|done]. apply list_elem_of_filter. split; [lia|done].
Qed.

(** The fork base.  Scanning the chain from its head down while discarding hints, the
    service finds exactly the highest block of its chain that is one of the hints or lies below
    all of them, provided the hints are as dense as the chain where they overlap. *)
Theorem fork_base_exact chain prev : descending_refs chain → ascending_refs prev → dense chain prev →
  compute_fork_base chain prev = head (filter (eligible prev) chain).
Proof.
  intros Hd. revert prev. induction Hd as [|b chain Hd IH Hf]; intros prev Hp Hdense; [done|]. cbn [compute_fork_base].
  assert (Hsub : dense chain prev) by (intros x p q Hx; apply Hdense; lmem). rewrite Forall_forall in Hf.
  destruct (match last prev with Some p => number p <? number b | None => false end) eqn:Eskip.
  { destruct (last prev) as [z|] eqn:Ez; [|done]. zbool. rewrite filter_cons_False; [by apply IH|].
    intros [Hin|Hall].
    - pose proof (last_ascending _ _ _ Hp Ez Hin). lia.
    - rewrite Forall_forall in Hall. specialize (Hall z (last_Some_elem_of _ _ Ez)). simpl in Hall. lia. }
  rewrite pop_while_filter by done. set (low := filter (λ p, number p <= number b) prev).
  assert (Hlow : ∀ p, p ∈ low ↔ p ∈ prev ∧ number p <= number b) by (intros p; unfold low; rewrite list_elem_of_filter; tauto).
  destruct (last low) as [p|] eqn:El.
  2: { apply last_None in El. rewrite filter_cons_True; [done|]. right. apply Forall_forall. intros p Hin.
       destruct (decide (number p <= number b)) as [Hle|]; [|simpl; lia].
       pose proof (proj2 (Hlow p) (conj Hin Hle)) as Hbad. rewrite El in Hbad. by apply elem_of_nil in Hbad. }
  pose proof (last_Some_elem_of _ _ El) as Hpl. apply Hlow in Hpl as [Hpp Hpb].
  assert (Epn : number p = number b).
  { destruct (last prev) as [z|] eqn:Ez; [|apply last_None in Ez; rewrite Ez in Hpp; by apply elem_of_nil in Hpp]. zbool.
    destruct (Hdense b p z) as (r & Hr & Er); [lmem|done|by apply last_Some_elem_of|lia|].
    assert (Hrl : r ∈ low) by (apply Hlow; split; [done|lia]).
    pose proof (last_ascending low p r (filter_ascending _ _ Hp) El Hrl). lia. }
  case_bool_decide as Ebp; [subst p; by rewrite filter_cons_True by (by left)|].
  rewrite filter_cons_False.
  2: { intros [Hin|Hall]; [by apply Ebp, (ascending_unique prev)|].
       rewrite Forall_forall in Hall. specialize (Hall p Hpp). simpl in Hall. lia. }
  unfold low. rewrite (pop_at_height _ _ _ Hp El Epn), IH; [|by apply filter_ascending|by apply dense_below].
  f_equal. apply list_filter_iff'. apply Forall_forall. intros x Hx. apply eligible_below, (Hf x Hx).
Qed.

Lemma fork_base_elem chain : ∀ prev b, compute_fork_base chain prev = Some b → b ∈ chain.
Proof.
  induction chain as [|x chain IH]; intros prev b; cbn [compute_fork_base]; [done|].
  case_if; [intros Hb; apply elem_of_cons; right; by eapply IH|].
  destruct (last (pop_while _ prev)); [|intros [= <-]; lmem].
  case_bool_decide; [intros [= <-]; lmem|]. intros Hb. apply elem_of_cons. right. by eapply IH.
Qed.

(** After a fork the source is moved to the first block of the range, or right after a block
    of the chain in that range. *)
Lemma grow_handle_fork_spec {B} `{ChainBlock B} prev first parent next next_parent (s : Chain B) n h :
  grow_handle_fork prev first parent next next_parent s = Ok (n, h) →
  (n = first ∧ h = parent) ∨
  ∃ b, b ∈ c_chain s ∧ first <= number b ∧ n = u64_add (number b) 1 ∧ h = Some (hash b).
Proof.
  unfold grow_handle_fork. intros Hg. apply bind_Ok in Hg as ([] & _ & Hg). apply bind_Ok in Hg as ([] & _ & Hg).
  apply bind_Ok in Hg as ([] & _ & Hg). destruct (_ && _)%bool; [done|].
  destruct (list_find _ prev) as [[off p]|]; [|injection Hg as <- <-; by left].
  apply bind_Ok in Hg as (base & Hb & Hg). destruct base as [b|]; [|injection Hg as <- <-; by left].
  destruct (Z.leb_spec first (number b)); [|injection Hg as <- <-; by left]. injection Hg as <- <-. right. exists b.
  unfold chain_fork_base in Hb. destruct (compute_fork_base _ _) as [x|] eqn:E; [|by destruct (_ && _)%bool].
  injection Hb as ->. apply fork_base_elem in E. rewrite elem_of_reverse in E. done.
Qed.

(** ** Restored chains *)

Definition header_link (a b : Header) : Prop := block_ptr a = parent_ptr b.

(** Only the last block of the list is final, and it is if [final] says so. *)
Definition final_last (final : bool) (hs : list Header) : Prop :=
  if final then ∃ init z, hs = init ++ [z] ∧ hd_is_final z = true ∧ Forall (λ h, hd_is_final h = false) init
  else Forall (λ h, hd_is_final h = false) hs.
Lemma final_last_app final hs0 hs : Forall (λ h, hd_is_final h = false) hs0 → final_last final hs → final_last final (hs0 ++ hs).
Proof.
  intros H0. destruct final; cbn; [|by intros; apply Forall_app].
  intros (init & z & -> & Hz & Hi). exists (hs0 ++ init), z. rewrite app_assoc. split_and!; try done. by apply Forall_app.
Qed.

(** The scan collects blocks that each are the parent of the one before. *)
Lemma scan_batch_spec bs : ∀ chain expected, ∃ hs,
  let '(chain', expected', final) := scan_batch bs chain expected in
  chain' = chain ++ (block_ptr <$> hs) ∧ (∀ h, h ∈ hs → h ∈ bs) ∧
  adjacent (λ a b, header_link b a) hs ∧
  (chain ≠ [] → ∀ h, head hs = Some h → block_ptr h = expected) ∧
  expected' = match last hs with Some z => parent_ptr z | None => expected end ∧
  final_last final hs.
Proof.
  induction bs as [|b bs IH]; intros chain expected; cbn [scan_batch].
  { exists []. cbn. rewrite app_nil_r. by split_and!. }
  destruct (bool_decide (block_ptr b = expected) || bool_decide (chain = []))%bool eqn:Eacc.
  - assert (Hex : chain ≠ [] → block_ptr b = expected).
    { intros Hne. apply orb_true_iff in Eacc as [E|E]; [by apply bool_decide_eq_true in E|].
      by apply bool_decide_eq_true in E. }
    destruct (hd_is_final b) eqn:Ef.
    + exists [b]. cbn. split_and!; try done; [intros h ->%list_elem_of_singleton; lmem|intros Hne h [= <-]; by apply Hex|by exists [], b].
    + destruct (IH (chain ++ [block_ptr b]) (parent_ptr b)) as [hs Hhs]. exists (b :: hs).
      destruct (scan_batch bs (chain ++ [block_ptr b]) (parent_ptr b)) as [[chain' expected'] final].
      destruct Hhs as (E1 & Hin & Hl & Hh & E2 & Hf). cbn [fmap list_fmap]. rewrite E1, <-app_assoc. split; [done|].
      split; [intros h [->|Hh']%elem_of_cons; [lmem|specialize (Hin h Hh'); lmem]|]. split.
      { destruct hs as [|x hs]; [done|]. split; [|done]. unfold header_link. apply Hh; [by destruct chain|done]. }
      split; [intros Hne h [= <-]; by apply Hex|]. split.
      { destruct hs as [|x hs]; [done|]. rewrite last_cons_cons. destruct (last (x :: hs)) eqn:E; [done|by apply last_None in E]. }
      apply (final_last_app final [b]); [by constructor|done].
  - destruct (IH chain expected) as [hs Hhs]. exists hs. destruct (scan_batch bs chain expected) as [[chain' expected'] final].
    destruct Hhs as (E1 & Hin & Hrest). split; [done|]. split; [|done]. intros h Hh. specialize (Hin h Hh). lmem.
Qed.

Definition pages (batches : list (res BlockBatch)) : list Header :=
  batches ≫= λ r, match r with Ok b => bb_blocks b | _ => [] end.

Lemma build_loop_spec batches : ∀ hs0 chain expected chain' expected' final,
  chain = block_ptr <$> hs0 → adjacent (λ a b, header_link b a) hs0 →
  (∀ z, last hs0 = Some z → expected = parent_ptr z) → Forall (λ h, hd_is_final h = false) hs0 →
  build_loop batches chain expected = Ok (chain', expected', final) →
  ∃ hs, chain' = block_ptr <$> (hs0 ++ hs) ∧ (∀ h, h ∈ hs → h ∈ pages batches) ∧
    adjacent (λ a b, header_link b a) (hs0 ++ hs) ∧
    (∀ z, last (hs0 ++ hs) = Some z → expected' = parent_ptr z) ∧
    final_last final (hs0 ++ hs).
Proof.
  induction batches as [|batch batches IH]; intros hs0 chain expected chain' expected' final Ec Hl He Hnf; cbn [build_loop].
  { intros [= <- <- <-]. exists []. rewrite app_nil_r. by split_and!. }
  destruct batch as [batch|e|m]; [|done..]. cbn [mbind res_bind].
  destruct (scan_batch_spec (bb_blocks batch) chain expected) as [hs1 Hs].
  destruct (scan_batch (bb_blocks batch) chain expected) as [[chain1 expected1] final1].
  destruct Hs as (E1 & Hin & Hl1 & Hh & E2 & Hf).
  assert (Hjoin : adjacent (λ a b, header_link b a) (hs0 ++ hs1)).
  { apply adjacent_app. split; [done|]. split; [done|]. destruct (last hs0) as [z|] eqn:Ez; [|done].
    destruct (head hs1) as [h|] eqn:Eh; [|done]. unfold header_link. rewrite Hh; [by apply He| |done].
    rewrite Ec. intros En. apply fmap_nil_inv in En. by rewrite En in Ez. }
  assert (Hexp : ∀ z, last (hs0 ++ hs1) = Some z → expected1 = parent_ptr z).
  { intros z Ez. rewrite last_app in Ez. destruct (last hs1) as [y|]; [congruence|]. rewrite E2. by apply He. }
  assert (Hpg : ∀ h, h ∈ bb_blocks batch → h ∈ pages (Ok batch :: batches)).
  { intros h Hh'. unfold pages. cbn. apply elem_of_app. by left. }
  destruct final1.
  - intros [= <- <- <-]. exists hs1. rewrite E1, Ec, fmap_app. split_and!; try done; [auto|].
    by apply final_last_app.
  - destruct (ensure _ _) as [[]|e|m]; [|done..]. cbn [mbind res_bind]. intros Hrun.
    destruct (IH (hs0 ++ hs1) chain1 expected1 chain' expected' final) as (hs & A1 & A2 & A3 & A4 & A5); try done.
    + by rewrite E1, Ec, fmap_app.
    + by apply Forall_app.
    + exists (hs1 ++ hs). rewrite app_assoc. split_and!; try done. intros h [Hh'|Hh']%elem_of_app; [auto|].
      unfold pages. cbn. apply elem_of_app. right. by apply A2.
Qed.

Lemma head_reverse_last {A} (l : list A) : head (reverse l) = last l.
Proof. apply head_reverse. Qed.

(** A chain restored from the database is a chain.  Whatever pages the database returns, a
    restored chain consists of stored blocks, each one the parent of the next; none but the
    first is final, and the first is if the chain says so; otherwise it reaches down to the
    first requested block, and its parent is the one the operator asked for. *)
Theorem restored_chain_linked batches first_block parent_hash h : build_chain batches first_block parent_hash = Ok h →
  ∃ hs, hc_blocks h = block_ptr <$> hs ∧ (∀ x, x ∈ hs → x ∈ pages batches) ∧ adjacent header_link hs ∧
    Forall (λ x, hd_is_final x = false) (tail hs) ∧
    (∀ a, head hs = Some a → hc_first_finalized h = hd_is_final a ∧
       (hd_is_final a = false → first_block ≠ 0 → hd_parent_number a < first_block) ∧
       (∀ p, parent_hash = Some p → hd_parent_number a < first_block → hd_parent_hash a = p)).
Proof.
  unfold build_chain. intros Hb. apply bind_Ok in Hb as ([[chain expected] final] & Hl & Hb).
  destruct (build_loop_spec batches [] [] (mkBlockRef 0 "") chain expected final eq_refl I) as (hs & E1 & Hin & Hadj & He & Hf);
    [done|constructor|exact Hl|]. cbn [app] in *.
  case_bool_decide as Enil.
  { injection Hb as <-. exists []. cbn. rewrite Enil. split_and!; try done; [intros x Hx; by apply elem_of_nil in Hx]. }
  apply bind_Ok in Hb as ([] & H1 & Hb). apply ensure_Ok in H1. apply bind_Ok in Hb as ([] & H2 & Hb). injection Hb as <-.
  exists (reverse hs). cbn. split; [by rewrite E1, fmap_reverse|].
  split; [intros x; rewrite elem_of_reverse; apply Hin|]. split; [by apply (adjacent_reverse (λ a b, header_link b a))|].
  assert (Hall : match last hs with Some z => hd_is_final z = final | None => True end ∧
    Forall (λ x, hd_is_final x = false) (tail (reverse hs))).
  { destruct hs as [|z l _] using rev_ind; [by split; [|constructor]|]. rewrite last_snoc, reverse_snoc. cbn [tail].
    destruct final; cbn in Hf.
    - destruct Hf as (init & y & E & Hy & Hi). apply app_inj_tail in E as [-> ->]. split; [done|]. by apply Forall_reverse.
    - apply Forall_app in Hf as [Hf1 Hf2]. apply Forall_cons in Hf2 as [? _]. split; [done|]. by apply Forall_reverse. }
  destruct Hall as [Hfz Htail]. split; [done|]. rewrite head_reverse_last. intros a Ea. rewrite Ea in Hfz.
  specialize (He a Ea). subst expected. split; [done|]. split.
  - intros Hnf Hne. rewrite <-Hfz, Hnf in H1. cbn in H1. zbool. apply orb_true_iff in H1 as [?|?]; zbool; [done|lia].
  - intros p -> Hlt. cbn in H2. rewrite (proj2 (Z.ltb_lt _ _) Hlt) in H2. apply ensure_Ok in H2.
    by apply bool_decide_eq_true in H2.
Qed.

(** ** The writer *)

Section writer.
Context {B : Type} `{ChainBlock B}.
Implicit Types (s : Chain B) (w : WriteState B).

(** Block [i] of the queue is stored or being written. *)
Definition covered w s (i : nat) : Prop :=
  ∃ b, c_blocks s !! i = Some b ∧ (c_stored s !! i = Some true ∨ is_pending w b = true).

Lemma find_position_loop_spec w s pos : length (c_stored s) = length (c_blocks s) → (pos < c_len s)%nat →
  ∃ k, find_position_loop w s pos = Ok k ∧ (k <= S pos)%nat ∧ (k = 0%nat ∨ covered w s (pred k)) ∧
    ∀ i, (k <= i <= pos)%nat → ¬ covered w s i.
Proof.
  intros Hlen. unfold c_len. induction pos as [|pos IH]; intros Hp; cbn [find_position_loop]; unfold c_is_stored.
  all: destruct (lookup_lt_is_Some_2 (c_blocks s) _ Hp) as [b Hb].
  all: destruct (lookup_lt_is_Some_2 (c_stored s) _ (eq_ind_r (λ n, (_ < n)%nat) Hp Hlen)) as [v Hv].
  all: rewrite Hv; cbn [mbind res_bind]; rewrite Hb; cbn [mbind res_bind].
  all: destruct (v || is_pending w b)%bool eqn:Ec.
  - eexists. split; [done|]. split; [lia|]. split; [|intros i ?; lia]. right. exists b. split; [done|].
    apply orb_true_iff in Ec as [->|?]; auto.
  - eexists. split; [done|]. split; [lia|]. split; [by left|]. intros i Hi (x & Hx & Hor).
    replace i with 0%nat in * by lia. rewrite Hb in Hx. injection Hx as <-. apply orb_false_iff in Ec as [-> Ec].
    destruct Hor; congruence.
  - eexists. split; [done|]. split; [lia|]. split; [|intros i ?; lia]. right. exists b. split; [done|].
    apply orb_true_iff in Ec as [->|?]; auto.
  - destruct (IH ltac:(lia)) as (k & -> & Hk & Hor & Hno). exists k. split; [done|]. split; [lia|]. split; [done|].
    intros i Hi. destruct (decide (i = S pos)) as [->|]; [|apply Hno; lia]. intros (x & Hx & Hor').
    rewrite Hb in Hx. injection Hx as <-. apply orb_false_iff in Ec as [-> Ec]. destruct Hor'; congruence.
Qed.

Lemma find_position_spec w s : chain_ok s → ∃ k, find_position w s = Ok k ∧ (k <= c_len s)%nat ∧
  (k = 0%nat ∨ covered w s (pred k)).
Proof.
  intros Hs. unfold find_position. case_bool_decide as En; [exists 0%nat; split; [done|]; split; [lia|by left]|].
  unfold c_bisect. destruct (bisect_total _ (ws_last_block w) (blocks_strictly s Hs)) as (p & -> & _). cbn [mbind res_bind].
  assert (Hne : (0 < c_len s)%nat) by (unfold c_len; destruct (c_blocks s); [done|simpl; lia]).
  destruct (find_position_loop_spec w s (Nat.min p (c_len s - 1)) (co_stored _ Hs)) as (k & -> & Hk & Hor & _); [lia|].
  exists k. split; [done|]. split; [lia|done].
Qed.

(** The writer is bounded and makes progress.  A step of the writer never panics and keeps
    at most the configured number of writes in flight; the blocks it starts are consecutive in
    the queue, right after a block that is stored or being written, or from its front; and
    with spare capacity it starts at least one unless that block is the last. *)
Theorem writer_advance w s : chain_ok s → (length (ws_pending w) <= ws_max_pending w)%nat →
  ∃ w' started, advance w s = Ok (w', started) ∧ ws_pending w' = ws_pending w ++ started ∧
    (length (ws_pending w') <= ws_max_pending w')%nat ∧
    (has_capacity w = true → ∃ pos, (pos = 0%nat ∨ covered w s (pred pos)) ∧
       started = take (length started) (drop pos (c_blocks s)) ∧ (pos <= c_len s)%nat ∧
       ((pos < c_len s)%nat → started ≠ [])).
Proof.
  intros Hs Hcap. unfold advance. destruct (has_capacity w) eqn:Ec; cbn [negb].
  2: { eexists _, []. split; [done|]. rewrite app_nil_r. by split_and!. }
  unfold has_capacity in Ec. apply Nat.ltb_lt in Ec.
  destruct (find_position_spec w s Hs) as (pos & -> & Hpos & Hor). cbn [mbind res_bind].
  eexists _, _. split; [done|]. split; [done|]. cbn [ws_pending ws_max_pending]. unfold c_len in *. split.
  - rewrite length_app, length_take, length_drop. lia.
  - intros _. exists pos. split; [done|]. split.
    + rewrite length_take, length_drop. f_equal. lia.
    + split; [done|]. intros Hlt En. apply (f_equal length) in En. rewrite length_take, length_drop in En. simpl in En. lia.
Qed.
End writer.

(** ** Partitions *)

(** The ranges go down from [top] to [bottom], each inside one partition. *)
Fixpoint covers_down (size top bottom : Z) (l : list (Z * Z)) : Prop :=
  match l with
  | [] => top < bottom
  | (lo, hi) :: l => hi = top ∧ bottom <= lo <= hi ∧ get_partition size lo = get_partition size hi ∧
      covers_down size (lo - 1) bottom l
  end.
(** The ranges go up from [bottom] past [top], each inside one partition. *)
Fixpoint covers_up (size bottom top : Z) (l : list (Z * Z)) : Prop :=
  match l with
  | [] => top < bottom
  | (lo, hi) :: l => lo = bottom ∧ lo <= hi ∧ get_partition size lo = get_partition size hi ∧
      covers_up size (hi + 1) top l
  end.

Lemma get_partition_spec size n : 0 < size → 0 <= n →
  0 <= get_partition size n <= n ∧ n < get_partition size n + size.
Proof. 
  intros Hs Hn. unfold get_partition. pose proof (Z.div_mod n size ltac:(lia)) as E. pose proof (Z.mod_pos_bound n size Hs) as Hm.
  pose proof (Z.div_pos n size Hn Hs) as Hq. revert E Hm Hq. generalize (n / size) (n mod size). intros q r. nia.
Qed.

Lemma get_partition_same size n k : 0 < size → 0 <= n → get_partition size n <= k < get_partition size n + size →
  get_partition size k = get_partition size n.
Proof.
  intros Hs Hn. unfold get_partition. generalize (n / size). intros q Hk. f_equal. symmetry.
  apply (Z.div_unique k size q (k - size * q)); nia.
Qed.

Lemma split_down size fuel : ∀ start end_, 0 < size → 0 <= start <= end_ → end_ <= u64_max →
  end_ - start < Z.of_nat fuel → covers_down size (end_ - 1) start (split_loop true size fuel start end_).
Proof.
  induction fuel as [|fuel IH]; intros start end_ Hs Hr He Hf; [lia|]. cbn [split_loop].
  destruct (Z.leb_spec end_ start) as [|Hlt]; [cbn; lia|]. rewrite u64_sub_small by lia.
  pose proof (get_partition_spec size (end_ - 1) Hs ltac:(lia)) as Hp. cbn [covers_down].
  split; [done|]. split; [lia|]. split; [apply get_partition_same; lia|]. apply IH; lia.
Qed.

Lemma split_up size fuel : ∀ start end_, 0 < size → 0 <= start → end_ + size <= u64_max →
  end_ - start < Z.of_nat fuel → covers_up size start (end_ - 1) (split_loop false size fuel start end_).
Proof.
  induction fuel as [|fuel IH]; intros start end_ Hs Hr He Hf.
  { cbn. lia. }
  cbn [split_loop]. destruct (Z.leb_spec end_ start) as [|Hlt]; [cbn; lia|].
  pose proof (get_partition_spec size start Hs Hr) as Hp.
  rewrite u64_add_small by lia. rewrite u64_sub_small by lia. cbn [covers_up].
  split; [done|]. split; [lia|]. split; [symmetry; apply get_partition_same; lia|].
  rewrite Z.sub_add. apply IH; lia.
Qed.

(** The partitions of a block range.  In reverse order the ranges go down without gap or
    overlap from the last block to exactly the first; in forward order they go up from the
    first block to the last or beyond it, to the end of its partition; every range lies inside
    one partition. *)
Theorem partitions_cover size first last_ : 0 < size → 0 <= first <= last_ → last_ + 1 + size <= u64_max →
  covers_down size last_ first (split_into_partitions true size first last_) ∧
  covers_up size first last_ (split_into_partitions false size first last_).
Proof.
  intros Hs Hr Hm. unfold split_into_partitions. rewrite u64_add_small by lia.
  split.
  - pose proof (split_down size (S (Z.to_nat (last_ + 1 - first))) first (last_ + 1)) as H. rewrite Z.add_simpl_r in H. apply H; lia.
  - pose proof (split_up size (S (Z.to_nat (last_ + 1 - first))) first (last_ + 1)) as H. rewrite Z.add_simpl_r in H. apply H; lia.
Qed.

Module BdsExamples.
Definition hd (n : Z) (h : string) (pn : Z) (ph : string) (f : bool) : Header := mkHeader n h pn ph None f.
Definition ref (n : Z) (h : string) : BlockRef := mkBlockRef n h.

Lemma bisect_exact_witness : strictly [3; 4; 7; 9; 20] ∧ bisect [3; 4; 7; 9; 20] 8 = Ok 3%nat.
Proof.
  assert (Hs : strictly [3; 4; 7; 9; 20]) by (unfold strictly; repeat constructor; lia).
  split; [exact Hs|]. rewrite (bisect_exact _ 8 Hs). vm_compute. reflexivity.
Defined.

(** A finalized block 3 and the block 4 are restored; 5 and 6 arrive, are stored, and 6 is
    replaced; then 5 is final. *)
Definition restored : HeadChain := mkHeadChain [ref 3 "c"; ref 4 "d"] true.
Definition ops : list (chain_op (B:=Header)) :=
  [OpPush false (hd 5 "e" 4 "d" false); OpPush false (hd 6 "f" 5 "e" false); OpStored 5 "e"; OpStored 6 "f";
   OpPush false (hd 6 "x" 5 "e" false); OpFinalize (ref 5 "e")].
Lemma restored_startable : startable restored.
Proof. split; [unfold strictly; repeat constructor; cbn; lia|done]. Qed.
Lemma ops_ok : Forall op_ok ops.
Proof. repeat constructor; cbn; unfold after_parent; cbn; lia. Qed.

Lemma bds_chain_invariant_witness : ∃ s0 s, chain_new restored 2 = Ok s0 ∧ run_ops 10 ops s0 = Ok s ∧ chain_ok s ∧
  c_chain s = [ref 5 "e"; ref 6 "x"] ∧ stored_finalized_head s = Ok (Some (ref 5 "e")) ∧
  ref 5 "e" ∈ hc_blocks restored ++ marks ops.
Proof.
  destruct (bds_chain_invariant restored 2 10 ops restored_startable ops_ok) as (s0 & E & Hsafe & _ & Hok).
  assert (Er : ∃ s, run_ops 10 ops s0 = Ok s ∧ c_chain s = [ref 5 "e"; ref 6 "x"] ∧
    stored_finalized_head s = Ok (Some (ref 5 "e"))).
  { vm_compute in E. injection E as <-. vm_compute. eexists. repeat split. }
  destruct Er as (s & Er & E1 & E2). destruct (Hok s Er) as (Hs & _ & _ & o & Eo & Ho). exists s0, s.
  rewrite E2 in Eo. injection Eo as <-. destruct (Ho _ eq_refl) as [_ Hm]. by split_and!.
Defined.

Definition hints : list BlockRef := [ref 3 "c"; ref 4 "y"; ref 5 "z"].
Lemma fork_base_exact_witness : compute_fork_base [ref 6 "f"; ref 5 "e"; ref 4 "d"; ref 3 "c"] hints = Some (ref 3 "c").
Proof.
  rewrite (fork_base_exact [ref 6 "f"; ref 5 "e"; ref 4 "d"; ref 3 "c"] hints).
  - vm_compute. reflexivity.
  - repeat constructor; cbn; lia.
  - repeat constructor; cbn; lia.
  - intros b p q Hb Hp Hq Hr. unfold hints in *.
    assert (Hq5 : number q <= 5) by (repeat (apply elem_of_cons in Hq as [->|Hq]; [cbn; lia|]); by apply elem_of_nil in Hq).
    apply elem_of_cons in Hb as [->|Hb]; [cbn in Hr; lia|].
    apply elem_of_cons in Hb as [->|Hb]; [exists (ref 5 "z"); split; [lmem|done]|].
    apply elem_of_cons in Hb as [->|Hb]; [exists (ref 4 "y"); split; [lmem|done]|].
    apply elem_of_cons in Hb as [->|Hb]; [exists (ref 3 "c"); split; [lmem|done]|by apply elem_of_nil in Hb].
Defined.

(** The hints of a slot-numbered chain skip a block of ours: the common block 3 is missed. *)
Lemma sparse_hints_miss_base :
  compute_fork_base [ref 7 "g"; ref 5 "e"; ref 3 "c"] [ref 1 "a"; ref 3 "c"; ref 6 "x"] = None ∧
  ref 3 "c" ∈ [ref 7 "g"; ref 5 "e"; ref 3 "c"] ∧ ref 3 "c" ∈ [ref 1 "a"; ref 3 "c"; ref 6 "x"].
Proof. split; [vm_compute; reflexivity|]. split; lmem. Qed.

(** A restored chain without a final block, and a fork of its head. *)
Lemma restored_fork_panics : ∃ s m, chain_new (mkHeadChain [ref 3 "c"; ref 4 "d"] false) 5 = Ok s ∧
  push (hd 4 "x" 3 "c" false) s = (s, Panic m).
Proof. eexists _, _. split; [reflexivity|]. vm_compute. reflexivity. Qed.

(** The finalized blocks 3 to 5, of which only 4 is stored: 4 is reported although 3 is not. *)
Lemma finalized_head_skips_unstored : ∃ s : Chain Header,
  s = mkChain [ref 5 "e"] true [hd 3 "c" 2 "b" false; hd 4 "d" 3 "c" false; hd 5 "e" 4 "d" false] [false; true; false] 5 ∧
  stored_finalized_head s = Ok (Some (ref 4 "d")) ∧ stored_head s = Ok (Some (ref 2 "b")).
Proof. eexists. split; [done|]. vm_compute. done. Qed.

Definition page : list (res BlockBatch) :=
  [Ok (mkBatch [hd 6 "f" 5 "e" false; hd 5 "x" 4 "d" false; hd 5 "e" 4 "d" false] 9);
   Ok (mkBatch [hd 4 "d" 3 "c" true; hd 3 "c" 2 "b" true] 4)].
Lemma restored_chain_linked_witness : ∃ hs,
  build_chain page 1 None = Ok (mkHeadChain (block_ptr <$> hs) true) ∧ cb_number <$> hs = [4; 5; 6] ∧
  adjacent header_link hs.
Proof.
  assert (E : build_chain page 1 None = Ok (mkHeadChain [ref 4 "d"; ref 5 "e"; ref 6 "f"] true)) by (vm_compute; reflexivity).
  destruct (restored_chain_linked page 1 None _ E) as (hs & Eb & _ & Hadj & _). cbn in Eb. exists hs.
  split; [by rewrite <-Eb|]. split; [|exact Hadj].
  assert (Ef : cb_number <$> hs = number <$> (block_ptr <$> hs)) by (by rewrite <-list_fmap_compose).
  rewrite Ef, <-Eb. reflexivity.
Defined.

Definition wstate : WriteState Header := mkWriteState [hd 3 "c" 2 "b" false] 2 3 false.
Definition queue : Chain Header :=
  mkChain [ref 3 "c"; ref 4 "d"; ref 5 "e"] false [hd 3 "c" 2 "b" false; hd 4 "d" 3 "c" false; hd 5 "e" 4 "d" false]
    [false; false; false] 5.
Lemma queue_ok : chain_ok queue.
Proof.
  destruct (chain_new_ok (B:=Header) head_chain_empty 5) as (s0 & E & Hs0); [split; [constructor|]; split; done|].
  destruct (run_ops_ok 10 [OpPush false (hd 3 "c" 2 "b" false); OpPush false (hd 4 "d" 3 "c" false);
    OpPush false (hd 5 "e" 4 "d" false)] s0 Hs0) as [_ Hok].
  - repeat constructor; cbn; unfold after_parent; cbn; lia.
  - vm_compute in E. injection E as <-. apply (Hok queue). vm_compute. reflexivity.
Qed.
Lemma writer_advance_witness : ∃ w' started, advance wstate queue = Ok (w', started) ∧
  (length (ws_pending w') <= ws_max_pending w')%nat ∧ cb_number <$> started = [4].
Proof.
  destruct (writer_advance wstate queue queue_ok) as (w' & started & E & _ & Hl & _); [cbn; lia|].
  exists w', started. split; [exact E|]. split; [exact Hl|]. vm_compute in E. injection E as <- <-. reflexivity.
Defined.

Lemma partitions_cover_witness :
  covers_down 10 37 15 [(30, 37); (20, 29); (15, 19)] ∧ covers_up 10 15 37 [(15, 19); (20, 29); (30, 39)].
Proof.
  destruct (partitions_cover 10 15 37) as [H1 H2]; [lia..|unfold u64_max; lia|].
  change (split_into_partitions true 10 15 37) with [(30, 37); (20, 29); (15, 19)] in H1.
  change (split_into_partitions false 10 15 37) with [(15, 19); (20, 29); (30, 39)] in H2. split; [exact H1|exact H2].
Defined.
End BdsExamples.
