(* ===== verification/Client.v ===== *)
(** * Client: the HTTP client of the data source

    Models crates/data-client/src/reqwest/lines.rs ([LineStream], the framing of a response
    body into lines) and the interpretation of responses in
    crates/data-client/src/reqwest/client.rs.  The body of a response is a list of polls: a
    piece of bytes, a pending poll or a failure; an exhausted list is the end of the body.
    The HTTP exchange itself and the JSON parser are inputs. *)
From stdpp Require Import list.
From S2P Require Import Prelude Bytes Data Schema Ingest IngestSpec IngestProps Source SourceSpec SourceProps.

(** ** Lines *)

Inductive body_item : Type :=
| BodyChunk (b : bytes)
| BodyPending
| BodyErr (e : error).

Inductive poll (A : Type) : Type := PollReady (a : A) | PollPending.
Arguments PollReady {A} a.
Arguments PollPending {A}.

(** [LineStream]: [ls_open] says that [inner] is [Some]. *)
Record LineStream : Type := mkLineStream {
  ls_open : bool;
  ls_line : bytes;
  ls_unchecked_pos : nat
}.

Definition line_stream_new : LineStream := mkLineStream true [] 0.

(** [iter().position(|b| *b == b'\n')] *)
Fixpoint newline_position (l : bytes) : option nat :=
  match l with
  | [] => None
  | b :: l => if b =? 10 then Some O else S <$> newline_position l
  end.

(** [check_line]: slicing past the end panics, and so does advancing past the end. *)
Definition check_line (s : LineStream) : res (LineStream * option bytes) :=
  if (length (ls_line s) <? ls_unchecked_pos s)%nat then Panic "range start index out of range"
  else
    match newline_position (drop (ls_unchecked_pos s) (ls_line s)) with
    | Some pos =>
        let at_ := (ls_unchecked_pos s + pos)%nat in
        let line := take at_ (ls_line s) in
        let rest := drop at_ (ls_line s) in
        let skip := if decide (rest !! 1%nat = Some 13) then 2%nat else 1%nat in
        if (length rest <? skip)%nat then Panic "cannot advance past `remaining`"
        else Ok (mkLineStream (ls_open s) (drop skip rest) 0, Some line)
    | None => Ok (mkLineStream (ls_open s) (ls_line s) (length (ls_line s)), None)
    end.

Definition take_final_line (s : LineStream) : LineStream * option bytes :=
  (mkLineStream (ls_open s) [] 0, match ls_line s with [] => None | l => Some l end).

(** [poll_next]: the loop consumes the polls of the body. *)
Fixpoint line_poll_next (body : list body_item) (s : LineStream)
  : res (LineStream * list body_item * poll (option (res bytes))) :=
  '(s, line) ← check_line s;
  match line with
  | Some line => Ok (s, body, PollReady (Some (Ok line)))
  | None =>
      if negb (ls_open s) then Ok (s, body, PollReady None)
      else
        match body with
        | [] =>
            let '(s, line) := take_final_line (mkLineStream false (ls_line s) (ls_unchecked_pos s)) in
            Ok (s, [], PollReady (Ok <$> line))
        | BodyChunk b :: body =>
            line_poll_next body (mkLineStream (ls_open s) (ls_line s ++ b) (ls_unchecked_pos s))
        | BodyErr e :: body => Ok (mkLineStream false [] 0, body, PollReady (Some (Err e)))
        | BodyPending :: body => Ok (s, body, PollPending)
        end
  end.

(** A reader that polls [n] times and collects the items. *)
Fixpoint read_lines (n : nat) (body : list body_item) (s : LineStream) : res (list (res bytes) * bool) :=
  match n with
  | O => Ok ([], false)
  | S n =>
      '(s, body, p) ← line_poll_next body s;
      match p with
      | PollReady None => Ok ([], true)
      | PollReady (Some item) => '(items, ended) ← read_lines n body s; Ok (item :: items, ended)
      | PollPending => read_lines n body s
      end
  end.

(** ** Responses *)

(** What the client reads from a response: the status, the values of the two headers as
    [to_str] returns them, and the parsed body of a conflict. *)
Record http_response : Type := mkResponse {
  http_status : Z;
  http_finalized_number : option (res string);
  http_finalized_hash : option (res string);
  http_conflict : res (list BlockRef)
}.

Definition get_finalized_head_number (r : http_response) : option (res Z) :=
  (λ v, s ← v; ok_or (parse_usize s) (EMsg "invalid digit found in string")) <$> http_finalized_number r.
Definition get_finalized_head_hash (r : http_response) : option (res string) := http_finalized_hash r.

(** [Option::transpose] *)
Definition transpose {A} (o : option (res A)) : res (option A) :=
  match o with None => Ok None | Some (Ok a) => Ok (Some a) | Some (Err e) => Err e | Some (Panic m) => Panic m end.

Definition extract_finalized_head (r : http_response) : res (option BlockRef) :=
  n ← transpose (get_finalized_head_number r);
  h ← transpose (get_finalized_head_hash r);
  match n, h with
  | Some n, Some h => Ok (Some (mkBlockRef n h))
  | None, None => Ok None
  | Some _, None => Err (EMsg "x-sqd-finalized-head-hash is missing")
  | None, Some _ => Err (EMsg "x-sqd-finalized-head-number is missing")
  end.

(** [stream_query] after the request was sent; a stream that is not empty is the body. *)
Definition stream_query (r : http_response) : res (BlockStreamResponse * bool) :=
  if http_status r =? 200 then fin ← extract_finalized_head r; Ok (RespStream fin, true)
  else if http_status r =? 204 then fin ← extract_finalized_head r; Ok (RespStream fin, false)
  else if http_status r =? 409 then
    prev ← http_conflict r;
    _ ← ensure (negb (bool_decide (prev = []))) (EMsg "got an empty list of prev blocks");
    Ok (RespFork prev, false)
  else Err (EMsg "unexpected http status").

(** [is_retryable] over the chain of causes of an error. *)
Inductive io_error_kind : Type :=
| ConnectionAborted | ConnectionRefused | ConnectionReset | HostUnreachable | NetworkUnreachable | TimedOut | OtherKind.
Inductive cause : Type :=
| UnexpectedHttpStatus (status : Z)
| ReqwestError (status : Z) (is_timeout is_request : bool) (closed_early : bool)
| IoError (kind : io_error_kind)
| OtherCause.

Definition retryable_status (s : Z) : bool := existsb (Z.eqb s) [429; 502; 503; 504; 524].
Fixpoint is_retryable (chain : list cause) : bool :=
  match chain with
  | [] => false
  | UnexpectedHttpStatus s :: _ => retryable_status s
  | ReqwestError s is_timeout is_request closed_early :: chain =>
      (retryable_status s || is_timeout || (is_request && closed_early) || is_retryable chain)%bool
  | IoError OtherKind :: chain => is_retryable chain
  | IoError _ :: _ => true
  | OtherCause :: chain => is_retryable chain
  end.

(** ** Framing and the contract of the client

    The lines a response body is cut into do not depend on how the body arrives, and what the
    client answers keeps the contract that the data source relies on. *)

(** ** The reference: cutting a byte string at newlines *)

Definition no_newline (l : bytes) : Prop := 10 ∉ l.
(** The text of a list of terminated lines and an unterminated rest. *)
Definition text (ls : list bytes) (rest : bytes) : bytes := foldr (λ l t, l ++ 10 :: t) rest ls.
(** A newline followed by a carriage return, which the stream skips. *)
Definition lf_cr_free (l : bytes) : Prop := ∀ a b, l ≠ a ++ 10 :: 13 :: b.

(** The bytes of a body up to its first failure, and that failure. *)
Fixpoint body_bytes (body : list body_item) : bytes :=
  match body with
  | BodyChunk b :: body => b ++ body_bytes body
  | BodyPending :: body => body_bytes body
  | _ => []
  end.
Fixpoint body_error (body : list body_item) : option error :=
  match body with
  | BodyErr e :: _ => Some e
  | _ :: body => body_error body
  | [] => None
  end.

(** [unchecked_pos] is inside the buffer and no newline comes before it. *)
Definition line_stream_ok (s : LineStream) : Prop :=
  (ls_unchecked_pos s <= length (ls_line s))%nat ∧ no_newline (take (ls_unchecked_pos s) (ls_line s)).
Definition ended (s : LineStream) : Prop := s = mkLineStream false [] 0.

Lemma lf_cr_suffix a b : lf_cr_free (a ++ b) → lf_cr_free b.
Proof. intros H x y ->. by apply (H (a ++ x) y); rewrite <-app_assoc. Qed.

Lemma newline_position_spec l :
  match newline_position l with
  | Some p => ∃ a b, l = a ++ 10 :: b ∧ length a = p ∧ no_newline a
  | None => no_newline l
  end.
Proof.
  induction l as [|x l IH]; [by intros ?%elem_of_nil|]. simpl. destruct (Z.eqb_spec x 10) as [->|Hx].
  - exists [], l. split_and!; [done..|]. by intros ?%elem_of_nil.
  - destruct (newline_position l) as [p|]; simpl.
    + destruct IH as (a & b & -> & <- & Ha). exists (x :: a), b. split_and!; [done..|]. unfold no_newline in *. set_solver.
    + unfold no_newline in *. set_solver.
Qed.

(** A check finds the first newline, or none. *)
Lemma check_line_spec s : line_stream_ok s →
  ∃ s' o, check_line s = Ok (s', o) ∧ ls_open s' = ls_open s ∧
    match o with
    | Some line => no_newline line ∧ line_stream_ok s' ∧
        (ls_line s = line ++ 10 :: ls_line s' ∨ ls_line s = line ++ 10 :: 13 :: ls_line s')
    | None => no_newline (ls_line s) ∧ s' = mkLineStream (ls_open s) (ls_line s) (length (ls_line s))
    end.
Proof.
  intros [Hu Hn]. unfold check_line. destruct (Nat.ltb_spec (length (ls_line s)) (ls_unchecked_pos s)); [lia|].
  pose proof (newline_position_spec (drop (ls_unchecked_pos s) (ls_line s))) as Hp.
  destruct (newline_position _) as [p|].
  - destruct Hp as (a & b & E & <- & Ha). set (u := ls_unchecked_pos s) in *.
    assert (El : ls_line s = (take u (ls_line s) ++ a) ++ 10 :: b) by (by rewrite <-app_assoc, <-E, take_drop).
    assert (Hlen : length (take u (ls_line s) ++ a) = (u + length a)%nat) by (rewrite length_app, length_take; lia).
    assert (Et : take (u + length a) (ls_line s) = take u (ls_line s) ++ a) by (by rewrite El at 1; rewrite take_app_length').
    assert (Ed : drop (u + length a) (ls_line s) = 10 :: b) by (by rewrite El; rewrite drop_app_length').
    rewrite Et, Ed. assert (Hno : no_newline (take u (ls_line s) ++ a)) by (unfold no_newline in *; set_solver).
    destruct b as [|c b]; simpl.
    + eexists _, _. split; [done|]. split_and!; [done..| |by left]. split; simpl; [lia|by intros ?%elem_of_nil].
    + case_decide as Hc; simplify_eq/=; eexists _, _; (split; [done|]); split_and!; try done;
        try (split; simpl; [lia|by intros ?%elem_of_nil]); first [by left | by right].
  - eexists _, _. split; [done|]. split_and!; [done| |done].
    rewrite <-(take_drop (ls_unchecked_pos s) (ls_line s)). unfold no_newline in *. set_solver.
Qed.

(** One poll of an open stream: a line, the rest of the body, its failure, its end, or
    nothing yet; what is still to be read is what was to be read less the line. *)
Definition to_read (body : list body_item) (s : LineStream) : bytes := ls_line s ++ body_bytes body.

Definition polled (body : list body_item) (s : LineStream) (body' : list body_item) (s' : LineStream)
  (p : poll (option (res bytes))) : Prop :=
  match p with
  | PollReady (Some (Ok line)) => no_newline line ∧
      ((ls_open s' = true ∧ line_stream_ok s' ∧ to_read body s = line ++ 10 :: to_read body' s' ∧
        body_error body' = body_error body ∧ (length body' <= length body)%nat) ∨
       (ended s' ∧ line ≠ [] ∧ to_read body s = line ∧ body_error body = None))
  | PollReady (Some (Err e)) => ended s' ∧ body_error body = Some e ∧ no_newline (to_read body s)
  | PollReady (Some (Panic _)) => False
  | PollReady None => to_read body s = [] ∧ body_error body = None ∧ ended s'
  | PollPending => ls_open s' = true ∧ line_stream_ok s' ∧ to_read body' s' = to_read body s ∧
      body_error body' = body_error body ∧ (length body' < length body)%nat
  end.

Lemma line_poll_spec body : ∀ s, line_stream_ok s → ls_open s = true → lf_cr_free (to_read body s) →
  ∃ s' body' p, line_poll_next body s = Ok (s', body', p) ∧ polled body s body' s' p.
Proof.
  induction body as [|it body IH]; intros s Hs Ho Hf.
  - destruct (check_line_spec s Hs) as (s1 & o & E & Ho1 & Hc).
    assert (Hstep : line_poll_next [] s = ('(s, line) ← check_line s; match line with
      | Some line => Ok (s, [], PollReady (Some (Ok line)))
      | None => if negb (ls_open s) then Ok (s, [], PollReady None)
                else Ok (mkLineStream false [] 0, [], PollReady (Ok <$> match ls_line s with [] => None | l => Some l end))
      end)) by done.
    rewrite Hstep, E. simpl. unfold to_read in *. simpl in *. rewrite app_nil_r in *.
    destruct o as [line|].
    + destruct Hc as (Hno & Hok & [El|El]); [|by destruct (Hf line (ls_line s1))].
      eexists _, _, _. split; [done|]. split; [done|]. left. unfold to_read. simpl. rewrite !app_nil_r. split_and!; try done; congruence.
    + destruct Hc as (Hno & ->). simpl. rewrite Ho. simpl. eexists _, _, _. split; [done|]. destruct (ls_line s) as [|x l] eqn:El; simpl.
      * unfold to_read. simpl. by rewrite El.
      * split; [done|]. right. unfold to_read. simpl. rewrite El, app_nil_r. done.
  - destruct (check_line_spec s Hs) as (s1 & o & E & Ho1 & Hc). cbn [line_poll_next]. rewrite E. simpl.
    destruct o as [line|].
    + destruct Hc as (Hno & Hok & [El|El]); unfold to_read in Hf; rewrite El, <-app_assoc in Hf;
        [|by destruct (Hf line (ls_line s1 ++ body_bytes (it :: body)))].
      eexists _, _, _. split; [done|]. split; [done|]. left. unfold to_read. rewrite El, <-app_assoc.
      split_and!; try done; congruence.
    + destruct Hc as (Hno & ->). simpl. rewrite Ho. simpl. unfold to_read in *. destruct it as [b| |e]; simpl in *.
      * destruct (IH (mkLineStream true (ls_line s ++ b) (length (ls_line s)))) as (s2 & body' & p & E2 & Hp).
        { split; simpl; [rewrite length_app; lia|]. by rewrite take_app_length. }
        { done. }
        { unfold to_read. simpl. by rewrite <-app_assoc. }
        exists s2, body', p. split; [done|]. unfold polled, to_read in *. simpl in *. rewrite <-app_assoc in Hp.
        destruct p as [[[line|e|m]|]|]; try done.
        -- destruct Hp as [Hl [(?&?&?&?&?)|?]]; (split; [done|]); [left|by right]. split_and!; try done; lia.
        -- destruct Hp as (?&?&?&?&?). split_and!; try done; lia.
      * eexists _, _, _. split; [done|]. simpl. split_and!; try done; [|lia]. split; simpl; [lia|]. by rewrite firstn_all.
      * eexists _, _, _. split; [done|]. simpl. unfold to_read. simpl. rewrite app_nil_r. done.
Qed.

Lemma read_lines_ended n body s : ended s → read_lines (S n) body s = Ok ([], true).
Proof. intros ->. destruct body; done. Qed.

(** What a reader gets from text: its lines, then what follows the last newline. *)
Definition final_items (e : option error) (rest : bytes) : list (res bytes) :=
  match e, rest with Some e, _ => [Err e] | None, [] => [] | None, _ => [Ok rest] end.

Lemma read_lines_spec n : ∀ body s, line_stream_ok s → ls_open s = true → lf_cr_free (to_read body s) →
  (S (length body + length (to_read body s)) < n)%nat →
  ∃ ls rest, to_read body s = text ls rest ∧ Forall no_newline ls ∧ no_newline rest ∧
    read_lines n body s = Ok ((Ok <$> ls) ++ final_items (body_error body) rest, true).
Proof.
  induction n as [|n IH]; intros body s Hs Ho Hf Hn; [lia|]. cbn [read_lines].
  destruct (line_poll_spec body s Hs Ho Hf) as (s' & body' & p & -> & Hp). simpl.
  destruct p as [[[line|e|m]|]|]; simpl in Hp; [|..].
  - destruct Hp as [Hno [(Ho' & Hs' & Er & Ee & Hl)|(He & Hne & Er & Ee)]].
    + rewrite Er in Hf, Hn. rewrite length_app in Hn. simpl in Hn.
      destruct (IH body' s' Hs' Ho') as (ls & rest & Et & Hls & Hr & E); [|lia|].
      { apply (lf_cr_suffix (line ++ [10])). by rewrite <-app_assoc. }
      rewrite E. simpl. exists (line :: ls), rest. rewrite Er, Et, Ee. split_and!; try done. by constructor.
    + destruct n as [|n]; [destruct line; [done|]; rewrite Er in Hn; simpl in Hn; lia|].
      rewrite read_lines_ended by done. simpl. exists [], line. rewrite Er, Ee. split_and!; try done. by destruct line.
  - destruct Hp as (He & Ee & Hno). destruct n as [|n]; [lia|]. rewrite read_lines_ended by done. simpl.
    exists [], (to_read body s). rewrite Ee. done.
  - done.
  - destruct Hp as (Er & Ee & He). exists [], []. rewrite Er, Ee. split_and!; try done. by intros ?%elem_of_nil.
  - destruct Hp as (Ho' & Hs' & Er & Ee & Hl). rewrite <-Er in *. rewrite <-Ee. apply IH; try done. lia.
Qed.

(** C31: framing does not depend on how a body arrives, for a body in which no line feed is
    followed by a carriage return (such a pair is cut differently when a piece ends between the
    two bytes, see [ClientExamples.carriage_return_depends_on_pieces]).  However the bytes are
    cut into pieces and whatever polls find nothing, a reader of the line stream gets exactly
    the newline-terminated lines of the bytes in order, then the unterminated rest if there is
    one, or the failure of the body in place of the rest; no poll panics and the stream ends
    after at most as many polls as the body has pieces and bytes, plus two. *)
Theorem line_stream_exact body n : lf_cr_free (body_bytes body) →
  (S (length body + length (body_bytes body)) < n)%nat →
  ∃ ls rest, body_bytes body = text ls rest ∧ Forall no_newline ls ∧ no_newline rest ∧
    read_lines n body line_stream_new = Ok ((Ok <$> ls) ++ final_items (body_error body) rest, true).
Proof.
  intros Hf Hn. apply (read_lines_spec n body line_stream_new); try done. split; simpl; [lia|]. by intros ?%elem_of_nil.
Qed.

(** ** The contract of the client *)

Section contract.
Context {B : Type} `{Block B} (parse : bytes → res B).

(** What the source sees when it polls a client: the interpreted response, the next item of
    the line stream, and its timer. *)
Definition http_answer (r : option http_response) (body : list body_item) (s : LineStream) (sleep : bool)
  : answer bytes :=
  mkAnswer (match r with Some r => Some (fst <$> stream_query r) | None => None end)
    (match line_poll_next body s with
     | Ok (_, _, PollReady item) => Some item
     | Ok (_, _, PollPending) => None
     | Err e => Some (Some (Err e))
     | Panic m => Some (Some (Panic m))
     end) sleep.

(** The headers and the body of a conflict are read without panic. *)
Definition response_ok (r : http_response) : Prop :=
  (∀ v, http_finalized_number r = Some v → safe v) ∧ (∀ v, http_finalized_hash r = Some v → safe v) ∧
  safe (http_conflict r).

(** A parser that yields blocks with room for a successor. *)
Definition parser_ok : Prop :=
  ∀ rb, match parse rb with Ok b => 0 <= block_number b < u64_max | Err _ => True | Panic _ => False end.

(** A stream as it is left by polls. *)
Definition polled_stream (s : LineStream) : Prop := (ls_open s = true ∧ line_stream_ok s) ∨ ended s.

Lemma parse_usize_range s n : parse_usize s = Some n → u64_ok n.
Proof.
  assert (Hd : ∀ s n, parse_digits s = Some n → u64_ok n).
  { intros t m. unfold parse_digits. destruct t as [|c t]; [done|].
    destruct (DecimalString.NilEmpty.uint_of_string _) as [u|]; simpl; [|done].
    destruct (Z.leb_spec (Z.of_N (N.of_uint u)) u64_max); [|done]. intros [= <-]. unfold u64_ok. lia. }
  unfold parse_usize. destruct s as [|c s]; [apply Hd|].
  destruct c as [[] [] [] [] [] [] [] []]; apply Hd.
Qed.

Lemma finalized_number_range r n : transpose (get_finalized_head_number r) = Ok (Some n) → u64_ok n.
Proof.
  unfold get_finalized_head_number. destruct (http_finalized_number r) as [[t|e|m]|]; simpl; try done.
  destruct (parse_usize t) eqn:Ep; simpl; [|done]. intros [= <-]. by eapply parse_usize_range.
Qed.

Lemma finalized_head_range r h : extract_finalized_head r = Ok (Some h) → u64_ok (number h).
Proof.
  unfold extract_finalized_head. intros E. inv_res E. destruct v as [n|], v0 as [t|]; simplify_eq.
  by eapply finalized_number_range.
Qed.

Lemma safe_transpose {A} (o : option (res A)) : (∀ v, o = Some v → safe v) → safe (transpose o).
Proof. intros Ho. destruct o as [[a|e|m]|]; simpl; try no_panic. by destruct (Ho _ eq_refl m). Qed.

Lemma extract_finalized_head_safe r : response_ok r → safe (extract_finalized_head r).
Proof.
  intros (Hn & Hh & _). unfold extract_finalized_head. apply safe_bind; [|intros ? _; apply safe_bind; [|intros]].
  - apply safe_transpose. unfold get_finalized_head_number. intros v Hv.
    destruct (http_finalized_number r) as [w|]; simplify_eq/=. apply safe_bind; [by apply Hn|]. intros t _.
    destruct (parse_usize t); simpl; no_panic.
  - by apply safe_transpose.
  - repeat case_match; no_panic.
Qed.

Lemma stream_query_safe r : response_ok r → safe (stream_query r).
Proof.
  intros Hr. pose proof (extract_finalized_head_safe r Hr). pose proof Hr as (_ & _ & Hc). unfold stream_query. no_panic.
Qed.

(** The next item of a polled stream is a line or a failure. *)
Lemma line_poll_safe body : ∀ s, polled_stream s →
  ∃ s' body' p, line_poll_next body s = Ok (s', body', p) ∧ polled_stream s' ∧
    ∀ m, p ≠ PollReady (Some (Panic m)).
Proof.
  induction body as [|it body IH]; intros s [[Ho Hs]| ->]; [|by eexists _, _, _; split; [done|]; split; [by right|]| |
    by eexists _, _, _; split; [done|]; split; [by right|]]; cbn [line_poll_next];
    destruct (check_line_spec s Hs) as (s1 & o & -> & Ho1 & Hc); simpl; (destruct o as [line|];
      [destruct Hc as (_ & Hok & _); eexists _, _, _; split; [done|]; split; [left; split; [congruence|done]|done]|]);
    destruct Hc as (Hno & ->); simpl; rewrite Ho; simpl.
  - eexists _, _, _. split; [done|]. split; [by right|]. by destruct (ls_line s).
  - destruct it as [b| |e].
    + apply IH. left. split; [done|]. split; simpl; [rewrite length_app; lia|]. by rewrite take_app_length.
    + eexists _, _, _. split; [done|]. split; [|done]. left. split; [done|]. split; simpl; [lia|]. by rewrite firstn_all.
    + eexists _, _, _. split; [done|]. split; [by right|done].
Qed.

(** The HTTP client keeps the contract of the data source.  Whatever a server answers and
    however its body arrives, a fork carries at least one hint, a finalized head has a 64-bit
    number, items are lines or failures, and neither interpreting the response nor framing
    the body panics; so the guarantees of the source hold over this client. *)
Theorem http_client_contract r body s sleep : parser_ok → (∀ x, r = Some x → response_ok x) → polled_stream s →
  answer_ok parse (http_answer r body s sleep).
Proof.
  intros Hp Hr Hs. split; simpl.
  - intros x Hx. destruct r as [r|]; [|done]. injection Hx as <-. pose proof (stream_query_safe r (Hr _ eq_refl)) as Hsafe.
    destruct (stream_query r) as [[a b]|e|m] eqn:E; simpl; [|done|by destruct (Hsafe m)].
    unfold stream_query in E. repeat case_match; simplify_eq/=; inv_res E; simplify_eq; try done.
    + intros h ->. by eapply finalized_head_range.
    + intros h ->. by eapply finalized_head_range.
    + match goal with H : ensure _ _ = Ok _ |- _ => apply ensure_Ok in H end. by case_bool_decide.
  - intros x Hx. destruct (line_poll_safe body s Hs) as (s' & body' & p & E & _ & Hno). rewrite E in Hx.
    destruct p as [item|]; simplify_eq. destruct x as [rb|e|m]; [apply Hp|done|by apply (Hno m)].
Qed.
End contract.

(** ** Examples *)

Module ClientExamples.
Import IngestExamples.

(** "ab\ncd" in three pieces with a pending poll in between. *)
Definition pieces : list body_item := [BodyChunk [97]; BodyPending; BodyChunk [98; 10; 99]; BodyChunk [100]].

Lemma line_stream_exact_witness :
  lf_cr_free (body_bytes pieces) ∧ read_lines 20 pieces line_stream_new = Ok ([Ok [97; 98]; Ok [99; 100]], true) ∧
  ∃ ls rest, body_bytes pieces = text ls rest ∧ Forall no_newline ls ∧ no_newline rest ∧
    read_lines 20 pieces line_stream_new = Ok ((Ok <$> ls) ++ final_items (body_error pieces) rest, true).
Proof.
  assert (Hf : lf_cr_free (body_bytes pieces)).
  { intros a b E. assert (Hin : 13 ∈ body_bytes pieces) by (rewrite E; set_solver). vm_compute in Hin. set_solver. }
  split_and!; [exact Hf|reflexivity|]. apply (line_stream_exact pieces 20 Hf). vm_compute. lia.
Defined.

(** A line feed with a carriage return after it is cut differently when a piece ends between them. *)
Lemma carriage_return_depends_on_pieces :
  read_lines 20 [BodyChunk [97; 10; 13; 98; 10]] line_stream_new = Ok ([Ok [97]; Ok [98]], true) ∧
  read_lines 20 [BodyChunk [97; 10]; BodyChunk [13; 98; 10]] line_stream_new = Ok ([Ok [97]; Ok [13; 98]], true) ∧
  read_lines 20 [BodyChunk [97; 13; 10; 98; 13; 10]] line_stream_new = Ok ([Ok [97; 13]; Ok [98; 13]], true).
Proof. split_and!; reflexivity. Qed.

(** A parser of one-byte blocks and a conflict response. *)
Definition parse_byte (rb : bytes) : res blk :=
  match rb with [n] => if (0 <=? n) && (n <? 256) then Ok (mkBlk n "h" "p" 0) else Err (EMsg "byte") | _ => Err (EMsg "length") end.
Definition conflict : http_response := mkResponse 409 None None (Ok [mkBlockRef 4 "z"]).

Lemma http_client_contract_witness :
  stream_query conflict = Ok (RespFork [mkBlockRef 4 "z"], false) ∧
  answer_ok parse_byte (http_answer (Some conflict) pieces line_stream_new false).
Proof.
  split; [reflexivity|]. apply (http_client_contract parse_byte).
  - intros rb. unfold parse_byte. destruct rb as [|n [|? ?]]; try done.
    destruct ((0 <=? n) && (n <? 256)) eqn:E; [|done]. zbool. cbn. unfold u64_max. lia.
  - intros x [= <-]. split_and!; [done..|]. apply safe_Ok.
  - left. split; [done|]. split; [simpl; lia|]. by intros ?%elem_of_nil.
Defined.
End ClientExamples.
