(* ===== verification/Archive.v ===== *)
(** * Archive: the chunk archive

    Models crates/archive/src: the directory layout with its listing streams and the chunk
    tracker (layout.rs), the batching of blocks into chunks (chunk_writer.rs, proc.rs), the
    order in which a chunk is moved to its place (writer.rs), the reconnecting block stream
    (ingest.rs) and the progress window (progress.rs).

    The file system is the class [Fs], the trait of crates/archive/src/fs/mod.rs; a relative
    path is the list of its components.  Names are ASCII, so that the digits and word
    characters of the pattern of [parse_range] are the ASCII ones.  The chunk builder is the
    class [ChunkBuilder] of Ingest.v.  Writing Parquet files, metrics and logging are not
    modelled. *)

From stdpp Require Import list sorting.
From Stdlib Require Import Ascii.
From S2P Require Import Prelude Data Schema Ingest.

(** ** File systems *)

Class Fs (F : Type) : Type := {
  fs_ls : list string → F → res (list string);
  fs_move_local : list string → F → F * res unit;
  fs_delete : list string → F → F * res unit
}.

(** What the layout relies on.  [fs_has f p] says that a file or directory is at [p].  Whether
    a directory that loses its last entry stays is left open: local file systems keep it,
    object stores do not.  A move that fails or is cut short may have made the directories
    (local.rs) or even the file itself (s3.rs, when the local copy cannot be removed), and
    nothing else. *)
Class FsLaws (F : Type) `{Fs F} : Type := {
  fs_has : F → list string → Prop;
  fs_ls_has : ∀ f dir, ∃ names, fs_ls dir f = Ok names ∧ NoDup names ∧ ∀ n, n ∈ names ↔ fs_has f (dir ++ [n]);
  fs_move_has : ∀ f p f', fs_move_local p f = (f', Ok tt) → ∀ q, fs_has f' q ↔ fs_has f q ∨ (q ≠ [] ∧ q `prefix_of` p);
  fs_move_any : ∀ f p f' r, fs_move_local p f = (f', r) → ∀ q,
    (fs_has f q → fs_has f' q) ∧ (fs_has f' q → fs_has f q ∨ (q ≠ [] ∧ q `prefix_of` p));
  fs_delete_gone : ∀ f p f', fs_delete p f = (f', Ok tt) → ∀ q, fs_has f' q → fs_has f q ∧ ¬ p `prefix_of` q;
  fs_delete_kept : ∀ f p f', fs_delete p f = (f', Ok tt) → ∀ q, fs_has f q → ¬ p `prefix_of` q → ¬ q `prefix_of` p → fs_has f' q;
  fs_parent : ∀ f p q, p ≠ [] → fs_has f (p ++ q) → fs_has f p
}.

(** ** Names *)

Fixpoint zeros (n : nat) : string := match n with O => EmptyString | S n => String "0" (zeros n) end.

(** [format!("{:010}", n)] *)
Definition format_block_number (n : Z) : string :=
  let s := print_usize n in zeros (10 - String.length s) +:+ s.

Record DataChunk : Type := mkDataChunk {
  dc_first_block : Z;
  dc_last_block : Z;
  dc_last_hash : string;
  dc_top : Z
}.
#[export] Instance DataChunk_eq_dec : EqDecision DataChunk.
Proof. solve_decision. Defined.

Definition range_name (first last : Z) (hash : string) : string :=
  format_block_number first +:+ "-" +:+ format_block_number last +:+ "-" +:+ hash.
Definition chunk_path (c : DataChunk) : list string :=
  [format_block_number (dc_top c); range_name (dc_first_block c) (dc_last_block c) (dc_last_hash c)].

(** The derived [Ord] of [DataChunk]. *)
Definition dc_le (a b : DataChunk) : Prop :=
  dc_first_block a < dc_first_block b ∨ dc_first_block a = dc_first_block b ∧
  (dc_last_block a < dc_last_block b ∨ dc_last_block a = dc_last_block b ∧
   (dc_last_hash a ≠ dc_last_hash b ∧ String.le (dc_last_hash a) (dc_last_hash b) ∨
    dc_last_hash a = dc_last_hash b ∧ dc_top a <= dc_top b)).
#[export] Instance dc_le_dec : RelDecision dc_le.
Proof. intros a b. unfold dc_le. apply _. Defined.

Definition is_digit (c : ascii) : bool := let n := nat_of_ascii c in ((48 <=? n) && (n <=? 57))%nat.
Definition is_word (c : ascii) : bool :=
  let n := nat_of_ascii c in
  (is_digit c || (65 <=? n) && (n <=? 90) || (97 <=? n) && (n <=? 122) || (n =? 95))%nat%bool.
Fixpoint all_chars (f : ascii → bool) (s : string) : bool :=
  match s with EmptyString => true | String c s => (f c && all_chars f s)%bool end.
Definition plus (f : ascii → bool) (s : string) : bool := (negb (bool_decide (s = "")) && all_chars f s)%bool.

Fixpoint split_dash (s : string) : list string :=
  match s with
  | EmptyString => [EmptyString]
  | String c s =>
      if decide (c = "-"%char) then EmptyString :: split_dash s
      else match split_dash s with
           | part :: rest => String c part :: rest
           | [] => [String c EmptyString]
           end
  end.

(** The pattern [^(\d+)-(\d+)-(\w+)$]: neither class contains the dash, so a match is a name
    of three parts.  The numbers are parsed and unwrapped. *)
Definition parse_range (dirname : string) : res (option (Z * Z * string)) :=
  match split_dash dirname with
  | [a; b; h] =>
      if (plus is_digit a && plus is_digit b && plus is_word h)%bool then
        match parse_usize a, parse_usize b with
        | Some beg, Some end_ => Ok (Some (beg, end_, h))
        | _, _ => Panic "called Result::unwrap() on an Err value"
        end
      else Ok None
  | _ => Ok None
  end.

(** ** Layout *)

Section layout.
Context {F : Type} `{Fs F}.

Definition get_tops (f : F) : res (list Z) :=
  names ← fs_ls [] f;
  tops ← collect ((λ s, match parse_usize s with
                        | Some top => _ ← ensure (bool_decide (format_block_number top = s)) (EMsg "not canonical"); Ok top
                        | None => Panic "called Result::unwrap() on an Err value"
                        end) <$> filter (λ s, is_Some (parse_usize s)) names);
  Ok (merge_sort Z.le tops).

(** [filter_map] and [map] of [get_top_chunks]. *)
Definition read_chunk_name (top : Z) (s : string) : res (option DataChunk) :=
  r ← parse_range s;
  match r with
  | Some (first, last, hash) =>
      let chunk := mkDataChunk first last hash top in
      _ ← ensure (bool_decide ([format_block_number top; s] = chunk_path chunk)) (EMsg "not canonical");
      Ok (Some chunk)
  | None => Ok None
  end.

Definition get_top_chunks (top : Z) (f : F) : res (list DataChunk) :=
  names ← fs_ls [format_block_number top] f;
  chunks ← collect (read_chunk_name top <$> names);
  Ok (merge_sort dc_le (omap id chunks)).

(** The streams are generators: the chunks of the directory being read and the directories
    not read yet. *)
Record chunk_gen : Type := mkGen { gen_chunks : list DataChunk; gen_tops : list Z }.

Inductive scan_result : Type := ScanYield (c : DataChunk) (rest : list DataChunk) | ScanStop | ScanEnd.

(** The inner loop of [get_chunks]. *)
Fixpoint scan_forward (first last : Z) (cs : list DataChunk) : scan_result :=
  match cs with
  | [] => ScanEnd
  | c :: cs =>
      if last <? dc_first_block c then ScanStop
      else if first >? dc_last_block c then scan_forward first last cs
      else ScanYield c cs
  end.

(** The outer loop, after the chunks [cs] of the current directory. *)
Fixpoint next_forward (first last : Z) (f : F) (tops : list Z) (cs : list DataChunk)
  : res (option (DataChunk * chunk_gen)) :=
  match scan_forward first last cs with
  | ScanYield c rest => Ok (Some (c, mkGen rest tops))
  | ScanStop => Ok None
  | ScanEnd =>
      match tops with
      | [] => Ok None
      | top :: tops =>
          if last <? top then Ok None
          else if match tops with next :: _ => next <? first | [] => false end then next_forward first last f tops []
          else chunks ← get_top_chunks top f; next_forward first last f tops chunks
      end
  end.

Fixpoint scan_backward (first last : Z) (cs : list DataChunk) : scan_result :=
  match cs with
  | [] => ScanEnd
  | c :: cs =>
      if dc_first_block c >? last then scan_backward first last cs
      else if dc_last_block c <? first then ScanStop
      else ScanYield c cs
  end.

Fixpoint next_backward (first last : Z) (f : F) (tops : list Z) (cs : list DataChunk)
  : res (option (DataChunk * chunk_gen)) :=
  match scan_backward first last cs with
  | ScanYield c rest => Ok (Some (c, mkGen rest tops))
  | ScanStop => Ok None
  | ScanEnd =>
      match tops with
      | [] => Ok None
      | top :: tops =>
          if top >? last then next_backward first last f tops []
          else chunks ← get_top_chunks top f; next_backward first last f tops (reverse chunks)
      end
  end.

(** The start of [get_chunks] and of [get_chunks_in_reversed_order]. *)
Definition get_chunks (first : Z) (last : option Z) (f : F) : res (option (DataChunk * chunk_gen)) :=
  let last := default u64_max last in
  if first >? last then Ok None else tops ← get_tops f; next_forward first last f tops [].
Definition get_chunks_in_reversed_order (first : Z) (last : option Z) (f : F) : res (option (DataChunk * chunk_gen)) :=
  let last := default u64_max last in
  if first >? last then Ok None else tops ← get_tops f; next_backward first last f (reverse tops) [].

(** [try_collect] of a stream whose next item is [next]. *)
Fixpoint collect_chunks (fuel : nat) (next : chunk_gen → res (option (DataChunk * chunk_gen)))
  (item : res (option (DataChunk * chunk_gen))) : res (list DataChunk) :=
  match fuel with
  | O => Panic "out of fuel"
  | S fuel =>
      o ← item;
      match o with
      | None => Ok []
      | Some (c, g) => cs ← collect_chunks fuel next (next g); Ok (c :: cs)
      end
  end.
Definition forward_from (first last : Z) (f : F) (g : chunk_gen) := next_forward first last f (gen_tops g) (gen_chunks g).
Definition backward_from (first last : Z) (f : F) (g : chunk_gen) := next_backward first last f (gen_tops g) (gen_chunks g).

(** ** The chunk tracker *)

Record ChunkTracker : Type := mkTracker {
  ct_top_dir_size : nat;
  ct_base_chunk_hash : option string;
  ct_last_block_limit : Z;
  ct_top : Z;
  ct_chunks : list DataChunk
}.

Definition prev_chunk_hash (t : ChunkTracker) : option string :=
  match last (ct_chunks t) with Some c => Some (dc_last_hash c) | None => ct_base_chunk_hash t end.
Definition next_block (t : ChunkTracker) : Z :=
  match last (ct_chunks t) with Some c => u64_add (dc_last_block c) 1 | None => ct_top t end.

Definition next_chunk_dir (first_block last_block : Z) (last_hash : string) (t : ChunkTracker)
  : res (DataChunk * ChunkTracker) :=
  if negb (next_block t =? first_block) then Panic "assertion `left == right` failed"
  else if negb (first_block <=? last_block) then Panic "assertion failed: first_block <= last_block"
  else if negb (last_block <=? ct_last_block_limit t) then Panic "assertion failed: last_block <= self.last_block_limit"
  else
    let full := (ct_top_dir_size t <=? length (ct_chunks t))%nat in
    let top := if full then first_block else ct_top t in
    let chunks := if full then [] else ct_chunks t in
    let chunk := mkDataChunk first_block last_block last_hash top in
    Ok (chunk, mkTracker (ct_top_dir_size t) (ct_base_chunk_hash t) (ct_last_block_limit t) top (chunks ++ [chunk])).

(** [chunk_check] of archive.rs: [str::starts_with("blocks.parquet")]. *)
Definition chunk_check (filelist : list string) : bool := existsb (String.prefix "blocks.parquet") filelist.

(** The first chunk of the range starts it; the last chunk, with the rest of its stream. *)
Definition boundary_chunks (first_block : Z) (last_block : option Z) (f : F) : res (option (DataChunk * chunk_gen)) :=
  _ ← ensure (first_block <=? default u64_max last_block) (EMsg "first block above last block");
  first_chunk ← get_chunks first_block last_block f;
  _ ← match first_chunk with
      | Some (c, _) => ensure (dc_first_block c =? first_block) (EMsg "First chunk of the range")
      | None => Ok tt
      end;
  get_chunks_in_reversed_order first_block last_block f.

(** An incomplete last chunk is deleted, and the chunk before it is the last one. *)
Definition drop_incomplete (check : list string → bool) (first_block : Z) (last_block : option Z)
  (c : DataChunk) (g : chunk_gen) (f : F) : F * res (option DataChunk) :=
  if match last_block with Some l => l <? dc_last_block c | None => false end
  then (f, Err (EMsg "Chunk is not aligned with range"))
  else
    match fs_ls (chunk_path c) f with
    | Ok filelist =>
        if check filelist then (f, Ok (Some c))
        else
          match fs_delete (chunk_path c) f with
          | (f, Ok _) => (f, match backward_from first_block (default u64_max last_block) f g with
                             | Ok o => Ok (fst <$> o)
                             | Err e => Err e
                             | Panic m => Panic m
                             end)
          | (f, Err e) => (f, Err e)
          | (f, Panic m) => (f, Panic m)
          end
    | Err e => (f, Err e)
    | Panic m => (f, Panic m)
    end.

Definition tracker_after (top_dir_size : nat) (first_block : Z) (last_block : option Z)
  (last_chunk : option DataChunk) (f : F) : res ChunkTracker :=
  let limit := default u64_max last_block in
  match last_chunk with
  | Some c =>
      chunks ← get_top_chunks (dc_top c) f;
      match chunks with
      | [] => Err (EMsg "Data is not supposed to be changed by external process during writing")
      | _ => Ok (mkTracker top_dir_size (Some (dc_last_hash c)) limit (dc_top c) chunks)
      end
  | None => Ok (mkTracker top_dir_size None limit first_block [])
  end.

Definition create_chunk_tracker (check : list string → bool) (top_dir_size : nat) (first_block : Z)
  (last_block : option Z) (f : F) : F * res ChunkTracker :=
  match boundary_chunks first_block last_block f with
  | Ok (Some (c, g)) =>
      match drop_incomplete check first_block last_block c g f with
      | (f, Ok last_chunk) => (f, tracker_after top_dir_size first_block last_block last_chunk f)
      | (f, Err e) => (f, Err e)
      | (f, Panic m) => (f, Panic m)
      end
  | Ok None => (f, tracker_after top_dir_size first_block last_block None f)
  | Err e => (f, Err e)
  | Panic m => (f, Panic m)
  end.
End layout.

(** ** The chunk writer and the processor *)

(** [value.get(offset..)] and [value.get(2..10)] on ASCII strings. *)
Definition short_hash (value : string) : string :=
  String.substring (String.length value - 8) (String.length value) value.
Definition fallback_short_hash (value : string) : string :=
  if (10 <=? String.length value)%nat then String.substring 2 8 value else "".

Section proc.
Context {B CB CP PT : Type} `{Block B} `{ChunkBuilder B CB CP PT} (cp_byte_size : CP → Z).

Record ChunkWriter : Type := mkChunkWriter {
  cw_chunk_builder : CB;
  cw_processor : CP;
  cw_memory_threshold : Z
}.

Definition chunk_writer_new (cb : CB) : res ChunkWriter :=
  p ← cb_new_chunk_processor cb; Ok (mkChunkWriter cb p (40 * 1024 * 1024)).

Definition spill_on_disk (w : ChunkWriter) : ChunkWriter * res unit :=
  match cb_submit_to_processor (cw_chunk_builder w) (cw_processor w) with
  | (p, Ok _) => (mkChunkWriter (cb_clear (cw_chunk_builder w)) p (cw_memory_threshold w), Ok tt)
  | (p, r) => (mkChunkWriter (cw_chunk_builder w) p (cw_memory_threshold w), r)
  end.

Definition cw_push (b : B) (w : ChunkWriter) : ChunkWriter * res unit :=
  match cb_push b (cw_chunk_builder w) with
  | (cb, Ok _) =>
      let w := mkChunkWriter cb (cw_processor w) (cw_memory_threshold w) in
      if cb_byte_size cb >? cw_memory_threshold w then spill_on_disk w else (w, Ok tt)
  | (cb, r) => (mkChunkWriter cb (cw_processor w) (cw_memory_threshold w), r)
  end.

Definition buffered_bytes (w : ChunkWriter) : Z :=
  u64_add (cb_byte_size (cw_chunk_builder w)) (cp_byte_size (cw_processor w)).
Definition cw_max_num_rows (w : ChunkWriter) : Z :=
  u64_add (cb_max_num_rows (cw_chunk_builder w)) (cp_max_num_rows (cw_processor w)).

Definition cw_finish (w : ChunkWriter) : ChunkWriter * res (list (string * PT)) :=
  match (if cb_max_num_rows (cw_chunk_builder w) >? 0 then spill_on_disk w else (w, Ok tt)) with
  | (w, Ok _) =>
      match cb_new_chunk_processor (cw_chunk_builder w) with
      | Ok p => (mkChunkWriter (cw_chunk_builder w) p (cw_memory_threshold w), cp_finish (cw_processor w))
      | Err e => (w, Err e)
      | Panic m => (w, Panic m)
      end
  | (w, Err e) => (w, Err e)
  | (w, Panic m) => (w, Panic m)
  end.

Record WriterItem : Type := mkWriterItem { wi_chunk : DataChunk; wi_data : list (string * PT) }.

(** The channel to the writer is the list of items sent; [accepts] says whether its receiver
    is still there. *)
Context (accepts : list WriterItem → bool).

Record Proc : Type := mkProc {
  pr_writer : ChunkWriter;
  pr_tracker : ChunkTracker;
  pr_sent : list WriterItem;
  pr_max_chunk_size_mb : Z;
  pr_max_num_rows : Z;
  pr_validate : bool;
  pr_mask : Z;
  pr_blocks_buffered : Z;
  pr_first_block : Z;
  pr_last_block : Z;
  pr_last_block_hash : string
}.

Definition proc_new (cb : CB) (t : ChunkTracker) : res Proc :=
  w ← chunk_writer_new cb;
  Ok (mkProc w t [] 4096 200000 true 0 0 (next_block t) 0 "").

Definition set_limits (mb rows : Z) (validate : bool) (s : Proc) : Proc :=
  mkProc (pr_writer s) (pr_tracker s) (pr_sent s) mb rows validate (pr_mask s) (pr_blocks_buffered s)
    (pr_first_block s) (pr_last_block s) (pr_last_block_hash s).
Definition with_writer (w : ChunkWriter) (s : Proc) : Proc :=
  mkProc w (pr_tracker s) (pr_sent s) (pr_max_chunk_size_mb s) (pr_max_num_rows s) (pr_validate s) (pr_mask s)
    (pr_blocks_buffered s) (pr_first_block s) (pr_last_block s) (pr_last_block_hash s).
Definition with_mask (mask : Z) (s : Proc) : Proc :=
  mkProc (pr_writer s) (pr_tracker s) (pr_sent s) (pr_max_chunk_size_mb s) (pr_max_num_rows s) (pr_validate s) mask
    (pr_blocks_buffered s) (pr_first_block s) (pr_last_block s) (pr_last_block_hash s).
Definition with_block (b : B) (s : Proc) : Proc :=
  mkProc (pr_writer s) (pr_tracker s) (pr_sent s) (pr_max_chunk_size_mb s) (pr_max_num_rows s) (pr_validate s)
    (pr_mask s) (pr_blocks_buffered s + 1) (pr_first_block s) (block_number b) (block_hash b).

Definition with_tracker (t : ChunkTracker) (s : Proc) : Proc :=
  mkProc (pr_writer s) t (pr_sent s) (pr_max_chunk_size_mb s) (pr_max_num_rows s) (pr_validate s) (pr_mask s)
    (pr_blocks_buffered s) (pr_first_block s) (pr_last_block s) (pr_last_block_hash s).

Definition submit_chunk (s : Proc) : Proc * res unit :=
  if pr_blocks_buffered s =? 0 then (s, Ok tt)
  else
    match cw_finish (pr_writer s) with
    | (w, Ok data) =>
        let s := with_writer w s in
        let data := retain_tables (pr_mask s) data in
        match next_chunk_dir (pr_first_block s) (pr_last_block s) (short_hash (pr_last_block_hash s)) (pr_tracker s) with
        | Ok (chunk, t) =>
            if accepts (pr_sent s) then
              (mkProc w t (pr_sent s ++ [mkWriterItem chunk data]) (pr_max_chunk_size_mb s) (pr_max_num_rows s)
                 (pr_validate s) (pr_mask s) 0 (u64_add (pr_last_block s) 1) (pr_last_block s) (pr_last_block_hash s), Ok tt)
            else (with_tracker t s, Err (EMsg "channel closed"))
        | Err e => (s, Err e)
        | Panic m => (s, Panic m)
        end
    | (w, Err e) => (with_writer w s, Err e)
    | (w, Panic m) => (with_writer w s, Panic m)
    end.

(** The continuity checks at the top of the loop of [run]. *)
Definition check_parent (start : bool) (b : B) (s : Proc) : res unit :=
  if start then
    match prev_chunk_hash (pr_tracker s) with
    | Some h => ensure (bool_decide (h = short_hash (block_parent_hash b)) ||
                        bool_decide (h = fallback_short_hash (block_parent_hash b)))%bool
                  (EMsg "previous chunk hash does not match parent hash")
    | None => Ok tt
    end
  else if pr_validate s then
    ensure (bool_decide (pr_last_block_hash s = block_parent_hash b)) (EMsg "parent hash mismatch")
  else Ok tt.

Definition proc_full (s : Proc) : bool :=
  (buffered_bytes (pr_writer s) >? (pr_max_chunk_size_mb s * 1024 * 1024) mod u64_mod) ||
  (cw_max_num_rows (pr_writer s) >? pr_max_num_rows s).

(** One block of the stream. *)
Definition proc_block (start : bool) (b : B) (s : Proc) : Proc * res unit :=
  match check_parent start b s with
  | Ok _ =>
      match (if decide (pr_mask s = data_availability_mask b) then (s, Ok tt)
             else match submit_chunk s with
                  | (s, Ok _) => (with_mask (data_availability_mask b) s, Ok tt)
                  | r => r
                  end) with
      | (s, Ok _) =>
          match cw_push b (pr_writer s) with
          | (w, Ok _) =>
              let s := with_block b (with_writer w s) in
              if proc_full s then submit_chunk s else (s, Ok tt)
          | (w, r) => (with_writer w s, r)
          end
      | r => r
      end
  | r => (s, r)
  end.

(** [run] over the items of the block stream. *)
Fixpoint proc_run (start : bool) (items : list (res B)) (s : Proc) : Proc * res unit :=
  match items with
  | [] => if pr_blocks_buffered s >? 0 then submit_chunk s else (s, Ok tt)
  | Ok b :: items =>
      match proc_block start b s with
      | (s, Ok _) => proc_run false items s
      | r => r
      end
  | Err e :: _ => (s, Err e)
  | Panic m :: _ => (s, Panic m)
  end.
End proc.

(** ** The writer *)

Definition BLOCKS_FILE : string := "blocks.parquet".

(** [Vec::swap_remove] *)
Definition swap_remove {A} (i : nat) (l : list A) : list A :=
  match last l with
  | Some z => take (length l - 1) (<[i:=z]> l)
  | None => l
  end.

(** The destinations of the files of a chunk, in the order they are moved. *)
Definition chunk_moves (chunk : DataChunk) (files : list string) : res (list (list string)) :=
  match list_find (λ f, f = BLOCKS_FILE) files with
  | Some (pos, _) => Ok ((λ f, chunk_path chunk ++ [f]) <$> swap_remove pos files ++ [BLOCKS_FILE])
  | None => Panic "called Option::unwrap() on a None value"
  end.

Section writer.
Context {F : Type} `{Fs F}.

Fixpoint run_moves (moves : list (list string)) (f : F) : F * res unit :=
  match moves with
  | [] => (f, Ok tt)
  | p :: moves => match fs_move_local p f with (f, Ok _) => run_moves moves f | r => r end
  end.

(** [Writer::start] over the chunks received, with the files [write_chunk] made for each. *)
Fixpoint writer_run (items : list (DataChunk * res (list string))) (f : F) : F * res unit :=
  match items with
  | [] => (f, Ok tt)
  | (chunk, files) :: items =>
      match files ≫= chunk_moves chunk with
      | Ok moves => match run_moves moves f with (f, Ok _) => writer_run items f | r => r end
      | Err e => (f, Err e)
      | Panic m => (f, Panic m)
      end
  end.
End writer.

(** ** The block stream of the service *)

Section service.
Context {B : Type} `{Block B}.

(** The items of one response: blocks move the position, a failure is waited out unless
    nothing was received since the start. *)
Fixpoint service_items (items : list (res B)) (from first : Z) : list B * Z * option error :=
  match items with
  | [] => ([], first, None)
  | Ok b :: items =>
      let '(bs, first, e) := service_items items from (u64_add (block_number b) 1) in (b :: bs, first, e)
  | (Err _ | Panic _) as r :: items =>
      if first >? from then service_items items from first
      else ([], first, Some (match r with Err e => e | _ => EMsg "panic" end))
  end.

(** [ingest_from_service] over the responses of the service, each a function of the position
    asked for: the positions, the blocks yielded, and how the stream stands: failed, ended, or
    waiting for a response. *)
Inductive service_end : Type := ServiceFailed (e : error) | ServiceDone | ServiceWaiting.
Fixpoint service_run (responses : list (Z → list (res B))) (from first : Z) (to : option Z)
  : list Z * list B * service_end :=
  if match to with Some l => l <? first | None => false end then ([], [], ServiceDone)
  else
    match responses with
    | [] => ([], [], ServiceWaiting)
    | fetch :: responses =>
        match service_items (fetch first) from first with
        | (bs, _, Some e) => ([first], bs, ServiceFailed e)
        | (bs, next, None) =>
            let '(asked, rest, e) := service_run responses from next to in (first :: asked, bs ++ rest, e)
        end
    end.
End service.

(** ** The progress window *)

(** Units are pairs of a value and the time it was set at. *)
Record Progress : Type := mkProgress {
  pg_window : list (Z * Z);
  pg_tail : nat;
  pg_size : nat;
  pg_granularity : Z;
  pg_has_news : bool
}.

Definition progress_new (window_size : nat) (granularity : Z) : res Progress :=
  if granularity =? 0 then Panic "assertion failed: !window_granularity.is_zero()"
  else Ok (mkProgress [] 0 (window_size + 1) granularity false).

Definition last_index (p : Progress) : nat := ((pg_size p + pg_tail p - 1) mod pg_size p)%nat.
Definition pg_last (p : Progress) : res (Z * Z) :=
  match pg_window p with
  | [] => Panic "assertion failed: !self.window.is_empty()"
  | _ => match pg_window p !! last_index p with Some u => Ok u | None => Panic "index out of bounds" end
  end.

Definition set_current_value (value time : Z) (p : Progress) : res Progress :=
  match pg_window p with
  | [] => Ok (mkProgress [(value, time)] 1 (pg_size p) (pg_granularity p) (pg_has_news p))
  | _ =>
      lst ← pg_last p;
      let value := Z.max value lst.1 in
      Ok (if ((1 <? length (pg_window p))%nat && (time <=? lst.2 + pg_granularity p))%bool
          then mkProgress (<[last_index p:=(value, lst.2)]> (pg_window p)) (pg_tail p) (pg_size p) (pg_granularity p) true
          else mkProgress (if (pg_tail p <? length (pg_window p))%nat then <[pg_tail p:=(value, time)]> (pg_window p)
                           else pg_window p ++ [(value, time)])
                 ((pg_tail p + 1) mod pg_size p) (pg_size p) (pg_granularity p) true)
  end.

(** The increment and the duration whose quotient [speed] returns; a window of fewer than two
    units has speed zero.  A negative increment would wrap. *)
Definition speed (p : Progress) : res (Progress * option (Z * Z)) :=
  let p' := mkProgress (pg_window p) (pg_tail p) (pg_size p) (pg_granularity p) false in
  if (length (pg_window p) <? 2)%nat then Ok (p', None)
  else
    beg ← (match pg_window p !! (if (length (pg_window p) <? pg_size p)%nat then O else pg_tail p) with
           | Some u => Ok u
           | None => Panic "index out of bounds"
           end);
    end_ ← pg_last p;
    Ok (p', Some (u64_sub end_.1 beg.1, Z.max 0 (end_.2 - beg.2))).
