(* ===== verification/ArchiveSpec.v ===== *)
(** * ArchiveSpec: names, listings and streams of the archive layout

    Names of directories parse back to what they were printed from, and over a file system
    that holds a well-formed set of chunk directories the two listing streams yield exactly
    the chunks that meet a block range, in ascending and in descending order. *)

From stdpp Require Import list sorting.
From Stdlib Require Import Ascii Decimal DecimalString DecimalN.
From S2P Require Import Prelude Data Chain Schema Ingest Archive.

(** ** Names *)

Definition word (s : string) : Prop := plus is_word s = true.

Lemma all_chars_app f s t : all_chars f (s +:+ t) = (all_chars f s && all_chars f t)%bool.
Proof. induction s as [|c s IH]; [done|]. rewrite string_app_cons. cbn [all_chars]. by rewrite IH, andb_assoc. Qed.

Lemma zeros_digits n : all_chars is_digit (zeros n) = true.
Proof. by induction n. Qed.

Lemma uint_digits u : all_chars is_digit (NilEmpty.string_of_uint u) = true.
Proof. by induction u. Qed.

Lemma print_usize_digits n : all_chars is_digit (print_usize n) = true.
Proof. rewrite print_usize_uint. apply uint_digits. Qed.

Lemma print_usize_nonempty n : print_usize n ≠ "".
Proof. unfold print_usize, NilZero.string_of_uint. by destruct (N.to_uint (Z.to_N n)). Qed.

Lemma parse_digits_zeros n s v : parse_digits s = Some v → parse_digits (zeros n +:+ s) = Some v.
Proof.
  intros Hs. induction n as [|n IH]; [done|]. cbn [zeros]. rewrite string_app_cons. revert IH.
  unfold parse_digits. destruct (zeros n +:+ s) as [|c t] eqn:E; [done|].
  change (NilEmpty.uint_of_string (String "0" (String c t))) with (uint_of_char "0" (NilEmpty.uint_of_string (String c t))).
  destruct (NilEmpty.uint_of_string (String c t)) as [u|]; cbn; [|done]. by intros H.
Qed.

Lemma parse_usize_digits s : all_chars is_digit s = true → parse_usize s = parse_digits s.
Proof.
  destruct s as [|c s]; [done|]. cbn [all_chars]. intros [Hc _]%andb_prop. unfold parse_usize.
  destruct c as [[] [] [] [] [] [] [] []]; try done.
Qed.

Lemma format_digits n : all_chars is_digit (format_block_number n) = true.
Proof. unfold format_block_number. by rewrite all_chars_app, zeros_digits, print_usize_digits. Qed.

Lemma format_nonempty n : format_block_number n ≠ "".
Proof.
  unfold format_block_number. pose proof (print_usize_nonempty n). destruct (10 - _)%nat; [done|].
  cbn [zeros]. by rewrite string_app_cons.
Qed.

Lemma parse_format n : u64_ok n → parse_usize (format_block_number n) = Some n.
Proof.
  intros Hn. rewrite parse_usize_digits by apply format_digits. apply parse_digits_zeros.
  rewrite <-parse_usize_digits by apply print_usize_digits. by apply parse_print_usize.
Qed.

Lemma format_inj a b : u64_ok a → u64_ok b → format_block_number a = format_block_number b → a = b.
Proof. intros Ha Hb E. apply parse_format in Ha, Hb. congruence. Qed.

Lemma split_dash_single s : all_chars is_word s = true → split_dash s = [s].
Proof.
  induction s as [|c s IH]; [done|]. cbn [all_chars split_dash]. intros [Hc Hs]%andb_prop.
  rewrite IH by done. case_decide; [by subst c|done].
Qed.

Lemma split_dash_app s t : all_chars is_digit s = true → split_dash (s +:+ "-" +:+ t) = s :: split_dash t.
Proof.
  induction s as [|c s IH]; [done|]. cbn [all_chars]. intros [Hc Hs]%andb_prop. rewrite string_app_cons. cbn [split_dash].
  rewrite IH by done. case_decide; [by subst c|done].
Qed.

Lemma parse_range_name first last hash : u64_ok first → u64_ok last → word hash →
  parse_range (range_name first last hash) = Ok (Some (first, last, hash)).
Proof.
  intros Hf Hl Hh. unfold parse_range, range_name. unfold word, plus in Hh. apply andb_prop in Hh as [Hne Hw].
  rewrite !split_dash_app by apply format_digits. rewrite split_dash_single by done.
  unfold plus. rewrite !format_digits, Hw, Hne, !bool_decide_eq_false_2 by apply format_nonempty. cbn.
  by rewrite !parse_format.
Qed.

(** ** Well-formed directories *)

Definition dc_ok (c : DataChunk) : Prop :=
  u64_ok (dc_first_block c) ∧ u64_ok (dc_last_block c) ∧ dc_first_block c <= dc_last_block c ∧ word (dc_last_hash c).
Definition dc_name (c : DataChunk) : string := range_name (dc_first_block c) (dc_last_block c) (dc_last_hash c).
Definition before (a b : DataChunk) : Prop := dc_last_block a < dc_first_block b.

(** A top directory with its chunks. *)
Abbreviation dir := (Z * list DataChunk)%type.
Definition dir_ok (d : dir) : Prop :=
  u64_ok d.1 ∧ StronglySorted before d.2 ∧ ∀ c, c ∈ d.2 → dc_ok c ∧ dc_top c = d.1 ∧ d.1 <= dc_first_block c.
Definition dir_before (d e : dir) : Prop := d.1 < e.1 ∧ ∀ c, c ∈ d.2 → dc_last_block c < e.1.
Definition layout_ok (dirs : list dir) : Prop := Forall dir_ok dirs ∧ StronglySorted dir_before dirs.
Definition chunks_in (dirs : list dir) : list DataChunk := dirs ≫= snd.

Lemma read_chunk_name_spec top c : dc_ok c → dc_top c = top → read_chunk_name top (dc_name c) = Ok (Some c).
Proof.
  intros (Hf & Hl & _ & Hw) <-. unfold read_chunk_name, dc_name. rewrite parse_range_name by done. cbn.
  rewrite bool_decide_eq_true_2 by done. by destruct c.
Qed.

Lemma dc_name_inj c d : dc_ok c → dc_ok d → dc_top c = dc_top d → dc_name c = dc_name d → c = d.
Proof.
  intros Hc Hd Et En. pose proof (read_chunk_name_spec _ c Hc eq_refl) as H1.
  pose proof (read_chunk_name_spec _ d Hd eq_refl) as H2. rewrite Et, En in H1. congruence.
Qed.

Lemma chunks_in_elem dirs c : c ∈ chunks_in dirs ↔ ∃ d, d ∈ dirs ∧ c ∈ d.2.
Proof. unfold chunks_in. rewrite list_elem_of_bind. naive_solver. Qed.

Lemma layout_cons d dirs : layout_ok (d :: dirs) ↔ dir_ok d ∧ layout_ok dirs ∧ Forall (dir_before d) dirs.
Proof.
  unfold layout_ok. rewrite Forall_cons. split.
  - intros [[? ?] Hs]. inversion_clear Hs. done.
  - intros (? & [? ?] & ?). split; [done|]. by constructor.
Qed.

Lemma chunks_in_sorted dirs : layout_ok dirs → StronglySorted before (chunks_in dirs).
Proof.
  induction dirs as [|d dirs IH]; [constructor|]. intros (Hd & Hl & Hb)%layout_cons. unfold chunks_in. cbn.
  apply StronglySorted_app. split_and!; [|apply Hd|by apply IH].
  intros a b Ha (e & He & Hbe)%chunks_in_elem. rewrite Forall_forall in Hb. destruct (Hb e He) as [_ Hlt].
  pose proof (Hlt a Ha). destruct Hl as [Hok _]. rewrite Forall_forall in Hok.
  destruct (Hok e He) as (_ & _ & Hc). destruct (Hc b Hbe) as (_ & _ & ?). unfold before. lia.
Qed.

(** ** Sorting *)

#[export] Instance dc_le_total : Total dc_le.
Proof.
  intros a b. unfold dc_le. destruct (Z.lt_trichotomy (dc_first_block a) (dc_first_block b)) as [|[|]]; [by left; left| |by right; left].
  destruct (Z.lt_trichotomy (dc_last_block a) (dc_last_block b)) as [|[|]]; [left; right; by auto| |right; right; by auto].
  destruct (decide (dc_last_hash a = dc_last_hash b)) as [E|E].
  - destruct (Z.le_ge_cases (dc_top a) (dc_top b)); [left|right]; right; (split; [done|]); right; (split; [done|]); right; done.
  - destruct (String.le_total (dc_last_hash a) (dc_last_hash b)); [left|right]; right; (split; [done|]); right; (split; [done|]);
      left; done.
Qed.
#[export] Instance dc_le_trans : Transitive dc_le.
Proof.
  intros a b c. unfold dc_le. intros [?|[E1 [?|[E2 [[Hn Hs]|[E3 ?]]]]]] [?|[F1 [?|[F2 [[Gn Gs]|[F3 ?]]]]]];
    try (left; lia); right; (split; [lia|]); try (left; lia); right; (split; [lia|]).
  - destruct (decide (dc_last_hash a = dc_last_hash c)) as [E|E].
    + exfalso. apply Gn. rewrite E in Hs. by apply (anti_symm String.le).
    + left. split; [done|]. by etrans.
  - left. by rewrite <-F3.
  - left. by rewrite E3.
  - right. split; [congruence|lia].
Qed.

(** Sorting a permutation of a strictly ordered list gives that list. *)
Lemma sorted_permutation {A} (R S : A → A → Prop) l k :
  (∀ a b, R a b → S b a → False) → StronglySorted R l → StronglySorted S k → k ≡ₚ l → k = l.
Proof.
  intros Hx Hl Hk Hp. revert k Hk Hp. induction Hl as [|a l Hl IH Ha]; intros k Hk Hp; [by apply Permutation_nil_r|].
  destruct Hk as [|b k Hk Hb]; [by apply Permutation_nil_l in Hp|]. rewrite Forall_forall in Ha, Hb.
  assert (b = a) as ->.
  { assert (Hbl : b ∈ a :: l) by (rewrite <-Hp; lmem). assert (Hak : a ∈ b :: k) by (rewrite Hp; lmem).
    apply elem_of_cons in Hbl as [|Hbl]; [done|]. apply elem_of_cons in Hak as [|Hak]; [done|].
    destruct (Hx a b); [by apply Ha|by apply Hb]. }
  f_equal. apply IH; [done|]. by apply Permutation_cons_inv in Hp.
Qed.

Lemma sort_chunks l k : Forall dc_ok k → StronglySorted before k → l ≡ₚ k → merge_sort dc_le l = k.
Proof.
  intros Hok Hs Hp.
  apply (sorted_permutation (λ a b, before a b ∧ dc_ok a) dc_le).
  - unfold before, dc_ok, dc_le. intros a b [? (?&?&?&?)] ?. lia.
  - clear Hp. induction Hs as [|a k Hs IH Ha]; constructor.
    + apply IH. by apply Forall_cons in Hok as [_ ?].
    + apply Forall_cons in Hok as [Ha' _]. eapply Forall_impl; [exact Ha|]. done.
  - apply (StronglySorted_merge_sort dc_le).
  - by rewrite merge_sort_Permutation.
Qed.

Lemma sort_tops l k : StronglySorted Z.lt k → l ≡ₚ k → merge_sort Z.le l = k.
Proof.
  intros Hs Hp. apply (sorted_permutation Z.lt Z.le); [lia|done|apply (StronglySorted_merge_sort Z.le)|].
  by rewrite merge_sort_Permutation.
Qed.

(** ** Listings *)

(** Reading a listing: every name is either read as nothing or is the name of one of [xs]. *)
Lemma read_names {A} (g : string → res (option A)) (name : A → string) names : ∀ xs,
  NoDup names → NoDup xs → (∀ n, n ∈ names → g n = Ok None ∨ ∃ x, x ∈ xs ∧ n = name x) →
  (∀ x, x ∈ xs → name x ∈ names ∧ g (name x) = Ok (Some x)) →
  ∃ os, collect (g <$> names) = Ok os ∧ omap id os ≡ₚ xs.
Proof.
  induction names as [|n names IH]; intros xs Hn Hx Hall Hread.
  { exists []. split; [done|]. destruct xs as [|x xs]; [done|]. by destruct (Hread x ltac:(lmem)) as [?%elem_of_nil _]. }
  apply NoDup_cons in Hn as [Hni Hn]. destruct (Hall n ltac:(lmem)) as [En|(x & Hxi & ->)].
  - destruct (IH xs) as (os & E & Hp); [done..| | |].
    + intros m Hm. apply Hall. lmem.
    + intros x Hxi. destruct (Hread x Hxi) as [[Em|?]%elem_of_cons Er]; [|done]. rewrite Em, En in Er. done.
    + exists (None :: os). cbn. by rewrite En, E.
  - destruct (Hread x Hxi) as [_ Er]. apply elem_of_Permutation in Hxi as [xs' Hp]. rewrite Hp in Hx.
    apply NoDup_cons in Hx as [Hxn Hx]. destruct (IH xs') as (os & E & Hp'); [done..| | |].
    + intros m Hm. destruct (Hall m ltac:(lmem)) as [?|(y & Hy & ->)]; [by left|]. right. exists y. split; [|done].
      rewrite Hp in Hy. apply elem_of_cons in Hy as [->|]; [by destruct Hni|done].
    + intros y Hy. destruct (Hread y ltac:(rewrite Hp; lmem)) as [[Em|?]%elem_of_cons Ey]; [|done].
      rewrite Em, Er in Ey. congruence.
    + exists (Some x :: os). cbn. rewrite Er, E. split; [done|]. by rewrite Hp, Hp'.
Qed.

Definition res_some {A} (r : res A) : res (option A) := a ← r; Ok (Some a).
Lemma collect_some {A B} (g : A → res B) (l : list A) os :
  collect ((λ a, res_some (g a)) <$> l) = Ok os → collect (g <$> l) = Ok (omap id os).
Proof.
  revert os. induction l as [|a l IH]; intros os; [by intros [= <-]|]. cbn. destruct (g a) as [b|e|m]; cbn; [|done..].
  destruct (collect ((λ a, res_some (g a)) <$> l)) as [k|e|m]; cbn; [|done..]. intros [= <-]. by rewrite (IH _ eq_refl).
Qed.

Section listing.
Context {F : Type} `{FsLaws F}.

(** The file system holds these directories: top directories are named by their tops, and
    inside them chunk directories by their ranges; other names are allowed as long as they do
    not look like one of those. *)
Definition holds_tops (f : F) (dirs : list dir) : Prop :=
  (∀ d, d ∈ dirs → fs_has f [format_block_number d.1]) ∧
  (∀ n, fs_has f [n] → parse_usize n = None ∨ ∃ d, d ∈ dirs ∧ n = format_block_number d.1).
Definition holds_chunks (f : F) (d : dir) : Prop :=
  (∀ c, c ∈ d.2 → fs_has f (chunk_path c)) ∧
  (∀ n, fs_has f [format_block_number d.1; n] → parse_range n = Ok None ∨ ∃ c, c ∈ d.2 ∧ n = dc_name c).
Definition archived (f : F) (dirs : list dir) : Prop :=
  layout_ok dirs ∧ holds_tops f dirs ∧ Forall (holds_chunks f) dirs.

Lemma tops_sorted dirs : layout_ok dirs → StronglySorted Z.lt (dirs.*1).
Proof. intros [_ Hs]. by apply (StronglySorted_fmap fst dir_before Z.lt); [intros d e [? _]|]. Qed.

Lemma sorted_NoDup {A} (R : A → A → Prop) l : (∀ a, ¬ R a a) → StronglySorted R l → NoDup l.
Proof.
  intros HR. induction 1 as [|a l Hs IH Ha]; constructor; [|done]. intros Hin. rewrite Forall_forall in Ha.
  by apply (HR a), Ha.
Qed.

Lemma get_tops_spec f dirs : layout_ok dirs → holds_tops f dirs → get_tops f = Ok (dirs.*1).
Proof.
  intros Hl [Hin Hall]. pose proof (tops_sorted _ Hl) as Hs. destruct Hl as [Hok _]. rewrite Forall_forall in Hok.
  unfold get_tops. destruct (fs_ls_has f []) as (names & -> & Hnd & Hls). cbn -[merge_sort].
  match goal with |- context [collect (?g <$> ?l)] => destruct (read_names (λ s, res_some (g s)) format_block_number l (dirs.*1))
    as (os & E & Hp) end.
  - by apply NoDup_filter.
  - eapply sorted_NoDup; [|exact Hs]. lia.
  - intros n [Hn Hi]%list_elem_of_filter. right. apply Hls in Hi. destruct (Hall n Hi) as [En|(d & Hd & ->)].
    + rewrite En in Hn. by destruct Hn.
    + exists d.1. split; [|done]. by apply list_elem_of_fmap_2.
  - intros t (d & -> & Hd)%list_elem_of_fmap. destruct (Hok d Hd) as [Hu _]. rewrite parse_format by done. split.
    + apply list_elem_of_filter. rewrite parse_format by done. split; [done|]. apply Hls, (Hin d Hd).
    + rewrite bool_decide_eq_true_2 by done. done.
  - apply collect_some in E. rewrite E. cbn -[merge_sort]. f_equal. by apply sort_tops.
Qed.

Lemma get_top_chunks_spec f d : dir_ok d → holds_chunks f d → get_top_chunks d.1 f = Ok d.2.
Proof.
  intros (Hu & Hs & Hok) [Hin Hall]. unfold get_top_chunks.
  destruct (fs_ls_has f [format_block_number d.1]) as (names & -> & Hnd & Hls). cbn -[merge_sort].
  assert (Hno : NoDup d.2).
  { eapply (sorted_NoDup (λ a b, before a b ∧ dc_ok a)); [unfold before, dc_ok; lia|].
    clear Hin Hall. induction Hs as [|a k Hs IH Ha]; constructor; [apply IH; intros; apply Hok; lmem|].
    eapply Forall_impl; [exact Ha|]. intros b Hb. split; [done|]. apply Hok. lmem. }
  destruct (read_names (read_chunk_name d.1) dc_name names d.2) as (os & E & Hp); [done..| | |].
  - intros n Hn%Hls. destruct (Hall n Hn) as [En|?]; [|by right]. left. unfold read_chunk_name. by rewrite En.
  - intros c Hc. destruct (Hok c Hc) as (Hc1 & Ht & _). split.
    + apply Hls. pose proof (Hin c Hc) as Hh. unfold chunk_path in Hh. by rewrite Ht in Hh.
    + by apply read_chunk_name_spec.
  - rewrite E. cbn -[merge_sort]. f_equal. apply sort_chunks; [|done..]. apply Forall_forall. intros c Hc. by apply Hok.
Qed.

(** ** Streams *)

Definition meets (first last : Z) (c : DataChunk) : Prop := first <= dc_last_block c ∧ dc_first_block c <= last.
#[export] Instance meets_dec first last c : Decision (meets first last c).
Proof. unfold meets. apply _. Defined.

Lemma scan_forward_spec first last cs : StronglySorted before cs → Forall dc_ok cs →
  match scan_forward first last cs with
  | ScanYield c rest => filter (meets first last) cs = c :: filter (meets first last) rest ∧ rest `suffix_of` cs
  | ScanStop => filter (meets first last) cs = [] ∧ ∃ c, c ∈ cs ∧ last < dc_first_block c
  | ScanEnd => filter (meets first last) cs = []
  end.
Proof.
  induction 1 as [|c cs Hs IH Hc]; intros Hok; [done|]. apply Forall_cons in Hok as [Hcok Hok]. specialize (IH Hok).
  rewrite Forall_forall in Hc, Hok. cbn [scan_forward]. rewrite Z.gtb_ltb.
  destruct (Z.ltb_spec last (dc_first_block c)).
  - split; [|exists c; split; [lmem|done]]. apply list_filter_none. intros x [->|Hx]%elem_of_cons; unfold meets; [lia|].
    specialize (Hc x Hx). specialize (Hok x Hx). unfold before, dc_ok in *. lia.
  - destruct (Z.ltb_spec (dc_last_block c) first).
    + rewrite filter_cons_False by (unfold meets; lia). destruct (scan_forward first last cs) as [x rest| |].
      * destruct IH as [-> Hsuf]. split; [done|]. by apply suffix_cons_r.
      * destruct IH as [-> (x & Hx & ?)]. split; [done|]. exists x. split; [lmem|done].
      * done.
    + rewrite filter_cons_True by (unfold meets; lia). split; [done|]. by apply suffix_cons_r.
Qed.

Lemma scan_backward_spec first last cs : StronglySorted (flip before) cs → Forall dc_ok cs →
  match scan_backward first last cs with
  | ScanYield c rest => filter (meets first last) cs = c :: filter (meets first last) rest ∧ rest `suffix_of` cs
  | ScanStop => filter (meets first last) cs = [] ∧ ∃ c, c ∈ cs ∧ dc_last_block c < first
  | ScanEnd => filter (meets first last) cs = []
  end.
Proof.
  induction 1 as [|c cs Hs IH Hc]; intros Hok; [done|]. apply Forall_cons in Hok as [Hcok Hok]. specialize (IH Hok).
  rewrite Forall_forall in Hc, Hok. cbn [scan_backward]. rewrite Z.gtb_ltb.
  destruct (Z.ltb_spec last (dc_first_block c)).
  - rewrite filter_cons_False by (unfold meets; lia). destruct (scan_backward first last cs) as [x rest| |].
    + destruct IH as [-> Hsuf]. split; [done|]. by apply suffix_cons_r.
    + destruct IH as [-> (x & Hx & ?)]. split; [done|]. exists x. split; [lmem|done].
    + done.
  - destruct (Z.ltb_spec (dc_last_block c) first).
    + split; [|exists c; split; [lmem|done]]. apply list_filter_none. intros x [->|Hx]%elem_of_cons; unfold meets; [lia|].
      specialize (Hc x Hx). unfold flip, before, dc_ok in *. lia.
    + rewrite filter_cons_True by (unfold meets; lia). split; [done|]. by apply suffix_cons_r.
Qed.

(** What a stream has left: the chunks of the current directory, then those of the directories
    not read yet, each in the order [sel] reads it. *)
Definition left_over (sel : dir → list DataChunk) (cs : list DataChunk) (dirs : list dir) : list DataChunk :=
  cs ++ (dirs ≫= sel).
Definition backward (d : dir) : list DataChunk := reverse d.2.

(** The item of a stream is the first chunk left that meets the range. *)
Definition stream_item (sel : dir → list DataChunk) first last cs dirs (o : option (DataChunk * chunk_gen)) : Prop :=
  match o with
  | None => filter (meets first last) (left_over sel cs dirs) = []
  | Some (c, g) => ∃ dirs', gen_tops g = dirs'.*1 ∧ dirs' `suffix_of` dirs ∧
      filter (meets first last) (left_over sel cs dirs)
      = c :: filter (meets first last) (left_over sel (gen_chunks g) dirs') ∧
      left_over sel (gen_chunks g) dirs' `suffix_of` left_over sel cs dirs
  end.

Lemma item_yield sel first last cs dirs tops c rest : tops = dirs.*1 →
  filter (meets first last) cs = c :: filter (meets first last) rest → rest `suffix_of` cs →
  stream_item sel first last cs dirs (Some (c, mkGen rest tops)).
Proof.
  intros -> E Hs. exists dirs. unfold left_over. cbn. split_and!; [done..| |by apply suffix_app]. by rewrite !filter_app, E.
Qed.

Lemma item_skip sel first last cs d dirs cs' o :
  filter (meets first last) cs = [] → filter (meets first last) (sel d) = filter (meets first last) cs' →
  cs' `suffix_of` sel d → stream_item sel first last cs' dirs o → stream_item sel first last cs (d :: dirs) o.
Proof.
  intros Ecs Ed Hs. unfold stream_item, left_over. cbn. rewrite !filter_app, Ecs, Ed. cbn. destruct o as [[c g]|]; [|done].
  intros (dirs' & Eg & Hd' & Ef & Hsl). exists dirs'. rewrite <-Ef. split_and!; [done|by apply suffix_cons_r|done|].
  etrans; [exact Hsl|]. by apply suffix_app_r, suffix_app.
Qed.

Lemma layout_dc_ok dirs : layout_ok dirs → Forall dc_ok (chunks_in dirs).
Proof.
  intros [Hok _]. apply Forall_forall. intros c (d & Hd & Hc)%chunks_in_elem. rewrite Forall_forall in Hok.
  by apply (Hok d Hd).
Qed.

Lemma Sorted_app_l {A} (R : A → A → Prop) l k : StronglySorted R (l ++ k) → StronglySorted R l.
Proof. intros Hs. by apply StronglySorted_app in Hs as (_ & ? & _). Qed.
Lemma Sorted_app_r {A} (R : A → A → Prop) l k : StronglySorted R (l ++ k) → StronglySorted R k.
Proof. intros Hs. by apply StronglySorted_app in Hs as (_ & _ & ?). Qed.

(** After a stop, the sorted rest does not meet the range either. *)
Lemma stop_forward first last cs k c : StronglySorted before (cs ++ k) → Forall dc_ok (cs ++ k) →
  filter (meets first last) cs = [] → c ∈ cs → last < dc_first_block c → filter (meets first last) (cs ++ k) = [].
Proof.
  intros (Hx & _)%StronglySorted_app Hok E Hc Hlt. rewrite filter_app, E. apply list_filter_none. intros x Hk.
  specialize (Hx c x Hc Hk). rewrite Forall_forall in Hok. pose proof (Hok c ltac:(lmem)). unfold meets, before, dc_ok in *. lia.
Qed.
Lemma stop_backward first last cs k c : StronglySorted (flip before) (cs ++ k) → Forall dc_ok (cs ++ k) →
  filter (meets first last) cs = [] → c ∈ cs → dc_last_block c < first → filter (meets first last) (cs ++ k) = [].
Proof.
  intros (Hx & _)%StronglySorted_app Hok E Hc Hlt. rewrite filter_app, E. apply list_filter_none. intros x Hk.
  specialize (Hx c x Hc Hk). rewrite Forall_forall in Hok. pose proof (Hok c ltac:(lmem)). unfold flip, meets, before, dc_ok in *. lia.
Qed.

(** Chunks start at or above the top of their directory, and of every directory below. *)
Lemma above_top d dirs x : layout_ok (d :: dirs) → x ∈ chunks_in (d :: dirs) → d.1 <= dc_first_block x.
Proof.
  intros (Hd & [Hok _] & Hb)%layout_cons (e & He & Hx)%chunks_in_elem. rewrite Forall_forall in Hok, Hb.
  apply elem_of_cons in He as [->|He]; [by apply Hd|]. destruct (Hb e He) as [? _]. destruct (Hok e He) as (_ & _ & Hc).
  destruct (Hc x Hx) as (_ & _ & ?). lia.
Qed.

Lemma next_forward_spec f first last dirs : ∀ cs, layout_ok dirs → Forall (holds_chunks f) dirs →
  StronglySorted before (left_over snd cs dirs) → Forall dc_ok (left_over snd cs dirs) →
  ∃ o, next_forward first last f (dirs.*1) cs = Ok o ∧ stream_item snd first last cs dirs o.
Proof.
  induction dirs as [|d dirs IH]; intros cs Hl Hh Hs Hok;
    pose proof (scan_forward_spec first last cs (Sorted_app_l _ _ _ Hs) (Forall_app_l _ _ _ Hok)) as Hscan;
    cbn [next_forward fmap list_fmap]; (destruct (scan_forward first last cs) as [c rest| |];
      [destruct Hscan as [E Hsuf]; eexists; split; [done|]; by apply item_yield
      |destruct Hscan as [E (c & Hc & Hlt)]; eexists; split; [done|]; by eapply stop_forward|]).
  - eexists. split; [done|]. cbn. unfold left_over. by rewrite app_nil_r.
  - pose proof (above_top d dirs) as Htop. specialize (λ x, Htop x Hl). apply layout_cons in Hl as (Hd & Hl & Hb).
    apply Forall_cons in Hh as [Hhd Hh]. unfold left_over in Hs, Hok. cbn in Hs, Hok. apply Sorted_app_r in Hs. apply Forall_app_r in Hok.
    destruct (Z.ltb_spec last d.1) as [Hlt|Hge].
    { eexists. split; [done|]. cbn. unfold left_over. rewrite filter_app, Hscan. apply list_filter_none. intros x Hx.
      specialize (Htop x Hx). unfold meets. lia. }
    assert (Hrest : ∀ cs', cs' `suffix_of` d.2 → filter (meets first last) d.2 = filter (meets first last) cs' →
      ∃ o, next_forward first last f dirs.*1 cs' = Ok o ∧ stream_item snd first last cs (d :: dirs) o).
    { intros cs' Hsuf Ecs. destruct (IH cs' Hl Hh) as (o & Eo & Ho).
      - destruct Hsuf as [k Ek]. rewrite Ek, <-app_assoc in Hs. by apply Sorted_app_r in Hs.
      - destruct Hsuf as [k Ek]. rewrite Ek, <-app_assoc in Hok. by apply Forall_app_r in Hok.
      - exists o. split; [exact Eo|]. by eapply item_skip. }
    destruct (match dirs.*1 with next :: _ => next <? first | [] => false end) eqn:Enext.
    + apply Hrest; [apply suffix_nil|]. rewrite list_filter_none; [done|]. intros x Hx. unfold meets. rewrite Forall_forall in Hb.
      destruct dirs as [|e dirs]; [done|]. cbn in Enext. zbool. destruct (Hb e ltac:(lmem)) as [_ He].
      specialize (He x Hx). lia.
    + rewrite get_top_chunks_spec by done. cbn. by apply Hrest.
Qed.

(** The directories of the backward stream are in descending order. *)
Lemma next_backward_spec f first last dirs : ∀ cs, Forall dir_ok dirs → Forall (holds_chunks f) dirs →
  StronglySorted (flip before) (left_over backward cs dirs) → Forall dc_ok (left_over backward cs dirs) →
  ∃ o, next_backward first last f (dirs.*1) cs = Ok o ∧ stream_item backward first last cs dirs o.
Proof.
  induction dirs as [|d dirs IH]; intros cs Hl Hh Hs Hok;
    pose proof (scan_backward_spec first last cs (Sorted_app_l _ _ _ Hs) (Forall_app_l _ _ _ Hok)) as Hscan;
    cbn [next_backward fmap list_fmap]; (destruct (scan_backward first last cs) as [c rest| |];
      [destruct Hscan as [E Hsuf]; eexists; split; [done|]; by apply item_yield
      |destruct Hscan as [E (c & Hc & Hlt)]; eexists; split; [done|]; by eapply stop_backward|]).
  - eexists. split; [done|]. cbn. unfold left_over. by rewrite app_nil_r.
  - apply Forall_cons in Hl as [Hd Hl]. apply Forall_cons in Hh as [Hhd Hh]. unfold left_over in Hs, Hok. cbn in Hs, Hok.
    apply Sorted_app_r in Hs. apply Forall_app_r in Hok. rewrite Z.gtb_ltb.
    assert (Hrest : ∀ cs', cs' `suffix_of` backward d → filter (meets first last) (backward d) = filter (meets first last) cs' →
      ∃ o, next_backward first last f dirs.*1 cs' = Ok o ∧ stream_item backward first last cs (d :: dirs) o).
    { intros cs' Hsuf Ecs. destruct (IH cs' Hl Hh) as (o & Eo & Ho).
      - destruct Hsuf as [k Ek]. rewrite Ek, <-app_assoc in Hs. by apply Sorted_app_r in Hs.
      - destruct Hsuf as [k Ek]. rewrite Ek, <-app_assoc in Hok. by apply Forall_app_r in Hok.
      - exists o. split; [exact Eo|]. by eapply item_skip. }
    destruct (Z.ltb_spec last d.1) as [Hlt|Hge].
    + apply Hrest; [apply suffix_nil|]. rewrite list_filter_none; [done|]. unfold backward. intros x Hx. rewrite elem_of_reverse in Hx. unfold meets.
      destruct Hd as (_ & _ & Hc). destruct (Hc x Hx) as (_ & _ & ?). lia.
    + rewrite get_top_chunks_spec by done. cbn. by apply Hrest.
Qed.
End listing.
