(* ===== verification/ArchiveProps.v ===== *)
(** * ArchiveProps: what the archive guarantees

    The listing streams are exact, a tracker created over what a crashed writer left resumes
    right after the last complete chunk, and the chunks of a run tile the blocks of the
    stream. *)

From stdpp Require Import list sorting.
From S2P Require Import Prelude Data Chain Schema Ingest IngestSpec IngestProps Archive ArchiveSpec.

Section streams.
Context {F : Type} `{FsLaws F}.

(** ** The streams, collected *)

Lemma collect_spec sel first last (next : chunk_gen → res (option (DataChunk * chunk_gen))) fuel : ∀ cs dirs o,
  stream_item sel first last cs dirs o →
  (∀ g dirs', gen_tops g = dirs'.*1 → dirs' `suffix_of` dirs →
     left_over sel (gen_chunks g) dirs' `suffix_of` left_over sel cs dirs →
     ∃ o, next g = Ok o ∧ stream_item sel first last (gen_chunks g) dirs' o) →
  (length (filter (meets first last) (left_over sel cs dirs)) < fuel)%nat →
  collect_chunks fuel next (Ok o) = Ok (filter (meets first last) (left_over sel cs dirs)).
Proof.
  induction fuel as [|fuel IH]; intros cs dirs o Ho Hnext Hf; [lia|]. cbn. destruct o as [[c g]|]; [|by rewrite Ho].
  destruct Ho as (dirs' & Eg & Hd & E & Hs). rewrite E in Hf |- *. cbn in Hf.
  destruct (Hnext g dirs' Eg Hd Hs) as (o & -> & Ho). rewrite (IH (gen_chunks g) dirs' o Ho); [done| |lia].
  intros g2 dirs2 E2 Hd2 Hs2. apply Hnext; [done|by etrans|by etrans].
Qed.

Lemma layout_suffix dirs dirs' : dirs' `suffix_of` dirs → layout_ok dirs → layout_ok dirs'.
Proof. intros [k ->] [Hok Hs]. split; [by apply Forall_app_r in Hok|by apply Sorted_app_r in Hs]. Qed.

Lemma forward_spec f dirs first last : archived f dirs →
  ∃ o, get_chunks first last f = Ok o ∧ (first <= default u64_max last → stream_item snd first (default u64_max last) [] dirs o).
Proof.
  intros (Hl & Ht & Hh). unfold get_chunks. rewrite Z.gtb_ltb. destruct (Z.ltb_spec (default u64_max last) first); [eexists; split; [done|lia]|].
  rewrite (get_tops_spec f dirs) by done. cbn. destruct (next_forward_spec f first (default u64_max last) dirs []) as (o & E & Ho);
    [done..|by apply chunks_in_sorted|by apply layout_dc_ok|]. by exists o.
Qed.

Lemma reverse_chunks dirs : reverse (chunks_in dirs) = reverse dirs ≫= backward.
Proof.
  induction dirs as [|d dirs IH]; [done|]. change (chunks_in (d :: dirs)) with (d.2 ++ chunks_in dirs).
  rewrite reverse_app, IH, reverse_cons, bind_app. cbn. by rewrite app_nil_r.
Qed.

Lemma backward_sorted dirs : layout_ok dirs →
  StronglySorted (flip before) (left_over backward [] (reverse dirs)) ∧ Forall dc_ok (left_over backward [] (reverse dirs)).
Proof.
  intros Hl. unfold left_over. rewrite <-reverse_chunks. split.
  - by apply StronglySorted_reverse, chunks_in_sorted.
  - by apply Forall_reverse, layout_dc_ok.
Qed.

Lemma backward_spec f dirs first last : archived f dirs →
  ∃ o, get_chunks_in_reversed_order first last f = Ok o ∧
    (first <= default u64_max last → stream_item backward first (default u64_max last) [] (reverse dirs) o).
Proof.
  intros (Hl & Ht & Hh). unfold get_chunks_in_reversed_order. rewrite Z.gtb_ltb.
  destruct (Z.ltb_spec (default u64_max last) first); [eexists; split; [done|lia]|]. rewrite (get_tops_spec f dirs) by done. cbn.
  destruct (backward_sorted dirs Hl) as [Hs Hok]. rewrite <-fmap_reverse.
  destruct (next_backward_spec f first (default u64_max last) (reverse dirs) []) as (o & E & Ho); [| |done..|by exists o].
  - apply Forall_reverse, Hl.
  - by apply Forall_reverse.
Qed.

(** The listing streams are exact.  Over a file system that holds a well-formed archive,
    whatever order it lists names in and whatever else it holds, the ascending stream yields
    exactly the chunks that meet the block range, in order, and the descending stream yields
    the same chunks in reverse; neither fails. *)
Theorem archive_streams_exact f dirs first last : archived f dirs → first <= default u64_max last →
  let found := filter (meets first (default u64_max last)) (chunks_in dirs) in
  ∀ fuel, (length (chunks_in dirs) < fuel)%nat →
  collect_chunks fuel (forward_from first (default u64_max last) f) (get_chunks first last f) = Ok found ∧
  collect_chunks fuel (backward_from first (default u64_max last) f) (get_chunks_in_reversed_order first last f)
  = Ok (reverse found).
Proof.
  intros Ha Hle found fuel Hf. pose proof Ha as (Hl & _ & Hh). split.
  - destruct (forward_spec f dirs first last Ha) as (o & -> & Ho). rewrite (collect_spec snd first _ _ fuel [] dirs o (Ho Hle)); [done| |].
    + intros g dirs' Eg Hd Hs. unfold forward_from. rewrite Eg. apply next_forward_spec; [by eapply layout_suffix| | |].
      * destruct Hd as [k ->]. by apply Forall_app_r in Hh.
      * destruct Hs as [k E]. pose proof (chunks_in_sorted _ Hl) as Hs. change (chunks_in dirs) with (left_over snd [] dirs) in Hs.
        rewrite E in Hs. by apply Sorted_app_r in Hs.
      * destruct Hs as [k E]. pose proof (layout_dc_ok _ Hl) as Hs. change (chunks_in dirs) with (left_over snd [] dirs) in Hs.
        rewrite E in Hs. by apply Forall_app_r in Hs.
    + unfold left_over. cbn. pose proof (length_filter (meets first (default u64_max last)) (chunks_in dirs)) as Hlen.
      unfold chunks_in in *. lia.
  - destruct (backward_spec f dirs first last Ha) as (o & -> & Ho). destruct (backward_sorted dirs Hl) as [Hbs Hbok].
    rewrite (collect_spec backward first _ _ fuel [] (reverse dirs) o (Ho Hle)).
    + unfold left_over. cbn. rewrite <-reverse_chunks. by rewrite filter_reverse.
    + intros g dirs' Eg Hd Hs. unfold backward_from. rewrite Eg. apply next_backward_spec.
      * destruct Hd as [k E]. apply Forall_app_r with k. rewrite <-E. apply Forall_reverse, Hl.
      * destruct Hd as [k E]. apply Forall_app_r with k. rewrite <-E. by apply Forall_reverse.
      * destruct Hs as [k E]. rewrite E in Hbs. by apply Sorted_app_r in Hbs.
      * destruct Hs as [k E]. rewrite E in Hbok. by apply Forall_app_r in Hbok.
    + unfold left_over. cbn. rewrite <-reverse_chunks.
      pose proof (length_filter (meets first (default u64_max last)) (reverse (chunks_in dirs))) as Hlen.
      rewrite length_reverse in Hlen. by eapply Nat.le_lt_trans.
Qed.
End streams.

(** ** Restart *)

Section restart.
Context {F : Type} `{FsLaws F}.

(** A chunk is complete when its block file is in place. *)
Definition complete (f : F) (c : DataChunk) : Prop :=
  ∃ n, String.prefix "blocks.parquet" n = true ∧ fs_has f (chunk_path c ++ [n]).

Lemma chunk_check_spec f c : ∃ names, fs_ls (chunk_path c) f = Ok names ∧ (chunk_check names = true ↔ complete f c).
Proof.
  destruct (fs_ls_has f (chunk_path c)) as (names & E & _ & Hls). exists names. split; [done|].
  unfold chunk_check, complete. rewrite existsb_exists. split; intros (n & ? & ?); exists n.
  - split; [done|]. apply Hls. by apply list_elem_of_In.
  - split; [|done]. apply list_elem_of_In. by apply Hls.
Qed.

(** Removing a chunk from the directories. *)
Definition without (c : DataChunk) (dirs : list dir) : list dir := (λ d, (d.1, filter (λ x, x ≠ c) d.2)) <$> dirs.

Lemma chunks_without c dirs : chunks_in (without c dirs) = filter (λ x, x ≠ c) (chunks_in dirs).
Proof.
  induction dirs as [|d dirs IH]; [done|]. change (chunks_in (d :: dirs)) with (d.2 ++ chunks_in dirs).
  rewrite filter_app, <-IH. done.
Qed.

Lemma Sorted_filter {A} (R : A → A → Prop) (P : A → Prop) `{∀ x, Decision (P x)} l :
  StronglySorted R l → StronglySorted R (filter P l).
Proof.
  induction 1 as [|a l Hs IH Ha]; [constructor|]. rewrite filter_cons. case_decide; [|done]. constructor; [done|].
  apply Forall_forall. intros x [_ Hx]%list_elem_of_filter. rewrite Forall_forall in Ha. by apply Ha.
Qed.

Lemma layout_without c dirs : layout_ok dirs → layout_ok (without c dirs).
Proof.
  intros [Hok Hs]. split.
  - apply Forall_fmap. eapply Forall_impl; [exact Hok|]. intros d (Hu & Hds & Hc). split_and!; [done|by apply Sorted_filter|].
    intros x [_ Hx]%list_elem_of_filter. by apply Hc.
  - eapply StronglySorted_fmap; [|exact Hs]. intros d e [? Hlt]. split; [done|]. intros x [_ Hx]%list_elem_of_filter. by apply Hlt.
Qed.

Lemma chunk_path_prefix dirs c x : layout_ok dirs → c ∈ chunks_in dirs → x ∈ chunks_in dirs →
  chunk_path c `prefix_of` chunk_path x → x = c.
Proof.
  intros [Hok _] (d & Hd & Hc)%chunks_in_elem (e & He & Hx)%chunks_in_elem [k E]. rewrite Forall_forall in Hok.
  destruct (Hok d Hd) as (Hdu & _ & Hdc), (Hok e He) as (Heu & _ & Hec).
  destruct (Hdc c Hc) as (Hcok & Hct & _), (Hec x Hx) as (Hxok & Hxt & _).
  unfold chunk_path in E. simplify_eq/=. apply dc_name_inj; [done..| |by symmetry].
  rewrite Hxt, Hct. apply format_inj; [done..|]. congruence.
Qed.

Lemma prefix_longer {A} (p q : list A) : (length q < length p)%nat → ¬ p `prefix_of` q.
Proof. intros Hl [k ->]. rewrite length_app in Hl. lia. Qed.

Lemma holds_after_delete f f' c dirs d : layout_ok dirs → c ∈ chunks_in dirs → d ∈ dirs → holds_chunks f d →
  fs_delete (chunk_path c) f = (f', Ok tt) → holds_chunks f' (d.1, filter (λ x, x ≠ c) d.2).
Proof.
  intros Hl Hc Hd [Hin Hall] E. split; cbn.
  - intros x [Hne Hx]%list_elem_of_filter. assert (Hxc : x ∈ chunks_in dirs) by (apply chunks_in_elem; by exists d).
    apply (fs_delete_kept _ _ _ E); [by apply Hin| |]; intros Hp; apply Hne.
    + by apply (chunk_path_prefix dirs).
    + symmetry. by apply (chunk_path_prefix dirs).
  - intros n Hn. apply (fs_delete_gone _ _ _ E) in Hn as [Hn Hp]. destruct (Hall n Hn) as [?|(x & Hx & ->)]; [by left|].
    right. exists x. split; [|done]. apply list_elem_of_filter. split; [|done]. intros ->. apply Hp. destruct Hl as [Hok _].
    rewrite Forall_forall in Hok. destruct (Hok d Hd) as (_ & _ & Hdc). destruct (Hdc c Hx) as (_ & Ht & _).
    unfold chunk_path. rewrite Ht. done.
Qed.

Lemma layout_filter P `{∀ d, Decision (P d)} dirs : layout_ok dirs → layout_ok (filter P dirs).
Proof.
  intros [Hok Hs]. split; [|by apply Sorted_filter]. apply Forall_forall. intros d [_ Hd]%list_elem_of_filter.
  rewrite Forall_forall in Hok. by apply Hok.
Qed.

(** After a deletion the archive holds the other chunks; the directory of the deleted chunk is
    kept or, if it is empty, may be gone. *)
Lemma archived_without f f' c dirs : archived f dirs → c ∈ chunks_in dirs → fs_delete (chunk_path c) f = (f', Ok tt) →
  ∃ dirs', archived f' dirs' ∧ chunks_in dirs' = filter (λ x, x ≠ c) (chunks_in dirs).
Proof.
  intros (Hl & [Ht1 Ht2] & Hh) Hc E. destruct (fs_ls_has f' []) as (names & _ & _ & Hnames). cbn in Hnames.
  set (there := λ d : dir, format_block_number d.1 ∈ names). exists (filter there (without c dirs)).
  pose proof (layout_without c dirs Hl) as Hlw. rewrite Forall_forall in Hh.
  assert (Hhold : ∀ d, d ∈ without c dirs → holds_chunks f' d).
  { intros d (d0 & -> & Hd)%list_elem_of_fmap. by eapply holds_after_delete; [|exact Hc| |apply Hh|]. }
  split.
  - split_and!; [by apply layout_filter| |].
    + split; [intros d [Hd _]%list_elem_of_filter; by apply Hnames|]. intros n Hn. pose proof Hn as Hn'.
      apply (fs_delete_gone _ _ _ E) in Hn' as [Hn' _]. destruct (Ht2 n Hn') as [?|(d & Hd & ->)]; [by left|]. right.
      exists (d.1, filter (λ x, x ≠ c) d.2). split; [|done]. apply list_elem_of_filter. split; [by apply Hnames|].
      apply list_elem_of_fmap. by exists d.
    + apply Forall_forall. intros d [_ Hd]%list_elem_of_filter. by apply Hhold.
  - rewrite <-chunks_without. assert (Hempty : ∀ d, d ∈ without c dirs → ¬ there d → d.2 = []).
    { intros d Hd Hno. destruct d as [t [|x cs]]; [done|]. exfalso. apply Hno, Hnames.
      destruct (Hhold _ Hd) as [Hin _]. apply (fs_parent f' [format_block_number t] [dc_name x]); [done|].
      destruct Hlw as [Hok _]. rewrite Forall_forall in Hok. destruct (Hok _ Hd) as (_ & _ & Hdc).
      destruct (Hdc x ltac:(cbn; lmem)) as (_ & Et & _). cbn in Et. specialize (Hin x ltac:(cbn; lmem)).
      unfold chunk_path in Hin. by rewrite Et in Hin. }
    revert Hempty. generalize (without c dirs) as l. clear. induction l as [|d l IH]; intros He; [done|].
    rewrite filter_cons. case_decide as Hd; cbn.
    + change (chunks_in (d :: ?k)) with (d.2 ++ chunks_in k). f_equal. apply IH. intros; apply He; [lmem|done].
    + change (chunks_in (d :: l)) with (d.2 ++ chunks_in l). rewrite (He d) by (lmem || done). cbn. apply IH.
      intros; apply He; [lmem|done].
Qed.

(** The last chunk is the last of its directory. *)
Lemma last_in_dir dirs pre c : layout_ok dirs → chunks_in dirs = pre ++ [c] →
  ∃ d, d ∈ dirs ∧ d.1 = dc_top c ∧ last d.2 = Some c.
Proof.
  intros Hl E. assert (Hc : c ∈ chunks_in dirs) by (rewrite E; lmem). pose proof (chunks_in_sorted _ Hl) as Hs.
  pose proof (layout_dc_ok _ Hl) as Hok'. rewrite Forall_forall in Hok'.
  apply chunks_in_elem in Hc as (d & Hd & Hc). exists d. pose proof Hl as [Hok _]. rewrite Forall_forall in Hok.
  destruct (Hok d Hd) as (_ & Hds & Hdc). split_and!; [done|by symmetry; apply Hdc|].
  destruct (last d.2) as [x|] eqn:Ex; [|apply last_None in Ex; rewrite Ex in Hc; by apply elem_of_nil in Hc]. f_equal.
  destruct (decide (x = c)) as [|Hne]; [done|]. exfalso.
  assert (Hxd : x ∈ d.2) by (by apply last_Some_elem_of). assert (Hx : x ∈ chunks_in dirs) by (apply chunks_in_elem; by exists d).
  pose proof (Hok' x Hx) as Hxok. assert (before c x).
  { apply last_Some in Ex as [k Ek]. rewrite Ek in Hc, Hds. apply StronglySorted_snoc in Hds as [_ Hall].
    rewrite Forall_forall in Hall. apply elem_of_app in Hc as [Hc|Hc]; [by apply Hall|]. apply list_elem_of_singleton in Hc. congruence. }
  assert (before x c).
  { rewrite E in Hs, Hx. apply StronglySorted_snoc in Hs as [_ Hall]. rewrite Forall_forall in Hall.
    apply elem_of_app in Hx as [Hx|Hx]; [by apply Hall|]. apply list_elem_of_singleton in Hx. congruence. }
  pose proof (Hok' c ltac:(rewrite E; lmem)). unfold before, dc_ok in *. lia.
Qed.

Lemma tracker_after_spec f dirs size first lst pre c : archived f dirs → chunks_in dirs = pre ++ [c] →
  ∃ cs, tracker_after size first lst (Some c) f = Ok (mkTracker size (Some (dc_last_hash c)) (default u64_max lst) (dc_top c) cs) ∧
    last cs = Some c ∧ (dc_top c, cs) ∈ dirs.
Proof.
  intros (Hl & _ & Hh) E. destruct (last_in_dir dirs pre c Hl E) as (d & Hd & Et & El). exists d.2. cbn -[get_top_chunks].
  rewrite <-Et. pose proof Hl as [Hok _]. rewrite Forall_forall in Hok, Hh.
  rewrite (get_top_chunks_spec f d) by auto. cbn. destruct d as [t [|x cs]]; [done|]. cbn in *. done.
Qed.

Context (first : Z) (lst : option Z) (size : nat).
#[local] Abbreviation limit := (default u64_max lst).

(** The archive is inside the range of the writer and starts where it starts. *)
Definition in_range (dirs : list dir) : Prop :=
  first <= limit ∧ (∀ c, c ∈ chunks_in dirs → first <= dc_first_block c ∧ dc_last_block c <= limit ∧ dc_last_block c < u64_max) ∧
  (∀ c, head (chunks_in dirs) = Some c → dc_first_block c = first).

Lemma elem_meets dirs c : layout_ok dirs → in_range dirs → c ∈ chunks_in dirs → meets first limit c.
Proof.
  intros Hl (_ & Hr & _) Hc. destruct (Hr c Hc) as (? & ? & _). pose proof (layout_dc_ok _ Hl) as Hok.
  rewrite Forall_forall in Hok. pose proof (Hok c Hc). unfold meets, dc_ok in *. lia.
Qed.

Lemma all_meet dirs (l : list DataChunk) : layout_ok dirs → in_range dirs → (∀ c, c ∈ l → c ∈ chunks_in dirs) →
  filter (meets first limit) l = l.
Proof. intros Hl Hr Hsub. apply list_filter_all. intros c Hc. by apply (elem_meets dirs), Hsub. Qed.

Lemma last_not_before dirs pre c : layout_ok dirs → chunks_in dirs = pre ++ [c] → c ∉ pre.
Proof.
  intros Hl E Hin. pose proof (chunks_in_sorted _ Hl) as Hso. rewrite E in Hso. apply StronglySorted_snoc in Hso as [_ Hall].
  rewrite Forall_forall in Hall. specialize (Hall c Hin). simpl in Hall. pose proof (layout_dc_ok _ Hl) as Hok.
  rewrite E, Forall_forall in Hok. pose proof (Hok c ltac:(lmem)). unfold before, dc_ok in *. lia.
Qed.

(** The last chunk and the stream after it. *)
Lemma boundary_chunks_spec f dirs : archived f dirs → in_range dirs →
  ∃ o, boundary_chunks first lst f = Ok o ∧ stream_item backward first limit [] (reverse dirs) o.
Proof.
  intros Ha Hr. pose proof Ha as (Hl & _). pose proof Hr as (Hle & _ & Hhd). unfold boundary_chunks, ensure.
  rewrite (proj2 (Z.leb_le first limit)) by done. cbn.
  destruct (forward_spec f dirs first lst Ha) as (o & -> & Ho). specialize (Ho Hle). cbn.
  destruct (backward_spec f dirs first lst Ha) as (o2 & E2 & Ho2). specialize (Ho2 Hle). exists o2. split; [|done].
  destruct o as [[c g]|]; cbn; [|done]. destruct Ho as (dirs' & _ & _ & E & _).
  assert (Ec : dc_first_block c = first).
  { apply Hhd. unfold left_over in E. cbn in E. change (dirs ≫= snd) with (chunks_in dirs) in E.
    by rewrite (all_meet dirs (chunks_in dirs)) in E; [rewrite E|..]. }
  rewrite Ec, Z.eqb_refl. done.
Qed.

Lemma backward_all dirs : layout_ok dirs → in_range dirs →
  filter (meets first limit) (left_over backward [] (reverse dirs)) = reverse (chunks_in dirs).
Proof.
  intros Hl Hr. unfold left_over. cbn. rewrite <-reverse_chunks. apply (all_meet dirs); [done..|].
  intros c. by rewrite elem_of_reverse.
Qed.

(** Deleting the last chunk leaves the rest of the descending stream as it was. *)
Lemma backward_after_delete f f' dirs pre c g dirs' : archived f dirs → in_range dirs → chunks_in dirs = pre ++ [c] →
  gen_tops g = dirs'.*1 → dirs' `suffix_of` reverse dirs →
  filter (meets first limit) (left_over backward (gen_chunks g) dirs') = reverse pre →
  left_over backward (gen_chunks g) dirs' `suffix_of` left_over backward [] (reverse dirs) →
  fs_delete (chunk_path c) f = (f', Ok tt) →
  ∃ o, backward_from first limit f' g = Ok o ∧ fst <$> o = last pre.
Proof.
  intros (Hl & _ & Hh) Hr E Eg [k Ek] Ef Hs Edel. destruct (backward_sorted dirs Hl) as [Hbs Hbok].
  assert (Hsub : ∀ d, d ∈ dirs' → d ∈ dirs).
  { intros d Hd. apply elem_of_reverse. rewrite Ek. lmem. }
  assert (Hc : c ∈ chunks_in dirs) by (rewrite E; lmem).
  assert (Hnc : ∀ d, d ∈ dirs' → c ∉ d.2).
  { intros d Hd Hcd. apply (last_not_before dirs pre c Hl E). rewrite <-elem_of_reverse, <-Ef. apply list_elem_of_filter.
    split; [by apply (elem_meets dirs)|]. unfold left_over. apply elem_of_app. right. apply list_elem_of_bind.
    exists d. split; [by apply elem_of_reverse|done]. }
  destruct Hs as [k2 Ek2]. rewrite Ek2 in Hbs, Hbok. destruct Hl as [Hok Hsort].
  destruct (next_backward_spec f' first limit dirs' (gen_chunks g)) as (o & Eo & Ho).
  - rewrite Forall_forall in Hok |- *. auto.
  - rewrite Forall_forall in Hh |- *. intros d Hd.
    pose proof (holds_after_delete f f' c dirs d (conj Hok Hsort) Hc (Hsub d Hd) (Hh d (Hsub d Hd)) Edel) as Hh'.
    rewrite list_filter_all in Hh'; [by destruct d|]. intros x Hx ->. by apply (Hnc d Hd).
  - by apply Sorted_app_r in Hbs.
  - by apply Forall_app_r in Hbok.
  - exists o. unfold backward_from. rewrite Eg. split; [done|]. rewrite <-head_reverse, <-Ef. destruct o as [[x g2]|]; cbn in *.
    + destruct Ho as (? & _ & _ & -> & _). done.
    + by rewrite Ho.
Qed.

(** A tracker stands right after the last of these chunks. *)
Definition resumes (t : ChunkTracker) (cs : list DataChunk) : Prop :=
  next_block t = match last cs with Some c => dc_last_block c + 1 | None => first end ∧
  prev_chunk_hash t = dc_last_hash <$> last cs.

Lemma tracker_resumes f dirs : archived f dirs → (∀ c, c ∈ chunks_in dirs → dc_last_block c < u64_max) →
  ∃ t, tracker_after size first lst (last (chunks_in dirs)) f = Ok t ∧ resumes t (chunks_in dirs).
Proof.
  intros Ha Hmax. unfold resumes. destruct (last (chunks_in dirs)) as [c|] eqn:El; [|by eexists].
  apply last_Some in El as [pre E]. destruct (tracker_after_spec f dirs size first lst pre c Ha E) as (cs & -> & Elast & _).
  eexists. split; [done|]. unfold next_block, prev_chunk_hash. cbn. rewrite Elast.
  pose proof (layout_dc_ok _ (proj1 Ha)) as Hok. rewrite Forall_forall in Hok. pose proof (Hok c ltac:(rewrite E; lmem)).
  specialize (Hmax c ltac:(rewrite E; lmem)). rewrite u64_add_small by (unfold dc_ok, u64_ok in *; lia). done.
Qed.

(** The last chunk is kept if it is complete and deleted otherwise. *)
Lemma drop_incomplete_spec f dirs pre c g dirs' : archived f dirs → in_range dirs → (∀ p, (fs_delete p f).2 = Ok tt) →
  chunks_in dirs = pre ++ [c] → gen_tops g = dirs'.*1 → dirs' `suffix_of` reverse dirs →
  filter (meets first limit) (left_over backward (gen_chunks g) dirs') = reverse pre →
  left_over backward (gen_chunks g) dirs' `suffix_of` left_over backward [] (reverse dirs) →
  (complete f c ∧ drop_incomplete chunk_check first lst c g f = (f, Ok (Some c))) ∨
  (¬ complete f c ∧ ∃ f' dirs2, fs_delete (chunk_path c) f = (f', Ok tt) ∧ archived f' dirs2 ∧
     chunks_in dirs2 = pre ∧ drop_incomplete chunk_check first lst c g f = (f', Ok (last pre))).
Proof.
  intros Ha Hr Hdel E Eg Hd' Ef Hsl. pose proof Ha as (Hl & _). assert (Hc : c ∈ chunks_in dirs) by (rewrite E; lmem).
  pose proof Hr as (_ & Hrng & _). destruct (Hrng c Hc) as (_ & Hlim & _). unfold drop_incomplete.
  assert (Hal : match lst with Some l => l <? dc_last_block c | None => false end = false).
  { clear -Hlim. destruct lst as [l|]; [|done]. cbn in Hlim. apply Z.ltb_ge. lia. }
  rewrite Hal. destruct (chunk_check_spec f c) as (names & -> & Hck). destruct (chunk_check names).
  { left. split; [by apply Hck|done]. }
  right. split; [rewrite <-Hck; congruence|].
  pose proof (Hdel (chunk_path c)) as Hd. destruct (fs_delete (chunk_path c) f) as [f' r] eqn:Ed. cbn in Hd. subst r.
  destruct (backward_after_delete f f' dirs pre c g dirs' Ha Hr E Eg Hd' Ef Hsl Ed) as (o & -> & <-).
  destruct (archived_without f f' c dirs Ha Hc Ed) as (dirs2 & Ha2 & E2). exists f', dirs2. split_and!; [done..| |done].
  rewrite E2, E, filter_app, filter_cons_False by (by intros ?). cbn. rewrite app_nil_r.
  apply list_filter_all. intros x Hx ->. by apply (last_not_before dirs pre c).
Qed.

(** C28: a restart resumes right after the last complete chunk.  Over an archive inside the
    range of the writer, a tracker is created whose next block follows the last chunk and
    whose previous hash is that chunk's; if the last chunk lacks its block file, as a writer
    that was stopped leaves it, it is deleted first and the chunk before it counts as the last,
    even when that one is in another directory; nothing else changes and what remains is a
    well-formed archive. *)
Theorem archive_restart f dirs : archived f dirs → in_range dirs → (∀ p, (fs_delete p f).2 = Ok tt) →
  ∃ f' t dirs', create_chunk_tracker chunk_check size first lst f = (f', Ok t) ∧ archived f' dirs' ∧
    resumes t (chunks_in dirs') ∧
    match last (chunks_in dirs) with
    | None => f' = f ∧ dirs' = dirs
    | Some c => (complete f c ∧ f' = f ∧ dirs' = dirs) ∨
        (¬ complete f c ∧ fs_delete (chunk_path c) f = (f', Ok tt) ∧ chunks_in dirs = chunks_in dirs' ++ [c])
    end.
Proof.
  intros Ha Hr Hdel. pose proof Ha as (Hl & _). pose proof Hr as (Hle & Hrng & _). unfold create_chunk_tracker.
  assert (Hmax : ∀ c, c ∈ chunks_in dirs → dc_last_block c < u64_max) by (intros c Hc; by apply Hrng).
  destruct (boundary_chunks_spec f dirs Ha Hr) as (o & -> & Ho).
  destruct (tracker_resumes f dirs Ha Hmax) as (t & Et & Hres).
  destruct (last (chunks_in dirs)) as [c|] eqn:Elast.
  2: { pose proof Elast as En. apply last_None in En. unfold stream_item in Ho. rewrite backward_all, En in Ho by done.
       destruct o as [[c g]|]; [by destruct Ho as (? & _ & _ & ? & _)|]. exists f, t, dirs. by rewrite Et. }
  apply last_Some in Elast as [pre E]. unfold stream_item in Ho. rewrite backward_all, E, reverse_snoc in Ho by done.
  destruct o as [[c' g]|]; [|discriminate Ho]. destruct Ho as (dirs' & Eg & Hd' & Ef & Hsl). injection Ef as <- Ef.
  destruct (drop_incomplete_spec f dirs pre c g dirs') as [[Hcom ->]|(Hnc & f' & dirs2 & Ed & Ha' & Epre & ->)]; [done..| |].
  - exists f, t, dirs. rewrite Et. split_and!; [done..|]. by left.
  - destruct (tracker_resumes f' dirs2 Ha') as (t' & Et' & Hres').
    { intros x Hx. apply Hmax. rewrite E. rewrite Epre in Hx. lmem. }
    rewrite Epre in Et'. exists f', t', dirs2. rewrite Et'. split_and!; [done..|]. right. by rewrite Epre, E.
Qed.
End restart.

(** ** Interrupted writes *)

Lemma swap_remove_perm {A} (l : list A) i x : l !! i = Some x → x :: swap_remove i l ≡ₚ l.
Proof.
  intros Hi. unfold swap_remove. destruct (last l) as [z|] eqn:Ez; [|apply last_None in Ez; by subst l].
  apply last_Some in Ez as [k ->]. rewrite length_app. cbn. replace (length k + 1 - 1)%nat with (length k) by lia.
  destruct (decide (i < length k)%nat) as [Hlt|Hge].
  - rewrite lookup_app_l in Hi by done. rewrite insert_app_l, take_app_length' by (by rewrite ?length_insert).
    rewrite <-(take_drop_middle k i x Hi) at 2. rewrite insert_take_drop by done. solve_Permutation.
  - rewrite lookup_app_r in Hi by lia. apply list_lookup_singleton_Some in Hi as [Ei ->].
    rewrite insert_app_r_alt, Ei by lia. cbn. rewrite take_app_length. solve_Permutation.
Qed.

Section crash.
Context {F : Type} `{FsLaws F}.

Lemma run_moves_has moves : ∀ f f', run_moves moves f = (f', Ok tt) →
  ∀ q, fs_has f' q ↔ fs_has f q ∨ (q ≠ [] ∧ ∃ p, p ∈ moves ∧ q `prefix_of` p).
Proof.
  induction moves as [|p moves IH]; intros f f'; cbn [run_moves].
  { intros [= <-] q. split; [by left|]. intros [?|(_ & p & ?%elem_of_nil & _)]; done. }
  destruct (fs_move_local p f) as [f1 [[]|e|m]] eqn:E; [|done..]. intros Hr q.
  rewrite (IH _ _ Hr), (fs_move_has _ _ _ E). split.
  - intros [[?|[? ?]]|(? & r & ? & ?)]; [by left|right..]; (split; [done|]); [exists p|exists r]; (split; [lmem|done]).
  - intros [?|(? & r & [->|?]%elem_of_cons & ?)]; [by left; left|by left; right|]. right. split; [done|]. by exists r.
Qed.

(** Whatever comes of a sequence of moves, it only adds, and only at their targets. *)
Lemma run_moves_any moves : ∀ f f' r, run_moves moves f = (f', r) → ∀ q,
  (fs_has f q → fs_has f' q) ∧ (fs_has f' q → fs_has f q ∨ ∃ p, p ∈ moves ∧ q `prefix_of` p).
Proof.
  induction moves as [|p moves IH]; intros f f' r; cbn [run_moves]; [intros [= <- _] q; auto|].
  destruct (fs_move_local p f) as [f1 r1] eqn:E. intros Hr q. destruct (fs_move_any _ _ _ _ E q) as [Hk Hn].
  assert (Hone : fs_has f1 q → fs_has f q ∨ ∃ x, x ∈ p :: moves ∧ q `prefix_of` x).
  { intros [?|[_ ?]]%Hn; [by left|]. right. exists p. split; [lmem|done]. }
  destruct r1 as [[]|e|m]; [|injection Hr as <- _; auto..].
  destruct (IH _ _ _ Hr q) as [Hk' Hn']. split; [auto|]. intros [?|(x & ? & ?)]%Hn'; [auto|].
  right. exists x. split; [lmem|done].
Qed.

Lemma chunk_moves_spec c files : NoDup files → BLOCKS_FILE ∈ files →
  ∃ rest, chunk_moves c files = Ok (((λ f, chunk_path c ++ [f]) <$> rest) ++ [chunk_path c ++ [BLOCKS_FILE]]) ∧
    BLOCKS_FILE :: rest ≡ₚ files ∧ BLOCKS_FILE ∉ rest.
Proof.
  intros Hnd Hin. unfold chunk_moves. destruct (list_find _ files) as [[pos f]|] eqn:E.
  - apply list_find_Some in E as (Hp & -> & _). exists (swap_remove pos files). rewrite fmap_app.
    pose proof (swap_remove_perm files pos BLOCKS_FILE Hp) as Hperm. split_and!; [done..|].
    rewrite <-Hperm in Hnd. by apply NoDup_cons in Hnd as [? _].
  - apply list_find_None in E. rewrite Forall_forall in E. by destruct (E BLOCKS_FILE Hin).
Qed.

(** The chunks of a run: no two share a path, and the files made for one include its block
    file once. *)
Definition writes_ok (items : list (DataChunk * res (list string))) : Prop :=
  NoDup ((λ i, chunk_path i.1) <$> items) ∧
  ∀ c files, (c, Ok files) ∈ items → NoDup files ∧ BLOCKS_FILE ∈ files.

(** Nothing of the chunk is in place. *)
Definition absent (f : F) (c : DataChunk) : Prop := ∀ q, fs_has f (chunk_path c ++ q) → q = [].

Lemma chunk_path_inside c d q file : chunk_path c ++ q `prefix_of` chunk_path d ++ [file] → chunk_path c = chunk_path d.
Proof. intros [k E]. unfold chunk_path in *. cbn in *. by injection E as -> ->. Qed.

Lemma chunk_moves_inside c files moves p : chunk_moves c files = Ok moves → p ∈ moves → ∃ file, p = chunk_path c ++ [file].
Proof.
  unfold chunk_moves. destruct (list_find _ files) as [[pos x]|]; [|done]. intros [= <-] Hp.
  apply list_elem_of_fmap in Hp as (file & -> & _). by exists file.
Qed.

(** The moves of another chunk leave a chunk absent. *)
Lemma moves_absent c d files moves f f' r : chunk_moves d files = Ok moves → chunk_path c ≠ chunk_path d →
  run_moves moves f = (f', r) → absent f c → absent f' c.
Proof.
  intros Hm Hne Hr Ha q Hq. destruct (run_moves_any _ _ _ _ Hr (chunk_path c ++ q)) as [_ Hn].
  destruct (Hn Hq) as [Hx|(p & Hp & Hpre)]; [by apply Ha|]. destruct (chunk_moves_inside _ _ _ _ Hm Hp) as [file ->].
  by apply chunk_path_inside in Hpre.
Qed.

(** The whole run only adds, and only inside the chunks it is given. *)
Lemma writer_run_any items : ∀ f f' r, writer_run items f = (f', r) → ∀ q,
  (fs_has f q → fs_has f' q) ∧
  (fs_has f' q → fs_has f q ∨ ∃ i file, i ∈ items ∧ q `prefix_of` chunk_path i.1 ++ [file]).
Proof.
  induction items as [|[d o] items IH]; intros f f' r; cbn [writer_run]; [intros [= <- _] q; auto|].
  destruct (o ≫= chunk_moves d) as [moves|e|m] eqn:Em; [|intros [= <- _] q; auto..].
  destruct (run_moves moves f) as [f1 r1] eqn:E1. intros Hr q. destruct (run_moves_any _ _ _ _ E1 q) as [Hk Hn].
  assert (Hone : fs_has f1 q → fs_has f q ∨ ∃ i file, i ∈ (d, o) :: items ∧ q `prefix_of` chunk_path i.1 ++ [file]).
  { intros [?|(p & Hp & Hpre)]%Hn; [by left|]. right. apply bind_Ok in Em as (files & _ & Em).
    destruct (chunk_moves_inside _ _ _ _ Em Hp) as [file ->]. exists (d, o), file. split; [lmem|done]. }
  destruct r1 as [[]|e|m]; [|injection Hr as <- _; auto..].
  destruct (IH _ _ _ Hr q) as [Hk' Hn']. split; [auto|]. intros [?|(i & file & ? & ?)]%Hn'; [auto|].
  right. exists i, file. split; [lmem|done].
Qed.

Lemma run_moves_app l k f : run_moves (l ++ k) f
  = match run_moves l f with (f1, Ok _) => run_moves k f1 | r => r end.
Proof.
  revert f. induction l as [|p l IH]; intros f; cbn [run_moves app]; [done|].
  destruct (fs_move_local p f) as [f1 [[]|e|m]]; [apply IH|done..].
Qed.

(** The moves of one chunk: if they are all done its files are in place, and its block file is
    in place only after all the others. *)
Lemma chunk_moves_run c files moves f f' r : NoDup files → BLOCKS_FILE ∈ files → chunk_moves c files = Ok moves →
  run_moves moves f = (f', r) → absent f c → r = Ok tt ∨ fs_has f' (chunk_path c ++ [BLOCKS_FILE]) →
  ∀ file, file ∈ files → fs_has f' (chunk_path c ++ [file]).
Proof.
  intros Hnd Hin Hm Hr Ha Hor file Hfile. destruct (chunk_moves_spec c files Hnd Hin) as (rest & E & Hp & Hno).
  assert (moves = ((λ f, chunk_path c ++ [f]) <$> rest) ++ [chunk_path c ++ [BLOCKS_FILE]]) as -> by congruence.
  rewrite run_moves_app in Hr.
  destruct (run_moves ((λ f, chunk_path c ++ [f]) <$> rest) f) as [f1 r1] eqn:E1.
  rewrite <-Hp in Hfile. assert (Hlate : fs_has f1 (chunk_path c ++ [BLOCKS_FILE]) → False).
  { intros Hb. destruct (run_moves_any _ _ _ _ E1 (chunk_path c ++ [BLOCKS_FILE])) as [_ Hn].
    destruct (Hn Hb) as [Hx|(p & (x & -> & Hx)%list_elem_of_fmap & Hpre)]; [by apply Ha in Hx|].
    apply prefix_app_inv, prefix_cons_inv_1 in Hpre. by subst x. }
  destruct r1 as [[]|e|m]; [|by injection Hr as <- <-; destruct Hor..].
  destruct (run_moves_any _ _ _ _ Hr (chunk_path c ++ [file])) as [Hk _].
  apply elem_of_cons in Hfile as [->|Hfile].
  - destruct Hor as [->|]; [|done]. apply (run_moves_has _ _ _ Hr). right. split; [done|]. eexists. split; [lmem|done].
  - apply Hk. apply (run_moves_has _ _ _ E1). right. split; [done|]. eexists.
    split; [by apply (list_elem_of_fmap_2' _ _ file)|done].
Qed.

(** C29: a writer that is stopped leaves at most one incomplete chunk, and it can be told.
    However far [writer_run] comes before a move fails or is cut short (the process being
    killed included, see [Stopping]) or the files of a chunk cannot be made: a chunk that was
    not there before and whose block file is in place has all its files in place, and so have
    all the chunks written before it.  If the writer ends without an error every chunk has. *)
Theorem writer_crash_safe before_ c files after f f' r :
  writes_ok (before_ ++ (c, Ok files) :: after) → absent f c →
  writer_run (before_ ++ (c, Ok files) :: after) f = (f', r) →
  r = Ok tt ∨ fs_has f' (chunk_path c ++ [BLOCKS_FILE]) →
  (∀ file, file ∈ files → fs_has f' (chunk_path c ++ [file])) ∧
  ∀ d o, (d, o) ∈ before_ → ∃ dfiles, o = Ok dfiles ∧ ∀ file, file ∈ dfiles → fs_has f' (chunk_path d ++ [file]).
Proof.
  revert f. induction before_ as [|[d o] before_ IH]; intros f [Hnd Hok] Ha; cbn [app writer_run].
  - destruct (Hok c files) as [Hn Hb]; [cbn; lmem|]. destruct (chunk_moves_spec c files Hn Hb) as (rest & Em & _).
    change (Ok files ≫= chunk_moves c) with (chunk_moves c files). rewrite Em.
    set (moves := _ ++ [chunk_path c ++ [BLOCKS_FILE]]) in *. destruct (run_moves moves f) as [f1 r1] eqn:E1.
    intros Hr Hor. split; [|by intros d o ?%elem_of_nil]. intros file Hfile.
    destruct r1 as [[]|e|m]; [|injection Hr as <- <-; by eapply chunk_moves_run..].
    apply (writer_run_any _ _ _ _ Hr). eapply chunk_moves_run; try done. by left.
  - cbn in Hnd. apply NoDup_cons in Hnd as [Hd Hnd].
    assert (Hne : chunk_path c ≠ chunk_path d).
    { intros E. apply Hd. rewrite fmap_app. apply elem_of_app. right. rewrite <-E. cbn. lmem. }
    assert (Hgone : ∀ g, absent g c → ¬ fs_has g (chunk_path c ++ [BLOCKS_FILE])) by (intros g Hg Hx; by apply Hg in Hx).
    destruct (o ≫= chunk_moves d) as [moves|e|m] eqn:Em;
      [|intros [= <- <-] [|Hx]; [done|by destruct (Hgone f Ha)]..].
    apply bind_Ok in Em as (dfiles & -> & Em). destruct (run_moves moves f) as [f1 r1] eqn:E1.
    pose proof (moves_absent c d dfiles moves f f1 r1 Em Hne E1 Ha) as Ha1.
    destruct r1 as [[]|e|m]; [|intros [= <- <-] [|Hx]; [done|by destruct (Hgone f1 Ha1)]..].
    intros Hr Hor. destruct (IH f1) as [H1 H2]; [split; [done|intros c' fs' Hc'; apply (Hok c'); cbn; lmem]|done..|]. split; [done|].
    intros d' o' [[= -> ->]|Hin]%elem_of_cons; [|auto]. exists dfiles. split; [done|]. intros file Hfile.
    apply (writer_run_any _ _ _ _ Hr). destruct (Hok d dfiles) as [Hn Hb]; [cbn; lmem|].
    destruct (chunk_moves_spec d dfiles Hn Hb) as (rest & Em' & Hp & _).
    assert (moves = ((λ f, chunk_path d ++ [f]) <$> rest) ++ [chunk_path d ++ [BLOCKS_FILE]]) as -> by congruence.
    apply (run_moves_has _ _ _ E1). right. split; [done|]. exists (chunk_path d ++ [file]). split; [|done].
    rewrite <-Hp in Hfile. apply elem_of_app. apply elem_of_cons in Hfile as [->|Hfile]; [right; lmem|].
    left. by apply (list_elem_of_fmap_2' _ _ file).
Qed.
End crash.

(** A writer that is killed: the file system of a process that can do [st_left] more moves. *)
Record Stopping (F : Type) : Type := mkStopping { st_left : nat; st_inner : F }.
Arguments mkStopping {F} _ _.
Arguments st_left {F} _.
Arguments st_inner {F} _.

#[export] Instance stopping_fs {F} `{Fs F} : Fs (Stopping F) := {|
  fs_ls dir s := fs_ls dir (st_inner s);
  fs_move_local p s :=
    match st_left s with
    | O => (s, Err (EMsg "interrupted"))
    | S n => let '(f, r) := fs_move_local p (st_inner s) in (mkStopping n f, r)
    end;
  fs_delete p s := let '(f, r) := fs_delete p (st_inner s) in (mkStopping (st_left s) f, r)
|}.

#[export] Program Instance stopping_laws {F} `{FsLaws F} : FsLaws (Stopping F) := {| fs_has s := fs_has (st_inner s) |}.
Next Obligation. intros F ? ? s dir. exact (fs_ls_has (st_inner s) dir). Qed.
Next Obligation.
  intros F ? ? [[|n] f] p s'; cbn; [done|]. destruct (fs_move_local p f) as [f1 r1] eqn:E. intros [= <- ->]. by apply (fs_move_has f).
Qed.
Next Obligation.
  intros F ? ? [[|n] f] p s' r; cbn; [intros [= <- _] q; auto|].
  destruct (fs_move_local p f) as [f1 r1] eqn:E. intros [= <- _]. by apply (fs_move_any f p f1 r1).
Qed.
Next Obligation.
  intros F ? ? [n f] p s'; cbn. destruct (fs_delete p f) as [f1 r1] eqn:E. intros [= <- ->]. by apply (fs_delete_gone f).
Qed.
Next Obligation.
  intros F ? ? [n f] p s'; cbn. destruct (fs_delete p f) as [f1 r1] eqn:E. intros [= <- ->]. by apply (fs_delete_kept f).
Qed.
Next Obligation. intros F ? ? s p q. exact (fs_parent (st_inner s) p q). Qed.
