(* ===== verification/ArchiveRun.v ===== *)
(** * ArchiveRun: the chunks of an archive run

    The processor of the archive cuts the block stream into chunks.  Every block goes into
    exactly one chunk, the chunks tile the block numbers from where the tracker stood, and a
    run over a stream in order fails exactly when the stream breaks the chain. *)

From stdpp Require Import list sorting.
From S2P Require Import Prelude Data Chain Schema Ingest IngestSpec IngestProps Archive ArchiveSpec ArchiveProps.

Section run.
Context {B CB CP PT : Type} `{Block B} `{!ChunkBuilder B CB CP PT} `{!ChunkBuilderLaws B CB CP PT}.
Context (cp_byte_size : CP → Z) (accepts : list (WriterItem (PT:=PT)) → bool).
#[local] Abbreviation writer := (ChunkWriter (CB:=CB) (CP:=CP)).
#[local] Abbreviation proc := (Proc (CB:=CB) (CP:=CP) (PT:=PT)).
#[local] Abbreviation item := (WriterItem (PT:=PT)).

(** A builder that holds blocks has rows: every block has a row in the block table. *)
Definition rows_of_blocks : Prop := ∀ cb : CB, cb_blocks (B:=B) cb ≠ [] → 0 < cb_max_num_rows (B:=B) (CP:=CP) (PT:=PT) cb.

(** ** The chunk writer *)

Definition in_writer (w : writer) : list B := cp_blocks (cw_processor w) ++ cb_blocks (cw_chunk_builder w).

Lemma spill_blocks (w w' : writer) : spill_on_disk w = (w', Ok tt) →
  in_writer w' = in_writer w ∧ cb_blocks (cw_chunk_builder w') = [].
Proof.
  unfold spill_on_disk, in_writer. destruct (cb_submit_to_processor _ _) as [p [[]|e|m]] eqn:E; intros [= <-]. cbn.
  rewrite (cb_submit_blocks _ _ _ E), cb_clear_blocks, app_nil_r. done.
Qed.

Lemma push_blocks b (w w' : writer) : cw_push b w = (w', Ok tt) → in_writer w' = in_writer w ++ [b].
Proof.
  unfold cw_push. destruct (cb_push b _) as [cb [[]|e|m]] eqn:E; [|by intros [= <-]..].
  pose proof (cb_push_blocks _ _ _ E) as Hp. case_if.
  - intros Hs. apply spill_blocks in Hs as [-> _]. unfold in_writer. cbn. by rewrite Hp, app_assoc.
  - intros [= <-]. unfold in_writer. cbn. by rewrite Hp, app_assoc.
Qed.

Lemma finish_blocks (w w' : writer) ts : rows_of_blocks → cw_finish w = (w', Ok ts) →
  in_writer w' = [] ∧ ts = chunk_tables (in_writer w).
Proof.
  intros Hrows. unfold cw_finish.
  destruct (if _ : bool then _ else _) as [w1 [[]|e|m]] eqn:E; [|done..].
  assert (Hw1 : in_writer w1 = in_writer w ∧ cb_blocks (cw_chunk_builder w1) = []).
  { case_if_in E; [by apply spill_blocks|]. injection E as <-. split; [done|].
    destruct (cb_blocks (cw_chunk_builder w)) eqn:Eb; [done|].
    pose proof (Hrows (cw_chunk_builder w) ltac:(by rewrite Eb)). zbool. lia. }
  destruct Hw1 as [E1 Eb]. destruct (cb_new_chunk_processor _) as [p|e|m] eqn:Ep; [|done..]. intros [= <- Hf].
  apply cp_finish_blocks in Hf. unfold in_writer in *. cbn. rewrite (cb_new_blocks _ _ Ep), Eb. split; [done|].
  by rewrite Hf, <-E1, Eb, app_nil_r.
Qed.

(** ** Chunks and their blocks *)

(** The item made of a batch of blocks, with the tables of their common mask. *)
Definition item_of (batch : list B) (it : item) : Prop :=
  ∃ b z, head batch = Some b ∧ last batch = Some z ∧ dc_last_block (wi_chunk it) = block_number z ∧
    dc_last_hash (wi_chunk it) = short_hash (block_hash z) ∧
    Forall (λ x, data_availability_mask x = data_availability_mask b) batch ∧
    wi_data it = retain_tables (data_availability_mask b) (chunk_tables batch).

(** Chunks from block [n] on without gap; each goes into the directory of the one before, or
    into one named by its own first block. *)
Fixpoint tile_from (n : Z) (top : Z) (cs : list DataChunk) : Prop :=
  match cs with
  | [] => True
  | c :: cs => dc_first_block c = n ∧ n <= dc_last_block c ∧ (dc_top c = top ∨ dc_top c = n) ∧
      tile_from (u64_add (dc_last_block c) 1) (dc_top c) cs
  end.

Lemma tile_from_snoc cs : ∀ n top c,
  tile_from n top (cs ++ [c]) ↔ tile_from n top cs ∧
    match last cs with
    | Some z => dc_first_block c = u64_add (dc_last_block z) 1 ∧ (dc_top c = dc_top z ∨ dc_top c = dc_first_block c)
    | None => dc_first_block c = n ∧ (dc_top c = top ∨ dc_top c = n)
    end ∧ dc_first_block c <= dc_last_block c.
Proof.
  induction cs as [|x cs IH]; intros n top c.
  - cbn. split; [intros (? & ? & ? & _)|intros (_ & [? ?] & ?)]; subst; done.
  - cbn [app tile_from]. rewrite IH, last_cons. destruct (last cs) as [z|]; [tauto|].
    split; [intros (E1 & E2 & E3 & E7 & [E4 E5] & E6)|intros ((E1 & E2 & E3 & E7) & [E4 E5] & E6)];
      (split_and!; first [done | lia | destruct E5; first [by left | right; congruence]]).
Qed.

Lemma next_chunk_dir_spec n l h t c t' : next_chunk_dir n l h t = Ok (c, t') →
  c = mkDataChunk n l h (dc_top c) ∧ n = next_block t ∧ n <= l <= ct_last_block_limit t ∧
  (dc_top c = ct_top t ∨ dc_top c = n) ∧ next_block t' = u64_add l 1 ∧ ct_top t' = dc_top c ∧
  prev_chunk_hash t' = Some h ∧ ct_last_block_limit t' = ct_last_block_limit t ∧ (length (ct_chunks t') <= 1 `max` ct_top_dir_size t)%nat.
Proof.
  unfold next_chunk_dir. destruct (Z.eqb_spec (next_block t) n) as [En|]; cbn [negb]; [|done].
  destruct (Z.leb_spec n l); cbn [negb]; [|done]. destruct (Z.leb_spec l (ct_last_block_limit t)); cbn [negb]; [|done].
  intros [= <- <-]. cbn. unfold prev_chunk_hash, next_block at 2. cbn. rewrite !last_snoc, length_app. cbn.
  split_and!; try done.
  - by destruct (_ <=? _)%nat; [right|left].
  - destruct (Nat.leb_spec (ct_top_dir_size t) (length (ct_chunks t))); cbn; lia.
Qed.

(** ** The state of a run *)

(** The blocks [bs] taken so far: [batches] were sent and [pending] are held. *)
Record taken_so_far (t0 : ChunkTracker) (bs : list B) (s : proc) : Prop := {
  tk_blocks : ∃ batches pending, bs = concat batches ++ pending ∧ Forall2 item_of batches (pr_sent s) ∧
    in_writer (pr_writer s) = pending ∧ pr_blocks_buffered s = Z.of_nat (length pending) ∧
    Forall (λ x, data_availability_mask x = pr_mask s) pending ∧
    (∀ z, last pending = Some z → pr_last_block s = block_number z);
  tk_last : ∀ z, last bs = Some z → pr_last_block_hash s = block_hash z;
  tk_tiles : tile_from (next_block t0) (ct_top t0) (wi_chunk <$> pr_sent s);
  tk_next : next_block (pr_tracker s) = match last (wi_chunk <$> pr_sent s) with
                                        | Some c => u64_add (dc_last_block c) 1 | None => next_block t0 end;
  tk_top : ct_top (pr_tracker s) = match last (wi_chunk <$> pr_sent s) with Some c => dc_top c | None => ct_top t0 end;
  tk_first : pr_first_block s = next_block (pr_tracker s);
  tk_limit : ct_last_block_limit (pr_tracker s) = ct_last_block_limit t0
}.

Context (Hrows : rows_of_blocks).

Lemma submit_taken t0 bs s s' : taken_so_far t0 bs s → submit_chunk accepts s = (s', Ok tt) →
  taken_so_far t0 bs s' ∧ pr_blocks_buffered s' = 0 ∧ pr_mask s' = pr_mask s.
Proof.
  intros Ht. unfold submit_chunk. destruct (Z.eqb_spec (pr_blocks_buffered s) 0) as [E0|Hne]; [by intros [= <-]|].
  destruct (cw_finish (pr_writer s)) as [w [ts|e|m]] eqn:Ef; [|done..]. destruct (finish_blocks _ _ _ Hrows Ef) as [Ew Ets].
  cbn [with_writer pr_first_block pr_last_block pr_last_block_hash pr_tracker pr_sent pr_mask].
  destruct (next_chunk_dir _ _ _ _) as [[c t']|e|m] eqn:Ec; [|done..]. destruct (accepts (pr_sent s)); [|done]. intros [= <-].
  destruct (next_chunk_dir_spec _ _ _ _ _ _ Ec) as (Hc & Hn & Hl & Htop & Hnext & Htop' & _ & Hlim & _).
  destruct Ht as [(batches & pending & -> & Hits & Hw & Hb & Hm & Hz) Hlast Htile Hnx Htp Hf Hli].
  split; [|done]. destruct pending as [|b pending]; [cbn in Hb; lia|].
  destruct (last (b :: pending)) as [z|] eqn:Ez; [|by apply last_None in Ez]. pose proof (Hz z eq_refl) as Hzn.
  assert (Hh : pr_last_block_hash s = block_hash z) by (apply Hlast; rewrite last_app, Ez; done).
  rewrite Hzn, Hh in Hc. split; cbn.
  - exists (batches ++ [b :: pending]), []. rewrite concat_app. cbn. rewrite !app_nil_r. split_and!; try done.
    apply Forall2_app; [done|]. constructor; [|done]. exists b, z. apply Forall_cons in Hm as [Hmb Hm]. rewrite Hc, Hmb. cbn.
    split_and!; try done; [by constructor|]. by rewrite Ets, Hw.
  - done.
  - rewrite fmap_app. cbn. apply tile_from_snoc. split; [done|]. split; [|rewrite Hc; cbn; lia].
    assert (E1 : dc_first_block c = pr_first_block s) by (by rewrite Hc). rewrite Htp in Htop.
    destruct (last (wi_chunk <$> pr_sent s)) as [y|]; (split; [congruence|]); (destruct Htop; [by left|right; congruence]).
  - rewrite fmap_app. cbn [fmap list_fmap wi_chunk]. rewrite last_snoc, Hnext, Hc, Hzn. done.
  - rewrite fmap_app. cbn [fmap list_fmap wi_chunk]. by rewrite last_snoc.
  - by rewrite Hnext.
  - by rewrite Hlim.
Qed.

Lemma block_taken t0 start bs b s s' : taken_so_far t0 bs s → proc_block cp_byte_size accepts start b s = (s', Ok tt) →
  taken_so_far t0 (bs ++ [b]) s'.
Proof.
  intros Ht. unfold proc_block. destruct (check_parent start b s) as [[]|e|m]; [|done..].
  destruct (if decide _ then _ else _) as [s1 [[]|e|m]] eqn:E1; [|done..].
  assert (H1 : taken_so_far t0 bs s1 ∧ pr_mask s1 = data_availability_mask b).
  { case_decide as Hm; [by injection E1 as <-|]. destruct (submit_chunk accepts s) as [s2 [[]|e|m]] eqn:E2; [|done..].
    injection E1 as <-. destruct (submit_taken _ _ _ _ Ht E2) as ([(batches & pending & -> & Hits & Hw & Hb & Hm' & Hz) ? ? ? ? ? ?] & Hb0 & _).
    split; [|done]. split; try done. exists batches, pending. assert (pending = []) as -> by (destruct pending; cbn in *; [done|lia]).
    split_and!; done. }
  clear E1 Ht s. destruct H1 as [[(batches & pending & -> & Hits & Hw & Hb & Hm & Hz) Hlast Htile Hnx Htp Hf Hli] Hmask].
  destruct (cw_push b (pr_writer s1)) as [w [[]|e|m]] eqn:Ep; [|done..]. pose proof (push_blocks _ _ _ Ep) as Hw'.
  assert (H2 : taken_so_far t0 ((concat batches ++ pending) ++ [b]) (with_block b (with_writer w s1))).
  { split; cbn; try done.
    - exists batches, (pending ++ [b]). rewrite Hw', Hw, length_app, app_assoc. cbn. split_and!; try done; [lia| |].
      + apply Forall_app. split; [done|]. by constructor.
      + intros z. rewrite last_snoc. by intros [= ->].
    - intros z. rewrite last_snoc. by intros [= ->]. }
  case_if; [|by intros [= <-]]. intros Hs. by apply (submit_taken _ _ _ _ H2) in Hs as [? _].
Qed.

Lemma run_taken t0 bs : ∀ start done_ s s', taken_so_far t0 done_ s →
  proc_run cp_byte_size accepts start (Ok <$> bs) s = (s', Ok tt) →
  taken_so_far t0 (done_ ++ bs) s' ∧ pr_blocks_buffered s' = 0.
Proof.
  induction bs as [|b bs IH]; intros start done_ s s' Ht; cbn [proc_run fmap list_fmap].
  - rewrite app_nil_r. rewrite Z.gtb_ltb. destruct (Z.ltb_spec 0 (pr_blocks_buffered s)).
    + intros Hs. by apply (submit_taken _ _ _ _ Ht) in Hs as (? & ? & _).
    + intros [= <-]. split; [done|]. destruct Ht as [(batches & pending & _ & _ & _ & Hb & _) _ _ _ _ _ _]. lia.
  - destruct (proc_block cp_byte_size accepts start b s) as [s1 [[]|e|m]] eqn:E; [|done..]. intros Hr.
    replace (done_ ++ b :: bs) with ((done_ ++ [b]) ++ bs) by (by rewrite <-app_assoc). eapply IH; [|done]. by eapply block_taken.
Qed.

Lemma proc_new_taken cb t s mb rows v : cb_blocks cb = [] → proc_new cb t = Ok s → taken_so_far t [] (set_limits mb rows v s).
Proof.
  intros Hcb E. unfold proc_new, chunk_writer_new in E. destruct (cb_new_chunk_processor cb) as [p|e|m] eqn:Ep; [|done..].
  injection E as <-. split; cbn; try done. exists [], []. split_and!; try done. unfold in_writer. cbn.
  by rewrite Hcb, (cb_new_blocks _ _ Ep).
Qed.

(** C30: an archive run puts every block into exactly one chunk.  When a run over a stream of
    blocks ends well, the chunks handed to the writer are the blocks of the stream cut into
    non-empty batches of one data mask each; a chunk is named after the last block of its
    batch and carries the tables of the batch; and the chunks tile the block numbers from the
    next block of the tracker on, each in the directory of the one before or in a new one
    named by its first block. *)
Theorem archive_run_exact cb t s mb rows v bs s' : cb_blocks cb = [] → proc_new cb t = Ok s →
  proc_run cp_byte_size accepts true (Ok <$> bs) (set_limits mb rows v s) = (s', Ok tt) →
  ∃ batches, concat batches = bs ∧ Forall2 item_of batches (pr_sent s') ∧
    tile_from (next_block t) (ct_top t) (wi_chunk <$> pr_sent s').
Proof.
  intros Hcb Hs Hr. pose proof (proc_new_taken cb t s mb rows v Hcb Hs) as Ht.
  destruct (run_taken t bs true [] _ _ Ht Hr) as [[(batches & pending & Eb & Hits & _ & Hl & _) _ Htile _ _ _ _] H0].
  exists batches. split_and!; [|done..]. rewrite Hl in H0. destruct pending; [|cbn in H0; lia]. by rewrite app_nil_r in Eb.
Qed.

(** ** Totality *)

(** A builder that does not fail and a writer that is there. *)
Definition dependable : Prop :=
  (∀ b (cb : CB), (cb_push (PT:=PT) (CP:=CP) b cb).2 = Ok tt) ∧
  (∀ cb : CB, ∃ cp, cb_new_chunk_processor (B:=B) (PT:=PT) (CP:=CP) cb = Ok cp) ∧
  (∀ (cb : CB) (cp : CP), (cb_submit_to_processor (B:=B) (PT:=PT) cb cp).2 = Ok tt) ∧
  (∀ cp : CP, ∃ ts, cp_finish (B:=B) (CB:=CB) (PT:=PT) cp = Ok ts) ∧ (∀ l, accepts l = true).

(** Blocks in order, at or above [n] and within the limit of the tracker. *)
Fixpoint numbers_ok (n limit : Z) (bs : list B) : Prop :=
  match bs with
  | [] => True
  | b :: bs => n <= block_number b <= limit ∧ block_number b < u64_max ∧ numbers_ok (block_number b + 1) limit bs
  end.

(** The chain conditions that [run] checks. *)
Fixpoint links_ok (prev : string) (bs : list B) : bool :=
  match bs with
  | [] => true
  | b :: bs => (bool_decide (prev = block_parent_hash b) && links_ok (block_hash b) bs)%bool
  end.
Definition attaches (prev : option string) (b : B) : bool :=
  match prev with
  | Some h => (bool_decide (h = short_hash (block_parent_hash b)) || bool_decide (h = fallback_short_hash (block_parent_hash b)))%bool
  | None => true
  end.
Definition continuous (validate : bool) (prev : option string) (bs : list B) : bool :=
  match bs with
  | [] => true
  | b :: bs => (attaches prev b && (negb validate || links_ok (block_hash b) bs))%bool
  end.

Context (Hdep : dependable).

Lemma finish_total_ok (w : writer) : ∃ w' ts, cw_finish w = (w', Ok ts).
Proof.
  destruct Hdep as (_ & Hnew & Hsub & Hfin & _). unfold cw_finish.
  destruct (if _ : bool then _ else _) as [w1 r] eqn:E. assert (r = Ok tt) as ->.
  { case_if_in E; [|by injection E]. unfold spill_on_disk in E. specialize (Hsub (cw_chunk_builder w) (cw_processor w)).
    destruct (cb_submit_to_processor _ _) as [p r']. cbn in Hsub. subst r'. by injection E. }
  destruct (Hnew (cw_chunk_builder w1)) as [p ->]. destruct (Hfin (cw_processor w1)) as [ts ->]. eauto.
Qed.

Lemma push_total_ok b (w : writer) : ∃ w', cw_push b w = (w', Ok tt).
Proof.
  destruct Hdep as (Hpush & _ & Hsub & _). unfold cw_push. specialize (Hpush b (cw_chunk_builder w)).
  destruct (cb_push b _) as [cb r]. cbn in Hpush. subst r. case_if; [|eauto]. unfold spill_on_disk.
  match goal with |- context [cb_submit_to_processor ?c ?p] => specialize (Hsub c p); destruct (cb_submit_to_processor c p) as [p' r] end.
  cbn in Hsub. subst r. eauto.
Qed.

(** The state between blocks: the held blocks can be submitted. *)
Definition submittable (s : proc) : Prop :=
  pr_first_block s = next_block (pr_tracker s) ∧
  (pr_blocks_buffered s = 0 ∨ pr_first_block s <= pr_last_block s <= ct_last_block_limit (pr_tracker s)).

Lemma submit_total s : submittable s → pr_last_block s < u64_max → 0 <= pr_last_block s →
  ∃ s', submit_chunk accepts s = (s', Ok tt) ∧ submittable s' ∧ pr_blocks_buffered s' = 0 ∧
    ct_last_block_limit (pr_tracker s') = ct_last_block_limit (pr_tracker s) ∧ pr_last_block_hash s' = pr_last_block_hash s ∧
    pr_validate s' = pr_validate s ∧
    (pr_blocks_buffered s ≠ 0 → pr_first_block s' = pr_last_block s + 1) ∧ (pr_blocks_buffered s = 0 → s' = s).
Proof.
  intros [Hf Hl] Hmax H0. unfold submit_chunk. destruct (Z.eqb_spec (pr_blocks_buffered s) 0) as [E0|Hne].
  { exists s. split_and!; try done. }
  destruct Hl as [|Hl]; [done|]. destruct (finish_total_ok (pr_writer s)) as (w & ts & ->).
  cbn [with_writer pr_first_block pr_last_block pr_last_block_hash pr_tracker pr_sent pr_mask].
  destruct (next_chunk_dir _ _ _ _) as [[c t']|e|m] eqn:Ec.
  - destruct (next_chunk_dir_spec _ _ _ _ _ _ Ec) as (_ & _ & _ & _ & Hnext & _ & _ & Hlim & _).
    destruct Hdep as (_ & _ & _ & _ & ->). eexists. split; [done|]. cbn. split_and!; try done; [by split; [|left]|].
    intros _. by rewrite u64_add_small by lia.
  - exfalso. revert Ec. unfold next_chunk_dir. by repeat case_if.
  - exfalso. revert Ec. unfold next_chunk_dir. rewrite <-Hf, Z.eqb_refl. cbn [negb].
    rewrite (proj2 (Z.leb_le _ _)) by lia. cbn [negb]. rewrite (proj2 (Z.leb_le _ _)) by lia. done.
Qed.

(** Ready for a block at or above [n]. *)
Definition ready_for (n limit : Z) (s : proc) : Prop :=
  submittable s ∧ 0 <= pr_last_block s < u64_max ∧ ct_last_block_limit (pr_tracker s) = limit ∧ pr_first_block s <= n ∧
  (pr_blocks_buffered s = 0 ∨ pr_last_block s + 1 <= n) ∧ 0 <= pr_blocks_buffered s.

Lemma submit_ready n limit s : ready_for n limit s →
  ∃ s', submit_chunk accepts s = (s', Ok tt) ∧ ready_for n limit s' ∧ pr_last_block_hash s' = pr_last_block_hash s ∧
    pr_validate s' = pr_validate s ∧ pr_blocks_buffered s' = 0.
Proof.
  intros (Hs & Hl & Hlim & Hf & Hb & H0). destruct (submit_total s Hs) as (s' & E & Hs' & Hb' & Hlim' & Hh & Hv & Hne & Hz); [lia..|].
  exists s'. split; [done|]. split; [|done]. destruct (decide (pr_blocks_buffered s = 0)) as [E0|E0].
  - rewrite (Hz E0) in *. done.
  - assert (Hll : pr_last_block s' = pr_last_block s).
    { revert E. unfold submit_chunk. rewrite (proj2 (Z.eqb_neq _ _)) by done. repeat case_match; intros [= <-]; done. }
    split_and!; try done; try (by left); lia.
Qed.

Lemma block_total n limit start b s : ready_for n limit s → n <= block_number b <= limit → 0 <= n → block_number b < u64_max →
  match check_parent start b s with
  | Ok _ => ∃ s', proc_block cp_byte_size accepts start b s = (s', Ok tt) ∧ ready_for (block_number b + 1) limit s' ∧
      pr_last_block_hash s' = block_hash b ∧ pr_validate s' = pr_validate s
  | Err e => proc_block cp_byte_size accepts start b s = (s, Err e)
  | Panic _ => False
  end.
Proof.
  intros Hr Hn H0 Hmax. unfold proc_block. destruct (check_parent start b s) as [[]|e|m] eqn:Ec; [|done|].
  2: { revert Ec. unfold check_parent, ensure. repeat case_match; done. }
  destruct (if decide _ then _ else _) as [s1 r] eqn:E1.
  assert (H1 : r = Ok tt ∧ ready_for n limit s1 ∧ pr_validate s1 = pr_validate s).
  { case_decide; [by injection E1 as <- <-|]. destruct (submit_ready n limit s Hr) as (s2 & E2 & Hr2 & _ & Hv & _).
    rewrite E2 in E1. by injection E1 as <- <-. }
  destruct H1 as (-> & Hr1 & Hv1). clear Hr E1. destruct (push_total_ok b (pr_writer s1)) as [w ->].
  set (s2 := with_block b (with_writer w s1)).
  assert (Hr2 : ready_for (block_number b + 1) limit s2).
  { destruct Hr1 as ([Hf1 Hl1] & Hl & Hlim & Hf & Hb & Hb0). unfold ready_for, submittable. cbn. split_and!; try done; try lia. }
  case_if; [|by exists s2]. destruct (submit_ready _ _ _ Hr2) as (s3 & E3 & Hr3 & Hh & Hv & _).
  exists s3. split_and!; [done..|by rewrite Hh|by rewrite Hv].
Qed.

Lemma run_links n limit bs : ∀ s, ready_for n limit s → 0 <= n → numbers_ok n limit bs →
  match proc_run cp_byte_size accepts false (Ok <$> bs) s with
  | (_, Ok _) => negb (pr_validate s) || links_ok (pr_last_block_hash s) bs = true
  | (_, Err _) => negb (pr_validate s) || links_ok (pr_last_block_hash s) bs = false
  | (_, Panic _) => False
  end.
Proof.
  revert n. induction bs as [|b bs IH]; intros n s Hr Hn Hnum; cbn [proc_run fmap list_fmap].
  - case_if; [|by rewrite orb_comm]. destruct (submit_ready n limit s Hr) as (s' & -> & _). by rewrite orb_comm.
  - destruct Hnum as (Hb & Hmax & Hnum). pose proof (block_total n limit false b s Hr Hb Hn Hmax) as Ht. cbn [check_parent] in Ht.
    unfold ensure in Ht. cbn [links_ok]. destruct (pr_validate s) eqn:Ev; cbn.
    + case_bool_decide; cbn.
      * destruct Ht as (s' & -> & Hr' & Hh & Hv). specialize (IH _ s' Hr' ltac:(lia) Hnum). rewrite Hv, Hh in IH. exact IH.
      * by rewrite Ht.
    + destruct Ht as (s' & -> & Hr' & Hh & Hv). specialize (IH _ s' Hr' ltac:(lia) Hnum). rewrite Hv in IH. exact IH.
Qed.

(** An archive run fails exactly on a broken chain.  Over blocks in order within the limit
    of the tracker, with a builder that does not fail and a writer that is there, a run never
    panics, and it succeeds exactly when the first block attaches to the last chunk by its
    short hash and, if validation is on, every block names its predecessor as parent. *)
Theorem archive_run_total cb t s mb rows v bs : proc_new cb t = Ok s →
  0 <= next_block t → numbers_ok (next_block t) (ct_last_block_limit t) bs →
  match proc_run cp_byte_size accepts true (Ok <$> bs) (set_limits mb rows v s) with
  | (_, Ok _) => continuous v (prev_chunk_hash t) bs = true
  | (_, Err _) => continuous v (prev_chunk_hash t) bs = false
  | (_, Panic _) => False
  end.
Proof.
  intros E Hn0 Hnum. unfold proc_new, chunk_writer_new in E. destruct (cb_new_chunk_processor cb) as [p|e|m]; [|done..].
  injection E as <-. set (s0 := set_limits mb rows v _).
  assert (Hr : ready_for (next_block t) (ct_last_block_limit t) s0).
  { unfold ready_for, submittable, u64_max. cbn. split_and!; try done; try lia; by left. }
  destruct bs as [|b bs]; cbn [proc_run fmap list_fmap]; [done|]. destruct Hnum as (Hb & Hmax & Hnum).
  pose proof (block_total _ _ true b s0 Hr Hb Hn0 Hmax) as Ht. cbn [check_parent s0 set_limits pr_tracker] in Ht.
  cbn [continuous]. unfold attaches. unfold ensure in Ht. destruct (prev_chunk_hash t) as [h|].
  - destruct (_ || _)%bool; cbn; [|by rewrite Ht]. destruct Ht as (s' & -> & Hr' & Hh & Hv).
    pose proof (run_links _ _ bs s' Hr' ltac:(lia) Hnum) as Hl. rewrite Hh, Hv in Hl. exact Hl.
  - cbn. destruct Ht as (s' & -> & Hr' & Hh & Hv).
    pose proof (run_links _ _ bs s' Hr' ltac:(lia) Hnum) as Hl. rewrite Hh, Hv in Hl. exact Hl.
Qed.
End run.

(** ** The block stream *)

Section service.
Context {B : Type} `{Block B}.

Definition received (items : list (res B)) : list B := omap (λ r, match r with Ok b => Some b | _ => None end) items.
Definition position_after (n : Z) (bs : list B) : Z := match last bs with Some b => block_number b + 1 | None => n end.

(** A service that answers with blocks in order from the position asked for. *)
Definition serves_in_order (fetch : Z → list (res B)) : Prop := ∀ n, numbers_ok n (u64_max - 1) (received (fetch n)).

Lemma position_after_app n (bs cs : list B) : position_after n (bs ++ cs) = position_after (position_after n bs) cs.
Proof. unfold position_after. rewrite last_app. by destruct (last cs). Qed.

Lemma numbers_ok_app n limit (bs cs : list B) : numbers_ok n limit bs → numbers_ok (position_after n bs) limit cs →
  numbers_ok n limit (bs ++ cs).
Proof.
  revert n. induction bs as [|b bs IH]; intros n; [done|]. cbn [numbers_ok app]. intros (? & ? & Hb) Hc. split_and!; [lia..|].
  apply IH; [done|]. unfold position_after in *. rewrite last_cons in Hc. by destruct (last bs).
Qed.

Lemma numbers_ok_position limit (bs : list B) : ∀ n, numbers_ok n limit bs →
  n <= position_after n bs ∧ (position_after n bs = n → bs = []).
Proof.
  induction bs as [|b bs IH]; intros n; [unfold position_after; cbn; split; [lia|done]|]. intros (? & ? & Hl). destruct (IH _ Hl) as [IH1 _].
  unfold position_after in *. rewrite last_cons. destruct (last bs); (split; [lia|]); intros; lia.
Qed.

Lemma service_items_spec items from : ∀ first, 0 <= from <= first → numbers_ok first (u64_max - 1) (received items) →
  match service_items items from first with
  | (bs, next, None) => bs = received items ∧ next = position_after first bs
  | (bs, next, Some e) => bs = [] ∧ first = from
  end.
Proof.
  induction items as [|[b|e|m] items IH]; intros first Hf Hn; cbn [service_items]; [done|..].
  - cbn in Hn. destruct Hn as (Hb & Hmax & Hn). unfold u64_max in *.
    specialize (IH (block_number b + 1)). rewrite u64_add_small by (unfold u64_max; lia). specialize (IH ltac:(lia) Hn).
    destruct (service_items items from (block_number b + 1)) as [[bs next] [e|]].
    + destruct IH as [_ IH]. lia.
    + destruct IH as [-> ->]. split; [done|]. unfold position_after. rewrite last_cons. by destruct (last _).
  - rewrite Z.gtb_ltb. destruct (Z.ltb_spec from first); [by apply IH|]. split; [done|lia].
  - rewrite Z.gtb_ltb. destruct (Z.ltb_spec from first); [by apply IH|]. split; [done|lia].
Qed.

Lemma service_run_spec responses from to : Forall serves_in_order responses → ∀ first, 0 <= from <= first →
  let '(asked, bs, e) := service_run responses from first to in
  numbers_ok first (u64_max - 1) bs ∧ match e with
  | ServiceFailed _ => bs = [] ∧ first = from
  | ServiceDone => ∃ l, to = Some l ∧ l < position_after first bs
  | ServiceWaiting => length asked = length responses
  end.
Proof.
  induction 1 as [|fetch responses Hs _ IH]; intros first Hf; cbn [service_run].
  { destruct (match to with Some l => l <? first | None => false end) eqn:E; [|done]. split; [done|].
    destruct to as [l|]; [|done]. exists l. split; [done|]. cbn. zbool. lia. }
  destruct (match to with Some l => l <? first | None => false end) eqn:E.
  { split; [done|]. destruct to as [l|]; [|done]. exists l. split; [done|]. cbn. zbool. lia. }
  pose proof (service_items_spec (fetch first) from first Hf (Hs first)) as Hi.
  destruct (service_items (fetch first) from first) as [[bs next] [e|]]; [by destruct Hi as [-> ->]|].
  destruct Hi as [-> ->]. destruct (numbers_ok_position _ _ _ (Hs first)) as [Hle Hnil].
  specialize (IH (position_after first (received (fetch first))) ltac:(lia)).
  destruct (service_run responses from _ to) as [[asked rest] e]. destruct IH as [IH1 IH2].
  split; [by apply numbers_ok_app|]. rewrite position_after_app. destruct e as [e| |]; [|done|cbn; by rewrite IH2].
  destruct IH2 as [-> E2]. rewrite app_nil_r. split; [|lia]. apply Hnil. lia.
Qed.

(** The block stream survives reconnections.  If the service answers every request with
    blocks in order from the position asked for, then whatever requests fail or break off, the
    blocks yielded are in order from the first position, none repeated; a failure is passed on
    only if it comes before any block; and the stream ends only past the last block wanted. *)
Theorem service_stream_in_order responses from to : Forall serves_in_order responses → 0 <= from →
  let '(asked, bs, e) := service_run responses from from to in
  numbers_ok from (u64_max - 1) bs ∧ match e with
  | ServiceFailed _ => bs = []
  | ServiceDone => ∃ l, to = Some l ∧ l < position_after from bs
  | ServiceWaiting => length asked = length responses
  end.
Proof.
  intros Hs Hf. pose proof (service_run_spec responses from to Hs from ltac:(lia)) as Hr.
  destruct (service_run responses from from to) as [[asked bs] [e| |]]; naive_solver.
Qed.
End service.

(** ** The progress window *)

(** The ring holds at most [pg_size] units, its tail is where the next one goes, the newest
    unit carries the current value and no unit a larger one. *)
Definition progress_ok (cur : Z) (p : Progress) : Prop :=
  (2 <= pg_size p)%nat ∧ 0 < pg_granularity p ∧ 0 <= cur <= u64_max ∧
  ((length (pg_window p) < pg_size p ∧ pg_tail p = length (pg_window p)) ∨
   (length (pg_window p) = pg_size p ∧ pg_tail p < pg_size p))%nat ∧
  (∀ i u, pg_window p !! i = Some u → 0 <= u.1 <= cur) ∧
  (pg_window p ≠ [] → ∃ t, pg_window p !! last_index p = Some (cur, t)).

Lemma last_index_lt cur p : progress_ok cur p → pg_window p ≠ [] → (last_index p < length (pg_window p))%nat.
Proof. intros (_ & _ & _ & _ & _ & Hl) Hne. destruct (Hl Hne) as [t Ht]. by apply lookup_lt_Some in Ht. Qed.

(** The index of the newest unit after one was put at the tail. *)
Lemma next_last_index p w : (2 <= pg_size p)%nat → (pg_tail p < pg_size p)%nat →
  last_index (mkProgress w ((pg_tail p + 1) mod pg_size p) (pg_size p) (pg_granularity p) true) = pg_tail p.
Proof.
  intros Hs Ht. unfold last_index. cbn. destruct (decide (pg_tail p + 1 = pg_size p)%nat) as [E|E].
  - rewrite E, Nat.Div0.mod_same. rewrite Nat.add_0_r, Nat.mod_small; lia.
  - rewrite (Nat.mod_small (pg_tail p + 1)) by lia. replace (pg_size p + (pg_tail p + 1) - 1)%nat with (pg_tail p + 1 * pg_size p)%nat by lia.
    rewrite Nat.Div0.mod_add. apply Nat.mod_small. lia.
Qed.

Lemma insert_not_nil {A} i (x : A) l : l ≠ [] → <[i:=x]> l ≠ [].
Proof. intros Hl E. apply Hl, nil_length_inv. by rewrite <-(length_insert l i x), E. Qed.

Lemma set_value_ok cur v t p : progress_ok cur p → 0 <= v <= u64_max →
  ∃ p', set_current_value v t p = Ok p' ∧ progress_ok (match pg_window p with [] => v | _ => Z.max v cur end) p' ∧ pg_window p' ≠ [].
Proof.
  intros (Hs & Hg & Hc & Ht & Hw & Hl) Hv. unfold set_current_value. destruct (pg_window p) as [|u0 w0] eqn:Ew.
  { eexists. split; [done|]. split; [|done]. unfold progress_ok. cbn. split_and!; try done; try lia.
    - intros [|i] u; [|done]. intros [= <-]. cbn. lia.
    - intros _. exists t. unfold last_index. cbn. replace (pg_size p + 1 - 1)%nat with (pg_size p) by lia. by rewrite Nat.Div0.mod_same. }
  rewrite <-Ew in *. assert (Hne : pg_window p ≠ []) by (by rewrite Ew). destruct (Hl Hne) as [tl Htl]. unfold pg_last. rewrite Ew, <-Ew, Htl.
  cbn -[Nat.ltb Nat.modulo]. destruct ((1 <? length (pg_window p))%nat && (t <=? tl + pg_granularity p))%bool eqn:Eb; (eexists; split; [done|]).
  - split; [|by apply insert_not_nil]. unfold progress_ok, last_index. cbn. rewrite length_insert. split_and!; try done; try lia.
    + intros i u Hu. apply list_lookup_insert_Some in Hu as [(_ & <- & _)|(_ & Hu)]; [cbn; lia|]. specialize (Hw i u Hu). lia.
    + intros _. exists tl. apply list_lookup_insert_eq. by apply lookup_lt_Some in Htl.
  - assert (Hlt : (pg_tail p < pg_size p)%nat) by lia. split; [|cbn -[Nat.ltb Nat.modulo]; case_if; [by apply insert_not_nil|by destruct (pg_window p)]].
    unfold progress_ok. rewrite next_last_index by done. cbn -[Nat.ltb Nat.modulo]. destruct (Nat.ltb_spec (pg_tail p) (length (pg_window p))) as [Hin|Hout].
    + rewrite length_insert. split_and!; try done; try lia.
      * right. split; [lia|]. apply Nat.mod_upper_bound. lia.
      * intros i u Hu. apply list_lookup_insert_Some in Hu as [(_ & <- & _)|(_ & Hu)]; [cbn; lia|]. specialize (Hw i u Hu). lia.
      * intros _. exists t. by apply list_lookup_insert_eq.
    + assert (Et : pg_tail p = length (pg_window p)) by lia. rewrite length_app. cbn. split_and!; try done; try lia.
      * destruct (decide (pg_tail p + 1 = pg_size p)%nat) as [E|E]; [right; split; [lia|]; apply Nat.mod_upper_bound; lia|].
        left. rewrite Nat.mod_small by lia. lia.
      * intros i u Hu. apply lookup_app_Some in Hu as [Hu|[_ Hu]]; [specialize (Hw i u Hu); lia|].
        apply list_lookup_singleton_Some in Hu as [_ <-]. cbn. lia.
      * intros _. exists t. rewrite Et. apply list_lookup_middle. done.
Qed.

Fixpoint set_values (us : list (Z * Z)) (p : Progress) : res Progress :=
  match us with [] => Ok p | (v, t) :: us => p ← set_current_value v t p; set_values us p end.

(** The progress window is sound.  After any values set at any times, none of the accesses
    to the ring is out of range, the current value is the largest one set, and the speed is
    computed from an increment that cannot underflow, at most the current value. *)
Theorem progress_window_sound n g us : (1 <= n)%nat → 0 < g → us ≠ [] → Forall (λ u, 0 <= u.1 <= u64_max) us →
  ∃ p0 p t, progress_new n g = Ok p0 ∧ set_values us p0 = Ok p ∧ pg_last p = Ok (foldr Z.max 0 us.*1, t) ∧
    ∃ p' o, speed p = Ok (p', o) ∧ ∀ inc d, o = Some (inc, d) → 0 <= inc <= foldr Z.max 0 us.*1 ∧ 0 <= d.
Proof.
  intros Hn Hg Hne Hus. unfold progress_new. rewrite (proj2 (Z.eqb_neq g 0)) by lia. eexists _. 
  assert (Hrun : ∀ us cur p, progress_ok cur p → (pg_window p = [] → cur = 0) → Forall (λ u, 0 <= u.1 <= u64_max) us →
    ∃ p', set_values us p = Ok p' ∧ progress_ok (Z.max cur (foldr Z.max 0 us.*1)) p' ∧ (us ≠ [] ∨ pg_window p ≠ [] → pg_window p' ≠ [])).
  { clear. induction us as [|[v t] us IH]; intros cur p Hp Hc Hus; cbn.
    - exists p. split; [done|]. destruct Hp as (? & ? & ? & ?). rewrite Z.max_l by lia. split; [done|]. by intros [|].
    - apply Forall_cons in Hus as [Hv Hus]. cbn in Hv. destruct (set_value_ok cur v t p Hp Hv) as (p1 & -> & Hp1 & Hw1). cbn.
      destruct (IH _ p1 Hp1) as (p' & E & Hp' & Hw'); [by intros|done|]. exists p'. split; [done|]. split; [|intros _; apply Hw'; by right].
      destruct (pg_window p) eqn:Ew; [|by rewrite Z.max_assoc, (Z.max_comm cur v)]. rewrite Hc by done.
      assert (0 <= foldr Z.max 0 us.*1) by (clear; induction us; cbn; lia). rewrite Z.max_r; [done|lia]. }
  destruct (Hrun us 0 (mkProgress [] 0 (n + 1) g false)) as (p & E & Hp & Hw); [|done..|].
  { unfold progress_ok. cbn. split_and!; try done; try lia. }
  assert (0 <= foldr Z.max 0 us.*1) by (clear; induction us; cbn; lia). rewrite Z.max_r in Hp by done.
  specialize (Hw (or_introl Hne)). destruct Hp as (Hs & _ & Hc & Ht & Hall & Hl). destruct (Hl Hw) as [t Hlast].
  assert (El : pg_last p = Ok (foldr Z.max 0 us.*1, t)) by (unfold pg_last; rewrite Hlast; by destruct (pg_window p)).
  exists p, t. split_and!; [done..|]. unfold speed. destruct (Nat.ltb_spec (length (pg_window p)) 2); [by eexists _, _|].
  set (i := if _ : bool then _ else _). assert (Hi : (i < length (pg_window p))%nat).
  { subst i. destruct (Nat.ltb_spec (length (pg_window p)) (pg_size p)); lia. }
  apply lookup_lt_is_Some in Hi as [u Hu]. rewrite Hu. cbn. rewrite El. cbn. eexists _, _. split; [done|].
  intros inc d [= <- <-]. specialize (Hall i u Hu). rewrite u64_sub_small by lia. lia.
Qed.

(** ** Examples *)

Module ArchiveExamples.
Import IngestExamples.

(** A file system as the list of its files. *)
Definition mem : Type := list (list string).
Definition mem_ls (dir : list string) (f : mem) : list string :=
  remove_dups (omap (λ p, if decide (take (length dir) p = dir) then p !! length dir else None) f).
#[export] Instance mem_fs : Fs mem := {|
  fs_ls dir f := Ok (mem_ls dir f);
  fs_move_local p f := (p :: f, Ok tt);
  fs_delete p f := (filter (λ q, take (length p) q ≠ p) f, Ok tt)
|}.
Definition mem_has (f : mem) (q : list string) : Prop := q ≠ [] ∧ ∃ p, p ∈ f ∧ q `prefix_of` p.

Lemma prefix_iff_take {A} (p q : list A) : p `prefix_of` q ↔ take (length p) q = p.
Proof. split; [intros [k ->]; by rewrite take_app_length|]. intros <-. apply prefix_take. Qed.

Lemma mem_ls_has dir (f : mem) n : n ∈ mem_ls dir f ↔ mem_has f (dir ++ [n]).
Proof.
  unfold mem_ls, mem_has. rewrite elem_of_remove_dups, list_elem_of_omap. split.
  - intros (p & Hp & E). case_decide as Ed; [|done]. split; [by destruct dir|]. exists p. split; [done|].
    rewrite <-Ed at 1. rewrite <-(take_S_r p (length dir) n E). apply prefix_take.
  - intros (_ & p & Hp & [k ->]). eexists. split; [done|]. rewrite <-app_assoc, take_app_length, decide_True by done. cbn [app].
    rewrite list_lookup_middle; done.
Qed.

#[export] Program Instance mem_laws : FsLaws mem := {| fs_has := mem_has |}.
Next Obligation. intros f dir. exists (mem_ls dir f). split_and!; [done|apply NoDup_remove_dups|]. intros n. apply mem_ls_has. Qed.
Next Obligation.
  intros f p f' [= <-] q. unfold mem_has. split.
  - intros (Hq & r & [->|Hr]%elem_of_cons & Hp); [by right|]. left. eauto.
  - intros [(Hq & r & Hr & Hp)|[Hq Hp]]; (split; [done|]); eexists; (split; [|done]); lmem.
Qed.
Next Obligation.
  intros f p f' r [= <- _] q. unfold mem_has. split.
  - intros (Hq & x & Hx & Hp). split; [done|]. exists x. split; [lmem|done].
  - intros (Hq & x & [->|Hx]%elem_of_cons & Hp); [by right|]. left. eauto.
Qed.
Next Obligation.
  intros f p f' [= <-] q (Hq & r & [Hne Hr]%list_elem_of_filter & Hp). split; [by split; [|exists r]|].
  intros Hpq. apply Hne, prefix_iff_take. by etrans.
Qed.
Next Obligation.
  intros f p f' [= <-] q (Hq & r & Hr & Hp) H1 H2. split; [done|]. exists r. split; [|done]. apply list_elem_of_filter. split; [|done].
  intros Hpr%prefix_iff_take. destruct (prefix_weak_total p q r Hpr Hp); done.
Qed.
Next Obligation. intros f p q Hp (_ & r & Hr & Hpre). split; [done|]. exists r. split; [done|]. by apply prefix_app_l in Hpre. Qed.

(** Two directories; the last chunk has no block file yet. *)
Definition c0 : DataChunk := mkDataChunk 0 9 "aa" 0.
Definition c1 : DataChunk := mkDataChunk 10 19 "bb" 0.
Definition c2 : DataChunk := mkDataChunk 20 29 "cc" 20.
Definition adirs : list dir := [(0, [c0; c1]); (20, [c2])].
Definition afs : mem :=
  [chunk_path c2 ++ ["logs.parquet"]; ["README"]; chunk_path c1 ++ ["blocks.parquet"]; chunk_path c0 ++ ["blocks.parquet"];
   chunk_path c0 ++ ["logs.parquet"]].

Ltac each H := repeat (apply elem_of_cons in H as [->|H]); try (by apply elem_of_nil in H).

Lemma adirs_ok : layout_ok adirs.
Proof.
  apply layout_cons. split_and!; [|apply layout_cons; split_and!; [|by split; constructor|constructor]|].
  - split_and!; [cbn; unfold u64_ok, u64_max; lia|repeat constructor; unfold before; cbn; lia|].
    intros c Hc. each Hc; unfold dc_ok, u64_ok, u64_max; cbn; split_and!; try lia; reflexivity.
  - split_and!; [cbn; unfold u64_ok, u64_max; lia|repeat constructor|].
    intros c Hc. each Hc; unfold dc_ok, u64_ok, u64_max; cbn; split_and!; try lia; reflexivity.
  - apply Forall_singleton. split; [cbn; lia|]. intros c Hc. each Hc; cbn; lia.
Qed.

Lemma afs_archived : archived afs adirs.
Proof.
  split_and!; [exact adirs_ok| |].
  - split.
    + intros d Hd. each Hd; apply (mem_ls_has [] afs); vm_compute; set_solver.
    + intros n Hn. apply (mem_ls_has [] afs) in Hn. vm_compute in Hn. each Hn; [|by left|].
      * right. exists (20, [c2]). split; [set_solver|reflexivity].
      * right. exists (0, [c0; c1]). split; [set_solver|reflexivity].
  - apply Forall_cons. split; [|apply Forall_singleton]; split.
    + intros c Hc. each Hc; apply (mem_ls_has [format_block_number 0] afs); vm_compute; set_solver.
    + intros n Hn. apply (mem_ls_has [format_block_number 0] afs) in Hn. vm_compute in Hn.
      each Hn; right; [exists c1|exists c0]; (split; [set_solver|reflexivity]).
    + intros c Hc. each Hc; apply (mem_ls_has [format_block_number 20] afs); vm_compute; set_solver.
    + intros n Hn. apply (mem_ls_has [format_block_number 20] afs) in Hn. vm_compute in Hn.
      each Hn; right; exists c2; (split; [set_solver|reflexivity]).
Qed.

Lemma archive_streams_exact_witness :
  collect_chunks 5 (forward_from 5 12 afs) (get_chunks 5 (Some 12) afs) = Ok [c0; c1] ∧
  collect_chunks 5 (backward_from 5 12 afs) (get_chunks_in_reversed_order 5 (Some 12) afs) = Ok [c1; c0].
Proof. apply (archive_streams_exact afs adirs 5 (Some 12) afs_archived); [vm_compute; discriminate|vm_compute; lia]. Defined.

(** The incomplete chunk is deleted and the tracker stands after block 19. *)
Lemma archive_restart_witness :
  (∃ f' t, create_chunk_tracker chunk_check 2 0 None afs = (f', Ok t) ∧ next_block t = 20 ∧ prev_chunk_hash t = Some "bb") ∧
  ∃ f' t dirs', create_chunk_tracker chunk_check 2 0 None afs = (f', Ok t) ∧ archived f' dirs' ∧ resumes 0 t (chunks_in dirs').
Proof.
  split; [eexists _, _; split_and!; reflexivity|].
  destruct (archive_restart 0 None 2 afs adirs afs_archived) as (f' & t & dirs' & E & Ha & Hr & _); [|done|by exists f', t, dirs'].
  split_and!; [vm_compute; discriminate| |].
  - intros c Hc. cbn in Hc. each Hc; unfold u64_max; cbn; lia.
  - by intros c [= <-].
Defined.

(** Two chunks are to be written and the writer is stopped before its fourth move: the first
    chunk is complete, the second lacks its block file. *)
Definition wfiles : list string := ["blocks.parquet"; "logs.parquet"].
Definition witems : list (DataChunk * res (list string)) := [(c0, Ok wfiles); (c1, Ok wfiles)].
Lemma writer_crash_safe_witness : ∃ f', writer_run witems (mkStopping 3 ([] : mem)) = (f', Err (EMsg "interrupted")) ∧
  (∀ file, file ∈ wfiles → fs_has f' (chunk_path c0 ++ [file])) ∧ ¬ fs_has f' (chunk_path c1 ++ ["blocks.parquet"]).
Proof.
  eexists. split; [reflexivity|]. split.
  - apply (writer_crash_safe [] c0 wfiles [(c1, Ok wfiles)] (mkStopping 3 ([] : mem)) _ (Err (EMsg "interrupted")));
      [| |reflexivity|right].
    + split; [apply (bool_decide_unpack _); reflexivity|].
      intros d files Hd. assert (files = wfiles) as ->.
      { cbn in Hd. by apply elem_of_cons in Hd as [[= _ ->]|[[= _ ->]|?%elem_of_nil]%elem_of_cons]. }
      split; [apply (bool_decide_unpack _); reflexivity|]. unfold wfiles. lmem.
    + by intros q (_ & p & ?%elem_of_nil & _).
    + cbn. apply (mem_ls_has (chunk_path c0)). vm_compute. set_solver.
  - intros Hc. cbn in Hc. apply (mem_ls_has (chunk_path c1)) in Hc. vm_compute in Hc. set_solver.
Defined.

(** A name with a number that does not fit. *)
Lemma oversized_name_panics :
  parse_range "99999999999999999999-0000000001-aa" = Panic "called Result::unwrap() on an Err value" ∧
  parse_range "a-b" = Ok None ∧ parse_range (dc_name c1) = Ok (Some (10, 19, "bb")).
Proof. split_and!; reflexivity. Qed.

(** Blocks 5 to 7 with the list builder of the ingest examples, whose blocks have 90000 rows. *)
Definition atracker : ChunkTracker := mkTracker 1 (Some "d") 100 5 [].
Definition ablocks : list blk := [mkBlk 5 "e" "d" 0; mkBlk 6 "f" "e" 0; mkBlk 7 "g" "f" 0; mkBlk 9 "i" "g" 0].
Definition asize (cp : list blk) : Z := 0.
Definition open_writer (l : list (WriterItem (PT:=list Z))) : bool := true.
Definition astart : Proc (CB:=list blk) (CP:=list blk) (PT:=list Z) :=
  mkProc (mkChunkWriter [] [] (40 * 1024 * 1024)) atracker [] 4096 200000 true 0 0 5 0 "".
Lemma list_rows : rows_of_blocks (B:=blk) (CB:=list blk) (CP:=list blk) (PT:=list Z).
Proof. intros cb Hcb. cbn in *. destruct cb; [done|]. cbn. lia. Qed.

Lemma archive_run_exact_witness : ∃ s', proc_run asize open_writer true (Ok <$> ablocks) (set_limits 4096 200000 true astart) = (s', Ok tt) ∧
  wi_chunk <$> pr_sent s' = [mkDataChunk 5 7 "g" 5; mkDataChunk 8 9 "i" 8] ∧
  ∃ batches, concat batches = ablocks ∧ Forall2 item_of batches (pr_sent s') ∧ tile_from 5 5 (wi_chunk <$> pr_sent s').
Proof.
  eexists. split; [vm_compute; reflexivity|]. split; [vm_compute; reflexivity|].
  eapply (archive_run_exact asize open_writer list_rows [] atracker astart 4096 200000 true ablocks); vm_compute; reflexivity.
Defined.

Lemma archive_run_total_witness :
  continuous true (Some "d") ablocks = true ∧
  match proc_run asize open_writer true (Ok <$> ablocks) (set_limits 4096 200000 true astart) with
  | (_, Ok _) => continuous true (Some "d") ablocks = true
  | (_, Err _) => continuous true (Some "d") ablocks = false
  | (_, Panic _) => False
  end.
Proof.
  split; [reflexivity|]. apply (archive_run_total asize open_writer) with (cb := []) (t := atracker).
  - repeat split; intros; cbn; eauto.
  - reflexivity.
  - cbn. lia.
  - cbn. unfold u64_max. lia.
Defined.

(** The first response breaks off after block 6, the second finishes. *)
Definition fetch1 (n : Z) : list (res blk) :=
  if n =? 5 then [Ok (mkBlk 5 "e" "d" 0); Ok (mkBlk 6 "f" "e" 0); Err (EMsg "broken")] else [].
Definition fetch2 (n : Z) : list (res blk) := if n =? 7 then [Ok (mkBlk 7 "g" "f" 0); Ok (mkBlk 9 "i" "g" 0)] else [].
Lemma service_stream_in_order_witness :
  service_run [fetch1; fetch2] 5 5 (Some 8) = ([5; 7], ablocks, ServiceDone) ∧
  numbers_ok 5 (u64_max - 1) ablocks ∧ ∃ l, Some 8 = Some l ∧ l < position_after 5 ablocks.
Proof.
  split; [reflexivity|]. refine (service_stream_in_order [fetch1; fetch2] 5 (Some 8) _ ltac:(lia)).
  apply Forall_cons. split; [|apply Forall_singleton]; intros n; unfold fetch1, fetch2; case_if; cbn; unfold u64_max; zbool; lia.
Defined.

Lemma progress_window_sound_witness :
  ∃ p0 p t, progress_new 2 10 = Ok p0 ∧ set_values [(5, 0); (7, 20); (6, 25); (9, 60)] p0 = Ok p ∧ pg_last p = Ok (9, t) ∧
    ∃ p' o, speed p = Ok (p', o) ∧ ∀ inc d, o = Some (inc, d) → 0 <= inc <= 9 ∧ 0 <= d.
Proof.
  apply (progress_window_sound 2 10 [(5, 0); (7, 20); (6, 25); (9, 60)]); [lia|lia|done|].
  repeat constructor; cbn; unfold u64_max; lia.
Defined.
End ArchiveExamples.
