(* ===== verification/Bits.v ===== *)
(** * Bits: bit masks in byte buffers

    Models crates/array/src/builder/bitmask.rs, crates/array/src/builder/nullmask.rs,
    the bit tools of crates/array/src/util.rs, and the methods of the [BitmaskWriter]
    trait of crates/array/src/writer/mod.rs, given as data ([bit_op]).

    The primitives on bits of [arrow_buffer] are the class [ArrowBits] with their documented
    behaviour as [ArrowBitsLaws]: bit [i] of a buffer is bit [i mod 8], counted from the least
    significant one, of byte [i / 8].  [PlainBits] is a concrete instance.

    A builder [b] holds the list of bits [l] when [bitmask_repr b l]: the buffer consists of
    [l] and of zero bits up to the next byte boundary. *)
From Stdlib Require Import ZifyNat.
From S2P Require Import Prelude Bytes.

Definition byte_bits (b : Z) : list bool := Z.testbit b <$> [0; 1; 2; 3; 4; 5; 6; 7].
Fixpoint bits (data : bytes) : list bool :=
  match data with [] => [] | b :: data => byte_bits b ++ bits data end.

(** [bit_util::ceil(n, 8)] *)
Definition ceil8 (n : nat) : nat := ((n + 7) / 8)%nat.

(** A [Range<usize>] and its length. *)
Abbreviation nrange := (nat * nat)%type.
Definition rlen (r : nrange) : nat := (r.2 - r.1)%nat.

(** ** The primitives of [arrow_buffer] *)

Class ArrowBits : Type := {
  (* bit_util::get_bit *)
  get_bit : bytes → nat → res bool;
  (* bit_util::set_bit_raw *)
  set_bit_raw : bytes → nat → bytes;
  (* bit_mask::set_bits(write_data, data, offset_write, offset_read, len) *)
  set_bits : bytes → bytes → nat → nat → nat → res bytes;
  (* UnalignedBitChunk::new(data, offset, len).count_ones() *)
  count_ones : bytes → nat → nat → res nat;
  (* BooleanBufferBuilder::append_packed_range(range, data) on the bits appended so far *)
  append_packed_range : list bool → nrange → bytes → res (list bool)
}.

(** The part of a list an operation reads: [len] items from [offset]. *)
Definition part {A} (offset len : nat) (l : list A) : list A := take len (drop offset l).

Class ArrowBitsLaws `{ArrowBits} : Type := {
  get_bit_spec data i b : bits data !! i = Some b → get_bit data i = Ok b;
  get_bit_out data i : bits data !! i = None → ∃ m, get_bit data i = Panic m;
  set_bit_raw_spec data i : (i < length (bits data))%nat → bits (set_bit_raw data i) = <[i:=true]> (bits data);
  set_bits_spec w d ow or len : (ow + len <= length (bits w))%nat → (or + len <= length (bits d))%nat →
    ∃ w', set_bits w d ow or len = Ok w' ∧
          bits w' = take ow (bits w) ++ part or len (bits d) ++ drop (ow + len) (bits w);
  count_ones_spec data offset len : (offset + len <= length (bits data))%nat →
    count_ones data offset len = Ok (length (filter (λ b, b = true) (part offset len (bits data))));
  append_packed_range_spec l r data : (r.1 <= r.2)%nat → (r.2 <= length (bits data))%nat →
    append_packed_range l r data = Ok (l ++ part r.1 (rlen r) (bits data))
}.

(** ** bit_tools of util.rs *)

Section tools.
Context `{ArrowBits}.

Definition all_valid (data : bytes) (offset len : nat) : res bool :=
  n ← count_ones data offset len; Ok (n =? len)%nat.

Fixpoint all_indexes_valid (data : bytes) (indexes : list nat) (len : nat) : res (option nat) :=
  match indexes with
  | [] => Ok (Some len)
  | i :: indexes =>
      b ← get_bit data i;
      if negb b then Ok None else all_indexes_valid data indexes (len + 1)
  end.

Fixpoint all_ranges_valid (data : bytes) (ranges : list nrange) (len : nat) : res (option nat) :=
  match ranges with
  | [] => Ok (Some len)
  | r :: ranges =>
      valid ← all_valid data r.1 (rlen r);
      if negb valid then Ok None else all_ranges_valid data ranges (len + rlen r)
  end.
End tools.

(** [RangeList::span] *)
Definition span (ranges : list nrange) : nat := sum_list (rlen <$> ranges).

(** ** The methods of the [BitmaskWriter] trait

    An iterator of indexes comes with the lower bound of its size hint. *)
Inductive bit_op : Type :=
| BitSlice (data : bytes) (offset len : nat)
| BitIndexes (data : bytes) (size_hint : nat) (indexes : list nat)
| BitRanges (data : bytes) (ranges : list nrange)
| BitMany (val : bool) (count : nat).

Class BitmaskWriter (W : Type) : Type := bitmask_write : bit_op → W → res W.

(** ** BitmaskBuilder *)

Record BitmaskBuilder : Type := mkBitmask { bm_buffer : bytes; bm_len : nat }.

Section bitmask.
Context `{ArrowBits}.

Definition bitmask_new : BitmaskBuilder := mkBitmask [] 0.
Definition bytes_size (b : BitmaskBuilder) : nat := ceil8 (bm_len b).
Definition bitmask_clear (b : BitmaskBuilder) : BitmaskBuilder := mkBitmask [] 0.

(** [MutableBuffer::resize] *)
Definition bm_resize (additional : nat) (b : BitmaskBuilder) : BitmaskBuilder :=
  mkBitmask (resize (ceil8 (bm_len b + additional)) 0 (bm_buffer b)) (bm_len b).

Definition append_slice (data : bytes) (offset len : nat) (b : BitmaskBuilder) : res BitmaskBuilder :=
  let b := bm_resize len b in
  buffer ← set_bits (bm_buffer b) data (bm_len b) offset len;
  Ok (mkBitmask buffer (bm_len b + len)).

(** [self.append(val)] *)
Definition bm_append (val : bool) (b : BitmaskBuilder) : BitmaskBuilder :=
  let b := bm_resize 1 b in
  mkBitmask (if val then set_bit_raw (bm_buffer b) (bm_len b) else bm_buffer b) (bm_len b + 1).

(** The loop that fills the reserved bits, and the loop over the indexes that are left. *)
Fixpoint fill_indexes (data : bytes) (indexes : list nat) (b : BitmaskBuilder)
    : res (BitmaskBuilder * list nat) :=
  if (bm_len b <? length (bm_buffer b) * 8)%nat then
    match indexes with
    | [] => Ok (b, [])
    | i :: indexes =>
        bit ← get_bit data i;
        let buffer := if (bit : bool) then set_bit_raw (bm_buffer b) (bm_len b) else bm_buffer b in
        fill_indexes data indexes (mkBitmask buffer (bm_len b + 1))
    end
  else Ok (b, indexes).
Fixpoint append_indexes (data : bytes) (indexes : list nat) (b : BitmaskBuilder) : res BitmaskBuilder :=
  match indexes with
  | [] => Ok b
  | i :: indexes => bit ← get_bit data i; append_indexes data indexes (bm_append bit b)
  end.
Definition append_slice_indexes (data : bytes) (size_hint : nat) (indexes : list nat) (b : BitmaskBuilder)
    : res BitmaskBuilder :=
  '(b, rest) ← fill_indexes data indexes (bm_resize size_hint b);
  append_indexes data rest b.

Definition append_range (data : bytes) (b : BitmaskBuilder) (r : nrange) : res BitmaskBuilder :=
  buffer ← set_bits (bm_buffer b) data (bm_len b) r.1 (rlen r);
  Ok (mkBitmask buffer (bm_len b + rlen r)).
Definition append_slice_ranges (data : bytes) (ranges : list nrange) (b : BitmaskBuilder)
    : res BitmaskBuilder :=
  fold_res (append_range data) ranges (bm_resize (span ranges) b).

(** [*last_mut().unwrap() = f(..)] *)
Definition map_last (f : Z → Z) (l : bytes) : res bytes :=
  match last l with
  | Some x => Ok (take (length l - 1) l ++ [f x])
  | None => Panic "called `Option::unwrap()` on a `None` value"
  end.

Definition append_many (val : bool) (count : nat) (b : BitmaskBuilder) : res BitmaskBuilder :=
  let new_len := (bm_len b + count)%nat in
  let new_len_bytes := ceil8 new_len in
  if val then
    let cur_remainder := (bm_len b mod 8)%nat in
    let new_remainder := (new_len mod 8)%nat in
    buffer ← (if (cur_remainder =? 0)%nat then Ok (bm_buffer b)
              else map_last (λ x, Z.lor x (255 - (2 ^ Z.of_nat cur_remainder - 1))) (bm_buffer b));
    let buffer := take (ceil8 (bm_len b)) buffer in
    let buffer := resize new_len_bytes 255 buffer in
    buffer ← (if (new_remainder =? 0)%nat then Ok buffer
              else map_last (λ x, Z.land x (2 ^ Z.of_nat new_remainder - 1)) buffer);
    Ok (mkBitmask buffer new_len)
  else if (length (bm_buffer b) <? new_len_bytes)%nat then
    Ok (mkBitmask (resize new_len_bytes 0 (bm_buffer b)) new_len)
  else Ok (mkBitmask (bm_buffer b) new_len).

Definition bm_shift (len : nat) (b : BitmaskBuilder) : res BitmaskBuilder :=
  if (len =? 0)%nat then Ok b
  else if negb (len <=? bm_len b)%nat then Panic "assertion failed: len <= self.len"
  else if negb (len mod 8 =? 0)%nat then Panic "only byte aligned shifts are allowed"
  else Ok (mkBitmask (drop (len / 8) (bm_buffer b)) (bm_len b - len)).

#[export] Instance bitmask_builder_writer : BitmaskWriter BitmaskBuilder := λ op,
  match op with
  | BitSlice data offset len => append_slice data offset len
  | BitIndexes data size_hint indexes => append_slice_indexes data size_hint indexes
  | BitRanges data ranges => append_slice_ranges data ranges
  | BitMany val count => append_many val count
  end.
End bitmask.

(** ** NullmaskBuilder *)

Record NullmaskBuilder : Type := mkNullmask { nm_nulls : BitmaskBuilder; nm_has_nulls : bool; nm_len : nat }.

Section nullmask.
Context `{ArrowBits}.

Definition nullmask_new : NullmaskBuilder := mkNullmask bitmask_new false 0.
Definition nullmask_len (b : NullmaskBuilder) : nat := if nm_has_nulls b then bm_len (nm_nulls b) else nm_len b.
Definition nullmask_clear (b : NullmaskBuilder) : NullmaskBuilder :=
  mkNullmask (bitmask_clear (nm_nulls b)) false 0.

Definition init_nulls (b : NullmaskBuilder) : res NullmaskBuilder :=
  nulls ← append_many true (nm_len b) (nm_nulls b);
  Ok (mkNullmask nulls true (nm_len b)).

Definition with_nulls (f : BitmaskBuilder → res BitmaskBuilder) (b : NullmaskBuilder) : res NullmaskBuilder :=
  nulls ← f (nm_nulls b);
  Ok (mkNullmask nulls (nm_has_nulls b) (nm_len b)).
Definition add_len (n : nat) (b : NullmaskBuilder) : NullmaskBuilder :=
  mkNullmask (nm_nulls b) (nm_has_nulls b) (nm_len b + n).

Definition nm_append_slice (data : bytes) (offset len : nat) (b : NullmaskBuilder) : res NullmaskBuilder :=
  if nm_has_nulls b then with_nulls (append_slice data offset len) b
  else
    valid ← all_valid data offset len;
    if (valid : bool) then Ok (add_len len b)
    else b ← init_nulls b; with_nulls (append_slice data offset len) b.

Definition nm_append_slice_indexes (data : bytes) (size_hint : nat) (indexes : list nat) (b : NullmaskBuilder)
    : res NullmaskBuilder :=
  if nm_has_nulls b then with_nulls (append_slice_indexes data size_hint indexes) b
  else
    valid ← all_indexes_valid data indexes 0;
    match valid with
    | Some len => Ok (add_len len b)
    | None => b ← init_nulls b; with_nulls (append_slice_indexes data size_hint indexes) b
    end.

Definition nm_append_slice_ranges (data : bytes) (ranges : list nrange) (b : NullmaskBuilder)
    : res NullmaskBuilder :=
  if nm_has_nulls b then with_nulls (append_slice_ranges data ranges) b
  else
    valid ← all_ranges_valid data ranges 0;
    match valid with
    | Some len => Ok (add_len len b)
    | None => b ← init_nulls b; with_nulls (append_slice_ranges data ranges) b
    end.

Definition nm_append_many (val : bool) (count : nat) (b : NullmaskBuilder) : res NullmaskBuilder :=
  if (count =? 0)%nat then Ok b
  else match nm_has_nulls b, val with
  | true, _ => with_nulls (append_many val count) b
  | false, true => Ok (add_len count b)
  | false, false => b ← init_nulls b; with_nulls (append_many false count) b
  end.

Definition nm_append (val : bool) (b : NullmaskBuilder) : res NullmaskBuilder :=
  match nm_has_nulls b, val with
  | true, _ => Ok (mkNullmask (bm_append val (nm_nulls b)) true (nm_len b))
  | false, true => Ok (add_len 1 b)
  | false, false => b ← init_nulls b; Ok (mkNullmask (bm_append false (nm_nulls b)) true (nm_len b))
  end.

#[export] Instance nullmask_builder_writer : BitmaskWriter NullmaskBuilder := λ op,
  match op with
  | BitSlice data offset len => nm_append_slice data offset len
  | BitIndexes data size_hint indexes => nm_append_slice_indexes data size_hint indexes
  | BitRanges data ranges => nm_append_slice_ranges data ranges
  | BitMany val count => nm_append_many val count
  end.
End nullmask.

(** ** What the bit mask writers append

    The meaning of a method of the [BitmaskWriter] trait is the list of bits it appends
    ([op_bits]).  [BitmaskWriterLaws] states that a writer implements it; both in-memory
    builders are instances, the null mask builder keeping a mask only when a null was
    written. *)

Definition op_bits (op : bit_op) : list bool :=
  match op with
  | BitSlice data offset len => part offset len (bits data)
  | BitIndexes data _ indexes => omap (bits data !!.) indexes
  | BitRanges data ranges => mjoin ((λ r, part r.1 (rlen r) (bits data)) <$> ranges)
  | BitMany val count => replicate count val
  end.

Definition op_ok (op : bit_op) : Prop :=
  match op with
  | BitSlice data offset len => (offset + len <= length (bits data))%nat
  | BitIndexes data size_hint indexes =>
      (size_hint <= length indexes)%nat ∧ Forall (λ i, (i < length (bits data))%nat) indexes
  | BitRanges data ranges => Forall (λ r, (r.1 + rlen r <= length (bits data))%nat) ranges
  | BitMany _ _ => True
  end.

Class BitmaskWriterLaws (W : Type) `{BitmaskWriter W} (repr : W → list bool → Prop) : Prop :=
  bitmask_write_spec w l op : repr w l → op_ok op →
    ∃ w', bitmask_write op w = Ok w' ∧ repr w' (l ++ op_bits op).

(** ** Bits of buffers *)

Definition pad (n : nat) : nat := (8 * ceil8 n - n)%nat.

Lemma ceil8_bounds n : (n <= 8 * ceil8 n < n + 8)%nat.
Proof. unfold ceil8. pose proof (Nat.div_mod_eq (n + 7) 8). pose proof (Nat.mod_upper_bound (n + 7) 8). lia. Qed.
Lemma ceil8_unique n m : (n <= 8 * m < n + 8)%nat → ceil8 n = m.
Proof. intros. pose proof (ceil8_bounds n). lia. Qed.
Lemma ceil8_mono n m : (n <= m)%nat → (ceil8 n <= ceil8 m)%nat.
Proof. intros. apply Nat.Div0.div_le_mono. lia. Qed.
Lemma ceil8_pad n : (8 * ceil8 n = n + pad n)%nat.
Proof. unfold pad. pose proof (ceil8_bounds n). lia. Qed.
Lemma pad_lt n : (pad n < 8)%nat.
Proof. unfold pad. pose proof (ceil8_bounds n). lia. Qed.
Lemma pad_mod n : (pad n = if n mod 8 =? 0 then 0 else 8 - n mod 8)%nat.
Proof.
  pose proof (Nat.div_mod_eq n 8) as E. pose proof (Nat.mod_upper_bound n 8). unfold pad.
  destruct (n mod 8 =? 0)%nat eqn:Em; [apply Nat.eqb_eq in Em|apply Nat.eqb_neq in Em].
  - rewrite (ceil8_unique n (n / 8)); lia.
  - rewrite (ceil8_unique n (S (n / 8))); lia.
Qed.

Lemma byte_bits_length b : length (byte_bits b) = 8%nat.
Proof. done. Qed.
Lemma bits_length data : length (bits data) = (8 * length data)%nat.
Proof. induction data as [|b data IH]; [done|]. cbn [bits]. rewrite length_app, byte_bits_length, IH. simpl. lia. Qed.
Lemma bits_app a b : bits (a ++ b) = bits a ++ bits b.
Proof. induction a as [|x a IH]; [done|]. cbn [bits app]. by rewrite IH, app_assoc. Qed.
Lemma bits_take n data : bits (take n data) = take (8 * n) (bits data).
Proof.
  revert n; induction data as [|x data IH]; intros [|n]; [by rewrite !take_nil..|done|].
  cbn [bits take]. replace (8 * S n)%nat with (length (byte_bits x) + 8 * n)%nat
    by (rewrite byte_bits_length; lia).
  by rewrite take_app_add, IH.
Qed.
Lemma bits_drop n data : bits (drop n data) = drop (8 * n) (bits data).
Proof.
  revert n; induction data as [|x data IH]; intros [|n]; [by rewrite !drop_nil..|done|].
  cbn [bits drop]. replace (8 * S n)%nat with (length (byte_bits x) + 8 * n)%nat
    by (rewrite byte_bits_length; lia).
  by rewrite drop_app_add, IH.
Qed.
Lemma bits_replicate n b v : byte_bits b = replicate 8 v → bits (replicate n b) = replicate (8 * n) v.
Proof.
  intros Hb. induction n as [|n IH]; [done|]. cbn [replicate bits].
  rewrite Hb, IH, <-replicate_add. f_equal. lia.
Qed.
Lemma bits_resize n b v data : byte_bits b = replicate 8 v → (length data <= n)%nat →
  bits (resize n b data) = bits data ++ replicate (8 * (n - length data)) v.
Proof. intros Hb ?. rewrite resize_ge by done. by rewrite bits_app, (bits_replicate _ _ v). Qed.

Lemma part_length {A} offset len (l : list A) : (offset + len <= length l)%nat → length (part offset len l) = len.
Proof. intros. unfold part. rewrite length_take, length_drop. lia. Qed.
Lemma part_lookup {A} offset len (l : list A) i : (i < len)%nat → part offset len l !! i = l !! (offset + i)%nat.
Proof. intros. unfold part. by rewrite lookup_take_lt, lookup_drop. Qed.

Lemma Forall_eq_replicate' {A} (l : list A) x : Forall (eq x) l → l = replicate (length l) x.
Proof. induction 1 as [|? ? <- _ IH]; [done|]. simpl. by f_equal. Qed.

Lemma filter_true_all (l : list bool) : length (filter (λ b, b = true) l) = length l ↔ l = replicate (length l) true.
Proof.
  induction l as [|[] l IH]; [done| |].
  - rewrite filter_cons_True by done. cbn [length replicate].
    split; [intros Hl; f_equal; apply IH; lia|injection 1 as Hl; rewrite (proj2 IH Hl); done].
  - rewrite filter_cons_False by done. split; [|done].
    intros Hl. pose proof (length_filter (λ b, b = true) l). simpl in Hl. lia.
Qed.

(** ** Bit mask builders *)

(** The builder holds [l], followed by [k] zero bits. *)
Definition zero_tail (b : BitmaskBuilder) (l : list bool) (k : nat) : Prop :=
  bm_len b = length l ∧ bits (bm_buffer b) = l ++ replicate k false.
Definition bitmask_repr (b : BitmaskBuilder) (l : list bool) : Prop := zero_tail b l (pad (length l)).

Lemma zero_tail_length b l k : zero_tail b l k → (8 * length (bm_buffer b) = length l + k)%nat.
Proof. intros [_ Hb]. rewrite <-bits_length, Hb, length_app, length_replicate. lia. Qed.
Lemma bitmask_repr_length b l : bitmask_repr b l → length (bm_buffer b) = ceil8 (length l).
Proof. intros Hb%zero_tail_length. pose proof (ceil8_pad (length l)). lia. Qed.

Lemma bm_resize_tail n b l : bitmask_repr b l →
  zero_tail (bm_resize n b) l (8 * ceil8 (length l + n) - length l).
Proof.
  intros Hr. pose proof (bitmask_repr_length b l Hr) as Hlen. destruct Hr as [Hl Hb].
  split; [done|]. cbn [bm_resize bm_buffer]. rewrite Hl.
  pose proof (ceil8_mono (length l) (length l + n) ltac:(lia)).
  rewrite (bits_resize _ _ false), Hb, Hlen, <-app_assoc, <-replicate_add by (done || lia).
  do 2 f_equal. pose proof (ceil8_pad (length l)). lia.
Qed.

Lemma zero_tail_done b l k : zero_tail b l k → (k < 8)%nat → bitmask_repr b l.
Proof.
  intros Ht ?. pose proof (zero_tail_length _ _ _ Ht) as E. unfold bitmask_repr.
  replace (pad (length l)) with k; [done|]. unfold pad.
  rewrite (ceil8_unique (length l) (length (bm_buffer b))); lia.
Qed.

Section specs.
Context `{ArrowBitsLaws}.

Lemma set_bits_tail buffer data n l k offset len : n = length l → bits buffer = l ++ replicate k false →
  (len <= k)%nat → (offset + len <= length (bits data))%nat →
  ∃ buffer', set_bits buffer data n offset len = Ok buffer' ∧
    zero_tail (mkBitmask buffer' (n + len)) (l ++ part offset len (bits data)) (k - len).
Proof.
  intros -> Hb Hk Hd.
  destruct (set_bits_spec buffer data (length l) offset len) as (w' & Hw & Hbits); [|done|].
  { rewrite Hb, length_app, length_replicate. lia. }
  exists w'. split; [done|]. split; cbn [bm_len bm_buffer].
  - rewrite length_app, part_length; done.
  - rewrite Hbits, Hb, take_app_length, drop_app_add, drop_replicate, app_assoc. done.
Qed.

Lemma append_slice_spec b l data offset len : bitmask_repr b l → (offset + len <= length (bits data))%nat →
  ∃ b', append_slice data offset len b = Ok b' ∧ bitmask_repr b' (l ++ part offset len (bits data)).
Proof.
  intros Hr Hd. destruct (bm_resize_tail len b l Hr) as [Hl Hb]. unfold append_slice.
  pose proof (ceil8_bounds (length l + len)).
  edestruct set_bits_tail as (w & Hw & Ht); [exact Hl|exact Hb| |exact Hd|]; [lia|].
  rewrite Hw. cbn. eexists. split; [done|]. eapply zero_tail_done; [exact Ht|lia].
Qed.

Lemma insert_tail (l : list bool) k : (0 < k)%nat →
  <[length l:=true]> (l ++ replicate k false) = (l ++ [true]) ++ replicate (k - 1) false.
Proof.
  intros. rewrite insert_app_r_alt by lia. rewrite Nat.sub_diag. destruct k as [|k]; [lia|].
  simpl. rewrite Nat.sub_0_r, <-app_assoc. done.
Qed.

(** Writing one bit into a tail of zeros. *)
Lemma put_bit_tail buffer n l k (v : bool) : n = length l → bits buffer = l ++ replicate k false → (0 < k)%nat →
  zero_tail (mkBitmask (if v then set_bit_raw buffer n else buffer) (n + 1)) (l ++ [v]) (k - 1).
Proof.
  intros -> Hb Hk. split; cbn [bm_len bm_buffer]; [rewrite length_app; simpl; lia|]. destruct v.
  - rewrite set_bit_raw_spec, Hb; [by apply insert_tail|]. rewrite Hb, length_app, length_replicate. lia.
  - rewrite Hb. destruct k as [|k]; [lia|]. simpl. by rewrite Nat.sub_0_r, <-app_assoc.
Qed.

Lemma bm_append_spec b l v : bitmask_repr b l → bitmask_repr (bm_append v b) (l ++ [v]).
Proof.
  intros Hr. destruct (bm_resize_tail 1 b l Hr) as [Hl Hb]. pose proof (ceil8_bounds (length l + 1)).
  eapply zero_tail_done; [apply (put_bit_tail _ _ _ _ v Hl Hb)|]; lia.
Qed.

Definition picks (data : bytes) (indexes : list nat) : list bool := omap (bits data !!.) indexes.

Lemma get_bit_ok data i : (i < length (bits data))%nat → ∃ v, get_bit data i = Ok v ∧ bits data !! i = Some v.
Proof. intros [v Hv]%lookup_lt_is_Some_2. exists v. split; [by apply get_bit_spec|done]. Qed.

Lemma fill_indexes_spec data indexes : ∀ b l k, zero_tail b l k → Forall (λ i, (i < length (bits data))%nat) indexes →
  (k < length indexes + 8)%nat →
  ∃ b' rest front, fill_indexes data indexes b = Ok (b', rest) ∧ indexes = front ++ rest ∧
    bitmask_repr b' (l ++ picks data front).
Proof.
  induction indexes as [|i indexes IH]; intros b l k Ht Hf Hk; cbn [fill_indexes].
  - exists b, [], []. split; [by case_if|]. split; [done|].
    rewrite app_nil_r. eapply zero_tail_done; [done|simpl in Hk; lia].
  - pose proof (zero_tail_length _ _ _ Ht) as E. destruct Ht as [Hl Hb].
    apply Forall_cons in Hf as [Hi Hf]. case_if.
    + apply Nat.ltb_lt in Heqb0. destruct (get_bit_ok data i Hi) as (v & Hv & Hv'). rewrite Hv. cbn.
      edestruct (IH _ _ _ (put_bit_tail _ _ _ _ v Hl Hb ltac:(lia)) Hf) as (b' & rest & front & E1 & E2 & E3).
      { simpl in Hk. lia. }
      exists b', rest, (i :: front). split; [exact E1|]. split; [by rewrite E2|].
      unfold picks in *. cbn [omap list_omap]. rewrite Hv'. by rewrite <-app_assoc in E3.
    + apply Nat.ltb_ge in Heqb0. exists b, (i :: indexes), []. split; [done|]. split; [done|].
      rewrite app_nil_r. apply (zero_tail_done b l 0); [split; [done|]|lia].
      replace k with 0%nat in Hb by lia. done.
Qed.

Lemma append_indexes_spec data indexes : ∀ b l, bitmask_repr b l →
  Forall (λ i, (i < length (bits data))%nat) indexes →
  ∃ b', append_indexes data indexes b = Ok b' ∧ bitmask_repr b' (l ++ picks data indexes).
Proof.
  induction indexes as [|i indexes IH]; intros b l Hr Hf; cbn [append_indexes].
  - exists b. by rewrite app_nil_r.
  - apply Forall_cons in Hf as [Hi Hf]. destruct (get_bit_ok data i Hi) as (v & Hv & Hv'). rewrite Hv. cbn.
    destruct (IH _ _ (bm_append_spec b l v Hr) Hf) as (b' & E1 & E2). exists b'. split; [done|].
    unfold picks in *. cbn [omap list_omap]. rewrite Hv'. by rewrite <-app_assoc in E2.
Qed.

Lemma append_slice_indexes_spec b l data hint indexes : bitmask_repr b l → (hint <= length indexes)%nat →
  Forall (λ i, (i < length (bits data))%nat) indexes →
  ∃ b', append_slice_indexes data hint indexes b = Ok b' ∧ bitmask_repr b' (l ++ picks data indexes).
Proof.
  intros Hr Hh Hf. pose proof (bm_resize_tail hint b l Hr) as Ht. pose proof (ceil8_bounds (length l + hint)).
  destruct (fill_indexes_spec data indexes _ _ _ Ht Hf) as (b1 & rest & front & E1 & -> & E3); [lia|].
  apply Forall_app in Hf as [_ Hf]. unfold append_slice_indexes. rewrite E1. cbn.
  destruct (append_indexes_spec data rest _ _ E3 Hf) as (b' & -> & E4). exists b'. split; [done|].
  unfold picks in *. by rewrite omap_app, app_assoc.
Qed.

Definition ranges_bits (data : bytes) (ranges : list nrange) : list bool :=
  mjoin ((λ r, part r.1 (rlen r) (bits data)) <$> ranges).

Lemma append_ranges_spec data ranges : ∀ b l k, zero_tail b l k → (span ranges <= k < span ranges + 8)%nat →
  Forall (λ r, (r.1 + rlen r <= length (bits data))%nat) ranges →
  ∃ b', fold_res (append_range data) ranges b = Ok b' ∧ bitmask_repr b' (l ++ ranges_bits data ranges).
Proof.
  induction ranges as [|r ranges IH]; intros b l k Ht Hk Hf.
  - exists b. split; [done|]. cbn. rewrite app_nil_r. eapply zero_tail_done; [done|cbn in Hk; lia].
  - apply Forall_cons in Hf as [Hr Hf]. destruct Ht as [Hl Hb].
    assert (span (r :: ranges) = rlen r + span ranges)%nat as Hs by done.
    destruct (set_bits_tail _ data _ _ _ r.1 (rlen r) Hl Hb) as (w & Hw & Ht'); [lia|done|].
    assert (append_range data b r = Ok (mkBitmask w (bm_len b + rlen r))) as E by (unfold append_range; by rewrite Hw).
    cbn [fold_res]. rewrite E. cbn [mbind res_bind].
    destruct (IH _ _ _ Ht') as (b' & E1 & E2); [lia|done|]. exists b'. split; [exact E1|].
    unfold ranges_bits in *. cbn. by rewrite <-app_assoc in E2.
Qed.

Lemma append_slice_ranges_spec b l data ranges : bitmask_repr b l →
  Forall (λ r, (r.1 + rlen r <= length (bits data))%nat) ranges →
  ∃ b', append_slice_ranges data ranges b = Ok b' ∧ bitmask_repr b' (l ++ ranges_bits data ranges).
Proof.
  intros Hr Hf. pose proof (ceil8_bounds (length l + span ranges)).
  eapply append_ranges_spec; [by apply bm_resize_tail|lia|done].
Qed.
End specs.

(** ** append_many *)

Lemma byte_or_tail x r : (0 < r < 8)%nat →
  byte_bits (Z.lor x (255 - (2 ^ Z.of_nat r - 1))) = take r (byte_bits x) ++ replicate (8 - r) true.
Proof.
  intros Hr. unfold byte_bits. cbn [fmap list_fmap]. rewrite !Z.lor_spec.
  do 8 (destruct r as [|r]; [first [lia|cbn; rewrite ?orb_false_r, ?orb_true_r; done]|]). lia.
Qed.
Lemma byte_and_tail x r : (0 < r < 8)%nat →
  byte_bits (Z.land x (2 ^ Z.of_nat r - 1)) = take r (byte_bits x) ++ replicate (8 - r) false.
Proof.
  intros Hr. unfold byte_bits. cbn [fmap list_fmap]. rewrite !Z.land_spec.
  do 8 (destruct r as [|r]; [first [lia|cbn; rewrite ?andb_false_r, ?andb_true_r; done]|]). lia.
Qed.

(** Changing the last byte behind its first [r] bits. *)
Lemma map_last_bits f buf r v : buf ≠ [] → (∀ x, byte_bits (f x) = take r (byte_bits x) ++ replicate (8 - r) v) →
  (r <= 8)%nat → ∃ buf', map_last f buf = Ok buf' ∧
    bits buf' = take (8 * (length buf - 1) + r) (bits buf) ++ replicate (8 - r) v.
Proof.
  intros Hne Hf Hr. destruct (exists_last Hne) as (init & x & ->).
  unfold map_last. rewrite last_snoc, length_app. cbn [length]. rewrite Nat.add_sub, take_app_length.
  eexists. split; [done|]. rewrite !bits_app. cbn [bits]. rewrite !app_nil_r, Hf.
  rewrite take_app_ge by (rewrite bits_length; lia). rewrite bits_length, <-app_assoc.
  do 3 f_equal. lia.
Qed.

Lemma bits_nil_iff buf : buf = [] ↔ bits buf = [].
Proof. destruct buf; done. Qed.

Lemma append_many_true b l count : bitmask_repr b l →
  ∃ b', append_many true count b = Ok b' ∧ bitmask_repr b' (l ++ replicate count true).
Proof.
  intros Hr. pose proof (bitmask_repr_length b l Hr) as Hlen. destruct Hr as [Hl Hb].
  unfold append_many. rewrite Hl.
  pose proof (ceil8_bounds (length l)). pose proof (pad_mod (length l)) as Hpad.
  pose proof (Nat.div_mod_eq (length l) 8). pose proof (Nat.mod_upper_bound (length l) 8).
  assert (∃ buf, (if (length l mod 8 =? 0)%nat then Ok (bm_buffer b)
    else map_last (λ x, Z.lor x (255 - (2 ^ Z.of_nat (length l mod 8) - 1))) (bm_buffer b)) = Ok buf ∧
    bits buf = l ++ replicate (pad (length l)) true) as (buf & -> & Hbuf).
  { rewrite Hpad in *. destruct (length l mod 8 =? 0)%nat eqn:Em; [by exists (bm_buffer b)|].
    apply Nat.eqb_neq in Em.
    destruct (map_last_bits (λ x, Z.lor x (255 - (2 ^ Z.of_nat (length l mod 8) - 1))) (bm_buffer b)
      (length l mod 8) true) as (buf & -> & Hbuf); [|by intros; apply byte_or_tail; lia|lia|].
    { rewrite bits_nil_iff, Hb. intros [-> _]%app_eq_nil. by destruct Em. }
    exists buf. split; [done|]. rewrite Hbuf, Hb, Hlen. f_equal. apply take_app_length'.
    pose proof (ceil8_pad (length l)). unfold pad in *. lia. }
  cbn [mbind res_bind].
  assert (length buf = ceil8 (length l)) as Hlb.
  { pose proof (bits_length buf) as E. rewrite Hbuf, length_app, length_replicate in E.
    pose proof (ceil8_pad (length l)). lia. }
  rewrite take_ge by lia.
  pose proof (ceil8_mono (length l) (length l + count) ltac:(lia)) as Hmono.
  pose proof (ceil8_bounds (length l + count)). pose proof (ceil8_pad (length l)).
  assert (bits (resize (ceil8 (length l + count)) 255 buf)
    = l ++ replicate (8 * ceil8 (length l + count) - length l) true) as Hres.
  { rewrite (bits_resize _ _ true), Hbuf, <-app_assoc, <-replicate_add by (done || lia).
    do 2 f_equal. lia. }
  pose proof (pad_mod (length l + count)) as Hpad'. pose proof (ceil8_pad (length l + count)).
  destruct ((length l + count) mod 8 =? 0)%nat eqn:Em.
  - cbn [mbind res_bind]. eexists. split; [done|]. split; cbn [bm_len bm_buffer]; rewrite ?Hres, length_app, length_replicate; [done|].
    rewrite Hpad', app_nil_r. do 2 f_equal. lia.
  - apply Nat.eqb_neq in Em. pose proof (Nat.mod_upper_bound (length l + count) 8).
    pose proof (Nat.div_mod_eq (length l + count) 8).
    edestruct (map_last_bits (λ x, Z.land x (2 ^ Z.of_nat ((length l + count) mod 8) - 1))) as (buf' & -> & Hbuf');
      [|by intros; apply byte_and_tail; lia|lia|].
    { rewrite bits_nil_iff, Hres. intros [-> Hn]%app_eq_nil. simpl in *.
      apply (f_equal length) in Hn. rewrite length_replicate in Hn. simpl in Hn. lia. }
    cbn [mbind res_bind]. eexists. split; [done|]. split; cbn [bm_len bm_buffer]; rewrite ?Hbuf', ?Hres, length_app, length_replicate; [done|].
    rewrite length_resize, Hpad'. f_equal.
    replace (8 * (ceil8 (length l + count) - 1) + (length l + count) mod 8)%nat with (length l + count)%nat by lia.
    rewrite take_app_add, take_replicate. do 2 f_equal. lia.
Qed.

Lemma append_many_false b l count : bitmask_repr b l →
  ∃ b', append_many false count b = Ok b' ∧ bitmask_repr b' (l ++ replicate count false).
Proof.
  intros Hr. pose proof (bitmask_repr_length b l Hr) as Hlen. destruct Hr as [Hl Hb].
  unfold append_many. rewrite Hl, Hlen. pose proof (ceil8_mono (length l) (length l + count) ltac:(lia)).
  pose proof (ceil8_pad (length l)). pose proof (ceil8_pad (length l + count)).
  destruct (_ <? _)%nat eqn:E; eexists; (split; [done|]); split; cbn [bm_len bm_buffer];
    rewrite ?length_app, ?length_replicate; try done;
    [rewrite (bits_resize _ _ false) by (done || lia)|apply Nat.ltb_ge in E];
    rewrite Hb, <-!app_assoc, <-!replicate_add; do 2 f_equal; lia.
Qed.

Lemma append_many_spec b l val count : bitmask_repr b l →
  ∃ b', append_many val count b = Ok b' ∧ bitmask_repr b' (l ++ replicate count val).
Proof. destruct val; [apply append_many_true|apply append_many_false]. Qed.

Lemma bitmask_new_repr : bitmask_repr bitmask_new [].
Proof. done. Qed.

Lemma bm_shift_spec b l n : bitmask_repr b l → (n mod 8 = 0)%nat → (n <= length l)%nat →
  ∃ b', bm_shift n b = Ok b' ∧ bitmask_repr b' (drop n l).
Proof.
  intros Hr Hn Hle. unfold bm_shift. destruct (n =? 0)%nat eqn:E.
  { apply Nat.eqb_eq in E as ->. by exists b. }
  pose proof Hr as [Hl Hb]. rewrite Hl, (proj2 (Nat.leb_le _ _) Hle), Hn. cbn [negb Nat.eqb].
  eexists. split; [done|]. pose proof (Nat.div_mod_eq n 8).
  assert (8 * (n / 8) = n)%nat as E8 by lia.
  apply (zero_tail_done _ _ (pad (length l))); [|apply pad_lt].
  split; cbn [bm_len bm_buffer]; [by rewrite length_drop|]. rewrite bits_drop.
  by rewrite E8, Hb, drop_app_le.
Qed.

#[export] Instance bitmask_builder_laws `{ArrowBitsLaws} : BitmaskWriterLaws BitmaskBuilder bitmask_repr.
Proof.
  intros b l [data offset len|data hint indexes|data ranges|val count] Hr Hok; cbn.
  - by apply append_slice_spec.
  - destruct Hok. by apply append_slice_indexes_spec.
  - by apply append_slice_ranges_spec.
  - by apply append_many_spec.
Qed.

(** ** The null mask builder *)

(** The mask exists exactly when the bits contain a null; otherwise only the length is kept. *)
Definition nullmask_repr (b : NullmaskBuilder) (l : list bool) : Prop :=
  if nm_has_nulls b then false ∈ l ∧ bitmask_repr (nm_nulls b) l
  else l = replicate (nm_len b) true ∧ bitmask_repr (nm_nulls b) [].

Lemma not_all_true (l : list bool) : l ≠ replicate (length l) true → false ∈ l.
Proof.
  induction l as [|[] l IH]; intros Hl; [done| |lmem].
  apply list_elem_of_further, IH. intros E. apply Hl. simpl. by f_equal.
Qed.

Section nullmask_specs.
Context `{ArrowBitsLaws}.

Lemma all_valid_spec data offset len : (offset + len <= length (bits data))%nat →
  all_valid data offset len = Ok (bool_decide (part offset len (bits data) = replicate len true)).
Proof.
  intros Hok. unfold all_valid. rewrite count_ones_spec by done. cbn. f_equal.
  pose proof (filter_true_all (part offset len (bits data))) as Hf. rewrite part_length in Hf by done.
  case_bool_decide as Hd; [apply Nat.eqb_eq|apply Nat.eqb_neq]; tauto.
Qed.

Lemma all_indexes_valid_spec data indexes : ∀ n, Forall (λ i, (i < length (bits data))%nat) indexes →
  all_indexes_valid data indexes n =
    Ok (if bool_decide (picks data indexes = replicate (length indexes) true)
        then Some (n + length indexes)%nat else None).
Proof.
  induction indexes as [|i indexes IH]; intros n Hf; cbn [all_indexes_valid].
  - by rewrite Nat.add_0_r.
  - apply Forall_cons in Hf as [Hi Hf]. destruct (get_bit_ok data i Hi) as (v & -> & Hv). cbn [mbind res_bind].
    unfold picks. cbn [omap list_omap length replicate]. rewrite Hv. destruct v; cbn [negb].
    + rewrite IH by done. fold (picks data indexes). f_equal.
      do 2 case_bool_decide; [f_equal; lia|congruence..|done].
    + done.
Qed.

Lemma ranges_bits_length data ranges : Forall (λ r, (r.1 + rlen r <= length (bits data))%nat) ranges →
  length (ranges_bits data ranges) = span ranges.
Proof.
  induction 1 as [|r ranges Hr Hf IH]; [done|].
  assert (ranges_bits data (r :: ranges) = part r.1 (rlen r) (bits data) ++ ranges_bits data ranges) as -> by done.
  rewrite length_app, IH, part_length; done.
Qed.

Lemma all_ranges_valid_spec data ranges : ∀ n, Forall (λ r, (r.1 + rlen r <= length (bits data))%nat) ranges →
  all_ranges_valid data ranges n =
    Ok (if bool_decide (ranges_bits data ranges = replicate (span ranges) true)
        then Some (n + span ranges)%nat else None).
Proof.
  induction ranges as [|r ranges IH]; intros n Hf; cbn [all_ranges_valid].
  - by rewrite Nat.add_0_r.
  - apply Forall_cons in Hf as [Hr Hf]. rewrite all_valid_spec by done. cbn [mbind res_bind].
    assert (span (r :: ranges) = rlen r + span ranges)%nat as -> by done.
    assert (ranges_bits data (r :: ranges) = part r.1 (rlen r) (bits data) ++ ranges_bits data ranges) as -> by done.
    rewrite replicate_add. specialize (IH (n + rlen r)%nat Hf).
    destruct (decide (part r.1 (rlen r) (bits data) = replicate (rlen r) true)) as [Hd|Hd].
    + rewrite (bool_decide_eq_true_2 _ Hd), Hd. cbn [negb]. rewrite IH, <-Nat.add_assoc. do 2 f_equal.
      destruct (decide (ranges_bits data ranges = replicate (span ranges) true)) as [He|He].
      * by rewrite He, !bool_decide_eq_true_2.
      * rewrite !bool_decide_eq_false_2; [done| |done]. by intros ?%app_inv_head.
    + rewrite (bool_decide_eq_false_2 _ Hd). cbn [negb].
      rewrite bool_decide_eq_false_2; [done|]. intros [? _]%app_inj_1; [done|].
      by rewrite part_length, length_replicate.
Qed.

Lemma init_nulls_spec b l op : nullmask_repr b l → nm_has_nulls b = false → op_ok op → false ∈ op_bits op →
  ∃ b', (b ← init_nulls b; with_nulls (bitmask_write op) b) = Ok b' ∧ nullmask_repr b' (l ++ op_bits op).
Proof.
  unfold nullmask_repr. intros Hr Hn Hok Hin. rewrite Hn in Hr. destruct Hr as [-> Hr].
  destruct (append_many_true _ _ (nm_len b) Hr) as (nulls & E & Hnulls).
  destruct (bitmask_write_spec nulls _ op Hnulls Hok) as (nulls' & E' & Hnulls').
  unfold init_nulls. rewrite E. cbn [mbind res_bind]. unfold with_nulls. cbn [nm_nulls].
  rewrite E'. cbn. eexists. split; [done|]. cbn. split; [lmem|done].
Qed.

Lemma with_nulls_spec b l op : nullmask_repr b l → nm_has_nulls b = true → op_ok op →
  ∃ b', with_nulls (bitmask_write op) b = Ok b' ∧ nullmask_repr b' (l ++ op_bits op).
Proof.
  unfold nullmask_repr. intros Hr Hn Hok. rewrite Hn in Hr. destruct Hr as [Hin Hr].
  destruct (bitmask_write_spec _ _ op Hr Hok) as (nulls & E & Hnulls).
  unfold with_nulls. rewrite E. cbn. eexists. split; [done|]. cbn. rewrite Hn. split; [lmem|done].
Qed.

Lemma add_len_spec b l n : nullmask_repr b l → nm_has_nulls b = false →
  nullmask_repr (add_len n b) (l ++ replicate n true).
Proof.
  unfold nullmask_repr. cbn. intros Hr Hn. rewrite Hn in *. destruct Hr as [-> Hr].
  by rewrite <-replicate_add.
Qed.

(** A write into a mask without nulls, decided by a check of the new bits. *)
Lemma nullmask_step b l op n : nullmask_repr b l → nm_has_nulls b = false → op_ok op → length (op_bits op) = n →
  ∃ b', (if bool_decide (op_bits op = replicate n true) then Ok (add_len n b)
         else b ← init_nulls b; with_nulls (bitmask_write op) b) = Ok b' ∧ nullmask_repr b' (l ++ op_bits op).
Proof.
  intros Hr Hn Hok Hlen. case_bool_decide as Hd.
  - eexists. split; [done|]. rewrite Hd. by apply add_len_spec.
  - apply init_nulls_spec; try done. apply not_all_true. by rewrite Hlen.
Qed.

Lemma picks_length data indexes : Forall (λ i, (i < length (bits data))%nat) indexes →
  length (picks data indexes) = length indexes.
Proof.
  unfold picks. induction 1 as [|i indexes [v Hv]%lookup_lt_is_Some_2 Hf IH]; [done|].
  cbn [omap list_omap]. rewrite Hv. simpl. by f_equal.
Qed.

#[export] Instance nullmask_builder_laws : BitmaskWriterLaws NullmaskBuilder nullmask_repr.
Proof.
  intros b l op Hr Hok. cbv beta delta [bitmask_write nullmask_builder_writer].
  destruct op as [data offset len|data hint indexes|data ranges|val count].
  - unfold nm_append_slice. destruct (nm_has_nulls b) eqn:Hn; [by apply (with_nulls_spec b l (BitSlice _ _ _))|].
    rewrite all_valid_spec by done. cbn [mbind res_bind].
    apply (nullmask_step b l (BitSlice _ _ _)); try done. by apply part_length.
  - unfold nm_append_slice_indexes. destruct (nm_has_nulls b) eqn:Hn; [by apply (with_nulls_spec b l (BitIndexes _ _ _))|].
    destruct Hok as [Hh Hf]. rewrite all_indexes_valid_spec by done. cbn [mbind res_bind].
    destruct (nullmask_step b l (BitIndexes data hint indexes) (length indexes)) as (b' & E & Hr'); try done.
    { by apply picks_length. }
    exists b'. split; [|done]. cbn [op_bits] in E. fold (picks data indexes) in E. by destruct (bool_decide _).
  - unfold nm_append_slice_ranges. destruct (nm_has_nulls b) eqn:Hn; [by apply (with_nulls_spec b l (BitRanges _ _))|].
    rewrite all_ranges_valid_spec by done. cbn [mbind res_bind].
    destruct (nullmask_step b l (BitRanges data ranges) (span ranges)) as (b' & E & Hr'); try done.
    { by apply ranges_bits_length. }
    exists b'. split; [|done]. cbn [op_bits] in E. fold (ranges_bits data ranges) in E. by destruct (bool_decide _).
  - unfold nm_append_many. destruct (count =? 0)%nat eqn:Ec.
    { apply Nat.eqb_eq in Ec as ->. exists b. split; [done|]. cbn. by rewrite app_nil_r. }
    destruct (nm_has_nulls b) eqn:Hn; [by apply (with_nulls_spec b l (BitMany _ _))|]. destruct val.
    + eexists. split; [done|]. by apply add_len_spec.
    + apply (init_nulls_spec b l (BitMany false count)); try done. apply Nat.eqb_neq in Ec.
      destruct count; [done|]. simpl. lmem.
Qed.
End nullmask_specs.
