(* ===== verification/Offsets.v ===== *)
(** * Offsets: offset buffers and buffers of fixed-size values

    Models crates/array/src/offsets.rs, crates/array/src/builder/offsets.rs,
    crates/array/src/builder/native.rs, the searches over offsets of crates/array/src/util.rs,
    and the methods of the traits [OffsetsWriter] and [NativeWriter] of
    crates/array/src/writer/mod.rs, given as data.

    An offset buffer of [n + 1] entries describes [n] consecutive parts of a values buffer;
    its meaning is the list of their lengths ([cumul], [lens_of]).  Arithmetic on [i32] wraps
    around.  A buffer of values is a list of items, each the bytes of one value. *)

From S2P Require Import Prelude Bytes Bits.

(** ** Machine arithmetic on [i32] *)

Definition i32_wrap (x : Z) : Z := (x + 2 ^ 31) mod 2 ^ 32 - 2 ^ 31.
Definition i32_add (x y : Z) : Z := i32_wrap (x + y).
Definition i32_sub (x y : Z) : Z := i32_wrap (x - y).
(** [o as usize] for an offset that was validated to be non-negative. *)
Definition as_usize (x : Z) : nat := Z.to_nat (x mod 2 ^ 64).

Definition index_panic {A} : res A := Panic "index out of bounds".
Definition at_ {A} (l : list A) (i : nat) : res A :=
  match l !! i with Some x => Ok x | None => index_panic end.
(** [&l[start..end]] *)
Definition subslice {A} (l : list A) (start end_ : nat) : res (list A) :=
  if ((start <=? end_) && (end_ <=? length l))%nat%bool then Ok (part start (end_ - start) l)
  else Panic "range end index out of range".

(** ** util.rs *)

Fixpoint validate_monotone (prev : Z) (offsets : list Z) : res unit :=
  match offsets with
  | [] => Ok tt
  | val :: offsets =>
      if val <? prev then Err (EMsg "offset values are not monotonically increasing")
      else validate_monotone val offsets
  end.
Definition validate_offsets (offsets : list Z) (prev : Z) : res unit :=
  match offsets with
  | [] => Err (EMsg "offsets slice can't be empty")
  | first :: _ =>
      if first <? 0 then Err (EMsg "found negative offset value") else validate_monotone prev offsets
  end.

(** The loop of [bisect_offsets], which halves [end - beg]. *)
Fixpoint bisect_offsets_loop (fuel : nat) (offsets : list Z) (idx : Z) (beg end_ : nat)
    : res (option nat) :=
  match fuel with
  | O => Panic "out of fuel"
  | S fuel =>
      if (1 <? end_ - beg)%nat then
        let mid := (beg + (end_ - beg) / 2)%nat in
        o ← at_ offsets mid;
        match o ?= idx with
        | Eq => Ok (Some mid)
        | Lt => bisect_offsets_loop fuel offsets idx mid end_
        | Gt => bisect_offsets_loop fuel offsets idx beg mid
        end
      else
        b ← at_ offsets beg;
        if b <=? idx then
          e ← at_ offsets end_;
          Ok (if idx <? e then Some beg else None)
        else Ok None
  end.
(** [offsets.len() - 1] wraps for an empty slice, and the first access panics. *)
Definition bisect_offsets (offsets : list Z) (idx : Z) : res (option nat) :=
  match offsets with
  | [] => index_panic
  | _ => bisect_offsets_loop (length offsets) offsets idx 0 (length offsets - 1)
  end.

Fixpoint build_offsets (first : nat) (lengths : list nat) : list nat :=
  first :: match lengths with [] => [] | len :: lengths => build_offsets (first + len) lengths end.

(** ** Offsets *)

Definition offsets_len (offsets : list Z) : nat := (length offsets - 1)%nat.
Definition first_offset (offsets : list Z) : res Z := at_ offsets 0.
Definition last_offset_of (offsets : list Z) : res Z := at_ offsets (offsets_len offsets).
Definition offset_index (offsets : list Z) (i : nat) : res nat := o ← at_ offsets i; Ok (as_usize o).
Definition offsets_range (offsets : list Z) : res nrange :=
  a ← first_offset offsets; b ← last_offset_of offsets; Ok (as_usize a, as_usize b).
Definition offsets_slice (offset len : nat) (offsets : list Z) : res (list Z) :=
  subslice offsets offset (offset + len + 1).
Definition slice_by_range (r : nrange) (offsets : list Z) : res (list Z) :=
  subslice offsets r.1 (r.2 + 1).

(** ** The methods of [OffsetsWriter] *)

Inductive offset_op : Type :=
| OffSlice (offsets : list Z)
| OffIndexes (offsets : list Z) (indexes : list nat)
| OffRanges (offsets : list Z) (ranges : list nrange)
| OffLen (len : nat).

Class OffsetsWriter (W : Type) : Type := offsets_write : offset_op → W → res W.

(** ** OffsetsBuilder *)

Record OffsetsBuilder : Type := mkOffsets { ob_buffer : list Z; ob_last_offset : Z }.

Definition offsets_new : OffsetsBuilder := mkOffsets [0] 0.
Definition ob_len (b : OffsetsBuilder) : nat := (length (ob_buffer b) - 1)%nat.
Definition ob_clear (b : OffsetsBuilder) : OffsetsBuilder := mkOffsets [0] 0.

Definition ob_shift (len : nat) (b : OffsetsBuilder) : res OffsetsBuilder :=
  if (len =? 0)%nat then Ok b
  else if negb (len <=? ob_len b)%nat then Panic "assertion failed: len <= self.len()"
  else Ok (mkOffsets (drop len (ob_buffer b)) (ob_last_offset b)).

Definition ob_append_slice (offsets : list Z) (b : OffsetsBuilder) : res OffsetsBuilder :=
  beg ← first_offset offsets;
  let new := (λ o, i32_add (i32_sub o beg) (ob_last_offset b)) <$> drop 1 offsets in
  last ← last_offset_of offsets;
  Ok (mkOffsets (ob_buffer b ++ new) (i32_add (ob_last_offset b) (i32_sub last beg))).

Definition ob_append_index (offsets : list Z) (b : OffsetsBuilder) (i : nat) : res OffsetsBuilder :=
  next ← at_ offsets (i + 1);
  this ← at_ offsets i;
  let last := i32_add (ob_last_offset b) (i32_sub next this) in
  Ok (mkOffsets (ob_buffer b ++ [last]) last).
Definition ob_append_slice_indexes (offsets : list Z) (indexes : list nat) (b : OffsetsBuilder)
    : res OffsetsBuilder := fold_res (ob_append_index offsets) indexes b.

Definition ob_append_slice_ranges (offsets : list Z) (ranges : list nrange) (b : OffsetsBuilder)
    : res OffsetsBuilder :=
  fold_res (λ b r, s ← offsets_slice r.1 (rlen r) offsets; ob_append_slice s b) ranges b.

Definition ob_append_len (len : nat) (b : OffsetsBuilder) : OffsetsBuilder :=
  let last := i32_add (ob_last_offset b) (i32_wrap (Z.of_nat len)) in
  mkOffsets (ob_buffer b ++ [last]) last.

Definition ob_append (offset : Z) (b : OffsetsBuilder) : res OffsetsBuilder :=
  if ob_last_offset b <=? offset then Ok (mkOffsets (ob_buffer b ++ [offset]) offset)
  else Panic "assertion failed: self.last_offset <= offset".

#[export] Instance offsets_builder_writer : OffsetsWriter OffsetsBuilder := λ op,
  match op with
  | OffSlice offsets => ob_append_slice offsets
  | OffIndexes offsets indexes => ob_append_slice_indexes offsets indexes
  | OffRanges offsets ranges => ob_append_slice_ranges offsets ranges
  | OffLen len => λ b, Ok (ob_append_len len b)
  end.

(** ** The methods of [NativeWriter], and the builder that is a byte buffer *)

Inductive native_op : Type :=
| NatWrite (value : bytes)
| NatIter (values : list bytes)
| NatSlice (values : list bytes)
| NatIndexes (value_size size_hint : nat) (values : list bytes) (indexes : list nat)
| NatRanges (values : list bytes) (ranges : list nrange).

Class NativeWriter (W : Type) : Type := native_write : native_op → W → res W.

(** The loop that fills the reserved part, then the loop over the rest. *)
Fixpoint push_indexes (values : list bytes) (indexes : list nat) (buffer : bytes) : res bytes :=
  match indexes with
  | [] => Ok buffer
  | i :: indexes => v ← at_ values i; push_indexes values indexes (buffer ++ v)
  end.
Fixpoint write_slice_indexes (min_byte_len : nat) (values : list bytes) (indexes : list nat) (buffer : bytes)
    : res bytes :=
  if (length buffer <? min_byte_len)%nat then
    match indexes with
    | [] => Ok buffer
    | i :: indexes => v ← at_ values i; write_slice_indexes min_byte_len values indexes (buffer ++ v)
    end
  else push_indexes values indexes buffer.

#[export] Instance mutable_buffer_writer : NativeWriter bytes := λ op buffer,
  match op with
  | NatWrite value => Ok (buffer ++ value)
  | NatIter values => Ok (buffer ++ mjoin values)
  | NatSlice values => Ok (buffer ++ mjoin values)
  | NatIndexes value_size size_hint values indexes =>
      write_slice_indexes (size_hint * value_size) values indexes buffer
  | NatRanges values ranges =>
      fold_res (λ buffer r, s ← subslice values r.1 r.2; Ok (buffer ++ mjoin s)) ranges buffer
  end.

(** ** Meaning *)

(** The offsets of parts of the given lengths, from [base]. *)
Fixpoint cumul (base : Z) (lens : list nat) : list Z :=
  base :: match lens with [] => [] | n :: lens => cumul (base + Z.of_nat n) lens end.
Fixpoint lens_of (offsets : list Z) : list nat :=
  match offsets with
  | a :: ((b :: _) as rest) => Z.to_nat (b - a) :: lens_of rest
  | _ => []
  end.

Definition i32_max : Z := 2 ^ 31 - 1.
Definition total (lens : list nat) : Z := Z.of_nat (sum_list lens).

(** Offsets as [validate_offsets] accepts them. *)
Definition offsets_ok (offsets : list Z) : Prop :=
  ∃ base lens, offsets = cumul base lens ∧ 0 <= base ∧ base + total lens <= i32_max.

Definition op_lens (op : offset_op) : list nat :=
  match op with
  | OffSlice offsets => lens_of offsets
  | OffIndexes offsets indexes => omap (lens_of offsets !!.) indexes
  | OffRanges offsets ranges => mjoin ((λ r, part r.1 (rlen r) (lens_of offsets)) <$> ranges)
  | OffLen len => [len]
  end.
Definition offset_op_ok (op : offset_op) : Prop :=
  match op with
  | OffSlice offsets => offsets_ok offsets
  | OffIndexes offsets indexes => offsets_ok offsets ∧ Forall (λ i, (i < length (lens_of offsets))%nat) indexes
  | OffRanges offsets ranges =>
      offsets_ok offsets ∧ Forall (λ r, (r.1 + rlen r <= length (lens_of offsets))%nat) ranges
  | OffLen len => Z.of_nat len <= i32_max
  end.

Class OffsetsWriterLaws (W : Type) `{OffsetsWriter W} (repr : W → list nat → Prop) : Prop :=
  offsets_write_spec w lens op : repr w lens → offset_op_ok op → total (lens ++ op_lens op) <= i32_max →
    ∃ w', offsets_write op w = Ok w' ∧ repr w' (lens ++ op_lens op).

Definition op_items (op : native_op) : list bytes :=
  match op with
  | NatWrite value => [value]
  | NatIter values | NatSlice values => values
  | NatIndexes _ _ values indexes => omap (values !!.) indexes
  | NatRanges values ranges => mjoin ((λ r, part r.1 (rlen r) values) <$> ranges)
  end.
Definition native_op_ok (item_size : nat) (op : native_op) : Prop :=
  match op with
  | NatWrite value => length value = item_size
  | NatIter values | NatSlice values => Forall (λ v, length v = item_size) values
  | NatIndexes value_size _ values indexes =>
      Forall (λ v, length v = item_size) values ∧ Forall (λ i, (i < length values)%nat) indexes
  | NatRanges values ranges =>
      Forall (λ v, length v = item_size) values ∧ Forall (λ r, (r.1 <= r.2 <= length values)%nat) ranges
  end.

Class NativeWriterLaws (W : Type) `{NativeWriter W} (item_size : nat) (repr : W → list bytes → Prop) : Prop :=
  native_write_spec w items op : repr w items → native_op_ok item_size op →
    ∃ w', native_write op w = Ok w' ∧ repr w' (items ++ op_items op).

(** ** Lemmas on offsets *)

Lemma build_offsets_lookup lens : ∀ first j, (j <= length lens)%nat → build_offsets first lens !! j = Some (first + sum_list (take j lens))%nat.
Proof.
  induction lens as [|n lens IH]; intros first [|j] Hj; cbn in *; try lia; try (f_equal; lia). rewrite IH by lia. f_equal. lia.
Qed.
Lemma build_offsets_length lens : ∀ first, length (build_offsets first lens) = S (length lens).
Proof. induction lens as [|n lens IH]; intros first; [done|]. cbn. by rewrite IH. Qed.
Lemma build_offsets_last lens first : last (build_offsets first lens) = Some (first + sum_list lens)%nat.
Proof. rewrite last_lookup, build_offsets_length. cbn [Nat.pred]. rewrite build_offsets_lookup, take_ge by lia. done. Qed.

Lemma cumul_length base lens : length (cumul base lens) = S (length lens).
Proof. revert base; induction lens as [|n lens IH]; intros base; simpl; [done|]. by rewrite IH. Qed.
Lemma cumul_lookup base lens i : (i <= length lens)%nat → cumul base lens !! i = Some (base + total (take i lens)).
Proof.
  revert base i; induction lens as [|n lens IH]; intros base [|i] Hi; simpl in *; try lia; try (f_equal; unfold total; simpl; lia).
  rewrite IH by lia. f_equal. unfold total. simpl. lia.
Qed.
Lemma last_cumul base lens : last (cumul base lens) = Some (base + total lens).
Proof.
  rewrite last_lookup, cumul_length. cbn [Nat.pred]. rewrite cumul_lookup, take_ge by lia. done.
Qed.
Lemma lens_of_cumul base lens : lens_of (cumul base lens) = lens.
Proof.
  revert base; induction lens as [|n lens IH]; intros base; [done|].
  specialize (IH (base + Z.of_nat n)).
  cbn [cumul]. cbn [lens_of]. destruct lens as [|m lens]; cbn [cumul] in *; f_equal; try lia; done.
Qed.
Lemma drop_cumul i base lens : (i <= length lens)%nat →
  drop i (cumul base lens) = cumul (base + total (take i lens)) (drop i lens).
Proof.
  revert base i; induction lens as [|n lens IH]; intros base [|i] Hi; simpl in *; try lia;
    try (unfold total; simpl; by rewrite Z.add_0_r).
  rewrite IH by lia. f_equal. unfold total. simpl. lia.
Qed.
Lemma take_cumul n base lens : take (S n) (cumul base lens) = cumul base (take n lens).
Proof.
  revert base n; induction lens as [|m lens IH]; intros base [|n]; try done.
  cbn [cumul]. cbn [take]. f_equal. by rewrite IH.
Qed.
Lemma part_cumul i n base lens : (i + n <= length lens)%nat →
  part i (n + 1) (cumul base lens) = cumul (base + total (take i lens)) (part i n lens).
Proof. intros. unfold part. rewrite drop_cumul, Nat.add_1_r, take_cumul by lia. done. Qed.
Lemma total_app a b : total (a ++ b) = total a + total b.
Proof. unfold total. rewrite sum_list_with_app. lia. Qed.
Lemma total_take i lens : 0 <= total (take i lens) <= total lens.
Proof. rewrite <-(take_drop i lens) at 3. rewrite total_app. unfold total. lia. Qed.
Lemma total_nonneg lens : 0 <= total lens.
Proof. unfold total. lia. Qed.
Lemma cumul_app base a b : cumul base (a ++ b) = cumul base a ++ drop 1 (cumul (base + total a) b).
Proof.
  revert base; induction a as [|n a IH]; intros base.
  - unfold total; simpl. rewrite Z.add_0_r. destruct b; done.
  - cbn [app cumul]. rewrite IH. simpl. f_equal. do 3 f_equal. unfold total. simpl. lia.
Qed.
Lemma cumul_shift base d lens : (λ o, o - base + d) <$> cumul base lens = cumul d lens.
Proof.
  revert base d; induction lens as [|n lens IH]; intros base d.
  { cbn. f_equal. lia. }
  change (cumul base (n :: lens)) with (base :: cumul (base + Z.of_nat n) lens).
  change (cumul d (n :: lens)) with (d :: cumul (d + Z.of_nat n) lens).
  rewrite fmap_cons, <-(IH (base + Z.of_nat n) (d + Z.of_nat n)). f_equal; [lia|].
  apply list_fmap_ext. intros _ o _. lia.
Qed.

Lemma i32_wrap_small x : 0 <= x <= i32_max → i32_wrap x = x.
Proof. unfold i32_max, i32_wrap. intros. rewrite Z.mod_small; lia. Qed.

(** Removes the wrap-around of additions that stay in range, innermost first. *)
Ltac i32_small :=
  repeat match goal with
  | |- context [i32_wrap ?x] =>
      lazymatch x with
      | context [i32_wrap _] => fail
      | _ => rewrite (i32_wrap_small x) by lia
      end
  end.

Lemma cumul_bounds base lens o : 0 <= base → base + total lens <= i32_max → o ∈ cumul base lens →
  base <= o <= base + total lens.
Proof.
  revert base; induction lens as [|n lens IH]; intros base H1 H2; cbn [cumul]; rewrite elem_of_cons.
  - intros [->|[]%elem_of_nil]. unfold total. simpl. lia.
  - assert (total (n :: lens) = Z.of_nat n + total lens) as E by (unfold total; simpl; lia).
    pose proof (total_nonneg lens). intros [->|Ho]; [lia|].
    apply IH in Ho; lia.
Qed.

Lemma validate_monotone_cumul lens : ∀ base prev, prev <= base →
  validate_monotone prev (cumul base lens) = Ok tt.
Proof.
  induction lens as [|n lens IH]; intros base prev Hp; cbn [cumul validate_monotone];
    (rewrite (proj2 (Z.ltb_ge _ _)) by lia); [done|]. apply IH. lia.
Qed.
Lemma validate_offsets_cumul base lens : 0 <= base → validate_offsets (cumul base lens) 0 = Ok tt.
Proof.
  intros Hb. unfold validate_offsets. destruct lens; cbn [cumul];
    (rewrite (proj2 (Z.ltb_ge base 0)) by done); [by apply (validate_monotone_cumul [])|].
  by apply (validate_monotone_cumul (_ :: _)).
Qed.

(** ** The offsets builder *)

(** The buffer of the builder holds the offsets that follow those of [done]. *)
Definition offsets_repr (done_ : list nat) (b : OffsetsBuilder) (lens : list nat) : Prop :=
  ob_buffer b = cumul (total done_) lens ∧ ob_last_offset b = total (done_ ++ lens).

Lemma at_cumul base lens i : (i <= length lens)%nat → at_ (cumul base lens) i = Ok (base + total (take i lens)).
Proof. intros. unfold at_. by rewrite cumul_lookup. Qed.

Lemma ob_append_slice_spec done_ b lens base new : offsets_repr done_ b lens → 0 <= base →
  base + total new <= i32_max → total (done_ ++ lens ++ new) <= i32_max →
  ∃ b', ob_append_slice (cumul base new) b = Ok b' ∧ offsets_repr done_ b' (lens ++ new).
Proof.
  intros [Hb Hl] H1 H2 H3. unfold ob_append_slice, first_offset, last_offset_of, offsets_len.
  rewrite !total_app in *. pose proof (total_nonneg done_). pose proof (total_nonneg lens).
  pose proof (total_nonneg new).
  rewrite cumul_length, !at_cumul, take_ge by lia. cbn [mbind res_bind].
  assert (total (take 0 new) = 0) as -> by done.
  eexists. split; [done|]. unfold offsets_repr, i32_add, i32_sub.
  rewrite Hb, Hl, !Z.add_0_r, cumul_app, !total_app. cbn [ob_buffer ob_last_offset].
  i32_small. split; [|lia]. f_equal.
  rewrite <-(cumul_shift base (total done_ + total lens) new).
  rewrite <-fmap_drop. apply list_fmap_ext. intros i o Ho.
  assert (base <= o <= base + total new) as Ho'.
  { apply cumul_bounds; [done|done|]. rewrite lookup_drop in Ho. by eapply list_elem_of_lookup_2. }
  i32_small. lia.
Qed.

Lemma ob_append_one done_ b lens n last : offsets_repr done_ b lens → last = total (done_ ++ lens ++ [n]) →
  offsets_repr done_ (mkOffsets (ob_buffer b ++ [last]) last) (lens ++ [n]).
Proof.
  intros [Hb Hl] ->. split; cbn [ob_buffer ob_last_offset]; [|done].
  rewrite Hb, cumul_app. f_equal. cbn [cumul drop skipn]. do 2 f_equal.
  rewrite !total_app. unfold total. simpl. lia.
Qed.

Lemma take_S_lookup {A} (l : list A) i x : l !! i = Some x → take (i + 1) l = take i l ++ [x].
Proof. intros. rewrite Nat.add_1_r. by apply take_S_r. Qed.

Lemma ob_append_index_spec done_ b lens base new i n : offsets_repr done_ b lens → 0 <= base →
  base + total new <= i32_max → new !! i = Some n → total (done_ ++ lens ++ [n]) <= i32_max →
  ∃ b', ob_append_index (cumul base new) b i = Ok b' ∧ offsets_repr done_ b' (lens ++ [n]).
Proof.
  intros Hr H1 H2 Hi H3. pose proof (lookup_lt_Some _ _ _ Hi). unfold ob_append_index.
  rewrite !at_cumul by lia. cbn [mbind res_bind]. eexists. split; [done|].
  apply ob_append_one; [done|]. destruct Hr as [_ ->]. rewrite (take_S_lookup _ _ _ Hi).
  rewrite !total_app in *. pose proof (total_take i new). pose proof (total_nonneg done_). pose proof (total_nonneg lens).
  pose proof (total_nonneg [n]). unfold i32_add, i32_sub.
  i32_small. lia.
Qed.

Lemma total_prefix a b : total a <= total (a ++ b).
Proof. rewrite total_app. pose proof (total_nonneg b). lia. Qed.

Lemma total_part offset len lens : total (part offset len lens) <= total lens.
Proof.
  unfold part. rewrite <-(take_drop offset lens) at 2. rewrite total_app.
  pose proof (total_take len (drop offset lens)). pose proof (total_nonneg (take offset lens)). lia.
Qed.

Lemma subslice_part {A} (l : list A) a b : (a <= b <= length l)%nat → subslice l a b = Ok (part a (b - a) l).
Proof. intros [? ?]. unfold subslice. by rewrite (proj2 (Nat.leb_le _ _)), (proj2 (Nat.leb_le b _)). Qed.

Lemma offsets_slice_cumul base lens i n : (i + n <= length lens)%nat →
  offsets_slice i n (cumul base lens) = Ok (cumul (base + total (take i lens)) (part i n lens)).
Proof.
  intros. unfold offsets_slice. rewrite subslice_part by (rewrite cumul_length; lia).
  replace (i + n + 1 - i)%nat with (n + 1)%nat by lia. by rewrite part_cumul.
Qed.

Lemma total_take_part i n lens : (i + n <= length lens)%nat → total (take i lens) + total (part i n lens) <= total lens.
Proof.
  intros. unfold part. rewrite <-(take_drop i lens) at 3. rewrite total_app.
  pose proof (total_take n (drop i lens)). lia.
Qed.

(** Every method appends the lengths of the parts it names. *)
Lemma offsets_builder_spec done_ b lens op : offsets_repr done_ b lens → offset_op_ok op →
  total (done_ ++ lens ++ op_lens op) <= i32_max →
  ∃ b', offsets_write op b = Ok b' ∧ offsets_repr done_ b' (lens ++ op_lens op).
Proof.
  destruct op as [offsets|offsets indexes|offsets ranges|len]; cbn [offset_op_ok op_lens].
  - intros Hr (base & new & -> & H1 & H2) H3. rewrite lens_of_cumul in *. by apply ob_append_slice_spec.
  - intros Hr [(base & new & -> & H1 & H2) Hf] H3. rewrite lens_of_cumul in *.
    revert b lens Hr H3. induction Hf as [|i indexes [n Hn]%lookup_lt_is_Some_2 Hf IH]; intros b lens Hr H3.
    { exists b. cbn. by rewrite app_nil_r. }
    cbn [omap list_omap] in *. rewrite Hn in *.
    destruct (ob_append_index_spec done_ b lens base new i n Hr) as (b1 & E1 & Hr1); try done.
    { rewrite cons_middle in H3. etrans; [|exact H3]. rewrite !app_assoc. apply total_prefix. }
    cbn [offsets_write offsets_builder_writer ob_append_slice_indexes fold_res] in *.
    unfold offsets_write, offsets_builder_writer, ob_append_slice_indexes in *. cbn [fold_res]. rewrite E1. cbn [mbind res_bind].
    destruct (IH b1 (lens ++ [n]) Hr1) as (b2 & E2 & Hr2); [by rewrite <-app_assoc|].
    exists b2. split; [done|]. by rewrite <-app_assoc in Hr2.
  - intros Hr [(base & new & -> & H1 & H2) Hf] H3. rewrite lens_of_cumul in *.
    revert b lens Hr H3. induction Hf as [|r ranges Hr0 Hf IH]; intros b lens Hr H3.
    { exists b. cbn. by rewrite app_nil_r. }
    cbn [fmap list_fmap mjoin list_join] in H3.
    assert (mjoin ((λ r, part r.1 (rlen r) new) <$> r :: ranges)
      = part r.1 (rlen r) new ++ mjoin ((λ r, part r.1 (rlen r) new) <$> ranges)) as E by done. rewrite E in *.
    pose proof (total_take_part r.1 (rlen r) new Hr0). pose proof (total_take r.1 new).
    destruct (ob_append_slice_spec done_ b lens (base + total (take r.1 new)) (part r.1 (rlen r) new) Hr)
      as (b1 & E1 & Hr1); [lia|lia| |].
    { etrans; [|exact H3]. rewrite !app_assoc. apply total_prefix. }
    unfold offsets_write, offsets_builder_writer, ob_append_slice_ranges in *. cbn [fold_res].
    rewrite offsets_slice_cumul by done. cbn [mbind res_bind]. rewrite E1. cbn [mbind res_bind].
    destruct (IH b1 (lens ++ part r.1 (rlen r) new) Hr1) as (b2 & E2 & Hr2); [by rewrite <-app_assoc|].
    exists b2. split; [done|]. by rewrite <-app_assoc in Hr2.
  - intros Hr Hl H3. eexists. split; [done|]. apply ob_append_one; [done|]. destruct Hr as [_ ->].
    rewrite !total_app in *. unfold i32_add. pose proof (total_nonneg done_). pose proof (total_nonneg lens).
    assert (total [len] = Z.of_nat len) as E by (unfold total; cbn; by rewrite Nat.add_0_r). i32_small. lia.
Qed.

Lemma offsets_new_repr : offsets_repr [] offsets_new [].
Proof. done. Qed.

#[export] Instance offsets_builder_laws : OffsetsWriterLaws OffsetsBuilder (offsets_repr []).
Proof. intros b lens op Hr Hok Ht. by apply offsets_builder_spec. Qed.

Lemma ob_shift_spec done_ b lens n : offsets_repr done_ b lens → (n <= length lens)%nat →
  ∃ b', ob_shift n b = Ok b' ∧ offsets_repr (done_ ++ take n lens) b' (drop n lens).
Proof.
  intros [Hb Hl] Hn. unfold ob_shift, ob_len. destruct (n =? 0)%nat eqn:E.
  { apply Nat.eqb_eq in E as ->. exists b. rewrite take_0, app_nil_r. done. }
  rewrite Hb, cumul_length. rewrite (proj2 (Nat.leb_le _ _)) by lia. cbn [negb].
  eexists. split; [done|]. split; cbn [ob_buffer ob_last_offset].
  - by rewrite drop_cumul, total_app.
  - by rewrite Hl, <-app_assoc, take_drop.
Qed.

(** ** The byte buffer *)

Lemma push_indexes_spec values indexes : ∀ buffer, Forall (λ i, (i < length values)%nat) indexes →
  push_indexes values indexes buffer = Ok (buffer ++ mjoin (omap (values !!.) indexes)).
Proof.
  induction indexes as [|i indexes IH]; intros buffer Hf; cbn [push_indexes].
  - cbn. by rewrite app_nil_r.
  - apply Forall_cons in Hf as [[v Hv]%lookup_lt_is_Some_2 Hf].
    cbn [omap list_omap]. unfold at_. rewrite Hv. cbn [mbind res_bind]. rewrite IH by done.
    cbn. by rewrite <-app_assoc.
Qed.
Lemma write_slice_indexes_spec m values indexes : ∀ buffer, Forall (λ i, (i < length values)%nat) indexes →
  write_slice_indexes m values indexes buffer = Ok (buffer ++ mjoin (omap (values !!.) indexes)).
Proof.
  induction indexes as [|i indexes IH]; intros buffer Hf; cbn [write_slice_indexes].
  - cbn. rewrite app_nil_r. by case_if.
  - case_if; [|by apply push_indexes_spec]. apply Forall_cons in Hf as [[v Hv]%lookup_lt_is_Some_2 Hf].
    cbn [omap list_omap]. unfold at_. rewrite Hv. cbn [mbind res_bind]. rewrite IH by done.
    cbn. by rewrite <-app_assoc.
Qed.

Lemma mutable_buffer_spec item_size op buffer : native_op_ok item_size op →
  native_write op buffer = Ok (buffer ++ mjoin (op_items op)).
Proof.
  unfold native_write, mutable_buffer_writer.
  destruct op as [value|values|values|vs hint values indexes|values ranges]; cbn [native_op_ok op_items]; intros Hok.
  - cbn. by rewrite app_nil_r.
  - done.
  - done.
  - destruct Hok. by apply write_slice_indexes_spec.
  - destruct Hok as [_ Hf]. revert buffer. induction Hf as [|r ranges Hr Hf IH]; intros buffer; cbn [fold_res].
    + cbn. by rewrite app_nil_r.
    + rewrite subslice_part by done. cbn [mbind res_bind]. rewrite IH. f_equal. cbn.
      by rewrite join_app, app_assoc.
Qed.

#[export] Instance mutable_buffer_laws item_size : NativeWriterLaws bytes item_size (λ buffer items, buffer = mjoin items).
Proof. intros buffer items op -> Hok. rewrite (mutable_buffer_spec item_size) by done. by rewrite join_app; eexists. Qed.

Lemma op_items_size item_size op : native_op_ok item_size op → Forall (λ v, length v = item_size) (op_items op).
Proof.
  destruct op as [value|values|values|vs hint values indexes|values ranges]; cbn [native_op_ok op_items].
  - by constructor.
  - done.
  - done.
  - intros [Hv _]. rewrite Forall_forall in *. intros v (i & _ & Hi)%list_elem_of_omap.
    by eapply Hv, list_elem_of_lookup_2.
  - intros [Hv Hf]. induction Hf as [|r ranges Hr Hf IH]; [constructor|]. cbn. apply Forall_app. split; [|exact IH].
    unfold part. by apply Forall_take, Forall_drop.
Qed.
