(* ===== verification/Pages.v ===== *)
(** * Pages: the paged buffers of a table

    Models the writers of crates/storage/src/table/write: native.rs, bitmask.rs, offsets.rs,
    nullmask.rs, page.rs, storage_cell.rs and the factory of storage_writer.rs.

    A page writer cuts a growing buffer into pages of about the configured size.  The sizes are
    process-wide settings ([use_small_buffers] changes them), so they are an argument of the
    constructors.  All page writers of a table share one storage cell; a writer is
    therefore run on a pair of the current storage and its own page bookkeeping
    ([BufferPageWriter]), and the storage is handed on to the next writer. *)

From S2P Require Import Prelude Bytes Data Kv Bits Offsets.

(** ** Little-endian numbers *)

Definition le_bytes (n : nat) (x : Z) : bytes := reverse (be_bytes n x).
Definition from_le_bytes (b : bytes) : Z := from_be_bytes (reverse b).
Definition u32_bytes (x : Z) : bytes := le_bytes 4 x.
Definition i32_bytes (x : Z) : bytes := le_bytes 4 (x mod 2 ^ 32).
Definition bytes_i32 (b : bytes) : Z := i32_wrap (from_le_bytes b).

(** ** KvWrite (kv.rs) and the storage cell *)

Class KvWrite (D : Type) : Type := kv_write : bytes → bytes → D → res D.

#[export] Instance store_kv_write `{KvStore M C} : KvWrite M := λ key value m, Ok (kv_put m key value).

(** ** page.rs *)

Class PageWriter (P : Type) : Type := write_page : nat → bytes → P → res P.

Record BufferPageWriter : Type := mkPageWriter {
  pw_key : TableKeyFactory;
  pw_buffer_index : nat;
  pw_page_offsets : list Z
}.

Definition page_writer_new (key : TableKeyFactory) (buffer_index : nat) : BufferPageWriter :=
  mkPageWriter key buffer_index [0].
Definition pw_num_pages (p : BufferPageWriter) : nat := (length (pw_page_offsets p) - 1)%nat.
Definition pw_num_items (p : BufferPageWriter) : res Z :=
  match last (pw_page_offsets p) with
  | Some n => Ok n
  | None => Panic "called `Option::unwrap()` on a `None` value"
  end.

Section page_writer.
Context `{KvWrite D}.

(** A table's page writer together with the storage all of them share. *)
Abbreviation page_state := (D * BufferPageWriter)%type.

Definition page_writer_finish (w : page_state) : res D :=
  let '(s, p) := w in
  kv_write (factory_offsets (pw_key p) (Z.of_nat (pw_buffer_index p))).1
    (mjoin (u32_bytes <$> pw_page_offsets p)) s.

#[export] Instance buffer_page_writer : PageWriter page_state := λ item_count bs w,
  let '(s, p) := w in
  let '(key, f) := factory_page (pw_key p) (Z.of_nat (pw_buffer_index p)) (Z.of_nat (pw_num_pages p)) in
  s ← kv_write key bs s;
  n ← pw_num_items p;
  Ok (s, mkPageWriter f (pw_buffer_index p) (pw_page_offsets p ++ [(n + Z.of_nat item_count) mod 2 ^ 32])).
End page_writer.

(** The settings [PAGE_SIZE] and [PAGE_LEN]. *)
Record page_sizes : Type := mkPageSizes {
  native_page_size : nat;
  bitmask_page_size : nat;
  offset_page_len : nat
}.
Definition default_page_sizes : page_sizes := mkPageSizes (64 * 1024) (16 * 1024) (16 * 1024).
Definition small_page_sizes : page_sizes := mkPageSizes 256 4 32.

(** [bit_util::ceil] *)
Definition ceil_div (n m : nat) : nat := ((n + m - 1) / m)%nat.

(** ** native.rs *)

Record NativePageWriter (P : Type) : Type := mkNative {
  np_page_writer : P;
  np_buffer : bytes;
  np_item_size : nat;
  np_page_size : nat
}.
Arguments mkNative {P}.
Arguments np_page_writer {P}.
Arguments np_buffer {P}.
Arguments np_item_size {P}.
Arguments np_page_size {P}.

Section native.
Context `{PageWriter P}.

Definition native_new (sizes : page_sizes) (page_writer : P) (item_size : nat) : res (NativePageWriter P) :=
  if negb (0 <? item_size)%nat then Panic "assertion failed: item_size > 0"
  else Ok (mkNative page_writer [] item_size (Nat.max (native_page_size sizes) item_size)).

(** The loop of [do_flush]; every turn moves [byte_offset] by a page. *)
Fixpoint np_flush_loop (fuel : nat) (byte_offset : nat) (w : NativePageWriter P)
    : res (nat * NativePageWriter P) :=
  match fuel with
  | O => Panic "out of fuel"
  | S fuel =>
      if ((np_page_size w * 3 / 2 <? length (np_buffer w) - byte_offset)
          && (np_item_size w <=? length (np_buffer w)))%nat%bool then
        let len := ceil_div (np_page_size w) (np_item_size w) in
        let byte_end := (byte_offset + len * np_item_size w)%nat in
        bs ← subslice (np_buffer w) byte_offset byte_end;
        p ← write_page len bs (np_page_writer w);
        np_flush_loop fuel byte_end (mkNative p (np_buffer w) (np_item_size w) (np_page_size w))
      else Ok (byte_offset, w)
  end.
Definition np_do_flush (w : NativePageWriter P) : res (NativePageWriter P) :=
  '(byte_offset, w) ← np_flush_loop (length (np_buffer w) + 1) 0 w;
  Ok (mkNative (np_page_writer w) (drop byte_offset (np_buffer w)) (np_item_size w) (np_page_size w)).
Definition np_flush (w : NativePageWriter P) : res (NativePageWriter P) :=
  if (np_page_size w * 3 / 2 <? length (np_buffer w))%nat then np_do_flush w else Ok w.

Definition np_finish (w : NativePageWriter P) : res P :=
  let byte_end := length (np_buffer w) in
  _ ← ensure (byte_end mod np_item_size w =? 0)%nat (EMsg "got partially written item");
  '(byte_offset, p) ←
    (if (np_page_size w <? byte_end)%nat then
       let len := ceil_div (np_page_size w) (np_item_size w) in
       let split_byte := (len * np_item_size w)%nat in
       bs ← subslice (np_buffer w) 0 split_byte;
       p ← write_page len bs (np_page_writer w);
       Ok (split_byte, p)
     else Ok (0%nat, np_page_writer w));
  if (byte_offset <? byte_end)%nat then
    write_page ((byte_end - byte_offset) / np_item_size w) (drop byte_offset (np_buffer w)) p
  else Ok p.

Definition np_with_buffer (buffer : bytes) (w : NativePageWriter P) : NativePageWriter P :=
  mkNative (np_page_writer w) buffer (np_item_size w) (np_page_size w).

Definition np_write (op : native_op) (w : NativePageWriter P) : res (NativePageWriter P) :=
  buffer ← native_write op (np_buffer w);
  np_flush (np_with_buffer buffer w).
Fixpoint np_write_iter (values : list bytes) (w : NativePageWriter P) : res (NativePageWriter P) :=
  match values with
  | [] => Ok w
  | v :: values => w ← np_write (NatWrite v) w; np_write_iter values w
  end.

#[export] Instance native_page_writer : NativeWriter (NativePageWriter P) := λ op,
  match op with
  | NatIter values => np_write_iter values
  | op => np_write op
  end.
End native.

(** ** bitmask.rs *)

Record BitmaskPageWriter (P : Type) : Type := mkBitmaskPages {
  bp_page_writer : P;
  bp_builder : BitmaskBuilder;
  bp_page_size : nat
}.
Arguments mkBitmaskPages {P}.
Arguments bp_page_writer {P}.
Arguments bp_builder {P}.
Arguments bp_page_size {P}.

Section bitmask.
Context `{ArrowBits} `{PageWriter P}.

Definition bitmask_pages_new (sizes : page_sizes) (page_writer : P) : BitmaskPageWriter P :=
  mkBitmaskPages page_writer bitmask_new (bitmask_page_size sizes).

Fixpoint bp_flush_loop (fuel : nat) (byte_offset : nat) (w : BitmaskPageWriter P)
    : res (nat * BitmaskPageWriter P) :=
  match fuel with
  | O => Panic "out of fuel"
  | S fuel =>
      if (bp_page_size w * 3 / 2 <? bytes_size (bp_builder w) - byte_offset)%nat then
        bs ← subslice (bm_buffer (bp_builder w)) byte_offset (byte_offset + bp_page_size w);
        p ← write_page (bp_page_size w * 8) bs (bp_page_writer w);
        bp_flush_loop fuel (byte_offset + bp_page_size w) (mkBitmaskPages p (bp_builder w) (bp_page_size w))
      else Ok (byte_offset, w)
  end.
Definition bp_do_flush (w : BitmaskPageWriter P) : res (BitmaskPageWriter P) :=
  '(byte_offset, w) ← bp_flush_loop (bytes_size (bp_builder w) + 1) 0 w;
  b ← bm_shift (byte_offset * 8) (bp_builder w);
  Ok (mkBitmaskPages (bp_page_writer w) b (bp_page_size w)).
Definition bp_flush (w : BitmaskPageWriter P) : res (BitmaskPageWriter P) :=
  if (bp_page_size w * 3 / 2 <? bm_len (bp_builder w) / 8)%nat then bp_do_flush w else Ok w.

Definition bp_finish (w : BitmaskPageWriter P) : res P :=
  let byte_end := bytes_size (bp_builder w) in
  '(byte_offset, p) ←
    (if (bp_page_size w <? byte_end)%nat then
       let split_byte := (byte_end / 2)%nat in
       bs ← subslice (bm_buffer (bp_builder w)) 0 split_byte;
       p ← write_page (split_byte * 8) bs (bp_page_writer w);
       Ok (split_byte, p)
     else Ok (0%nat, bp_page_writer w));
  if (byte_offset <? byte_end)%nat then
    bs ← subslice (bm_buffer (bp_builder w)) byte_offset byte_end;
    write_page (bm_len (bp_builder w) - byte_offset * 8) bs p
  else Ok p.

#[export] Instance bitmask_page_writer : BitmaskWriter (BitmaskPageWriter P) := λ op w,
  b ← bitmask_write op (bp_builder w);
  bp_flush (mkBitmaskPages (bp_page_writer w) b (bp_page_size w)).
End bitmask.

(** ** offsets.rs *)

Record OffsetPageWriter (P : Type) : Type := mkOffsetPages {
  op_page_writer : P;
  op_builder : OffsetsBuilder;
  op_page_len : nat
}.
Arguments mkOffsetPages {P}.
Arguments op_page_writer {P}.
Arguments op_builder {P}.
Arguments op_page_len {P}.

Section offsets.
Context `{PageWriter P}.

Definition offset_pages_new (sizes : page_sizes) (page_writer : P) : OffsetPageWriter P :=
  mkOffsetPages page_writer offsets_new (offset_page_len sizes).

(** [to_byte_slice()] *)
Definition i32s_bytes (l : list Z) : bytes := mjoin (i32_bytes <$> l).

Fixpoint op_flush_loop (fuel : nat) (offset : nat) (w : OffsetPageWriter P) : res (nat * OffsetPageWriter P) :=
  match fuel with
  | O => Panic "out of fuel"
  | S fuel =>
      if (op_page_len w * 3 / 2 <? ob_len (op_builder w) - offset)%nat then
        let end_ := (offset + op_page_len w)%nat in
        values ← subslice (ob_buffer (op_builder w)) offset end_;
        p ← write_page (op_page_len w) (i32s_bytes values) (op_page_writer w);
        op_flush_loop fuel end_ (mkOffsetPages p (op_builder w) (op_page_len w))
      else Ok (offset, w)
  end.
Definition op_do_flush (w : OffsetPageWriter P) : res (OffsetPageWriter P) :=
  '(offset, w) ← op_flush_loop (ob_len (op_builder w) + 1) 0 w;
  b ← ob_shift offset (op_builder w);
  Ok (mkOffsetPages (op_page_writer w) b (op_page_len w)).
Definition op_flush (w : OffsetPageWriter P) : res (OffsetPageWriter P) :=
  if (op_page_len w * 3 / 2 <? ob_len (op_builder w))%nat then op_do_flush w else Ok w.

Definition op_finish (w : OffsetPageWriter P) : res P :=
  let data := ob_buffer (op_builder w) in
  '(offset, p) ←
    (if (op_page_len w <? length data)%nat then
       let split := (length data / 2)%nat in
       values ← subslice data 0 split;
       p ← write_page split (i32s_bytes values) (op_page_writer w);
       Ok (split, p)
     else Ok (0%nat, op_page_writer w));
  let data := drop offset data in
  write_page (length data) (i32s_bytes data) p.

#[export] Instance offset_page_writer : OffsetsWriter (OffsetPageWriter P) := λ op w,
  b ← offsets_write op (op_builder w);
  op_flush (mkOffsetPages (op_page_writer w) b (op_page_len w)).
End offsets.

(** ** nullmask.rs *)

Record NullmaskPageWriter (P : Type) : Type := mkNullmaskPages {
  nmp_nulls : BitmaskPageWriter P;
  nmp_has_nulls : bool;
  nmp_len : nat
}.
Arguments mkNullmaskPages {P}.
Arguments nmp_nulls {P}.
Arguments nmp_has_nulls {P}.
Arguments nmp_len {P}.

Section nullmask.
Context `{ArrowBits} `{PageWriter P}.

Definition nullmask_pages_new (sizes : page_sizes) (page_writer : P) : NullmaskPageWriter P :=
  mkNullmaskPages (bitmask_pages_new sizes page_writer) false 0.

Definition nmp_put (op : bit_op) (w : NullmaskPageWriter P) : res (NullmaskPageWriter P) :=
  nulls ← bitmask_write op (nmp_nulls w);
  Ok (mkNullmaskPages nulls (nmp_has_nulls w) (nmp_len w)).

(** [check_bitmask_presence]: [all_valid] is the length of the new bits when all are set. *)
Definition check_bitmask_presence (all_valid : res (option nat)) (w : NullmaskPageWriter P)
    : res (NullmaskPageWriter P * bool) :=
  if nmp_has_nulls w then Ok (w, true)
  else
    valid ← all_valid;
    match valid with
    | Some len => Ok (mkNullmaskPages (nmp_nulls w) false (nmp_len w + len), false)
    | None =>
        w ← nmp_put (BitMany true (nmp_len w)) (mkNullmaskPages (nmp_nulls w) true (nmp_len w));
        Ok (w, true)
    end.

Definition nmp_write_checked (all_valid : res (option nat)) (op : bit_op) (w : NullmaskPageWriter P)
    : res (NullmaskPageWriter P) :=
  '(w, present) ← check_bitmask_presence all_valid w;
  if (present : bool) then nmp_put op w else Ok w.

#[export] Instance nullmask_page_writer : BitmaskWriter (NullmaskPageWriter P) := λ op w,
  match op with
  | BitSlice data offset len =>
      nmp_write_checked (valid ← all_valid data offset len; Ok (if (valid : bool) then Some len else None)) op w
  | BitIndexes data _ indexes => nmp_write_checked (all_indexes_valid data indexes 0) op w
  | BitRanges data ranges => nmp_write_checked (all_ranges_valid data ranges 0) op w
  | BitMany val count =>
      if (count =? 0)%nat then Ok w
      else match nmp_has_nulls w, val with
      | true, _ => nmp_put op w
      | false, true => Ok (mkNullmaskPages (nmp_nulls w) false (nmp_len w + count))
      | false, false =>
          w ← nmp_put (BitMany true (nmp_len w)) (mkNullmaskPages (nmp_nulls w) true (nmp_len w));
          nmp_put (BitMany false count) w
      end
  end.

Definition nullmask_pages_finish (w : NullmaskPageWriter P) : res P :=
  p ← bp_finish (nmp_nulls w);
  write_page (if nmp_has_nulls w then 0%nat else nmp_len w) [] p.
End nullmask.
