(* ===== verification/PagesSpec.v ===== *)
(** * PagesSpec: what the page writers store

    A page writer receives a log of pages (item count and bytes); [PageWriterLaws] states that
    it keeps every page.  Each of the buffer writers cuts exactly the items written to it
    into pages: nothing is lost, duplicated or reordered, and no page exceeds the bound its
    configuration gives. *)
From S2P Require Import Prelude Bytes Data Kv Bits Offsets Pages.

Abbreviation page_log := (list (nat * bytes)).

Class PageWriterLaws (P : Type) `{PageWriter P} (repr : P → page_log → Prop) : Prop :=
  write_page_spec p log n bs : repr p log →
    ∃ p', write_page n bs p = Ok p' ∧ repr p' (log ++ [(n, bs)]).

(** ** Lists of items of one size *)

Lemma join_cons {A} (c : list A) l : mjoin (c :: l) = c ++ mjoin l.
Proof. done. Qed.
Lemma join_one {A} (c : list A) : mjoin [c] = c.
Proof. by rewrite join_cons, app_nil_r. Qed.

Section uniform.
Context {A : Type} (u : nat).
Implicit Type l : list (list A).

Lemma join_length l : Forall (λ c, length c = u) l → length (mjoin l) = (length l * u)%nat.
Proof. induction 1 as [|c l Hc _ IH]; [done|]. rewrite join_cons, length_app, IH, Hc. done. Qed.
Lemma take_join k l : Forall (λ c, length c = u) l → take (k * u) (mjoin l) = mjoin (take k l).
Proof.
  intros Hl. revert k. induction Hl as [|c l Hc _ IH]; intros [|k]; [by cbn; rewrite ?take_nil..|done|].
  cbn [take]. rewrite !join_cons, <-IH, <-Hc. cbn [Nat.mul]. by rewrite take_app_add.
Qed.
Lemma drop_join k l : Forall (λ c, length c = u) l → drop (k * u) (mjoin l) = mjoin (drop k l).
Proof.
  intros Hl. revert k. induction Hl as [|c l Hc _ IH]; intros [|k]; [by cbn; rewrite ?drop_nil..|done|].
  cbn [drop]. rewrite !join_cons, <-IH, <-Hc. cbn [Nat.mul]. by rewrite drop_app_add.
Qed.
Lemma part_join j k l : Forall (λ c, length c = u) l → part (j * u) (k * u) (mjoin l) = mjoin (part j k l).
Proof. intros Hl. unfold part. rewrite drop_join, take_join by auto using Forall_drop. done. Qed.
Lemma subslice_join j k l : Forall (λ c, length c = u) l → (j + k <= length l)%nat →
  subslice (mjoin l) (j * u) (j * u + k * u) = Ok (mjoin (part j k l)).
Proof.
  intros Hl Hk. rewrite subslice_part.
  - rewrite <-part_join by done. f_equal. f_equal. lia.
  - rewrite join_length by done. split; [lia|]. rewrite <-Nat.mul_add_distr_r. by apply Nat.mul_le_mono_r.
Qed.
End uniform.

Lemma part_all {A} (l : list A) : part 0 (length l) l = l.
Proof. unfold part. by rewrite drop_0, take_ge. Qed.
Lemma take_add_part {A} j k (l : list A) : take (j + k) l = take j l ++ part j k l.
Proof. unfold part. by rewrite take_take_drop. Qed.

(** ** The loop of the flushes

    All three writers emit pages from a fixed buffer while more than one and a half pages
    are left. *)
Section loop.
Context {P : Type} (more : nat → bool) (emit : nat → P → res P) (step : nat).

Fixpoint cut_loop (fuel : nat) (offset : nat) (p : P) : res (nat * P) :=
  match fuel with
  | O => Panic "out of fuel"
  | S fuel =>
      if more offset then p ← emit offset p; cut_loop fuel (offset + step) p else Ok (offset, p)
  end.

Lemma cut_loop_spec (Inv : nat → P → Prop) bound fuel : ∀ offset p,
  (0 < step)%nat →
  (∀ o p, Inv o p → more o = true → (o + step <= bound)%nat ∧ ∃ p', emit o p = Ok p' ∧ Inv (o + step)%nat p') →
  (offset <= bound < fuel + offset)%nat → Inv offset p →
  ∃ offset' p', cut_loop fuel offset p = Ok (offset', p') ∧ Inv offset' p' ∧
    more offset' = false ∧ (offset' <= bound)%nat.
Proof.
  induction fuel as [|fuel IH]; intros offset p Hs He Hf Hi; cbn [cut_loop]; [lia|].
  destruct (more offset) eqn:Hm; [|exists offset, p; repeat split; [done..|lia]].
  destruct (He _ _ Hi Hm) as (Hb & p' & -> & Hi'). cbn [mbind res_bind].
  apply IH; try done; lia.
Qed.
End loop.

(** ** Native pages *)

Definition native_log (chunks : list (list bytes)) : page_log := (λ c, (length c, mjoin c)) <$> chunks.

Section native.
Context {P : Type} `{PageWriter P} (prepr : P → page_log → Prop) `{!PageWriterLaws P prepr}.
Implicit Type w : NativePageWriter P.

Definition per_page w : nat := ceil_div (np_page_size w) (np_item_size w).

(** The items written so far: full pages, and the items of the buffer. *)
Definition native_repr_with w (chunks : list (list bytes)) (rest : list bytes) : Prop :=
  (0 < np_item_size w <= np_page_size w)%nat ∧ prepr (np_page_writer w) (native_log chunks) ∧
  np_buffer w = mjoin rest ∧ Forall (λ v, length v = np_item_size w) (mjoin chunks ++ rest) ∧
  Forall (λ c, length c = per_page w) chunks.
Definition native_repr (item_size page_size : nat) w (items : list bytes) : Prop :=
  np_item_size w = item_size ∧ np_page_size w = page_size ∧
  ∃ chunks rest, items = mjoin chunks ++ rest ∧ native_repr_with w chunks rest ∧
    (length (np_buffer w) <= np_page_size w * 3 / 2)%nat.

Lemma ceil_div_bounds n m : (0 < m)%nat → (n <= ceil_div n m * m < n + m)%nat.
Proof.
  intros. unfold ceil_div. pose proof (Nat.div_mod_eq (n + m - 1) m). pose proof (Nat.mod_upper_bound (n + m - 1) m).
  rewrite (Nat.mul_comm _ m). lia.
Qed.
Lemma per_page_pos w : (0 < np_item_size w <= np_page_size w)%nat → (0 < per_page w)%nat.
Proof. intros. unfold per_page. pose proof (ceil_div_bounds (np_page_size w) (np_item_size w)). nia. Qed.
Lemma three_halves n : (n <= n * 3 / 2)%nat.
Proof. apply Nat.div_le_lower_bound; lia. Qed.

(** More than a page of bytes holds at least a page of items. *)
Lemma page_fits w m : (0 < np_item_size w <= np_page_size w)%nat → (np_page_size w <= m * np_item_size w)%nat →
  (per_page w <= m)%nat.
Proof.
  intros Hw Hm. unfold per_page. pose proof (ceil_div_bounds (np_page_size w) (np_item_size w) ltac:(lia)). nia.
Qed.

Lemma np_flush_loop_cut w fuel : ∀ offset p,
  np_flush_loop fuel offset (mkNative p (np_buffer w) (np_item_size w) (np_page_size w)) =
  ('(o, p) ← cut_loop
     (λ o, (np_page_size w * 3 / 2 <? length (np_buffer w) - o)%nat && (np_item_size w <=? length (np_buffer w))%nat)%bool
     (λ o p, bs ← subslice (np_buffer w) o (o + per_page w * np_item_size w); write_page (per_page w) bs p)
     (per_page w * np_item_size w) fuel offset p;
   Ok (o, mkNative p (np_buffer w) (np_item_size w) (np_page_size w))).
Proof.
  induction fuel as [|fuel IH]; intros offset p; cbn [np_flush_loop cut_loop np_buffer np_item_size np_page_size np_page_writer]; [done|].
  fold (per_page w). case_if; [|done]. destruct (subslice _ _ _); cbn [mbind res_bind]; [|done..].
  destruct (write_page _ _ _); cbn [mbind res_bind]; [|done..]. apply IH.
Qed.

Lemma np_do_flush_spec w chunks rest : native_repr_with w chunks rest →
  ∃ w' j new, np_do_flush w = Ok w' ∧ native_repr_with w' (chunks ++ new) (drop j rest) ∧ mjoin new = take j rest ∧
    np_item_size w' = np_item_size w ∧ np_page_size w' = np_page_size w ∧
    (length (np_buffer w') <= np_page_size w' * 3 / 2)%nat.
Proof.
  intros (Hw & Hp & Hb & Hs & Hc). pose proof (per_page_pos w Hw) as Hpp.
  set (u := np_item_size w) in *. assert (Forall (λ v, length v = u) rest) as Hs' by (by eapply Forall_app_r).
  assert (length (np_buffer w) = length rest * u)%nat as Hlen by (by rewrite Hb, (join_length u)).
  destruct (cut_loop_spec
    (λ o, (np_page_size w * 3 / 2 <? length (np_buffer w) - o)%nat && (np_item_size w <=? length (np_buffer w))%nat)%bool
    (λ o p, bs ← subslice (np_buffer w) o (o + per_page w * np_item_size w); write_page (per_page w) bs p)
    (per_page w * u)
    (λ o p, ∃ j new, o = (j * u)%nat ∧ (j <= length rest)%nat ∧ mjoin new = take j rest ∧
       Forall (λ c, length c = per_page w) new ∧ prepr p (native_log (chunks ++ new)))
    (length (np_buffer w)) (length (np_buffer w) + 1) 0 (np_page_writer w)) as (o & p & E & Hinv & Hm & Ho); try lia.
  - intros o p (j & new & -> & Hj & Hn & Hnl & Hpr) [Hlt _]%andb_true_iff. apply Nat.ltb_lt in Hlt.
    pose proof (three_halves (np_page_size w)). rewrite Hlen in Hlt.
    assert (per_page w <= length rest - j)%nat as Hfit.
    { apply page_fits; [done|]. fold u. rewrite Nat.mul_sub_distr_r. lia. }
    split; [rewrite Hlen, <-Nat.mul_add_distr_r; apply Nat.mul_le_mono_r; lia|].
    rewrite Hb. fold u. rewrite subslice_join by (done || lia). cbn [mbind res_bind].
    destruct (write_page_spec p _ (per_page w) (mjoin (part j (per_page w) rest)) Hpr) as (p' & -> & Hpr').
    exists p'. split; [done|]. exists (j + per_page w)%nat, (new ++ [part j (per_page w) rest]).
    assert (length (part j (per_page w) rest) = per_page w) as Hpl by (apply part_length; lia).
    split; [lia|]. split; [lia|]. split; [by rewrite join_app, Hn, take_add_part; cbn; rewrite app_nil_r|].
    split; [apply Forall_app; by repeat constructor|].
    rewrite app_assoc. unfold native_log in *. rewrite fmap_app. cbn. by rewrite Hpl.
  - exists 0%nat, []. rewrite app_nil_r. repeat split; try done; lia.
  - destruct Hinv as (j & new & -> & Hj & Hn & Hnl & Hpr). unfold np_do_flush.
    subst u. destruct w as [p0 buf isz ps]; cbn [np_page_writer np_buffer np_item_size np_page_size] in *.
    pose proof (np_flush_loop_cut (mkNative p0 buf isz ps) (length buf + 1) 0 p0) as Ec.
    cbn [np_page_writer np_buffer np_item_size np_page_size] in Ec. rewrite Ec, E. cbn [mbind res_bind].
    eexists. exists j, new. cbn [np_page_writer np_buffer np_item_size np_page_size].
    split; [done|]. split; [|split; [done|split; [done|split; [done|]]]].
    + split; [done|]. split; [done|]. cbn [np_page_writer np_buffer np_item_size np_page_size].
      split; [by rewrite Hb, drop_join|]. split; [|by apply Forall_app].
      by rewrite join_app, Hn, <-app_assoc, take_drop.
    + cbn [np_buffer np_page_size]. rewrite length_drop. apply andb_false_iff in Hm as [Hm|Hm]; [by apply Nat.ltb_ge in Hm|].
      apply Nat.leb_gt in Hm. pose proof (three_halves ps). lia.
Qed.

Lemma np_flush_spec w chunks rest : native_repr_with w chunks rest →
  ∃ w', np_flush w = Ok w' ∧ native_repr (np_item_size w) (np_page_size w) w' (mjoin chunks ++ rest).
Proof.
  intros Hw. unfold np_flush. case_if.
  - destruct (np_do_flush_spec w chunks rest Hw) as (w' & j & new & -> & Hw' & Hn & Hu & Hps & Hl).
    exists w'. split; [done|]. split; [done|]. split; [done|]. exists (chunks ++ new), (drop j rest). split; [|done].
    by rewrite join_app, <-app_assoc, Hn, take_drop.
  - apply Nat.ltb_ge in Heqb. exists w. split; [done|]. split; [done|]. split; [done|]. by exists chunks, rest.
Qed.

Lemma np_write_spec u ps w items op : native_repr u ps w items → native_op_ok u op →
  ∃ w', np_write op w = Ok w' ∧ native_repr u ps w' (items ++ op_items op).
Proof.
  intros (<- & <- & chunks & rest & -> & (Hw & Hp & Hb & Hs & Hc) & Hl) Hok. unfold np_write.
  rewrite (mutable_buffer_spec (np_item_size w)) by done. cbn [mbind res_bind].
  destruct (np_flush_spec (np_with_buffer (np_buffer w ++ mjoin (op_items op)) w) chunks (rest ++ op_items op))
    as (w' & -> & Hr').
  - split; [done|]. split; [done|]. cbn [np_with_buffer np_page_writer np_buffer np_item_size np_page_size].
    split; [by rewrite Hb, join_app|]. split; [|done].
    rewrite app_assoc. apply Forall_app. split; [done|]. by apply op_items_size.
  - exists w'. split; [done|]. by rewrite <-app_assoc.
Qed.

#[export] Instance native_page_laws u ps : NativeWriterLaws (NativePageWriter P) u (native_repr u ps).
Proof.
  intros w items op Hw Hok. unfold native_write, native_page_writer.
  destruct op as [value|values|values|vs hint values indexes|values ranges]; try by apply np_write_spec.
  cbn [native_op_ok op_items] in *. revert w items Hw.
  induction Hok as [|v values Hv _ IH]; intros w items Hw; cbn [np_write_iter].
  - exists w. by rewrite app_nil_r.
  - destruct (np_write_spec u ps w items (NatWrite v) Hw Hv) as (w1 & -> & Hw1). cbn [mbind res_bind].
    destruct (IH w1 _ Hw1) as (w2 & -> & Hw2). exists w2. split; [done|]. cbn in Hw2. by rewrite <-app_assoc in Hw2.
Qed.

Lemma native_new_repr sizes p u : (0 < u)%nat → prepr p [] →
  ∃ w, native_new sizes p u = Ok w ∧ native_repr u (Nat.max (native_page_size sizes) u) w [].
Proof.
  intros Hu Hp. unfold native_new. rewrite (proj2 (Nat.ltb_lt _ _)) by done. cbn [negb].
  eexists. split; [done|]. split; [done|]. split; [done|]. exists [], []. split; [done|].
  split; [split_and!; cbn; try done; try lia; constructor|]. simpl. lia.
Qed.

(** Finishing writes what is left; the pages are then exactly the items, in pages of at most
    [per_page] of them, none empty. *)
Lemma np_finish_spec u ps w items : native_repr u ps w items →
  ∃ p chunks, np_finish w = Ok p ∧ prepr p (native_log chunks) ∧ mjoin chunks = items ∧
    Forall (λ c, (0 < length c <= ceil_div ps u)%nat) chunks.
Proof.
  intros (<- & <- & chunks & rest & -> & (Hw & Hp & Hb & Hs & Hc) & Hl). pose proof (per_page_pos w Hw) as Hpp.
  change (ceil_div (np_page_size w) (np_item_size w)) with (per_page w).
  set (u := np_item_size w) in *. assert (Forall (λ v, length v = u) rest) as Hs' by (by eapply Forall_app_r).
  assert (length (np_buffer w) = length rest * u)%nat as Hlen by (by rewrite Hb, (join_length u)).
  assert (Forall (λ c, (0 < length c <= per_page w)%nat) chunks) as Hc' by (eapply Forall_impl; [exact Hc|]; simpl; lia).
  unfold np_finish. fold (per_page w) u. rewrite Hlen. rewrite Nat.Div0.mod_mul. cbn [Nat.eqb ensure mbind res_bind].
  destruct (np_page_size w <? length rest * u)%nat eqn:Eps.
  - apply Nat.ltb_lt in Eps. assert (per_page w <= length rest)%nat as Hfit by (apply page_fits; [done|fold u; lia]).
    pose proof (subslice_join u 0 (per_page w) rest Hs' Hfit) as Es. rewrite Nat.mul_0_l, Nat.add_0_l in Es.
    rewrite Hb, Es. cbn [mbind res_bind].
    destruct (write_page_spec _ _ (per_page w) (mjoin (part 0 (per_page w) rest)) Hp) as (p1 & -> & Hp1).
    cbn [mbind res_bind]. assert (length (part 0 (per_page w) rest) = per_page w) as Hpl by (apply part_length; lia).
    destruct (_ <? _)%nat eqn:Er.
    + apply Nat.ltb_lt in Er. rewrite <-Nat.mul_sub_distr_r, Nat.div_mul, drop_join by (done || lia).
      destruct (write_page_spec _ _ (length rest - per_page w) (mjoin (drop (per_page w) rest)) Hp1) as (p2 & -> & Hp2).
      exists p2, (chunks ++ [part 0 (per_page w) rest; drop (per_page w) rest]). split; [done|]. split; [|split].
      * unfold native_log. rewrite fmap_app. cbn. rewrite Hpl, length_drop. by rewrite <-app_assoc in Hp2.
      * rewrite join_app, join_cons, join_one. unfold part. by rewrite drop_0, take_drop.
      * apply Forall_app. split; [done|]. constructor; [rewrite Hpl; lia|]. constructor; [|constructor].
        rewrite length_drop. split; [nia|].
        pose proof (three_halves (np_page_size w)).
        assert (np_page_size w * 3 / 2 <= np_page_size w * 2)%nat by (apply Nat.Div0.div_le_upper_bound; lia).
        rewrite Hlen in Hl. pose proof (ceil_div_bounds (np_page_size w) u ltac:(lia)) as Hcd.
        change (ceil_div (np_page_size w) u) with (per_page w) in *. nia.
    + apply Nat.ltb_ge in Er. exists p1, (chunks ++ [part 0 (per_page w) rest]). split; [done|]. split; [|split].
      * unfold native_log. rewrite fmap_app. cbn. by rewrite Hpl.
      * rewrite join_app, join_one. unfold part. rewrite drop_0, take_ge; [done|]. nia.
      * apply Forall_app. split; [done|]. repeat constructor; lia.
  - apply Nat.ltb_ge in Eps. cbn [mbind res_bind]. rewrite Nat.sub_0_r, drop_0, Nat.div_mul by lia.
    destruct (_ <? _)%nat eqn:Er.
    + apply Nat.ltb_lt in Er. rewrite Hb.
      destruct (write_page_spec _ _ (length rest) (mjoin rest) Hp) as (p1 & -> & Hp1).
      exists p1, (chunks ++ [rest]). split; [done|]. split; [|split].
      * unfold native_log. by rewrite fmap_app.
      * by rewrite join_app, join_one.
      * apply Forall_app. split; [done|]. repeat constructor; [nia|].
        pose proof (ceil_div_bounds (np_page_size w) u ltac:(lia)) as Hcd.
        change (ceil_div (np_page_size w) u) with (per_page w) in *. nia.
    + apply Nat.ltb_ge in Er. exists (np_page_writer w), chunks. split; [done|]. split; [done|]. split; [|done].
      destruct rest as [|v rest]; [by rewrite app_nil_r|]. simpl in Er. lia.
Qed.
End native.

(** ** Bit mask pages *)

(** A page that holds the bits [c], zero-padded to a whole number of bytes. *)
Definition bit_page (c : list bool) (page : nat * bytes) : Prop :=
  page.1 = length c ∧ bits page.2 = c ++ replicate (pad (length c)) false.

Lemma pad_aligned n : (n mod 8 = 0)%nat → pad n = 0%nat.
Proof. intros Hn. by rewrite pad_mod, Hn. Qed.
Lemma mul8_mod n : ((8 * n) mod 8 = 0)%nat.
Proof. rewrite Nat.mul_comm. apply Nat.Div0.mod_mul. Qed.

Lemma bits_part o n data : bits (part o n data) = part (8 * o) (8 * n) (bits data).
Proof. unfold part. by rewrite bits_take, bits_drop. Qed.
Lemma part_app_l {A} o n (l k : list A) : (o + n <= length l)%nat → part o n (l ++ k) = part o n l.
Proof. intros. unfold part. rewrite drop_app_le, take_app_le by (rewrite ?length_drop; lia). done. Qed.

Section bitmask_pages.
Context `{ArrowBitsLaws} {P : Type} `{PageWriter P} (prepr : P → page_log → Prop) `{!PageWriterLaws P prepr}.
Implicit Type w : BitmaskPageWriter P.

Definition bitmask_pages_with w (chunks : list (list bool)) (rest : list bool) : Prop :=
  (0 < bp_page_size w)%nat ∧ bitmask_repr (bp_builder w) rest ∧
  Forall (λ c, length c = 8 * bp_page_size w)%nat chunks ∧
  ∃ log, prepr (bp_page_writer w) log ∧ Forall2 bit_page chunks log.
Definition bitmask_pages_repr (page_size : nat) w (l : list bool) : Prop :=
  bp_page_size w = page_size ∧ ∃ chunks rest, l = mjoin chunks ++ rest ∧ bitmask_pages_with w chunks rest.

(** A page cut from bytes that are all filled. *)
Lemma full_bit_page b rest o n : bitmask_repr b rest → (8 * (o + n) <= length rest)%nat →
  ∃ bs, subslice (bm_buffer b) o (o + n) = Ok bs ∧ bit_page (part (8 * o) (8 * n) rest) ((n * 8)%nat, bs).
Proof.
  intros Hr Hn. pose proof (bitmask_repr_length _ _ Hr) as Hlen. pose proof (ceil8_bounds (length rest)).
  rewrite subslice_part by (rewrite Hlen; lia). eexists. split; [done|].
  rewrite Nat.add_comm, Nat.add_sub. unfold bit_page. cbn [fst snd].
  assert (length (part (8 * o) (8 * n) rest) = 8 * n)%nat as -> by (apply part_length; lia).
  split; [lia|]. rewrite bits_part, (proj2 Hr), part_app_l by lia.
  by rewrite pad_aligned, app_nil_r by apply mul8_mod.
Qed.

Lemma bp_flush_loop_cut w fuel : ∀ offset p,
  bp_flush_loop fuel offset (mkBitmaskPages p (bp_builder w) (bp_page_size w)) =
  ('(o, p) ← cut_loop (λ o, bp_page_size w * 3 / 2 <? bytes_size (bp_builder w) - o)%nat
     (λ o p, bs ← subslice (bm_buffer (bp_builder w)) o (o + bp_page_size w); write_page (bp_page_size w * 8) bs p)
     (bp_page_size w) fuel offset p;
   Ok (o, mkBitmaskPages p (bp_builder w) (bp_page_size w))).
Proof.
  induction fuel as [|fuel IH]; intros offset p; cbn [bp_flush_loop cut_loop bp_builder bp_page_size bp_page_writer]; [done|].
  case_if; [|done]. destruct (subslice _ _ _); cbn [mbind res_bind]; [|done..].
  destruct (write_page _ _ _); cbn [mbind res_bind]; [|done..]. apply IH.
Qed.

Lemma bp_do_flush_spec w chunks rest : bitmask_pages_with w chunks rest →
  ∃ w', bp_do_flush w = Ok w' ∧ bitmask_pages_repr (bp_page_size w) w' (mjoin chunks ++ rest).
Proof.
  intros (Hps & Hb & Hc & log & Hp & Hlog). pose proof (ceil8_bounds (length rest)) as Hceil.
  assert (bytes_size (bp_builder w) = ceil8 (length rest)) as Hbs by (unfold bytes_size; by rewrite (proj1 Hb)).
  destruct (cut_loop_spec (λ o, bp_page_size w * 3 / 2 <? bytes_size (bp_builder w) - o)%nat
    (λ o p, bs ← subslice (bm_buffer (bp_builder w)) o (o + bp_page_size w); write_page (bp_page_size w * 8) bs p)
    (bp_page_size w)
    (λ o p, ∃ new nlog, (8 * o <= length rest)%nat ∧ mjoin new = take (8 * o) rest ∧
       Forall (λ c, length c = 8 * bp_page_size w)%nat new ∧ prepr p (log ++ nlog) ∧ Forall2 bit_page new nlog)
    (bytes_size (bp_builder w)) (bytes_size (bp_builder w) + 1) 0 (bp_page_writer w))
    as (o & p & E & Hinv & Hm & Ho); try lia.
  - intros o p (new & nlog & Ho & Hn & Hnl & Hpr & Hf) Hlt%Nat.ltb_lt.
    pose proof (three_halves (bp_page_size w)). rewrite Hbs in *. split; [lia|].
    destruct (full_bit_page _ _ o (bp_page_size w) Hb) as (bs & -> & Hbp); [lia|]. cbn [mbind res_bind].
    destruct (write_page_spec p _ (bp_page_size w * 8) bs Hpr) as (p' & -> & Hpr'). exists p'. split; [done|].
    exists (new ++ [part (8 * o) (8 * bp_page_size w) rest]), (nlog ++ [((bp_page_size w * 8)%nat, bs)]).
    split; [lia|]. split; [by rewrite join_app, Hn, join_one, Nat.mul_add_distr_l, take_add_part|].
    split; [apply Forall_app; split; [done|]; constructor; [apply part_length; lia|constructor]|].
    split; [by rewrite app_assoc|]. apply Forall2_app; [done|]. by constructor.
  - exists [], []. rewrite app_nil_r. repeat split; try done. lia.
  - destruct Hinv as (new & nlog & Ho' & Hn & Hnl & Hpr & Hf). unfold bp_do_flush.
    destruct w as [p0 b ps]; cbn [bp_page_writer bp_builder bp_page_size] in *.
    pose proof (bp_flush_loop_cut (mkBitmaskPages p0 b ps) (bytes_size b + 1) 0 p0) as Ec.
    cbn [bp_page_writer bp_builder bp_page_size] in Ec. rewrite Ec, E. cbn [mbind res_bind bp_builder].
    destruct (bm_shift_spec b rest (o * 8) Hb) as (b' & -> & Hb'); [apply Nat.Div0.mod_mul|lia|].
    cbn [mbind res_bind]. eexists. split; [done|]. split; [done|]. exists (chunks ++ new), (drop (o * 8) rest).
    split; [by rewrite join_app, <-app_assoc, Hn, Nat.mul_comm, take_drop|].
    split; [done|]. split; [done|]. split; [by apply Forall_app|]. exists (log ++ nlog). split; [done|].
    by apply Forall2_app.
Qed.

Lemma bitmask_pages_spec ps : BitmaskWriterLaws (BitmaskPageWriter P) (bitmask_pages_repr ps).
Proof.
  intros w l op (<- & chunks & rest & -> & (Hps & Hb & Hc & Hlog)) Hok.
  unfold bitmask_write, bitmask_page_writer.
  destruct (bitmask_write_spec _ _ op Hb Hok) as (b & -> & Hb'). cbn [mbind res_bind]. rewrite <-app_assoc.
  unfold bp_flush. cbn [bp_page_size bp_builder]. case_if.
  - by apply (bp_do_flush_spec (mkBitmaskPages _ _ _)).
  - eexists. split; [done|]. split; [done|]. by exists chunks, (rest ++ op_bits op).
Qed.
#[export] Instance bitmask_pages_laws ps : BitmaskWriterLaws (BitmaskPageWriter P) (bitmask_pages_repr ps).
Proof. apply bitmask_pages_spec. Qed.

Lemma bitmask_pages_new_repr sizes p : (0 < bitmask_page_size sizes)%nat → prepr p [] →
  bitmask_pages_repr (bitmask_page_size sizes) (bitmask_pages_new sizes p) [].
Proof.
  intros Hs Hp. split; [done|]. exists [], []. split; [done|]. split; [done|]. split; [done|]. split; [constructor|].
  exists []. split; [done|constructor].
Qed.

(** The last page of a non-empty remainder. *)
Lemma last_bit_page b rest o : bitmask_repr b rest → (8 * o <= length rest)%nat →
  ∃ bs, subslice (bm_buffer b) o (ceil8 (length rest)) = Ok bs ∧
    bit_page (drop (8 * o) rest) ((length rest - o * 8)%nat, bs).
Proof.
  intros Hr Ho. pose proof (bitmask_repr_length _ _ Hr) as Hlen. pose proof (ceil8_bounds (length rest)).
  rewrite subslice_part by (rewrite Hlen; lia). eexists. split; [done|].
  unfold bit_page. cbn [fst snd]. rewrite length_drop. split; [lia|].
  assert (ceil8 (length rest - 8 * o) = ceil8 (length rest) - o)%nat as Hce by (apply ceil8_unique; lia).
  assert (pad (length rest - 8 * o) = pad (length rest)) as -> by (unfold pad; lia).
  rewrite bits_part, (proj2 Hr). unfold part. rewrite drop_app_le, take_ge; [done| |done].
  rewrite length_app, length_drop, length_replicate. pose proof (ceil8_pad (length rest)). lia.
Qed.

(** All pages but the last one hold whole bytes. *)
Definition aligned (chunks : list (list bool)) : Prop :=
  ∃ full tail, chunks = full ++ tail ∧ Forall (λ c, length c mod 8 = 0)%nat full ∧ (length tail <= 1)%nat.

Lemma bp_finish_spec ps w l : bitmask_pages_repr ps w l →
  ∃ p chunks log, bp_finish w = Ok p ∧ prepr p log ∧ Forall2 bit_page chunks log ∧ mjoin chunks = l ∧
    aligned chunks ∧ (chunks = [] ↔ l = []) ∧ Forall (λ c, (0 < length c)%nat) chunks.
Proof.
  intros (<- & chunks & rest & -> & (Hps & Hb & Hc & log & Hp & Hlog)). unfold bp_finish.
  assert (bytes_size (bp_builder w) = ceil8 (length rest)) as -> by (unfold bytes_size; by rewrite (proj1 Hb)).
  rewrite (proj1 Hb). pose proof (ceil8_bounds (length rest)) as Hceil.
  assert (Forall (λ c, length c mod 8 = 0)%nat chunks) as Hal.
  { eapply Forall_impl; [exact Hc|]. cbn. intros c ->. apply mul8_mod. }
  assert (Forall (λ c, (0 < length c)%nat) chunks) as Hpos.
  { eapply Forall_impl; [exact Hc|]. cbn. lia. }
  assert (mjoin chunks = [] → chunks = []) as Hnil.
  { destruct Hc as [|c chunks Hc _]; [done|]. rewrite join_cons. intros [-> _]%app_eq_nil. simpl in Hc. lia. }
  assert (rest = [] → ceil8 (length rest) = 0%nat) as Hr0 by (by intros ->).
  destruct (bp_page_size w <? ceil8 (length rest))%nat eqn:Eps.
  - apply Nat.ltb_lt in Eps. set (sp := (ceil8 (length rest) / 2)%nat).
    assert (sp < ceil8 (length rest))%nat as Hsp by (apply Nat.div_lt; lia).
    destruct (full_bit_page _ _ 0 sp Hb) as (bs & Es & Hbp); [lia|]. cbn [Nat.add] in Es. rewrite Es.
    cbn [mbind res_bind]. destruct (write_page_spec _ _ (sp * 8) bs Hp) as (p1 & -> & Hp1). cbn [mbind res_bind].
    rewrite (proj2 (Nat.ltb_lt _ _) Hsp).
    destruct (last_bit_page _ _ sp Hb) as (bs2 & -> & Hbp2); [lia|]. cbn [mbind res_bind].
    destruct (write_page_spec _ _ (length rest - sp * 8) bs2 Hp1) as (p2 & -> & Hp2).
    exists p2, (chunks ++ [part (8 * 0) (8 * sp) rest; drop (8 * sp) rest]).
    eexists. split; [done|]. split; [exact Hp2|]. rewrite <-app_assoc. split; [|split; [|split; [|split]]].
    + apply Forall2_app; [done|]. constructor; [exact Hbp|]. constructor; [exact Hbp2|constructor].
    + rewrite join_app, join_cons, join_one. unfold part. by rewrite drop_0, take_drop.
    + exists (chunks ++ [part (8 * 0) (8 * sp) rest]), [drop (8 * sp) rest]. rewrite <-app_assoc. split; [done|].
      split; [|done]. apply Forall_app. split; [done|]. constructor; [|constructor].
      rewrite part_length by lia. apply mul8_mod.
    + split; [by destruct chunks|]. intros [_ ?%Hr0]%app_eq_nil. lia.
    + assert (0 < sp)%nat by (apply Nat.div_str_pos; lia).
      apply Forall_app. split; [done|]. constructor; [rewrite part_length; lia|].
      constructor; [rewrite length_drop; lia|constructor].
  - cbn [mbind res_bind]. destruct (0 <? ceil8 (length rest))%nat eqn:E0.
    + destruct (last_bit_page _ _ 0 Hb) as (bs2 & -> & Hbp2); [lia|]. cbn [mbind res_bind].
      destruct (write_page_spec _ _ (length rest - 0 * 8) bs2 Hp) as (p2 & -> & Hp2).
      exists p2, (chunks ++ [rest]). eexists. split; [done|]. split; [exact Hp2|]. split; [|split; [|split; [|split]]].
      * apply Forall2_app; [done|]. constructor; [exact Hbp2|constructor].
      * by rewrite join_app, join_one.
      * by exists chunks, [rest].
      * split; [by destruct chunks|]. apply Nat.ltb_lt in E0. intros [_ ?%Hr0]%app_eq_nil. lia.
      * apply Nat.ltb_lt in E0. apply Forall_app. split; [done|]. constructor; [|constructor].
        destruct rest; [by rewrite Hr0 in E0|simpl; lia].
    + apply Nat.ltb_ge in E0. destruct rest as [|x rest]; [|cbn [length] in *; lia].
      exists (bp_page_writer w), chunks, log. rewrite app_nil_r.
      split; [done|]. split; [done|]. split; [done|]. split; [done|]. split; [|split; [split; [by intros ->|done]|done]].
      exists chunks, []. rewrite app_nil_r. split; [done|]. split; [done|]. simpl. lia.
Qed.
End bitmask_pages.

(** ** Offset and null mask pages, and the stored form of a buffer

    Continues PagesSpec.v with the offset and null mask writers, and describes what a
    finished buffer looks like in the key-value store ([buffer_stored]). *)

(** ** Offset pages *)

Section offset_pages.
Context {P : Type} `{PageWriter P} (prepr : P → page_log → Prop) `{!PageWriterLaws P prepr}.
Implicit Type w : OffsetPageWriter P.

(** Pages of offsets are pages of four-byte items. *)
Definition offsets_log (chunks : list (list Z)) : page_log := (λ c, (length c, i32s_bytes c)) <$> chunks.

Lemma offsets_log_native chunks : offsets_log chunks = native_log ((λ c : list Z, i32_bytes <$> c) <$> chunks).
Proof.
  unfold offsets_log, native_log. rewrite <-list_fmap_compose. apply list_fmap_ext.
  intros _ c _. cbn. by rewrite length_fmap.
Qed.

(** [stored]: the lengths whose offsets are all in pages. *)
Definition offset_pages_with w (chunks : list (list Z)) (stored rest : list nat) : Prop :=
  (0 < op_page_len w)%nat ∧ offsets_repr stored (op_builder w) rest ∧ prepr (op_page_writer w) (offsets_log chunks) ∧
  mjoin chunks = take (length stored) (cumul 0 (stored ++ rest)) ∧ Forall (λ c, length c = op_page_len w) chunks.
Definition offset_pages_repr (page_len : nat) w (lens : list nat) : Prop :=
  op_page_len w = page_len ∧ ∃ chunks stored rest, lens = stored ++ rest ∧ offset_pages_with w chunks stored rest.

Lemma op_flush_loop_cut w fuel : ∀ offset p,
  op_flush_loop fuel offset (mkOffsetPages p (op_builder w) (op_page_len w)) =
  ('(o, p) ← cut_loop (λ o, op_page_len w * 3 / 2 <? ob_len (op_builder w) - o)%nat
     (λ o p, v ← subslice (ob_buffer (op_builder w)) o (o + op_page_len w); write_page (op_page_len w) (i32s_bytes v) p)
     (op_page_len w) fuel offset p;
   Ok (o, mkOffsetPages p (op_builder w) (op_page_len w))).
Proof.
  induction fuel as [|fuel IH]; intros offset p; cbn [op_flush_loop cut_loop op_builder op_page_len op_page_writer]; [done|].
  case_if; [|done]. destruct (subslice _ _ _); cbn [mbind res_bind]; [|done..].
  destruct (write_page _ _ _); cbn [mbind res_bind]; [|done..]. apply IH.
Qed.

Lemma take_cumul_app a b : take (length a) (cumul 0 (a ++ b)) ++ cumul (total a) b = cumul 0 (a ++ b).
Proof.
  rewrite <-(take_drop (length a) (cumul 0 (a ++ b))) at 2. f_equal.
  rewrite drop_cumul, drop_app_length, take_app_length by (rewrite length_app; lia). done.
Qed.
Lemma take_cumul_stored a b n : (n <= length b)%nat →
  take (length (a ++ take n b)) (cumul 0 (a ++ b)) = take (length a) (cumul 0 (a ++ b)) ++ take n (cumul (total a) b).
Proof.
  intros Hn. rewrite <-(take_cumul_app a b) at 1.
  assert (length (take (length a) (cumul 0 (a ++ b))) = length a) as E.
  { rewrite length_take, cumul_length, length_app. lia. }
  rewrite length_app, length_take, Nat.min_l by done. rewrite <-E at 1. by rewrite take_app_add.
Qed.

Lemma op_do_flush_spec w chunks stored rest : offset_pages_with w chunks stored rest →
  ∃ w', op_do_flush w = Ok w' ∧ offset_pages_repr (op_page_len w) w' (stored ++ rest).
Proof.
  intros (Hps & Hb & Hp & Hj & Hc).
  assert (ob_len (op_builder w) = length rest) as Hlen.
  { unfold ob_len. rewrite (proj1 Hb), cumul_length. lia. }
  destruct (cut_loop_spec (λ o, op_page_len w * 3 / 2 <? ob_len (op_builder w) - o)%nat
    (λ o p, v ← subslice (ob_buffer (op_builder w)) o (o + op_page_len w); write_page (op_page_len w) (i32s_bytes v) p)
    (op_page_len w)
    (λ o p, ∃ new, (o <= length rest)%nat ∧ mjoin new = take o (cumul (total stored) rest) ∧
       Forall (λ c, length c = op_page_len w) new ∧ prepr p (offsets_log (chunks ++ new)))
    (ob_len (op_builder w)) (ob_len (op_builder w) + 1) 0 (op_page_writer w))
    as (o & p & E & Hinv & Hm & Ho); try lia.
  - intros o p (new & Ho & Hn & Hnl & Hpr) Hlt%Nat.ltb_lt.
    pose proof (three_halves (op_page_len w)). rewrite Hlen in *. split; [lia|].
    rewrite (proj1 Hb), subslice_part by (rewrite cumul_length; lia). cbn [mbind res_bind].
    rewrite Nat.add_comm, Nat.add_sub. set (c := part o (op_page_len w) (cumul (total stored) rest)).
    assert (length c = op_page_len w) as Hcl by (apply part_length; rewrite cumul_length; lia).
    destruct (write_page_spec p _ (op_page_len w) (i32s_bytes c) Hpr) as (p' & -> & Hpr'). exists p'. split; [done|].
    exists (new ++ [c]). rewrite Nat.add_comm. split; [lia|].
    split; [by rewrite join_app, Hn, join_one, take_add_part|].
    split; [apply Forall_app; split; [done|]; by repeat constructor|].
    rewrite app_assoc. unfold offsets_log in *. rewrite fmap_app. cbn. by rewrite Hcl.
  - exists []. rewrite app_nil_r. split; [lia|]. split; [done|]. by split.
  - destruct Hinv as (new & Ho' & Hn & Hnl & Hpr). unfold op_do_flush.
    destruct w as [p0 b ps]; cbn [op_page_writer op_builder op_page_len] in *.
    pose proof (op_flush_loop_cut (mkOffsetPages p0 b ps) (ob_len b + 1) 0 p0) as Ec.
    cbn [op_page_writer op_builder op_page_len] in Ec. rewrite Ec, E. cbn [mbind res_bind op_builder].
    destruct (ob_shift_spec stored b rest o Hb) as (b' & -> & Hb'); [lia|].
    cbn [mbind res_bind]. eexists. split; [done|]. split; [done|].
    exists (chunks ++ new), (stored ++ take o rest), (drop o rest).
    split; [by rewrite <-app_assoc, take_drop|]. split; [done|]. split; [done|]. split; [done|].
    split; [|by apply Forall_app]. rewrite <-app_assoc, take_drop, take_cumul_stored, join_app, Hj, Hn; done.
Qed.

Lemma offset_pages_op ps w lens op : offset_pages_repr ps w lens → offset_op_ok op →
  total (lens ++ op_lens op) <= i32_max →
  ∃ w', offsets_write op w = Ok w' ∧ offset_pages_repr ps w' (lens ++ op_lens op).
Proof.
  intros (<- & chunks & stored & rest & -> & (Hps & Hb & Hp & Hj & Hc)) Hok Ht.
  unfold offsets_write at 1, offset_page_writer. rewrite <-app_assoc in *.
  destruct (offsets_builder_spec stored _ _ op Hb Hok Ht) as (b & E & Hb').
  rewrite E. cbn [mbind res_bind].
  assert (mjoin chunks = take (length stored) (cumul 0 (stored ++ rest ++ op_lens op))) as Hj'.
  { rewrite Hj, app_assoc, (cumul_app 0 (stored ++ rest)), take_app_le; [done|]. rewrite cumul_length, length_app. lia. }
  unfold op_flush. cbn [op_page_len op_builder]. case_if.
  - by apply (op_do_flush_spec (mkOffsetPages _ _ _) chunks).
  - eexists. split; [done|]. split; [done|]. by exists chunks, stored, (rest ++ op_lens op).
Qed.
#[export] Instance offset_pages_laws ps : OffsetsWriterLaws (OffsetPageWriter P) (offset_pages_repr ps).
Proof. intros w lens op. apply offset_pages_op. Qed.

Lemma offset_pages_new_repr sizes p : (0 < offset_page_len sizes)%nat → prepr p [] →
  offset_pages_repr (offset_page_len sizes) (offset_pages_new sizes p) [].
Proof.
  intros Hs Hp. split; [done|]. exists [], [], []. split; [done|]. split; [done|]. split; [done|]. split; [done|].
  split; [done|constructor].
Qed.

Lemma op_finish_spec ps w lens : offset_pages_repr ps w lens →
  ∃ p chunks, op_finish w = Ok p ∧ prepr p (offsets_log chunks) ∧ mjoin chunks = cumul 0 lens ∧
    Forall (λ c, c ≠ []) chunks.
Proof.
  intros (<- & chunks & stored & rest & -> & (Hps & Hb & Hp & Hj & Hc)). unfold op_finish.
  assert (Forall (λ c, c ≠ []) chunks) as Hne.
  { eapply Forall_impl; [exact Hc|]. intros c Hl ->. simpl in Hl. lia. }
  rewrite (proj1 Hb), cumul_length. set (data := cumul (total stored) rest).
  assert (length data = S (length rest)) as Hdl by apply cumul_length.
  assert (∀ k, mjoin chunks ++ take k data ++ drop k data = cumul 0 (stored ++ rest)) as Hall.
  { intros k. rewrite take_drop, Hj. apply take_cumul_app. }
  destruct (op_page_len w <? S (length rest))%nat eqn:Eps.
  - apply Nat.ltb_lt in Eps. set (sp := (S (length rest) / 2)%nat).
    assert (0 < sp < S (length rest))%nat as Hsp.
    { split; [apply Nat.div_str_pos; lia|apply Nat.div_lt; lia]. }
    rewrite subslice_part by lia. cbn [mbind res_bind]. rewrite Nat.sub_0_r.
    assert (length (part 0 sp data) = sp) as Hpl by (apply part_length; lia).
    destruct (write_page_spec _ _ sp (i32s_bytes (part 0 sp data)) Hp) as (p1 & -> & Hp1). cbn [mbind res_bind].
    destruct (write_page_spec _ _ (length (drop sp data)) (i32s_bytes (drop sp data)) Hp1) as (p2 & -> & Hp2).
    exists p2, (chunks ++ [part 0 sp data; drop sp data]). split; [done|]. split; [|split].
    + unfold offsets_log. rewrite fmap_app. cbn [fmap list_fmap]. rewrite Hpl. by rewrite <-app_assoc in Hp2.
    + rewrite join_app, join_cons, join_one. unfold part. rewrite drop_0. apply Hall.
    + apply Forall_app. split; [done|]. constructor; [|constructor; [|constructor]]; intros En;
        apply (f_equal length) in En; rewrite ?Hpl, ?length_drop in En; simpl in En; lia.
  - cbn [mbind res_bind]. rewrite drop_0.
    destruct (write_page_spec _ _ (length data) (i32s_bytes data) Hp) as (p2 & -> & Hp2).
    exists p2, (chunks ++ [data]). split; [done|]. split; [|split].
    + unfold offsets_log. by rewrite fmap_app.
    + rewrite join_app, join_one. apply (Hall 0%nat).
    + apply Forall_app. split; [done|]. constructor; [|constructor]. intros En. by rewrite En in Hdl.
Qed.
End offset_pages.

(** ** Null mask pages *)

Section nullmask_pages.
Context `{ArrowBitsLaws} {P : Type} `{PageWriter P} (prepr : P → page_log → Prop) `{!PageWriterLaws P prepr}.
Implicit Type w : NullmaskPageWriter P.

Definition nullmask_pages_repr (ps : nat) w (l : list bool) : Prop :=
  if nmp_has_nulls w then false ∈ l ∧ bitmask_pages_repr prepr ps (nmp_nulls w) l
  else l = replicate (nmp_len w) true ∧ bitmask_pages_repr prepr ps (nmp_nulls w) [].

Lemma nmp_put_spec ps w l op : nullmask_pages_repr ps w l → nmp_has_nulls w = true → op_ok op →
  ∃ w', nmp_put op w = Ok w' ∧ nullmask_pages_repr ps w' (l ++ op_bits op) ∧ nmp_has_nulls w' = true.
Proof.
  unfold nullmask_pages_repr. intros Hr Hn Hok. rewrite Hn in Hr. destruct Hr as [Hin Hr].
  destruct (bitmask_pages_spec prepr ps _ _ op Hr Hok) as (nulls & E & Hnulls).
  unfold nmp_put. rewrite E. cbn [mbind res_bind]. eexists. split; [done|]. cbn. rewrite Hn.
  split; [|done]. split; [lmem|done].
Qed.

(** The first null: the valid rows before it are written out. *)
Lemma nmp_init_spec ps w l op : nullmask_pages_repr ps w l → nmp_has_nulls w = false → op_ok op →
  false ∈ op_bits op →
  ∃ w', (w ← nmp_put (BitMany true (nmp_len w)) (mkNullmaskPages (nmp_nulls w) true (nmp_len w)); nmp_put op w)
          = Ok w' ∧ nullmask_pages_repr ps w' (l ++ op_bits op).
Proof.
  unfold nullmask_pages_repr. intros Hr Hn Hok Hin. rewrite Hn in Hr. destruct Hr as [-> Hr].
  destruct (bitmask_pages_spec prepr ps _ _ (BitMany true (nmp_len w)) Hr I) as (nulls & E & Hnulls).
  assert (nmp_put (BitMany true (nmp_len w)) (mkNullmaskPages (nmp_nulls w) true (nmp_len w))
    = Ok (mkNullmaskPages nulls true (nmp_len w))) as -> by (unfold nmp_put; cbn [nmp_nulls]; by rewrite E).
  cbn [mbind res_bind].
  destruct (bitmask_pages_spec prepr ps _ _ op Hnulls Hok) as (nulls' & E' & Hnulls').
  unfold nmp_put. cbn [nmp_nulls nmp_has_nulls nmp_len]. rewrite E'. cbn [mbind res_bind].
  eexists. split; [done|]. cbn. split; [lmem|done].
Qed.

(** A write that first checks whether its bits are all valid. *)
Lemma nmp_checked_spec ps w l op n r : nullmask_pages_repr ps w l → op_ok op → length (op_bits op) = n →
  r = Ok (if bool_decide (op_bits op = replicate n true) then Some n else None) →
  ∃ w', nmp_write_checked r op w = Ok w' ∧ nullmask_pages_repr ps w' (l ++ op_bits op).
Proof.
  intros Hr Hok Hlen ->. unfold nmp_write_checked, check_bitmask_presence.
  destruct (nmp_has_nulls w) eqn:Hn; cbn [mbind res_bind].
  { destruct (nmp_put_spec ps w l op Hr Hn Hok) as (w' & E & Hr' & _). by exists w'. }
  case_bool_decide as Hd; cbn [mbind res_bind].
  - eexists. split; [done|]. unfold nullmask_pages_repr in *. cbn. rewrite Hn in Hr. destruct Hr as [-> Hr].
    rewrite Hd. by rewrite <-replicate_add.
  - destruct (nmp_init_spec ps w l op Hr Hn Hok) as (w' & E & Hr').
    { apply not_all_true. by rewrite Hlen. }
    exists w'. split; [|done]. destruct (nmp_put (BitMany true _) _); cbn in E |- *; done.
Qed.

Lemma nullmask_pages_spec ps : BitmaskWriterLaws (NullmaskPageWriter P) (nullmask_pages_repr ps).
Proof.
  intros w l op Hr Hok. unfold bitmask_write, nullmask_page_writer.
  destruct op as [data offset len|data hint indexes|data ranges|val count].
  - eapply nmp_checked_spec; [done|done|by apply part_length|]. rewrite all_valid_spec by done. cbn.
    by case_bool_decide.
  - destruct Hok as [Hh Hf]. eapply nmp_checked_spec; [done|done|by apply picks_length|].
    by rewrite all_indexes_valid_spec.
  - eapply nmp_checked_spec; [done|done|by apply ranges_bits_length|]. by rewrite all_ranges_valid_spec.
  - destruct (count =? 0)%nat eqn:Ec.
    { apply Nat.eqb_eq in Ec as ->. exists w. split; [done|]. cbn. by rewrite app_nil_r. }
    destruct (nmp_has_nulls w) eqn:Hn.
    { destruct (nmp_put_spec ps w l (BitMany val count) Hr Hn I) as (w' & E & Hr' & _). by exists w'. }
    destruct val.
    + eexists. split; [done|]. unfold nullmask_pages_repr in *. cbn. rewrite Hn in Hr. destruct Hr as [-> Hr].
      by rewrite <-replicate_add.
    + apply (nmp_init_spec ps w l (BitMany false count)); try done. apply Nat.eqb_neq in Ec.
      destruct count; [done|]. simpl. lmem.
Qed.
#[export] Instance nullmask_pages_laws ps : BitmaskWriterLaws (NullmaskPageWriter P) (nullmask_pages_repr ps).
Proof. apply nullmask_pages_spec. Qed.

Lemma nullmask_pages_new_repr sizes p : (0 < bitmask_page_size sizes)%nat → prepr p [] →
  nullmask_pages_repr (bitmask_page_size sizes) (nullmask_pages_new sizes p) [].
Proof. intros. split; [done|]. by apply bitmask_pages_new_repr. Qed.

(** The pages of the mask are there exactly when a null was written; the last page is empty and
    carries the number of rows when there is none. *)
Lemma nullmask_finish_spec ps w l : nullmask_pages_repr ps w l →
  ∃ p log, nullmask_pages_finish w = Ok p ∧ prepr p log ∧
    if decide (false ∈ l) then
      ∃ chunks mlog, log = mlog ++ [(0%nat, [])] ∧ Forall2 bit_page chunks mlog ∧ mjoin chunks = l ∧
        aligned chunks ∧ chunks ≠ [] ∧ Forall (λ c, (0 < length c)%nat) chunks
    else log = [(length l, [])].
Proof.
  unfold nullmask_pages_repr, nullmask_pages_finish. intros Hr. destruct (nmp_has_nulls w) eqn:Hn.
  - destruct Hr as [Hin Hr]. destruct (bp_finish_spec prepr _ _ _ Hr) as (p & chunks & log & -> & Hp & Hf & Hj & Ha & Hne & Hpos).
    cbn [mbind res_bind]. destruct (write_page_spec p log 0 [] Hp) as (p' & -> & Hp').
    exists p', (log ++ [(0%nat, [])]). split; [done|]. split; [done|].
    rewrite decide_True by done. exists chunks, log. split; [done|]. split; [done|]. split; [done|].
    split; [done|]. split; [|done]. rewrite Hne. intros ->. by apply elem_of_nil in Hin.
  - destruct Hr as [-> Hr]. destruct (bp_finish_spec prepr _ _ _ Hr) as (p & chunks & log & -> & Hp & Hf & Hj & Ha & Hne & _).
    rewrite (proj2 Hne eq_refl) in Hf. inversion Hf; subst.
    cbn [mbind res_bind]. destruct (write_page_spec p [] (nmp_len w) [] Hp) as (p' & -> & Hp').
    exists p', [(nmp_len w, [])]. split; [done|]. split; [done|].
    rewrite decide_False by (intros [? _]%elem_of_replicate; done). by rewrite length_replicate.
Qed.
End nullmask_pages.

(** ** The stored form of a buffer *)

Definition page_key (id : TableId) (buffer page : nat) : bytes :=
  table_key id (Key_Page (Z.of_nat buffer mod 2 ^ 16) (Z.of_nat page mod 2 ^ 32)).
Definition offsets_key (id : TableId) (buffer : nat) : bytes :=
  table_key id (Key_Offsets (Z.of_nat buffer mod 2 ^ 16)).

Lemma table_key_eq id k k' : table_key id k = table_key id k' ↔ serialize k [] = serialize k' [].
Proof.
  unfold table_key. rewrite (serialize_app k id), (serialize_app k' id). split; [by intros ?%app_inv_head|by intros ->].
Qed.
Lemma be_bytes_inj n x y : 0 <= x < 256 ^ Z.of_nat n → 0 <= y < 256 ^ Z.of_nat n →
  be_bytes n x = be_bytes n y → x = y.
Proof. intros Hx Hy E. rewrite <-(from_be_bytes_be n x), <-(from_be_bytes_be n y) by done. by f_equal. Qed.

(** Pages of one buffer have distinct keys as long as their number fits 32 bits. *)
Lemma page_key_inj id b b' j j' : page_key id b j = page_key id b' j' ↔
  Z.of_nat b mod 2 ^ 16 = Z.of_nat b' mod 2 ^ 16 ∧ Z.of_nat j mod 2 ^ 32 = Z.of_nat j' mod 2 ^ 32.
Proof.
  unfold page_key. rewrite table_key_eq. cbn [serialize]. split; [|by intros [-> ->]].
  intros [Eb Ej]%app_inj_1; [|by rewrite !length_app, !be_bytes_length].
  apply app_inj_1 in Eb as [_ Eb]; [|done].
  split; (eapply be_bytes_inj; [..|exact Eb || exact Ej]; apply Z.mod_pos_bound; lia).
Qed.
Lemma page_key_offsets id b j b' : page_key id b j ≠ offsets_key id b'.
Proof. unfold page_key, offsets_key. by rewrite table_key_eq. Qed.
Lemma offsets_key_inj id b b' : offsets_key id b = offsets_key id b' ↔ Z.of_nat b mod 2 ^ 16 = Z.of_nat b' mod 2 ^ 16.
Proof.
  unfold offsets_key. rewrite table_key_eq. cbn [serialize]. split; [|by intros ->].
  intros [_ E]%app_inj_1; [|done]. eapply be_bytes_inj; [..|exact E]; apply Z.mod_pos_bound; lia.
Qed.

Section store.
Context `{KvStoreLaws M C} (id : TableId).
Implicit Type s : M.

(** The stored pages of a buffer and the cumulative item counts in its offsets entry. *)
Definition pages_stored s (buffer : nat) (log : page_log) : Prop :=
  ∀ j page, log !! j = Some page → kv_get s (page_key id buffer j) = Some page.2.
Definition buffer_stored s (buffer : nat) (log : page_log) : Prop :=
  kv_get s (offsets_key id buffer) = Some (mjoin (u32_bytes <$> cumul 0 log.*1)) ∧ pages_stored s buffer log.

(** Only pages of the buffer differ. *)
Definition page_frame (buffer : nat) s0 s : Prop :=
  ∀ k, (∀ j, k ≠ page_key id buffer j) → kv_get s k = kv_get s0 k.

(** [s0] is the store before the operations considered. *)
Definition page_store_repr (buffer : nat) s0 (w : M * BufferPageWriter) (log : page_log) : Prop :=
  factory_for id (pw_key w.2) ∧ pw_buffer_index w.2 = buffer ∧
  pw_page_offsets w.2 = (λ o, o mod 2 ^ 32) <$> cumul 0 log.*1 ∧
  (Z.of_nat (length log) <= 2 ^ 32 → pages_stored w.1 buffer log) ∧ page_frame buffer s0 w.1.

Lemma pages_stored_app s buffer log page : pages_stored s buffer (log ++ [page]) ↔
  pages_stored s buffer log ∧ kv_get s (page_key id buffer (length log)) = Some page.2.
Proof.
  unfold pages_stored. split.
  - intros Hs. split.
    + intros j p Hj. apply Hs. by apply lookup_app_l_Some.
    + apply Hs. by rewrite lookup_app_r, Nat.sub_diag by lia.
  - intros [Hs Hl] j p [Hj|[Hj Hp]]%lookup_app_Some; [by apply Hs|].
    destruct (j - length log)%nat eqn:E; [|done]. injection Hp as ->.
    by replace j with (length log) by lia.
Qed.

#[export] Instance page_store_laws buffer s0 : PageWriterLaws (M * BufferPageWriter) (page_store_repr buffer s0).
Proof.
  intros [s p] log n bs (Hf & Hb & Ho & Hs & Hfr). cbn [fst snd] in *.
  unfold write_page, buffer_page_writer. unfold factory_page.
  destruct (factory_make _ _) as [key f] eqn:Ef.
  pose proof (factory_make_spec id (pw_key p)
    (Key_Page (Z.of_nat (pw_buffer_index p) mod 2 ^ 16) (Z.of_nat (pw_num_pages p) mod 2 ^ 32)) Hf) as Hk.
  rewrite Ef in Hk. cbn [fst snd] in Hk. destruct Hk as [-> Hf'].
  assert (pw_num_pages p = length log) as Hnp.
  { unfold pw_num_pages. rewrite Ho, length_fmap, cumul_length, length_fmap. lia. }
  unfold kv_write, store_kv_write. cbn [mbind res_bind].
  unfold pw_num_items. rewrite Ho, fmap_last, last_cumul. cbn [fmap option_fmap option_map mbind res_bind].
  rewrite Hb, Hnp. fold (page_key id buffer (length log)).
  eexists. split; [done|]. split_and!; cbn [fst snd pw_key pw_buffer_index pw_page_offsets]; [done|done|..].
  - rewrite fmap_app, cumul_app, fmap_app. f_equal. cbn. f_equal.
    rewrite Z.add_0_l. by rewrite Zplus_mod_idemp_l.
  - rewrite length_app. cbn [length]. intros Hl. rewrite pages_stored_app. rewrite kv_get_put, decide_True by done.
    split; [|done]. intros j page Hj. rewrite kv_get_put, decide_False; [apply (Hs ltac:(lia) _ _ Hj)|].
    intros [_ E]%page_key_inj. apply lookup_lt_Some in Hj. rewrite !Z.mod_small in E by lia. lia.
  - intros k Hk. rewrite kv_get_put, decide_False by auto. by apply Hfr.
Qed.

Lemma page_store_new f buffer s : factory_for id f → page_store_repr buffer s (s, page_writer_new f buffer) [].
Proof. intros. split_and!; try done. Qed.

Lemma page_writer_finish_spec buffer s0 w log : page_store_repr buffer s0 w log →
  total log.*1 <= u32_max → Z.of_nat (length log) <= 2 ^ 32 →
  ∃ s, page_writer_finish w = Ok s ∧ buffer_stored s buffer log ∧
    ∀ k, (∀ j, k ≠ page_key id buffer j) → k ≠ offsets_key id buffer → kv_get s k = kv_get s0 k.
Proof.
  destruct w as [s p]. intros (Hf & Hb & Ho & Hs & Hfr) Ht Hl. cbn [fst snd] in *.
  unfold page_writer_finish, kv_write, store_kv_write, factory_offsets.
  pose proof (factory_make_spec id (pw_key p) (Key_Offsets (Z.of_nat (pw_buffer_index p) mod 2 ^ 16)) Hf) as [Hk _].
  rewrite Hk, Hb. fold (offsets_key id buffer). eexists. split; [done|].
  assert ((λ o, o mod 2 ^ 32) <$> cumul 0 log.*1 = cumul 0 log.*1) as Ecm.
  { rewrite <-(list_fmap_id (cumul 0 _)) at 2. apply list_fmap_ext. intros i o Hi. cbn.
    destruct (decide (i <= length log.*1)%nat) as [Hle|Hgt].
    - rewrite cumul_lookup in Hi by done. injection Hi as <-. pose proof (total_take i log.*1).
      unfold u32_max in *. rewrite Z.mod_small; lia.
    - apply lookup_lt_Some in Hi. rewrite cumul_length in Hi. lia. }
  split; [split|].
  - rewrite kv_get_put, decide_True by done. by rewrite Ho, Ecm.
  - intros j page Hj. rewrite kv_get_put, decide_False by (by intros ?%symmetry%page_key_offsets). by apply Hs.
  - intros k Hk1 Hk2. rewrite kv_get_put, decide_False by auto. by apply Hfr.
Qed.
End store.
