(* ===== verification/Pagination.v ===== *)
(** * Pagination: which parts of which pages a ranged read needs

    Models crates/storage/src/table/read/pagination.rs.  Page offsets are the cumulative
    item counts of the pages of a buffer; [select] is the reference: the items a range
    list names.  A pagination is correct for pages [pages] and a result when reading its parts page
    by page yields the result ([plan_ok]); both kinds of pagination are. *)

From S2P Require Import Prelude Ranges Bits Offsets PagesSpec.

Record PageRead : Type := mkPageRead {
  pr_page_index : nat;
  pr_write_offset : nat;
  pr_ranges_start : nat;
  pr_ranges_end : nat
}.

Inductive Pagination : Type :=
| Ranged (pages : list PageRead) (ranges : list range) (page_offsets : list Z)
| PagedAll (page_offsets : list Z) (all : range).

(** ** build_page_reads *)

(** The inner [while let]: the ranges of one page, from the [idx]-th one on.  When the
    range does not end with its part in the page, the page does. *)
Fixpoint page_ranges (page : range) (idx : nat) (ranges : list range) (write_offset slice_end : nat)
    : res (nat * nat * nat * list range) :=
  match ranges with
  | [] => Ok (slice_end, write_offset, idx, [])
  | r :: rest =>
      if rend page <=? rstart r then Ok (slice_end, write_offset, idx, ranges)
      else
        let beg := Z.max (rstart page) (rstart r) in
        let end_ := Z.min (rend page) (rend r) in
        if negb (beg <? end_) then Panic "assertion failed: beg < end"
        else
          let write_offset := (write_offset + Z.to_nat (end_ - beg))%nat in
          if end_ =? rend r then
            if end_ =? rend page then Ok (S idx, write_offset, S idx, rest)
            else page_ranges page (S idx) rest write_offset (S idx)
          else Ok (S idx, write_offset, idx, ranges)
  end.

(** The loop over the pages; [offsets] starts with the offset of page [page_index]. *)
Fixpoint page_reads_loop (page_index : nat) (offsets : list Z) (idx : nat) (ranges : list range)
    (write_offset : nat) (reads : list PageRead) : res (list PageRead) :=
  match offsets with
  | start :: ((end_ :: _) as offsets') =>
      match ranges with
      | [] => Ok reads
      | r :: _ =>
          if rstart r <? end_ then
            '(slice_end, wo, idx', ranges') ←
              page_ranges (Range start end_) idx ranges write_offset (S idx);
            page_reads_loop (S page_index) offsets' idx' ranges' wo
              (reads ++ [mkPageRead page_index write_offset idx slice_end])
          else page_reads_loop (S page_index) offsets' idx ranges write_offset reads
      end
  | _ =>
      match ranges with
      | [] => Ok reads
      | _ => Panic "assertion failed: ranges.peek().is_none()"
      end
  end.

Definition build_page_reads (page_offsets : list Z) (ranges : list range) : res (list PageRead) :=
  match last page_offsets with
  | None => Panic "called `Option::unwrap()` on a `None` value"
  | Some end_ =>
      _ ← ensure (list_end ranges <=? end_) (EMsg "range list is out of bounds");
      page_reads_loop 0 page_offsets 0 ranges 0 []
  end.

(** ** Pagination *)

Definition pagination_new (page_offsets : list Z) (ranges : option (list range)) : res Pagination :=
  match ranges with
  | Some ranges => pages ← build_page_reads page_offsets ranges; Ok (Ranged pages ranges page_offsets)
  | None =>
      first ← at_ page_offsets 0;
      match last page_offsets with
      | None => Panic "called `Option::unwrap()` on a `None` value"
      | Some end_ => Ok (PagedAll page_offsets (Range first end_))
      end
  end.

Definition num_pages (p : Pagination) : nat :=
  match p with
  | Ranged pages _ _ => length pages
  | PagedAll page_offsets _ => (length page_offsets - 1)%nat
  end.

Definition range_len (r : range) : nat := Z.to_nat (rend r - rstart r).

Definition num_items (p : Pagination) : nat :=
  match p with
  | Ranged _ ranges _ => sum_list (range_len <$> ranges)
  | PagedAll _ all => Z.to_nat (rend all)
  end.

Definition page_index (p : Pagination) (seq : nat) : res nat :=
  match p with
  | Ranged pages _ _ => read ← at_ pages seq; Ok (pr_page_index read)
  | PagedAll page_offsets _ =>
      if (seq <? length page_offsets - 1)%nat then Ok seq else Panic "assertion failed: seq < page_offsets.len() - 1"
  end.

Definition page_offsets_of (p : Pagination) (seq : nat) : res (list Z * nat) :=
  match p with
  | Ranged pages _ page_offsets => read ← at_ pages seq; Ok (page_offsets, pr_page_index read)
  | PagedAll page_offsets _ => Ok (page_offsets, seq)
  end.
Definition page_range (p : Pagination) (seq : nat) : res range :=
  '(offsets, idx) ← page_offsets_of p seq;
  a ← at_ offsets idx;
  b ← at_ offsets (idx + 1);
  Ok (Range a b).

Definition page_write_offset (p : Pagination) (seq : nat) : res nat :=
  match p with
  | Ranged pages _ _ => read ← at_ pages seq; Ok (pr_write_offset read)
  | PagedAll page_offsets _ => o ← at_ page_offsets seq; Ok (Z.to_nat o)
  end.

(** The part of range [r] in a page, relative to the page ([saturating_sub] for the start,
    a wrapping subtraction for the end). *)
Definition in_page (page r : range) : nrange :=
  (Z.to_nat (Z.max 0 (rstart r - rstart page)), Z.to_nat ((Z.min (rend r) (rend page) - rstart page) mod 2 ^ 32)).

Definition ranges_of (p : Pagination) (seq : nat) : res (list range * range) :=
  match p with
  | Ranged pages ranges page_offsets =>
      read ← at_ pages seq;
      rs ← subslice ranges (pr_ranges_start read) (pr_ranges_end read);
      a ← at_ page_offsets (pr_page_index read);
      b ← at_ page_offsets (pr_page_index read + 1);
      Ok (rs, Range a b)
  | PagedAll page_offsets all =>
      a ← at_ page_offsets seq;
      b ← at_ page_offsets (seq + 1);
      Ok ([all], Range a b)
  end.
Definition iter_ranges (p : Pagination) (seq : nat) : res (list nrange) :=
  rp ← ranges_of p seq;
  Ok (@fmap list _ _ _ (in_page rp.2) rp.1).

(** ** The reference *)

Section select.
Context {A : Type}.
Implicit Type l : list A.

(** The items named by a range list. *)
Definition select (ranges : list range) l : list A :=
  mjoin ((λ r, part (Z.to_nat (rstart r)) (range_len r) l) <$> ranges).
Definition select_opt (ranges : option (list range)) l : list A := from_option (λ rs, select rs l) l ranges.

(** The items of a page that a read takes. *)
Definition piece (page : list A) (parts : list nrange) : list A := mjoin ((λ r, part r.1 (rlen r) page) <$> parts).

(** A pagination is a plan for reading [result] out of the pages. *)
Record plan_ok (p : Pagination) (pages : list (list A)) (pieces : list (list A)) : Prop := mkPlanOk {
  plan_length : length pieces = num_pages p;
  plan_items : num_items p = length (mjoin pieces);
  plan_step seq c : pieces !! seq = Some c →
    page_write_offset p seq = Ok (length (mjoin (take seq pieces))) ∧
    ∃ pi page parts, page_index p seq = Ok pi ∧ pages !! pi = Some page ∧
      page_range p seq = Ok (Range (total (take pi (length <$> pages))) (total (take pi (length <$> pages)) + Z.of_nat (length page))) ∧
      iter_ranges p seq = Ok parts ∧ piece page parts = c ∧
      Forall (λ r, (r.1 <= r.2 <= length page)%nat) parts
}.

(** ** Ranges relative to a position

    [sel base R l]: what the ranges [R] name in [l], the items from position [base] on. *)
Definition sel (base : Z) (R : list range) l : list A :=
  mjoin ((λ r, part (Z.to_nat (Z.max 0 (rstart r - base))) (Z.to_nat (rend r - Z.max base (rstart r))) l) <$> R).
Definition wfb (base : Z) (R : list range) : Prop :=
  match R with [] => True | r :: R => rstart r < rend r ∧ base < rend r ∧ wf (rend r) R end.

Lemma sel_cons base r R l : sel base (r :: R) l =
  part (Z.to_nat (Z.max 0 (rstart r - base))) (Z.to_nat (rend r - Z.max base (rstart r))) l ++ sel base R l.
Proof. done. Qed.

Lemma part_skip (p l : list A) o n : part (length p + o) n (p ++ l) = part o n l.
Proof. unfold part. by rewrite drop_app_add. Qed.
Lemma part_split (p l : list A) o n : (o <= length p)%nat → (length p <= o + n)%nat →
  part o n (p ++ l) = drop o p ++ part 0 (o + n - length p) l.
Proof.
  intros Ho Hn. unfold part. rewrite drop_app_le, drop_0 by done.
  rewrite take_app_ge by (rewrite length_drop; lia). rewrite length_drop. do 2 f_equal. lia.
Qed.

Lemma sel_skip p base R l : 0 <= base → wf (base + Z.of_nat (length p)) R →
  sel base R (p ++ l) = sel (base + Z.of_nat (length p)) R l.
Proof.
  intros Hb. generalize (Z.le_refl (base + Z.of_nat (length p))).
  generalize (base + Z.of_nat (length p)) at 2 3. intros lo Hlo Hwf. revert lo Hlo Hwf.
  induction R as [|r R IH]; intros lo Hlo Hwf; [done|]. destruct Hwf as [Hr Hwf].
  rewrite !sel_cons, (IH (rend r)) by (done || lia). f_equal.
  replace (Z.to_nat (Z.max 0 (rstart r - base))) with
    (length p + Z.to_nat (Z.max 0 (rstart r - (base + Z.of_nat (length p)))))%nat by lia.
  rewrite part_skip. f_equal. lia.
Qed.
Lemma wf_wfb lo base R : wf lo R → base <= lo → wfb base R.
Proof. destruct R as [|r R]; [done|]. cbn. intros [? ?] ?. split_and!; [lia|lia|done]. Qed.
Lemma wfb_wf base R : wfb base R → match R with [] => True | r :: _ => base <= rstart r end → wf base R.
Proof. destruct R as [|r R]; [done|]. cbn. intros (? & ? & ?) ?. split; [lia|done]. Qed.

Section page.
Context (base : Z) (p : list A).
Hypothesis base_ok : 0 <= base.
Hypothesis page_nonempty : (0 < length p)%nat.
Hypothesis page_end : base + Z.of_nat (length p) <= u32_max.
Let page : range := Range base (base + Z.of_nat (length p)).

Lemma in_page_piece r : base < rend r → rstart r < base + Z.of_nat (length p) → rstart r < rend r →
  let '(a, b) := in_page page r in
  (a <= b <= length p)%nat ∧ a = Z.to_nat (Z.max base (rstart r) - base) ∧
  b = Z.to_nat (Z.min (rend r) (base + Z.of_nat (length p)) - base) ∧
  (b - a = Z.to_nat (Z.min (base + Z.of_nat (length p)) (rend r) - Z.max base (rstart r)))%nat.
Proof.
  intros. unfold in_page, page. cbn [rstart rend]. unfold u32_max in *. rewrite Z.mod_small by lia. lia.
Qed.

Lemma page_ranges_spec R : ∀ idx wo hi, wfb base R →
  ∃ taken k hi', page_ranges page idx R wo hi
      = Ok (hi', (wo + length (piece p (in_page page <$> taken)))%nat, (idx + k)%nat, drop k R) ∧
    (taken = [] → hi' = hi) ∧ (taken ≠ [] → hi' = (idx + length taken)%nat) ∧
    taken = take (length taken) R ∧ (k <= length taken)%nat ∧
    (∀ r, head R = Some r → rstart r < base + Z.of_nat (length p) → taken ≠ []) ∧
    (∀ l, sel base R (p ++ l) = piece p (in_page page <$> taken) ++ sel (base + Z.of_nat (length p)) (drop k R) l) ∧
    wfb (base + Z.of_nat (length p)) (drop k R) ∧
    Forall (λ r, (r.1 <= r.2 <= length p)%nat) (in_page page <$> taken).
Proof.
  induction R as [|r R IH]; intros idx wo hi Hwf; cbn [page_ranges].
  { exists [], 0%nat, hi. rewrite !Nat.add_0_r. split_and!; done. }
  destruct Hwf as (Hr & Hbr & Hwf). cbn [rend rstart page]. case_if; zbool.
  { exists [], 0%nat, hi. rewrite !Nat.add_0_r. split_and!; try done.
    - intros r' [= <-] Hlt. lia.
    - intros l. cbn [fmap list_fmap piece mjoin list_join app]. apply sel_skip; [done|]. split; [lia|done].
    - split_and!; [lia|lia|done]. }
  pose proof (in_page_piece r Hbr Heqb Hr) as Hin. destruct (in_page page r) as [a b] eqn:Ep.
  destruct Hin as (Hab & Ha & Hb & Hlen).
  rewrite (proj2 (Z.ltb_lt _ _)) by lia. cbn [negb].
  assert (∀ t, length (piece p ((a, b) :: t))
    = (Z.to_nat (Z.min (base + Z.of_nat (length p)) (rend r) - Z.max base (rstart r)) + length (piece p t))%nat) as Hpl.
  { intros t. unfold piece. cbn [fmap list_fmap]. rewrite join_cons, length_app. f_equal. cbn [fst snd].
    unfold rlen. cbn [fst snd]. rewrite part_length; lia. }
  assert (∀ t x, piece p ((a, b) :: t) ++ x = part a (b - a) p ++ piece p t ++ x) as Hpa.
  { intros t x. unfold piece. cbn [fmap list_fmap]. by rewrite join_cons, <-app_assoc. }
  case_if; zbool.
  - assert (∀ l, sel base (r :: R) (p ++ l) = part a (b - a) p ++ sel base R (p ++ l)) as Hsel.
    { intros l. rewrite sel_cons. f_equal. rewrite part_app_l by lia. f_equal; lia. }
    case_if; zbool.
    + exists [r], 1%nat, (S idx). cbn [fmap list_fmap length]. rewrite Ep, Hpl.
      split; [cbn; rewrite !Nat.add_1_r, Nat.add_0_r; done|]. split_and!; try done; try lia.
      * intros l. rewrite Hsel, Hpa. cbn [drop]. f_equal. cbn. apply sel_skip; [done|]. by replace (base + _) with (rend r) by lia.
      * cbn [drop]. apply (wf_wfb (rend r)); [done|lia].
      * repeat constructor; cbn; lia.
    + destruct (IH (S idx) (wo + Z.to_nat (Z.min (base + Z.of_nat (length p)) (rend r) - Z.max base (rstart r)))%nat (S idx))
        as (taken & k & hi' & E & E1 & E2 & E3 & E4 & E5 & E6 & E7 & E8).
      { apply (wf_wfb (rend r)); [done|lia]. }
      exists (r :: taken), (S k), hi'. cbn [fmap list_fmap length]. rewrite Ep, Hpl.
      split; [rewrite E; f_equal; repeat (f_equal; try lia)|]. split_and!; try done; try lia.
      * intros _. destruct taken; [rewrite E1 by done; simpl; lia|rewrite E2 by done; simpl; lia].
      * cbn [take]. by f_equal.
      * intros l. rewrite Hsel, Hpa, E6. done.
      * constructor; [cbn; lia|done].
  - exists [r], 0%nat, (S idx). cbn [fmap list_fmap length]. rewrite Ep, Hpl.
    split; [cbn; rewrite !Nat.add_0_r; done|]. split_and!; try done; try lia.
    + intros l. rewrite Hpa, !sel_cons. cbn [drop piece fmap list_fmap mjoin list_join app].
      rewrite sel_cons, part_split by lia. rewrite <-app_assoc. f_equal.
      * unfold part. rewrite take_ge by (rewrite length_drop; lia). f_equal. lia.
      * f_equal; [f_equal; lia|]. apply sel_skip; [done|]. eapply wf_weaken; [|exact Hwf]. lia.
    + cbn [drop]. split_and!; [done|lia|done].
    + repeat constructor; cbn; lia.
Qed.
End page.

(** Pages of a stored buffer: none is empty, apart from the last one of a null mask. *)
Definition pages_ok (pages : list (list A)) : Prop :=
  ∃ front tail, pages = front ++ tail ∧ Forall (λ p, (0 < length p)%nat) front ∧ Forall (λ p, p = []) tail.

Abbreviation counts pages := (@length A <$> pages).

Lemma page_reads_loop_nil pi offsets idx wo reads : page_reads_loop pi offsets idx [] wo reads = Ok reads.
Proof. by destruct offsets as [|? [|? ?]]. Qed.

Lemma total_empty (tail : list (list A)) : Forall (λ p, p = []) tail → total (counts tail) = 0.
Proof. induction 1 as [|p tail -> _ IH]; [done|]. unfold total in *. cbn. lia. Qed.

(** What a read of the plan stands for, given the pages from number [pi] and position [base]. *)
Definition read_ok (ranges : list range) (pi : nat) (base : Z) (pages : list (list A)) (wo : nat)
    (pieces : list (list A)) (seq : nat) (read : PageRead) : Prop :=
  ∃ k page taken, pages !! k = Some page ∧ pr_page_index read = (pi + k)%nat ∧
    pr_write_offset read = (wo + length (mjoin (take seq pieces)))%nat ∧
    subslice ranges (pr_ranges_start read) (pr_ranges_end read) = Ok taken ∧
    let b := base + total (take k (counts pages)) in
    let parts := in_page (Range b (b + Z.of_nat (length page))) <$> taken in
    pieces !! seq = Some (piece page parts) ∧ Forall (λ r, (r.1 <= r.2 <= length page)%nat) parts.

Lemma total_cons n lens : total (n :: lens) = Z.of_nat n + total lens.
Proof. unfold total. cbn. lia. Qed.

Lemma read_ok_next ranges pi base p pages wo pieces seq read :
  read_ok ranges (S pi) (base + Z.of_nat (length p)) pages wo pieces seq read →
  read_ok ranges pi base (p :: pages) wo pieces seq read.
Proof.
  intros (k & page & taken & E1 & E2 & E3 & E4 & E5 & E6). exists (S k), page, taken.
  cbn [fmap list_fmap take]. rewrite total_cons, Z.add_assoc. split_and!; try done. lia.
Qed.
Lemma read_ok_later ranges pi base pages wo c pieces seq read :
  read_ok ranges pi base pages (wo + length c) pieces seq read →
  read_ok ranges pi base pages wo (c :: pieces) (S seq) read.
Proof.
  intros (k & page & taken & E1 & E2 & E3 & E4 & E5 & E6). exists k, page, taken. split_and!; try done.
  cbn [take]. rewrite join_cons, length_app. lia.
Qed.

Lemma page_reads_loop_spec ranges pages : ∀ pi base idx wo reads, pages_ok pages →
  0 <= base → base + total (counts pages) <= u32_max → wfb base (drop idx ranges) →
  Forall (λ r, rend r <= base + total (counts pages)) (drop idx ranges) →
  ∃ new pieces, page_reads_loop pi (cumul base (counts pages)) idx (drop idx ranges) wo reads = Ok (reads ++ new) ∧
    length pieces = length new ∧ mjoin pieces = sel base (drop idx ranges) (mjoin pages) ∧
    ∀ seq read, new !! seq = Some read → read_ok ranges pi base pages wo pieces seq read.
Proof.
  intros pi base idx wo reads (front & tail & -> & Hf & Ht). revert pi base idx wo reads.
  induction Hf as [|p front Hp Hf IH]; intros pi base idx wo reads Hb Hu Hwf Hend.
  { assert (drop idx ranges = []) as ->.
    { destruct (drop idx ranges) as [|r R]; [done|]. destruct Hwf as (_ & ? & _).
      apply Forall_cons in Hend as [He _]. cbn [app] in *. rewrite total_empty in He by done. lia. }
    exists [], []. rewrite app_nil_r, page_reads_loop_nil. done. }
  cbn [app fmap list_fmap] in *. rewrite total_cons in *. fold (counts (front ++ tail)) in *.
  pose proof (total_nonneg (counts (front ++ tail))) as Hnn.
  set (b' := base + Z.of_nat (length p)) in *.
  assert (page_reads_loop pi (cumul base (length p :: counts (front ++ tail))) idx (drop idx ranges) wo reads =
    match drop idx ranges with
    | [] => Ok reads
    | r :: _ =>
        if rstart r <? b' then
          '(slice_end, wo', idx', ranges') ← page_ranges (Range base b') idx (drop idx ranges) wo (S idx);
          page_reads_loop (S pi) (cumul b' (counts (front ++ tail))) idx' ranges' wo'
            (reads ++ [mkPageRead pi wo idx slice_end])
        else page_reads_loop (S pi) (cumul b' (counts (front ++ tail))) idx (drop idx ranges) wo reads
    end) as ->.
  { destruct (counts (front ++ tail)); done. }
  destruct (drop idx ranges) as [|r R] eqn:ER.
  { exists [], []. rewrite app_nil_r. done. }
  destruct (rstart r <? b') eqn:Hlt; zbool.
  - destruct (page_ranges_spec base p Hb Hp ltac:(lia) (r :: R) idx wo (S idx) Hwf)
      as (taken & k & hi & E0 & _ & Ehi & Etk & Hk & Hne & Hsel & Hwf' & Hbd).
    specialize (Ehi (Hne r eq_refl Hlt)). subst hi. fold b' in E0, Hsel, Hwf', Hbd. rewrite E0. cbn [mbind res_bind].
    rewrite <-ER, drop_drop in Hwf'. rewrite <-ER, drop_drop.
    set (c := piece p (in_page (Range base b') <$> taken)) in *.
    destruct (IH (S pi) b' (idx + k)%nat (wo + length c)%nat (reads ++ [mkPageRead pi wo idx (idx + length taken)]))
      as (new & pieces & E & E1 & E2 & E3); [lia|lia|done| |].
    { rewrite <-drop_drop, ER. apply Forall_drop. eapply Forall_impl; [exact Hend|]. cbn. lia. }
    exists (mkPageRead pi wo idx (idx + length taken) :: new), (c :: pieces). rewrite E, <-app_assoc.
    split; [done|]. split; [simpl; by f_equal|]. split.
    + rewrite (join_cons c), E2, (join_cons p), ER, (Hsel (mjoin (front ++ tail))). f_equal. by rewrite <-ER, drop_drop.
    + intros [|seq] read Hs; cbn in Hs.
      * injection Hs as <-. exists 0%nat, p, taken. cbn [pr_page_index pr_write_offset pr_ranges_start pr_ranges_end].
        assert (length taken <= length (r :: R))%nat as Hlt'. { rewrite Etk, length_take. lia. }
        assert (idx + length taken <= length ranges)%nat as Hll.
        { pose proof (f_equal length ER) as El. rewrite length_drop in El. cbn [length] in *. lia. }
        split_and!; try done; try (cbn; lia).
        -- rewrite subslice_part by lia. f_equal. unfold part. rewrite ER, Nat.add_comm, Nat.add_sub. done.
        -- cbn. unfold c. by rewrite Z.add_0_r.
        -- cbn. by rewrite Z.add_0_r.
      * apply read_ok_later, read_ok_next, E3, Hs.
  - destruct (IH (S pi) b' idx wo reads) as (new & pieces & E & E1 & E2 & E3); [lia|lia| |..].
    { rewrite ER. destruct Hwf as (? & ? & ?). split_and!; [done|lia|done]. }
    { rewrite ER. eapply Forall_impl; [exact Hend|]. cbn. lia. }
    rewrite ER in *. exists new, pieces. split; [done|]. split; [done|]. split.
    + rewrite E2, join_cons. symmetry. apply sel_skip; [done|]. destruct Hwf as (? & ? & ?). split; [unfold b' in *; lia|done].
    + intros seq read Hs. by apply read_ok_next, E3.
Qed.

Lemma counts_join (pages : list (list A)) : total (counts pages) = Z.of_nat (length (mjoin pages)).
Proof.
  induction pages as [|p pages IH]; [done|]. rewrite join_cons, length_app. cbn [fmap list_fmap].
  rewrite total_cons, Nat2Z.inj_add. by rewrite <-IH.
Qed.

Lemma sel_select lo R l : wf lo R → 0 <= lo → sel 0 R l = select R l.
Proof.
  revert lo. induction R as [|r R IH]; intros lo Hwf Hlo; [done|]. destruct Hwf as [Hr Hwf].
  rewrite sel_cons, (IH (rend r)) by (done || lia). unfold select. cbn [fmap list_fmap]. rewrite join_cons.
  do 2 f_equal; unfold range_len; lia.
Qed.
Lemma select_length lo R l : wf lo R → 0 <= lo → Forall (λ r, rend r <= Z.of_nat (length l)) R →
  length (select R l) = sum_list (range_len <$> R).
Proof.
  intros Hwf Hlo Hf. revert lo Hwf Hlo. induction Hf as [|r R Hr Hf IH]; intros lo Hwf Hlo; [done|].
  destruct Hwf as [Hr' Hwf]. unfold select in *. cbn [fmap list_fmap]. rewrite join_cons, length_app.
  cbn. f_equal; [apply part_length; unfold range_len; lia|]. apply (IH (rend r)); [done|lia].
Qed.

Lemma wf_ends lo R : wf lo R → R ≠ [] → lo < list_end R.
Proof.
  revert lo. induction R as [|r R IH]; intros lo Hwf Hne; [done|]. destruct Hwf as [Hr Hwf].
  destruct R as [|r' R]; [cbn in *; unfold list_end; simpl; lia|].
  specialize (IH (rend r) Hwf ltac:(done)). unfold list_end in *. cbn [last] in *. lia.
Qed.
Lemma list_end_forall lo R : wf lo R → Forall (λ r, rend r <= list_end R) R.
Proof.
  revert lo. induction R as [|r R IH]; intros lo Hwf; [constructor|]. destruct Hwf as [Hr Hwf].
  destruct R as [|r' R]; [constructor; [unfold list_end; simpl; lia|constructor]|].
  assert (list_end (r :: r' :: R) = list_end (r' :: R)) as -> by done.
  constructor; [|by eapply IH]. pose proof (wf_ends _ _ Hwf ltac:(done)). lia.
Qed.

Lemma ranged_plan pages ranges : pages_ok pages → total (counts pages) <= u32_max →
  wf 0 ranges → list_end ranges <= total (counts pages) →
  ∃ p pieces, pagination_new (cumul 0 (counts pages)) (Some ranges) = Ok p ∧ plan_ok p pages pieces ∧
    mjoin pieces = select ranges (mjoin pages).
Proof.
  intros Hp Hu Hwf He. pose proof (list_end_forall _ _ Hwf) as Hends.
  assert (Forall (λ r, rend r <= 0 + total (counts pages)) ranges) as Hends'.
  { eapply Forall_impl; [exact Hends|]. cbn. lia. }
  destruct (page_reads_loop_spec ranges pages 0 0 0 0 [] Hp) as (new & pieces & E & E1 & E2 & E3); try done.
  { by apply (wf_wfb 0). }
  rewrite drop_0 in *. rewrite (sel_select 0) in E2 by done.
  exists (Ranged new ranges (cumul 0 (counts pages))), pieces. split; [|split; [|done]].
  - cbn. unfold build_page_reads. rewrite last_cumul, Z.add_0_l. rewrite (proj2 (Z.leb_le _ _) He). cbn [ensure mbind res_bind].
    by rewrite E.
  - split; [done|..].
    + cbn. rewrite E2, (select_length 0); [done|done|done|]. rewrite <-counts_join. done.
    + intros seq c Hc. destruct (lookup_lt_is_Some_2 new seq) as [read Hread].
      { apply lookup_lt_Some in Hc. lia. }
      destruct (E3 seq read Hread) as (k & page & taken & F1 & F2 & F3 & F4 & F5 & F6).
      cbn [page_write_offset page_index page_range page_offsets_of iter_ranges ranges_of].
      unfold page_range, iter_ranges, ranges_of, page_offsets_of, page_write_offset, page_index.
      unfold at_ at 1. rewrite Hread. cbn [mbind res_bind]. split; [by rewrite F3|].
      pose proof (lookup_lt_Some _ _ _ F1) as Hk.
      assert (at_ new seq = Ok read) as -> by (unfold at_; by rewrite Hread). cbn [mbind res_bind].
      rewrite F4, F2. cbn [mbind res_bind]. rewrite !at_cumul by (rewrite length_fmap; lia). cbn [mbind res_bind Nat.add].
      assert (total (take (k + 1) (counts pages)) = total (take k (counts pages)) + Z.of_nat (length page)) as ->.
      { rewrite (take_S_lookup _ _ (length page)) by (by rewrite list_lookup_fmap, F1). rewrite total_app. unfold total; cbn. lia. }
      rewrite !Z.add_0_l in *. eexists k, page, _. split_and!; try done. rewrite Hc in F5. by injection F5.
Qed.

Lemma piece_whole page : piece page [(0%nat, length page)] = page.
Proof. unfold piece. cbn [fmap list_fmap]. rewrite join_one. unfold rlen. cbn [fst snd]. by rewrite Nat.sub_0_r, part_all. Qed.

Lemma all_plan pages : total (counts pages) <= u32_max →
  ∃ p, pagination_new (cumul 0 (counts pages)) None = Ok p ∧ plan_ok p pages pages.
Proof.
  intros Hu. exists (PagedAll (cumul 0 (counts pages)) (Range 0 (total (counts pages)))).
  split; [cbn; rewrite at_cumul by lia; cbn [mbind res_bind]; by rewrite last_cumul|]. split.
  - cbn. rewrite cumul_length, length_fmap. lia.
  - cbn. rewrite counts_join. lia.
  - intros seq c Hc. pose proof (lookup_lt_Some _ _ _ Hc) as Hs.
    cbn [page_write_offset page_index page_range page_offsets_of iter_ranges ranges_of].
    unfold page_range, iter_ranges, ranges_of, page_offsets_of. cbn [mbind res_bind].
    rewrite !at_cumul by (rewrite length_fmap; lia). cbn [mbind res_bind].
    rewrite cumul_length, length_fmap. rewrite (proj2 (Nat.ltb_lt _ _)) by lia.
    assert (total (take (seq + 1) (counts pages)) = total (take seq (counts pages)) + Z.of_nat (length c)) as ->.
    { rewrite (take_S_lookup _ _ (length c)) by (by rewrite list_lookup_fmap, Hc). rewrite total_app. unfold total; cbn. lia. }
    rewrite !Z.add_0_l. split.
    + f_equal. rewrite <-fmap_take, counts_join. lia.
    + pose proof (total_take seq (counts pages)). pose proof (total_take (seq + 1) (counts pages)) as Ht.
      rewrite (take_S_lookup _ _ (length c)), total_app in Ht by (by rewrite list_lookup_fmap, Hc).
      assert (total [length c] = Z.of_nat (length c)) as Etc by (unfold total; cbn; lia).
      exists seq, c, [(0%nat, length c)]. split_and!; try done.
      * cbn. do 2 f_equal. unfold in_page. cbn [rstart rend]. unfold u32_max in *.
        rewrite Z.mod_small by lia. f_equal; lia.
      * apply piece_whole.
      * repeat constructor; cbn; lia.
Qed.

(** Every pagination reads exactly the items its range list names. *)
Lemma pagination_spec pages ranges : pages_ok pages → total (counts pages) <= u32_max →
  (∀ rs, ranges = Some rs → wf 0 rs ∧ list_end rs <= total (counts pages)) →
  ∃ p pieces, pagination_new (cumul 0 (counts pages)) ranges = Ok p ∧ plan_ok p pages pieces ∧
    mjoin pieces = select_opt ranges (mjoin pages).
Proof.
  intros Hp Hu Hr. destruct ranges as [rs|].
  - destruct (Hr rs eq_refl). by apply ranged_plan.
  - destruct (all_plan pages Hu) as (p & E & Hplan). by exists p, pages.
Qed.
End select.
