(* ===== verification/TableRead.v ===== *)
(** * TableRead: reading the buffers of a table

    Models the buffer reads of crates/storage/src/table/read/reader.rs: the page offsets of a
    buffer, the parallel read of fixed-size values, the sequential read of bit masks over a
    cursor, null masks, and offsets with the ranges of values they name.

    Page offsets read once are memoised by the reader; as the store of a reader does not change,
    the memo always equals the read it stands for, and the model reads every time.
    [slice(0, n)] of an [OffsetBuffer] keeps [n + 1] offsets, that is [n] pages. *)

From S2P Require Import Prelude Bytes Data Kv Ranges Bits Offsets Pages Pagination.

(** A byte slice as items of [n] bytes ([typed_data]). *)
Fixpoint items_of (fuel n : nat) (data : bytes) : list bytes :=
  match fuel, data with
  | S fuel, _ :: _ => take n data :: items_of fuel n (drop n data)
  | _, _ => []
  end.
Definition typed (n : nat) (data : bytes) : list bytes := items_of (length data) n data.
Definition u32s_of (data : bytes) : list Z := from_le_bytes <$> typed 4 data.
Definition i32s_of (data : bytes) : list Z := bytes_i32 <$> typed 4 data.

Section reader.
Context `{KvStore M C} `{ArrowBits}.

(** The part of [TableReader] that reads of buffers use. *)
Record TableReader : Type := mkReader {
  tr_storage : M;
  tr_key : TableKeyFactory;
  tr_num_buffers : nat
}.
Implicit Type t : TableReader.

Definition get_page t (buffer page_idx : nat) : option bytes :=
  kv_get (tr_storage t) (factory_page (tr_key t) (Z.of_nat buffer) (Z.of_nat page_idx)).1.

Definition get_buffer_pages t (buffer : nat) : res (list Z) :=
  if negb (buffer <? tr_num_buffers t)%nat then index_panic
  else
    page ← ok_or (kv_get (tr_storage t) (factory_offsets (tr_key t) (Z.of_nat buffer)).1)
                 (EMsg "offsets page was not found");
    _ ← ensure (length page mod 4 =? 0)%nat (EMsg "expected offsets page to be multiple of 4");
    let offsets := u32s_of page in
    _ ← validate_offsets offsets 0;
    first ← at_ offsets 0;
    _ ← ensure (first =? 0) (EMsg "Condition failed: `offsets[0] == 0`");
    Ok offsets.

(** ** Fixed-size values *)

(** [dest[write_offset..write_offset + len].copy_from_slice(&data[beg..end])] *)
Definition copy_part (item_size : nat) (data : bytes) (st : nat * bytes) (r : nrange) : res (nat * bytes) :=
  let '(write_offset, dest) := st in
  let beg := (r.1 * item_size)%nat in
  let end_ := (r.2 * item_size)%nat in
  src ← subslice data beg end_;
  let len := (end_ - beg)%nat in
  if (write_offset + len <=? length dest)%nat then
    Ok ((write_offset + len)%nat, take write_offset dest ++ src ++ drop (write_offset + len) dest)
  else Panic "range end index out of range".

Definition read_native_par_page t (item_size buffer : nat) (p : Pagination) (page_seq : nat) (dest : bytes)
    : res bytes :=
  page_idx ← page_index p page_seq;
  data ← ok_or (get_page t buffer page_idx) (EMsg "page was not found");
  _ ← ensure (length data mod item_size =? 0)%nat (EMsg "page byte size is not a multiple of the item size");
  r ← page_range p page_seq;
  _ ← ensure (length data / item_size =? range_len r)%nat (EMsg "page does not contain the expected number of items");
  ranges ← iter_ranges p page_seq;
  '(_, dest) ← fold_res (copy_part item_size data) ranges (0%nat, dest);
  Ok dest.

(** [rayon::join] runs both halves on disjoint parts of the destination; the error of the
    lower half wins. *)
Fixpoint read_native_par (fuel : nat) t (item_size buffer : nat) (p : Pagination) (start n : nat) (dest : bytes)
    : res bytes :=
  match fuel with
  | O => Panic "out of fuel"
  | S fuel =>
      match n with
      | O => Ok dest
      | S O => read_native_par_page t item_size buffer p start dest
      | n =>
          let mid := (n / 2 + n mod 2)%nat in
          a ← page_write_offset p (start + mid);
          b ← page_write_offset p start;
          let split := (item_size * (a - b))%nat in
          if negb (split <=? length dest)%nat then Panic "mid > len"
          else
            lower ← read_native_par fuel t item_size buffer p start mid (take split dest);
            upper ← read_native_par fuel t item_size buffer p (start + mid) (n - mid) (drop split dest);
            Ok (lower ++ upper)
      end
  end.

Definition read_native_bytes t (buffer item_size : nat) (ranges : option (list range)) : res bytes :=
  page_offsets ← get_buffer_pages t buffer;
  p ← pagination_new page_offsets ranges;
  read_native_par (S (num_pages p)) t item_size buffer p 0 (num_pages p) (replicate (num_items p * item_size) 0).

(** ** Bit masks *)

(** [for_each_page]: one page is read by its key, several through a cursor that advances over
    neighbouring pages. *)
Section for_each.
Context {A : Type} (t : TableReader) (buffer : nat) (p : Pagination) (cb : nat → bytes → A → res A).

Fixpoint page_loop (n i : nat) (prev_page_idx : nat) (cursor : C) (a : A) : res A :=
  match n with
  | O => Ok a
  | S n =>
      page_idx ← page_index p i;
      let page_key := (factory_page (tr_key t) (Z.of_nat buffer) (Z.of_nat page_idx)).1 in
      cursor ← (if ((0 <? i) && (prev_page_idx + 1 =? page_idx))%nat%bool then cur_next cursor
                else cur_seek page_key cursor);
      _ ← ensure (cur_is_valid cursor && bool_decide (cur_key cursor = page_key))
                 (EMsg "page was not found at expected place");
      a ← cb i (cur_value cursor) a;
      page_loop n (S i) page_idx cursor a
  end.

Definition for_each_page (a : A) : res A :=
  match num_pages p with
  | O => Ok a
  | S O =>
      page_idx ← page_index p 0;
      value ← ok_or (get_page t buffer page_idx) (EMsg "page was not found");
      cb 0%nat value a
  | n => page_loop n 0 0 (kv_cursor (tr_storage t)) a
  end.
End for_each.

Definition append_page (p : Pagination) (i : nat) (data : bytes) (buf : list bool) : res (list bool) :=
  r ← page_range p i;
  _ ← ensure (ceil8 (range_len r) =? length data)%nat (EMsg "page does not have the expected byte length");
  ranges ← iter_ranges p i;
  fold_res (λ buf r, append_packed_range buf r data) ranges buf.

Definition read_bitmask t (buffer : nat) (page_offsets : list Z) (ranges : option (list range))
    : res (list bool) :=
  p ← pagination_new page_offsets ranges;
  for_each_page t buffer p (append_page p) [].

Definition read_boolean t (buffer : nat) (ranges : option (list range)) : res (list bool) :=
  page_offsets ← get_buffer_pages t buffer;
  read_bitmask t buffer page_offsets ranges.

Definition get_nullmask_pages t (buffer : nat) : res (list Z) :=
  pages ← get_buffer_pages t buffer;
  _ ← ensure (2 <=? length pages)%nat (EMsg "nullmask offsets should contain at least 2 pages");
  if (2 <? length pages)%nat then
    bit_len ← at_ pages (length pages - 1);
    prev ← at_ pages (length pages - 2);
    _ ← ensure (prev =? bit_len) (EMsg "bitmask and nullmask lengths are different");
    Ok pages
  else Ok pages.

(** [OffsetBuffer::slice(offset, len)] *)
Definition offset_buffer_slice (offsets : list Z) (offset len : nat) : res (list Z) :=
  subslice offsets offset (offset + len + 1).

Definition read_null_mask t (buffer : nat) (ranges : option (list range)) : res (option (list bool)) :=
  page_offsets ← get_nullmask_pages t buffer;
  if (length page_offsets =? 2)%nat then Ok None
  else
    mask_offsets ← offset_buffer_slice page_offsets 0 (length page_offsets - 1);
    values ← read_bitmask t buffer mask_offsets ranges;
    Ok (Some values).

(** ** Offsets *)

Definition read_all_offsets t (buffer : nat) : res (list Z) :=
  data ← read_native_bytes t buffer 4 None;
  let offsets := i32s_of data in
  _ ← validate_offsets offsets 0;
  Ok offsets.

(** [o as u32] *)
Definition as_u32 (o : Z) : Z := o mod 2 ^ 32.

(** The ranges of values of the selected rows; touching ones are merged. *)
Fixpoint value_ranges_loop (offsets : list Z) (ranges : list range) (pos : nat) (out : list range)
    : res (list range) :=
  match ranges with
  | [] => Ok out
  | r :: ranges =>
      let end_ := (pos + range_len r)%nat in
      a ← at_ offsets pos;
      b ← at_ offsets end_;
      let vr := Range (as_u32 a) (as_u32 b) in
      let out :=
        if rstart vr <? rend vr then
          match last out with
          | Some prev => if rend prev =? rstart vr
                         then take (length out - 1) out ++ [Range (rstart prev) (rend vr)]
                         else out ++ [vr]
          | None => out ++ [vr]
          end
        else out in
      value_ranges_loop offsets ranges (end_ + 1) out
  end.

(** [l.copy_within(beg..end, dst)] *)
Definition copy_within (l : list Z) (beg end_ dst : nat) : res (list Z) :=
  src ← subslice l beg end_;
  if (dst + (end_ - beg) <=? length l)%nat then Ok (take dst l ++ src ++ drop (dst + (end_ - beg)) l)
  else Panic "dest is out of bounds".

(** The offsets of every selected run are rebased and moved over the end of the previous one. *)
Fixpoint rebase_loop (ranges : list range) (shift pos : nat) (last_offset : Z) (offsets : list Z)
    : res (list Z) :=
  match ranges with
  | [] => Ok offsets
  | r :: ranges =>
      let beg := pos in
      let end_ := (pos + range_len r + 1)%nat in
      r_offset ← at_ offsets beg;
      seg ← subslice offsets beg end_;
      let seg := (λ o, i32_add (i32_sub o r_offset) last_offset) <$> seg in
      let offsets := take beg offsets ++ seg ++ drop end_ offsets in
      last_offset ← at_ offsets (end_ - 1);
      offsets ← copy_within offsets beg end_ (beg - shift);
      rebase_loop ranges (S shift) end_ last_offset offsets
  end.

Definition read_ranged_offsets t (buffer : nat) (ranges : list range) : res (list Z * list range) :=
  match ranges with
  | [] => Ok ([0], [])
  | _ =>
      offset_ranges ← seal ((λ r, Range (rstart r) (rend r + 1)) <$> ranges);
      data ← read_native_bytes t buffer 4 (Some offset_ranges);
      let offsets := i32s_of data in
      _ ← validate_offsets offsets 0;
      value_ranges ← value_ranges_loop offsets ranges 0 [];
      offsets' ← rebase_loop ranges 0 0 0 offsets;
      Ok (take (length offsets' - (length ranges - 1)) offsets', value_ranges)
  end.

Definition read_offsets t (buffer : nat) (ranges : option (list range)) : res (list Z * option (list range)) :=
  match ranges with
  | Some ranges => '(offsets, value_ranges) ← read_ranged_offsets t buffer ranges; Ok (offsets, Some value_ranges)
  | None => offsets ← read_all_offsets t buffer; Ok (offsets, None)
  end.
End reader.
