(* ===== verification/TableReadSpec.v ===== *)
(** * TableReadSpec: reads return the selected items

    Over a stored buffer ([buffer_stored]) every read returns exactly the items its ranges
    name: the parallel read of values whatever the number of pages, the read of bit masks over a cursor,
    null masks, and offsets together with the ranges of values. *)
From Stdlib Require Import ZifyNat.
From S2P Require Import Prelude Ranges Bytes Data Kv Bits Offsets Pages PagesSpec Pagination TableRead.

(** ** Items and numbers in bytes *)

Lemma items_of_join n items : (0 < n)%nat → Forall (λ v, length v = n) items →
  ∀ fuel, (length items <= fuel)%nat → items_of fuel n (mjoin items) = items.
Proof.
  intros Hn. induction 1 as [|v items Hv _ IH]; intros fuel Hf; [by destruct fuel|].
  destruct fuel as [|fuel]; [simpl in Hf; lia|]. rewrite join_cons.
  destruct v as [|b v]; [simpl in Hv; lia|]. cbn [app items_of].
  change (b :: v ++ mjoin items) with ((b :: v) ++ mjoin items).
  rewrite take_app_length', drop_app_length' by done. f_equal. apply IH. simpl in Hf. lia.
Qed.
Lemma typed_join n items : (0 < n)%nat → Forall (λ v, length v = n) items → typed n (mjoin items) = items.
Proof.
  intros Hn Hi. unfold typed. apply items_of_join; [done|done|]. rewrite (join_length n) by done. nia.
Qed.

Lemma le_bytes_length n x : length (le_bytes n x) = n.
Proof. unfold le_bytes. by rewrite length_reverse, be_bytes_length. Qed.
Lemma from_le_bytes_u32 x : 0 <= x <= u32_max → from_le_bytes (u32_bytes x) = x.
Proof.
  intros. unfold from_le_bytes, u32_bytes, le_bytes. rewrite reverse_involutive, from_be_bytes_be; [done|].
  unfold u32_max in *. change (256 ^ Z.of_nat 4) with (2 ^ 32). lia.
Qed.
Lemma bytes_i32_bytes x : 0 <= x <= i32_max → bytes_i32 (i32_bytes x) = x.
Proof.
  intros Hx. unfold bytes_i32, i32_bytes. unfold i32_max in *. rewrite Z.mod_small by lia.
  fold (u32_bytes x). rewrite from_le_bytes_u32 by (unfold u32_max; lia). apply i32_wrap_small. unfold i32_max. lia.
Qed.

Lemma u32s_of_join l : Forall (λ x, 0 <= x <= u32_max) l → u32s_of (mjoin (u32_bytes <$> l)) = l.
Proof.
  intros Hl. unfold u32s_of. rewrite typed_join; [|lia|].
  - rewrite <-list_fmap_compose. rewrite <-(list_fmap_id l) at 2. apply list_fmap_ext.
    intros i x Hx. cbn. apply from_le_bytes_u32. rewrite Forall_lookup in Hl. by eapply Hl.
  - apply Forall_fmap, Forall_true. intros x. apply le_bytes_length.
Qed.
Lemma i32s_of_join l : Forall (λ x, 0 <= x <= i32_max) l → i32s_of (mjoin (i32_bytes <$> l)) = l.
Proof.
  intros Hl. unfold i32s_of. rewrite typed_join; [|lia|].
  - rewrite <-list_fmap_compose. rewrite <-(list_fmap_id l) at 2. apply list_fmap_ext.
    intros i x Hx. cbn. apply bytes_i32_bytes. rewrite Forall_lookup in Hl. by eapply Hl.
  - apply Forall_fmap, Forall_true. intros x. apply le_bytes_length.
Qed.
Lemma cumul_forall base lens hi : 0 <= base → base + total lens <= hi → Forall (λ x, 0 <= x <= hi) (cumul base lens).
Proof.
  revert base. induction lens as [|n lens IH]; intros base Hb Ht; cbn [cumul].
  - constructor; [|constructor]. unfold total in Ht. simpl in Ht. lia.
  - rewrite total_cons in Ht. pose proof (total_nonneg lens). constructor; [lia|]. apply IH; lia.
Qed.

Section reads.
Context `{KvStoreLaws M C} `{ArrowBitsLaws} (id : TableId) (t : TableReader (M := M)).
Hypothesis key_ok : factory_for id (tr_key t).
Abbreviation s := (tr_storage t).

Lemma get_page_stored buffer log j page : pages_stored id s buffer log → log !! j = Some page →
  get_page t buffer j = Some page.2.
Proof.
  intros Hs Hj. unfold get_page, factory_page.
  rewrite (proj1 (factory_make_spec id _ _ key_ok)). by apply Hs.
Qed.

Lemma get_buffer_pages_spec buffer log : buffer_stored id s buffer log → total log.*1 <= u32_max →
  (buffer < tr_num_buffers t)%nat → get_buffer_pages t buffer = Ok (cumul 0 log.*1).
Proof.
  intros [Ho _] Ht Hb. unfold get_buffer_pages. rewrite (proj2 (Nat.ltb_lt _ _) Hb). cbn [negb].
  unfold factory_offsets. rewrite (proj1 (factory_make_spec id _ _ key_ok)).
  fold (offsets_key id buffer). rewrite Ho. cbn [ok_or mbind res_bind].
  rewrite (join_length 4) by (apply Forall_fmap, Forall_true; intros; apply le_bytes_length).
  rewrite Nat.Div0.mod_mul. cbn [Nat.eqb ensure mbind res_bind].
  rewrite u32s_of_join by (apply cumul_forall; lia).
  rewrite validate_offsets_cumul by lia. cbn [mbind res_bind]. rewrite at_cumul by lia. done.
Qed.

(** ** Fixed-size values *)

Section native.
Context (u : nat) (upos : (0 < u)%nat) (chunks : list (list bytes)) (p : Pagination) (pieces : list (list bytes)).
Hypothesis sized : Forall (λ c, Forall (λ v, length v = u) c) chunks.
Hypothesis plan : plan_ok p chunks pieces.
Context (buffer : nat).
Hypothesis stored : pages_stored id s buffer (native_log chunks).

Lemma piece_sized (page : list bytes) parts : Forall (λ v, length v = u) page → Forall (λ v, length v = u) (piece page parts).
Proof.
  intros Hp. unfold piece. induction parts as [|r parts IH]; [constructor|]. cbn [fmap list_fmap].
  rewrite join_cons. apply Forall_app. split; [|done]. unfold part. by apply Forall_take, Forall_drop.
Qed.

Lemma pieces_sized seq c : pieces !! seq = Some c → Forall (λ v, length v = u) c.
Proof.
  intros Hc. destruct (plan_step _ _ _ plan seq c Hc) as (_ & pi & page & parts & _ & Hpage & _ & _ & <- & _).
  apply piece_sized. by eapply Forall_lookup_1.
Qed.

Lemma copy_parts_spec (page : list bytes) parts : Forall (λ v, length v = u) page → Forall (λ r, (r.1 <= r.2 <= length page)%nat) parts →
  ∀ out dest, (length out + length (piece page parts) * u = length (out ++ dest))%nat →
  fold_res (copy_part u (mjoin page)) parts (length out, out ++ dest)
    = Ok ((length out + length (piece page parts) * u)%nat, out ++ mjoin (piece page parts)).
Proof.
  intros Hp. induction 1 as [|r parts Hr Hf IH]; intros out dest Hd; cbn [fold_res].
  - cbn in Hd. rewrite length_app in Hd. cbn. destruct dest; [|simpl in Hd; lia]. by rewrite !Nat.add_0_r.
  - assert (piece page (r :: parts) = part r.1 (rlen r) page ++ piece page parts) as Epi by done.
    assert (length (part r.1 (rlen r) page) = rlen r) as Hpl by (apply part_length; unfold rlen; lia).
    assert (Forall (λ v, length v = u) (part r.1 (rlen r) page)) as Hps by (unfold part; by apply Forall_take, Forall_drop).
    rewrite Epi, length_app, Hpl, !length_app in Hd. unfold copy_part at 2.
    pose proof (subslice_join u r.1 (rlen r) page Hp ltac:(unfold rlen; lia)) as Es.
    replace (r.1 * u + rlen r * u)%nat with (r.2 * u)%nat in Es by (unfold rlen; rewrite <-Nat.mul_add_distr_r; f_equal; lia).
    rewrite Es. cbn [mbind res_bind].
    replace (r.2 * u - r.1 * u)%nat with (rlen r * u)%nat by (unfold rlen; by rewrite Nat.mul_sub_distr_r).
    rewrite (proj2 (Nat.leb_le _ _)) by (rewrite length_app; lia). cbn [mbind res_bind].
    rewrite take_app_length, drop_app_add.
    assert (length (mjoin (part r.1 (rlen r) page)) = rlen r * u)%nat as Hjl by (by rewrite (join_length u), Hpl).
    specialize (IH (out ++ mjoin (part r.1 (rlen r) page)) (drop (rlen r * u) dest)).
    rewrite length_app, Hjl, <-app_assoc in IH. rewrite IH.
    + rewrite Epi, length_app, Hpl, join_app, <-app_assoc. f_equal. f_equal. lia.
    + rewrite !length_app, length_drop, Hjl. lia.
Qed.

Lemma read_page_spec seq c dest : pieces !! seq = Some c → length dest = (length c * u)%nat →
  read_native_par_page t u buffer p seq dest = Ok (mjoin c).
Proof.
  intros Hc Hd. destruct (plan_step _ _ _ plan seq c Hc) as (_ & pi & page & parts & E1 & E2 & E3 & E4 & E5 & E6).
  unfold read_native_par_page. rewrite E1. cbn [mbind res_bind].
  assert (Forall (λ v, length v = u) page) as Hp by (by eapply Forall_lookup_1).
  rewrite (get_page_stored buffer (native_log chunks) pi (length page, mjoin page)) by
    (done || (unfold native_log; by rewrite list_lookup_fmap, E2)).
  cbn [ok_or mbind res_bind snd]. rewrite (join_length u) by done.
  rewrite Nat.Div0.mod_mul. cbn [Nat.eqb ensure mbind res_bind]. rewrite E3. cbn [mbind res_bind].
  rewrite Nat.div_mul by lia. unfold range_len. cbn [rstart rend].
  rewrite Z.add_simpl_l, Nat2Z.id, Nat.eqb_refl. cbn [ensure mbind res_bind]. rewrite E4. cbn [mbind res_bind].
  pose proof (copy_parts_spec page parts Hp E6 [] dest) as Hcp. cbn [app length Nat.add] in Hcp.
  rewrite E5 in Hcp. rewrite Hcp by lia. done.
Qed.

Lemma part_lookup_total start n seq : (start + n <= length pieces)%nat → (start <= seq < start + n)%nat →
  ∃ c, pieces !! seq = Some c.
Proof. intros. apply lookup_lt_is_Some_2. lia. Qed.

Lemma join_part_length start n : (start + n <= length pieces)%nat →
  length (mjoin (take (start + n) pieces)) = (length (mjoin (take start pieces)) + length (mjoin (part start n pieces)))%nat.
Proof. intros. by rewrite take_add_part, join_app, length_app. Qed.

Lemma part_S {A} (l : list A) i x : l !! i = Some x → part i 1 l = [x].
Proof. intros Hi. unfold part. rewrite (drop_S _ _ _ Hi). cbn. done. Qed.
Lemma part_add {A} (l : list A) i a b : part i (a + b) l = part i a l ++ part (i + a) b l.
Proof. unfold part. by rewrite <-take_take_drop, drop_drop. Qed.

(** The recursive halving reads every page into its part of the destination. *)
Lemma read_par_spec fuel : ∀ start n dest, (n < fuel)%nat → (start + n <= length pieces)%nat →
  length dest = (length (mjoin (part start n pieces)) * u)%nat →
  read_native_par fuel t u buffer p start n dest = Ok (mjoin (mjoin (part start n pieces))).
Proof.
  induction fuel as [|fuel IH]; intros start n dest Hf Hn Hd; [lia|]. cbn [read_native_par].
  destruct n as [|[|n]].
  - unfold part in *. rewrite take_0 in *. cbn in Hd. by destruct dest.
  - destruct (part_lookup_total start 1 start) as [c Hc]; [lia|lia|].
    rewrite (part_S _ _ _ Hc) in *. rewrite join_one in *. by rewrite (read_page_spec start c).
  - set (m := S (S n)) in *. set (mid := (m / 2 + m mod 2)%nat).
    assert (0 < mid < m)%nat as Hmid.
    { unfold mid. pose proof (Nat.div_mod_eq m 2). pose proof (Nat.mod_upper_bound m 2). unfold m in *. lia. }
    destruct (part_lookup_total start m start) as [c0 Hc0]; [lia|lia|].
    destruct (part_lookup_total start m (start + mid)) as [c1 Hc1]; [lia|lia|].
    rewrite (proj1 (plan_step _ _ _ plan _ _ Hc1)), (proj1 (plan_step _ _ _ plan _ _ Hc0)). cbn [mbind res_bind].
    rewrite join_part_length by lia. rewrite (Nat.add_comm (length (mjoin (take start pieces)))), Nat.add_sub.
    assert (part start m pieces = part start mid pieces ++ part (start + mid) (m - mid) pieces) as Ep.
    { rewrite <-part_add. f_equal. lia. }
    rewrite Ep, join_app, length_app in Hd. rewrite (proj2 (Nat.leb_le _ _)) by lia. cbn [negb].
    rewrite !IH; [cbn [mbind res_bind]; by rewrite Ep, !join_app|lia|lia| |lia|lia|];
      rewrite ?length_take, ?length_drop; lia.
Qed.
End native.

Definition ranges_ok (n : nat) (ranges : option (list range)) : Prop :=
  ∀ rs, ranges = Some rs → wf 0 rs ∧ list_end rs <= Z.of_nat n.

Lemma native_log_counts (chunks : list (list bytes)) : (native_log chunks).*1 = length <$> chunks.
Proof. unfold native_log. by rewrite <-list_fmap_compose. Qed.
Lemma nonempty_pages {A} (chunks : list (list A)) : Forall (λ c, (0 < length c)%nat) chunks → pages_ok chunks.
Proof. intros Hc. exists chunks, []. by rewrite app_nil_r. Qed.

Lemma read_native_bytes_spec u buffer chunks ranges : (0 < u)%nat →
  Forall (λ v, length v = u) (mjoin chunks) → Forall (λ c, (0 < length c)%nat) chunks →
  buffer_stored id s buffer (native_log chunks) → Z.of_nat (length (mjoin chunks)) <= u32_max →
  (buffer < tr_num_buffers t)%nat → ranges_ok (length (mjoin chunks)) ranges →
  read_native_bytes t buffer u ranges = Ok (mjoin (select_opt ranges (mjoin chunks))).
Proof.
  intros Hu Hs Hne Hst Ht Hb Hr. unfold read_native_bytes.
  rewrite (get_buffer_pages_spec buffer (native_log chunks)); rewrite ?native_log_counts, ?counts_join; try done.
  cbn [mbind res_bind].
  destruct (pagination_spec chunks ranges) as (p & pieces & -> & Hplan & Hj);
    rewrite ?counts_join; try done; [by apply nonempty_pages|].
  cbn [mbind res_bind]. rewrite (read_par_spec u Hu chunks p pieces); try done.
  - rewrite <-(plan_length _ _ _ Hplan), part_all, Hj. done.
  - clear -Hs. induction chunks as [|c chunks IH]; [constructor|]. rewrite join_cons in Hs.
    apply Forall_app in Hs as [? ?]. constructor; auto.
  - apply Hst.
  - lia.
  - rewrite <-(plan_length _ _ _ Hplan). lia.
  - rewrite <-(plan_length _ _ _ Hplan), part_all, length_replicate. by rewrite (plan_items _ _ _ Hplan).
Qed.
End reads.

(** ** Bit masks and null masks are read back

    The sequential read walks the pages of a buffer with a cursor.  It relies on the order of keys: in
    a store of table keys nothing lies between a page and its successor. *)

(** ** Keys of neighbouring pages *)

(** The column family of tables holds only keys of tables. *)
Definition table_keys_only `{KvStore M C} (s : M) : Prop :=
  ∀ k v, kv_get s k = Some v → ∃ id tk, length id = 16%nat ∧ k = table_key id tk.

Lemma bytes_lt_app_same p a b : bytes_lt (p ++ a) (p ++ b) ↔ bytes_lt a b.
Proof. unfold bytes_lt. by rewrite bytes_cmp_app. Qed.

(** Between two lists with a common part [x] of the same length only lists with that part fit. *)
Lemma between_same_part x y a b c : length x = length y → bytes_lt (x ++ a) (y ++ b) → bytes_lt (y ++ b) (x ++ c) → y = x.
Proof.
  intros Hl. unfold bytes_lt. rewrite !bytes_cmp_app_len by done. rewrite (bytes_cmp_antisym x y).
  destruct (bytes_cmp x y) eqn:E; cbn; try done. by apply bytes_cmp_eq in E.
Qed.

Lemma page_key_split id b j : page_key id b j =
  id ++ [3] ++ be_bytes 2 (Z.of_nat b mod 2 ^ 16) ++ be_bytes 4 (Z.of_nat j mod 2 ^ 32).
Proof. unfold page_key, table_key. cbn [serialize]. by rewrite <-!app_assoc. Qed.

Lemma index_cmp x y : bytes_cmp (be_bytes 4 (x mod 2 ^ 32)) (be_bytes 4 (y mod 2 ^ 32)) = (x mod 2 ^ 32 ?= y mod 2 ^ 32).
Proof. apply be_bytes_cmp; change (256 ^ Z.of_nat 4) with (2 ^ 32); by apply Z.mod_pos_bound. Qed.

Lemma no_key_between id b j id' tk : length id = 16%nat → length id' = 16%nat → Z.of_nat (j + 1) < 2 ^ 32 →
  bytes_lt (page_key id b j) (table_key id' tk) → ¬ bytes_lt (table_key id' tk) (page_key id b (j + 1)).
Proof.
  intros Hl Hl' Hj H1 H2. rewrite !page_key_split in *. unfold table_key in *. rewrite serialize_app in *.
  assert (id' = id) as -> by (eapply between_same_part; [|exact H1|exact H2]; congruence).
  rewrite bytes_lt_app_same in H1, H2.
  destruct (serialize_head tk) as (tag & rest & Es & _).
  assert ([tag] = [3]) as [= ->].
  { eapply between_same_part; [|rewrite Es in H1; exact H1|rewrite Es in H2; exact H2]; done. }
  destruct tk as [|c|c|b' j']; try done. cbn [serialize app] in H1, H2.
  change (bytes_lt ([3] ++ be_bytes 2 (Z.of_nat b mod 2 ^ 16) ++ be_bytes 4 (Z.of_nat j mod 2 ^ 32))
    ([3] ++ be_bytes 2 b' ++ be_bytes 4 j')) in H1.
  change (bytes_lt ([3] ++ be_bytes 2 b' ++ be_bytes 4 j')
    ([3] ++ be_bytes 2 (Z.of_nat b mod 2 ^ 16) ++ be_bytes 4 (Z.of_nat (j + 1) mod 2 ^ 32))) in H2.
  rewrite bytes_lt_app_same in H1, H2.
  assert (be_bytes 2 b' = be_bytes 2 (Z.of_nat b mod 2 ^ 16)) as Eb.
  { eapply between_same_part; [|exact H1|exact H2]. by rewrite !be_bytes_length. }
  rewrite Eb, bytes_lt_app_same in H1, H2. rewrite <-(be_bytes_mod 4 j') in H1, H2.
  change (256 ^ Z.of_nat 4) with (2 ^ 32) in *. unfold bytes_lt in *.
  rewrite index_cmp in H1, H2. rewrite Z.compare_lt_iff in H1, H2.
  rewrite (Z.mod_small (Z.of_nat j)) in H1 by lia. rewrite (Z.mod_small (Z.of_nat (j + 1))) in H2 by lia. lia.
Qed.

Lemma page_key_lt id b j : Z.of_nat (j + 1) < 2 ^ 32 → bytes_lt (page_key id b j) (page_key id b (j + 1)).
Proof.
  intros Hj. rewrite !page_key_split, !bytes_lt_app_same. unfold bytes_lt.
  rewrite index_cmp, !Z.mod_small by lia. apply Z.compare_lt_iff. lia.
Qed.

(** ** Sorted entries *)

Lemma sorted_lookup_lt (es : list entry) i j a b : StronglySorted (λ a b, bytes_lt a.1 b.1) es →
  es !! i = Some a → es !! j = Some b → (i < j)%nat → bytes_lt a.1 b.1.
Proof.
  intros Hs. revert i j. induction Hs as [|e es Hs IH Hf]; intros i j Hi Hj Hij; [done|].
  destruct i as [|i], j as [|j]; try lia; cbn in Hi, Hj.
  - injection Hi as ->. rewrite Forall_forall in Hf. apply Hf. by eapply list_elem_of_lookup_2.
  - eapply IH; [exact Hi|exact Hj|lia].
Qed.

Lemma first_index_key (es : list entry) i k v : StronglySorted (λ a b, bytes_lt a.1 b.1) es →
  es !! i = Some (k, v) → first_index (bytes_leb k) es = Some i.
Proof.
  intros Hs. revert i. induction Hs as [|e es Hs IH Hf]; intros i Hi; [done|]. cbn [first_index].
  destruct i as [|i]; cbn in Hi.
  - injection Hi as ->. cbn. rewrite (proj2 (bytes_leb_spec k k)); [done|]. apply bytes_le_refl.
  - rewrite (proj2 (bytes_leb_false k e.1)).
    + by rewrite (IH i Hi).
    + rewrite Forall_forall in Hf. apply (Hf (k, v)). by eapply list_elem_of_lookup_2.
Qed.

(** The entry after [k] is the next key when nothing lies between. *)
Lemma next_entry (es : list entry) i k v k' v' : StronglySorted (λ a b, bytes_lt a.1 b.1) es →
  es !! i = Some (k, v) → (k', v') ∈ es → bytes_lt k k' →
  (∀ k'' v'', (k'', v'') ∈ es → bytes_lt k k'' → ¬ bytes_lt k'' k') → es !! S i = Some (k', v').
Proof.
  intros Hs Hi Hin Hlt Hno. apply list_elem_of_lookup_1 in Hin as [j Hj].
  assert (i < j)%nat as Hij.
  { destruct (decide (i < j)%nat) as [|Hge]; [done|]. destruct (decide (i = j)) as [->|].
    - rewrite Hi in Hj. injection Hj as -> ->. by apply bytes_lt_irrefl in Hlt.
    - pose proof (sorted_lookup_lt es j i _ _ Hs Hj Hi ltac:(lia)) as Hlt'. cbn in Hlt'.
      destruct (bytes_lt_irrefl k). by eapply bytes_lt_trans. }
  destruct (decide (j = S i)) as [->|Hne]; [done|].
  destruct (lookup_lt_is_Some_2 es (S i)) as [[k2 v2] H2].
  { apply lookup_lt_Some in Hj. lia. }
  destruct (Hno k2 v2).
  - by eapply list_elem_of_lookup_2.
  - exact (sorted_lookup_lt es i (S i) _ _ Hs Hi H2 ltac:(lia)).
  - exact (sorted_lookup_lt es (S i) j _ _ Hs H2 Hj ltac:(lia)).
Qed.

Section bits.
Context `{KvStoreLaws M C} `{ArrowBitsLaws} (id : TableId) (t : TableReader (M := M)).
Hypothesis key_ok : factory_for id (tr_key t).
Hypothesis id_ok : length id = 16%nat.
Abbreviation s := (tr_storage t).
Hypothesis keys_ok : table_keys_only s.

(** A cursor that stands on page [j] of the buffer. *)
Definition on_page (buffer j : nat) (c : C) : Prop :=
  cur_entries c = kv_entries s ∧ cur_is_valid c = true ∧ cur_key c = page_key id buffer j ∧
  kv_get s (page_key id buffer j) = Some (cur_value c).

Lemma on_page_intro buffer j c i v : cur_entries c = kv_entries s → cur_pos c = Some i →
  kv_entries s !! i = Some (page_key id buffer j, v) → on_page buffer j c ∧ cur_value c = v.
Proof.
  intros He Hp Hi. pose proof (cur_at c i Hp) as Hat. rewrite He, Hi in Hat. injection Hat as Hk Hv.
  split; [|done]. split; [done|]. split; [rewrite cur_valid_iff, Hp; by apply bool_decide_eq_true_2|].
  split; [done|]. rewrite <-Hv. apply kv_get_entries. by eapply list_elem_of_lookup_2.
Qed.

Lemma seek_page buffer j c v : cur_entries c = kv_entries s → kv_get s (page_key id buffer j) = Some v →
  ∃ c', cur_seek (page_key id buffer j) c = Ok c' ∧ on_page buffer j c' ∧ cur_value c' = v.
Proof.
  intros He Hv. apply kv_get_entries in Hv. apply list_elem_of_lookup_1 in Hv as [i Hi].
  destruct (cur_seek_spec (page_key id buffer j) c) as (c' & E & He' & Hp). exists c'. split; [done|].
  rewrite He in *. apply (on_page_intro buffer j c' i v); [done| |done].
  rewrite Hp. eapply first_index_key; [apply kv_sorted|exact Hi].
Qed.

Lemma next_page buffer j c v : on_page buffer j c → Z.of_nat (j + 1) < 2 ^ 32 →
  kv_get s (page_key id buffer (j + 1)) = Some v →
  ∃ c', cur_next c = Ok c' ∧ on_page buffer (j + 1) c' ∧ cur_value c' = v.
Proof.
  intros (He & Hvalid & Hk & Hg) Hj Hv. rewrite cur_valid_iff in Hvalid. apply bool_decide_eq_true in Hvalid as [i Hp].
  pose proof (cur_at c i Hp) as Hat. rewrite He in Hat.
  assert (kv_entries s !! S i = Some (page_key id buffer (j + 1), v)) as Hn.
  { eapply next_entry; [apply kv_sorted|exact Hat|by apply kv_get_entries| |].
    - rewrite Hk. by apply page_key_lt.
    - intros k'' v'' Hin H1' H2'. apply kv_get_entries in Hin.
      destruct (keys_ok k'' v'' Hin) as (id' & tk & Hl & ->). rewrite Hk in H1'.
      by eapply (no_key_between id buffer j id' tk). }
  destruct (cur_next_spec c i Hp) as (c' & E & He' & Hp'). exists c'. split; [done|]. rewrite He in *.
  rewrite decide_True in Hp' by (by eapply lookup_lt_Some). by eapply on_page_intro.
Qed.

Section pages.
Context (chunks : list (list bool)) (log : page_log) (p : Pagination) (pieces : list (list bool)) (buffer : nat).
Hypothesis pages : Forall2 bit_page chunks log.
Hypothesis plan : plan_ok p chunks pieces.
Hypothesis stored : pages_stored id s buffer log.
Hypothesis few : Z.of_nat (length chunks) <= 2 ^ 32.

Lemma bit_pieces page data parts : bits data = page ++ replicate (pad (length page)) false →
  Forall (λ r, (r.1 <= r.2 <= length page)%nat) parts → ∀ buf,
  fold_res (λ buf r, append_packed_range buf r data) parts buf = Ok (buf ++ piece page parts).
Proof.
  intros Hd. induction 1 as [|r parts Hr Hf IH]; intros buf; cbn [fold_res].
  - unfold piece. cbn. by rewrite app_nil_r.
  - rewrite append_packed_range_spec by (rewrite ?Hd, ?length_app; lia). cbn [mbind res_bind]. rewrite IH.
    rewrite Hd, part_app_l by (unfold rlen; lia). f_equal. unfold piece. cbn [fmap list_fmap].
    by rewrite join_cons, app_assoc.
Qed.

Lemma append_page_spec seq c : pieces !! seq = Some c →
  ∃ pi data, page_index p seq = Ok pi ∧ (pi < length chunks)%nat ∧ kv_get s (page_key id buffer pi) = Some data ∧
    ∀ buf, append_page p seq data buf = Ok (buf ++ c).
Proof.
  intros Hc. destruct (plan_step _ _ _ plan seq c Hc) as (_ & pi & page & parts & E1 & E2 & E3 & E4 & E5 & E6).
  destruct (Forall2_lookup_l _ _ _ _ _ pages E2) as ([n data] & Hl & Hn & Hbits). cbn [fst snd] in *.
  exists pi, data. split; [done|]. split; [by eapply lookup_lt_Some|]. split; [exact (stored pi (n, data) Hl)|].
  intros buf. unfold append_page. rewrite E3. cbn [mbind res_bind]. unfold range_len. cbn [rstart rend].
  rewrite Z.add_simpl_l, Nat2Z.id.
  assert (ceil8 (length page) = length data) as ->.
  { pose proof (bits_length data) as Hb. rewrite Hbits, length_app, length_replicate in Hb.
    pose proof (ceil8_pad (length page)). lia. }
  rewrite Nat.eqb_refl. cbn [ensure mbind res_bind]. rewrite E4. cbn [mbind res_bind].
  by rewrite (bit_pieces page data parts Hbits E6), E5.
Qed.

Lemma page_loop_spec n : ∀ i prev c a, (i + n = length pieces)%nat → cur_entries c = kv_entries s →
  ((0 < i)%nat → on_page buffer prev c) →
  page_loop t buffer p (append_page p) n i prev c a = Ok (a ++ mjoin (drop i pieces)).
Proof.
  induction n as [|n IH]; intros i prev c a Hn He Hon; cbn [page_loop].
  { rewrite drop_ge by lia. cbn. by rewrite app_nil_r. }
  destruct (lookup_lt_is_Some_2 pieces i) as [x Hx]; [lia|].
  destruct (append_page_spec i x Hx) as (pi & data & -> & Hpi & Hg & Happ). cbn [mbind res_bind].
  unfold factory_page. rewrite (proj1 (factory_make_spec id _ _ key_ok)). fold (page_key id buffer pi).
  assert (∃ c', (if ((0 <? i) && (prev + 1 =? pi))%nat%bool then cur_next c else cur_seek (page_key id buffer pi) c) = Ok c' ∧
    on_page buffer pi c' ∧ cur_value c' = data) as (c' & -> & Hon' & Hval).
  { destruct ((0 <? i) && (prev + 1 =? pi))%nat%bool eqn:E; [|by apply seek_page].
    apply andb_true_iff in E as [E1 E2]. apply Nat.ltb_lt in E1. apply Nat.eqb_eq in E2 as <-.
    apply next_page; [auto|lia|done]. }
  cbn [mbind res_bind]. pose proof Hon' as (He' & Hv' & Hk' & _). rewrite Hv', Hk'.
  rewrite bool_decide_eq_true_2 by done. cbn [andb ensure mbind res_bind]. rewrite Hval, Happ. cbn [mbind res_bind].
  rewrite IH by (done || lia). by rewrite (drop_S _ _ _ Hx), join_cons, app_assoc.
Qed.

Lemma for_each_page_spec : for_each_page t buffer p (append_page p) [] = Ok (mjoin pieces).
Proof.
  unfold for_each_page. pose proof (plan_length _ _ _ plan) as Hl.
  destruct (num_pages p) as [|[|n]] eqn:En.
  - apply nil_length_inv in Hl. by rewrite Hl.
  - assert (∃ x, pieces = [x]) as [x Epi].
    { clear -Hl. destruct pieces as [|x [|? ?]]; try done. by exists x. }
    destruct (append_page_spec 0 x) as (pi & data & -> & _ & Hg & Happ); [by rewrite Epi|]. cbn [mbind res_bind].
    unfold get_page, factory_page. rewrite (proj1 (factory_make_spec id _ _ key_ok)). fold (page_key id buffer pi).
    rewrite Hg. cbn [ok_or mbind res_bind]. rewrite Happ. by rewrite Epi, join_one.
  - rewrite page_loop_spec; [done|lia|apply cur_new|lia].
Qed.
End pages.

Lemma bit_counts (chunks : list (list bool)) log : Forall2 bit_page chunks log → log.*1 = length <$> chunks.
Proof. induction 1 as [|c page chunks log [Hn _] _ IH]; [done|]. cbn [fmap list_fmap]. by rewrite Hn, IH. Qed.

Lemma read_bitmask_spec buffer chunks log ranges : Forall2 bit_page chunks log → pages_ok chunks →
  pages_stored id s buffer log → Z.of_nat (length (mjoin chunks)) <= u32_max → Z.of_nat (length chunks) <= 2 ^ 32 →
  ranges_ok (length (mjoin chunks)) ranges →
  read_bitmask t buffer (cumul 0 (length <$> chunks)) ranges = Ok (select_opt ranges (mjoin chunks)).
Proof.
  intros Hf Hp Hs Ht Hl Hr. unfold read_bitmask.
  destruct (pagination_spec chunks ranges) as (p & pieces & -> & Hplan & <-); rewrite ?counts_join; try done.
  cbn [mbind res_bind]. by apply (for_each_page_spec chunks log).
Qed.

Lemma read_boolean_spec buffer chunks log ranges : Forall2 bit_page chunks log → Forall (λ c, (0 < length c)%nat) chunks →
  buffer_stored id s buffer log → Z.of_nat (length (mjoin chunks)) <= u32_max → Z.of_nat (length chunks) <= 2 ^ 32 →
  (buffer < tr_num_buffers t)%nat → ranges_ok (length (mjoin chunks)) ranges →
  read_boolean t buffer ranges = Ok (select_opt ranges (mjoin chunks)).
Proof.
  intros Hf Hp Hs Ht Hl Hb Hr. unfold read_boolean. pose proof (bit_counts _ _ Hf) as Hc.
  rewrite (get_buffer_pages_spec id t key_ok buffer log Hs); rewrite ?Hc, ?counts_join; try done.
  cbn [mbind res_bind]. apply (read_bitmask_spec buffer chunks log); try done; [by apply nonempty_pages|apply Hs].
Qed.

(** The stored form of a null mask with the bits [l]. *)
Definition nullmask_stored (buffer : nat) (l : list bool) : Prop :=
  ∃ log, buffer_stored id s buffer log ∧ Z.of_nat (length log) <= 2 ^ 32 ∧
    if decide (false ∈ l) then
      ∃ chunks mlog, log = mlog ++ [(0%nat, [])] ∧ Forall2 bit_page chunks mlog ∧ mjoin chunks = l ∧
        chunks ≠ [] ∧ Forall (λ c, (0 < length c)%nat) chunks
    else log = [(length l, [])].

Lemma read_null_mask_spec buffer l ranges : nullmask_stored buffer l → Z.of_nat (length l) <= u32_max →
  (buffer < tr_num_buffers t)%nat → ranges_ok (length l) ranges →
  read_null_mask t buffer ranges = Ok (if decide (false ∈ l) then Some (select_opt ranges l) else None) ∧
  ∃ pages, get_nullmask_pages t buffer = Ok pages ∧ last pages = Some (Z.of_nat (length l)).
Proof.
  intros (log & Hst & Hl & Hlog) Ht Hb Hr. unfold read_null_mask.
  assert (∀ log' (n : nat), log' = log → total log'.*1 = Z.of_nat (length l) → (2 <= length (cumul 0 log'.*1))%nat →
    ((2 < length (cumul 0 log'.*1))%nat → ∃ front, log' = front ++ [(0%nat, [])]) →
    get_nullmask_pages t buffer = Ok (cumul 0 log'.*1)) as Hget.
  { intros log' _ -> Htot Hge2 Hfront. unfold get_nullmask_pages.
    rewrite (get_buffer_pages_spec id t key_ok buffer log Hst) by (done || lia). cbn [mbind res_bind].
    rewrite (proj2 (Nat.leb_le _ _) Hge2). cbn [ensure mbind res_bind]. case_if; [|done]. apply Nat.ltb_lt in Heqb.
    destruct (Hfront Heqb) as [front ->]. rewrite cumul_length, !length_fmap, length_app in *. cbn [length] in *.
    rewrite !at_cumul by (rewrite length_fmap, length_app; cbn; lia). cbn [mbind res_bind].
    rewrite (take_ge _ (S (length front + 1) - 1)) by (rewrite length_fmap, length_app; cbn; lia).
    rewrite fmap_app, take_app_length' by (rewrite length_fmap; lia).
    rewrite total_app. assert (total [(0%nat, @nil Z)].*1 = 0) as -> by done. rewrite Z.add_0_r, Z.eqb_refl. done. }
  case_decide as Hd.
  - destruct Hlog as (chunks & mlog & -> & Hf & Hj & Hne & Hpos).
    assert (Forall2 bit_page (chunks ++ [[]]) (mlog ++ [(0%nat, [])])) as Hf'.
    { apply Forall2_app; [done|]. constructor; [done|constructor]. }
    pose proof (bit_counts _ _ Hf') as Hc.
    assert (mjoin (chunks ++ [[]]) = l) as Hj' by (rewrite join_app, join_one, app_nil_r; done).
    assert (length (mlog ++ [(0%nat, @nil Z)]) = length (chunks ++ [[]])) as Hll by (symmetry; by eapply Forall2_length).
    assert (0 < length chunks)%nat by (destruct chunks; [done|simpl; lia]).
    specialize (Hget _ 0%nat eq_refl). rewrite Hc, counts_join, Hj', cumul_length, length_fmap, length_app in Hget.
    cbn [length] in Hget. rewrite Hget; [|done|lia|by eexists]. split.
    + cbn [mbind res_bind]. rewrite cumul_length, length_fmap, length_app. cbn [length].
      rewrite (proj2 (Nat.eqb_neq _ _)) by lia. unfold offset_buffer_slice.
      rewrite subslice_part by (rewrite cumul_length, length_fmap, length_app; cbn; lia).
      assert (part 0 (0 + (S (length chunks + 1) - 1) + 1 - 0) (cumul 0 (length <$> chunks ++ [[]]))
        = cumul 0 (length <$> chunks ++ [[]])) as ->.
      { unfold part. rewrite drop_0, take_ge; [done|]. rewrite cumul_length, length_fmap, length_app. cbn. lia. }
      cbn [mbind res_bind]. rewrite (read_bitmask_spec buffer (chunks ++ [[]]) (mlog ++ [(0%nat, [])])); rewrite ?Hj'; try done.
      * exists chunks, [[]]. split; [done|]. split; [done|]. by repeat constructor.
      * apply Hst.
      * rewrite <-Hll. lia.
    + eexists. split; [done|]. by rewrite last_cumul, counts_join, Hj'.
  - subst log. specialize (Hget _ 0%nat eq_refl). cbn [fmap list_fmap fst] in Hget.
    assert (total [length l] = Z.of_nat (length l)) as Etl by (unfold total; cbn; lia).
    rewrite Hget; [|done|cbn; lia|cbn; lia]. split; [done|]. eexists. split; [done|]. by rewrite last_cumul, Etl.
Qed.
End bits.

(** ** Offsets and the values they name are read back

    A ranged read of offsets reads one more offset per range than it has rows, rebases every run in place and
    derives the ranges of values.  The result is the offset buffer of the selected rows, and
    the ranges of values name exactly their values. *)

(** ** Sealing keeps the selection *)

Lemma part_glue {A} (a b c : nat) (l : list A) : (a <= b)%nat → (b <= c)%nat →
  part a (b - a) l ++ part b (c - b) l = part a (c - a) l.
Proof.
  intros. replace (c - a)%nat with (b - a + (c - b))%nat by lia. rewrite part_add. do 2 f_equal. lia.
Qed.

Lemma seal_from_spec {A} (l : list A) rest : ∀ head lo, wf lo (head :: rest) → 0 <= lo →
  ∃ out, seal_from head rest = Ok out ∧ wf lo out ∧ out ≠ [] ∧ list_end out = list_end (head :: rest) ∧
    select out l = select (head :: rest) l.
Proof.
  induction rest as [|next rest IH]; intros head lo (Hh & Hwf) Hlo; cbn [seal_from].
  { exists [head]. repeat split; try done; lia. }
  destruct Hwf as (Hn & Hwf).
  assert (list_end (head :: next :: rest) = list_end (next :: rest)) as He by done.
  destruct (Z.compare_spec (rend head) (rstart next)) as [E|Hlt|Hgt]; [| |lia].
  - destruct (IH (Range (rstart head) (rend next)) lo) as (out & Eo & Hwo & Hne & Heo & Hs); [|done|].
    { split; [cbn; lia|done]. }
    exists out. split; [done|]. split; [done|]. split; [done|].
    split; [rewrite Heo, He; unfold list_end; by destruct rest|]. rewrite Hs. unfold select. cbn [fmap list_fmap].
    rewrite !join_cons, app_assoc. f_equal. unfold range_len. cbn [rstart rend]. rewrite <-E.
    pose proof (part_glue (Z.to_nat (rstart head)) (Z.to_nat (rend head)) (Z.to_nat (rend next)) l ltac:(lia) ltac:(lia)) as Hg.
    rewrite !Z2Nat.inj_sub by lia. symmetry. exact Hg.
  - destruct (IH next (rend head)) as (out & -> & Hwo & Hne & Heo & Hs); [|lia|].
    { split; [lia|done]. }
    cbn [mbind res_bind]. exists (head :: out). split; [done|]. split; [split; [lia|done]|]. split; [done|].
    split; [rewrite He, <-Heo; unfold list_end; by destruct out|]. unfold select in *. cbn [fmap list_fmap] in *.
    by rewrite (join_cons (part (Z.to_nat (rstart head)) _ _)), Hs.
Qed.

(** ** Runs of rows *)

(** The run of lengths of a range, with the offset it starts at. *)
Definition run (lens : list nat) (r : range) : Z * list nat :=
  (total (take (Z.to_nat (rstart r)) lens), part (Z.to_nat (rstart r)) (range_len r) lens).
Definition run_offsets (x : Z * list nat) : list Z := cumul x.1 x.2.

Fixpoint runs_ok (lo hi : Z) (runs : list (Z * list nat)) : Prop :=
  match runs with
  | [] => lo <= hi
  | x :: runs => lo <= x.1 ∧ runs_ok (x.1 + total x.2) hi runs
  end.

Lemma runs_ok_bound lo hi runs : runs_ok lo hi runs → lo <= hi.
Proof.
  revert lo; induction runs as [|x runs IH]; intros lo Hr; [done|]. destruct Hr as [? Hr%IH].
  pose proof (total_nonneg x.2). lia.
Qed.

Lemma total_take_mono i j lens : (i <= j)%nat → total (take i lens) <= total (take j lens).
Proof. intros. replace (take i lens) with (take i (take j lens)); [apply total_take|]. rewrite take_take. f_equal. lia. Qed.

Lemma runs_of_ranges lens rs : ∀ lo, wf lo rs → 0 <= lo → Forall (λ r, rend r <= Z.of_nat (length lens)) rs →
  runs_ok (total (take (Z.to_nat lo) lens)) (total lens) (run lens <$> rs) ∧
  Forall2 (λ r x, range_len r = length x.2) rs (run lens <$> rs).
Proof.
  induction rs as [|r rs IH]; intros lo Hwf Hlo Hf; cbn [fmap list_fmap].
  { split; [apply total_take|constructor]. }
  destruct Hwf as [Hr Hwf]. apply Forall_cons in Hf as [Hr' Hf].
  destruct (IH (rend r) Hwf ltac:(lia) Hf) as [H1 H2]. split.
  - split; [apply total_take_mono; lia|]. cbn [run fst snd]. rewrite <-total_app.
    unfold range_len. rewrite <-take_add_part. rewrite <-Z2Nat.inj_add by lia.
    by replace (rstart r + (rend r - rstart r)) with (rend r) by lia.
  - constructor; [|done]. cbn [run snd]. rewrite part_length; [done|]. unfold range_len. lia.
Qed.

Lemma validate_runs runs : ∀ prev lo hi, runs_ok lo hi runs → prev <= lo →
  validate_monotone prev (mjoin (run_offsets <$> runs)) = Ok tt.
Proof.
  induction runs as [|[b ls] runs IH]; intros prev lo hi Hr Hp; cbn [fmap list_fmap]; [done|].
  rewrite join_cons. destruct Hr as [Hlo Hr]. cbn [fst snd] in *. unfold run_offsets at 1. cbn [fst snd].
  assert (∀ ls prev b, prev <= b → (∀ x, x <= b + total ls → validate_monotone x (mjoin (run_offsets <$> runs)) = Ok tt) →
    validate_monotone prev (cumul b ls ++ mjoin (run_offsets <$> runs)) = Ok tt) as Haux.
  { clear. intros ls. induction ls as [|n ls IH]; intros prev b Hp Hx; cbn [cumul app validate_monotone];
      (rewrite (proj2 (Z.ltb_ge _ _)) by done).
    - apply Hx. unfold total. simpl. lia.
    - apply IH; [lia|]. intros x Hle. apply Hx. rewrite total_cons. lia. }
  apply Haux; [lia|]. intros x Hx. eapply IH; [exact Hr|lia].
Qed.

(** ** The ranges of values *)

Definition run_values {A} (l : list A) (x : Z * list nat) : list A := part (Z.to_nat x.1) (Z.to_nat (total x.2)) l.

(** Appending a non-empty range, merged with the last one when they touch. *)
Definition push_range (out : list range) (vr : range) : list range :=
  match last out with
  | Some prev => if rend prev =? rstart vr
                 then take (length out - 1) out ++ [Range (rstart prev) (rend vr)]
                 else out ++ [vr]
  | None => out ++ [vr]
  end.

Lemma sealed_app lo a b : sealed lo (a ++ b) ↔ sealed lo a ∧ sealed (from_option rend lo (last a)) b.
Proof.
  revert lo; induction a as [|r a IH]; intros lo; [cbn; tauto|]. cbn [app sealed]. rewrite IH.
  destruct a as [|r' a]; [cbn; tauto|]. rewrite (last_cons r (r' :: a)).
  destruct (last (r' :: a)) as [x|] eqn:E; [cbn; tauto|]. by apply last_None in E.
Qed.
Lemma sealed_last lo a : sealed lo a → lo <= from_option rend lo (last a).
Proof.
  revert lo; induction a as [|r a IH]; intros lo Hs; [cbn; lia|]. destruct Hs as [Hr Hs]. specialize (IH _ Hs).
  destruct a as [|r' a]; [cbn; lia|]. rewrite last_cons. destruct (last (r' :: a)) as [x|] eqn:E; cbn in *; [lia|].
  by apply last_None in E.
Qed.
Lemma list_end_snoc out r : list_end (out ++ [r]) = rend r.
Proof. unfold list_end. by rewrite last_snoc. Qed.
Lemma select_app {A} (a b : list range) (l : list A) : select (a ++ b) l = select a l ++ select b l.
Proof. unfold select. by rewrite fmap_app, join_app. Qed.
Lemma select_one {A} r (l : list A) : select [r] l = part (Z.to_nat (rstart r)) (range_len r) l.
Proof. unfold select. cbn [fmap list_fmap]. by rewrite join_one. Qed.

Lemma push_range_spec out vr : sealed (-1) out → list_end out <= rstart vr → 0 <= rstart vr < rend vr →
  sealed (-1) (push_range out vr) ∧ list_end (push_range out vr) = rend vr ∧
  ∀ A (l : list A), select (push_range out vr) l = select out l ++ part (Z.to_nat (rstart vr)) (range_len vr) l.
Proof.
  intros Hs He Hv. unfold push_range. destruct out as [|x out'] using rev_ind; [|clear IHout'].
  { cbn [last app]. split; [split; [lia|done]|]. split; [done|]. intros A l. by rewrite select_one. }
  rewrite last_snoc, length_app. cbn [length]. rewrite Nat.add_sub, take_app_length. rewrite list_end_snoc in He.
  apply sealed_app in Hs as [Hs [Hx _]]. case_if; zbool.
  - rewrite list_end_snoc. split; [apply sealed_app; split; [done|]; split; [cbn; lia|done]|]. split; [done|].
    intros A l. rewrite !select_app, !select_one, <-app_assoc. f_equal. unfold range_len. cbn [rstart rend].
    pose proof (sealed_last (-1) out' Hs).
    rewrite !Z2Nat.inj_sub by lia. rewrite <-Heqb. symmetry. apply part_glue; lia.
  - rewrite list_end_snoc. split; [|split; [done|]].
    + rewrite <-app_assoc. apply sealed_app. split; [done|]. cbn. split; [done|]. lia.
    + intros A l. by rewrite (select_app (out' ++ [x])), select_one.
Qed.

Lemma at_app_mid {A} (a b : list A) i : at_ (a ++ b) (length a + i) = at_ b i.
Proof. unfold at_. by rewrite lookup_app_r, Nat.add_comm, Nat.add_sub by lia. Qed.
Lemma at_app_l {A} (a b : list A) i : (i < length a)%nat → at_ (a ++ b) i = at_ a i.
Proof. intros. unfold at_. by rewrite lookup_app_l. Qed.

Lemma value_ranges_spec rs runs : Forall2 (λ r x, range_len r = length x.2) rs runs →
  ∀ lo hi pre out, runs_ok lo hi runs → 0 <= lo → hi <= i32_max → sealed (-1) out → list_end out <= lo →
  ∃ vrs, value_ranges_loop (pre ++ mjoin (run_offsets <$> runs)) rs (length pre) out = Ok vrs ∧
    sealed (-1) vrs ∧ list_end vrs <= hi ∧
    ∀ A (l : list A), select vrs l = select out l ++ mjoin (run_values l <$> runs).
Proof.
  induction 1 as [|r [b ls] rs runs Hrl Hf IH]; intros lo hi pre out Hr Hlo Hhi Hs He; cbn [value_ranges_loop].
  { exists out. split; [done|]. split; [done|]. cbn in Hr. split; [lia|]. intros A l. cbn. by rewrite app_nil_r. }
  destruct Hr as [Hb Hr]. cbn [fst snd] in *. pose proof (runs_ok_bound _ _ _ Hr). pose proof (total_nonneg ls).
  rewrite fmap_cons, join_cons. change (run_offsets (b, ls)) with (cumul b ls).
  assert (at_ (pre ++ cumul b ls ++ mjoin (run_offsets <$> runs)) (length pre) = Ok b) as ->.
  { rewrite <-(Nat.add_0_r (length pre)) at 1. rewrite at_app_mid, at_app_l by (rewrite cumul_length; lia).
    rewrite at_cumul by lia. unfold total. cbn. by rewrite Z.add_0_r. }
  rewrite Hrl. cbn [mbind res_bind]. rewrite at_app_mid, at_app_l by (rewrite cumul_length; lia).
  rewrite at_cumul, (take_ge ls) by lia. cbn [mbind res_bind].
  unfold as_u32. unfold i32_max in *. rewrite !Z.mod_small by lia. cbn [rstart rend].
  replace (length pre + length ls + 1)%nat with (length (pre ++ cumul b ls)) by (rewrite length_app, cumul_length; lia).
  rewrite app_assoc.
  assert (∀ A (l : list A), run_values l (b, ls) = part (Z.to_nat b) (range_len (Range b (b + total ls))) l) as Hrv.
  { intros A l. unfold run_values, range_len. cbn [fst snd rstart rend]. f_equal. lia. }
  case_if; zbool.
  - destruct (push_range_spec out (Range b (b + total ls))) as (Hs' & He' & Hsel); [done|cbn; lia|cbn; lia|].
    change (match last out with Some prev => _ | None => _ end) with (push_range out (Range b (b + total ls))).
    destruct (IH (b + total ls) hi (pre ++ cumul b ls) _ Hr ltac:(lia) ltac:(lia) Hs') as (vrs & E & Hvs & Hve & Hvsel).
    { rewrite He'. cbn. lia. }
    exists vrs. split; [exact E|]. split; [done|]. split; [done|]. intros A l.
    by rewrite Hvsel, Hsel, fmap_cons, join_cons, Hrv, app_assoc.
  - destruct (IH (b + total ls) hi (pre ++ cumul b ls) out Hr ltac:(lia) ltac:(lia) Hs ltac:(lia)) as (vrs & E & Hvs & Hve & Hvsel).
    exists vrs. split; [exact E|]. split; [done|]. split; [done|]. intros A l. rewrite Hvsel, fmap_cons, join_cons, Hrv.
    unfold range_len. cbn [rstart rend]. replace (Z.to_nat (b + total ls - b)) with 0%nat by lia. done.
Qed.

(** ** Rebasing the offsets in place *)

Lemma rebase_segment b d ls : 0 <= b → b + total ls <= i32_max → 0 <= d → d + total ls <= i32_max →
  (λ o, i32_add (i32_sub o b) d) <$> cumul b ls = cumul d ls.
Proof.
  intros Hb1 Hb2 Hd1 Hd2. rewrite <-(cumul_shift b d ls). apply list_fmap_ext. intros i o Ho.
  pose proof (cumul_bounds b ls o Hb1 Hb2 (list_elem_of_lookup_2 _ _ _ Ho)) as Hbd.
  unfold i32_add, i32_sub. pose proof (total_nonneg ls). i32_small. done.
Qed.

(** [done_]: the lengths of the runs handled so far; their offsets are at the front. *)
Lemma rebase_spec rs runs : Forall2 (λ r x, range_len r = length x.2) rs runs →
  ∀ lo hi done_ shift pre, runs_ok lo hi runs → 0 <= lo → hi <= i32_max → total done_ <= lo →
  length pre = (length done_ + shift)%nat → take (length done_) pre = take (length done_) (cumul 0 done_) →
  ∃ arr, rebase_loop rs shift (length pre) (total done_) (pre ++ mjoin (run_offsets <$> runs)) = Ok arr ∧
    length arr = (length (mjoin (snd <$> runs)) + length done_ + shift + length rs)%nat ∧
    (rs ≠ [] → take (S (length (done_ ++ mjoin (snd <$> runs)))) arr = cumul 0 (done_ ++ mjoin (snd <$> runs))).
Proof.
  induction 1 as [|r [b ls] rs runs Hrl Hf IH]; intros lo hi done_ shift pre Hr Hlo Hhi Hd Hlp Hpre; cbn [rebase_loop].
  { exists pre. cbn. rewrite app_nil_r. split; [done|]. split; [lia|done]. }
  destruct Hr as [Hb Hr]. cbn [fst snd] in *. pose proof (runs_ok_bound _ _ _ Hr). pose proof (total_nonneg ls).
  pose proof (total_nonneg done_).
  rewrite fmap_cons, join_cons. change (run_offsets (b, ls)) with (cumul b ls).
  set (rest := mjoin (run_offsets <$> runs)) in *.
  assert (at_ (pre ++ cumul b ls ++ rest) (length pre) = Ok b) as ->.
  { rewrite <-(Nat.add_0_r (length pre)) at 1. rewrite at_app_mid, at_app_l by (rewrite cumul_length; lia).
    rewrite at_cumul by lia. unfold total. cbn. by rewrite Z.add_0_r. }
  cbn [mbind res_bind]. rewrite Hrl.
  assert (length (cumul b ls) = length ls + 1)%nat as Hcl by (rewrite cumul_length; lia).
  assert (∀ d, length (cumul d ls) = length ls + 1)%nat as Hcl' by (intros; rewrite cumul_length; lia).
  rewrite subslice_part by (rewrite !length_app; lia). cbn [mbind res_bind].
  assert (part (length pre) (length pre + length ls + 1 - length pre) (pre ++ cumul b ls ++ rest) = cumul b ls) as ->.
  { unfold part. rewrite drop_app_length, take_app_length' by lia. done. }
  rewrite rebase_segment, take_app_length by lia.
  assert (drop (length pre + length ls + 1) (pre ++ cumul b ls ++ rest) = rest) as ->.
  { rewrite <-Nat.add_assoc, drop_app_add, drop_app_length' by lia. done. }
  set (seg := cumul (total done_) ls).
  assert (at_ (pre ++ seg ++ rest) (length pre + length ls + 1 - 1) = Ok (total (done_ ++ ls))) as ->.
  { replace (length pre + length ls + 1 - 1)%nat with (length pre + length ls)%nat by lia.
    rewrite at_app_mid, at_app_l by (unfold seg; rewrite cumul_length; lia). unfold seg.
    rewrite at_cumul, take_ge, total_app by lia. done. }
  cbn [mbind res_bind]. unfold copy_within. rewrite subslice_part by (unfold seg; rewrite !length_app, Hcl'; lia).
  cbn [mbind res_bind].
  assert (part (length pre) (length pre + length ls + 1 - length pre) (pre ++ seg ++ rest) = seg) as ->.
  { unfold part. rewrite drop_app_length, take_app_length' by (unfold seg; rewrite Hcl'; lia). done. }
  replace (length pre - shift)%nat with (length done_) by lia.
  replace (length pre + length ls + 1 - length pre)%nat with (length ls + 1)%nat by lia.
  rewrite (proj2 (Nat.leb_le _ _)) by (unfold seg; rewrite !length_app, Hcl'; lia). cbn [mbind res_bind].
  set (pre' := take (length done_) pre ++ seg ++ drop (length done_ + (length ls + 1)) (pre ++ seg)).
  assert (take (length done_) (pre ++ seg ++ rest) ++ seg ++ drop (length done_ + (length ls + 1)) (pre ++ seg ++ rest)
    = pre' ++ rest) as ->.
  { unfold pre'. rewrite take_app_le by lia. rewrite (app_assoc pre seg rest), drop_app_le by (unfold seg; rewrite length_app, Hcl'; lia).
    by rewrite <-!app_assoc. }
  assert (length pre' = length pre + length ls + 1)%nat as Hl'.
  { unfold pre', seg. rewrite !length_app, length_take, length_drop, length_app, Hcl'. lia. }
  assert (take (S (length (done_ ++ ls))) pre' = cumul 0 (done_ ++ ls)) as Hfront.
  { unfold pre'. rewrite app_assoc, take_app_length'.
    - rewrite Hpre. unfold seg. rewrite <-(take_cumul_app done_ ls). f_equal.
      rewrite cumul_app. rewrite take_app_le; [done|]. rewrite cumul_length. lia.
    - unfold seg. rewrite !length_app, length_take, Hcl'. lia. }
  rewrite <-Hl'.
  destruct (IH (b + total ls) hi (done_ ++ ls) (S shift) pre') as (arr & E & Hla & Htk); try done; try lia.
  { rewrite total_app. lia. }
  { rewrite Hl', Hlp, length_app. lia. }
  { rewrite <-Hfront, take_take. f_equal. lia. }
  exists arr. rewrite E. split; [done|]. rewrite fmap_cons, join_cons. cbn [snd].
  split; [rewrite Hla, !length_app; cbn [length]; lia|]. intros _. rewrite app_assoc.
  destruct rs as [|r' rs]; [|by apply Htk].
  inversion Hf; subst. cbn [fmap list_fmap mjoin list_join] in *. rewrite app_nil_r. cbn [rebase_loop] in E. injection E as <-.
  unfold rest. cbn. rewrite app_nil_r. done.
Qed.

Section offsets.
Context `{KvStoreLaws M C} `{ArrowBitsLaws} (id : TableId) (t : TableReader (M := M)).
Hypothesis key_ok : factory_for id (tr_key t).
Abbreviation s := (tr_storage t).

(** The stored form of the offsets of parts of the given lengths. *)
Definition offsets_stored (buffer : nat) (lens : list nat) : Prop :=
  ∃ chunks, buffer_stored id s buffer (offsets_log chunks) ∧ mjoin chunks = cumul 0 lens ∧ Forall (λ c, c ≠ []) chunks.

Lemma read_offset_bytes buffer lens ranges : offsets_stored buffer lens → Z.of_nat (length lens) < u32_max →
  (buffer < tr_num_buffers t)%nat → ranges_ok (S (length lens)) ranges →
  read_native_bytes t buffer 4 ranges = Ok (mjoin (i32_bytes <$> select_opt ranges (cumul 0 lens))).
Proof.
  intros (chunks & Hst & Hj & Hne) Hl Hb Hr. rewrite offsets_log_native in Hst.
  assert (mjoin ((λ c : list Z, i32_bytes <$> c) <$> chunks) = i32_bytes <$> cumul 0 lens) as Hj'.
  { rewrite <-Hj. clear. induction chunks as [|c chunks IH]; [done|]. by rewrite fmap_cons, !join_cons, fmap_app, IH. }
  rewrite (read_native_bytes_spec id t key_ok 4 buffer ((λ c : list Z, i32_bytes <$> c) <$> chunks)); rewrite ?Hj'; try done; try lia.
  - f_equal. f_equal. destruct ranges as [rs|]; [|done]. cbn. unfold select. clear.
    induction rs as [|r rs IH]; [done|]. rewrite !fmap_cons, !join_cons, fmap_app, IH. f_equal.
    unfold part. by rewrite <-fmap_drop, <-fmap_take.
  - apply Forall_fmap, Forall_true. intros x. apply le_bytes_length.
  - apply Forall_fmap. eapply Forall_impl; [exact Hne|]. intros c Hc. cbn. rewrite length_fmap. destruct c; [done|simpl; lia].
  - rewrite length_fmap, cumul_length. lia.
  - by rewrite length_fmap, cumul_length.
Qed.

Lemma read_all_offsets_spec buffer lens : offsets_stored buffer lens → Z.of_nat (length lens) < u32_max →
  total lens <= i32_max → (buffer < tr_num_buffers t)%nat → read_all_offsets t buffer = Ok (cumul 0 lens).
Proof.
  intros Hst Hl Ht Hb. unfold read_all_offsets. rewrite (read_offset_bytes buffer lens None) by done. cbn [mbind res_bind select_opt from_option].
  rewrite i32s_of_join by (apply cumul_forall; lia). by rewrite validate_offsets_cumul.
Qed.

Lemma sealed_shifted_wf lo rs : sealed lo rs → wf (lo + 1) rs.
Proof. revert lo; induction rs as [|r rs IH]; intros lo Hs; [done|]. destruct Hs as [? Hs%IH]. split; [lia|]. eapply wf_weaken; [|done]. lia. Qed.

Lemma sealed_offset_ranges lo rs : sealed lo rs → wf (lo + 1) ((λ r, Range (rstart r) (rend r + 1)) <$> rs).
Proof.
  revert lo; induction rs as [|r rs IH]; intros lo Hs; [done|]. destruct Hs as [? Hs%IH]. cbn [fmap list_fmap].
  split; [cbn; lia|done].
Qed.
Lemma list_end_fmap rs : rs ≠ [] → list_end ((λ r, Range (rstart r) (rend r + 1)) <$> rs) = list_end rs + 1.
Proof.
  intros Hne. destruct (exists_last Hne) as (front & r & ->). rewrite fmap_app. cbn [fmap list_fmap].
  by rewrite !list_end_snoc.
Qed.

Lemma select_offset_ranges lens rs : ∀ lo, wf lo rs → 0 <= lo → Forall (λ r, rend r <= Z.of_nat (length lens)) rs →
  select ((λ r, Range (rstart r) (rend r + 1)) <$> rs) (cumul 0 lens) = mjoin (run_offsets <$> (run lens <$> rs)).
Proof.
  unfold select. induction rs as [|r rs IH]; intros lo Hwf Hlo Hf; [done|]. destruct Hwf as [Hr Hwf]. apply Forall_cons in Hf as [Hr' Hf].
  rewrite !fmap_cons, !join_cons, (IH (rend r)) by (done || lia). f_equal. unfold run_offsets, run. cbn [fst snd rstart rend].
  unfold range_len. cbn [rstart rend].
  replace (Z.to_nat (rend r + 1 - rstart r)) with (Z.to_nat (rend r - rstart r) + 1)%nat by lia.
  rewrite part_cumul by lia. by rewrite Z.add_0_l.
Qed.

(** The offsets of the selected rows, and ranges that select exactly their values. *)
Lemma read_ranged_offsets_spec buffer lens rs : offsets_stored buffer lens → Z.of_nat (length lens) < u32_max →
  total lens <= i32_max → (buffer < tr_num_buffers t)%nat → sealed (-1) rs → list_end rs <= Z.of_nat (length lens) →
  ∃ vrs, read_ranged_offsets t buffer rs = Ok (cumul 0 (select rs lens), vrs) ∧ sealed (-1) vrs ∧
    list_end vrs <= total lens ∧
    ∀ A (l : list A), select vrs l = mjoin (run_values l <$> (run lens <$> rs)).
Proof.
  intros Hst Hl Ht Hb Hs He. unfold read_ranged_offsets. destruct rs as [|r0 rs0] eqn:Ers.
  { exists []. split; [done|]. split; [done|]. split; [apply total_nonneg|done]. }
  rewrite <-Ers in *. assert (rs ≠ []) as Hne by (by rewrite Ers). clear Ers.
  pose proof (sealed_shifted_wf _ _ Hs) as Hwf. pose proof (list_end_forall _ _ Hwf) as Hends.
  assert (Forall (λ r, rend r <= Z.of_nat (length lens)) rs) as Hends'.
  { eapply Forall_impl; [exact Hends|]. cbn. lia. }
  destruct (runs_of_ranges lens rs 0) as [Hruns Hlens]; [done|lia|done|].
  assert (∃ out, seal ((λ r, Range (rstart r) (rend r + 1)) <$> rs) = Ok out ∧ wf 0 out ∧
    list_end out = list_end rs + 1 ∧ select out (cumul 0 lens) = mjoin (run_offsets <$> (run lens <$> rs))) as (out & -> & Hwo & Heo & Hsel).
  { pose proof (sealed_offset_ranges _ _ Hs) as Hw. rewrite <-(list_end_fmap _ Hne), <-(select_offset_ranges lens rs 0) by (done || lia).
    destruct (fmap (M := list) (λ r, Range (rstart r) (rend r + 1)) rs) as [|h l] eqn:E; [by apply fmap_nil_inv in E|].
    destruct (seal_from_spec (cumul 0 lens) l h 0 Hw ltac:(lia)) as (out & Eo & Hwo & _ & Heo & Hsel). by exists out. }
  cbn [mbind res_bind].
  rewrite (read_offset_bytes buffer lens (Some out)) by (done || (intros ? [= <-]; split; [done|lia])).
  cbn [mbind res_bind select_opt from_option]. rewrite Hsel.
  assert (total (take (Z.to_nat 0) lens) = 0) as E0 by done. rewrite E0 in Hruns.
  assert (Forall (λ x, 0 <= x <= i32_max) (mjoin (run_offsets <$> (run lens <$> rs)))) as Hall.
  { rewrite <-Hsel. pose proof (cumul_forall 0 lens i32_max ltac:(lia) ltac:(lia)) as Hc. clear -Hc.
    unfold select. induction out as [|r out IH]; [constructor|]. rewrite fmap_cons, join_cons. apply Forall_app. split; [|done].
    unfold part. by apply Forall_take, Forall_drop. }
  rewrite i32s_of_join by done.
  assert (validate_offsets (mjoin (run_offsets <$> (run lens <$> rs))) 0 = Ok tt) as ->.
  { unfold validate_offsets. pose proof (validate_runs _ 0 0 _ Hruns ltac:(lia)) as Hv.
    destruct (mjoin (run_offsets <$> (run lens <$> rs))) as [|x l] eqn:E.
    - destruct rs as [|r rs]; [done|]. rewrite !fmap_cons, join_cons in E. apply app_eq_nil in E as [E _].
      apply (f_equal length) in E. unfold run_offsets in E. rewrite cumul_length in E. done.
    - apply Forall_cons in Hall as [Hx _]. by rewrite (proj2 (Z.ltb_ge _ _)) by lia. }
  cbn [mbind res_bind].
  destruct (value_ranges_spec rs _ Hlens 0 (total lens) [] [] Hruns) as (vrs & Ev & Hvs & Hve & Hvsel); try done; try lia.
  cbn [app length] in Ev. rewrite Ev. cbn [mbind res_bind].
  destruct (rebase_spec rs _ Hlens 0 (total lens) [] 0 [] Hruns) as (arr & Ea & Hla & Htk); try done; try lia.
  cbn [app length] in Ea, Hla, Htk. assert (total [] = 0) as Et0 by done. rewrite Et0 in Ea. rewrite Ea. cbn [mbind res_bind].
  assert (mjoin (snd <$> (run lens <$> rs)) = select rs lens) as Esel.
  { unfold select. clear. induction rs as [|r rs IH]; [done|]. rewrite !fmap_cons, !join_cons. by rewrite IH. }
  rewrite Esel in *. exists vrs. split; [|done].
  assert (1 <= length rs)%nat by (destruct rs; [done|simpl; lia]).
  replace (length arr - (length rs - 1))%nat with (S (length (select rs lens))) by lia. by rewrite Htk.
Qed.
End offsets.
