(* ===== verification/Slices.v ===== *)
(** * Slices: views of columns and their writes

    Models crates/array/src/slice: bitmask.rs, nullmask.rs, boolean.rs, primitive.rs, native.rs,
    list.rs, fixed_size_list.rs, struct.rs and any.rs; the range list adapters of
    crates/array/src/index/mod.rs; and the [ArrayWriter] trait of
    crates/array/src/writer/mod.rs.

    A slice writes itself, a range, several ranges or some rows of itself into the buffers of
    an [ArrayWriter], starting at a buffer position; [dst.shift(n)] is the position plus [n].
    A write to one buffer is data ([buf_op]); an [ArrayWriter] performs it.

    [Slice] has one constructor per implementation of the trait: a plain slice of values, the
    boolean and primitive slices, the two generic list slices, the struct slice and
    [AnyListItem].  The variants of [AnySlice] for integers and floats are [Primitive], [Binary] is
    [ListSlice] over [Native], [List] is [ListSlice] over [ListItem], and so on.  An
    iterator of indexes comes with the lower bound of its size hint. *)

From S2P Require Import Prelude Bytes Bits Offsets.

(** ** ArrayWriter *)

Inductive buf_op : Type :=
| NullmaskOp (op : bit_op)
| BitmaskOp (op : bit_op)
| NativeOp (op : native_op)
| OffsetOp (op : offset_op).

Class ArrayWriter (W : Type) : Type := array_write : nat → buf_op → W → res W.

Definition assert_ (c : bool) (msg : string) : res unit := if c then Ok tt else Panic msg.
Fixpoint map_res {A B} (f : A → res B) (l : list A) : res (list B) :=
  match l with [] => Ok [] | x :: l => y ← f x; ys ← map_res f l; Ok (y :: ys) end.

(** ** Range lists *)

(** [ShiftedRangeList::iter] *)
Definition shift_ranges (offset len : nat) (ranges : list nrange) : res (list nrange) :=
  map_res (λ r, _ ← assert_ ((r.1 <=? len) && (r.2 <=? len))%nat%bool "range is out of upper bound";
                Ok (offset + r.1, offset + r.2)%nat) ranges.
(** [ScaledRangeList::iter] *)
Definition scale_ranges (factor : nat) (ranges : list nrange) : list nrange :=
  (λ r, (r.1 * factor, r.2 * factor)%nat) <$> ranges.
(** The bounds of a [MaterializedRangeList] are kept as [u32]. *)
Definition u32_usize (n : nat) : nat := Z.to_nat (Z.of_nat n mod 2 ^ 32).

(** ** bitmask.rs *)

Record BitmaskSlice : Type := mkBits { bs_data : bytes; bs_offset : nat; bs_len : nat }.

Definition bitmask_slice_new (data : bytes) (offset len : nat) : res BitmaskSlice :=
  _ ← assert_ (offset + len <=? length data * 8)%nat "assertion failed: offset + len <= data.len() * 8";
  Ok (mkBits data offset len).
Definition bs_slice (offset len : nat) (m : BitmaskSlice) : res BitmaskSlice :=
  _ ← assert_ (offset + len <=? bs_len m)%nat "assertion failed: offset + len <= self.len";
  Ok (mkBits (bs_data m) (bs_offset m + offset) len).
(** The assertion compares the position in the data with the length of the slice. *)
Definition bs_value (m : BitmaskSlice) (i : nat) : res bool :=
  _ ← assert_ (bs_offset m + i <? bs_len m)%nat "assertion failed: self.offset + i < self.len";
  match bits (bs_data m) !! (bs_offset m + i)%nat with
  | Some b => Ok b
  | None => Panic "read out of bounds"
  end.

Definition bs_write (m : BitmaskSlice) : bit_op := BitSlice (bs_data m) (bs_offset m) (bs_len m).
Definition bs_write_range (r : nrange) (m : BitmaskSlice) : option bit_op :=
  if (r.2 <=? r.1)%nat then None else Some (BitSlice (bs_data m) (bs_offset m + r.1) (rlen r)).
Definition bs_write_ranges (ranges : list nrange) (m : BitmaskSlice) : res bit_op :=
  ranges ← shift_ranges (bs_offset m) (bs_len m) ranges; Ok (BitRanges (bs_data m) ranges).
Definition bs_write_indexes (hint : nat) (indexes : list nat) (m : BitmaskSlice) : res bit_op :=
  indexes ← map_res (λ i, _ ← assert_ (i <? bs_len m)%nat "assertion failed: i < self.len"; Ok (bs_offset m + i)%nat) indexes;
  Ok (BitIndexes (bs_data m) hint indexes).

(** ** nullmask.rs *)

Record NullmaskSlice : Type := mkNulls { ns_nulls : option BitmaskSlice; ns_len : nat }.

Definition nullmask_slice_new (len : nat) (nulls : option BitmaskSlice) : res NullmaskSlice :=
  match nulls with
  | Some m => _ ← assert_ (bs_len m =? len)%nat "assertion failed: nulls.len() == len"; Ok (mkNulls nulls len)
  | None => Ok (mkNulls None len)
  end.
Definition ns_slice (offset len : nat) (n : NullmaskSlice) : res NullmaskSlice :=
  _ ← assert_ (offset + len <=? ns_len n)%nat "assertion failed: offset + len <= self.len";
  match ns_nulls n with
  | Some m => m ← bs_slice offset len m; Ok (mkNulls (Some m) len)
  | None => Ok (mkNulls None len)
  end.
Definition ns_is_valid (n : NullmaskSlice) (i : nat) : res bool :=
  _ ← assert_ (i <? ns_len n)%nat "assertion failed: i < self.len";
  match ns_nulls n with Some m => bs_value m i | None => Ok true end.

Definition ns_write (n : NullmaskSlice) : bit_op :=
  match ns_nulls n with Some m => bs_write m | None => BitMany true (ns_len n) end.
Definition ns_write_range (r : nrange) (n : NullmaskSlice) : option bit_op :=
  if (r.2 <=? r.1)%nat then None
  else match ns_nulls n with Some m => bs_write_range r m | None => Some (BitMany true (rlen r)) end.
Definition ns_write_ranges (ranges : list nrange) (n : NullmaskSlice) : res bit_op :=
  match ns_nulls n with Some m => bs_write_ranges ranges m | None => Ok (BitMany true (span ranges)) end.
Definition ns_write_indexes (hint : nat) (indexes : list nat) (n : NullmaskSlice) : res bit_op :=
  match ns_nulls n with
  | Some m => bs_write_indexes hint indexes m
  | None => Ok (BitMany true (length indexes))
  end.

(** ** The slices *)

Inductive Slice : Type :=
| Native (width : nat) (values : list bytes)
| BooleanSlice (nulls : NullmaskSlice) (values : BitmaskSlice)
| PrimitiveSlice (nulls : NullmaskSlice) (width : nat) (values : list bytes)
| ListSlice (nulls : NullmaskSlice) (offsets : list Z) (values : Slice)
| FixedSizeListSlice (size : nat) (nulls : NullmaskSlice) (values : Slice)
| AnyStructSlice (nulls : NullmaskSlice) (columns : list Slice) (offset len : nat)
| ListItem (item : Slice).

Fixpoint depth (s : Slice) : nat :=
  match s with
  | ListSlice _ _ values | FixedSizeListSlice _ _ values | ListItem values => S (depth values)
  | AnyStructSlice _ columns _ _ => S (max_list_with depth columns)
  | _ => O
  end.

Fixpoint num_buffers (s : Slice) : nat :=
  match s with
  | Native _ _ => 1
  | BooleanSlice _ _ | PrimitiveSlice _ _ _ => 2
  | ListSlice _ _ values => 2 + num_buffers values
  | FixedSizeListSlice _ _ values => 1 + num_buffers values
  | AnyStructSlice _ columns _ _ => 1 + sum_list_with num_buffers columns
  | ListItem item => num_buffers item
  end.

Fixpoint slice_len (s : Slice) : nat :=
  match s with
  | Native _ values => length values
  | BooleanSlice _ values => bs_len values
  | PrimitiveSlice _ _ values => length values
  | ListSlice nulls _ _ | FixedSizeListSlice _ nulls _ => ns_len nulls
  | AnyStructSlice _ _ _ len => len
  | ListItem item => slice_len item
  end.

Definition ns_byte_size (n : NullmaskSlice) : nat := from_option (λ m, ceil8 (bs_len m)) 0%nat (ns_nulls n).
Fixpoint byte_size (s : Slice) : nat :=
  match s with
  | Native width values => length values * width
  | BooleanSlice nulls values => ns_byte_size nulls + ceil8 (bs_len values)
  | PrimitiveSlice nulls width values => ns_byte_size nulls + length values * width
  | ListSlice nulls offsets values => ns_byte_size nulls + length offsets * 4 + byte_size values
  | FixedSizeListSlice _ nulls values => ns_byte_size nulls + byte_size values
  | AnyStructSlice nulls columns _ _ => ns_byte_size nulls + sum_list_with byte_size columns
  | ListItem item => byte_size item
  end.

Fixpoint slice (offset len : nat) (s : Slice) : res Slice :=
  match s with
  | Native width values => values ← subslice values offset (offset + len); Ok (Native width values)
  | BooleanSlice nulls values =>
      nulls ← ns_slice offset len nulls; values ← bs_slice offset len values; Ok (BooleanSlice nulls values)
  | PrimitiveSlice nulls width values =>
      nulls ← ns_slice offset len nulls; values ← subslice values offset (offset + len);
      Ok (PrimitiveSlice nulls width values)
  | ListSlice nulls offsets values =>
      nulls ← ns_slice offset len nulls; offsets ← offsets_slice offset len offsets;
      Ok (ListSlice nulls offsets values)
  | FixedSizeListSlice size nulls values =>
      nulls ← ns_slice offset len nulls; values ← slice (offset * size) (len * size) values;
      Ok (FixedSizeListSlice size nulls values)
  | AnyStructSlice nulls columns offset' len' =>
      _ ← assert_ (offset + len <=? len')%nat "assertion failed: offset + len <= self.len";
      Ok (AnyStructSlice nulls columns (offset' + offset) len)
  | ListItem _ => Panic "list item does not support slicing"
  end.

(** ** Writes *)

Section writes.
Context `{ArrayWriter W}.

Definition put (pos : nat) (op : buf_op) (w : W) : res W := array_write pos op w.
Definition put_opt (pos : nat) (f : bit_op → buf_op) (op : option bit_op) (w : W) : res W :=
  match op with Some op => put pos (f op) w | None => Ok w end.
Definition put_res (pos : nat) (f : bit_op → buf_op) (op : res bit_op) (w : W) : res W :=
  op ← op; put pos (f op) w.

(** The loop over the columns of a struct or a table, every column behind the previous one. *)
Section columns.
Context (f : Slice → nat → W → res W).
Fixpoint for_columns (columns : list Slice) (pos : nat) (w : W) : res W :=
  match columns with
  | [] => Ok w
  | c :: columns => w ← f c pos w; for_columns columns (pos + num_buffers c) w
  end.
End columns.

(** *** write_range *)

Definition native_write_range (r : nrange) (values : list bytes) (pos : nat) (w : W) : res W :=
  values ← subslice values r.1 r.2; put pos (NativeOp (NatSlice values)) w.
Definition boolean_write_range (r : nrange) (nulls : NullmaskSlice) (values : BitmaskSlice) (pos : nat) (w : W) : res W :=
  w ← put_opt pos NullmaskOp (ns_write_range r nulls) w;
  put_opt (pos + 1) BitmaskOp (bs_write_range r values) w.
Definition primitive_write_range (r : nrange) (nulls : NullmaskSlice) (values : list bytes) (pos : nat) (w : W) : res W :=
  w ← put_opt pos NullmaskOp (ns_write_range r nulls) w;
  values ← subslice values r.1 r.2; put (pos + 1) (NativeOp (NatSlice values)) w.

(** The lists, for a way to write a range of their values. *)
Section values.
Context (values_range : nrange → nat → W → res W).
Definition list_write_range (r : nrange) (nulls : NullmaskSlice) (offsets : list Z) (pos : nat) (w : W) : res W :=
  if (r.2 <=? r.1)%nat then Ok w
  else
    w ← put_opt pos NullmaskOp (ns_write_range r nulls) w;
    offs ← slice_by_range r offsets;
    w ← put (pos + 1) (OffsetOp (OffSlice offs)) w;
    beg ← offset_index offsets r.1;
    end_ ← offset_index offsets r.2;
    values_range (beg, end_) (pos + 2)%nat w.
Definition fixed_write_range (r : nrange) (size : nat) (nulls : NullmaskSlice) (pos : nat) (w : W) : res W :=
  if (r.2 <=? r.1)%nat then Ok w
  else
    w ← put_opt pos NullmaskOp (ns_write_range r nulls) w;
    values_range (r.1 * size, r.2 * size)%nat (pos + 1)%nat w.
End values.

(** [AnyStructSlice::write_src_range], for a way to write a range of a column. *)
Definition struct_write_src_range (column_range : nrange → Slice → nat → W → res W) (r : nrange) (nulls : NullmaskSlice)
    (columns : list Slice) (pos : nat) (w : W) : res W :=
  w ← put_opt pos NullmaskOp (ns_write_range r nulls) w;
  for_columns (column_range r) columns (pos + 1) w.

Fixpoint write_range (r : nrange) (s : Slice) (pos : nat) (w : W) : res W :=
  match s with
  | Native _ values => native_write_range r values pos w
  | BooleanSlice nulls values => boolean_write_range r nulls values pos w
  | PrimitiveSlice nulls _ values => primitive_write_range r nulls values pos w
  | ListSlice nulls offsets values => list_write_range (λ r, write_range r values) r nulls offsets pos w
  | FixedSizeListSlice size nulls values => fixed_write_range (λ r, write_range r values) r size nulls pos w
  | AnyStructSlice nulls columns offset len =>
      _ ← assert_ (rlen r <=? len)%nat "assertion failed: range.len() <= self.len";
      struct_write_src_range write_range (r.1 + offset, r.2 + offset)%nat nulls columns pos w
  | ListItem item => write_range r item pos w
  end.

Definition write_src_range : nrange → NullmaskSlice → list Slice → nat → W → res W := struct_write_src_range write_range.

(** *** write *)

Definition boolean_slice_write (nulls : NullmaskSlice) (values : BitmaskSlice) (pos : nat) (w : W) : res W :=
  w ← put pos (NullmaskOp (ns_write nulls)) w; put (pos + 1) (BitmaskOp (bs_write values)) w.
Definition primitive_slice_write (nulls : NullmaskSlice) (values : list bytes) (pos : nat) (w : W) : res W :=
  w ← put pos (NullmaskOp (ns_write nulls)) w; put (pos + 1) (NativeOp (NatSlice values)) w.
Definition list_slice_write (nulls : NullmaskSlice) (offsets : list Z) (values : Slice) (pos : nat) (w : W) : res W :=
  w ← put pos (NullmaskOp (ns_write nulls)) w;
  w ← put (pos + 1) (OffsetOp (OffSlice offsets)) w;
  r ← offsets_range offsets;
  write_range r values (pos + 2) w.
Definition fixed_slice_write (write_values : nat → W → res W) (nulls : NullmaskSlice) (pos : nat) (w : W) : res W :=
  w ← put pos (NullmaskOp (ns_write nulls)) w; write_values (pos + 1)%nat w.

Fixpoint write (s : Slice) (pos : nat) (w : W) : res W :=
  match s with
  | Native _ values => put pos (NativeOp (NatSlice values)) w
  | BooleanSlice nulls values => boolean_slice_write nulls values pos w
  | PrimitiveSlice nulls _ values => primitive_slice_write nulls values pos w
  | ListSlice nulls offsets values => list_slice_write nulls offsets values pos w
  | FixedSizeListSlice _ nulls values => fixed_slice_write (write values) nulls pos w
  | AnyStructSlice nulls columns offset len => write_src_range (offset, offset + len)%nat nulls columns pos w
  | ListItem item => write item pos w
  end.

(** *** write_ranges *)

Definition boolean_write_ranges (ranges : list nrange) (nulls : NullmaskSlice) (values : BitmaskSlice) (pos : nat) (w : W) : res W :=
  w ← put_res pos NullmaskOp (ns_write_ranges ranges nulls) w;
  put_res (pos + 1) BitmaskOp (bs_write_ranges ranges values) w.
Definition primitive_write_ranges (ranges : list nrange) (nulls : NullmaskSlice) (values : list bytes) (pos : nat) (w : W) : res W :=
  w ← put_res pos NullmaskOp (ns_write_ranges ranges nulls) w;
  put (pos + 1) (NativeOp (NatRanges values ranges)) w.
Section values.
Context (values_ranges : list nrange → nat → W → res W).
Definition list_write_ranges (ranges : list nrange) (nulls : NullmaskSlice) (offsets : list Z) (pos : nat) (w : W) : res W :=
  w ← put_res pos NullmaskOp (ns_write_ranges ranges nulls) w;
  w ← put (pos + 1) (OffsetOp (OffRanges offsets ranges)) w;
  value_ranges ← map_res (λ r, beg ← offset_index offsets r.1; end_ ← offset_index offsets r.2;
                               Ok (u32_usize beg, u32_usize end_)) ranges;
  values_ranges value_ranges (pos + 2)%nat w.
Definition fixed_write_ranges (ranges : list nrange) (size : nat) (nulls : NullmaskSlice) (pos : nat) (w : W) : res W :=
  w ← put_res pos NullmaskOp (ns_write_ranges ranges nulls) w;
  values_ranges (scale_ranges size ranges) (pos + 1)%nat w.
End values.
Definition struct_write_ranges (column_ranges : Slice → nat → W → res W) (ranges : list nrange) (nulls : NullmaskSlice)
    (columns : list Slice) (offset len pos : nat) (w : W) : res W :=
  nulls ← ns_slice offset len nulls;
  w ← put_res pos NullmaskOp (ns_write_ranges ranges nulls) w;
  for_columns (λ c pos w, c ← slice offset len c; column_ranges c pos w) columns (pos + 1) w.

(** [fuel] bounds the nesting: a column of a struct is sliced before it is written. *)
Fixpoint write_ranges_in (fuel : nat) (ranges : list nrange) (s : Slice) (pos : nat) (w : W) : res W :=
  match fuel with
  | O => Panic "out of fuel"
  | S fuel =>
      match s with
      | Native _ values => put pos (NativeOp (NatRanges values ranges)) w
      | BooleanSlice nulls values => boolean_write_ranges ranges nulls values pos w
      | PrimitiveSlice nulls _ values => primitive_write_ranges ranges nulls values pos w
      | ListSlice nulls offsets values => list_write_ranges (λ ranges, write_ranges_in fuel ranges values) ranges nulls offsets pos w
      | FixedSizeListSlice size nulls values => fixed_write_ranges (λ ranges, write_ranges_in fuel ranges values) ranges size nulls pos w
      | AnyStructSlice nulls columns offset len => struct_write_ranges (write_ranges_in fuel ranges) ranges nulls columns offset len pos w
      | ListItem item => write_ranges_in fuel ranges item pos w
      end
  end.
Definition write_ranges (ranges : list nrange) (s : Slice) : nat → W → res W := write_ranges_in (S (depth s)) ranges s.

(** *** write_indexes *)

(** The ranges of the items of the rows; empty ones are left out ([ListSlice::write_indexes]). *)
Fixpoint item_ranges (offsets : list Z) (indexes : list nat) : res (list nrange) :=
  match indexes with
  | [] => Ok []
  | i :: indexes =>
      beg ← offset_index offsets i;
      end_ ← offset_index offsets (i + 1);
      rest ← item_ranges offsets indexes;
      Ok (if (beg <? end_)%nat then (beg, end_) :: rest else rest)
  end.

Definition boolean_write_indexes (hint : nat) (indexes : list nat) (nulls : NullmaskSlice) (values : BitmaskSlice) (pos : nat) (w : W) : res W :=
  w ← put_res pos NullmaskOp (ns_write_indexes hint indexes nulls) w;
  put_res (pos + 1) BitmaskOp (bs_write_indexes hint indexes values) w.
Definition primitive_write_indexes (hint : nat) (indexes : list nat) (nulls : NullmaskSlice) (width : nat) (values : list bytes) (pos : nat) (w : W) : res W :=
  w ← put_res pos NullmaskOp (ns_write_indexes hint indexes nulls) w;
  put (pos + 1) (NativeOp (NatIndexes width hint values indexes)) w.
Definition list_write_indexes (hint : nat) (indexes : list nat) (nulls : NullmaskSlice) (offsets : list Z) (values : Slice) (pos : nat) (w : W) : res W :=
  w ← put_res pos NullmaskOp (ns_write_indexes hint indexes nulls) w;
  w ← put (pos + 1) (OffsetOp (OffIndexes offsets indexes)) w;
  ranges ← item_ranges offsets indexes;
  write_ranges ranges values (pos + 2) w.
Definition fixed_write_indexes (hint : nat) (indexes : list nat) (size : nat) (nulls : NullmaskSlice) (values : Slice) (pos : nat) (w : W) : res W :=
  w ← put_res pos NullmaskOp (ns_write_indexes hint indexes nulls) w;
  write_ranges ((λ i, (i * size, i * size + size)%nat) <$> indexes) values (pos + 1) w.
Definition struct_write_indexes (column_indexes : Slice → nat → W → res W) (hint : nat) (indexes : list nat) (nulls : NullmaskSlice)
    (columns : list Slice) (offset len pos : nat) (w : W) : res W :=
  nulls ← ns_slice offset len nulls;
  w ← put_res pos NullmaskOp (ns_write_indexes hint indexes nulls) w;
  for_columns (λ c pos w, c ← slice offset len c; column_indexes c pos w) columns (pos + 1) w.

Fixpoint write_indexes_in (fuel hint : nat) (indexes : list nat) (s : Slice) (pos : nat) (w : W) : res W :=
  match fuel with
  | O => Panic "out of fuel"
  | S fuel =>
      match s with
      | Native width values => put pos (NativeOp (NatIndexes width hint values indexes)) w
      | BooleanSlice nulls values => boolean_write_indexes hint indexes nulls values pos w
      | PrimitiveSlice nulls width values => primitive_write_indexes hint indexes nulls width values pos w
      | ListSlice nulls offsets values => list_write_indexes hint indexes nulls offsets values pos w
      | FixedSizeListSlice size nulls values => fixed_write_indexes hint indexes size nulls values pos w
      | AnyStructSlice nulls columns offset len => struct_write_indexes (write_indexes_in fuel hint indexes) hint indexes nulls columns offset len pos w
      | ListItem item => write_indexes_in fuel hint indexes item pos w
      end
  end.
Definition write_indexes (hint : nat) (indexes : list nat) (s : Slice) : nat → W → res W :=
  write_indexes_in (S (depth s)) hint indexes s.

(** ** AnyTableSlice (struct.rs) *)

Record AnyTableSlice : Type := mkTableSlice { ts_columns : list Slice; ts_offset : nat; ts_len : nat }.

Definition table_slice_new (columns : list Slice) : res AnyTableSlice :=
  let len := from_option slice_len 0%nat (head columns) in
  _ ← assert_ (forallb (λ c, slice_len c =? len)%nat columns) "assertion failed: c.len() == len";
  Ok (mkTableSlice columns 0 len).
Definition table_slice (offset len : nat) (t : AnyTableSlice) : res AnyTableSlice :=
  _ ← assert_ (offset + len <=? ts_len t)%nat "assertion failed: offset + len <= self.len";
  Ok (mkTableSlice (ts_columns t) (ts_offset t + offset) len).
Definition table_write (t : AnyTableSlice) (w : W) : res W :=
  for_columns (write_range (ts_offset t, ts_offset t + ts_len t)%nat) (ts_columns t) 0 w.
Definition table_write_range (r : nrange) (t : AnyTableSlice) (w : W) : res W :=
  _ ← assert_ ((r.1 <=? ts_len t) && (r.2 <=? ts_len t))%nat%bool
        "assertion failed: range.start <= self.len && range.end <= self.len";
  for_columns (write_range (r.1 + ts_offset t, r.2 + ts_offset t)%nat) (ts_columns t) 0 w.
Definition table_write_ranges (ranges : list nrange) (t : AnyTableSlice) (w : W) : res W :=
  for_columns (λ c pos w, c ← slice (ts_offset t) (ts_len t) c; write_ranges ranges c pos w) (ts_columns t) 0 w.
Definition table_write_indexes (hint : nat) (indexes : list nat) (t : AnyTableSlice) (w : W) : res W :=
  for_columns (λ c pos w, c ← slice (ts_offset t) (ts_len t) c; write_indexes hint indexes c pos w) (ts_columns t) 0 w.
End writes.
