(* ===== verification/SliceSpec.v ===== *)
(** * SliceSpec: the rows of a slice and their encoding into buffers

    The reference for slices and writers: a slice denotes a list of rows ([rows]); a list of
    rows of a shape has one content per buffer ([enc]); a write appends rows.
    [ArrayWriterLaws] states that a writer appends to the named buffer what the operation
    says. *)
From S2P Require Import Prelude Bytes Bits Offsets PagesSpec Pagination Slices.

(** ** Rows *)

(** A null slot keeps its value: the writers copy it. *)
Inductive row : Type :=
| RItem (value : bytes)
| RBool (valid value : bool)
| RPrim (valid : bool) (value : bytes)
| RList (valid : bool) (items : list row)
| RStruct (valid : bool) (fields : list row).

Definition row_valid (r : row) : bool :=
  match r with RItem _ => true | RBool v _ | RPrim v _ | RList v _ | RStruct v _ => v end.
Definition row_bool (r : row) : bool := match r with RBool _ b => b | _ => false end.
Definition row_bytes (r : row) : bytes := match r with RItem v | RPrim _ v => v | _ => [] end.
Definition row_items (r : row) : list row := match r with RList _ items => items | _ => [] end.
Definition row_field (k : nat) (r : row) : row :=
  match r with RStruct _ fields => nth k fields (RItem []) | _ => RItem [] end.

(** The bits of a mask slice; a missing null mask means that all rows are valid. *)
Definition mask_bits (m : BitmaskSlice) : list bool := part (bs_offset m) (bs_len m) (bits (bs_data m)).
Definition nulls_bits (n : NullmaskSlice) : list bool := from_option mask_bits (replicate (ns_len n) true) (ns_nulls n).

(** The parts of a list that offsets name. *)
Fixpoint parts_of {A} (offsets : list Z) (l : list A) : list (list A) :=
  match offsets with
  | a :: ((b :: _) as rest) => part (Z.to_nat a) (Z.to_nat (b - a)) l :: parts_of rest l
  | _ => []
  end.
(** [n] parts of [size] items. *)
Fixpoint chunks_of {A} (size n : nat) (l : list A) : list (list A) :=
  match n with O => [] | S n => take size l :: chunks_of size n (drop size l) end.

Fixpoint rows (s : Slice) : list row :=
  match s with
  | Native _ values => RItem <$> values
  | BooleanSlice nulls values => zip_with RBool (nulls_bits nulls) (mask_bits values)
  | PrimitiveSlice nulls _ values => zip_with RPrim (nulls_bits nulls) values
  | ListSlice nulls offsets values => zip_with RList (nulls_bits nulls) (parts_of offsets (rows values))
  | FixedSizeListSlice size nulls values =>
      zip_with RList (nulls_bits nulls) (chunks_of size (ns_len nulls) (rows values))
  | AnyStructSlice nulls columns offset len =>
      part offset len
        (imap (λ i v, RStruct v ((λ c, nth i (rows c) (RItem [])) <$> columns)) (nulls_bits nulls))
  | ListItem item => rows item
  end.

(** ** Shapes and buffers *)

Inductive shape : Type :=
| ShNative (width : nat)
| ShBoolean
| ShPrimitive (width : nat)
| ShList (item : shape)
| ShFixed (size : nat) (item : shape)
| ShStruct (fields : list shape).

Inductive buf : Type :=
| NullBuf (l : list bool)
| BitBuf (l : list bool)
| NativeBuf (width : nat) (items : list bytes)
| OffsetBuf (lens : list nat).

Section enc_fields.
Context (enc : shape → list row → list buf).
Fixpoint enc_fields (k : nat) (fields : list shape) (rs : list row) : list buf :=
  match fields with
  | [] => []
  | sh :: fields => enc sh (row_field k <$> rs) ++ enc_fields (S k) fields rs
  end.
End enc_fields.

Fixpoint enc (sh : shape) (rs : list row) : list buf :=
  match sh with
  | ShNative width => [NativeBuf width (row_bytes <$> rs)]
  | ShBoolean => [NullBuf (row_valid <$> rs); BitBuf (row_bool <$> rs)]
  | ShPrimitive width => [NullBuf (row_valid <$> rs); NativeBuf width (row_bytes <$> rs)]
  | ShList item =>
      NullBuf (row_valid <$> rs) :: OffsetBuf ((λ r, length (row_items r)) <$> rs) :: enc item (mjoin (row_items <$> rs))
  | ShFixed _ item => NullBuf (row_valid <$> rs) :: enc item (mjoin (row_items <$> rs))
  | ShStruct fields => NullBuf (row_valid <$> rs) :: enc_fields enc 0 fields rs
  end.

(** Offsets are [i32]: a buffer of offsets can describe that many values. *)
Definition buf_small (b : buf) : Prop := match b with OffsetBuf lens => total lens <= i32_max | _ => True end.

(** ** What an array writer does *)

Definition buf_add (op : buf_op) (b : buf) : option buf :=
  match op, b with
  | NullmaskOp op, NullBuf l => Some (NullBuf (l ++ op_bits op))
  | BitmaskOp op, BitBuf l => Some (BitBuf (l ++ op_bits op))
  | NativeOp op, NativeBuf width items => Some (NativeBuf width (items ++ op_items op))
  | OffsetOp op, OffsetBuf lens => Some (OffsetBuf (lens ++ op_lens op))
  | _, _ => None
  end.
Definition buf_op_ok (op : buf_op) (b : buf) : Prop :=
  match op, b with
  | NullmaskOp op, NullBuf _ | BitmaskOp op, BitBuf _ => op_ok op
  | NativeOp op, NativeBuf width _ => native_op_ok width op
  | OffsetOp op, OffsetBuf _ => offset_op_ok op
  | _, _ => False
  end.

Class ArrayWriterLaws (W : Type) `{ArrayWriter W} (repr : W → list buf → Prop) : Prop :=
  array_write_spec w pre b b' post op : repr w (pre ++ b :: post) → buf_op_ok op b → buf_add op b = Some b' → buf_small b' →
    ∃ w', array_write (length pre) op w = Ok w' ∧ repr w' (pre ++ b' :: post).

(** ** Well-formed slices of a shape *)

Definition mask_ok (m : BitmaskSlice) : Prop := (bs_offset m + bs_len m <= length (bits (bs_data m)))%nat.
Definition nulls_ok (n : NullmaskSlice) : Prop :=
  match ns_nulls n with Some m => mask_ok m ∧ bs_len m = ns_len n | None => True end.

Section fits_fields.
Context (fits : shape → Slice → Prop).
Fixpoint fits_fields (fields : list shape) (columns : list Slice) : Prop :=
  match fields, columns with
  | [], [] => True
  | sh :: fields, c :: columns => fits sh c ∧ fits_fields fields columns
  | _, _ => False
  end.
End fits_fields.

(** The items of a list are sliced on their own only through [ListItem]; the values of a
    fixed-size list are plain bytes, as slicing a list item is not supported. *)
Fixpoint fits (sh : shape) (s : Slice) : Prop :=
  match sh, s with
  | ShNative width, Native width' values => width' = width ∧ Forall (λ v, length v = width) values
  | ShBoolean, BooleanSlice nulls values => nulls_ok nulls ∧ mask_ok values ∧ ns_len nulls = bs_len values
  | ShPrimitive width, PrimitiveSlice nulls width' values =>
      width' = width ∧ nulls_ok nulls ∧ ns_len nulls = length values ∧ Forall (λ v, length v = width) values
  | ShList item, ListSlice nulls offsets values =>
      nulls_ok nulls ∧ (∃ base lens, offsets = cumul base lens ∧ 0 <= base ∧ base + total lens <= i32_max ∧
        ns_len nulls = length lens ∧ base + total lens <= Z.of_nat (slice_len values)) ∧
      match values with ListItem child => fits item child | Native _ _ => fits item values | _ => False end
  | ShFixed size (ShNative width), FixedSizeListSlice size' nulls (Native width' values) =>
      size' = size ∧ nulls_ok nulls ∧ length values = (ns_len nulls * size)%nat ∧
      width' = width ∧ Forall (λ v, length v = width) values
  | ShStruct fields, AnyStructSlice nulls columns offset len =>
      nulls_ok nulls ∧ (offset + len <= ns_len nulls)%nat ∧ Forall (λ c, slice_len c = ns_len nulls) columns ∧
      fits_fields fits fields columns
  | _, _ => False
  end.

(** ** Generic lemmas *)

Lemma part_fmap {A B} (f : A → B) o n l : f <$> part o n l = part o n (f <$> l).
Proof. unfold part. by rewrite fmap_take, fmap_drop. Qed.
Lemma part_part {A} o n o' n' (l : list A) : (o' + n' <= n)%nat → part o' n' (part o n l) = part (o + o') n' l.
Proof. intros. unfold part. rewrite skipn_firstn_comm, drop_drop, take_take. f_equal. lia. Qed.
Lemma part_nil {A} o (l : list A) : part o 0 l = [].
Proof. done. Qed.
Lemma part_zip {A B C} (f : A → B → C) o n a b : part o n (zip_with f a b) = zip_with f (part o n a) (part o n b).
Proof.
  unfold part. revert n a b. induction o as [|o IH]; intros n a b.
  - rewrite !drop_0. revert a b. induction n as [|n IH]; intros [|x a] [|y b]; cbn; rewrite ?take_nil, ?zip_with_nil_r; try done.
    f_equal. apply IH.
  - destruct a as [|x a], b as [|y b]; cbn; rewrite ?take_nil, ?zip_with_nil_r; done || apply IH.
Qed.
Lemma part_replicate {A} o n m (x : A) : (o + n <= m)%nat → part o n (replicate m x) = replicate n x.
Proof. intros. unfold part. rewrite drop_replicate, take_replicate. f_equal. lia. Qed.
Lemma piece_length {A} (l : list A) ranges : Forall (λ r, (r.1 <= r.2 <= length l)%nat) ranges → length (piece l ranges) = span ranges.
Proof.
  induction 1 as [|r ranges Hr Hf IH]; [done|]. unfold piece, span in *. rewrite fmap_cons, join_cons, length_app, IH.
  rewrite part_length by (unfold rlen; lia). done.
Qed.
Lemma piece_fmap {A B} (f : A → B) l ranges : f <$> piece l ranges = piece (f <$> l) ranges.
Proof.
  unfold piece. induction ranges as [|r ranges IH]; [done|]. rewrite !fmap_cons, !join_cons, fmap_app, IH. by rewrite part_fmap.
Qed.
Lemma picks_fmap {A B} (f : A → B) (l : list A) (indexes : list nat) : f <$> omap (l !!.) indexes = omap ((f <$> l) !!.) indexes.
Proof.
  induction indexes as [|i indexes IH]; [done|]. cbn [omap list_omap]. rewrite list_lookup_fmap, <-IH. by destruct (l !! i).
Qed.

Lemma piece_part {A} (l : list A) o n ranges : Forall (λ r, (r.1 <= r.2 <= n)%nat) ranges →
  piece (part o n l) ranges = piece l ((λ r, (o + r.1, o + r.2)%nat) <$> ranges).
Proof.
  unfold piece. induction 1 as [|r ranges Hr Hf IH]; [done|]. rewrite !fmap_cons, !join_cons, IH. f_equal.
  unfold rlen. cbn [fst snd]. rewrite part_part by lia. f_equal. lia.
Qed.

(** ** Parts named by offsets *)

Lemma parts_of_cumul {A} (l : list A) lens : ∀ base, 0 <= base →
  parts_of (cumul base lens) l = imap (λ i n, part (Z.to_nat (base + total (take i lens))) n l) lens.
Proof.
  induction lens as [|n lens IH]; intros base Hb; [done|].
  assert (parts_of (cumul base (n :: lens)) l = part (Z.to_nat base) n l :: parts_of (cumul (base + Z.of_nat n) lens) l) as ->.
  { cbn [cumul]. destruct lens as [|m lens]; cbn [cumul parts_of]; do 2 f_equal; lia. }
  rewrite IH by lia. cbn [imap]. f_equal.
  - f_equal. unfold total. cbn. lia.
  - apply imap_ext. intros i m _. unfold compose. cbn [take]. f_equal. rewrite total_cons. lia.
Qed.
Lemma parts_of_length {A} (l : list A) base lens : 0 <= base → length (parts_of (cumul base lens) l) = length lens.
Proof. intros. rewrite parts_of_cumul by done. by rewrite length_imap. Qed.
Lemma parts_of_lookup {A} (l : list A) base lens i n : 0 <= base → lens !! i = Some n →
  parts_of (cumul base lens) l !! i = Some (part (Z.to_nat (base + total (take i lens))) n l).
Proof. intros Hb Hi. rewrite parts_of_cumul by done. by rewrite list_lookup_imap, Hi. Qed.

Lemma parts_of_drop {A} (l : list A) i base lens : 0 <= base → (i <= length lens)%nat →
  drop i (parts_of (cumul base lens) l) = parts_of (cumul (base + total (take i lens)) (drop i lens)) l.
Proof.
  intros Hb Hi. pose proof (total_take i lens). apply list_eq. intros j. rewrite lookup_drop.
  destruct (lens !! (i + j)%nat) as [n|] eqn:E.
  - rewrite (parts_of_lookup l base lens (i + j) n) by done.
    rewrite (parts_of_lookup l _ (drop i lens) j n) by (rewrite ?lookup_drop; done || lia).
    do 3 f_equal. rewrite <-Z.add_assoc, <-total_app. do 2 f_equal. by rewrite take_take_drop.
  - apply lookup_ge_None in E. rewrite !lookup_ge_None_2; rewrite ?parts_of_length, ?length_drop; done || lia.
Qed.
Lemma parts_of_take {A} (l : list A) n base lens : 0 <= base →
  take n (parts_of (cumul base lens) l) = parts_of (cumul base (take n lens)) l.
Proof.
  intros Hb. apply list_eq. intros j. destruct (decide (j < n)%nat) as [Hj|Hj].
  - rewrite lookup_take_lt by done. destruct (lens !! j) as [m|] eqn:E.
    + rewrite (parts_of_lookup l base lens j m) by done.
      rewrite (parts_of_lookup l base (take n lens) j m) by (rewrite ?lookup_take_lt; done). rewrite take_take. by rewrite Nat.min_l by lia.
    + apply lookup_ge_None in E. rewrite !lookup_ge_None_2; rewrite ?parts_of_length, ?length_take; done || lia.
  - rewrite !lookup_ge_None_2; rewrite ?parts_of_length, ?length_take; rewrite ?parts_of_length; done || lia.
Qed.
Lemma parts_of_join {A} (l : list A) lens : ∀ base, 0 <= base →
  mjoin (parts_of (cumul base lens) l) = part (Z.to_nat base) (Z.to_nat (total lens)) l.
Proof.
  induction lens as [|n lens IH]; intros base Hb; [done|].
  assert (parts_of (cumul base (n :: lens)) l = part (Z.to_nat base) n l :: parts_of (cumul (base + Z.of_nat n) lens) l) as ->.
  { cbn [cumul]. destruct lens as [|m lens]; cbn [cumul parts_of]; do 2 f_equal; lia. }
  rewrite join_cons, IH, total_cons by lia. pose proof (total_nonneg lens).
  rewrite (Z2Nat.inj_add (Z.of_nat n)), Nat2Z.id by lia. unfold part. rewrite <-take_take_drop, drop_drop.
  do 3 f_equal. lia.
Qed.
Lemma parts_of_lens {A} (l : list A) base lens : 0 <= base → base + total lens <= Z.of_nat (length l) →
  length <$> parts_of (cumul base lens) l = lens.
Proof.
  intros Hb Ht. rewrite parts_of_cumul by done. rewrite fmap_imap. rewrite <-(list_fmap_id lens) at 2.
  rewrite <-(imap_const id lens). apply imap_ext. intros i n Hi. cbn. apply part_length.
  pose proof (total_take (S i) lens) as Hs. rewrite (take_S_r _ _ _ Hi), total_app in Hs.
  assert (total [n] = Z.of_nat n) by (unfold total; cbn; lia). pose proof (total_take i lens). lia.
Qed.

Lemma chunks_of_length {A} size n (l : list A) : length (chunks_of size n l) = n.
Proof. revert l; induction n as [|n IH]; intros l; [done|]. cbn. by rewrite IH. Qed.
Lemma chunks_of_drop {A} size i n (l : list A) : drop i (chunks_of size n l) = chunks_of size (n - i) (drop (i * size) l).
Proof.
  revert n l; induction i as [|i IH]; intros n l; [by rewrite Nat.sub_0_r|]. destruct n as [|n]; [done|]. cbn [chunks_of drop].
  rewrite IH, drop_drop. do 2 f_equal.
Qed.
Lemma chunks_of_take {A} size i n (l : list A) : take i (chunks_of size n l) = chunks_of size (Nat.min i n) l.
Proof. revert n l; induction i as [|i IH]; intros [|n] l; [done..|]. cbn. by rewrite IH. Qed.
Lemma chunks_of_join {A} size n (l : list A) : mjoin (chunks_of size n l) = take (n * size) l.
Proof. revert l; induction n as [|n IH]; intros l; [done|]. cbn [chunks_of]. rewrite join_cons, IH. cbn [Nat.mul]. by rewrite take_take_drop. Qed.

(** ** The rows of slices, and slicing

    Slicing a slice selects the same part of its rows, and the projections of the rows are
    the buffers the slice was built from. *)

(** ** Masks *)

Lemma mask_bits_length m : mask_ok m → length (mask_bits m) = bs_len m.
Proof. intros. by apply part_length. Qed.
Lemma nulls_bits_length n : nulls_ok n → length (nulls_bits n) = ns_len n.
Proof.
  unfold nulls_ok, nulls_bits. destruct (ns_nulls n) as [m|]; cbn.
  - intros [Hm <-]. by apply mask_bits_length.
  - intros _. apply length_replicate.
Qed.

Lemma bs_slice_spec offset len m : mask_ok m → (offset + len <= bs_len m)%nat →
  ∃ m', bs_slice offset len m = Ok m' ∧ mask_ok m' ∧ bs_len m' = len ∧ mask_bits m' = part offset len (mask_bits m).
Proof.
  unfold mask_ok. intros Hm Hl. unfold bs_slice. rewrite (proj2 (Nat.leb_le _ _) Hl). cbn [assert_ mbind res_bind].
  eexists. split; [done|]. unfold mask_ok, mask_bits. cbn [bs_offset bs_len bs_data].
  split; [lia|]. split; [done|]. by rewrite part_part.
Qed.
Lemma ns_slice_spec offset len n : nulls_ok n → (offset + len <= ns_len n)%nat →
  ∃ n', ns_slice offset len n = Ok n' ∧ nulls_ok n' ∧ ns_len n' = len ∧ nulls_bits n' = part offset len (nulls_bits n).
Proof.
  unfold nulls_ok, nulls_bits, ns_slice. intros Hn Hl. rewrite (proj2 (Nat.leb_le _ _) Hl). cbn [assert_ mbind res_bind].
  destruct (ns_nulls n) as [m|]; cbn [from_option].
  - destruct Hn as [Hm E]. rewrite <-E in Hl. destruct (bs_slice_spec offset len m Hm Hl) as (m' & -> & Hm' & El & Eb).
    cbn [mbind res_bind]. eexists. split; [done|]. by cbn.
  - eexists. split; [done|]. cbn. split; [done|]. split; [done|]. by rewrite part_replicate.
Qed.

(** ** Lengths and projections *)

Lemma zip_fst {A B C} (f : A → B → C) (g : C → A) a b : (∀ x y, g (f x y) = x) → length a = length b → g <$> zip_with f a b = a.
Proof. intros Hg. revert b; induction a as [|x a IH]; intros [|y b]; try done. cbn. intros [= Hl]. rewrite Hg. f_equal. by apply IH. Qed.
Lemma zip_snd {A B C} (f : A → B → C) (g : C → B) a b : (∀ x y, g (f x y) = y) → length a = length b → g <$> zip_with f a b = b.
Proof. intros Hg. revert b; induction a as [|x a IH]; intros [|y b]; try done. cbn. intros [= Hl]. rewrite Hg. f_equal. by apply IH. Qed.

(** All the rows of a struct slice, from before its offset to behind its end. *)
Definition struct_rows (nulls : NullmaskSlice) (columns : list Slice) : list row :=
  imap (λ i v, RStruct v ((λ c, nth i (rows c) (RItem [])) <$> columns)) (nulls_bits nulls).

Lemma struct_rows_length nulls columns : nulls_ok nulls → length (struct_rows nulls columns) = ns_len nulls.
Proof. intros. unfold struct_rows. by rewrite length_imap, nulls_bits_length. Qed.
Lemma struct_rows_valid nulls columns : row_valid <$> struct_rows nulls columns = nulls_bits nulls.
Proof.
  unfold struct_rows. rewrite fmap_imap. rewrite <-(list_fmap_id (nulls_bits nulls)) at 2.
  rewrite <-(imap_const id). by apply imap_ext.
Qed.
Lemma struct_rows_field nulls columns k c : nulls_ok nulls → columns !! k = Some c → length (rows c) = ns_len nulls →
  row_field k <$> struct_rows nulls columns = rows c.
Proof.
  intros Hn Hk Hl. apply list_eq. intros i. unfold struct_rows. rewrite list_lookup_fmap, list_lookup_imap.
  destruct (nulls_bits nulls !! i) as [v|] eqn:E.
  - cbn. f_equal. apply lookup_lt_Some in E. rewrite nulls_bits_length in E by done.
    destruct (lookup_lt_is_Some_2 (rows c) i ltac:(lia)) as [x Hx]. rewrite Hx. f_equal.
    rewrite nth_lookup, list_lookup_fmap, Hk. cbn. by rewrite nth_lookup, Hx.
  - apply lookup_ge_None in E. rewrite nulls_bits_length in E by done. cbn. symmetry. apply lookup_ge_None. lia.
Qed.

Lemma fits_list sh s : fits (ShList sh) s → ∃ nulls base lens values child,
  s = ListSlice nulls (cumul base lens) values ∧ nulls_ok nulls ∧ 0 <= base ∧ base + total lens <= i32_max ∧
  ns_len nulls = length lens ∧ base + total lens <= Z.of_nat (slice_len values) ∧ fits sh child ∧
  (values = child ∧ (∃ w vs, child = Native w vs) ∨ values = ListItem child) ∧ rows values = rows child ∧ slice_len values = slice_len child.
Proof.
  destruct s as [| | |nulls offsets values| | |]; try done. cbn [fits]. intros (Hn & (base & lens & -> & Hb & Ht & Hl & Hv) & Hc).
  destruct values as [width vs| | | | | |child]; try done.
  - exists nulls, base, lens, (Native width vs), (Native width vs). split_and!; eauto 10.
  - exists nulls, base, lens, (ListItem child), child. split_and!; auto.
Qed.

Lemma rows_length sh s : fits sh s → length (rows s) = slice_len s.
Proof.
  destruct sh as [w| |w|sh|size sh|shs]; [| | |intros (nulls & base & lens & values & child & -> & Hn & Hb & _ & Hl & _)%fits_list| |];
    [destruct s; try done; cbn [fits]; intros Hf..| |destruct sh; try done; destruct s; try done; cbn [fits]; intros Hf|destruct s; try done; cbn [fits]; intros Hf].
  - cbn. by rewrite length_fmap.
  - destruct Hf as (Hn & Hm & E). cbn. rewrite length_zip_with, nulls_bits_length, mask_bits_length by done. lia.
  - destruct Hf as (-> & Hn & E & _). cbn. rewrite length_zip_with, nulls_bits_length by done. lia.
  - cbn. rewrite length_zip_with, nulls_bits_length, parts_of_length by done. lia.
  - destruct s as [w' vs| | | | | |]; try done. destruct Hf as (-> & Hn & E & _). cbn.
    rewrite length_zip_with, nulls_bits_length, chunks_of_length by done. lia.
  - destruct Hf as (Hn & Hl & _). cbn [rows slice_len]. fold (struct_rows nulls columns). rewrite part_length; [done|].
    by rewrite struct_rows_length.
Qed.

(** ** Slicing *)

Lemma chunks_of_prefix {A} size n (l : list A) : chunks_of size n l = chunks_of size n (take (n * size) l).
Proof.
  revert l; induction n as [|n IH]; intros l; [done|]. cbn [chunks_of Nat.mul]. f_equal; [rewrite take_take; f_equal; lia|].
  rewrite skipn_firstn_comm, IH. do 2 f_equal. lia.
Qed.

Lemma slice_spec sh s offset len : fits sh s → (offset + len <= slice_len s)%nat →
  ∃ s', slice offset len s = Ok s' ∧ fits sh s' ∧ slice_len s' = len ∧ rows s' = part offset len (rows s) ∧ depth s' = depth s.
Proof.
  destruct sh as [w| |w|sh|size sh|shs]; [| | |intros (nulls & base & lens & values & child & -> & Hn & Hb & Ht & Hl & Hv & Hc & Hor & _)%fits_list| |];
    [destruct s; try done; cbn [fits slice_len]; intros Hf Ho..| |destruct sh; try done; destruct s as [| | | |size' nulls vs| |]; try done;
     destruct vs as [w' vs| | | | | |]; try done; cbn [fits slice_len]; intros Hf Ho|destruct s; try done; cbn [fits slice_len]; intros Hf Ho].
  - destruct Hf as [-> Hw]. cbn [slice]. rewrite subslice_part by lia. cbn [mbind res_bind]. eexists. split; [done|].
    replace (offset + len - offset)%nat with len by lia. cbn. split; [split; [done|]; by apply Forall_take, Forall_drop|].
    split; [by apply part_length|]. by rewrite part_fmap.
  - destruct Hf as (Hn & Hm & E). cbn [slice].
    destruct (ns_slice_spec offset len nulls Hn ltac:(lia)) as (n' & -> & Hn' & El & Eb).
    destruct (bs_slice_spec offset len values Hm Ho) as (m' & Em & Hm' & El' & Eb'). cbn [mbind res_bind]. rewrite Em. cbn [mbind res_bind].
    eexists. split; [done|]. cbn. split; [split; [done|]; split; [done|congruence]|]. split; [done|]. by rewrite Eb, Eb', part_zip.
  - destruct Hf as (-> & Hn & E & Hw). cbn [slice].
    destruct (ns_slice_spec offset len nulls Hn ltac:(lia)) as (n' & -> & Hn' & El & Eb). cbn [mbind res_bind].
    rewrite subslice_part by lia. cbn [mbind res_bind]. eexists. split; [done|].
    replace (offset + len - offset)%nat with len by lia. cbn. assert (length (part offset len values) = len) by (by apply part_length).
    split; [split; [done|]; split; [done|]; split; [congruence|]; by apply Forall_take, Forall_drop|]. split; [done|]. by rewrite Eb, part_zip.
  - intros Ho. cbn [slice slice_len] in *. destruct (ns_slice_spec offset len nulls Hn Ho) as (n' & -> & Hn' & El & Eb). cbn [mbind res_bind].
    unfold offsets_slice. rewrite subslice_part by (rewrite cumul_length; lia). cbn [mbind res_bind].
    replace (offset + len + 1 - offset)%nat with (len + 1)%nat by lia. rewrite part_cumul by lia.
    eexists. split; [done|]. pose proof (total_take offset lens). pose proof (total_take (offset + len) lens) as Htk.
    rewrite take_add_part, total_app in Htk. pose proof (total_nonneg (part offset len lens)).
    assert (length (part offset len lens) = len) as Hpl by (apply part_length; lia).
    split; [|split; [done|]; split; [|done]].
    + cbn [fits]. split; [done|]. split; [exists (base + total (take offset lens)), (part offset len lens); split_and!; try done; try lia|].
      by destruct Hor as [[-> (w & vs & ->)]| ->].
    + cbn [rows]. rewrite Eb, part_zip. f_equal. unfold part. rewrite parts_of_drop, parts_of_take by lia. done.
  - destruct Hf as (-> & Hn & E & -> & Hw). cbn [slice].
    destruct (ns_slice_spec offset len nulls Hn ltac:(lia)) as (n' & -> & Hn' & El & Eb). cbn [mbind res_bind].
    assert (offset * size + len * size <= ns_len nulls * size)%nat by (rewrite <-Nat.mul_add_distr_r; by apply Nat.mul_le_mono_r).
    rewrite subslice_part by lia. cbn [mbind res_bind]. eexists. split; [done|].
    replace (offset * size + len * size - offset * size)%nat with (len * size)%nat by lia. cbn [fits slice_len rows depth].
    split; [split_and!; try done; [rewrite El; apply part_length; lia|by apply Forall_take, Forall_drop]|]. split; [done|]. split; [|done].
    rewrite Eb, part_zip, El. f_equal. unfold part. rewrite chunks_of_drop, chunks_of_take, fmap_take, fmap_drop.
    rewrite Nat.min_l by lia. symmetry. apply chunks_of_prefix.
  - destruct Hf as (Hn & Hl & Hc & Hf). cbn [slice]. rewrite (proj2 (Nat.leb_le _ _) Ho). cbn [assert_ mbind res_bind].
    eexists. split; [done|]. cbn [fits slice_len rows depth]. split; [split_and!; try done; lia|]. split; [done|]. split; [|done].
    by rewrite part_part.
Qed.

(** ** Projections *)

Lemma native_bytes (values : list bytes) : row_bytes <$> (RItem <$> values) = values.
Proof. rewrite <-list_fmap_compose. apply list_fmap_id. Qed.

Lemma boolean_rows nulls values : fits ShBoolean (BooleanSlice nulls values) →
  row_valid <$> rows (BooleanSlice nulls values) = nulls_bits nulls ∧ row_bool <$> rows (BooleanSlice nulls values) = mask_bits values.
Proof.
  intros (Hn & Hm & E). assert (length (nulls_bits nulls) = length (mask_bits values)) as El by (rewrite nulls_bits_length, mask_bits_length by done; done).
  by split; [apply zip_fst|apply zip_snd].
Qed.
Lemma primitive_rows width nulls width' values : fits (ShPrimitive width) (PrimitiveSlice nulls width' values) →
  row_valid <$> rows (PrimitiveSlice nulls width' values) = nulls_bits nulls ∧ row_bytes <$> rows (PrimitiveSlice nulls width' values) = values.
Proof.
  intros (-> & Hn & E & _). assert (length (nulls_bits nulls) = length values) as El by (rewrite nulls_bits_length by done; done).
  by split; [apply zip_fst|apply zip_snd].
Qed.
Lemma list_slice_rows nulls base lens values : nulls_ok nulls → 0 <= base → ns_len nulls = length lens → base + total lens <= Z.of_nat (length (rows values)) →
  let rs := rows (ListSlice nulls (cumul base lens) values) in
  row_valid <$> rs = nulls_bits nulls ∧ row_items <$> rs = parts_of (cumul base lens) (rows values) ∧
  (λ r, length (row_items r)) <$> rs = lens.
Proof.
  intros Hn Hb E Hv rs. assert (length (nulls_bits nulls) = length (parts_of (cumul base lens) (rows values))) as El.
  { by rewrite nulls_bits_length, parts_of_length. }
  assert (row_items <$> rs = parts_of (cumul base lens) (rows values)) as Hi by (by apply zip_snd).
  split; [by apply zip_fst|]. split; [done|]. rewrite (list_fmap_compose row_items length), Hi. by apply parts_of_lens.
Qed.
Lemma fixed_rows size nulls values : nulls_ok nulls →
  let rs := rows (FixedSizeListSlice size nulls values) in
  row_valid <$> rs = nulls_bits nulls ∧ row_items <$> rs = chunks_of size (ns_len nulls) (rows values).
Proof.
  intros Hn rs. assert (length (nulls_bits nulls) = length (chunks_of size (ns_len nulls) (rows values))) as El.
  { by rewrite nulls_bits_length, chunks_of_length. }
  by split; [apply zip_fst|apply zip_snd].
Qed.
