(* ===== verification/SliceWrite.v ===== *)
(** * SliceWrite: writing a slice appends its rows

    For every writer that satisfies [ArrayWriterLaws], the four writes of a slice append the
    encoding of the rows they name, to all buffers of the shape and to no other. *)
From S2P Require Import Prelude Bytes Bits Offsets PagesSpec Pagination Slices SliceSpec.

(** ** Shapes *)

Section shape_induction.
Context (P : shape → Prop) (HN : ∀ w, P (ShNative w)) (HB : P ShBoolean) (HP : ∀ w, P (ShPrimitive w))
  (HL : ∀ sh, P sh → P (ShList sh)) (HF : ∀ n sh, P sh → P (ShFixed n sh))
  (HS : ∀ fields, Forall P fields → P (ShStruct fields)).
Fixpoint shape_nested_ind (sh : shape) : P sh :=
  match sh with
  | ShNative w => HN w
  | ShBoolean => HB
  | ShPrimitive w => HP w
  | ShList sh => HL sh (shape_nested_ind sh)
  | ShFixed n sh => HF n sh (shape_nested_ind sh)
  | ShStruct fields =>
      HS fields ((fix go l : Forall P l :=
        match l with [] => List.Forall_nil _ | sh :: l => List.Forall_cons _ _ _ (shape_nested_ind sh) (go l) end) fields)
  end.
End shape_induction.

Definition nbufs (sh : shape) : nat := length (enc sh []).

Lemma enc_fields_length fields : Forall (λ sh, ∀ rs rs', length (enc sh rs) = length (enc sh rs')) fields →
  ∀ k rs k' rs', length (enc_fields enc k fields rs) = length (enc_fields enc k' fields rs').
Proof.
  induction 1 as [|sh fields Hsh Hf IH]; intros k rs k' rs'; [done|]. cbn [enc_fields]. rewrite !length_app.
  f_equal; [apply Hsh|apply IH].
Qed.
Lemma enc_length_any sh : ∀ rs rs', length (enc sh rs) = length (enc sh rs').
Proof.
  induction sh as [| | |sh IH|n sh IH|fields IH] using shape_nested_ind; intros rs rs'; cbn [enc length]; try done.
  - do 2 f_equal. apply IH.
  - f_equal. apply IH.
  - f_equal. by apply enc_fields_length.
Qed.
Lemma enc_length sh rs : length (enc sh rs) = nbufs sh.
Proof. apply enc_length_any. Qed.

Lemma enc_fields_nbufs fields k rs : length (enc_fields enc k fields rs) = sum_list_with nbufs fields.
Proof. revert k; induction fields as [|sh fields IH]; intros k; [done|]. cbn. by rewrite length_app, IH, enc_length. Qed.

Lemma fits_nbufs sh : ∀ s, fits sh s → num_buffers s = nbufs sh.
Proof.
  induction sh as [| | |sh IH|n sh IH|fields IH] using shape_nested_ind; intros s Hf.
  - by destruct s.
  - by destruct s.
  - by destruct s.
  - apply fits_list in Hf as (nulls & base & lens & values & child & -> & _ & _ & _ & _ & _ & Hc & Hor & _).
    unfold nbufs. cbn. assert (num_buffers values = num_buffers child) as -> by (by destruct Hor as [[-> _]| ->]).
    by rewrite (IH _ Hc).
  - destruct sh; try done. destruct s as [| | | |? ? vs| |]; try done. by destruct vs.
  - destruct s as [| | | | |nulls columns offset len|]; try done. destruct Hf as (_ & _ & _ & Hf).
    unfold nbufs. cbn [num_buffers enc length]. f_equal. rewrite enc_fields_nbufs. clear nulls offset len.
    revert columns Hf. induction IH as [|sh fields Hsh Hfs IH]; intros [|c columns] Hf; try done.
    destruct Hf as [Hc Hf]. cbn. by rewrite (Hsh _ Hc), (IH _ Hf).
Qed.

Lemma fits_fields_lookup fields columns : fits_fields fits fields columns ↔ Forall2 fits fields columns.
Proof.
  revert columns; induction fields as [|sh fields IH]; intros [|c columns]; cbn; try (by split; [done|inversion 1]).
  rewrite IH. split; [by intros []; constructor|by inversion 1].
Qed.

(** ** Runs of a writer *)

Section writes.
Context {W : Type} `{ArrayWriter W} (repr : W → list buf → Prop) `{!ArrayWriterLaws W repr}.

Definition runs (m : res W) (bufs : list buf) : Prop := ∃ w, m = Ok w ∧ repr w bufs.

Lemma runs_ok w bufs : repr w bufs → runs (Ok w) bufs.
Proof. by exists w. Qed.
Lemma runs_bind m bufs bufs' k : runs m bufs → (∀ w, repr w bufs → runs (k w) bufs') → runs (w ← m; k w) bufs'.
Proof. intros (w & -> & Hw) Hk. by apply Hk. Qed.

(** A write that turns the buffers [a] at its position into [b]. *)
Definition step (f : nat → W → res W) (a b : list buf) : Prop :=
  ∀ w pre post, repr w (pre ++ a ++ post) → Forall buf_small b → runs (f (length pre) w) (pre ++ b ++ post).

Lemma step_ext f g a b : (∀ pos w, f pos w = g pos w) → step g a b → step f a b.
Proof. intros Hfg Hg w pre post. rewrite Hfg. apply Hg. Qed.
Lemma step_none f a : (∀ pos w, f pos w = Ok w) → step f a a.
Proof. intros Hf w pre post Hr _. rewrite Hf. by apply runs_ok. Qed.
Lemma step_put op b b' : buf_op_ok op b → buf_add op b = Some b' → step (λ pos, put pos op) [b] [b'].
Proof. intros Hok Ha w pre post Hr Hs. rewrite Forall_singleton in Hs. by apply (array_write_spec w pre b b' post op). Qed.
Lemma step_app f g a a' b b' n : step f a b → step g a' b' → length b = n →
  step (λ pos w, w ← f pos w; g (pos + n)%nat w) (a ++ a') (b ++ b').
Proof.
  intros Hf Hg Hn w pre post Hr Hs. apply Forall_app in Hs as [Hs Hs']. rewrite <-app_assoc in *.
  eapply runs_bind; [by apply Hf|]. clear w Hr. intros w Hr. rewrite <-Hn, <-length_app. rewrite app_assoc in *. by apply Hg.
Qed.
Lemma step_cons f g x y a b : step f [x] [y] → step g a b → step (λ pos w, w ← f pos w; g (pos + 1)%nat w) (x :: a) (y :: b).
Proof. intros Hf Hg. by apply (step_app f g [x] a [y] b 1). Qed.

(** A write that appends [new] to one buffer, and one that appends rows to the buffers of a shape. *)
Definition grows {A} (mk : list A → buf) (f : nat → W → res W) (new : list A) : Prop := ∀ l, step f [mk l] [mk (l ++ new)].
Definition appends (f : nat → W → res W) (sh : shape) (new : list row) : Prop := ∀ rs, step f (enc sh rs) (enc sh (rs ++ new)).

Lemma appends_ext f g sh new : (∀ pos w, f pos w = g pos w) → appends g sh new → appends f sh new.
Proof. intros Hfg Hg rs. by eapply step_ext. Qed.
Lemma appends_none sh f : (∀ pos w, f pos w = Ok w) → appends f sh [].
Proof. intros Hf rs. rewrite app_nil_r. by apply step_none. Qed.

Lemma appends_native f width new : grows (NativeBuf width) f (row_bytes <$> new) → appends f (ShNative width) new.
Proof. intros Hf rs. cbn. rewrite fmap_app. apply Hf. Qed.
Lemma appends_boolean fn fb new : grows NullBuf fn (row_valid <$> new) → grows BitBuf fb (row_bool <$> new) →
  appends (λ pos w, w ← fn pos w; fb (pos + 1)%nat w) ShBoolean new.
Proof. intros Hn Hb rs. cbn. rewrite !fmap_app. by apply step_cons. Qed.
Lemma appends_primitive fn fv width new : grows NullBuf fn (row_valid <$> new) → grows (NativeBuf width) fv (row_bytes <$> new) →
  appends (λ pos w, w ← fn pos w; fv (pos + 1)%nat w) (ShPrimitive width) new.
Proof. intros Hn Hb rs. cbn. rewrite !fmap_app. by apply step_cons. Qed.
Lemma appends_list fn fo fc sh new : grows NullBuf fn (row_valid <$> new) → grows OffsetBuf fo ((λ r, length (row_items r)) <$> new) →
  appends fc sh (mjoin (row_items <$> new)) →
  appends (λ pos w, w ← fn pos w; w ← fo (pos + 1)%nat w; fc (pos + 2)%nat w) (ShList sh) new.
Proof.
  intros Hn Ho Hc rs. cbn [enc]. rewrite !fmap_app, join_app.
  eapply step_ext; [|apply step_cons; [apply Hn|apply step_cons; [apply Ho|apply Hc]]].
  intros pos w. cbn. destruct (fn pos w); [cbn; by rewrite <-Nat.add_assoc|done|done].
Qed.
Lemma appends_fixed fn fc size sh new : grows NullBuf fn (row_valid <$> new) → appends fc sh (mjoin (row_items <$> new)) →
  appends (λ pos w, w ← fn pos w; fc (pos + 1)%nat w) (ShFixed size sh) new.
Proof. intros Hn Hc rs. cbn [enc]. rewrite !fmap_app, join_app. by apply step_cons. Qed.

Lemma for_columns_spec f new fields columns : ∀ k, Forall2 (λ sh c, num_buffers c = nbufs sh) fields columns →
  (∀ j sh c, fields !! j = Some sh → columns !! j = Some c → appends (f c) sh (row_field (k + j) <$> new)) →
  ∀ rs, step (for_columns f columns) (enc_fields enc k fields rs) (enc_fields enc k fields (rs ++ new)).
Proof.
  intros k Hf. revert k. induction Hf as [|sh c fields columns Hn Hf IH]; intros k Hall rs; cbn [for_columns enc_fields].
  { by apply step_none. }
  rewrite fmap_app. specialize (Hall 0%nat sh c eq_refl eq_refl) as Hc. rewrite Nat.add_0_r in Hc.
  apply step_app; [apply Hc|apply IH|by rewrite enc_length].
  intros j sh' c' Hj Hj'. rewrite Nat.add_succ_comm. by apply (Hall (S j)).
Qed.
Lemma appends_struct fn f new fields columns : grows NullBuf fn (row_valid <$> new) → Forall2 fits fields columns →
  (∀ j sh c, fields !! j = Some sh → columns !! j = Some c → appends (f c) sh (row_field j <$> new)) →
  appends (λ pos w, w ← fn pos w; for_columns f columns (pos + 1) w) (ShStruct fields) new.
Proof.
  intros Hn Hf Hc rs. cbn [enc]. rewrite fmap_app. apply step_cons; [apply Hn|]. apply (for_columns_spec f new fields columns 0); [|done].
  eapply Forall2_impl; [exact Hf|]. intros. by apply fits_nbufs.
Qed.

(** ** Single buffers *)

(** Operations that append the given bits. *)
Definition bits_op (op : bit_op) (l : list bool) : Prop := op_ok op ∧ op_bits op = l.
Definition bits_opt (op : option bit_op) (l : list bool) : Prop := match op with Some op => bits_op op l | None => l = [] end.

Lemma grows_null op new : bits_op op new → grows NullBuf (λ pos, put pos (NullmaskOp op)) new.
Proof. intros [Hok <-] l. by apply step_put. Qed.
Lemma grows_bits op new : bits_op op new → grows BitBuf (λ pos, put pos (BitmaskOp op)) new.
Proof. intros [Hok <-] l. by apply step_put. Qed.
Lemma grows_null_opt op new : bits_opt op new → grows NullBuf (λ pos, put_opt pos NullmaskOp op) new.
Proof. destruct op as [op|]; [apply grows_null|]. intros -> l. rewrite app_nil_r. by apply step_none. Qed.
Lemma grows_bits_opt op new : bits_opt op new → grows BitBuf (λ pos, put_opt pos BitmaskOp op) new.
Proof. destruct op as [op|]; [apply grows_bits|]. intros -> l. rewrite app_nil_r. by apply step_none. Qed.
Lemma grows_null_res r new : (∃ op, r = Ok op ∧ bits_op op new) → grows NullBuf (λ pos, put_res pos NullmaskOp r) new.
Proof. intros (op & -> & Hop). by apply grows_null. Qed.
Lemma grows_bits_res r new : (∃ op, r = Ok op ∧ bits_op op new) → grows BitBuf (λ pos, put_res pos BitmaskOp r) new.
Proof. intros (op & -> & Hop). by apply grows_bits. Qed.
Lemma grows_native width op new : native_op_ok width op → op_items op = new → grows (NativeBuf width) (λ pos, put pos (NativeOp op)) new.
Proof. intros Hok <- l. by apply step_put. Qed.
Lemma grows_offsets op new : offset_op_ok op → op_lens op = new → grows OffsetBuf (λ pos, put pos (OffsetOp op)) new.
Proof. intros Hok <- l. by apply step_put. Qed.

(** ** Masks *)

Lemma bs_write_range_ok r m : mask_ok m → (r.1 <= r.2 <= bs_len m)%nat → bits_opt (bs_write_range r m) (part r.1 (rlen r) (mask_bits m)).
Proof.
  intros Hm Hr. unfold bs_write_range, mask_ok, rlen in *. destruct (Nat.leb_spec r.2 r.1).
  - cbn. by replace (r.2 - r.1)%nat with 0%nat by lia.
  - cbn. split; [cbn; unfold rlen; lia|]. cbn. unfold mask_bits. by rewrite part_part by lia.
Qed.
Lemma ns_write_range_ok r n : nulls_ok n → (r.1 <= r.2 <= ns_len n)%nat → bits_opt (ns_write_range r n) (part r.1 (rlen r) (nulls_bits n)).
Proof.
  unfold nulls_ok, ns_write_range, nulls_bits. intros Hn Hr. destruct (Nat.leb_spec r.2 r.1).
  - unfold rlen. cbn. by replace (r.2 - r.1)%nat with 0%nat by lia.
  - destruct (ns_nulls n) as [m|]; cbn [from_option].
    + destruct Hn as [Hm El]. apply bs_write_range_ok; [done|lia].
    + split; [done|]. cbn. rewrite part_replicate; [done|]. unfold rlen. lia.
Qed.
Lemma bs_write_ok m : mask_ok m → bits_op (bs_write m) (mask_bits m).
Proof. done. Qed.
Lemma ns_write_ok n : nulls_ok n → bits_op (ns_write n) (nulls_bits n).
Proof. unfold nulls_ok, ns_write, nulls_bits. by destruct (ns_nulls n) as [m|]; [intros []|]. Qed.
Lemma map_res_ok {A B} (f : A → res B) (g : A → B) l : Forall (λ x, f x = Ok (g x)) l → map_res f l = Ok (g <$> l).
Proof. induction 1 as [|x l Hx Hf IH]; [done|]. cbn [map_res]. rewrite Hx. cbn [mbind res_bind]. by rewrite IH. Qed.

Definition ranges_in (n : nat) (ranges : list nrange) : Prop := Forall (λ r, (r.1 <= r.2 <= n)%nat) ranges.

Lemma bs_write_ranges_ok ranges m : mask_ok m → ranges_in (bs_len m) ranges →
  ∃ op, bs_write_ranges ranges m = Ok op ∧ bits_op op (piece (mask_bits m) ranges).
Proof.
  unfold mask_ok. intros Hm Hr. unfold bs_write_ranges, shift_ranges.
  rewrite (map_res_ok _ (λ r, (bs_offset m + r.1, bs_offset m + r.2)%nat)).
  - cbn [mbind res_bind]. eexists. split; [done|]. split.
    + cbn. apply Forall_fmap. eapply Forall_impl; [exact Hr|]. cbn. unfold rlen. cbn. lia.
    + cbn. unfold mask_bits. by rewrite piece_part.
  - eapply Forall_impl; [exact Hr|]. cbn. intros r Hb. rewrite !(proj2 (Nat.leb_le _ _)) by lia. done.
Qed.
Lemma ns_write_ranges_ok ranges n : nulls_ok n → ranges_in (ns_len n) ranges →
  ∃ op, ns_write_ranges ranges n = Ok op ∧ bits_op op (piece (nulls_bits n) ranges).
Proof.
  unfold nulls_ok, ns_write_ranges, nulls_bits. intros Hn Hr. destruct (ns_nulls n) as [m|]; cbn [from_option].
  - destruct Hn as [Hm E]. rewrite <-E in Hr. by apply bs_write_ranges_ok.
  - eexists. split; [done|]. split; [done|]. cbn. unfold piece, span. induction Hr as [|r ranges Hb Hf IH]; [done|].
    rewrite !fmap_cons, join_cons, <-IH. cbn [sum_list]. rewrite part_replicate by (unfold rlen; lia). apply replicate_add.
Qed.
Definition indexes_in (n hint : nat) (indexes : list nat) : Prop := Forall (λ i, (i < n)%nat) indexes ∧ (hint <= length indexes)%nat.

Lemma picks_part {A} (l : list A) o n (indexes : list nat) : Forall (λ i, (i < n)%nat) indexes →
  omap (part o n l !!.) indexes = omap (l !!.) ((λ i, o + i)%nat <$> indexes).
Proof. induction 1 as [|i indexes Hi Hf IH]; [done|]. cbn [fmap list_fmap omap list_omap]. rewrite part_lookup by done. by rewrite IH. Qed.

Lemma bs_write_indexes_ok hint indexes m : mask_ok m → indexes_in (bs_len m) hint indexes →
  ∃ op, bs_write_indexes hint indexes m = Ok op ∧ bits_op op (omap (mask_bits m !!.) indexes).
Proof.
  unfold mask_ok. intros Hm [Hi Hh]. unfold bs_write_indexes. rewrite (map_res_ok _ (λ i, (bs_offset m + i)%nat)).
  - cbn [mbind res_bind]. eexists. split; [done|]. split.
    + cbn. rewrite length_fmap. split; [done|]. apply Forall_fmap. eapply Forall_impl; [exact Hi|]. cbn. lia.
    + cbn. unfold mask_bits. by rewrite picks_part.
  - eapply Forall_impl; [exact Hi|]. intros i Hb. cbv beta in *. by rewrite (proj2 (Nat.ltb_lt _ _)) by lia.
Qed.
Lemma ns_write_indexes_ok hint indexes n : nulls_ok n → indexes_in (ns_len n) hint indexes →
  ∃ op, ns_write_indexes hint indexes n = Ok op ∧ bits_op op (omap (nulls_bits n !!.) indexes).
Proof.
  unfold nulls_ok, ns_write_indexes, nulls_bits. intros Hn Hi. destruct (ns_nulls n) as [m|]; cbn [from_option].
  - destruct Hn as [Hm E]. rewrite <-E in Hi. by apply bs_write_indexes_ok.
  - eexists. split; [done|]. split; [done|]. cbn. destruct Hi as [Hi _]. induction Hi as [|i indexes Hb Hf IH]; [done|].
    cbn [omap list_omap]. rewrite lookup_replicate_2 by done. cbn. by rewrite IH.
Qed.

(** ** Ranges *)

Lemma offset_index_cumul base lens i : 0 <= base → base + total lens <= i32_max → (i <= length lens)%nat →
  offset_index (cumul base lens) i = Ok (Z.to_nat (base + total (take i lens))).
Proof.
  intros Hb Ht Hi. unfold offset_index. rewrite at_cumul by done. cbn [mbind res_bind]. unfold as_usize.
  pose proof (total_take i lens). unfold i32_max in *. rewrite Z.mod_small by lia. done.
Qed.
Lemma items_join_part {A} (l : list A) base lens i n : 0 <= base → (i + n <= length lens)%nat →
  mjoin (part i n (parts_of (cumul base lens) l)) =
  part (Z.to_nat (base + total (take i lens)))
    (Z.to_nat (base + total (take (i + n) lens)) - Z.to_nat (base + total (take i lens))) l.
Proof.
  intros Hb Hi. pose proof (total_take i lens). unfold part at 1. rewrite parts_of_drop, parts_of_take, parts_of_join by lia.
  fold (part i n lens). rewrite take_add_part, total_app. pose proof (total_nonneg (part i n lens)).
  f_equal. lia.
Qed.

Lemma chunks_join_part {A} size n (l : list A) i k : (i + k <= n)%nat →
  mjoin (part i k (chunks_of size n l)) = part (i * size) (k * size) l.
Proof. intros. unfold part. rewrite chunks_of_drop, chunks_of_take, chunks_of_join. do 2 f_equal. lia. Qed.

Lemma part_empty {A} (r : nrange) (l : list A) : (r.2 <= r.1)%nat → part r.1 (rlen r) l = [].
Proof. intros. unfold rlen. by replace (r.2 - r.1)%nat with 0%nat by lia. Qed.
Lemma Forall_part {A} (P : A → Prop) o n l : Forall P l → Forall P (part o n l).
Proof. intros. by apply Forall_take, Forall_drop. Qed.

(** The value range of a range of lists. *)
Definition item_range (base : Z) (lens : list nat) (r : nrange) : nrange :=
  (Z.to_nat (base + total (take r.1 lens)), Z.to_nat (base + total (take r.2 lens))).

Lemma item_range_ok base lens r n : 0 <= base → base + total lens <= Z.of_nat n → (r.1 <= r.2)%nat →
  ((item_range base lens r).1 <= (item_range base lens r).2 <= n)%nat.
Proof.
  intros Hb Hn Hr. unfold item_range. cbn. pose proof (total_take r.1 lens). pose proof (total_take r.2 lens).
  replace r.2 with (r.1 + (r.2 - r.1))%nat in * by lia. rewrite take_add_part, total_app in *.
  pose proof (total_nonneg (part r.1 (r.2 - r.1) lens)). lia.
Qed.

Lemma write_range_list sh nulls base lens values r : nulls_ok nulls → 0 <= base → base + total lens <= i32_max →
  ns_len nulls = length lens → base + total lens <= Z.of_nat (length (rows values)) → (r.1 <= r.2 <= length lens)%nat →
  (∀ r, (r.1 <= r.2 <= length (rows values))%nat → appends (write_range r values) sh (part r.1 (rlen r) (rows values))) →
  appends (write_range r (ListSlice nulls (cumul base lens) values)) (ShList sh)
    (part r.1 (rlen r) (rows (ListSlice nulls (cumul base lens) values))).
Proof.
  intros Hn Hb Ht Hl Hv Hr IH. destruct (list_slice_rows nulls base lens values) as (Ev & Ei & Els); try done.
  destruct (Nat.leb_spec r.2 r.1) as [Hle|Hlt].
  { rewrite part_empty by done. apply appends_none. intros pos w. cbn [write_range]; unfold list_write_range. by rewrite (proj2 (Nat.leb_le _ _)). }
  assert (r.1 + rlen r = r.2)%nat as Er by (unfold rlen; lia).
  pose proof (total_take r.1 lens). pose proof (total_take r.2 lens) as Ht2. rewrite <-Er, take_add_part, total_app in Ht2.
  eapply appends_ext; [|apply (appends_list (λ pos, put_opt pos NullmaskOp (ns_write_range r nulls)) (λ pos, put pos (OffsetOp (OffSlice (cumul (base + total (take r.1 lens)) (part r.1 (rlen r) lens)))))
    (write_range (item_range base lens r) values))].
  - intros pos w. cbn [write_range]; unfold list_write_range. rewrite (proj2 (Nat.leb_gt _ _)) by done. unfold slice_by_range.
    rewrite subslice_part by (rewrite cumul_length; lia). cbn [mbind res_bind].
    replace (r.2 + 1 - r.1)%nat with (rlen r + 1)%nat by lia. rewrite part_cumul, !offset_index_cumul by lia. done.
  - rewrite part_fmap, Ev. apply grows_null_opt, ns_write_range_ok; [done|lia].
  - rewrite part_fmap, Els. apply grows_offsets; [|apply lens_of_cumul]. eexists _, _. split; [done|].
    pose proof (total_nonneg (part r.1 (rlen r) lens)). lia.
  - rewrite part_fmap, Ei, items_join_part, Er by lia. apply IH. apply item_range_ok; [done|done|lia].
Qed.

Lemma write_range_fixed size nulls width values r : nulls_ok nulls → length values = (ns_len nulls * size)%nat →
  (r.1 <= r.2 <= ns_len nulls)%nat →
  (∀ r, (r.1 <= r.2 <= length values)%nat → appends (write_range r (Native width values)) (ShNative width) (part r.1 (rlen r) (rows (Native width values)))) →
  appends (write_range r (FixedSizeListSlice size nulls (Native width values))) (ShFixed size (ShNative width))
    (part r.1 (rlen r) (rows (FixedSizeListSlice size nulls (Native width values)))).
Proof.
  intros Hn El Hr IH. destruct (fixed_rows size nulls (Native width values)) as (Ev & Ei); [done|].
  destruct (Nat.leb_spec r.2 r.1) as [Hle|Hlt].
  { rewrite part_empty by done. apply appends_none. intros pos w. cbn [write_range]; unfold fixed_write_range. by rewrite (proj2 (Nat.leb_le _ _)). }
  eapply appends_ext; [|apply (appends_fixed (λ pos, put_opt pos NullmaskOp (ns_write_range r nulls)) (write_range (r.1 * size, r.2 * size)%nat (Native width values)))].
  - intros pos w. cbn [write_range]; unfold fixed_write_range. by rewrite (proj2 (Nat.leb_gt _ _)).
  - rewrite part_fmap, Ev. apply grows_null_opt, ns_write_range_ok; [done|lia].
  - rewrite part_fmap, Ei, chunks_join_part by (unfold rlen; lia).
    replace (rlen r * size)%nat with (rlen (r.1 * size, r.2 * size))%nat by (unfold rlen; cbn; by rewrite Nat.mul_sub_distr_r).
    apply IH. cbn. rewrite El. split; apply Nat.mul_le_mono_r; lia.
Qed.

(** The fields of the rows of a struct, for any selection [sel] that commutes with maps. *)
Lemma struct_columns (sel : ∀ {A}, list A → list A) f nulls columns fields :
  (∀ A B (g : A → B) l, g <$> sel l = sel (g <$> l)) → nulls_ok nulls → Forall (λ c, slice_len c = ns_len nulls) columns →
  Forall2 fits fields columns →
  (∀ sh c, sh ∈ fields → c ∈ columns → fits sh c → slice_len c = ns_len nulls → appends (f c) sh (sel (rows c))) →
  ∀ j sh c, fields !! j = Some sh → columns !! j = Some c → appends (f c) sh (row_field j <$> sel (struct_rows nulls columns)).
Proof.
  intros Hsel Hn Hc Hf Hall j sh c Hj Hj'. pose proof (Forall2_lookup_lr _ _ _ _ _ _ Hf Hj Hj') as Hfit.
  assert (slice_len c = ns_len nulls) as Ecl by (by eapply Forall_lookup_1 in Hc).
  rewrite Hsel, (struct_rows_field nulls columns j c) by (done || by rewrite (rows_length sh)).
  apply Hall; [by eapply list_elem_of_lookup_2..|done|done].
Qed.

Lemma write_src_range_spec nulls columns fields r : nulls_ok nulls → Forall (λ c, slice_len c = ns_len nulls) columns →
  Forall2 fits fields columns → (r.1 <= r.2 <= ns_len nulls)%nat →
  (∀ sh c, sh ∈ fields → fits sh c → slice_len c = ns_len nulls → appends (write_range r c) sh (part r.1 (rlen r) (rows c))) →
  appends (write_src_range r nulls columns) (ShStruct fields) (part r.1 (rlen r) (struct_rows nulls columns)).
Proof.
  intros Hn Hc Hf Hr Hall. unfold write_src_range. apply appends_struct; [|done|].
  - rewrite part_fmap, struct_rows_valid. by apply grows_null_opt, ns_write_range_ok.
  - apply (struct_columns (λ A, part r.1 (rlen r)) (write_range r)); try done; [intros; apply part_fmap|auto].
Qed.

Lemma write_range_spec sh : ∀ s r, fits sh s → (r.1 <= r.2 <= slice_len s)%nat →
  appends (write_range r s) sh (part r.1 (rlen r) (rows s)).
Proof.
  induction sh as [width| |width|sh IH|size sh IH|fields IH] using shape_nested_ind; intros s r Hf Hr.
  - destruct s as [width' values| | | | | |]; try done. destruct Hf as [-> Hw]. cbn [slice_len] in Hr.
    apply appends_native. cbn [write_range]; unfold native_write_range. rewrite subslice_part by lia. cbn [mbind res_bind rows].
    rewrite part_fmap, native_bytes. apply grows_native; [by apply Forall_part|done].
  - destruct s as [|nulls values| | | | |]; try done. destruct (boolean_rows _ _ Hf) as [Ev Eb]. destruct Hf as (Hn & Hm & El).
    cbn [slice_len] in Hr. apply (appends_boolean (λ pos, put_opt pos NullmaskOp (ns_write_range r nulls)) (λ pos, put_opt pos BitmaskOp (bs_write_range r values)));
      rewrite part_fmap, ?Ev, ?Eb.
    + apply grows_null_opt, ns_write_range_ok; [done|lia].
    + by apply grows_bits_opt, bs_write_range_ok.
  - destruct s as [| |nulls width' values| | | |]; try done. destruct (primitive_rows _ _ _ _ Hf) as [Ev Eb]. destruct Hf as (-> & Hn & El & Hw).
    cbn [slice_len] in Hr. apply (appends_primitive (λ pos, put_opt pos NullmaskOp (ns_write_range r nulls))
      (λ pos w, values ← subslice values r.1 r.2; put pos (NativeOp (NatSlice values)) w)); rewrite part_fmap, ?Ev, ?Eb.
    + apply grows_null_opt, ns_write_range_ok; [done|lia].
    + rewrite subslice_part by lia. apply grows_native; [by apply Forall_part|done].
  - apply fits_list in Hf as (nulls & base & lens & values & child & -> & Hn & Hb & Ht & Hl & Hv & Hc & Hor & Erow & Elen).
    cbn [slice_len] in Hr. pose proof (rows_length _ _ Hc) as Hcl. apply write_range_list; rewrite ?Erow; try done; try lia.
    intros r' Hr'. replace (write_range (W := W) r' values) with (write_range (W := W) r' child) by (by destruct Hor as [[-> _]| ->]).
    apply IH; [done|lia].
  - destruct sh as [width| | | | |]; try done. destruct s as [| | | |size' nulls vs| |]; try done. destruct vs as [width' values| | | | | |]; try done.
    destruct Hf as (-> & Hn & El & -> & Hw). apply write_range_fixed; try done. intros r' Hr'. by apply IH.
  - destruct s as [| | | | |nulls columns offset len|]; try done. destruct Hf as (Hn & Ho & Hc & Hf). rewrite fits_fields_lookup in Hf.
    cbn [slice_len] in Hr. cbn [rows]. fold (struct_rows nulls columns). rewrite part_part by (unfold rlen; lia).
    set (r' := (r.1 + offset, r.2 + offset)%nat). rewrite (Nat.add_comm offset). change (r.1 + offset)%nat with r'.1.
    replace (rlen r) with (rlen r') by (unfold rlen, r'; cbn; lia).
    eapply appends_ext; [|apply write_src_range_spec; try done].
    + intros pos w. cbn [write_range]. by rewrite (proj2 (Nat.leb_le _ _)) by (unfold rlen; lia).
    + unfold r'. cbn. lia.
    + rewrite Forall_forall in IH. intros sh c Hin Hfit El. apply IH; [done|done|]. unfold r'. cbn. lia.
Qed.
End writes.

(** ** Whole slices, lists of ranges and lists of rows

    The remaining writes of a slice, and those of a table slice. *)

(** ** Items of selected lists *)

Lemma piece_cons {A} (l : list A) r ranges : piece l (r :: ranges) = part r.1 (rlen r) l ++ piece l ranges.
Proof. done. Qed.
Lemma item_piece {A} (l : list A) base lens ranges : 0 <= base → ranges_in (length lens) ranges →
  mjoin (piece (parts_of (cumul base lens) l) ranges) = piece l (item_range base lens <$> ranges).
Proof.
  intros Hb. induction 1 as [|r ranges Hr Hf IH]; [done|]. rewrite fmap_cons, !piece_cons, join_app, IH. f_equal.
  rewrite items_join_part by (unfold rlen; lia). unfold item_range, rlen. cbn [fst snd].
  by replace (r.1 + (r.2 - r.1))%nat with r.2 by lia.
Qed.
Lemma chunk_piece {A} (l : list A) size n ranges : ranges_in n ranges →
  mjoin (piece (chunks_of size n l) ranges) = piece l (scale_ranges size ranges).
Proof.
  unfold scale_ranges. induction 1 as [|r ranges Hr Hf IH]; [done|]. rewrite fmap_cons, !piece_cons, join_app, IH. f_equal.
  rewrite chunks_join_part by (unfold rlen; lia). unfold rlen. cbn [fst snd]. by rewrite Nat.mul_sub_distr_r.
Qed.
Lemma chunks_of_lookup {A} (l : list A) size n i : (i < n)%nat → chunks_of size n l !! i = Some (part (i * size) size l).
Proof.
  revert l i; induction n as [|n IH]; intros l i Hi; [lia|]. destruct i as [|i]; [done|]. cbn [chunks_of lookup list_lookup].
  change (chunks_of size n (drop size l) !! i = Some (part (S i * size) size l)). rewrite IH by lia. unfold part. by rewrite drop_drop.
Qed.

Lemma value_ranges_ok base lens ranges : 0 <= base → base + total lens <= i32_max → ranges_in (length lens) ranges →
  map_res (λ r, beg ← offset_index (cumul base lens) r.1; end_ ← offset_index (cumul base lens) r.2;
                Ok (u32_usize beg, u32_usize end_)) ranges = Ok (item_range base lens <$> ranges).
Proof.
  intros Hb Ht Hr. apply map_res_ok. eapply Forall_impl; [exact Hr|]. intros r Hr'. cbv beta in *.
  rewrite !offset_index_cumul by lia. cbn [mbind res_bind]. unfold item_range, u32_usize.
  pose proof (total_take r.1 lens). pose proof (total_take r.2 lens). unfold i32_max in *. rewrite !Z.mod_small by lia. by rewrite !Nat2Z.id.
Qed.
Lemma item_ranges_in base lens ranges n : 0 <= base → base + total lens <= Z.of_nat n → ranges_in (length lens) ranges →
  ranges_in n (item_range base lens <$> ranges).
Proof.
  intros Hb Hn Hr. apply Forall_fmap. eapply Forall_impl; [exact Hr|]. intros r Hr'. cbv beta in *. apply item_range_ok; [done|done|lia].
Qed.

Lemma item_ranges_spec {A} (l : list A) base lens indexes : 0 <= base → base + total lens <= i32_max →
  base + total lens <= Z.of_nat (length l) → Forall (λ i, (i < length lens)%nat) indexes →
  ∃ ranges, item_ranges (cumul base lens) indexes = Ok ranges ∧ ranges_in (length l) ranges ∧
    piece l ranges = mjoin (omap (parts_of (cumul base lens) l !!.) indexes).
Proof.
  intros Hb Ht Hl. induction 1 as [|i indexes Hi Hf (ranges & E & Hr & Hp)].
  { exists []. split; [done|]. split; [constructor|done]. }
  destruct (lookup_lt_is_Some_2 _ _ Hi) as [n Hn]. cbn [item_ranges omap list_omap].
  rewrite !offset_index_cumul by lia. cbn [mbind res_bind]. rewrite E. cbn [mbind res_bind]. eexists. split; [done|].
  rewrite (parts_of_lookup l base lens i n) by done. rewrite join_cons, <-Hp, Nat.add_1_r, (take_S_r _ _ _ Hn), total_app.
  assert (total [n] = Z.of_nat n) as En by (unfold total; cbn; lia). rewrite En.
  pose proof (total_take i lens). pose proof (total_take (S i) lens) as Hs. rewrite (take_S_r _ _ _ Hn), total_app, En in Hs.
  destruct (Nat.ltb_spec (Z.to_nat (base + total (take i lens))) (Z.to_nat (base + (total (take i lens) + Z.of_nat n)))) as [Hlt|Hge].
  - split; [constructor; [cbn; lia|done]|]. rewrite piece_cons. unfold rlen. cbn [fst snd]. do 2 f_equal. lia.
  - split; [done|]. by replace n with 0%nat by lia.
Qed.
Lemma fixed_indexes {A} (l : list A) size n indexes : length l = (n * size)%nat → Forall (λ i, (i < n)%nat) indexes →
  ranges_in (length l) ((λ i, (i * size, i * size + size)%nat) <$> indexes) ∧
  piece l ((λ i, (i * size, i * size + size)%nat) <$> indexes) = mjoin (omap (chunks_of size n l !!.) indexes).
Proof.
  intros Hl. induction 1 as [|i indexes Hi Hf [IHr IHp]]; [split; [constructor|done]|]. cbn [fmap list_fmap omap list_omap].
  rewrite chunks_of_lookup by done. rewrite piece_cons, join_cons, IHp. unfold rlen. cbn [fst snd].
  replace (i * size + size - i * size)%nat with size by lia. split; [|done]. constructor; [|done]. cbn [fst snd]. rewrite Hl.
  pose proof (Nat.mul_le_mono_r (i + 1) n size ltac:(lia)). lia.
Qed.

Section writes.
Context {W : Type} `{ArrayWriter W} (repr : W → list buf → Prop) `{!ArrayWriterLaws W repr}.
Abbreviation appends := (appends repr).

(** ** Whole slices *)

Lemma write_spec sh s : fits sh s → appends (write s) sh (rows s).
Proof.
  destruct sh as [width| |width|sh|size sh|fields]; intros Hf.
  - destruct s as [width' values| | | | | |]; try done. destruct Hf as [-> Hw]. apply appends_native. cbn [rows].
    rewrite native_bytes. by apply grows_native.
  - destruct s as [|nulls values| | | | |]; try done. destruct (boolean_rows _ _ Hf) as [Ev Eb]. destruct Hf as (Hn & Hm & El).
    apply (appends_boolean repr (λ pos, put pos (NullmaskOp (ns_write nulls))) (λ pos, put pos (BitmaskOp (bs_write values)))); rewrite ?Ev, ?Eb.
    + by apply grows_null, ns_write_ok.
    + by apply grows_bits, bs_write_ok.
  - destruct s as [| |nulls width' values| | | |]; try done. destruct (primitive_rows _ _ _ _ Hf) as [Ev Eb]. destruct Hf as (-> & Hn & El & Hw).
    apply (appends_primitive repr (λ pos, put pos (NullmaskOp (ns_write nulls))) (λ pos, put pos (NativeOp (NatSlice values)))); rewrite ?Ev, ?Eb.
    + by apply grows_null, ns_write_ok.
    + by apply grows_native.
  - apply fits_list in Hf as (nulls & base & lens & values & child & -> & Hn & Hb & Ht & Hl & Hv & Hc & Hor & Erow & Elen).
    pose proof (rows_length _ _ Hc) as Hcl. destruct (list_slice_rows nulls base lens values) as (Ev & Ei & Els); try done; [rewrite Erow; lia|].
    set (r := (Z.to_nat base, Z.to_nat (base + total lens))).
    eapply appends_ext; [|apply (appends_list repr (λ pos, put pos (NullmaskOp (ns_write nulls))) (λ pos, put pos (OffsetOp (OffSlice (cumul base lens))))
      (write_range r child))].
    + intros pos w. cbn [write]. unfold list_slice_write. assert (offsets_range (cumul base lens) = Ok r) as ->.
      { unfold offsets_range, first_offset, last_offset_of, offsets_len. rewrite cumul_length. cbn [Nat.sub]. rewrite Nat.sub_0_r, !at_cumul, take_ge by lia.
        cbn [mbind res_bind]. unfold as_usize, r, i32_max in *. pose proof (total_nonneg lens). unfold total at 1. cbn [take sum_list].
        rewrite Z.add_0_r, !Z.mod_small by lia. done. }
      cbn [mbind res_bind]. by destruct Hor as [[-> _]| ->].
    + rewrite Ev. by apply grows_null, ns_write_ok.
    + rewrite Els. apply grows_offsets; [done| |apply lens_of_cumul]. by exists base, lens.
    + rewrite Ei, parts_of_join, Erow by done. replace (Z.to_nat (total lens)) with (rlen r) by (unfold rlen, r; cbn; pose proof (total_nonneg lens); lia).
      apply (write_range_spec repr sh child r); [done|]. unfold r. cbn. pose proof (total_nonneg lens). lia.
  - destruct sh as [width| | | | |]; try done. destruct s as [| | | |size' nulls vs| |]; try done. destruct vs as [width' values| | | | | |]; try done.
    destruct Hf as (-> & Hn & El & -> & Hw). destruct (fixed_rows size nulls (Native width values)) as (Ev & Ei); [done|].
    apply (appends_fixed repr (λ pos, put pos (NullmaskOp (ns_write nulls))) (λ pos, put pos (NativeOp (NatSlice values)))).
    + rewrite Ev. by apply grows_null, ns_write_ok.
    + rewrite Ei, chunks_of_join. cbn [rows]. rewrite take_ge by (rewrite length_fmap; lia). apply appends_native. rewrite native_bytes. by apply grows_native.
  - destruct s as [| | | | |nulls columns offset len|]; try done. destruct Hf as (Hn & Ho & Hc & Hf). rewrite fits_fields_lookup in Hf.
    cbn [rows write]. fold (struct_rows nulls columns). set (r := (offset, offset + len)%nat).
    replace len with (rlen r) at 1 by (unfold rlen, r; cbn; lia). change offset with r.1 at 1.
    apply write_src_range_spec; try done; [unfold r; cbn; lia|]. intros sh c _ Hfit El. apply write_range_spec; [done..|]. unfold r. cbn. lia.
Qed.
(** ** Lists of ranges *)

(** A slice, or a list item that holds it. *)
Definition fits_item (sh : shape) (s : Slice) : Prop := fits sh s ∨ ∃ c, s = ListItem c ∧ fits sh c.

Lemma column_depth c columns : c ∈ columns → (depth c <= max_list_with depth columns)%nat.
Proof. intros Hin. induction Hin as [|? ? ? ? IH]; cbn; lia. Qed.

Lemma slice_column sh c offset len n (f : Slice → nat → W → res W) new : fits sh c → slice_len c = n → (offset + len <= n)%nat →
  (∀ c', fits sh c' → slice_len c' = len → depth c' = depth c → rows c' = part offset len (rows c) → appends (f c') sh new) →
  appends (λ pos w, c ← slice offset len c; f c pos w) sh new.
Proof.
  intros Hf <- Ho Hall. destruct (slice_spec sh c offset len Hf Ho) as (c' & -> & Hf' & El & Er & Ed). by apply Hall.
Qed.

Lemma write_ranges_list fuel sh nulls base lens values ranges : nulls_ok nulls → 0 <= base → base + total lens <= i32_max →
  ns_len nulls = length lens → base + total lens <= Z.of_nat (length (rows values)) → ranges_in (length lens) ranges →
  (∀ ranges, ranges_in (length (rows values)) ranges → appends (write_ranges_in fuel ranges values) sh (piece (rows values) ranges)) →
  appends (write_ranges_in (S fuel) ranges (ListSlice nulls (cumul base lens) values)) (ShList sh)
    (piece (rows (ListSlice nulls (cumul base lens) values)) ranges).
Proof.
  intros Hn Hb Ht Hl Hv Hr IH. destruct (list_slice_rows nulls base lens values) as (Ev & Ei & Els); try done.
  eapply appends_ext; [|apply (appends_list repr (λ pos, put_res pos NullmaskOp (ns_write_ranges ranges nulls))
    (λ pos, put pos (OffsetOp (OffRanges (cumul base lens) ranges))) (write_ranges_in fuel (item_range base lens <$> ranges) values))].
  - intros pos w. cbn [write_ranges_in]. unfold list_write_ranges. by rewrite value_ranges_ok.
  - rewrite piece_fmap, Ev. apply grows_null_res; [done|]. apply ns_write_ranges_ok; [done|]. by rewrite Hl.
  - rewrite piece_fmap, Els. apply grows_offsets; [done| |cbn; by rewrite lens_of_cumul].
    cbn. rewrite lens_of_cumul. split; [by exists base, lens|]. eapply Forall_impl; [exact Hr|]. cbn. unfold rlen. lia.
  - rewrite piece_fmap, Ei, item_piece by done. apply IH. by apply item_ranges_in.
Qed.
Lemma write_ranges_fixed fuel size nulls width values ranges : nulls_ok nulls → length values = (ns_len nulls * size)%nat →
  Forall (λ v, length v = width) values → ranges_in (ns_len nulls) ranges → (0 < fuel)%nat →
  appends (write_ranges_in (S fuel) ranges (FixedSizeListSlice size nulls (Native width values))) (ShFixed size (ShNative width))
    (piece (rows (FixedSizeListSlice size nulls (Native width values))) ranges).
Proof.
  intros Hn El Hw Hr Hfuel. destruct (fixed_rows size nulls (Native width values)) as (Ev & Ei); [done|].
  apply (appends_fixed repr (λ pos, put_res pos NullmaskOp (ns_write_ranges ranges nulls)) (write_ranges_in fuel (scale_ranges size ranges) (Native width values))).
  - rewrite piece_fmap, Ev. apply grows_null_res; [done|]. by apply ns_write_ranges_ok.
  - rewrite piece_fmap, Ei, chunk_piece by done. destruct fuel; [lia|]. cbn [write_ranges_in rows]. apply appends_native.
    rewrite piece_fmap, native_bytes. apply grows_native; [done| |done]. split; [done|]. apply Forall_fmap.
    eapply Forall_impl; [exact Hr|]. intros r Hr'. cbn in *. rewrite El. split; apply Nat.mul_le_mono_r; lia.
Qed.

Lemma write_ranges_struct (f : Slice → nat → W → res W) (sel : ∀ {A}, list A → list A) op nulls columns fields offset len : 
  (∀ A B (g : A → B) l, g <$> sel l = sel (g <$> l)) → nulls_ok nulls → (offset + len <= ns_len nulls)%nat →
  Forall (λ c, slice_len c = ns_len nulls) columns → Forall2 fits fields columns →
  (∀ n, nulls_ok n → ns_len n = len → ∃ o, op n = Ok o ∧ bits_op o (sel (nulls_bits n))) →
  (∀ sh c c', sh ∈ fields → c ∈ columns → fits sh c' → slice_len c' = len → depth c' = depth c → appends (f c') sh (sel (rows c'))) →
  appends (λ pos w, nulls ← ns_slice offset len nulls; w ← put_res pos NullmaskOp (op nulls) w;
                    for_columns (λ c pos w, c ← slice offset len c; f c pos w) columns (pos + 1) w)
    (ShStruct fields) (sel (part offset len (struct_rows nulls columns))).
Proof.
  intros Hsel Hn Ho Hc Hf Hop Hall. destruct (ns_slice_spec offset len nulls Hn Ho) as (n' & -> & Hn' & El & Eb). cbn [mbind res_bind].
  apply (appends_struct repr (λ pos, put_res pos NullmaskOp (op n'))); [|done|].
  - rewrite Hsel, part_fmap, struct_rows_valid, <-Eb. apply grows_null_res; [done|]. by apply Hop.
  - apply (struct_columns repr (λ A l, sel A (part offset len l)) (λ c pos w, c ← slice offset len c; f c pos w)); try done.
    { intros. by rewrite Hsel, part_fmap. }
    intros sh c Hin Hin' Hfit Elc. eapply slice_column; [done|done|done|]. intros c' Hf' El' Ed Er. rewrite <-Er. by eapply Hall.
Qed.

Lemma write_ranges_in_spec fuel : ∀ sh s ranges, fits_item sh s → (depth s < fuel)%nat → ranges_in (slice_len s) ranges →
  appends (write_ranges_in fuel ranges s) sh (piece (rows s) ranges).
Proof.
  induction fuel as [|fuel IH]; intros sh s ranges Hfi Hd Hr; [lia|]. destruct Hfi as [Hf|(c & -> & Hf)].
  2:{ cbn [depth] in Hd. apply (IH sh c ranges); [by left|lia|done]. }
  destruct sh as [width| |width|sh|size sh|fields].
  - destruct s as [width' values| | | | | |]; try done. destruct Hf as [-> Hw]. apply appends_native. cbn [rows].
    rewrite piece_fmap, native_bytes. by apply grows_native.
  - destruct s as [|nulls values| | | | |]; try done. destruct (boolean_rows _ _ Hf) as [Ev Eb]. destruct Hf as (Hn & Hm & El).
    apply (appends_boolean repr (λ pos, put_res pos NullmaskOp (ns_write_ranges ranges nulls)) (λ pos, put_res pos BitmaskOp (bs_write_ranges ranges values)));
      rewrite piece_fmap, ?Ev, ?Eb.
    + apply grows_null_res; [done|]. apply ns_write_ranges_ok; [done|]. by rewrite El.
    + apply grows_bits_res; [done|]. by apply bs_write_ranges_ok.
  - destruct s as [| |nulls width' values| | | |]; try done. destruct (primitive_rows _ _ _ _ Hf) as [Ev Eb]. destruct Hf as (-> & Hn & El & Hw).
    apply (appends_primitive repr (λ pos, put_res pos NullmaskOp (ns_write_ranges ranges nulls)) (λ pos, put pos (NativeOp (NatRanges values ranges))));
      rewrite piece_fmap, ?Ev, ?Eb.
    + apply grows_null_res; [done|]. apply ns_write_ranges_ok; [done|]. by rewrite El.
    + by apply grows_native.
  - apply fits_list in Hf as (nulls & base & lens & values & child & -> & Hn & Hb & Ht & Hl & Hv & Hc & Hor & Erow & Elen).
    cbn [slice_len depth] in *. pose proof (rows_length _ _ Hc) as Hcl. apply write_ranges_list; try done; rewrite ?Erow, ?Hcl; try lia; [by rewrite <-Hl|].
    intros ranges' Hr'. rewrite <-Erow. apply IH; [|lia|by rewrite Elen]. destruct Hor as [[-> _]| ->]; [by left|right; by exists child].
  - destruct sh as [width| | | | |]; try done. destruct s as [| | | |size' nulls vs| |]; try done. destruct vs as [width' values| | | | | |]; try done.
    destruct Hf as (-> & Hn & El & -> & Hw). cbn [depth] in Hd. apply write_ranges_fixed; try done; lia.
  - destruct s as [| | | | |nulls columns offset len|]; try done. destruct Hf as (Hn & Ho & Hc & Hf). rewrite fits_fields_lookup in Hf.
    cbn [slice_len rows depth] in *. fold (struct_rows nulls columns).
    apply (write_ranges_struct (λ c, write_ranges_in fuel ranges c) (λ A l, piece l ranges) (ns_write_ranges ranges)); try done.
    + intros. apply piece_fmap.
    + intros n Hn' <-. by apply ns_write_ranges_ok.
    + intros sh c c' Hin Hin' Hfit El Ed. apply IH; [by left| |by rewrite El]. pose proof (column_depth _ _ Hin'). lia.
Qed.
Lemma write_ranges_spec sh s ranges : fits_item sh s → ranges_in (slice_len s) ranges → appends (write_ranges ranges s) sh (piece (rows s) ranges).
Proof. intros. apply write_ranges_in_spec; [done|lia|done]. Qed.
(** ** Lists of rows *)

Definition pick {A} (indexes : list nat) (l : list A) : list A := omap (l !!.) indexes.

Lemma native_indexes_ok width hint values indexes : Forall (λ v, length v = width) values → indexes_in (length values) hint indexes →
  grows repr (NativeBuf width) (λ pos, put pos (NativeOp (NatIndexes width hint values indexes))) (pick indexes values).
Proof. intros Hw [Hi Hh]. by apply grows_native. Qed.

Lemma write_indexes_list sh fuel hint nulls base lens values indexes : nulls_ok nulls → 0 <= base → base + total lens <= i32_max →
  ns_len nulls = length lens → fits_item sh values → length (rows values) = slice_len values →
  base + total lens <= Z.of_nat (slice_len values) → indexes_in (length lens) hint indexes →
  appends (write_indexes_in (S fuel) hint indexes (ListSlice nulls (cumul base lens) values)) (ShList sh)
    (pick indexes (rows (ListSlice nulls (cumul base lens) values))).
Proof.
  intros Hn Hb Ht Hl Hfi Ev' Hv Hi. destruct (list_slice_rows nulls base lens values) as (Ev & Ei & Els); try done; [by rewrite Ev'|].
  destruct (item_ranges_spec (rows values) base lens indexes) as (ranges & Er & Hr & Hp); [done|done|by rewrite Ev'|apply Hi|].
  eapply appends_ext; [|apply (appends_list repr (λ pos, put_res pos NullmaskOp (ns_write_indexes hint indexes nulls))
    (λ pos, put pos (OffsetOp (OffIndexes (cumul base lens) indexes))) (write_ranges ranges values))]; unfold pick.
  - intros pos w. cbn [write_indexes_in]. unfold list_write_indexes. by rewrite Er.
  - rewrite picks_fmap, Ev. apply grows_null_res; [done|]. apply ns_write_indexes_ok; [done|]. by rewrite Hl.
  - rewrite picks_fmap, Els. apply grows_offsets; [done| |cbn; by rewrite lens_of_cumul].
    cbn. rewrite lens_of_cumul. split; [by exists base, lens|apply Hi].
  - rewrite picks_fmap, Ei, <-Hp. apply write_ranges_spec; [done|]. by rewrite <-Ev'.
Qed.
Lemma write_indexes_fixed fuel hint size nulls width values indexes : nulls_ok nulls → length values = (ns_len nulls * size)%nat →
  Forall (λ v, length v = width) values → indexes_in (ns_len nulls) hint indexes →
  appends (write_indexes_in (S fuel) hint indexes (FixedSizeListSlice size nulls (Native width values))) (ShFixed size (ShNative width))
    (pick indexes (rows (FixedSizeListSlice size nulls (Native width values)))).
Proof.
  intros Hn El Hw Hi. destruct (fixed_rows size nulls (Native width values)) as (Ev & Ei); [done|].
  destruct (fixed_indexes (rows (Native width values)) size (ns_len nulls) indexes) as [Hr Hp]; [cbn; by rewrite length_fmap|apply Hi|].
  apply (appends_fixed repr (λ pos, put_res pos NullmaskOp (ns_write_indexes hint indexes nulls))
    (write_ranges ((λ i, (i * size, i * size + size)%nat) <$> indexes) (Native width values))); unfold pick.
  - rewrite picks_fmap, Ev. apply grows_null_res; [done|]. by apply ns_write_indexes_ok.
  - rewrite picks_fmap, Ei, <-Hp. apply write_ranges_spec; [by left|]. cbn [rows slice_len] in *. by rewrite length_fmap in Hr.
Qed.

Lemma write_indexes_in_spec fuel : ∀ sh s hint indexes, fits_item sh s → (depth s < fuel)%nat → indexes_in (slice_len s) hint indexes →
  appends (write_indexes_in fuel hint indexes s) sh (pick indexes (rows s)).
Proof.
  induction fuel as [|fuel IH]; intros sh s hint indexes Hfi Hd Hi; [lia|]. destruct Hfi as [Hf|(c & -> & Hf)].
  2:{ cbn [depth] in Hd. apply (IH sh c hint indexes); [by left|lia|done]. }
  destruct sh as [width| |width|sh|size sh|fields].
  - destruct s as [width' values| | | | | |]; try done. destruct Hf as [-> Hw]. apply appends_native. cbn [rows]. unfold pick.
    rewrite picks_fmap, native_bytes. by apply native_indexes_ok.
  - destruct s as [|nulls values| | | | |]; try done. destruct (boolean_rows _ _ Hf) as [Ev Eb]. destruct Hf as (Hn & Hm & El).
    apply (appends_boolean repr (λ pos, put_res pos NullmaskOp (ns_write_indexes hint indexes nulls))
      (λ pos, put_res pos BitmaskOp (bs_write_indexes hint indexes values))); unfold pick; rewrite picks_fmap, ?Ev, ?Eb.
    + apply grows_null_res; [done|]. apply ns_write_indexes_ok; [done|]. by rewrite El.
    + apply grows_bits_res; [done|]. by apply bs_write_indexes_ok.
  - destruct s as [| |nulls width' values| | | |]; try done. destruct (primitive_rows _ _ _ _ Hf) as [Ev Eb]. destruct Hf as (-> & Hn & El & Hw).
    apply (appends_primitive repr (λ pos, put_res pos NullmaskOp (ns_write_indexes hint indexes nulls))
      (λ pos, put pos (NativeOp (NatIndexes width hint values indexes)))); unfold pick; rewrite picks_fmap, ?Ev, ?Eb.
    + apply grows_null_res; [done|]. apply ns_write_indexes_ok; [done|]. by rewrite El.
    + by apply native_indexes_ok.
  - apply fits_list in Hf as (nulls & base & lens & values & child & -> & Hn & Hb & Ht & Hl & Hv & Hc & Hor & Erow & Elen).
    cbn [slice_len depth] in *. pose proof (rows_length _ _ Hc) as Hcl. apply write_indexes_list; try done; [|congruence|by rewrite <-Hl].
    destruct Hor as [[-> _]| ->]; [by left|right; by exists child].
  - destruct sh as [width| | | | |]; try done. destruct s as [| | | |size' nulls vs| |]; try done. destruct vs as [width' values| | | | | |]; try done.
    destruct Hf as (-> & Hn & El & -> & Hw). by apply write_indexes_fixed.
  - destruct s as [| | | | |nulls columns offset len|]; try done. destruct Hf as (Hn & Ho & Hc & Hf). rewrite fits_fields_lookup in Hf.
    cbn [slice_len rows depth] in *. fold (struct_rows nulls columns).
    apply (write_ranges_struct (λ c, write_indexes_in fuel hint indexes c) (λ A l, pick indexes l) (ns_write_indexes hint indexes)); try done.
    + intros. apply picks_fmap.
    + intros n Hn' <-. by apply ns_write_indexes_ok.
    + intros sh c c' Hin Hin' Hfit El Ed. apply IH; [by left| |by rewrite El]. pose proof (column_depth _ _ Hin'). lia.
Qed.
Lemma write_indexes_spec sh s hint indexes : fits_item sh s → indexes_in (slice_len s) hint indexes →
  appends (write_indexes hint indexes s) sh (pick indexes (rows s)).
Proof. intros. apply write_indexes_in_spec; [done|lia|done]. Qed.
(** ** Table slices *)

(** The rows of the whole columns, and the part of them the slice shows. *)
Definition table_height (t : AnyTableSlice) : nat := from_option slice_len 0%nat (head (ts_columns t)).
Definition table_rows (t : AnyTableSlice) : list row :=
  part (ts_offset t) (ts_len t) (struct_rows (mkNulls None (table_height t)) (ts_columns t)).
Definition table_fits (fields : list shape) (t : AnyTableSlice) : Prop :=
  Forall2 fits fields (ts_columns t) ∧ Forall (λ c, slice_len c = table_height t) (ts_columns t) ∧
  (ts_offset t + ts_len t <= table_height t)%nat.

(** The writes of a table slice, as data. *)
Inductive table_op : Type :=
| TWrite (t : AnyTableSlice)
| TRange (r : nrange) (t : AnyTableSlice)
| TRanges (ranges : list nrange) (t : AnyTableSlice)
| TIndexes (hint : nat) (indexes : list nat) (t : AnyTableSlice).
Definition table_op_run (op : table_op) (w : W) : res W :=
  match op with
  | TWrite t => table_write t w
  | TRange r t => table_write_range r t w
  | TRanges ranges t => table_write_ranges ranges t w
  | TIndexes hint indexes t => table_write_indexes hint indexes t w
  end.
Definition table_op_rows (op : table_op) : list row :=
  match op with
  | TWrite t => table_rows t
  | TRange r t => part r.1 (rlen r) (table_rows t)
  | TRanges ranges t => piece (table_rows t) ranges
  | TIndexes _ indexes t => pick indexes (table_rows t)
  end.
Definition table_op_ok (fields : list shape) (op : table_op) : Prop :=
  match op with
  | TWrite t => table_fits fields t
  | TRange r t => table_fits fields t ∧ (r.1 <= r.2 <= ts_len t)%nat
  | TRanges ranges t => table_fits fields t ∧ ranges_in (ts_len t) ranges
  | TIndexes hint indexes t => table_fits fields t ∧ indexes_in (ts_len t) hint indexes
  end.

Lemma table_columns_spec (sel : ∀ {A}, list A → list A) f t fields w rs : table_fits fields t →
  (∀ A B (g : A → B) l, g <$> sel l = sel (g <$> l)) →
  (∀ sh c, c ∈ ts_columns t → fits sh c → slice_len c = table_height t → appends (f c) sh (sel (rows c))) →
  let new := sel (struct_rows (mkNulls None (table_height t)) (ts_columns t)) in
  repr w (enc_fields enc 0 fields rs) → Forall buf_small (enc_fields enc 0 fields (rs ++ new)) →
  runs repr (for_columns f (ts_columns t) 0 w) (enc_fields enc 0 fields (rs ++ new)).
Proof.
  intros (Hf & Hc & Ho) Hsel Hall new Hr Hs.
  pose proof (for_columns_spec repr f new fields (ts_columns t) 0) as Hcol. specialize (Hcol ltac:(eapply Forall2_impl; [exact Hf|]; intros; by apply fits_nbufs)).
  assert (step repr (for_columns f (ts_columns t)) (enc_fields enc 0 fields rs) (enc_fields enc 0 fields (rs ++ new))) as Hstep.
  { apply Hcol. apply (struct_columns repr (λ A, sel A) f (mkNulls None (table_height t))); try done. intros. by apply Hall. }
  specialize (Hstep w [] []). rewrite !app_nil_r in Hstep. by apply Hstep.
Qed.

Lemma table_op_spec fields op w rs : table_op_ok fields op → repr w (enc_fields enc 0 fields rs) →
  Forall buf_small (enc_fields enc 0 fields (rs ++ table_op_rows op)) →
  runs repr (table_op_run op w) (enc_fields enc 0 fields (rs ++ table_op_rows op)).
Proof.
  destruct op as [t|r t|ranges t|hint indexes t]; cbn [table_op_ok table_op_run table_op_rows]; intros Hok Hr Hs.
  - pose proof Hok as (_ & _ & Ho). unfold table_write, table_rows in *. set (r := (ts_offset t, ts_offset t + ts_len t)%nat).
    replace (ts_len t) with (rlen r) in Hs |- * at 1 by (unfold rlen, r; cbn; lia). change (ts_offset t) with r.1 in Hs |- * at 1.
    apply (table_columns_spec (λ A, part r.1 (rlen r)) (write_range r)); try done; [intros; apply part_fmap|].
    intros sh c _ Hf El. apply write_range_spec; [done..|]. unfold r. cbn. lia.
  - destruct Hok as [Hfit Hrange]. pose proof Hfit as (_ & _ & Ho). unfold table_write_range, table_rows in *.
    rewrite !(proj2 (Nat.leb_le _ _)) by lia. cbn [assert_ andb mbind res_bind].
    rewrite part_part in Hs |- * by (unfold rlen; lia). rewrite (Nat.add_comm (ts_offset t)) in Hs |- *.
    set (r' := (r.1 + ts_offset t, r.2 + ts_offset t)%nat). change (r.1 + ts_offset t)%nat with r'.1 in Hs |- *.
    replace (rlen r) with (rlen r') in Hs |- * by (unfold rlen, r'; cbn; lia).
    apply (table_columns_spec (λ A, part r'.1 (rlen r')) (write_range r')); try done; [intros; apply part_fmap|].
    intros sh c _ Hf El. apply write_range_spec; [done..|]. unfold r'. cbn. lia.
  - destruct Hok as [Hfit Hrange]. pose proof Hfit as (_ & _ & Ho). unfold table_write_ranges, table_rows in *.
    apply (table_columns_spec (λ A l, piece (part (ts_offset t) (ts_len t) l) ranges)); try done; [intros; by rewrite piece_fmap, part_fmap|].
    intros sh c _ Hf El. eapply slice_column; [done|done|lia|]. intros c' Hf' El' _ Er. rewrite <-Er. apply write_ranges_spec; [by left|by rewrite El'].
  - destruct Hok as [Hfit Hrange]. pose proof Hfit as (_ & _ & Ho). unfold table_write_indexes, table_rows in *.
    apply (table_columns_spec (λ A l, pick indexes (part (ts_offset t) (ts_len t) l))); try done; [intros; unfold pick; by rewrite picks_fmap, part_fmap|].
    intros sh c _ Hf El. eapply slice_column; [done|done|lia|]. intros c' Hf' El' _ Er. rewrite <-Er. apply write_indexes_spec; [by left|by rewrite El'].
Qed.

(** C15: for every writer that appends what its operations say, each of the four writes of a slice
    of any type, nesting and offset succeeds and appends the encoding of exactly the rows it
    names to the buffers of the slice, and leaves the buffers in front of and behind them alone. *)
Theorem slice_writes_exact sh s r ranges hint indexes w pre rs post : fits sh s →
  (r.1 <= r.2 <= slice_len s)%nat → ranges_in (slice_len s) ranges → indexes_in (slice_len s) hint indexes →
  repr w (pre ++ enc sh rs ++ post) →
  let appended m new := Forall buf_small (enc sh (rs ++ new)) → ∃ w', m = Ok w' ∧ repr w' (pre ++ enc sh (rs ++ new) ++ post) in
  appended (write s (length pre) w) (rows s) ∧
  appended (write_range r s (length pre) w) (part r.1 (rlen r) (rows s)) ∧
  appended (write_ranges ranges s (length pre) w) (piece (rows s) ranges) ∧
  appended (write_indexes hint indexes s (length pre) w) (pick indexes (rows s)).
Proof.
  intros Hf Hr Hrs Hi Hw appended. split_and!.
  - intros Hs. by apply (write_spec sh s Hf rs w pre post Hw).
  - intros Hs. by apply (write_range_spec repr sh s r Hf Hr rs w pre post Hw).
  - intros Hs. by apply (write_ranges_spec sh s ranges (or_introl Hf) Hrs rs w pre post Hw).
  - intros Hs. by apply (write_indexes_spec sh s hint indexes (or_introl Hf) Hi rs w pre post Hw).
Qed.
End writes.
