(* ===== verification/TableWrite.v ===== *)
(** * TableWrite: the writer of a table

    Models crates/storage/src/table/write/table.rs and storage_writer.rs, the writer of several
    buffers of crates/array/src/writer/any.rs, and the walk over data types of
    crates/array/src/visitor.rs and crates/array/src/util.rs.

    All buffers share one storage cell: an operation on a buffer takes the current storage,
    hands it to the page writer of the buffer and puts it back.  The encoding of the schema is
    that of the arrow IPC format, a parameter. *)
From S2P Require Import Prelude Bytes Data Kv Bits Offsets Pages PagesSpec Slices SliceSpec SliceWrite.

(** ** Data types *)

Inductive TimeUnit : Type := Second | Millisecond | Microsecond | Nanosecond.
Inductive PrimitiveType : Type :=
| Int8 | Int16 | Int32 | Int64 | UInt8 | UInt16 | UInt32 | UInt64 | Float16 | Float32 | Float64
| Timestamp (unit : TimeUnit).

(** [get_byte_width] *)
Definition byte_width (p : PrimitiveType) : nat :=
  match p with
  | Int8 | UInt8 => 1
  | Int16 | UInt16 | Float16 => 2
  | Int32 | UInt32 | Float32 => 4
  | Int64 | UInt64 | Float64 | Timestamp _ => 8
  end.

(** A field of a list or a struct is its nullability and its type.  [OtherType b] stands for the
    types that are not supported; [b] when it counts as two buffers all the same. *)
Inductive ArrowType : Type :=
| Boolean
| Primitive (p : PrimitiveType)
| Binary
| Utf8
| FixedSizeBinary (size : nat)
| ListOf (nullable : bool) (item : ArrowType)
| FixedSizeListOf (size : nat) (nullable : bool) (item : ArrowType)
| Struct (fields : list (bool * ArrowType))
| OtherType (two_buffers : bool).

Definition sum_res (l : list (res nat)) : res nat := fold_res (λ n x, m ← x; Ok (n + m)%nat) l 0%nat.

Fixpoint get_num_buffers (ty : ArrowType) : res nat :=
  match ty with
  | Boolean | Primitive _ | FixedSizeBinary _ => Ok 2%nat
  | Binary | Utf8 => Ok 3%nat
  | ListOf _ item => n ← get_num_buffers item; Ok (2 + n)%nat
  | FixedSizeListOf _ _ item => n ← get_num_buffers item; Ok (1 + n)%nat
  | Struct fields => n ← sum_res ((λ f, get_num_buffers f.2) <$> fields); Ok (1 + n)%nat
  | OtherType true => Ok 2%nat
  | OtherType false => Panic "unsupported arrow data type"
  end.
Definition build_field_offsets (start_pos : nat) (fields : list ArrowType) : res (list nat) :=
  lens ← map_res get_num_buffers fields; Ok (build_offsets start_pos lens).

(** ** Writers of buffers *)

Inductive AnyWriter : Type :=
| WBitmask (w : BitmaskPageWriter BufferPageWriter)
| WNullmask (w : NullmaskPageWriter BufferPageWriter)
| WNative (w : NativePageWriter BufferPageWriter)
| WOffsets (w : OffsetPageWriter BufferPageWriter).

(** A writer with another page writer: [pair s] puts it on the shared storage [s]. *)
Section over.
Context {P Q : Type} (f : P → Q).
Definition np_over (w : NativePageWriter P) : NativePageWriter Q :=
  mkNative (f (np_page_writer w)) (np_buffer w) (np_item_size w) (np_page_size w).
Definition bp_over (w : BitmaskPageWriter P) : BitmaskPageWriter Q :=
  mkBitmaskPages (f (bp_page_writer w)) (bp_builder w) (bp_page_size w).
Definition op_over (w : OffsetPageWriter P) : OffsetPageWriter Q :=
  mkOffsetPages (f (op_page_writer w)) (op_builder w) (op_page_len w).
Definition nmp_over (w : NullmaskPageWriter P) : NullmaskPageWriter Q :=
  mkNullmaskPages (bp_over (nmp_nulls w)) (nmp_has_nulls w) (nmp_len w).
End over.

(** ** StorageWriterFactory *)

Record StorageWriterFactory : Type := mkWriterFactory { wf_sizes : page_sizes; wf_key : TableKeyFactory; wf_pos : nat }.

Definition next_buffer (f : StorageWriterFactory) : BufferPageWriter * StorageWriterFactory :=
  (page_writer_new (wf_key f) (wf_pos f), mkWriterFactory (wf_sizes f) (wf_key f) (wf_pos f + 1)).

Section factory.
Context `{ArrowBits}.
(** The buffers created so far, with the factory. *)
Abbreviation fstate := (StorageWriterFactory * list AnyWriter)%type.

Definition push_nullmask (st : fstate) : fstate :=
  let '(buf, f) := next_buffer st.1 in (f, st.2 ++ [WNullmask (nullmask_pages_new (wf_sizes f) buf)]).
Definition push_bitmask (st : fstate) : fstate :=
  let '(buf, f) := next_buffer st.1 in (f, st.2 ++ [WBitmask (bitmask_pages_new (wf_sizes f) buf)]).
Definition push_native (item_size : nat) (st : fstate) : res fstate :=
  let '(buf, f) := next_buffer st.1 in
  w ← native_new (wf_sizes f) buf item_size; Ok (f, st.2 ++ [WNative w]).
Definition push_offset (st : fstate) : fstate :=
  let '(buf, f) := next_buffer st.1 in (f, st.2 ++ [WOffsets (offset_pages_new (wf_sizes f) buf)]).

(** [AnyArrayFactory] as a [DataTypeVisitor]. *)
Fixpoint visit (ty : ArrowType) (st : fstate) : res fstate :=
  match ty with
  | Boolean => Ok (push_bitmask (push_nullmask st))
  | Primitive p => push_native (byte_width p) (push_nullmask st)
  | Binary | Utf8 => push_native 1 (push_offset (push_nullmask st))
  | FixedSizeBinary _ => push_native 1 (push_nullmask st)
  | ListOf _ item => visit item (push_offset (push_nullmask st))
  | Struct fields => fold_res (λ st f, visit f.2 st) fields (push_nullmask st)
  | FixedSizeListOf _ _ _ | OtherType _ => Panic "unsupported arrow type"
  end.

Definition table_writer_from_factory (f : StorageWriterFactory) (columns : list ArrowType) : res (list AnyWriter) :=
  '(_, buffers) ← fold_res (λ st ty, visit ty st) columns (f, []);
  Ok buffers.
End factory.

(** ** TableWriter *)

(** A schema: names, nullability and types of the columns. *)
Abbreviation schema := (list (string * bool * ArrowType)).
Definition column_types (sch : schema) : list ArrowType := sch.*2.

Section table.
Context `{KvStore M C} `{ArrowBits} (schema_to_fb : schema → bytes).

Record TableWriter : Type := mkTableWriter {
  tw_storage : M;
  tw_schema : schema;
  tw_key : TableKeyFactory;
  tw_buffers : list AnyWriter
}.

Definition table_writer_new (sizes : page_sizes) (storage : M) (table_name : bytes) (sch : schema) : res TableWriter :=
  let key := factory_new table_name in
  match table_writer_from_factory (mkWriterFactory sizes key 0) (column_types sch) with
  | Ok buffers => Ok (mkTableWriter storage sch key buffers)
  | Err _ => Panic "called `Result::unwrap()` on an `Err` value"
  | Panic m => Panic m
  end.

(** One operation on a buffer that has the shared storage [s]. *)
Definition any_write (op : buf_op) (s : M) (w : AnyWriter) : res (M * AnyWriter) :=
  match op, w with
  | BitmaskOp op, WBitmask w =>
      w ← bitmask_write op (bp_over (pair s) w); Ok ((bp_page_writer w).1, WBitmask (bp_over snd w))
  | NullmaskOp op, WNullmask w =>
      w ← bitmask_write op (nmp_over (pair s) w);
      Ok ((bp_page_writer (nmp_nulls w)).1, WNullmask (nmp_over snd w))
  | NativeOp op, WNative w =>
      w ← native_write op (np_over (pair s) w); Ok ((np_page_writer w).1, WNative (np_over snd w))
  | OffsetOp op, WOffsets w =>
      w ← offsets_write op (op_over (pair s) w); Ok ((op_page_writer w).1, WOffsets (op_over snd w))
  | _, _ => Panic "invalid arrow buffer access"
  end.

#[export] Instance table_array_writer : ArrayWriter TableWriter := λ buf op t,
  match tw_buffers t !! buf with
  | Some w =>
      '(s, w) ← any_write op (tw_storage t) w;
      Ok (mkTableWriter s (tw_schema t) (tw_key t) (<[buf:=w]> (tw_buffers t)))
  | None => Panic "invalid arrow buffer access"
  end.

Definition any_finish (s : M) (w : AnyWriter) : res M :=
  p ← match w with
      | WBitmask w => bp_finish (bp_over (pair s) w)
      | WNullmask w => nullmask_pages_finish (nmp_over (pair s) w)
      | WNative w => np_finish (np_over (pair s) w)
      | WOffsets w => op_finish (op_over (pair s) w)
      end;
  page_writer_finish p.

Definition table_writer_finish (t : TableWriter) : res M :=
  s ← fold_res any_finish (tw_buffers t) (tw_storage t);
  kv_write (factory_schema (tw_key t)).1 (schema_to_fb (tw_schema t)) s.
End table.

(** * TableWriteSpec: the buffers of a table writer

    A table writer holds one content per buffer ([table_repr]), an operation changes
    the content of its buffer and no other, and [finish] leaves every buffer in its stored
    form. *)

(** ** Shapes of data types *)

Fixpoint shape_of (ty : ArrowType) : shape :=
  match ty with
  | Boolean => ShBoolean
  | Primitive p => ShPrimitive (byte_width p)
  | Binary | Utf8 => ShList (ShNative 1)
  | FixedSizeBinary size => ShFixed size (ShNative 1)
  | ListOf _ item => ShList (shape_of item)
  | FixedSizeListOf size _ item => ShFixed size (shape_of item)
  | Struct fields => ShStruct ((λ f, shape_of f.2) <$> fields)
  | OtherType _ => ShNative 0
  end.

(** The data types a table can have: [visit] does not panic. *)
Fixpoint supported (ty : ArrowType) : bool :=
  match ty with
  | Boolean | Primitive _ | Binary | Utf8 | FixedSizeBinary _ => true
  | ListOf _ item => supported item
  | Struct fields => forallb (λ f, supported f.2) fields
  | FixedSizeListOf _ _ _ | OtherType _ => false
  end.

Section arrow_induction.
Context (P : ArrowType → Prop) (HB : P Boolean) (HP : ∀ p, P (Primitive p)) (Hb : P Binary) (Hu : P Utf8)
  (HF : ∀ n, P (FixedSizeBinary n)) (HL : ∀ b ty, P ty → P (ListOf b ty)) (HFL : ∀ n b ty, P ty → P (FixedSizeListOf n b ty))
  (HS : ∀ fields, Forall (λ f, P f.2) fields → P (Struct fields)) (HO : ∀ b, P (OtherType b)).
Fixpoint arrow_nested_ind (ty : ArrowType) : P ty :=
  match ty with
  | Boolean => HB
  | Primitive p => HP p
  | Binary => Hb
  | Utf8 => Hu
  | FixedSizeBinary n => HF n
  | ListOf b ty => HL b ty (arrow_nested_ind ty)
  | FixedSizeListOf n b ty => HFL n b ty (arrow_nested_ind ty)
  | Struct fields =>
      HS fields ((fix go l : Forall (λ f, P f.2) l :=
        match l with [] => List.Forall_nil _ | f :: l => List.Forall_cons _ _ _ (arrow_nested_ind f.2) (go l) end) fields)
  | OtherType b => HO b
  end.
End arrow_induction.

Lemma sum_res_ok {A} (f : A → res nat) (g : A → nat) l : Forall (λ x, f x = Ok (g x)) l → sum_res (f <$> l) = Ok (sum_list_with g l).
Proof.
  unfold sum_res. intros Hf. assert (∀ n, fold_res (λ n x, m ← x; Ok (n + m)%nat) (f <$> l) n = Ok (n + sum_list_with g l)%nat) as Hn; [|apply (Hn 0%nat)].
  induction Hf as [|x l Hx Hf IH]; intros n; cbn; [by rewrite Nat.add_0_r|]. rewrite Hx. cbn. rewrite IH. f_equal. lia.
Qed.
Lemma sum_list_fmap {A B} (f : A → B) (g : B → nat) l : sum_list_with g (f <$> l) = sum_list_with (λ x, g (f x)) l.
Proof. induction l as [|x l IH]; [done|]. cbn. by rewrite IH. Qed.

(** The count of the buffers of a type is the number of buffers its rows are encoded in. *)
Lemma get_num_buffers_spec ty : supported ty = true → get_num_buffers ty = Ok (nbufs (shape_of ty)).
Proof.
  induction ty as [| | | | |b ty IH|n b ty IH|fields IH|b] using arrow_nested_ind; intros Hs; try done.
  - cbn [supported get_num_buffers shape_of] in *. rewrite IH by done. cbn [mbind res_bind]. done.
  - cbn [supported get_num_buffers shape_of] in *. rewrite (sum_res_ok _ (λ f, nbufs (shape_of f.2))).
    + cbn [mbind res_bind]. unfold nbufs at 2. cbn [enc length]. by rewrite enc_fields_nbufs, sum_list_fmap.
    + rewrite forallb_forall in Hs. rewrite Forall_forall in IH |- *. intros f Hf. apply IH; [done|]. apply Hs. by apply list_elem_of_In.
Qed.

(** ** Page writers on another storage *)

Section change.
Context `{ArrowBitsLaws} {P Q : Type} `{PageWriter P} `{PageWriter Q} (prepr : P → page_log → Prop) (qrepr : Q → page_log → Prop) (q : Q).

Lemma native_repr_change u ps (w : NativePageWriter P) items : native_repr prepr u ps w items →
  (∀ log, prepr (np_page_writer w) log → qrepr q log) →
  native_repr qrepr u ps (mkNative q (np_buffer w) (np_item_size w) (np_page_size w)) items.
Proof.
  intros (E1 & E2 & chunks & rest & -> & (Hw & Hp & Hb & Hs & Hc) & Hl) Hq. split; [done|]. split; [done|].
  exists chunks, rest. split; [done|]. split; [|done]. split; [done|]. split; [by apply Hq|done].
Qed.
Lemma bitmask_repr_change ps (w : BitmaskPageWriter P) l : bitmask_pages_repr prepr ps w l →
  (∀ log, prepr (bp_page_writer w) log → qrepr q log) →
  bitmask_pages_repr qrepr ps (mkBitmaskPages q (bp_builder w) (bp_page_size w)) l.
Proof.
  intros (E & chunks & rest & -> & (Hps & Hb & Hc & log & Hp & Hlog)) Hq. split; [done|].
  exists chunks, rest. split; [done|]. split; [done|]. split; [done|]. split; [done|]. exists log. split; [by apply Hq|done].
Qed.
Lemma offset_repr_change ps (w : OffsetPageWriter P) lens : offset_pages_repr prepr ps w lens →
  (∀ log, prepr (op_page_writer w) log → qrepr q log) →
  offset_pages_repr qrepr ps (mkOffsetPages q (op_builder w) (op_page_len w)) lens.
Proof.
  intros (E & chunks & stored & rest & -> & (Hps & Hb & Hp & Hj & Hc)) Hq. split; [done|].
  exists chunks, stored, rest. split; [done|]. split; [done|]. split; [done|]. split; [by apply Hq|done].
Qed.
Lemma nullmask_repr_change ps (w : NullmaskPageWriter P) l : nullmask_pages_repr prepr ps w l →
  (∀ log, prepr (bp_page_writer (nmp_nulls w)) log → qrepr q log) →
  nullmask_pages_repr qrepr ps
    (mkNullmaskPages (mkBitmaskPages q (bp_builder (nmp_nulls w)) (bp_page_size (nmp_nulls w))) (nmp_has_nulls w) (nmp_len w)) l.
Proof.
  unfold nullmask_pages_repr. cbn [nmp_has_nulls nmp_nulls nmp_len]. destruct (nmp_has_nulls w); intros [Hl Hr] Hq; (split; [done|]);
    by apply bitmask_repr_change.
Qed.
End change.

(** ** One buffer on the shared storage *)

Section table.
Context `{KvStoreLaws M C} `{ArrowBitsLaws} (id : TableId).
Implicit Type s : M.

Definition any_repr (i : nat) s (w : AnyWriter) (b : buf) : Prop :=
  match w, b with
  | WBitmask w, BitBuf l => ∃ ps, bitmask_pages_repr (page_store_repr id i s) ps (bp_over (pair s) w) l
  | WNullmask w, NullBuf l => ∃ ps, nullmask_pages_repr (page_store_repr id i s) ps (nmp_over (pair s) w) l
  | WNative w, NativeBuf width items => ∃ ps, native_repr (page_store_repr id i s) width ps (np_over (pair s) w) items
  | WOffsets w, OffsetBuf lens => ∃ ps, offset_pages_repr (page_store_repr id i s) ps (op_over (pair s) w) lens
  | _, _ => False
  end.

(** Two storages hold the same pages of a buffer. *)
Definition same_pages (i : nat) s s' : Prop := ∀ j, kv_get s' (page_key id i j) = kv_get s (page_key id i j).

Lemma page_store_change i s0 s s' p log : page_store_repr id i s0 (s, p) log → same_pages i s s' → page_store_repr id i s' (s', p) log.
Proof.
  intros (Hf & Hb & Ho & Hs & _) Hsame. split_and!; try done. cbn in *. intros Hl j page Hj. rewrite Hsame. by apply Hs.
Qed.
Lemma any_repr_change i s s' w b : any_repr i s w b → same_pages i s s' → any_repr i s' w b.
Proof.
  intros Hr Hs. destruct w as [w|w|w|w], b as [l|l|width items|lens]; try done; destruct Hr as [ps Hr]; exists ps.
  - eapply (bitmask_repr_change _ _ (s', bp_page_writer w)) in Hr; [exact Hr|]. intros log Hp. by eapply page_store_change.
  - eapply (nullmask_repr_change _ _ (s', bp_page_writer (nmp_nulls w))) in Hr; [exact Hr|]. intros log Hp. by eapply page_store_change.
  - eapply (native_repr_change _ _ (s', np_page_writer w)) in Hr; [exact Hr|]. intros log Hp. by eapply page_store_change.
  - eapply (offset_repr_change _ _ (s', op_page_writer w)) in Hr; [exact Hr|]. intros log Hp. by eapply page_store_change.
Qed.

(** The page writer of a buffer after some operations: only pages of the buffer differ. *)
Lemma store_split i s (q : M * BufferPageWriter) log : page_store_repr id i s q log → page_frame id i s q.1.
Proof. by intros (_ & _ & _ & _ & Hfr). Qed.
Lemma page_store_here i s (q : M * BufferPageWriter) log : page_store_repr id i s q log → page_store_repr id i q.1 (q.1, q.2) log.
Proof. destruct q as [s' p]. intros Hq. by eapply page_store_change. Qed.

Lemma any_write_spec i s w b b' op : any_repr i s w b → buf_op_ok op b → buf_add op b = Some b' → buf_small b' →
  ∃ s' w', any_write op s w = Ok (s', w') ∧ any_repr i s' w' b' ∧ page_frame id i s s'.
Proof.
  intros Hr Hok Ha Hs. destruct op as [op|op|op|op], b as [l|l|width items|lens]; try done; destruct w as [w|w|w|w]; try done;
    injection Ha as <-; destruct Hr as [ps Hr]; cbn [any_write buf_op_ok buf_small] in *.
  - destruct (nullmask_pages_spec _ ps _ _ op Hr Hok) as (w' & -> & Hr'). cbn [mbind res_bind]. eexists _, _. split; [done|]. split.
    + exists ps. eapply (nullmask_repr_change _ _ ((bp_page_writer (nmp_nulls w')).1, (bp_page_writer (nmp_nulls w')).2)) in Hr'; [exact Hr'|].
      apply page_store_here.
    + unfold nullmask_pages_repr in Hr'. destruct (nmp_has_nulls w'); destruct Hr' as (_ & _ & ? & ? & _ & _ & _ & _ & log & Hp & _); by eapply store_split.
  - destruct (bitmask_pages_spec _ ps _ _ op Hr Hok) as (w' & -> & Hr'). cbn [mbind res_bind]. eexists _, _. split; [done|]. split.
    + exists ps. eapply (bitmask_repr_change _ _ ((bp_page_writer w').1, (bp_page_writer w').2)) in Hr'; [exact Hr'|]. apply page_store_here.
    + destruct Hr' as (_ & ? & ? & _ & _ & _ & _ & log & Hp & _). by eapply store_split.
  - destruct (native_write_spec (NativeWriterLaws := native_page_laws _ width ps) _ _ op Hr Hok) as (w' & -> & Hr'). cbn [mbind res_bind]. eexists _, _. split; [done|]. split.
    + exists ps. eapply (native_repr_change _ _ ((np_page_writer w').1, (np_page_writer w').2)) in Hr'; [exact Hr'|]. apply page_store_here.
    + destruct Hr' as (_ & _ & ? & ? & _ & (_ & Hp & _) & _). by eapply store_split.
  - destruct (offset_pages_op _ ps _ _ op Hr Hok Hs) as (w' & -> & Hr'). cbn [mbind res_bind]. eexists _, _. split; [done|]. split.
    + exists ps. eapply (offset_repr_change _ _ ((op_page_writer w').1, (op_page_writer w').2)) in Hr'; [exact Hr'|]. apply page_store_here.
    + destruct Hr' as (_ & ? & ? & ? & _ & _ & _ & Hp & _). by eapply store_split.
Qed.

(** ** All buffers *)

Fixpoint reprs (i : nat) s (ws : list AnyWriter) (bufs : list buf) : Prop :=
  match ws, bufs with
  | [], [] => True
  | w :: ws, b :: bufs => any_repr i s w b ∧ reprs (S i) s ws bufs
  | _, _ => False
  end.

Lemma reprs_app i s ws1 b1 ws2 b2 : reprs i s ws1 b1 → reprs (i + length ws1) s ws2 b2 → reprs i s (ws1 ++ ws2) (b1 ++ b2).
Proof.
  revert i b1; induction ws1 as [|w ws1 IH]; intros i [|b b1]; cbn [reprs app length]; try done; [by rewrite Nat.add_0_r|].
  intros [Hw Hr] Hr2. split; [done|]. apply IH; [done|]. by rewrite Nat.add_succ_comm.
Qed.
Lemma reprs_split i s ws pre b post : reprs i s ws (pre ++ b :: post) →
  ∃ ws1 w ws2, ws = ws1 ++ w :: ws2 ∧ length ws1 = length pre ∧ reprs i s ws1 pre ∧ any_repr (i + length pre) s w b ∧
    reprs (S (i + length pre)) s ws2 post.
Proof.
  revert i ws; induction pre as [|b0 pre IH]; intros i [|w ws]; cbn [reprs app length]; try done.
  - intros [Hw Hr]. exists [], w, ws. rewrite Nat.add_0_r. done.
  - intros [Hw Hr]. destruct (IH _ _ Hr) as (ws1 & w' & ws2 & -> & Hl & H1' & H2' & H3'). exists (w :: ws1), w', ws2.
    rewrite Nat.add_succ_comm in H2', H3'. cbn. by rewrite Hl.
Qed.
Lemma reprs_change i s s' ws bufs : reprs i s ws bufs → (∀ k, (i <= k < i + length ws)%nat → same_pages k s s') → reprs i s' ws bufs.
Proof.
  revert i bufs; induction ws as [|w ws IH]; intros i [|b bufs]; cbn [reprs length]; try done. intros [Hw Hr] Hs. split.
  - eapply any_repr_change; [done|]. apply Hs. lia.
  - apply IH; [done|]. intros k Hk. apply Hs. lia.
Qed.
Lemma reprs_length i s ws bufs : reprs i s ws bufs → length ws = length bufs.
Proof. revert i bufs; induction ws as [|w ws IH]; intros i [|b bufs]; cbn; try done. intros [_ Hr]. f_equal. by eapply IH. Qed.

Lemma frame_same i k s s' : page_frame id i s s' → Z.of_nat i mod 2 ^ 16 ≠ Z.of_nat k mod 2 ^ 16 → same_pages k s s'.
Proof. intros Hfr Hne j. apply Hfr. intros j'. rewrite page_key_inj. intros [E _]. congruence. Qed.

(** [s0] is the storage the table was begun on. *)
Definition table_repr s0 (sch : schema) (t : TableWriter) (bufs : list buf) : Prop :=
  tw_schema t = sch ∧ factory_for id (tw_key t) ∧ reprs 0 (tw_storage t) (tw_buffers t) bufs ∧ Z.of_nat (length bufs) <= 2 ^ 16 ∧
  ∀ k, (∀ i j, k ≠ page_key id i j) → kv_get (tw_storage t) k = kv_get s0 k.

#[export] Instance table_writer_laws s0 sch : ArrayWriterLaws TableWriter (table_repr s0 sch).
Proof.
  intros t pre b b' post op (Hsch & Hf & Hr & Hl & Hk) Hok Ha Hs.
  destruct (reprs_split _ _ _ _ _ _ Hr) as (ws1 & w & ws2 & Ew & Hl1 & Hr1 & Hw & Hr2). cbn [Nat.add] in *.
  destruct (any_write_spec _ _ _ _ _ _ Hw Hok Ha Hs) as (s' & w' & E & Hw' & Hfr).
  unfold array_write, table_array_writer. rewrite Ew, <-Hl1, list_lookup_middle by done. rewrite E. cbn [mbind res_bind].
  eexists. split; [done|]. pose proof (reprs_length _ _ _ _ Hr) as Hlen. rewrite Ew, !length_app in Hlen. cbn [length] in Hlen.
  rewrite length_app in Hl. cbn [length] in Hl.
  split; [done|]. split; [done|]. cbn [tw_storage tw_buffers tw_key]. split; [|split; [rewrite length_app; cbn; lia|]].
  - rewrite insert_app_r_alt, Nat.sub_diag by lia. cbn [insert list_insert].
    pose proof (reprs_length _ _ _ _ Hr2) as Hl2. apply reprs_app; [|cbn [reprs]; rewrite ?Hl1; split; [done|]].
    + eapply reprs_change; [exact Hr1|]. intros k Hk'. eapply frame_same; [exact Hfr|]. rewrite !Z.mod_small by lia. lia.
    + eapply reprs_change; [exact Hr2|]. intros k Hk'. eapply frame_same; [exact Hfr|]. rewrite !Z.mod_small by lia. lia.
  - intros k Hk'. rewrite Hfr by auto. by apply Hk.
Qed.

(** ** New writers *)

Definition sizes_ok (sizes : page_sizes) : Prop :=
  (0 < native_page_size sizes)%nat ∧ (0 < bitmask_page_size sizes)%nat ∧ (0 < offset_page_len sizes)%nat.

(** A step of the factory from its position: it creates writers of the empty buffers [bufs]. *)
Definition creates s (f : StorageWriterFactory * list AnyWriter → res (StorageWriterFactory * list AnyWriter)) (bufs : list buf) : Prop :=
  ∀ wf ws, sizes_ok (wf_sizes wf) → factory_for id (wf_key wf) →
    ∃ new, f (wf, ws) = Ok (mkWriterFactory (wf_sizes wf) (wf_key wf) (wf_pos wf + length new), ws ++ new) ∧ reprs (wf_pos wf) s new bufs.

Lemma creates_app s f g a b : creates s f a → creates s g b → creates s (λ st, st ← f st; g st) (a ++ b).
Proof.
  intros Hf Hg wf ws Hs Hk. destruct (Hf wf ws Hs Hk) as (n1 & -> & Hr1). cbn [mbind res_bind].
  destruct (Hg (mkWriterFactory (wf_sizes wf) (wf_key wf) (wf_pos wf + length n1)) (ws ++ n1) Hs Hk) as (n2 & -> & Hr2). cbn [wf_sizes wf_key wf_pos] in *.
  exists (n1 ++ n2). rewrite length_app, Nat.add_assoc, <-app_assoc. split; [done|]. by apply reprs_app.
Qed.
Lemma creates_nullmask s : creates s (λ st, Ok (push_nullmask st)) [NullBuf []].
Proof.
  intros wf ws (_ & Hs & _) Hk. eexists [_]. split; [done|]. split; [|done]. exists (bitmask_page_size (wf_sizes wf)).
  split; [done|]. apply (bitmask_pages_new_repr _ _ (s, page_writer_new (wf_key wf) (wf_pos wf))); [done|]. by apply page_store_new.
Qed.
Lemma creates_bitmask s : creates s (λ st, Ok (push_bitmask st)) [BitBuf []].
Proof.
  intros wf ws (_ & Hs & _) Hk. eexists [_]. split; [done|]. split; [|done]. exists (bitmask_page_size (wf_sizes wf)).
  apply (bitmask_pages_new_repr _ _ (s, page_writer_new (wf_key wf) (wf_pos wf))); [done|]. by apply page_store_new.
Qed.
Lemma creates_offset s : creates s (λ st, Ok (push_offset st)) [OffsetBuf []].
Proof.
  intros wf ws (_ & _ & Hs) Hk. eexists [_]. split; [done|]. split; [|done]. exists (offset_page_len (wf_sizes wf)).
  apply (offset_pages_new_repr _ _ (s, page_writer_new (wf_key wf) (wf_pos wf))); [done|]. by apply page_store_new.
Qed.
Lemma creates_native s u : (0 < u)%nat → creates s (push_native u) [NativeBuf u []].
Proof.
  intros Hu wf ws _ Hk. unfold push_native. cbn [next_buffer fst snd].
  destruct (native_new_repr (page_store_repr id (wf_pos wf) s) (wf_sizes wf) (s, page_writer_new (wf_key wf) (wf_pos wf)) u Hu) as (w & E & Hr); [by apply page_store_new|].
  unfold native_new in *. destruct (negb _); [done|]. injection E as <-. cbn [mbind res_bind]. eexists [_]. split; [done|]. split; [|done].
  by eexists.
Qed.
Lemma creates_ext s f g bufs : (∀ st, f st = g st) → creates s g bufs → creates s f bufs.
Proof. intros Hfg Hg wf ws. rewrite Hfg. apply Hg. Qed.

Lemma creates_fields {A} s (f : A → StorageWriterFactory * list AnyWriter → res (StorageWriterFactory * list AnyWriter)) (sh : A → shape) l :
  Forall (λ x, creates s (f x) (enc (sh x) [])) l → ∀ k, creates s (fold_res (λ st x, f x st) l) (enc_fields enc k (sh <$> l) []).
Proof.
  induction 1 as [|x l Hx Hf IH]; intros k; cbn [fold_res fmap list_fmap enc_fields].
  - intros wf ws _ _. exists []. rewrite app_nil_r, Nat.add_0_r. by destruct wf.
  - by apply creates_app.
Qed.

Lemma creates_list s f bufs : creates s f bufs →
  creates s (λ st, f (push_offset (push_nullmask st))) (NullBuf [] :: OffsetBuf [] :: bufs).
Proof.
  intros Hf. pose proof (creates_app s _ _ _ _ (creates_offset s) Hf) as H1'. exact (creates_app s _ _ _ _ (creates_nullmask s) H1').
Qed.
Lemma creates_binary s : creates s (λ st, push_native 1 (push_offset (push_nullmask st))) [NullBuf []; OffsetBuf []; NativeBuf 1 []].
Proof. apply creates_list, creates_native. lia. Qed.

Lemma visit_spec s ty : supported ty = true → creates s (visit ty) (enc (shape_of ty) []).
Proof.
  induction ty as [|p| | |n|b ty IH|n b ty IH|fields IH|b] using arrow_nested_ind; intros Hsup; try done.
  - apply (creates_app s (λ st, Ok (push_nullmask st)) (λ st, Ok (push_bitmask st)) [_] [_]); [apply creates_nullmask|apply creates_bitmask].
  - apply (creates_app s (λ st, Ok (push_nullmask st)) (push_native (byte_width p)) [_] [_]); [apply creates_nullmask|apply creates_native; destruct p; cbn; lia].
  - apply creates_binary.
  - apply creates_binary.
  - apply (creates_app s (λ st, Ok (push_nullmask st)) (push_native 1) [_] [_]); [apply creates_nullmask|apply creates_native; lia].
  - by apply (creates_list s (visit ty)), IH.
  - apply (creates_app s (λ st, Ok (push_nullmask st)) (fold_res (λ st f, visit f.2 st) fields) [_]); [apply creates_nullmask|].
    apply (creates_fields s (λ f, visit f.2) (λ f, shape_of f.2)). cbn [supported] in Hsup. rewrite forallb_forall in Hsup.
    rewrite Forall_forall in IH |- *. intros f Hf. apply IH; [done|]. apply Hsup. by apply list_elem_of_In.
Qed.

Definition table_shape (sch : schema) : list shape := shape_of <$> column_types sch.

Lemma table_writer_new_spec sizes s sch : sizes_ok sizes → forallb supported (column_types sch) = true → length id = 16%nat →
  Z.of_nat (sum_list_with nbufs (table_shape sch)) <= 2 ^ 16 →
  ∃ t, table_writer_new sizes s id sch = Ok t ∧ table_repr s sch t (enc_fields enc 0 (table_shape sch) []).
Proof.
  intros Hs Hsup Hid Hn. unfold table_writer_new, table_writer_from_factory.
  assert (factory_for id (factory_new id)) as Hf by apply factory_new_for.
  assert (Forall (λ ty, creates s (visit ty) (enc (shape_of ty) [])) (column_types sch)) as Hall.
  { rewrite forallb_forall in Hsup. apply Forall_forall. intros ty Hty. apply visit_spec, Hsup. by apply list_elem_of_In. }
  destruct (creates_fields s visit shape_of (column_types sch) Hall 0 (mkWriterFactory sizes (factory_new id) 0) [] Hs Hf) as (new & -> & Hr).
  cbn [mbind res_bind wf_pos] in *. eexists. split; [done|]. split; [done|]. split; [done|]. split; [done|].
  split; [by rewrite enc_fields_nbufs|]. done.
Qed.
End table.

(** ** The stored form of a finished table

    [finish] writes the rest of every buffer, its page offsets and the schema; afterwards every
    buffer is stored, and nothing but keys of the table has changed. *)

Section finish.
Context `{KvStoreLaws M C} `{ArrowBitsLaws} (id : TableId).
Implicit Type s : M.

(** ** The stored form of a buffer with the given content *)

Definition null_log (l : list bool) (log : page_log) : Prop :=
  Z.of_nat (length log) <= 2 ^ 32 ∧
  if decide (false ∈ l) then
    ∃ chunks mlog, log = mlog ++ [(0%nat, [])] ∧ Forall2 bit_page chunks mlog ∧ mjoin chunks = l ∧
      chunks ≠ [] ∧ Forall (λ c, (0 < length c)%nat) chunks
  else log = [(length l, [])].

(** The pages of a buffer, its content aside from the keys it is stored under. *)
Definition buf_log (b : buf) (log : page_log) : Prop :=
  match b with
  | NullBuf l => null_log l log
  | BitBuf l => ∃ chunks, Forall2 bit_page chunks log ∧ mjoin chunks = l ∧ Forall (λ c, (0 < length c)%nat) chunks
  | NativeBuf width items =>
      (0 < width)%nat ∧ Forall (λ v, length v = width) items ∧
      ∃ chunks, log = native_log chunks ∧ mjoin chunks = items ∧ Forall (λ c, (0 < length c)%nat) chunks
  | OffsetBuf lens => ∃ chunks, log = offsets_log chunks ∧ mjoin chunks = cumul 0 lens ∧ Forall (λ c, c ≠ []) chunks
  end.
Definition buf_stored s (i : nat) (b : buf) : Prop := ∃ log, buf_log b log ∧ buffer_stored id s i log.

(** The number of items of a buffer; page offsets are [u32]. *)
Definition buf_items (b : buf) : nat :=
  match b with NullBuf l | BitBuf l => length l | NativeBuf _ items => length items | OffsetBuf lens => S (length lens) end.

Lemma nonempty_count {A} (chunks : list (list A)) : Forall (λ c, (0 < length c)%nat) chunks → (length chunks <= length (mjoin chunks))%nat.
Proof. induction 1 as [|c chunks Hc _ IH]; [done|]. rewrite join_cons, length_app. cbn. lia. Qed.
Lemma native_log_total (chunks : list (list bytes)) : total (native_log chunks).*1 = Z.of_nat (length (mjoin chunks)).
Proof.
  unfold native_log, total. induction chunks as [|c chunks IH]; [done|]. rewrite join_cons, length_app. cbn in *. lia.
Qed.
Lemma bit_log_total (chunks : list (list bool)) log : Forall2 bit_page chunks log → total log.*1 = Z.of_nat (length (mjoin chunks)).
Proof.
  unfold total. induction 1 as [|c page chunks log [Hn _] _ IH]; [done|]. rewrite join_cons, length_app. cbn in *. lia.
Qed.

(** The page offsets of a buffer fit. *)
Lemma buf_log_fits b log : buf_log b log → Z.of_nat (buf_items b) <= u32_max →
  total log.*1 <= u32_max ∧ Z.of_nat (length log) <= 2 ^ 32.
Proof.
  unfold u32_max. destruct b as [l|l|width items|lens]; cbn [buf_log buf_items].
  - intros [Hl Hn] Hi. split; [|done]. destruct (decide (false ∈ l)).
    + destruct Hn as (chunks & mlog & -> & Hf & <- & _). rewrite fmap_app, total_app, (bit_log_total _ _ Hf). unfold total. cbn. lia.
    + rewrite Hn. unfold total. cbn. lia.
  - intros (chunks & Hf & <- & Hp) Hi. rewrite (bit_log_total _ _ Hf). apply nonempty_count in Hp.
    rewrite <-(Forall2_length _ _ _ Hf). lia.
  - intros (_ & _ & chunks & -> & <- & Hp) Hi. rewrite native_log_total. apply nonempty_count in Hp.
    unfold native_log. rewrite length_fmap. lia.
  - intros (chunks & -> & E & Hp) Hi. rewrite offsets_log_native, native_log_total.
    assert (mjoin ((λ c : list Z, i32_bytes <$> c) <$> chunks) = i32_bytes <$> mjoin chunks) as ->.
    { clear. induction chunks as [|c chunks IH]; [done|]. by rewrite fmap_cons, !join_cons, fmap_app, IH. }
    rewrite length_fmap, E, cumul_length. assert (Forall (λ c : list Z, (0 < length c)%nat) chunks) as Hp'.
    { eapply Forall_impl; [exact Hp|]. intros [|? ?] ?; [done|cbn; lia]. }
    apply nonempty_count in Hp'. rewrite E, cumul_length in Hp'. unfold native_log. rewrite !length_fmap. lia.
Qed.

Definition buffer_frame (i : nat) s s' : Prop :=
  ∀ k, (∀ j, k ≠ page_key id i j) → k ≠ offsets_key id i → kv_get s' k = kv_get s k.

Lemma finish_page_writer i s p b log : page_store_repr id i s p log → buf_log b log → Z.of_nat (buf_items b) <= u32_max →
  ∃ s', page_writer_finish p = Ok s' ∧ buf_stored s' i b ∧ buffer_frame i s s'.
Proof.
  intros Hp Hlog Hi. destruct (buf_log_fits b log Hlog Hi) as [H1' H2'].
  destruct (page_writer_finish_spec id i s p log Hp H1' H2') as (s' & E & Hst & Hfr). exists s'. split; [done|]. split; [by exists log|done].
Qed.

Lemma any_finish_spec i s w b : any_repr id i s w b → Z.of_nat (buf_items b) <= u32_max →
  ∃ s', any_finish s w = Ok s' ∧ buf_stored s' i b ∧ buffer_frame i s s'.
Proof.
  intros Hr Hi. unfold any_finish. destruct w as [w|w|w|w], b as [l|l|width items|lens]; try done; destruct Hr as [ps Hr].
  - destruct (bp_finish_spec _ ps _ _ Hr) as (p & chunks & log & -> & Hp & Hf & Hj & _ & _ & Hpos). cbn [mbind res_bind].
    eapply finish_page_writer; [exact Hp| |done]. by exists chunks.
  - destruct (nullmask_finish_spec _ ps _ _ Hr) as (p & log & -> & Hp & Hlog). cbn [mbind res_bind].
    eapply finish_page_writer; [exact Hp| |done]. unfold u32_max in Hi. cbn [buf_log buf_items] in *. split.
    + destruct (decide (false ∈ l)); [|rewrite Hlog; cbn; lia]. destruct Hlog as (chunks & mlog & -> & Hf & Hj & _ & _ & Hpos).
      apply nonempty_count in Hpos. rewrite Hj in Hpos. rewrite length_app, <-(Forall2_length _ _ _ Hf). cbn. lia.
    + destruct (decide (false ∈ l)); [|done]. destruct Hlog as (chunks & mlog & -> & Hf & Hj & _ & Hne & Hpos). by exists chunks, mlog.
  - destruct (np_finish_spec _ width ps _ _ Hr) as (p & chunks & -> & Hp & Hj & Hpos). cbn [mbind res_bind].
    eapply finish_page_writer; [exact Hp| |done]. destruct Hr as (<- & _ & ch & rest & -> & (Hw & _ & _ & Hs & _) & _).
    split; [cbn in *; lia|]. split; [exact Hs|]. exists chunks. split; [done|]. split; [done|]. eapply Forall_impl; [exact Hpos|]. cbn. lia.
  - destruct (op_finish_spec _ ps _ _ Hr) as (p & chunks & -> & Hp & Hj & Hne). cbn [mbind res_bind].
    eapply finish_page_writer; [exact Hp| |done]. by exists chunks.
Qed.

(** ** All buffers *)

Definition bufs_stored s (i : nat) (bufs : list buf) : Prop := ∀ j b, bufs !! j = Some b → buf_stored s (i + j) b.

Lemma buf_stored_frame s s' i k b : buf_stored s k b → buffer_frame i s s' → Z.of_nat i mod 2 ^ 16 ≠ Z.of_nat k mod 2 ^ 16 → buf_stored s' k b.
Proof.
  intros (log & Hlog & Ho & Hp) Hfr Hne. exists log. split; [done|]. split.
  - rewrite Hfr; [done|..]; [intros j E; symmetry in E; by apply page_key_offsets in E|]. rewrite offsets_key_inj. congruence.
  - intros j page Hj. rewrite Hfr; [by apply Hp|..]; [intros j'; rewrite page_key_inj; intros [? _]; congruence|apply page_key_offsets].
Qed.
Lemma frame_pages i k s s' : buffer_frame i s s' → Z.of_nat i mod 2 ^ 16 ≠ Z.of_nat k mod 2 ^ 16 → same_pages id k s s'.
Proof. intros Hfr Hne j. apply Hfr; [intros j'; rewrite page_key_inj; intros [? _]; congruence|apply page_key_offsets]. Qed.

Lemma finish_all ws : ∀ i s bufs, reprs id i s ws bufs → Z.of_nat (i + length ws) <= 2 ^ 16 →
  Forall (λ b, Z.of_nat (buf_items b) <= u32_max) bufs →
  ∃ s', fold_res any_finish ws s = Ok s' ∧ bufs_stored s' i bufs ∧
    ∀ k, (∀ i' j, (i <= i' < i + length ws)%nat → k ≠ page_key id i' j ∧ k ≠ offsets_key id i') → kv_get s' k = kv_get s k.
Proof.
  induction ws as [|w ws IH]; intros i s bufs Hr Hn Hi; destruct bufs as [|b bufs]; try done; cbn [fold_res].
  { exists s. split; [done|]. split; [intros j b' Hj; done|done]. }
  destruct Hr as [Hw Hr]. apply Forall_cons in Hi as [Hb Hi]. cbn [length] in Hn.
  destruct (any_finish_spec i s w b Hw Hb) as (s1 & -> & Hst & Hfr). cbn [mbind res_bind].
  assert (∀ k, (i < k)%nat → Z.of_nat k < 2 ^ 16 → Z.of_nat i mod 2 ^ 16 ≠ Z.of_nat k mod 2 ^ 16) as Hmod.
  { intros k Hk1 Hk2. rewrite !Z.mod_small by lia. lia. }
  destruct (IH (S i) s1 bufs) as (s' & -> & Hall & Hk); [|lia|done|].
  { eapply reprs_change; [exact Hr|]. intros k Hk. eapply frame_pages; [exact Hfr|]. apply Hmod; lia. }
  exists s'. split; [done|]. split.
  - intros [|j] b' Hj; cbn in Hj.
    + injection Hj as <-. rewrite Nat.add_0_r. destruct Hst as (log & Hlog & Ho & Hp). exists log. split; [done|]. split.
      * rewrite Hk; [done|]. intros i' j' Hi'. split; [intros E; symmetry in E; by apply page_key_offsets in E|].
        rewrite offsets_key_inj. apply Hmod; lia.
      * intros j page Hj. rewrite Hk; [by apply Hp|]. intros i' j' Hi'. split; [|apply page_key_offsets].
        rewrite page_key_inj. intros [E _]. by apply Hmod in E; [|lia..].
    + rewrite <-Nat.add_succ_comm. by apply Hall.
  - intros k Hkey. rewrite Hk; [apply Hfr|].
    + intros j. apply Hkey. cbn. lia.
    + apply (Hkey i 0%nat). cbn. lia.
    + intros i' j Hi'. apply Hkey. cbn. lia.
Qed.

(** ** The finished table *)

Context (schema_to_fb : schema → bytes).
Definition schema_key : bytes := table_key id Key_Schema.

Lemma page_not_schema i j : page_key id i j ≠ schema_key.
Proof. unfold page_key, schema_key. by rewrite table_key_eq. Qed.
Lemma offsets_not_schema i : offsets_key id i ≠ schema_key.
Proof. unfold offsets_key, schema_key. by rewrite table_key_eq. Qed.

Definition table_stored s (sch : schema) (bufs : list buf) : Prop :=
  kv_get s schema_key = Some (schema_to_fb sch) ∧ bufs_stored s 0 bufs.

Lemma table_finish_spec s0 sch t bufs : table_repr id s0 sch t bufs → Forall (λ b, Z.of_nat (buf_items b) <= u32_max) bufs →
  ∃ s, table_writer_finish schema_to_fb t = Ok s ∧ table_stored s sch bufs ∧
    ∀ k, (∀ i j, k ≠ page_key id i j) → (∀ i, k ≠ offsets_key id i) → k ≠ schema_key → kv_get s k = kv_get s0 k.
Proof.
  intros (<- & Hf & Hr & Hl & Hk) Hi. unfold table_writer_finish. pose proof (reprs_length _ _ _ _ _ Hr) as Hlen.
  destruct (finish_all (tw_buffers t) 0 (tw_storage t) bufs Hr ltac:(lia) Hi) as (s1 & -> & Hst & Hk1). cbn [mbind res_bind].
  unfold kv_write, store_kv_write, factory_schema. rewrite (proj1 (factory_make_spec id _ Key_Schema Hf)). fold schema_key.
  eexists. split; [done|]. split; [split|].
  - by rewrite kv_get_put, decide_True.
  - intros j b Hj. destruct (Hst j b Hj) as (log & Hlog & Ho & Hp). exists log. split; [done|]. split.
    + rewrite kv_get_put, decide_False; [done|]. intros E; symmetry in E; by apply offsets_not_schema in E.
    + intros j' page Hj'. rewrite kv_get_put, decide_False; [by apply Hp|]. intros E; symmetry in E; by apply page_not_schema in E.
  - intros k Hkey1 Hkey2 Hkey3. rewrite kv_get_put, decide_False by congruence. rewrite Hk1, Hk; [done|done|]. by intros i j _.
Qed.
End finish.
