(* ===== verification/TableArray.v ===== *)
(** * TableArray: reading columns and tables

    Models crates/storage/src/table/read/array.rs and the table level of
    crates/storage/src/table/read/reader.rs: opening a table, reading a column and reading a
    projection of the table, each for all rows or for a list of row ranges.

    Arrays and record batches are arrow's: the class [ArrowArrays] has the constructors the code
    calls.  A list of bytes is the buffer of the values, a list of items the typed buffer. *)
From S2P Require Import Prelude Ranges Bytes Data Kv Bits Offsets Pages PagesSpec Pagination TableRead TableReadSpec Slices SliceSpec SliceWrite TableWrite.

(** ** arrow's arrays and record batches *)

Class ArrowArrays (A B : Type) : Type := {
  (* BooleanArray::new *)
  boolean_array_new : list bool → option (list bool) → res A;
  (* PrimitiveArray::try_new *)
  primitive_array_try_new : PrimitiveType → list bytes → option (list bool) → res A;
  (* ArrayDataBuilder::new(data_type).len(..).nulls(..).buffers(..).build(), make_array *)
  primitive_array_data : PrimitiveType → nat → option (list bool) → bytes → res A;
  (* BinaryArray::try_new *)
  binary_array_try_new : list Z → bytes → option (list bool) → res A;
  (* StringArray::try_new *)
  string_array_try_new : list Z → bytes → option (list bool) → res A;
  (* FixedSizeBinaryArray::try_new *)
  fixed_size_binary_array_try_new : nat → bytes → option (list bool) → res A;
  (* ListArray::try_new *)
  list_array_try_new : bool * ArrowType → list Z → A → option (list bool) → res A;
  (* StructArray::try_new *)
  struct_array_try_new : list (bool * ArrowType) → list A → option (list bool) → res A;
  (* RecordBatch::try_new *)
  record_batch_try_new : schema → list A → res B;
  (* RecordBatch::try_new_with_options of no columns with a row count *)
  record_batch_empty : nat → res B
}.

(** [r.start * size as u32] *)
Definition u32_mul (a b : Z) : Z := (a * b) mod 2 ^ 32.
Definition scaled_ranges (size : nat) (l : list range) : list range :=
  (λ r, Range (u32_mul (rstart r) (Z.of_nat size)) (u32_mul (rend r) (Z.of_nat size))) <$> l.

Section arrays.
Context `{KvStore M C} `{ArrowBits} `{ArrowArrays A B}.
Implicit Types (t : TableReader (M := M)) (ranges : option (list range)).

Definition read_boolean_array t (pos : nat) ranges : res A :=
  nulls ← read_null_mask t pos ranges;
  values ← read_boolean t (pos + 1) ranges;
  _ ← ensure (from_option (λ mask, length mask =? length values)%nat true nulls)
        (EMsg "null mask length does not match the length of the array");
  boolean_array_new values nulls.

Definition read_primitive_array (p : PrimitiveType) t (pos : nat) ranges : res A :=
  nulls ← read_null_mask t pos ranges;
  values ← read_native_bytes t (pos + 1) (byte_width p) ranges;
  primitive_array_try_new p (typed (byte_width p) values) nulls.

Definition read_primitive_data (p : PrimitiveType) t (pos : nat) ranges : res A :=
  nulls ← read_null_mask t pos ranges;
  values ← read_native_bytes t (pos + 1) (byte_width p) ranges;
  primitive_array_data p (length values / byte_width p) nulls values.

Definition read_binary t (pos : nat) ranges : res A :=
  nulls ← read_null_mask t pos ranges;
  '(offsets, value_ranges) ← read_offsets t (pos + 1) ranges;
  values ← read_native_bytes t (pos + 2) 1 value_ranges;
  binary_array_try_new offsets values nulls.

Definition read_string t (pos : nat) ranges : res A :=
  nulls ← read_null_mask t pos ranges;
  '(offsets, value_ranges) ← read_offsets t (pos + 1) ranges;
  values ← read_native_bytes t (pos + 2) 1 value_ranges;
  string_array_try_new offsets values nulls.

Definition read_fixed_size_binary (size : nat) t (pos : nat) ranges : res A :=
  nulls ← read_null_mask t pos ranges;
  values ← read_native_bytes t (pos + 1) 1 (scaled_ranges size <$> ranges);
  fixed_size_binary_array_try_new size values nulls.

(** The fields of a struct, each from its position on; [rayon] collects the first error. *)
Section fields.
Context (read : ArrowType → nat → res A).
Fixpoint read_fields (fields : list (bool * ArrowType)) (positions : list nat) : res (list A) :=
  match fields, positions with
  | [], _ => Ok []
  | f :: fields, pos :: positions => a ← read f.2 pos; rest ← read_fields fields positions; Ok (a :: rest)
  | _, [] => index_panic
  end.
End fields.

Fixpoint read_array t ranges (ty : ArrowType) (pos : nat) : res A :=
  match ty with
  | Boolean => read_boolean_array t pos ranges
  | Primitive (Timestamp u) => read_primitive_data (Timestamp u) t pos ranges
  | Primitive p => read_primitive_array p t pos ranges
  | Binary => read_binary t pos ranges
  | Utf8 => read_string t pos ranges
  | FixedSizeBinary size => read_fixed_size_binary size t pos ranges
  | ListOf nullable item =>
      nulls ← read_null_mask t pos ranges;
      '(offsets, value_ranges) ← read_offsets t (pos + 1) ranges;
      values ← read_array t value_ranges item (pos + 2);
      list_array_try_new (nullable, item) offsets values nulls
  | Struct fields =>
      nulls ← read_null_mask t pos ranges;
      positions ← build_field_offsets (pos + 1) fields.*2;
      arrays ← read_fields (read_array t ranges) fields positions;
      struct_array_try_new fields arrays nulls
  | FixedSizeListOf _ _ _ | OtherType _ => Panic "unsupported arrow data type"
  end.

(** ** TableReader *)

Context (fb_to_schema : bytes → option schema).

Record Table : Type := mkTable {
  tb_reader : TableReader (M := M);
  tb_schema : schema;
  tb_column_positions : list nat;
  tb_num_rows : nat
}.

Definition table_reader_new (storage : M) (table_name : bytes) : res Table :=
  let '(skey, key) := factory_schema (factory_new table_name) in
  bytes ← ok_or (kv_get storage skey) (EMsg "schema key not found");
  sch ← ok_or (fb_to_schema bytes) (EMsg "failed to deserialize table schema");
  column_positions ← build_field_offsets 0 (column_types sch);
  num_buffers ← (match last column_positions with
                 | Some n => Ok n
                 | None => Panic "called `Option::unwrap()` on a `None` value"
                 end);
  let reader := mkReader storage key num_buffers in
  num_rows ← (if (1 <? length column_positions)%nat then
                pages ← get_nullmask_pages reader 0;
                match last pages with
                | Some n => Ok (Z.to_nat n)
                | None => Panic "called `Option::unwrap()` on a `None` value"
                end
              else Ok 0%nat);
  Ok (mkTable reader sch column_positions num_rows).

Definition read_column (tb : Table) ranges (index : nat) : res A :=
  pos ← at_ (tb_column_positions tb) index;
  ty ← at_ (column_types (tb_schema tb)) index;
  read_array (tb_reader tb) ranges ty pos.

(** The columns of a projection, in the order of the schema. *)
Definition projected (sch : schema) (projection : option (list string)) : list nat :=
  match projection with
  | None => seq 0 (length sch)
  | Some names => (filter (λ x, x.2.1.1 ∈ names) (imap pair sch)).*1
  end.

Definition read_table (tb : Table) (projection : option (list string)) ranges : res B :=
  let column_indexes := projected (tb_schema tb) projection in
  match column_indexes with
  | [] =>
      _ ← (match ranges with
           | Some l => ensure (list_end l <=? Z.of_nat (tb_num_rows tb)) (EMsg "range list is out of bounds")
           | None => Ok tt
           end);
      record_batch_empty (tb_num_rows tb)
  | _ =>
      columns ← map_res (read_column tb ranges) column_indexes;
      sch ← (if (length column_indexes =? length (tb_schema tb))%nat then Ok (tb_schema tb)
             else map_res (at_ (tb_schema tb)) column_indexes);
      record_batch_try_new sch columns
  end.
End arrays.

(** * TableArraySpec: what reading a column returns

    The rows of an array are given by arrow's constructors ([ArrowArraysLaws]): each accepts
    buffers that make well-typed rows.  Reading a stored column returns the array of the
    selected rows. *)

(** ** Well-typed rows *)

Section typing.
Context (valid_utf8 : bytes → bool).

Definition item_bytes (r : row) : bytes := mjoin (row_bytes <$> row_items r).
Definition is_byte (r : row) : Prop := match r with RItem [_] => True | _ => False end.

Section fields.
Context (row_ok : ArrowType → row → Prop) (valid : bool).
Fixpoint fields_ok (fields : list (bool * ArrowType)) (values : list row) : Prop :=
  match fields, values with
  | [], [] => True
  | f :: fields, v :: values => row_ok f.2 v ∧ (f.1 = false → valid = true → row_valid v = true) ∧ fields_ok fields values
  | _, _ => False
  end.
End fields.

Fixpoint row_ok (ty : ArrowType) (r : row) : Prop :=
  match ty, r with
  | Boolean, RBool _ _ => True
  | Primitive p, RPrim _ v => length v = byte_width p
  | Binary, RList _ items => Forall is_byte items
  | Utf8, RList _ items => Forall is_byte items ∧ valid_utf8 (mjoin (row_bytes <$> items)) = true
  | FixedSizeBinary size, RList _ items => Forall is_byte items ∧ length items = size
  | ListOf nullable item, RList _ items =>
      (fix go l := match l with [] => True | x :: l => row_ok item x ∧ go l end) items ∧
      (nullable = false → Forall (λ x, row_valid x = true) items)
  | Struct fields, RStruct v values => fields_ok row_ok v fields values
  | _, _ => False
  end.
End typing.

(** Types whose arrays can be built: fixed-size values and structs are not empty. *)
Fixpoint readable (ty : ArrowType) : bool :=
  match ty with
  | Boolean | Primitive _ | Binary | Utf8 => true
  | FixedSizeBinary size => (0 <? size)%nat
  | ListOf _ item => readable item
  | Struct fields => (0 <? length fields)%nat && forallb (λ f, readable f.2) fields
  | FixedSizeListOf _ _ _ | OtherType _ => false
  end.

(** ** The rows of the buffers given to arrow *)

Definition nulls_or (n : nat) (nulls : option (list bool)) : list bool := default (replicate n true) nulls.
Definition bool_rows (values : list bool) (nulls : option (list bool)) : list row := zip_with RBool (nulls_or (length values) nulls) values.
Definition prim_rows (values : list bytes) (nulls : option (list bool)) : list row := zip_with RPrim (nulls_or (length values) nulls) values.
Definition list_rows_of (parts : list (list row)) (nulls : option (list bool)) : list row := zip_with RList (nulls_or (length parts) nulls) parts.
Definition byte_rows (data : bytes) : list row := (λ b, RItem [b]) <$> data.
Definition struct_rows_of (n : nat) (columns : list (list row)) (nulls : option (list bool)) : list row :=
  imap (λ i v, RStruct v ((λ rs, nth i rs (RItem [])) <$> columns)) (nulls_or n nulls).
Definition nulls_fit (n : nat) (nulls : option (list bool)) : Prop := ∀ l, nulls = Some l → length l = n.

Class ArrowArraysLaws `{ArrowArrays A B} (valid_utf8 : bytes → bool) (array_type : A → ArrowType) (array_rows : A → list row)
    (batch_columns : B → list (list row)) (batch_len : B → nat) : Prop := {
  boolean_array_spec values nulls : nulls_fit (length values) nulls →
    ∃ a, boolean_array_new values nulls = Ok a ∧ array_type a = Boolean ∧ array_rows a = bool_rows values nulls;
  primitive_array_spec p values nulls : nulls_fit (length values) nulls → Forall (λ v, length v = byte_width p) values →
    ∃ a, primitive_array_try_new p values nulls = Ok a ∧ array_type a = Primitive p ∧ array_rows a = prim_rows values nulls;
  primitive_data_spec p values nulls : nulls_fit (length values) nulls → Forall (λ v, length v = byte_width p) values →
    ∃ a, primitive_array_data p (length values) nulls (mjoin values) = Ok a ∧ array_type a = Primitive p ∧ array_rows a = prim_rows values nulls;
  binary_array_spec lens data nulls : nulls_fit (length lens) nulls → total lens = Z.of_nat (length data) → total lens <= i32_max →
    ∃ a, binary_array_try_new (cumul 0 lens) data nulls = Ok a ∧ array_type a = Binary ∧
         array_rows a = list_rows_of (parts_of (cumul 0 lens) (byte_rows data)) nulls;
  string_array_spec lens data nulls : nulls_fit (length lens) nulls → total lens = Z.of_nat (length data) → total lens <= i32_max →
    Forall (λ v, valid_utf8 v = true) (parts_of (cumul 0 lens) data) →
    ∃ a, string_array_try_new (cumul 0 lens) data nulls = Ok a ∧ array_type a = Utf8 ∧
         array_rows a = list_rows_of (parts_of (cumul 0 lens) (byte_rows data)) nulls;
  fixed_array_spec size n data nulls : nulls_fit n nulls → (0 < size)%nat → length data = (n * size)%nat →
    ∃ a, fixed_size_binary_array_try_new size data nulls = Ok a ∧ array_type a = FixedSizeBinary size ∧
         array_rows a = list_rows_of (chunks_of size n (byte_rows data)) nulls;
  list_array_spec f lens child nulls : nulls_fit (length lens) nulls → total lens = Z.of_nat (length (array_rows child)) → total lens <= i32_max →
    array_type child = f.2 → (f.1 = false → Forall (λ r, row_valid r = true) (array_rows child)) →
    ∃ a, list_array_try_new f (cumul 0 lens) child nulls = Ok a ∧ array_type a = ListOf f.1 f.2 ∧
         array_rows a = list_rows_of (parts_of (cumul 0 lens) (array_rows child)) nulls;
  struct_array_spec fields columns nulls n : nulls_fit n nulls → fields ≠ [] →
    Forall2 (λ f c, array_type c = f.2 ∧ length (array_rows c) = n) fields columns →
    Forall (λ r, ∀ k f, fields !! k = Some f → f.1 = false → row_valid r = true → row_valid (row_field k r) = true)
      (struct_rows_of n (array_rows <$> columns) nulls) →
    ∃ a, struct_array_try_new fields columns nulls = Ok a ∧ array_type a = Struct fields ∧
         array_rows a = struct_rows_of n (array_rows <$> columns) nulls;
  record_batch_spec sch columns n : sch ≠ [] →
    Forall2 (λ f c, array_type c = f.2 ∧ length (array_rows c) = n ∧ (f.1.2 = false → Forall (λ r, row_valid r = true) (array_rows c))) sch columns →
    ∃ b, record_batch_try_new sch columns = Ok b ∧ batch_columns b = array_rows <$> columns ∧ batch_len b = n;
  record_batch_empty_spec n : ∃ b, record_batch_empty n = Ok b ∧ batch_columns b = [] ∧ batch_len b = n
}.

(** ** Selections *)

Lemma select_fmap {A B} (f : A → B) rs l : f <$> select rs l = select rs (f <$> l).
Proof. unfold select. induction rs as [|r rs IH]; [done|]. by rewrite !fmap_cons, !join_cons, fmap_app, IH, part_fmap. Qed.
Lemma select_opt_fmap {A B} (f : A → B) rs l : f <$> select_opt rs l = select_opt rs (f <$> l).
Proof. destruct rs; [apply select_fmap|done]. Qed.
Lemma Forall_select {A} (P : A → Prop) rs l : Forall P l → Forall P (select_opt rs l).
Proof.
  destruct rs as [rs|]; [|done]. cbn. unfold select. intros Hl. induction rs as [|r rs IH]; [constructor|].
  rewrite fmap_cons, join_cons. apply Forall_app. split; [by apply Forall_part|done].
Qed.
Lemma parts_of_self {A} (parts : list (list A)) : parts_of (cumul 0 (length <$> parts)) (mjoin parts) = parts.
Proof.
  apply list_eq. intros i. destruct (parts !! i) as [p|] eqn:E.
  - rewrite (parts_of_lookup _ 0 _ i (length p)) by (done || by rewrite list_lookup_fmap, E). f_equal.
    rewrite <-(take_drop_middle _ _ _ E) at 2. rewrite join_app, join_cons. unfold part.
    assert (Z.to_nat (0 + total (take i (length <$> parts))) = length (mjoin (take i parts))) as ->.
    { rewrite <-fmap_take. clear. generalize (take i parts) as l. intros l. unfold total.
      induction l as [|x l IH]; [done|]. rewrite join_cons, length_app. cbn in *. lia. }
    by rewrite drop_app_length, take_app_length.
  - apply lookup_ge_None in E. apply lookup_ge_None. rewrite parts_of_length, length_fmap by lia. done.
Qed.
Lemma total_lengths {A} (parts : list (list A)) : total (length <$> parts) = Z.of_nat (length (mjoin parts)).
Proof. unfold total. induction parts as [|x l IH]; [done|]. rewrite join_cons, length_app. cbn in *. lia. Qed.

(** ** Reading the buffers of a column *)

Section placed.
Context `{KvStore M C} (id : TableId) (t : TableReader (M := M)).

Definition bufs_at (pos : nat) (bufs : list buf) : Prop :=
  (pos + length bufs <= tr_num_buffers t)%nat ∧
  ∀ j b, bufs !! j = Some b → buf_stored id (tr_storage t) (pos + j) b ∧ buf_small b ∧ Z.of_nat (buf_items b) <= u32_max.

Lemma bufs_at_app pos a b : bufs_at pos (a ++ b) ↔ bufs_at pos a ∧ bufs_at (pos + length a) b.
Proof.
  unfold bufs_at. rewrite length_app. split.
  - intros [Hn Hb]. split; (split; [lia|]); intros j x Hj.
    + apply Hb. by apply lookup_app_l_Some.
    + rewrite <-Nat.add_assoc. apply Hb. rewrite lookup_app_r by lia. by rewrite Nat.add_comm, Nat.add_sub.
  - intros [[H1' Ha] [H2' Hb]]. split; [lia|]. intros j x [Hj|[Hj Hx]]%lookup_app_Some; [by apply Ha|].
    specialize (Hb _ _ Hx). by replace (pos + length a + (j - length a))%nat with (pos + j)%nat in Hb by lia.
Qed.
Lemma bufs_at_cons pos b bufs : bufs_at pos (b :: bufs) ↔ bufs_at pos [b] ∧ bufs_at (pos + 1) bufs.
Proof. apply (bufs_at_app pos [b] bufs). Qed.
Lemma bufs_at_one pos b : bufs_at pos [b] →
  (pos < tr_num_buffers t)%nat ∧ buf_stored id (tr_storage t) pos b ∧ buf_small b ∧ Z.of_nat (buf_items b) <= u32_max.
Proof. intros [Hn Hb]. cbn in Hn. split; [lia|]. specialize (Hb 0%nat b eq_refl). by rewrite Nat.add_0_r in Hb. Qed.

Lemma items_sized pos w items : bufs_at pos [NativeBuf w items] → (0 < w)%nat ∧ Forall (λ v, length v = w) items.
Proof. by intros (_ & (log & (Hw & Hs & _) & _) & _)%bufs_at_one. Qed.
End placed.

(** Row ranges: increasing, non-empty and not touching. *)
Definition rows_in (n : Z) (ranges : option (list range)) : Prop := ∀ l, ranges = Some l → sealed (-1) l ∧ list_end l <= n.

Lemma rows_in_ranges n ranges : rows_in (Z.of_nat n) ranges → ranges_ok n ranges.
Proof. intros Hr l E. destruct (Hr l E) as [Hs He]. split; [|done]. by apply (sealed_shifted_wf (-1)). Qed.

Lemma all_valid_replicate (l : list bool) : false ∉ l → l = replicate (length l) true.
Proof.
  induction l as [|[] l IH]; intros Hl; [done| |exfalso; apply Hl; constructor]. cbn. f_equal. apply IH.
  intros Hin. apply Hl. by constructor.
Qed.

Lemma run_values_parts {A} (parts : list (list A)) r : 0 <= rstart r → rstart r <= rend r → rend r <= Z.of_nat (length parts) →
  run_values (mjoin parts) (run (length <$> parts) r) = mjoin (part (Z.to_nat (rstart r)) (range_len r) parts).
Proof.
  intros Ha1 Ha2 Ha3. unfold run_values, run. cbn [fst snd]. set (a := Z.to_nat (rstart r)). set (n := range_len r).
  assert (a + n <= length parts)%nat as Hle by (unfold a, n, range_len; lia).
  rewrite <-fmap_take, <-part_fmap, !total_lengths, !Nat2Z.id.
  assert (mjoin parts = mjoin (take a parts) ++ mjoin (part a n parts) ++ mjoin (drop n (drop a parts))) as ->.
  { rewrite <-!join_app. unfold part. by rewrite !take_drop. }
  unfold part at 1. by rewrite drop_app_length, take_app_length.
Qed.

Lemma runs_join {A} (parts : list (list A)) rs : ∀ lo, wf lo rs → 0 <= lo → Forall (λ r, rend r <= Z.of_nat (length parts)) rs →
  mjoin (run_values (mjoin parts) <$> (run (length <$> parts) <$> rs)) = mjoin (select rs parts).
Proof.
  unfold select. induction rs as [|r rs IH]; intros lo Hwf Hlo Hf; [done|]. destruct Hwf as [Hr Hwf]. apply Forall_cons in Hf as [Hr' Hf].
  rewrite !fmap_cons, !join_cons, join_app, (IH (rend r)) by (done || lia). f_equal. apply run_values_parts; lia.
Qed.

Section buffers.
Context `{KvStoreLaws M C} `{ArrowBitsLaws} (id : TableId) (t : TableReader (M := M)).
Hypothesis key_ok : factory_for id (tr_key t).
Hypothesis id_ok : length id = 16%nat.
Hypothesis keys_ok : table_keys_only (tr_storage t).
Abbreviation bufs_at := (bufs_at id t).

Lemma read_nulls pos l ranges : bufs_at pos [NullBuf l] → ranges_ok (length l) ranges →
  ∃ nulls, read_null_mask t pos ranges = Ok nulls ∧ nulls_or (length (select_opt ranges l)) nulls = select_opt ranges l ∧
    nulls_fit (length (select_opt ranges l)) nulls.
Proof.
  intros (Hb & (log & [Hl Hlog] & Hst) & _ & Hi)%bufs_at_one Hr.
  destruct (read_null_mask_spec id t key_ok id_ok keys_ok pos l ranges) as [-> _]; [by exists log|done|done|done|].
  eexists. split; [done|]. destruct (decide (false ∈ l)) as [Hin|Hnin]; [split; [done|by intros ? [= <-]]|]. split; [|done]. cbn.
  symmetry. apply all_valid_replicate. intros Hin. assert (Forall (λ b, b = true) (select_opt ranges l)) as Hf.
  { apply Forall_select. apply Forall_forall. intros [] Hb'; [done|]. by destruct Hnin. }
  rewrite Forall_forall in Hf. by specialize (Hf _ Hin).
Qed.
Lemma read_num_rows pos l : bufs_at pos [NullBuf l] → ∃ pages, get_nullmask_pages t pos = Ok pages ∧ last pages = Some (Z.of_nat (length l)).
Proof.
  intros (Hb & (log & [Hl Hlog] & Hst) & _ & Hi)%bufs_at_one.
  by destruct (read_null_mask_spec id t key_ok id_ok keys_ok pos l None) as [_ Hp]; [by exists log|..].
Qed.
Lemma read_bits pos l ranges : bufs_at pos [BitBuf l] → ranges_ok (length l) ranges → read_boolean t pos ranges = Ok (select_opt ranges l).
Proof.
  intros (Hb & (log & (chunks & Hf & <- & Hpos) & Hst) & _ & Hi)%bufs_at_one Hr. cbn [buf_items] in Hi.
  apply (read_boolean_spec id t key_ok id_ok keys_ok pos chunks log); try done.
  pose proof (nonempty_count _ Hpos). unfold u32_max in Hi. lia.
Qed.
Lemma read_items pos w items ranges : bufs_at pos [NativeBuf w items] → ranges_ok (length items) ranges →
  read_native_bytes t pos w ranges = Ok (mjoin (select_opt ranges items)).
Proof.
  intros (Hb & (log & (Hw & Hs & chunks & -> & <- & Hpos) & Hst) & _ & Hi)%bufs_at_one Hr.
  by apply (read_native_bytes_spec id t key_ok w pos chunks).
Qed.
(** Offsets of the selected rows, and the ranges of their values. *)
Lemma read_offs pos lens ranges : bufs_at pos [OffsetBuf lens] → rows_in (Z.of_nat (length lens)) ranges →
  ∃ value_ranges, read_offsets t pos ranges = Ok (cumul 0 (select_opt ranges lens), value_ranges) ∧ rows_in (total lens) value_ranges ∧
    ∀ A (parts : list (list A)), length <$> parts = lens → select_opt value_ranges (mjoin parts) = mjoin (select_opt ranges parts).
Proof.
  intros (Hb & (log & (chunks & -> & Hj & Hne) & Hst) & Hs & Hi)%bufs_at_one Hr. cbn [buf_small buf_items] in Hs, Hi.
  assert (offsets_stored id t pos lens) as Hos by (by exists chunks). unfold read_offsets. destruct ranges as [rs|].
  - destruct (Hr rs eq_refl) as [Hse Hle].
    destruct (read_ranged_offsets_spec id t key_ok pos lens rs Hos) as (vrs & -> & Hvs & Hve & Hsel); [lia|done|done|done|done|].
    cbn [mbind res_bind]. exists (Some vrs). split; [done|]. split; [by intros ? [= <-]|]. intros A parts El. cbn.
    rewrite Hsel. pose proof (sealed_shifted_wf _ _ Hse) as Hwf. rewrite <-El. apply (runs_join parts rs 0); [done|lia|].
    eapply Forall_impl; [apply (list_end_forall _ _ Hwf)|]. cbn. rewrite <-(length_fmap length parts), El. lia.
  - rewrite (read_all_offsets_spec id t key_ok pos lens Hos) by (done || lia). cbn [mbind res_bind].
    exists None. split; [done|]. split; [done|]. done.
Qed.
End buffers.

(** ** A stored column is read back

    For every supported data type, reading a column whose buffers hold the encoding of some
    rows returns the array of the rows the ranges select. *)

(** ** Rows from their projections *)

Lemma zip_eta {A B} (f : A → B → row) (g : row → A) (h : row → B) l : Forall (λ r, f (g r) (h r) = r) l →
  zip_with f (g <$> l) (h <$> l) = l.
Proof. induction 1 as [|r l Hr _ IH]; [done|]. cbn. rewrite Hr. f_equal. exact IH. Qed.

Lemma row_ok_items vu b item v items : row_ok vu (ListOf b item) (RList v items) →
  Forall (row_ok vu item) items ∧ (b = false → Forall (λ x, row_valid x = true) items).
Proof.
  cbn [row_ok]. intros [Hi Hv]. split; [|done]. clear Hv. induction items as [|x items IH]; [constructor|].
  destruct Hi as [Hx Hi]. constructor; [done|by apply IH].
Qed.
Lemma fields_ok_lookup rok valid fields values : fields_ok rok valid fields values ↔
  Forall2 (λ f v, rok f.2 v ∧ (f.1 = false → valid = true → row_valid v = true)) fields values.
Proof.
  revert values; induction fields as [|f fields IH]; intros [|v values]; cbn; try (by split; [done|inversion 1]).
  rewrite IH. split; [intros (? & ? & ?); by constructor|inversion 1; tauto].
Qed.

Lemma byte_rows_items l : Forall is_byte l → byte_rows (mjoin (row_bytes <$> l)) = l.
Proof.
  induction 1 as [|r l Hr _ IH]; [done|]. rewrite fmap_cons, join_cons. unfold byte_rows in *. rewrite fmap_app, IH.
  destruct r as [[|b [|? ?]]| | | |]; done.
Qed.
Lemma is_byte_length l : Forall is_byte l → length (mjoin (row_bytes <$> l)) = length l.
Proof. intros Hl. rewrite <-(byte_rows_items l Hl) at 2. unfold byte_rows. by rewrite length_fmap. Qed.
Lemma Forall_join {A} (P : A → Prop) (l : list (list A)) : Forall (Forall P) l → Forall P (mjoin l).
Proof. induction 1; [constructor|]. rewrite join_cons. by apply Forall_app. Qed.
Lemma join_bytes (parts : list (list row)) : mjoin (row_bytes <$> mjoin parts) = mjoin ((λ p : list row, mjoin (row_bytes <$> p)) <$> parts).
Proof. induction parts as [|p parts IH]; [done|]. by rewrite fmap_cons, !join_cons, fmap_app, join_app, IH. Qed.

(** ** Sizes of selections *)

Lemma total_select_le rs lens : ∀ lo, wf lo rs → 0 <= lo → total (select rs lens) <= total (drop (Z.to_nat lo) lens).
Proof.
  unfold select. induction rs as [|r rs IH]; intros lo Hwf Hlo; [apply total_nonneg|]. destruct Hwf as [Hr Hwf].
  rewrite fmap_cons, join_cons, total_app. specialize (IH (rend r) Hwf ltac:(lia)).
  assert (total (drop (Z.to_nat lo) lens) = total (part (Z.to_nat lo) (Z.to_nat (rstart r) - Z.to_nat lo) lens) +
    total (part (Z.to_nat (rstart r)) (range_len r) lens) + total (drop (Z.to_nat (rend r)) lens)) as ->.
  { rewrite <-!total_app. f_equal. rewrite <-(take_drop (Z.to_nat (rstart r) - Z.to_nat lo) (drop (Z.to_nat lo) lens)).
    rewrite <-app_assoc. f_equal. rewrite drop_drop. replace (Z.to_nat lo + (Z.to_nat (rstart r) - Z.to_nat lo))%nat with (Z.to_nat (rstart r)) by lia.
    rewrite <-(take_drop (range_len r) (drop (Z.to_nat (rstart r)) lens)) at 1. unfold part. f_equal. rewrite drop_drop. f_equal. unfold range_len. lia. }
  pose proof (total_nonneg (part (Z.to_nat lo) (Z.to_nat (rstart r) - Z.to_nat lo) lens)). lia.
Qed.
Lemma total_select_opt n ranges lens : rows_in n ranges → total (select_opt ranges lens) <= total lens.
Proof.
  destruct ranges as [rs|]; [|done]. intros Hr. destruct (Hr rs eq_refl) as [Hs%sealed_shifted_wf _].
  apply (total_select_le rs lens 0 Hs). lia.
Qed.

(** Ranges of fixed-size values select the values of the rows. *)
Lemma scaled_select {A} size (parts : list (list A)) rs : Forall (λ p, length p = size) parts → ∀ lo, wf lo rs → 0 <= lo →
  Forall (λ r, rend r <= Z.of_nat (length parts)) rs → Z.of_nat (length parts * size) <= u32_max → (0 < size)%nat →
  wf (lo * Z.of_nat size) (scaled_ranges size rs) ∧ select (scaled_ranges size rs) (mjoin parts) = mjoin (select rs parts) ∧
  Forall (λ r, rend r <= Z.of_nat (length (mjoin parts))) (scaled_ranges size rs).
Proof.
  intros Hp. unfold select, scaled_ranges. induction rs as [|r rs IH]; intros lo Hwf Hlo Hf Hu Hsz; [split; [done|]; split; [done|constructor]|].
  destruct Hwf as [Hr Hwf]. apply Forall_cons in Hf as [Hr' Hf]. destruct (IH (rend r)) as (IH1 & IH2 & IH3); try done; [lia|].
  assert (∀ x, 0 <= x <= Z.of_nat (length parts) → u32_mul x (Z.of_nat size) = x * Z.of_nat size) as Hm.
  { intros x Hx. unfold u32_mul, u32_max in *. apply Z.mod_small. split; [nia|]. assert (x * Z.of_nat size <= Z.of_nat (length parts * size)) by nia. lia. }
  rewrite !fmap_cons, !join_cons. cbn [rstart rend wf]. rewrite !Hm by lia. split; [split; [nia|exact IH1]|]. split.
  - rewrite IH2, join_app. f_equal. unfold range_len. cbn [rstart rend].
    rewrite <-Z.mul_sub_distr_r, !Z2Nat.inj_mul, !Nat2Z.id by lia.
    by apply part_join.
  - constructor; [|done]. cbn [rend]. rewrite (join_length size) by done. nia.
Qed.

Lemma scaled_select_opt {A} size (parts : list (list A)) ranges : Forall (λ p, length p = size) parts → rows_in (Z.of_nat (length parts)) ranges →
  Z.of_nat (length parts * size) <= u32_max → (0 < size)%nat →
  ranges_ok (length (mjoin parts)) (scaled_ranges size <$> ranges) ∧
  select_opt (scaled_ranges size <$> ranges) (mjoin parts) = mjoin (select_opt ranges parts).
Proof.
  intros Hp Hr Hu Hsz. destruct ranges as [rs|]; [|done]. destruct (Hr rs eq_refl) as [Hs He]. pose proof (sealed_shifted_wf _ _ Hs) as Hwf.
  destruct (scaled_select size parts rs Hp 0) as (H1 & H2 & H3); try done.
  { eapply Forall_impl; [apply (list_end_forall _ _ Hwf)|]. cbn. lia. }
  split; [|done]. intros l [= <-]. split; [done|]. unfold list_end. destruct (last (scaled_ranges size rs)) as [r|] eqn:E; cbn; [|lia].
  rewrite Forall_forall in H3. apply H3. apply last_Some in E as [l' ->]. lmem.
Qed.

(** ** Rows from columns *)

Lemma chunks_of_self {A'} size (parts : list (list A')) : Forall (λ p, length p = size) parts → chunks_of size (length parts) (mjoin parts) = parts.
Proof.
  induction 1 as [|p parts Hp _ IH]; [done|]. cbn [length chunks_of]. rewrite join_cons, take_app_length', drop_app_length' by done. by rewrite IH.
Qed.
Lemma struct_rows_eq fields rs nulls columns : Forall (λ r, ∃ v values, r = RStruct v values ∧ length values = length fields) rs →
  nulls_or (length rs) nulls = row_valid <$> rs → columns = imap (λ j (_ : bool * ArrowType), row_field j <$> rs) fields →
  struct_rows_of (length rs) columns nulls = rs.
Proof.
  intros Hok Ho ->. unfold struct_rows_of. rewrite Ho. apply list_eq. intros i. rewrite list_lookup_imap, list_lookup_fmap.
  destruct (rs !! i) as [r|] eqn:Er; [|done]. cbn. f_equal. pose proof (Forall_lookup_1 _ _ _ _ Hok Er) as (v & values & -> & Hl). cbn. f_equal.
  rewrite fmap_imap. apply list_eq. intros k. rewrite list_lookup_imap. destruct (fields !! k) as [f|] eqn:Ek; cbn.
  - destruct (lookup_lt_is_Some_2 values k) as [x Hx]; [rewrite Hl; by eapply lookup_lt_Some|]. rewrite Hx. f_equal.
    rewrite nth_lookup, list_lookup_fmap, Er. cbn. by rewrite nth_lookup, Hx.
  - apply lookup_ge_None in Ek. symmetry. apply lookup_ge_None. lia.
Qed.
Lemma struct_row_field vu fields v values j f : fields_ok (row_ok vu) v fields values → fields !! j = Some f →
  row_ok vu f.2 (row_field j (RStruct v values)) ∧ (f.1 = false → v = true → row_valid (row_field j (RStruct v values)) = true) ∧ length values = length fields.
Proof.
  intros Hok Hj. apply fields_ok_lookup in Hok. pose proof (Forall2_length _ _ _ Hok) as Hl.
  destruct (Forall2_lookup_l _ _ _ _ _ Hok Hj) as (x & Hx & Hr & Hv). cbn. rewrite nth_lookup, Hx. by cbn.
Qed.

(** ** Reading arrays *)

Section arrays.
Context `{KvStoreLaws M C} `{ArrowBitsLaws} `{ArrowArraysLaws A B valid_utf8 array_type array_rows batch_columns batch_len}.
Context (id : TableId) (t : TableReader (M := M)).
Hypothesis key_ok : factory_for id (tr_key t).
Hypothesis id_ok : length id = 16%nat.
Hypothesis keys_ok : table_keys_only (tr_storage t).
Abbreviation row_ok := (row_ok valid_utf8).
Abbreviation bufs_at := (bufs_at id t).

(** Reading at [pos] returns an array of the type with the selected rows. *)
Definition reads (m : res A) (ty : ArrowType) (rs : list row) : Prop :=
  ∃ a, m = Ok a ∧ array_type a = ty ∧ array_rows a = rs.

Lemma read_valid pos rs ranges post : bufs_at pos (NullBuf (row_valid <$> rs) :: post) → rows_in (Z.of_nat (length rs)) ranges →
  bufs_at (pos + 1) post ∧
  ∃ nulls, read_null_mask t pos ranges = Ok nulls ∧ nulls_fit (length (select_opt ranges rs)) nulls ∧
    ∀ n, n = length (select_opt ranges rs) → nulls_or n nulls = row_valid <$> select_opt ranges rs.
Proof.
  intros [Hn Hp]%bufs_at_cons Hr. split; [done|].
  destruct (read_nulls id t key_ok id_ok keys_ok pos (row_valid <$> rs) ranges Hn) as (nulls & E & Ho & Hf).
  { rewrite length_fmap. by apply rows_in_ranges. }
  rewrite <-select_opt_fmap, length_fmap in Ho, Hf. exists nulls. split; [done|]. split; [done|]. by intros n ->.
Qed.

Lemma read_boolean_array_spec pos rs ranges : bufs_at pos (enc ShBoolean rs) → Forall (row_ok Boolean) rs →
  rows_in (Z.of_nat (length rs)) ranges → reads (read_boolean_array t pos ranges) Boolean (select_opt ranges rs).
Proof.
  intros Hb Hok Hr. destruct (read_valid _ _ _ _ Hb Hr) as (Hb' & nulls & E & Hf & Ho). unfold read_boolean_array. rewrite E. cbn [mbind res_bind].
  rewrite (read_bits id t key_ok id_ok keys_ok (pos + 1) _ ranges Hb') by (rewrite length_fmap; by apply rows_in_ranges). cbn [mbind res_bind].
  rewrite <-select_opt_fmap, length_fmap. assert (from_option (λ mask, length mask =? length (select_opt ranges rs))%nat true nulls = true) as ->.
  { destruct nulls as [l|]; [|done]. cbn. rewrite (Hf l eq_refl). apply Nat.eqb_refl. }
  cbn [ensure mbind res_bind]. destruct (boolean_array_spec (row_bool <$> select_opt ranges rs) nulls) as (a & Ea & Et & Er); [by rewrite length_fmap|].
  exists a. split; [done|]. split; [done|]. rewrite Er. unfold bool_rows. rewrite length_fmap, Ho by done. apply zip_eta.
  eapply Forall_impl; [apply Forall_select, Hok|]. by intros [].
Qed.

Lemma prim_rows_eq p rs ranges nulls : Forall (row_ok (Primitive p)) rs →
  nulls_or (length (row_bytes <$> select_opt ranges rs)) nulls = row_valid <$> select_opt ranges rs →
  prim_rows (row_bytes <$> select_opt ranges rs) nulls = select_opt ranges rs.
Proof.
  intros Hok Ho. unfold prim_rows. rewrite Ho. apply zip_eta. eapply Forall_impl; [apply Forall_select, Hok|]. by intros [].
Qed.
Lemma read_primitive_spec p pos rs ranges : bufs_at pos (enc (ShPrimitive (byte_width p)) rs) → Forall (row_ok (Primitive p)) rs →
  rows_in (Z.of_nat (length rs)) ranges → reads (read_array t ranges (Primitive p) pos) (Primitive p) (select_opt ranges rs).
Proof.
  intros Hb Hok Hr. destruct (read_valid _ _ _ _ Hb Hr) as (Hb' & nulls & E & Hf & Ho).
  destruct (items_sized id t _ _ _ Hb') as [Hw Hsz]. pose proof (Forall_select _ ranges _ Hsz) as Hsel. rewrite <-select_opt_fmap in Hsel.
  pose proof (read_items id t key_ok (pos + 1) (byte_width p) _ ranges Hb') as Hv. rewrite <-select_opt_fmap in Hv.
  specialize (Hv ltac:(rewrite length_fmap; by apply rows_in_ranges)).
  assert (nulls_fit (length (row_bytes <$> select_opt ranges rs)) nulls) as Hf' by (by rewrite length_fmap).
  specialize (Ho (length (row_bytes <$> select_opt ranges rs)) ltac:(by rewrite length_fmap)).
  assert (reads (read_primitive_array p t pos ranges) (Primitive p) (select_opt ranges rs)) as H1'.
  { unfold read_primitive_array. rewrite E. cbn [mbind res_bind]. rewrite Hv. cbn [mbind res_bind]. rewrite typed_join by done.
    destruct (primitive_array_spec p _ nulls Hf' Hsel) as (a & Ea & Et & Er). exists a. split; [done|]. split; [done|].
    rewrite Er. by apply (prim_rows_eq p). }
  assert (reads (read_primitive_data p t pos ranges) (Primitive p) (select_opt ranges rs)) as H2'.
  { unfold read_primitive_data. rewrite E. cbn [mbind res_bind]. rewrite Hv. cbn [mbind res_bind].
    rewrite (join_length (byte_width p)), Nat.div_mul by (done || lia).
    destruct (primitive_data_spec p _ nulls Hf' Hsel) as (a & Ea & Et & Er). exists a. split; [done|]. split; [done|].
    rewrite Er. by apply (prim_rows_eq p). }
  by destruct p.
Qed.

Lemma list_rows_eq rs ranges nulls : Forall (λ r, ∃ v items, r = RList v items) rs →
  nulls_or (length (row_items <$> select_opt ranges rs)) nulls = row_valid <$> select_opt ranges rs →
  list_rows_of (row_items <$> select_opt ranges rs) nulls = select_opt ranges rs.
Proof.
  intros Hok Ho. unfold list_rows_of. rewrite Ho. apply zip_eta. eapply Forall_impl; [apply Forall_select, Hok|]. by intros r (v & items & ->).
Qed.

(** Offsets and the items they name, for the reads of binary and of list arrays. *)
Lemma read_list_parts pos rs ranges post : bufs_at pos (OffsetBuf ((λ r, length (row_items r)) <$> rs) :: post) →
  rows_in (Z.of_nat (length rs)) ranges →
  let parts := row_items <$> select_opt ranges rs in
  bufs_at (pos + 1) post ∧ total (length <$> parts) <= i32_max ∧
  ∃ vr, read_offsets t pos ranges = Ok (cumul 0 (length <$> parts), vr) ∧ rows_in (Z.of_nat (length (mjoin (row_items <$> rs)))) vr ∧
    select_opt vr (mjoin (row_items <$> rs)) = mjoin parts.
Proof.
  intros [Ho Hp]%bufs_at_cons Hr parts. destruct (bufs_at_one _ _ _ _ Ho) as (_ & _ & Hs & _). cbn [buf_small] in Hs.
  destruct (read_offs id t key_ok id_ok pos _ ranges Ho) as (vr & E & Hvr & Hsel); [by rewrite length_fmap|].
  rewrite (list_fmap_compose row_items length) in *. rewrite total_lengths in Hvr.
  assert (length <$> parts = select_opt ranges (length <$> (row_items <$> rs))) as Ep.
  { unfold parts. by rewrite !select_opt_fmap. }
  split; [done|]. split; [rewrite Ep; pose proof (total_select_opt _ _ (length <$> (row_items <$> rs)) Hr); lia|].
  exists vr. rewrite Ep. split; [done|]. split; [done|]. rewrite Hsel by done. by rewrite <-select_opt_fmap.
Qed.

(** Bytes of the selected rows of a binary array, with what arrow needs to know about them. *)
Lemma read_bytes pos rs vr parts : bufs_at pos [NativeBuf 1 (row_bytes <$> mjoin (row_items <$> rs))] →
  rows_in (Z.of_nat (length (mjoin (row_items <$> rs)))) vr → select_opt vr (mjoin (row_items <$> rs)) = mjoin parts → Forall (Forall is_byte) parts →
  ∃ data, read_native_bytes t pos 1 vr = Ok data ∧ byte_rows data = mjoin parts ∧ length data = length (mjoin parts) ∧
    parts_of (cumul 0 (length <$> parts)) data = (λ p : list row, mjoin (row_bytes <$> p)) <$> parts.
Proof.
  intros Hb Hr Hsel Hp. rewrite (read_items id t key_ok pos 1 _ vr Hb) by (rewrite length_fmap; by apply rows_in_ranges).
  rewrite <-select_opt_fmap, Hsel. eexists. split; [done|]. pose proof (Forall_join _ _ Hp) as Hj.
  split; [by apply byte_rows_items|]. split; [by apply is_byte_length|].
  assert (length <$> parts = length <$> ((λ p : list row, mjoin (row_bytes <$> p)) <$> parts)) as ->.
  { rewrite <-list_fmap_compose. apply list_fmap_ext. intros i p Hi. cbn. symmetry. apply is_byte_length. by eapply Forall_lookup_1. }
  rewrite join_bytes. apply parts_of_self.
Qed.

Lemma binary_items ty rs ranges : (ty = Binary ∨ ty = Utf8) → Forall (row_ok ty) rs →
  Forall (λ r, ∃ v items, r = RList v items) rs ∧ Forall (Forall is_byte) (row_items <$> select_opt ranges rs).
Proof.
  intros Hty Hok. split.
  - eapply Forall_impl; [exact Hok|]. intros r Hr. destruct Hty as [-> | ->], r; try done; eauto.
  - apply Forall_fmap. eapply Forall_impl; [apply Forall_select, Hok|]. intros r Hr. destruct Hty as [-> | ->], r; try done; by destruct Hr.
Qed.

Lemma read_binary_spec pos rs ranges : bufs_at pos (enc (ShList (ShNative 1)) rs) → Forall (row_ok Binary) rs →
  rows_in (Z.of_nat (length rs)) ranges → reads (read_binary t pos ranges) Binary (select_opt ranges rs).
Proof.
  intros Hb Hok Hr. destruct (read_valid _ _ _ _ Hb Hr) as (Hb1 & nulls & E & Hf & Ho).
  destruct (read_list_parts _ _ _ _ Hb1 Hr) as (Hb2 & Ht & vr & Eo & Hvr & Hsel). rewrite <-Nat.add_assoc in Hb2. change (1 + 1)%nat with 2%nat in Hb2.
  destruct (binary_items Binary rs ranges ltac:(by left) Hok) as [Hl Hbytes].
  destruct (read_bytes _ _ _ _ Hb2 Hvr Hsel Hbytes) as (data & Ed & Erow & Elen & _).
  unfold read_binary. rewrite E. cbn [mbind res_bind]. rewrite Eo. cbn [mbind res_bind]. rewrite Ed. cbn [mbind res_bind].
  destruct (binary_array_spec (length <$> (row_items <$> select_opt ranges rs)) data nulls) as (a & Ea & Et & Er).
  { by rewrite !length_fmap. } { by rewrite total_lengths, Elen. } { done. }
  exists a. split; [done|]. split; [done|]. rewrite Er, Erow, parts_of_self. apply list_rows_eq; [done|]. apply Ho. by rewrite length_fmap.
Qed.
Lemma read_string_spec pos rs ranges : bufs_at pos (enc (ShList (ShNative 1)) rs) → Forall (row_ok Utf8) rs →
  rows_in (Z.of_nat (length rs)) ranges → reads (read_string t pos ranges) Utf8 (select_opt ranges rs).
Proof.
  intros Hb Hok Hr. destruct (read_valid _ _ _ _ Hb Hr) as (Hb1 & nulls & E & Hf & Ho).
  destruct (read_list_parts _ _ _ _ Hb1 Hr) as (Hb2 & Ht & vr & Eo & Hvr & Hsel). rewrite <-Nat.add_assoc in Hb2. change (1 + 1)%nat with 2%nat in Hb2.
  destruct (binary_items Utf8 rs ranges ltac:(by right) Hok) as [Hl Hbytes].
  destruct (read_bytes _ _ _ _ Hb2 Hvr Hsel Hbytes) as (data & Ed & Erow & Elen & Ep).
  unfold read_string. rewrite E. cbn [mbind res_bind]. rewrite Eo. cbn [mbind res_bind]. rewrite Ed. cbn [mbind res_bind].
  destruct (string_array_spec (length <$> (row_items <$> select_opt ranges rs)) data nulls) as (a & Ea & Et & Er).
  { by rewrite !length_fmap. } { by rewrite total_lengths, Elen. } { done. }
  { rewrite Ep, <-list_fmap_compose. apply Forall_fmap. eapply Forall_impl; [apply Forall_select, Hok|]. intros r Hr'. destruct r; try done. by destruct Hr'. }
  exists a. split; [done|]. split; [done|]. rewrite Er, Erow, parts_of_self. apply list_rows_eq; [done|]. apply Ho. by rewrite length_fmap.
Qed.

Lemma read_fixed_spec size pos rs ranges : (0 < size)%nat → bufs_at pos (enc (ShFixed size (ShNative 1)) rs) → Forall (row_ok (FixedSizeBinary size)) rs →
  rows_in (Z.of_nat (length rs)) ranges → reads (read_fixed_size_binary size t pos ranges) (FixedSizeBinary size) (select_opt ranges rs).
Proof.
  intros Hsz Hb Hok Hr. destruct (read_valid _ _ _ _ Hb Hr) as (Hb1 & nulls & E & Hf & Ho).
  destruct (bufs_at_one _ _ _ _ Hb1) as (_ & _ & _ & Hi). cbn [buf_items] in Hi. rewrite length_fmap in Hi.
  assert (Forall (λ r, ∃ v items, r = RList v items) rs) as Hl by (eapply Forall_impl; [exact Hok|]; intros [] ?; try done; eauto).
  assert (Forall (λ p, length p = size ∧ Forall is_byte p) (row_items <$> rs)) as Hp.
  { apply Forall_fmap. eapply Forall_impl; [exact Hok|]. intros r Hr'. destruct r; try done. by destruct Hr'. }
  apply Forall_and in Hp as [Hp Hbytes]. set (parts := row_items <$> rs) in *.
  assert (length parts = length rs) as Epl by apply length_fmap. rewrite (join_length size) in Hi by done.
  destruct (scaled_select_opt size parts ranges Hp) as [Hro Hsel]; [by rewrite Epl|done|done|].
  pose proof (Forall_select _ ranges _ Hp) as Hp'. pose proof (Forall_select _ ranges _ Hbytes) as Hbytes'.
  assert (select_opt ranges parts = row_items <$> select_opt ranges rs) as Eparts by (unfold parts; by rewrite select_opt_fmap).
  unfold read_fixed_size_binary. rewrite E. cbn [mbind res_bind].
  rewrite (read_items id t key_ok (pos + 1) 1 _ _ Hb1) by (by rewrite length_fmap). cbn [mbind res_bind].
  rewrite <-select_opt_fmap, Hsel. pose proof (Forall_join _ _ Hbytes') as Hj.
  destruct (fixed_array_spec size (length (select_opt ranges rs)) (mjoin (row_bytes <$> mjoin (select_opt ranges parts))) nulls) as (a & Ea & Et & Er); [done|done|..].
  { rewrite is_byte_length, (join_length size) by done. by rewrite Eparts, length_fmap. }
  exists a. split; [done|]. split; [done|]. rewrite Er, byte_rows_items by done.
  replace (length (select_opt ranges rs)) with (length (select_opt ranges parts)) by (by rewrite Eparts, length_fmap).
  rewrite chunks_of_self, Eparts by done. apply list_rows_eq; [done|]. apply Ho. by rewrite length_fmap.
Qed.

Lemma read_list_spec nullable item pos rs ranges :
  (∀ pos rs ranges, bufs_at pos (enc (shape_of item) rs) → Forall (row_ok item) rs → rows_in (Z.of_nat (length rs)) ranges →
     reads (read_array t ranges item pos) item (select_opt ranges rs)) →
  bufs_at pos (enc (ShList (shape_of item)) rs) → Forall (row_ok (ListOf nullable item)) rs →
  rows_in (Z.of_nat (length rs)) ranges → reads (read_array t ranges (ListOf nullable item) pos) (ListOf nullable item) (select_opt ranges rs).
Proof.
  intros IH Hb Hok Hr. destruct (read_valid _ _ _ _ Hb Hr) as (Hb1 & nulls & E & Hf & Ho).
  destruct (read_list_parts _ _ _ _ Hb1 Hr) as (Hb2 & Ht & vr & Eo & Hvr & Hsel). rewrite <-Nat.add_assoc in Hb2. change (1 + 1)%nat with 2%nat in Hb2.
  assert (Forall (λ r, ∃ v items, r = RList v items) rs) as Hl by (eapply Forall_impl; [exact Hok|]; intros [] ?; try done; eauto).
  assert (Forall (row_ok item) (mjoin (row_items <$> rs))) as Hitems.
  { apply Forall_join, Forall_fmap. eapply Forall_impl; [exact Hok|]. intros r Hr'. destruct r; try done. by apply row_ok_items in Hr' as [? _]. }
  destruct (IH _ _ _ Hb2 Hitems Hvr) as (child & Ec & Etc & Erc). rewrite Hsel in Erc.
  cbn [read_array]. rewrite E. cbn [mbind res_bind]. rewrite Eo. cbn [mbind res_bind]. rewrite Ec. cbn [mbind res_bind].
  destruct (list_array_spec (nullable, item) (length <$> (row_items <$> select_opt ranges rs)) child nulls) as (a & Ea & Et & Er).
  { by rewrite !length_fmap. } { by rewrite total_lengths, Erc. } { done. } { done. }
  { cbn. intros Hnn. rewrite Erc. apply Forall_join, Forall_fmap. eapply Forall_impl; [apply Forall_select, Hok|]. intros r Hr'. destruct r; try done.
    apply row_ok_items in Hr' as [_ Hv]. by apply Hv. }
  exists a. split; [done|]. split; [done|]. rewrite Er, Erc, parts_of_self. apply list_rows_eq; [done|]. apply Ho. by rewrite length_fmap.
Qed.

(** The fields of a struct or the columns of a table. *)
Lemma read_fields_spec fields ranges rs : rows_in (Z.of_nat (length rs)) ranges →
  Forall (λ f, supported f.2 = true ∧ ∀ pos rs, bufs_at pos (enc (shape_of f.2) rs) → Forall (row_ok f.2) rs → rows_in (Z.of_nat (length rs)) ranges →
     reads (read_array t ranges f.2 pos) f.2 (select_opt ranges rs)) fields →
  ∀ k pos, bufs_at pos (enc_fields enc k ((λ f, shape_of f.2) <$> fields) rs) →
  (∀ j f, fields !! j = Some f → Forall (λ r, row_ok f.2 (row_field (k + j) r)) rs) →
  ∃ lens arrays, map_res get_num_buffers fields.*2 = Ok lens ∧ read_fields (read_array t ranges) fields (build_offsets pos lens) = Ok arrays ∧
    Forall2 (λ f a, array_type a = f.2) fields arrays ∧ array_rows <$> arrays = imap (λ j _, row_field (k + j) <$> select_opt ranges rs) fields.
Proof.
  intros Hr. induction 1 as [|f fields [Hsup Hf] _ IH]; intros k pos Hb Hok.
  { exists [], []. split; [done|]. split; [done|]. split; [constructor|done]. }
  cbn [fmap list_fmap enc_fields] in Hb. apply bufs_at_app in Hb as [Hb1 Hb2]. rewrite enc_length in Hb2.
  destruct (IH (S k) (pos + nbufs (shape_of f.2))%nat Hb2) as (lens & arrays & El & Er & Ht & Ha).
  { intros j f' Hj. rewrite Nat.add_succ_comm. by apply (Hok (S j)). }
  destruct (Hf pos (row_field k <$> rs)) as (a & Ea & Eta & Era); [done| |by rewrite length_fmap|].
  { apply Forall_fmap. specialize (Hok 0%nat f eq_refl). by rewrite Nat.add_0_r in Hok. }
  exists (nbufs (shape_of f.2) :: lens), (a :: arrays).
  split; [rewrite fmap_cons; cbn [map_res]; rewrite (get_num_buffers_spec f.2 Hsup); cbn [mbind res_bind]; by rewrite El|]. cbn [build_offsets read_fields]. rewrite Ea. cbn [mbind res_bind]. rewrite Er. cbn [mbind res_bind]. split; [done|].
  split; [by constructor|]. rewrite fmap_cons. cbn [imap]. rewrite Nat.add_0_r, Era, <-select_opt_fmap. f_equal. rewrite Ha. apply imap_ext. intros j f' _.
  unfold compose. by rewrite Nat.add_succ_comm.
Qed.

End arrays.
