(* ===== verification/TableRoundtrip.v ===== *)
(** * TableRoundtrip: what is written to a table is read back

    Composition of the table writer and the table reader: any sequence of writes of table
    slices, [finish], opening the table and reading a projection of it for some row ranges
    returns the selected rows of exactly the rows written. *)

From S2P Require Import Prelude Bytes Data Kv Ranges Bits Offsets Pages PagesSpec Pagination TableRead TableReadSpec Slices SliceSpec SliceWrite TableWrite TableArray.

(** ** Keys of the finished table *)

Section keys.
Context `{KvStoreLaws M C} (id : TableId).
Hypothesis id_ok : length id = 16%nat.

Definition key_page (k : bytes) : nat * nat :=
  (Z.to_nat (from_be_bytes (part 17 2 k)), Z.to_nat (from_be_bytes (part 19 4 k))).
Definition key_buffer (k : bytes) : nat := Z.to_nat (from_be_bytes (part 17 2 k)).

Lemma page_key_parse i j : page_key id (key_page (page_key id i j)).1 (key_page (page_key id i j)).2 = page_key id i j.
Proof.
  apply page_key_inj. unfold key_page. rewrite page_key_split. cbn [fst snd].
  assert (∀ l, part 17 2 (id ++ [3] ++ be_bytes 2 (Z.of_nat i mod 2 ^ 16) ++ l) = be_bytes 2 (Z.of_nat i mod 2 ^ 16)) as Hp.
  { intros l. unfold part. rewrite (app_assoc id), drop_app_length' by (rewrite length_app; cbn; lia).
    apply take_app_length'. by rewrite be_bytes_length. }
  rewrite Hp. assert (part 19 4 (id ++ [3] ++ be_bytes 2 (Z.of_nat i mod 2 ^ 16) ++ be_bytes 4 (Z.of_nat j mod 2 ^ 32)) = be_bytes 4 (Z.of_nat j mod 2 ^ 32)) as ->.
  { unfold part. rewrite !app_assoc, drop_app_length' by (rewrite !length_app, be_bytes_length; cbn; lia). by rewrite take_ge by (rewrite be_bytes_length; lia). }
  pose proof (Z.mod_pos_bound (Z.of_nat i) (2 ^ 16) ltac:(lia)). pose proof (Z.mod_pos_bound (Z.of_nat j) (2 ^ 32) ltac:(lia)).
  rewrite !from_be_bytes_be by (change (256 ^ Z.of_nat 2) with (2 ^ 16); change (256 ^ Z.of_nat 4) with (2 ^ 32); done).
  rewrite !Z2Nat.id by lia. by rewrite !Z.mod_mod by lia.
Qed.
Lemma offsets_key_parse i : offsets_key id (key_buffer (offsets_key id i)) = offsets_key id i.
Proof.
  apply offsets_key_inj. unfold key_buffer, offsets_key, table_key. rewrite serialize_app. cbn [serialize].
  assert (part 17 2 (id ++ [2] ++ be_bytes 2 (Z.of_nat i mod 2 ^ 16)) = be_bytes 2 (Z.of_nat i mod 2 ^ 16)) as Hp.
  { unfold part. rewrite (app_assoc id), drop_app_length' by (rewrite length_app; cbn; lia). by rewrite take_ge by (rewrite be_bytes_length; lia). }
  pose proof (Z.mod_pos_bound (Z.of_nat i) (2 ^ 16) ltac:(lia)).
  setoid_rewrite Hp. rewrite from_be_bytes_be by (change (256 ^ Z.of_nat 2) with (2 ^ 16); done). rewrite Z2Nat.id by lia. by rewrite Z.mod_mod by lia.
Qed.

(** A store in which only keys of the table changed has table keys only. *)
Lemma table_keys_kept (s0 s : M) : table_keys_only s0 →
  (∀ k, (∀ i j, k ≠ page_key id i j) → (∀ i, k ≠ offsets_key id i) → k ≠ schema_key id → kv_get s k = kv_get s0 k) → table_keys_only s.
Proof.
  intros Hs0 Hk k v Hv. destruct (decide (k = page_key id (key_page k).1 (key_page k).2)) as [E|Hp].
  { rewrite E. eexists id, _. split; [done|]. reflexivity. }
  destruct (decide (k = offsets_key id (key_buffer k))) as [E|Ho]; [rewrite E; eexists id, _; split; [done|]; reflexivity|].
  destruct (decide (k = schema_key id)) as [->|Hs]; [eexists id, _; split; [done|]; reflexivity|].
  rewrite Hk in Hv; [by apply (Hs0 k v)|..]; [| |done].
  - intros i j ->. apply Hp. by rewrite page_key_parse.
  - intros i ->. apply Ho. by rewrite offsets_key_parse.
Qed.
End keys.

(** ** Reading a stored table *)

Lemma imap_pair_snd {X} (l : list X) : (imap pair l).*2 = l.
Proof. rewrite fmap_imap. rewrite <-(list_fmap_id l) at 2. rewrite <-(imap_const id l). by apply imap_ext. Qed.

(** Buffers that are small enough at the end were so before. *)
Lemma enc_fields_small fields : Forall (λ sh, ∀ a b, Forall buf_small (enc sh (a ++ b)) → Forall buf_small (enc sh a)) fields →
  ∀ k a b, Forall buf_small (enc_fields enc k fields (a ++ b)) → Forall buf_small (enc_fields enc k fields a).
Proof.
  induction 1 as [|sh fields Hsh _ IH]; intros k a b; [done|]. cbn [enc_fields]. rewrite fmap_app, !Forall_app. intros [H1 H2].
  split; [by eapply Hsh|by eapply IH].
Qed.
Lemma enc_small sh : ∀ a b, Forall buf_small (enc sh (a ++ b)) → Forall buf_small (enc sh a).
Proof.
  induction sh as [| | |sh IH|n sh IH|fields IH] using shape_nested_ind; intros a b; cbn [enc]; try (by intros _; repeat constructor).
  - rewrite !fmap_app, join_app. intros [_ [Ht Hs]%Forall_cons]%Forall_cons. constructor; [done|]. constructor; [|by eapply IH].
    cbn [buf_small] in *. rewrite total_app in Ht. pose proof (total_nonneg ((λ r, length (row_items r)) <$> b)). lia.
  - rewrite !fmap_app, join_app. intros [_ Hs]%Forall_cons. constructor; [done|]. by eapply IH.
  - rewrite !fmap_app. intros [_ Hs]%Forall_cons. constructor; [done|]. by eapply enc_fields_small.
Qed.
Lemma table_small fields a b : Forall buf_small (enc_fields enc 0 fields (a ++ b)) → Forall buf_small (enc_fields enc 0 fields a).
Proof. apply enc_fields_small. apply Forall_forall. intros sh _. apply enc_small. Qed.

(** A sequence of writes appends the rows of each write. *)
Lemma run_ops `{ArrowBitsLaws} `{ArrayWriterLaws W repr} fields ops : Forall (table_op_ok fields) ops → ∀ (w : W) rs, repr w (enc_fields enc 0 fields rs) →
  Forall buf_small (enc_fields enc 0 fields (rs ++ mjoin (table_op_rows <$> ops))) →
  ∃ w', fold_res (λ w op, table_op_run op w) ops w = Ok w' ∧ repr w' (enc_fields enc 0 fields (rs ++ mjoin (table_op_rows <$> ops))).
Proof.
  induction 1 as [|op ops Hop _ IH]; intros w rs Hw Hs; cbn [fold_res].
  { exists w. cbn. by rewrite app_nil_r. }
  rewrite fmap_cons, join_cons, app_assoc in Hs |- *.
  destruct (table_op_spec repr fields op w rs Hop Hw (table_small _ _ _ Hs)) as (w1 & -> & Hw1). cbn [mbind res_bind].
  by apply IH.
Qed.

Section table.
Context `{KvStoreLaws M C} `{ArrowBitsLaws} `{ArrowArraysLaws A B valid_utf8 array_type array_rows batch_columns batch_len}.
Context (id : TableId) (schema_to_fb : schema → bytes) (fb_to_schema : bytes → option schema).
Hypothesis id_ok : length id = 16%nat.
Abbreviation row_ok := (row_ok valid_utf8).

Lemma readable_supported ty : readable ty = true → supported ty = true.
Proof.
  induction ty as [| | | | |b ty IH|n b ty IH|fields IH|b] using arrow_nested_ind; try done. cbn [readable supported].
  intros [_ Hf]%andb_true_iff. rewrite forallb_forall in *. rewrite Forall_forall in IH. intros f Hin. apply IH; [by apply list_elem_of_In|]. by apply Hf.
Qed.

Section reader.
Context (t : TableReader (M := M)).
Hypothesis key_ok : factory_for id (tr_key t).
Hypothesis keys_ok : table_keys_only (tr_storage t).
Abbreviation reads := (reads (array_type := array_type) (array_rows := array_rows)).


Lemma read_struct_spec fields pos rs ranges : fields ≠ [] →
  Forall (λ f, supported f.2 = true ∧ ∀ pos rs, bufs_at id t pos (enc (shape_of f.2) rs) → Forall (row_ok f.2) rs → rows_in (Z.of_nat (length rs)) ranges →
     reads (read_array t ranges f.2 pos) f.2 (select_opt ranges rs)) fields →
  bufs_at id t pos (enc (ShStruct ((λ f, shape_of f.2) <$> fields)) rs) → Forall (row_ok (Struct fields)) rs →
  rows_in (Z.of_nat (length rs)) ranges → reads (read_array t ranges (Struct fields) pos) (Struct fields) (select_opt ranges rs).
Proof.
  intros Hne IH Hb Hok Hr. destruct (read_valid id t key_ok id_ok keys_ok _ _ _ _ Hb Hr) as (Hb1 & nulls & E & Hf & Ho).
  assert (Forall (λ r, ∃ v values, r = RStruct v values ∧ fields_ok row_ok v fields values) rs) as Hst.
  { eapply Forall_impl; [exact Hok|]. intros r Hr'. destruct r; try done. eauto. }
  destruct (read_fields_spec id t fields ranges rs Hr IH 0 (pos + 1) Hb1) as (lens & arrays & El & Ea & Ht & Hrows).
  { intros j f Hj. eapply Forall_impl; [exact Hst|]. intros r (v & values & -> & Hv). by apply struct_row_field with fields. }
  cbn [read_array]. rewrite E. cbn [mbind res_bind]. unfold build_field_offsets. rewrite El. cbn [mbind res_bind]. rewrite Ea. cbn [mbind res_bind].
  assert (struct_rows_of (length (select_opt ranges rs)) (array_rows <$> arrays) nulls = select_opt ranges rs) as Eq.
  { apply (struct_rows_eq fields); [|by apply Ho|done]. eapply Forall_impl; [apply Forall_select, Hst|]. intros r (v & values & -> & Hv).
    exists v, values. split; [done|]. apply fields_ok_lookup in Hv. symmetry. by eapply Forall2_length. }
  destruct (struct_array_spec fields arrays nulls (length (select_opt ranges rs))) as (a & Es & Et & Er); [done|done|..].
  - apply Forall2_same_length_lookup. split; [by eapply Forall2_length|]. intros j f a Hj Hj'.
    split; [by apply (Forall2_lookup_lr _ _ _ _ _ _ Ht Hj Hj')|].
    pose proof (f_equal (lookup j) Hrows) as El'. rewrite list_lookup_fmap, list_lookup_imap, Hj, Hj' in El'. cbn in El'. injection El' as ->. apply length_fmap.
  - rewrite Eq. eapply Forall_impl; [apply Forall_select, Hst|]. intros r (v & values & -> & Hv) k f Hk Hn Hva. by eapply (struct_row_field valid_utf8 fields v values k f).
  - exists a. split; [done|]. split; [done|]. by rewrite Er.
Qed.

(** Reading a stored column returns the array of its selected rows. *)
Lemma read_array_spec ty : readable ty = true → ∀ pos rs ranges, bufs_at id t pos (enc (shape_of ty) rs) → Forall (row_ok ty) rs →
  rows_in (Z.of_nat (length rs)) ranges → reads (read_array t ranges ty pos) ty (select_opt ranges rs).
Proof.
  induction ty as [|p| | |size|b ty IH|n b ty IH|fields IH|b] using arrow_nested_ind; intros Hrd pos rs ranges Hb Hok Hr; try done.
  - by apply (read_boolean_array_spec id).
  - by apply (read_primitive_spec id).
  - by apply (read_binary_spec id).
  - by apply (read_string_spec id).
  - apply (read_fixed_spec id); try done. by apply Nat.ltb_lt.
  - apply (read_list_spec id); try done. intros. by apply IH.
  - cbn [readable] in Hrd. apply andb_true_iff in Hrd as [Hne Hrd]. rewrite forallb_forall in Hrd.
    apply read_struct_spec; try done; [by intros ->|]. rewrite Forall_forall in IH |- *. intros f Hf.
    assert (readable f.2 = true) as Hrf by (apply Hrd; by apply list_elem_of_In). split; [by apply readable_supported|].
    intros pos' rs'. by apply IH.
Qed.
End reader.

(** ** Opening a table *)

Definition schema_fields (sch : schema) : list (bool * ArrowType) := (λ f, (f.1.2, f.2)) <$> sch.
(** A row of a table: a struct that is never null. *)
Definition table_row_ok (sch : schema) (r : row) : Prop := ∃ values, r = RStruct true values ∧ fields_ok row_ok true (schema_fields sch) values.
Definition schema_ok (sch : schema) : Prop :=
  sch ≠ [] ∧ forallb readable (column_types sch) = true ∧ Z.of_nat (sum_list_with nbufs (table_shape sch)) <= 2 ^ 16.
(** What the stored form can hold. *)
Definition bufs_fit (bufs : list buf) : Prop := Forall buf_small bufs ∧ Forall (λ b, Z.of_nat (buf_items b) <= u32_max) bufs.

Definition opened (s : M) (sch : schema) (rs : list row) (tb : Table) : Prop :=
  tb_schema tb = sch ∧ tb_num_rows tb = length rs ∧ factory_for id (tr_key (tb_reader tb)) ∧ tr_storage (tb_reader tb) = s ∧
  tb_column_positions tb = build_offsets 0 (nbufs <$> table_shape sch) ∧ bufs_at id (tb_reader tb) 0 (enc_fields enc 0 (table_shape sch) rs).

Lemma map_num_buffers tys : forallb readable tys = true → map_res get_num_buffers tys = Ok (nbufs <$> (shape_of <$> tys)).
Proof.
  intros Hr. rewrite <-list_fmap_compose. apply map_res_ok. rewrite forallb_forall in Hr. apply Forall_forall. intros ty Hin.
  apply get_num_buffers_spec, readable_supported, Hr. by apply list_elem_of_In.
Qed.
Lemma enc_head ty rs : readable ty = true → ∃ post, enc (shape_of ty) rs = NullBuf (row_valid <$> rs) :: post.
Proof. destruct ty; try done; eexists; reflexivity. Qed.

Lemma open_table s sch rs : fb_to_schema (schema_to_fb sch) = Some sch → schema_ok sch → table_keys_only s →
  table_stored id schema_to_fb s sch (enc_fields enc 0 (table_shape sch) rs) → bufs_fit (enc_fields enc 0 (table_shape sch) rs) →
  ∃ tb, table_reader_new fb_to_schema s id = Ok tb ∧ opened s sch rs tb.
Proof.
  intros Hfb (Hne & Hrd & Hn) Hkeys [Hsch Hst] [Hsm Hit]. unfold table_reader_new, factory_schema.
  destruct (factory_make (factory_new id) Key_Schema) as [skey key] eqn:Ek.
  destruct (factory_make_spec id (factory_new id) Key_Schema (factory_new_for id)) as [E1 E2]. rewrite Ek in E1, E2. cbn [fst snd] in *. subst skey.
  fold (schema_key id). rewrite Hsch. cbn [ok_or mbind res_bind]. rewrite Hfb. cbn [ok_or mbind res_bind].
  unfold build_field_offsets. rewrite map_num_buffers by done. cbn [mbind res_bind]. fold (table_shape sch).
  rewrite build_offsets_last. cbn [mbind res_bind]. rewrite Nat.add_0_l.
  set (t := mkReader s key (sum_list (nbufs <$> table_shape sch))).
  assert (bufs_at id t 0 (enc_fields enc 0 (table_shape sch) rs)) as Hb.
  { split; [by rewrite enc_fields_nbufs; cbn; rewrite (sum_list_fmap nbufs)|]. intros j b Hj. split; [by apply Hst|].
    split; [by eapply (Forall_lookup_1 _ _ _ _ Hsm)|by eapply (Forall_lookup_1 _ _ _ _ Hit)]. }
  destruct sch as [|f sch]; [done|]. rewrite (proj2 (Nat.ltb_lt _ _)) by (rewrite build_offsets_length; cbn; lia).
  cbn [table_shape column_types fmap list_fmap enc_fields] in Hb. apply andb_true_iff in Hrd as [Hrf _].
  destruct (enc_head f.2 (row_field 0 <$> rs) Hrf) as [post Epost]. pose proof Hb as Hb'. rewrite Epost in Hb. apply bufs_at_cons in Hb as [Hb1 _].
  destruct (read_num_rows id t E2 id_ok Hkeys 0 _ Hb1) as (pages & Ep & El). fold t. rewrite Ep. cbn [mbind res_bind]. rewrite El. cbn [mbind res_bind].
  eexists. split; [done|]. split; [done|]. split; [cbn; by rewrite !length_fmap, Nat2Z.id|]. done.
Qed.

(** ** Reading columns *)

Lemma column_bufs t k pos shapes rs j sh : bufs_at id t pos (enc_fields enc k shapes rs) → shapes !! j = Some sh →
  bufs_at id t (pos + sum_list_with nbufs (take j shapes)) (enc sh (row_field (k + j) <$> rs)).
Proof.
  revert k pos shapes; induction j as [|j IH]; intros k pos [|sh' shapes] Hb Hj; try done; cbn [enc_fields] in Hb; apply bufs_at_app in Hb as [Hb1 Hb2].
  - injection Hj as ->. cbn. by rewrite !Nat.add_0_r.
  - rewrite enc_length in Hb2. specialize (IH _ _ _ Hb2 Hj). cbn. rewrite Nat.add_assoc, Nat.add_succ_r. exact IH.
Qed.

Lemma read_column_spec s sch rs tb ranges i f : schema_ok sch → table_keys_only s → opened s sch rs tb → Forall (table_row_ok sch) rs →
  rows_in (Z.of_nat (length rs)) ranges → sch !! i = Some f →
  reads (array_type := array_type) (array_rows := array_rows) (read_column tb ranges i) f.2 (select_opt ranges (row_field i <$> rs)) ∧
  (f.1.2 = false → Forall (λ r, row_valid r = true) (select_opt ranges (row_field i <$> rs))).
Proof.
  intros (Hne & Hrd & Hn) Hkeys (Esch & Erows & Hkf & <- & Epos & Hb) Hok Hr Hi. unfold read_column. rewrite Epos, Esch.
  assert (table_shape sch !! i = Some (shape_of f.2)) as Hsh.
  { unfold table_shape, column_types. by rewrite !list_lookup_fmap, Hi. }
  assert (at_ (build_offsets 0 (nbufs <$> table_shape sch)) i = Ok (sum_list_with nbufs (take i (table_shape sch)))) as ->.
  { unfold at_. rewrite build_offsets_lookup by (rewrite length_fmap; apply lookup_lt_Some in Hsh; lia).
    by rewrite <-fmap_take, (sum_list_fmap nbufs). }
  cbn [mbind res_bind]. assert (at_ (column_types sch) i = Ok f.2) as ->.
  { unfold at_, column_types. by rewrite list_lookup_fmap, Hi. }
  cbn [mbind res_bind].
  assert (schema_fields sch !! i = Some (f.1.2, f.2)) as Hf by (unfold schema_fields; by rewrite list_lookup_fmap, Hi).
  assert (Forall (λ r, row_ok f.2 (row_field i r) ∧ (f.1.2 = false → row_valid (row_field i r) = true)) rs) as Hrows.
  { eapply Forall_impl; [exact Hok|]. intros r (values & -> & Hv). destruct (struct_row_field _ _ _ _ _ _ Hv Hf) as (Hr1 & Hr2 & _). auto. }
  split.
  - eapply read_array_spec; try done.
    + rewrite forallb_forall in Hrd. apply Hrd, list_elem_of_In. unfold column_types. apply list_elem_of_lookup. exists i. by rewrite list_lookup_fmap, Hi.
    + by apply (column_bufs _ 0 0).
    + apply Forall_fmap. eapply Forall_impl; [exact Hrows|]. by intros r [? _].
    + by rewrite length_fmap.
  - intros Hnn. apply Forall_select, Forall_fmap. eapply Forall_impl; [exact Hrows|]. intros r [_ Hv]. by apply Hv.
Qed.

(** ** Projections *)

Lemma filter_full {X} (P : X → Prop) `{!∀ x, Decision (P x)} (l : list X) : length (filter P l) = length l → filter P l = l.
Proof.
  induction l as [|x l IH]; [done|]. rewrite filter_cons. pose proof (length_filter P l). case_decide; cbn; [intros [= E]; f_equal; by apply IH|lia].
Qed.
Lemma projected_schema sch projection : ∃ sch', Forall2 (λ i f, sch !! i = Some f) (projected sch projection) sch' ∧
  (length (projected sch projection) = length sch → sch' = sch).
Proof.
  destruct projection as [names|]; cbn [projected].
  - set (P := λ x : nat * (string * bool * ArrowType), x.2.1.1 ∈ names). exists (filter P (imap pair sch)).*2. split.
    + assert (Forall (λ x : nat * (string * bool * ArrowType), sch !! x.1 = Some x.2) (filter P (imap pair sch))) as Hf.
      { apply Forall_forall. intros [i f] [_ Hin]%list_elem_of_filter. apply list_elem_of_lookup in Hin as [j Hj].
        rewrite list_lookup_imap in Hj. destruct (sch !! j) eqn:E; [|done]. cbn in Hj. by injection Hj as <- <-. }
      induction Hf; [constructor|]. cbn. by constructor.
    + rewrite length_fmap. intros El. rewrite filter_full by (by rewrite length_imap). apply imap_pair_snd.
  - exists sch. split; [|done]. apply Forall2_same_length_lookup. split; [apply length_seq|]. intros i j f Hi Hf.
    apply lookup_seq in Hi as [-> _]. done.
Qed.

Lemma map_at_ok {X} (l : list X) idx l' : Forall2 (λ i x, l !! i = Some x) idx l' → map_res (at_ l) idx = Ok l'.
Proof. induction 1 as [|i x idx l' Hi _ IH]; [done|]. cbn [map_res].
  assert (at_ l i = Ok x) as -> by (unfold at_; by rewrite Hi). cbn [mbind res_bind]. by rewrite IH.
Qed.

Lemma read_table_spec s sch rs tb projection ranges : schema_ok sch → table_keys_only s → opened s sch rs tb → Forall (table_row_ok sch) rs →
  rows_in (Z.of_nat (length rs)) ranges →
  ∃ b, read_table tb projection ranges = Ok b ∧
    batch_columns b = (λ i, select_opt ranges (row_field i <$> rs)) <$> projected sch projection ∧
    batch_len b = match projected sch projection with [] => length rs | _ => length (select_opt ranges rs) end.
Proof.
  intros Hsch Hkeys Hopen Hok Hr. pose proof Hopen as (Esch & Erows & _). unfold read_table. rewrite Esch.
  destruct (projected_schema sch projection) as (sch' & Hf & Hfull).
  destruct (projected sch projection) as [|i0 idx0] eqn:Ep.
  - assert ((match ranges with Some l => ensure (list_end l <=? Z.of_nat (tb_num_rows tb)) (EMsg "range list is out of bounds") | None => Ok tt end) = Ok tt) as ->.
    { destruct ranges as [l|]; [|done]. destruct (Hr l eq_refl) as [_ He]. by rewrite Erows, (proj2 (Z.leb_le _ _) He). }
    cbn [mbind res_bind]. rewrite Erows. destruct (record_batch_empty_spec (length rs)) as (b & Eb & Ec & El). by exists b.
  - rewrite <-Ep in *. assert (projected sch projection ≠ []) as Hne by (by rewrite Ep). clear i0 idx0 Ep.
    set (idx := projected sch projection) in *.
    assert (∃ arrays, map_res (read_column tb ranges) idx = Ok arrays ∧ array_rows <$> arrays = (λ i, select_opt ranges (row_field i <$> rs)) <$> idx ∧
      Forall2 (λ f c, array_type c = f.2 ∧ length (array_rows c) = length (select_opt ranges rs) ∧
                      (f.1.2 = false → Forall (λ r, row_valid r = true) (array_rows c))) sch' arrays) as (arrays & Ea & Er & Hfa).
    { clear Hfull Hne. clearbody idx. induction Hf as [|i f idx sch' Hi Hf (arrays & Ea & Er & Hfa)]; [exists []; split; [done|]; split; [done|constructor]|].
      destruct (read_column_spec s sch rs tb ranges i f Hsch Hkeys Hopen Hok Hr Hi) as [(a & E1 & E2 & E3) Hv].
      exists (a :: arrays). cbn [map_res]. rewrite E1. cbn [mbind res_bind]. rewrite Ea. cbn [mbind res_bind]. split; [done|].
      rewrite !fmap_cons, E3, Er. split; [done|]. constructor; [|done]. split; [done|]. rewrite E3. split; [|done]. by rewrite <-select_opt_fmap, length_fmap. }
    rewrite Ea. cbn [mbind res_bind].
    assert ((if (length idx =? length sch)%nat then Ok sch else map_res (at_ sch) idx) = Ok sch') as ->.
    { destruct (Nat.eqb_spec (length idx) (length sch)) as [E|_]; [by rewrite (Hfull E)|by apply map_at_ok]. }
    cbn [mbind res_bind]. destruct (record_batch_spec sch' arrays (length (select_opt ranges rs))) as (b & Eb & Ec & El); [|done|].
    { intros ->. by inversion Hf as [E|]. }
    exists b. destruct idx as [|i idx]; [done|]. split; [done|]. split; [by rewrite Ec|done].
Qed.

(** ** The round trip *)

(** The whole life of a table: create it, write, finish, open, read. *)
Definition write_then_read (sizes : page_sizes) (s0 : M) (sch : schema) (ops : list table_op)
    (projection : option (list string)) (ranges : option (list range)) : res B :=
  w ← table_writer_new sizes s0 id sch;
  w ← fold_res (λ w op, table_op_run op w) ops w;
  s ← table_writer_finish schema_to_fb w;
  tb ← table_reader_new fb_to_schema s id;
  read_table tb projection ranges.

(** C14: a table that is written by any sequence of writes of whole slices, ranges, lists of
    ranges or lists of rows, then finished, opened and read, returns for every projected
    column exactly the rows that the row ranges select, in order, out of the rows written, for
    all data types a table supports and for both page sizes; without a column it
    returns the number of rows of the whole table. *)
Theorem table_round_trip sizes s0 sch ops projection ranges :
  let rs := mjoin (table_op_rows <$> ops) in
  sizes_ok sizes → table_keys_only s0 → schema_ok sch → fb_to_schema (schema_to_fb sch) = Some sch → Forall (table_op_ok (table_shape sch)) ops →
  Forall (table_row_ok sch) rs → bufs_fit (enc_fields enc 0 (table_shape sch) rs) → rows_in (Z.of_nat (length rs)) ranges →
  ∃ b, write_then_read sizes s0 sch ops projection ranges = Ok b ∧
    batch_columns b = (λ i, select_opt ranges (row_field i <$> rs)) <$> projected sch projection ∧
    batch_len b = match projected sch projection with [] => length rs | _ => length (select_opt ranges rs) end.
Proof.
  intros rs Hsz Hk0 Hsch Hfb Hops Hok Hfit Hr. pose proof Hsch as (Hne & Hrd & Hn). pose proof Hfit as [Hsm Hit]. unfold write_then_read.
  destruct (table_writer_new_spec id sizes s0 sch Hsz) as (w & -> & Hw); [|done|done|].
  { rewrite forallb_forall in Hrd |- *. intros ty Hty. apply readable_supported. by apply Hrd. }
  cbn [mbind res_bind]. destruct (run_ops (table_shape sch) ops Hops w [] Hw Hsm) as (w1 & E1 & Hw1). rewrite E1. cbn [mbind res_bind].
  cbn [app] in Hw1. destruct (table_finish_spec id schema_to_fb s0 sch w1 _ Hw1 Hit) as (s & -> & Hst & Hfr). cbn [mbind res_bind].
  pose proof (table_keys_kept id id_ok s0 s Hk0 Hfr) as Hkeys.
  destruct (open_table s sch rs Hfb Hsch Hkeys Hst Hfit) as (tb & -> & Hopen). cbn [mbind res_bind]. by eapply read_table_spec.
Qed.
End table.
