(* ===== verification/Builders.v ===== *)
(** * Builders: columns built in memory

    Models crates/array/src/builder: boolean.rs, primitive.rs, binary.rs, fixed_size_binary.rs,
    list.rs, struct.rs, any.rs, table.rs and memory_writer.rs.  A builder takes single values
    through [append], whole slices through its [ArrayWriter] implementation, and gives its
    content away as a slice or as an arrow array.

    The primitive variants of [AnyBuilder] are [AnyPrimitive]; the type parameter of a
    [PrimitiveBuilder] is its field [pb_type].  Capacities are hints and are left out. *)

From S2P Require Import Prelude Bytes Bits Offsets TableRead Slices TableWrite TableArray.

Definition bad_access {A} : res A := Panic "invalid arrow buffer access".
(** [Result::unwrap], as the infallible constructors of arrow do. *)
Definition unwrap_ {A} (r : res A) : res A :=
  match r with Err _ => Panic "called `Result::unwrap()` on an `Err` value" | _ => r end.

(** ** The parts of a builder *)

Definition bitmask_as_slice (b : BitmaskBuilder) : res BitmaskSlice := bitmask_slice_new (bm_buffer b) 0 (bm_len b).
(** [BooleanBuffer::new] *)
Definition bitmask_finish (b : BitmaskBuilder) : res (list bool) :=
  _ ← assert_ (bm_len b <=? length (bm_buffer b) * 8)%nat "buffer not large enough";
  Ok (take (bm_len b) (bits (bm_buffer b))).

Definition nullmask_as_slice (b : NullmaskBuilder) : res NullmaskSlice :=
  if nm_has_nulls b then
    m ← bitmask_as_slice (nm_nulls b); nullmask_slice_new (bm_len (nm_nulls b)) (Some m)
  else nullmask_slice_new (nm_len b) None.
Definition nullmask_finish (b : NullmaskBuilder) : res (option (list bool)) :=
  if nm_has_nulls b then l ← bitmask_finish (nm_nulls b); Ok (Some l) else Ok None.

(** [MutableBuffer::typed_data] *)
Definition typed_data (width : nat) (data : bytes) : res (list bytes) :=
  _ ← assert_ (length data mod width =? 0)%nat "assertion failed: prefix.is_empty() && suffix.is_empty()";
  Ok (typed width data).
(** [self.values.len() as i32] *)
Definition len_i32 (n : nat) : Z := i32_wrap (Z.of_nat n).

(** ** The constructors of slices *)

Definition boolean_with_nullmask (values : BitmaskSlice) (nulls : NullmaskSlice) : res Slice :=
  _ ← assert_ (bs_len values =? ns_len nulls)%nat "assertion failed: values.len() == nulls.len()";
  Ok (BooleanSlice nulls values).
Definition primitive_slice_new (width : nat) (values : list bytes) (nulls : option BitmaskSlice) : res Slice :=
  n ← nullmask_slice_new (length values) nulls; Ok (PrimitiveSlice n width values).
Definition list_slice_new (offsets : list Z) (values : Slice) (nulls : option BitmaskSlice) : res Slice :=
  end_ ← offset_index offsets (offsets_len offsets);
  _ ← assert_ (end_ <=? slice_len values)%nat "assertion failed: offsets.last_index() <= values.len()";
  n ← nullmask_slice_new (offsets_len offsets) nulls; Ok (ListSlice n offsets values).
Definition fixed_size_list_slice_new (size : nat) (values : Slice) (nulls : option BitmaskSlice) : res Slice :=
  _ ← assert_ (negb (size =? 0)%nat) "attempt to calculate the remainder with a divisor of zero";
  _ ← assert_ (slice_len values mod size =? 0)%nat "assertion failed: values.len() % size == 0";
  n ← nullmask_slice_new (slice_len values / size) nulls; Ok (FixedSizeListSlice size n values).
Definition struct_slice_new (nulls : NullmaskSlice) (columns : list Slice) : res Slice :=
  _ ← assert_ (forallb (λ c, slice_len c =? ns_len nulls)%nat columns) "assertion failed: c.len() == len";
  Ok (AnyStructSlice nulls columns 0 (ns_len nulls)).
(** The bytes of a buffer as a slice of [u8]. *)
Definition byte_slice (data : bytes) : Slice := Native 1 ((λ b, [b]) <$> data).

(** ** The builders *)

Record BooleanBuilder : Type := mkBoolean { bb_nulls : NullmaskBuilder; bb_values : BitmaskBuilder }.
Record PrimitiveBuilder : Type := mkPrimitive { pb_type : PrimitiveType; pb_nulls : NullmaskBuilder; pb_values : bytes }.
Record BinaryBuilder : Type := mkBinary { yb_nulls : NullmaskBuilder; yb_offsets : OffsetsBuilder; yb_values : bytes }.
Record StringBuilder : Type := mkString {
  sb_nulls : NullmaskBuilder; sb_offsets : OffsetsBuilder; sb_values : bytes; sb_validity : option nat }.
Record FixedSizeBinaryBuilder : Type := mkFixed { fb_size : nat; fb_nulls : NullmaskBuilder; fb_values : bytes }.
Record ListBuilder (T : Type) : Type := mkListBuilder {
  lb_nulls : NullmaskBuilder; lb_offsets : OffsetsBuilder; lb_values : T; lb_field : bool * ArrowType }.
Arguments mkListBuilder {T}.
Arguments lb_nulls {T}.
Arguments lb_offsets {T}.
Arguments lb_values {T}.
Arguments lb_field {T}.
Record StructBuilder (T : Type) : Type := mkStructBuilder {
  tb_fields : list (bool * ArrowType); tb_column_offsets : list nat; tb_nulls : NullmaskBuilder; tb_columns : list T }.
Arguments mkStructBuilder {T}.
Arguments tb_fields {T}.
Arguments tb_column_offsets {T}.
Arguments tb_nulls {T}.
Arguments tb_columns {T}.

Inductive AnyBuilder : Type :=
| AnyBoolean (b : BooleanBuilder)
| AnyPrimitive (b : PrimitiveBuilder)
| AnyBinary (b : BinaryBuilder)
| AnyFixedSizeBinary (b : FixedSizeBinaryBuilder)
| AnyString (b : StringBuilder)
| AnyList (b : ListBuilder AnyBuilder)
| AnyStruct (b : StructBuilder AnyBuilder).

(** ** Creation *)

Definition boolean_builder_new : BooleanBuilder := mkBoolean nullmask_new bitmask_new.
Definition primitive_builder_new (p : PrimitiveType) : PrimitiveBuilder := mkPrimitive p nullmask_new [].
Definition binary_builder_new : BinaryBuilder := mkBinary nullmask_new offsets_new [].
Definition string_builder_new : StringBuilder := mkString nullmask_new offsets_new [] None.
Definition fixed_builder_new (size : nat) : FixedSizeBinaryBuilder := mkFixed size nullmask_new [].

(** [data_type] *)
Definition builder_type (b : AnyBuilder) : ArrowType :=
  match b with
  | AnyBoolean _ => Boolean
  | AnyPrimitive b => Primitive (pb_type b)
  | AnyBinary _ => Binary
  | AnyFixedSizeBinary b => FixedSizeBinary (fb_size b)
  | AnyString _ => Utf8
  | AnyList b => ListOf (lb_field b).1 (lb_field b).2
  | AnyStruct b => Struct (tb_fields b)
  end.

(** The field of a list is always nullable. *)
Definition list_builder_new (values : AnyBuilder) : ListBuilder AnyBuilder :=
  mkListBuilder nullmask_new offsets_new values (true, builder_type values).

(** The primitive types [AnyBuilder::new] knows. *)
Definition buildable (p : PrimitiveType) : bool :=
  match p with Float16 | Timestamp Microsecond | Timestamp Nanosecond => false | _ => true end.

Fixpoint any_builder_new (ty : ArrowType) : res AnyBuilder :=
  match ty with
  | Boolean => Ok (AnyBoolean boolean_builder_new)
  | Primitive p => if buildable p then Ok (AnyPrimitive (primitive_builder_new p)) else Panic "unsupported arrow type"
  | Binary => Ok (AnyBinary binary_builder_new)
  | FixedSizeBinary size => Ok (AnyFixedSizeBinary (fixed_builder_new size))
  | Utf8 => Ok (AnyString string_builder_new)
  | ListOf _ item => values ← any_builder_new item; Ok (AnyList (list_builder_new values))
  | Struct fields =>
      column_offsets ← build_field_offsets 1 fields.*2;
      columns ← map_res (λ f, any_builder_new f.2) fields;
      Ok (AnyStruct (mkStructBuilder fields column_offsets nullmask_new columns))
  | FixedSizeListOf _ _ _ | OtherType _ => Panic "unsupported arrow type"
  end.

(** ** Length, size and reset *)

Definition builder_nulls (b : AnyBuilder) : NullmaskBuilder :=
  match b with
  | AnyBoolean b => bb_nulls b
  | AnyPrimitive b => pb_nulls b
  | AnyBinary b => yb_nulls b
  | AnyFixedSizeBinary b => fb_nulls b
  | AnyString b => sb_nulls b
  | AnyList b => lb_nulls b
  | AnyStruct b => tb_nulls b
  end.
(** [len] of every builder is that of its null mask. *)
Definition builder_len (b : AnyBuilder) : nat := nullmask_len (builder_nulls b).

Definition nm_byte_size (b : NullmaskBuilder) : nat := bytes_size (nm_nulls b).
Definition ob_byte_size (b : OffsetsBuilder) : nat := (length (ob_buffer b) * 4)%nat.
Fixpoint builder_byte_size (b : AnyBuilder) : nat :=
  match b with
  | AnyBoolean b => nm_byte_size (bb_nulls b) + bytes_size (bb_values b)
  | AnyPrimitive b => nm_byte_size (pb_nulls b) + length (pb_values b)
  | AnyBinary b => nm_byte_size (yb_nulls b) + ob_byte_size (yb_offsets b) + length (yb_values b)
  | AnyFixedSizeBinary b => nm_byte_size (fb_nulls b) + length (fb_values b)
  | AnyString b => nm_byte_size (sb_nulls b) + ob_byte_size (sb_offsets b) + length (sb_values b)
  | AnyList b => nm_byte_size (lb_nulls b) + ob_byte_size (lb_offsets b) + builder_byte_size (lb_values b)
  | AnyStruct b => nm_byte_size (tb_nulls b) + sum_list_with builder_byte_size (tb_columns b)
  end.

Fixpoint builder_clear (b : AnyBuilder) : AnyBuilder :=
  match b with
  | AnyBoolean b => AnyBoolean (mkBoolean (nullmask_clear (bb_nulls b)) (bitmask_clear (bb_values b)))
  | AnyPrimitive b => AnyPrimitive (mkPrimitive (pb_type b) (nullmask_clear (pb_nulls b)) [])
  | AnyBinary b => AnyBinary (mkBinary (nullmask_clear (yb_nulls b)) (ob_clear (yb_offsets b)) [])
  | AnyFixedSizeBinary b => AnyFixedSizeBinary (mkFixed (fb_size b) (nullmask_clear (fb_nulls b)) [])
  | AnyString b => AnyString (mkString (nullmask_clear (sb_nulls b)) (ob_clear (sb_offsets b)) [] None)
  | AnyList b =>
      AnyList (mkListBuilder (nullmask_clear (lb_nulls b)) (ob_clear (lb_offsets b)) (builder_clear (lb_values b)) (lb_field b))
  | AnyStruct b =>
      AnyStruct (mkStructBuilder (tb_fields b) (tb_column_offsets b) (nullmask_clear (tb_nulls b)) (builder_clear <$> tb_columns b))
  end.

Section builders.
Context `{ArrowBits}.

(** ** Single values *)

Definition boolean_append (val : bool) (b : BooleanBuilder) : res BooleanBuilder :=
  nulls ← nm_append true (bb_nulls b); Ok (mkBoolean nulls (bm_append val (bb_values b))).
Definition boolean_append_option (val : option bool) (b : BooleanBuilder) : res BooleanBuilder :=
  match val with
  | Some val => boolean_append val b
  | None => nulls ← nm_append false (bb_nulls b); Ok (mkBoolean nulls (bm_append false (bb_values b)))
  end.

Definition primitive_append (val : bytes) (b : PrimitiveBuilder) : res PrimitiveBuilder :=
  nulls ← nm_append true (pb_nulls b); Ok (mkPrimitive (pb_type b) nulls (pb_values b ++ val)).
Definition primitive_append_option (val : option bytes) (b : PrimitiveBuilder) : res PrimitiveBuilder :=
  match val with
  | Some val => primitive_append val b
  | None =>
      nulls ← nm_append false (pb_nulls b);
      Ok (mkPrimitive (pb_type b) nulls (pb_values b ++ replicate (byte_width (pb_type b)) 0))
  end.

Definition binary_append (val : bytes) (b : BinaryBuilder) : res BinaryBuilder :=
  let values := yb_values b ++ val in
  nulls ← nm_append true (yb_nulls b);
  offsets ← ob_append (len_i32 (length values)) (yb_offsets b);
  Ok (mkBinary nulls offsets values).
Definition binary_append_null (b : BinaryBuilder) : res BinaryBuilder :=
  nulls ← nm_append false (yb_nulls b);
  offsets ← ob_append (len_i32 (length (yb_values b))) (yb_offsets b);
  Ok (mkBinary nulls offsets (yb_values b)).
Definition binary_append_option (val : option bytes) (b : BinaryBuilder) : res BinaryBuilder :=
  let values := match val with Some val => yb_values b ++ val | None => yb_values b end in
  nulls ← nm_append (match val with Some _ => true | None => false end) (yb_nulls b);
  offsets ← ob_append (len_i32 (length values)) (yb_offsets b);
  Ok (mkBinary nulls offsets values).

Definition string_append (val : bytes) (b : StringBuilder) : res StringBuilder :=
  let values := sb_values b ++ val in
  nulls ← nm_append true (sb_nulls b);
  offsets ← ob_append (len_i32 (length values)) (sb_offsets b);
  Ok (mkString nulls offsets values (sb_validity b)).
Definition string_append_null (b : StringBuilder) : res StringBuilder :=
  nulls ← nm_append false (sb_nulls b);
  offsets ← ob_append (len_i32 (length (sb_values b))) (sb_offsets b);
  Ok (mkString nulls offsets (sb_values b) (sb_validity b)).
Definition string_append_option (val : option bytes) (b : StringBuilder) : res StringBuilder :=
  let values := match val with Some val => sb_values b ++ val | None => sb_values b end in
  nulls ← nm_append (match val with Some _ => true | None => false end) (sb_nulls b);
  offsets ← ob_append (len_i32 (length values)) (sb_offsets b);
  Ok (mkString nulls offsets values (sb_validity b)).
(** [fmt::Write::write_str]: text of the value that the next [append] closes. *)
Definition string_write_str (s : bytes) (b : StringBuilder) : StringBuilder :=
  mkString (sb_nulls b) (sb_offsets b) (sb_values b ++ s) (sb_validity b).
Definition mark_maybe_invalid (b : StringBuilder) : StringBuilder :=
  match sb_validity b with
  | None => mkString (sb_nulls b) (sb_offsets b) (sb_values b) (Some (ob_len (sb_offsets b)))
  | Some _ => b
  end.

Definition fixed_append (val : bytes) (b : FixedSizeBinaryBuilder) : res FixedSizeBinaryBuilder :=
  _ ← assert_ (length val =? fb_size b)%nat "assertion failed: val.len() == self.size";
  nulls ← nm_append true (fb_nulls b);
  Ok (mkFixed (fb_size b) nulls (fb_values b ++ val)).
Definition fixed_append_null (b : FixedSizeBinaryBuilder) : res FixedSizeBinaryBuilder :=
  nulls ← nm_append false (fb_nulls b);
  Ok (mkFixed (fb_size b) nulls (fb_values b ++ replicate (fb_size b) 0)).
Definition fixed_append_option (val : option bytes) (b : FixedSizeBinaryBuilder) : res FixedSizeBinaryBuilder :=
  match val with Some val => fixed_append val b | None => fixed_append_null b end.

(** A list takes the items pushed to [values] since the last call. *)
Definition list_append (b : ListBuilder AnyBuilder) : res (ListBuilder AnyBuilder) :=
  nulls ← nm_append true (lb_nulls b);
  offsets ← ob_append (len_i32 (builder_len (lb_values b))) (lb_offsets b);
  Ok (mkListBuilder nulls offsets (lb_values b) (lb_field b)).
Definition list_append_null (b : ListBuilder AnyBuilder) : res (ListBuilder AnyBuilder) :=
  nulls ← nm_append false (lb_nulls b);
  offsets ← ob_append (len_i32 (builder_len (lb_values b))) (lb_offsets b);
  Ok (mkListBuilder nulls offsets (lb_values b) (lb_field b)).

(** ** Writes of slices *)

Definition boolean_write (buf : nat) (op : buf_op) (b : BooleanBuilder) : res BooleanBuilder :=
  match op, buf with
  | NullmaskOp op, 0%nat => nulls ← bitmask_write op (bb_nulls b); Ok (mkBoolean nulls (bb_values b))
  | BitmaskOp op, 1%nat => values ← bitmask_write op (bb_values b); Ok (mkBoolean (bb_nulls b) values)
  | _, _ => bad_access
  end.
Definition primitive_write (buf : nat) (op : buf_op) (b : PrimitiveBuilder) : res PrimitiveBuilder :=
  match op, buf with
  | NullmaskOp op, 0%nat => nulls ← bitmask_write op (pb_nulls b); Ok (mkPrimitive (pb_type b) nulls (pb_values b))
  | NativeOp op, 1%nat => values ← native_write op (pb_values b); Ok (mkPrimitive (pb_type b) (pb_nulls b) values)
  | _, _ => bad_access
  end.
Definition binary_write (buf : nat) (op : buf_op) (b : BinaryBuilder) : res BinaryBuilder :=
  match op, buf with
  | NullmaskOp op, 0%nat => nulls ← bitmask_write op (yb_nulls b); Ok (mkBinary nulls (yb_offsets b) (yb_values b))
  | OffsetOp op, 1%nat => offsets ← offsets_write op (yb_offsets b); Ok (mkBinary (yb_nulls b) offsets (yb_values b))
  | NativeOp op, 2%nat => values ← native_write op (yb_values b); Ok (mkBinary (yb_nulls b) (yb_offsets b) values)
  | _, _ => bad_access
  end.
Definition string_write (buf : nat) (op : buf_op) (b : StringBuilder) : res StringBuilder :=
  match op, buf with
  | NullmaskOp op, 0%nat =>
      nulls ← bitmask_write op (sb_nulls b); Ok (mkString nulls (sb_offsets b) (sb_values b) (sb_validity b))
  | OffsetOp op, 1%nat =>
      let b := mark_maybe_invalid b in
      offsets ← offsets_write op (sb_offsets b); Ok (mkString (sb_nulls b) offsets (sb_values b) (sb_validity b))
  | NativeOp op, 2%nat =>
      let b := mark_maybe_invalid b in
      values ← native_write op (sb_values b); Ok (mkString (sb_nulls b) (sb_offsets b) values (sb_validity b))
  | _, _ => bad_access
  end.
Definition fixed_write (buf : nat) (op : buf_op) (b : FixedSizeBinaryBuilder) : res FixedSizeBinaryBuilder :=
  match op, buf with
  | NullmaskOp op, 0%nat => nulls ← bitmask_write op (fb_nulls b); Ok (mkFixed (fb_size b) nulls (fb_values b))
  | NativeOp op, 1%nat => values ← native_write op (fb_values b); Ok (mkFixed (fb_size b) (fb_nulls b) values)
  | _, _ => bad_access
  end.

(** A list has the buffers of its items behind its own two. *)
Definition list_write {T} (child : nat → buf_op → T → res T) (buf : nat) (op : buf_op) (b : ListBuilder T)
    : res (ListBuilder T) :=
  match op, buf with
  | NullmaskOp op, 0%nat =>
      nulls ← bitmask_write op (lb_nulls b); Ok (mkListBuilder nulls (lb_offsets b) (lb_values b) (lb_field b))
  | OffsetOp op, 1%nat =>
      offsets ← offsets_write op (lb_offsets b); Ok (mkListBuilder (lb_nulls b) offsets (lb_values b) (lb_field b))
  | _, S (S buf) =>
      values ← child buf op (lb_values b); Ok (mkListBuilder (lb_nulls b) (lb_offsets b) values (lb_field b))
  | _, _ => bad_access
  end.

(** [find_column]: the column that has a buffer, and the position in it. *)
Definition find_column (column_offsets : list nat) (buf : nat) : res (nat * nat) :=
  col ← bisect_offsets (Z.of_nat <$> column_offsets) (Z.of_nat buf);
  match col with
  | Some col => o ← at_ column_offsets col; Ok (col, buf - o)%nat
  | None => bad_access
  end.

(** [f(&mut self.columns[col])] *)
Section at_column.
Context {T : Type} (f : T → res T).
Fixpoint at_column (columns : list T) (col : nat) : res (list T) :=
  match columns, col with
  | [], _ => index_panic
  | c :: columns, O => c ← f c; Ok (c :: columns)
  | c :: columns, S col => columns ← at_column columns col; Ok (c :: columns)
  end.
End at_column.

Definition struct_write {T} (child : nat → buf_op → T → res T) (buf : nat) (op : buf_op) (b : StructBuilder T)
    : res (StructBuilder T) :=
  match op, buf with
  | NullmaskOp op, 0%nat =>
      nulls ← bitmask_write op (tb_nulls b); Ok (mkStructBuilder (tb_fields b) (tb_column_offsets b) nulls (tb_columns b))
  | _, _ =>
      '(col, buf) ← find_column (tb_column_offsets b) buf;
      columns ← at_column (child buf op) (tb_columns b) col;
      Ok (mkStructBuilder (tb_fields b) (tb_column_offsets b) (tb_nulls b) columns)
  end.

Fixpoint any_builder_write (buf : nat) (op : buf_op) (b : AnyBuilder) {struct b} : res AnyBuilder :=
  match b with
  | AnyBoolean b => b ← boolean_write buf op b; Ok (AnyBoolean b)
  | AnyPrimitive b => b ← primitive_write buf op b; Ok (AnyPrimitive b)
  | AnyBinary b => b ← binary_write buf op b; Ok (AnyBinary b)
  | AnyFixedSizeBinary b => b ← fixed_write buf op b; Ok (AnyFixedSizeBinary b)
  | AnyString b => b ← string_write buf op b; Ok (AnyString b)
  | AnyList b => b ← list_write any_builder_write buf op b; Ok (AnyList b)
  | AnyStruct b => b ← struct_write any_builder_write buf op b; Ok (AnyStruct b)
  end.
#[export] Instance any_builder_writer : ArrayWriter AnyBuilder := any_builder_write.

(** ** [as_slice] *)

Definition bitmask_of (b : NullmaskBuilder) : res (option BitmaskSlice) := n ← nullmask_as_slice b; Ok (ns_nulls n).

Fixpoint as_slice (b : AnyBuilder) : res Slice :=
  match b with
  | AnyBoolean b =>
      values ← bitmask_as_slice (bb_values b); nulls ← nullmask_as_slice (bb_nulls b); boolean_with_nullmask values nulls
  | AnyPrimitive b =>
      values ← typed_data (byte_width (pb_type b)) (pb_values b); nulls ← bitmask_of (pb_nulls b);
      primitive_slice_new (byte_width (pb_type b)) values nulls
  | AnyBinary b => nulls ← bitmask_of (yb_nulls b); list_slice_new (ob_buffer (yb_offsets b)) (byte_slice (yb_values b)) nulls
  | AnyFixedSizeBinary b => nulls ← bitmask_of (fb_nulls b); fixed_size_list_slice_new (fb_size b) (byte_slice (fb_values b)) nulls
  | AnyString b => nulls ← bitmask_of (sb_nulls b); list_slice_new (ob_buffer (sb_offsets b)) (byte_slice (sb_values b)) nulls
  | AnyList b =>
      values ← as_slice (lb_values b); nulls ← bitmask_of (lb_nulls b);
      list_slice_new (ob_buffer (lb_offsets b)) (ListItem values) nulls
  | AnyStruct b =>
      nulls ← nullmask_as_slice (tb_nulls b); columns ← map_res as_slice (tb_columns b); struct_slice_new nulls columns
  end.

(** ** [finish] *)

Context `{ArrowArrays A B}.

Fixpoint builder_finish (b : AnyBuilder) : res A :=
  match b with
  | AnyBoolean b =>
      values ← bitmask_finish (bb_values b); nulls ← nullmask_finish (bb_nulls b); boolean_array_new values nulls
  | AnyPrimitive b =>
      nulls ← nullmask_finish (pb_nulls b);
      unwrap_ (primitive_array_try_new (pb_type b) (typed (byte_width (pb_type b)) (pb_values b)) nulls)
  | AnyBinary b =>
      nulls ← nullmask_finish (yb_nulls b); unwrap_ (binary_array_try_new (ob_buffer (yb_offsets b)) (yb_values b) nulls)
  | AnyFixedSizeBinary b =>
      nulls ← nullmask_finish (fb_nulls b); unwrap_ (fixed_size_binary_array_try_new (fb_size b) (fb_values b) nulls)
  | AnyString b =>
      nulls ← nullmask_finish (sb_nulls b); unwrap_ (string_array_try_new (ob_buffer (sb_offsets b)) (sb_values b) nulls)
  | AnyList b =>
      values ← builder_finish (lb_values b); nulls ← nullmask_finish (lb_nulls b);
      unwrap_ (list_array_try_new (lb_field b) (ob_buffer (lb_offsets b)) values nulls)
  | AnyStruct b =>
      columns ← map_res builder_finish (tb_columns b); nulls ← nullmask_finish (tb_nulls b);
      unwrap_ (struct_array_try_new (tb_fields b) columns nulls)
  end.

(** ** AnyTableBuilder *)

Record AnyTableBuilder : Type := mkTableBuilder {
  at_schema : schema; at_column_offsets : list nat; at_columns : list AnyBuilder }.

Definition table_builder_new (sch : schema) : res AnyTableBuilder :=
  column_offsets ← build_field_offsets 0 (column_types sch);
  columns ← map_res any_builder_new (column_types sch);
  Ok (mkTableBuilder sch column_offsets columns).
Definition table_builder_finish (t : AnyTableBuilder) : res B :=
  columns ← map_res builder_finish (at_columns t); unwrap_ (record_batch_try_new (at_schema t) columns).
Definition table_builder_clear (t : AnyTableBuilder) : AnyTableBuilder :=
  mkTableBuilder (at_schema t) (at_column_offsets t) (builder_clear <$> at_columns t).
#[export] Instance table_builder_writer : ArrayWriter AnyTableBuilder := λ buf op t,
  '(col, buf) ← find_column (at_column_offsets t) buf;
  columns ← at_column (any_builder_write buf op) (at_columns t) col;
  Ok (mkTableBuilder (at_schema t) (at_column_offsets t) columns).
Definition table_builder_slice (t : AnyTableBuilder) : res AnyTableSlice :=
  columns ← map_res as_slice (at_columns t); table_slice_new columns.
End builders.
