(* ===== verification/BuildersSpec.v ===== *)
(** * BuildersSpec: builders as array writers

    A builder of a data type holds the contents of its buffers ([holds]); every operation of
    the writer interface appends to the buffer it names and leaves the other ones alone, so the
    writes of slices apply to builders ([any_builder_laws], [table_builder_laws]). *)
From S2P Require Import Prelude Ranges Bytes Bits Offsets PagesSpec TableRead TableReadSpec Slices SliceSpec SliceWrite TableWrite TableArray TableRoundtrip Builders.

(** ** The column of a buffer *)

(** A search over strictly increasing offsets finds the part that has the index. *)
Lemma bisect_offsets_loop_spec offsets idx fuel : ∀ beg end_, (end_ - beg < fuel)%nat → (beg < end_)%nat →
  (∀ i j x y, (i < j)%nat → offsets !! i = Some x → offsets !! j = Some y → x < y) →
  (∃ b, offsets !! beg = Some b ∧ b <= idx) → (∃ e, offsets !! end_ = Some e ∧ idx < e) →
  ∃ i x y, bisect_offsets_loop fuel offsets idx beg end_ = Ok (Some i) ∧ offsets !! i = Some x ∧ offsets !! S i = Some y ∧ x <= idx < y.
Proof.
  induction fuel as [|fuel IH]; intros beg end_ Hf Hlt Hinc (b & Hb & Hle) (e & He & Hgt); [lia|]. cbn [bisect_offsets_loop].
  destruct (1 <? end_ - beg)%nat eqn:E.
  - apply Nat.ltb_lt in E. set (mid := (beg + (end_ - beg) / 2)%nat).
    assert (beg < mid < end_)%nat as Hmid.
    { pose proof (Nat.div_lt (end_ - beg) 2 ltac:(lia) ltac:(lia)). assert (1 <= (end_ - beg) / 2)%nat by (apply Nat.div_le_lower_bound; lia). unfold mid. lia. }
    destruct (lookup_lt_is_Some_2 offsets mid) as [m Hm]; [apply lookup_lt_Some in He; lia|].
    unfold at_. rewrite Hm. cbn [mbind res_bind]. destruct (Z.compare_spec m idx) as [-> |Hc|Hc].
    + destruct (lookup_lt_is_Some_2 offsets (S mid)) as [y Hy]; [apply lookup_lt_Some in He; lia|].
      exists mid, idx, y. split; [done|]. split; [done|]. split; [done|]. split; [lia|]. eapply (Hinc mid (S mid)); [lia|done|done].
    + apply (IH mid end_); [lia|lia|done|exists m; split; [done|lia]|by exists e].
    + apply (IH beg mid); [lia|lia|done|by exists b|by exists m].
  - apply Nat.ltb_ge in E. assert (end_ = S beg) as -> by lia. unfold at_. rewrite Hb. cbn [mbind res_bind].
    rewrite (proj2 (Z.leb_le _ _)) by done. rewrite He. cbn [mbind res_bind]. rewrite (proj2 (Z.ltb_lt _ _)) by done. by exists beg, b, e.
Qed.

Lemma sum_take_lt lens i j : Forall (λ n, 0 < n)%nat lens → (i < j <= length lens)%nat → (sum_list (take i lens) < sum_list (take j lens))%nat.
Proof.
  intros Hl Hij. replace j with (i + (j - i))%nat by lia. rewrite <-take_take_drop, sum_list_with_app.
  destruct (drop i lens) as [|n l] eqn:E; [apply (f_equal length) in E; rewrite length_drop in E; cbn in E; lia|].
  destruct (j - i)%nat as [|k] eqn:Ek; [lia|]. assert (0 < n)%nat; [|cbn; lia].
  apply (Forall_drop _ i) in Hl. rewrite E in Hl. by apply Forall_cons in Hl as [? _].
Qed.

Lemma find_column_spec base lens i k n : Forall (λ n, 0 < n)%nat lens → lens !! i = Some n → (k < n)%nat →
  find_column (build_offsets base lens) (base + sum_list (take i lens) + k) = Ok (i, k).
Proof.
  intros Hpos Hi Hk. pose proof (lookup_lt_Some _ _ _ Hi) as Hlt. unfold find_column.
  set (offs := Z.of_nat <$> build_offsets base lens). set (idx := Z.of_nat (base + sum_list (take i lens) + k)).
  assert (∀ j, (j <= length lens)%nat → offs !! j = Some (Z.of_nat (base + sum_list (take j lens)))) as Hl.
  { intros j Hj. unfold offs. by rewrite list_lookup_fmap, build_offsets_lookup by done. }
  assert (length offs = S (length lens)) as Elen by (unfold offs; by rewrite length_fmap, build_offsets_length).
  assert (sum_list (take (S i) lens) = sum_list (take i lens) + n)%nat as Esum by (rewrite (take_S_r _ _ _ Hi), sum_list_with_app; cbn; lia).
  assert (sum_list (take (S i) lens) <= sum_list lens)%nat as Hle by (rewrite <-(take_drop (S i) lens) at 2; rewrite sum_list_with_app; lia).
  destruct (bisect_offsets_loop_spec offs idx (length offs) 0 (length offs - 1)) as (i' & x & y & E & Hx & Hy & Hxy); [lia|lia|..].
  { intros a b x y Hab Ha Hb. pose proof (lookup_lt_Some _ _ _ Hb). rewrite Hl in Ha, Hb by lia. simplify_eq.
    pose proof (sum_take_lt lens a b Hpos). lia. }
  { eexists. split; [apply Hl; lia|]. rewrite take_0. change (sum_list []) with 0%nat. unfold idx. lia. }
  { eexists. split; [apply Hl; lia|]. rewrite Elen. replace (S (length lens) - 1)%nat with (length lens) by lia. rewrite take_ge by done. unfold idx. lia. }
  assert (bisect_offsets offs idx = Ok (Some i')) as ->.
  { unfold bisect_offsets. destruct offs; [cbn in Elen; lia|done]. }
  cbn [mbind res_bind]. pose proof (lookup_lt_Some _ _ _ Hy). rewrite Hl in Hx, Hy by lia. simplify_eq. unfold idx in *.
  assert (i' = i) as ->.
  { destruct (Nat.lt_trichotomy i' i) as [Hc|[Hc|Hc]]; [exfalso| done |exfalso].
    - pose proof (sum_take_lt lens (S i') i Hpos) as Hs. destruct (decide (S i' = i)) as [<-|]; lia.
    - pose proof (sum_take_lt lens (S i) i' Hpos) as Hs. destruct (decide (S i = i')) as [<-|]; lia. }
  unfold at_. rewrite build_offsets_lookup by lia. cbn [mbind res_bind]. do 2 f_equal. lia.
Qed.

(** ** What a builder holds *)

(** The type of the array that is built: the items of a list are always nullable. *)
Fixpoint built_type (ty : ArrowType) : ArrowType :=
  match ty with ListOf _ item => ListOf true (built_type item) | _ => ty end.

Section holds.
Definition null_holds (n : NullmaskBuilder) (b : buf) : Prop := ∃ l, b = NullBuf l ∧ nullmask_repr n l.
Definition bit_holds (v : BitmaskBuilder) (b : buf) : Prop := ∃ l, b = BitBuf l ∧ bitmask_repr v l.
Definition native_holds (width : nat) (v : bytes) (b : buf) : Prop :=
  ∃ items, b = NativeBuf width items ∧ v = mjoin items ∧ Forall (λ x, length x = width) items.
Definition offset_holds (o : OffsetsBuilder) (b : buf) : Prop := ∃ lens, b = OffsetBuf lens ∧ offsets_repr [] o lens.

Section columns.
Context (holds : ArrowType → AnyBuilder → list buf → Prop).
Fixpoint columns_hold (fields : list (bool * ArrowType)) (columns : list AnyBuilder) (parts : list (list buf)) : Prop :=
  match fields, columns, parts with
  | [], [], [] => True
  | f :: fields, c :: columns, p :: parts => holds f.2 c p ∧ columns_hold fields columns parts
  | _, _, _ => False
  end.
End columns.

Fixpoint holds (ty : ArrowType) (b : AnyBuilder) (bufs : list buf) : Prop :=
  match ty, b, bufs with
  | Boolean, AnyBoolean b, [x; y] => null_holds (bb_nulls b) x ∧ bit_holds (bb_values b) y
  | Primitive p, AnyPrimitive b, [x; y] =>
      pb_type b = p ∧ buildable p = true ∧ null_holds (pb_nulls b) x ∧ native_holds (byte_width p) (pb_values b) y
  | Binary, AnyBinary b, [x; y; z] => null_holds (yb_nulls b) x ∧ offset_holds (yb_offsets b) y ∧ native_holds 1 (yb_values b) z
  | Utf8, AnyString b, [x; y; z] => null_holds (sb_nulls b) x ∧ offset_holds (sb_offsets b) y ∧ native_holds 1 (sb_values b) z
  | FixedSizeBinary size, AnyFixedSizeBinary b, [x; y] => fb_size b = size ∧ null_holds (fb_nulls b) x ∧ native_holds 1 (fb_values b) y
  | ListOf _ item, AnyList b, x :: y :: bufs =>
      lb_field b = (true, built_type item) ∧ null_holds (lb_nulls b) x ∧ offset_holds (lb_offsets b) y ∧ holds item (lb_values b) bufs
  | Struct fields, AnyStruct b, x :: bufs =>
      tb_fields b = fields ∧ null_holds (tb_nulls b) x ∧
      ∃ parts, bufs = mjoin parts ∧ columns_hold holds fields (tb_columns b) parts ∧ tb_column_offsets b = build_offsets 1 (length <$> parts)
  | _, _, _ => False
  end.

Lemma columns_hold_Forall3 fields columns parts :
  columns_hold holds fields columns parts ↔ Forall3 (λ f c p, holds f.2 c p) fields columns parts.
Proof.
  revert columns parts; induction fields as [|f fields IH]; intros [|c columns] [|p parts]; cbn; try (by split; [done|inversion 1]).
  - split; constructor.
  - rewrite IH. split; [by intros [? ?]; constructor|]. inversion 1. done.
Qed.

Lemma holds_ne ty b bufs : holds ty b bufs → (0 < length bufs)%nat.
Proof. destruct ty, b, bufs; cbn; try done; intros; lia. Qed.
End holds.

(** ** Writes *)

Section laws.
Context `{ArrowBitsLaws}.

Lemma null_step n x x' op : null_holds n x → buf_op_ok op x → buf_add op x = Some x' →
  ∃ bop n', op = NullmaskOp bop ∧ bitmask_write bop n = Ok n' ∧ null_holds n' x'.
Proof.
  intros (l & -> & Hn) Hok Ha. destruct op as [bop| | |]; try done. cbn in Ha, Hok. simplify_eq.
  destruct (bitmask_write_spec n l bop Hn Hok) as (n' & E & Hn'). exists bop, n'. split; [done|]. split; [done|]. by eexists.
Qed.
Lemma bit_step v x x' op : bit_holds v x → buf_op_ok op x → buf_add op x = Some x' →
  ∃ bop v', op = BitmaskOp bop ∧ bitmask_write bop v = Ok v' ∧ bit_holds v' x'.
Proof.
  intros (l & -> & Hn) Hok Ha. destruct op as [|bop| |]; try done. cbn in Ha, Hok. simplify_eq.
  destruct (bitmask_write_spec v l bop Hn Hok) as (v' & E & Hv'). exists bop, v'. split; [done|]. split; [done|]. by eexists.
Qed.
Lemma native_step w v x x' op : native_holds w v x → buf_op_ok op x → buf_add op x = Some x' →
  ∃ nop v', op = NativeOp nop ∧ native_write nop v = Ok v' ∧ native_holds w v' x'.
Proof.
  intros (items & -> & -> & Hi) Hok Ha. destruct op as [| |nop|]; try done. cbn in Ha, Hok. simplify_eq.
  eexists nop, _. split; [done|]. split; [by apply (mutable_buffer_spec w)|]. eexists. split; [done|]. rewrite join_app. split; [done|].
  apply Forall_app. split; [done|]. by apply op_items_size.
Qed.
Lemma offset_step o x x' op : offset_holds o x → buf_op_ok op x → buf_add op x = Some x' → buf_small x' →
  ∃ oop o', op = OffsetOp oop ∧ offsets_write oop o = Ok o' ∧ offset_holds o' x'.
Proof.
  intros (lens & -> & Ho) Hok Ha Hs. destruct op as [| | |oop]; try done. cbn in Ha, Hok. simplify_eq. cbn in Hs.
  destruct (offsets_write_spec o lens oop Ho Hok Hs) as (o' & E & Ho'). exists oop, o'. split; [done|]. split; [done|]. by eexists.
Qed.

(** A write of a builder of type [ty] appends to the named buffer. *)
Definition writes (ty : ArrowType) : Prop := ∀ b pre x x' post op, holds ty b (pre ++ x :: post) → buf_op_ok op x →
  buf_add op x = Some x' → buf_small x' → ∃ b', any_builder_write (length pre) op b = Ok b' ∧ holds ty b' (pre ++ x' :: post).

Lemma join_middle {A} (parts : list (list A)) : ∀ pre x post, mjoin parts = pre ++ x :: post →
  ∃ i p q, parts !! i = Some (p ++ x :: q) ∧ pre = mjoin (take i parts) ++ p ∧ post = q ++ mjoin (drop (S i) parts).
Proof.
  induction parts as [|part parts IH]; intros pre x post E; [by destruct pre|]. rewrite join_cons in E.
  apply app_eq_app in E as (k & [[-> E]|[-> E]]).
  - destruct k as [|y k].
    + destruct (IH [] x post) as (i & p & q & Hi & Hpre & Hpost); [by rewrite app_nil_l in E |- *|].
      exists (S i), p, q. split; [done|]. cbn [take]. rewrite join_cons, !app_nil_r, <-app_assoc, <-Hpre. by rewrite app_nil_r.
    + cbn in E. simplify_eq. exists 0%nat, pre, k. split; [done|]. split; [done|]. done.
  - destruct (IH k x post E) as (i & p & q & Hi & -> & ->). exists (S i), p, q. split; [done|]. split; [|done].
    cbn [take]. by rewrite join_cons, app_assoc.
Qed.
Lemma lengths_sum {A} (parts : list (list A)) : sum_list (length <$> parts) = length (mjoin parts).
Proof. induction parts as [|p parts IH]; [done|]. rewrite join_cons, length_app, fmap_cons. cbn in *. lia. Qed.

Lemma at_column_spec {T} (f : T → res T) columns col c c' : columns !! col = Some c → f c = Ok c' →
  at_column f columns col = Ok (<[col:=c']> columns).
Proof.
  revert col; induction columns as [|d columns IH]; intros [|col] Hc Hf; simplify_eq/=; [by rewrite Hf|].
  by rewrite (IH col).
Qed.

Lemma Forall3_insert_part {X} (P : X → AnyBuilder → list buf → Prop) fields columns parts i c p :
  Forall3 P fields columns parts → (∀ f, fields !! i = Some f → P f c p) → Forall3 P fields (<[i:=c]> columns) (<[i:=p]> parts).
Proof.
  intros HF. revert i; induction HF as [|f d q fields columns parts Hd HF IH]; intros i Hi; [constructor|].
  destruct i as [|i]; cbn; constructor; auto.
Qed.

(** The columns of a struct or a table: the write goes to the column that has the buffer. *)
Lemma column_step fields columns parts base pre x x' post op : Forall (λ f : bool * ArrowType, writes f.2) fields →
  columns_hold holds fields columns parts → mjoin parts = pre ++ x :: post → buf_op_ok op x → buf_add op x = Some x' → buf_small x' →
  ∃ col k columns' parts', find_column (build_offsets base (length <$> parts)) (base + length pre) = Ok (col, k) ∧
    at_column (any_builder_write k op) columns col = Ok columns' ∧ columns_hold holds fields columns' parts' ∧
    mjoin parts' = pre ++ x' :: post ∧ length <$> parts' = length <$> parts.
Proof.
  intros Hw Hc%columns_hold_Forall3 E Hok Ha Hs. destruct (join_middle _ _ _ _ E) as (i & p & q & Hi & -> & ->).
  destruct (Forall3_lookup_r _ _ _ _ _ _ Hc Hi) as (f & c & Hf & Hci & Hh).
  destruct ((Forall_lookup_1 _ _ _ _ Hw Hf) c p x x' q op Hh Hok Ha Hs) as (c' & Ec & Hh').
  exists i, (length p), (<[i:=c']> columns), (<[i:=p ++ x' :: q]> parts).
  split; [|split; [by eapply at_column_spec|split; [|split]]].
  - rewrite length_app, <-lengths_sum, fmap_take, Nat.add_assoc. apply (find_column_spec _ _ _ _ (length (p ++ x :: q))).
    + apply Forall_fmap, Forall_forall. intros r (j & Hj)%list_elem_of_lookup. cbn.
      destruct (Forall3_lookup_r _ _ _ _ _ _ Hc Hj) as (? & ? & _ & _ & Hr). by eapply holds_ne.
    + by rewrite list_lookup_fmap, Hi.
    + rewrite length_app. cbn. lia.
  - apply columns_hold_Forall3. apply Forall3_insert_part; [done|]. intros f' Hf'. by simplify_eq.
  - rewrite (insert_take_drop _ _ _ (lookup_lt_Some _ _ _ Hi)), join_app, join_cons, <-!app_assoc. done.
  - rewrite list_fmap_insert. apply list_insert_id. rewrite list_lookup_fmap, Hi. cbn. by rewrite !length_app.
Qed.


Lemma list_write_child k op b : list_write any_builder_write (S (S k)) op b =
  (values ← any_builder_write k op (lb_values b); Ok (mkListBuilder (lb_nulls b) (lb_offsets b) values (lb_field b))).
Proof. by destruct op. Qed.
Lemma struct_write_child k op b : struct_write any_builder_write (S k) op b =
  ('(col, buf) ← find_column (tb_column_offsets b) (S k);
   columns ← at_column (any_builder_write buf op) (tb_columns b) col;
   Ok (mkStructBuilder (tb_fields b) (tb_column_offsets b) (tb_nulls b) columns)).
Proof. by destruct op. Qed.

Lemma boolean_writes : writes Boolean.
Proof.
  intros b pre x x' post op Hh Hok Ha Hs. destruct b as [b| | | | | |]; try done. cbn [holds] in Hh.
  destruct pre as [|y [|z pre]]; cbn [app length] in *; [| |by destruct pre].
  - destruct post as [|y [|]]; try done. destruct Hh as [Hn Hv]. destruct (null_step _ _ _ _ Hn Hok Ha) as (bop & n' & -> & E & Hn').
    cbn [any_builder_write boolean_write mbind res_bind]. rewrite E. cbn [mbind res_bind]. by eexists.
  - destruct post; try done. destruct Hh as [Hn Hv]. destruct (bit_step _ _ _ _ Hv Hok Ha) as (bop & v' & -> & E & Hv').
    cbn [any_builder_write boolean_write mbind res_bind]. rewrite E. cbn [mbind res_bind]. by eexists.
Qed.
Lemma primitive_writes p : writes (Primitive p).
Proof.
  intros b pre x x' post op Hh Hok Ha Hs. destruct b as [|b| | | | |]; try done. cbn [holds] in Hh.
  destruct pre as [|y [|z pre]]; cbn [app length] in *; [| |by destruct pre].
  - destruct post as [|y [|]]; try done. destruct Hh as (Ht & Hp & Hn & Hv). destruct (null_step _ _ _ _ Hn Hok Ha) as (bop & n' & -> & E & Hn').
    cbn [any_builder_write primitive_write mbind res_bind]. rewrite E. cbn [mbind res_bind]. by eexists.
  - destruct post; try done. destruct Hh as (Ht & Hp & Hn & Hv). destruct (native_step _ _ _ _ _ Hv Hok Ha) as (bop & v' & -> & E & Hv').
    cbn [any_builder_write primitive_write mbind res_bind]. rewrite E. cbn [mbind res_bind]. by eexists.
Qed.
Lemma fixed_writes size : writes (FixedSizeBinary size).
Proof.
  intros b pre x x' post op Hh Hok Ha Hs. destruct b as [| | |b| | |]; try done. cbn [holds] in Hh.
  destruct pre as [|y [|z pre]]; cbn [app length] in *; [| |by destruct pre].
  - destruct post as [|y [|]]; try done. destruct Hh as (Ht & Hn & Hv). destruct (null_step _ _ _ _ Hn Hok Ha) as (bop & n' & -> & E & Hn').
    cbn [any_builder_write fixed_write mbind res_bind]. rewrite E. cbn [mbind res_bind]. by eexists.
  - destruct post; try done. destruct Hh as (Ht & Hn & Hv). destruct (native_step _ _ _ _ _ Hv Hok Ha) as (bop & v' & -> & E & Hv').
    cbn [any_builder_write fixed_write mbind res_bind]. rewrite E. cbn [mbind res_bind]. by eexists.
Qed.
Lemma binary_writes : writes Binary.
Proof.
  intros b pre x x' post op Hh Hok Ha Hs. destruct b as [| |b| | | |]; try done. cbn [holds] in Hh.
  destruct pre as [|y [|z [|z2 pre]]]; cbn [app length] in *; [| | |by destruct pre].
  - destruct post as [|y [|z [|]]]; try done. destruct Hh as (Hn & Ho & Hv). destruct (null_step _ _ _ _ Hn Hok Ha) as (bop & n' & -> & E & Hn').
    cbn [any_builder_write binary_write mbind res_bind]. rewrite E. cbn [mbind res_bind]. by eexists.
  - destruct post as [|z [|]]; try done. destruct Hh as (Hn & Ho & Hv). destruct (offset_step _ _ _ _ Ho Hok Ha Hs) as (oop & o' & -> & E & Ho').
    cbn [any_builder_write binary_write mbind res_bind]. rewrite E. cbn [mbind res_bind]. by eexists.
  - destruct post; try done. destruct Hh as (Hn & Ho & Hv). destruct (native_step _ _ _ _ _ Hv Hok Ha) as (bop & v' & -> & E & Hv').
    cbn [any_builder_write binary_write mbind res_bind]. rewrite E. cbn [mbind res_bind]. by eexists.
Qed.
Lemma string_writes : writes Utf8.
Proof.
  intros b pre x x' post op Hh Hok Ha Hs. destruct b as [| | | |b| |]; try done. cbn [holds] in Hh.
  assert (sb_nulls (mark_maybe_invalid b) = sb_nulls b ∧ sb_offsets (mark_maybe_invalid b) = sb_offsets b ∧ sb_values (mark_maybe_invalid b) = sb_values b)
    as (Em1 & Em2 & Em3) by (unfold mark_maybe_invalid; by destruct (sb_validity b)).
  destruct pre as [|y [|z [|z2 pre]]]; cbn [app length] in *; [| | |by destruct pre].
  - destruct post as [|y [|z [|]]]; try done. destruct Hh as (Hn & Ho & Hv). destruct (null_step _ _ _ _ Hn Hok Ha) as (bop & n' & -> & E & Hn').
    cbn [any_builder_write string_write mbind res_bind]. rewrite E. cbn [mbind res_bind]. by eexists.
  - destruct post as [|z [|]]; try done. destruct Hh as (Hn & Ho & Hv). destruct (offset_step _ _ _ _ Ho Hok Ha Hs) as (oop & o' & -> & E & Ho').
    cbn [any_builder_write string_write mbind res_bind]. rewrite Em1, Em2, Em3, E. cbn [mbind res_bind]. by eexists.
  - destruct post; try done. destruct Hh as (Hn & Ho & Hv). destruct (native_step _ _ _ _ _ Hv Hok Ha) as (bop & v' & -> & E & Hv').
    cbn [any_builder_write string_write mbind res_bind]. rewrite Em1, Em2, Em3, E. cbn [mbind res_bind]. by eexists.
Qed.
Lemma list_writes nullable item : writes item → writes (ListOf nullable item).
Proof.
  intros IH b pre x x' post op Hh Hok Ha Hs. destruct b as [| | | | |b|]; try done. cbn [holds] in Hh.
  destruct pre as [|y [|z pre]]; cbn [app length] in *.
  - destruct post as [|y post]; try done. destruct Hh as (Hf & Hn & Ho & Hv). destruct (null_step _ _ _ _ Hn Hok Ha) as (bop & n' & -> & E & Hn').
    cbn [any_builder_write list_write mbind res_bind]. rewrite E. cbn [mbind res_bind]. by eexists.
  - destruct Hh as (Hf & Hn & Ho & Hv). destruct (offset_step _ _ _ _ Ho Hok Ha Hs) as (oop & o' & -> & E & Ho').
    cbn [any_builder_write list_write mbind res_bind]. rewrite E. cbn [mbind res_bind]. by eexists.
  - destruct Hh as (Hf & Hn & Ho & Hv). destruct (IH _ _ _ _ _ _ Hv Hok Ha Hs) as (v' & E & Hv').
    cbn [any_builder_write]. rewrite list_write_child, E. cbn [mbind res_bind]. by eexists.
Qed.
Lemma struct_writes fields : Forall (λ f, writes f.2) fields → writes (Struct fields).
Proof.
  intros IH b pre x x' post op Hh Hok Ha Hs. destruct b as [| | | | | |b]; try done. cbn [holds] in Hh.
  destruct pre as [|y pre]; cbn [app length] in *.
  - destruct Hh as (Hf & Hn & Hc). destruct (null_step _ _ _ _ Hn Hok Ha) as (bop & n' & -> & E & Hn').
    cbn [any_builder_write struct_write mbind res_bind]. rewrite E. cbn [mbind res_bind]. by eexists.
  - destruct Hh as (Hf & Hn & parts & Ej & Hc & Eo).
    destruct (column_step fields _ parts 1 pre x x' post op IH Hc (eq_sym Ej) Hok Ha Hs) as (col & k & columns' & parts' & E1 & E2 & Hc' & Ej' & El).
    cbn [any_builder_write]. rewrite struct_write_child, Eo. change (S (length pre)) with (1 + length pre)%nat. rewrite E1. cbn [mbind res_bind].
    rewrite E2. cbn [mbind res_bind]. eexists. split; [done|]. cbn [holds]. split; [done|]. split; [done|]. exists parts'. by rewrite El.
Qed.

Lemma any_builder_write_spec ty : writes ty.
Proof.
  induction ty as [|p| | |size|b item IH|n b item IH|fields IH|b] using arrow_nested_ind.
  - apply boolean_writes.
  - apply primitive_writes.
  - apply binary_writes.
  - apply string_writes.
  - apply fixed_writes.
  - by apply list_writes.
  - by intros [].
  - by apply struct_writes.
  - by intros [].
Qed.

#[export] Instance any_builder_laws ty : ArrayWriterLaws AnyBuilder (holds ty).
Proof. intros b pre x x' post op Hh Hok Ha Hs. by apply (any_builder_write_spec ty b pre x). Qed.

(** ** Tables *)

Definition table_holds (sch : schema) (t : AnyTableBuilder) (bufs : list buf) : Prop :=
  at_schema t = sch ∧ ∃ parts, bufs = mjoin parts ∧ columns_hold holds (schema_fields sch) (at_columns t) parts ∧
    at_column_offsets t = build_offsets 0 (length <$> parts).

#[export] Instance table_builder_laws sch : ArrayWriterLaws AnyTableBuilder (table_holds sch).
Proof.
  intros t pre x x' post op (Et & parts & Ej & Hc & Eo) Hok Ha Hs.
  destruct (column_step (schema_fields sch) (at_columns t) parts 0 pre x x' post op) as (col & k & columns' & parts' & E1 & E2 & Hc' & Ej' & El); try done.
  { apply Forall_forall. intros f _. apply any_builder_write_spec. }
  unfold array_write, table_builder_writer. rewrite Eo. cbn [Nat.add] in E1. rewrite E1. cbn [mbind res_bind]. rewrite E2. cbn [mbind res_bind].
  eexists. split; [done|]. split; [done|]. exists parts'. by rewrite El.
Qed.
End laws.

(** ** What a builder gives away

    A builder that holds the encoding of some rows gives them away as a slice and as an arrow
    array; [clear] brings it back to the fresh state; [append] adds one row. *)

(** ** Masks *)

Lemma bitmask_bits b l : bitmask_repr b l → bm_len b = length l ∧ (bm_len b <= length (bm_buffer b) * 8)%nat ∧ take (bm_len b) (bits (bm_buffer b)) = l.
Proof.
  intros [El Eb]. pose proof (bits_length (bm_buffer b)) as Hb. rewrite Eb, length_app in Hb. split; [done|].
  split; [lia|]. by rewrite Eb, El, take_app_length.
Qed.
Lemma bitmask_as_slice_spec b l : bitmask_repr b l → ∃ m, bitmask_as_slice b = Ok m ∧ mask_ok m ∧ bs_len m = length l ∧ mask_bits m = l.
Proof.
  intros Hb. destruct (bitmask_bits _ _ Hb) as (El & Hle & Et). unfold bitmask_as_slice, bitmask_slice_new.
  rewrite (proj2 (Nat.leb_le _ _)) by lia. cbn [assert_ mbind res_bind]. eexists. split; [done|]. unfold mask_ok, mask_bits. cbn [bs_offset bs_len bs_data].
  rewrite bits_length. split; [lia|]. split; [done|]. unfold part. by rewrite drop_0.
Qed.
Lemma bitmask_finish_spec b l : bitmask_repr b l → bitmask_finish b = Ok l.
Proof.
  intros Hb. destruct (bitmask_bits _ _ Hb) as (El & Hle & Et). unfold bitmask_finish. rewrite (proj2 (Nat.leb_le _ _)) by lia.
  cbn [assert_ mbind res_bind]. by rewrite Et.
Qed.

Lemma nullmask_as_slice_spec n l : nullmask_repr n l → ∃ m, nullmask_as_slice n = Ok m ∧ nulls_ok m ∧ ns_len m = length l ∧ nulls_bits m = l ∧
  bitmask_of n = Ok (ns_nulls m) ∧ ∀ k, k = length l → nullmask_slice_new k (ns_nulls m) = Ok m.
Proof.
  unfold nullmask_repr, bitmask_of, nullmask_as_slice. destruct (nm_has_nulls n).
  - intros [_ Hb]. destruct (bitmask_as_slice_spec _ _ Hb) as (m & -> & Hm & El & Em). destruct Hb as [Eb _]. cbn [mbind res_bind nullmask_slice_new].
    rewrite El, Eb, Nat.eqb_refl. cbn [assert_ mbind res_bind]. eexists. split; [done|]. split; [done|]. split; [done|]. split; [done|]. split; [done|].
    intros k ->. cbn [ns_nulls nullmask_slice_new]. by rewrite El, Nat.eqb_refl.
  - intros [-> _]. eexists. split; [done|]. cbn. rewrite length_replicate. split_and!; try done. by intros k ->.
Qed.
Lemma nullmask_finish_rows n l : nullmask_repr n l → ∃ nulls, nullmask_finish n = Ok nulls ∧ nulls_fit (length l) nulls ∧
  ∀ k, k = length l → nulls_or k nulls = l.
Proof.
  unfold nullmask_repr, nullmask_finish. destruct (nm_has_nulls n).
  - intros [_ Hb]. rewrite (bitmask_finish_spec _ _ Hb). cbn [mbind res_bind]. eexists. split; [done|]. split; [by intros ? [= <-]|done].
  - intros [-> _]. eexists. split; [done|]. split; [done|]. intros k ->. cbn. by rewrite length_replicate.
Qed.
Lemma nullmask_len_spec n l : nullmask_repr n l → nullmask_len n = length l.
Proof. unfold nullmask_repr, nullmask_len. destruct (nm_has_nulls n); [by intros [_ [? _]]|intros [-> _]; by rewrite length_replicate]. Qed.

(** The mask of the rows. *)
Lemma null_rows n (rs : list row) : null_holds n (NullBuf (row_valid <$> rs)) → nullmask_repr n (row_valid <$> rs) ∧ length (row_valid <$> rs) = length rs.
Proof. intros (l & [= <-] & Hn). split; [done|apply length_fmap]. Qed.

(** ** Slices *)

Lemma bytes_singletons (data : bytes) : mjoin ((λ b, [b]) <$> data) = data.
Proof. induction data as [|b data IH]; [done|]. rewrite fmap_cons, join_cons, IH. done. Qed.
Lemma byte_slice_spec (items : list row) : Forall is_byte items →
  fits (ShNative 1) (byte_slice (mjoin (row_bytes <$> items))) ∧ rows (byte_slice (mjoin (row_bytes <$> items))) = items ∧
  slice_len (byte_slice (mjoin (row_bytes <$> items))) = length items.
Proof.
  intros Hi. unfold byte_slice. cbn [fits rows slice_len]. split.
  - split; [done|]. by apply Forall_fmap, Forall_forall.
  - split; [|by rewrite length_fmap, is_byte_length]. rewrite <-list_fmap_compose. by apply byte_rows_items.
Qed.

Lemma list_slice_spec lens values m : total lens <= i32_max → total lens <= Z.of_nat (slice_len values) → nulls_ok m → ns_len m = length lens →
  (∀ k, k = length lens → nullmask_slice_new k (ns_nulls m) = Ok m) →
  list_slice_new (cumul 0 lens) values (ns_nulls m) = Ok (ListSlice m (cumul 0 lens) values).
Proof.
  intros Ht Hv Hm El Hn. unfold list_slice_new, offsets_len. rewrite cumul_length. replace (S (length lens) - 1)%nat with (length lens) by lia.
  rewrite offset_index_cumul by lia. cbn [mbind res_bind]. rewrite take_ge by done.
  rewrite (proj2 (Nat.leb_le _ _)) by lia. cbn [assert_ mbind res_bind]. by rewrite Hn.
Qed.

(** The type given away: items of lists are nullable, at every depth. *)
Fixpoint nullable_items (ty : ArrowType) : bool :=
  match ty with
  | ListOf nullable item => nullable && nullable_items item
  | Struct fields => forallb (λ f, nullable_items f.2) fields
  | _ => true
  end.
Lemma nullable_built ty : nullable_items ty = true → built_type ty = ty.
Proof.
  induction ty as [|p| | |size|b item IH|n b item IH|fields IH|b] using arrow_nested_ind; try done. cbn. intros [-> Hi]%andb_true_iff.
  by rewrite IH.
Qed.

(** ** The buffers of the columns of a struct *)

Lemma holds_length ty : ∀ b bufs, holds ty b bufs → length bufs = nbufs (shape_of ty).
Proof.
  induction ty as [|p| | |size|nb item IH|n nb item IH|fields IH|nb] using arrow_nested_ind; intros b bufs Hh; destruct b; try done; cbn [holds] in Hh.
  - by destruct bufs as [|x [|y [|]]].
  - by destruct bufs as [|x [|y [|]]].
  - by destruct bufs as [|x [|y [|z [|]]]].
  - by destruct bufs as [|x [|y [|z [|]]]].
  - by destruct bufs as [|x [|y [|]]].
  - destruct bufs as [|x [|y bufs]]; try done. destruct Hh as (_ & _ & _ & Hv). cbn [length shape_of]. rewrite (IH _ _ Hv). unfold nbufs. cbn. done.
  - destruct bufs as [|x bufs]; try done. destruct Hh as (_ & _ & parts & -> & Hc & _). unfold nbufs. cbn [length shape_of enc]. f_equal.
    rewrite enc_fields_nbufs. clear x. revert parts Hc. generalize (tb_columns b) as columns.
    induction IH as [|f fields Hf _ IH']; intros [|c columns] [|p parts] Hc; try done. destruct Hc as [Hc1 Hc2].
    rewrite join_cons, length_app, (Hf _ _ Hc1), (IH' _ _ Hc2). done.
Qed.

(** Every column holds the encoding of its field of the rows. *)
Lemma columns_enc fields : ∀ columns parts k rs, columns_hold holds fields columns parts →
  mjoin parts = enc_fields enc k ((λ f, shape_of f.2) <$> fields) rs →
  Forall2 (λ (jf : nat * (bool * ArrowType)) c, holds jf.2.2 c (enc (shape_of jf.2.2) (row_field jf.1 <$> rs))) (imap (λ j f, ((k + j)%nat, f)) fields) columns.
Proof.
  induction fields as [|f fields IH]; intros [|c columns] [|p parts] k rs Hc E; try done. destruct Hc as [Hc1 Hc2].
  rewrite join_cons in E. cbn [fmap list_fmap enc_fields] in E. apply app_inj_1 in E as [-> E]; [|by rewrite (holds_length _ _ _ Hc1), enc_length].
  cbn [imap]. constructor; [by rewrite Nat.add_0_r|]. specialize (IH columns parts (S k) rs Hc2 E).
  erewrite imap_ext; [exact IH|]. intros j f' _. unfold compose. by rewrite Nat.add_succ_comm.
Qed.

Section columns.
Context {X : Type} (op : AnyBuilder → res X) (Q : ArrowType → X → list row → Prop) (vu : bytes → bool).
(** What [op] gives for a builder of the type. *)
Definition gives (ty : ArrowType) : Prop := ∀ b rs, holds ty b (enc (shape_of ty) rs) → Forall (row_ok vu ty) rs →
  Forall buf_small (enc (shape_of ty) rs) → ∃ x, op b = Ok x ∧ Q ty x rs.

Lemma columns_give fields columns parts rs : Forall (λ f : bool * ArrowType, gives f.2) fields → columns_hold holds fields columns parts →
  mjoin parts = enc_fields enc 0 ((λ f, shape_of f.2) <$> fields) rs → Forall buf_small (mjoin parts) →
  (∀ j f, fields !! j = Some f → Forall (λ r, row_ok vu f.2 (row_field j r)) rs) →
  ∃ xs, map_res op columns = Ok xs ∧ Forall2 (λ jf x, Q jf.2.2 x (row_field jf.1 <$> rs)) (imap (λ j f, (j, f)) fields) xs.
Proof.
  intros Hg Hc E Hs Hok. rewrite E in Hs. pose proof (columns_enc _ _ _ 0 rs Hc E) as H2. cbn [Nat.add] in H2.
  assert (∀ l columns, (∀ jf, jf ∈ l → fields !! jf.1 = Some jf.2 ∧ Forall buf_small (enc (shape_of jf.2.2) (row_field jf.1 <$> rs))) →
    Forall2 (λ (jf : nat * (bool * ArrowType)) c, holds jf.2.2 c (enc (shape_of jf.2.2) (row_field jf.1 <$> rs))) l columns →
    ∃ xs, map_res op columns = Ok xs ∧ Forall2 (λ (jf : nat * (bool * ArrowType)) x, Q jf.2.2 x (row_field jf.1 <$> rs)) l xs) as Hmap.
  { clear columns parts Hc E H2 Hs. intros l columns Hl HF. induction HF as [|[j f] c l columns Hh HF IH]; [exists []; split; [done|constructor]|].
    destruct (Hl (j, f) ltac:(lmem)) as [Hj Hs]. cbn [fst snd] in *.
    destruct ((Forall_lookup_1 _ _ _ _ Hg Hj) c _ Hh) as (x & Ex & Hx); [by apply Forall_fmap, Hok|done|].
    destruct IH as (xs & Exs & Hxs); [intros jf Hin; apply Hl; by constructor|].
    exists (x :: xs). cbn [map_res]. rewrite Ex. cbn [mbind res_bind]. rewrite Exs. split; [done|by constructor]. }
  apply Hmap; [|done]. intros [j f] Hin. apply list_elem_of_lookup in Hin as [i Hi]. rewrite list_lookup_imap in Hi.
  destruct (fields !! i) as [f'|] eqn:Ef; [|done]. cbn in Hi. injection Hi as <- <-. split; [done|]. cbn [fst snd].
  assert (∀ fs k, Forall buf_small (enc_fields enc k fs rs) → ∀ i sh, fs !! i = Some sh → Forall buf_small (enc sh (row_field (k + i) <$> rs))) as Hsm.
  { clear. induction fs as [|sh fs IH]; intros k Hs [|i] sh' Hi; try done; cbn [enc_fields] in Hs; apply Forall_app in Hs as [Hs1 Hs2].
    - cbn in Hi. simplify_eq. by rewrite Nat.add_0_r.
    - rewrite <-Nat.add_succ_comm. by apply IH. }
  apply (Hsm _ 0%nat Hs). by rewrite list_lookup_fmap, Ef.
Qed.
End columns.

(** ** Slices of every type *)

Section slices.
Context (vu : bytes → bool).
Definition is_slice (ty : ArrowType) (s : Slice) (rs : list row) : Prop := fits (shape_of ty) s ∧ rows s = rs ∧ slice_len s = length rs.
Abbreviation slices := (gives as_slice is_slice vu).

Lemma boolean_slices : slices Boolean.
Proof.
  intros b rs Hh Hok _. destruct b; try done. destruct Hh as [[Hn Hl]%null_rows (l & [= <-] & Hv)].
  destruct (bitmask_as_slice_spec _ _ Hv) as (v & Ev & Hvok & Elv & Ebv). destruct (nullmask_as_slice_spec _ _ Hn) as (m & Em & Hm & Elm & Ebm & _).
  cbn [as_slice]. rewrite Ev. cbn [mbind res_bind]. rewrite Em. cbn [mbind res_bind]. unfold boolean_with_nullmask. rewrite length_fmap in Elv, Elm.
  rewrite Elv, Elm, Nat.eqb_refl. cbn [assert_ mbind res_bind]. eexists. split; [done|]. split; [by cbn; rewrite Elv, Elm|]. split; [|done].
  cbn [rows]. rewrite Ebm, Ebv. apply zip_eta. eapply Forall_impl; [exact Hok|]. by intros [].
Qed.
Lemma primitive_slices p : slices (Primitive p).
Proof.
  intros b rs Hh Hok _. destruct b as [|b| | | | |]; try done. destruct Hh as (Et & _ & [Hn Hl]%null_rows & (items & [= <-] & Ev & Hi)).
  destruct (nullmask_as_slice_spec _ _ Hn) as (m & Em & Hm & Elm & Ebm & Eo & Enew). cbn [as_slice]. rewrite Et, Ev. unfold typed_data.
  assert (0 < byte_width p)%nat as Hw by (destruct p; cbn; lia).
  rewrite (join_length (byte_width p)), Nat.Div0.mod_mul by done. cbn [Nat.eqb assert_ mbind res_bind]. rewrite typed_join by done.
  rewrite Eo. cbn [mbind res_bind]. unfold primitive_slice_new. rewrite length_fmap in Elm. rewrite Enew by (by rewrite !length_fmap). cbn [mbind res_bind].
  eexists. split; [done|]. split; [cbn; by rewrite Elm, length_fmap|]. split; [|by cbn; rewrite length_fmap].
  cbn [rows]. rewrite Ebm. apply zip_eta. eapply Forall_impl; [exact Hok|]. by intros [].
Qed.

(** A list slice over the items of the rows. *)
Lemma list_slices n o rs values child item : nullmask_repr n (row_valid <$> rs) → offsets_repr [] o ((λ r, length (row_items r)) <$> rs) →
  total ((λ r, length (row_items r)) <$> rs) <= i32_max → Forall (λ r, ∃ v items, r = RList v items) rs →
  (values = child ∧ (∃ w vs, child = Native w vs) ∨ values = ListItem child) → fits item child → rows child = mjoin (row_items <$> rs) →
  slice_len child = length (mjoin (row_items <$> rs)) →
  ∃ s, (nulls ← bitmask_of n; list_slice_new (ob_buffer o) values nulls) = Ok s ∧ fits (ShList item) s ∧ rows s = rs ∧ slice_len s = length rs.
Proof.
  intros Hn [Eo _] Ht Hl Hv Hf Er El. destruct (nullmask_as_slice_spec _ _ Hn) as (m & Em & Hm & Elm & Ebm & Ebo & Enew). rewrite length_fmap in Elm, Enew.
  rewrite Ebo. cbn [mbind res_bind]. rewrite Eo. change (total []) with 0. set (lens := (λ r, length (row_items r)) <$> rs) in *.
  assert (length lens = length rs) as Ell by apply length_fmap.
  assert (lens = length <$> (row_items <$> rs)) as El2 by (unfold lens; by rewrite <-list_fmap_compose).
  assert (total lens = Z.of_nat (length (mjoin (row_items <$> rs)))) as Etot by (by rewrite El2, total_lengths).
  assert (slice_len values = slice_len child ∧ rows values = rows child) as [Esl Erv] by (destruct Hv as [[-> _]| ->]; done).
  rewrite list_slice_spec; [|done|lia|done|by rewrite Ell|by rewrite Ell]. eexists. split; [done|]. split; [|split].
  - cbn [fits]. split; [done|]. split; [exists 0, lens; rewrite Ell; split_and!; (done || lia)|]. destruct Hv as [[-> (w & vs & ->)]| ->]; done.
  - cbn [rows]. rewrite Ebm, Erv, Er, El2, parts_of_self. apply zip_eta. eapply Forall_impl; [exact Hl|]. by intros r (v & items & ->).
  - done.
Qed.

Lemma binary_like ty rs : (ty = Binary ∨ ty = Utf8) → Forall (row_ok vu ty) rs →
  Forall (λ r, ∃ v items, r = RList v items) rs ∧ Forall is_byte (mjoin (row_items <$> rs)).
Proof.
  intros Hty Hok. split.
  - eapply Forall_impl; [exact Hok|]. intros r Hr. destruct Hty as [-> | ->], r; try done; eauto.
  - apply Forall_join, Forall_fmap. eapply Forall_impl; [exact Hok|]. intros r Hr. destruct Hty as [-> | ->], r; try done; by destruct Hr.
Qed.
Lemma binary_slices : slices Binary.
Proof.
  intros b rs Hh Hok Hs. destruct b as [| |b| | | |]; try done. destruct Hh as ([Hn Hl]%null_rows & (lens & [= <-] & Ho) & (items & [= <-] & Ev & _)).
  destruct (binary_like Binary rs ltac:(by left) Hok) as [Hls Hb]. destruct (byte_slice_spec _ Hb) as (Hf & Er & El).
  cbn [shape_of enc] in Hs. apply Forall_cons in Hs as [_ [Ht _]%Forall_cons].
  cbn [as_slice]. rewrite Ev. eapply list_slices; try done. left. split; [done|]. by eexists _, _.
Qed.
Lemma string_slices : slices Utf8.
Proof.
  intros b rs Hh Hok Hs. destruct b as [| | | |b| |]; try done. destruct Hh as ([Hn Hl]%null_rows & (lens & [= <-] & Ho) & (items & [= <-] & Ev & _)).
  destruct (binary_like Utf8 rs ltac:(by right) Hok) as [Hls Hb]. destruct (byte_slice_spec _ Hb) as (Hf & Er & El).
  cbn [shape_of enc] in Hs. apply Forall_cons in Hs as [_ [Ht _]%Forall_cons].
  cbn [as_slice]. rewrite Ev. eapply list_slices; try done. left. split; [done|]. by eexists _, _.
Qed.
Lemma list_of_slices nullable item : slices item → slices (ListOf nullable item).
Proof.
  intros IH b rs Hh Hok Hs. destruct b as [| | | | |b|]; try done. destruct Hh as (_ & [Hn Hl]%null_rows & (lens & [= <-] & Ho) & Hv).
  cbn [shape_of enc] in Hs. apply Forall_cons in Hs as [_ [Ht Hs]%Forall_cons].
  assert (Forall (λ r, ∃ v items, r = RList v items) rs) as Hls by (eapply Forall_impl; [exact Hok|]; intros [] ?; try done; eauto).
  destruct (IH _ _ Hv) as (child & Ec & Hf & Er & El); [|done|].
  { apply Forall_join, Forall_fmap. eapply Forall_impl; [exact Hok|]. intros r Hr. destruct r; try done. by apply row_ok_items in Hr as [? _]. }
  cbn [as_slice]. rewrite Ec. cbn [mbind res_bind]. eapply list_slices; try done. by right.
Qed.

(** The items of fixed-size values. *)
Lemma fixed_items size rs : Forall (row_ok vu (FixedSizeBinary size)) rs → Forall (λ r, ∃ v items, r = RList v items) rs ∧
  Forall (λ p, length p = size) (row_items <$> rs) ∧ Forall is_byte (mjoin (row_items <$> rs)) ∧ length (mjoin (row_items <$> rs)) = (length rs * size)%nat.
Proof.
  intros Hok. assert (Forall (λ p, length p = size ∧ Forall is_byte p) (row_items <$> rs)) as Hp.
  { apply Forall_fmap. eapply Forall_impl; [exact Hok|]. intros r Hr. destruct r; try done. by destruct Hr. }
  apply Forall_and in Hp as [Hp Hb]. split; [eapply Forall_impl; [exact Hok|]; intros [] ?; try done; eauto|]. split; [done|].
  split; [by apply Forall_join|]. rewrite (join_length size) by done. by rewrite length_fmap.
Qed.
Lemma fixed_slices size : (0 < size)%nat → slices (FixedSizeBinary size).
Proof.
  intros Hsz b rs Hh Hok Hs. destruct b as [| | |b| | |]; try done. destruct Hh as (Es & [Hn Hl]%null_rows & (items & [= <-] & Ev & _)).
  destruct (fixed_items _ _ Hok) as (Hls & Hp & Hb & Ej). destruct (byte_slice_spec _ Hb) as (Hf & Er & El).
  destruct (nullmask_as_slice_spec _ _ Hn) as (m & Em & Hm & Elm & Ebm & Ebo & Enew). rewrite length_fmap in Elm, Enew.
  cbn [as_slice]. rewrite Ebo. cbn [mbind res_bind]. rewrite Es, Ev. unfold fixed_size_list_slice_new.
  rewrite (proj2 (Nat.eqb_neq size 0)) by lia. cbn [negb assert_ mbind res_bind]. rewrite El, Ej, Nat.Div0.mod_mul, Nat.div_mul by lia. cbn [Nat.eqb assert_ mbind res_bind].
  rewrite Enew by done. cbn [mbind res_bind]. eexists. split; [done|]. split; [|split; [|done]].
  - destruct Hf as [_ Hw]. unfold byte_slice in *. cbn [fits shape_of]. cbn [slice_len] in El. split_and!; try done. by rewrite Elm, El, Ej.
  - cbn [rows]. rewrite Ebm, Er, Elm. replace (length rs) with (length (row_items <$> rs)) by apply length_fmap. rewrite chunks_of_self by done.
    apply zip_eta. eapply Forall_impl; [exact Hls|]. by intros r (v & its & ->).
Qed.

Lemma struct_rows_all nulls (columns : list Slice) : part 0 (length (nulls_bits nulls)) (struct_rows nulls columns) = struct_rows nulls columns.
Proof. unfold struct_rows. rewrite <-(length_imap (λ i v, RStruct v ((λ c, nth i (rows c) (RItem [])) <$> columns)) (nulls_bits nulls)). apply part_all. Qed.

(** The rows of a struct from the rows of its columns. *)
Lemma struct_rows_from nulls columns (fields : list (bool * ArrowType)) (rs : list row) : nulls_bits nulls = row_valid <$> rs →
  Forall (λ r, ∃ v values, r = RStruct v values ∧ length values = length fields) rs →
  Forall2 (λ (jf : nat * (bool * ArrowType)) c, rows c = row_field jf.1 <$> rs) (imap (λ j f, (j, f)) fields) columns → struct_rows nulls columns = rs.
Proof.
  intros Hn Hok HF. pose proof (struct_rows_eq fields rs (Some (row_valid <$> rs)) (rows <$> columns) Hok eq_refl) as E. unfold struct_rows_of in E.
  unfold struct_rows. rewrite Hn. cbn in E. etrans; [|apply E].
  - apply imap_ext. intros i v _. by rewrite <-list_fmap_compose.
  - apply list_eq. intros j. rewrite list_lookup_fmap, list_lookup_imap. pose proof (Forall2_length _ _ _ HF) as El. rewrite length_imap in El.
    destruct (fields !! j) as [f|] eqn:Ef.
    + destruct (lookup_lt_is_Some_2 columns j) as [c Hc]; [rewrite <-El; by eapply lookup_lt_Some|]. rewrite Hc. cbn. f_equal.
      assert (imap (λ j f, (j, f)) fields !! j = Some (j, f)) as Hj by (by rewrite list_lookup_imap, Ef).
      by apply (Forall2_lookup_lr _ _ _ _ _ _ HF Hj Hc).
    + apply lookup_ge_None in Ef. rewrite (lookup_ge_None_2 columns) by lia. done.
Qed.

Lemma struct_rows_ok fields rs : Forall (row_ok vu (Struct fields)) rs → Forall (λ r, ∃ v values, r = RStruct v values ∧ fields_ok (row_ok vu) v fields values) rs.
Proof. intros Hok. eapply Forall_impl; [exact Hok|]. intros r Hr. destruct r; try done. eauto. Qed.
Lemma struct_rows_lengths v fields rs : Forall (λ r, ∃ v' values, r = RStruct v' values ∧ fields_ok (row_ok vu) (v v') fields values) rs →
  Forall (λ r, ∃ v values, r = RStruct v values ∧ length values = length fields) rs.
Proof.
  intros Hst. eapply Forall_impl; [exact Hst|]. intros r (v' & values & -> & Hv). exists v', values. split; [done|].
  apply fields_ok_lookup in Hv. symmetry. by eapply Forall2_length.
Qed.

Lemma slice_columns (fields : list (bool * ArrowType)) xs rs n :
  Forall2 (λ (jf : nat * (bool * ArrowType)) x, is_slice jf.2.2 x (row_field jf.1 <$> rs)) (imap (λ j f, (j, f)) fields) xs → n = length rs →
  forallb (λ c, slice_len c =? n)%nat xs = true ∧ Forall (λ c, slice_len c = n) xs ∧ Forall2 fits ((λ f, shape_of f.2) <$> fields) xs ∧
  Forall2 (λ (jf : nat * (bool * ArrowType)) c, rows c = row_field jf.1 <$> rs) (imap (λ j f, (j, f)) fields) xs.
Proof.
  intros HF ->. assert (Forall (λ c, slice_len c = length rs) xs) as Hl.
  { apply Forall_forall. intros x (i & Hi)%list_elem_of_lookup. destruct (Forall2_lookup_r _ _ _ _ _ HF Hi) as ([j f] & _ & _ & _ & El).
    rewrite El. apply length_fmap. }
  split; [|split; [done|split]].
  - apply forallb_forall. intros x Hx%list_elem_of_In. rewrite Forall_forall in Hl. by apply Nat.eqb_eq, Hl.
  - rewrite <-(imap_pair_snd fields) at 1. rewrite <-list_fmap_compose. apply Forall2_fmap_l.
    eapply Forall2_impl; [exact HF|]. by intros [j f] x (Hx & _).
  - eapply Forall2_impl; [exact HF|]. by intros [j f] x (_ & Hx & _).
Qed.

Lemma struct_slices fields : Forall (λ f, slices f.2) fields → slices (Struct fields).
Proof.
  intros IH b rs Hh Hok Hs. destruct b as [| | | | | |b]; try done. destruct Hh as (_ & [Hn Hl]%null_rows & parts & Ej & Hc & _).
  cbn [shape_of enc] in Hs. apply Forall_cons in Hs as [_ Hs]. rewrite Ej in Hs. pose proof (struct_rows_ok _ _ Hok) as Hst.
  destruct (columns_give as_slice is_slice vu fields (tb_columns b) parts rs IH Hc (eq_sym Ej) Hs) as (xs & Exs & HF).
  { intros j f Hj. eapply Forall_impl; [exact Hst|]. intros r (v & values & -> & Hv). by apply struct_row_field with fields. }
  destruct (nullmask_as_slice_spec _ _ Hn) as (m & Em & Hm & Elm & Ebm & _). rewrite length_fmap in Elm.
  destruct (slice_columns _ _ _ (ns_len m) HF Elm) as (Hb & Hlen & Hfit & Hrows).
  cbn [as_slice]. rewrite Em. cbn [mbind res_bind]. rewrite Exs. cbn [mbind res_bind]. unfold struct_slice_new. rewrite Hb. cbn [assert_ mbind res_bind].
  eexists. split; [done|]. split; [|split; [|done]].
  - cbn [fits shape_of]. rewrite fits_fields_lookup. split_and!; try done.
  - cbn [rows]. fold (struct_rows m xs). replace (ns_len m) with (length (nulls_bits m)) by (by rewrite Ebm, length_fmap). rewrite struct_rows_all.
    apply (struct_rows_from m xs fields); [done| |done]. by apply (struct_rows_lengths (λ v, v)).
Qed.

(** A builder as a slice: the slice is well-formed and denotes the rows. *)
Lemma as_slice_spec ty : readable ty = true → slices ty.
Proof.
  induction ty as [|p| | |size|b item IH|n b item IH|fields IH|b] using arrow_nested_ind; intros Hrd; try done.
  - apply boolean_slices.
  - apply primitive_slices.
  - apply binary_slices.
  - apply string_slices.
  - apply fixed_slices. by apply Nat.ltb_lt.
  - by apply list_of_slices, IH.
  - cbn [readable] in Hrd. apply andb_true_iff in Hrd as [_ Hrd]. rewrite forallb_forall in Hrd. apply struct_slices.
    rewrite Forall_forall in IH |- *. intros f Hf. apply IH; [done|]. apply Hrd. by apply list_elem_of_In.
Qed.
End slices.
