(* ===== verification/BuildersProps.v ===== *)
(** * BuildersProps: builders and tables in memory

    A builder finishes as the arrow array of its rows; a table builder that received any writes
    of table slices gives exactly the rows written, as a slice and as a record batch; [append]
    adds one row. *)

From S2P Require Import Prelude Bytes Ranges Bits Offsets PagesSpec TableRead TableReadSpec Slices SliceSpec SliceWrite TableWrite TableArray TableRoundtrip Builders BuildersSpec.

(** ** Fresh and cleared builders *)

(** The types [AnyBuilder::new] accepts. *)
Fixpoint buildable_type (ty : ArrowType) : bool :=
  match ty with
  | Boolean | Binary | Utf8 | FixedSizeBinary _ => true
  | Primitive p => buildable p
  | ListOf _ item => buildable_type item
  | Struct fields => forallb (λ f, buildable_type f.2) fields
  | FixedSizeListOf _ _ _ | OtherType _ => false
  end.
Lemma buildable_supported ty : buildable_type ty = true → supported ty = true.
Proof.
  induction ty as [|p| | |size|b item IH|n b item IH|fields IH|b] using arrow_nested_ind; try done. cbn.
  rewrite !forallb_forall. rewrite Forall_forall in IH. intros Hf f Hin. apply IH; [by apply list_elem_of_In|by apply Hf].
Qed.

Lemma null_fresh : null_holds nullmask_new (NullBuf []).
Proof. by exists []. Qed.
Lemma native_fresh w : native_holds w [] (NativeBuf w []).
Proof. by exists []. Qed.
Lemma offset_fresh : offset_holds offsets_new (OffsetBuf []).
Proof. by exists []. Qed.

Lemma map_num_buffers_built fields : Forall (λ f : bool * ArrowType, buildable_type f.2 = true) fields →
  map_res get_num_buffers fields.*2 = Ok (nbufs <$> ((λ f, shape_of f.2) <$> fields)).
Proof.
  induction 1 as [|f fields Hf _ IH]; [done|]. rewrite !fmap_cons. cbn [map_res]. rewrite get_num_buffers_spec by by apply buildable_supported.
  cbn [mbind res_bind]. by rewrite IH.
Qed.

Definition fresh (ty : ArrowType) : Prop := ∃ b, any_builder_new ty = Ok b ∧ holds ty b (enc (shape_of ty) []) ∧ builder_type b = built_type ty.
Lemma columns_fresh (fields : list (bool * ArrowType)) : Forall (λ f, fresh f.2) fields → ∀ k, ∃ columns parts,
  map_res any_builder_new fields.*2 = Ok columns ∧ columns_hold holds fields columns parts ∧
  mjoin parts = enc_fields enc k ((λ f, shape_of f.2) <$> fields) [] ∧ length <$> parts = nbufs <$> ((λ f, shape_of f.2) <$> fields).
Proof.
  induction 1 as [|f fields (b & Eb & Hb & _) _ IH]; intros k; [by exists [], []|]. destruct (IH (S k)) as (columns & parts & Ec & Hc & Ej & El).
  exists (b :: columns), (enc (shape_of f.2) [] :: parts). rewrite !fmap_cons. cbn [map_res enc_fields]. rewrite Eb. cbn [mbind res_bind].
  rewrite Ec. split; [done|]. split; [done|]. rewrite join_cons, Ej. split; [done|]. f_equal. exact El.
Qed.
Lemma map_res_fmap {A B C} (f : B → res C) (g : A → B) l : map_res f (g <$> l) = map_res (λ x, f (g x)) l.
Proof. induction l as [|x l IH]; [done|]. rewrite fmap_cons. cbn [map_res]. by rewrite IH. Qed.

Lemma any_builder_new_spec ty : buildable_type ty = true → fresh ty.
Proof.
  induction ty as [|p| | |size|nb item IH|n nb item IH|fields IH|nb] using arrow_nested_ind; intros Hb; try done; unfold fresh; cbn [any_builder_new].
  - eexists. split; [done|]. split; [|done]. split; [apply null_fresh|]. by exists [].
  - cbn in Hb. rewrite Hb. eexists. split; [done|]. split; [|done]. cbn. split_and!; try done; [apply null_fresh|apply native_fresh].
  - eexists. split; [done|]. split; [|done]. split_and!; [apply null_fresh|apply offset_fresh|apply native_fresh].
  - eexists. split; [done|]. split; [|done]. split_and!; [apply null_fresh|apply offset_fresh|apply native_fresh].
  - eexists. split; [done|]. split; [|done]. split_and!; [done|apply null_fresh|apply native_fresh].
  - destruct (IH Hb) as (v & -> & Hv & Et). cbn [mbind res_bind]. eexists. split; [done|]. split; [|cbn; by rewrite Et].
    cbn. rewrite Et. split_and!; [done|apply null_fresh|apply offset_fresh|done].
  - cbn in Hb. rewrite forallb_forall in Hb. assert (Forall (λ f : bool * ArrowType, buildable_type f.2 = true) fields) as Hbf.
    { apply Forall_forall. intros f Hin. apply Hb. by apply list_elem_of_In. }
    destruct (columns_fresh fields) with (k := 0%nat) as (columns & parts & Ec & Hc & Ej & El).
    { rewrite Forall_forall in IH, Hbf |- *. intros f Hin. by apply IH; [|apply Hbf]. }
    unfold build_field_offsets. rewrite map_num_buffers_built by done. cbn [mbind res_bind]. rewrite <-map_res_fmap.
    change ((λ f : bool * ArrowType, f.2) <$> fields) with fields.*2. rewrite Ec. cbn [mbind res_bind]. eexists. split; [done|]. split; [|done].
    cbn. split; [done|]. split; [apply null_fresh|]. exists parts. rewrite El. by rewrite Ej.
Qed.

Lemma columns_clear (fields : list (bool * ArrowType)) : Forall (λ f, ∀ b bufs, holds f.2 b bufs → any_builder_new f.2 = Ok (builder_clear b)) fields →
  ∀ columns parts, columns_hold holds fields columns parts → map_res any_builder_new fields.*2 = Ok (builder_clear <$> columns) ∧ length <$> parts = nbufs <$> ((λ f, shape_of f.2) <$> fields).
Proof.
  induction 1 as [|f fields Hf _ IH]; intros [|c columns] [|p parts] Hc; try done. destruct Hc as [Hc1 Hc2]. destruct (IH _ _ Hc2) as [E1 E2].
  rewrite !fmap_cons. cbn [map_res]. rewrite (Hf _ _ Hc1). cbn [mbind res_bind]. rewrite E1. cbn [mbind res_bind]. split; [done|]. by rewrite (holds_length _ _ _ Hc1), E2.
Qed.
(** [clear] gives the builder [new] would make. *)
Lemma clear_fresh ty : buildable_type ty = true → ∀ b bufs, holds ty b bufs → any_builder_new ty = Ok (builder_clear b).
Proof.
  induction ty as [|p| | |size|nb item IH|n nb item IH|fields IH|nb] using arrow_nested_ind; intros Hb b bufs Hh; destruct b as [b|b|b|b|b|b|b]; try done; cbn [holds] in Hh.
  - destruct bufs as [|x [|y [|]]]; try done. destruct Hh as (Ep & Hp & _). cbn [any_builder_new]. rewrite Hp. by rewrite <-Ep.
  - destruct bufs as [|x [|y [|]]]; try done. by destruct Hh as (<- & _).
  - destruct bufs as [|x [|y bufs]]; try done. destruct Hh as (Ef & _ & _ & Hv). cbn [any_builder_new]. cbn in Hb.
    destruct (any_builder_new_spec item Hb) as (v & Ev & _ & Et). pose proof (IH Hb _ _ Hv) as Ec. rewrite Ec in Ev. injection Ev as Ev.
    rewrite Ec. cbn [mbind res_bind builder_clear]. unfold list_builder_new. by rewrite Ev, Et, <-Ef, <-Ev.
  - destruct bufs as [|x bufs]; try done. destruct Hh as (Ef & _ & parts & -> & Hc & Eo). cbn in Hb. rewrite forallb_forall in Hb.
    assert (Forall (λ f : bool * ArrowType, buildable_type f.2 = true) fields) as Hbf.
    { apply Forall_forall. intros f Hin. apply Hb. by apply list_elem_of_In. }
    destruct (columns_clear fields) with (columns := tb_columns b) (parts := parts) as [Ec El]; [|done|].
    { rewrite Forall_forall in IH, Hbf |- *. intros f Hin. apply IH; [done|by apply Hbf]. }
    cbn [any_builder_new]. unfold build_field_offsets. rewrite map_num_buffers_built by done. cbn [mbind res_bind]. rewrite <-map_res_fmap.
    change ((λ f : bool * ArrowType, f.2) <$> fields) with fields.*2. rewrite Ec. cbn [mbind res_bind builder_clear].
    by rewrite Ef, Eo, El.
Qed.

(** ** Arrays *)

Section arrays.
Context `{ArrowArraysLaws A B valid_utf8 array_type array_rows batch_columns batch_len}.
Abbreviation row_ok := (row_ok valid_utf8).
Definition is_array (ty : ArrowType) (a : A) (rs : list row) : Prop := array_type a = ty ∧ array_rows a = rs.
Abbreviation finishes := (gives builder_finish is_array valid_utf8).

Lemma boolean_finishes : finishes Boolean.
Proof.
  intros b rs Hh Hok _. destruct b; try done. destruct Hh as [[Hn Hl]%null_rows (l & [= <-] & Hv)].
  destruct (nullmask_finish_rows _ _ Hn) as (nulls & En & Hfit & Ho). rewrite length_fmap in Hfit. cbn [builder_finish].
  rewrite (bitmask_finish_spec _ _ Hv). cbn [mbind res_bind]. rewrite En. cbn [mbind res_bind].
  destruct (boolean_array_spec (row_bool <$> rs) nulls) as (a & Ea & Et & Er); [by rewrite length_fmap|]. exists a. split; [done|]. split; [done|].
  rewrite Er. unfold bool_rows. rewrite Ho by (by rewrite !length_fmap). apply zip_eta. eapply Forall_impl; [exact Hok|]. by intros [].
Qed.
Lemma primitive_finishes p : finishes (Primitive p).
Proof.
  intros b rs Hh Hok _. destruct b as [|b| | | | |]; try done. destruct Hh as (Et & _ & [Hn Hl]%null_rows & (items & [= <-] & Ev & Hi)).
  destruct (nullmask_finish_rows _ _ Hn) as (nulls & En & Hfit & Ho). rewrite length_fmap in Hfit. cbn [builder_finish].
  rewrite En. cbn [mbind res_bind]. rewrite Et, Ev, typed_join by (done || destruct p; cbn; lia).
  destruct (primitive_array_spec p (row_bytes <$> rs) nulls) as (a & -> & Eat & Er); [by rewrite length_fmap|done|]. exists a. split; [done|]. split; [done|].
  rewrite Er. unfold prim_rows. rewrite Ho by (by rewrite !length_fmap). apply zip_eta. eapply Forall_impl; [exact Hok|]. by intros [].
Qed.

(** What the constructors of list arrays are given. *)
Lemma list_parts n o rs : nullmask_repr n (row_valid <$> rs) → offsets_repr [] o ((λ r, length (row_items r)) <$> rs) →
  Forall (λ r, ∃ v items, r = RList v items) rs → ∃ nulls, nullmask_finish n = Ok nulls ∧ nulls_fit (length (length <$> (row_items <$> rs))) nulls ∧
    ob_buffer o = cumul 0 (length <$> (row_items <$> rs)) ∧ list_rows_of (row_items <$> rs) nulls = rs.
Proof.
  intros Hn [Eo _] Hl. destruct (nullmask_finish_rows _ _ Hn) as (nulls & En & Hfit & Ho). rewrite length_fmap in Hfit. exists nulls. split; [done|].
  rewrite !length_fmap. split; [done|]. split; [rewrite Eo; by rewrite <-list_fmap_compose|].
  unfold list_rows_of. rewrite Ho by (by rewrite !length_fmap). apply zip_eta. eapply Forall_impl; [exact Hl|]. by intros r (v & items & ->).
Qed.
Lemma small_total rs : total ((λ r, length (row_items r)) <$> rs) <= i32_max → total (length <$> (row_items <$> rs)) <= i32_max.
Proof. by rewrite <-list_fmap_compose. Qed.

Lemma binary_finishes : finishes Binary.
Proof.
  intros b rs Hh Hok Hs. destruct b as [| |b| | | |]; try done. destruct Hh as ([Hn Hl]%null_rows & (lens & [= <-] & Ho) & (items & [= <-] & Ev & _)).
  destruct (binary_like valid_utf8 Binary rs ltac:(by left) Hok) as [Hls Hb]. cbn [shape_of enc] in Hs. apply Forall_cons in Hs as [_ [Ht%small_total _]%Forall_cons].
  destruct (list_parts _ _ _ Hn Ho Hls) as (nulls & En & Hfit & Eo & Erows). cbn [builder_finish]. rewrite En. cbn [mbind res_bind]. rewrite Eo, Ev.
  destruct (binary_array_spec (length <$> (row_items <$> rs)) (mjoin (row_bytes <$> mjoin (row_items <$> rs))) nulls) as (a & -> & Et & Er); [done|by rewrite total_lengths, is_byte_length|done|].
  exists a. split; [done|]. split; [done|]. by rewrite Er, byte_rows_items, parts_of_self.
Qed.
Lemma string_finishes : finishes Utf8.
Proof.
  intros b rs Hh Hok Hs. destruct b as [| | | |b| |]; try done. destruct Hh as ([Hn Hl]%null_rows & (lens & [= <-] & Ho) & (items & [= <-] & Ev & _)).
  destruct (binary_like valid_utf8 Utf8 rs ltac:(by right) Hok) as [Hls Hb]. cbn [shape_of enc] in Hs. apply Forall_cons in Hs as [_ [Ht%small_total _]%Forall_cons].
  destruct (list_parts _ _ _ Hn Ho Hls) as (nulls & En & Hfit & Eo & Erows). cbn [builder_finish]. rewrite En. cbn [mbind res_bind]. rewrite Eo, Ev.
  destruct (string_array_spec (length <$> (row_items <$> rs)) (mjoin (row_bytes <$> mjoin (row_items <$> rs))) nulls) as (a & -> & Et & Er); [done|by rewrite total_lengths, is_byte_length|done|..].
  { assert (length <$> (row_items <$> rs) = length <$> ((λ p : list row, mjoin (row_bytes <$> p)) <$> (row_items <$> rs))) as ->.
    { rewrite <-!list_fmap_compose. apply list_fmap_ext. intros i r Hi. cbn. pose proof (Forall_lookup_1 _ _ _ _ Hok Hi) as Hr. destruct r; try done.
      destruct Hr as [Hr _]. symmetry. by apply is_byte_length. }
    rewrite join_bytes, parts_of_self, <-list_fmap_compose. apply Forall_fmap. eapply Forall_impl; [exact Hok|]. intros r Hr. destruct r; try done. by destruct Hr. }
  exists a. split; [done|]. split; [done|]. by rewrite Er, byte_rows_items, parts_of_self.
Qed.
Lemma fixed_finishes size : (0 < size)%nat → finishes (FixedSizeBinary size).
Proof.
  intros Hsz b rs Hh Hok Hs. destruct b as [| | |b| | |]; try done. destruct Hh as (Es & [Hn Hl]%null_rows & (items & [= <-] & Ev & _)).
  destruct (fixed_items valid_utf8 _ _ Hok) as (Hls & Hp & Hb & Ej). destruct (nullmask_finish_rows _ _ Hn) as (nulls & En & Hfit & Ho). rewrite length_fmap in Hfit.
  cbn [builder_finish]. rewrite En. cbn [mbind res_bind]. rewrite Es, Ev.
  destruct (fixed_array_spec size (length rs) (mjoin (row_bytes <$> mjoin (row_items <$> rs))) nulls) as (a & -> & Et & Er); [done|done|by rewrite is_byte_length|].
  exists a. split; [done|]. split; [done|]. rewrite Er, byte_rows_items by done. replace (length rs) with (length (row_items <$> rs)) by apply length_fmap.
  rewrite chunks_of_self by done. unfold list_rows_of. rewrite Ho by (by rewrite !length_fmap). apply zip_eta. eapply Forall_impl; [exact Hls|]. by intros r (v & its & ->).
Qed.
Lemma list_of_finishes item : nullable_items item = true → finishes item → finishes (ListOf true item).
Proof.
  intros Hni IH b rs Hh Hok Hs. destruct b as [| | | | |b|]; try done. destruct Hh as (Ef & [Hn Hl]%null_rows & (lens & [= <-] & Ho) & Hv).
  cbn [shape_of enc] in Hs. apply Forall_cons in Hs as [_ [Ht%small_total Hs]%Forall_cons].
  assert (Forall (λ r, ∃ v items, r = RList v items) rs) as Hls by (eapply Forall_impl; [exact Hok|]; intros [] ?; try done; eauto).
  destruct (IH _ _ Hv) as (child & Ec & Et & Er); [|done|].
  { apply Forall_join, Forall_fmap. eapply Forall_impl; [exact Hok|]. intros r Hr. destruct r; try done. by apply row_ok_items in Hr as [? _]. }
  destruct (list_parts _ _ _ Hn Ho Hls) as (nulls & En & Hfit & Eo & Erows). cbn [builder_finish]. rewrite Ec. cbn [mbind res_bind]. rewrite En. cbn [mbind res_bind].
  rewrite Eo, Ef, nullable_built by done.
  destruct (list_array_spec (true, item) (length <$> (row_items <$> rs)) child nulls) as (a & -> & Eat & Ear); [done|by rewrite total_lengths, Er|done|done|done|].
  exists a. split; [done|]. split; [done|]. by rewrite Ear, Er, parts_of_self.
Qed.

Lemma array_columns (fields : list (bool * ArrowType)) xs rs :
  Forall2 (λ (jf : nat * (bool * ArrowType)) x, is_array jf.2.2 x (row_field jf.1 <$> rs)) (imap (λ j f, (j, f)) fields) xs →
  Forall2 (λ f x, array_type x = f.2 ∧ length (array_rows x) = length rs) fields xs ∧ array_rows <$> xs = imap (λ j (_ : bool * ArrowType), row_field j <$> rs) fields.
Proof.
  intros HF. split.
  - rewrite <-(imap_pair_snd fields). apply Forall2_fmap_l. eapply Forall2_impl; [exact HF|]. intros [j f] x [Ht Hr]. split; [done|]. rewrite Hr. apply length_fmap.
  - assert (imap (λ j (_ : bool * ArrowType), row_field j <$> rs) fields = (λ jf : nat * (bool * ArrowType), row_field jf.1 <$> rs) <$> imap (λ j f, (j, f)) fields) as ->.
    { rewrite fmap_imap. by apply imap_ext. }
    induction HF as [|jf x l xs [_ Hr] _ IH]; [done|]. rewrite !fmap_cons, Hr. f_equal. exact IH.
Qed.

Lemma struct_finishes fields : fields ≠ [] → Forall (λ f, finishes f.2) fields → finishes (Struct fields).
Proof.
  intros Hne IH b rs Hh Hok Hs. destruct b as [| | | | | |b]; try done. destruct Hh as (Ef & [Hn Hl]%null_rows & parts & Ej & Hc & _).
  cbn [shape_of enc] in Hs. apply Forall_cons in Hs as [_ Hs]. rewrite Ej in Hs. pose proof (struct_rows_ok _ _ _ Hok) as Hst.
  destruct (columns_give builder_finish is_array valid_utf8 fields (tb_columns b) parts rs IH Hc (eq_sym Ej) Hs) as (xs & Exs & HF).
  { intros j f Hj. eapply Forall_impl; [exact Hst|]. intros r (v & values & -> & Hv). by apply struct_row_field with fields. }
  destruct (array_columns _ _ _ HF) as [H2 Erows]. destruct (nullmask_finish_rows _ _ Hn) as (nulls & En & Hfit & Ho). rewrite length_fmap in Hfit.
  cbn [builder_finish]. rewrite Exs. cbn [mbind res_bind]. rewrite En. cbn [mbind res_bind]. rewrite Ef.
  assert (struct_rows_of (length rs) (array_rows <$> xs) nulls = rs) as Eq.
  { apply (struct_rows_eq fields); [by apply (struct_rows_lengths valid_utf8 (λ v, v))|by apply Ho; rewrite length_fmap|done]. }
  destruct (struct_array_spec fields xs nulls (length rs)) as (a & -> & Et & Er); [done|done|done|..].
  - rewrite Eq. eapply Forall_impl; [exact Hst|]. intros r (v & values & -> & Hv) k f Hk Hnn Hva. by eapply (struct_row_field valid_utf8 fields v values k f).
  - exists a. split; [done|]. split; [done|]. by rewrite Er.
Qed.

Lemma builder_finish_spec ty : readable ty = true → nullable_items ty = true → finishes ty.
Proof.
  induction ty as [|p| | |size|b item IH|n b item IH|fields IH|b] using arrow_nested_ind; intros Hrd Hni; try done.
  - apply boolean_finishes.
  - apply primitive_finishes.
  - apply binary_finishes.
  - apply string_finishes.
  - apply fixed_finishes. by apply Nat.ltb_lt.
  - cbn in Hni. apply andb_true_iff in Hni as [-> Hni]. by apply list_of_finishes, IH.
  - cbn [readable] in Hrd. apply andb_true_iff in Hrd as [Hne Hrd]. cbn in Hni. rewrite forallb_forall in Hrd, Hni.
    apply struct_finishes; [by intros ->|]. rewrite Forall_forall in IH |- *. intros f Hf.
    apply IH; [done|apply Hrd; by apply list_elem_of_In|apply Hni; by apply list_elem_of_In].
Qed.
End arrays.

(** ** Single values *)

Section appends.
Context `{ArrowBitsLaws}.

Lemma nm_append_spec n l v : nullmask_repr n l → ∃ n', nm_append v n = Ok n' ∧ nullmask_repr n' (l ++ [v]).
Proof.
  intros Hn. unfold nm_append. unfold nullmask_repr in Hn.
  destruct (nm_has_nulls n) eqn:Eh.
  - destruct Hn as [Hin Hb]. eexists. split; [done|]. unfold nullmask_repr. cbn. split; [lmem|]. by apply bm_append_spec.
  - destruct Hn as [-> Hb]. destruct v.
    + eexists. split; [done|]. unfold nullmask_repr. cbn. rewrite Eh. by rewrite replicate_add.
    + destruct (append_many_true _ _ (nm_len n) Hb) as (nulls & E' & Hnulls). unfold init_nulls. rewrite E'. cbn [mbind res_bind nm_nulls nm_len].
      eexists. split; [done|]. unfold nullmask_repr. cbn. split; [lmem|]. by apply bm_append_spec.
Qed.
Lemma ob_append_spec o lens len : offsets_repr [] o lens → total (lens ++ [len]) <= i32_max →
  ∃ o', ob_append (len_i32 (Z.to_nat (total (lens ++ [len])))) o = Ok o' ∧ offsets_repr [] o' (lens ++ [len]).
Proof.
  intros Ho Ht. pose proof (total_nonneg (lens ++ [len])). unfold ob_append, len_i32. rewrite Z2Nat.id, i32_wrap_small by lia.
  pose proof Ho as [_ El]. cbn [app] in El. rewrite El, (proj2 (Z.leb_le _ _)) by (rewrite total_app; pose proof (total_nonneg [len]); lia).
  eexists. split; [done|]. by apply ob_append_one.
Qed.

Lemma builder_len_spec ty b rs : readable ty = true → holds ty b (enc (shape_of ty) rs) → builder_len b = length rs.
Proof.
  intros Hr Hh. assert (null_holds (builder_nulls b) (NullBuf (row_valid <$> rs))) as [Hn El]%null_rows by (destruct ty, b; try done; cbn in Hh; tauto).
  unfold builder_len. by rewrite (nullmask_len_spec _ _ Hn).
Qed.

Lemma null_append n (rs : list row) r : null_holds n (NullBuf (row_valid <$> rs)) →
  ∃ n', nm_append (row_valid r) n = Ok n' ∧ null_holds n' (NullBuf (row_valid <$> rs ++ [r])).
Proof.
  intros [Hn _]%null_rows. destruct (nm_append_spec _ _ (row_valid r) Hn) as (n' & E & Hn'). exists n'. split; [done|]. eexists. split; [done|]. by rewrite fmap_app.
Qed.
Lemma native_append w v items val : native_holds w v (NativeBuf w items) → length val = w → native_holds w (v ++ val) (NativeBuf w (items ++ [val])).
Proof.
  intros (items' & [= <-] & -> & Hi) Hv. eexists. split; [done|]. rewrite join_app, join_one. split; [done|]. apply Forall_app. split; [done|by constructor].
Qed.
Lemma bytes_append v items val : native_holds 1 v (NativeBuf 1 items) → native_holds 1 (v ++ val) (NativeBuf 1 (items ++ (row_bytes <$> byte_rows val))).
Proof.
  intros (items' & [= <-] & -> & Hi). eexists. split; [done|]. unfold byte_rows. rewrite <-list_fmap_compose, join_app.
  split; [by rewrite bytes_singletons|]. apply Forall_app. split; [done|]. by apply Forall_fmap, Forall_forall.
Qed.

(** The row of a value; [default] fills a null. *)
Definition value_row {V} (mk : bool → V → row) (default : V) (val : option V) : row :=
  match val with Some v => mk true v | None => mk false default end.

Lemma boolean_append_option_spec b rs val : holds Boolean (AnyBoolean b) (enc ShBoolean rs) →
  ∃ b', boolean_append_option val b = Ok b' ∧ holds Boolean (AnyBoolean b') (enc ShBoolean (rs ++ [value_row RBool false val])).
Proof.
  intros [Hn (l & [= <-] & Hv)]. destruct (null_append _ _ (value_row RBool false val) Hn) as (n' & E & Hn').
  unfold boolean_append_option, boolean_append. destruct val as [v|]; cbn [value_row row_valid] in *; rewrite E; cbn [mbind res_bind]; (eexists; split; [done|]);
    (split; [done|]); (eexists; split; [done|]); rewrite fmap_app; by apply bm_append_spec.
Qed.
Lemma primitive_append_option_spec b p rs val : holds (Primitive p) (AnyPrimitive b) (enc (ShPrimitive (byte_width p)) rs) →
  (∀ v, val = Some v → length v = byte_width p) →
  ∃ b', primitive_append_option val b = Ok b' ∧
    holds (Primitive p) (AnyPrimitive b') (enc (ShPrimitive (byte_width p)) (rs ++ [value_row RPrim (replicate (byte_width p) 0) val])).
Proof.
  intros (Et & Hp & Hn & Hv) Hl. destruct (null_append _ _ (value_row RPrim (replicate (byte_width p) 0) val) Hn) as (n' & E & Hn').
  unfold primitive_append_option, primitive_append. rewrite Et. destruct val as [v|]; cbn [value_row row_valid] in *; rewrite E; cbn [mbind res_bind]; (eexists; split; [done|]);
    (split; [done|]); (split; [done|]); (split; [done|]); rewrite fmap_app; apply native_append; try done; [by apply Hl|by rewrite length_replicate].
Qed.
Lemma fixed_append_option_spec b size rs val : holds (FixedSizeBinary size) (AnyFixedSizeBinary b) (enc (ShFixed size (ShNative 1)) rs) →
  (∀ v, val = Some v → length v = size) →
  ∃ b', fixed_append_option val b = Ok b' ∧ holds (FixedSizeBinary size) (AnyFixedSizeBinary b')
    (enc (ShFixed size (ShNative 1)) (rs ++ [value_row (λ v d, RList v (byte_rows d)) (replicate size 0) val])).
Proof.
  intros (Et & Hn & Hv) Hl. destruct (null_append _ _ (value_row (λ v d, RList v (byte_rows d)) (replicate size 0) val) Hn) as (n' & E & Hn').
  unfold fixed_append_option, fixed_append, fixed_append_null. rewrite Et.
  destruct val as [v|]; cbn [value_row row_valid] in *; [rewrite (Hl v eq_refl), Nat.eqb_refl; cbn [assert_ mbind res_bind]|]; rewrite E; cbn [mbind res_bind]; (eexists; split; [done|]);
    (split; [done|]); (split; [done|]); rewrite (fmap_app row_items), join_app; cbn [enc]; rewrite fmap_app; cbn [fmap list_fmap row_items]; rewrite join_one; by apply bytes_append.
Qed.

(** The length of the values is that of the items of the rows. *)
Lemma values_length v rs : native_holds 1 v (NativeBuf 1 (row_bytes <$> mjoin (row_items <$> rs))) →
  Z.of_nat (length v) = total ((λ r, length (row_items r)) <$> rs).
Proof.
  intros (items & [= <-] & -> & Hi). rewrite (join_length 1) by done. rewrite length_fmap, (list_fmap_compose row_items length), total_lengths. lia.
Qed.
Lemma total_snoc (rs : list row) r : total ((λ r, length (row_items r)) <$> rs ++ [r]) = total ((λ r, length (row_items r)) <$> rs) + Z.of_nat (length (row_items r)).
Proof. rewrite fmap_app, total_app. unfold total at 2. cbn. lia. Qed.

(** Closing a row of a list whose items are pushed. *)
Lemma offset_append o (rs : list row) r len : offset_holds o (OffsetBuf ((λ r, length (row_items r)) <$> rs)) →
  total ((λ r, length (row_items r)) <$> rs ++ [r]) <= i32_max → Z.of_nat len = total ((λ r, length (row_items r)) <$> rs ++ [r]) →
  ∃ o', ob_append (len_i32 len) o = Ok o' ∧ offset_holds o' (OffsetBuf ((λ r, length (row_items r)) <$> rs ++ [r])).
Proof.
  intros (lens & [= <-] & Ho) Ht Hl. rewrite fmap_app in Ht, Hl. destruct (ob_append_spec o _ _ Ho Ht) as (o' & E & Ho').
  replace len with (Z.to_nat (total (((λ r, length (row_items r)) <$> rs) ++ ((λ r, length (row_items r)) <$> [r])))) by lia.
  exists o'. split; [exact E|]. eexists. split; [done|]. by rewrite fmap_app.
Qed.
Lemma binary_append_option_spec b rs val : holds Binary (AnyBinary b) (enc (ShList (ShNative 1)) rs) →
  let row := value_row (λ v d, RList v (byte_rows d)) [] val in
  total ((λ r, length (row_items r)) <$> rs ++ [row]) <= i32_max →
  ∃ b', binary_append_option val b = Ok b' ∧ holds Binary (AnyBinary b') (enc (ShList (ShNative 1)) (rs ++ [row])).
Proof.
  intros (Hn & Ho & Hv) row Ht. destruct (null_append _ _ row Hn) as (n' & E & Hn'). pose proof (values_length _ _ Hv) as El. unfold binary_append_option.
  assert (∃ values, match val with Some v => yb_values b ++ v | None => yb_values b end = values ∧
    Z.of_nat (length values) = total ((λ r, length (row_items r)) <$> rs ++ [row]) ∧
    native_holds 1 values (NativeBuf 1 (row_bytes <$> mjoin (row_items <$> rs ++ [row])))) as (values & Ev & Hlen & Hv').
  { eexists. split; [done|]. rewrite total_snoc, fmap_app, join_app, fmap_app. cbn [fmap list_fmap]. rewrite join_one. subst row.
    destruct val as [v|]; cbn [value_row row_items].
    - split; [rewrite length_app; unfold byte_rows; rewrite length_fmap; lia|by apply bytes_append].
    - split; [cbn; lia|]. cbn [byte_rows fmap list_fmap]. by rewrite app_nil_r. }
  destruct (offset_append _ _ row (length values) Ho Ht Hlen) as (o' & Eo & Ho').
  assert (match val with Some _ => true | None => false end = row_valid row) as -> by (by destruct val).
  rewrite E, Ev. cbn [mbind res_bind]. rewrite Eo. cbn [mbind res_bind]. by eexists.
Qed.
Lemma string_append_option_spec b rs val : holds Utf8 (AnyString b) (enc (ShList (ShNative 1)) rs) →
  let row := value_row (λ v d, RList v (byte_rows d)) [] val in
  total ((λ r, length (row_items r)) <$> rs ++ [row]) <= i32_max →
  ∃ b', string_append_option val b = Ok b' ∧ holds Utf8 (AnyString b') (enc (ShList (ShNative 1)) (rs ++ [row])).
Proof.
  intros Hh row Ht. destruct (binary_append_option_spec (mkBinary (sb_nulls b) (sb_offsets b) (sb_values b)) rs val Hh Ht) as (b' & E & Hb').
  unfold string_append_option. unfold binary_append_option in E. cbn [yb_nulls yb_offsets yb_values] in E.
  destruct (nm_append _ _) as [n| |]; try done. cbn [mbind res_bind] in *. destruct (ob_append _ _) as [o| |]; try done. cbn [mbind res_bind] in *.
  injection E as <-. by eexists.
Qed.
(** Items that are in the child and not yet in a row. *)
Definition list_holds (nullable : bool) (item : ArrowType) (b : ListBuilder AnyBuilder) (rs pending : list row) : Prop :=
  lb_field b = (true, built_type item) ∧ null_holds (lb_nulls b) (NullBuf (row_valid <$> rs)) ∧
  offset_holds (lb_offsets b) (OffsetBuf ((λ r, length (row_items r)) <$> rs)) ∧ holds item (lb_values b) (enc (shape_of item) (mjoin (row_items <$> rs) ++ pending)).
Lemma list_append_spec (valid : bool) nullable item b rs pending : readable item = true → list_holds nullable item b rs pending →
  total ((λ r, length (row_items r)) <$> rs ++ [RList valid pending]) <= i32_max →
  ∃ b', (if valid then list_append b else list_append_null b) = Ok b' ∧
    holds (ListOf nullable item) (AnyList b') (enc (ShList (shape_of item)) (rs ++ [RList valid pending])).
Proof.
  intros Hr (Ef & Hn & Ho & Hv) Ht. destruct (null_append _ _ (RList valid pending) Hn) as (n' & E & Hn'). cbn [row_valid] in E.
  pose proof (builder_len_spec _ _ _ Hr Hv) as El. destruct (offset_append _ _ (RList valid pending) (builder_len (lb_values b)) Ho Ht) as (o' & Eo & Ho').
  { rewrite El, total_snoc, length_app, Nat2Z.inj_add, (list_fmap_compose row_items length), total_lengths. done. }
  assert (holds item (lb_values b) (enc (shape_of item) (mjoin (row_items <$> rs ++ [RList valid pending])))) as Hv'.
  { rewrite fmap_app, join_app. cbn [fmap list_fmap row_items]. by rewrite join_one. }
  unfold list_append, list_append_null. destruct valid; rewrite E; cbn [mbind res_bind]; rewrite Eo; cbn [mbind res_bind]; by eexists.
Qed.
End appends.

(** ** Columns of single values *)

(** [append_option] of the typed builders. *)
Inductive append_op : Type := AppendBool (val : option bool) | AppendBytes (val : option bytes).
Definition append_run `{ArrowBits} (op : append_op) (b : AnyBuilder) : res AnyBuilder :=
  match op, b with
  | AppendBool val, AnyBoolean b => b ← boolean_append_option val b; Ok (AnyBoolean b)
  | AppendBytes val, AnyPrimitive b => b ← primitive_append_option val b; Ok (AnyPrimitive b)
  | AppendBytes val, AnyBinary b => b ← binary_append_option val b; Ok (AnyBinary b)
  | AppendBytes val, AnyString b => b ← string_append_option val b; Ok (AnyString b)
  | AppendBytes val, AnyFixedSizeBinary b => b ← fixed_append_option val b; Ok (AnyFixedSizeBinary b)
  | _, _ => Panic "no such method"
  end.
(** The row a value makes in a column of the type, where the type takes it. *)
Definition append_row (ty : ArrowType) (op : append_op) : option row :=
  match ty, op with
  | Boolean, AppendBool val => Some (value_row RBool false val)
  | Primitive p, AppendBytes val =>
      if from_option (λ v : bytes, length v =? byte_width p)%nat true val then Some (value_row RPrim (replicate (byte_width p) 0) val) else None
  | Binary, AppendBytes val | Utf8, AppendBytes val => Some (value_row (λ v d, RList v (byte_rows d)) [] val)
  | FixedSizeBinary size, AppendBytes val =>
      if from_option (λ v : bytes, length v =? size)%nat true val then Some (value_row (λ v d, RList v (byte_rows d)) (replicate size 0) val) else None
  | _, _ => None
  end.

Section columns.
Context `{ArrowBitsLaws}.

Lemma sized_value (val : option bytes) n : from_option (λ v : bytes, length v =? n)%nat true val = true → ∀ v, val = Some v → length v = n.
Proof. intros Hl v ->. by apply Nat.eqb_eq. Qed.

Lemma append_run_spec ty op r b rs : append_row ty op = Some r → holds ty b (enc (shape_of ty) rs) → Forall buf_small (enc (shape_of ty) (rs ++ [r])) →
  ∃ b', append_run op b = Ok b' ∧ holds ty b' (enc (shape_of ty) (rs ++ [r])).
Proof.
  intros Hrow Hh Hs. destruct ty as [|p| | |size|nb item|n nb item|fields|nb], op as [val|val], b as [b|b|b|b|b|b|b]; try done; cbn [append_row append_run shape_of] in *.
  - simplify_eq. destruct (boolean_append_option_spec b rs val Hh) as (b' & -> & Hb'). by eexists.
  - destruct (from_option _ _ _) eqn:El; [|done]. simplify_eq. destruct (primitive_append_option_spec b p rs val Hh (sized_value _ _ El)) as (b' & -> & Hb'). by eexists.
  - simplify_eq. apply Forall_cons in Hs as [_ [Ht _]%Forall_cons]. destruct (binary_append_option_spec b rs val Hh Ht) as (b' & -> & Hb'). by eexists.
  - simplify_eq. apply Forall_cons in Hs as [_ [Ht _]%Forall_cons]. destruct (string_append_option_spec b rs val Hh Ht) as (b' & -> & Hb'). by eexists.
  - destruct (from_option _ _ _) eqn:El; [|done]. simplify_eq. destruct (fixed_append_option_spec b size rs val Hh (sized_value _ _ El)) as (b' & -> & Hb'). by eexists.
Qed.
Lemma append_all_spec ty ops new : Forall2 (λ op r, append_row ty op = Some r) ops new → ∀ b rs, holds ty b (enc (shape_of ty) rs) →
  Forall buf_small (enc (shape_of ty) (rs ++ new)) → ∃ b', fold_res (λ b op, append_run op b) ops b = Ok b' ∧ holds ty b' (enc (shape_of ty) (rs ++ new)).
Proof.
  induction 1 as [|op r ops new Hop _ IH]; intros b rs Hh Hs; cbn [fold_res]; [exists b; by rewrite app_nil_r|].
  rewrite cons_middle, app_assoc in Hs |- *. destruct (append_run_spec ty op r b rs Hop Hh (enc_small _ _ _ Hs)) as (b1 & -> & Hb1). cbn [mbind res_bind]. by apply IH.
Qed.
End columns.

(** ** Tables in memory *)

Section table.
Context `{ArrowBitsLaws} `{ArrowArraysLaws A B valid_utf8 array_type array_rows batch_columns batch_len}.

Lemma schema_fields_types (sch : schema) : (schema_fields sch).*2 = column_types sch.
Proof. unfold schema_fields, column_types. by rewrite <-list_fmap_compose. Qed.
Lemma schema_fields_shape (sch : schema) : (λ f, shape_of f.2) <$> schema_fields sch = table_shape sch.
Proof. unfold table_shape. by rewrite <-schema_fields_types, <-list_fmap_compose. Qed.
Lemma schema_fields_all (P : ArrowType → bool) (sch : schema) : forallb P (column_types sch) = true → Forall (λ f : bool * ArrowType, P f.2 = true) (schema_fields sch).
Proof.
  rewrite <-schema_fields_types, forallb_forall. intros Hp. apply Forall_forall. intros f Hf. apply Hp, list_elem_of_In. by apply list_elem_of_fmap_2.
Qed.

Lemma table_builder_new_spec sch : forallb buildable_type (column_types sch) = true →
  ∃ t, table_builder_new sch = Ok t ∧ table_holds sch t (enc_fields enc 0 (table_shape sch) []).
Proof.
  intros Hb%schema_fields_all. destruct (columns_fresh (schema_fields sch)) with (k := 0%nat) as (columns & parts & Ec & Hc & Ej & El).
  { eapply Forall_impl; [exact Hb|]. intros f. apply any_builder_new_spec. }
  pose proof (map_num_buffers_built _ Hb) as En. rewrite schema_fields_types in Ec, En. rewrite schema_fields_shape in Ej, El, En.
  unfold table_builder_new, build_field_offsets. rewrite En. cbn [mbind res_bind]. rewrite Ec. cbn [mbind res_bind]. eexists. split; [done|].
  split; [done|]. exists parts. by rewrite El.
Qed.
Lemma table_builder_clear_spec sch t bufs : forallb buildable_type (column_types sch) = true → table_holds sch t bufs →
  table_builder_new sch = Ok (table_builder_clear t).
Proof.
  intros Hb%schema_fields_all (Es & parts & -> & Hc & Eo). destruct (columns_clear (schema_fields sch)) with (columns := at_columns t) (parts := parts) as [Ec El]; [|done|].
  { eapply Forall_impl; [exact Hb|]. intros f Hf. by apply clear_fresh. }
  pose proof (map_num_buffers_built _ Hb) as En. rewrite schema_fields_types in Ec, En. rewrite schema_fields_shape in El, En.
  unfold table_builder_new, build_field_offsets. rewrite En. cbn [mbind res_bind]. rewrite Ec. cbn [mbind res_bind]. unfold table_builder_clear. by rewrite Es, Eo, El.
Qed.

Lemma table_columns_give {X} (op : AnyBuilder → res X) Q sch t rs : (∀ f, f ∈ schema_fields sch → gives op Q valid_utf8 f.2) →
  table_holds sch t (enc_fields enc 0 (table_shape sch) rs) → Forall (table_row_ok (valid_utf8 := valid_utf8) sch) rs → Forall buf_small (enc_fields enc 0 (table_shape sch) rs) →
  ∃ xs, map_res op (at_columns t) = Ok xs ∧ Forall2 (λ (jf : nat * (bool * ArrowType)) x, Q jf.2.2 x (row_field jf.1 <$> rs)) (imap (λ j f, (j, f)) (schema_fields sch)) xs.
Proof.
  intros Hg (Es & parts & Ej & Hc & Eo) Hok Hs. rewrite Ej in Hs. rewrite <-schema_fields_shape in Ej.
  apply (columns_give op Q valid_utf8 (schema_fields sch) (at_columns t) parts rs); try done.
  - by apply Forall_forall.
  - intros j f Hj. eapply Forall_impl; [exact Hok|]. intros r (values & -> & Hv). by apply struct_row_field with (schema_fields sch).
Qed.
Lemma table_row_lengths sch rs : Forall (table_row_ok (valid_utf8 := valid_utf8) sch) rs →
  Forall (λ r, ∃ v values, r = RStruct v values ∧ length values = length (schema_fields sch)) rs ∧ row_valid <$> rs = replicate (length rs) true.
Proof.
  intros Hok. split.
  - eapply Forall_impl; [exact Hok|]. intros r (values & -> & Hv). exists true, values. split; [done|]. apply fields_ok_lookup in Hv. symmetry. by eapply Forall2_length.
  - induction Hok as [|r rs (values & -> & _) _ IH]; [done|]. cbn in *. by rewrite IH.
Qed.

Lemma table_builder_slice_spec sch t rs : sch ≠ [] → forallb readable (column_types sch) = true →
  table_holds sch t (enc_fields enc 0 (table_shape sch) rs) → Forall (table_row_ok (valid_utf8 := valid_utf8) sch) rs → Forall buf_small (enc_fields enc 0 (table_shape sch) rs) →
  ∃ s, table_builder_slice t = Ok s ∧ table_fits (table_shape sch) s ∧ table_rows s = rs.
Proof.
  intros Hne Hr%schema_fields_all Hh Hok Hs. rewrite Forall_forall in Hr.
  destruct (table_columns_give as_slice is_slice sch t rs) as (xs & Exs & HF); [|done|done|done|].
  { intros f Hf. by apply as_slice_spec, Hr. }
  destruct (slice_columns _ _ _ (length rs) HF eq_refl) as (Hb & Hlen & Hfit & Hrows). destruct (table_row_lengths _ _ Hok) as [Hst Hval].
  assert (from_option slice_len 0%nat (head xs) = length rs) as Eh.
  { destruct sch as [|f sch]; [done|]. inversion HF; simplify_eq. by apply Forall_cons in Hlen as [? _]. }
  unfold table_builder_slice. rewrite Exs. cbn [mbind res_bind]. unfold table_slice_new. rewrite Eh, Hb. cbn [assert_ mbind res_bind].
  eexists. split; [done|]. unfold table_fits, table_rows, table_height. cbn [ts_columns ts_offset ts_len]. rewrite Eh. split.
  - rewrite schema_fields_shape in Hfit. split_and!; try done.
  - set (nulls := mkNulls None (length rs)). assert (nulls_bits nulls = row_valid <$> rs) as En by (by rewrite Hval).
    replace (length rs) with (length (nulls_bits nulls)) by (by rewrite En, length_fmap). rewrite struct_rows_all. by apply (struct_rows_from nulls xs (schema_fields sch)).
Qed.

Lemma table_builder_finish_spec sch t rs : sch ≠ [] → forallb readable (column_types sch) = true → forallb nullable_items (column_types sch) = true →
  table_holds sch t (enc_fields enc 0 (table_shape sch) rs) → Forall (table_row_ok (valid_utf8 := valid_utf8) sch) rs → Forall buf_small (enc_fields enc 0 (table_shape sch) rs) →
  ∃ b, table_builder_finish t = Ok b ∧ batch_columns b = (λ i, row_field i <$> rs) <$> seq 0 (length sch) ∧ batch_len b = length rs.
Proof.
  intros Hne Hr%schema_fields_all Hni%schema_fields_all Hh Hok Hs. rewrite Forall_forall in Hr, Hni.
  destruct (table_columns_give builder_finish (is_array (array_type := array_type) (array_rows := array_rows)) sch t rs) as (xs & Exs & HF); [|done|done|done|].
  { intros f Hf. by apply builder_finish_spec; [apply Hr|apply Hni]. }
  destruct (array_columns _ _ _ HF) as [HA Erows]. unfold table_builder_finish. rewrite Exs. cbn [mbind res_bind]. destruct Hh as [Es _]. rewrite Es.
  destruct (record_batch_spec sch xs (length rs)) as (b & Eb & Ec & El); [done| |].
  - assert (schema_fields sch = (λ f, (f.1.2, f.2)) <$> sch) as Esf by done. rewrite Esf in HA. apply Forall2_fmap_l in HA.
    apply Forall2_same_length_lookup. split; [by eapply Forall2_length|]. intros j f x Hj Hx.
    destruct (Forall2_lookup_lr _ _ _ _ _ _ HA Hj Hx) as [Hx1 Hx2]. split; [done|]. split; [done|]. intros Hnn.
    assert (schema_fields sch !! j = Some (f.1.2, f.2)) as Hsf by (rewrite Esf; by rewrite list_lookup_fmap, Hj).
    pose proof (f_equal (lookup j) Erows) as Ex. rewrite list_lookup_fmap, list_lookup_imap, Hx, Hsf in Ex. cbn in Ex. injection Ex as ->.
    apply Forall_fmap. eapply Forall_impl; [exact Hok|]. intros r (values & -> & Hv). by eapply (struct_row_field valid_utf8 (schema_fields sch) true values j (f.1.2, f.2)).
  - rewrite Eb. exists b. split; [done|]. split; [|done]. rewrite Ec, Erows. apply list_eq. intros j. rewrite list_lookup_imap, list_lookup_fmap.
    unfold schema_fields. rewrite list_lookup_fmap. destruct (sch !! j) as [f|] eqn:Ej.
    + assert (seq 0 (length sch) !! j = Some j) as -> by (apply lookup_seq; split; [done|by eapply lookup_lt_Some]). done.
    + apply lookup_ge_None in Ej. rewrite (lookup_ge_None_2 (seq _ _)) by (by rewrite length_seq). done.
Qed.

(** C16: a table builder that is given any sequence of writes of table slices holds exactly the
    rows written: its slice is well-formed and denotes them, its record batch has them as
    columns when the items of all lists are nullable, and [clear] makes it equal to a new one. *)
Theorem table_builder_exact sch ops : let rs := mjoin (table_op_rows <$> ops) in
  sch ≠ [] → forallb readable (column_types sch) = true → forallb buildable_type (column_types sch) = true →
  Forall (table_op_ok (table_shape sch)) ops → Forall (table_row_ok (valid_utf8 := valid_utf8) sch) rs → Forall buf_small (enc_fields enc 0 (table_shape sch) rs) →
  ∃ t, (t ← table_builder_new sch; fold_res (λ t op, table_op_run op t) ops t) = Ok t ∧
    (∃ s, table_builder_slice t = Ok s ∧ table_fits (table_shape sch) s ∧ table_rows s = rs) ∧
    (forallb nullable_items (column_types sch) = true →
      ∃ b, table_builder_finish t = Ok b ∧ batch_columns b = (λ i, row_field i <$> rs) <$> seq 0 (length sch) ∧ batch_len b = length rs) ∧
    table_builder_new sch = Ok (table_builder_clear t).
Proof.
  intros rs Hne Hr Hb Hops Hok Hs. destruct (table_builder_new_spec sch Hb) as (t0 & E0 & Ht0).
  destruct (run_ops (table_shape sch) ops Hops t0 [] Ht0 Hs) as (t & Et & Ht). cbn [app] in Ht. exists t. split; [by rewrite E0|]. split; [|split].
  - by apply table_builder_slice_spec.
  - intros Hni. by apply table_builder_finish_spec.
  - by eapply table_builder_clear_spec.
Qed.

(** A column builder filled by [append_option] with any values of its type gives a slice and
    an array of exactly those rows, in order; a null keeps the default of the type. *)
Theorem column_builder_exact ty ops new : readable ty = true → buildable_type ty = true → nullable_items ty = true → Forall2 (λ op r, append_row ty op = Some r) ops new →
  Forall (row_ok valid_utf8 ty) new → Forall buf_small (enc (shape_of ty) new) →
  ∃ b, (b ← any_builder_new ty; fold_res (λ b op, append_run op b) ops b) = Ok b ∧ builder_len b = length ops ∧
    (∃ s, as_slice b = Ok s ∧ fits (shape_of ty) s ∧ rows s = new) ∧
    (∃ a, builder_finish b = Ok a ∧ array_type a = ty ∧ array_rows a = new).
Proof.
  intros Hr Hb Hni Hops Hok Hs. destruct (any_builder_new_spec ty Hb) as (b0 & -> & Hb0 & _). cbn [mbind res_bind].
  destruct (append_all_spec ty ops new Hops b0 [] Hb0 Hs) as (b & E & Hh). cbn [app] in Hh. exists b. split; [done|].
  split; [by rewrite (builder_len_spec ty b new Hr Hh), (Forall2_length _ _ _ Hops)|]. split.
  - destruct (as_slice_spec valid_utf8 ty Hr b new Hh Hok Hs) as (s & Es & Hf & Er & _). by exists s.
  - destruct (builder_finish_spec ty Hr Hni b new Hh Hok Hs) as (a & Ea & Et & Er). by exists a.
Qed.
End table.
