(* ===== verification/TableExamples.v ===== *)
(** * TableExamples: concrete arrow primitives and runs of the table format

    [PlainBits] and [PlainArrays] instantiate the arrow primitives; the examples run the whole
    path from slices through pages in a store back to rows. *)

From S2P Require Import Prelude Bytes Data Kv Ranges Concrete Bits Offsets Pages PagesSpec Pagination TableRead TableReadSpec Slices SliceSpec SliceWrite TableWrite TableArray TableRoundtrip Builders BuildersSpec BuildersProps.

(** ** Bits *)

Definition bit_weight (b : bool) (w : Z) : Z := if b then w else 0.
Fixpoint pack (l : list bool) : bytes :=
  match l with
  | b0 :: b1 :: b2 :: b3 :: b4 :: b5 :: b6 :: b7 :: l =>
      (bit_weight b0 1 + bit_weight b1 2 + bit_weight b2 4 + bit_weight b3 8 +
       bit_weight b4 16 + bit_weight b5 32 + bit_weight b6 64 + bit_weight b7 128) :: pack l
  | _ => []
  end.

Lemma bits_pack n : ∀ l, length l = (8 * n)%nat → bits (pack l) = l.
Proof.
  induction n as [|n IH]; intros l Hl; [by destruct l|].
  do 8 (destruct l as [|? l]; [cbn in Hl; lia|]). cbn [pack bits]. rewrite (IH l) by (cbn in Hl; lia).
  repeat match goal with b : bool |- _ => destruct b end; reflexivity.
Qed.

Module PlainBits.
#[export] Instance ops : ArrowBits := {|
  get_bit data i := match bits data !! i with Some b => Ok b | None => Panic "index out of bounds" end;
  set_bit_raw data i := pack (<[i:=true]> (bits data));
  set_bits w d ow or len :=
    if ((ow + len <=? length (bits w)) && (or + len <=? length (bits d)))%nat%bool
    then Ok (pack (take ow (bits w) ++ part or len (bits d) ++ drop (ow + len) (bits w)))
    else Panic "assertion failed";
  count_ones data offset len :=
    if (offset + len <=? length (bits data))%nat
    then Ok (length (filter (λ b, b = true) (part offset len (bits data)))) else Panic "out of bounds";
  append_packed_range l r data :=
    if ((r.1 <=? r.2) && (r.2 <=? length (bits data)))%nat%bool
    then Ok (l ++ part r.1 (rlen r) (bits data)) else Panic "out of bounds"
|}.

#[export] Instance laws : ArrowBitsLaws.
Proof.
  constructor; unfold get_bit, set_bit_raw, set_bits, count_ones, append_packed_range; cbn -[Nat.leb].
  - by intros data i b ->.
  - intros data i ->. by eexists.
  - intros data i _. apply (bits_pack (length data)). by rewrite length_insert, bits_length.
  - intros w d ow or len H1 H2. rewrite !(proj2 (Nat.leb_le _ _)) by done. eexists. split; [done|].
    apply (bits_pack (length w)). rewrite !length_app, length_take, length_drop, part_length by done.
    rewrite bits_length in *. lia.
  - intros data offset len H1. by rewrite (proj2 (Nat.leb_le _ _)).
  - intros l r data H1 H2. by rewrite !(proj2 (Nat.leb_le _ _)).
Qed.
End PlainBits.

(** ** Arrays: a type and the rows *)

Module PlainArrays.
Abbreviation array := (ArrowType * list row)%type.
Abbreviation batch := (list (list row) * nat)%type.
#[export] Instance ops : ArrowArrays array batch := {|
  boolean_array_new values nulls := Ok (Boolean, bool_rows values nulls);
  primitive_array_try_new p values nulls := Ok (Primitive p, prim_rows values nulls);
  primitive_array_data p len nulls data := Ok (Primitive p, prim_rows (typed (byte_width p) data) nulls);
  binary_array_try_new offsets data nulls := Ok (Binary, list_rows_of (parts_of offsets (byte_rows data)) nulls);
  string_array_try_new offsets data nulls := Ok (Utf8, list_rows_of (parts_of offsets (byte_rows data)) nulls);
  fixed_size_binary_array_try_new size data nulls :=
    Ok (FixedSizeBinary size, list_rows_of (chunks_of size (length data / size) (byte_rows data)) nulls);
  list_array_try_new f offsets child nulls := Ok (ListOf f.1 f.2, list_rows_of (parts_of offsets child.2) nulls);
  struct_array_try_new fields columns nulls :=
    Ok (Struct fields, struct_rows_of (from_option (λ c : array, length c.2) 0%nat (head columns)) columns.*2 nulls);
  record_batch_try_new sch columns := Ok (columns.*2, from_option (λ c : array, length c.2) 0%nat (head columns));
  record_batch_empty n := Ok ([], n)
|}.

#[export] Instance laws valid_utf8 : ArrowArraysLaws (A := array) (B := batch) valid_utf8 fst snd fst snd.
Proof.
  constructor; cbn.
  - intros. by eexists.
  - intros. by eexists.
  - intros p values nulls _ Hv. eexists. split; [done|]. split; [done|]. cbn. rewrite typed_join; [done| |done]. destruct p; cbn; lia.
  - intros. by eexists.
  - intros. by eexists.
  - intros size n data nulls _ Hs Hl. eexists. split; [done|]. split; [done|]. cbn. by rewrite Hl, Nat.div_mul by lia.
  - intros. by eexists.
  - intros fields columns nulls n _ Hne Hf _. eexists. split; [done|]. split; [done|]. cbn.
    destruct Hf as [|f c fields columns [_ Hl] Hf]; [done|]. cbn. by rewrite Hl.
  - intros sch columns n Hne Hf. eexists. split; [done|]. split; [done|]. cbn.
    destruct Hf as [|f c sch columns (_ & Hl & _) Hf]; [done|]. done.
  - intros n. by eexists.
Qed.
End PlainArrays.

(** ** A table with nested columns *)

Module TableExamples.
#[export] Existing Instances GmapKv.cursor_ops GmapKv.ops GmapKv.laws PlainBits.ops PlainBits.laws PlainArrays.ops PlainArrays.laws.

Definition id0 : TableId := replicate 16 7.
Definition utf8 (b : bytes) : bool := forallb (λ x, (0 <=? x) && (x <? 128)) b.
Definition sch0 : schema := [("n", false, Primitive UInt16); ("name", true, Utf8); ("tags", false, ListOf true (FixedSizeBinary 2))].
Definition all_rows (n : nat) : NullmaskSlice := mkNulls None n.
(** Three rows; the name of the second one is null. *)
Definition batch0 : AnyTableSlice :=
  mkTableSlice [
    PrimitiveSlice (all_rows 3) 2 [[1; 0]; [2; 0]; [3; 0]];
    ListSlice (mkNulls (Some (mkBits [5] 0 3)) 3) [0; 2; 2; 3] (Native 1 [[97]; [98]; [99]]);
    ListSlice (all_rows 3) [0; 1; 1; 3] (ListItem (FixedSizeListSlice 2 (all_rows 3) (Native 1 [[1]; [2]; [3]; [4]; [5]; [6]])))
  ] 0 3.
(** The rows two and three are written once more, then the first one. *)
Definition ops0 : list table_op := [TWrite batch0; TRange (1, 3)%nat batch0; TRanges [(2, 3); (0, 1)]%nat batch0; TIndexes 1 [0]%nat batch0].
Definition sel0 : option (list range) := Some [Range 1 3; Range 6 8].

Definition small_b (b : buf) : bool := match b with OffsetBuf lens => total lens <=? i32_max | _ => true end.
Definition items_b (b : buf) : bool := Z.of_nat (buf_items b) <=? u32_max.
Lemma bufs_fit_b bufs : forallb small_b bufs && forallb items_b bufs = true → bufs_fit bufs.
Proof.
  intros [H1 H2]%andb_true_iff. rewrite forallb_forall in H1, H2. split; apply Forall_forall; intros b Hb%list_elem_of_In.
  - specialize (H1 b Hb). destruct b; try done. by apply Z.leb_le.
  - specialize (H2 b Hb). by apply Z.leb_le.
Qed.

Lemma batch0_fits : table_fits (table_shape sch0) batch0.
Proof.
  split; [|split; [repeat constructor|cbn; lia]]. repeat constructor.
  - exists 0, [2; 0; 1]%nat. split_and!; try done; cbn; unfold total, i32_max; cbn; lia.
  - exists 0, [1; 0; 2]%nat. split_and!; try done; cbn; unfold total, i32_max; cbn; lia.
Qed.

(** The hypotheses of [table_round_trip] hold for the example, which reads two columns of four of the eight rows. *)
Lemma table_round_trip_witness : ∃ b,
  write_then_read id0 (λ _, [7]) (λ _, Some sch0) small_page_sizes kv_empty sch0 ops0 (Some ["tags"; "name"]) sel0 = Ok b ∧
  b.2 = 4%nat ∧ length b.1 = 2%nat.
Proof.
  destruct (table_round_trip (valid_utf8 := utf8) (array_type := fst) (array_rows := snd) (batch_columns := fst) (batch_len := snd)
    id0 (λ _, [7]) (λ _, Some sch0) eq_refl small_page_sizes kv_empty sch0 ops0 (Some ["tags"; "name"]) sel0) as (b & Hb & Hc & Hl).
  - repeat split; cbn; lia.
  - intros k v Hk. by rewrite kv_get_empty in Hk.
  - split; [done|]. split; [reflexivity|]. vm_compute. congruence.
  - reflexivity.
  - apply Forall_cons; split; [apply batch0_fits|]. apply Forall_cons; split; [split; [apply batch0_fits|cbn; lia]|].
    apply Forall_cons; split; [split; [apply batch0_fits|repeat constructor; cbn; lia]|].
    apply Forall_cons; split; [split; [apply batch0_fits|split; [repeat constructor|cbn; lia]]|constructor].
  - vm_compute. repeat constructor; eexists; (split; [reflexivity|]); vm_compute; repeat split; try done; repeat constructor.
  - apply bufs_fit_b. vm_compute. reflexivity.
  - intros l [= <-]. vm_compute. repeat split; congruence.
  - exists b. split; [exact Hb|]. split; [by rewrite Hl|by rewrite Hc].
Defined.

(** The same run evaluated: the values come back, the null with an empty string. *)
Example table_run_rows :
  write_then_read id0 (λ _, [7]) (λ _, Some sch0) small_page_sizes kv_empty sch0 ops0 (Some ["name"]) sel0 =
  Ok ([[RList false []; RList true [RItem [99]]; RList true [RItem [97]; RItem [98]]; RList true [RItem [97]; RItem [98]]]], 4%nat).
Proof. vm_compute. reflexivity. Qed.

(** With no column selected the count is that of the whole table, whatever the ranges. *)
Example table_run_no_columns :
  write_then_read id0 (λ _, [7]) (λ _, Some sch0) small_page_sizes kv_empty sch0 ops0 (Some []) sel0 = Ok ([], 8%nat).
Proof. vm_compute. reflexivity. Qed.

(** Two ranges that touch are a valid range list, yet the offsets of a list column read for them overlap. *)
Example touching_ranges_panic : ∃ m,
  write_then_read id0 (λ _, [7]) (λ _, Some sch0) small_page_sizes kv_empty sch0 ops0 (Some ["name"]) (Some [Range 1 2; Range 2 3]) = Panic m.
Proof. eexists. vm_compute. reflexivity. Qed.
Example touching_ranges_valid : wf 0 [Range 1 2; Range 2 3].
Proof. cbn. lia. Qed.

(** A mask slice that does not start at the first bit refuses its own rows. *)
Example sliced_mask_value_panics : ∃ m, (m ← bs_slice 4 2 (mkBits [255] 0 8); bs_value m 0) = Panic m.
Proof. eexists. vm_compute. reflexivity. Qed.

(** ** Builders *)

Lemma rows0_ok : Forall (table_row_ok (valid_utf8 := utf8) sch0) (mjoin (table_op_rows <$> ops0)).
Proof. vm_compute. repeat constructor; eexists; (split; [reflexivity|]); vm_compute; repeat split; try done; repeat constructor. Qed.
Lemma ops0_ok : Forall (table_op_ok (table_shape sch0)) ops0.
Proof.
  apply Forall_cons; split; [apply batch0_fits|]. apply Forall_cons; split; [split; [apply batch0_fits|cbn; lia]|].
  apply Forall_cons; split; [split; [apply batch0_fits|repeat constructor; cbn; lia]|].
  apply Forall_cons; split; [split; [apply batch0_fits|split; [repeat constructor|cbn; lia]]|constructor].
Qed.

(** The same writes into a table builder. *)
Lemma table_builder_exact_witness : ∃ t b, (t ← table_builder_new sch0; fold_res (λ t op, table_op_run op t) ops0 t) = Ok t ∧
  table_builder_finish (A := PlainArrays.array) (B := PlainArrays.batch) t = Ok b ∧ length b.1 = 3%nat ∧ b.2 = 8%nat.
Proof.
  destruct (table_builder_exact (valid_utf8 := utf8) (array_type := fst) (array_rows := snd) (batch_columns := fst) (batch_len := snd) sch0 ops0)
    as (t & Et & _ & Hfin & _).
  - done.
  - reflexivity.
  - reflexivity.
  - apply ops0_ok.
  - apply rows0_ok.
  - apply bufs_fit_b. vm_compute. reflexivity.
  - destruct (Hfin eq_refl) as (b & Eb & Ec & El). exists t, b. split; [done|]. split; [done|]. split; [by rewrite Ec|by rewrite El].
Defined.

(** A string column of a value, a null and an empty string. *)
Definition strings0 : list append_op := [AppendBytes (Some [104; 105]); AppendBytes None; AppendBytes (Some [])].
Definition string_rows0 : list row := [RList true [RItem [104]; RItem [105]]; RList false []; RList true []].
Lemma column_builder_exact_witness : ∃ b s, (b ← any_builder_new Utf8; fold_res (λ b op, append_run op b) strings0 b) = Ok b ∧
  as_slice b = Ok s ∧ rows s = string_rows0.
Proof.
  destruct (column_builder_exact (valid_utf8 := utf8) (array_type := fst) (array_rows := snd) (batch_columns := fst) (batch_len := snd) (B := PlainArrays.batch) Utf8 strings0 string_rows0)
    as (b & Eb & _ & (s & Es & _ & Er) & _).
  - reflexivity.
  - reflexivity.
  - reflexivity.
  - repeat constructor.
  - repeat constructor.
  - repeat constructor; vm_compute; congruence.
  - by exists b, s.
Defined.

(** Four writes of a slice of strings into a string builder. *)
Definition strings_slice : Slice := ListSlice (mkNulls (Some (mkBits [5] 0 3)) 3) [0; 2; 2; 3] (Native 1 [[97]; [98]; [99]]).
Lemma slice_writes_exact_witness : ∃ w, write_indexes 2 [2; 0]%nat strings_slice 0 (AnyString string_builder_new) = Ok w ∧
  holds Utf8 w (enc (ShList (ShNative 1)) [RList true [RItem [99]]; RList true [RItem [97]; RItem [98]]]).
Proof.
  destruct (slice_writes_exact (holds Utf8) (ShList (ShNative 1)) strings_slice (0, 1)%nat [(1, 2)]%nat 2 [2; 0]%nat (AnyString string_builder_new) [] [] [])
    as (_ & _ & _ & Hi).
  - repeat constructor. exists 0, [2; 0; 1]%nat. split_and!; try done; cbn; unfold total, i32_max; cbn; lia.
  - cbn. lia.
  - repeat constructor.
  - split; [repeat constructor|cbn; lia].
  - split_and!; [by exists []|by exists []|by exists []].
  - destruct Hi as (w & Ew & Hw); [repeat constructor; by vm_compute|]. by exists w.
Defined.

(** A builder of a list of items that are not nullable builds another type. *)
Example list_items_become_nullable : builder_type <$> (any_builder_new (ListOf false Boolean)) = Ok (ListOf true Boolean).
Proof. reflexivity. Qed.
End TableExamples.
