(* ===== verification/QueryStack.v ===== *)
(** * Address trees (crates/query/src/plan/key.rs, rel.rs)

    The hierarchical tables (traces, instructions, calls) name their rows by addresses: the
    address of a child extends the address of its parent.  This file has the arrow lists the
    addresses are read through, and the two walks over a group of rows sorted by address:
    [find_children] and [find_parents]. *)
From stdpp Require Import sorting.
From S2P Require Import Prelude Bytes.

(** ** Keys over arrow list arrays (key.rs) *)

(** [values[i]] on a slice: out of range is a panic. *)
Definition slice_get {A} (l : list A) (i : nat) : res A :=
  match l !! i with Some a => Ok a | None => Panic "index out of bounds" end.
(** [&values[start..end]] *)
Definition slice_range {A} (l : list A) (start end_ : nat) : res (list A) :=
  if (start <=? end_)%nat && (end_ <=? length l)%nat then Ok (take (end_ - start) (drop start l)) else Panic "slice index out of range".

Record PrimitiveGenericListKey : Type := mkListKey { lk_offsets : list nat; lk_values : list Z }.

Definition list_key_get (k : PrimitiveGenericListKey) (idx : nat) : res (list Z) :=
  start ← slice_get (lk_offsets k) idx;
  end_ ← slice_get (lk_offsets k) (idx + 1);
  slice_range (lk_values k) start end_.

Record GenericListKey (K : Type) : Type := mkGenericListKey { gk_offsets : list nat; gk_item : K }.
Arguments mkGenericListKey {K}.
Arguments gk_offsets {K}.
Arguments gk_item {K}.

Record OffsetKey (K : Type) : Type := mkOffsetKey { ok_item : K; ok_offset : nat; ok_len : nat }.
Arguments mkOffsetKey {K}.
Arguments ok_item {K}.
Arguments ok_offset {K}.
Arguments ok_len {K}.

(** The subtraction of the two offsets is on [usize]; arrow offsets never decrease. *)
Definition generic_key_get {K} (k : GenericListKey K) (idx : nat) : res (OffsetKey K) :=
  offset ← slice_get (gk_offsets k) idx;
  end_ ← slice_get (gk_offsets k) (idx + 1);
  if (offset <=? end_)%nat then Ok (mkOffsetKey (gk_item k) offset (end_ - offset)) else Panic "attempt to subtract with overflow".

Definition offset_key_get (k : OffsetKey PrimitiveGenericListKey) (idx : nat) : res (list Z) :=
  list_key_get (ok_item k) (ok_offset k + idx).

(** ** Addresses *)

Abbreviation address := (list Z).

Definition is_parent_address (parent child : address) : bool :=
  (length parent <? length child)%nat && bool_decide (parent = take (length parent) child).

(** [Ord] on slices is lexicographic, and a prefix comes before its extensions. *)
Definition addr_le (a b : address) : bool := bytes_leb a b.

(** The rows of one group: address and row index. *)
Abbreviation item := (list Z * Z)%type.
Definition item_le (x y : item) : Prop := addr_le x.1 y.1 = true.
#[export] Instance item_le_dec : RelDecision item_le := λ x y, decide (addr_le x.1 y.1 = true).

(** [order.sort_unstable_by_key] with the address as key: positions are sorted by the address
    found there, so the rows are visited in the order of this list. *)
Definition sort_group (group : list item) : list item := merge_sort item_le group.

(** ** The stack of groups *)

Record Stack : Type := mkStack {
  st_address : GenericListKey PrimitiveGenericListKey;
  st_row_index : PrimitiveGenericListKey
}.

(** [stack.address.len()]: an arrow list has one offset more than items. *)
Definition n_groups (s : Stack) : nat := pred (length (gk_offsets (st_address s))).

(** [rows], [addrs] and the assertion on their lengths, for group [g]. *)
Definition group_items (s : Stack) (g : nat) : res (list item) :=
  rows ← list_key_get (st_row_index s) g;
  addrs ← generic_key_get (st_address s) g;
  if (length rows =? ok_len addrs)%nat then
    as_ ← collect (offset_key_get addrs <$> seq 0 (length rows));
    Ok (zip as_ rows)
  else Panic "assertion failed: rows.len() == addrs.len()".

(** ** Children *)

Section children.
Context (parents : list Z) (include_parent : bool).

(** The two nested loops of [find_children_impl] over the sorted rows.  [inside] is the
    address of the last row that was found among the parents while the inner loop runs, and
    [None] outside of it; when the inner condition fails, the same row is looked at by the
    outer loop. *)
Fixpoint children_loop (inside : option address) (order : list item) : list Z :=
  match order with
  | [] => []
  | (addr, row) :: order =>
      if from_option (λ parent_addr, is_parent_address parent_addr addr) false inside
      then row :: children_loop inside order
      else if decide (row ∈ parents)
      then (if include_parent then [row] else []) ++ children_loop (Some addr) order
      else children_loop None order
  end.

Definition find_children_impl (s : Stack) : res (list Z) :=
  groups ← collect (group_items s <$> seq 0 (n_groups s));
  Ok (mjoin ((λ g, children_loop None (sort_group g)) <$> groups)).
End children.

(** ** Parents *)

Section parents.
Context (children : list Z).

(** [while let Some(top) = s.last()]: the stack has its top first. *)
Fixpoint pop_until_parent (addr : address) (s : list item) : list item :=
  match s with
  | [] => []
  | top :: s => if is_parent_address top.1 addr then top :: s else pop_until_parent addr s
  end.

Fixpoint parents_loop (s : list item) (order : list item) : list Z :=
  match order with
  | [] => []
  | (addr, row) :: order =>
      let s := (addr, row) :: pop_until_parent addr s in
      (if decide (row ∈ children) then s.*2 else []) ++ parents_loop s order
  end.

Definition find_parents_impl (s : Stack) : res (list Z) :=
  groups ← collect (group_items s <$> seq 0 (n_groups s));
  Ok (mjoin ((λ g, parents_loop [] (sort_group g)) <$> groups)).
End parents.

(** ** The order of addresses *)

Lemma addr_le_spec a b : addr_le a b = true ↔ bytes_le a b.
Proof. apply bytes_leb_spec. Qed.

Lemma addr_le_refl a : addr_le a a = true.
Proof. apply addr_le_spec, bytes_le_refl. Qed.

Lemma addr_le_trans a b c : addr_le a b = true → addr_le b c = true → addr_le a c = true.
Proof. rewrite !addr_le_spec. eauto with sqd. Qed.

Lemma addr_le_total a b : addr_le a b = true ∨ addr_le b a = true.
Proof. rewrite !addr_le_spec. destruct (decide (bytes_le a b)) as [|Hn]; [by left|right]. by apply bytes_lt_le, bytes_lt_nle. Qed.

Lemma addr_le_antisym a b : addr_le a b = true → addr_le b a = true → a = b.
Proof.
  rewrite !addr_le_spec. intros [Hl|?]%bytes_le_lteq Hr; [|done]. by apply bytes_lt_nle in Hl.
Qed.

#[export] Instance item_le_trans : Transitive item_le.
Proof. intros x y z. apply addr_le_trans. Qed.
#[export] Instance item_le_total : Total item_le.
Proof. intros x y. apply addr_le_total. Qed.

(** [is_parent_address] is the strict prefix relation. *)
Definition below (p a : address) : Prop := p `prefix_of` a ∧ p ≠ a.

Lemma is_parent_address_spec p a : is_parent_address p a = true ↔ below p a.
Proof.
  unfold is_parent_address, below. rewrite andb_true_iff, bool_decide_eq_true, Nat.ltb_lt. split.
  - intros [Hl Ht]. split; [|intros ->; lia]. exists (drop (length p) a). rewrite Ht at 1. by rewrite take_drop.
  - intros [[k ->] Hne]. destruct k as [|z k]; [by rewrite app_nil_r in Hne|].
    rewrite length_app, take_app_length. cbn. split; [lia|done].
Qed.

Lemma prefix_addr_le p a : p `prefix_of` a → addr_le p a = true.
Proof.
  intros [k ->]. apply addr_le_spec. unfold bytes_le. rewrite <-(app_nil_r p) at 1. rewrite bytes_cmp_app. by destruct k.
Qed.

(** The extensions of an address are contiguous. *)
Lemma prefix_between p x a : addr_le p x = true → addr_le x a = true → p `prefix_of` a → p `prefix_of` x.
Proof.
  rewrite !addr_le_spec. unfold bytes_le. revert x a. induction p as [|y p IH]; intros x a Hpx Hxa Hp; [apply prefix_nil|].
  destruct Hp as [k ->]. destruct x as [|z x]; cbn [bytes_cmp app] in *; [done|].
  destruct (Z.compare_spec y z) as [->|?|?]; [|exfalso..].
  - rewrite Z.compare_refl in Hxa. apply prefix_cons. eapply IH; eauto. by exists k.
  - rewrite (proj2 (Z.compare_gt_iff z y)) in Hxa; done.
  - done.
Qed.

Lemma below_trans p q a : below p q → q `prefix_of` a → below p a.
Proof. intros [[k ->] Hne] [j ->]. split; [exists (k ++ j); by rewrite app_assoc|]. intros E. destruct k; [by rewrite app_nil_r in Hne|].
  apply (f_equal length) in E. rewrite !length_app in E. cbn in E. lia. Qed.

(** A group in strict address order. *)
Abbreviation addr_sorted := (StronglySorted (λ x y : item, addr_le x.1 y.1 = true ∧ x.1 ≠ y.1)).

Lemma sort_group_sorted group : NoDup (group.*1) → addr_sorted (sort_group group).
Proof.
  intros Hnd. assert (NoDup ((sort_group group).*1)) as Hnd'.
  { unfold sort_group. by rewrite merge_sort_Permutation. }
  pose proof (StronglySorted_merge_sort item_le group) as Hs. fold (sort_group group) in Hs.
  clear Hnd. induction Hs as [|x l Hs IH Hx]; [constructor|]. rewrite fmap_cons in Hnd'. apply NoDup_cons in Hnd' as [Hn Hnd'].
  constructor; [by apply IH|]. rewrite Forall_forall in Hx |- *. intros y Hy. split; [by apply Hx|]. intros E. apply Hn. rewrite E.
  by apply list_elem_of_fmap_2.
Qed.

Lemma elem_sort_group x group : x ∈ sort_group group ↔ x ∈ group.
Proof. unfold sort_group. by rewrite merge_sort_Permutation. Qed.

(** ** The walks *)

Lemma inside_cases inside (addr : address) :
  from_option (λ p, is_parent_address p addr) false inside = true ↔ ∃ p, inside = Some p ∧ below p addr.
Proof.
  destruct inside as [p|]; cbn [from_option]; [|split; [done|by intros (? & ? & _)]].
  rewrite is_parent_address_spec. split; [eauto|]. by intros (? & [= <-] & ?).
Qed.

Lemma children_loop_spec parents include_parent l r : addr_sorted l → ∀ inside, (∀ p x, inside = Some p → x ∈ l → addr_le p x.1 = true ∧ p ≠ x.1) →
  r ∈ children_loop parents include_parent inside l ↔
  ∃ a, (a, r) ∈ l ∧ ((∃ p, inside = Some p ∧ below p a) ∨ (∃ p rp, (p, rp) ∈ l ∧ rp ∈ parents ∧ below p a) ∨ include_parent = true ∧ r ∈ parents).
Proof.
  induction 1 as [|[x rx] l Hs IH Hx]; intros inside Hin; cbn [children_loop].
  { split; [by intros ?%elem_of_nil|]. by intros (a & ?%elem_of_nil & _). }
  rewrite Forall_forall in Hx. cbn [fst] in Hx.
  assert (∀ p : address, (∃ q rq, (q, rq) ∈ (x, rx) :: l ∧ rq ∈ parents ∧ below q p) ↔
    (rx ∈ parents ∧ below x p) ∨ (∃ q rq, (q, rq) ∈ l ∧ rq ∈ parents ∧ below q p)) as Hanc.
  { intros p. split.
    - intros (q & rq & [[= -> ->]|Hq]%elem_of_cons & ? & ?); [by left|right; eauto].
    - intros [[? ?]|(q & rq & ? & ? & ?)]; [exists x, rx|exists q, rq]; split; try done; lmem. }
  assert (¬ ∃ q rq, (q, rq) ∈ l ∧ rq ∈ parents ∧ below q x) as Hno.
  { intros (q & rq & Hq & _ & [Hp Hne]). destruct (Hx _ Hq) as [Hle Hd]. cbn in Hle, Hd. apply Hd.
    apply addr_le_antisym; [done|]. by apply prefix_addr_le. }
  assert (∀ y, y ∈ l → addr_le x y.1 = true) as Hxl by (intros y Hy; apply Hx, Hy).
  case_if.
  - apply inside_cases in Heqb as (p & -> & Hpx). rewrite elem_of_cons, IH by (intros q y [= <-] Hy; apply (Hin p y); [done|lmem]). split.
    + intros [->|(a & Ha & Hc)]; [exists x; split; [lmem|left; eauto]|]. exists a. split; [lmem|]. rewrite Hanc. tauto.
    + intros (a & [[= -> ->]|Ha]%elem_of_cons & Hc); [by left|]. right. exists a. split; [done|]. rewrite Hanc in Hc.
      destruct Hc as [?|[[[? Hb]|?]|?]]; auto. left. exists p. split; [done|]. eapply below_trans; [done|apply Hb].
  - assert (∀ p a, inside = Some p → a ∈ l → ¬ below p a.1) as Hout.
    { intros p [a ra] -> Ha [Hp Hne]. cbn [fst] in *. destruct (Hin p (x, rx)) as [Hle Hd]; [done|lmem|]. cbn [fst] in Hle, Hd.
      rewrite (proj2 (inside_cases _ _)) in Heqb; [done|]. exists p. split; [done|]. split; [|done].
      eapply prefix_between; [done|apply (Hxl _ Ha)|done]. }
    assert (¬ ∃ p, inside = Some p ∧ below p x) as Hnx by (rewrite <-inside_cases; by rewrite Heqb).
    assert (¬ below x x) as Hxx by (by intros [_ ?]).
    destruct (decide (rx ∈ parents)) as [Hpar|Hpar].
    + rewrite elem_of_app, IH by (intros q y [= <-] Hy; by apply Hx). split.
      * intros [Hr|(a & Ha & Hc)].
        -- destruct include_parent; [|by apply elem_of_nil in Hr]. apply list_elem_of_singleton in Hr as ->. exists x. split; [lmem|]. auto.
        -- exists a. split; [lmem|]. rewrite Hanc. destruct Hc as [(p & [= <-] & Hb)|Hc]; tauto.
      * intros (a & [[= -> ->]|Ha]%elem_of_cons & Hc).
        -- left. rewrite Hanc in Hc. destruct Hc as [?|[[[? ?]|?]|[-> _]]]; try done. lmem.
        -- right. exists a. split; [done|]. rewrite Hanc in Hc. destruct Hc as [(p & E & Hb)|[[[? ?]|?]|?]]; auto.
           { by destruct (Hout p (a, r)). } left. eauto.
    + rewrite IH by done. split.
      * intros (a & Ha & [(p & ? & _)|Hc]); [done|]. exists a. split; [lmem|]. rewrite Hanc. tauto.
      * intros (a & [[= -> ->]|Ha]%elem_of_cons & Hc); rewrite Hanc in Hc.
        -- destruct Hc as [?|[[[? ?]|?]|[_ ?]]]; done.
        -- exists a. split; [done|]. right. destruct Hc as [(p & E & Hb)|[[[? ?]|?]|?]]; auto; [|done]. by destruct (Hout p (a, r)).
Qed.

(** The stack of [find_parents_impl] holds exactly the rows seen whose address is a prefix
    of the last address. *)
Lemma pop_until_parent_spec addr s seen last : addr_sorted seen → last ∈ seen → (∀ x, x ∈ seen → addr_le x.1 last.1 = true) →
  (∀ x, x ∈ s ↔ x ∈ seen ∧ x.1 `prefix_of` last.1) → StronglySorted (λ x y : item, y.1 `prefix_of` x.1) s →
  (∀ x, x ∈ seen → addr_le x.1 addr = true ∧ x.1 ≠ addr) →
  (∀ x, x ∈ pop_until_parent addr s ↔ x ∈ seen ∧ x.1 `prefix_of` addr) ∧
  StronglySorted (λ x y : item, y.1 `prefix_of` x.1) (pop_until_parent addr s).
Proof.
  intros Hseen Hlast Hmax Hs Hch Hlt.
  assert (∀ x, x ∈ pop_until_parent addr s ↔ x ∈ s ∧ x.1 `prefix_of` addr) as Hpop.
  { assert (∀ x, x ∈ s → x ∈ seen) as Hin by (intros x Hx; by apply Hs). clear Hs. induction Hch as [|t s Hch IH Ht]; cbn [pop_until_parent].
    { intros x. rewrite elem_of_nil. tauto. }
    intros x. case_if.
    - apply is_parent_address_spec in Heqb as [Hp _]. rewrite Forall_forall in Ht. split; [|tauto]. intros Hx. split; [done|].
      apply elem_of_cons in Hx as [->|Hx]; [done|]. etrans; [by apply Ht|done].
    - rewrite IH by (intros y Hy; apply Hin; lmem). rewrite elem_of_cons. split; [tauto|]. intros [[->|Hx] Hp]; [|done].
      rewrite (proj2 (is_parent_address_spec _ _)) in Heqb; [done|]. split; [done|]. apply Hlt, Hin. lmem. }
  split.
  - intros x. rewrite Hpop, Hs. split; [tauto|]. intros [Hx Hp]. split; [split|]; [done| |done].
    eapply prefix_between; [by apply Hmax|apply (Hlt last Hlast)|done].
  - clear - Hch. induction Hch as [|t s Hch IH Ht]; cbn [pop_until_parent]; [constructor|]. case_if; [by constructor|done].
Qed.

Definition ancestors (seen : list item) (addr : address) (s : list item) : Prop :=
  (∀ y, y ∈ s ↔ y ∈ seen ∧ y.1 `prefix_of` addr) ∧ StronglySorted (λ x y : item, y.1 `prefix_of` x.1) s.

Lemma push_ancestors seen x s : addr_sorted (seen ++ [x]) →
  (match last seen with None => s = [] | Some y => ancestors seen y.1 s end) →
  ancestors (seen ++ [x]) x.1 (x :: pop_until_parent x.1 s).
Proof.
  intros Hs Hst. apply StronglySorted_snoc in Hs as [Hseen Hx]. rewrite Forall_forall in Hx.
  assert ((∀ y, y ∈ pop_until_parent x.1 s ↔ y ∈ seen ∧ y.1 `prefix_of` x.1) ∧
    StronglySorted (λ x y : item, y.1 `prefix_of` x.1) (pop_until_parent x.1 s)) as [Hpop Hch].
  { destruct (last seen) as [z|] eqn:E.
    - destruct Hst as [Hst Hc]. apply last_Some in E as [k ->]. apply (pop_until_parent_spec x.1 s (k ++ [z]) z); [done|lmem| |done|done|done].
      apply StronglySorted_snoc in Hseen as [_ Hz]. rewrite Forall_forall in Hz. intros y [Hy|Hy]%elem_of_app; [by apply Hz|].
      apply list_elem_of_singleton in Hy as ->. apply addr_le_refl.
    - apply last_None in E as ->. subst s. split; [|constructor]. intros y. cbn. rewrite elem_of_nil. tauto. }
  split.
  - intros y. rewrite elem_of_cons, elem_of_app, list_elem_of_singleton, Hpop. split.
    + intros [->|[? ?]]; auto.
    + intros [[?| ->] ?]; auto.
  - constructor; [done|]. rewrite Forall_forall. intros y Hy. by apply Hpop.
Qed.

Lemma parents_loop_spec children l r : ∀ seen s, addr_sorted (seen ++ l) →
  (match last seen with None => s = [] | Some y => ancestors seen y.1 s end) →
  r ∈ parents_loop children s l ↔ ∃ a c rc, (a, r) ∈ seen ++ l ∧ (c, rc) ∈ l ∧ rc ∈ children ∧ a `prefix_of` c.
Proof.
  induction l as [|[x rx] l IH]; intros seen s Hs Hst; cbn [parents_loop].
  { split; [by intros ?%elem_of_nil|]. by intros (? & ? & ? & _ & ?%elem_of_nil & _). }
  assert (addr_sorted ((seen ++ [(x, rx)]) ++ l)) as Hs' by (by rewrite <-app_assoc).
  pose proof (push_ancestors seen (x, rx) s (StronglySorted_app_1_l _ _ _ Hs') Hst) as Hanc. cbn [fst] in Hanc.
  rewrite elem_of_app, (IH (seen ++ [(x, rx)])) by (done || by rewrite last_snoc). rewrite <-app_assoc. cbn [app]. split.
  - intros [Hr|(a & c & rc & ? & ? & ? & ?)]; [|exists a, c, rc; split; [done|split; [lmem|done]]].
    destruct (decide (rx ∈ children)); [|by apply elem_of_nil in Hr]. apply list_elem_of_fmap in Hr as ([a ra] & -> & Ha). cbn [snd].
    apply Hanc in Ha as [Ha Hp]. exists a, x, rx. split; [|split; [lmem|done]]. rewrite elem_of_app, list_elem_of_singleton in Ha.
    rewrite elem_of_app, elem_of_cons. tauto.
  - intros (a & c & rc & Ha & [[= -> ->]|Hc]%elem_of_cons & Hch & Hp); [|right; by exists a, c, rc]. left.
    rewrite decide_True by done. apply list_elem_of_fmap. exists (a, r). split; [done|]. apply Hanc. cbn [fst]. split; [|done].
    rewrite elem_of_app, elem_of_cons in Ha. rewrite elem_of_app, list_elem_of_singleton. destruct Ha as [?|[?|Ha]]; [tauto|tauto|]. exfalso.
    rewrite StronglySorted_app in Hs'. destruct Hs' as (Hlt & _ & _). destruct (Hlt (x, rx) (a, r)) as [Hle Hne]; [rewrite elem_of_app, list_elem_of_singleton; by right|done|].
    cbn [fst] in Hle, Hne. apply Hne, addr_le_antisym; [done|by apply prefix_addr_le].
Qed.

(** ** Groups *)

(** An arrow list array holds the list [x] at position [i]. *)
Definition list_at {A} (offsets : list nat) (values : list A) (i : nat) (x : list A) : Prop :=
  ∃ a b, offsets !! i = Some a ∧ offsets !! (i + 1)%nat = Some b ∧ (a <= b <= length values)%nat ∧ take (b - a) (drop a values) = x.

(** A stack holds the groups [groups]: group [g] has its row indexes at position [g] of the
    one list and its addresses, in the same order, at position [g] of the other. *)
Record stack_repr (s : Stack) (groups : list (list item)) : Prop := mkStackRepr {
  sr_len : length (gk_offsets (st_address s)) = S (length groups);
  sr_rows g grp : groups !! g = Some grp → list_at (lk_offsets (st_row_index s)) (lk_values (st_row_index s)) g grp.*2;
  sr_addrs g grp : groups !! g = Some grp → ∃ a b, gk_offsets (st_address s) !! g = Some a ∧
    gk_offsets (st_address s) !! (g + 1)%nat = Some b ∧ b = (a + length grp)%nat ∧
    ∀ j addr, grp.*1 !! j = Some addr →
      list_at (lk_offsets (gk_item (st_address s))) (lk_values (gk_item (st_address s))) (a + j) addr
}.

Lemma list_key_get_at k i x : list_at (lk_offsets k) (lk_values k) i x → list_key_get k i = Ok x.
Proof.
  intros (a & b & Ha & Hb & Hl & <-). unfold list_key_get, slice_get, slice_range. rewrite Ha. cbn [mbind res_bind]. rewrite Hb.
  cbn [mbind res_bind]. by rewrite (proj2 (Nat.leb_le a b)), (proj2 (Nat.leb_le b _)) by lia.
Qed.

Lemma collect_seq {A} (f : nat → res A) (l : list A) : (∀ i x, l !! i = Some x → f i = Ok x) → collect (f <$> seq 0 (length l)) = Ok l.
Proof.
  intros Hf. rewrite <-(collect_Ok l). f_equal. apply list_eq. intros i. rewrite !list_lookup_fmap.
  destruct (l !! i) as [x|] eqn:E; cbn [fmap option_fmap option_map].
  - rewrite lookup_seq_lt by (by eapply lookup_lt_Some). cbn. by rewrite (Hf i x).
  - rewrite lookup_seq_ge by (by apply lookup_ge_None). done.
Qed.

Lemma collect_map_spec {A B} (f : A → res B) (Q : A → B → Prop) l : (∀ x, x ∈ l → ∃ y, f x = Ok y ∧ Q x y) →
  ∃ ys, collect (f <$> l) = Ok ys ∧ Forall2 Q l ys.
Proof.
  induction l as [|x l IH]; intros Hf; [exists []; split; [done|constructor]|]. destruct (Hf x) as (y & Ey & Hy); [lmem|].
  destruct IH as (ys & Eys & Hys); [intros; apply Hf; by right|]. exists (y :: ys). rewrite fmap_cons. cbn [collect]. rewrite Ey. cbn [mbind res_bind]. rewrite Eys.
  cbn [mbind res_bind]. split; [done|by constructor].
Qed.

Lemma zip_fst_snd {A B} (l : list (A * B)) : zip l.*1 l.*2 = l.
Proof. induction l as [|[a b] l IH]; [done|]. cbn. by f_equal. Qed.

Lemma group_items_spec s groups g grp : stack_repr s groups → groups !! g = Some grp → group_items s g = Ok grp.
Proof.
  intros [_ Hr Ha] Hg. unfold group_items. rewrite (list_key_get_at _ _ _ (Hr g grp Hg)). cbn [mbind res_bind].
  destruct (Ha g grp Hg) as (a & b & E1 & E2 & -> & Hat). unfold generic_key_get, slice_get at 1 2. rewrite E1. cbn [mbind res_bind].
  rewrite E2. cbn [mbind res_bind]. rewrite (proj2 (Nat.leb_le _ _)) by lia. cbn [mbind res_bind ok_len].
  rewrite length_fmap, (proj2 (Nat.eqb_eq _ _)) by lia. rewrite <-(length_fmap fst grp), collect_seq.
  - cbn [mbind res_bind]. by rewrite zip_fst_snd.
  - intros i x Hx. unfold offset_key_get. cbn [ok_item ok_offset]. by apply list_key_get_at, Hat.
Qed.

Lemma groups_spec s groups : stack_repr s groups → collect (group_items s <$> seq 0 (n_groups s)) = Ok groups.
Proof.
  intros Hs. unfold n_groups. rewrite (sr_len _ _ Hs). cbn [pred]. apply collect_seq. intros i x. by apply group_items_spec.
Qed.

(** A row [r] of a group is below a selected row, above a selected row or selected. *)
Definition has_selected_above (sel : list Z) (group : list item) (a : address) : Prop :=
  ∃ p rp, (p, rp) ∈ group ∧ rp ∈ sel ∧ below p a.
Definition has_selected_at_or_below (sel : list Z) (group : list item) (a : address) : Prop :=
  ∃ c rc, (c, rc) ∈ group ∧ rc ∈ sel ∧ a `prefix_of` c.

Lemma elem_join_fmap {A B} (f : A → list B) (l : list A) b : b ∈ mjoin (f <$> l) ↔ ∃ a, a ∈ l ∧ b ∈ f a.
Proof.
  rewrite list_elem_of_join. split.
  - intros (k & Hb & Hk). apply list_elem_of_fmap in Hk as (a & -> & Ha). eauto.
  - intros (a & Ha & Hb). exists (f a). split; [done|]. by apply list_elem_of_fmap_2.
Qed.

Lemma find_children_spec s groups parents include_parent : stack_repr s groups → Forall (λ g, NoDup g.*1) groups →
  ∃ out, find_children_impl parents include_parent s = Ok out ∧
    ∀ r, r ∈ out ↔ ∃ g a, g ∈ groups ∧ (a, r) ∈ g ∧ (has_selected_above parents g a ∨ include_parent = true ∧ r ∈ parents).
Proof.
  intros Hs Hnd. unfold find_children_impl. rewrite (groups_spec s groups Hs). cbn [mbind res_bind]. eexists. split; [done|].
  rewrite Forall_forall in Hnd. intros r. rewrite elem_join_fmap. unfold has_selected_above.
  apply exist_proper; intros g. split.
  - intros [Hg Hr]. apply children_loop_spec in Hr as (a & Ha & Hc); [|by apply sort_group_sorted, Hnd|done].
    rewrite elem_sort_group in Ha. exists a. do 2 (split; [done|]). destruct Hc as [(? & ? & _)|[(p & rp & Hp & Hc)|?]]; [done| |by right].
    rewrite elem_sort_group in Hp. left. eauto.
  - intros (a & Hg & Ha & Hc). split; [done|]. apply children_loop_spec; [by apply sort_group_sorted, Hnd|done|]. exists a.
    rewrite elem_sort_group. split; [done|]. right. destruct Hc as [(p & rp & Hp & Hc)|?]; [|by right]. left. exists p, rp.
    by rewrite elem_sort_group.
Qed.

Lemma find_parents_spec s groups children : stack_repr s groups → Forall (λ g, NoDup g.*1) groups →
  ∃ out, find_parents_impl children s = Ok out ∧
    ∀ r, r ∈ out ↔ ∃ g a, g ∈ groups ∧ (a, r) ∈ g ∧ has_selected_at_or_below children g a.
Proof.
  intros Hs Hnd. unfold find_parents_impl. rewrite (groups_spec s groups Hs). cbn [mbind res_bind]. eexists. split; [done|].
  rewrite Forall_forall in Hnd. intros r. rewrite elem_join_fmap. unfold has_selected_at_or_below. apply exist_proper; intros g. split.
  - intros [Hg Hr]. apply (parents_loop_spec children _ r [] []) in Hr as (a & c & rc & Ha & Hc & Hch & Hp); [|by apply sort_group_sorted, Hnd|done].
    cbn [app] in Ha. rewrite elem_sort_group in Ha, Hc. exists a. do 2 (split; [done|]). exists c, rc. done.
  - intros (a & Hg & Ha & c & rc & Hc & Hch & Hp). split; [done|]. apply (parents_loop_spec children _ r [] []); [by apply sort_group_sorted, Hnd|done|].
    exists a, c, rc. cbn [app]. by rewrite !elem_sort_group.
Qed.

(** ** The layout of groups *)

(** Offsets of consecutive lists. *)
Fixpoint offsets_from (start : nat) (lens : list nat) : list nat :=
  start :: match lens with [] => [] | n :: lens => offsets_from (start + n) lens end.

(** [Stack::from_df]: the aggregated columns as arrow list arrays. *)
Definition stack_of (groups : list (list item)) : Stack :=
  let addrs := mjoin ((λ g : list item, g.*1) <$> groups) in
  mkStack (mkGenericListKey (offsets_from 0 (length <$> groups)) (mkListKey (offsets_from 0 (length <$> addrs)) (mjoin addrs)))
          (mkListKey (offsets_from 0 (length <$> groups)) (mjoin ((λ g : list item, g.*2) <$> groups))).

Lemma length_offsets_from start lens : length (offsets_from start lens) = S (length lens).
Proof. revert start. induction lens as [|n lens IH]; intros start; cbn; [done|]. by rewrite IH. Qed.

Lemma offsets_from_at {A} (ls : list (list A)) i x : ls !! i = Some x → ∀ start pre, length pre = start →
  ∃ a, offsets_from start (length <$> ls) !! i = Some a ∧ offsets_from start (length <$> ls) !! (i + 1)%nat = Some (a + length x)%nat ∧
    (a + length x <= length (pre ++ mjoin ls))%nat ∧ take (length x) (drop a (pre ++ mjoin ls)) = x ∧ (start <= a)%nat.
Proof.
  revert i. induction ls as [|y ls IH]; intros [|i] Hi start pre Hp; try done; cbn [fmap list_fmap offsets_from] in *.
  - injection Hi as ->. exists start. change (mjoin (x :: ls)) with (x ++ mjoin ls). split; [done|]. split; [by destruct ls|].
    rewrite !length_app, <-Hp, drop_app_length, take_app_length. split; [lia|]. by split.
  - destruct (IH i Hi (start + length y)%nat (pre ++ y)) as (a & H1 & H2 & H3 & H4 & H5); [by rewrite length_app, Hp|].
    rewrite <-app_assoc in H3, H4. exists a. do 4 (split; [done|]). lia.
Qed.

Lemma offsets_list_at {A} (ls : list (list A)) i x : ls !! i = Some x → list_at (offsets_from 0 (length <$> ls)) (mjoin ls) i x.
Proof.
  intros Hi. destruct (offsets_from_at ls i x Hi 0 [] eq_refl) as (a & H1 & H2 & H3 & H4 & _). exists a, (a + length x)%nat.
  cbn [app] in H3, H4. replace (a + length x - a)%nat with (length x) by lia. split; [done|]. split; [done|]. split; [lia|done].
Qed.

Lemma stack_of_repr groups : stack_repr (stack_of groups) groups.
Proof.
  split; unfold stack_of; cbn [st_address st_row_index gk_offsets gk_item lk_offsets lk_values].
  - by rewrite length_offsets_from, length_fmap.
  - intros g grp Hg.
    replace (length <$> groups) with (length <$> ((λ g : list item, g.*2) <$> groups))
      by (rewrite <-list_fmap_compose; apply list_fmap_ext; intros; cbn; by rewrite length_fmap).
    apply offsets_list_at. by rewrite list_lookup_fmap, Hg.
  - intros g grp Hg. set (adds := (λ g : list item, g.*1) <$> groups).
    assert (length <$> groups = length <$> adds) as ->.
    { unfold adds. rewrite <-list_fmap_compose. apply list_fmap_ext. intros. cbn. by rewrite length_fmap. }
    assert (adds !! g = Some grp.*1) as Hg' by (unfold adds; by rewrite list_lookup_fmap, Hg).
    destruct (offsets_from_at adds g grp.*1 Hg' 0 [] eq_refl) as (a & H1 & H2 & H3 & H4 & _). rewrite length_fmap in H2, H3, H4.
    exists a, (a + length grp)%nat. do 3 (split; [done|]). intros j addr Hj. apply offsets_list_at. cbn [app] in H4.
    rewrite <-H4, lookup_take_Some, lookup_drop in Hj. apply Hj.
Qed.
