(* ===== verification/QueryArrow.v ===== *)
(** * Columns and masks of the query engine

    The arrow data the query engine (crates/query) computes with, seen as nullable cells: data
    types, arrays, scalars, record batches and boolean masks; and, as a class with laws, the
    arrow and polars kernels that the predicates of scan/array_predicate.rs call. *)
From stdpp Require Import gmap.
From S2P Require Import Prelude Bytes QueryStack.

Abbreviation Name := string.

(** ** Data *)

Inductive DataType : Type :=
| DInt (signed : bool) (bits : Z)
| DUtf8
| DBoolean
| DFixedSizeBinary (size : nat)
| DList (item : DataType)
| DNull
| DOther (tag : Z).

#[export] Instance DataType_eq_dec : EqDecision DataType.
Proof. solve_decision. Defined.

Definition DUInt8 := DInt false 8.
Definition DUInt16 := DInt false 16.
Definition DUInt32 := DInt false 32.
Definition DUInt64 := DInt false 64.
Definition DInt16 := DInt true 16.
Definition DInt32 := DInt true 32.

(** [DataType::is_integer] *)
Definition is_integer (ty : DataType) : bool := match ty with DInt _ _ => true | _ => false end.

(** [MIN_TOTAL_ORDER] and [MAX_TOTAL_ORDER] of the native types. *)
Definition int_min (signed : bool) (bits : Z) : Z := if signed then - 2 ^ (bits - 1) else 0.
Definition int_max (signed : bool) (bits : Z) : Z := if signed then 2 ^ (bits - 1) - 1 else 2 ^ bits - 1.

(** A value of a type the predicates do not look into is known by an identity only. *)
Inductive cell : Type :=
| CInt (z : Z)
| CBool (b : bool)
| CStr (s : string)
| CBytes (b : list Z)
| CInts (l : list Z)
| CStrs (l : list string)
| COther (id : Z).

#[export] Instance cell_eq_dec : EqDecision cell.
Proof. solve_decision. Defined.

(** The cells of a type. *)
Definition cell_ok (ty : DataType) (c : cell) : Prop :=
  match ty, c with
  | DInt signed bits, CInt z => int_min signed bits <= z <= int_max signed bits
  | DUtf8, CStr _ => True
  | DBoolean, CBool _ => True
  | DFixedSizeBinary n, CBytes b => length b = n ∧ bytes_ok b
  | DList (DInt signed bits), CInts l => Forall (λ z, int_min signed bits <= z <= int_max signed bits) l
  | DList DUtf8, CStrs _ => True
  | DList (DBoolean | DFixedSizeBinary _ | DList _ | DNull | DOther _), COther _ => True
  | DOther _, COther _ => True
  | _, _ => False
  end.

(** The types arrow compares, and their total order. *)
Definition comparable (ty : DataType) : bool :=
  match ty with DInt _ _ | DUtf8 | DBoolean | DFixedSizeBinary _ => true | _ => false end.

Definition cell_leb (a b : cell) : bool :=
  match a, b with
  | CInt x, CInt y => x <=? y
  | CBool x, CBool y => negb x || y
  | CStr x, CStr y => bytes_leb (str_bytes x) (str_bytes y)
  | CBytes x, CBytes y => bytes_leb x y
  | _, _ => false
  end.

(** An arrow array: its type and its cells, [None] for null. *)
Record array : Type := mkArray { arr_type : DataType; arr_cells : list (option cell) }.
Definition array_len (a : array) : nat := length (arr_cells a).
Definition array_ok (a : array) : Prop := Forall (λ c, from_option (cell_ok (arr_type a)) True c) (arr_cells a).

(** [Scalar<ArrayRef>]: an array of one value that is not null. *)
Record scalar : Type := mkScalar { sc_type : DataType; sc_value : cell }.
Definition scalar_ok (s : scalar) : Prop := cell_ok (sc_type s) (sc_value s).

(** [BooleanArray] *)
Abbreviation mask := (list (option bool)).

(** [RecordBatch] *)
Record RecordBatch : Type := mkBatch { rb_columns : list (Name * array); rb_num_rows : nat }.
Definition column_by_name (b : RecordBatch) (name : Name) : option array :=
  snd <$> head (filter (λ c, c.1 = name) (rb_columns b)).
Definition batch_ok (b : RecordBatch) : Prop :=
  Forall (λ c, array_ok c.2 ∧ array_len c.2 = rb_num_rows b) (rb_columns b).

(** ** The kernels *)

(** What the comparison kernels compute for a cell: null compares to null. *)
Definition cmp_cell (f : cell → bool) (c : option cell) : option bool := f <$> c.
(** [and] and [or] of arrow: null if either side is null. *)
Definition and3 (a b : option bool) : option bool := x ← a; y ← b; Some (x && y).
Definition or3 (a b : option bool) : option bool := x ← a; y ← b; Some (x || y).

Class ArrowCompute : Type := {
  (* arrow::compute::kernels::cmp *)
  cmp_eq : array → scalar → res mask;
  cmp_gt_eq : scalar → array → res mask;
  cmp_lt_eq : scalar → array → res mask;
  (* arrow::compute::{and, or} *)
  compute_and : mask → mask → res mask;
  compute_or : mask → mask → res mask;
  (* arrow::compute::cast_with_options with safe: false *)
  cast_with_options : scalar → DataType → res scalar;
  (* polars is_in on the series of an array, with the list of values of a type *)
  is_in : array → DataType → list cell → res mask
}.

(** What their documentation says. *)
Class ArrowComputeLaws `{ArrowCompute} : Prop := {
  cmp_eq_spec a s : arr_type a = sc_type s → comparable (arr_type a) = true → array_ok a → scalar_ok s →
    cmp_eq a s = Ok (cmp_cell (λ c, bool_decide (c = sc_value s)) <$> arr_cells a);
  cmp_gt_eq_spec a s : arr_type a = sc_type s → comparable (arr_type a) = true → array_ok a → scalar_ok s →
    cmp_gt_eq s a = Ok (cmp_cell (λ c, cell_leb c (sc_value s)) <$> arr_cells a);
  cmp_lt_eq_spec a s : arr_type a = sc_type s → comparable (arr_type a) = true → array_ok a → scalar_ok s →
    cmp_lt_eq s a = Ok (cmp_cell (λ c, cell_leb (sc_value s) c) <$> arr_cells a);
  compute_and_spec m1 m2 : length m1 = length m2 → compute_and m1 m2 = Ok (zip_with and3 m1 m2);
  compute_or_spec m1 m2 : length m1 = length m2 → compute_or m1 m2 = Ok (zip_with or3 m1 m2);
  is_in_spec a ty vs : arr_type a = ty → array_ok a → Forall (cell_ok ty) vs →
    is_in a ty vs = Ok (cmp_cell (λ c, bool_decide (c ∈ vs)) <$> arr_cells a)
}.

(** ** Order *)

Lemma cell_leb_refl ty c : comparable ty = true → cell_ok ty c → cell_leb c c = true.
Proof.
  destruct ty, c; cbn [comparable cell_ok cell_leb]; try done; intros.
  - lia.
  - apply bytes_leb_spec, bytes_le_refl.
  - by destruct b.
  - apply bytes_leb_spec, bytes_le_refl.
Qed.

Lemma cell_leb_trans a b c : cell_leb a b = true → cell_leb b c = true → cell_leb a c = true.
Proof.
  destruct a, b, c; cbn [cell_leb]; try done; intros.
  - lia.
  - by repeat match goal with b : bool |- _ => destruct b end.
  - rewrite bytes_leb_spec in *; eauto with sqd.
  - rewrite bytes_leb_spec in *; eauto with sqd.
Qed.

(** ** A concrete instance *)

Module PlainCompute.
Definition cmp (f : cell → bool) (a : array) (s : scalar) : res mask :=
  if decide (arr_type a = sc_type s) then
    if comparable (arr_type a) then Ok (cmp_cell f <$> arr_cells a) else Err (EMsg "Nested comparison")
  else Err (EMsg "Invalid comparison operation").
Definition zip_masks (f : option bool → option bool → option bool) (m1 m2 : mask) : res mask :=
  if (length m1 =? length m2)%nat then Ok (zip_with f m1 m2) else Err (EMsg "Cannot perform bitwise operation on arrays of different length").

#[export] Instance plain_compute : ArrowCompute := {
  cmp_eq a s := cmp (λ c, bool_decide (c = sc_value s)) a s;
  cmp_gt_eq s a := cmp (λ c, cell_leb c (sc_value s)) a s;
  cmp_lt_eq s a := cmp (λ c, cell_leb (sc_value s) c) a s;
  compute_and := zip_masks and3;
  compute_or := zip_masks or3;
  cast_with_options s ty := Err (EMsg "Casting is not supported");
  is_in a ty vs := if decide (arr_type a = ty) then Ok (cmp_cell (λ c, bool_decide (c ∈ vs)) <$> arr_cells a) else Err (EMsg "is_in")
}.

#[export] Instance plain_compute_laws : ArrowComputeLaws.
Proof.
  split; cbn; unfold cmp, zip_masks; intros.
  1-3: rewrite decide_True by done; by rewrite H0.
  1-2: by rewrite (proj2 (Nat.eqb_eq _ _)).
  by rewrite decide_True by done.
Qed.
End PlainCompute.

(** * Bloom filters

    The filter of crates/bloom-filter/src/lib.rs, with the hash function (the crate
    xxhash-rust) as a parameter, and the subset tests of query/src/scan/array_predicate.rs that
    look for the filter of one value in a column of filters. *)

(** ** The filter *)

Record BloomFilter : Type := mkBloom { bf_bytes : list Z; bf_num_hashes : nat }.

Definition bloom_new (byte_size num_hashes : nat) : BloomFilter := mkBloom (replicate byte_size 0) num_hashes.

Definition bloom_clear (f : BloomFilter) : BloomFilter := mkBloom ((λ _, 0) <$> bf_bytes f) (bf_num_hashes f).

Definition get_bit (data : list Z) (i : nat) : res bool :=
  b ← slice_get data (i / 8);
  Ok (negb (Z.land b (Z.shiftl 1 (Z.of_nat (i mod 8))) =? 0)).

Definition set_bit (data : list Z) (i : nat) : res (list Z) :=
  b ← slice_get data (i / 8);
  Ok (<[(i / 8)%nat := Z.lor b (Z.shiftl 1 (Z.of_nat (i mod 8)))]> data).

Section bloom.
Context {T : Type} (xxh3 : Z → T → Z).

Definition hash_bit (f : BloomFilter) (n : nat) (item : T) : res nat :=
  let m := Z.of_nat (length (bf_bytes f) * 8) in
  if m =? 0 then Panic "attempt to calculate the remainder with a divisor of zero"
  else Ok (Z.to_nat (xxh3 (Z.of_nat n) item mod m)).

Definition bloom_insert (f : BloomFilter) (item : T) : res BloomFilter :=
  fold_res (λ (f : BloomFilter) (i : nat), bit ← hash_bit f i item; data ← set_bit (bf_bytes f) bit; Ok (mkBloom data (bf_num_hashes f)))
    (seq 0 (bf_num_hashes f)) f.

Fixpoint contains_loop (f : BloomFilter) (item : T) (is_ : list nat) : res bool :=
  match is_ with
  | [] => Ok true
  | i :: is_ => bit ← hash_bit f i item; b ← get_bit (bf_bytes f) bit; if (b : bool) then contains_loop f item is_ else Ok false
  end.
Definition bloom_contains (f : BloomFilter) (item : T) : res bool := contains_loop f item (seq 0 (bf_num_hashes f)).
End bloom.

(** ** The column predicate *)

(** [to_typed_slice] for a native type of [w] bytes: the words of a buffer, little-endian.
    Buffers are taken to be aligned; a length that is not a multiple leaves a suffix. *)
Fixpoint words (w n : nat) (l : list Z) : list (list Z) :=
  match n with O => [] | S n => take w l :: words w n (drop w l) end.
Fixpoint le_word (l : list Z) : Z := match l with [] => 0 | b :: l => b + 256 * le_word l end.
Definition to_typed_slice (w : nat) (l : list Z) : res (list Z) :=
  if (length l mod w =? 0)%nat then Ok (le_word <$> words w (length l / w) l) else Panic "assertion failed: suffix.is_empty()".

Definition eval_static (w n : nat) (value blooms : list Z) : res (list bool) :=
  value ← to_typed_slice w value;
  _ ← (if (length value =? n)%nat then Ok tt else Panic "TryFromSliceError");
  blooms ← to_typed_slice w blooms;
  _ ← (if (length blooms mod n =? 0)%nat then Ok tt else Panic "assertion failed: blooms.len() % N == 0");
  Ok ((λ i, let bloom := take n (drop (i * n) blooms) in bool_decide (zip_with Z.land value bloom = value))
        <$> seq 0 (length blooms / n)).

(** The window of item [i] starts at word [i], as in the source. *)
Definition eval_dynamic (w : nat) (value blooms : list Z) : res (list bool) :=
  value ← to_typed_slice w value;
  blooms ← to_typed_slice w blooms;
  _ ← (if (length blooms mod length value =? 0)%nat then Ok tt else Panic "assertion failed: blooms.len() % value.len() == 0");
  Ok ((λ i, let bloom := take (length value) (drop i blooms) in forallb (λ vb, Z.land vb.1 vb.2 =? vb.1) (zip value bloom))
        <$> seq 0 (length blooms / length value)).

(** [BloomFilter::evaluate] on the bytes of the column. *)
Definition bloom_eval (value values : list Z) : res (list bool) :=
  let size := length value in
  if (size =? 64)%nat then eval_static 16 4 value values
  else if (size mod 16 =? 0)%nat then eval_dynamic 16 value values
  else if (size mod 8 =? 0)%nat then eval_dynamic 8 value values
  else eval_dynamic 1 value values.

(** ** Bits *)

(** The bit [i] of a byte string. *)
Definition bit_at (data : list Z) (i : nat) : bool := Z.testbit (nth (i / 8) data 0) (Z.of_nat (i mod 8)).

Lemma land_bit b k : 0 <= k → negb (Z.land b (Z.shiftl 1 k) =? 0) = Z.testbit b k.
Proof.
  intros Hk. rewrite Z.shiftl_1_l. destruct (Z.testbit b k) eqn:E.
  - apply negb_true_iff, Z.eqb_neq. intros H. apply (f_equal (λ x, Z.testbit x k)) in H.
    rewrite Z.land_spec, Z.pow2_bits_true, Z.bits_0, E in H by lia. done.
  - apply negb_false_iff, Z.eqb_eq. apply Z.bits_inj'. intros n Hn. rewrite Z.land_spec, Z.bits_0.
    destruct (decide (n = k)) as [->|Hne]; [by rewrite E|]. rewrite Z.pow2_bits_false by lia. by rewrite andb_false_r.
Qed.

Lemma slice_get_nth {A} (l : list A) i d : (i < length l)%nat → slice_get l i = Ok (nth i l d).
Proof. intros H. unfold slice_get. destruct (lookup_lt_is_Some_2 l i H) as [x Hx]. rewrite Hx. by rewrite (nth_lookup_Some _ _ _ _ Hx). Qed.

Lemma div8_lt i n : (i < n * 8)%nat → (i / 8 < n)%nat.
Proof. intros. apply Nat.Div0.div_lt_upper_bound. lia. Qed.

Lemma get_bit_spec data i : (i < length data * 8)%nat → get_bit data i = Ok (bit_at data i).
Proof.
  intros Hi. unfold get_bit. rewrite (slice_get_nth _ _ 0) by (by apply div8_lt). cbn [mbind res_bind].
  unfold bit_at. rewrite land_bit by lia. done.
Qed.

Lemma set_bit_spec data i : (i < length data * 8)%nat →
  ∃ data', set_bit data i = Ok data' ∧ length data' = length data ∧ ∀ j, bit_at data' j = bit_at data j || (j =? i)%nat.
Proof.
  intros Hi. unfold set_bit. rewrite (slice_get_nth _ _ 0) by (by apply div8_lt). cbn [mbind res_bind]. eexists. split; [done|].
  rewrite length_insert. split; [done|]. intros j. unfold bit_at. pose proof (div8_lt _ _ Hi) as Hlt.
  pose proof (Nat.div_mod_eq i 8). pose proof (Nat.div_mod_eq j 8).
  destruct (decide (j / 8 = i / 8)%nat) as [E|E].
  - rewrite E. rewrite (nth_lookup_Some _ _ 0 _ (list_lookup_insert_eq data (i / 8) _ Hlt)). rewrite Z.lor_spec, Z.shiftl_1_l.
    f_equal. destruct (j =? i)%nat eqn:Ej.
    + apply Nat.eqb_eq in Ej as ->. apply Z.pow2_bits_true. lia.
    + apply Nat.eqb_neq in Ej. apply Z.pow2_bits_false. lia.
  - rewrite (proj2 (Nat.eqb_neq j i)) by congruence. rewrite orb_false_r. f_equal. rewrite !nth_lookup. by rewrite list_lookup_insert_ne.
Qed.

(** ** The filter of a value *)

Section filter.
Context {T : Type} (xxh3 : Z → T → Z).

(** The bits a value sets in a filter of [len] bytes. *)
Definition item_bit (len : nat) (item : T) (k : nat) : nat := Z.to_nat (xxh3 (Z.of_nat k) item mod Z.of_nat (len * 8)).
Definition item_bits (len n : nat) (item : T) : list nat := item_bit len item <$> seq 0 n.

Lemma item_bit_lt len item k : (0 < len)%nat → (item_bit len item k < len * 8)%nat.
Proof. intros. unfold item_bit. pose proof (Z.mod_pos_bound (xxh3 (Z.of_nat k) item) (Z.of_nat (len * 8))). lia. Qed.

Lemma hash_bit_spec f item k : (0 < length (bf_bytes f))%nat → hash_bit xxh3 f k item = Ok (item_bit (length (bf_bytes f)) item k).
Proof. intros. unfold hash_bit. by rewrite (proj2 (Z.eqb_neq _ _)) by lia. Qed.

Lemma bloom_insert_spec f item : (0 < length (bf_bytes f))%nat →
  ∃ f', bloom_insert xxh3 f item = Ok f' ∧ length (bf_bytes f') = length (bf_bytes f) ∧ bf_num_hashes f' = bf_num_hashes f ∧
    ∀ j, bit_at (bf_bytes f') j = true ↔ bit_at (bf_bytes f) j = true ∨ j ∈ item_bits (length (bf_bytes f)) (bf_num_hashes f) item.
Proof.
  intros Hl. unfold bloom_insert, item_bits.
  assert (∀ ks g, length (bf_bytes g) = length (bf_bytes f) → bf_num_hashes g = bf_num_hashes f →
    ∃ f', fold_res (λ f i, bit ← hash_bit xxh3 f i item; data ← set_bit (bf_bytes f) bit; Ok (mkBloom data (bf_num_hashes f))) ks g = Ok f' ∧
      length (bf_bytes f') = length (bf_bytes f) ∧ bf_num_hashes f' = bf_num_hashes f ∧
      ∀ j, bit_at (bf_bytes f') j = true ↔ bit_at (bf_bytes g) j = true ∨ j ∈ item_bit (length (bf_bytes f)) item <$> ks) as H; [|by apply H].
  induction ks as [|k ks IH]; intros g Hg Hn; cbn [fold_res].
  - exists g. do 3 (split; [done|]). intros j. rewrite fmap_nil, elem_of_nil. tauto.
  - rewrite hash_bit_spec by lia. cbn [mbind res_bind]. rewrite Hg.
    destruct (set_bit_spec (bf_bytes g) (item_bit (length (bf_bytes f)) item k)) as (data & -> & Hd & Hb).
    { rewrite Hg. by apply item_bit_lt. }
    cbn [mbind res_bind]. destruct (IH (mkBloom data (bf_num_hashes g))) as (f' & -> & ? & ? & Hj); [cbn; lia|done|].
    exists f'. do 3 (split; [done|]). intros j. rewrite Hj, fmap_cons, elem_of_cons. cbn [bf_bytes]. rewrite Hb, orb_true_iff, Nat.eqb_eq. tauto.
Qed.

Lemma bloom_contains_spec f item : (0 < length (bf_bytes f))%nat →
  ∃ b, bloom_contains xxh3 f item = Ok b ∧
    (b = true ↔ ∀ j, j ∈ item_bits (length (bf_bytes f)) (bf_num_hashes f) item → bit_at (bf_bytes f) j = true).
Proof.
  intros Hl. unfold bloom_contains, item_bits. induction (seq 0 (bf_num_hashes f)) as [|k ks IH]; cbn [contains_loop].
  - exists true. split; [done|]. split; [|done]. intros _ j. rewrite fmap_nil. by intros ?%elem_of_nil.
  - rewrite hash_bit_spec by done. cbn [mbind res_bind]. rewrite get_bit_spec by (by apply item_bit_lt). cbn [mbind res_bind].
    destruct IH as (b & E & Hb). rewrite fmap_cons. destruct (bit_at (bf_bytes f) (item_bit _ item k)) eqn:Eb.
    + exists b. split; [done|]. rewrite Hb. split; intros Hj j.
      * intros [->|?]%elem_of_cons; auto.
      * intros Hin. apply Hj. lmem.
    + exists false. split; [done|]. split; [done|]. intros Hj. rewrite Hj in Eb; [done|lmem].
Qed.
End filter.

Lemma bit_at_new n j : bit_at (replicate n 0) j = false.
Proof.
  unfold bit_at. rewrite nth_lookup. destruct (replicate n 0 !! (j / 8)%nat) as [x|] eqn:E; cbn [default from_option id].
  - apply lookup_replicate in E as [-> _]. apply Z.testbit_0_l.
  - apply Z.testbit_0_l.
Qed.

(** ** Subsets of bits *)

(** Every bit of [v] is set in [b]. *)
Definition subset (v b : list Z) : Prop := ∀ j, bit_at v j = true → bit_at b j = true.

Lemma testbit_byte x X n : 0 <= x < 256 → 0 <= n → Z.testbit (x + 256 * X) n = if n <? 8 then Z.testbit x n else Z.testbit X (n - 8).
Proof.
  intros Hx Hn. case_if; zbool.
  - rewrite <-(Z.mod_pow2_bits_low _ 8 n) by lia. change (2 ^ 8) with 256. rewrite Z.mul_comm, Z.mod_add, Z.mod_small by lia. done.
  - replace n with (n - 8 + 8) at 1 by lia. rewrite <-Z.div_pow2_bits by lia. change (2 ^ 8) with 256.
    by rewrite Z.mul_comm, Z.div_add, Z.div_small by lia.
Qed.

Lemma land_bound x y : 0 <= x < 256 → 0 <= Z.land x y < 256.
Proof.
  intros Hx. split; [apply Z.land_nonneg; lia|].
  replace x with (Z.land x (Z.ones 8)) by (rewrite Z.land_ones by lia; apply Z.mod_small; cbn; lia).
  rewrite <-Z.land_assoc, (Z.land_comm _ y), Z.land_assoc, Z.land_ones by lia. apply Z.mod_pos_bound. lia.
Qed.

Lemma land_byte x y X Y : 0 <= x < 256 → 0 <= y < 256 → Z.land (x + 256 * X) (y + 256 * Y) = Z.land x y + 256 * Z.land X Y.
Proof.
  intros Hx Hy. pose proof (land_bound x y Hx) as Hxy.
  apply Z.bits_inj'. intros n Hn. rewrite Z.land_spec, !testbit_byte by lia. case_if; by rewrite Z.land_spec.
Qed.

Lemma land_le_word v b : bytes_ok v → bytes_ok b → length v = length b →
  Z.land (le_word v) (le_word b) = le_word v ↔ Forall2 (λ x y, Z.land x y = x) v b.
Proof.
  intros Hv. revert b. induction Hv as [|x v Hx Hv IH]; intros [|y b] Hb Hl; try done.
  apply Forall_cons in Hb as [Hy Hb]. unfold byte_ok in Hx, Hy. cbn [le_word].
  rewrite land_byte, Forall2_cons, <-IH by (done || cbn in Hl; lia). pose proof (land_bound x y). lia.
Qed.

Lemma land_words w n v b : bytes_ok v → bytes_ok b → length v = (w * n)%nat → length b = (w * n)%nat →
  zip_with Z.land (le_word <$> words w n v) (le_word <$> words w n b) = le_word <$> words w n v ↔ Forall2 (λ x y, Z.land x y = x) v b.
Proof.
  revert v b. induction n as [|n IH]; intros v b Hv Hb Hlv Hlb; cbn [words].
  { rewrite Nat.mul_0_r in Hlv, Hlb. apply nil_length_inv in Hlv as ->. by apply nil_length_inv in Hlb as ->. }
  rewrite !fmap_cons. cbn [zip_with].
  assert (length (take w v) = length (take w b)) as Hl by (rewrite !length_take; lia).
  assert (∀ l1 l2 k1 k2, length l1 = length k1 → Forall2 (λ x y, Z.land x y = x) (l1 ++ l2) (k1 ++ k2) ↔
    Forall2 (λ x y, Z.land x y = x) l1 k1 ∧ Forall2 (λ x y, Z.land x y = x) l2 k2) as Happ.
  { intros l1 l2 k1 k2 E. split; [by apply Forall2_app_inv|intros []; by apply Forall2_app]. }
  specialize (Happ (take w v) (drop w v) (take w b) (drop w b) Hl). rewrite !take_drop in Happ. rewrite Happ.
  rewrite <-land_le_word, <-IH by first [by apply Forall_take|by apply Forall_drop|done|rewrite length_drop; lia].
  split; [by intros [= ? ?]|]. intros [-> ->]. done.
Qed.

Lemma subset_spec v b : bytes_ok v → length v = length b → Forall2 (λ x y, Z.land x y = x) v b ↔ subset v b.
Proof.
  intros Hv Hl. rewrite Forall2_lookup. unfold subset, bit_at. split.
  - intros H j. specialize (H (j / 8)%nat). rewrite !nth_lookup. destruct H as [x y E|]; cbn [default from_option id]; [|done].
    rewrite <-E at 1. rewrite Z.land_spec. by intros [_ ?]%andb_true_iff.
  - intros H i. destruct (v !! i) as [x|] eqn:Ex.
    + destruct (lookup_lt_is_Some_2 b i) as [y Ey]; [rewrite <-Hl; by eapply lookup_lt_Some|]. rewrite Ey. constructor.
      apply Z.bits_inj'. intros n Hn. rewrite Z.land_spec. destruct (Z.testbit x n) eqn:Et; [|done]. rewrite andb_true_l.
      assert (n < 8) as Hn8.
      { destruct (Z.lt_ge_cases n 8) as [|Hge]; [done|]. assert (byte_ok x) as Hx by (by eapply Forall_lookup_1 in Hv). unfold byte_ok in Hx.
        rewrite Z.testbit_eqb, Z.div_small in Et; [done| |lia]. pose proof (Z.pow_le_mono_r 2 8 n eq_refl Hge) as Hp. change (2 ^ 8) with 256 in Hp. lia. }
      assert ((i * 8 + Z.to_nat n) / 8 = i)%nat as Hd by (symmetry; apply (Nat.div_unique _ _ i (Z.to_nat n)); lia).
      assert ((i * 8 + Z.to_nat n) mod 8 = Z.to_nat n)%nat as Hm by (symmetry; apply (Nat.mod_unique _ _ i (Z.to_nat n)); lia).
      specialize (H (i * 8 + Z.to_nat n)%nat). rewrite Hd, Hm, !nth_lookup, Ex, Ey, Z2Nat.id in H by lia. by apply H.
    + rewrite (proj2 (lookup_ge_None b i)); [constructor|]. rewrite <-Hl. by apply lookup_ge_None.
Qed.

Lemma length_words w n l : length (words w n l) = n.
Proof. revert l. induction n as [|n IH]; intros l; cbn; [done|]. by rewrite IH. Qed.

Lemma words_app w n m a b : length a = (w * n)%nat → words w (n + m) (a ++ b) = words w n a ++ words w m b.
Proof.
  revert a. induction n as [|n IH]; intros a Ha; cbn [words Nat.add app].
  - rewrite Nat.mul_0_r in Ha. by apply nil_length_inv in Ha as ->.
  - rewrite take_app_le, drop_app_le by lia. f_equal. apply IH. rewrite length_drop. lia.
Qed.

Lemma words_join w n bs : Forall (λ b, length b = (w * n)%nat) bs → words w (length bs * n) (mjoin bs) = mjoin (words w n <$> bs).
Proof.
  induction 1 as [|b bs Hb _ IH]; [done|]. change (mjoin (b :: bs)) with (b ++ mjoin bs). cbn [length Nat.mul]. rewrite words_app by done.
  by rewrite IH.
Qed.

Lemma drop_equal_parts {A} (n : nat) (ls : list (list A)) i x : Forall (λ l, length l = n) ls → ls !! i = Some x → take n (drop (i * n) (mjoin ls)) = x.
Proof.
  intros Hl. revert i. induction Hl as [|y ls Hy Hl IH]; intros [|i] Hi; try done; change (mjoin (y :: ls)) with (y ++ mjoin ls).
  - injection Hi as <-. rewrite Nat.mul_0_l, drop_0. by rewrite take_app_length'.
  - cbn [Nat.mul]. rewrite <-Hy, <-drop_drop, drop_app_length, Hy. by apply IH.
Qed.

Lemma length_join_same {A} (n : nat) (ls : list (list A)) : Forall (λ l, length l = n) ls → length (mjoin ls) = (length ls * n)%nat.
Proof. induction 1 as [|x ls Hx _ IH]; [done|]. change (mjoin (x :: ls)) with (x ++ mjoin ls). rewrite length_app, IH, Hx. cbn. lia. Qed.

Lemma fmap_mjoin {A B} (f : A → B) (ls : list (list A)) : f <$> mjoin ls = mjoin ((λ l, f <$> l) <$> ls).
Proof. induction ls as [|l ls IH]; [done|]. change (mjoin (l :: ls)) with (l ++ mjoin ls). rewrite fmap_app, IH. done. Qed.

(** [eval_static] tests every filter of the column for the bits of the value. *)
Lemma eval_static_spec w n value bs : (0 < w)%nat → (0 < n)%nat → bytes_ok value → length value = (w * n)%nat →
  Forall (λ b, bytes_ok b ∧ length b = (w * n)%nat) bs →
  ∃ out, eval_static w n value (mjoin bs) = Ok out ∧ Forall2 (λ b r, r = true ↔ subset value b) bs out.
Proof.
  intros Hw Hn Hv Hlv Hbs. assert (Forall (λ b, length b = (w * n)%nat) bs) as Hlb by (eapply Forall_impl; [done|]; naive_solver).
  unfold eval_static, to_typed_slice.
  rewrite Hlv, (Nat.mul_comm w n), Nat.Div0.mod_mul, Nat.div_mul by lia. cbn [Nat.eqb mbind res_bind].
  rewrite length_fmap, length_words, Nat.eqb_refl. cbn [mbind res_bind].
  rewrite (length_join_same (w * n)) by done. replace (length bs * (w * n))%nat with (length bs * n * w)%nat by lia.
  rewrite Nat.Div0.mod_mul, Nat.div_mul by lia. cbn [Nat.eqb mbind res_bind].
  rewrite length_fmap, length_words, Nat.Div0.mod_mul, Nat.div_mul by lia. cbn [Nat.eqb mbind res_bind].
  eexists. split; [done|]. apply Forall2_fmap_r. rewrite words_join by done.
  apply Forall2_lookup. intros i. destruct (bs !! i) as [b|] eqn:Eb.
  - rewrite lookup_seq_lt by (by eapply lookup_lt_Some). constructor. unfold compose. rewrite Nat.add_0_l, bool_decide_eq_true.
    rewrite fmap_mjoin, <-list_fmap_compose, (drop_equal_parts n _ i (le_word <$> words w n b)).
    + eapply Forall_lookup_1 in Hbs as [Hb Hl]; [|done]. rewrite land_words by done. apply subset_spec; [done|lia].
    + apply Forall_forall. intros x Hx. apply list_elem_of_fmap in Hx as (y & -> & _). cbn. by rewrite length_fmap, length_words.
    + by rewrite list_lookup_fmap, Eb.
  - rewrite lookup_seq_ge by (by apply lookup_ge_None). constructor.
Qed.

(** ** Properties *)

Lemma bytes_ok_zero n : bytes_ok (replicate n 0).
Proof. apply Forall_replicate. unfold byte_ok. lia. Qed.

Lemma byte_lor_bit b i : byte_ok b → byte_ok (Z.lor b (Z.shiftl 1 (Z.of_nat (i mod 8)))).
Proof.
  intros Hb. unfold byte_ok in *. pose proof (Nat.mod_upper_bound i 8 ltac:(lia)) as Hk. revert Hk. generalize (i mod 8)%nat. intros k Hk.
  assert (0 <= Z.shiftl 1 (Z.of_nat k) < 256).
  { rewrite Z.shiftl_1_l. split; [apply Z.pow_nonneg; lia|]. change 256 with (2 ^ 8). apply Z.pow_lt_mono_r; lia. }
  assert (0 <= Z.lor b (Z.shiftl 1 (Z.of_nat k))) as Hn by (apply Z.lor_nonneg; lia). split; [done|].
  apply Z.lt_succ_r. change (Z.succ 255) with (2 ^ 8). apply Z.bounded_iff_bits_nonneg; [lia|done|]. intros l Hl.
  rewrite Z.lor_spec. apply orb_false_iff. split.
  - apply (proj1 (Z.bounded_iff_bits_nonneg 8 b ltac:(lia) ltac:(lia))); [cbn; lia|done].
  - apply (proj1 (Z.bounded_iff_bits_nonneg 8 (Z.shiftl 1 (Z.of_nat k)) ltac:(lia) ltac:(lia))); [cbn; lia|done].
Qed.

Lemma set_bit_bytes data i data' : bytes_ok data → set_bit data i = Ok data' → bytes_ok data'.
Proof.
  unfold set_bit, slice_get. intros Hd E. destruct (data !! (i / 8)%nat) as [b|] eqn:Eb; [|done]. injection E as <-.
  apply Forall_insert; [done|]. apply byte_lor_bit. by eapply Forall_lookup_1.
Qed.

Lemma bloom_insert_bytes {T} (xxh3 : Z → T → Z) f item f' : bytes_ok (bf_bytes f) → bloom_insert xxh3 f item = Ok f' → bytes_ok (bf_bytes f').
Proof.
  unfold bloom_insert. generalize (seq 0 (bf_num_hashes f)). intros ks. revert f. induction ks as [|k ks IH]; intros f Hf E; cbn [fold_res] in E.
  { by injection E as <-. }
  apply bind_Ok in E as (g & Hg & E). apply bind_Ok in Hg as (bit & _ & Hg). apply bind_Ok in Hg as (data & Hd & Hg). injection Hg as <-.
  eapply IH; [|exact E]. by eapply set_bit_bytes.
Qed.

(** The filter of one value, and a filter into which a list of values went. *)
Definition filter_of {T} (xxh3 : Z → T → Z) (byte_size num_hashes : nat) (items : list T) : res BloomFilter :=
  fold_res (bloom_insert xxh3) items (bloom_new byte_size num_hashes).

Section properties.
Context {T : Type} (xxh3 : Z → T → Z).

Lemma fold_insert_spec items : ∀ f, (0 < length (bf_bytes f))%nat → bytes_ok (bf_bytes f) →
  ∃ f', fold_res (bloom_insert xxh3) items f = Ok f' ∧ length (bf_bytes f') = length (bf_bytes f) ∧ bf_num_hashes f' = bf_num_hashes f ∧
    bytes_ok (bf_bytes f') ∧ ∀ j, bit_at (bf_bytes f') j = true ↔ bit_at (bf_bytes f) j = true ∨
      ∃ item, item ∈ items ∧ j ∈ item_bits xxh3 (length (bf_bytes f)) (bf_num_hashes f) item.
Proof.
  induction items as [|x items IH]; intros f Hl Hb; cbn [fold_res].
  - exists f. do 4 (split; [done|]). intros j. split; [by left|]. intros [?|(? & ?%elem_of_nil & _)]; done.
  - destruct (bloom_insert_spec xxh3 f x Hl) as (g & E & Hg & Hn & Hj). rewrite E. cbn [mbind res_bind].
    destruct (IH g) as (f' & -> & H1 & H2 & H3 & H4); [lia|by eapply bloom_insert_bytes|]. rewrite Hg, Hn in *.
    exists f'. do 4 (split; [done|]). intros j. rewrite H4, Hj. split.
    + intros [[?|?]|(y & ? & ?)]; [by left|right; exists x; split; [lmem|done]|right; exists y; split; [lmem|done]].
    + intros [?|(y & [->|?]%elem_of_cons & ?)]; [tauto|tauto|]. right. eauto.
Qed.

(** A filter into which a value was put says that it contains it. *)
Lemma bloom_no_false_negative byte_size n items x : (0 < byte_size)%nat → x ∈ items →
  ∃ f, filter_of xxh3 byte_size n items = Ok f ∧ bloom_contains xxh3 f x = Ok true.
Proof.
  intros Hs Hx. destruct (fold_insert_spec items (bloom_new byte_size n)) as (f & Ef & H1 & H2 & _ & H4);
    [cbn; by rewrite length_replicate|apply bytes_ok_zero|]. exists f. split; [done|]. cbn in H1, H2. rewrite length_replicate in H1.
  destruct (bloom_contains_spec xxh3 f x) as (b & -> & Hb); [lia|]. f_equal. apply Hb. intros j Hj. apply H4. right. exists x.
  cbn. rewrite length_replicate, <-H1, <-H2. done.
Qed.

(** The bits of the filter of one value are those [contains] looks up. *)
Lemma contains_subset n x v b : bloom_insert xxh3 (bloom_new 64 n) x = Ok v → length b = 64%nat →
  ∃ r, bloom_contains xxh3 (mkBloom b n) x = Ok r ∧ (r = true ↔ subset (bf_bytes v) b).
Proof.
  intros Ev Hl. destruct (bloom_insert_spec xxh3 (bloom_new 64 n) x) as (v' & Ev' & _ & _ & Hj); [cbn; lia|]. rewrite Ev in Ev'. injection Ev' as <-.
  destruct (bloom_contains_spec xxh3 (mkBloom b n) x) as (r & -> & Hr); [cbn; lia|]. exists r. split; [done|]. rewrite Hr. cbn [bf_bytes bf_num_hashes]. rewrite Hl.
  unfold subset. split; intros H j Hin.
  - apply Hj in Hin as [Hin|Hin]; [unfold bloom_new in Hin; cbn [bf_bytes] in Hin; by rewrite bit_at_new in Hin|]. by apply H.
  - apply H, Hj. by right.
Qed.

(** C36: The bloom filter predicate over a column of 64-byte filters, the size the Solana
    tables store, answers for each row exactly what [BloomFilter::contains] answers on the
    filter of that row, and so never rejects a row whose filter had the value put into it. *)
Theorem bloom_predicate_exact (n : nat) (x : T) (column : list (list Z)) :
  Forall (λ b, bytes_ok b ∧ length b = 64%nat) column →
  ∃ value out, filter_of xxh3 64 n [x] = Ok value ∧ bloom_eval (bf_bytes value) (mjoin column) = Ok out ∧
    Forall2 (λ b r, bloom_contains xxh3 (mkBloom b n) x = Ok r ∧
      ∀ items, x ∈ items → filter_of xxh3 64 n items = Ok (mkBloom b n) → r = true) column out.
Proof.
  intros Hc. destruct (fold_insert_spec [x] (bloom_new 64 n)) as (v & Ev & H1 & H2 & H3 & H4); [cbn; lia|apply bytes_ok_zero|].
  cbn in H1, H2. destruct (eval_static_spec 16 4 (bf_bytes v) column) as (out & Eo & Hout); [lia|lia|done|done|done|].
  exists v, out. split; [done|]. split; [unfold bloom_eval; by rewrite H1|].
  assert (∀ b r, length b = 64%nat → (r = true ↔ subset (bf_bytes v) b) → bloom_contains xxh3 (mkBloom b n) x = Ok r) as Hin.
  { intros b r Hl Hr. cbn [filter_of fold_res] in Ev. apply bind_Ok in Ev as (v' & Ev & [= ->]). destruct (contains_subset n x v b Ev Hl) as (r' & -> & Hr').
    f_equal. apply eq_bool_prop_intro. by rewrite !Is_true_true, Hr', Hr. }
  clear Eo. induction Hout as [|b r column out Hr Hout IH]; [constructor|]. apply Forall_cons in Hc as [[Hb Hl] Hc]. constructor; [|by apply IH].
  pose proof (Hin b r Hl Hr) as Ec. split; [done|]. intros items Hx Ef.
  destruct (bloom_no_false_negative 64 n items x) as (f & Ef' & Et); [lia|done|]. rewrite Ef in Ef'. injection Ef' as <-. congruence.
Qed.
End properties.

Definition example_hash (seed : Z) (x : Z) : Z := seed * 7 + x * 13.

Lemma bloom_predicate_exact_witness :
  ∃ value out, filter_of example_hash 64 2 [5] = Ok value ∧ bloom_eval (bf_bytes value) (replicate 64 0 ++ replicate 64 255) = Ok out ∧
    Forall2 (λ b r, bloom_contains example_hash (mkBloom b 2) 5 = Ok r ∧
      ∀ items, 5 ∈ items → filter_of example_hash 64 2 items = Ok (mkBloom b 2) → r = true) [replicate 64 0; replicate 64 255] out.
Proof.
  apply (bloom_predicate_exact example_hash 2 5 [replicate 64 0; replicate 64 255]).
  repeat constructor; unfold byte_ok; lia.
Defined.

(** For a filter of more than one word that is not 64 bytes, row [i] is tested against the
    words from word [i] on, which belong to other rows: a row that contains the value is
    rejected. *)
Theorem bloom_dynamic_misses_row :
  let value := 1 :: replicate 31 0 in
  let column := [replicate 32 0; value] in
  bloom_eval value (mjoin column) = Ok [false; false] ∧ subset value (column !!! 1%nat).
Proof. split; [vm_compute; reflexivity|]. by intros j Hj. Qed.
