(* ===== verification/QueryPred.v ===== *)
(** * Predicates and table scans (crates/query/src/scan)

    The array predicates of array_predicate.rs, the row predicates of row_predicate.rs built
    from them, and the constructors of row_predicate_dsl.rs.  A predicate is evaluated twice: on
    the rows of a batch, and on the statistics of the pages of a column to leave out pages
    without matching rows.  Then the builder of scan.rs over the trait [TableReader] of
    reader.rs, the row index of util.rs, and the reader of stored tables (storage/reader.rs),
    which prunes by statistics, reads the columns of projection and predicate, and filters. *)
From stdpp Require Import gmap.
From S2P Require Import Prelude Bytes Ranges QueryStack QueryArrow.

(** ** Array predicates *)

(** The implementations of the trait [ArrayPredicate].  A list type parameter of
    [PrimitiveListContainsAny] is its item type. *)
Inductive ArrayPredicate : Type :=
| PAnd (predicates : list ArrayPredicate)
| POr (predicates : list ArrayPredicate)
| PEq (value : scalar)
| PGtEq (value : scalar)
| PLtEq (value : scalar)
| PInList (ty : DataType) (list : list cell)
| PBloomFilter (value : list Z)
| PPrimitiveListContainsAny (ty : DataType) (values : list Z)
| PStringListContainsAny (values : list string).

Definition zero_mask (len : nat) (is_set : bool) : mask := replicate len (Some is_set).

(** ** Casts *)

Inductive CastResult : Type :=
| CLess
| CGreater
| CSame
| CCast (s : scalar).

(** [tower_cast] dispatches on the 56 pairs of different integer types to
    [tower_cast_impl], which compares in a type [C] that holds both. *)
Definition tower_cast_impl (value : Z) (signed : bool) (bits : Z) : res CastResult :=
  if (int_min signed bits <=? value) && (value <=? int_max signed bits)
  then Ok (CCast (mkScalar (DInt signed bits) (CInt value)))
  else if int_max signed bits <? value then Ok CGreater
  else if value <? int_min signed bits then Ok CLess
  else Panic "assertion failed: value < min".

Definition tower_cast (s : scalar) (target : DataType) : res CastResult :=
  match sc_value s, target with
  | CInt value, DInt signed bits => tower_cast_impl value signed bits
  | _, _ => Panic "unexpected cast"
  end.

Record ArrayStats : Type := mkArrayStats { st_min : array; st_max : array }.

Section eval.
Context `{ArrowCompute}.

Definition cast_scalar (s : scalar) (target : DataType) : res CastResult :=
  if decide (sc_type s = target) then Ok CSame
  else if is_integer (sc_type s) && is_integer target then tower_cast s target
  else s' ← cast_with_options s target; Ok (CCast s').

(** The macro [cast_scalar!]: an early return with a constant mask when the value is outside
    of the domain of the array. *)
Definition with_cast (s : scalar) (arr : array) (less greater : bool) (f : scalar → res mask) : res mask :=
  r ← cast_scalar s (arr_type arr);
  match r with
  | CSame => f s
  | CCast value => f value
  | CLess => Ok (zero_mask (array_len arr) less)
  | CGreater => Ok (zero_mask (array_len arr) greater)
  end.

(** The loops of [And] and [Or] over the masks of their members. *)
Definition combine (op : mask → mask → res mask) (unit_ : bool) (len : nat) (ms : list (res mask)) : res mask :=
  match ms with
  | [] => Ok (zero_mask len unit_)
  | m :: ms => m ← m; fold_res (λ acc m, m ← m; op acc m) ms m
  end.

(** [array.value_data()] of a fixed size binary array; a null slot holds zeros. *)
Definition value_data (size : nat) (cells : list (option cell)) : list Z :=
  mjoin ((λ c, match c with Some (CBytes b) => b | _ => replicate size 0 end) <$> cells).

Definition eval_bloom (value : list Z) (arr : array) : res mask :=
  match arr_type arr with
  | DFixedSizeBinary size =>
      _ ← ensure (size =? length value)%nat (EMsg "this bloom filter is, but array item is");
      bits ← bloom_eval value (value_data size (arr_cells arr));
      Ok (zip_with (λ c b, match c with None => None | Some _ => Some b end) (arr_cells arr) bits)
  | _ => Err (EMsg "expected fixed sized binary array")
  end.

Definition eval_primitive_list (ty : DataType) (values : list Z) (arr : array) : res mask :=
  match arr_type arr with
  | DList item =>
      if decide (item = ty) then
        Ok ((λ c, match c with Some (CInts l) => Some (existsb (λ z, bool_decide (z ∈ values)) l) | _ => Some false end) <$> arr_cells arr)
      else Err (EMsg "expected List of primitive values")
  | _ => Err (EMsg "expected List array")
  end.

Definition eval_string_list (values : list string) (arr : array) : res mask :=
  match arr_type arr with
  | DList DUtf8 =>
      Ok ((λ c, match c with Some (CStrs l) => Some (existsb (λ s, bool_decide (s ∈ values)) l) | _ => Some false end) <$> arr_cells arr)
  | DList _ => Err (EMsg "expected List of string values")
  | _ => Err (EMsg "expected List array")
  end.

Fixpoint evaluate (p : ArrayPredicate) (arr : array) : res mask :=
  match p with
  | PAnd ps => combine compute_and true (array_len arr) (map (λ p, evaluate p arr) ps)
  | POr ps => combine compute_or false (array_len arr) (map (λ p, evaluate p arr) ps)
  | PEq value => with_cast value arr false false (λ value, cmp_eq arr value)
  | PGtEq value => with_cast value arr false true (λ value, cmp_gt_eq value arr)
  | PLtEq value => with_cast value arr true false (λ value, cmp_lt_eq value arr)
  | PInList ty list => is_in arr ty list
  | PBloomFilter value => eval_bloom value arr
  | PPrimitiveListContainsAny ty values => eval_primitive_list ty values arr
  | PStringListContainsAny values => eval_string_list values arr
  end.

Fixpoint can_evaluate_stats (p : ArrayPredicate) : bool :=
  match p with
  | PAnd ps => existsb can_evaluate_stats ps
  | POr ps => forallb can_evaluate_stats ps
  | PEq _ | PGtEq _ | PLtEq _ => true
  | _ => false
  end.

Fixpoint evaluate_stats (p : ArrayPredicate) (stats : ArrayStats) : res mask :=
  match p with
  | PAnd ps => combine compute_and true (array_len (st_min stats)) (map (λ p, evaluate_stats p stats) ps)
  | POr ps => combine compute_or false (array_len (st_min stats)) (map (λ p, evaluate_stats p stats) ps)
  | PEq value =>
      with_cast value (st_min stats) false false (λ value,
        min_boundary ← cmp_gt_eq value (st_min stats);
        max_boundary ← cmp_lt_eq value (st_max stats);
        compute_and min_boundary max_boundary)
  | PGtEq value => with_cast value (st_min stats) false true (λ value, cmp_gt_eq value (st_min stats))
  | PLtEq value => with_cast value (st_max stats) true false (λ value, cmp_lt_eq value (st_max stats))
  | _ => Err (EMsg "Stats evaluation is not supported by this predicate")
  end.
End eval.

(** ** Row predicates *)

Inductive RowPredicate : Type :=
| ColumnPredicate (column : Name) (array_predicate : ArrayPredicate)
| AndPredicate (predicates : list RowPredicate)
| OrPredicate (predicates : list RowPredicate).

Record ColumnStats : Type := mkColumnStats { cs_offsets : list Z; cs_min : array; cs_max : array }.

(** The trait [RowStats]. *)
Abbreviation RowStats := (Name → res (option ColumnStats)).

(** [predicates_projection]: first occurrences, in order. *)
Definition predicates_projection (projections : list (list Name)) : list Name :=
  (fold_left (λ acc name, if decide (name ∈ acc.2) then acc else (acc.1 ++ [name], {[ name ]} ∪ acc.2))
    (mjoin projections) ([], ∅ : gset Name)).1.

Fixpoint projection (p : RowPredicate) : list Name :=
  match p with
  | ColumnPredicate column _ => [column]
  | AndPredicate ps | OrPredicate ps => predicates_projection (map projection ps)
  end.

Section row_eval.
Context `{ArrowCompute}.

Fixpoint row_evaluate (p : RowPredicate) (batch : RecordBatch) : res mask :=
  match p with
  | ColumnPredicate column ap =>
      match column_by_name batch column with
      | Some arr => evaluate ap arr
      | None => Err (EMsg "missing column")
      end
  | AndPredicate ps => combine compute_and true (rb_num_rows batch) (map (λ p, row_evaluate p batch) ps)
  | OrPredicate ps => combine compute_or false (rb_num_rows batch) (map (λ p, row_evaluate p batch) ps)
  end.

Fixpoint row_can_evaluate_stats (p : RowPredicate) : bool :=
  match p with
  | ColumnPredicate _ ap => can_evaluate_stats ap
  | AndPredicate ps => existsb row_can_evaluate_stats ps
  | OrPredicate ps => forallb row_can_evaluate_stats ps
  end.

(** The pages that are kept, as ranges of rows. *)
Fixpoint kept_pages (offsets : list Z) (kept : list bool) : list range :=
  match offsets, kept with
  | a :: ((b :: _) as offsets), k :: kept => (if k then [Range a b] else []) ++ kept_pages offsets kept
  | _, _ => []
  end.

(** The pages whose statistics satisfy the mask, as a range list. *)
Definition stats_ranges (offsets : list Z) (m : mask) : res (list range) :=
  _ ← (if (length offsets =? 0)%nat then Panic "attempt to subtract with overflow" else Ok tt);
  kept ← collect ((λ i, v ← slice_get m i; Ok (bool_decide (v = Some true))) <$> seq 0 (length offsets - 1));
  seal (kept_pages offsets kept).

(** The loop of [AndPredicate::evaluate_stats] over the members, each with whether it can be
    evaluated and its result. *)
Definition and_stats_step (selection : option (list range)) (m : bool * res (option (list range))) : res (option (list range)) :=
  if m.1 then
    sel ← m.2;
    match sel with
    | Some sel => Ok (Some (match selection with Some prev => intersection prev sel | None => sel end))
    | None => Ok selection
    end
  else Ok selection.

(** [OrPredicate::evaluate_stats]: [return Ok(None)] at the first member without a selection. *)
Fixpoint or_stats (selection : option (list range)) (ms : list (bool * res (option (list range)))) : res (option (list range)) :=
  match ms with
  | [] => Ok selection
  | m :: ms =>
      if m.1 then
        sel ← m.2;
        match sel with
        | Some sel =>
            next ← (match selection with Some prev => union prev sel | None => Ok sel end);
            or_stats (Some next) ms
        | None => Ok None
        end
      else Ok None
  end.

Fixpoint row_evaluate_stats (p : RowPredicate) (row_stats : RowStats) : res (option (list range)) :=
  match p with
  | ColumnPredicate column ap =>
      maybe ← row_stats column;
      match maybe with
      | None => Ok None
      | Some cs =>
          m ← evaluate_stats ap (mkArrayStats (cs_min cs) (cs_max cs));
          ranges ← stats_ranges (cs_offsets cs) m;
          Ok (Some ranges)
      end
  | AndPredicate ps => fold_res and_stats_step (map (λ p, (row_can_evaluate_stats p, row_evaluate_stats p row_stats)) ps) None
  | OrPredicate ps => or_stats None (map (λ p, (row_can_evaluate_stats p, row_evaluate_stats p row_stats)) ps)
  end.
End row_eval.

(** ** Constructors (row_predicate_dsl.rs) *)

Definition col_eq (name : Name) (value : scalar) : RowPredicate := ColumnPredicate name (PEq value).

Definition col_in_list (name : Name) (ty : DataType) (values : list cell) : RowPredicate :=
  match values with
  | [v] => col_eq name (mkScalar ty v)
  | _ =>
      if (length values <? 10)%nat
      then ColumnPredicate name (POr ((λ v, PEq (mkScalar ty v)) <$> values))
      else ColumnPredicate name (PInList ty values)
  end.

Definition col_lt_eq (name : Name) (value : scalar) : RowPredicate := ColumnPredicate name (PGtEq value).
Definition col_gt_eq (name : Name) (value : scalar) : RowPredicate := ColumnPredicate name (PLtEq value).
Definition col_between (name : Name) (low high : scalar) : RowPredicate :=
  ColumnPredicate name (PAnd [PLtEq low; PGtEq high]).

(** [array_predicate::or] *)
Definition array_or (ps : list ArrayPredicate) : ArrayPredicate := match ps with [p] => p | _ => POr ps end.

Definition col_bloom_filter {T} (xxh3 : Z → T → Z) (name : Name) (byte_size num_hashes : nat) (values : list T) : res RowPredicate :=
  ps ← collect ((λ v, f ← bloom_insert xxh3 (bloom_new byte_size num_hashes) v; Ok (PBloomFilter (bf_bytes f))) <$> values);
  Ok (ColumnPredicate name (array_or ps)).

Definition row_and (ps : list RowPredicate) : RowPredicate := match ps with [p] => p | _ => AndPredicate ps end.
Definition row_or (ps : list RowPredicate) : RowPredicate := match ps with [p] => p | _ => OrPredicate ps end.

Definition col_primitive_list_contains_any (name : Name) (ty : DataType) (values : list Z) : RowPredicate :=
  ColumnPredicate name (PPrimitiveListContainsAny ty values).
Definition col_string_list_contains_any (name : Name) (values : list string) : RowPredicate :=
  ColumnPredicate name (PStringListContainsAny values).

(** * Table scans *)

(** ** The trait [TableReader] *)

Record TableReader : Type := mkTableReader {
  read : option RowPredicate → option (gset Name) → option (list range) → bool → option (gset Name) → res (list RecordBatch);
  reader_schema : list (Name * DataType)
}.

(** ** [Scan] *)

Record Scan : Type := mkScan {
  reader : TableReader;
  predicate : option RowPredicate;
  scan_projection : option (gset Name);
  row_selection : option (list range);
  row_index : bool;
  default_null_columns : option (gset Name)
}.

Definition scan_new (r : TableReader) : Scan := mkScan r None None None false None.
Definition with_predicate (s : Scan) (p : option RowPredicate) : Scan :=
  mkScan (reader s) p (scan_projection s) (row_selection s) (row_index s) (default_null_columns s).
Definition with_projection (s : Scan) (p : gset Name) : Scan :=
  mkScan (reader s) (predicate s) (Some p) (row_selection s) (row_index s) (default_null_columns s).
Definition with_columns (s : Scan) (columns : list Name) : Scan :=
  match scan_projection s with
  | Some p => with_projection s (p ∪ list_to_set columns)
  | None => with_projection s (list_to_set columns)
  end.
Definition with_column (s : Scan) (column : Name) : Scan := with_columns s [column].
Definition with_row_index (s : Scan) (yes : bool) : Scan :=
  mkScan (reader s) (predicate s) (scan_projection s) (row_selection s) yes (default_null_columns s).
Definition with_row_selection (s : Scan) (sel : option (list range)) : Scan :=
  mkScan (reader s) (predicate s) (scan_projection s) sel (row_index s) (default_null_columns s).
Definition with_default_null_columns (s : Scan) (columns : gset Name) : Scan :=
  mkScan (reader s) (predicate s) (scan_projection s) (row_selection s) (row_index s) (Some columns).
Definition scan_execute (s : Scan) : res (list RecordBatch) :=
  read (reader s) (predicate s) (scan_projection s) (row_selection s) (row_index s) (default_null_columns s).

(** ** Record batches *)

(** The cells a mask keeps. *)
Definition keep {A} (m : mask) (l : list A) : list A :=
  omap (λ mx : option bool * A, if decide (mx.1 = Some true) then Some mx.2 else None) (zip m l).

Definition map_columns (f : list (option cell) → list (option cell)) (n : nat) (b : RecordBatch) : RecordBatch :=
  mkBatch ((λ c, (c.1, mkArray (arr_type c.2) (f (arr_cells c.2)))) <$> rb_columns b) n.

(** arrow's [filter_record_batch] and [RecordBatch::project]. *)
Class ArrowBatches : Type := {
  filter_record_batch : RecordBatch → mask → res RecordBatch;
  batch_project : RecordBatch → list nat → res RecordBatch
}.
Class ArrowBatchesLaws `{ArrowBatches} : Prop := {
  filter_record_batch_spec b m : batch_ok b → length m = rb_num_rows b →
    filter_record_batch b m = Ok (map_columns (keep m) (length (filter (λ x, x = Some true) m)) b);
  batch_project_spec b is_ : Forall (λ i, (i < length (rb_columns b))%nat) is_ →
    batch_project b is_ = Ok (mkBatch (omap (λ i, rb_columns b !! i) is_) (rb_num_rows b))
}.

(** ** The row index (util.rs) *)

Definition u32_add (a b : Z) : Z := (a + b) mod 2 ^ 32.
Definition range_items (r : range) : list Z := Z.of_nat <$> seq (Z.to_nat (rstart r)) (Z.to_nat (rend r - rstart r)).

Definition build_row_index_array (offset : Z) (len : nat) (sel : option (list range)) : res (list Z) :=
  match sel with
  | Some ranges =>
      let num_rows := fold_left (λ n r, u32_add n (rend r - rstart r)) ranges 0 in
      if num_rows <=? Z.of_nat len
      then Ok ((λ i, u32_add offset i) <$> mjoin (range_items <$> ranges))
      else Panic "assertion failed: num_rows <= len"
  | None => Ok ((λ i, offset + Z.of_nat i) <$> seq 0 len)
  end.

(** [RecordBatch::try_new_with_options(..).unwrap()]: every column has the row count. *)
Definition add_row_index (b : RecordBatch) (index : list Z) : res RecordBatch :=
  if (length index =? rb_num_rows b)%nat
  then Ok (mkBatch (("row_index", mkArray DUInt32 ((λ i, Some (CInt i)) <$> index)) :: rb_columns b) (rb_num_rows b))
  else Panic "all columns in a record batch must have the specified row count".

(** ** Stored tables (storage/reader.rs) *)

(** What [SnapshotTableReader] offers: [schema], [read_table] and [get_column_stats]. *)
Record StoredTable : Type := mkStoredTable {
  sd_schema : list (Name * DataType);
  sd_read_table : option (gset Name) → option (list range) → res RecordBatch;
  sd_column_stats : nat → res (option ColumnStats)
}.

(** [Schema::schema_index_of] *)
Definition schema_index_of (schema : list (Name * DataType)) (name : Name) : res nat :=
  match list_find (λ f, f.1 = name) schema with Some (i, _) => Ok i | None => Err (EMsg "Unable to get field named") end.

Definition storage_stats (t : StoredTable) : RowStats := λ column,
  index ← schema_index_of (sd_schema t) column;
  sd_column_stats t index.

Section storage.
Context {AC : ArrowCompute} {AB : ArrowBatches}.

(** The row selection narrowed by the statistics. *)
Definition pruned_selection (t : StoredTable) (p : option RowPredicate) (sel : option (list range)) : res (option (list range)) :=
  match p with
  | Some p =>
      if row_can_evaluate_stats p then
        maybe ← row_evaluate_stats p (storage_stats t);
        Ok (option_map (λ ranges, match sel with Some prev => intersection prev ranges | None => ranges end) maybe)
      else Ok None
  | None => Ok None
  end.

(** The projection widened by the columns of the predicate, if there are new ones. *)
Definition widened_projection (p : option RowPredicate) (columns : option (gset Name)) : option (gset Name) :=
  match p, columns with
  | Some p, Some columns =>
      if decide (filter (λ c, c ∉ columns) (projection p) = []) then None else Some (columns ∪ list_to_set (projection p))
  | _, _ => None
  end.

Definition is_projected (columns : gset Name) (with_row_index : bool) (name : Name) : bool :=
  bool_decide (name ∈ columns) || (with_row_index && bool_decide (name = "row_index")).
Definition projected_indexes (columns : gset Name) (with_row_index : bool) (b : RecordBatch) : list nat :=
  omap (λ ic : nat * (Name * array), if is_projected columns with_row_index ic.2.1 then Some ic.1 else None)
    (imap pair (rb_columns b)).

Definition storage_read (t : StoredTable) (p : option RowPredicate) (columns : option (gset Name)) (sel : option (list range))
    (with_row_index : bool) (_default_null_columns : option (gset Name)) : res (list RecordBatch) :=
  maybe_new_sel ← pruned_selection t p sel;
  let maybe_new_projection := widened_projection p columns in
  let sel := match maybe_new_sel with Some s => Some s | None => sel end in
  batch ← sd_read_table t (match maybe_new_projection with Some c => Some c | None => columns end) sel;
  batch ← (if with_row_index then
             index ← build_row_index_array 0 (rb_num_rows batch) sel;
             add_row_index batch index
           else Ok batch);
  match p with
  | None => Ok [batch]
  | Some p =>
      m ← row_evaluate p batch;
      batch ← (match maybe_new_projection, columns with
               | Some _, Some columns => batch_project batch (projected_indexes columns with_row_index batch)
               | _, _ => Ok batch
               end);
      batch ← filter_record_batch batch m;
      Ok [batch]
  end.

Definition storage_reader (t : StoredTable) : TableReader := mkTableReader (storage_read t) (sd_schema t).

(** [Chunk::scan_table] of a chunk of the database (storage/chunk.rs). *)
Definition chunk_scan_table (tables : gmap Name StoredTable) (name : Name) : res Scan :=
  match tables !! name with
  | Some t => Ok (scan_new (storage_reader t))
  | None => Err (EMsg "table does not exist")
  end.
End storage.
