(* ===== verification/QueryPredSpec.v ===== *)
(** * What predicates select

    [sem] gives the answer of an array predicate for one cell and [row_sem] that of a row
    predicate for one row; the lemmas show that the evaluation of masks computes exactly these
    answers, and that the evaluation on page statistics never leaves out a selected row. *)
From stdpp Require Import gmap.
From S2P Require Import Prelude Ranges Bytes QueryStack QueryArrow QueryPred.

(** ** Cells *)

(** Where the value of a comparison lies relative to the type of the column. *)
Inductive domain : Type := Below | Inside | Above.
Definition value_domain (s : scalar) (ty : DataType) : domain :=
  match sc_value s, ty with
  | CInt z, DInt signed bits => if int_max signed bits <? z then Above else if z <? int_min signed bits then Below else Inside
  | _, _ => Inside
  end.

(** A comparison: null on null; a value outside of the domain of the column gives a constant
    answer, also on null. *)
Definition sem_cmp (s : scalar) (ty : DataType) (less greater : bool) (f : cell → bool) (c : option cell) : option bool :=
  match value_domain s ty with Inside => f <$> c | Below => Some less | Above => Some greater end.

Definition all3 (l : list (option bool)) : option bool := fold_left and3 l (Some true).
Definition any3 (l : list (option bool)) : option bool := fold_left or3 l (Some false).

Fixpoint sem (p : ArrayPredicate) (ty : DataType) (c : option cell) : option bool :=
  match p with
  | PAnd ps => all3 (map (λ p, sem p ty c) ps)
  | POr ps => any3 (map (λ p, sem p ty c) ps)
  | PEq s => sem_cmp s ty false false (λ x, bool_decide (x = sc_value s)) c
  | PGtEq s => sem_cmp s ty false true (λ x, cell_leb x (sc_value s)) c
  | PLtEq s => sem_cmp s ty true false (λ x, cell_leb (sc_value s) x) c
  | PInList _ vs => (λ x, bool_decide (x ∈ vs)) <$> c
  | PBloomFilter v => (λ x, match x with CBytes b => forallb (λ vb, Z.land vb.1 vb.2 =? vb.1) (zip v b) | _ => false end) <$> c
  | PPrimitiveListContainsAny _ vs => Some (match c with Some (CInts l) => existsb (λ z, bool_decide (z ∈ vs)) l | _ => false end)
  | PStringListContainsAny vs => Some (match c with Some (CStrs l) => existsb (λ s, bool_decide (s ∈ vs)) l | _ => false end)
  end.

(** The value can be compared with the column. *)
Definition scalar_fits (s : scalar) (ty : DataType) : Prop :=
  scalar_ok s ∧ comparable ty = true ∧ (sc_type s = ty ∨ is_integer (sc_type s) = true ∧ is_integer ty = true).

(** The predicate fits the type of its column; bloom filters have the size of 64 bytes. *)
Fixpoint pred_ok (p : ArrayPredicate) (ty : DataType) : Prop :=
  match p with
  | PAnd ps | POr ps => Forall id (map (λ p, pred_ok p ty) ps)
  | PEq s | PGtEq s | PLtEq s => scalar_fits s ty
  | PInList ty' vs => ty' = ty ∧ Forall (cell_ok ty) vs
  | PBloomFilter v => ty = DFixedSizeBinary 64 ∧ length v = 64%nat ∧ bytes_ok v
  | PPrimitiveListContainsAny ty' _ => ty = DList ty'
  | PStringListContainsAny _ => ty = DList DUtf8
  end.

Fixpoint stats_pred (p : ArrayPredicate) : bool :=
  match p with
  | PAnd ps | POr ps => forallb stats_pred ps
  | PEq _ | PGtEq _ | PLtEq _ => true
  | _ => false
  end.

(** Induction that reaches the members of [And] and [Or]. *)
Lemma array_pred_ind (P : ArrayPredicate → Prop) :
  (∀ ps, Forall P ps → P (PAnd ps)) → (∀ ps, Forall P ps → P (POr ps)) →
  (∀ s, P (PEq s)) → (∀ s, P (PGtEq s)) → (∀ s, P (PLtEq s)) → (∀ ty l, P (PInList ty l)) → (∀ v, P (PBloomFilter v)) →
  (∀ ty vs, P (PPrimitiveListContainsAny ty vs)) → (∀ vs, P (PStringListContainsAny vs)) → ∀ p, P p.
Proof.
  intros HA HO HE HG HL HI HB HP HS. fix IH 1. intros p. destruct p as [ps|ps|s|s|s|ty l|v|ty vs|vs].
  1: apply HA; induction ps; constructor; auto.
  1: apply HO; induction ps; constructor; auto.
  1: apply HE. 1: apply HG. 1: apply HL. 1: apply HI. 1: apply HB. 1: apply HP. apply HS.
Qed.

Section sem.
Context {AC : ArrowCompute} {ACL : ArrowComputeLaws}.

Lemma and3_true_l x : and3 (Some true) x = x.
Proof. by destruct x as [[]|]. Qed.
Lemma or3_false_l x : or3 (Some false) x = x.
Proof. by destruct x as [[]|]. Qed.

Lemma all3_true l : all3 l = Some true ↔ Forall (λ x, x = Some true) l.
Proof.
  unfold all3. assert (∀ a, fold_left and3 l a = Some true ↔ a = Some true ∧ Forall (λ x, x = Some true) l) as H.
  { induction l as [|x l IH]; intros a; cbn [fold_left]; [rewrite Forall_nil; tauto|]. rewrite IH, Forall_cons.
    destruct a as [[]|], x as [[]|]; cbn; naive_solver. }
  rewrite H. tauto.
Qed.

Lemma any3_true l : any3 l = Some true ↔ Some true ∈ l ∧ Forall is_Some l.
Proof.
  unfold any3. assert (∀ a, fold_left or3 l a = Some true ↔ (a = Some true ∨ Some true ∈ l) ∧ is_Some a ∧ Forall is_Some l) as H.
  { induction l as [|x l IH]; intros a; cbn [fold_left].
    - rewrite elem_of_nil, Forall_nil. split; [intros ->; eauto|]. by intros [[?|?] _].
    - rewrite IH, Forall_cons, elem_of_cons. destruct a as [[]|], x as [[]|]; cbn; split; intros; destruct_and?; naive_solver eauto using mk_is_Some. }
  rewrite H. split; [intros [[?|?] [_ ?]]; done|]. intros [? ?]. split; [by right|]. eauto.
Qed.

Lemma zip_with_fmap_same {A B C D} (f : B → C → D) (g : A → B) (h : A → C) (l : list A) :
  zip_with f (g <$> l) (h <$> l) = (λ x, f (g x) (h x)) <$> l.
Proof. induction l as [|x l IH]; [done|]. cbn. by f_equal. Qed.

Lemma zero_mask_fmap {A} (l : list A) b : zero_mask (length l) b = (λ _, Some b) <$> l.
Proof. unfold zero_mask. induction l as [|x l IH]; [done|]. rewrite fmap_cons. cbn [length replicate]. by rewrite IH. Qed.

(** A loop over masks of the same rows [l] answers row by row. *)
Lemma combine_spec {A} op (F : option bool → option bool → option bool) unit_ (l : list A) (fs : list (A → option bool)) :
  (∀ m1 m2, length m1 = length m2 → op m1 m2 = Ok (zip_with F m1 m2)) → (∀ x, F (Some unit_) x = x) →
  combine op unit_ (length l) ((λ f, Ok (f <$> l)) <$> fs) = Ok ((λ x, fold_left F ((λ f, f x) <$> fs) (Some unit_)) <$> l).
Proof.
  intros Hop HF. assert (∀ (gs : list (A → option bool)) g, fold_res (λ acc m, m ← m; op acc m) ((λ f, Ok (f <$> l)) <$> gs) (g <$> l) =
    Ok ((λ x, fold_left F ((λ f, f x) <$> gs) (g x)) <$> l)) as Hfold.
  { clear fs. induction gs as [|f fs IH]; intros g; cbn [fold_res]; [done|]. rewrite fmap_cons. cbn [fold_res mbind res_bind].
    rewrite Hop by (by rewrite !length_fmap). cbn [mbind res_bind]. rewrite zip_with_fmap_same. apply (IH (λ x, F (g x) (f x))). }
  destruct fs as [|f fs]; cbn [combine].
  - exact (f_equal Ok (zero_mask_fmap l unit_)).
  - rewrite fmap_cons. cbn [combine mbind res_bind]. rewrite Hfold. f_equal. apply list_fmap_ext. intros i x _. rewrite fmap_cons. cbn [fold_left].
    by rewrite HF.
Qed.

(** ** Casts *)

Lemma cast_scalar_spec s ty : scalar_fits s ty →
  cast_scalar s ty = Ok (match value_domain s ty with
    | Below => CLess | Above => CGreater
    | Inside => if decide (sc_type s = ty) then CSame else CCast (mkScalar ty (sc_value s)) end) ∧
  (value_domain s ty = Inside → cell_ok ty (sc_value s)).
Proof.
  intros (Hok & Hc & Ht). unfold scalar_ok in Hok. unfold cast_scalar. destruct (decide (sc_type s = ty)) as [<-|Hne].
  - assert (value_domain s (sc_type s) = Inside) as ->; [|done]. unfold value_domain. destruct (sc_value s), (sc_type s); try done. cbn in Hok.
    repeat case_if; zbool; try done; lia.
  - destruct Ht as [?|[H1 H2]]; [done|]. rewrite H1, H2. cbn [andb]. destruct s as [[signed bits| | | | | |] v]; try done.
    destruct ty as [signed' bits'| | | | | |]; try done. cbn in Hok. destruct v; try done. cbn [value_domain sc_value tower_cast]. unfold tower_cast_impl.
    split; [|repeat case_if; try done; zbool; cbn; lia].
    destruct (int_max signed' bits' <? z) eqn:E1, (z <? int_min signed' bits') eqn:E2, (int_min signed' bits' <=? z) eqn:E3,
      (z <=? int_max signed' bits') eqn:E4; cbn [andb]; try done; lia.
Qed.

Lemma with_cast_spec s arr less greater (k : scalar → res mask) f : scalar_fits s (arr_type arr) →
  (∀ s', sc_value s' = sc_value s → sc_type s' = arr_type arr → scalar_ok s' → k s' = Ok (cmp_cell f <$> arr_cells arr)) →
  with_cast s arr less greater k = Ok (sem_cmp s (arr_type arr) less greater f <$> arr_cells arr).
Proof.
  intros Hs Hk. unfold with_cast. destruct (cast_scalar_spec _ _ Hs) as [-> Hin]. cbn [mbind res_bind]. unfold sem_cmp, array_len.
  destruct (value_domain s (arr_type arr)); [apply f_equal, zero_mask_fmap| |apply f_equal, zero_mask_fmap].
  destruct (decide (sc_type s = arr_type arr)); apply Hk; try done; [apply Hs|by apply Hin].
Qed.

(** ** Arrays *)

Lemma eval_members (F : mask → mask → res mask) G unit_ (ps : list ArrayPredicate) arr :
  (∀ m1 m2, length m1 = length m2 → F m1 m2 = Ok (zip_with G m1 m2)) → (∀ x, G (Some unit_) x = x) →
  Forall (λ p, evaluate p arr = Ok (sem p (arr_type arr) <$> arr_cells arr)) ps →
  combine F unit_ (array_len arr) (map (λ p, evaluate p arr) ps) =
  Ok ((λ c, fold_left G (map (λ p, sem p (arr_type arr) c) ps) (Some unit_)) <$> arr_cells arr).
Proof.
  intros HF HG Hps. assert (map (λ p, evaluate p arr) ps = (λ f, Ok (f <$> arr_cells arr)) <$> (map (λ p, sem p (arr_type arr)) ps)) as ->.
  { induction Hps as [|p ps Hp _ IH]; [done|]. cbn [map]. by rewrite fmap_cons, IH, Hp. }
  unfold array_len. rewrite (combine_spec F G) by done. f_equal. apply list_fmap_ext. intros i c _. f_equal.
  clear. induction ps as [|p ps IH]; [done|]. cbn [map]. by rewrite fmap_cons, IH.
Qed.

(** The comparison byte by byte of the answer of the bloom filter predicate. *)
Lemma land_subset value b : bytes_ok value → length value = length b →
  forallb (λ vb : Z * Z, Z.land vb.1 vb.2 =? vb.1) (zip value b) = true ↔ subset value b.
Proof.
  intros Hv Hl. rewrite <-subset_spec, forallb_forall, Forall2_lookup by done. split.
  - intros HF i. destruct (value !! i) as [x|] eqn:Ex.
    + destruct (lookup_lt_is_Some_2 b i) as [y Ey]; [apply lookup_lt_Some in Ex; lia|]. rewrite Ey. constructor.
      assert ((x, y) ∈ zip value b) as Hin. { apply list_elem_of_lookup. exists i. rewrite lookup_zip_with, Ex. cbn. by rewrite Ey. }
      apply list_elem_of_In, HF in Hin. by apply Z.eqb_eq.
    + rewrite (proj2 (lookup_ge_None b i)); [constructor|]. apply lookup_ge_None in Ex. lia.
  - intros HF [x y] Hxy%list_elem_of_In. cbn [fst snd]. apply Z.eqb_eq. apply list_elem_of_lookup in Hxy as [i Hi].
    rewrite lookup_zip_with in Hi. specialize (HF i). destruct HF; cbn in Hi; [|done]. by simplify_eq.
Qed.

Lemma eval_bloom_spec value arr : array_ok arr → pred_ok (PBloomFilter value) (arr_type arr) →
  eval_bloom value arr = Ok (sem (PBloomFilter value) (arr_type arr) <$> arr_cells arr).
Proof.
  intros Ha (Ht & Hl & Hv). unfold eval_bloom. rewrite Ht, Hl. cbn [Nat.eqb ensure mbind res_bind].
  unfold array_ok in Ha. rewrite Ht in Ha.
  set (col := (λ c : option cell, match c with Some (CBytes b) => b | _ => replicate 64 0 end) <$> arr_cells arr).
  assert (Forall (λ b, bytes_ok b ∧ length b = (16 * 4)%nat) col) as Hcol.
  { unfold col. apply Forall_fmap. eapply Forall_impl; [exact Ha|]. intros [[| | |b| | |]|]; cbn; try done.
    - intros []. by split.
    - intros _. split; [apply (bytes_ok_zero 64)|done]. }
  destruct (eval_static_spec 16 4 value col) as (out & Eo & Hout); [lia|lia|done|done|done|].
  unfold bloom_eval, value_data. rewrite Hl. fold col. cbn [Nat.eqb]. rewrite Eo. cbn [mbind res_bind]. f_equal.
  unfold col in Hout, Hcol. clear Eo col. revert out Hout Ha Hcol. induction (arr_cells arr) as [|c cells IH]; intros out Hout Ha Hcol.
  { by apply Forall2_nil_inv_l in Hout as ->. }
  rewrite fmap_cons in Hout, Hcol. apply Forall2_cons_inv_l in Hout as (r & out' & Hr & Hout & ->). apply Forall_cons in Ha as [Hc Ha].
  apply Forall_cons in Hcol as [[Hb Hbl] Hcol]. rewrite fmap_cons. cbn [zip_with]. f_equal; [|by apply IH].
  destruct c as [[| | |b| | |]|]; cbn in Hc; try done. cbn [sem fmap option_fmap option_map]. f_equal. destruct Hc as [Hcl Hcb].
  apply eq_bool_prop_intro. by rewrite !Is_true_true, Hr, land_subset by (done || congruence).
Qed.

Lemma evaluate_spec p arr : array_ok arr → pred_ok p (arr_type arr) → evaluate p arr = Ok (sem p (arr_type arr) <$> arr_cells arr).
Proof.
  intros Ha. induction p as [ps IH|ps IH|s|s|s|ty l|v|ty vs|vs] using array_pred_ind; intros Hp; cbn [evaluate sem].
  - apply eval_members; [apply compute_and_spec|apply and3_true_l|]. cbn [pred_ok] in Hp. rewrite Forall_map in Hp.
    apply Forall_forall. intros p Hin. rewrite Forall_forall in IH, Hp. by apply IH, Hp.
  - apply eval_members; [apply compute_or_spec|apply or3_false_l|]. cbn [pred_ok] in Hp. rewrite Forall_map in Hp.
    apply Forall_forall. intros p Hin. rewrite Forall_forall in IH, Hp. by apply IH, Hp.
  - apply with_cast_spec; [done|]. intros s' Hs Ht Hok. rewrite cmp_eq_spec, Hs; try done. apply Hp.
  - apply with_cast_spec; [done|]. intros s' Hs Ht Hok. rewrite cmp_gt_eq_spec, Hs; try done. apply Hp.
  - apply with_cast_spec; [done|]. intros s' Hs Ht Hok. rewrite cmp_lt_eq_spec, Hs; try done. apply Hp.
  - destruct Hp as [-> Hl]. by apply is_in_spec.
  - by apply eval_bloom_spec.
  - cbn [pred_ok] in Hp. unfold eval_primitive_list. rewrite Hp, decide_True by done. f_equal. apply list_fmap_ext. by intros i [[]|] _.
  - cbn [pred_ok] in Hp. unfold eval_string_list. rewrite Hp. f_equal. apply list_fmap_ext. by intros i [[]|] _.
Qed.

(** ** Statistics *)

(** The answer of a predicate for a page with the given minimum and maximum. *)
Fixpoint ssem (p : ArrayPredicate) (ty : DataType) (mm : option cell * option cell) : option bool :=
  match p with
  | PAnd ps => all3 (map (λ p, ssem p ty mm) ps)
  | POr ps => any3 (map (λ p, ssem p ty mm) ps)
  | PEq s =>
      match value_domain s ty with
      | Inside => and3 ((λ x, cell_leb x (sc_value s)) <$> mm.1) ((λ x, cell_leb (sc_value s) x) <$> mm.2)
      | _ => Some false
      end
  | PGtEq s => sem_cmp s ty false true (λ x, cell_leb x (sc_value s)) mm.1
  | PLtEq s => sem_cmp s ty true false (λ x, cell_leb (sc_value s) x) mm.2
  | _ => None
  end.

(** Minimum and maximum of the cells of a page: absent when all of them are null. *)
Definition page_minmax (ty : DataType) (mm : option cell * option cell) (cells : list (option cell)) : Prop :=
  match mm with
  | (None, None) => Forall (λ c, c = None) cells
  | (Some a, Some b) => cell_ok ty a ∧ cell_ok ty b ∧
      Forall (λ c, from_option (λ x, cell_ok ty x ∧ cell_leb a x = true ∧ cell_leb x b = true) True c) cells
  | _ => False
  end.

Lemma ssem_null p ty : stats_pred p = true → ssem p ty (None, None) = sem p ty None.
Proof.
  induction p as [ps IH|ps IH|s|s|s|ty' l|v|ty' vs|vs] using array_pred_ind; intros Hp; try done; cbn [ssem sem stats_pred] in *.
  - f_equal. apply map_ext_in. intros p Hin. rewrite forallb_forall in Hp. rewrite Forall_forall in IH. apply IH; [by apply list_elem_of_In|by apply Hp].
  - f_equal. apply map_ext_in. intros p Hin. rewrite forallb_forall in Hp. rewrite Forall_forall in IH. apply IH; [by apply list_elem_of_In|by apply Hp].
Qed.

Lemma ssem_some p ty a b : stats_pred p = true → is_Some (ssem p ty (Some a, Some b)).
Proof.
  induction p as [ps IH|ps IH|s|s|s|ty' l|v|ty' vs|vs] using array_pred_ind; intros Hp; try done; cbn [ssem stats_pred] in *.
  - assert (Forall is_Some (map (λ p, ssem p ty (Some a, Some b)) ps)) as Hall.
    { apply Forall_map, Forall_forall. intros p Hin. rewrite forallb_forall in Hp. rewrite Forall_forall in IH. apply IH, Hp; [done|by apply list_elem_of_In]. }
    unfold all3. revert Hall. generalize true. induction (map _ ps) as [|x l IHl]; intros t Hall; cbn [fold_left]; [done|].
    apply Forall_cons in Hall as [[y ->] Hall]. by apply IHl.
  - assert (Forall is_Some (map (λ p, ssem p ty (Some a, Some b)) ps)) as Hall.
    { apply Forall_map, Forall_forall. intros p Hin. rewrite forallb_forall in Hp. rewrite Forall_forall in IH. apply IH, Hp; [done|by apply list_elem_of_In]. }
    unfold any3. revert Hall. generalize false. induction (map _ ps) as [|x l IHl]; intros t Hall; cbn [fold_left]; [done|].
    apply Forall_cons in Hall as [[y ->] Hall]. by apply IHl.
  - by destruct (value_domain s ty).
  - unfold sem_cmp. by destruct (value_domain s ty).
  - unfold sem_cmp. by destruct (value_domain s ty).
Qed.

(** A page with a selected cell is not left out. *)
Lemma page_sound p ty mm cells c : stats_pred p = true → pred_ok p ty → page_minmax ty mm cells → c ∈ cells →
  sem p ty c = Some true → ssem p ty mm = Some true.
Proof.
  destruct mm as [[a|] [b|]]; cbn [page_minmax]; try done; intros Hp Hok Hm Hc Hs.
  2: { rewrite Forall_forall in Hm. rewrite (Hm c Hc) in Hs. by rewrite ssem_null. }
  destruct Hm as (Ha & Hb & Hall). rewrite Forall_forall in Hall. specialize (Hall c Hc). clear Hc.
  revert Hp Hok Hs. induction p as [ps IH|ps IH|s|s|s|ty' l|v|ty' vs|vs] using array_pred_ind; intros Hp Hok Hs; try done;
    cbn [ssem sem stats_pred pred_ok] in *; try rewrite forallb_forall in Hp; try rewrite Forall_forall in IH.
  - rewrite all3_true, Forall_map in Hs |- *. rewrite Forall_map in Hok. rewrite Forall_forall in Hs, Hok |- *. intros p Hin.
    apply IH; [done|by apply Hp, list_elem_of_In|by apply Hok|by apply Hs].
  - rewrite any3_true in Hs |- *. destruct Hs as [Ht _]. rewrite Forall_map in Hok. rewrite Forall_forall in Hok. split.
    + apply list_elem_of_In, in_map_iff in Ht as (p & E & Hin). apply list_elem_of_In, in_map_iff. exists p. split; [|done].
      apply list_elem_of_In in Hin. apply IH; [done|by apply Hp, list_elem_of_In|by apply Hok|done].
    + apply Forall_map, Forall_forall. intros p Hin. by apply ssem_some, Hp, list_elem_of_In.
  - unfold sem_cmp in Hs. destruct (value_domain s ty); try done. destruct c as [x|]; [|done]. injection Hs as Hs%bool_decide_eq_true. subst x.
    destruct Hall as (_ & H1 & H2). cbn. by rewrite H1, H2.
  - unfold sem_cmp in *. destruct (value_domain s ty); try done. destruct c as [x|]; [|done]. injection Hs as Hs. destruct Hall as (_ & H1 & H2). cbn.
    by rewrite (cell_leb_trans a x).
  - unfold sem_cmp in *. destruct (value_domain s ty); try done. destruct c as [x|]; [|done]. injection Hs as Hs. destruct Hall as (_ & H1 & H2). cbn.
    by rewrite (cell_leb_trans _ x).
Qed.

Record stats_typed (ty : DataType) (mn mx : array) : Prop := mkStatsTyped {
  stt_min : arr_type mn = ty;
  stt_max : arr_type mx = ty;
  stt_min_ok : array_ok mn;
  stt_max_ok : array_ok mx;
  stt_len : array_len mn = array_len mx
}.

Lemma eval_stats_members (F : mask → mask → res mask) G unit_ (ps : list ArrayPredicate) ty mn mx :
  (∀ m1 m2, length m1 = length m2 → F m1 m2 = Ok (zip_with G m1 m2)) → (∀ x, G (Some unit_) x = x) → array_len mn = array_len mx →
  Forall (λ p, evaluate_stats p (mkArrayStats mn mx) = Ok (ssem p ty <$> zip (arr_cells mn) (arr_cells mx))) ps →
  combine F unit_ (array_len mn) (map (λ p, evaluate_stats p (mkArrayStats mn mx)) ps) =
  Ok ((λ mm, fold_left G (map (λ p, ssem p ty mm) ps) (Some unit_)) <$> zip (arr_cells mn) (arr_cells mx)).
Proof.
  intros HF HG Hl Hps. unfold array_len in *.
  assert (map (λ p, evaluate_stats p (mkArrayStats mn mx)) ps = (λ f, Ok (f <$> zip (arr_cells mn) (arr_cells mx))) <$> (map (λ p, ssem p ty) ps)) as ->.
  { induction Hps as [|p ps Hp _ IH]; [done|]. cbn [map]. by rewrite fmap_cons, IH, Hp. }
  replace (length (arr_cells mn)) with (length (zip (arr_cells mn) (arr_cells mx))) by (rewrite length_zip_with; lia).
  rewrite (combine_spec F G) by done. f_equal. apply list_fmap_ext. intros i c _. f_equal.
  clear. induction ps as [|p ps IH]; [done|]. cbn [map]. by rewrite fmap_cons, IH.
Qed.

Lemma fmap_zip_fst {A B C} (f : A → C) (l : list A) (k : list B) : length l = length k → (λ x, f x.1) <$> zip l k = f <$> l.
Proof. revert k. induction l as [|x l IH]; intros [|y k] Hl; try done. cbn [zip zip_with]. rewrite !fmap_cons. f_equal. apply IH. by injection Hl. Qed.
Lemma fmap_zip_snd {A B C} (f : B → C) (l : list A) (k : list B) : length l = length k → (λ x, f x.2) <$> zip l k = f <$> k.
Proof. revert k. induction l as [|x l IH]; intros [|y k] Hl; try done. cbn [zip zip_with]. rewrite !fmap_cons. f_equal. apply IH. by injection Hl. Qed.

Lemma evaluate_stats_spec p ty mn mx : stats_typed ty mn mx → stats_pred p = true → pred_ok p ty →
  evaluate_stats p (mkArrayStats mn mx) = Ok (ssem p ty <$> zip (arr_cells mn) (arr_cells mx)).
Proof.
  intros [Hn Hx Hnok Hxok Hl]. unfold array_len in Hl.
  induction p as [ps IH|ps IH|s|s|s|ty' l|v|ty' vs|vs] using array_pred_ind; intros Hp Hok; try done; cbn [evaluate_stats ssem stats_pred pred_ok st_min st_max] in *;
    try rewrite forallb_forall in Hp; try rewrite Forall_forall in IH.
  - apply eval_stats_members; [apply compute_and_spec|apply and3_true_l|done|]. rewrite Forall_map in Hok. rewrite Forall_forall in Hok |- *.
    intros p Hin. apply IH; [done|by apply Hp, list_elem_of_In|by apply Hok].
  - apply eval_stats_members; [apply compute_or_spec|apply or3_false_l|done|]. rewrite Forall_map in Hok. rewrite Forall_forall in Hok |- *.
    intros p Hin. apply IH; [done|by apply Hp, list_elem_of_In|by apply Hok].
  - pose proof Hok as (_ & Hcm & _). rewrite <-Hn in Hok, Hcm. unfold with_cast. destruct (cast_scalar_spec _ _ Hok) as [-> Hin]. cbn [mbind res_bind]. rewrite <-Hn.
    destruct (value_domain s (arr_type mn)).
    + replace (array_len mn) with (length (zip (arr_cells mn) (arr_cells mx))) by (unfold array_len; rewrite length_zip_with; lia). by rewrite zero_mask_fmap.
    + assert (∀ s', sc_value s' = sc_value s → sc_type s' = arr_type mn → scalar_ok s' →
        (min_boundary ← cmp_gt_eq s' mn; max_boundary ← cmp_lt_eq s' mx; compute_and min_boundary max_boundary) =
        Ok ((λ mm, and3 ((λ x, cell_leb x (sc_value s)) <$> mm.1) ((λ x, cell_leb (sc_value s) x) <$> mm.2)) <$> zip (arr_cells mn) (arr_cells mx))) as Hk.
      { intros s' E1 E2 E3. rewrite cmp_gt_eq_spec by (done || congruence). cbn [mbind res_bind]. rewrite cmp_lt_eq_spec by (done || congruence). cbn [mbind res_bind].
        rewrite compute_and_spec by (by rewrite !length_fmap). f_equal. rewrite E1.
        rewrite <-(fmap_zip_fst (cmp_cell (λ c, cell_leb c (sc_value s))) _ (arr_cells mx)), <-(fmap_zip_snd (cmp_cell (λ c, cell_leb (sc_value s) c)) (arr_cells mn)) by done.
        apply zip_with_fmap_same. }
      destruct (decide (sc_type s = arr_type mn)); apply Hk; try done; [apply Hok|by apply Hin].
    + replace (array_len mn) with (length (zip (arr_cells mn) (arr_cells mx))) by (unfold array_len; rewrite length_zip_with; lia). by rewrite zero_mask_fmap.
  - rewrite fmap_zip_fst by done. rewrite <-Hn. rewrite <-Hn in Hok. apply with_cast_spec; [done|]. intros s' E1 E2 E3. rewrite cmp_gt_eq_spec, E1; try done. apply Hok.
  - rewrite fmap_zip_snd by done. rewrite <-Hx. rewrite <-Hx in Hok. apply with_cast_spec; [done|]. intros s' E1 E2 E3. rewrite cmp_lt_eq_spec, E1; try done. apply Hok.
Qed.
End sem.

(** ** What row predicates select

    The answer of a row predicate for each row of a batch, and the soundness of the row ranges
    that its evaluation on column statistics returns. *)

(** ** Rows *)

Definition cell_at (arr : array) (i : nat) : option cell := nth i (arr_cells arr) None.

Fixpoint row_sem (p : RowPredicate) (b : RecordBatch) (i : nat) : option bool :=
  match p with
  | ColumnPredicate column ap =>
      match column_by_name b column with Some arr => sem ap (arr_type arr) (cell_at arr i) | None => None end
  | AndPredicate ps => all3 (map (λ p, row_sem p b i) ps)
  | OrPredicate ps => any3 (map (λ p, row_sem p b i) ps)
  end.

Fixpoint row_pred_ok (p : RowPredicate) (b : RecordBatch) : Prop :=
  match p with
  | ColumnPredicate column ap => ∃ arr, column_by_name b column = Some arr ∧ pred_ok ap (arr_type arr)
  | AndPredicate ps | OrPredicate ps => Forall id (map (λ p, row_pred_ok p b) ps)
  end.

(** A column predicate that claims to evaluate statistics does so for all of its members. *)
Fixpoint row_stats_ok (p : RowPredicate) : Prop :=
  match p with
  | ColumnPredicate _ ap => can_evaluate_stats ap = true → stats_pred ap = true
  | AndPredicate ps | OrPredicate ps => Forall id (map row_stats_ok ps)
  end.

Lemma row_pred_ind (P : RowPredicate → Prop) :
  (∀ c ap, P (ColumnPredicate c ap)) → (∀ ps, Forall P ps → P (AndPredicate ps)) → (∀ ps, Forall P ps → P (OrPredicate ps)) → ∀ p, P p.
Proof.
  intros HC HA HO. fix IH 1. intros p. destruct p as [c ap|ps|ps].
  1: apply HC. 1: apply HA; induction ps; constructor; auto. apply HO; induction ps; constructor; auto.
Qed.

Lemma column_by_name_elem b c arr : column_by_name b c = Some arr → (c, arr) ∈ rb_columns b.
Proof.
  unfold column_by_name. destruct (filter (λ x, x.1 = c) (rb_columns b)) as [|[c' arr'] l] eqn:E; [done|]. intros [= ->].
  assert ((c', arr) ∈ filter (λ x, x.1 = c) (rb_columns b)) as Hin by (rewrite E; lmem). apply list_elem_of_filter in Hin as [<- Hin]. done.
Qed.

Lemma batch_column_ok b c arr : batch_ok b → column_by_name b c = Some arr → array_ok arr ∧ array_len arr = rb_num_rows b.
Proof. intros Hb Hc. apply column_by_name_elem in Hc. unfold batch_ok in Hb. rewrite Forall_forall in Hb. apply (Hb _ Hc). Qed.

Lemma fmap_nth_seq {A B} (f : A → B) (l : list A) d : f <$> l = (λ i, f (nth i l d)) <$> seq 0 (length l).
Proof.
  apply list_eq. intros i. rewrite !list_lookup_fmap. destruct (l !! i) as [x|] eqn:E.
  - rewrite lookup_seq_lt by (by eapply lookup_lt_Some). cbn. by rewrite (nth_lookup_Some _ _ _ _ E).
  - rewrite lookup_seq_ge by (by apply lookup_ge_None). done.
Qed.

Section rows.
Context {AC : ArrowCompute} {ACL : ArrowComputeLaws}.

Lemma eval_row_members (F : mask → mask → res mask) G unit_ (ps : list RowPredicate) b :
  (∀ m1 m2, length m1 = length m2 → F m1 m2 = Ok (zip_with G m1 m2)) → (∀ x, G (Some unit_) x = x) →
  Forall (λ p, row_evaluate p b = Ok (row_sem p b <$> seq 0 (rb_num_rows b))) ps →
  combine F unit_ (rb_num_rows b) (map (λ p, row_evaluate p b) ps) =
  Ok ((λ i, fold_left G (map (λ p, row_sem p b i) ps) (Some unit_)) <$> seq 0 (rb_num_rows b)).
Proof.
  intros HF HG Hps. assert (map (λ p, row_evaluate p b) ps = (λ f, Ok (f <$> seq 0 (rb_num_rows b))) <$> (map (λ p, row_sem p b) ps)) as ->.
  { induction Hps as [|p ps Hp _ IH]; [done|]. cbn [map]. by rewrite fmap_cons, IH, Hp. }
  replace (rb_num_rows b) with (length (seq 0 (rb_num_rows b))) at 1 by (by rewrite length_seq). rewrite (combine_spec F G) by done.
  f_equal. apply list_fmap_ext. intros k i _. f_equal. clear. induction ps as [|p ps IH]; [done|]. cbn [map]. by rewrite fmap_cons, IH.
Qed.

Lemma row_evaluate_spec p b : batch_ok b → row_pred_ok p b → row_evaluate p b = Ok (row_sem p b <$> seq 0 (rb_num_rows b)).
Proof.
  intros Hb. induction p as [c ap|ps IH|ps IH] using row_pred_ind; intros Hp; cbn [row_evaluate row_sem row_pred_ok] in *.
  - destruct Hp as (arr & E & Hp). rewrite E. destruct (batch_column_ok _ _ _ Hb E) as [Ha Hl]. rewrite evaluate_spec by done. f_equal.
    rewrite <-Hl. apply fmap_nth_seq.
  - apply eval_row_members; [apply compute_and_spec|apply and3_true_l|]. rewrite Forall_map in Hp. rewrite Forall_forall in IH, Hp |- *. intros p Hin.
    by apply IH, Hp.
  - apply eval_row_members; [apply compute_or_spec|apply or3_false_l|]. rewrite Forall_map in Hp. rewrite Forall_forall in IH, Hp |- *. intros p Hin.
    by apply IH, Hp.
Qed.

(** ** Page ranges *)

(** Offsets of pages: from zero, strictly increasing, to the number of rows. *)
Definition offsets_ok (offsets : list Z) (n : Z) : Prop :=
  head offsets = Some 0 ∧ last offsets = Some n ∧ StronglySorted Z.lt offsets.

Lemma kept_pages_spec offsets : ∀ ks a, head offsets = Some a → StronglySorted Z.lt offsets → length offsets = S (length ks) →
  wf a (kept_pages offsets ks) ∧ ∀ i, covers (kept_pages offsets ks) i ↔
    ∃ k x y, ks !! k = Some true ∧ offsets !! k = Some x ∧ offsets !! S k = Some y ∧ x <= i < y.
Proof.
  induction offsets as [|x [|y offsets] IH]; intros ks a Ha Hs Hl; [done| |].
  - destruct ks; [|done]. split; [done|]. intros i. rewrite covers_nil. split; [done|]. by intros (k & ? & ? & ? & _).
  - injection Ha as <-. destruct ks as [|b ks]; [done|]. apply StronglySorted_inv in Hs as [Hs Hx]. apply Forall_cons in Hx as [Hxy _].
    destruct (IH ks y eq_refl Hs) as [Hw Hc]; [cbn in Hl |- *; lia|].
    change (kept_pages (x :: y :: offsets) (b :: ks)) with ((if b then [Range x y] else []) ++ kept_pages (y :: offsets) ks). split.
    + destruct b; cbn [app]; [split; [cbn; lia|done]|]. eapply wf_weaken; [|done]. lia.
    + intros i. rewrite covers_app, Hc. split.
      * intros [Hi|(k & u & v & ? & ? & ? & ?)].
        -- destruct b; [|by apply covers_nil in Hi]. rewrite covers_cons, covers_nil in Hi. destruct Hi as [Hi|[]]. exists 0%nat, x, y. done.
        -- exists (S k), u, v. done.
      * intros ([|k] & u & v & Hk & Hu & Hv & Hi).
        -- injection Hk as ->. injection Hu as <-. injection Hv as <-. left. rewrite covers_cons. by left.
        -- right. by exists k, u, v.
Qed.

Lemma kept_ranges_spec offsets (m : mask) n : offsets_ok offsets n → length offsets = S (length m) →
  ∃ out lo, stats_ranges offsets m = Ok out ∧ sealed lo out ∧
    (∀ i, covers out i ↔ ∃ k x y, m !! k = Some (Some true) ∧ offsets !! k = Some x ∧ offsets !! S k = Some y ∧ x <= i < y).
Proof.
  intros (Hh & Hl & Hs) Hm. unfold stats_ranges. rewrite Hm. cbn [Nat.eqb mbind res_bind]. rewrite Nat.sub_succ, Nat.sub_0_r.
  assert (collect ((λ i, v ← slice_get m i; Ok (bool_decide (v = Some true))) <$> seq 0 (length m)) = Ok ((λ v, bool_decide (v = Some true)) <$> m)) as ->.
  { rewrite <-(length_fmap (λ v, bool_decide (v = Some true)) m). apply collect_seq. intros i x Hx. rewrite list_lookup_fmap in Hx. unfold slice_get.
    destruct (m !! i); [|done]. by injection Hx as <-. }
  cbn [mbind res_bind]. destruct (kept_pages_spec offsets ((λ v, bool_decide (v = Some true)) <$> m) 0) as [Hw Hc]; [done|done|by rewrite length_fmap|].
  destruct (seal_spec (kept_pages offsets ((λ v, bool_decide (v = Some true)) <$> m))) as (out & lo & Eo & Hse & Ho); [by exists 0|].
  exists out, lo. split; [done|]. split; [done|]. intros i. rewrite Ho, Hc.
  split; intros (k & x & y & Hk & Hr); exists k, x, y; (split; [|done]).
  - rewrite list_lookup_fmap in Hk. destruct (m !! k) as [v|]; [|done]. injection Hk as Hk%bool_decide_eq_true. by subst.
  - by rewrite list_lookup_fmap, Hk.
Qed.

(** ** Statistics *)

(** The statistics of a column describe its cells page by page. *)
Record column_stats_ok (arr : array) (cs : ColumnStats) : Prop := mkColumnStatsOk {
  cso_typed : stats_typed (arr_type arr) (cs_min cs) (cs_max cs);
  cso_offsets : offsets_ok (cs_offsets cs) (Z.of_nat (array_len arr));
  cso_len : length (cs_offsets cs) = S (array_len (cs_min cs));
  cso_page k x y mn mx : cs_offsets cs !! k = Some x → cs_offsets cs !! S k = Some y → arr_cells (cs_min cs) !! k = Some mn → arr_cells (cs_max cs) !! k = Some mx →
    page_minmax (arr_type arr) (mn, mx) (take (Z.to_nat (y - x)) (drop (Z.to_nat x) (arr_cells arr)))
}.

Definition stats_of (b : RecordBatch) (rs : RowStats) : Prop :=
  ∀ c arr, column_by_name b c = Some arr → rs c = Ok None ∨ ∃ cs, rs c = Ok (Some cs) ∧ column_stats_ok arr cs.

(** Every row lies in a page. *)
Lemma offsets_page offsets n i : offsets_ok offsets n → 0 <= i < n → ∃ k x y, offsets !! k = Some x ∧ offsets !! S k = Some y ∧ x <= i < y.
Proof.
  intros (Hh & Hl & Hs). assert (∀ a, head offsets = Some a → a <= i < n → ∃ k x y, offsets !! k = Some x ∧ offsets !! S k = Some y ∧ x <= i < y) as HH.
  { clear Hh. induction offsets as [|x [|y offsets] IH]; intros a Ha Hi; [done| |].
    - cbn in Ha, Hl. simplify_eq. lia.
    - injection Ha as <-. destruct (Z.lt_ge_cases i y); [exists 0%nat, x, y; repeat split; try done; lia|]. apply StronglySorted_inv in Hs as [Hs _].
      destruct (IH Hl Hs y eq_refl) as (k & u & v & ? & ? & ?); [lia|]. by exists (S k), u, v. }
  intros Hi. by apply (HH 0).
Qed.

Lemma offsets_bounds offsets n k x : offsets_ok offsets n → offsets !! k = Some x → 0 <= x <= n.
Proof.
  intros (Hh & Hl & Hs) Hk. split.
  - destruct offsets as [|a offsets]; [done|]. injection Hh as ->. apply list_elem_of_lookup_2 in Hk. apply elem_of_cons in Hk as [->|Hk]; [lia|].
    pose proof (StronglySorted_elem _ _ _ Hs x Hk). lia.
  - apply last_Some in Hl as [l ->]. apply StronglySorted_snoc in Hs as [_ Hf]. rewrite Forall_forall in Hf. apply list_elem_of_lookup_2 in Hk.
    apply elem_of_app in Hk as [Hk|Hk]; [specialize (Hf x Hk); lia|]. apply list_elem_of_singleton in Hk. lia.
Qed.

(** A selection: none, or ranges inside the table that cover what is selected. *)
Definition selection_ok (sel : option (list range)) (n : nat) (selected : nat → Prop) : Prop :=
  match sel with
  | None => True
  | Some out => (∃ lo, sealed lo out) ∧ (∀ i, covers out i → 0 <= i < Z.of_nat n) ∧ ∀ i, (i < n)%nat → selected i → covers out (Z.of_nat i)
  end.

Lemma column_stats_sound b rs c ap : batch_ok b → stats_of b rs → row_pred_ok (ColumnPredicate c ap) b → stats_pred ap = true →
  ∃ sel, row_evaluate_stats (ColumnPredicate c ap) rs = Ok sel ∧
    selection_ok sel (rb_num_rows b) (λ i, row_sem (ColumnPredicate c ap) b i = Some true).
Proof.
  intros Hb Hrs (arr & Hc & Hp) Hst. destruct (batch_column_ok _ _ _ Hb Hc) as [Ha Hl]. cbn [row_evaluate_stats row_sem]. rewrite Hc.
  destruct (Hrs c arr Hc) as [->|(cs & -> & [Ht Ho Hln Hpg])]; cbn [mbind res_bind]; [by exists None|].
  rewrite (evaluate_stats_spec ap (arr_type arr)) by done. cbn [mbind res_bind].
  assert (length (ssem ap (arr_type arr) <$> zip (arr_cells (cs_min cs)) (arr_cells (cs_max cs))) = array_len (cs_min cs)) as Hlen.
  { pose proof (stt_len _ _ _ Ht). unfold array_len in *. rewrite length_fmap, length_zip_with. lia. }
  destruct (kept_ranges_spec (cs_offsets cs) (ssem ap (arr_type arr) <$> zip (arr_cells (cs_min cs)) (arr_cells (cs_max cs))) _ Ho) as (out & lo & -> & Hw & Hcov);
    [by rewrite Hlen|]. cbn [mbind res_bind]. exists (Some out). split; [done|]. split; [by exists lo|]. rewrite <-Hl. split.
  - intros i (k & x & y & _ & Hx & Hy & Hi)%Hcov. pose proof (offsets_bounds _ _ _ _ Ho Hx). pose proof (offsets_bounds _ _ _ _ Ho Hy). lia.
  - intros i Hi Hsem. apply Hcov. destruct (offsets_page _ _ (Z.of_nat i) Ho) as (k & x & y & Hx & Hy & Hxy); [lia|]. exists k, x, y. split; [|done].
    assert (k < array_len (cs_min cs))%nat as Hk by (apply lookup_lt_Some in Hy; lia).
    destruct (lookup_lt_is_Some_2 (arr_cells (cs_min cs)) k Hk) as [mn Hmn]. destruct (lookup_lt_is_Some_2 (arr_cells (cs_max cs)) k) as [mx Hmx];
      [rewrite (stt_len _ _ _ Ht) in Hk; done|].
    rewrite list_lookup_fmap, lookup_zip_with, Hmn. cbn. rewrite Hmx. cbn. f_equal. eapply page_sound; [done|done|exact (Hpg k x y mn mx Hx Hy Hmn Hmx)| |exact Hsem].
    unfold cell_at. pose proof (offsets_bounds _ _ _ _ Ho Hx). apply list_elem_of_lookup. exists (i - Z.to_nat x)%nat.
    rewrite lookup_take_lt, lookup_drop by lia. replace (Z.to_nat x + (i - Z.to_nat x))%nat with i by lia.
    destruct (lookup_lt_is_Some_2 (arr_cells arr) i Hi) as [v Hv]. by rewrite Hv, (nth_lookup_Some _ _ _ _ Hv).
Qed.

Lemma selection_weaken sel n (P Q : nat → Prop) : (∀ i, (i < n)%nat → Q i → P i) → selection_ok sel n P → selection_ok sel n Q.
Proof. intros HPQ. destruct sel as [out|]; [|done]. intros (? & ? & Hc). split; [done|]. split; [done|]. auto. Qed.

Lemma intersection_selection l1 l2 n P : selection_ok (Some l1) n P → selection_ok (Some l2) n P → selection_ok (Some (intersection l1 l2)) n P.
Proof.
  intros ([lo1 H1] & Hb1 & Hc1) ([lo2 H2] & Hb2 & Hc2).
  destruct (intersection_wf_covers _ _ _ _ (sealed_wf _ _ H1) (sealed_wf _ _ H2)) as [_ Hc].
  split; [eexists; by apply intersection_sealed|]. split; [intros i Hi; apply Hb1; by apply Hc|]. intros i Hi HP. apply Hc. auto.
Qed.

Lemma and_stats_sound n P ms : Forall (λ m : bool * res (option (list range)), m.1 = true → ∃ sel, m.2 = Ok sel ∧ selection_ok sel n P) ms →
  ∀ acc, selection_ok acc n P → ∃ sel, fold_res and_stats_step ms acc = Ok sel ∧ selection_ok sel n P.
Proof.
  induction 1 as [|m ms Hm _ IH]; intros acc Ha; cbn [fold_res]; [eauto|]. unfold and_stats_step at 1. destruct m as [can r]. cbn [fst snd] in *.
  destruct can; [|by apply IH]. destruct (Hm eq_refl) as ([sel|] & -> & Hs); cbn [mbind res_bind]; [|by apply IH].
  apply IH. destruct acc as [prev|]; [|done]. by apply intersection_selection.
Qed.

Lemma union_selection l1 l2 n P Q : selection_ok (Some l1) n P → selection_ok (Some l2) n Q →
  ∃ out, union l1 l2 = Ok out ∧ selection_ok (Some out) n (λ i, P i ∨ Q i).
Proof.
  intros (Hs1 & Hb1 & Hc1) (Hs2 & Hb2 & Hc2).
  assert (Hw1 : well_formed l1) by (destruct Hs1 as [lo1 Hs1]; exists lo1; by apply sealed_wf).
  assert (Hw2 : well_formed l2) by (destruct Hs2 as [lo2 Hs2]; exists lo2; by apply sealed_wf).
  destruct (range_union_spec l1 l2) as (out & lo & -> & Hs & Hin & Hout); [by apply try_from_spec|by apply try_from_spec|]. exists out. split; [done|].
  split; [by exists lo|]. split.
  - destruct Hw1 as [lo1 Hw1], Hw2 as [lo2 Hw2]. intros i [Hi|[Hi|(r1 & r2 & H1 & H2 & Hi)]]%Hout; [by apply Hb1|by apply Hb2|].
    assert (rstart r1 < rend r1) by (by eapply (wf_elem lo1 l1)). assert (rstart r2 < rend r2) by (by eapply (wf_elem lo2 l2)).
    assert (0 <= rend r1 - 1 < Z.of_nat n). { apply Hb1. apply Exists_exists. exists r1. split; [done|]. unfold in_range. lia. }
    assert (0 <= rstart r2 < Z.of_nat n). { apply Hb2. apply Exists_exists. exists r2. split; [done|]. unfold in_range. lia. }
    lia.
  - intros i Hi [HP|HQ]; apply Hin; auto.
Qed.

Abbreviation member_ok n := (λ (m : bool * res (option (list range))) (P : nat → Prop), m.1 = true → ∃ sel, m.2 = Ok sel ∧ selection_ok sel n P).

Lemma or_stats_acc n ms Ps : Forall2 (member_ok n) ms Ps → ∀ l R, selection_ok (Some l) n R →
  ∃ sel, or_stats (Some l) ms = Ok sel ∧ selection_ok sel n (λ i, R i ∨ Exists (λ P, P i) Ps).
Proof.
  induction 1 as [|[can r] P ms Ps Hm _ IH]; intros l R Hl; cbn [or_stats].
  - exists (Some l). split; [done|]. eapply selection_weaken; [|exact Hl]. intros i _ [?|HE]; [done|]. by apply Exists_nil in HE.
  - cbn [fst snd] in *. destruct can; [|by exists None]. destruct (Hm eq_refl) as ([sel|] & -> & Hs); cbn [mbind res_bind]; [|by exists None].
    destruct (union_selection _ _ _ _ _ Hl Hs) as (out & -> & Hout). cbn [mbind res_bind]. destruct (IH out _ Hout) as (sel' & -> & Hs').
    exists sel'. split; [done|]. eapply selection_weaken; [|exact Hs']. intros i _. rewrite Exists_cons. tauto.
Qed.

Lemma or_stats_sound n ms Ps : Forall2 (member_ok n) ms Ps → ∃ sel, or_stats None ms = Ok sel ∧ selection_ok sel n (λ i, Exists (λ P, P i) Ps).
Proof.
  intros [|[can r] P ms' Ps' Hm Hms]; cbn [or_stats]; [by exists None|]. cbn [fst snd] in *. destruct can; [|by exists None].
  destruct (Hm eq_refl) as ([sel|] & -> & Hs); cbn [mbind res_bind]; [|by exists None].
  destruct (or_stats_acc n ms' Ps' Hms sel P Hs) as (sel' & -> & Hs'). exists sel'. split; [done|]. eapply selection_weaken; [|exact Hs'].
  intros i _. by rewrite Exists_cons.
Qed.

Lemma row_stats_sound b rs p : batch_ok b → stats_of b rs → row_pred_ok p b → row_stats_ok p → row_can_evaluate_stats p = true →
  ∃ sel, row_evaluate_stats p rs = Ok sel ∧ selection_ok sel (rb_num_rows b) (λ i, row_sem p b i = Some true).
Proof.
  intros Hb Hrs. induction p as [c ap|ps IH|ps IH] using row_pred_ind; intros Hp Hst Hcan.
  - apply column_stats_sound; try done. by apply Hst.
  - cbn [row_evaluate_stats row_sem row_pred_ok row_stats_ok] in *. rewrite Forall_map in Hp, Hst. rewrite Forall_forall in IH, Hp, Hst.
    apply and_stats_sound; [|done]. apply Forall_map, Forall_forall. intros p Hin Hc. cbn [fst snd] in *.
    destruct (IH p Hin (Hp p Hin) (Hst p Hin) Hc) as (sel & E & Hs). exists sel. split; [done|]. eapply selection_weaken; [|exact Hs].
    intros i _ Hall. apply all3_true in Hall. rewrite Forall_map, Forall_forall in Hall. by apply Hall.
  - cbn [row_evaluate_stats row_sem row_pred_ok row_stats_ok] in *. rewrite Forall_map in Hp, Hst. rewrite Forall_forall in IH, Hp, Hst.
    destruct (or_stats_sound (rb_num_rows b) (map (λ p, (row_can_evaluate_stats p, row_evaluate_stats p rs)) ps) (map (λ p i, row_sem p b i = Some true) ps))
      as (sel & E & Hs).
    { clear Hcan. induction ps as [|p ps IHps]; cbn [map]; constructor.
      - intros Hc. apply IH; [lmem|apply Hp; lmem|apply Hst; lmem|done].
      - apply IHps; intros q Hq; [apply IH|apply Hp|apply Hst]; lmem. }
    exists sel. split; [done|]. eapply selection_weaken; [|exact Hs]. intros i _ Hany. apply any3_true in Hany as [Hany _].
    apply list_elem_of_In, in_map_iff in Hany as (p & Ep & Hin). apply Exists_exists. exists (λ i, row_sem p b i = Some true).
    split; [|done]. apply list_elem_of_In, in_map_iff. by exists p.
Qed.
End rows.
