(* ===== verification/QueryScanSpec.v ===== *)
(** * Reading a stored table by predicate

    [storage_read] returns exactly the selected rows of the projected columns: pruning by
    statistics, the columns added for the predicate and the row index do not show. *)
From stdpp Require Import gmap sorting.
From S2P Require Import Prelude Bytes Ranges QueryStack QueryArrow QueryPred QueryPredSpec.

(** ** Parts of a table *)

Definition rows_of (sel : option (list range)) (n : nat) : list nat :=
  match sel with
  | None => seq 0 n
  | Some ranges => mjoin ((λ r, seq (Z.to_nat (rstart r)) (Z.to_nat (rend r - rstart r))) <$> ranges)
  end.
Definition take_rows (is_ : list nat) (b : RecordBatch) : RecordBatch :=
  map_columns (λ cells, (λ i, nth i cells None) <$> is_) (length is_) b.
Definition in_projection (columns : option (gset Name)) (c : Name) : Prop := match columns with Some cs => c ∈ cs | None => True end.
#[export] Instance in_projection_dec columns c : Decision (in_projection columns c).
Proof. destruct columns; cbn [in_projection]; apply _. Defined.
Definition keep_columns (columns : option (gset Name)) (b : RecordBatch) : RecordBatch :=
  mkBatch (filter (λ c, in_projection columns c.1) (rb_columns b)) (rb_num_rows b).
(** The row index of the rows [is_] in front of the columns. *)
Definition indexed (with_row_index : bool) (is_ : list nat) (b : RecordBatch) : RecordBatch :=
  if with_row_index then mkBatch (("row_index", mkArray DUInt32 ((λ i, Some (CInt (Z.of_nat i))) <$> is_)) :: rb_columns b) (rb_num_rows b) else b.

(** A row selection the table reader can serve: non-empty ranges in order that do not even
    touch (reader.rs panics on touching ranges of list and string columns), inside the table. *)
Definition ranges_ok (sel : option (list range)) (n : nat) : Prop :=
  match sel with None => True | Some l => (∃ lo, sealed lo l) ∧ ∀ i, covers l i → 0 <= i < Z.of_nat n end.

(** What the reader relies on: the stored table [full], its statistics, and [read_table], which
    returns the rows of the ranges, as long as these do not touch, for the columns of the
    projection, and all rows when no column is left. *)
Record stored_ok (t : StoredTable) (full : RecordBatch) : Prop := mkStoredOk {
  so_batch : batch_ok full;
  so_small : Z.of_nat (rb_num_rows full) < 2 ^ 32;
  so_names : "row_index" ∉ (rb_columns full).*1;
  so_stats : stats_of full (storage_stats t);
  so_read columns sel : ranges_ok sel (rb_num_rows full) →
    sd_read_table t columns sel =
    Ok (match rb_columns (keep_columns columns full) with
        | [] => mkBatch [] (rb_num_rows full)
        | _ => take_rows (rows_of sel (rb_num_rows full)) (keep_columns columns full)
        end)
}.

(** ** Rows of ranges *)

Lemma elem_rows_of ranges n i : (∃ lo, wf lo ranges ∧ 0 <= lo) → i ∈ rows_of (Some ranges) n ↔ covers ranges (Z.of_nat i).
Proof.
  intros (lo & Hw & Hlo). unfold rows_of, covers. rewrite elem_join_fmap, Exists_exists. apply exist_proper. intros r.
  split; intros [Hr Hi]; (split; [done|]); pose proof (wf_elem lo _ _ Hw Hr) as Hb; unfold in_range in *.
  - apply elem_of_seq in Hi. lia.
  - apply elem_of_seq. lia.
Qed.

Lemma seq_StronglySorted a n : StronglySorted lt (seq a n).
Proof.
  revert a. induction n as [|n IH]; intros a; cbn [seq]; constructor; [done|]. apply Forall_forall. intros i Hi. apply elem_of_seq in Hi. lia.
Qed.

Lemma rows_of_sorted ranges lo n : wf lo ranges → 0 <= lo →
  StronglySorted lt (rows_of (Some ranges) n) ∧ Forall (λ i, lo <= Z.of_nat i) (rows_of (Some ranges) n).
Proof.
  revert lo. induction ranges as [|r ranges IH]; intros lo Hw Hlo; unfold rows_of in *; [split; constructor|]. destruct Hw as [Hr Hw].
  rewrite fmap_cons. change (mjoin (?a :: ?l)) with (a ++ mjoin l). destruct (IH (rend r) Hw) as [Hs Hf]; [lia|]. split.
  - apply StronglySorted_app_2; [|apply seq_StronglySorted|done]. intros a b Ha Hb. rewrite Forall_forall in Hf. specialize (Hf b Hb). apply elem_of_seq in Ha. lia.
  - apply Forall_app. split; [apply Forall_forall; intros i Hi; apply elem_of_seq in Hi; lia|]. eapply Forall_impl; [exact Hf|]. cbn. lia.
Qed.

(** Two increasing lists with the same elements are equal. *)
Lemma sorted_ext (l k : list nat) : StronglySorted lt l → StronglySorted lt k → (∀ i, i ∈ l ↔ i ∈ k) → l = k.
Proof.
  intros Hl. revert k. induction Hl as [|x l Hl IH Hx]; intros k Hk E.
  - destruct k as [|y k]; [done|]. exfalso. assert (y ∈ []) by (apply E; lmem). by eapply elem_of_nil.
  - destruct Hk as [|y k Hk Hy]; [exfalso; assert (x ∈ []) by (apply E; lmem); by eapply elem_of_nil|]. rewrite Forall_forall in Hx, Hy.
    assert (x = y) as ->.
    { assert (x ∈ y :: k) as Hx' by (apply E; lmem). assert (y ∈ x :: l) as Hy' by (apply E; lmem).
      apply elem_of_cons in Hx' as [?|Hx']; [done|]. apply elem_of_cons in Hy' as [?|Hy']; [done|]. specialize (Hx y Hy'). specialize (Hy x Hx'). lia. }
    f_equal. apply IH; [done|]. intros i. specialize (E i). rewrite !elem_of_cons in E. split; intros Hi.
    + destruct (proj1 E) as [->|?]; [by right| |done]. specialize (Hx y Hi). lia.
    + destruct (proj2 E) as [->|?]; [by right| |done]. specialize (Hy y Hi). lia.
Qed.

Lemma filter_rows_sorted (P : nat → Prop) `{!∀ i, Decision (P i)} l : StronglySorted lt l → StronglySorted lt (filter P l).
Proof.
  induction 1 as [|x l Hl IH Hx]; [constructor|]. rewrite filter_cons. destruct (decide (P x)); [|done]. constructor; [done|].
  rewrite Forall_forall in Hx |- *. intros y Hy. apply list_elem_of_filter in Hy as [_ Hy]. by apply Hx.
Qed.

Lemma ranges_ok_lo l n : ranges_ok (Some l) n → ∃ lo, wf lo l ∧ 0 <= lo.
Proof.
  intros [[lo Hw%sealed_wf] Hb]. destruct l as [|r l]; [by exists 0|]. exists (rstart r). destruct Hw as [Hr Hw]. split; [split; [lia|done]|].
  destruct (Hb (rstart r)); [|lia]. apply covers_cons. left. unfold in_range. lia.
Qed.

Lemma rows_of_sorted_ok sel n : ranges_ok sel n → StronglySorted lt (rows_of sel n) ∧ ∀ i, i ∈ rows_of sel n → (i < n)%nat.
Proof.
  destruct sel as [l|]; intros Hok.
  - destruct (ranges_ok_lo l n Hok) as (lo & Hw & Hlo). split; [by eapply rows_of_sorted|]. intros i Hi. apply elem_rows_of in Hi; [|by exists lo].
    apply Hok in Hi. lia.
  - split; [apply seq_StronglySorted|]. intros i Hi. apply elem_of_seq in Hi. lia.
Qed.

Lemma rows_of_length ranges n : ranges_ok (Some ranges) n → (length (rows_of (Some ranges) n) <= n)%nat.
Proof.
  intros Hok. destruct (rows_of_sorted_ok _ _ Hok) as [Hs Hlt]. rewrite <-(length_seq n 0) at 2. apply submseteq_length, NoDup_submseteq.
  - clear Hlt. induction Hs as [|x l Hs IH Hx]; [constructor|]. constructor; [|done]. rewrite Forall_forall in Hx. intros Hin. specialize (Hx x Hin). lia.
  - intros i Hi. apply elem_of_seq. specialize (Hlt i Hi). lia.
Qed.

(** ** The row index *)

Lemma fold_lengths ranges : ∀ a, 0 <= a → Forall (λ r, rstart r < rend r) ranges →
  a + Z.of_nat (length (rows_of (Some ranges) 0)) < 2 ^ 32 →
  fold_left (λ n r, u32_add n (rend r - rstart r)) ranges a = a + Z.of_nat (length (rows_of (Some ranges) 0)).
Proof.
  induction ranges as [|r ranges IH]; intros a Ha Hr Hs; cbn [fold_left]; unfold rows_of in *; [cbn; lia|].
  apply Forall_cons in Hr as [Hr Hrs]. rewrite fmap_cons in *. change (mjoin (?a :: ?l)) with (a ++ mjoin l) in *. rewrite length_app, length_seq in *.
  unfold u32_add at 2. rewrite Z.mod_small by lia. rewrite IH; [lia|lia|done|lia].
Qed.

Lemma build_row_index_spec n sel : Z.of_nat n < 2 ^ 32 → ranges_ok sel n →
  build_row_index_array 0 (length (rows_of sel n)) sel = Ok (Z.of_nat <$> rows_of sel n).
Proof.
  intros Hn Hok. unfold build_row_index_array. destruct sel as [ranges|].
  - pose proof (rows_of_length ranges n Hok) as Hl. destruct (ranges_ok_lo ranges n Hok) as (lo & Hw & Hlo).
    rewrite fold_lengths; [|lia| |change (rows_of (Some ranges) 0) with (rows_of (Some ranges) n); lia].
    2: { apply Forall_forall. intros r Hr. by eapply wf_elem. }
    change (rows_of (Some ranges) 0) with (rows_of (Some ranges) n). rewrite Z.add_0_l, Z.leb_refl. f_equal.
    destruct (rows_of_sorted_ok (Some ranges) n Hok) as [_ Hlt]. unfold rows_of in *. revert Hlt. clear Hl Hok Hw lo Hlo.
    induction ranges as [|r ranges IH]; intros Hlt; [done|]. rewrite !fmap_cons in *. change (mjoin (?a :: ?l)) with (a ++ mjoin l) in *.
    rewrite !fmap_app, IH by (intros i Hi; apply Hlt, elem_of_app; by right). f_equal. unfold range_items. rewrite <-list_fmap_compose.
    apply list_fmap_ext. intros k i Hi. cbn. unfold u32_add. apply list_elem_of_lookup_2 in Hi. rewrite Z.mod_small; [lia|].
    assert (i < n)%nat; [|lia]. apply Hlt, elem_of_app. by left.
  - unfold rows_of. by rewrite length_seq.
Qed.

(** ** Columns *)

Lemma column_map_columns f n b c :
  column_by_name (map_columns f n b) c = (λ arr, mkArray (arr_type arr) (f (arr_cells arr))) <$> column_by_name b c.
Proof.
  unfold column_by_name, map_columns. cbn [rb_columns]. induction (rb_columns b) as [|[c' arr] l IH]; [done|]. rewrite fmap_cons, !filter_cons. cbn [fst snd].
  destruct (decide (c' = c)); [done|]. apply IH.
Qed.

Lemma column_keep_columns columns b c : column_by_name (keep_columns columns b) c = if decide (in_projection columns c) then column_by_name b c else None.
Proof.
  unfold column_by_name, keep_columns. cbn [rb_columns]. induction (rb_columns b) as [|[c' arr] l IH]; [by destruct (decide _)|].
  rewrite (filter_cons _ _ l). cbn [fst]. destruct (decide (in_projection columns c')) as [Hin|Hin].
  - rewrite !filter_cons. cbn [fst]. destruct (decide (c' = c)) as [->|Hne]; [by rewrite decide_True|]. apply IH.
  - rewrite IH. rewrite filter_cons. cbn [fst]. destruct (decide (c' = c)) as [->|Hne]; [by rewrite !decide_False|done].
Qed.

Lemma column_indexed w is_ b c : c ≠ "row_index" → column_by_name (indexed w is_ b) c = column_by_name b c.
Proof. intros Hc. unfold indexed. destruct w; [|done]. unfold column_by_name. cbn [rb_columns]. rewrite filter_cons. cbn [fst]. by rewrite decide_False. Qed.

Lemma batch_ok_take is_ b : batch_ok b → batch_ok (take_rows is_ b).
Proof.
  intros Hb. unfold batch_ok, take_rows, map_columns in *. cbn [rb_columns rb_num_rows]. apply Forall_fmap. eapply Forall_impl; [exact Hb|].
  intros [c arr] [Ha _]. cbn. split; [|unfold array_len; by rewrite length_fmap]. unfold array_ok in *. cbn [arr_type arr_cells]. apply Forall_fmap, Forall_forall.
  intros i _. cbn. rewrite nth_lookup. destruct (arr_cells arr !! i) as [x|] eqn:E; cbn; [|done]. by eapply Forall_lookup_1 in Ha.
Qed.

Lemma batch_ok_keep columns b : batch_ok b → batch_ok (keep_columns columns b).
Proof.
  unfold batch_ok, keep_columns. cbn [rb_columns rb_num_rows]. intros Hb. apply Forall_forall. intros c Hc. apply list_elem_of_filter in Hc as [_ Hc].
  rewrite Forall_forall in Hb. by apply Hb.
Qed.

Lemma batch_ok_indexed w is_ b : batch_ok b → length is_ = rb_num_rows b → Forall (λ i, Z.of_nat i < 2 ^ 32) is_ → batch_ok (indexed w is_ b).
Proof.
  intros Hb Hl Hs. unfold indexed. destruct w; [|done]. unfold batch_ok in *. cbn [rb_columns rb_num_rows]. constructor; [|done]. cbn. split.
  - unfold array_ok. cbn. apply Forall_fmap. eapply Forall_impl; [exact Hs|]. intros i Hi. cbv beta in Hi. change (0 <= Z.of_nat i <= 2 ^ 32 - 1). lia.
  - unfold array_len. cbn. by rewrite length_fmap.
Qed.

(** ** The columns of a predicate *)

Lemma predicates_projection_spec ls c : c ∈ predicates_projection ls ↔ ∃ l, l ∈ ls ∧ c ∈ l.
Proof.
  unfold predicates_projection.
  assert (∀ names acc, acc.2 = list_to_set acc.1 →
    let r := fold_left (λ (acc : list Name * gset Name) name, if decide (name ∈ acc.2) then acc else (acc.1 ++ [name], {[ name ]} ∪ acc.2)) names acc in
    c ∈ r.1 ↔ c ∈ acc.1 ∨ c ∈ names) as H.
  { induction names as [|x names IH]; intros acc Ha; cbn [fold_left]; [rewrite elem_of_nil; tauto|]. cbv zeta. destruct (decide (x ∈ acc.2)) as [Hx|Hx].
    - rewrite IH by done. rewrite elem_of_cons. rewrite Ha, elem_of_list_to_set in Hx. split; [tauto|]. intros [?|[->|?]]; auto.
    - rewrite IH by (cbn; rewrite Ha; set_solver). cbn [fst]. rewrite elem_of_app, list_elem_of_singleton, elem_of_cons. tauto. }
  rewrite (H _ ([], ∅)) by done. cbn [fst]. rewrite elem_of_nil, list_elem_of_join. naive_solver.
Qed.

Lemma elem_projection_members (ps : list RowPredicate) c : c ∈ predicates_projection (map projection ps) ↔ ∃ p, p ∈ ps ∧ c ∈ projection p.
Proof.
  rewrite predicates_projection_spec. split.
  - intros (l & Hl & Hc). apply list_elem_of_In, in_map_iff in Hl as (p & <- & Hp). exists p. by rewrite list_elem_of_In.
  - intros (p & Hp & Hc). exists (projection p). split; [|done]. apply list_elem_of_In, in_map_iff. exists p. by rewrite <-list_elem_of_In.
Qed.

(** A batch [b'] whose row [k] has, in the columns of the predicate, the cells of row [i] of [b]. *)
Definition same_row (p : RowPredicate) (b' : RecordBatch) (k : nat) (b : RecordBatch) (i : nat) : Prop :=
  ∀ c, c ∈ projection p → ∀ arr, column_by_name b c = Some arr →
    ∃ arr', column_by_name b' c = Some arr' ∧ arr_type arr' = arr_type arr ∧ cell_at arr' k = cell_at arr i.

Lemma row_sem_same p b' k b i : row_pred_ok p b → same_row p b' k b i → row_sem p b' k = row_sem p b i.
Proof.
  intros Hp Hs. induction p as [c ap|ps IH|ps IH] using row_pred_ind; cbn [row_sem row_pred_ok] in *.
  - destruct Hp as (arr & E & _). rewrite E. destruct (Hs c ltac:(cbn; lmem) arr E) as (arr' & -> & -> & ->). done.
  - f_equal. apply map_ext_in. intros p Hin. rewrite Forall_map in Hp. rewrite Forall_forall in IH, Hp. apply list_elem_of_In in Hin. apply IH; [done|by apply Hp|].
    intros c Hc. apply Hs. cbn [projection]. apply elem_projection_members. eauto.
  - f_equal. apply map_ext_in. intros p Hin. rewrite Forall_map in Hp. rewrite Forall_forall in IH, Hp. apply list_elem_of_In in Hin. apply IH; [done|by apply Hp|].
    intros c Hc. apply Hs. cbn [projection]. apply elem_projection_members. eauto.
Qed.

Lemma row_pred_ok_same p b' b : row_pred_ok p b → (∀ c, c ∈ projection p → ∀ arr, column_by_name b c = Some arr → ∃ arr', column_by_name b' c = Some arr' ∧ arr_type arr' = arr_type arr) →
  row_pred_ok p b'.
Proof.
  intros Hp Hs. induction p as [c ap|ps IH|ps IH] using row_pred_ind; cbn [row_pred_ok] in *.
  - destruct Hp as (arr & E & Hp). destruct (Hs c ltac:(cbn; lmem) arr E) as (arr' & E' & Ht). exists arr'. by rewrite Ht.
  - rewrite Forall_map in Hp |- *. rewrite Forall_forall in IH, Hp |- *. intros p Hin. apply IH; [done|by apply Hp|]. intros c Hc. apply Hs.
    cbn [projection]. apply elem_projection_members. eauto.
  - rewrite Forall_map in Hp |- *. rewrite Forall_forall in IH, Hp |- *. intros p Hin. apply IH; [done|by apply Hp|]. intros c Hc. apply Hs.
    cbn [projection]. apply elem_projection_members. eauto.
Qed.

(** ** The rows that are read *)

Definition picked (p : option RowPredicate) (b : RecordBatch) (i : nat) : bool :=
  match p with None => true | Some p => bool_decide (row_sem p b i = Some true) end.
(** The rows of the table a read returns. *)
Definition picked_rows (p : option RowPredicate) (b : RecordBatch) (sel : option (list range)) : list nat :=
  filter (λ i, picked p b i = true) (rows_of sel (rb_num_rows b)).

Lemma keep_fmap {A B} (h : A → option bool) (f : A → B) (l : list A) : keep (h <$> l) (f <$> l) = f <$> filter (λ x, h x = Some true) l.
Proof.
  unfold keep. induction l as [|x l IH]; [done|]. rewrite !fmap_cons, filter_cons. cbn [zip zip_with omap list_omap fst snd].
  destruct (decide (h x = Some true)); [rewrite fmap_cons; f_equal|]; apply IH.
Qed.

Lemma filter_fmap_length {A} (h : A → option bool) (l : list A) : length (filter (λ x, x = Some true) (h <$> l)) = length (filter (λ x, h x = Some true) l).
Proof. induction l as [|x l IH]; [done|]. rewrite fmap_cons, !filter_cons. destruct (decide (h x = Some true)); cbn [length]; by rewrite IH. Qed.

Lemma omap_filter_indexes {A} (Q : A → bool) (l : list A) :
  omap (λ i, l !! i) (omap (λ ic : nat * A, if Q ic.2 then Some ic.1 else None) (imap pair l)) = filter (λ x, Q x = true) l.
Proof.
  assert (∀ pre, omap (λ i, (pre ++ l) !! i) (omap (λ ic : nat * A, if Q ic.2 then Some ic.1 else None) (imap (λ i x, ((length pre + i)%nat, x)) l)) = filter (λ x, Q x = true) l) as Hpre.
  { induction l as [|x l IH]; intros pre; [done|]. cbn [imap]. rewrite filter_cons. cbn [omap list_omap fst snd].
    assert (imap ((λ i x0, ((length pre + i)%nat, x0)) ∘ S) l = imap (λ i y, ((length (pre ++ [x]) + i)%nat, y)) l) as E.
    { apply imap_ext. intros i y _. cbn. f_equal. rewrite length_app. cbn. lia. }
    rewrite E. specialize (IH (pre ++ [x])). rewrite <-app_assoc in IH. cbn [app] in IH.
    destruct (Q x) eqn:EQ; [rewrite decide_True by done|rewrite decide_False by congruence; exact IH]. cbn [omap list_omap]. rewrite Nat.add_0_r, lookup_app_r, Nat.sub_diag by lia. cbn. f_equal. exact IH. }
  apply (Hpre []).
Qed.

Lemma take_rows_filter (h : nat → option bool) is_ b :
  map_columns (keep (h <$> is_)) (length (filter (λ x, x = Some true) (h <$> is_))) (take_rows is_ b) = take_rows (filter (λ i, h i = Some true) is_) b.
Proof.
  unfold take_rows, map_columns. cbn [rb_columns rb_num_rows]. rewrite filter_fmap_length. f_equal. rewrite <-list_fmap_compose. apply list_fmap_ext.
  intros i [c arr] _. cbn. do 2 f_equal. apply keep_fmap.
Qed.

Lemma indexed_filter (h : nat → option bool) w is_ b :
  map_columns (keep (h <$> is_)) (length (filter (λ x, x = Some true) (h <$> is_))) (indexed w is_ (take_rows is_ b)) =
  indexed w (filter (λ i, h i = Some true) is_) (take_rows (filter (λ i, h i = Some true) is_) b).
Proof.
  rewrite <-take_rows_filter. destruct w; [|done]. unfold indexed, map_columns, take_rows. cbn [rb_columns rb_num_rows]. f_equal. rewrite fmap_cons. f_equal.
  cbn. do 2 f_equal. apply keep_fmap.
Qed.

(** The columns that are read: those of the projection and of the predicate. *)
Definition read_columns (p : option RowPredicate) (columns : option (gset Name)) : option (gset Name) :=
  match columns with
  | None => None
  | Some cs => Some (match p with Some p => cs ∪ list_to_set (projection p) | None => cs end)
  end.

Definition opt_pred_ok (full : RecordBatch) (p : option RowPredicate) : Prop :=
  match p with None => True | Some p => row_pred_ok p full ∧ row_stats_ok p end.

Section read.
Context {AC : ArrowCompute} {ACL : ArrowComputeLaws} {AB : ArrowBatches} {ABL : ArrowBatchesLaws}.
Context (t : StoredTable) (full : RecordBatch) (Ht : stored_ok t full).

Lemma pruned_selection_spec p sel : opt_pred_ok full p → ranges_ok sel (rb_num_rows full) →
  ∃ m, pruned_selection t p sel = Ok m ∧ (p = None → m = None) ∧
    let sel' := match m with Some s => Some s | None => sel end in
    ranges_ok sel' (rb_num_rows full) ∧ picked_rows p full sel' = picked_rows p full sel.
Proof.
  intros Hp Hsel. unfold pruned_selection. destruct p as [p|]; [|by exists None]. destruct (row_can_evaluate_stats p) eqn:Hc; [|by exists None].
  destruct Hp as [Hp Hst]. destruct (row_stats_sound full (storage_stats t) p (so_batch _ _ Ht) (so_stats _ _ Ht) Hp Hst Hc) as ([out|] & -> & Hs);
    cbn [mbind res_bind option_map]; [|by exists None]. eexists. split; [done|]. split; [done|]. cbv zeta. destruct Hs as (Hw & Hb & Hcov).
  set (sel' := match sel with Some prev => intersection prev out | None => out end).
  assert (ranges_ok (Some sel') (rb_num_rows full) ∧ ∀ i, covers sel' (Z.of_nat i) ↔ i ∈ rows_of sel (rb_num_rows full) ∧ covers out (Z.of_nat i)) as [Hok Hcv].
  { unfold sel'. destruct sel as [prev|].
    - destruct (ranges_ok_lo _ _ Hsel) as (lo & Hwp & Hlo). destruct Hw as [lo2 Hw2], Hsel as [[lo1 Hw1] _].
      destruct (intersection_wf_covers _ _ _ _ Hwp (sealed_wf _ _ Hw2)) as [_ Hci].
      split; [split; [eexists; by apply intersection_sealed|]; intros i Hi; apply Hb; by apply Hci|]. intros i. rewrite Hci, elem_rows_of by (by exists lo). done.
    - split; [done|]. intros i. unfold rows_of. rewrite elem_of_seq. split; [|tauto]. intros Hi. split; [|done]. apply Hb in Hi. lia. }
  split; [done|]. unfold picked_rows. destruct (rows_of_sorted_ok _ _ Hok) as [Hs' Hl']. destruct (rows_of_sorted_ok _ _ Hsel) as [Hs Hl].
  apply sorted_ext; [by apply filter_rows_sorted|by apply filter_rows_sorted|]. intros i. rewrite !list_elem_of_filter, elem_rows_of by (by apply (ranges_ok_lo _ _ Hok)).
  rewrite Hcv. split; [tauto|]. intros [Hpi Hi]. split; [done|]. split; [done|]. apply Hcov; [by apply Hl|]. by apply bool_decide_eq_true in Hpi.
Qed.

Lemma widened_projection_spec p columns : match widened_projection p columns with Some c => Some c | None => columns end = read_columns p columns.
Proof.
  unfold widened_projection, read_columns. destruct p as [p|], columns as [cs|]; try done. destruct (decide _) as [E|]; [|done]. f_equal. apply leibniz_equiv.
  assert (∀ c, c ∈ projection p → c ∈ cs) as Hsub; [|set_solver]. intros c Hc. destruct (decide (c ∈ cs)); [done|]. exfalso.
  assert (c ∈ filter (λ c, c ∉ cs) (projection p)) as Hin by (by apply list_elem_of_filter). rewrite E in Hin. by apply elem_of_nil in Hin.
Qed.

Lemma stored_read_spec columns sel : ranges_ok sel (rb_num_rows full) → sel = None ∨ rb_columns (keep_columns columns full) ≠ [] →
  sd_read_table t columns sel = Ok (take_rows (rows_of sel (rb_num_rows full)) (keep_columns columns full)).
Proof.
  intros Hsel Hc. rewrite (so_read _ _ Ht) by done. f_equal. destruct (rb_columns (keep_columns columns full)) eqn:E; [|done].
  destruct Hc as [->|?]; [|done]. unfold take_rows, map_columns. rewrite E. cbn. by rewrite length_seq.
Qed.

(** The batch with the row index in front, as [storage_read] evaluates the predicate on it. *)
Lemma index_batch_spec (with_row_index : bool) columns sel : ranges_ok sel (rb_num_rows full) →
  let is_ := rows_of sel (rb_num_rows full) in
  (if with_row_index then
     index ← build_row_index_array 0 (rb_num_rows (take_rows is_ (keep_columns columns full))) sel;
     add_row_index (take_rows is_ (keep_columns columns full)) index
   else Ok (take_rows is_ (keep_columns columns full))) = Ok (indexed with_row_index is_ (take_rows is_ (keep_columns columns full))).
Proof.
  intros Hsel is_. destruct with_row_index; [|done]. change (rb_num_rows (take_rows is_ (keep_columns columns full))) with (length is_). unfold is_ at 1 2.
  rewrite build_row_index_spec by (done || apply (so_small _ _ Ht)). cbn [mbind res_bind]. unfold add_row_index. rewrite length_fmap.
  change (rb_num_rows (take_rows is_ (keep_columns columns full))) with (length is_). unfold is_ at 1. rewrite Nat.eqb_refl. unfold indexed. do 3 f_equal.
  do 2 f_equal. by rewrite <-list_fmap_compose.
Qed.

Lemma row_column_name c arr : column_by_name full c = Some arr → c ≠ "row_index".
Proof. intros Hc ->. apply column_by_name_elem in Hc. apply (so_names _ _ Ht). apply list_elem_of_fmap. by exists ("row_index", arr). Qed.

Lemma read_column p columns w is_ c arr : c ∈ projection p → column_by_name full c = Some arr →
  column_by_name (indexed w is_ (take_rows is_ (keep_columns (read_columns (Some p) columns) full))) c =
  Some (mkArray (arr_type arr) ((λ i, nth i (arr_cells arr) None) <$> is_)).
Proof.
  intros Hin Hc. rewrite column_indexed by (by eapply row_column_name). unfold take_rows. rewrite column_map_columns, column_keep_columns, decide_True; [by rewrite Hc|].
  destruct columns; cbn; [set_solver|done].
Qed.

Lemma read_evaluate p columns w sel : row_pred_ok p full → ranges_ok sel (rb_num_rows full) →
  let is_ := rows_of sel (rb_num_rows full) in
  let b := indexed w is_ (take_rows is_ (keep_columns (read_columns (Some p) columns) full)) in
  batch_ok b ∧ rb_num_rows b = length is_ ∧ row_evaluate p b = Ok (row_sem p full <$> is_).
Proof.
  intros Hp Hsel is_ b. assert (rb_num_rows b = length is_) as Hn by (by destruct w). destruct (rows_of_sorted_ok _ _ Hsel) as [_ Hlt].
  assert (batch_ok b) as Hb.
  { apply batch_ok_indexed; [apply batch_ok_take, batch_ok_keep, (so_batch _ _ Ht)|done|]. apply Forall_forall. intros i Hi. pose proof (so_small _ _ Ht).
    specialize (Hlt i Hi). lia. }
  split; [done|]. split; [done|]. rewrite row_evaluate_spec; [|done|].
  - f_equal. rewrite Hn. apply list_eq. intros k. rewrite !list_lookup_fmap. destruct (is_ !! k) as [i|] eqn:E.
    + rewrite lookup_seq_lt by (by eapply lookup_lt_Some). cbn. f_equal. apply row_sem_same; [done|]. intros c Hc arr Harr. eexists.
      split; [by apply read_column|]. split; [done|]. unfold cell_at. cbn [arr_cells]. erewrite (nth_lookup_Some _ k _ (nth i (arr_cells arr) None)); [done|].
      by rewrite list_lookup_fmap, E.
    + by rewrite lookup_seq_ge by (by apply lookup_ge_None).
  - apply (row_pred_ok_same p b full); [done|]. intros c Hc arr Harr. eexists. split; [by apply read_column|done].
Qed.

Lemma project_read p cs w is_ :
  let b := indexed w is_ (take_rows is_ (keep_columns (read_columns (Some p) (Some cs)) full)) in
  batch_project b (projected_indexes cs w b) = Ok (indexed w is_ (take_rows is_ (keep_columns (Some cs) full))).
Proof.
  intros b. rewrite batch_project_spec.
  - assert (omap (λ i, rb_columns b !! i) (projected_indexes cs w b) =
      filter (λ c : Name * array, is_projected cs w c.1 = true) (rb_columns b)) as ->.
    { apply (omap_filter_indexes (λ c : Name * array, is_projected cs w c.1)). }
    assert (filter (λ c : Name * array, is_projected cs w c.1 = true) (rb_columns (take_rows is_ (keep_columns (read_columns (Some p) (Some cs)) full))) =
      rb_columns (take_rows is_ (keep_columns (Some cs) full))) as E.
    { unfold take_rows, map_columns, keep_columns. cbn [rb_columns]. pose proof (so_names _ _ Ht) as Hn. clear b.
      induction (rb_columns full) as [|[c arr] l IH]; [done|]. rewrite fmap_cons, not_elem_of_cons in Hn. destruct Hn as [Hnc Hn]. cbn [fst] in Hnc.
      rewrite !(filter_cons _ (c, arr)). cbn [fst in_projection read_columns].
      destruct (decide (c ∈ cs ∪ list_to_set (projection p))) as [H1|H1], (decide (c ∈ cs)) as [H2|H2]; [| |set_solver|by apply IH].
      - rewrite !fmap_cons, filter_cons, decide_True; [f_equal; by apply IH|]. unfold is_projected. cbn. by rewrite bool_decide_eq_true_2.
      - rewrite fmap_cons, filter_cons, decide_False; [by apply IH|]. unfold is_projected. cbn. rewrite bool_decide_eq_false_2 by done. cbn.
        rewrite bool_decide_eq_false_2 by congruence. by rewrite andb_false_r. }
    unfold b, indexed. destruct w; cbn [rb_columns rb_num_rows].
    + rewrite filter_cons, decide_True by (unfold is_projected; cbn; by rewrite orb_true_r). by rewrite E.
    + rewrite E. done.
  - unfold projected_indexes. apply Forall_forall. intros i Hi. apply list_elem_of_omap in Hi as ([j c] & Hj & E). destruct (is_projected _ _ _); [|done]. injection E as <-.
    apply list_elem_of_lookup in Hj as [k Hk]. rewrite list_lookup_imap in Hk. destruct (rb_columns b !! k) eqn:Ek; [|done]. injection Hk as <- <-.
    by eapply lookup_lt_Some.
Qed.

Lemma picked_rows_some p sel : picked_rows (Some p) full sel = filter (λ i, row_sem p full i = Some true) (rows_of sel (rb_num_rows full)).
Proof. unfold picked_rows, picked. apply list_filter_iff'. apply Forall_forall. intros i _. by rewrite bool_decide_eq_true. Qed.

Lemma storage_read_spec p columns sel w dn : opt_pred_ok full p → ranges_ok sel (rb_num_rows full) →
  p = None ∧ sel = None ∨ rb_columns (keep_columns (read_columns p columns) full) ≠ [] →
  storage_read t p columns sel w dn =
  Ok [indexed w (picked_rows p full sel) (take_rows (picked_rows p full sel) (keep_columns columns full))].
Proof.
  intros Hp Hsel Hc. destruct (pruned_selection_spec p sel Hp Hsel) as (m & Em & Hmn & Hsel' & Hrows). unfold storage_read. rewrite Em. cbn [mbind res_bind].
  rewrite widened_projection_spec. set (sel' := match m with Some s => Some s | None => sel end) in *.
  rewrite stored_read_spec; [|done|]. 2: { destruct Hc as [[-> ->]|?]; [left|by right]. unfold sel'. by rewrite Hmn. }
  cbn [mbind res_bind]. rewrite index_batch_spec by done. cbn [mbind res_bind]. destruct p as [p|].
  - destruct (read_evaluate p columns w sel' (proj1 Hp) Hsel') as (Hb & Hn & ->). cbn [mbind res_bind].
    assert (∀ b, b = indexed w (rows_of sel' (rb_num_rows full)) (take_rows (rows_of sel' (rb_num_rows full)) (keep_columns columns full)) →
      (b ← filter_record_batch b (row_sem p full <$> rows_of sel' (rb_num_rows full)); Ok [b]) =
      Ok [indexed w (picked_rows (Some p) full sel) (take_rows (picked_rows (Some p) full sel) (keep_columns columns full))]) as Hfil.
    { intros b ->. rewrite filter_record_batch_spec.
      - cbn [mbind res_bind]. rewrite indexed_filter, <-picked_rows_some. by rewrite Hrows.
      - apply batch_ok_indexed; [apply batch_ok_take, batch_ok_keep, (so_batch _ _ Ht)|done|]. apply Forall_forall. intros i Hi.
        pose proof (so_small _ _ Ht). destruct (rows_of_sorted_ok _ _ Hsel') as [_ Hlt]. specialize (Hlt i Hi). lia.
      - rewrite length_fmap. by destruct w. }
    destruct (widened_projection (Some p) columns) as [c|] eqn:Ew; [destruct columns as [cs|]; [|done]|].
    + rewrite project_read. cbn [mbind res_bind]. by apply Hfil.
    + cbn [mbind res_bind]. apply Hfil. pose proof (widened_projection_spec (Some p) columns) as Hw. rewrite Ew in Hw. by rewrite <-Hw.
  - rewrite <-Hrows. unfold picked_rows, picked. rewrite list_filter_all by done. f_equal. by destruct columns.
Qed.

(** C33: Reading a stored table with a predicate, a projection and a row selection returns one
    batch, of exactly the rows of the selection that the predicate selects, in order, with the
    projected columns and, if asked for, the row numbers; pruning by page statistics and the
    extra columns of the predicate make no difference.  The ranges of the selection must not
    touch, as those of [from_sorted_indexes]; the pruned ranges passed on do not touch either,
    which is all the table reader is relied on for. *)
Theorem storage_read_exact p columns sel w dn : opt_pred_ok full p → ranges_ok sel (rb_num_rows full) →
  p = None ∧ sel = None ∨ rb_columns (keep_columns (read_columns p columns) full) ≠ [] →
  storage_read t p columns sel w dn =
  Ok [indexed w (picked_rows p full sel) (take_rows (picked_rows p full sel) (keep_columns columns full))].
Proof. apply storage_read_spec. Qed.
End read.
