(* ===== verification/QueryRel.v ===== *)
(** * Relations between rows (crates/query/src/plan/rel.rs, row_list.rs)

    A relation turns a set of rows of its input table into rows of its output table: by a join
    on keys, or along the address tree.  Data frames are lists of rows; the operations of polars
    on them are a class with laws. *)
From stdpp Require Import gmap sorting.
From S2P Require Import Prelude Bytes Ranges QueryStack QueryArrow QueryPred.

(** ** Data frames *)

(** A row maps the name of a column to its cell, [None] for null. *)
Abbreviation frow := (gmap Name (option cell)).
Record frame : Type := mkFrame { fr_columns : list (Name * DataType); fr_rows : list frow }.

Definition get (c : Name) (r : frow) : option cell := mjoin (r !! c).
Definition frame_type (f : frame) (c : Name) : option DataType := snd <$> head (filter (λ x, x.1 = c) (fr_columns f)).
Definition has_columns (f : frame) (cs : list Name) : Prop := Forall (λ c, c ∈ (fr_columns f).*1) cs.

(** Keys match when no part is null and all parts are equal. *)
Definition keys_match (lk rk : list Name) (x y : frow) : bool :=
  forallb (λ ab, match get ab.1 x, get ab.2 y with Some u, Some v => bool_decide (u = v) | _, _ => false end) (zip lk rk).

(** [record_batch_vec_to_lazy_polars_df] (crates/polars/src/arrow.rs) *)
Definition batch_rows (b : RecordBatch) : list frow :=
  (λ i, list_to_map ((λ c : Name * array, (c.1, nth i (arr_cells c.2) None)) <$> rb_columns b)) <$> seq 0 (rb_num_rows b).
Definition batches_frame (bs : list RecordBatch) : frame :=
  match bs with
  | [] => mkFrame [] []
  | b :: _ => mkFrame ((λ c, (c.1, arr_type c.2)) <$> rb_columns b) (mjoin (batch_rows <$> bs))
  end.
Definition to_lazy_df (s : Scan) : res frame := bs ← scan_execute s; Ok (batches_frame bs).

(** The operations of polars the relations use. *)
Class Polars : Type := {
  semi_join : frame → frame → list Name → list Name → res frame;
  inner_join : frame → frame → list Name → list Name → res frame;
  (* select with col(src).alias(dst) *)
  select : list (Name * Name) → frame → res frame;
  unique : frame → res frame;
  with_index_column : Name → frame → res frame;
  (* group_by(keys).agg(lists of the other columns): the rows of each group *)
  group_by : list Name → frame → res (list (list frow))
}.

Definition select_row (cs : list (Name * Name)) (r : frow) : frow := list_to_map ((λ c, (c.2, get c.1 r)) <$> cs).

Class PolarsLaws `{Polars} : Prop := {
  semi_join_spec l r lk rk : lk ≠ [] → has_columns l lk → has_columns r rk → length lk = length rk →
    ∃ f, semi_join l r lk rk = Ok f ∧ fr_columns f = fr_columns l ∧
      fr_rows f ≡ₚ filter (λ x, Exists (λ y, keys_match lk rk x y = true) (fr_rows r)) (fr_rows l);
  inner_join_spec l r on : on ≠ [] → has_columns l on → has_columns r on → (∀ c, c ∈ (fr_columns l).*1 → c ∈ (fr_columns r).*1 → c ∈ on) →
    ∃ f, inner_join l r on on = Ok f ∧ fr_columns f = fr_columns l ++ filter (λ c, c.1 ∉ on) (fr_columns r) ∧
      fr_rows f ≡ₚ mjoin ((λ x, (λ y, x ∪ y) <$> filter (λ y, keys_match on on x y = true) (fr_rows r)) <$> fr_rows l);
  select_spec cs f : cs ≠ [] → has_columns f cs.*1 → NoDup cs.*2 →
    ∃ g, select cs f = Ok g ∧ (fr_columns g).*1 = cs.*2 ∧ fr_rows g = select_row cs <$> fr_rows f;
  unique_spec f : ∃ g, unique f = Ok g ∧ fr_columns g = fr_columns f ∧ NoDup (fr_rows g) ∧ ∀ r, r ∈ fr_rows g ↔ r ∈ fr_rows f;
  with_index_column_spec name f : name ∉ (fr_columns f).*1 →
    ∃ g, with_index_column name f = Ok g ∧ fr_columns g = (name, DUInt32) :: fr_columns f ∧
      fr_rows g = imap (λ i r, <[name := Some (CInt (Z.of_nat i))]> r) (fr_rows f);
  group_by_spec keys f : has_columns f keys →
    ∃ gs, group_by keys f = Ok gs ∧ mjoin gs ≡ₚ fr_rows f ∧ Forall (λ g, g ≠ []) gs ∧
      (∀ g x y, g ∈ gs → x ∈ g → y ∈ g → (λ c, get c x) <$> keys = (λ c, get c y) <$> keys) ∧
      (∀ i j gi gj x y, gs !! i = Some gi → gs !! j = Some gj → x ∈ gi → y ∈ gj →
         (λ c, get c x) <$> keys = (λ c, get c y) <$> keys → i = j)
}.

(** ** Row lists (row_list.rs) *)

(** A mutex over a [BTreeSet]: a set of rows. *)
Abbreviation RowList := (gset Z).
Definition sorted_rows (rows : RowList) : list Z := merge_sort Z.le (elements rows).

Definition int_cell (c : option cell) : Z := match c with Some (CInt z) => z | _ => 0 end.
(** [polars_series_to_row_index_iter] on the column row_index. *)
Definition frame_rows (f : frame) : list Z := (λ r, int_cell (get "row_index" r)) <$> fr_rows f.

(** [extend_from_record_batch_vec] *)
Definition batch_row_index (b : RecordBatch) : res (list Z) :=
  match column_by_name b "row_index" with
  | None => Panic "No row_index column in the batch"
  | Some arr => if forallb (λ c, bool_decide (is_Some c)) (arr_cells arr) then Ok (int_cell <$> arr_cells arr) else Panic "assertion failed: null_count == 0"
  end.
Definition extend_from_record_batch_vec (rows : RowList) (bs : list RecordBatch) : res RowList :=
  is_ ← collect (batch_row_index <$> bs);
  Ok (rows ∪ list_to_set (mjoin is_)).

(** ** Relations *)

Inductive Rel : Type :=
| Join (input_table : Name) (input_key : list Name) (output_table : Name) (output_key : list Name)
| ForeignChildren (input_table : Name) (input_key : list Name) (output_table : Name) (output_key : list Name)
| ForeignParents (input_table : Name) (input_key : list Name) (output_table : Name) (output_key : list Name)
| Children (table : Name) (key : list Name)
| Parents (table : Name) (key : list Name).

#[export] Instance Rel_eq_dec : EqDecision Rel.
Proof. solve_decision. Defined.

Definition output_table (r : Rel) : Name :=
  match r with Join _ _ o _ | ForeignChildren _ _ o _ | ForeignParents _ _ o _ => o | Children t _ | Parents t _ => t end.
Definition input_table (r : Rel) : Name :=
  match r with Join i _ _ _ | ForeignChildren i _ _ _ | ForeignParents i _ _ _ => i | Children t _ | Parents t _ => t end.

(** The trait [Chunk]. *)
Abbreviation Chunk := (Name → res Scan).

(** [downcast_address_type!] *)
Definition check_address_type (ty : option DataType) : res unit :=
  match ty with
  | Some (DList (DInt true 32)) | Some (DList (DInt false 32)) | Some (DList (DInt false 16)) => Ok tt
  | _ => Err (EMsg "invalid address type")
  end.

Definition cell_address (c : option cell) : list Z := match c with Some (CInts l) => l | _ => [] end.

(** [Stack::from_df] *)
Definition stack_from_groups (address_column : Name) (gs : list (list frow)) : Stack :=
  stack_of ((λ g : list frow, (λ r, (cell_address (get address_column r), int_cell (get "row_index" r))) <$> g) <$> gs).

(** [key.iter().take(key.len() - 1)] and [key.last().unwrap()]: an empty key underflows. *)
Definition split_key (key : list Name) : res (list Name * Name) :=
  match last key with Some a => Ok (take (length key - 1) key, a) | None => Panic "attempt to subtract with overflow" end.

Definition same_names (cs : list Name) : list (Name * Name) := (λ c, (c, c)) <$> cs.

Section eval.
Context {PL : Polars}.

Definition eval_join (chunk : Chunk) (input : RowList) (it : Name) (ik : list Name) (ot : Name) (ok : list Name) : res (list Z) :=
  sel ← from_sorted_indexes (sorted_rows input);
  s ← chunk it;
  input_rows ← to_lazy_df (with_columns (with_row_selection s (Some sel)) ik);
  s ← chunk ot;
  output_rows ← to_lazy_df (with_columns (with_row_index s true) ok);
  result ← semi_join output_rows input_rows ok ik;
  result ← select [("row_index", "row_index")] result;
  Ok (frame_rows result).

(** [select_stack], with the type of the address column. *)
Definition select_stack (chunk : Chunk) (table : Name) (key : list Name) (input : RowList) : res (Stack * option DataType) :=
  s ← chunk table;
  items ← to_lazy_df (with_columns (with_row_index s true) key);
  let row_index := mkFrame [("row_index", DUInt32)] ((λ i, {[ "row_index" := Some (CInt i) ]}) <$> sorted_rows input) in
  '(group_key, address_column) ← split_key key;
  joined ← inner_join row_index items ["row_index"] ["row_index"];
  groups ← select (same_names group_key) joined;
  groups ← unique groups;
  groups ← with_index_column "_group" groups;
  items' ← inner_join groups items group_key group_key;
  gs ← group_by ["_group"] items';
  Ok (stack_from_groups address_column gs, frame_type items address_column).

Definition select_foreign_stack (chunk : Chunk) (input : RowList) (it : Name) (ik : list Name) (ot : Name) (ok : list Name) :
    res (Stack * option DataType * list Z) :=
  '(group_key, address_column) ← split_key ok;
  sel ← from_sorted_indexes (sorted_rows input);
  s ← chunk it;
  input_df ← to_lazy_df (with_columns (with_row_selection s (Some sel)) ik);
  input_df ← select (zip ik ok) input_df;
  s ← chunk ot;
  items ← to_lazy_df (with_row_index (with_columns s ok) true);
  items ← semi_join items input_df group_key group_key;
  joined ← inner_join input_df items ok ok;
  input_rows ← select [("row_index", "row_index")] joined;
  gs ← group_by group_key items;
  Ok (stack_from_groups address_column gs, frame_type items address_column, frame_rows input_rows).

Definition find_children (stack : Stack * option DataType) (parents : list Z) (include_parent : bool) : res (list Z) :=
  _ ← check_address_type stack.2;
  find_children_impl parents include_parent stack.1.
Definition find_parents (stack : Stack * option DataType) (children : list Z) : res (list Z) :=
  _ ← check_address_type stack.2;
  find_parents_impl children stack.1.

Definition eval_children (chunk : Chunk) (input : RowList) (table : Name) (key : list Name) : res (list Z) :=
  stack ← select_stack chunk table key input;
  find_children stack (sorted_rows input) false.
Definition eval_parents (chunk : Chunk) (input : RowList) (table : Name) (key : list Name) : res (list Z) :=
  stack ← select_stack chunk table key input;
  find_parents stack (sorted_rows input).
Definition eval_foreign_children (chunk : Chunk) (input : RowList) (it : Name) (ik : list Name) (ot : Name) (ok : list Name) : res (list Z) :=
  '(stack, parents) ← select_foreign_stack chunk input it ik ot ok;
  find_children stack parents true.
Definition eval_foreign_parents (chunk : Chunk) (input : RowList) (it : Name) (ik : list Name) (ot : Name) (ok : list Name) : res (list Z) :=
  '(stack, children) ← select_foreign_stack chunk input it ik ot ok;
  find_parents stack children.

(** [Rel::eval]: the rows it adds to the output list. *)
Definition rel_eval (r : Rel) (chunk : Chunk) (input : RowList) : res (list Z) :=
  match r with
  | Join it ik ot ok => eval_join chunk input it ik ot ok
  | ForeignChildren it ik ot ok => eval_foreign_children chunk input it ik ot ok
  | ForeignParents it ik ot ok => eval_foreign_parents chunk input it ik ot ok
  | Children table key => eval_children chunk input table key
  | Parents table key => eval_parents chunk input table key
  end.
End eval.
