(* ===== verification/QueryRelSpec.v ===== *)
(** * What relations select

    The relations over a chunk whose tables are read exactly: a join yields the rows whose key
    occurs among the input rows, children and parents the rows below and above them in the
    address tree. *)
From stdpp Require Import gmap sorting.
From S2P Require Import Prelude Bytes Ranges QueryStack QueryArrow QueryPred QueryPredSpec QueryScanSpec QueryRel.

(** ** Readers *)

(** The frame of the rows [is_] of a table. *)
Definition table_frame (full : RecordBatch) (columns : option (gset Name)) (w : bool) (is_ : list nat) : frame :=
  batches_frame [indexed w is_ (take_rows is_ (keep_columns columns full))].

(** What the query engine relies on a reader for. *)
Class ReaderLaws (r : TableReader) (full : RecordBatch) : Prop := {
  reader_batch_ok : batch_ok full;
  reader_small : Z.of_nat (rb_num_rows full) < 2 ^ 32;
  reader_names : "row_index" ∉ (rb_columns full).*1;
  reader_read p columns sel w dn : opt_pred_ok full p → ranges_ok sel (rb_num_rows full) →
    p = None ∧ sel = None ∨ rb_columns (keep_columns (read_columns p columns) full) ≠ [] →
    ∃ bs, read r p columns sel w dn = Ok bs ∧ batches_frame bs = table_frame full columns w (picked_rows p full sel) ∧
      (w = true → ∃ is_, collect (batch_row_index <$> bs) = Ok is_ ∧ mjoin is_ = Z.of_nat <$> picked_rows p full sel)
}.

(** The stored tables keep the interface. *)
#[export] Instance storage_reader_laws {AC : ArrowCompute} {ACL : ArrowComputeLaws} {AB : ArrowBatches} {ABL : ArrowBatchesLaws} t full :
  stored_ok t full → ReaderLaws (storage_reader t) full.
Proof.
  intros Ht. split; [apply Ht|apply Ht|apply Ht|]. intros p columns sel w dn Hp Hs Hc. cbn [read storage_reader].
  rewrite (storage_read_spec t full Ht) by done. eexists. split; [done|]. split; [done|]. intros ->.
  exists [Z.of_nat <$> picked_rows p full sel]. split; [|cbn; apply app_nil_r]. rewrite <-(collect_Ok [_]). f_equal. unfold indexed.
  rewrite fmap_cons. cbn [fmap list_fmap]. f_equal. unfold batch_row_index, column_by_name. cbn [rb_columns]. rewrite filter_cons, decide_True by done.
  cbn [head fmap option_fmap option_map snd arr_cells]. rewrite <-list_fmap_compose. case_if; [f_equal; by apply list_fmap_ext|].
  exfalso. apply not_true_iff_false in Heqb. apply Heqb, forallb_forall. intros c Hcl. apply list_elem_of_In, list_elem_of_fmap in Hcl as (i & -> & _).
  by apply bool_decide_eq_true_2.
Qed.

(** ** Rows of frames *)

Definition tcell (full : RecordBatch) (c : Name) (i : nat) : option cell :=
  match column_by_name full c with Some arr => cell_at arr i | None => None end.

(** The row [i] of a table as a frame row. *)
Definition row_of (full : RecordBatch) (columns : option (gset Name)) (w : bool) (i : nat) : frow :=
  list_to_map ((if w then [("row_index", Some (CInt (Z.of_nat i)))] else []) ++
               ((λ c : Name * array, (c.1, cell_at c.2 i)) <$> rb_columns (keep_columns columns full))).

Lemma table_frame_rows full columns w is_ : fr_rows (table_frame full columns w is_) = row_of full columns w <$> is_.
Proof.
  unfold table_frame, batches_frame. cbn [fr_rows mjoin list_join fmap list_fmap]. rewrite app_nil_r. unfold batch_rows.
  assert (rb_num_rows (indexed w is_ (take_rows is_ (keep_columns columns full))) = length is_) as -> by (by destruct w).
  apply list_eq. intros k. rewrite !list_lookup_fmap. destruct (is_ !! k) as [i|] eqn:E.
  - rewrite lookup_seq_lt by (by eapply lookup_lt_Some). cbn [fmap option_fmap option_map Nat.add]. f_equal. unfold row_of, indexed, take_rows, map_columns.
    assert (∀ l : list (Name * array), (λ c : Name * array, (c.1, nth k (arr_cells c.2) None)) <$>
      ((λ c : Name * array, (c.1, mkArray (arr_type c.2) ((λ i, nth i (arr_cells c.2) None) <$> is_))) <$> l) = (λ c : Name * array, (c.1, cell_at c.2 i)) <$> l) as Hl.
    { intros l. rewrite <-list_fmap_compose. apply list_fmap_ext. intros _ [c arr] _. cbn. f_equal. unfold cell_at.
      erewrite (nth_lookup_Some _ k); [done|]. by rewrite list_lookup_fmap, E. }
    destruct w; cbn [rb_columns]; [rewrite fmap_cons|]; rewrite Hl; [|done]. cbn [app]. f_equal. f_equal. cbn. f_equal.
    erewrite (nth_lookup_Some _ k); [done|]. by rewrite list_lookup_fmap, E.
  - rewrite lookup_seq_ge by (by apply lookup_ge_None). done.
Qed.

Lemma get_row_of full columns w i c : c ≠ "row_index" → in_projection columns c → get c (row_of full columns w i) = tcell full c i.
Proof.
  intros Hc Hin. unfold get, row_of, tcell.
  assert (list_to_map (M := frow) ((λ c : Name * array, (c.1, cell_at c.2 i)) <$> rb_columns (keep_columns columns full)) !! c =
    (λ arr, cell_at arr i) <$> column_by_name (keep_columns columns full) c) as Hl.
  { unfold column_by_name. induction (rb_columns (keep_columns columns full)) as [|[c' arr] l IH]; [done|]. rewrite fmap_cons, filter_cons. cbn [fst snd list_to_map foldr].
    destruct (decide (c' = c)) as [->|Hne]; [by rewrite lookup_insert_eq|]. by rewrite lookup_insert_ne. }
  rewrite column_keep_columns, decide_True in Hl by done.
  destruct w; cbn [app list_to_map foldr fst snd]; [rewrite lookup_insert_ne by done|]; rewrite Hl; by destruct (column_by_name full c).
Qed.

Lemma get_row_index full columns i : get "row_index" (row_of full columns true i) = Some (CInt (Z.of_nat i)).
Proof. unfold get, row_of. cbn [app list_to_map foldr fst snd]. by rewrite lookup_insert_eq. Qed.

(** Keys of rows of tables. *)
Definition tmatch (f1 : RecordBatch) (k1 : list Name) (i : nat) (f2 : RecordBatch) (k2 : list Name) (j : nat) : bool :=
  forallb (λ ab, match tcell f1 ab.1 i, tcell f2 ab.2 j with Some u, Some v => bool_decide (u = v) | _, _ => false end) (zip k1 k2).

Definition key_columns (full : RecordBatch) (key : list Name) : Prop := Forall (λ c, is_Some (column_by_name full c)) key.

Lemma keys_match_rows f1 c1 w1 i f2 c2 w2 j k1 k2 : Forall (λ c, c ≠ "row_index" ∧ in_projection c1 c) k1 → Forall (λ c, c ≠ "row_index" ∧ in_projection c2 c) k2 →
  keys_match k1 k2 (row_of f1 c1 w1 i) (row_of f2 c2 w2 j) = tmatch f1 k1 i f2 k2 j.
Proof.
  intros H1. revert k2. unfold keys_match, tmatch. induction H1 as [|a k1 [Ha Hpa] _ IH]; intros [|b k2] H2; try done. apply Forall_cons in H2 as [[Hb Hpb] H2].
  cbn [zip zip_with forallb fst snd]. rewrite !get_row_of by done. f_equal. by apply IH.
Qed.

(** ** Scans without predicate *)

Lemma picked_rows_none full sel : picked_rows None full sel = rows_of sel (rb_num_rows full).
Proof. unfold picked_rows, picked. by apply list_filter_all. Qed.

Lemma keep_columns_ne full key columns : key ≠ [] → key_columns full key → Forall (λ c, in_projection columns c) key → rb_columns (keep_columns columns full) ≠ [].
Proof.
  intros Hne Hk Hp. destruct key as [|c key]; [done|]. apply Forall_cons in Hk as [[arr Hc] _]. apply Forall_cons in Hp as [Hp _].
  apply column_by_name_elem in Hc. intros E. assert ((c, arr) ∈ rb_columns (keep_columns columns full)) as Hin; [|rewrite E in Hin; by apply elem_of_nil in Hin].
  unfold keep_columns. cbn [rb_columns]. by apply list_elem_of_filter.
Qed.

Lemma scan_frame s full key : ReaderLaws (reader s) full → predicate s = None → ranges_ok (row_selection s) (rb_num_rows full) →
  key ≠ [] → key_columns full key → Forall (λ c, in_projection (scan_projection s) c) key →
  to_lazy_df s = Ok (table_frame full (scan_projection s) (row_index s) (rows_of (row_selection s) (rb_num_rows full))).
Proof.
  intros HR Hp Hs Hne Hk Hin. unfold to_lazy_df, scan_execute. rewrite Hp.
  destruct (reader_read (r := reader s) None (scan_projection s) (row_selection s) (row_index s) (default_null_columns s)) as (bs & -> & Hf & _); [done|done| |].
  - right. unfold read_columns. destruct (scan_projection s) eqn:E; by apply (keep_columns_ne full key).
  - cbn [mbind res_bind]. by rewrite Hf, picked_rows_none.
Qed.

Lemma table_frame_has full columns w is_ key : key_columns full key → Forall (λ c, in_projection columns c) key → has_columns (table_frame full columns w is_) key.
Proof.
  intros Hk Hp. unfold has_columns. apply Forall_forall. intros c Hc. rewrite Forall_forall in Hp. unfold key_columns in Hk. rewrite Forall_forall in Hk.
  destruct (Hk c Hc) as [arr Harr]. apply column_by_name_elem in Harr. unfold table_frame, batches_frame. cbn [fr_columns]. rewrite <-list_fmap_compose.
  assert (c ∈ (fst ∘ λ c0 : Name * array, (c0.1, arr_type c0.2)) <$> rb_columns (take_rows is_ (keep_columns columns full))) as Hin.
  { apply list_elem_of_fmap. exists (c, mkArray (arr_type arr) ((λ i, nth i (arr_cells arr) None) <$> is_)). split; [done|].
    unfold take_rows, map_columns. cbn [rb_columns]. apply list_elem_of_fmap. exists (c, arr). split; [done|].
    unfold keep_columns. cbn [rb_columns]. apply list_elem_of_filter. by split; [apply Hp|]. }
  unfold indexed. destruct w; [|done]. cbn [rb_columns]. rewrite fmap_cons. apply elem_of_cons. by right.
Qed.

Lemma table_frame_index full columns is_ : has_columns (table_frame full columns true is_) ["row_index"].
Proof. unfold has_columns. constructor; [|constructor]. unfold table_frame, batches_frame, indexed. cbn. apply elem_of_cons. by left. Qed.

(** ** The input rows *)

Lemma elem_sorted_rows (rows : RowList) z : z ∈ sorted_rows rows ↔ z ∈ rows.
Proof. unfold sorted_rows. rewrite merge_sort_Permutation. apply elem_of_elements. Qed.

Lemma sorted_rows_sorted (rows : RowList) : StronglySorted Z.lt (sorted_rows rows).
Proof.
  assert (StronglySorted Z.le (sorted_rows rows)) as Hs by apply (StronglySorted_merge_sort Z.le).
  assert (NoDup (sorted_rows rows)) as Hn by (unfold sorted_rows; rewrite merge_sort_Permutation; apply NoDup_elements).
  induction Hs as [|x l Hs IH Hx]; [constructor|]. apply NoDup_cons in Hn as [Hn Hnd]. constructor; [by apply IH|]. rewrite Forall_forall in Hx |- *.
  intros y Hy. specialize (Hx y Hy). assert (x ≠ y) by (intros ->; done). lia.
Qed.

(** Rows of a table. *)
Definition rows_in_table (rows : RowList) (full : RecordBatch) : Prop := ∀ z, z ∈ rows → 0 <= z < Z.of_nat (rb_num_rows full).

Lemma input_selection rows full : Z.of_nat (rb_num_rows full) < 2 ^ 32 → rows_in_table rows full →
  ∃ sel, from_sorted_indexes (sorted_rows rows) = Ok sel ∧ ranges_ok (Some sel) (rb_num_rows full) ∧
    ∀ i, i ∈ rows_of (Some sel) (rb_num_rows full) ↔ Z.of_nat i ∈ rows.
Proof.
  intros Hn Hr. destruct (range_from_sorted_indexes_spec (sorted_rows rows)) as (out & lo & E & Hs & Hc).
  - apply Forall_forall. intros z Hz. rewrite elem_sorted_rows in Hz. specialize (Hr z Hz). unfold u32_max. lia.
  - apply sorted_rows_sorted.
  - exists out. split; [done|]. assert (ranges_ok (Some out) (rb_num_rows full)) as Hok.
    { split; [by exists lo|]. intros i Hi. apply Hc in Hi. rewrite elem_sorted_rows in Hi. by apply Hr. }
    split; [done|]. intros i. rewrite elem_rows_of by (by apply ranges_ok_lo in Hok). by rewrite Hc, elem_sorted_rows.
Qed.

(** ** Joins *)

(** A scan as [scan_table] returns it. *)
Record fresh_scan (s : Scan) (full : RecordBatch) : Prop := mkFresh {
  fs_reader : ReaderLaws (reader s) full;
  fs_predicate : predicate s = None;
  fs_projection : scan_projection s = None;
  fs_selection : row_selection s = None;
  fs_index : row_index s = false
}.
Definition chunk_ok (chunk : Chunk) (tables : gmap Name RecordBatch) : Prop :=
  ∀ name full, tables !! name = Some full → ∃ s, chunk name = Ok s ∧ fresh_scan s full.

Lemma in_list_to_set (key : list Name) c : c ∈ key → in_projection (Some (list_to_set key)) c.
Proof. intros. cbn. by apply elem_of_list_to_set. Qed.

Lemma key_not_index full key : "row_index" ∉ (rb_columns full).*1 → key_columns full key → Forall (λ c, c ≠ "row_index") key.
Proof.
  intros Hn Hk. eapply Forall_impl; [exact Hk|]. intros c [arr Hc]. cbn. intros ->. apply Hn. apply column_by_name_elem in Hc. apply list_elem_of_fmap.
  by exists ("row_index", arr).
Qed.

(** ** Groups of rows *)

(** Rows of one group have equal, non-null group keys. *)
Definition gmatch (full : RecordBatch) (gk : list Name) (i j : nat) : Prop := tmatch full gk i full gk j = true.
Definition taddr (full : RecordBatch) (a : Name) (i : nat) : address := cell_address (tcell full a i).
(** The frame row [r] comes from row [j] of the table. *)
Definition is_row (full : RecordBatch) (a : Name) (r : frow) (j : nat) : Prop :=
  get "row_index" r = Some (CInt (Z.of_nat j)) ∧ get a r = tcell full a j.

Lemma is_row_inj full a r i j : is_row full a r i → is_row full a r j → i = j.
Proof. intros [Hi _] [Hj _]. rewrite Hi in Hj. simplify_eq. lia. Qed.

Definition group_keys (keys : list Name) (r : frow) : list (option cell) := (λ c, get c r) <$> keys.

Section grouping.
Context (full : RecordBatch) (gk : list Name) (a : Name) (D : nat → Prop).

(** The groups [gs] are the classes of the rows [D] by group key. *)
Record grouping (gs : list (list frow)) : Prop := mkGrouping {
  gr_row g r : g ∈ gs → r ∈ g → ∃ j, D j ∧ is_row full a r j;
  gr_all j : D j → ∃ g r, g ∈ gs ∧ r ∈ g ∧ is_row full a r j;
  gr_same g r r' j j' : g ∈ gs → r ∈ g → r' ∈ g → is_row full a r j → is_row full a r' j' → gmatch full gk j j';
  gr_closed g r j j' : g ∈ gs → r ∈ g → is_row full a r j → D j' → gmatch full gk j j' → ∃ r', r' ∈ g ∧ is_row full a r' j';
  gr_nodup g : g ∈ gs → NoDup (get "row_index" <$> g)
}.

Lemma group_by_grouping {PL : Polars} {PLL : PolarsLaws} keys f : has_columns f keys →
  (∀ r, r ∈ fr_rows f → ∃ j, D j ∧ is_row full a r j) → (∀ j, D j → ∃ r, r ∈ fr_rows f ∧ is_row full a r j) →
  NoDup (get "row_index" <$> fr_rows f) →
  (∀ r r' j j', r ∈ fr_rows f → r' ∈ fr_rows f → is_row full a r j → is_row full a r' j' → group_keys keys r = group_keys keys r' ↔ gmatch full gk j j') →
  ∃ gs, group_by keys f = Ok gs ∧ grouping gs.
Proof.
  intros Hc Hr Ha Hn Hk. destruct (group_by_spec keys f Hc) as (gs & E & Hp & _ & Hsame & Hdiff). exists gs. split; [done|].
  assert (∀ g r, g ∈ gs → r ∈ g → r ∈ fr_rows f) as Hin. { intros g r Hg Hgr. rewrite <-Hp. apply list_elem_of_join. eauto. }
  split.
  - intros g r Hg Hgr. by eapply Hr, Hin.
  - intros j Hj. destruct (Ha j Hj) as (r & Hrf & Hrow). rewrite <-Hp in Hrf. apply list_elem_of_join in Hrf as (g & Hg & Hgs). eauto.
  - intros g r r' j j' Hg Hgr Hgr' Hj Hj'. apply (Hk r r'); [by apply (Hin g)|by apply (Hin g)|done|done|]. by apply (Hsame g).
  - intros g r j j' Hg Hgr Hj HD Hm. destruct (Ha j' HD) as (r' & Hrf & Hrow). exists r'. split; [|done]. pose proof Hrf as Hrf'. rewrite <-Hp in Hrf'.
    apply list_elem_of_join in Hrf' as (g' & Hg' & Hgs'). apply list_elem_of_lookup in Hg as [i Hi]. apply list_elem_of_lookup in Hgs' as [i' Hi'].
    assert (i = i') as <-; [|by simplify_eq]. eapply (Hdiff i i' g g' r r'); try done. apply (Hk r r' j j'); try done. apply (Hin g); [|done]. by eapply list_elem_of_lookup_2.
  - intros g Hg. rewrite <-Hp in Hn. apply list_elem_of_split in Hg as (l1 & l2 & ->). rewrite join_app in Hn. rewrite fmap_app in Hn.
    apply NoDup_app in Hn as (_ & _ & Hn). change (mjoin (g :: l2)) with (g ++ mjoin l2) in Hn. rewrite fmap_app in Hn. by apply NoDup_app in Hn as (Hn & _).
Qed.

Context (Hkey : ∀ i j, D i → D j → gmatch full gk i j → taddr full a i = taddr full a j → i = j).

Definition frow_item (r : frow) : item := (cell_address (get a r), int_cell (get "row_index" r)).

Lemma is_row_item r j : is_row full a r j → frow_item r = (taddr full a j, Z.of_nat j).
Proof. intros [H1 H2]. unfold frow_item. by rewrite H1, H2. Qed.

Lemma grouping_addresses gs : grouping gs → Forall (λ g : list item, NoDup g.*1) ((λ g : list frow, frow_item <$> g) <$> gs).
Proof.
  intros Hg. apply Forall_fmap, Forall_forall. intros g Hgs. cbn. pose proof (gr_nodup gs Hg g Hgs) as Hn. rewrite <-list_fmap_compose.
  apply NoDup_alt. rewrite NoDup_alt in Hn. intros p q x Hp Hq. rewrite list_lookup_fmap in Hp, Hq.
  destruct (g !! p) as [r|] eqn:Er; [|done]. destruct (g !! q) as [r'|] eqn:Er'; [|done]. cbn in Hp, Hq. simplify_eq.
  assert (r ∈ g) as Hr by (by eapply list_elem_of_lookup_2). assert (r' ∈ g) as Hr' by (by eapply list_elem_of_lookup_2).
  destruct (gr_row gs Hg g r Hgs Hr) as (j & Dj & Hj). destruct (gr_row gs Hg g r' Hgs Hr') as (j' & Dj' & Hj').
  assert (j = j') as <-.
  { apply Hkey; [done|done|by eapply (gr_same gs Hg g r r')|]. unfold taddr. destruct Hj as [_ <-]. by destruct Hj' as [_ <-]. }
  apply (Hn p q (Some (CInt (Z.of_nat j)))); rewrite list_lookup_fmap; [rewrite Er|rewrite Er']; cbn; [by destruct Hj as [-> _]|by destruct Hj' as [-> _]].
Qed.

(** An item of a group is a row; its group has the rows of the same group key. *)
Lemma grouping_items gs ad z : grouping gs →
  ∀ P : list item → Prop, (∃ g, g ∈ (λ g : list frow, frow_item <$> g) <$> gs ∧ (ad, z) ∈ g ∧ P g) ↔
  ∃ j g, D j ∧ ad = taddr full a j ∧ z = Z.of_nat j ∧ P g ∧ g ∈ (λ g : list frow, frow_item <$> g) <$> gs ∧
    (∀ x y, (x, y) ∈ g ↔ ∃ i, D i ∧ gmatch full gk i j ∧ x = taddr full a i ∧ y = Z.of_nat i) ∧ gmatch full gk j j.
Proof.
  intros Hg P. split.
  - intros (g' & Hg' & Hin & HP). pose proof Hg' as Hgg. apply list_elem_of_fmap in Hg' as (g & -> & Hgs). apply list_elem_of_fmap in Hin as (r & E & Hr).
    destruct (gr_row gs Hg g r Hgs Hr) as (j & Dj & Hj). rewrite (is_row_item r j Hj) in E. simplify_eq. exists j, (frow_item <$> g).
    assert (gmatch full gk j j) as Hjj by (by eapply (gr_same gs Hg g r r)). do 5 (split; [done|]). split; [|done]. intros x y. rewrite list_elem_of_fmap. split.
    + intros (r' & E & Hr'). destruct (gr_row gs Hg g r' Hgs Hr') as (i & Di & Hi). rewrite (is_row_item r' i Hi) in E. simplify_eq. exists i. split; [done|].
      split; [|done]. by eapply (gr_same gs Hg g r' r).
    + intros (i & Di & Hm & -> & ->). destruct (gr_all gs Hg i Di) as (g2 & r2 & Hg2 & Hr2 & Hi2).
      destruct (gr_closed gs Hg g2 r2 i j Hg2 Hr2 Hi2 Dj Hm) as (r3 & Hr3 & Hj3).
      destruct (gr_closed gs Hg g r j i Hgs Hr Hj Di) as (r' & Hr' & Hi'); [by eapply (gr_same gs Hg g2 r3 r2)|].
      exists r'. by rewrite (is_row_item r' i Hi').
  - intros (j & g & Dj & -> & -> & HP & Hgs & Hin & Hjj). exists g. split; [done|]. split; [|done]. apply Hin. eauto.
Qed.

Lemma find_children_rows gs parents include_parent : grouping gs →
  ∃ out, find_children_impl parents include_parent (stack_from_groups a gs) = Ok out ∧
    ∀ z, z ∈ out ↔ ∃ j, D j ∧ z = Z.of_nat j ∧
      ((∃ i, D i ∧ Z.of_nat i ∈ parents ∧ gmatch full gk i j ∧ below (taddr full a i) (taddr full a j)) ∨ include_parent = true ∧ Z.of_nat j ∈ parents).
Proof.
  intros Hg. destruct (find_children_spec (stack_from_groups a gs) ((λ g : list frow, frow_item <$> g) <$> gs) parents include_parent)
    as (out & E & Hout); [apply stack_of_repr|by apply grouping_addresses|]. exists out. split; [done|]. intros z. rewrite Hout. split.
  - intros (g & ad & Hgs & Hin & Hc). destruct (proj1 (grouping_items gs ad z Hg (λ g, has_selected_above parents g ad ∨ include_parent = true ∧ z ∈ parents)))
      as (j & g' & Dj & -> & -> & Hc' & _ & Hg' & _); [eauto|]. exists j. do 2 (split; [done|]). destruct Hc' as [(x & y & Hxy & Hy & Hb)|?]; [left|by right].
    apply Hg' in Hxy as (i & Di & Hm & -> & ->). eauto.
  - intros (j & Dj & -> & Hc). destruct (gr_all gs Hg j Dj) as (g & r & Hgs & Hr & Hj). exists (frow_item <$> g), (taddr full a j).
    assert ((taddr full a j, Z.of_nat j) ∈ frow_item <$> g) as Hin by (apply list_elem_of_fmap; exists r; by rewrite (is_row_item r j Hj)).
    split; [by apply list_elem_of_fmap_2|]. split; [done|]. destruct Hc as [(i & Di & Hi & Hm & Hb)|?]; [left|by right].
    destruct (gr_all gs Hg i Di) as (g2 & r2 & Hg2 & Hr2 & Hi2). destruct (gr_closed gs Hg g2 r2 i j Hg2 Hr2 Hi2 Dj Hm) as (r3 & Hr3 & Hj3).
    destruct (gr_closed gs Hg g r j i Hgs Hr Hj Di) as (r' & Hr' & Hi'); [by eapply (gr_same gs Hg g2 r3 r2)|].
    exists (taddr full a i), (Z.of_nat i). split; [|done]. apply list_elem_of_fmap. exists r'. by rewrite (is_row_item r' i Hi').
Qed.

Lemma find_parents_rows gs children : grouping gs →
  ∃ out, find_parents_impl children (stack_from_groups a gs) = Ok out ∧
    ∀ z, z ∈ out ↔ ∃ j, D j ∧ z = Z.of_nat j ∧
      ∃ i, D i ∧ Z.of_nat i ∈ children ∧ gmatch full gk i j ∧ taddr full a j `prefix_of` taddr full a i.
Proof.
  intros Hg. destruct (find_parents_spec (stack_from_groups a gs) ((λ g : list frow, frow_item <$> g) <$> gs) children)
    as (out & E & Hout); [apply stack_of_repr|by apply grouping_addresses|]. exists out. split; [done|]. intros z. rewrite Hout. split.
  - intros (g & ad & Hgs & Hin & Hc). destruct (proj1 (grouping_items gs ad z Hg (λ g, has_selected_at_or_below children g ad)))
      as (j & g' & Dj & -> & -> & (x & y & Hxy & Hy & Hb) & _ & Hg' & _); [eauto|]. exists j. do 2 (split; [done|]).
    apply Hg' in Hxy as (i & Di & Hm & -> & ->). eauto.
  - intros (j & Dj & -> & i & Di & Hi & Hm & Hb). destruct (gr_all gs Hg i Di) as (g & r & Hgs & Hr & Hir).
    destruct (proj1 (grouping_items gs (taddr full a i) (Z.of_nat i) Hg (λ g', g' = frow_item <$> g))) as (i' & g' & Di' & _ & Ei & -> & Hgs' & Hg' & _).
    { exists (frow_item <$> g). split; [by apply list_elem_of_fmap_2|]. split; [|done]. apply list_elem_of_fmap. exists r. by rewrite (is_row_item r i Hir). }
    assert (i = i') as <- by lia. destruct (gr_closed gs Hg g r i j Hgs Hr Hir Dj Hm) as (r' & Hr' & Hj').
    exists (frow_item <$> g), (taddr full a j). split; [done|]. split; [apply list_elem_of_fmap; exists r'; by rewrite (is_row_item r' j Hj')|].
    exists (taddr full a i), (Z.of_nat i). split; [|done]. apply list_elem_of_fmap. exists r. by rewrite (is_row_item r i Hir).
Qed.
End grouping.

(** ** Keys *)

Lemma tmatch_app f1 f2 k1 k2 l1 l2 i j : length k1 = length k2 → tmatch f1 (k1 ++ l1) i f2 (k2 ++ l2) j = tmatch f1 k1 i f2 k2 j && tmatch f1 l1 i f2 l2 j.
Proof. intros Hl. unfold tmatch. rewrite zip_with_app by done. apply forallb_app. Qed.

Lemma tmatch_sym f1 f2 k1 k2 i j : tmatch f1 k1 i f2 k2 j = tmatch f2 k2 j f1 k1 i.
Proof.
  unfold tmatch. revert k2. induction k1 as [|a k1 IH]; intros [|b k2]; try done. cbn [zip zip_with forallb fst snd]. f_equal; [|by apply IH].
  destruct (tcell f1 a i), (tcell f2 b j); try done. apply bool_decide_ext. by split; intros ->.
Qed.

Lemma tmatch_trans f1 f2 f3 k1 k2 k3 i j l : length k1 = length k2 → length k2 = length k3 →
  tmatch f1 k1 i f2 k2 j = true → tmatch f2 k2 j f3 k3 l = true → tmatch f1 k1 i f3 k3 l = true.
Proof.
  unfold tmatch. revert k2 k3. induction k1 as [|a k1 IH]; intros [|b k2] [|c k3] Hl1 Hl2; try done. cbn [zip zip_with forallb fst snd].
  rewrite !andb_true_iff. intros [H1 H2] [H3 H4]. split; [|apply (IH k2); try done; cbn in *; lia].
  destruct (tcell f1 a i), (tcell f2 b j); try done. destruct (tcell f3 c l); [|done]. apply bool_decide_eq_true in H1, H3. subst. by apply bool_decide_eq_true_2.
Qed.

Lemma gmatch_sym full gk i j : gmatch full gk i j → gmatch full gk j i.
Proof. unfold gmatch. by rewrite tmatch_sym. Qed.

(** On rows whose key is not null, equal keys match. *)
Lemma group_keys_match full gk columns w i j : Forall (λ c, c ≠ "row_index" ∧ in_projection columns c) gk → gmatch full gk i i →
  group_keys gk (row_of full columns w i) = group_keys gk (row_of full columns w j) ↔ gmatch full gk i j.
Proof.
  unfold gmatch, tmatch, group_keys. induction 1 as [|c gk [Hc Hp] _ IH]; [done|]. cbn [zip zip_with forallb fst snd fmap list_fmap]. rewrite !andb_true_iff.
  intros [H1 H2]. specialize (IH H2). rewrite !get_row_of by done. destruct (tcell full c i) as [u|] eqn:E; [|done]. split.
  - intros Heq. simplify_eq. rewrite <-H. split; [by apply bool_decide_eq_true_2|by apply IH].
  - intros [Hc' Hm]. destruct (tcell full c j) eqn:Ej; [|done]. apply bool_decide_eq_true in Hc' as ->. f_equal. by apply IH.
Qed.

Lemma get_select_row cs r s d : NoDup cs.*2 → (s, d) ∈ cs → get d (select_row cs r) = get s r.
Proof.
  intros Hn Hin. unfold get at 1, select_row. rewrite (elem_of_list_to_map_1 _ d (get s r)); [done| |].
  - rewrite <-list_fmap_compose. by replace ((fst ∘ λ c : Name * Name, (c.2, get c.1 r)) <$> cs) with cs.*2.
  - apply list_elem_of_fmap. by exists (s, d).
Qed.

Lemma keys_match_select cs ks l r y : NoDup cs.*2 → ks ⊆ cs → keys_match l ks.*2 y (select_row cs r) = keys_match l ks.*1 y r.
Proof.
  intros Hn. unfold keys_match. revert l. induction ks as [|[s d] ks IH]; intros [|c l] Hs; try done. cbn [fmap list_fmap zip zip_with forallb fst snd].
  rewrite (get_select_row cs r s d) by (try done; apply Hs; lmem). f_equal. apply IH. intros x Hx. apply Hs. by right.
Qed.

Lemma keys_match_sym l k x y : keys_match l k x y = keys_match k l y x.
Proof.
  unfold keys_match. revert k. induction l as [|a l IH]; intros [|b k]; try done. cbn [zip zip_with forallb fst snd]. f_equal; [|apply IH].
  destruct (get a x), (get b y); try done. apply bool_decide_ext. by split; intros ->.
Qed.

Lemma split_key_app gk a : split_key (gk ++ [a]) = Ok (gk, a).
Proof. unfold split_key. rewrite last_snoc, length_app. cbn [length]. by rewrite Nat.add_sub, take_app_length. Qed.

Lemma select_row_none cs r c : c ∉ cs.*2 → select_row cs r !! c = None.
Proof.
  intros Hc. apply not_elem_of_list_to_map_1. rewrite <-list_fmap_compose.
  by replace ((fst ∘ λ c : Name * Name, (c.2, get c.1 r)) <$> cs) with cs.*2.
Qed.

Lemma get_union_r c (x y : frow) : x !! c = None → get c (x ∪ y) = get c y.
Proof. intros Hx. unfold get. by rewrite lookup_union_r. Qed.

Lemma table_frame_type full columns is_ a arr : a ≠ "row_index" → in_projection columns a → column_by_name full a = Some arr →
  frame_type (table_frame full columns true is_) a = Some (arr_type arr).
Proof.
  intros Ha Hp Hc. rewrite <-(decide_True (P := in_projection columns a) (column_by_name full a) None), <-column_keep_columns in Hc by done. revert Hc.
  unfold frame_type, table_frame, batches_frame, column_by_name, indexed, take_rows, map_columns. cbn [fr_columns rb_columns]. rewrite fmap_cons, filter_cons. cbn [fst].
  rewrite decide_False by done. generalize (rb_columns (keep_columns columns full)). intros l. rewrite <-list_fmap_compose.
  induction l as [|[c' arr'] l IH]; [done|]. rewrite fmap_cons, !filter_cons. cbn [fst compose]. destruct (decide (c' = a)) as [->|]; [|done].
  cbn. intros Hc. by simplify_eq.
Qed.

Lemma table_frame_columns full key is_ c : c ∈ (fr_columns (table_frame full (Some (list_to_set key)) true is_)).*1 → c = "row_index" ∨ c ∈ key.
Proof.
  unfold table_frame, batches_frame, indexed. cbn [fr_columns rb_columns]. rewrite fmap_cons, fmap_cons, elem_of_cons. intros [->|Hin]; [by left|right].
  apply list_elem_of_fmap in Hin as (x & -> & Hin). apply list_elem_of_fmap in Hin as (y & -> & Hin). unfold take_rows, map_columns in Hin. cbn [rb_columns] in Hin.
  apply list_elem_of_fmap in Hin as (u & -> & Hin). unfold keep_columns in Hin. cbn [rb_columns] in Hin. apply list_elem_of_filter in Hin as [Hin _].
  cbn in Hin |- *. by apply elem_of_list_to_set in Hin.
Qed.

Lemma rows_index_nodup full columns (is_ : list nat) : NoDup is_ → NoDup (get "row_index" <$> (row_of full columns true <$> is_)).
Proof.
  intros Hn. rewrite <-list_fmap_compose. apply (NoDup_fmap_2_strong _ is_); [|done]. intros i j _ _. cbv [compose]. rewrite !get_row_index. intros E. simplify_eq. lia.
Qed.

(** The rows of the table [fo] whose key [ok] occurs as the key [ik] of the input rows of [fi]. *)
Definition selected (fo : RecordBatch) (ok : list Name) (fi : RecordBatch) (ik : list Name) (input : RowList) (j : nat) : Prop :=
  (j < rb_num_rows fo)%nat ∧ ∃ i, Z.of_nat i ∈ input ∧ tmatch fo ok j fi ik i = true.

Lemma NoDup_join_fmap {A B C} (h : B → C) (f : A → list B) (l : list A) :
  NoDup l → (∀ x, x ∈ l → NoDup (h <$> f x)) → (∀ x x' y y', x ∈ l → x' ∈ l → y ∈ f x → y' ∈ f x' → h y = h y' → x = x') →
  NoDup (h <$> mjoin (f <$> l)).
Proof.
  induction 1 as [|x l Hx Hl IH]; intros Hf Hd; [constructor|]. rewrite fmap_cons. change (mjoin (?a :: ?l)) with (a ++ mjoin l). rewrite fmap_app.
  apply NoDup_app. split; [apply Hf; lmem|]. split.
  - intros c Hc Hc'. apply list_elem_of_fmap in Hc as (y & -> & Hy). apply list_elem_of_fmap in Hc' as (y' & E & Hy'). apply elem_join_fmap in Hy' as (x' & Hx' & Hy').
    apply Hx. by rewrite (Hd x x' y y'); [|lmem|right|..].
  - apply IH; [intros; apply Hf; by right|]. intros x1 x2 y1 y2 H1 H2. apply Hd; by right.
Qed.

Lemma keys_match_ext l k (x x' y : frow) : (∀ c, c ∈ l → get c x = get c x') → keys_match l k x y = keys_match l k x' y.
Proof.
  unfold keys_match. revert k. induction l as [|c l IH]; intros [|d k] Hc; try done. cbn [zip zip_with forallb fst snd]. rewrite Hc by lmem. f_equal.
  apply IH. intros c' Hc'. apply Hc. by right.
Qed.

Lemma select_row_union cs (x y : frow) : Forall (λ c, x !! c = None) cs.*1 → select_row cs (x ∪ y) = select_row cs y.
Proof.
  intros Hx. unfold select_row. f_equal. rewrite Forall_forall in Hx. apply list_fmap_ext. intros i c Hc. cbn. f_equal. apply get_union_r, Hx.
  apply list_elem_of_fmap_2. by eapply list_elem_of_lookup_2.
Qed.

Section rels.
Context {PL : Polars} {PLL : PolarsLaws}.
Context (chunk : Chunk) (tables : gmap Name RecordBatch) (Hchunk : chunk_ok chunk tables).

(** The rows of a key-table pair as [with_columns] and [with_row_index] read them. *)
Lemma output_frame name full key : tables !! name = Some full → key ≠ [] → key_columns full key →
  ∃ s, chunk name = Ok s ∧ to_lazy_df (with_columns (with_row_index s true) key) = Ok (table_frame full (Some (list_to_set key)) true (seq 0 (rb_num_rows full))) ∧
    to_lazy_df (with_row_index (with_columns s key) true) = Ok (table_frame full (Some (list_to_set key)) true (seq 0 (rb_num_rows full))).
Proof.
  intros Ht Hne Hk. destruct (Hchunk _ _ Ht) as (s & Es & [HR Hp Hpr Hs Hx]). exists s. split; [done|].
  unfold with_columns, with_row_index, with_projection. cbn [scan_projection]. rewrite Hpr. split.
  - rewrite (scan_frame _ full key); cbn; try done; [by rewrite Hs|by rewrite Hs|]. apply Forall_forall. intros c Hc. by apply in_list_to_set.
  - rewrite (scan_frame _ full key); cbn; try done; [by rewrite Hs|by rewrite Hs|]. apply Forall_forall. intros c Hc. by apply in_list_to_set.
Qed.

Lemma input_frame name full key rows : tables !! name = Some full → key ≠ [] → key_columns full key → rows_in_table rows full →
  ∃ s sel is_, chunk name = Ok s ∧ from_sorted_indexes (sorted_rows rows) = Ok sel ∧
    to_lazy_df (with_columns (with_row_selection s (Some sel)) key) = Ok (table_frame full (Some (list_to_set key)) false is_) ∧
    ∀ i, i ∈ is_ ↔ Z.of_nat i ∈ rows.
Proof.
  intros Ht Hne Hk Hr. destruct (Hchunk _ _ Ht) as (s & Es & [HR Hp Hpr Hs Hx]). destruct (input_selection rows full) as (sel & Esel & Hok & Hi); [apply HR|done|].
  exists s, sel, (rows_of (Some sel) (rb_num_rows full)). do 2 (split; [done|]). split; [|done].
  unfold with_columns, with_row_selection, with_projection. cbn [scan_projection]. rewrite Hpr.
  rewrite (scan_frame _ full key); cbn [reader predicate row_selection scan_projection row_index]; try done; [by rewrite Hx|].
  apply Forall_forall. intros c Hc. by apply in_list_to_set.
Qed.

Lemma table_laws name full : tables !! name = Some full → ∃ r, ReaderLaws r full.
Proof. intros Ht. destruct (Hchunk _ _ Ht) as (s & _ & Hf). exists (reader s). apply Hf. Qed.

Lemma table_key name full key : tables !! name = Some full → key_columns full key →
  Forall (λ c, c ≠ "row_index" ∧ in_projection (Some (list_to_set key)) c) key.
Proof.
  intros Ht Hk. destruct (table_laws _ _ Ht) as [r HR]. pose proof (key_not_index full key (reader_names (r := r)) Hk) as Hn.
  apply Forall_forall. intros c Hc. rewrite Forall_forall in Hn. split; [by apply Hn|by apply in_list_to_set].
Qed.

Lemma in_list_all (key : list Name) : Forall (λ c, in_projection (Some (list_to_set key)) c) key.
Proof. apply Forall_forall. intros c. apply in_list_to_set. Qed.

(** The row numbers of the rows of a frame read with the row index. *)
Lemma frame_rows_of full columns (is_ : list nat) g (P : nat → Prop) :
  (∀ r, r ∈ fr_rows g ↔ ∃ i, i ∈ is_ ∧ P i ∧ r = row_of full columns true i) → ∀ z, z ∈ frame_rows g ↔ ∃ i, z = Z.of_nat i ∧ i ∈ is_ ∧ P i.
Proof.
  intros Hg z. unfold frame_rows. rewrite list_elem_of_fmap. split.
  - intros (r & -> & Hr). apply Hg in Hr as (i & Hi & HP & ->). exists i. by rewrite get_row_index.
  - intros (i & -> & Hi & HP). exists (row_of full columns true i). rewrite get_row_index. split; [done|]. apply Hg. eauto.
Qed.

Lemma select_row_index f : has_columns f ["row_index"] → ∃ g, select [("row_index", "row_index")] f = Ok g ∧ frame_rows g = frame_rows f.
Proof.
  intros Hf. destruct (select_spec [("row_index", "row_index")] f) as (g & Eg & _ & Hg); [done|done|repeat constructor; by intros ?%elem_of_nil|].
  exists g. split; [done|]. unfold frame_rows. rewrite Hg, <-list_fmap_compose. apply list_fmap_ext. intros _ r _. cbn. unfold get at 1. cbn.
  by rewrite lookup_insert_eq.
Qed.

Lemma eval_join_spec it fi ik ot fo ok input : tables !! it = Some fi → tables !! ot = Some fo → key_columns fi ik → key_columns fo ok →
  ok ≠ [] → length ok = length ik → rows_in_table input fi →
  ∃ out, eval_join chunk input it ik ot ok = Ok out ∧
    ∀ z, z ∈ out ↔ ∃ j, z = Z.of_nat j ∧ selected fo ok fi ik input j.
Proof.
  intros Hi Ho Hki Hko Hne Hl Hr. assert (ik ≠ []) as Hne' by (destruct ik; [by destruct ok|done]).
  destruct (input_frame it fi ik input Hi Hne' Hki Hr) as (si & sel & is_ & Esi & Esel & Efi & His).
  destruct (output_frame ot fo ok Ho Hne Hko) as (so & Eso & Efo & _).
  unfold eval_join. rewrite Esel. cbn [mbind res_bind]. rewrite Esi. cbn [mbind res_bind]. rewrite Efi. cbn [mbind res_bind]. rewrite Eso. cbn [mbind res_bind].
  rewrite Efo. cbn [mbind res_bind].
  destruct (semi_join_spec (table_frame fo (Some (list_to_set ok)) true (seq 0 (rb_num_rows fo))) (table_frame fi (Some (list_to_set ik)) false is_) ok ik)
    as (f & -> & Hc & Hf); [done|by apply table_frame_has, in_list_all|by apply table_frame_has, in_list_all|done|]. cbn [mbind res_bind].
  destruct (select_row_index f) as (g & -> & Hg). { unfold has_columns. rewrite Hc. apply table_frame_index. }
  cbn [mbind res_bind]. eexists. split; [done|]. rewrite Hg. intros z.
  rewrite (frame_rows_of fo (Some (list_to_set ok)) (seq 0 (rb_num_rows fo)) f (λ j, ∃ i, Z.of_nat i ∈ input ∧ tmatch fo ok j fi ik i = true)).
  { apply exist_proper. intros j. unfold selected. rewrite elem_of_seq. intuition lia. }
  intros r. rewrite Hf, list_elem_of_filter, !table_frame_rows, Exists_exists. split.
  - intros ((y & Hy & Hm) & Hr'). apply list_elem_of_fmap in Hr' as (j & -> & Hj). apply list_elem_of_fmap in Hy as (i & -> & Hi'). exists j. split; [done|].
    split; [|done]. exists i. split; [by apply His|]. by rewrite (keys_match_rows _ _ _ _ _ _ _ _ _ _ (table_key ot fo ok Ho Hko) (table_key it fi ik Hi Hki)) in Hm.
  - intros (j & Hj & (i & Hi' & Hm) & ->). split; [|by apply list_elem_of_fmap_2]. exists (row_of fi (Some (list_to_set ik)) false i).
    split; [apply list_elem_of_fmap_2; by apply His|]. by rewrite (keys_match_rows _ _ _ _ _ _ _ _ _ _ (table_key ot fo ok Ho Hko) (table_key it fi ik Hi Hki)).
Qed.
(** ** Address trees *)

Section foreign.
Context (it ot : Name) (fi fo : RecordBatch) (gki gk : list Name) (ai a : Name) (input : RowList).
Context (Hi : tables !! it = Some fi) (Ho : tables !! ot = Some fo) (Hki : key_columns fi (gki ++ [ai])) (Hko : key_columns fo (gk ++ [a])).
Context (Hne : gk ≠ []) (Hl : length gk = length gki) (Hnd : NoDup (gk ++ [a])) (Hr : rows_in_table input fi).

Definition foreign_pairs : list (Name * Name) := zip (gki ++ [ai]) (gk ++ [a]).
Definition foreign_row (i : nat) : frow := select_row foreign_pairs (row_of fi (Some (list_to_set (gki ++ [ai]))) false i).
Definition tree_row (j : nat) : frow := row_of fo (Some (list_to_set (gk ++ [a]))) true j.

Lemma foreign_pairs_fst : foreign_pairs.*1 = gki ++ [ai].
Proof using Hl. apply fst_zip. rewrite !length_app, Hl. done. Qed.
Lemma foreign_pairs_snd : foreign_pairs.*2 = gk ++ [a].
Proof using Hl. apply snd_zip. rewrite !length_app, Hl. done. Qed.

Lemma tree_keys : Forall (λ c, c ≠ "row_index" ∧ in_projection (Some (list_to_set (gk ++ [a]))) c) gk.
Proof. pose proof (table_key ot fo _ Ho Hko) as H. by apply Forall_app in H as [? _]. Qed.
Lemma tree_address : a ≠ "row_index" ∧ in_projection (Some (list_to_set (gk ++ [a]))) a.
Proof. pose proof (table_key ot fo _ Ho Hko) as H. apply Forall_app in H as [_ H]. by apply Forall_cons in H as [? _]. Qed.
Lemma tree_index : "row_index" ∉ gk ++ [a].
Proof. intros Hin. pose proof (table_key ot fo _ Ho Hko) as H. rewrite Forall_forall in H. by destruct (H _ Hin) as [[] _]. Qed.
Lemma tree_is_row j : is_row fo a (tree_row j) j.
Proof. split; [apply get_row_index|]. by apply get_row_of; apply tree_address. Qed.
Lemma tree_has is_ : has_columns (table_frame fo (Some (list_to_set (gk ++ [a]))) true is_) gk.
Proof. apply table_frame_has; [by apply Forall_app in Hko as [? _]|]. eapply Forall_impl; [exact tree_keys|]. by intros c [_ ?]. Qed.

Lemma foreign_match_group i j : keys_match gk gk (tree_row j) (foreign_row i) = tmatch fo gk j fi gki i.
Proof.
  unfold foreign_row. rewrite <-(snd_zip gki gk) at 2 by lia. rewrite (keys_match_select foreign_pairs (zip gki gk)).
  - rewrite fst_zip by lia. apply keys_match_rows; [apply tree_keys|]. pose proof (table_key it fi _ Hi Hki) as H. by apply Forall_app in H as [? _].
  - by rewrite foreign_pairs_snd.
  - unfold foreign_pairs. rewrite zip_with_app by done. intros x Hx. apply elem_of_app. by left.
Qed.
Lemma foreign_match i j : keys_match (gk ++ [a]) (gk ++ [a]) (foreign_row i) (tree_row j) = tmatch fo (gk ++ [a]) j fi (gki ++ [ai]) i.
Proof.
  rewrite keys_match_sym. unfold foreign_row. rewrite <-foreign_pairs_snd at 2. rewrite (keys_match_select foreign_pairs foreign_pairs); [|by rewrite foreign_pairs_snd|done].
  rewrite foreign_pairs_fst. apply keys_match_rows; [by apply (table_key ot fo)|by apply (table_key it fi)].
Qed.
Lemma selected_group j : selected fo (gk ++ [a]) fi (gki ++ [ai]) input j → selected fo gk fi gki input j.
Proof. intros (Hj & i & Hin & Hm). split; [done|]. exists i. split; [done|]. rewrite tmatch_app in Hm by done. by apply andb_true_iff in Hm as [? _]. Qed.
Lemma selected_self j : selected fo gk fi gki input j → gmatch fo gk j j.
Proof. intros (_ & i & _ & Hm). unfold gmatch. eapply tmatch_trans; [exact Hl|by symmetry|exact Hm|]. by rewrite tmatch_sym. Qed.

(** The rows of the groups of the input. *)
Lemma foreign_items g1 is_ f2 : fr_rows g1 = foreign_row <$> is_ → (∀ i, i ∈ is_ ↔ Z.of_nat i ∈ input) →
  fr_rows f2 ≡ₚ filter (λ x, Exists (λ y, keys_match gk gk x y = true) (fr_rows g1)) (tree_row <$> seq 0 (rb_num_rows fo)) →
  ∀ r, r ∈ fr_rows f2 ↔ ∃ j, selected fo gk fi gki input j ∧ r = tree_row j.
Proof.
  intros Hg1 His Hf2 r. rewrite Hf2, list_elem_of_filter, Hg1, Exists_exists. split.
  - intros [(y & Hy & Hm) Hrin]. apply list_elem_of_fmap in Hrin as (j & -> & Hj). apply list_elem_of_fmap in Hy as (i & -> & Hin).
    rewrite foreign_match_group in Hm. exists j. split; [|done]. apply elem_of_seq in Hj. split; [lia|]. exists i. by rewrite <-His.
  - intros (j & (Hj & i & Hin & Hm) & ->). split; [|apply list_elem_of_fmap_2, elem_of_seq; lia].
    exists (foreign_row i). split; [by apply list_elem_of_fmap_2, His|]. by rewrite foreign_match_group.
Qed.

Lemma foreign_inputs g1 is_ f2 f3 : fr_rows g1 = foreign_row <$> is_ → (∀ i, i ∈ is_ ↔ Z.of_nat i ∈ input) →
  (∀ r, r ∈ fr_rows f2 ↔ ∃ j, selected fo gk fi gki input j ∧ r = tree_row j) →
  fr_rows f3 ≡ₚ mjoin ((λ x, (λ y, x ∪ y) <$> filter (λ y, keys_match (gk ++ [a]) (gk ++ [a]) x y = true) (fr_rows f2)) <$> fr_rows g1) →
  ∀ z, z ∈ frame_rows f3 ↔ ∃ j, z = Z.of_nat j ∧ selected fo (gk ++ [a]) fi (gki ++ [ai]) input j.
Proof.
  intros Hg1 His Hf2 Hf3 z. unfold frame_rows. rewrite list_elem_of_fmap. setoid_rewrite Hf3. setoid_rewrite elem_join_fmap. setoid_rewrite list_elem_of_fmap.
  setoid_rewrite list_elem_of_filter. setoid_rewrite Hf2. rewrite Hg1.
  assert (∀ i j, get "row_index" (foreign_row i ∪ tree_row j) = Some (CInt (Z.of_nat j))) as Hx.
  { intros i j. rewrite get_union_r; [apply get_row_index|]. apply select_row_none. rewrite foreign_pairs_snd. apply tree_index. }
  split.
  - intros (r & -> & x & Hx' & y & -> & Hm & j & Hj & ->). apply list_elem_of_fmap in Hx' as (i & -> & Hin). rewrite foreign_match in Hm. rewrite Hx.
    exists j. split; [done|]. split; [apply Hj|]. exists i. by rewrite <-His.
  - intros (j & -> & Hs). pose proof Hs as (_ & i & Hin & Hm). exists (foreign_row i ∪ tree_row j). rewrite Hx. split; [done|]. eexists.
    split; [by apply list_elem_of_fmap_2, His|]. eexists. split; [done|]. rewrite foreign_match. split; [done|]. exists j. split; [by apply selected_group|done].
Qed.

Lemma foreign_groups f2 : has_columns f2 gk → (∀ r, r ∈ fr_rows f2 ↔ ∃ j, selected fo gk fi gki input j ∧ r = tree_row j) →
  NoDup (get "row_index" <$> fr_rows f2) → ∃ gs, group_by gk f2 = Ok gs ∧ grouping fo gk a (selected fo gk fi gki input) gs.
Proof.
  intros Hc Hf2 Hn. apply (group_by_grouping fo gk a _ gk f2 Hc); [| |done|].
  - intros r Hrr. apply Hf2 in Hrr as (j & Hj & ->). exists j. split; [done|apply tree_is_row].
  - intros j Hj. exists (tree_row j). split; [apply Hf2; eauto|apply tree_is_row].
  - intros r r' j j' Hrr Hrr' Hj Hj'. apply Hf2 in Hrr as (k & Hk & ->). apply Hf2 in Hrr' as (k' & Hk' & ->).
    rewrite (is_row_inj _ _ _ _ _ Hj (tree_is_row k)), (is_row_inj _ _ _ _ _ Hj' (tree_is_row k')). apply group_keys_match; [apply tree_keys|by apply selected_self].
Qed.

Lemma select_foreign_stack_spec :
  ∃ gs inputs, select_foreign_stack chunk input it (gki ++ [ai]) ot (gk ++ [a]) = Ok (stack_from_groups a gs, arr_type <$> column_by_name fo a, inputs) ∧
    grouping fo gk a (selected fo gk fi gki input) gs ∧ ∀ z, z ∈ inputs ↔ ∃ j, z = Z.of_nat j ∧ selected fo (gk ++ [a]) fi (gki ++ [ai]) input j.
Proof.
  destruct (input_frame it fi (gki ++ [ai]) input Hi) as (si & sel & is_ & Esi & Esel & Efi & His); [by destruct gki|done|done|].
  destruct (output_frame ot fo (gk ++ [a]) Ho) as (so & Eso & _ & Efo); [by destruct gk|done|].
  unfold select_foreign_stack. rewrite split_key_app. cbn [mbind res_bind]. rewrite Esel. cbn [mbind res_bind]. rewrite Esi. cbn [mbind res_bind].
  rewrite Efi. cbn [mbind res_bind].
  destruct (select_spec foreign_pairs (table_frame fi (Some (list_to_set (gki ++ [ai]))) false is_)) as (g1 & E1 & Hc1 & Hg1).
  { intros E. apply (f_equal (fmap fst)) in E. rewrite foreign_pairs_fst in E. by destruct gki. }
  { rewrite foreign_pairs_fst. by apply table_frame_has, in_list_all. }
  { by rewrite foreign_pairs_snd. }
  fold foreign_pairs. rewrite E1. cbn [mbind res_bind]. rewrite Eso. cbn [mbind res_bind]. rewrite Efo. cbn [mbind res_bind]. rewrite foreign_pairs_snd in Hc1.
  rewrite table_frame_rows, <-list_fmap_compose in Hg1. set (items := table_frame fo _ true _).
  destruct (semi_join_spec items g1 gk gk) as (f2 & -> & Hc2 & Hf2); [done|apply tree_has| |done|].
  { unfold has_columns. rewrite Hc1. apply Forall_forall. intros c Hc. apply elem_of_app. by left. }
  cbn [mbind res_bind]. unfold items in Hf2. rewrite table_frame_rows in Hf2. pose proof (foreign_items g1 is_ f2 Hg1 His Hf2) as Hr2.
  destruct (inner_join_spec g1 f2 (gk ++ [a])) as (f3 & -> & Hc3 & Hf3); [by destruct gk|unfold has_columns; rewrite Hc1; by apply Forall_forall| | |].
  { unfold has_columns. rewrite Hc2. by apply table_frame_has, in_list_all. }
  { intros c Hc _. by rewrite Hc1 in Hc. }
  cbn [mbind res_bind]. destruct (select_row_index f3) as (g3 & -> & Hg3).
  { unfold has_columns. constructor; [|constructor]. rewrite Hc3, fmap_app, elem_of_app. right. rewrite Hc2. unfold items, table_frame, batches_frame, indexed.
    cbn [fr_columns rb_columns]. rewrite fmap_cons, filter_cons, decide_True by (cbn; apply tree_index). apply elem_of_cons. by left. }
  cbn [mbind res_bind]. destruct (foreign_groups f2) as (gs & -> & Hgs); [unfold has_columns; rewrite Hc2; apply tree_has|done| |].
  { rewrite Hf2. eapply sublist_NoDup; [by apply (rows_index_nodup fo (Some (list_to_set (gk ++ [a])))), (NoDup_seq 0 (rb_num_rows fo))|]. apply fmap_sublist, sublist_filter. }
  cbn [mbind res_bind]. exists gs, (frame_rows g3). split; [|split; [done|]].
  - do 2 f_equal. unfold frame_type. rewrite Hc2. pose proof Hko as Hk. apply Forall_app in Hk as [_ Hk]. apply Forall_cons in Hk as [[arr Harr] _]. rewrite Harr. f_equal.
    by apply (table_frame_type fo _ _ a arr); [apply tree_address..|].
  - rewrite Hg3. by apply (foreign_inputs g1 is_ f2).
Qed.
End foreign.
Section tree.
Context (name : Name) (full : RecordBatch) (gk : list Name) (a : Name) (input : RowList).
Context (Ht : tables !! name = Some full) (Hk : key_columns full (gk ++ [a])) (Hne : gk ≠ []) (Hnd : NoDup (gk ++ [a])).
Context (Hg : "_group" ∉ gk ++ [a]) (Hr : rows_in_table input full).

Let trow := tree_row full gk a.
Definition group_row (i : nat) : frow := select_row (same_names gk) (trow i).
Definition numbered (k : nat) (r : frow) : frow := <["_group" := Some (CInt (Z.of_nat k))]> r.
(** The rows that share the group of an input row. *)
Definition in_group (j : nat) : Prop := (j < rb_num_rows full)%nat ∧ ∃ i, Z.of_nat i ∈ input ∧ gmatch full gk i j.

Lemma same_names_fst : (same_names gk).*1 = gk.
Proof. unfold same_names. rewrite <-list_fmap_compose. apply list_fmap_id. Qed.
Lemma same_names_snd : (same_names gk).*2 = gk.
Proof. unfold same_names. rewrite <-list_fmap_compose. apply list_fmap_id. Qed.

Lemma group_row_keys i : group_keys gk (group_row i) = group_keys gk (trow i).
Proof.
  unfold group_keys, group_row. apply list_fmap_ext. intros p c Hc. cbv beta. apply get_select_row; [rewrite same_names_snd; by apply NoDup_app in Hnd as [? _]|].
  unfold same_names. apply list_elem_of_fmap. exists c. split; [done|]. by eapply list_elem_of_lookup_2.
Qed.
Lemma group_row_ext i j : group_keys gk (trow i) = group_keys gk (trow j) → group_row i = group_row j.
Proof.
  unfold group_row, select_row, group_keys, same_names. rewrite <-!list_fmap_compose. intros E. f_equal. apply list_fmap_ext. intros p c Hc. cbn. f_equal.
  apply (f_equal (.!! p)) in E. rewrite !list_lookup_fmap, Hc in E. cbn in E. by simplify_eq.
Qed.
Lemma group_row_match i j : gmatch full gk i i → group_row i = group_row j ↔ gmatch full gk i j.
Proof.
  intros Hi. unfold trow, tree_row in *. rewrite <-(group_keys_match full gk (Some (list_to_set (gk ++ [a]))) true i j (tree_keys name full gk a Ht Hk) Hi). split.
  - intros E. change (group_keys gk (trow i) = group_keys gk (trow j)). by rewrite <-!group_row_keys, E.
  - apply group_row_ext.
Qed.

Lemma gmatch_self i j : gmatch full gk i j → gmatch full gk i i.
Proof. unfold gmatch. intros Hm. eapply tmatch_trans; [done|done|exact Hm|]. by rewrite tmatch_sym. Qed.
Lemma gmatch_trans i j l : gmatch full gk i j → gmatch full gk j l → gmatch full gk i l.
Proof. unfold gmatch. by apply tmatch_trans. Qed.

Lemma numbered_match k i j : keys_match gk gk (numbered k (group_row i)) (trow j) = tmatch full gk i full gk j.
Proof.
  rewrite <-(keys_match_rows full (Some (list_to_set (gk ++ [a]))) true i full (Some (list_to_set (gk ++ [a]))) true j gk gk); [|by apply (tree_keys name full gk a Ht)..].
  assert (∀ c, c ∈ gk → get c (numbered k (group_row i)) = get c (trow i)) as Hc.
  { intros c Hc. unfold numbered, get at 1. rewrite lookup_insert_ne by (intros <-; apply Hg, elem_of_app; by left). apply list_elem_of_lookup in Hc as [p Hp].
    pose proof (group_row_keys i) as E. apply (f_equal (.!! p)) in E. unfold group_keys in E. rewrite !list_lookup_fmap, Hp in E. cbn in E. by simplify_eq. }
  by apply keys_match_ext.
Qed.
Lemma numbered_index k i j : get "row_index" (numbered k (group_row i) ∪ trow j) = Some (CInt (Z.of_nat j)).
Proof.
  rewrite get_union_r; [apply get_row_index|]. unfold numbered. rewrite lookup_insert_ne by done. apply select_row_none. rewrite same_names_snd.
  intros Hin. apply (tree_index name full gk a Ht Hk), elem_of_app. by left.
Qed.
Lemma numbered_is_row k i j : is_row full a (numbered k (group_row i) ∪ trow j) j.
Proof.
  split; [apply numbered_index|]. rewrite get_union_r; [by apply (tree_is_row name)|]. unfold numbered. rewrite lookup_insert_ne.
  - apply select_row_none. rewrite same_names_snd. apply NoDup_app in Hnd as (_ & Hd & _). intros Hin. apply (Hd a Hin). lmem.
  - intros <-. apply Hg, elem_of_app. right. lmem.
Qed.
Lemma numbered_key k i j : group_keys ["_group"] (numbered k (group_row i) ∪ trow j) = [Some (CInt (Z.of_nat k))].
Proof. unfold group_keys. cbn. unfold get, numbered. by rewrite (lookup_union_Some_l _ _ _ (Some (CInt (Z.of_nat k)))) by apply lookup_insert_eq. Qed.

(** The distinct groups of the input, numbered, and the rows they match. *)
Section groups.
Context (rows : list frow) (Hrows : NoDup rows) (Hgroups : ∀ r, r ∈ rows ↔ ∃ i, Z.of_nat i ∈ input ∧ r = group_row i).
Context (f : frame) (Hf : fr_rows f ≡ₚ mjoin ((λ x, (λ y, x ∪ y) <$> filter (λ y, keys_match gk gk x y = true) (trow <$> seq 0 (rb_num_rows full))) <$> imap numbered rows)).

Lemma elem_group_rows r : r ∈ fr_rows f ↔
  ∃ k i j, rows !! k = Some (group_row i) ∧ Z.of_nat i ∈ input ∧ (j < rb_num_rows full)%nat ∧ gmatch full gk i j ∧ r = numbered k (group_row i) ∪ trow j.
Proof.
  rewrite Hf, elem_join_fmap. setoid_rewrite list_elem_of_fmap. setoid_rewrite list_elem_of_filter. split.
  - intros (x & Hx & y & -> & Hm & Hy). apply elem_of_lookup_imap in Hx as (k & r' & -> & Hk'). apply list_elem_of_fmap in Hy as (j & -> & Hj).
    assert (r' ∈ rows) as Hr' by (by eapply list_elem_of_lookup_2). apply Hgroups in Hr' as (i & Hi & ->). rewrite numbered_match in Hm.
    apply elem_of_seq in Hj. exists k, i, j. do 2 (split; [done|]). split; [lia|]. by split.
  - intros (k & i & j & Hk' & Hi & Hj & Hm & ->). exists (numbered k (group_row i)). split; [apply elem_of_lookup_imap; eauto|]. exists (trow j). split; [done|].
    rewrite numbered_match. split; [done|]. apply list_elem_of_fmap_2, elem_of_seq. lia.
Qed.

Lemma group_number k i j k' i' j' : rows !! k = Some (group_row i) → rows !! k' = Some (group_row i') → gmatch full gk i j → gmatch full gk i' j' →
  k = k' ↔ gmatch full gk j j'.
Proof.
  intros Hk1 Hk2 Hm Hm'. pose proof (gmatch_self i j Hm) as Hi. split.
  - intros <-. rewrite Hk1 in Hk2. injection Hk2 as E. apply group_row_match in E; [|done]. apply (gmatch_trans j i j'); [by apply gmatch_sym|]. by apply (gmatch_trans i i' j').
  - intros Hj. rewrite NoDup_alt in Hrows. apply (Hrows k k' (group_row i)); [done|]. rewrite Hk2. f_equal. symmetry. apply (group_row_match i i' Hi).
    apply (gmatch_trans i j i'); [done|]. apply (gmatch_trans j j' i'); [done|]. by apply gmatch_sym.
Qed.

Lemma group_rows_nodup : NoDup (get "row_index" <$> fr_rows f).
Proof.
  rewrite Hf. assert (∀ x, x ∈ imap numbered rows → ∃ k i, rows !! k = Some (group_row i) ∧ x = numbered k (group_row i)) as Hx.
  { intros x Hx. apply elem_of_lookup_imap in Hx as (k & r' & -> & Hk'). assert (r' ∈ rows) as Hr' by (by eapply list_elem_of_lookup_2).
    apply Hgroups in Hr' as (i & Hi & ->). eauto. }
  apply NoDup_join_fmap.
  - apply NoDup_alt. intros p q x Hp Hq. rewrite !list_lookup_imap in *. destruct (rows !! p) as [r|]; [|done]. destruct (rows !! q) as [r'|]; [|done].
    cbn [fmap option_fmap option_map] in Hp, Hq. rewrite <-Hp in Hq. injection Hq as Hq. apply (f_equal (.!! "_group")) in Hq. unfold numbered in Hq. rewrite !lookup_insert_eq in Hq. simplify_eq. lia.
  - intros x Hin. destruct (Hx x Hin) as (k & i & _ & ->). rewrite <-list_fmap_compose.
    rewrite (list_fmap_ext _ (get "row_index")).
    + eapply sublist_NoDup; [by apply (rows_index_nodup full (Some (list_to_set (gk ++ [a])))), (NoDup_seq 0 (rb_num_rows full))|]. apply fmap_sublist, sublist_filter.
    + intros p y Hy. apply list_elem_of_lookup_2, list_elem_of_filter in Hy as [_ Hy]. apply list_elem_of_fmap in Hy as (j & -> & _). cbv [compose].
      rewrite numbered_index. symmetry. apply get_row_index.
  - intros x x' y y' Hin Hin' Hy Hy' E. destruct (Hx x Hin) as (k & i & Hk1 & ->). destruct (Hx x' Hin') as (k' & i' & Hk2 & ->).
    apply list_elem_of_fmap in Hy as (z & -> & Hz). apply list_elem_of_fmap in Hy' as (z' & -> & Hz'). apply list_elem_of_filter in Hz as [Hm Hz].
    apply list_elem_of_filter in Hz' as [Hm' Hz']. apply list_elem_of_fmap in Hz as (j & -> & _). apply list_elem_of_fmap in Hz' as (j' & -> & _).
    rewrite numbered_match in Hm, Hm'. rewrite !numbered_index in E. injection E as E. assert (j = j') as <- by lia.
    assert (k = k') as <-; [|rewrite Hk1 in Hk2; by injection Hk2 as ->].
    apply (group_number k i j k' i' j); try done. eapply gmatch_self, gmatch_sym, Hm.
Qed.

Lemma tree_groups : has_columns f ["_group"] → ∃ gs, group_by ["_group"] f = Ok gs ∧ grouping full gk a in_group gs.
Proof.
  intros Hc. apply (group_by_grouping full gk a _ ["_group"] f Hc); [| |apply group_rows_nodup|].
  - intros r Hin. apply elem_group_rows in Hin as (k & i & j & Hk' & Hi & Hj & Hm & ->). exists j. split; [split; [done|by exists i]|apply numbered_is_row].
  - intros j (Hj & i & Hi & Hm). assert (group_row i ∈ rows) as Hin by (apply Hgroups; eauto). apply list_elem_of_lookup in Hin as [k Hk'].
    exists (numbered k (group_row i) ∪ trow j). split; [|apply numbered_is_row]. apply elem_group_rows. exists k, i, j. done.
  - intros r r' j j' Hin Hin' Hj Hj'. apply elem_group_rows in Hin as (k & i & l & Hk1 & Hi & _ & Hm & ->).
    apply elem_group_rows in Hin' as (k' & i' & l' & Hk2 & Hi' & _ & Hm' & ->).
    rewrite (is_row_inj _ _ _ _ _ Hj (numbered_is_row k i l)), (is_row_inj _ _ _ _ _ Hj' (numbered_is_row k' i' l')), !numbered_key.
    rewrite <-(group_number k i l k' i' l') by done. split; [intros E; simplify_eq; lia|by intros ->].
Qed.
End groups.
Definition index_row (z : Z) : frow := {[ "row_index" := Some (CInt z) ]}.

(** The group keys of the input rows. *)
Lemma input_groups joined : fr_rows joined ≡ₚ mjoin ((λ x, (λ y, x ∪ y) <$>
    filter (λ y, keys_match ["row_index"] ["row_index"] x y = true) (trow <$> seq 0 (rb_num_rows full))) <$> (index_row <$> sorted_rows input)) →
  ∀ r, r ∈ select_row (same_names gk) <$> fr_rows joined ↔ ∃ i, Z.of_nat i ∈ input ∧ r = group_row i.
Proof.
  intros Hj r. assert (∀ z j, keys_match ["row_index"] ["row_index"] (index_row z) (trow j) = true ↔ z = Z.of_nat j) as Hm.
  { intros z j. unfold keys_match. cbn [zip zip_with forallb fst snd]. unfold trow, tree_row. rewrite andb_true_r, get_row_index. unfold get, index_row. rewrite lookup_singleton_eq. cbn.
    rewrite bool_decide_eq_true. split; [intros E; by injection E|by intros ->]. }
  assert (∀ z j, select_row (same_names gk) (index_row z ∪ trow j) = group_row j) as Hs.
  { intros z j. apply select_row_union. rewrite same_names_fst. eapply Forall_impl; [exact (tree_keys name full gk a Ht Hk)|]. intros c [Hc _].
    unfold index_row. by rewrite lookup_singleton_ne. }
  rewrite list_elem_of_fmap. setoid_rewrite Hj. setoid_rewrite elem_join_fmap. setoid_rewrite list_elem_of_fmap. setoid_rewrite list_elem_of_filter. split.
  - intros (u & -> & x & Hx & y & -> & Hxy & Hy). destruct Hx as (z & -> & Hz). apply list_elem_of_fmap in Hy as (j & -> & _).
    apply Hm in Hxy as ->. exists j. rewrite <-elem_sorted_rows. by rewrite Hs.
  - intros (i & Hi & ->). exists (index_row (Z.of_nat i) ∪ trow i). split; [by rewrite Hs|]. exists (index_row (Z.of_nat i)). split; [eexists; by rewrite elem_sorted_rows|].
    exists (trow i). split; [done|]. split; [by apply Hm|]. apply list_elem_of_fmap_2, elem_of_seq. specialize (Hr _ Hi). lia.
Qed.

Lemma select_stack_spec : ∃ gs, select_stack chunk name (gk ++ [a]) input = Ok (stack_from_groups a gs, arr_type <$> column_by_name full a) ∧ grouping full gk a in_group gs.
Proof.
  destruct (output_frame name full (gk ++ [a]) Ht) as (so & Eso & Efo & _); [intros E; by apply app_eq_nil in E as [_ ?]|done|].
  unfold select_stack. rewrite Eso. cbn [mbind res_bind]. rewrite Efo. cbn [mbind res_bind]. rewrite split_key_app. cbn [mbind res_bind].
  set (items := table_frame full _ true _). assert (fr_rows items = trow <$> seq 0 (rb_num_rows full)) as Hitems by apply table_frame_rows.
  fold index_row. set (rif := mkFrame _ _). destruct (inner_join_spec rif items ["row_index"]) as (joined & -> & Hcj & Hj); [done| |apply table_frame_index| |].
  { constructor; [cbn; lmem|constructor]. }
  { by intros c Hc _. }
  cbn [mbind res_bind]. rewrite Hitems in Hj. change (fr_rows rif) with (index_row <$> sorted_rows input) in Hj. pose proof (input_groups joined Hj) as Hgr.
  destruct (select_spec (same_names gk) joined) as (g1 & -> & Hc1 & Hg1).
  { intros E. apply (f_equal (fmap fst)) in E. by rewrite same_names_fst in E. }
  { rewrite same_names_fst. unfold has_columns. rewrite Hcj, fmap_app. apply Forall_forall. intros c Hc. apply elem_of_app. right.
    pose proof (tree_has name full gk a Ht Hk (seq 0 (rb_num_rows full))) as Hh. unfold has_columns in Hh. rewrite Forall_forall in Hh. specialize (Hh c Hc).
    apply list_elem_of_fmap in Hh as ([c' ty] & -> & Hin). apply (list_elem_of_fmap_2 fst _ (c', ty)), list_elem_of_filter. split; [|done].
    pose proof (tree_keys name full gk a Ht Hk) as Htk. rewrite Forall_forall in Htk. destruct (Htk _ Hc) as [Hne' _]. intros Hin'. by apply list_elem_of_singleton in Hin'. }
  { rewrite same_names_snd. by apply NoDup_app in Hnd as [? _]. }
  cbn [mbind res_bind]. destruct (unique_spec g1) as (g2 & -> & Hc2 & Hn2 & Hg2). cbn [mbind res_bind]. rewrite same_names_snd in Hc1.
  destruct (with_index_column_spec "_group" g2) as (g3 & -> & Hc3 & Hg3).
  { rewrite Hc2, Hc1. intros Hin. apply Hg, elem_of_app. by left. }
  cbn [mbind res_bind]. destruct (inner_join_spec g3 items gk) as (f & -> & Hc & Hf); [done| |by apply (tree_has name)| |].
  { unfold has_columns. rewrite Hc3, fmap_cons, Hc2, Hc1. apply Forall_forall. intros c Hc. by right. }
  { intros c Hcl Hcr. rewrite Hc3, fmap_cons, Hc2, Hc1 in Hcl. apply elem_of_cons in Hcl as [->|?]; [|done]. apply table_frame_columns in Hcr as [?|?]; done. }
  cbn [mbind res_bind]. rewrite Hitems, Hg3 in Hf. destruct (tree_groups (fr_rows g2) Hn2) with (f := f) as (gs & -> & Hgs); [|exact Hf| |].
  { intros r. rewrite Hg2, Hg1. apply Hgr. }
  { constructor; [|constructor]. rewrite Hc, fmap_app, Hc3. cbn. lmem. }
  cbn [mbind res_bind]. exists gs. split; [|done]. do 2 f_equal. pose proof Hk as Hk'. apply Forall_app in Hk' as [_ Hk']. apply Forall_cons in Hk' as [[arr Harr] _].
  rewrite Harr. by apply (table_frame_type full _ _ a arr); [apply (tree_address name full gk a Ht Hk)..|].
Qed.
End tree.
End rels.

(** ** Relations *)

Definition key_group (key : list Name) : list Name := take (length key - 1) key.
Definition key_address (key : list Name) : Name := default "" (last key).
(** Row [j] is in the group of row [i], properly below it, or at it or above it. *)
Definition tree_below (f : RecordBatch) (key : list Name) (i j : nat) : Prop :=
  (j < rb_num_rows f)%nat ∧ gmatch f (key_group key) i j ∧ below (taddr f (key_address key) i) (taddr f (key_address key) j).
Definition tree_above (f : RecordBatch) (key : list Name) (i j : nat) : Prop :=
  (j < rb_num_rows f)%nat ∧ gmatch f (key_group key) i j ∧ taddr f (key_address key) j `prefix_of` taddr f (key_address key) i.

(** The rows a relation adds for the rows [input] of its input table. *)
Definition rel_rows (tables : gmap Name RecordBatch) (r : Rel) (input : RowList) (j : nat) : Prop :=
  match r with
  | Join it ik ot ok => ∃ fi fo, tables !! it = Some fi ∧ tables !! ot = Some fo ∧ selected fo ok fi ik input j
  | ForeignChildren it ik ot ok => ∃ fi fo, tables !! it = Some fi ∧ tables !! ot = Some fo ∧
      (selected fo ok fi ik input j ∨ ∃ p, selected fo ok fi ik input p ∧ tree_below fo ok p j)
  | ForeignParents it ik ot ok => ∃ fi fo, tables !! it = Some fi ∧ tables !! ot = Some fo ∧ ∃ c, selected fo ok fi ik input c ∧ tree_above fo ok c j
  | Children t key => ∃ f, tables !! t = Some f ∧ ∃ i, Z.of_nat i ∈ input ∧ tree_below f key i j
  | Parents t key => ∃ f, tables !! t = Some f ∧ ∃ i, Z.of_nat i ∈ input ∧ tree_above f key i j
  end.

(** A key of a tree: at least one group column, the address last, addresses unique in a group. *)
Record tree_key (f : RecordBatch) (key : list Name) : Prop := mkTreeKey {
  tk_length : (2 <= length key)%nat;
  tk_columns : key_columns f key;
  tk_nodup : NoDup key;
  tk_type : ∃ arr, column_by_name f (key_address key) = Some arr ∧ check_address_type (Some (arr_type arr)) = Ok tt;
  tk_unique i j : (i < rb_num_rows f)%nat → (j < rb_num_rows f)%nat → gmatch f (key_group key) i j →
    taddr f (key_address key) i = taddr f (key_address key) j → i = j
}.
Definition rel_ok (tables : gmap Name RecordBatch) (r : Rel) : Prop :=
  match r with
  | Join it ik ot ok => ∃ fi fo, tables !! it = Some fi ∧ tables !! ot = Some fo ∧ key_columns fi ik ∧ key_columns fo ok ∧ ok ≠ [] ∧ length ok = length ik
  | ForeignChildren it ik ot ok | ForeignParents it ik ot ok =>
      ∃ fi fo, tables !! it = Some fi ∧ tables !! ot = Some fo ∧ key_columns fi ik ∧ tree_key fo ok ∧ length ok = length ik
  | Children t key | Parents t key => ∃ f, tables !! t = Some f ∧ tree_key f key ∧ "_group" ∉ key
  end.
Definition input_ok (tables : gmap Name RecordBatch) (r : Rel) (input : RowList) : Prop :=
  ∀ f, tables !! input_table r = Some f → rows_in_table input f.

Lemma key_split key : (2 <= length key)%nat → key = key_group key ++ [key_address key] ∧ key_group key ≠ [] ∧ length (key_group key) = (length key - 1)%nat.
Proof.
  destruct key as [|x key _] using rev_ind; [cbn; lia|]. unfold key_group, key_address. rewrite last_snoc, length_app. cbn [length default]. intros Hl.
  rewrite Nat.add_sub, take_app_length. split; [done|]. split; [|lia]. destruct key; [cbn in Hl; lia|done].
Qed.

Section rel_eval.
Context {PL : Polars} {PLL : PolarsLaws}.
Context (chunk : Chunk) (tables : gmap Name RecordBatch) (Hchunk : chunk_ok chunk tables).

Lemma tree_eval f key name input : tables !! name = Some f → tree_key f key → "_group" ∉ key → rows_in_table input f →
  ∃ gs arr, select_stack chunk name key input = Ok (stack_from_groups (key_address key) gs, Some (arr_type arr)) ∧
    check_address_type (Some (arr_type arr)) = Ok tt ∧ grouping f (key_group key) (key_address key) (in_group f (key_group key) input) gs.
Proof.
  intros Ht [Hl Hk Hn (arr & Harr & Hty) _] Hg Hr. destruct (key_split key Hl) as (E & Hne & _). rewrite E in Hk, Hn, Hg.
  destruct (select_stack_spec chunk tables Hchunk name f (key_group key) (key_address key) input) as (gs & Es & Hgs); [done..|].
  rewrite <-E, Harr in Es. by exists gs, arr.
Qed.

Lemma in_group_row f gk input i : rows_in_table input f → Z.of_nat i ∈ input → gmatch f gk i i → in_group f gk input i.
Proof. intros Hr Hi Hm. split; [specialize (Hr _ Hi); lia|eauto]. Qed.

Lemma eval_children_spec f key name input : tables !! name = Some f → tree_key f key → "_group" ∉ key → rows_in_table input f →
  ∃ out, eval_children chunk input name key = Ok out ∧ ∀ z, z ∈ out ↔ ∃ j, z = Z.of_nat j ∧ ∃ i, Z.of_nat i ∈ input ∧ tree_below f key i j.
Proof.
  intros Ht Hk Hg Hr. destruct (tree_eval f key name input Ht Hk Hg Hr) as (gs & arr & Es & Hty & Hgs). unfold eval_children. rewrite Es. cbn [mbind res_bind].
  unfold find_children. cbn [snd fst]. rewrite Hty. cbn [mbind res_bind].
  destruct (find_children_rows f (key_group key) (key_address key) (in_group f (key_group key) input)) with (gs := gs) (parents := sorted_rows input) (include_parent := false)
    as (out & -> & Hout); [|done|].
  { intros i j [Hi _] [Hj _]. by apply (tk_unique f key Hk). }
  exists out. split; [done|]. intros z. rewrite Hout. split.
  - intros (j & Dj & -> & [(i & Di & Hi & Hm & Hb)|[? _]]); [|done]. exists j. split; [done|]. exists i. rewrite <-elem_sorted_rows. split; [done|]. split; [apply Dj|done].
  - intros (j & -> & i & Hi & Hj & Hm & Hb). exists j. split; [split; [done|eauto]|]. split; [done|]. left. exists i. rewrite elem_sorted_rows. split; [|done].
    apply in_group_row; [done|done|]. by eapply gmatch_self.
Qed.

Lemma eval_parents_spec f key name input : tables !! name = Some f → tree_key f key → "_group" ∉ key → rows_in_table input f →
  ∃ out, eval_parents chunk input name key = Ok out ∧ ∀ z, z ∈ out ↔ ∃ j, z = Z.of_nat j ∧ ∃ i, Z.of_nat i ∈ input ∧ tree_above f key i j.
Proof.
  intros Ht Hk Hg Hr. destruct (tree_eval f key name input Ht Hk Hg Hr) as (gs & arr & Es & Hty & Hgs). unfold eval_parents. rewrite Es. cbn [mbind res_bind].
  unfold find_parents. cbn [snd fst]. rewrite Hty. cbn [mbind res_bind].
  destruct (find_parents_rows f (key_group key) (key_address key) (in_group f (key_group key) input)) with (gs := gs) (children := sorted_rows input)
    as (out & -> & Hout); [|done|].
  { intros i j [Hi _] [Hj _]. by apply (tk_unique f key Hk). }
  exists out. split; [done|]. intros z. rewrite Hout. split.
  - intros (j & Dj & -> & i & Di & Hi & Hm & Hb). exists j. split; [done|]. exists i. rewrite <-elem_sorted_rows. split; [done|]. split; [apply Dj|done].
  - intros (j & -> & i & Hi & Hj & Hm & Hb). exists j. split; [split; [done|eauto]|]. split; [done|]. exists i. rewrite elem_sorted_rows. split; [|done].
    apply in_group_row; [done|done|]. by eapply gmatch_self.
Qed.
Lemma foreign_eval it fi ik ot fo ok input : tables !! it = Some fi → tables !! ot = Some fo → key_columns fi ik → tree_key fo ok → length ok = length ik →
  rows_in_table input fi → ∃ gs arr inputs, select_foreign_stack chunk input it ik ot ok = Ok (stack_from_groups (key_address ok) gs, Some (arr_type arr), inputs) ∧
    check_address_type (Some (arr_type arr)) = Ok tt ∧
    grouping fo (key_group ok) (key_address ok) (selected fo (key_group ok) fi (key_group ik) input) gs ∧
    ∀ z, z ∈ inputs ↔ ∃ j, z = Z.of_nat j ∧ selected fo ok fi ik input j.
Proof.
  intros Hi Ho Hki [Hl Hk Hn (arr & Harr & Hty) _] Hll Hr. destruct (key_split ok Hl) as (E & Hne & El). destruct (key_split ik) as (E' & _ & El'); [lia|].
  rewrite E in Hk, Hn. rewrite E' in Hki.
  destruct (select_foreign_stack_spec chunk tables Hchunk it ot fi fo (key_group ik) (key_group ok) (key_address ik) (key_address ok) input)
    as (gs & inputs & Es & Hgs & Hin); [done..|lia|done|done|]. rewrite <-E, <-E', Harr in Es. rewrite <-E, <-E' in Hin. by exists gs, arr, inputs.
Qed.

(** The group of a selected row is selected. *)
Lemma selected_closed fo ok fi ik input p j : (2 <= length ok)%nat → length ok = length ik → selected fo ok fi ik input p → (j < rb_num_rows fo)%nat → gmatch fo (key_group ok) p j →
  selected fo (key_group ok) fi (key_group ik) input p ∧ selected fo (key_group ok) fi (key_group ik) input j.
Proof.
  intros Hl Hll (Hp & i & Hi & Hm) Hj Hpj. destruct (key_split ok Hl) as (E & _ & El). destruct (key_split ik) as (E' & _ & El'); [lia|].
  rewrite E, E', tmatch_app in Hm by lia. apply andb_true_iff in Hm as [Hm _]. split; (split; [done|]); exists i; (split; [done|]); [done|].
  eapply (tmatch_trans _ fo _ _ (key_group ok)); [done|lia| |exact Hm]. by apply gmatch_sym.
Qed.

Lemma selected_refl fo ok fi ik input p : (2 <= length ok)%nat → length ok = length ik → selected fo ok fi ik input p → gmatch fo (key_group ok) p p.
Proof.
  intros Hl Hll (Hp & i & Hi & Hm). destruct (key_split ok Hl) as (E & _ & El). destruct (key_split ik) as (E' & _ & El'); [lia|].
  rewrite E, E', tmatch_app in Hm by lia. apply andb_true_iff in Hm as [Hm _]. unfold gmatch. eapply tmatch_trans; [|symmetry|exact Hm|by rewrite tmatch_sym]; lia.
Qed.

Lemma eval_foreign_children_spec it fi ik ot fo ok input : tables !! it = Some fi → tables !! ot = Some fo → key_columns fi ik → tree_key fo ok → length ok = length ik →
  rows_in_table input fi → ∃ out, eval_foreign_children chunk input it ik ot ok = Ok out ∧
    ∀ z, z ∈ out ↔ ∃ j, z = Z.of_nat j ∧ (selected fo ok fi ik input j ∨ ∃ p, selected fo ok fi ik input p ∧ tree_below fo ok p j).
Proof.
  intros Hi Ho Hki Hk Hll Hr. destruct (foreign_eval it fi ik ot fo ok input) as (gs & arr & inputs & Es & Hty & Hgs & Hin); [done..|].
  unfold eval_foreign_children. rewrite Es. cbn [mbind res_bind]. unfold find_children. cbn [snd fst]. rewrite Hty. cbn [mbind res_bind].
  destruct (find_children_rows fo (key_group ok) (key_address ok) (selected fo (key_group ok) fi (key_group ik) input)) with (gs := gs) (parents := inputs) (include_parent := true)
    as (out & -> & Hout); [|done|].
  { intros i j [Hi' _] [Hj _]. by apply (tk_unique fo ok Hk). }
  pose proof (tk_length fo ok Hk) as Hl. exists out. split; [done|]. intros z. rewrite Hout. split.
  - intros (j & Dj & -> & [(i & Di & Hi' & Hm & Hb)|[_ Hj]]); exists j; (split; [done|]).
    + right. apply Hin in Hi' as (i' & Ei & Hsel). assert (i = i') as <- by lia. exists i. split; [done|]. split; [apply Dj|done].
    + left. apply Hin in Hj as (j' & Ej & Hsel). by replace j with j' by lia.
  - intros (j & -> & [Hsel|(p & Hsel & Hj & Hm & Hb)]).
    + exists j. destruct (selected_closed fo ok fi ik input j j) as [Hs _]; [done|done|done|apply Hsel|by eapply selected_refl|].
      split; [done|]. split; [done|]. right. split; [done|]. apply Hin. eauto.
    + exists j. destruct (selected_closed fo ok fi ik input p j) as [Hs Hs']; [done..|]. split; [done|]. split; [done|]. left. exists p. split; [done|].
      split; [apply Hin; eauto|done].
Qed.

Lemma eval_foreign_parents_spec it fi ik ot fo ok input : tables !! it = Some fi → tables !! ot = Some fo → key_columns fi ik → tree_key fo ok → length ok = length ik →
  rows_in_table input fi → ∃ out, eval_foreign_parents chunk input it ik ot ok = Ok out ∧
    ∀ z, z ∈ out ↔ ∃ j, z = Z.of_nat j ∧ ∃ c, selected fo ok fi ik input c ∧ tree_above fo ok c j.
Proof.
  intros Hi Ho Hki Hk Hll Hr. destruct (foreign_eval it fi ik ot fo ok input) as (gs & arr & inputs & Es & Hty & Hgs & Hin); [done..|].
  unfold eval_foreign_parents. rewrite Es. cbn [mbind res_bind]. unfold find_parents. cbn [snd fst]. rewrite Hty. cbn [mbind res_bind].
  destruct (find_parents_rows fo (key_group ok) (key_address ok) (selected fo (key_group ok) fi (key_group ik) input)) with (gs := gs) (children := inputs)
    as (out & -> & Hout); [|done|].
  { intros i j [Hi' _] [Hj _]. by apply (tk_unique fo ok Hk). }
  pose proof (tk_length fo ok Hk) as Hl. exists out. split; [done|]. intros z. rewrite Hout. split.
  - intros (j & Dj & -> & i & Di & Hi' & Hm & Hb). exists j. split; [done|]. apply Hin in Hi' as (i' & Ei & Hsel). assert (i = i') as <- by lia. exists i. split; [done|].
    split; [apply Dj|done].
  - intros (j & -> & c & Hsel & Hj & Hm & Hb). exists j. destruct (selected_closed fo ok fi ik input c j) as [Hs Hs']; [done..|]. split; [done|]. split; [done|]. exists c.
    split; [done|]. split; [apply Hin; eauto|done].
Qed.

(** Every relation adds exactly the rows its meaning names. *)
Lemma rel_eval_spec r input : rel_ok tables r → input_ok tables r input →
  ∃ out, rel_eval r chunk input = Ok out ∧ ∀ z, z ∈ out ↔ ∃ j, z = Z.of_nat j ∧ rel_rows tables r input j.
Proof.
  destruct r as [it ik ot ok|it ik ot ok|it ik ot ok|t key|t key]; intros Hok Hin; cbn [rel_eval rel_rows rel_ok input_table] in *; unfold input_ok in Hin; cbn [input_table] in Hin.
  - destruct Hok as (fi & fo & Hi & Ho & Hki & Hko & Hne & Hl). destruct (eval_join_spec chunk tables Hchunk it fi ik ot fo ok input) as (out & E & Hout); [by auto..|].
    exists out. split; [done|]. intros z. rewrite Hout. apply exist_proper. intros j. split; [intros [-> ?]; eauto 8|intros (-> & ? & ? & ? & ? & ?); by simplify_eq].
  - destruct Hok as (fi & fo & Hi & Ho & Hki & Hko & Hl). destruct (eval_foreign_children_spec it fi ik ot fo ok input) as (out & E & Hout); [by auto..|].
    exists out. split; [done|]. intros z. rewrite Hout. apply exist_proper. intros j. split; [intros [-> ?]; eauto 8|intros (-> & ? & ? & ? & ? & ?); by simplify_eq].
  - destruct Hok as (fi & fo & Hi & Ho & Hki & Hko & Hl). destruct (eval_foreign_parents_spec it fi ik ot fo ok input) as (out & E & Hout); [by auto..|].
    exists out. split; [done|]. intros z. rewrite Hout. apply exist_proper. intros j. split; [intros [-> ?]; eauto 8|intros (-> & ? & ? & ? & ? & ?); by simplify_eq].
  - destruct Hok as (f & Ht & Hk & Hg). destruct (eval_children_spec f key t input) as (out & E & Hout); [by auto..|].
    exists out. split; [done|]. intros z. rewrite Hout. apply exist_proper. intros j. split; [intros [-> ?]; eauto 8|intros (-> & ? & ? & ?); by simplify_eq].
  - destruct Hok as (f & Ht & Hk & Hg). destruct (eval_parents_spec f key t input) as (out & E & Hout); [by auto..|].
    exists out. split; [done|]. intros z. rewrite Hout. apply exist_proper. intros j. split; [intros [-> ?]; eauto 8|intros (-> & ? & ? & ?); by simplify_eq].
Qed.
End rel_eval.

(** C32: Each of the five relations (join, children, parents, and the two foreign tree
    relations), evaluated on a chunk whose readers keep their interface, returns and adds
    exactly the rows of the output table that are related to an input row: those with an equal
    key that has no null, those whose address lies below an input row of the same group, those
    at or above it, and for the foreign ones the same from the rows the input keys point to. *)
Theorem relations_exact {PL : Polars} {PLL : PolarsLaws} (chunk : Chunk) (tables : gmap Name RecordBatch) r input :
  chunk_ok chunk tables → rel_ok tables r → input_ok tables r input →
  ∃ out, rel_eval r chunk input = Ok out ∧ ∀ z, z ∈ out ↔ ∃ j, z = Z.of_nat j ∧ rel_rows tables r input j.
Proof. intros Hc. by apply rel_eval_spec. Qed.
