(* ===== verification/QueryPlan.v ===== *)
(** * Query plans (crates/query/src/plan/table.rs, plan.rs, json/exp.rs)

    The table sets, the plan builder with its simplification, and the first two phases of the
    execution: scans and relations.  A plan is built from scans, each of one table, with the
    relations they feed and the output they fill; [simplify] replaces scans and relations that
    select whole tables by full scans. *)
From stdpp Require Import gmap sorting.
From S2P Require Import Prelude Bytes Ranges QueryStack QueryArrow QueryPred QueryRel.

(** ** Tables (table.rs) *)

Inductive ColumnWeight : Type := Fixed (weight : Z) | Stored (column : Name).
Inductive ColumnDefault : Type := Null.

Record Table : Type := mkTable {
  table_name : Name;
  primary_key : list Name;
  column_weights : gmap Name ColumnWeight;
  column_defaults : gmap Name ColumnDefault;
  result_item_name : Name;
  table_children : gmap Name (list Name)
}.

Definition set_weight (t : Table) (column : Name) (weight : Z) : Table :=
  mkTable (table_name t) (primary_key t) (<[column := Fixed weight]> (column_weights t)) (column_defaults t) (result_item_name t) (table_children t).
Definition set_weight_column (t : Table) (column weight_column : Name) : Table :=
  mkTable (table_name t) (primary_key t) (<[column := Stored weight_column]> (column_weights t)) (column_defaults t) (result_item_name t) (table_children t).
Definition set_result_item_name (t : Table) (name : Name) : Table :=
  mkTable (table_name t) (primary_key t) (column_weights t) (column_defaults t) name (table_children t).
Definition set_column_default (t : Table) (column : Name) (d : ColumnDefault) : Table :=
  mkTable (table_name t) (primary_key t) (column_weights t) (<[column := d]> (column_defaults t)) (result_item_name t) (table_children t).
Definition set_nullable (t : Table) (columns : list Name) : Table := fold_left (λ t c, set_column_default t c Null) columns t.
Definition table_default_null_columns (t : Table) : gset Name := dom (column_defaults t).
Definition add_child (t : Table) (name : Name) (key : list Name) : res Table :=
  if (length key =? length (primary_key t))%nat
  then Ok (mkTable (table_name t) (primary_key t) (column_weights t) (column_defaults t) (result_item_name t) (<[name := key]> (table_children t)))
  else Panic "assertion failed: key.len() == primary_key.len()".

Abbreviation TableSet := (list Table).

Definition get_index (ts : TableSet) (name : Name) : res nat :=
  match list_find (λ t, table_name t = name) ts with Some (i, _) => Ok i | None => Panic "table is not defined" end.
Definition ts_get (ts : TableSet) (name : Name) : res Table := i ← get_index ts name; slice_get ts i.

(** [add_table] with the calls on the returned [&mut Table] as [f]. *)
Definition add_table (ts : TableSet) (name : Name) (pk : list Name) (f : Table → res Table) : res TableSet :=
  if existsb (λ t, bool_decide (table_name t = name)) ts then Panic "table was already defined"
  else if (length pk =? 0)%nat then Panic "primary key of all tables must start with a block number"
  else if negb ((0 <? length ts)%nat || (length pk =? 1)%nat) then Panic "block header table must be defined first"
  else t ← f (mkTable name pk ∅ ∅ name ∅); Ok (ts ++ [t]).

(** ** Projections (json/exp.rs) *)

Inductive Exp : Type :=
| EValue | EJson | EBigNum | EHexNum | ESolanaTransactionVersion | ETimestampSecond | ETimestampMillisecond
| EObject (props : list (Name * Exp))
| EProp (name : Name) (exp : Exp)
| EList (exp : Exp)
| ERoll (columns : list Name) (exp : Exp)
| EEnum (tag_column : Name) (variants : list (Name * Exp)).

(** The columns [for_each_column] visits. *)
Fixpoint for_each_column (e : Exp) : list Name :=
  match e with
  | EObject props => flat_map (λ p, for_each_column p.2) props
  | EProp name _ => [name]
  | ERoll columns _ => columns
  | EEnum tag_column variants => tag_column :: flat_map (λ p, for_each_column p.2) variants
  | _ => []
  end.

(** ** Plans (plan.rs) *)

Record PlanScan : Type := mkPlanScan {
  ps_table : Name;
  ps_predicate : option RowPredicate;
  ps_relations : list nat;
  ps_output : option nat
}.

Record Output : Type := mkOutput {
  out_table : Name;
  out_key : list Name;
  out_projection : gset Name;
  weight_per_row : Z;
  weight_columns : list Name;
  out_exp : Exp;
  item_name : Name
}.

(** [Plan] and [PlanBuilder] have the same fields. *)
Record PlanBuilder : Type := mkPlan {
  plan_tables : TableSet;
  plan_scans : list PlanScan;
  plan_relations : list Rel;
  plan_outputs : list Output;
  include_all_blocks : bool;
  parent_block_hash : option string;
  first_block : option Z;
  last_block : option Z
}.
Abbreviation Plan := PlanBuilder.

Definition plan_new (tables : TableSet) : PlanBuilder :=
  mkPlan tables [] [] ((λ t, mkOutput (table_name t) (primary_key t) ∅ 0 [] (EObject []) (result_item_name t)) <$> tables) false None None None.

Definition with_scans (b : PlanBuilder) (scans : list PlanScan) : PlanBuilder :=
  mkPlan (plan_tables b) scans (plan_relations b) (plan_outputs b) (include_all_blocks b) (parent_block_hash b) (first_block b) (last_block b).
Definition with_relations (b : PlanBuilder) (rels : list Rel) : PlanBuilder :=
  mkPlan (plan_tables b) (plan_scans b) rels (plan_outputs b) (include_all_blocks b) (parent_block_hash b) (first_block b) (last_block b).
Definition with_outputs (b : PlanBuilder) (outputs : list Output) : PlanBuilder :=
  mkPlan (plan_tables b) (plan_scans b) (plan_relations b) outputs (include_all_blocks b) (parent_block_hash b) (first_block b) (last_block b).

Definition set_include_all_blocks (b : PlanBuilder) (yes : bool) : PlanBuilder :=
  mkPlan (plan_tables b) (plan_scans b) (plan_relations b) (plan_outputs b) yes (parent_block_hash b) (first_block b) (last_block b).
Definition set_parent_block_hash (b : PlanBuilder) (hash : option string) : PlanBuilder :=
  mkPlan (plan_tables b) (plan_scans b) (plan_relations b) (plan_outputs b) (include_all_blocks b) hash (first_block b) (last_block b).
Definition set_first_block (b : PlanBuilder) (n : option Z) : PlanBuilder :=
  mkPlan (plan_tables b) (plan_scans b) (plan_relations b) (plan_outputs b) (include_all_blocks b) (parent_block_hash b) n (last_block b).
Definition set_last_block (b : PlanBuilder) (n : option Z) : PlanBuilder :=
  mkPlan (plan_tables b) (plan_scans b) (plan_relations b) (plan_outputs b) (include_all_blocks b) (parent_block_hash b) (first_block b) n.

(** [l[i] = v] and [f(&mut l[i])] *)
Definition slice_update {A} (l : list A) (i : nat) (f : A → res A) : res (list A) := a ← slice_get l i; a' ← f a; Ok (<[i := a']> l).

Definition set_projection (b : PlanBuilder) (table : Name) (exp : Exp) : res PlanBuilder :=
  idx ← get_index (plan_tables b) table;
  outputs ← slice_update (plan_outputs b) idx (λ o,
    Ok (mkOutput (out_table o) (out_key o) (out_projection o) (weight_per_row o) (weight_columns o) exp (item_name o)));
  Ok (with_outputs b outputs).

(** [add_scan], with the index the [ScanBuilder] holds. *)
Definition add_scan (b : PlanBuilder) (table : Name) : res (PlanBuilder * nat) :=
  idx ← get_index (plan_tables b) table;
  Ok (with_scans b (plan_scans b ++ [mkPlanScan table None [] (Some idx)]), length (plan_scans b)).

Definition add_rel (b : PlanBuilder) (rel : Rel) : PlanBuilder * nat :=
  match list_find (λ r, r = rel) (plan_relations b) with
  | Some (i, _) => (b, i)
  | None => (with_relations b (plan_relations b ++ [rel]), length (plan_relations b))
  end.

(** *** [ScanBuilder]: the plan and the index of the scan. *)

Definition scan_mut (sb : PlanBuilder * nat) (f : PlanScan → PlanScan) : res (PlanBuilder * nat) :=
  scans ← slice_update (plan_scans sb.1) sb.2 (λ s, Ok (f s));
  Ok (with_scans sb.1 scans, sb.2).

Definition scan_with_predicate (sb : PlanBuilder * nat) (p : RowPredicate) : res (PlanBuilder * nat) :=
  scan_mut sb (λ s, mkPlanScan (ps_table s) (Some p) (ps_relations s) (ps_output s)).
Definition with_no_output (sb : PlanBuilder * nat) : res (PlanBuilder * nat) :=
  scan_mut sb (λ s, mkPlanScan (ps_table s) (ps_predicate s) (ps_relations s) None).

(** [add_rel] and [self.scan_mut().relations.push(rel_idx)] *)
Definition push_rel (sb : PlanBuilder * nat) (rel : Rel) : res (PlanBuilder * nat) :=
  let br := add_rel sb.1 rel in
  scan_mut (br.1, sb.2) (λ s, mkPlanScan (ps_table s) (ps_predicate s) (ps_relations s ++ [br.2]) (ps_output s)).

Definition scan_join (sb : PlanBuilder * nat) (output_table : Name) (output_key scan_key : list Name) : res (PlanBuilder * nat) :=
  s ← slice_get (plan_scans sb.1) sb.2;
  push_rel sb (Join (ps_table s) scan_key output_table output_key).
Definition include_children (sb : PlanBuilder * nat) : res (PlanBuilder * nat) :=
  s ← slice_get (plan_scans sb.1) sb.2;
  t ← ts_get (plan_tables sb.1) (ps_table s);
  push_rel sb (Children (ps_table s) (primary_key t)).
Definition include_parents (sb : PlanBuilder * nat) : res (PlanBuilder * nat) :=
  s ← slice_get (plan_scans sb.1) sb.2;
  t ← ts_get (plan_tables sb.1) (ps_table s);
  push_rel sb (Parents (ps_table s) (primary_key t)).
Definition include_foreign_children (sb : PlanBuilder * nat) (output_table : Name) (output_key scan_key : list Name) : res (PlanBuilder * nat) :=
  s ← slice_get (plan_scans sb.1) sb.2;
  push_rel sb (ForeignChildren (ps_table s) scan_key output_table output_key).
Definition include_foreign_parents (sb : PlanBuilder * nat) (output_table : Name) (output_key scan_key : list Name) : res (PlanBuilder * nat) :=
  s ← slice_get (plan_scans sb.1) sb.2;
  push_rel sb (ForeignParents (ps_table s) scan_key output_table output_key).

(** ** Simplification *)

(** Whether a fully populated input implies a fully populated output. *)
Definition is_full_rel (ts : TableSet) (rel : Rel) : res bool :=
  match rel with
  | Join it ik ot ok =>
      desc ← ts_get ts it;
      Ok (bool_decide (ik = primary_key desc) && bool_decide (table_children desc !! ot = Some ok))
  | Children _ _ | Parents _ _ => Ok true
  | _ => Ok false
  end.

(** The flags [is_full] of the outputs and [is_full_rel] of the relations. *)
Abbreviation flags := (list bool * list bool)%type.

Definition mark_relation (b : PlanBuilder) (st : flags) (rel_idx : nat) : res flags :=
  full_rel ← slice_update st.2 rel_idx (λ _, Ok true);
  rel ← slice_get (plan_relations b) rel_idx;
  full ← is_full_rel (plan_tables b) rel;
  if full : bool then
    i ← get_index (plan_tables b) (output_table rel);
    full_out ← slice_update st.1 i (λ _, Ok true);
    Ok (full_out, full_rel)
  else Ok (st.1, full_rel).

Definition mark_scan (b : PlanBuilder) (st : flags) (s : PlanScan) : res flags :=
  match ps_predicate s with
  | Some _ => Ok st
  | None =>
      full_out ← (match ps_output s with Some i => slice_update st.1 i (λ _, Ok true) | None => Ok st.1 end);
      fold_res (mark_relation b) (ps_relations s) (full_out, st.2)
  end.

Fixpoint remove_elements {A} (l : list A) (remove_mask : list bool) : res (list A) :=
  match l, remove_mask with
  | [], _ => Ok []
  | x :: l, remove :: mask => l' ← remove_elements l mask; Ok (if remove : bool then l' else x :: l')
  | _ :: _, [] => Panic "index out of bounds"
  end.

Fixpoint index_map (idx : nat) (remove_mask : list bool) : list (option nat) :=
  match remove_mask with
  | [] => []
  | true :: mask => None :: index_map idx mask
  | false :: mask => Some idx :: index_map (S idx) mask
  end.

(** [retain_mut] on the relations of a scan. *)
Fixpoint remap_relations (im : list (option nat)) (rels : list nat) : res (list nat) :=
  match rels with
  | [] => Ok []
  | r :: rels =>
      i ← slice_get im r;
      rels' ← remap_relations im rels;
      Ok (match i with Some i => i :: rels' | None => rels' end)
  end.

Definition set_relations (s : PlanScan) (rels : list nat) : PlanScan := mkPlanScan (ps_table s) (ps_predicate s) rels (ps_output s).

Definition remove_relations (b : PlanBuilder) (remove_mask : list bool) : res PlanBuilder :=
  rels ← remove_elements (plan_relations b) remove_mask;
  let im := index_map 0 remove_mask in
  scans ← collect ((λ s, rs ← remap_relations im (ps_relations s); Ok (set_relations s rs)) <$> plan_scans b);
  Ok (with_scans (with_relations b rels) scans).

(** The closure of [self.scans.retain_mut]: the scan as it is left, if it is kept. *)
Definition retain_scan (is_full is_full_rel : list bool) (s : PlanScan) : res (option PlanScan) :=
  output ← (match ps_output s with
            | Some i => full ← slice_get is_full i; Ok (if full : bool then None else Some i)
            | None => Ok None
            end);
  keep ← collect ((λ r, full ← slice_get is_full_rel r; Ok (r, negb full)) <$> ps_relations s);
  let rels := fst <$> filter (λ rk : nat * bool, rk.2 = true) keep in
  Ok (match ps_predicate s with
      | Some p => if (0 <? length rels)%nat || bool_decide (is_Some output) then Some (mkPlanScan (ps_table s) (Some p) rels output) else None
      | None => None
      end).

(** The scans that read whole tables, by table. *)
Definition full_output_scan (outputs : list Output) (is_full : list bool) (m : gmap Name PlanScan) (out_idx : nat) : res (gmap Name PlanScan) :=
  full ← slice_get is_full out_idx;
  if full : bool then o ← slice_get outputs out_idx; Ok (<[out_table o := mkPlanScan (out_table o) None [] (Some out_idx)]> m) else Ok m.
Definition full_input_scan (relations : list Rel) (is_full_rel : list bool) (m : gmap Name PlanScan) (idx : nat) : res (gmap Name PlanScan) :=
  full ← slice_get is_full_rel idx;
  if full : bool then
    rel ← slice_get relations idx;
    let table := input_table rel in
    let s := default (mkPlanScan table None [] None) (m !! table) in
    Ok (<[table := set_relations s (ps_relations s ++ [idx])]> m)
  else Ok m.

Definition assert_scan_relation_invariant (b : PlanBuilder) : res unit :=
  _ ← collect ((λ s, collect ((λ i, rel ← slice_get (plan_relations b) i;
    if bool_decide (input_table rel = ps_table s) then Ok tt else Panic "plan invariant violated") <$> ps_relations s)) <$> plan_scans b);
  Ok tt.

(** [into_values] yields the new scans in the order of the map. *)
Definition simplify (b : PlanBuilder) : res PlanBuilder :=
  if forallb (λ s, bool_decide (is_Some (ps_predicate s))) (plan_scans b) then Ok b else
  '(is_full, full_rel) ← fold_res (mark_scan b) (plan_scans b) (replicate (length (plan_outputs b)) false, replicate (length (plan_relations b)) false);
  remove_mask ← collect ((λ rel, i ← get_index (plan_tables b) (output_table rel); slice_get is_full i) <$> plan_relations b);
  full_rel ← remove_elements full_rel remove_mask;
  b ← remove_relations b remove_mask;
  kept ← collect (retain_scan is_full full_rel <$> plan_scans b);
  new_scans ← fold_res (full_output_scan (plan_outputs b) is_full) (seq 0 (length is_full)) ∅;
  new_scans ← fold_res (full_input_scan (plan_relations b) full_rel) (seq 0 (length (plan_relations b))) new_scans;
  let b := with_scans b (omap id kept ++ (map_to_list new_scans).*2) in
  _ ← assert_scan_relation_invariant b;
  Ok b.

(** ** Weights *)

Definition output_weights (t : Table) (projection : list Name) : Z * list Name :=
  fold_left (λ acc c, match default (Fixed 32) (column_weights t !! c) with
                      | Fixed w => (u64_add acc.1 w, acc.2)
                      | Stored column => (acc.1, acc.2 ++ [column])
                      end) projection (0, []).

Definition set_output_weights (b : PlanBuilder) : res PlanBuilder :=
  outputs ← collect ((λ o,
    t ← ts_get (plan_tables b) (out_table o);
    let projection := out_projection o ∪ list_to_set (primary_key t) ∪ list_to_set (for_each_column (out_exp o)) in
    let w := output_weights t (elements projection) in
    Ok (mkOutput (out_table o) (out_key o) projection w.1 w.2 (out_exp o) (item_name o))) <$> plan_outputs b);
  Ok (with_outputs b outputs).

Definition plan_build (b : PlanBuilder) : res Plan := b ← simplify b; set_output_weights b.

(** ** Execution: scans and relations *)

(** [ChunkWithDefaults] *)
Definition chunk_with_defaults (ts : TableSet) (chunk : Chunk) : Chunk := λ name,
  scan ← chunk name;
  t ← ts_get ts name;
  let default_null := table_default_null_columns t in
  Ok (if decide (default_null = ∅) then scan else with_default_null_columns scan default_null).

(** A list of row lists, and an addition to one of them. *)
Definition extend_at (lists : list RowList) (bs : list RecordBatch) (i : nat) : res (list RowList) :=
  slice_update lists i (λ rows, extend_from_record_batch_vec rows bs).

Definition execute_scan (chunk : Chunk) (st : list RowList * list RowList) (s : PlanScan) : res (list RowList * list RowList) :=
  scan ← chunk (ps_table s);
  rows ← scan_execute (with_predicate (with_columns (with_row_index scan true) []) (ps_predicate s));
  relation_inputs ← fold_res (λ ls i, extend_at ls rows i) (ps_relations s) st.1;
  output_inputs ← (match ps_output s with Some i => extend_at st.2 rows i | None => Ok st.2 end);
  Ok (relation_inputs, output_inputs).

Definition get_output_index (p : Plan) (table : Name) : res nat :=
  match list_find (λ o, out_table o = table) (plan_outputs p) with Some (i, _) => Ok i | None => Panic "called `Option::unwrap()` on a `None` value" end.

Section execution.
Context {PL : Polars}.

Definition execute_relation (p : Plan) (chunk : Chunk) (outs : list RowList) (idx_input : nat * RowList) : res (list RowList) :=
  if decide (idx_input.2 = ∅) then Ok outs else
  rel ← slice_get (plan_relations p) idx_input.1;
  o ← get_output_index p (output_table rel);
  _ ← slice_get outs o;
  rows ← rel_eval rel chunk idx_input.2;
  slice_update outs o (λ set, Ok (set ∪ list_to_set rows)).

(** The row lists of the outputs after the scans and the relations. *)
Definition plan_select (p : Plan) (chunk : Chunk) : res (list RowList) :=
  let chunk := chunk_with_defaults (plan_tables p) chunk in
  '(relation_inputs, output_inputs) ← fold_res (execute_scan chunk) (plan_scans p)
     (replicate (length (plan_relations p)) ∅, replicate (length (plan_outputs p)) ∅);
  fold_res (execute_relation p chunk) (imap pair relation_inputs) output_inputs.
End execution.
