(* ===== verification/QueryPlanSpec.v ===== *)
(** * Plans select what they say

    The rows a plan selects for an output, as a set; that the execution of scans and relations
    computes exactly that set, and that [simplify] does not change it. *)
From stdpp Require Import gmap sorting.
From S2P Require Import Prelude Bytes Ranges QueryStack QueryArrow QueryPred QueryPredSpec QueryScanSpec QueryRel QueryRelSpec QueryPlan.

(** ** Helpers *)

(** A fold that only adds marks. *)
Lemma fold_res_marks {S B K} (inv : S → Prop) (marked : S → K → Prop) (P : B → K → Prop) (f : S → B → res S) l :
  (∀ s x, x ∈ l → inv s → ∃ s', f s x = Ok s' ∧ inv s' ∧ ∀ k, marked s' k ↔ marked s k ∨ P x k) →
  ∀ s, inv s → ∃ s', fold_res f l s = Ok s' ∧ inv s' ∧ ∀ k, marked s' k ↔ marked s k ∨ ∃ x, x ∈ l ∧ P x k.
Proof.
  induction l as [|x l IH]; intros Hf s Hs; cbn [fold_res].
  - exists s. do 2 (split; [done|]). intros k. split; [by left|]. intros [?|(y & Hy & _)]; [done|by apply elem_of_nil in Hy].
  - destruct (Hf s x) as (s1 & -> & Hs1 & H1); [lmem|done|]. cbn [mbind res_bind]. destruct (IH) with (s := s1) as (s2 & E & Hs2 & H2); [|done|].
    { intros s' y Hy. apply Hf. by right. }
    exists s2. do 2 (split; [done|]). intros k. rewrite H2, H1. split.
    + intros [[?|?]|(y & Hy & HP)]; [by left|right; exists x; split; [lmem|done]|right; exists y; split; [by right|done]].
    + intros [?|(y & Hy & HP)]; [by left; left|]. apply elem_of_cons in Hy as [->|Hy]; [by left; right|right; eauto].
Qed.

Lemma slice_get_Some {A} (l : list A) i a : slice_get l i = Ok a ↔ l !! i = Some a.
Proof. unfold slice_get. destruct (l !! i); split; intros E; by simplify_eq. Qed.

Lemma slice_update_ok {A} (l : list A) i f a a' : l !! i = Some a → f a = Ok a' → slice_update l i f = Ok (<[i := a']> l).
Proof. intros Hi Hf. unfold slice_update. rewrite (proj2 (slice_get_Some l i a) Hi). cbn [mbind res_bind]. by rewrite Hf. Qed.

(** ** Indexes of tables *)

Definition names (ts : TableSet) : list Name := table_name <$> ts.

Lemma get_index_Ok ts name i : NoDup (names ts) → get_index ts name = Ok i ↔ names ts !! i = Some name.
Proof.
  intros Hn. unfold get_index, names in *. rewrite list_lookup_fmap. destruct (list_find (λ t, table_name t = name) ts) as [[k t]|] eqn:E.
  - apply list_find_Some in E as (Hk & Ht & _). split.
    + intros Ei. simplify_eq. rewrite Hk. cbn. done.
    + intros Hi. f_equal. rewrite NoDup_alt in Hn. apply (Hn k i name); rewrite list_lookup_fmap; [rewrite Hk; cbn; by rewrite Ht|done].
  - apply list_find_None in E. split; [done|]. intros Hi. destruct (ts !! i) as [t|] eqn:Et; [|done]. cbn in Hi. simplify_eq.
    rewrite Forall_forall in E. exfalso. apply (E t); [by eapply list_elem_of_lookup_2|done].
Qed.

Lemma get_index_elem ts name : NoDup (names ts) → name ∈ names ts → ∃ i, get_index ts name = Ok i ∧ names ts !! i = Some name.
Proof. intros Hn Hin. apply list_elem_of_lookup in Hin as [i Hi]. exists i. by rewrite get_index_Ok. Qed.

Lemma get_output_index_eq p name : out_table <$> plan_outputs p = names (plan_tables p) →
  ∀ i, get_output_index p name = Ok i ↔ get_index (plan_tables p) name = Ok i.
Proof.
  unfold get_output_index, get_index, names. generalize (plan_tables p), (plan_outputs p). intros ts os E. revert os E.
  induction ts as [|t ts IH]; intros [|o os] E i; try done. cbn [fmap list_fmap list_find] in *. injection E as Eh Et. rewrite Eh.
  destruct (decide (table_name t = name)); [done|]. specialize (IH os Et). destruct (list_find _ os) as [[k x]|], (list_find _ ts) as [[k' x']|]; cbn.
  - destruct (IH k) as [IH1 _]. specialize (IH1 eq_refl). simplify_eq. done.
  - destruct (IH k) as [IH1 _]. by specialize (IH1 eq_refl).
  - destruct (IH k') as [_ IH1]. by specialize (IH1 eq_refl).
  - done.
Qed.

(** ** Well-formed plans *)

Definition scan_wf (b : PlanBuilder) (s : PlanScan) : Prop :=
  ps_table s ∈ names (plan_tables b) ∧
  (∀ i, ps_output s = Some i → get_index (plan_tables b) (ps_table s) = Ok i) ∧
  ∀ r, r ∈ ps_relations s → ∃ rel, plan_relations b !! r = Some rel ∧ input_table rel = ps_table s.

Record plan_wf (b : PlanBuilder) : Prop := mkPlanWf {
  pw_outputs : out_table <$> plan_outputs b = names (plan_tables b);
  pw_names : NoDup (names (plan_tables b));
  pw_scans s : s ∈ plan_scans b → scan_wf b s;
  pw_relations rel : rel ∈ plan_relations b → input_table rel ∈ names (plan_tables b) ∧ output_table rel ∈ names (plan_tables b)
}.

(** ** What plans select *)

Definition all_rows (n : nat) : RowList := list_to_set (Z.of_nat <$> seq 0 n).
Definition table_rows (T : gmap Name RecordBatch) (name : Name) : RowList := match T !! name with Some full => all_rows (rb_num_rows full) | None => ∅ end.
Definition scan_rows (T : gmap Name RecordBatch) (s : PlanScan) : RowList :=
  match T !! ps_table s with Some full => list_to_set (Z.of_nat <$> picked_rows (ps_predicate s) full None) | None => ∅ end.
(** The rows the scans put into the input of relation [r]. *)
Definition rel_input (T : gmap Name RecordBatch) (scans : list PlanScan) (r : nat) : RowList :=
  ⋃ (scan_rows T <$> filter (λ s, r ∈ ps_relations s) scans).
(** Row [j] is selected for output [o]. *)
Definition plan_rows (T : gmap Name RecordBatch) (b : PlanBuilder) (o j : nat) : Prop :=
  (∃ s, s ∈ plan_scans b ∧ ps_output s = Some o ∧ Z.of_nat j ∈ scan_rows T s) ∨
  ∃ r rel, plan_relations b !! r = Some rel ∧ get_index (plan_tables b) (output_table rel) = Ok o ∧ rel_rows T rel (rel_input T (plan_scans b) r) j.

Lemma elem_all_rows n z : z ∈ all_rows n ↔ 0 <= z < Z.of_nat n.
Proof.
  unfold all_rows. rewrite elem_of_list_to_set, list_elem_of_fmap. split; [intros (i & -> & Hi); apply elem_of_seq in Hi; lia|].
  intros Hz. exists (Z.to_nat z). rewrite elem_of_seq. lia.
Qed.

Lemma elem_rel_input T scans r z : z ∈ rel_input T scans r ↔ ∃ s, s ∈ scans ∧ r ∈ ps_relations s ∧ z ∈ scan_rows T s.
Proof.
  unfold rel_input. rewrite elem_of_union_list. split.
  - intros (X & HX & Hz). apply list_elem_of_fmap in HX as (s & -> & Hs). apply list_elem_of_filter in Hs as [Hr Hs]. eauto.
  - intros (s & Hs & Hr & Hz). exists (scan_rows T s). split; [|done]. by apply list_elem_of_fmap_2, list_elem_of_filter.
Qed.

Lemma scan_rows_table T s z : z ∈ scan_rows T s → z ∈ table_rows T (ps_table s).
Proof.
  unfold scan_rows, table_rows. destruct (T !! ps_table s) as [full|]; [|done]. rewrite elem_of_list_to_set, list_elem_of_fmap. intros (i & -> & Hi).
  unfold picked_rows in Hi. apply list_elem_of_filter in Hi as [_ Hi]. apply elem_of_seq in Hi. apply elem_all_rows. lia.
Qed.

Lemma scan_rows_full T s : ps_predicate s = None → scan_rows T s = table_rows T (ps_table s).
Proof. intros Hp. unfold scan_rows, table_rows. destruct (T !! ps_table s) as [full|]; [|done]. by rewrite Hp, picked_rows_none. Qed.

Lemma selected_table fo ok fi ik input j : selected fo ok fi ik input j → Z.of_nat j ∈ all_rows (rb_num_rows fo).
Proof. intros [Hj _]. apply elem_all_rows. lia. Qed.

Lemma rel_rows_table T rel input j : rel_rows T rel input j → Z.of_nat j ∈ table_rows T (output_table rel).
Proof.
  unfold table_rows. destruct rel as [it ik ot ok|it ik ot ok|it ik ot ok|t key|t key]; cbn [rel_rows output_table].
  - intros (fi & fo & _ & -> & Hs). by eapply selected_table.
  - intros (fi & fo & _ & -> & [Hs|(p & _ & Hj & _)]); [by eapply selected_table|apply elem_all_rows; lia].
  - intros (fi & fo & _ & -> & c & _ & Hj & _). apply elem_all_rows. lia.
  - intros (f & -> & i & _ & Hj & _). apply elem_all_rows. lia.
  - intros (f & -> & i & _ & Hj & _). apply elem_all_rows. lia.
Qed.

(** No input rows, no output rows. *)
Lemma rel_rows_empty T rel j : ¬ rel_rows T rel ∅ j.
Proof.
  assert (∀ z : Z, z ∉ (∅ : RowList)) as Hn by set_solver. destruct rel; cbn [rel_rows]; unfold selected; naive_solver.
Qed.

(** ** Execution *)

(** The rows in a list of row lists. *)
Definition listed (ls : list RowList) (i : nat) (z : Z) : Prop := ∃ set, ls !! i = Some set ∧ z ∈ set.

Lemma slice_extend ls i rows f : (i < length ls)%nat → (∀ set, f set = Ok (set ∪ rows)) →
  ∃ ls', slice_update ls i f = Ok ls' ∧ length ls' = length ls ∧ ∀ k z, listed ls' k z ↔ listed ls k z ∨ k = i ∧ z ∈ rows.
Proof.
  intros Hi Hf. destruct (lookup_lt_is_Some_2 ls i Hi) as [set Hs]. exists (<[i := set ∪ rows]> ls). rewrite (slice_update_ok ls i f set (set ∪ rows)) by done.
  split; [done|]. rewrite length_insert. split; [done|]. intros k z. unfold listed. destruct (decide (k = i)) as [->|Hne].
  - rewrite list_lookup_insert_eq by done. rewrite Hs. split; [intros (? & E & Hz); simplify_eq; apply elem_of_union in Hz as [?|?]; eauto|].
    intros [(? & E & Hz)|[_ Hz]]; simplify_eq; eexists; (split; [done|]); set_solver.
  - rewrite list_lookup_insert_ne by done. split; [by left|]. by intros [?|[? _]].
Qed.

Lemma listed_replicate n k z : ¬ listed (replicate n ∅) k z.
Proof. intros (set & Hs & Hz). apply lookup_replicate in Hs as [-> _]. set_solver. Qed.

Section exec.
Context {PL : Polars} {PLL : PolarsLaws}.
Context (T : gmap Name RecordBatch) (chunk : Chunk) (Hchunk : chunk_ok chunk T).

(** The predicate of a scan can be evaluated on its table and reads at least one column. *)
Definition scan_pred_ok (s : PlanScan) : Prop :=
  ∃ full, T !! ps_table s = Some full ∧ opt_pred_ok full (ps_predicate s) ∧
    (is_Some (ps_predicate s) → rb_columns (keep_columns (read_columns (ps_predicate s) (Some ∅)) full) ≠ []).

Lemma chunk_with_defaults_ok ts : (∀ name full, T !! name = Some full → ∃ t, ts_get ts name = Ok t) → chunk_ok (chunk_with_defaults ts chunk) T.
Proof.
  intros Hts name full Ht. destruct (Hchunk name full Ht) as (s & Es & [HR Hp Hpr Hs Hx]). destruct (Hts name full Ht) as [t Et].
  unfold chunk_with_defaults. rewrite Es. cbn [mbind res_bind]. rewrite Et. cbn [mbind res_bind]. eexists. split; [done|].
  destruct (decide _); by split.
Qed.

(** The rows of a scan, as it adds them to a row list. *)
Lemma scan_reads s : scan_pred_ok s → ∃ scan bs, chunk (ps_table s) = Ok scan ∧
  scan_execute (with_predicate (with_columns (with_row_index scan true) []) (ps_predicate s)) = Ok bs ∧
  ∀ set, extend_from_record_batch_vec set bs = Ok (set ∪ scan_rows T s).
Proof.
  intros (full & Ht & Hp & Hc). destruct (Hchunk _ _ Ht) as (scan & Es & [HR Hp0 Hpr Hs Hx]). exists scan.
  unfold scan_execute, with_predicate, with_columns, with_row_index, with_projection. cbn [scan_projection]. rewrite Hpr. cbn [reader predicate scan_projection row_selection row_index default_null_columns].
  rewrite Hs. destruct (reader_read (r := reader scan) (ps_predicate s) (Some (list_to_set [])) None true (default_null_columns scan)) as (bs & E & _ & Hbs); [done|done| |].
  { destruct (ps_predicate s); [right; by apply Hc|by left]. }
  destruct (Hbs eq_refl) as (is_ & Eis & His). exists bs. do 2 (split; [done|]). intros set. unfold extend_from_record_batch_vec. rewrite Eis. cbn [mbind res_bind].
  unfold scan_rows. by rewrite Ht, His.
Qed.

Definition exec_inv (nr no : nat) (st : list RowList * list RowList) : Prop := length st.1 = nr ∧ length st.2 = no.
Definition exec_marked (st : list RowList * list RowList) (k : (nat + nat) * Z) : Prop :=
  match k.1 with inl r => listed st.1 r k.2 | inr o => listed st.2 o k.2 end.
Definition scan_marks (s : PlanScan) (k : (nat + nat) * Z) : Prop :=
  k.2 ∈ scan_rows T s ∧ match k.1 with inl r => r ∈ ps_relations s | inr o => ps_output s = Some o end.

Lemma execute_scan_spec nr no st s : scan_pred_ok s → Forall (λ r, (r < nr)%nat) (ps_relations s) → (∀ o, ps_output s = Some o → (o < no)%nat) → exec_inv nr no st →
  ∃ st', execute_scan chunk st s = Ok st' ∧ exec_inv nr no st' ∧ ∀ k, exec_marked st' k ↔ exec_marked st k ∨ scan_marks s k.
Proof.
  intros Hp Hr Ho [H1 H2]. destruct (scan_reads s Hp) as (scan & bs & Es & Eb & Hset). unfold execute_scan. rewrite Es. cbn [mbind res_bind]. rewrite Eb. cbn [mbind res_bind].
  destruct (fold_res_marks (λ ls, length ls = nr) (λ ls k, listed ls k.1 k.2) (λ r k, k.1 = r ∧ k.2 ∈ scan_rows T s) (λ ls i, extend_at ls bs i) (ps_relations s))
    with (s := st.1) as (ls & -> & Hl & Hm); [|done|].
  { intros ls r Hin Hls. rewrite Forall_forall in Hr. destruct (slice_extend ls r (scan_rows T s) (λ rows, extend_from_record_batch_vec rows bs)) as (ls' & E & Hl & Hm).
    - rewrite Hls. by apply Hr.
    - done.
    - exists ls'. split; [done|]. split; [by rewrite Hl|]. intros [k z]. apply Hm. }
  cbn [mbind res_bind].
  assert (∃ os, (match ps_output s with Some i => extend_at st.2 bs i | None => Ok st.2 end) = Ok os ∧ length os = no ∧
    ∀ o z, listed os o z ↔ listed st.2 o z ∨ ps_output s = Some o ∧ z ∈ scan_rows T s) as (os & -> & Hos & Hom).
  { destruct (ps_output s) as [o|].
    - destruct (slice_extend st.2 o (scan_rows T s) (λ rows, extend_from_record_batch_vec rows bs)) as (os & E & Hl' & Hm'); [rewrite H2; by apply Ho|done|].
      exists os. split; [done|]. split; [by rewrite Hl'|]. intros o' z. rewrite Hm'. naive_solver.
    - exists st.2. do 2 (split; [done|]). naive_solver. }
  cbn [mbind res_bind]. exists (ls, os). split; [done|]. split; [done|]. intros [[r|o] z]; unfold exec_marked, scan_marks; cbn [fst snd].
  - rewrite (Hm (r, z)). cbn [fst snd]. naive_solver.
  - rewrite Hom. naive_solver.
Qed.
(** What the execution of a plan relies on. *)
Record plan_ok (b : PlanBuilder) : Prop := mkPlanOk {
  po_wf : plan_wf b;
  po_tables name full : T !! name = Some full → name ∈ names (plan_tables b);
  po_scans s : s ∈ plan_scans b → scan_pred_ok s;
  po_relations rel : rel ∈ plan_relations b → rel_ok T rel
}.

Lemma names_length b : plan_wf b → length (plan_outputs b) = length (names (plan_tables b)).
Proof. intros Hw. by rewrite <-(pw_outputs b Hw), length_fmap. Qed.

Lemma index_bound b name o : plan_wf b → get_index (plan_tables b) name = Ok o → (o < length (plan_outputs b))%nat.
Proof.
  intros Hw E. apply get_index_Ok in E; [|apply (pw_names b Hw)]. rewrite (names_length b Hw). by eapply lookup_lt_Some.
Qed.

Lemma rel_input_ok b r rel : plan_wf b → plan_relations b !! r = Some rel → input_ok T rel (rel_input T (plan_scans b) r).
Proof.
  intros Hw Hr f Hf z Hz. apply elem_rel_input in Hz as (s & Hs & Hrs & Hz). destruct (pw_scans b Hw s Hs) as (_ & _ & Hrel). destruct (Hrel r Hrs) as (rel' & Hr' & Hin).
  simplify_eq. apply scan_rows_table in Hz. unfold table_rows in Hz. rewrite <-Hin, Hf in Hz. by apply elem_all_rows in Hz.
Qed.

Definition rel_marks (b : PlanBuilder) (x : nat * RowList) (k : nat * Z) : Prop :=
  ∃ rel j, plan_relations b !! x.1 = Some rel ∧ get_index (plan_tables b) (output_table rel) = Ok k.1 ∧ k.2 = Z.of_nat j ∧ rel_rows T rel x.2 j.

Lemma execute_relation_spec b outs r rel : plan_ok b → plan_relations b !! r = Some rel → length outs = length (plan_outputs b) →
  ∃ outs', execute_relation b chunk outs (r, rel_input T (plan_scans b) r) = Ok outs' ∧ length outs' = length (plan_outputs b) ∧
    ∀ k, listed outs' k.1 k.2 ↔ listed outs k.1 k.2 ∨ rel_marks b (r, rel_input T (plan_scans b) r) k.
Proof.
  intros [Hw Htab Hsc Hrl] Hr Hl. unfold execute_relation, rel_marks. cbn [fst snd]. destruct (decide _) as [E|Hne].
  - exists outs. do 2 (split; [done|]). intros k. split; [by left|]. intros [?|(rel' & j & _ & _ & _ & Hj)]; [done|]. rewrite E in Hj. by apply rel_rows_empty in Hj.
  - rewrite (proj2 (slice_get_Some _ _ _) Hr). cbn [mbind res_bind]. assert (rel ∈ plan_relations b) as Hin by (by eapply list_elem_of_lookup_2).
    destruct (pw_relations b Hw rel Hin) as [_ Hout]. destruct (get_index_elem _ _ (pw_names b Hw) Hout) as (o & Eo & Ho).
    rewrite (proj2 (get_output_index_eq b (output_table rel) (pw_outputs b Hw) o) Eo). cbn [mbind res_bind].
    assert (o < length outs)%nat as Hlt by (rewrite Hl; by eapply index_bound). destruct (lookup_lt_is_Some_2 outs o Hlt) as [set Hset].
    rewrite (proj2 (slice_get_Some _ _ _) Hset). cbn [mbind res_bind].
    destruct (rel_eval_spec chunk T Hchunk rel (rel_input T (plan_scans b) r)) as (rows & -> & Hrows); [by apply Hrl|by apply (rel_input_ok b)|]. cbn [mbind res_bind].
    destruct (slice_extend outs o (list_to_set rows) (λ set, Ok (set ∪ list_to_set rows))) as (outs' & E & Hl' & Hm); [done|done|].
    exists outs'. split; [done|]. split; [by rewrite Hl'|]. intros [k z]. cbn [fst snd]. rewrite Hm, elem_of_list_to_set, Hrows. split.
    + intros [?|[-> (j & -> & Hj)]]; [by left|]. right. eauto 6.
    + intros [?|(rel' & j & Hr' & Ek & -> & Hj)]; [by left|]. right. rewrite Hr in Hr'. injection Hr' as <-. rewrite Eo in Ek. injection Ek as <-. eauto.
Qed.
End exec.

Section select.
Context {PL : Polars} {PLL : PolarsLaws}.
Context (T : gmap Name RecordBatch) (chunk : Chunk) (Hchunk : chunk_ok chunk T).

(** The execution computes the rows the plan selects. *)
Lemma plan_select_spec b : plan_ok T b → ∃ outs, plan_select b chunk = Ok outs ∧ length outs = length (plan_outputs b) ∧
  ∀ o z, listed outs o z ↔ ∃ j, z = Z.of_nat j ∧ plan_rows T b o j.
Proof.
  intros Hok. pose proof (po_wf T b Hok) as Hw. assert (chunk_ok (chunk_with_defaults (plan_tables b) chunk) T) as Hc.
  { apply chunk_with_defaults_ok; [done|]. intros name full Hn. apply (po_tables T b Hok) in Hn. destruct (get_index_elem _ _ (pw_names b Hw) Hn) as (i & Ei & Hi).
    unfold ts_get, names in *. rewrite Ei. cbn [mbind res_bind]. rewrite list_lookup_fmap in Hi. destruct (plan_tables b !! i) as [t|] eqn:Et; [|done]. exists t.
    by apply slice_get_Some. }
  unfold plan_select. set (chunk' := chunk_with_defaults _ _) in *.
  destruct (fold_res_marks (exec_inv (length (plan_relations b)) (length (plan_outputs b))) exec_marked (scan_marks T) (execute_scan chunk') (plan_scans b))
    with (s := (replicate (length (plan_relations b)) (∅ : RowList), replicate (length (plan_outputs b)) (∅ : RowList))) as ([ri oi] & -> & [Hl1 Hl2] & Hm).
  { intros st s Hs Hinv. destruct (pw_scans b Hw s Hs) as (_ & Ho & Hr). apply execute_scan_spec; [done|by apply (po_scans T b Hok)| | |done].
    - apply Forall_forall. intros r Hin. destruct (Hr r Hin) as (rel & Hrel & _). by eapply lookup_lt_Some.
    - intros o Eo. by eapply index_bound, Ho. }
  { split; apply length_replicate. }
  cbn [mbind res_bind fst snd] in *.
  assert (∀ r set, ri !! r = Some set → set = rel_input T (plan_scans b) r) as Hri.
  { intros r set Hset. apply set_eq. intros z. rewrite elem_rel_input. specialize (Hm (inl r, z)). unfold exec_marked, scan_marks in Hm. cbn [fst snd] in Hm.
    assert (listed ri r z ↔ z ∈ set) as <- by (unfold listed; naive_solver). rewrite Hm. split; [|naive_solver]. intros [Hn|?]; [by apply listed_replicate in Hn|naive_solver]. }
  destruct (fold_res_marks (λ outs, length outs = length (plan_outputs b)) (λ outs k, listed outs k.1 k.2) (rel_marks T b) (execute_relation b chunk') (imap pair ri))
    with (s := oi) as (outs & E & Hl & Hmo); [|done|].
  { intros os x Hin Hlen. apply elem_of_lookup_imap in Hin as (r & set & -> & Hr). rewrite (Hri _ _ Hr).
    destruct (lookup_lt_is_Some_2 (plan_relations b) r) as [rel Hrel]; [rewrite <-Hl1; by eapply lookup_lt_Some|]. by apply (execute_relation_spec T chunk' Hc b os r rel). }
  exists outs. split; [done|]. split; [done|]. intros o z. specialize (Hmo (o, z)). cbn [fst snd] in Hmo. rewrite Hmo. specialize (Hm (inr o, z)). unfold exec_marked, scan_marks in Hm. cbn [fst snd] in Hm.
  rewrite Hm. unfold plan_rows. split.
  - intros [[Hn|(s & Hs & Hz & Ho)]|(x & Hin & rel & j & Hr & Eo & Ez & Hj)]; [by apply listed_replicate in Hn| |].
    + pose proof (scan_rows_table T s z Hz) as Ht. unfold table_rows in Ht. destruct (T !! ps_table s); [|set_solver]. apply elem_all_rows in Ht.
      exists (Z.to_nat z). split; [lia|]. left. exists s. rewrite Z2Nat.id by lia. done.
    + apply elem_of_lookup_imap in Hin as (r & set & -> & Hr'). cbn [fst snd] in *. subst z. exists j. split; [done|]. right. exists r, rel. by rewrite <-(Hri _ _ Hr').
  - intros (j & -> & [(s & Hs & Ho & Hz)|(r & rel & Hr & Eo & Hj)]); [left; right; eauto|]. right.
    destruct (lookup_lt_is_Some_2 ri r) as [set Hset]; [rewrite Hl1; by eapply lookup_lt_Some|]. exists (r, set). split; [apply elem_of_lookup_imap; eauto|].
    exists rel, j. cbn [fst snd]. by rewrite (Hri _ _ Hset).
Qed.
End select.

(** ** Marks *)

Definition fills (b : PlanBuilder) (s : PlanScan) (o : nat) : Prop :=
  ps_predicate s = None ∧ (ps_output s = Some o ∨ ∃ r rel, r ∈ ps_relations s ∧ plan_relations b !! r = Some rel ∧
    is_full_rel (plan_tables b) rel = Ok true ∧ get_index (plan_tables b) (output_table rel) = Ok o).
Definition feeds (s : PlanScan) (r : nat) : Prop := ps_predicate s = None ∧ r ∈ ps_relations s.
Definition full_output (b : PlanBuilder) (o : nat) : Prop := ∃ s, s ∈ plan_scans b ∧ fills b s o.
Definition full_input (b : PlanBuilder) (r : nat) : Prop := ∃ s, s ∈ plan_scans b ∧ feeds s r.

Definition flagged (st : flags) (k : nat + nat) : Prop := match k with inl o => st.1 !! o = Some true | inr r => st.2 !! r = Some true end.
Definition flags_inv (b : PlanBuilder) (st : flags) : Prop := length st.1 = length (plan_outputs b) ∧ length st.2 = length (plan_relations b).

Lemma slice_flag (l : list bool) i : (i < length l)%nat →
  ∃ l', slice_update l i (λ _, Ok true) = Ok l' ∧ length l' = length l ∧ ∀ k, l' !! k = Some true ↔ l !! k = Some true ∨ k = i.
Proof.
  intros Hi. destruct (lookup_lt_is_Some_2 l i Hi) as [x Hx]. exists (<[i := true]> l). rewrite (slice_update_ok l i _ x true) by done. split; [done|].
  rewrite length_insert. split; [done|]. intros k. destruct (decide (k = i)) as [->|Hne]; [rewrite list_lookup_insert_eq by done; naive_solver|].
  rewrite list_lookup_insert_ne by done. naive_solver.
Qed.

Lemma is_full_rel_Ok b rel : plan_wf b → rel ∈ plan_relations b → ∃ f, is_full_rel (plan_tables b) rel = Ok f.
Proof.
  intros Hw Hin. destruct (pw_relations b Hw rel Hin) as [Hi _]. destruct rel as [it ik ot ok|it ik ot ok|it ik ot ok|t k|t k]; cbn [is_full_rel input_table] in *; [|by eexists..].
  destruct (get_index_elem _ _ (pw_names b Hw) Hi) as (i & Ei & Hi'). unfold ts_get. rewrite Ei. cbn [mbind res_bind]. unfold names in Hi'. rewrite list_lookup_fmap in Hi'.
  destruct (plan_tables b !! i) as [t|] eqn:Et; [|done]. rewrite (proj2 (slice_get_Some _ _ _) Et). by eexists.
Qed.

Lemma mark_relation_spec b st r : plan_wf b → (r < length (plan_relations b))%nat → flags_inv b st →
  ∃ st', mark_relation b st r = Ok st' ∧ flags_inv b st' ∧ ∀ k, flagged st' k ↔ flagged st k ∨
    match k with inl o => ∃ rel, plan_relations b !! r = Some rel ∧ is_full_rel (plan_tables b) rel = Ok true ∧ get_index (plan_tables b) (output_table rel) = Ok o | inr r' => r' = r end.
Proof.
  intros Hw Hr [H1 H2]. unfold mark_relation. destruct (slice_flag st.2 r) as (R & -> & HR & Hm); [lia|]. cbn [mbind res_bind].
  destruct (lookup_lt_is_Some_2 _ _ Hr) as [rel Hrel]. rewrite (proj2 (slice_get_Some _ _ _) Hrel). cbn [mbind res_bind].
  assert (rel ∈ plan_relations b) as Hin by (by eapply list_elem_of_lookup_2). destruct (is_full_rel_Ok b rel Hw Hin) as [f Ef]. rewrite Ef. cbn [mbind res_bind]. destruct f.
  - destruct (pw_relations b Hw rel Hin) as [_ Hout]. destruct (get_index_elem _ _ (pw_names b Hw) Hout) as (o & Eo & Ho). rewrite Eo. cbn [mbind res_bind].
    destruct (slice_flag st.1 o) as (F & -> & HF & HmF); [rewrite H1; by eapply index_bound|]. cbn [mbind res_bind]. exists (F, R). split; [done|]. split; [by split; cbn; lia|].
    intros [o'|r']; cbn [flagged fst snd]; [rewrite HmF|apply Hm]. split; [intros [?| ->]; [by left|right; eauto]|]. intros [?|(rel' & Hr' & _ & E)]; [by left|].
    right. rewrite Hrel in Hr'. injection Hr' as <-. rewrite Eo in E. by injection E.
  - exists (st.1, R). split; [done|]. split; [by split; cbn; lia|]. intros [o'|r']; cbn [flagged fst snd]; [|apply Hm]. split; [by left|].
    intros [?|(rel' & Hr' & E & _)]; [done|]. rewrite Hrel in Hr'. injection Hr' as <-. congruence.
Qed.

Lemma mark_scan_spec b st s : plan_wf b → s ∈ plan_scans b → flags_inv b st →
  ∃ st', mark_scan b st s = Ok st' ∧ flags_inv b st' ∧ ∀ k, flagged st' k ↔ flagged st k ∨ match k with inl o => fills b s o | inr r => feeds s r end.
Proof.
  intros Hw Hs Hinv. destruct (pw_scans b Hw s Hs) as (_ & Ho & Hr). unfold mark_scan, fills, feeds. destruct (ps_predicate s) as [p|].
  { exists st. do 2 (split; [done|]). intros [?|?]; naive_solver. }
  assert (∃ F, (match ps_output s with Some i => slice_update st.1 i (λ _, Ok true) | None => Ok st.1 end) = Ok F ∧ length F = length st.1 ∧
    ∀ o, F !! o = Some true ↔ st.1 !! o = Some true ∨ ps_output s = Some o) as (F & -> & HF & HmF).
  { destruct (ps_output s) as [o|]; [|exists st.1; naive_solver]. destruct (slice_flag st.1 o) as (F & E & HF & Hm).
    - rewrite (proj1 Hinv). by eapply index_bound, Ho.
    - exists F. do 2 (split; [done|]). intros o'. rewrite Hm. naive_solver. }
  cbn [mbind res_bind].
  destruct (fold_res_marks (flags_inv b) flagged (λ r k, match k with
      | inl o => ∃ rel, plan_relations b !! r = Some rel ∧ is_full_rel (plan_tables b) rel = Ok true ∧ get_index (plan_tables b) (output_table rel) = Ok o
      | inr r' => r' = r end) (mark_relation b) (ps_relations s)) with (s := (F, st.2)) as (st' & E & Hinv' & Hm).
  { intros st0 r Hin Hi. apply mark_relation_spec; [done| |done]. destruct (Hr r Hin) as (rel & Hrel & _). by eapply lookup_lt_Some. }
  { destruct Hinv. by split; cbn; [rewrite HF|]. }
  exists st'. do 2 (split; [done|]). intros [o|r]; rewrite Hm; cbn [flagged fst snd]; [rewrite HmF|]; naive_solver.
Qed.

Lemma marks_spec b : plan_wf b → ∃ F R, fold_res (mark_scan b) (plan_scans b) (replicate (length (plan_outputs b)) false, replicate (length (plan_relations b)) false) = Ok (F, R) ∧
  length F = length (plan_outputs b) ∧ length R = length (plan_relations b) ∧ (∀ o, F !! o = Some true ↔ full_output b o) ∧ (∀ r, R !! r = Some true ↔ full_input b r).
Proof.
  intros Hw. destruct (fold_res_marks (flags_inv b) flagged (λ s k, match k with inl o => fills b s o | inr r => feeds s r end) (mark_scan b) (plan_scans b))
    with (s := (replicate (length (plan_outputs b)) false, replicate (length (plan_relations b)) false)) as ([F R] & E & [H1 H2] & Hm).
  { intros st s Hs Hi. by apply mark_scan_spec. }
  { by split; apply length_replicate. }
  assert (∀ n k, replicate n false !! k ≠ Some true) as Hn. { intros n k E'. by apply lookup_replicate in E' as [? _]. }
  exists F, R. do 3 (split; [done|]). split; intros k; [specialize (Hm (inl k))|specialize (Hm (inr k))]; cbn [flagged fst snd] in Hm; rewrite Hm; unfold full_output, full_input; naive_solver.
Qed.

(** ** Removing relations *)

Lemma index_map_ge mask : ∀ n r i, index_map n mask !! r = Some (Some i) → (n <= i)%nat.
Proof.
  induction mask as [|[] mask IH]; intros n [|r] i; cbn; try done; [apply IH|by intros [= ->]|]. intros H. apply IH in H. lia.
Qed.

Lemma index_map_inj mask : ∀ n r r' i, index_map n mask !! r = Some (Some i) → index_map n mask !! r' = Some (Some i) → r = r'.
Proof.
  induction mask as [|[] mask IH]; intros n [|r] [|r'] i; cbn; try done; intros H H'; try (f_equal; by eapply IH).
  - simplify_eq. apply index_map_ge in H'. lia.
  - simplify_eq. apply index_map_ge in H. lia.
Qed.

Lemma index_map_mask mask : ∀ n r, (mask !! r = Some true ↔ index_map n mask !! r = Some None) ∧ (mask !! r = Some false ↔ ∃ i, index_map n mask !! r = Some (Some i)).
Proof. induction mask as [|[] mask IH]; intros n [|r]; cbn; [naive_solver..| |apply IH| |apply IH]; naive_solver. Qed.

Lemma index_map_length mask : ∀ n, length (index_map n mask) = length mask.
Proof. induction mask as [|[] mask IH]; intros n; cbn; [done|by rewrite IH..]. Qed.

Lemma remove_elements_at {A} (l : list A) : ∀ mask n, length mask = length l →
  ∃ l', remove_elements l mask = Ok l' ∧ ∀ i x, l' !! i = Some x ↔ ∃ r, index_map n mask !! r = Some (Some (n + i)%nat) ∧ l !! r = Some x.
Proof.
  induction l as [|y l IH]; intros [|m mask] n Hl; try done.
  - exists []. split; [done|]. intros i x. split; [done|]. intros (r & H & _). by destruct r.
  - cbn [length] in Hl. cbn [remove_elements]. destruct m.
    + destruct (IH mask n) as (l' & -> & Hm); [lia|]. exists l'. split; [done|]. intros i x. rewrite Hm. split; [intros (r & H); by exists (S r)|]. intros ([|r] & H1 & H2); [done|by exists r].
    + destruct (IH mask (S n)) as (l' & -> & Hm); [lia|]. exists (y :: l'). split; [done|]. intros [|i] x; cbn [lookup list_lookup index_map].
      * split; [intros [= ->]; exists 0%nat; rewrite Nat.add_0_r; done|]. intros ([|r] & H1 & H2); [done|]. cbn in H1. apply index_map_ge in H1. lia.
      * rewrite Hm. replace (S n + i)%nat with (n + S i)%nat by lia. split; [intros (r & H); by exists (S r)|]. intros ([|r] & H1 & H2); [cbn in H1; simplify_eq; lia|by exists r].
Qed.

Lemma remove_elements_spec {A} (l : list A) mask : length mask = length l →
  ∃ l', remove_elements l mask = Ok l' ∧ ∀ i x, l' !! i = Some x ↔ ∃ r, index_map 0 mask !! r = Some (Some i) ∧ l !! r = Some x.
Proof. apply (remove_elements_at l mask 0). Qed.

Lemma remove_elements_length {A B} (l : list A) (k : list B) mask l' k' : length l = length k →
  remove_elements l mask = Ok l' → remove_elements k mask = Ok k' → length l' = length k'.
Proof.
  revert k mask l' k'. induction l as [|x l IH]; intros [|y k] mask l' k' Hl; try done; cbn [remove_elements]; [by intros [= <-] [= <-]|].
  destruct mask as [|m mask]; [done|]. intros (l1 & E1 & H1)%bind_Ok (k1 & E2 & H2)%bind_Ok. injection H1 as <-. injection H2 as <-.
  assert (length l1 = length k1) by (eapply IH; [by injection Hl|done|done]). destruct m; cbn; lia.
Qed.

Lemma remap_relations_spec im rels : Forall (λ r, (r < length im)%nat) rels →
  ∃ rels', remap_relations im rels = Ok rels' ∧ ∀ i, i ∈ rels' ↔ ∃ r, r ∈ rels ∧ im !! r = Some (Some i).
Proof.
  induction 1 as [|r rels Hr _ (rels' & IH1 & IH2)]; cbn [remap_relations].
  - exists []. split; [done|]. intros i. split; [by intros ?%elem_of_nil|]. intros (r & Hr & _). by apply elem_of_nil in Hr.
  - destruct (lookup_lt_is_Some_2 im r Hr) as [x Hx]. rewrite (proj2 (slice_get_Some _ _ _) Hx). cbn [mbind res_bind]. rewrite IH1. cbn [mbind res_bind]. eexists. split; [done|].
    intros i. setoid_rewrite elem_of_cons. destruct x as [k|]; [rewrite elem_of_cons|]; rewrite IH2; naive_solver.
Qed.

(** ** Retaining scans *)

Record retained (F R : list bool) (s s' : PlanScan) : Prop := mkRetained {
  rt_table : ps_table s' = ps_table s;
  rt_predicate : ps_predicate s' = ps_predicate s;
  rt_some : is_Some (ps_predicate s');
  rt_output o : ps_output s' = Some o ↔ ps_output s = Some o ∧ F !! o = Some false;
  rt_relations i : i ∈ ps_relations s' ↔ i ∈ ps_relations s ∧ R !! i = Some false
}.

Lemma retain_scan_spec F R s : (∀ o, ps_output s = Some o → (o < length F)%nat) → (∀ i, i ∈ ps_relations s → (i < length R)%nat) →
  ∃ os, retain_scan F R s = Ok os ∧ (∀ s', os = Some s' → retained F R s s') ∧
    (os = None → is_Some (ps_predicate s) → (∀ o, ps_output s = Some o → F !! o = Some true) ∧ ∀ i, i ∈ ps_relations s → R !! i = Some true).
Proof.
  intros Ho Hi. unfold retain_scan.
  assert (∃ out, (match ps_output s with Some i => full ← slice_get F i; Ok (if full : bool then None else Some i) | None => Ok None end) = Ok out ∧
    (∀ o, out = Some o ↔ ps_output s = Some o ∧ F !! o = Some false) ∧ (out = None → ∀ o, ps_output s = Some o → F !! o = Some true)) as (out & -> & Hout & Hnone).
  { destruct (ps_output s) as [o|]; [|exists None; naive_solver]. destruct (lookup_lt_is_Some_2 F o (Ho o eq_refl)) as [f Hf].
    rewrite (proj2 (slice_get_Some _ _ _) Hf). cbn [mbind res_bind]. eexists. split; [done|]. destruct f; naive_solver. }
  cbn [mbind res_bind].
  destruct (collect_map_spec (λ r, full ← slice_get R r; Ok (r, negb full)) (λ r rk, ∃ f, R !! r = Some f ∧ rk = (r, negb f)) (ps_relations s)) as (keep & -> & Hkeep).
  { intros r Hr. destruct (lookup_lt_is_Some_2 R r (Hi r Hr)) as [f Hf]. exists (r, negb f). rewrite (proj2 (slice_get_Some _ _ _) Hf). eauto. }
  cbn [mbind res_bind]. set (rels := fst <$> filter _ keep).
  assert (∀ i, i ∈ rels ↔ i ∈ ps_relations s ∧ R !! i = Some false) as Hrels.
  { unfold rels. clear -Hkeep. intros i. induction Hkeep as [|r rk l k (f & Hf & ->) _ IH]; [split; [by intros ?%elem_of_nil|by intros [?%elem_of_nil _]]|].
    rewrite filter_cons. destruct f; cbn [snd negb]; [rewrite decide_False by done|rewrite decide_True by done; rewrite fmap_cons; cbn [fst]];
      rewrite ?elem_of_cons, IH; naive_solver. }
  eexists. split; [done|]. destruct (ps_predicate s) as [p|] eqn:Ep; [|split; [done|by intros _ [? ?]]]. destruct (_ || _) eqn:E.
  - split; [|done]. intros s' [= <-]. by split; cbn.
  - split; [done|]. intros _ _. apply orb_false_iff in E as [E1 E2]. split.
    + apply Hnone. destruct out; [|done]. exfalso. apply bool_decide_eq_false in E2. by apply E2.
    + intros i Hin. assert (rels = []) as Er by (destruct rels; [done|]; cbn in E1; done). destruct (lookup_lt_is_Some_2 R i (Hi i Hin)) as [[] Hf]; [done|].
      assert (i ∈ rels) as Hin' by (by apply Hrels). rewrite Er in Hin'. by apply elem_of_nil in Hin'.
Qed.

(** ** Full scans *)

Section new_scans.
Context (ts : TableSet) (outputs : list Output) (rels : list Rel) (F R : list bool).
Context (Hnames : NoDup (names ts)) (Houts : out_table <$> outputs = names ts) (HF : length F = length outputs) (HR : length R = length rels).
Context (Hrels : ∀ rel, rel ∈ rels → input_table rel ∈ names ts).

Definition new_scan_ok (t : Name) (s : PlanScan) : Prop :=
  ps_table s = t ∧ ps_predicate s = None ∧ t ∈ names ts ∧ (∀ o, ps_output s = Some o → get_index ts t = Ok o) ∧
  ∀ i, i ∈ ps_relations s → ∃ rel, rels !! i = Some rel ∧ input_table rel = t.
Definition scan_used (s : PlanScan) : Prop := is_Some (ps_output s) ∨ ps_relations s ≠ [].
Definition new_inv (m : gmap Name PlanScan) : Prop := ∀ t s, m !! t = Some s → new_scan_ok t s ∧ scan_used s.
Definition new_marked (m : gmap Name PlanScan) (k : nat + nat) : Prop :=
  ∃ t s, m !! t = Some s ∧ match k with inl o => ps_output s = Some o | inr i => i ∈ ps_relations s end.

Lemma full_output_scan_spec m idx : (idx < length F)%nat → (new_inv m ∧ ∀ t s, m !! t = Some s → ps_relations s = []) →
  ∃ m', full_output_scan outputs F m idx = Ok m' ∧ (new_inv m' ∧ ∀ t s, m' !! t = Some s → ps_relations s = []) ∧
    ∀ k, new_marked m' k ↔ new_marked m k ∨ k = inl idx ∧ F !! idx = Some true.
Proof.
  intros Hi [Hinv Hnil]. unfold full_output_scan. destruct (lookup_lt_is_Some_2 F idx Hi) as [f Hf]. rewrite (proj2 (slice_get_Some _ _ _) Hf). cbn [mbind res_bind].
  destruct f; [|exists m; split; [done|]; split; [done|]; naive_solver]. destruct (lookup_lt_is_Some_2 outputs idx) as [o Ho]; [lia|].
  rewrite (proj2 (slice_get_Some _ _ _) Ho). cbn [mbind res_bind].
  assert (names ts !! idx = Some (out_table o)) as Hn by (by rewrite <-Houts, list_lookup_fmap, Ho).
  assert (get_index ts (out_table o) = Ok idx) as Eo by (by apply get_index_Ok).
  eexists. split; [done|]. split; [split|].
  - intros t s. rewrite lookup_insert_Some. intros [[<- <-]|[_ Hs]]; [|by apply Hinv]. split; [|left; by eexists]. do 2 (split; [done|]). split; [by eapply list_elem_of_lookup_2|]. split; [cbn; congruence|].
    intros i Hi'. by apply elem_of_nil in Hi'.
  - intros t s. rewrite lookup_insert_Some. intros [[<- <-]|[_ Hs]]; [done|by eapply Hnil].
  - intros k. unfold new_marked. split.
    + intros (t & s & Hs & Hk). apply lookup_insert_Some in Hs as [[<- <-]|[_ Hs]]; [|left; eauto]. destruct k as [o'|i]; cbn in Hk; [right; by simplify_eq|by apply elem_of_nil in Hk].
    + intros [(t & s & Hs & Hk)|[-> _]]; [|exists (out_table o); eexists; by rewrite lookup_insert_eq]. destruct (decide (t = out_table o)) as [->|Hne].
      * exists (out_table o). eexists. rewrite lookup_insert_eq. split; [done|]. destruct k as [o'|i]; cbn; [|rewrite (Hnil _ _ Hs) in Hk; by apply elem_of_nil in Hk].
        destruct (Hinv _ _ Hs) as [(_ & _ & _ & Hg & _) _]. apply Hg in Hk. congruence.
      * exists t, s. by rewrite lookup_insert_ne.
Qed.

Lemma full_input_scan_spec m idx : (idx < length R)%nat → new_inv m →
  ∃ m', full_input_scan rels R m idx = Ok m' ∧ new_inv m' ∧ ∀ k, new_marked m' k ↔ new_marked m k ∨ k = inr idx ∧ R !! idx = Some true.
Proof.
  intros Hi Hinv. unfold full_input_scan. destruct (lookup_lt_is_Some_2 R idx Hi) as [f Hf]. rewrite (proj2 (slice_get_Some _ _ _) Hf). cbn [mbind res_bind].
  destruct f; [|exists m; split; [done|]; split; [done|]; naive_solver]. destruct (lookup_lt_is_Some_2 rels idx) as [rel Hrel]; [lia|].
  rewrite (proj2 (slice_get_Some _ _ _) Hrel). cbn [mbind res_bind]. set (t0 := input_table rel). set (s0 := default _ (m !! t0)).
  assert (new_scan_ok t0 s0) as Hs0.
  { unfold s0. destruct (m !! t0) as [s|] eqn:E; [by apply Hinv|]. cbn. split; [done|]. split; [done|]. split; [apply Hrels; by eapply list_elem_of_lookup_2|].
    split; [done|]. intros i Hi'. by apply elem_of_nil in Hi'. }
  eexists. split; [done|]. split.
  - intros t s. rewrite lookup_insert_Some. intros [[<- <-]|[_ Hs]]; [|by apply Hinv]. destruct Hs0 as (H1 & H2 & H3 & H4 & H5). unfold set_relations.
    split; [|right; cbn; intros E; by apply app_eq_nil in E as [_ ?]]. do 4 (split; [done|]). cbn. intros i Hi'. apply elem_of_app in Hi' as [Hi'|Hi']; [by apply H5|]. apply list_elem_of_singleton in Hi' as ->. eauto.
  - intros k. unfold new_marked. split.
    + intros (t & s & Hs & Hk). apply lookup_insert_Some in Hs as [[<- <-]|[_ Hs]]; [|left; eauto]. unfold s0 in Hk. destruct (m !! t0) as [s|] eqn:E; cbn in Hk.
      * destruct k as [o|i]; [left; eauto|]. apply elem_of_app in Hk as [Hk|Hk]; [left; eauto|]. apply list_elem_of_singleton in Hk as ->. by right.
      * destruct k as [o|i]; [done|]. apply list_elem_of_singleton in Hk as ->. by right.
    + intros [(t & s & Hs & Hk)|[-> _]].
      * destruct (decide (t = t0)) as [->|Hne]; [|exists t, s; by rewrite lookup_insert_ne]. exists t0. eexists. rewrite lookup_insert_eq. split; [done|].
        unfold s0. rewrite Hs. cbn. destruct k as [o|i]; [done|]. apply elem_of_app. by left.
      * exists t0. eexists. rewrite lookup_insert_eq. split; [done|]. cbn. apply elem_of_app. right. lmem.
Qed.

Lemma new_scans_spec : ∃ m1 m2, fold_res (full_output_scan outputs F) (seq 0 (length F)) ∅ = Ok m1 ∧
  fold_res (full_input_scan rels R) (seq 0 (length rels)) m1 = Ok m2 ∧ new_inv m2 ∧
  (∀ o, new_marked m2 (inl o) ↔ F !! o = Some true) ∧ (∀ i, new_marked m2 (inr i) ↔ R !! i = Some true).
Proof.
  destruct (fold_res_marks (λ m, new_inv m ∧ ∀ t s, m !! t = Some s → ps_relations s = []) new_marked (λ idx k, k = inl idx ∧ F !! idx = Some true)
    (full_output_scan outputs F) (seq 0 (length F))) with (s := ∅ : gmap Name PlanScan) as (m1 & E1 & [Hinv1 _] & Hm1).
  { intros m idx Hin. apply elem_of_seq in Hin. apply full_output_scan_spec. lia. }
  { by split; intros t s; rewrite lookup_empty. }
  destruct (fold_res_marks new_inv new_marked (λ idx k, k = inr idx ∧ R !! idx = Some true) (full_input_scan rels R) (seq 0 (length rels))) with (s := m1) as (m2 & E2 & Hinv2 & Hm2).
  { intros m idx Hin. apply elem_of_seq in Hin. apply full_input_scan_spec. lia. }
  { done. }
  assert (∀ k, ¬ new_marked ∅ k) as He. { intros k (t & s & Hs & _). by rewrite lookup_empty in Hs. }
  exists m1, m2. do 3 (split; [done|]). split; intros k; rewrite Hm2, Hm1; setoid_rewrite elem_of_seq; split.
  - naive_solver.
  - intros Hk. left. right. exists k. pose proof (lookup_lt_Some _ _ _ Hk). split; [lia|done].
  - naive_solver.
  - intros Hk. right. exists k. pose proof (lookup_lt_Some _ _ _ Hk). split; [lia|done].
Qed.
End new_scans.

(** ** The simplified plan *)

(** [im] maps the relations of [b] to those of [b']. *)
Record simplified (b b' : PlanBuilder) (im : list (option nat)) : Prop := mkSimplified {
  sm_rest : b' = with_scans (with_relations b (plan_relations b')) (plan_scans b');
  sm_inj r r' i : im !! r = Some (Some i) → im !! r' = Some (Some i) → r = r';
  sm_relations i rel : plan_relations b' !! i = Some rel ↔ ∃ r, im !! r = Some (Some i) ∧ plan_relations b !! r = Some rel;
  sm_kept r rel o : plan_relations b !! r = Some rel → get_index (plan_tables b) (output_table rel) = Ok o →
    (∃ i, im !! r = Some (Some i)) ↔ ¬ full_output b o;
  sm_scan s' : s' ∈ plan_scans b' →
    (∃ s, s ∈ plan_scans b ∧ ps_table s' = ps_table s ∧ ps_predicate s' = ps_predicate s ∧ is_Some (ps_predicate s) ∧
      (∀ o, ps_output s' = Some o → ps_output s = Some o ∧ ¬ full_output b o) ∧
      ∀ i, i ∈ ps_relations s' → ∃ r, r ∈ ps_relations s ∧ im !! r = Some (Some i) ∧ ¬ full_input b r) ∨
    (ps_predicate s' = None ∧ scan_used s' ∧ ps_table s' ∈ names (plan_tables b) ∧ (∀ o, ps_output s' = Some o → full_output b o ∧ get_index (plan_tables b) (ps_table s') = Ok o) ∧
      ∀ i, i ∈ ps_relations s' → ∃ r rel, im !! r = Some (Some i) ∧ full_input b r ∧ plan_relations b !! r = Some rel ∧ input_table rel = ps_table s');
  sm_output s o : s ∈ plan_scans b → ps_output s = Some o → ¬ full_output b o →
    ∃ s', s' ∈ plan_scans b' ∧ ps_table s' = ps_table s ∧ ps_predicate s' = ps_predicate s ∧ ps_output s' = Some o;
  sm_input s r i : s ∈ plan_scans b → r ∈ ps_relations s → im !! r = Some (Some i) → ¬ full_input b r →
    ∃ s', s' ∈ plan_scans b' ∧ ps_table s' = ps_table s ∧ ps_predicate s' = ps_predicate s ∧ i ∈ ps_relations s';
  sm_full_output o : full_output b o → ∃ s', s' ∈ plan_scans b' ∧ ps_predicate s' = None ∧ ps_output s' = Some o ∧ get_index (plan_tables b) (ps_table s') = Ok o;
  sm_full_input r rel i : full_input b r → plan_relations b !! r = Some rel → im !! r = Some (Some i) →
    ∃ s', s' ∈ plan_scans b' ∧ ps_predicate s' = None ∧ i ∈ ps_relations s' ∧ ps_table s' = input_table rel
}.

Section simplify.
Context (b : PlanBuilder) (Hw : plan_wf b) (F R : list bool) (HF : length F = length (plan_outputs b)) (HR : length R = length (plan_relations b)).
Context (HFm : ∀ o, F !! o = Some true ↔ full_output b o) (HRm : ∀ r, R !! r = Some true ↔ full_input b r).

Lemma flag_false (l : list bool) (P : nat → Prop) k : (∀ k, l !! k = Some true ↔ P k) → l !! k = Some false → ¬ P k.
Proof. intros Hl Hk HP. apply Hl in HP. congruence. Qed.
Lemma flag_not (l : list bool) (P : nat → Prop) k : (∀ k, l !! k = Some true ↔ P k) → (k < length l)%nat → ¬ P k → l !! k = Some false.
Proof. intros Hl Hk HP. destruct (lookup_lt_is_Some_2 l k Hk) as [[] E]; [by apply Hl in E|done]. Qed.

Lemma remove_mask_spec : ∃ mask, collect ((λ rel, i ← get_index (plan_tables b) (output_table rel); slice_get F i) <$> plan_relations b) = Ok mask ∧
  length mask = length (plan_relations b) ∧ ∀ r rel o, plan_relations b !! r = Some rel → get_index (plan_tables b) (output_table rel) = Ok o → mask !! r = F !! o.
Proof.
  destruct (collect_map_spec (λ rel, i ← get_index (plan_tables b) (output_table rel); slice_get F i) (λ rel m, ∃ o, get_index (plan_tables b) (output_table rel) = Ok o ∧ F !! o = Some m)
    (plan_relations b)) as (mask & E & Hm).
  { intros rel Hrel. destruct (pw_relations b Hw rel Hrel) as [_ Ho]. destruct (get_index_elem _ _ (pw_names b Hw) Ho) as (o & Eo & _).
    destruct (lookup_lt_is_Some_2 F o) as [m Hm]; [rewrite HF; by eapply index_bound|]. exists m. rewrite Eo. cbn [mbind res_bind]. split; [by apply slice_get_Some|eauto]. }
  exists mask. split; [done|]. split; [by rewrite (Forall2_length _ _ _ Hm)|]. intros r rel o Hr Eo.
  destruct (Forall2_lookup_l _ _ _ _ _ Hm Hr) as (m & Hmr & o' & Eo' & Hf). rewrite Eo in Eo'. injection Eo' as <-. congruence.
Qed.

Context (mask : list bool) (Hmask : length mask = length (plan_relations b)).
Context (Hmaskm : ∀ r rel o, plan_relations b !! r = Some rel → get_index (plan_tables b) (output_table rel) = Ok o → mask !! r = F !! o).
Let im := index_map 0 mask.

Lemma remove_relations_spec : ∃ b1, remove_relations b mask = Ok b1 ∧ b1 = with_scans (with_relations b (plan_relations b1)) (plan_scans b1) ∧
  (∀ i rel, plan_relations b1 !! i = Some rel ↔ ∃ r, im !! r = Some (Some i) ∧ plan_relations b !! r = Some rel) ∧
  Forall2 (λ s s1, ∃ rs, s1 = set_relations s rs ∧ ∀ i, i ∈ rs ↔ ∃ r, r ∈ ps_relations s ∧ im !! r = Some (Some i)) (plan_scans b) (plan_scans b1).
Proof.
  unfold remove_relations. destruct (remove_elements_spec (plan_relations b) mask Hmask) as (rels & -> & Hrels). cbn [mbind res_bind].
  destruct (collect_map_spec (λ s, rs ← remap_relations im (ps_relations s); Ok (set_relations s rs))
    (λ s s1, ∃ rs, s1 = set_relations s rs ∧ ∀ i, i ∈ rs ↔ ∃ r, r ∈ ps_relations s ∧ im !! r = Some (Some i)) (plan_scans b)) as (ss & Ess & Hss).
  { intros s Hs. destruct (pw_scans b Hw s Hs) as (_ & _ & Hr). destruct (remap_relations_spec im (ps_relations s)) as (rs & Ers & Hrs).
    - apply Forall_forall. intros r Hin. destruct (Hr r Hin) as (rel & Hrel & _). unfold im. rewrite index_map_length, Hmask. by eapply lookup_lt_Some.
    - exists (set_relations s rs). rewrite Ers. eauto. }
  fold im. rewrite Ess. cbn [mbind res_bind]. eexists. split; [done|]. by split.
Qed.

(** The scans that are kept, with the scan they come from. *)
Lemma kept_scans b1 R' : remove_relations b mask = Ok b1 → remove_elements R mask = Ok R' →
  ∃ kept, collect (retain_scan F R' <$> plan_scans b1) = Ok kept ∧
    (∀ s', s' ∈ omap id kept → ∃ s, s ∈ plan_scans b ∧ ps_table s' = ps_table s ∧ ps_predicate s' = ps_predicate s ∧ is_Some (ps_predicate s) ∧
      (∀ o, ps_output s' = Some o → ps_output s = Some o ∧ ¬ full_output b o) ∧
      ∀ i, i ∈ ps_relations s' → ∃ r, r ∈ ps_relations s ∧ im !! r = Some (Some i) ∧ ¬ full_input b r) ∧
    (∀ s, s ∈ plan_scans b → is_Some (ps_predicate s) → (∃ o, ps_output s = Some o ∧ ¬ full_output b o) ∨ (∃ r i, r ∈ ps_relations s ∧ im !! r = Some (Some i) ∧ ¬ full_input b r) →
      ∃ s', s' ∈ omap id kept ∧ ps_table s' = ps_table s ∧ ps_predicate s' = ps_predicate s ∧
        (∀ o, ps_output s = Some o → ¬ full_output b o → ps_output s' = Some o) ∧
        ∀ r i, r ∈ ps_relations s → im !! r = Some (Some i) → ¬ full_input b r → i ∈ ps_relations s').
Proof.
  intros Eb1 ER. destruct remove_relations_spec as (b1' & Eb1' & _ & _ & Hss). rewrite Eb1 in Eb1'. injection Eb1' as <-.
  destruct (remove_elements_spec R mask) as (R1 & ER1 & HR'); [by rewrite HR|]. rewrite ER in ER1. injection ER1 as <-.
  assert (∀ r i, im !! r = Some (Some i) → R' !! i = R !! r) as HR1.
  { intros r i Hri. destruct (lookup_lt_is_Some_2 R r) as [x Hx]; [rewrite HR, <-Hmask, <-(index_map_length mask 0); by eapply lookup_lt_Some|].
    rewrite Hx. apply HR'. eauto. }
  assert (∀ r i, im !! r = Some (Some i) → R' !! i = Some true ↔ full_input b r) as HRt by (intros r i Hri; rewrite (HR1 r i Hri); apply HRm).
  assert (∀ s o, s ∈ plan_scans b → ps_output s = Some o → (o < length F)%nat) as Hob.
  { intros s o Hs Ho. rewrite HF. destruct (pw_scans b Hw s Hs) as (_ & Hout & _). by eapply index_bound, Hout. }
  assert (∀ s s1, s ∈ plan_scans b → (∃ rs, s1 = set_relations s rs ∧ ∀ i, i ∈ rs ↔ ∃ r, r ∈ ps_relations s ∧ im !! r = Some (Some i)) →
    ∀ i, i ∈ ps_relations s1 → (i < length R')%nat) as Hib.
  { intros s s1 Hs (rs & -> & Hrs) i Hi. cbn in Hi. apply Hrs in Hi as (r & Hr & Hri). destruct (pw_scans b Hw s Hs) as (_ & _ & Hrel). destruct (Hrel r Hr) as (rel & Hrl & _).
    destruct (lookup_lt_is_Some_2 R r) as [x Hx]; [rewrite HR; by eapply lookup_lt_Some|]. eapply lookup_lt_Some, HR'. eauto. }
  destruct (collect_map_spec (retain_scan F R') (λ s1 os, (∀ s', os = Some s' → retained F R' s1 s') ∧
    (os = None → is_Some (ps_predicate s1) → (∀ o, ps_output s1 = Some o → F !! o = Some true) ∧ ∀ i, i ∈ ps_relations s1 → R' !! i = Some true)) (plan_scans b1)) as (kept & Ek & Hk).
  { intros s1 Hs1. apply list_elem_of_lookup in Hs1 as [p Hp]. destruct (Forall2_lookup_r _ _ _ _ _ Hss Hp) as (s & Hs & Hsp). apply list_elem_of_lookup_2 in Hs.
    apply retain_scan_spec; [|by apply (Hib s)]. intros o Ho. apply (Hob s); [done|]. by destruct Hsp as (rs & -> & _). }
  exists kept. split; [done|]. split.
  - intros s' Hs'. apply list_elem_of_omap in Hs' as (os & Hos & E). cbn in E. subst os. apply list_elem_of_lookup in Hos as [p Hp].
    destruct (Forall2_lookup_r _ _ _ _ _ Hk Hp) as (s1 & Hs1 & Hret & _). destruct (Forall2_lookup_r _ _ _ _ _ Hss Hs1) as (s & Hs & rs & -> & Hrs).
    destruct (Hret s' eq_refl) as [H1 H2 H3 H4 H5]. exists s. split; [by eapply list_elem_of_lookup_2|]. split; [done|]. split; [done|]. split; [by rewrite H2 in H3|]. split.
    + intros o Ho. apply H4 in Ho as [Ho Hf]. split; [done|]. by eapply flag_false.
    + intros i Hi. apply H5 in Hi as [Hi Hf]. cbn in Hi. apply Hrs in Hi as (r & Hr & Hri). exists r. split; [done|]. split; [done|]. rewrite <-(HRt r i Hri), Hf. done.
  - intros s Hs Hp Hsome. apply list_elem_of_lookup in Hs as [p Hsp]. pose proof (list_elem_of_lookup_2 _ _ _ Hsp) as Hs. destruct (Forall2_lookup_l _ _ _ _ _ Hss Hsp) as (s1 & Hs1 & rs & -> & Hrs).
    destruct (Forall2_lookup_l _ _ _ _ _ Hk Hs1) as (os & Hos & Hret & Hnone). destruct os as [s'|].
    + destruct (Hret s' eq_refl) as [H1 H2 H3 H4 H5]. exists s'. split; [apply list_elem_of_omap; exists (Some s'); split; [by eapply list_elem_of_lookup_2|done]|].
      do 2 (split; [done|]). split.
      * intros o Ho Hf. apply H4. split; [done|]. eapply flag_not; [done|by eapply Hob|done].
      * intros r i Hr Hri Hf. apply H5. split; [apply Hrs; eauto|]. destruct (lookup_lt_is_Some_2 R' i) as [[] E]; [|by apply (HRt r i Hri) in E|done].
        eapply (Hib s); [done|eauto|]. cbn. apply Hrs. eauto.
    + exfalso. destruct (Hnone eq_refl Hp) as [Hno Hnr]. destruct Hsome as [(o & Ho & Hf)|(r & i & Hr & Hri & Hf)].
      * apply Hf, HFm, Hno, Ho.
      * apply Hf, (HRt r i Hri), Hnr. cbn. apply Hrs. eauto.
Qed.
End simplify.

Lemma assert_invariant_ok b : (∀ s i, s ∈ plan_scans b → i ∈ ps_relations s → ∃ rel, plan_relations b !! i = Some rel ∧ input_table rel = ps_table s) →
  assert_scan_relation_invariant b = Ok tt.
Proof.
  intros Hb. unfold assert_scan_relation_invariant.
  destruct (collect_map_spec (λ s, collect ((λ i, rel ← slice_get (plan_relations b) i;
    if bool_decide (input_table rel = ps_table s) then Ok tt else Panic "plan invariant violated") <$> ps_relations s)) (λ _ _, True) (plan_scans b)) as (ys & -> & _); [|done].
  intros s Hs. destruct (collect_map_spec (λ i, rel ← slice_get (plan_relations b) i;
    if bool_decide (input_table rel = ps_table s) then Ok tt else Panic "plan invariant violated") (λ _ _, True) (ps_relations s)) as (zs & -> & _); [|by eexists].
  intros i Hi. destruct (Hb s i Hs Hi) as (rel & Hrel & Hin). rewrite (proj2 (slice_get_Some _ _ _) Hrel). cbn [mbind res_bind]. rewrite bool_decide_true by done. by eexists.
Qed.

Lemma simplify_shape b : plan_wf b → ¬ Forall (λ s, is_Some (ps_predicate s)) (plan_scans b) → ∃ b' im, simplify b = Ok b' ∧ simplified b b' im.
Proof.
  intros Hw Hnone. unfold simplify. assert (forallb (λ s, bool_decide (is_Some (ps_predicate s))) (plan_scans b) = false) as ->.
  { apply not_true_iff_false. intros E. apply Hnone, Forall_forall. intros s Hs. rewrite forallb_forall in E. specialize (E s). rewrite bool_decide_eq_true in E.
    by apply E, list_elem_of_In. }
  destruct (marks_spec b Hw) as (F & R & -> & HF & HR & HFm & HRm). cbn [mbind res_bind].
  destruct (remove_mask_spec b Hw F HF) as (mask & -> & Hmask & Hmaskm). cbn [mbind res_bind].
  destruct (remove_elements_spec R mask) as (R' & ER & HR'); [by rewrite HR|]. rewrite ER. cbn [mbind res_bind].
  destruct (remove_relations_spec b Hw mask Hmask) as (b1 & Eb1 & Erest & Hrels & _). rewrite Eb1. cbn [mbind res_bind].
  destruct (kept_scans b Hw F R HF HR HFm HRm mask Hmask b1 R' Eb1 ER) as (kept & -> & Hk1 & Hk2). cbn [mbind res_bind].
  set (im := index_map 0 mask) in *. assert (plan_tables b1 = plan_tables b ∧ plan_outputs b1 = plan_outputs b) as [Et Eo] by (by rewrite Erest). rewrite Eo.
  assert (∀ i x, R' !! i = Some x ↔ ∃ r, im !! r = Some (Some i) ∧ R !! r = Some x) as HRi by exact HR'.
  assert (length R' = length (plan_relations b1)) as HlR.
  { unfold remove_relations in Eb1. apply bind_Ok in Eb1 as (rels & Er & Eb1). apply bind_Ok in Eb1 as (ss & _ & [= <-]). by eapply (remove_elements_length R (plan_relations b)). }
  destruct (new_scans_spec (plan_tables b) (plan_outputs b) (plan_relations b1) F R' (pw_names b Hw) (pw_outputs b Hw) HF HlR) as (m1 & m2 & -> & E2 & Hinv & Hmo & Hmr).
  { intros rel Hrel. apply list_elem_of_lookup in Hrel as [i Hi]. apply Hrels in Hi as (r & _ & Hr). apply (pw_relations b Hw rel). by eapply list_elem_of_lookup_2. }
  cbn [mbind res_bind]. rewrite E2. cbn [mbind res_bind].
  assert (∀ s', s' ∈ omap id kept ++ (map_to_list m2).*2 ↔ s' ∈ omap id kept ∨ ∃ t, m2 !! t = Some s') as Hscans.
  { intros s'. rewrite elem_of_app. apply or_iff_compat_l. rewrite list_elem_of_fmap. split; [intros ([t s] & -> & Hin); apply elem_of_map_to_list in Hin; eauto|].
    intros (t & Hin). exists (t, s'). by rewrite elem_of_map_to_list. }
  set (scans := omap id kept ++ (map_to_list m2).*2) in *.
  assert (∀ i r, im !! r = Some (Some i) → R' !! i = Some true ↔ full_input b r) as HRt.
  { intros i r Hri. rewrite HRi, <-HRm. split; [|eauto]. intros (r' & Hri' & Hr'). by rewrite (index_map_inj mask 0 r r' i). }
  rewrite assert_invariant_ok.
  - eexists _, im. split; [done|]. split.
    + cbn. by rewrite Erest.
    + apply index_map_inj.
    + exact Hrels.
    + intros r rel o Hr Ho. pose proof (Hmaskm r rel o Hr Ho) as Em. destruct (index_map_mask mask 0 r) as [_ Hm]. unfold im. rewrite <-Hm, Em. split; [by apply flag_false|].
      intros Hf. eapply flag_not; [done|rewrite HF; by eapply index_bound|done].
    + intros s' Hs'. apply Hscans in Hs' as [Hs'|(t & Ht)]; [left; by apply Hk1|right]. pose proof (Hinv _ _ Ht) as [(Htab & Hp & Hn & Ho & Hrel) Hused]. subst t.
      do 3 (split; [done|]). split; [intros o Hso; split; [apply HFm, Hmo; by exists (ps_table s'), s'|by apply Ho]|].
      intros i Hi. destruct (Hrel i Hi) as (rel & Hrl & Hit). apply Hrels in Hrl as (r & Hri & Hr). exists r, rel. split; [done|]. split; [|done].
      apply (HRt i r Hri), Hmr. by exists (ps_table s'), s'.
    + intros s o Hs Ho Hf. destruct (ps_predicate s) as [p|] eqn:Ep.
      * destruct (Hk2 s Hs) as (s' & Hs' & H1 & H2 & H3 & _); [by rewrite Ep|left; eauto|]. exists s'. split; [apply Hscans; by left|]. rewrite H2, Ep. do 2 (split; [done|]). by apply H3.
      * exfalso. apply Hf. exists s. split; [done|]. split; [done|]. by left.
    + intros s r i Hs Hr Hri Hf. destruct (ps_predicate s) as [p|] eqn:Ep.
      * destruct (Hk2 s Hs) as (s' & Hs' & H1 & H2 & _ & H4); [by rewrite Ep|right; eauto|]. exists s'. split; [apply Hscans; by left|]. rewrite H2, Ep. do 2 (split; [done|]). by apply (H4 r).
      * exfalso. apply Hf. exists s. split; [done|]. by split.
    + intros o Hf. apply HFm, Hmo in Hf as (t & s & Ht & Hso). exists s. pose proof (Hinv _ _ Ht) as [(Htab & Hp & Hn & Ho & Hrel) Hused]. split; [apply Hscans; right; eauto|].
      do 2 (split; [done|]). rewrite Htab. by apply Ho.
    + intros r rel i Hf Hr Hri. assert (new_marked m2 (inr i)) as (t & s & Ht & Hi) by (by apply Hmr, (HRt i r Hri)). exists s.
      pose proof (Hinv _ _ Ht) as [(Htab & Hp & Hn & Ho & Hrel) Hused]. split; [apply Hscans; right; eauto|]. do 2 (split; [done|]).
      destruct (Hrel i Hi) as (rel' & Hrl & Hit). apply Hrels in Hrl as (r' & Hri' & Hr'). rewrite (index_map_inj mask 0 r r' i) in Hr by done. rewrite Hr in Hr'. injection Hr' as ->. by rewrite Htab.
  - intros s i Hs Hi. cbn [plan_scans with_scans] in Hs. apply Hscans in Hs as [Hs|(t & Ht)].
    + destruct (Hk1 s Hs) as (s0 & Hs0 & Htab & _ & _ & _ & Hrel). destruct (Hrel i Hi) as (r & Hr & Hri & _). destruct (pw_scans b Hw s0 Hs0) as (_ & _ & Hrl).
      destruct (Hrl r Hr) as (rel & Hrr & Hit). exists rel. rewrite Htab. split; [|done]. cbn. apply Hrels. eauto.
    + pose proof (Hinv _ _ Ht) as [(Htab & _ & _ & _ & Hrel) _]. destruct (Hrel i Hi) as (rel & Hr & Hit). exists rel. by rewrite Htab.
Qed.

(** ** Simplification does not change what is selected *)

(** Referential integrity: every row of a declared child table has its parent row. *)
Definition integrity (T : gmap Name RecordBatch) (ts : TableSet) : Prop :=
  ∀ t child key fc, t ∈ ts → table_children t !! child = Some key → T !! child = Some fc →
    ∃ ft, T !! table_name t = Some ft ∧ ∀ j, (j < rb_num_rows fc)%nat → ∃ i, (i < rb_num_rows ft)%nat ∧ tmatch fc key j ft (primary_key t) i = true.
Definition is_tree (rel : Rel) : bool := match rel with Children _ _ | Parents _ _ => true | _ => false end.
(** A scan of a whole table with a relation inside the table also outputs the table. *)
Definition tree_outputs (b : PlanBuilder) : Prop :=
  ∀ s r rel, s ∈ plan_scans b → ps_predicate s = None → r ∈ ps_relations s → plan_relations b !! r = Some rel → is_tree rel = true → is_Some (ps_output s).

Section preserve.
Context (T : gmap Name RecordBatch) (b : PlanBuilder) (Hw : plan_wf b) (Hint : integrity T (plan_tables b)) (Htree : tree_outputs b).

Lemma plan_rows_table o j name : get_index (plan_tables b) name = Ok o → plan_rows T b o j → Z.of_nat j ∈ table_rows T name.
Proof.
  intros Ho. apply get_index_Ok in Ho; [|apply (pw_names b Hw)]. intros [(s & Hs & Hso & Hz)|(r & rel & Hr & Hro & Hj)].
  - destruct (pw_scans b Hw s Hs) as (_ & Hout & _). apply Hout, get_index_Ok in Hso; [|apply (pw_names b Hw)]. rewrite Ho in Hso. injection Hso as ->. by apply scan_rows_table.
  - apply get_index_Ok in Hro; [|apply (pw_names b Hw)]. rewrite Ho in Hro. injection Hro as ->. by eapply rel_rows_table.
Qed.

Lemma full_input_rows r rel : full_input b r → plan_relations b !! r = Some rel → rel_input T (plan_scans b) r = table_rows T (input_table rel).
Proof.
  intros (s & Hs & Hp & Hr) Hrel. apply set_eq. intros z. rewrite elem_rel_input. split.
  - intros (s' & Hs' & Hr' & Hz). destruct (pw_scans b Hw s' Hs') as (_ & _ & Hrl). destruct (Hrl r Hr') as (rel' & Hrel' & Hit). rewrite Hrel in Hrel'. injection Hrel' as ->.
    rewrite Hit. by apply scan_rows_table.
  - intros Hz. exists s. do 2 (split; [done|]). destruct (pw_scans b Hw s Hs) as (_ & _ & Hrl). destruct (Hrl r Hr) as (rel' & Hrel' & Hit). rewrite Hrel in Hrel'. injection Hrel' as ->.
    by rewrite scan_rows_full, <-Hit.
Qed.

Lemma scan_output_rows s o name j : s ∈ plan_scans b → ps_predicate s = None → ps_output s = Some o → get_index (plan_tables b) name = Ok o →
  Z.of_nat j ∈ table_rows T name → plan_rows T b o j.
Proof.
  intros Hs Hp Hso Ho Hj. left. exists s. do 2 (split; [done|]). rewrite scan_rows_full by done. destruct (pw_scans b Hw s Hs) as (_ & Hout & _).
  apply Hout in Hso. apply get_index_Ok in Hso, Ho; [|apply (pw_names b Hw)..]. rewrite Ho in Hso. by injection Hso as <-.
Qed.

Lemma full_output_rows o name j : full_output b o → get_index (plan_tables b) name = Ok o → Z.of_nat j ∈ table_rows T name → plan_rows T b o j.
Proof.
  intros (s & Hs & Hp & [Hso|(r & rel & Hr & Hrel & Hfull & Hro)]) Ho Hj; [by eapply (scan_output_rows s)|].
  destruct (pw_scans b Hw s Hs) as (_ & Hout & Hrl). destruct (Hrl r Hr) as (rel' & Hrel' & Hit). rewrite Hrel in Hrel'. injection Hrel' as <-.
  assert (output_table rel = name) as Hot. { apply get_index_Ok in Hro, Ho; [|apply (pw_names b Hw)..]. congruence. }
  destruct (is_tree rel) eqn:Et.
  - destruct (Htree s r rel Hs Hp Hr Hrel Et) as [o' Ho']. assert (o' = o) as ->; [|by eapply (scan_output_rows s)]. apply Hout in Ho'.
    assert (output_table rel = ps_table s) as E by (rewrite <-Hit; by destruct rel). congruence.
  - right. exists r, rel. do 2 (split; [done|]). rewrite (full_input_rows r rel) by (try done; by exists s).
    destruct rel as [it ik ot ok|it ik ot ok|it ik ot ok|t k|t k]; cbn [is_full_rel is_tree input_table output_table rel_rows] in *; try done. subst ot.
    apply bind_Ok in Hfull as (desc & Hdesc & E). injection E as E. apply andb_true_iff in E as [Eik Eok]. apply bool_decide_eq_true in Eik, Eok. subst ik.
    unfold table_rows in Hj. destruct (T !! name) as [fo|] eqn:Efo; [|set_solver]. apply elem_all_rows in Hj.
    unfold ts_get in Hdesc. apply bind_Ok in Hdesc as (i & Ei & Hdesc). apply slice_get_Some in Hdesc. apply get_index_Ok in Ei; [|apply (pw_names b Hw)].
    unfold names in Ei. rewrite list_lookup_fmap, Hdesc in Ei. injection Ei as <-.
    destruct (Hint desc name ok fo) as (ft & Eft & Hch); [by eapply list_elem_of_lookup_2|done|done|]. exists ft, fo. do 2 (split; [done|]). split; [lia|].
    destruct (Hch j) as (i' & Hi' & Hm); [lia|]. exists i'. split; [|done]. unfold table_rows. rewrite Eft. apply elem_all_rows. lia.
Qed.

Lemma full_dec o r : (full_output b o ∨ ¬ full_output b o) ∧ (full_input b r ∨ ¬ full_input b r).
Proof.
  destruct (marks_spec b Hw) as (F & R & _ & _ & _ & HF & HR). rewrite <-HF, <-HR. split; [destruct (decide (F !! o = Some true))|destruct (decide (R !! r = Some true))]; auto.
Qed.

Context (b' : PlanBuilder) (im : list (option nat)) (Hsm : simplified b b' im).

Lemma scan_rows_same s s' : ps_table s' = ps_table s → ps_predicate s' = ps_predicate s → scan_rows T s' = scan_rows T s.
Proof. intros H1 H2. unfold scan_rows. by rewrite H1, H2. Qed.

Lemma simplified_input r i rel : im !! r = Some (Some i) → plan_relations b !! r = Some rel → rel_input T (plan_scans b') i = rel_input T (plan_scans b) r.
Proof.
  intros Hri Hrel. apply set_eq. intros z. destruct (proj2 (full_dec 0 r)) as [Hf|Hf].
  - rewrite (full_input_rows r rel Hf Hrel). rewrite elem_rel_input. split.
    + intros (s' & Hs' & Hi & Hz). destruct (sm_scan b b' im Hsm s' Hs') as [(s & _ & _ & _ & _ & _ & Hr)|(Hp & _ & _ & _ & Hr)].
      * destruct (Hr i Hi) as (r' & _ & Hri' & Hf'). by rewrite (sm_inj b b' im Hsm r' r i) in Hf'.
      * destruct (Hr i Hi) as (r' & rel' & Hri' & _ & Hrel' & Hit). rewrite (sm_inj b b' im Hsm r' r i), Hrel in Hrel' by done. injection Hrel' as ->.
        rewrite Hit. by apply scan_rows_table.
    + intros Hz. destruct (sm_full_input b b' im Hsm r rel i Hf Hrel Hri) as (s' & Hs' & Hp & Hi & Ht). exists s'. rewrite scan_rows_full by done. by rewrite Ht.
  - rewrite !elem_rel_input. split.
    + intros (s' & Hs' & Hi & Hz). destruct (sm_scan b b' im Hsm s' Hs') as [(s & Hs & Ht & Hp & _ & _ & Hr)|(_ & _ & _ & _ & Hr)].
      * destruct (Hr i Hi) as (r' & Hrs & Hri' & Hf'). rewrite (sm_inj b b' im Hsm r' r i) in Hrs by done. exists s. by rewrite <-(scan_rows_same s s').
      * destruct (Hr i Hi) as (r' & rel' & Hri' & Hf' & _). by rewrite (sm_inj b b' im Hsm r' r i) in Hf'.
    + intros (s & Hs & Hr & Hz). destruct (sm_input b b' im Hsm s r i Hs Hr Hri Hf) as (s' & Hs' & Ht & Hp & Hi). exists s'. by rewrite (scan_rows_same s s').
Qed.

Lemma simplified_tables : plan_tables b' = plan_tables b ∧ plan_outputs b' = plan_outputs b.
Proof. rewrite (sm_rest b b' im Hsm). done. Qed.

Lemma simplified_wf : plan_wf b'.
Proof.
  destruct simplified_tables as [Et Eo]. split; rewrite ?Et, ?Eo; [apply Hw|apply Hw| |].
  - intros s' Hs'. unfold scan_wf. rewrite Et. destruct (sm_scan b b' im Hsm s' Hs') as [(s & Hs & Ht & _ & _ & Ho & Hr)|(_ & _ & Hn & Ho & Hr)].
    + destruct (pw_scans b Hw s Hs) as (Hn & Hout & Hrl). rewrite Ht. split; [done|]. split; [intros o Hso; by apply Hout, Ho|].
      intros i Hi. destruct (Hr i Hi) as (r & Hrs & Hri & _). destruct (Hrl r Hrs) as (rel & Hrel & Hit). exists rel. split; [apply (sm_relations b b' im Hsm); eauto|done].
    + split; [done|]. split; [intros o Hso; by apply Ho|]. intros i Hi. destruct (Hr i Hi) as (r & rel & Hri & _ & Hrel & Hit). exists rel.
      split; [apply (sm_relations b b' im Hsm); eauto|done].
  - intros rel Hrel. apply list_elem_of_lookup in Hrel as [i Hi]. apply (sm_relations b b' im Hsm) in Hi as (r & _ & Hr). apply (pw_relations b Hw). by eapply list_elem_of_lookup_2.
Qed.
Lemma simplified_rows o j : plan_rows T b' o j ↔ plan_rows T b o j.
Proof.
  destruct simplified_tables as [Et Eo]. split.
  - intros [(s' & Hs' & Hso & Hz)|(i & rel & Hi & Ho & Hj)].
    + destruct (sm_scan b b' im Hsm s' Hs') as [(s & Hs & Ht & Hp & _ & Hout & _)|(Hp & _ & _ & Hout & _)].
      * left. exists s. destruct (Hout o Hso). by rewrite <-(scan_rows_same s s').
      * destruct (Hout o Hso) as [Hf Hg]. eapply full_output_rows; [done|exact Hg|]. by apply scan_rows_table.
    + apply (sm_relations b b' im Hsm) in Hi as (r & Hri & Hr). right. exists r, rel. rewrite Et in Ho. by rewrite <-(simplified_input r i rel).
  - intros Hj. destruct (proj1 (full_dec o 0)) as [Hf|Hf].
    + destruct (sm_full_output b b' im Hsm o Hf) as (s' & Hs' & Hp & Hso & Hg). left. exists s'. do 2 (split; [done|]). rewrite scan_rows_full by done. by eapply plan_rows_table.
    + destruct Hj as [(s & Hs & Hso & Hz)|(r & rel & Hr & Ho & Hj)].
      * destruct (sm_output b b' im Hsm s o Hs Hso Hf) as (s' & Hs' & Ht & Hp & Hso'). left. exists s'. by rewrite (scan_rows_same s s').
      * destruct (proj2 (sm_kept b b' im Hsm r rel o Hr Ho) Hf) as [i Hri]. right. exists i, rel. rewrite Et. split; [apply (sm_relations b b' im Hsm); eauto|].
        by rewrite (simplified_input r i rel).
Qed.
End preserve.

Lemma rel_ok_tables T rel : rel_ok T rel → is_Some (T !! input_table rel) ∧ is_Some (T !! output_table rel).
Proof. destruct rel as [it ik ot ok|it ik ot ok|it ik ot ok|t k|t k]; cbn [rel_ok input_table output_table]; naive_solver. Qed.

Lemma simplified_ok T b b' im : plan_ok T b → simplified b b' im → plan_ok T b'.
Proof.
  intros Hok Hsm. pose proof (po_wf T b Hok) as Hw. destruct (simplified_tables b b' im Hsm) as [Et Eo]. split; [by eapply (simplified_wf b)|rewrite Et; apply Hok| |].
  - intros s' Hs'. destruct (sm_scan b b' im Hsm s' Hs') as [(s & Hs & Ht & Hp & _)|(Hp & Hused & Hn & Ho & Hr)].
    + destruct (po_scans T b Hok s Hs) as (full & Hf & H). exists full. by rewrite Ht, Hp.
    + assert (is_Some (T !! ps_table s') ∨ ps_output s' = None ∧ ps_relations s' = []) as [[full Hf]|[Hno Hnr]].
      * destruct (ps_output s') as [o|] eqn:Eso.
        -- left. destruct (Ho o eq_refl) as [(s & Hs & _ & [Hso|(r & rel & Hrs & Hrel & _ & Hro)]) Hg].
           ++ destruct (pw_scans b Hw s Hs) as (_ & Hout & _). apply Hout in Hso. assert (ps_table s' = ps_table s) as ->.
              { apply get_index_Ok in Hso, Hg; [|apply (pw_names b Hw)..]. congruence. }
              destruct (po_scans T b Hok s Hs) as (full & Hf & _). by eexists.
           ++ assert (ps_table s' = output_table rel) as ->. { apply get_index_Ok in Hro, Hg; [|apply (pw_names b Hw)..]. congruence. }
              apply rel_ok_tables, (po_relations T b Hok). by eapply list_elem_of_lookup_2.
        -- destruct (ps_relations s') as [|i is_] eqn:Er; [by right|left]. destruct (Hr i) as (r & rel & _ & _ & Hrel & <-); [lmem|].
           apply rel_ok_tables, (po_relations T b Hok). by eapply list_elem_of_lookup_2.
      * exists full. split; [done|]. rewrite Hp. split; [done|by intros [? ?]].
      * exfalso. destruct Hused as [[? ?]|?]; congruence.
  - intros rel Hrel. apply list_elem_of_lookup in Hrel as [i Hi]. apply (sm_relations b b' im Hsm) in Hi as (r & _ & Hr). apply (po_relations T b Hok). by eapply list_elem_of_lookup_2.
Qed.

(** ** Building *)

Lemma simplify_spec T b : plan_ok T b → integrity T (plan_tables b) → tree_outputs b →
  ∃ b', simplify b = Ok b' ∧ plan_ok T b' ∧ plan_tables b' = plan_tables b ∧ plan_outputs b' = plan_outputs b ∧ ∀ o j, plan_rows T b' o j ↔ plan_rows T b o j.
Proof.
  intros Hok Hint Htree. pose proof (po_wf T b Hok) as Hw. destruct (decide (Forall (λ s, is_Some (ps_predicate s)) (plan_scans b))) as [Hall|Hsome].
  - exists b. split; [|done]. unfold simplify. rewrite (proj2 (forallb_forall _ _)); [done|]. intros s Hs. apply bool_decide_eq_true. rewrite Forall_forall in Hall.
    by apply Hall, list_elem_of_In.
  - destruct (simplify_shape b Hw Hsome) as (b' & im & E & Hsm). exists b'. split; [done|]. split; [by eapply (simplified_ok T b)|].
    destruct (simplified_tables b b' im Hsm) as [Et Eo]. do 2 (split; [done|]). intros o j. by eapply (simplified_rows T b).
Qed.

Lemma set_output_weights_wf b : plan_wf b → ∃ os, set_output_weights b = Ok (with_outputs b os) ∧ length os = length (plan_outputs b) ∧ plan_wf (with_outputs b os).
Proof.
  intros Hw. unfold set_output_weights.
  match goal with |- context [collect (?f <$> _)] => destruct (collect_map_spec f (λ o o', out_table o' = out_table o) (plan_outputs b)) as (os & -> & Hos) end.
  { intros o Ho. assert (out_table o ∈ names (plan_tables b)) as Hn by (rewrite <-(pw_outputs b Hw); by apply list_elem_of_fmap_2).
    destruct (get_index_elem _ _ (pw_names b Hw) Hn) as (i & Ei & Hi). unfold names in Hi. rewrite list_lookup_fmap in Hi. destruct (plan_tables b !! i) as [t|] eqn:Et; [|done].
    unfold ts_get. rewrite Ei. cbn [mbind res_bind]. rewrite (proj2 (slice_get_Some _ _ _) Et). cbn [mbind res_bind]. eexists. by split. }
  cbn [mbind res_bind]. exists os. split; [done|]. split; [by rewrite (Forall2_length _ _ _ Hos)|].
  assert (out_table <$> os = out_table <$> plan_outputs b) as Eos by (induction Hos as [|o o' l l' E _ IH]; [done|]; by rewrite !fmap_cons, E, IH).
  destruct Hw as [H1 H2 H3 H4]. split; [change (out_table <$> os = names (plan_tables b)); by rewrite Eos|done..].
Qed.

Lemma set_output_weights_spec T b : plan_ok T b → ∃ p, set_output_weights b = Ok p ∧ plan_ok T p ∧ length (plan_outputs p) = length (plan_outputs b) ∧
  ∀ o j, plan_rows T p o j ↔ plan_rows T b o j.
Proof.
  intros Hok. destruct (set_output_weights_wf b (po_wf T b Hok)) as (os & E & Hl & Hw). exists (with_outputs b os). split; [done|]. split; [|done].
  destruct Hok as [_ H5 H6 H7]. by split.
Qed.

(** A well-formed builder builds a well-formed plan of the same tables. *)
Lemma plan_build_wf b : plan_wf b → ∃ p, plan_build b = Ok p ∧ plan_wf p ∧ plan_tables p = plan_tables b.
Proof.
  intros Hw. unfold plan_build. assert (∃ b', simplify b = Ok b' ∧ plan_wf b' ∧ plan_tables b' = plan_tables b) as (b' & -> & Hw' & <-).
  { destruct (decide (Forall (λ s, is_Some (ps_predicate s)) (plan_scans b))) as [Hall|Hsome].
    - exists b. split; [|done]. unfold simplify. rewrite (proj2 (forallb_forall _ _)); [done|]. intros s Hs. apply bool_decide_eq_true. rewrite Forall_forall in Hall.
      by apply Hall, list_elem_of_In.
    - destruct (simplify_shape b Hw Hsome) as (b' & im & E & Hsm). exists b'. split; [done|]. split; [by eapply (simplified_wf b)|apply (simplified_tables b b' im Hsm)]. }
  cbn [mbind res_bind]. destruct (set_output_weights_wf b' Hw') as (os & -> & _ & Hwo). eauto.
Qed.

Section build.
Context {PL : Polars} {PLL : PolarsLaws}.

(** A built plan is executed without failure and fills each output with exactly the rows that
    its scans and relations name. *)
Lemma plan_execution_spec T chunk b : chunk_ok chunk T → plan_ok T b → integrity T (plan_tables b) → tree_outputs b →
  ∃ p outs, plan_build b = Ok p ∧ plan_select p chunk = Ok outs ∧ length outs = length (plan_outputs b) ∧
    ∀ o z, listed outs o z ↔ ∃ j, z = Z.of_nat j ∧ plan_rows T b o j.
Proof.
  intros Hchunk Hok Hint Htree. destruct (simplify_spec T b Hok Hint Htree) as (b1 & E1 & Hok1 & Et1 & Eo1 & Hr1).
  destruct (set_output_weights_spec T b1 Hok1) as (p & Ep & Hokp & Hl & Hr2). destruct (plan_select_spec T chunk Hchunk p Hokp) as (outs & Es & Hlo & Hrows).
  exists p, outs. unfold plan_build. rewrite E1. cbn [mbind res_bind]. do 2 (split; [done|]). split; [by rewrite Hlo, Hl, Eo1|].
  intros o z. rewrite Hrows. setoid_rewrite Hr2. by setoid_rewrite Hr1.
Qed.
End build.

(** ** Execution of built plans *)

(** C9: A query plan built from scans and relations, simplified by [simplify] and executed on
    a chunk, returns, and lists for every output exactly the rows the plan as written asks for:
    the rows its scans pick and the rows its relations derive from them.  Replacing scans and
    relations by full table scans never changes the answer when every child row has its parent
    and scans with tree relations output their table. *)
Theorem plan_execution_exact {PL : Polars} {PLL : PolarsLaws} T chunk b :
  chunk_ok chunk T → plan_ok T b → integrity T (plan_tables b) → tree_outputs b →
  ∃ p outs, plan_build b = Ok p ∧ plan_select p chunk = Ok outs ∧ length outs = length (plan_outputs b) ∧
    ∀ o z, listed outs o z ↔ ∃ j, z = Z.of_nat j ∧ plan_rows T b o j.
Proof. apply plan_execution_spec. Qed.
