(* ===== verification/QueryOutput.v ===== *)
(** * Query output (crates/query/src/plan/plan.rs, sort.rs, result.rs, json_writer.rs)

    The last phase of a query: the rows of the outputs are weighed, the blocks that fit the
    response are chosen, and the chosen rows are written block by block as JSON. *)
From stdpp Require Import gmap sorting.
From S2P Require Import Prelude Bytes Ranges QueryStack QueryArrow QueryPred QueryRel QueryPlan.

(** ** Choosing blocks (plan.rs, [execute_output]) *)

(** A row of an output: its index, its block and its weight; null weights are left out of sums. *)
Record orow : Type := mkORow { or_index : Z; or_block : Z; or_weight : option Z }.
(** A block and its weight. *)
Abbreviation bweight := (Z * option Z)%type.

(** The polars expressions of [execute_output]. *)
Class PolarsBlocks : Type := {
  (* select([row_index, col(key).alias(block_number), (lit(w) + col(c1) + ...).alias(weight)]) *)
  weigh_rows : Z → list Name → Name → frame → res (list orow);
  (* concat, group_by(block_number).agg(sum(weight)) *)
  sum_by_block : list (list bweight) → res (list (Z * Z));
  (* left_join on block_number, weight + weight_right *)
  add_weights : list bweight → list (Z * Z) → res (list bweight);
  (* sort(block_number), cum_sum(weight) *)
  cumulate : list bweight → res (list bweight);
  (* filter(weight <= limit) *)
  filter_weight : Z → list bweight → res (list Z)
}.

Definition oweight (w : option Z) : Z := default 0 w.
Definition total (rows : list bweight) : Z := foldr Z.add 0 ((λ r : bweight, oweight r.2) <$> rows).
Definition weight_in (rows : list bweight) (n : Z) : Z := total (filter (λ r, r.1 = n) rows).
(** Weights are unsigned, and their sum is a [u64]. *)
Definition weights_ok (rows : list bweight) : Prop := Forall (λ r : bweight, 0 <= oweight r.2) rows ∧ total rows < 2 ^ 64.
Definition null_add (a b : option Z) : option Z := match a, b with Some x, Some y => Some (x + y) | _, _ => None end.
(** Running sums; a null stays null. *)
Fixpoint running (acc : Z) (rows : list bweight) : list bweight :=
  match rows with
  | [] => []
  | (n, Some w) :: rows => (n, Some (acc + w)) :: running (acc + w) rows
  | (n, None) :: rows => (n, None) :: running acc rows
  end.
Definition block_le (x y : bweight) : Prop := x.1 <= y.1.
#[export] Instance block_le_dec : RelDecision block_le := λ x y, decide (x.1 <= y.1).
Definition within (limit : Z) (r : bweight) : bool := match r.2 with Some w => w <=? limit | None => false end.
Definition cell_int (c : option cell) : option Z := match c with Some (CInt z) => Some z | _ => None end.
Definition weight_at (ws : list (Z * Z)) (n : Z) : option Z := snd <$> head (filter (λ x, x.1 = n) ws).

Class PolarsBlocksLaws `{PolarsBlocks} : Prop := {
  weigh_rows_spec w cs key f : has_columns f ("row_index" :: key :: cs) →
    weigh_rows w cs key f = Ok ((λ r, mkORow (int_cell (get "row_index" r)) (int_cell (get key r))
      (fold_left (λ acc c, null_add acc (cell_int (get c r))) cs (Some w))) <$> fr_rows f);
  sum_by_block_spec ls : weights_ok (mjoin ls) →
    ∃ out, sum_by_block ls = Ok out ∧ NoDup out.*1 ∧ (∀ n, n ∈ out.*1 ↔ n ∈ (mjoin ls).*1) ∧ ∀ n w, (n, w) ∈ out → w = weight_in (mjoin ls) n;
  add_weights_spec l r : NoDup r.*1 → Forall (λ x : bweight, oweight x.2 + oweight (weight_at r x.1) < 2 ^ 64) l →
    ∃ out, add_weights l r = Ok out ∧ out ≡ₚ (λ x, (x.1, null_add x.2 (weight_at r x.1))) <$> l;
  cumulate_spec rows : weights_ok rows → ∃ sorted, sorted ≡ₚ rows ∧ StronglySorted block_le sorted ∧ cumulate rows = Ok (running 0 sorted);
  filter_weight_spec limit rows : filter_weight limit rows = Ok (fst <$> filter (λ r, within limit r = true) rows)
}.

(** [min("block_number")] and [max("block_number")] *)
Definition min_block (l : list Z) : Z := foldr Z.min (hd 0 l) l.
Definition max_block (l : list Z) : Z := foldr Z.max (hd 0 l) l.
Definition weights (rows : list orow) : list bweight := (λ r, (or_block r, or_weight r)) <$> rows.

(** [20 * 1024 * 1024] *)
Definition package_limit : Z := 20 * 1024 * 1024.

Section choose.
Context {PB : PolarsBlocks}.

(** The weights of the blocks that may be returned. *)
Definition block_weights (include_all : bool) (header : list orow) (items : list (list orow)) : res (list bweight) :=
  let item_union := map weights (filter (λ rows : list orow, rows ≠ []) items) in
  if include_all then
    ws ← sum_by_block (item_union ++ [weights header]);
    Ok (map (λ x : Z * Z, (x.1, Some x.2)) ws)
  else
    let numbers := or_block <$> header in
    item_stats ← sum_by_block (item_union ++ [[(min_block numbers, Some 0); (max_block numbers, Some 0)]]);
    add_weights (weights header) item_stats.

(** [selected_blocks] and [last_block] *)
Definition select_blocks (include_all : bool) (header : list orow) (items : list (list orow)) : res (list Z * Z) :=
  ws ← block_weights include_all header items;
  package ← cumulate ws;
  selected ← filter_weight package_limit package;
  let selected := match selected with [] => take 1 package.*1 | _ => selected end in
  match last selected with
  | Some n => Ok (selected, n)
  | None => Panic "called `Option::unwrap()` on a `None` value"
  end.

(** The rows of output [idx] that are returned. *)
Definition returned_rows (include_all : bool) (idx : nat) (selected : list Z) (last_block : Z) (rows : list orow) : list orow :=
  if (idx =? 0)%nat && negb include_all
  then filter (λ r, or_block r ∈ selected) rows
  else filter (λ r, or_block r <= last_block) rows.
End choose.

(** [get_block_number_predicate] *)
Definition block_scalar (n : Z) : scalar := mkScalar DUInt64 (CInt n).
Definition get_block_number_predicate (p : Plan) (output_idx : nat) : res (option RowPredicate) :=
  o ← slice_get (plan_outputs p) output_idx;
  column ← slice_get (out_key o) 0;
  Ok (match first_block p, last_block p with
      | Some fst, Some lst => Some (col_between column (block_scalar fst) (block_scalar lst))
      | None, Some lst => Some (col_lt_eq column (block_scalar lst))
      | Some fst, None => Some (col_gt_eq column (block_scalar fst))
      | None, None => None
      end).

Section output.
Context {PB : PolarsBlocks}.

(** The first pass over an output: its rows with block and weight. *)
Definition weighed_rows (p : Plan) (chunk : Chunk) (idx : nat) (row_list : RowList) : res (list orow) :=
  output ← slice_get (plan_outputs p) idx;
  key ← slice_get (out_key output) 0;
  if negb (idx =? 0)%nat && bool_decide (row_list = ∅) then Ok [] else
  sel ← (if (idx =? 0)%nat then Ok None else s ← from_sorted_indexes (sorted_rows row_list); Ok (Some s));
  scan ← chunk (out_table output);
  predicate ← get_block_number_predicate p idx;
  bs ← scan_execute (with_columns (with_column (with_row_index (with_predicate (with_row_selection scan sel) predicate) true) key) (weight_columns output));
  match bs with
  | [] => Ok []
  | _ => weigh_rows (weight_per_row output) (weight_columns output) key (batches_frame bs)
  end.

(** The second pass: the records of the rows that are returned. *)
Definition output_records (p : Plan) (chunk : Chunk) (idx : nat) (rows : list orow) : res (list RecordBatch) :=
  output ← slice_get (plan_outputs p) idx;
  sel ← from_sorted_indexes (or_index <$> rows);
  scan ← chunk (out_table output);
  scan_execute (with_projection (with_row_selection scan (Some sel)) (out_projection output)).

(** [execute_output]: the records of each output that has rows, [None] when there is no block. *)
Definition execute_output (p : Plan) (chunk : Chunk) (output_inputs : list RowList) : res (option (list (option (list RecordBatch)))) :=
  rows ← collect (imap (λ idx row_list, weighed_rows p chunk idx row_list) output_inputs);
  header_rows ← slice_get rows 0;
  if decide (header_rows = []) then Ok None else
  '(selected, last) ← select_blocks (include_all_blocks p) header_rows (tail rows);
  records ← collect (imap (λ idx rows, if decide (rows = []) then Ok None else
    bs ← output_records p chunk idx (returned_rows (include_all_blocks p) idx selected last rows); Ok (Some bs)) rows);
  Ok (Some records).
End output.

(** ** The parent block (plan.rs, [check_parent_block]) *)

Definition saturating_sub (a b : Z) : Z := Z.max 0 (a - b).
(** A block number and a hash. *)
Abbreviation BlockRef := (Z * string)%type.
Record UnexpectedBaseBlock : Type := mkUnexpected { prev_blocks : list BlockRef; expected_hash : string }.

Definition ref_le (a b : BlockRef) : Prop := a.1 <= b.1.
#[export] Instance ref_le_dec : RelDecision ref_le := λ a b, decide (a.1 <= b.1).

(** The cast to u64 gives null for other numbers. *)
Definition parent_ref (has_parent_number : bool) (number_col : Name) (r : frow) : res BlockRef :=
  match get number_col r with
  | Some (CInt z) =>
      if (0 <=? z) && (z <? 2 ^ 64) then
        Ok (if has_parent_number then z else saturating_sub z 1, match get "parent_hash" r with Some (CStr s) => s | _ => "" end)
      else Panic "block number can't be null according to the predicate applied"
  | _ => Panic "block number can't be null according to the predicate applied"
  end.

(** The column with the parents' numbers, or the blocks' own, and the last number of interest. *)
Definition parent_window (has_parent_number : bool) (block_number : Z) : Name * Z :=
  if has_parent_number then ("parent_number", saturating_sub block_number 1) else ("number", block_number).
Definition parent_predicate (has_parent_number : bool) (block_number : Z) : RowPredicate :=
  let w := parent_window has_parent_number block_number in
  col_between w.1 (block_scalar (saturating_sub block_number 100)) (block_scalar w.2).

Definition check_parent_block (p : Plan) (chunk : Chunk) : res (option UnexpectedBaseBlock) :=
  match parent_block_hash p, first_block p with
  | None, _ => Ok None
  | Some _, None => Err (EMsg "invalid plan: parent block hash is specified, but block number is not available")
  | Some parent_hash, Some block_number =>
      o ← slice_get (plan_outputs p) 0;
      scan ← chunk (out_table o);
      let has_parent_number := bool_decide ("parent_number" ∈ (reader_schema (reader scan)).*1) in
      let number_col := (parent_window has_parent_number block_number).1 in
      df ← to_lazy_df (with_predicate (with_column (with_column scan number_col) "parent_hash") (Some (parent_predicate has_parent_number block_number)));
      if bool_decide (has_columns df [number_col; "parent_hash"]) then
        refs ← collect (parent_ref has_parent_number number_col <$> fr_rows df);
        let refs := merge_sort ref_le refs in
        match last refs with
        | None => Err (EMsg "block is not present in the chunk")
        | Some parent_block => Ok (if decide (parent_block.2 = parent_hash) then None else Some (mkUnexpected refs parent_hash))
        end
      else Err (EMsg "not found")
  end.

(** [PlanExecution::execute] *)
Inductive execution : Type := Mismatch (e : UnexpectedBaseBlock) | Records (records : option (list (option (list RecordBatch)))).
Definition plan_execute {PL : Polars} {PB : PolarsBlocks} (p : Plan) (chunk : Chunk) : res execution :=
  mismatch ← check_parent_block p (chunk_with_defaults (plan_tables p) chunk);
  match mismatch with
  | Some e => Ok (Mismatch e)
  | None =>
      output_inputs ← plan_select p chunk;
      records ← execute_output p (chunk_with_defaults (plan_tables p) chunk) output_inputs;
      Ok (Records records)
  end.

(** ** Sorting rows by key (sort.rs) *)

Abbreviation Position := (nat * nat)%type.

(** What the keys of key.rs read from a cell, as a list that compares like the value: a number,
    the bytes of a string, the items of a list. *)
Definition cell_key (c : option cell) : bytes :=
  match c with Some (CInt z) => [z] | Some (CStr s) => str_bytes s | Some (CInts l) => l | _ => [] end.

(** [Column]: one array per batch. *)
Abbreviation Column := (list array).
Definition column_value (c : Column) (p : Position) : bytes := match c !! p.1 with Some a => cell_key (nth p.2 (arr_cells a) None) | None => [] end.
Definition compare_positions (c : Column) (a b : Position) : comparison := bytes_cmp (column_value c a) (column_value c b).
(** [Cons] *)
Definition cons_compare (h t : Position → Position → comparison) (a b : Position) : comparison := match h a b with Eq => t a b | o => o end.
(** [ColumnList] *)
Fixpoint column_list_compare (cs : list Column) (a b : Position) : comparison :=
  match cs with [] => Eq | c :: cs => match compare_positions c a b with Eq => column_list_compare cs a b | o => o end end.

Definition key_type_ok (ty : DataType) : bool :=
  match ty with
  | DInt false 16 | DInt false 32 | DInt false 64 | DInt true 32 | DInt true 64 | DUtf8 => true
  | DList (DInt true 32) | DList (DInt false 32) | DList (DInt false 16) => true
  | _ => false
  end.
(** [batch.column(idx)] of every batch. *)
Definition batch_columns (bs : list RecordBatch) (idx : nat) : res Column := collect ((λ b, c ← slice_get (rb_columns b) idx; Ok c.2) <$> bs).
Definition get_column (bs : list RecordBatch) (idx : nat) (ty : DataType) : res Column :=
  if key_type_ok ty then batch_columns bs idx else Err (EMsg "unsupported key column type").

(** [TableKey::new]: the index and the type of every key column. *)
Definition table_key_new (b : RecordBatch) (key : list Name) : res (list (nat * DataType)) :=
  collect ((λ name, match list_find (λ c, c.1 = name) (rb_columns b) with
                    | Some (i, c) => Ok (i, arr_type c.2)
                    | None => Err (EMsg "key column is not found in result")
                    end) <$> key).

Definition cmp_le (cmp : Position → Position → comparison) (a b : Position) : Prop := cmp a b ≠ Gt.
#[export] Instance cmp_le_dec cmp : RelDecision (cmp_le cmp).
Proof. intros a b. unfold cmp_le. apply _. Defined.
Definition sort_positions (cmp : Position → Position → comparison) (positions : list Position) : list Position := merge_sort (cmp_le cmp) positions.

Definition all_positions (bs : list RecordBatch) : list Position := mjoin (imap (λ idx b, (λ pos, (idx, pos)) <$> seq 0 (rb_num_rows b)) bs).

Definition sort_by_columns (bs : list RecordBatch) (k : list (nat * DataType)) : res (list Position) :=
  cs ← collect ((λ it, get_column bs it.1 it.2) <$> k);
  Ok (sort_positions (column_list_compare cs) (all_positions bs)).

Definition compute_order (bs : list RecordBatch) (key : list Name) : res (list Position) :=
  match bs with
  | [] => Ok []
  | b :: _ =>
      k ← table_key_new b key;
      match k with
      | [(i, ty)] => c ← get_column bs i ty; Ok (sort_positions (compare_positions c) (all_positions bs))
      | [(i, t1); (j, t2)] =>
          if decide (t1 = DInt32 ∧ t2 = DInt32) then
            c1 ← batch_columns bs i; c2 ← batch_columns bs j;
            Ok (sort_positions (cons_compare (compare_positions c1) (compare_positions c2)) (all_positions bs))
          else sort_by_columns bs k
      | [(i, t1); (j, t2); (l, t3)] =>
          if decide (t1 = DInt32 ∧ t2 = DInt32 ∧ (t3 = DList DInt32 ∨ t3 = DList DUInt32)) then
            c1 ← batch_columns bs i; c2 ← batch_columns bs j; c3 ← batch_columns bs l;
            Ok (sort_positions (cons_compare (compare_positions c1) (cons_compare (compare_positions c2) (compare_positions c3))) (all_positions bs))
          else sort_by_columns bs k
      | _ => sort_by_columns bs k
      end
  end.

(** ** Data items (result.rs) *)

Definition comma : Z := 44.
Definition json_close (end_ : Z) (out : bytes) : res bytes :=
  match last out with
  | None => Panic "attempt to subtract with overflow"
  | Some c => Ok (if c =? comma then take (length out - 1) out ++ [end_] else out ++ [end_])
  end.

(** An encoder appends the JSON of a row (json/encoder/mod.rs). *)
Abbreviation EncoderObject := (nat → res bytes).

Record DataItem : Type := mkDataItem {
  di_prop : bytes;
  di_block_numbers : list (list Z);
  di_encoders : list EncoderObject;
  di_order : list Position;
  di_size : Z;
  di_pos : nat;
  is_block_header : bool
}.
Definition set_pos (d : DataItem) (pos : nat) : DataItem :=
  mkDataItem (di_prop d) (di_block_numbers d) (di_encoders d) (di_order d) (di_size d) pos (is_block_header d).

(** [self.block_numbers[pos.0].value(pos.1)] *)
Definition block_of (d : DataItem) (p : Position) : res Z := ns ← slice_get (di_block_numbers d) p.1; slice_get ns p.2.
Definition encode_at (d : DataItem) (p : Position) (out : bytes) : res bytes := e ← slice_get (di_encoders d) p.1; json ← e p.2; Ok (out ++ json).

Definition get_block_at (d : DataItem) (idx : nat) : res (option Z) :=
  match di_order d !! idx with Some p => n ← block_of d p; Ok (Some n) | None => Ok None end.
Definition get_current_block (d : DataItem) : res (option Z) := get_block_at d (di_pos d).

Definition write_header (d : DataItem) (out : bytes) : res (DataItem * bytes) :=
  let out := out ++ (34 :: str_bytes "header" ++ [34; 58]) in
  p ← slice_get (di_order d) (di_pos d);
  out ← encode_at d p out;
  Ok (set_pos d (S (di_pos d)), out ++ [comma]).

(** The loop of [write_items]; the order bounds its steps. *)
Fixpoint write_rows (fuel : nat) (d : DataItem) (block_number : Z) (out : bytes) : res (DataItem * bytes) :=
  match fuel with
  | O => Ok (d, out)
  | S fuel =>
      if (di_pos d <? length (di_order d))%nat then
        p ← slice_get (di_order d) (di_pos d);
        n ← block_of d p;
        if n =? block_number then
          out ← encode_at d p out;
          write_rows fuel (set_pos d (S (di_pos d))) block_number (out ++ [comma])
        else Ok (d, out)
      else Ok (d, out)
  end.

Definition write_items (d : DataItem) (block_number : Z) (out : bytes) : res (DataItem * bytes) :=
  cur ← get_current_block d;
  if bool_decide (cur = Some block_number) then
    '(d, out) ← write_rows (length (di_order d)) d block_number (out ++ di_prop d ++ [91]);
    out ← json_close 93 out;
    Ok (d, out ++ [comma])
  else Ok (d, out).

(** [BlockWriter::new]: the assertion on the first item. *)
Definition block_writer_new (items : list DataItem) : res (list DataItem) :=
  match items with
  | d :: _ => if is_block_header d then Ok items else Panic "assertion failed: items[0].is_block_header"
  | [] => Panic "assertion failed: items.len() > 0"
  end.
Definition data_size (items : list DataItem) : Z := foldr Z.add 0 (di_size <$> items).
Definition writer_first_block (items : list DataItem) : res Z :=
  d ← slice_get items 0; n ← get_block_at d 0; match n with Some n => Ok n | None => Panic "called `Option::unwrap()` on a `None` value" end.
Definition num_blocks (items : list DataItem) : res nat := d ← slice_get items 0; Ok (length (di_order d)).
Definition has_next_block (items : list DataItem) : res bool := d ← slice_get items 0; cur ← get_current_block d; Ok (bool_decide (is_Some cur)).

Definition write_next_block (items : list DataItem) (out : bytes) : res (list DataItem * bytes) :=
  match items with
  | [] => Panic "index out of bounds"
  | h :: items =>
      cur ← get_current_block h;
      match cur with
      | None => Panic "called `Option::unwrap()` on a `None` value"
      | Some block_number =>
          '(h, out) ← write_header h (out ++ [123]);
          '(items, out) ← fold_res (λ st d, '(d, out) ← write_items d block_number st.2; Ok (st.1 ++ [d], out)) items ([], out);
          out ← json_close 125 out;
          Ok (h :: items, out)
      end
  end.

(** ** JSON writers (json_writer.rs) *)

Section writers.
Context {W : Type} (write_all : W → bytes → res W).

Record JsonWriter : Type := mkWriter { jw_write : W; jw_buf : bytes; jw_rows_written : bool }.
Definition flush_threshold : Z := 16 * 1024.

Definition writer_new (w : W) : JsonWriter := mkWriter w [] false.
Definition writer_flush (j : JsonWriter) : res JsonWriter := w ← write_all (jw_write j) (jw_buf j); Ok (mkWriter w [] (jw_rows_written j)).

(** [JsonLinesWriter::write_blocks]; the blocks bound the steps. *)
Fixpoint lines_write_blocks (fuel : nat) (j : JsonWriter) (items : list DataItem) : res (JsonWriter * list DataItem) :=
  match fuel with
  | O => Ok (j, items)
  | S fuel =>
      more ← has_next_block items;
      if more : bool then
        '(items, buf) ← write_next_block items (jw_buf j);
        let j := mkWriter (jw_write j) (buf ++ [10]) (jw_rows_written j) in
        j ← (if flush_threshold <? Z.of_nat (length (jw_buf j)) then writer_flush j else Ok j);
        lines_write_blocks fuel j items
      else Ok (j, items)
  end.
Definition lines_finish (j : JsonWriter) : res W := j ← writer_flush j; Ok (jw_write j).

(** [JsonArrayWriter] *)
Definition begin_new_item (j : JsonWriter) : res JsonWriter :=
  j ← (if flush_threshold <? Z.of_nat (length (jw_buf j)) then writer_flush j else Ok j);
  Ok (if jw_rows_written j then mkWriter (jw_write j) (jw_buf j ++ [comma]) true else mkWriter (jw_write j) (jw_buf j ++ [91]) true).
Fixpoint array_write_blocks (fuel : nat) (j : JsonWriter) (items : list DataItem) : res (JsonWriter * list DataItem) :=
  match fuel with
  | O => Ok (j, items)
  | S fuel =>
      more ← has_next_block items;
      if more : bool then
        j ← begin_new_item j;
        '(items, buf) ← write_next_block items (jw_buf j);
        array_write_blocks fuel (mkWriter (jw_write j) buf (jw_rows_written j)) items
      else Ok (j, items)
  end.
Definition array_finish (j : JsonWriter) : res W :=
  let buf := if jw_rows_written j then jw_buf j ++ [93] else jw_buf j ++ [91; 93] in
  j ← writer_flush (mkWriter (jw_write j) buf (jw_rows_written j));
  Ok (jw_write j).
End writers.
Arguments jw_write {W}.
Arguments jw_buf {W}.
Arguments jw_rows_written {W}.
Arguments mkWriter {W}.
