(* ===== verification/QueryOutputSpec.v ===== *)
(** * What a response contains

    The blocks chosen for a response are the first candidates, in ascending order, that fit the
    limit, and at least one; the writer prints every chosen row once, below its block. *)
From stdpp Require Import gmap sorting.
From S2P Require Import Prelude Bytes Ranges QueryStack QueryArrow QueryPred QueryPredSpec QueryScanSpec QueryRel QueryRelSpec QueryPlan QueryPlanSpec QueryOutput.

(** ** Running sums *)

Definition sum (ws : list Z) : Z := foldr Z.add 0 ws.

(** The rows with a weight. *)
Definition weighed (rows : list bweight) : list (Z * Z) := omap (λ r : bweight, match r.2 with Some w => Some (r.1, w) | None => None end) rows.

(** How many of the leading weights fit. *)
Fixpoint fits (acc limit : Z) (ws : list Z) : nat :=
  match ws with [] => 0 | w :: ws => if acc + w <=? limit then S (fits (acc + w) limit ws) else 0 end.

Lemma running_over limit rows : ∀ acc, limit < acc → Forall (λ r : bweight, 0 <= oweight r.2) rows → filter (λ r, within limit r = true) (running acc rows) = [].
Proof.
  induction rows as [|[n [w|]] rows IH]; intros acc Ha Hr; cbn [running]; [done| |]; apply Forall_cons in Hr as [Hw Hr]; cbn in Hw; rewrite filter_cons, decide_False.
  - apply IH; [lia|done].
  - unfold within. cbn. rewrite Z.leb_le. lia.
  - by apply IH.
  - done.
Qed.

Lemma running_fits limit rows : ∀ acc, Forall (λ r : bweight, 0 <= oweight r.2) rows →
  fst <$> filter (λ r, within limit r = true) (running acc rows) = take (fits acc limit (weighed rows).*2) (weighed rows).*1.
Proof.
  induction rows as [|[n [w|]] rows IH]; intros acc Hr; cbn [running]; [done| |]; apply Forall_cons in Hr as [Hw Hr]; cbn in Hw; rewrite filter_cons.
  - cbn [weighed omap list_omap snd fst fmap list_fmap fits]. fold (weighed rows). destruct (acc + w <=? limit) eqn:E.
    + rewrite decide_True by (unfold within; by cbn). rewrite fmap_cons. cbn [fst take]. f_equal. by apply IH.
    + rewrite decide_False by (unfold within; cbn; by rewrite E). apply Z.leb_gt in E. by rewrite running_over.
  - rewrite decide_False by done. by apply IH.
Qed.

Lemma fits_spec limit ws : ∀ acc, Forall (λ w, 0 <= w) ws →
  (fits acc limit ws <= length ws)%nat ∧ (fits acc limit ws ≠ 0%nat → acc + sum (take (fits acc limit ws) ws) <= limit) ∧
  ((fits acc limit ws < length ws)%nat → limit < acc + sum (take (S (fits acc limit ws)) ws)).
Proof.
  induction ws as [|w ws IH]; intros acc Hw; cbn [fits]; [cbn; lia|]. apply Forall_cons in Hw as [Hw Hws]. destruct (acc + w <=? limit) eqn:E.
  - apply Z.leb_le in E. destruct (IH (acc + w) Hws) as (H1 & H2 & H3). set (f := fits (acc + w) limit ws) in *. rewrite !firstn_cons. cbn [length].
    change (sum (w :: ?l)) with (w + sum l). split; [lia|]. split; [|intros; specialize (H3 ltac:(lia)); lia].
    intros _. destruct (decide (f = 0%nat)) as [E0|Hf]; [rewrite E0, take_0; cbn; lia|]. specialize (H2 Hf). lia.
  - apply Z.leb_gt in E. rewrite take_0. cbn. rewrite take_0. cbn. lia.
Qed.

(** ** Candidates *)

(** The blocks that may be returned, with their weights, in ascending order. *)
Record candidates (include_all : bool) (header : list orow) (items : list (list orow)) (cs : list (Z * Z)) : Prop := mkCandidates {
  cn_sorted : StronglySorted Z.lt cs.*1;
  cn_blocks n : n ∈ cs.*1 ↔
    if include_all then n ∈ or_block <$> header ++ mjoin items
    else n ∈ or_block <$> header ∧ (n ∈ or_block <$> mjoin items ∨ n = min_block (or_block <$> header) ∨ n = max_block (or_block <$> header));
  cn_weights n w : (n, w) ∈ cs → w = weight_in (weights (header ++ mjoin items)) n
}.

(** The first [k] candidates fit, or there is one; one more would not fit. *)
Definition chosen (cs : list (Z * Z)) (k : nat) : Prop :=
  (0 < k <= length cs)%nat ∧ (k = 1%nat ∨ sum (take k cs.*2) <= package_limit) ∧ ((k < length cs)%nat → package_limit < sum (take (S k) cs.*2)).

Lemma weighed_fst_elem rows n : n ∈ (weighed rows).*1 ↔ ∃ w, (n, Some w) ∈ rows.
Proof.
  unfold weighed. rewrite list_elem_of_fmap. split.
  - intros ([n' w] & -> & Hin). apply list_elem_of_omap in Hin as ([n'' [w'|]] & Hin & E); cbn in E; simplify_eq. eauto.
  - intros (w & Hin). exists (n, w). split; [done|]. apply list_elem_of_omap. by exists (n, Some w).
Qed.

Lemma weighed_elem rows n w : (n, w) ∈ weighed rows ↔ (n, Some w) ∈ rows.
Proof.
  unfold weighed. rewrite list_elem_of_omap. split; [intros ([n' [w'|]] & Hin & E); cbn in E; by simplify_eq|]. intros Hin. by exists (n, Some w).
Qed.

(** Sorted rows with distinct blocks. *)
Lemma weighed_sorted rows : StronglySorted block_le rows → NoDup rows.*1 → StronglySorted Z.lt (weighed rows).*1.
Proof.
  induction 1 as [|[n w] rows Hs IH Hle]; intros Hn; [constructor|]. rewrite fmap_cons in Hn. apply NoDup_cons in Hn as [Hnin Hn].
  destruct w as [w|]; [|by apply IH]. cbn [weighed omap list_omap snd fst fmap list_fmap]. fold (weighed rows). constructor; [by apply IH|].
  rewrite Forall_forall in Hle. apply Forall_forall. intros m Hm. apply weighed_fst_elem in Hm as (w' & Hm). pose proof (Hle _ Hm) as Hl. unfold block_le in Hl. cbn in Hl.
  assert (n ≠ m); [|lia]. intros ->. apply Hnin. apply list_elem_of_fmap. by exists (m, Some w').
Qed.

(** ** Sums of weights *)

Lemma weight_total_cons r rows : total (r :: rows) = oweight r.2 + total rows.
Proof. done. Qed.
Lemma weight_total_app l k : total (l ++ k) = total l + total k.
Proof. induction l as [|r l IH]; [done|]. cbn [app]. rewrite !weight_total_cons, IH. lia. Qed.
Lemma weight_in_app l k n : weight_in (l ++ k) n = weight_in l n + weight_in k n.
Proof. unfold weight_in. by rewrite filter_app, weight_total_app. Qed.
Lemma weight_in_cons r rows n : weight_in (r :: rows) n = (if decide (r.1 = n) then oweight r.2 else 0) + weight_in rows n.
Proof. unfold weight_in. rewrite filter_cons. destruct (decide (r.1 = n)); [by rewrite weight_total_cons|lia]. Qed.
Lemma weight_in_none rows n : n ∉ rows.*1 → weight_in rows n = 0.
Proof. induction rows as [|r rows IH]; intros Hn; [done|]. rewrite fmap_cons, not_elem_of_cons in Hn. rewrite weight_in_cons, decide_False by naive_solver. rewrite IH; naive_solver. Qed.

Lemma sum_indicator (ns : list Z) n w : NoDup ns → 0 <= w → 0 <= sum ((λ m, if decide (n = m) then w else 0) <$> ns) <= w ∧ (n ∉ ns → sum ((λ m, if decide (n = m) then w else 0) <$> ns) = 0).
Proof.
  induction 1 as [|m ns Hm Hns IH]; intros Hw; [cbn; lia|]. rewrite fmap_cons. change (sum (?a :: ?l)) with (a + sum l). destruct (IH Hw) as [IH1 IH2]. destruct (decide (n = m)) as [->|Hne].
  - rewrite IH2 by done. split; [lia|]. intros Hn. exfalso. apply Hn. lmem.
  - split; [lia|]. rewrite not_elem_of_cons. intros [_ Hn]. rewrite IH2 by done. lia.
Qed.

Lemma sum_fmap_add (f g : Z → Z) ns : sum ((λ n, f n + g n) <$> ns) = sum (f <$> ns) + sum (g <$> ns).
Proof. induction ns as [|n ns IH]; [done|]. rewrite !fmap_cons. change (sum (?a :: ?l)) with (a + sum l). rewrite IH. lia. Qed.

(** The weights of distinct blocks do not exceed the total. *)
Lemma sum_weight_in rows ns : Forall (λ r : bweight, 0 <= oweight r.2) rows → NoDup ns → 0 <= sum (weight_in rows <$> ns) <= total rows.
Proof.
  induction 1 as [|r rows Hr _ IH]; intros Hn.
  - assert (sum (weight_in [] <$> ns) = 0) as ->; [|cbn; lia]. clear Hn. induction ns as [|n ns IH]; [done|]. rewrite fmap_cons. change (sum (?a :: ?l)) with (a + sum l). by rewrite IH.
  - rewrite (list_fmap_ext _ (λ n, (if decide (r.1 = n) then oweight r.2 else 0) + weight_in rows n)) by (intros; apply weight_in_cons).
    rewrite sum_fmap_add, weight_total_cons. destruct (sum_indicator ns r.1 (oweight r.2) Hn Hr) as [? _]. specialize (IH Hn). lia.
Qed.

Lemma weight_in_bounds rows n : Forall (λ r : bweight, 0 <= oweight r.2) rows → 0 <= weight_in rows n <= total rows.
Proof. intros Hr. pose proof (sum_weight_in rows [n] Hr (NoDup_singleton n)) as H. cbn in H. lia. Qed.

Lemma weights_app l k : weights (l ++ k) = weights l ++ weights k.
Proof. apply fmap_app. Qed.
Lemma join_weights items : mjoin (map weights (filter (λ rows : list orow, rows ≠ []) items)) = weights (mjoin items).
Proof.
  induction items as [|rows items IH]; [done|]. rewrite filter_cons. change (mjoin (rows :: items)) with (rows ++ mjoin items). rewrite weights_app, <-IH.
  destruct (decide (rows ≠ [])) as [Hne|He]; [done|]. destruct rows; [done|]. exfalso. by apply He.
Qed.

Lemma weights_blocks rows : (weights rows).*1 = or_block <$> rows.
Proof. unfold weights. rewrite <-list_fmap_compose. by apply list_fmap_ext. Qed.

Lemma min_block_spec l : l ≠ [] → min_block l ∈ l ∧ ∀ n, n ∈ l → min_block l <= n.
Proof.
  assert (∀ l d, d ∈ d :: l ∧ foldr Z.min d l ∈ d :: l ∧ foldr Z.min d l <= d ∧ ∀ n, n ∈ l → foldr Z.min d l <= n) as H.
  { clear. induction l as [|x l IH]; intros d; cbn [foldr].
    - split; [lmem|]. split; [lmem|]. split; [lia|]. intros n Hn. by apply elem_of_nil in Hn.
    - destruct (IH d) as (_ & H1 & H2 & H3). split; [lmem|]. split; [|split; [lia|intros n [->|Hn]%elem_of_cons; [lia|specialize (H3 n Hn); lia]]].
      destruct (Z.min_spec x (foldr Z.min d l)) as [[_ ->]|[_ ->]]; [right; lmem|]. apply elem_of_cons in H1 as [->|H1]; [lmem|by right; right]. }
  destruct l as [|d l]; [done|]. intros _. unfold min_block. cbn [hd foldr]. destruct (H (d :: l) d) as (_ & H1 & _ & H3). cbn [foldr] in *. split; [|done].
  apply elem_of_cons in H1 as [->|H1]; [lmem|done].
Qed.
Lemma max_block_elem l : l ≠ [] → max_block l ∈ l.
Proof.
  assert (∀ l d, foldr Z.max d l ∈ d :: l) as H.
  { clear. induction l as [|x l IH]; intros d; cbn [foldr]; [lmem|]. destruct (Z.max_spec x (foldr Z.max d l)) as [[_ ->]|[_ ->]]; [|right; lmem].
    specialize (IH d). apply elem_of_cons in IH as [->|H1]; [lmem|by right; right]. }
  destruct l as [|d l]; [done|]. intros _. unfold max_block. cbn [hd]. specialize (H (d :: l) d). apply elem_of_cons in H as [->|H]; [lmem|done].
Qed.

Lemma weight_at_spec ws n : NoDup ws.*1 → (∀ w, weight_at ws n = Some w ↔ (n, w) ∈ ws) ∧ (weight_at ws n = None ↔ n ∉ ws.*1).
Proof.
  unfold weight_at. induction ws as [|[m w] ws IH]; intros Hn; [split; [intros w|]; cbn; split; try done; [by intros ?%elem_of_nil|by intros _ ?%elem_of_nil]|].
  rewrite fmap_cons in Hn. apply NoDup_cons in Hn as [Hm Hn]. rewrite filter_cons. cbn [fst] in *. destruct (decide (m = n)) as [->|Hne]; cbn [head fmap option_fmap option_map snd].
  - split; [intros w'|]; split.
    + intros [= ->]. lmem.
    + intros [E|Hin]%elem_of_cons; [by simplify_eq|]. exfalso. apply Hm, list_elem_of_fmap. by exists (n, w').
    + done.
    + intros Hnin. exfalso. apply Hnin. rewrite fmap_cons. lmem.
  - destruct (IH Hn) as [IH1 IH2]. split; [intros w'; rewrite IH1, elem_of_cons; split; [by right|intros [?|?]; [by simplify_eq|done]]|].
    rewrite IH2, fmap_cons, not_elem_of_cons. cbn. naive_solver.
Qed.

Section choose_spec.
Context {PB : PolarsBlocks} {PBL : PolarsBlocksLaws}.

(** Choosing from weighed blocks whose first has a weight. *)
Lemma choose_spec ws : weights_ok ws → NoDup ws.*1 → (∀ r, r ∈ ws → (∀ r', r' ∈ ws → r.1 <= r'.1) → is_Some r.2) → ws ≠ [] →
  ∃ cs package k, cumulate ws = Ok package ∧ StronglySorted Z.lt cs.*1 ∧ (∀ n w, (n, w) ∈ cs ↔ (n, Some w) ∈ ws) ∧ chosen cs k ∧
    ∃ sel, filter_weight package_limit package = Ok sel ∧ (match sel with [] => take 1 package.*1 | _ => sel end) = take k cs.*1.
Proof.
  intros Hok Hn Hfirst Hne. destruct (cumulate_spec ws Hok) as (sorted & Hp & Hs & E). exists (weighed sorted), (running 0 sorted).
  assert (Forall (λ r : bweight, 0 <= oweight r.2) sorted) as Hnn by (rewrite Hp; apply Hok).
  assert (Forall (λ w, 0 <= w) (weighed sorted).*2) as Hnn'.
  { apply Forall_fmap, Forall_forall. intros [n w] Hin. apply weighed_elem in Hin. rewrite Forall_forall in Hnn. by apply Hnn in Hin. }
  destruct (fits_spec package_limit (weighed sorted).*2 0 Hnn') as (H1 & H2 & H3). rewrite length_fmap in H1, H3. remember (fits 0 package_limit (weighed sorted).*2) as f eqn:Ef.
  destruct sorted as [|[n0 w0] sorted]. { symmetry in Hp. by apply Permutation_nil_r in Hp. }
  assert (is_Some w0) as [w Ew].
  { apply (Hfirst (n0, w0)); [rewrite <-Hp; lmem|]. intros r' Hr'. rewrite <-Hp in Hr'. apply elem_of_cons in Hr' as [->|Hr']; [done|]. inversion Hs as [|? ? _ Hf]; subst.
    rewrite Forall_forall in Hf. by apply Hf in Hr'. }
  subst w0. exists (max 1 f). split; [done|]. split; [apply weighed_sorted; [done|by rewrite Hp]|]. split; [intros n w'; by rewrite weighed_elem, Hp|]. split.
  - destruct (decide (f = 0%nat)) as [E0|E0].
    + clear Ef. subst f. unfold chosen. cbn [Nat.max]. split; [cbn; lia|]. split; [by left|]. intros _. specialize (H3 ltac:(cbn; lia)). cbn in Hnn', H3 |- *.
      fold (weighed sorted) in H3, Hnn' |- *. rewrite take_0 in H3. cbn in H3. apply Forall_cons in Hnn' as [_ Hnn']. destruct (weighed sorted) as [|[n w'] l]; cbn; [lia|].
      apply Forall_cons in Hnn' as [? _]. cbn in *. rewrite take_0. cbn. lia.
    + replace (max 1 f) with f by lia. split; [lia|]. split; [right; specialize (H2 E0); lia|]. intros Hlt. specialize (H3 Hlt). lia.
  - rewrite filter_weight_spec, running_fits, <-Ef by done. eexists. split; [done|]. destruct f as [|f']; [|done]. done.
Qed.
(** The weighed blocks that [choose_spec] starts from. *)
Record weighed_blocks (include_all : bool) (header : list orow) (items : list (list orow)) (ws : list bweight) : Prop := mkWeighed {
  wb_nodup : NoDup ws.*1;
  wb_ok : weights_ok ws;
  wb_ne : ws ≠ [];
  wb_first r : r ∈ ws → (∀ r', r' ∈ ws → r.1 <= r'.1) → is_Some r.2;
  wb_weights n w : (n, Some w) ∈ ws ↔ w = weight_in (weights (header ++ mjoin items)) n ∧
    if include_all then n ∈ or_block <$> header ++ mjoin items
    else n ∈ or_block <$> header ∧ (n ∈ or_block <$> mjoin items ∨ n = min_block (or_block <$> header) ∨ n = max_block (or_block <$> header))
}.

Context (header : list orow) (items : list (list orow)) (Hne : header ≠ []) (Hnd : NoDup (or_block <$> header)).
Context (Hh : Forall (λ r, is_Some (or_weight r)) header) (Hok : weights_ok (weights (header ++ mjoin items))).

Lemma items_nonneg : Forall (λ r : bweight, 0 <= oweight r.2) (weights header) ∧ Forall (λ r : bweight, 0 <= oweight r.2) (weights (mjoin items)).
Proof. destruct Hok as [H _]. rewrite weights_app in H. by apply Forall_app in H. Qed.

Lemma weighed_all : ∃ ws, block_weights true header items = Ok ws ∧ weighed_blocks true header items ws.
Proof.
  unfold block_weights. set (ls := map weights _ ++ [weights header]). assert (mjoin ls = weights (mjoin items) ++ weights header) as Ej.
  { unfold ls. rewrite join_app, join_weights. cbn. by rewrite app_nil_r. }
  assert (mjoin ls ≡ₚ weights (header ++ mjoin items)) as Hp by (rewrite Ej, weights_app; apply Permutation_app_comm).
  assert (∀ n, weight_in (mjoin ls) n = weight_in (weights (header ++ mjoin items)) n) as Hwi by (intros n; rewrite Ej, weights_app, !weight_in_app; lia).
  assert (total (mjoin ls) = total (weights (header ++ mjoin items))) as Ht by (rewrite Ej, weights_app, !weight_total_app; lia).
  destruct (sum_by_block_spec ls) as (out & -> & Hn & Hk & Hw); [split; [rewrite Ej; apply Forall_app; split; apply items_nonneg|rewrite Ht; apply Hok]|]. cbn [mbind res_bind].
  eexists. split; [done|]. change (map ?f out) with (f <$> out). set (g := λ x : Z * Z, (x.1, Some x.2)).
  assert ((g <$> out).*1 = out.*1) as E1 by (rewrite <-list_fmap_compose; by apply list_fmap_ext).
  assert (∀ n w, (n, Some w) ∈ g <$> out ↔ (n, w) ∈ out) as Hg.
  { intros n w. rewrite list_elem_of_fmap. split; [intros ([n' w'] & E & Hin); unfold g in E; cbn in E; by simplify_eq|]. intros Hin. by exists (n, w). }
  assert (∀ n, n ∈ out.*1 ↔ n ∈ or_block <$> header ++ mjoin items) as Hk' by (intros n; by rewrite Hk, Hp, weights_blocks).
  assert (∀ n w, (n, w) ∈ out ↔ w = weight_in (weights (header ++ mjoin items)) n ∧ n ∈ or_block <$> header ++ mjoin items) as Hout.
  { intros n w. rewrite <-Hk'. split; [intros Hin; split; [rewrite (Hw n w Hin); apply Hwi|apply list_elem_of_fmap; by exists (n, w)]|].
    intros [-> Hin]. apply list_elem_of_fmap in Hin as ([n' w'] & -> & Hin). cbn. by rewrite <-Hwi, <-(Hw _ _ Hin). }
  split.
  - by rewrite E1.
  - split.
    + apply Forall_fmap, Forall_forall. intros [n w] Hin. apply Hout in Hin as [-> _]. cbn. apply weight_in_bounds, Hok.
    + assert (total (g <$> out) = sum (weight_in (weights (header ++ mjoin items)) <$> out.*1)) as ->; [|pose proof (sum_weight_in _ out.*1 (proj1 Hok) Hn); destruct Hok; lia].
      unfold total, sum. f_equal. rewrite <-!list_fmap_compose. apply list_fmap_ext. intros i [n w] Hi. apply list_elem_of_lookup_2, Hout in Hi as [-> _]. done.
  - intros E. assert (or_block (hd (mkORow 0 0 None) header) ∈ out.*1) as Hin; [|destruct out; [by apply elem_of_nil in Hin|done]]. apply Hk'. destruct header as [|h hs]; [done|]. cbn. lmem.
  - intros r Hr _. apply list_elem_of_fmap in Hr as (x & -> & _). by eexists.
  - intros n w. by rewrite Hg.
Qed.
(** The statistics of the items: blocks of items and the ends of the header, with item weights. *)
Lemma item_stats_spec : ∃ stats, sum_by_block (map weights (filter (λ rows : list orow, rows ≠ []) items) ++
    [[(min_block (or_block <$> header), Some 0); (max_block (or_block <$> header), Some 0)]]) = Ok stats ∧ NoDup stats.*1 ∧
  (∀ n, n ∈ stats.*1 ↔ n ∈ or_block <$> mjoin items ∨ n = min_block (or_block <$> header) ∨ n = max_block (or_block <$> header)) ∧
  ∀ n w, (n, w) ∈ stats → w = weight_in (weights (mjoin items)) n.
Proof.
  set (zs := [(min_block _, Some 0); _]). assert (mjoin (map weights (filter (λ rows : list orow, rows ≠ []) items) ++ [zs]) = weights (mjoin items) ++ zs) as Ej.
  { rewrite join_app, join_weights. cbn [mjoin list_join]. by rewrite app_nil_r. }
  destruct (sum_by_block_spec (map weights (filter (λ rows : list orow, rows ≠ []) items) ++ [zs])) as (stats & E & Hn & Hk & Hw).
  { rewrite Ej. split.
    - apply Forall_app. split; [apply items_nonneg|]. unfold zs. repeat constructor; cbn; lia.
    - rewrite weight_total_app. cbn. destruct Hok as [_ H]. rewrite weights_app, weight_total_app in H. pose proof (weight_in_bounds (weights header) 0 (proj1 items_nonneg)). lia. }
  exists stats. split; [done|]. split; [done|]. rewrite Ej in Hk, Hw. split.
  - intros n. rewrite Hk, fmap_app, elem_of_app, weights_blocks. unfold zs. cbn. rewrite !elem_of_cons, elem_of_nil. naive_solver.
  - intros n w Hin. rewrite (Hw n w Hin), weight_in_app. assert (weight_in zs n = 0) as ->; [|lia]. unfold zs. rewrite !weight_in_cons. cbn. by repeat case_decide.
Qed.

Lemma header_weight h : h ∈ header → ∃ w, or_weight h = Some w ∧ 0 <= w ∧ weight_in (weights header) (or_block h) = w.
Proof.
  intros Hin. rewrite Forall_forall in Hh. destruct (Hh h Hin) as [w Ew]. exists w. split; [done|]. destruct items_nonneg as [Hnn _].
  assert ((or_block h, or_weight h) ∈ weights header) as Hin' by (by apply (list_elem_of_fmap_2 (λ r, (or_block r, or_weight r)))). rewrite Forall_forall in Hnn.
  pose proof (Hnn _ Hin') as Hw. rewrite Ew in Hw. split; [done|]. clear -Hnd Hin Ew. induction header as [|x l IH]; [by apply elem_of_nil in Hin|].
  rewrite fmap_cons in Hnd. apply NoDup_cons in Hnd as [Hx Hl]. unfold weights. rewrite fmap_cons. fold (weights l). rewrite weight_in_cons. cbn [fst snd].
  apply elem_of_cons in Hin as [->|Hin].
  - rewrite decide_True by done. rewrite weight_in_none by (by rewrite weights_blocks). rewrite Ew. cbn. lia.
  - rewrite decide_False by (intros E; apply Hx; rewrite E; by apply list_elem_of_fmap_2). by rewrite IH.
Qed.

Lemma weighed_some : ∃ ws, block_weights false header items = Ok ws ∧ weighed_blocks false header items ws.
Proof.
  unfold block_weights. destruct item_stats_spec as (stats & -> & Hn & Hk & Hw). cbn [mbind res_bind].
  assert (∀ n w, weight_at stats n = Some w → w = weight_in (weights (mjoin items)) n) as Hat by (intros n w E; by apply (weight_at_spec stats n Hn), Hw in E).
  assert (∀ n, 0 <= oweight (weight_at stats n) <= weight_in (weights (mjoin items)) n) as Hle.
  { intros n. pose proof (weight_in_bounds (weights (mjoin items)) n (proj2 items_nonneg)). destruct (weight_at stats n) as [w|] eqn:E; cbn; [rewrite (Hat n w E)|]; lia. }
  assert (total (weights header) + total (weights (mjoin items)) < 2 ^ 64) as Htot by (destruct Hok as [_ H]; by rewrite weights_app, weight_total_app in H).
  destruct (add_weights_spec (weights header) stats Hn) as (ws & -> & Hp).
  { unfold weights. apply Forall_fmap, Forall_forall. intros h Hin. cbn. destruct (header_weight h Hin) as (w & -> & Hw0 & Hww). cbn.
    pose proof (weight_in_bounds (weights header) (or_block h) (proj1 items_nonneg)). pose proof (weight_in_bounds (weights (mjoin items)) (or_block h) (proj2 items_nonneg)).
    specialize (Hle (or_block h)). lia. }
  exists ws. split; [done|]. unfold weights in Hp. rewrite <-list_fmap_compose in Hp. set (g := compose _ _) in Hp.
  assert (∀ n w, (n, Some w) ∈ ws ↔ ∃ h, h ∈ header ∧ or_block h = n ∧ is_Some (weight_at stats n) ∧ w = weight_in (weights (header ++ mjoin items)) n) as Hel.
  { intros n w. rewrite Hp, list_elem_of_fmap. rewrite weights_app, weight_in_app. split.
    - intros (h & E & Hin). exists h. unfold g in E. cbn in E. injection E as -> E. destruct (header_weight h Hin) as (hw & Eh & _ & ->). rewrite Eh in E.
      destruct (weight_at stats (or_block h)) as [sw|] eqn:Es; [|done]. cbn in E. injection E as ->. do 2 (split; [done|]). split; [by eexists|]. by rewrite (Hat _ _ Es).
    - intros (h & Hin & <- & [sw Es] & ->). exists h. split; [|done]. unfold g. cbn. destruct (header_weight h Hin) as (hw & -> & _ & ->). rewrite Es. cbn. by rewrite (Hat _ _ Es). }
  assert (∀ n, is_Some (weight_at stats n) ↔ n ∈ or_block <$> mjoin items ∨ n = min_block (or_block <$> header) ∨ n = max_block (or_block <$> header)) as Hat'.
  { intros n. rewrite <-Hk. destruct (weight_at_spec stats n Hn) as [H1 H2]. split; [intros [w E]; apply H1 in E; apply list_elem_of_fmap; by exists (n, w)|].
    intros Hin. destruct (weight_at stats n); [by eexists|]. by apply H2 in Hin. }
  split.
  - rewrite Hp, <-list_fmap_compose. by rewrite (list_fmap_ext _ or_block).
  - split.
    + rewrite Hp. apply Forall_fmap, Forall_forall. intros h Hin. unfold g. cbn. destruct (header_weight h Hin) as (hw & -> & Hw0 & _). specialize (Hle (or_block h)).
      destruct (weight_at stats (or_block h)); cbn in *; lia.
    + assert (total ws = total (g <$> header)) as ->.
      { unfold total. apply (foldr_permutation_proper eq Z.add 0); [intros; lia|]. by rewrite Hp. }
      assert (total (g <$> header) <= total (weights header) + sum (weight_in (weights (mjoin items)) <$> (or_block <$> header))) as Hlt.
      { pose proof (proj1 items_nonneg) as Hnn. clear -Hle Hnn. unfold weights in Hnn |- *. induction header as [|h l IH]; [cbn; lia|]. rewrite fmap_cons in Hnn.
        apply Forall_cons in Hnn as [Hn0 Hnn]. specialize (IH Hnn). rewrite !fmap_cons, !weight_total_cons. change (sum (?a :: ?l)) with (a + sum l). cbn [fst snd] in *.
        unfold g at 1. cbn. specialize (Hle (or_block h)). fold (weights (mjoin items)) in *. destruct (or_weight h), (weight_at stats (or_block h)); cbn in *; lia. }
      pose proof (sum_weight_in (weights (mjoin items)) (or_block <$> header) (proj2 items_nonneg) Hnd). lia.
  - intros ->. symmetry in Hp. apply Permutation_nil_r in Hp. by destruct header.
  - intros r Hr Hmin. rewrite Hp in Hr. apply list_elem_of_fmap in Hr as (h & -> & Hin). assert (or_block <$> header ≠ []) as Hne' by (by destruct header).
    destruct (min_block_spec _ Hne') as [Hm1 Hm2]. assert (or_block h = min_block (or_block <$> header)) as Eb.
    { apply Z.le_antisymm; [|apply Hm2; by apply list_elem_of_fmap_2]. apply list_elem_of_fmap in Hm1 as (h' & E & Hin'). rewrite E.
      specialize (Hmin (g h')). unfold g in Hmin at 2. cbn in Hmin. apply Hmin. rewrite Hp. by apply list_elem_of_fmap_2. }
    unfold g. cbn. destruct (header_weight h Hin) as (hw & -> & _). destruct (proj2 (Hat' (or_block h))) as [sw ->]; [naive_solver|]. by eexists.
  - intros n w. rewrite Hel. split.
    + intros (h & Hin & <- & Ha & ->). apply Hat' in Ha. split; [done|]. split; [by apply list_elem_of_fmap_2|done].
    + intros [-> [Hin Ha]]. apply list_elem_of_fmap in Hin as (h & -> & Hin). exists h. by rewrite Hat'.
Qed.

(** The chosen blocks are the first candidates that fit, at least one. *)
Lemma select_blocks_spec include_all : ∃ cs k last_block, candidates include_all header items cs ∧ chosen cs k ∧ last (take k cs.*1) = Some last_block ∧
  select_blocks include_all header items = Ok (take k cs.*1, last_block).
Proof.
  assert (∃ ws, block_weights include_all header items = Ok ws ∧ weighed_blocks include_all header items ws) as (ws & E & [H1 H2 H3 H4 H5]).
  { destruct include_all; [apply weighed_all|apply weighed_some]. }
  destruct (choose_spec ws H2 H1 H4 H3) as (cs & package & k & Ec & Hs & Hcs & Hk & sel & Ef & Esel). exists cs, k.
  destruct (last (take k cs.*1)) as [n|] eqn:El.
  - exists n. split; [|split; [done|split; [done|]]].
    + split; [done| |].
      * intros n'. rewrite list_elem_of_fmap. split; [intros ([m w] & -> & Hin); by apply Hcs, H5 in Hin as [_ ?]|].
        intros Hn. exists (n', weight_in (weights (header ++ mjoin items)) n'). split; [done|]. by apply Hcs, H5.
      * intros n' w Hin. by apply Hcs, H5 in Hin as [? _].
    + unfold select_blocks. rewrite E. cbn [mbind res_bind]. rewrite Ec. cbn [mbind res_bind]. rewrite Ef. cbn [mbind res_bind]. by rewrite Esel, El.
  - exfalso. apply last_None in El. apply (f_equal length) in El. rewrite length_take, length_fmap in El. destruct Hk as [Hk _]. cbn in El. lia.
Qed.
End choose_spec.

(** ** Printed blocks *)

Fixpoint commas (l : list bytes) : bytes := match l with [] => [] | [x] => x | x :: l => x ++ comma :: commas l end.
Definition header_prefix : bytes := 34 :: str_bytes "header" ++ [34; 58].
(** The member of a table in a block: nothing when the table has no rows there. *)
Definition member (prop : bytes) (rows : list bytes) : option bytes := match rows with [] => None | _ => Some (prop ++ [91] ++ commas rows ++ [93]) end.
(** A block: its header row and, per table, the property name and the rows. *)
Definition block_json (header : bytes) (tables : list (bytes * list bytes)) : bytes :=
  [123] ++ commas ((header_prefix ++ header) :: omap (λ t : bytes * list bytes, member t.1 t.2) tables) ++ [125].

Definition ended (l : list bytes) : bytes := mjoin ((λ x, x ++ [comma]) <$> l).

Lemma ended_singleton m : ended [m] = m ++ [comma].
Proof. unfold ended. cbn. by rewrite app_nil_r. Qed.
Lemma ended_app l k : ended (l ++ k) = ended l ++ ended k.
Proof. unfold ended. by rewrite fmap_app, join_app. Qed.

Lemma ended_commas l : l ≠ [] → ended l = commas l ++ [comma].
Proof.
  induction l as [|x l IH]; [done|]. intros _. unfold ended. rewrite fmap_cons. change (mjoin (?a :: ?l)) with (a ++ mjoin l). fold (ended l).
  destruct l as [|y l]; [cbn; by rewrite app_nil_r|]. rewrite IH by done. cbn [commas]. by rewrite <-!app_assoc.
Qed.

Lemma json_close_ended e out l : l ≠ [] → json_close e (out ++ ended l) = Ok (out ++ commas l ++ [e]).
Proof.
  intros Hl. rewrite ended_commas, app_assoc by done. unfold json_close. rewrite last_snoc. cbn. rewrite length_app. cbn [length].
  by rewrite Nat.add_sub, take_app_length, <-app_assoc.
Qed.

(** The rows an item has still to write: block and JSON. *)
Definition pending (d : DataItem) (rows : list (Z * bytes)) : Prop :=
  Forall2 (λ p r, block_of d p = Ok r.1 ∧ ∃ e, di_encoders d !! p.1 = Some e ∧ e p.2 = Ok r.2) (drop (di_pos d) (di_order d)) rows.

Lemma pending_next d r rows : pending d (r :: rows) → (di_pos d < length (di_order d))%nat ∧
  ∃ p, slice_get (di_order d) (di_pos d) = Ok p ∧ block_of d p = Ok r.1 ∧ (∀ out, encode_at d p out = Ok (out ++ r.2)) ∧ pending (set_pos d (S (di_pos d))) rows.
Proof.
  intros Hp. unfold pending in Hp. destruct (drop (di_pos d) (di_order d)) as [|p l] eqn:E; [inversion Hp|]. apply Forall2_cons in Hp as [[Hb (e & He & Hr)] Hp].
  assert (di_order d !! di_pos d = Some p) as Hl by (rewrite <-(Nat.add_0_r (di_pos d)), <-lookup_drop, E; done).
  split; [by eapply lookup_lt_Some|]. exists p. split; [unfold slice_get; by rewrite Hl|]. split; [done|]. split.
  - intros out. unfold encode_at, slice_get. rewrite He. cbn [mbind res_bind]. by rewrite Hr.
  - unfold pending, set_pos. cbn [di_pos di_order]. replace (S (di_pos d)) with (di_pos d + 1)%nat by lia. by rewrite <-drop_drop, E.
Qed.

Lemma pending_nil d : pending d [] → (length (di_order d) <= di_pos d)%nat.
Proof. intros Hp. unfold pending in Hp. apply Forall2_nil_inv_r in Hp. apply (f_equal length) in Hp. rewrite length_drop in Hp. cbn in Hp. lia. Qed.

Lemma pending_length d rows : pending d rows → (length rows <= length (di_order d))%nat.
Proof. intros Hp. apply Forall2_length in Hp. rewrite length_drop in Hp. lia. Qed.

Lemma pending_current d rows : pending d rows → get_current_block d = Ok (fst <$> head rows).
Proof.
  unfold get_current_block, get_block_at. destruct rows as [|r rows]; intros Hp.
  - apply pending_nil in Hp. by rewrite lookup_ge_None_2.
  - destruct (pending_next d r rows Hp) as (_ & p & Hg & Hb & _). unfold slice_get in Hg. destruct (di_order d !! di_pos d) as [p'|]; [|done]. injection Hg as ->. rewrite Hb. done.
Qed.

(** [n]-rows come first. *)
Definition split_at (n : Z) (same rest : list (Z * bytes)) : Prop := Forall (λ r : Z * bytes, r.1 = n) same ∧ (fst <$> head rest) ≠ Some n.

Lemma write_rows_spec n same : ∀ fuel d rest out, split_at n same rest → pending d (same ++ rest) → (length (same ++ rest) <= fuel)%nat →
  ∃ d', write_rows fuel d n out = Ok (d', out ++ ended same.*2) ∧ pending d' rest ∧ di_prop d' = di_prop d.
Proof.
  induction same as [|r same IH]; intros fuel d rest out [Hs Hr] Hp Hf.
  - cbn [app] in *. exists d. rewrite app_nil_r. split; [|done]. destruct fuel as [|fuel]; [done|]. cbn [write_rows]. destruct rest as [|r rest].
    + apply pending_nil in Hp. by rewrite (proj2 (Nat.ltb_ge _ _)).
    + destruct (pending_next d r rest Hp) as (Hl & p & -> & Hb & _). rewrite (proj2 (Nat.ltb_lt _ _) Hl). cbn [mbind res_bind]. rewrite Hb. cbn [mbind res_bind].
      rewrite (proj2 (Z.eqb_neq _ _)); [done|]. intros E. apply Hr. cbn. by rewrite E.
  - apply Forall_cons in Hs as [Hn Hs]. cbn [app length] in *. destruct fuel as [|fuel]; [lia|]. cbn [write_rows].
    destruct (pending_next d r (same ++ rest) Hp) as (Hl & p & -> & Hb & He & Hp'). rewrite (proj2 (Nat.ltb_lt _ _) Hl). cbn [mbind res_bind]. rewrite Hb. cbn [mbind res_bind].
    rewrite (proj2 (Z.eqb_eq _ _) Hn), He. cbn [mbind res_bind]. destruct (IH fuel _ rest ((out ++ r.2) ++ [comma]) (conj Hs Hr) Hp') as (d' & -> & Hd & Hpr); [lia|].
    exists d'. split; [|done]. do 2 f_equal. rewrite fmap_cons. unfold ended. rewrite fmap_cons. change (mjoin (?a :: ?l)) with (a ++ mjoin l). by rewrite <-!app_assoc.
Qed.

Lemma write_items_spec n d same rest out : split_at n same rest → pending d (same ++ rest) →
  ∃ d', write_items d n out = Ok (d', out ++ ended (option_list (member (di_prop d) same.*2))) ∧ pending d' rest ∧ di_prop d' = di_prop d.
Proof.
  intros Hs Hp. unfold write_items. rewrite (pending_current d _ Hp). cbn [mbind res_bind]. destruct same as [|r same].
  - cbn [app] in *. rewrite bool_decide_false by apply Hs. exists d. cbn. by rewrite app_nil_r.
  - destruct Hs as [Hsame Hr]. pose proof Hsame as Hc. apply Forall_cons in Hc as [Hn _]. change (fst <$> head ((r :: same) ++ rest)) with (Some r.1). rewrite Hn, bool_decide_true by done.
    destruct (write_rows_spec n (r :: same) (length (di_order d)) d rest (out ++ di_prop d ++ [91]) (conj Hsame Hr) Hp) as (d' & -> & Hd & Hpr); [by apply pending_length|].
    cbn [mbind res_bind]. rewrite json_close_ended by done. cbn [mbind res_bind]. exists d'. split; [|done]. do 2 f_equal.
    change (option_list (member (di_prop d) (fmap snd (r :: same)))) with [di_prop d ++ [91] ++ commas (fmap snd (r :: same)) ++ [93]].
    by rewrite ended_singleton, <-!app_assoc.
Qed.

(** A table, its rows of the current block and the rows after them. *)
Abbreviation cut := (bytes * (list (Z * bytes) * list (Z * bytes)))%type.
Definition cut_ok (n : Z) (d : DataItem) (x : cut) : Prop := di_prop d = x.1 ∧ split_at n x.2.1 x.2.2 ∧ pending d (x.2.1 ++ x.2.2).
Definition cut_rows (x : cut) : bytes * list bytes := (x.1, x.2.1.*2).

Lemma write_tables_spec n items : ∀ xs acc out, Forall2 (cut_ok n) items xs →
  ∃ items', fold_res (λ st d, '(d, out) ← write_items d n st.2; Ok (st.1 ++ [d], out)) items (acc, out) =
      Ok (acc ++ items', out ++ ended (omap (λ t : bytes * list bytes, member t.1 t.2) (cut_rows <$> xs))) ∧
    Forall2 (λ d x, di_prop d = x.1 ∧ pending d x.2.2) items' xs.
Proof.
  induction items as [|d items IH]; intros xs acc out Hf.
  - apply Forall2_nil_inv_l in Hf as ->. exists []. cbn. rewrite !app_nil_r. by split.
  - apply Forall2_cons_inv_l in Hf as ([prop [same rest]] & xs' & (Hpr & Hs & Hp) & Hf & ->). cbn [fst snd] in Hpr, Hs, Hp. cbn [fold_res fst snd].
    destruct (write_items_spec n d same rest out Hs Hp) as (d' & -> & Hd & Hpr'). cbn [mbind res_bind].
    destruct (IH xs' (acc ++ [d']) (out ++ ended (option_list (member (di_prop d) same.*2))) Hf) as (items' & -> & Hi). exists (d' :: items').
    split; [|constructor; [by rewrite Hpr'|done]]. do 2 f_equal; [by rewrite <-app_assoc|]. rewrite <-app_assoc. f_equal.
    rewrite fmap_cons. unfold cut_rows at 2. cbn [omap list_omap fst snd]. rewrite <-ended_app, Hpr. f_equal. destruct (member prop same.*2); done.
Qed.

Lemma write_next_block_spec h items n b hrows xs out : pending h ((n, b) :: hrows) → Forall2 (cut_ok n) items xs →
  ∃ h' items', write_next_block (h :: items) out = Ok (h' :: items', out ++ block_json b (cut_rows <$> xs)) ∧
    pending h' hrows ∧ Forall2 (λ d x, di_prop d = x.1 ∧ pending d x.2.2) items' xs.
Proof.
  intros Hh Hf. unfold write_next_block. rewrite (pending_current h _ Hh). cbn [mbind res_bind head fmap option_fmap option_map fst].
  destruct (pending_next h (n, b) hrows Hh) as (_ & p & Hg & _ & He & Hh'). unfold write_header. rewrite Hg. cbn [mbind res_bind]. rewrite He. cbn [mbind res_bind snd].
  fold header_prefix. destruct (write_tables_spec n items xs [] ((((out ++ [123]) ++ header_prefix) ++ b) ++ [comma]) Hf) as (items' & -> & Hi).
  cbn [mbind res_bind app]. set (ms := omap _ _).
  assert (((((out ++ [123]) ++ header_prefix) ++ b) ++ [comma]) ++ ended ms = (out ++ [123]) ++ ended ((header_prefix ++ b) :: ms)) as ->.
  { change ((header_prefix ++ b) :: ms) with ([header_prefix ++ b] ++ ms). by rewrite ended_app, ended_singleton, <-!app_assoc. }
  rewrite json_close_ended by done. cbn [mbind res_bind]. exists (set_pos h (S (di_pos h))), items'. split; [|done]. unfold block_json. fold ms. by rewrite <-!app_assoc.
Qed.

(** ** All blocks *)

(** Rows in the order of their blocks. *)
Definition by_block (rows : list (Z * bytes)) : Prop := StronglySorted Z.le rows.*1.
Definition at_block (n : Z) (rows : list (Z * bytes)) : list (Z * bytes) := filter (λ r, r.1 = n) rows.
Definition not_block (n : Z) (rows : list (Z * bytes)) : list (Z * bytes) := filter (λ r, r.1 ≠ n) rows.

Lemma split_block n rows : by_block rows → (∀ m, m ∈ rows.*1 → n <= m) →
  rows = at_block n rows ++ not_block n rows ∧ split_at n (at_block n rows) (not_block n rows).
Proof.
  unfold by_block, at_block, not_block. induction rows as [|[m b] rows IH]; intros Hs Hn; [split; [done|split; [constructor|done]]|].
  rewrite fmap_cons in Hs. apply StronglySorted_inv in Hs as [Hs Hm]. rewrite !filter_cons. cbn [fst] in *. destruct IH as [IH1 [IH2 IH3]]; [done|intros; apply Hn; by right|].
  destruct (decide (m = n)) as [->|Hne].
  - rewrite decide_False by naive_solver. split; [cbn; by f_equal|]. split; [by constructor|done].
  - rewrite decide_True by done. assert (filter (λ r : Z * bytes, r.1 = n) rows = []) as E.
    { apply list_filter_none. intros [m' b'] Hin. cbn. rewrite Forall_forall in Hm. assert (m' ∈ rows.*1) as Hin' by (apply list_elem_of_fmap; by exists (m', b')).
      specialize (Hm _ Hin'). specialize (Hn m). rewrite fmap_cons in Hn. specialize (Hn ltac:(lmem)). lia. }
    rewrite E in *. cbn [app] in *. split; [by f_equal|]. split; [constructor|]. cbn. congruence.
Qed.

(** A table of the response: the name of its property and its rows. *)
Abbreviation otable := (bytes * list (Z * bytes))%type.
Definition table_ok (blocks : list Z) (t : otable) : Prop := by_block t.2 ∧ ∀ m, m ∈ t.2.*1 → m ∈ blocks.
Definition block_text (tables : list otable) (hb : Z * bytes) : bytes := block_json hb.2 ((λ t : otable, (t.1, (at_block hb.1 t.2).*2)) <$> tables).

Lemma by_block_not n rows : by_block rows → by_block (not_block n rows).
Proof.
  unfold by_block, not_block. induction rows as [|[m b] rows IH]; intros Hs; [done|]. rewrite fmap_cons in Hs. apply StronglySorted_inv in Hs as [Hs Hm].
  rewrite filter_cons. case_decide; [|by apply IH]. rewrite fmap_cons. constructor; [by apply IH|]. rewrite Forall_forall in Hm |- *. intros x Hx. apply Hm.
  apply list_elem_of_fmap in Hx as (y & -> & Hy). apply list_elem_of_filter in Hy as [_ Hy]. by apply list_elem_of_fmap_2.
Qed.

Lemma at_not_block n m rows : m ≠ n → at_block m (not_block n rows) = at_block m rows.
Proof.
  intros Hne. unfold at_block, not_block. rewrite list_filter_filter. apply list_filter_iff', Forall_forall. intros [k b] _. cbn. naive_solver.
Qed.

(** The first block of a response, and what is left. *)
Definition rows_ok (blocks : list Z) (d : DataItem) (t : otable) : Prop := di_prop d = t.1 ∧ pending d t.2 ∧ table_ok blocks t.
Definition cut_at (n : Z) (t : otable) : cut := (t.1, (at_block n t.2, not_block n t.2)).

Lemma cut_first n blocks d t : (∀ m, m ∈ blocks → n < m) → rows_ok (n :: blocks) d t → cut_ok n d (cut_at n t).
Proof.
  intros Hn (Hd & Hp & Hb & Hm). destruct (split_block n t.2 Hb) as [E Hs].
  - intros m Hin. apply Hm in Hin as [->|Hin]%elem_of_cons; [lia|]. specialize (Hn m Hin). lia.
  - split; [done|]. split; [done|]. cbn. by rewrite <-E.
Qed.

Lemma cut_rest n blocks d d' t : rows_ok (n :: blocks) d t → di_prop d' = t.1 → pending d' (not_block n t.2) → rows_ok blocks d' (t.1, not_block n t.2).
Proof.
  intros (_ & _ & Hb & Hm) Hd Hp. split; [done|]. split; [done|]. split; [by apply by_block_not|]. cbn. intros m Hin. apply list_elem_of_fmap in Hin as (r & -> & Hr).
  apply list_elem_of_filter in Hr as [Hne Hr]. assert (r.1 ∈ n :: blocks) as Hin by (apply Hm; by apply list_elem_of_fmap_2). by apply elem_of_cons in Hin as [?|?].
Qed.

Lemma block_text_rest n hs (tables : list otable) hb : n ∉ hs.*1 → hb ∈ hs → block_text ((λ t : otable, (t.1, not_block n t.2)) <$> tables) hb = block_text tables hb.
Proof.
  intros Hn Hin. unfold block_text. f_equal. rewrite <-list_fmap_compose. apply list_fmap_ext. intros i t _. cbv [compose]. cbn [fst snd]. by rewrite at_not_block by (intros <-; apply Hn, list_elem_of_fmap_2, Hin).
Qed.

(** One block of a response. *)
Lemma next_block n b hs h items tables out : (∀ m, m ∈ hs.*1 → n < m) → pending h ((n, b) :: hs) → Forall2 (rows_ok (n :: hs.*1)) items tables →
  has_next_block (h :: items) = Ok true ∧ ∃ h' items', write_next_block (h :: items) out = Ok (h' :: items', out ++ block_text tables (n, b)) ∧ pending h' hs ∧
    Forall2 (rows_ok hs.*1) items' ((λ t : otable, (t.1, not_block n t.2)) <$> tables).
Proof.
  intros Hn Hh Hf. split; [unfold has_next_block; cbn [slice_get lookup list_lookup mbind res_bind]; by rewrite (pending_current h _ Hh)|].
  destruct (write_next_block_spec h items n b hs (cut_at n <$> tables) out Hh) as (h' & items' & E & Hh' & Hi').
  { apply Forall2_fmap_r. eapply Forall2_impl; [exact Hf|]. intros d t. by apply cut_first. }
  exists h', items'. split; [rewrite E; do 2 f_equal; unfold block_text; do 2 f_equal; rewrite <-list_fmap_compose; by apply list_fmap_ext|]. split; [done|].
  apply Forall2_fmap_r. apply Forall2_fmap_r in Hi'. clear -Hf Hi'. revert items' Hi'. induction Hf as [|d t items tables Hd Hf IH]; intros items' Hi'.
  - apply Forall2_nil_inv_r in Hi' as ->. constructor.
  - apply Forall2_cons_inv_r in Hi' as (d' & items'' & [Hp1 Hp2] & Hi' & ->). constructor; [by eapply cut_rest|by apply IH].
Qed.

(** Printing all blocks, with a sink that keeps the bytes. *)
Definition append_all (w b : bytes) : res bytes := Ok (w ++ b).

Lemma no_next_block h items : pending h [] → has_next_block (h :: items) = Ok false.
Proof. intros Hh. unfold has_next_block. cbn [slice_get lookup list_lookup mbind res_bind]. by rewrite (pending_current h _ Hh). Qed.

Lemma texts_rest n hs (tables : list otable) (f : bytes → bytes) : n ∉ hs.*1 →
  (λ hb, f (block_text ((λ t : otable, (t.1, not_block n t.2)) <$> tables) hb)) <$> hs = (λ hb, f (block_text tables hb)) <$> hs.
Proof. intros Hn. apply list_fmap_ext. intros i hb Hi. cbn. f_equal. eapply (block_text_rest n hs); [done|]. by eapply list_elem_of_lookup_2. Qed.

Lemma sorted_head n (l : list Z) : StronglySorted Z.lt (n :: l) → StronglySorted Z.lt l ∧ (∀ m, m ∈ l → n < m) ∧ n ∉ l.
Proof.
  intros Hs. apply StronglySorted_inv in Hs as [Hs Hn]. rewrite Forall_forall in Hn. do 2 (split; [done|]). intros Hin. specialize (Hn n Hin). lia.
Qed.

Lemma lines_write_spec hs : ∀ fuel h items (tables : list otable) j, StronglySorted Z.lt hs.*1 → pending h hs →
  Forall2 (rows_ok hs.*1) items tables → (length hs <= fuel)%nat →
  ∃ j' items', lines_write_blocks append_all fuel j (h :: items) = Ok (j', items') ∧
    jw_write j' ++ jw_buf j' = jw_write j ++ jw_buf j ++ mjoin ((λ hb, block_text tables hb ++ [10]) <$> hs).
Proof.
  induction hs as [|[n b] hs IH]; intros fuel h items tables j Hs Hh Hf Hfuel.
  - exists j, (h :: items). split; [|cbn; by rewrite app_nil_r]. destruct fuel as [|fuel]; [done|]. cbn [lines_write_blocks]. by rewrite no_next_block.
  - destruct fuel as [|fuel]; [cbn in Hfuel; lia|]. rewrite fmap_cons in Hs, Hf. destruct (sorted_head _ _ Hs) as (Hs' & Hn & Hnin). cbn [lines_write_blocks].
    destruct (next_block n b hs h items tables (jw_buf j) Hn Hh Hf) as (-> & h' & items' & -> & Hh' & Hi'). cbn [mbind res_bind]. set (j1 := mkWriter _ _ _).
    assert (∃ j2, (if flush_threshold <? Z.of_nat (length (jw_buf j1)) then writer_flush append_all j1 else Ok j1) = Ok j2 ∧ jw_write j2 ++ jw_buf j2 = jw_write j1 ++ jw_buf j1)
      as (j2 & -> & Ej2) by (destruct (_ <? _); eexists; (split; [done|]); cbn; by rewrite ?app_nil_r).
    cbn [mbind res_bind]. destruct (IH fuel h' items' _ j2 Hs' Hh' Hi') as (j' & items'' & -> & Ej'); [cbn in Hfuel; lia|]. exists j', items''. split; [done|].
    rewrite Ej', app_assoc, Ej2. unfold j1. cbn [jw_write jw_buf]. rewrite fmap_cons. change (mjoin (?a :: ?l)) with (a ++ mjoin l).
    rewrite (texts_rest n hs tables (λ x, x ++ [10])) by done. by rewrite <-!app_assoc.
Qed.

(** The items of an array, each after its separator. *)
Fixpoint array_text (rows_written : bool) (texts : list bytes) : bytes :=
  match texts with [] => [] | t :: texts => (if rows_written then [comma] else [91]) ++ t ++ array_text true texts end.

Lemma array_text_commas texts : texts ≠ [] → array_text false texts = [91] ++ commas texts.
Proof.
  destruct texts as [|t texts]; [done|]. intros _. cbn [array_text]. f_equal. revert t. induction texts as [|t' texts IH]; intros t; [cbn; by rewrite app_nil_r|].
  cbn [array_text commas]. f_equal. rewrite IH. done.
Qed.

Lemma array_write_spec hs : ∀ fuel h items (tables : list otable) j, StronglySorted Z.lt hs.*1 → pending h hs →
  Forall2 (rows_ok hs.*1) items tables → (length hs <= fuel)%nat →
  ∃ j' items', array_write_blocks append_all fuel j (h :: items) = Ok (j', items') ∧ jw_rows_written j' = jw_rows_written j || negb (length hs =? 0)%nat ∧
    jw_write j' ++ jw_buf j' = jw_write j ++ jw_buf j ++ array_text (jw_rows_written j) (block_text tables <$> hs).
Proof.
  induction hs as [|[n b] hs IH]; intros fuel h items tables j Hs Hh Hf Hfuel.
  - exists j, (h :: items). split; [|cbn; by rewrite orb_false_r, app_nil_r]. destruct fuel as [|fuel]; [done|]. cbn [array_write_blocks]. by rewrite no_next_block.
  - destruct fuel as [|fuel]; [cbn in Hfuel; lia|]. rewrite fmap_cons in Hs, Hf. destruct (sorted_head _ _ Hs) as (Hs' & Hn & Hnin). cbn [array_write_blocks].
    assert (∃ j1, begin_new_item append_all j = Ok j1 ∧ jw_rows_written j1 = true ∧ jw_write j1 ++ jw_buf j1 = jw_write j ++ jw_buf j ++ (if jw_rows_written j then [comma] else [91]))
      as (j1 & Ej & Hj1 & Eb).
    { unfold begin_new_item. destruct (_ <? _); cbn; eexists; (split; [done|]); destruct (jw_rows_written j); cbn; by rewrite <-?app_assoc. }
    destruct (next_block n b hs h items tables (jw_buf j1) Hn Hh Hf) as (-> & h' & items' & Ew & Hh' & Hi'). cbn [mbind res_bind]. rewrite Ej. cbn [mbind res_bind].
    rewrite Ew. cbn [mbind res_bind].
    destruct (IH fuel h' items' _ (mkWriter (jw_write j1) (jw_buf j1 ++ block_text tables (n, b)) (jw_rows_written j1)) Hs' Hh' Hi') as (j' & items'' & -> & Er & Ej'); [cbn in Hfuel; lia|].
    exists j', items''. split; [done|]. cbn [jw_write jw_buf jw_rows_written] in *. split; [by rewrite Er, Hj1, orb_true_r|]. rewrite Ej', Hj1, fmap_cons. cbn [array_text].
    rewrite <-app_assoc, app_assoc, Eb. pose proof (texts_rest n hs tables id Hnin) as Et. cbv [id] in Et. change (λ hb, block_text ?t hb) with (block_text t) in Et. rewrite Et. by rewrite <-!app_assoc.
Qed.

(** Both writers print every block once, with the rows of each table below it. *)
Lemma writers_spec h items hs tables : StronglySorted Z.lt hs.*1 → pending h hs → Forall2 (rows_ok hs.*1) items tables →
  (∃ j items', lines_write_blocks append_all (length hs) (writer_new []) (h :: items) = Ok (j, items') ∧
     lines_finish append_all j = Ok (mjoin ((λ hb, block_text tables hb ++ [10]) <$> hs))) ∧
  ∃ j items', array_write_blocks append_all (length hs) (writer_new []) (h :: items) = Ok (j, items') ∧
     array_finish append_all j = Ok ([91] ++ commas (block_text tables <$> hs) ++ [93]).
Proof.
  intros Hs Hh Hf. split.
  - destruct (lines_write_spec hs (length hs) h items tables (writer_new []) Hs Hh Hf) as (j & items' & E & Ej); [lia|]. exists j, items'. split; [done|].
    unfold lines_finish, writer_flush, append_all. cbn [mbind res_bind]. by rewrite Ej.
  - destruct (array_write_spec hs (length hs) h items tables (writer_new []) Hs Hh Hf) as (j & items' & E & Er & Ej); [lia|]. exists j, items'. split; [done|].
    unfold array_finish, writer_flush, append_all. cbn [jw_write jw_buf jw_rows_written writer_new mbind res_bind] in *. rewrite Er. cbn [orb]. f_equal.
    destruct hs as [|hb hs]; cbn [length Nat.eqb negb].
    + rewrite app_assoc, Ej. done.
    + rewrite app_assoc, Ej. cbn [app]. rewrite array_text_commas by done. done.
Qed.

(** ** The order of rows *)

Lemma column_list_compare_le c cs a b : cmp_le (column_list_compare (c :: cs)) a b ↔
  bytes_lt (column_value c a) (column_value c b) ∨ column_value c a = column_value c b ∧ cmp_le (column_list_compare cs) a b.
Proof.
  unfold cmp_le. cbn [column_list_compare]. unfold compare_positions, bytes_lt. rewrite <-bytes_cmp_eq. destruct (bytes_cmp (column_value c a) (column_value c b)) eqn:E; naive_solver.
Qed.

#[export] Instance column_list_trans cs : Transitive (cmp_le (column_list_compare cs)).
Proof.
  induction cs as [|c cs IH]; [done|]. intros x y z. rewrite !column_list_compare_le. intros [H1|[E1 H1]] [H2|[E2 H2]].
  - left. by eapply bytes_lt_trans.
  - left. by rewrite <-E2.
  - left. by rewrite E1.
  - right. split; [congruence|]. by eapply IH.
Qed.
#[export] Instance column_list_total cs : Total (cmp_le (column_list_compare cs)).
Proof.
  induction cs as [|c cs IH]; [by left|]. intros x y. rewrite !column_list_compare_le. destruct (bytes_cmp (column_value c x) (column_value c y)) eqn:E.
  - apply bytes_cmp_eq in E. rewrite E. destruct (IH x y); auto.
  - left. by left.
  - right. left. unfold bytes_lt. by rewrite bytes_cmp_antisym, E.
Qed.

Lemma sort_positions_ext cmp cs l : (∀ a b, cmp a b = column_list_compare cs a b) → sort_positions cmp l ≡ₚ l ∧ StronglySorted (cmp_le (column_list_compare cs)) (sort_positions cmp l).
Proof.
  intros E. unfold sort_positions. split; [apply merge_sort_Permutation|].
  assert (∀ a b, cmp_le cmp a b ↔ cmp_le (column_list_compare cs) a b) as El by (intros; unfold cmp_le; by rewrite E).
  assert (Transitive (cmp_le cmp)) as Htr by (intros x y z; rewrite !El; apply column_list_trans).
  assert (Total (cmp_le cmp)) as Hto by (intros x y; rewrite !El; apply column_list_total).
  pose proof (StronglySorted_merge_sort (cmp_le cmp) l) as Hs. induction Hs as [|x k Hk IH Hx]; constructor; [done|]. eapply Forall_impl; [exact Hx|]. intros y. apply El.
Qed.

(** Batches of one schema, which has the key columns with types that can be sorted. *)
Definition same_schema (bs : list RecordBatch) (b : RecordBatch) : Prop :=
  Forall (λ b', (λ c : Name * array, (c.1, arr_type c.2)) <$> rb_columns b' = (λ c : Name * array, (c.1, arr_type c.2)) <$> rb_columns b) bs.
Definition key_sortable (b : RecordBatch) (key : list Name) : Prop :=
  Forall (λ name, ∃ i arr, list_find (λ c, c.1 = name) (rb_columns b) = Some (i, (name, arr)) ∧ key_type_ok (arr_type arr) = true) key.

Lemma list_find_schema (l k : list (Name * array)) name i arr : (λ c : Name * array, (c.1, arr_type c.2)) <$> l = (λ c : Name * array, (c.1, arr_type c.2)) <$> k →
  list_find (λ c, c.1 = name) k = Some (i, (name, arr)) → ∃ arr', l !! i = Some (name, arr') ∧ head (filter (λ c, c.1 = name) l) = Some (name, arr').
Proof.
  revert k i. induction l as [|[n a] l IH]; intros [|[m b] k] i E; try done. rewrite !fmap_cons in E. injection E as -> _ E. cbn [list_find fst]. rewrite filter_cons. cbn [fst].
  destruct (decide (m = name)) as [->|Hne]; [intros [= <- <-]; by exists a|]. intros Hf. destruct (list_find _ k) as [[i' x]|] eqn:Ef; [|done]. cbn in Hf. injection Hf as <- ->.
  destruct (IH k i' E Ef) as (arr' & H1 & H2). by exists arr'.
Qed.

(** Every key column is found in every batch. *)
Lemma key_columns_found bs b key : same_schema bs b → key_sortable b key →
  ∃ k, table_key_new b key = Ok k ∧ Forall2 (λ name it, key_type_ok it.2 = true ∧ ∃ c, batch_columns bs it.1 = Ok c ∧ Forall2 (λ b' arr, column_by_name b' name = Some arr) bs c) key k.
Proof.
  intros Hs Hk. unfold table_key_new. apply collect_map_spec. intros name Hn. unfold key_sortable in Hk. rewrite Forall_forall in Hk. destruct (Hk name Hn) as (i & arr & Ef & Ht). rewrite Ef.
  eexists. split; [done|]. split; [done|]. cbn [fst]. unfold batch_columns.
  assert (∀ b', b' ∈ bs → ∃ y, (c ← slice_get (rb_columns b') i; Ok c.2) = Ok y ∧ column_by_name b' name = Some y) as Hb; [|by apply collect_map_spec].
  intros b' Hb'. unfold same_schema in Hs. rewrite Forall_forall in Hs. destruct (list_find_schema (rb_columns b') (rb_columns b) name i arr) as (arr' & Hi & Hh); [by apply Hs|done|].
  exists arr'. unfold slice_get. rewrite Hi. cbn [mbind res_bind]. split; [done|]. unfold column_by_name. by rewrite Hh.
Qed.

(** The rows of a batch list in the order of their keys. *)
Lemma compute_order_spec b bs key : same_schema (b :: bs) b → key_sortable b key →
  ∃ cs order, compute_order (b :: bs) key = Ok order ∧ order ≡ₚ all_positions (b :: bs) ∧ StronglySorted (cmp_le (column_list_compare cs)) order ∧
    Forall2 (λ name c, Forall2 (λ b' arr, column_by_name b' name = Some arr) (b :: bs) c) key cs.
Proof.
  intros Hs Hk. destruct (key_columns_found (b :: bs) b key Hs Hk) as (k & Ek & Hkc). unfold compute_order. rewrite Ek. cbn [mbind res_bind].
  assert (∃ cs, Forall2 (λ it c, get_column (b :: bs) it.1 it.2 = Ok c ∧ batch_columns (b :: bs) it.1 = Ok c) k cs ∧
    Forall2 (λ name c, Forall2 (λ b' arr, column_by_name b' name = Some arr) (b :: bs) c) key cs) as (cs & Hcs & Hkey).
  { clear Ek Hs Hk. induction Hkc as [|name it key k [Ht (c & Ec & Hc)] _ (cs & IH1 & IH2)]; [by exists []|]. exists (c :: cs). split; [|by constructor].
    constructor; [|done]. unfold get_column. by rewrite Ht. }
  exists cs. assert (∀ cmp, (∀ x y, cmp x y = column_list_compare cs x y) → ∃ order, Ok (sort_positions cmp (all_positions (b :: bs))) = Ok order ∧
    order ≡ₚ all_positions (b :: bs) ∧ StronglySorted (cmp_le (column_list_compare cs)) order ∧
    Forall2 (λ name c, Forall2 (λ b' arr, column_by_name b' name = Some arr) (b :: bs) c) key cs) as Hsort.
  { intros cmp E. eexists. split; [done|]. destruct (sort_positions_ext cmp cs (all_positions (b :: bs)) E). done. }
  assert (sort_by_columns (b :: bs) k = Ok (sort_positions (column_list_compare cs) (all_positions (b :: bs)))) as Egen.
  { unfold sort_by_columns. assert (collect ((λ it, get_column (b :: bs) it.1 it.2) <$> k) = Ok cs) as ->; [|done].
    clear -Hcs. induction Hcs as [|it c k cs [E _] _ IH]; [done|]. rewrite fmap_cons. cbn [collect]. rewrite E. cbn [mbind res_bind]. by rewrite IH. }
  assert (∀ c : Column, ∀ x y, compare_positions c x y = match compare_positions c x y with Eq => Eq | o => o end) as E1 by (intros c x y; by destruct (compare_positions c x y)).
  destruct k as [|[i t1] [|[j t2] [|[l t3] [|? ?]]]]; try (rewrite Egen; by apply Hsort).
  - inversion Hcs as [|? c ? ? [Ec _] Hnil]; subst. inversion Hnil; subst. cbn [fst snd] in Ec. rewrite Ec. cbn [mbind res_bind]. apply Hsort. apply E1.
  - case_decide; [|rewrite Egen; by apply Hsort]. inversion Hcs as [|? c1 ? ? [_ Ec1] Hcs']; subst. inversion Hcs' as [|? c2 ? ? [_ Ec2] Hnil]; subst. inversion Hnil; subst.
    cbn [fst snd] in *. rewrite Ec1. cbn [mbind res_bind]. rewrite Ec2. cbn [mbind res_bind]. apply Hsort. intros x y. unfold cons_compare. cbn [column_list_compare]. by rewrite <-E1.
  - case_decide; [|rewrite Egen; by apply Hsort]. inversion Hcs as [|? c1 ? ? [_ Ec1] Hcs']; subst. inversion Hcs' as [|? c2 ? ? [_ Ec2] Hcs'']; subst.
    inversion Hcs'' as [|? c3 ? ? [_ Ec3] Hnil]; subst. inversion Hnil; subst. cbn [fst snd] in *. rewrite Ec1. cbn [mbind res_bind]. rewrite Ec2. cbn [mbind res_bind]. rewrite Ec3.
    cbn [mbind res_bind]. apply Hsort. intros x y. unfold cons_compare. cbn [column_list_compare]. by rewrite <-E1.
Qed.

(** ** Responses *)

(** A block of a sorted list is among the first ones exactly when it is not above their last. *)
Lemma first_blocks (l : list Z) k m n : StronglySorted Z.lt l → last (take k l) = Some m → n ∈ l → n <= m ↔ n ∈ take k l.
Proof.
  intros Hs Hm Hn. rewrite <-(take_drop k l) in Hs, Hn. apply StronglySorted_app in Hs as (Hlt & Ht & _).
  apply last_Some in Hm as (l' & E). split.
  - intros Hle. apply elem_of_app in Hn as [?|Hn]; [done|]. assert (m < n); [|lia]. apply Hlt; [rewrite E; lmem|done].
  - rewrite E in Ht |- *. apply StronglySorted_app in Ht as (Hlt' & _ & _). intros [Hn'|Hn']%elem_of_app; [|apply list_elem_of_singleton in Hn'; lia].
    assert (n < m); [|lia]. apply Hlt'; [done|lmem].
Qed.

Lemma response_blocks_spec {PB : PolarsBlocks} {PBL : PolarsBlocksLaws} include_all header items :
  header ≠ [] → NoDup (or_block <$> header) → Forall (λ r, is_Some (or_weight r)) header → weights_ok (weights (header ++ mjoin items)) →
  ∃ cs k last_block, candidates include_all header items cs ∧ chosen cs k ∧ select_blocks include_all header items = Ok (take k cs.*1, last_block) ∧
    ∀ idx rows, (header :: items) !! idx = Some rows → Forall (λ r, or_block r ∈ or_block <$> header) rows →
      returned_rows include_all idx (take k cs.*1) last_block rows = filter (λ r, or_block r ∈ take k cs.*1) rows.
Proof.
  intros Hne Hnd Hw Hok. destruct (select_blocks_spec header items Hne Hnd Hw Hok include_all) as (cs & k & m & Hcs & Hk & Hm & E).
  exists cs, k, m. do 3 (split; [done|]). intros idx rows Hidx Hrows. unfold returned_rows. destruct ((idx =? 0)%nat && negb include_all) eqn:Ei; [done|].
  apply list_filter_iff'. rewrite Forall_forall in Hrows |- *. intros r Hr. apply (first_blocks cs.*1); [apply Hcs|done|]. apply (cn_blocks _ _ _ _ Hcs).
  assert (or_block r ∈ or_block <$> header ∨ or_block r ∈ or_block <$> mjoin items) as Hin by (left; by apply Hrows).
  destruct include_all; [rewrite fmap_app, elem_of_app; done|]. split; [by apply Hrows|]. left. destruct idx as [|idx]; [done|]. cbn in Hidx.
  apply list_elem_of_fmap_2, list_elem_of_join. exists rows. split; [done|by eapply list_elem_of_lookup_2].
Qed.

(** C34: The response of a query holds the first blocks, in ascending order, of those that may
    be returned (all blocks, or those with items and the first and the last one), as many as
    fit into 20 MiB and at least one, so a query always makes progress; one more block would
    not fit; and every table returns exactly its rows of these blocks. *)
Theorem response_blocks_exact {PB : PolarsBlocks} {PBL : PolarsBlocksLaws} include_all header items :
  header ≠ [] → NoDup (or_block <$> header) → Forall (λ r, is_Some (or_weight r)) header → weights_ok (weights (header ++ mjoin items)) →
  ∃ cs k last_block, candidates include_all header items cs ∧ chosen cs k ∧ select_blocks include_all header items = Ok (take k cs.*1, last_block) ∧
    ∀ idx rows, (header :: items) !! idx = Some rows → Forall (λ r, or_block r ∈ or_block <$> header) rows →
      returned_rows include_all idx (take k cs.*1) last_block rows = filter (λ r, or_block r ∈ take k cs.*1) rows.
Proof. apply response_blocks_spec. Qed.

(** Both response writers return and print exactly one JSON object per block, in the order
    of the blocks: the header and, for each table that has rows of the block, the array of
    these rows in their order; as lines, or as the items of one array, whenever the buffer is
    flushed in between. *)
Theorem response_written_exact h items hs tables :
  StronglySorted Z.lt hs.*1 → pending h hs → Forall2 (rows_ok hs.*1) items tables →
  (∃ j items', lines_write_blocks append_all (length hs) (writer_new []) (h :: items) = Ok (j, items') ∧
     lines_finish append_all j = Ok (mjoin ((λ hb, block_text tables hb ++ [10]) <$> hs))) ∧
  ∃ j items', array_write_blocks append_all (length hs) (writer_new []) (h :: items) = Ok (j, items') ∧
     array_finish append_all j = Ok ([91] ++ commas (block_text tables <$> hs) ++ [93]).
Proof. apply writers_spec. Qed.

(** ** The parent block *)

(** A column of numbers that are not null and fit u64. *)
Definition number_column (full : RecordBatch) (c : Name) : Prop :=
  ∃ signed bits arr, column_by_name full c = Some arr ∧ arr_type arr = DInt signed bits ∧
    ∀ i, (i < rb_num_rows full)%nat → ∃ z, tcell full c i = Some (CInt z) ∧ 0 <= z < 2 ^ 64.
(** Row [i] of the block table names a parent at most 100 positions before the first block. *)
Definition in_window (full : RecordBatch) (hp : bool) (n : Z) (i : nat) : Prop :=
  (i < rb_num_rows full)%nat ∧
  ∃ z, tcell full (parent_window hp n).1 i = Some (CInt z) ∧ saturating_sub n 100 <= z <= (parent_window hp n).2.
(** The number and the hash of the parent of the block of row [i]. *)
Definition parent_of (full : RecordBatch) (hp : bool) (n : Z) (i : nat) : BlockRef :=
  let z := int_cell (tcell full (parent_window hp n).1 i) in
  (if hp then z else saturating_sub z 1, match tcell full "parent_hash" i with Some (CStr s) => s | _ => "" end).

(** A comparison with a number, inside or outside the range of the column's type. *)
Lemma between_sem signed bits z lo hi : cell_ok (DInt signed bits) (CInt z) →
  sem (PAnd [PLtEq (block_scalar lo); PGtEq (block_scalar hi)]) (DInt signed bits) (Some (CInt z)) = Some (bool_decide (lo <= z <= hi)).
Proof.
  intros Hz. cbn in Hz. cbn [sem map]. unfold all3, sem_cmp, value_domain, block_scalar. cbn [fold_left sc_value fmap option_fmap option_map cell_leb].
  repeat (match goal with |- context [if ?b then _ else _] => destruct b eqn:? end); cbn; f_equal; case_bool_decide; lia.
Qed.

Section parent_check.
Context (full : RecordBatch) (n : Z) (Hn : 0 <= n < 2 ^ 64).
Context (hp : bool) (Hb : batch_ok full) (Hc : number_column full (parent_window hp n).1).

Lemma window_bounds : 0 <= saturating_sub n 100 < 2 ^ 64 ∧ 0 <= (parent_window hp n).2 < 2 ^ 64.
Proof. unfold parent_window, saturating_sub. destruct hp; cbn; lia. Qed.

Lemma parent_predicate_ok : opt_pred_ok full (Some (parent_predicate hp n)).
Proof.
  destruct Hc as (sg & bits & arr & Ha & Ht & _). pose proof window_bounds as [H1 H2]. split; [|done]. exists arr. split; [done|]. rewrite Ht. cbn.
  unfold scalar_fits, scalar_ok. cbn. repeat constructor; unfold int_min, int_max; try lia; right; done.
Qed.

Lemma parent_window_rows i : i ∈ picked_rows (Some (parent_predicate hp n)) full None ↔ in_window full hp n i.
Proof.
  unfold picked_rows. rewrite list_elem_of_filter. cbn [rows_of]. rewrite elem_of_seq. unfold picked. rewrite bool_decide_eq_true.
  destruct Hc as (sg & bits & arr & Ha & Ht & Hz). unfold in_window.
  assert ((i < rb_num_rows full)%nat → ∀ z, tcell full (parent_window hp n).1 i = Some (CInt z) →
    row_sem (parent_predicate hp n) full i = Some (bool_decide (saturating_sub n 100 <= z <= (parent_window hp n).2))) as Hsem.
  { intros Hi z Ez. unfold tcell in Ez. unfold parent_predicate, col_between. cbn [row_sem]. rewrite Ha in Ez |- *. rewrite Ez, Ht. apply between_sem. rewrite <-Ht.
    destruct (batch_column_ok _ _ _ Hb Ha) as [Hok _]. unfold array_ok in Hok. rewrite Forall_forall in Hok. apply (Hok (Some (CInt z))).
    rewrite <-Ez. unfold cell_at in Ez |- *. destruct (nth_in_or_default i (arr_cells arr) None) as [Hin|E]; [by apply list_elem_of_In|congruence]. }
  split.
  - intros [Hs Hi]. split; [lia|]. destruct (Hz i) as (z & Ez & _); [lia|]. exists z. split; [done|]. rewrite (Hsem ltac:(lia) z Ez) in Hs. injection Hs as Hs. by apply bool_decide_eq_true in Hs.
  - intros (Hi & z & Ez & Hzb). split; [|lia]. rewrite (Hsem Hi z Ez). f_equal. by apply bool_decide_eq_true_2.
Qed.

Context (s : Scan) (Hs : fresh_scan s full) (Hh : is_Some (column_by_name full "parent_hash")).

Lemma parent_frame : ∃ df, to_lazy_df (with_predicate (with_column (with_column s (parent_window hp n).1) "parent_hash") (Some (parent_predicate hp n))) = Ok df ∧
  has_columns df [(parent_window hp n).1; "parent_hash"] ∧
  collect (parent_ref hp (parent_window hp n).1 <$> fr_rows df) = Ok (parent_of full hp n <$> picked_rows (Some (parent_predicate hp n)) full None).
Proof.
  destruct Hs as [HR Hp Hpr Hsel Hix]. set (nc := (parent_window hp n).1). set (columns := Some ({[nc]} ∪ {["parent_hash"]} : gset Name)).
  assert (scan_projection (with_predicate (with_column (with_column s nc) "parent_hash") (Some (parent_predicate hp n))) = columns) as Hcol.
  { unfold with_column, with_columns. rewrite Hpr. unfold columns. cbn. f_equal. set_solver. }
  assert (key_columns full [nc; "parent_hash"]) as Hk.
  { destruct Hc as (? & ? & arr & Ha & _). repeat constructor; [by exists arr|done]. }
  assert (Forall (λ c, in_projection columns c) [nc; "parent_hash"]) as Hin by (repeat constructor; cbn; set_solver).
  destruct (reader_read (r := reader s) (Some (parent_predicate hp n)) columns None false (default_null_columns s)) as (bs & Er & Hf & _).
  - apply parent_predicate_ok.
  - done.
  - right. apply (keep_columns_ne full [nc]); [done|by apply Forall_cons in Hk as [? _]; constructor|]. constructor; [|done]. cbn. set_solver.
  - exists (batches_frame bs). unfold to_lazy_df, scan_execute. rewrite Hcol.
    assert (∀ X, read (reader s) (Some (parent_predicate hp n)) columns (row_selection s) (row_index s) (default_null_columns s) = X →
      read (reader (with_predicate (with_column (with_column s nc) "parent_hash") (Some (parent_predicate hp n)))) (Some (parent_predicate hp n)) columns
        (row_selection (with_predicate (with_column (with_column s nc) "parent_hash") (Some (parent_predicate hp n))))
        (row_index (with_predicate (with_column (with_column s nc) "parent_hash") (Some (parent_predicate hp n))))
        (default_null_columns (with_predicate (with_column (with_column s nc) "parent_hash") (Some (parent_predicate hp n)))) = X) as Hrd.
    { intros X <-. unfold with_column, with_columns. rewrite Hpr. done. }
    cbn [predicate with_predicate]. split; [|split].
    + rewrite (Hrd (Ok bs)) by (rewrite Hsel, Hix; exact Er). done.
    + rewrite Hf. by apply table_frame_has.
    + rewrite Hf, table_frame_rows, <-list_fmap_compose. rewrite <-(collect_Ok (parent_of full hp n <$> _)), <-list_fmap_compose. f_equal.
      apply list_fmap_ext. intros k i Hi%list_elem_of_lookup_2. apply parent_window_rows in Hi as [Hi _]. cbn [compose].
      destruct Hc as (? & ? & arr & Ha & _ & Hz). destruct (Hz i Hi) as (z & Ez & Hzb). pose proof (reader_names (r := reader s)) as Hri.
      pose proof (key_not_index full [nc; "parent_hash"] Hri Hk) as Hni. apply Forall_cons in Hni as [Hn1 [Hn2 _]%Forall_cons].
      unfold compose, parent_ref, parent_of. rewrite !get_row_of; [|done|cbn; set_solver|done|cbn; set_solver]. fold nc. fold nc in Ez. rewrite Ez. cbn [int_cell].
      rewrite (proj2 (Z.leb_le 0 z)), (proj2 (Z.ltb_lt z (2 ^ 64))) by lia. done.
Qed.
End parent_check.

Lemma last_greatest (refs : list BlockRef) b : last (merge_sort ref_le refs) = Some b → b ∈ refs ∧ ∀ b', b' ∈ refs → b'.1 <= b.1.
Proof.
  intros Hl. assert (StronglySorted ref_le (merge_sort ref_le refs)) as Hs by (apply StronglySorted_merge_sort; [intros x y z; unfold ref_le; lia|intros x y; unfold ref_le; lia]).
  apply last_Some in Hl as (l & E). rewrite E in Hs. apply StronglySorted_app in Hs as (Hle & _ & _).
  assert (∀ x, x ∈ refs ↔ x ∈ l ++ [b]) as Hin by (intros x; by rewrite <-E, merge_sort_Permutation). split; [apply Hin; lmem|].
  intros b' Hb'. apply Hin in Hb' as [Hb'| ->%list_elem_of_singleton]%elem_of_app; [|done]. apply Hle; [done|lmem].
Qed.

(** What [check_parent_block] is given: a plan with a first block and the hash of its parent,
    and a block table with numbers and parent hashes. *)
Record parent_given (p : Plan) (chunk : Chunk) (full : RecordBatch) (n : Z) (h : string) (hp : bool) : Prop := mkParentGiven {
  pg_hash : parent_block_hash p = Some h;
  pg_block : first_block p = Some n;
  pg_u64 : 0 <= n < 2 ^ 64;
  pg_scan : ∃ o s, plan_outputs p !! 0%nat = Some o ∧ chunk (out_table o) = Ok s ∧ fresh_scan s full ∧ (reader_schema (reader s)).*1 = (rb_columns full).*1;
  pg_mode : hp = bool_decide ("parent_number" ∈ (rb_columns full).*1);
  pg_numbers : number_column full (parent_window hp n).1;
  pg_hashes : is_Some (column_by_name full "parent_hash")
}.

Lemma check_parent_block_spec p chunk full n h hp : parent_given p chunk full n h hp →
  ∃ refs, (∀ b, b ∈ refs ↔ ∃ i, in_window full hp n i ∧ b = parent_of full hp n i) ∧ StronglySorted ref_le refs ∧
    check_parent_block p chunk =
      match last refs with
      | None => Err (EMsg "block is not present in the chunk")
      | Some b => Ok (if decide (b.2 = h) then None else Some (mkUnexpected refs h))
      end ∧ ∀ b, last refs = Some b → b ∈ refs ∧ ∀ b', b' ∈ refs → b'.1 <= b.1.
Proof.
  intros [Hh Hf Hn (o & s & Ho & Es & Hs & Hsch) Hm Hc Hph]. assert (batch_ok full) as Hb by (destruct Hs as [HR _ _ _ _]; apply (reader_batch_ok (r := reader s))).
  destruct (parent_frame full n Hn hp Hb Hc s Hs Hph) as (df & Edf & Hcols & Eref).
  exists (merge_sort ref_le (parent_of full hp n <$> picked_rows (Some (parent_predicate hp n)) full None)). split; [|split; [|split]].
  - intros b. rewrite merge_sort_Permutation, list_elem_of_fmap. apply exist_proper. intros i. rewrite (parent_window_rows full n hp Hb Hc). tauto.
  - apply StronglySorted_merge_sort; [intros x y z; unfold ref_le; lia|intros x y; unfold ref_le; lia].
  - unfold check_parent_block. rewrite Hh, Hf, (proj2 (slice_get_Some _ _ _) Ho). cbn [mbind res_bind]. rewrite Es. cbn [mbind res_bind]. rewrite Hsch, <-Hm, Edf. cbn [mbind res_bind].
    rewrite bool_decide_eq_true_2 by done. rewrite Eref. done.
  - intros b Hl. apply last_greatest in Hl as [Hin Hle]. split; [by rewrite merge_sort_Permutation|]. intros b'. rewrite merge_sort_Permutation. apply Hle.
Qed.

(** C35: A query that names the hash of the parent of its first block is checked against the
    predecessors that the chunk knows among the 100 positions before the first block.  It is
    refused exactly when the nearest of them has another hash, and the refusal carries exactly
    these predecessors in ascending order.  When the chunk knows none in that window the query
    fails with an error: also across a hole of more than 100 positions, where the parent is
    stored and could be compared (GAP-21, see [QueryExamples.wide_hole_fails]). *)
Theorem parent_block_check_exact p chunk full n h hp : parent_given p chunk full n h hp →
  ((∀ i, ¬ in_window full hp n i) → ∃ e, check_parent_block p chunk = Err e) ∧
  ∀ top, in_window full hp n top →
    (∀ i, in_window full hp n i → i = top ∨ (parent_of full hp n i).1 < (parent_of full hp n top).1) →
    if decide ((parent_of full hp n top).2 = h) then check_parent_block p chunk = Ok None
    else ∃ refs, check_parent_block p chunk = Ok (Some (mkUnexpected refs h)) ∧ StronglySorted ref_le refs ∧
      ∀ b, b ∈ refs ↔ ∃ i, in_window full hp n i ∧ b = parent_of full hp n i.
Proof.
  intros Hg. destruct (check_parent_block_spec p chunk full n h hp Hg) as (refs & Hin & Hs & E & Hl). rewrite E. split.
  - intros Hno. destruct (last refs) as [b|] eqn:El; [|by eexists]. destruct (Hl b eq_refl) as [Hb _]. apply Hin in Hb as (i & Hi & _). by destruct (Hno i).
  - intros top Ht Hmax. destruct (last refs) as [b|] eqn:El.
    + destruct (Hl b eq_refl) as [Hb Hle]. apply Hin in Hb as (i & Hi & ->). assert (parent_of full hp n top ∈ refs) as Htop by (apply Hin; eauto). apply Hle in Htop.
      assert (i = top) as -> by (destruct (Hmax i Hi); [done|lia]). destruct (decide _); [done|]. by exists refs.
    + apply last_None in El as ->. assert (parent_of full hp n top ∈ []) as []%elem_of_nil by (apply Hin; eauto).
Qed.
