(* ===== verification/QueryJson.v ===== *)
(** * JSON of rows (crates/query/src/json)

    The expressions of exp.rs evaluated on arrow arrays, with their type checks and errors; the
    choice of encoders for plain values (encoder/factory.rs); and the encoders of numbers, hex
    numbers, strings, booleans, binaries, lists, objects and nulls (encoder/*.rs), which write
    one row each.  An encoder reads nothing but its row: arrays that agree in a row give the
    same JSON for it. *)
From stdpp Require Import gmap.
From S2P Require Import Prelude Bytes QueryStack QueryArrow QueryPlan QueryOutput.

(** ** Arrays *)

Inductive TimeUnit : Type := Second | Millisecond | Microsecond | Nanosecond.
#[export] Instance TimeUnit_eq_dec : EqDecision TimeUnit.
Proof. solve_decision. Defined.

(** The types of values that are integers in memory. *)
Inductive IntType : Type :=
| JInt (signed : bool) (bits : Z)
| JTimestamp (unit : TimeUnit)
| JDecimal128 (scale : Z).
#[export] Instance IntType_eq_dec : EqDecision IntType.
Proof. solve_decision. Defined.

(** [NullBuffer]: true for a null. *)
Abbreviation NullBuffer := (list bool).

(** Arrow arrays: an optional null buffer and the values, whatever is in the slots of nulls. *)
Inductive jarray : Type :=
| JInts (ty : IntType) (nulls : option NullBuffer) (values : list Z)
| JFloats (bits : Z) (nulls : option NullBuffer) (values : list Z)
| JBools (nulls : option NullBuffer) (values : list bool)
| JStrings (nulls : option NullBuffer) (values : list bytes)
| JBinaries (nulls : option NullBuffer) (values : list bytes)
| JFixedBinaries (size : nat) (nulls : option NullBuffer) (values : list bytes)
| JLists (nulls : option NullBuffer) (offsets : list nat) (items : jarray)
| JStructs (nulls : option NullBuffer) (columns : list (Name * jarray))
| JNulls
| JOthers (nulls : option NullBuffer).

(** [array.nulls()] *)
Definition nulls_of (a : jarray) : option NullBuffer :=
  match a with
  | JInts _ n _ | JFloats _ n _ | JBools n _ | JStrings n _ | JBinaries n _ | JFixedBinaries _ n _ | JLists n _ _ | JStructs n _ | JOthers n => n
  | JNulls => None
  end.
Definition struct_column (columns : list (Name * jarray)) (name : Name) : option jarray := snd <$> head (filter (λ c, c.1 = name) columns).

(** Functions of other crates: lexical_core, serde_json and convert_case. *)
Class JsonTexts : Type := {
  int_text : Z → bytes;
  (* of a float of the given width, by its bits; null if it is not finite *)
  float_text : Z → Z → bytes;
  string_text : bytes → bytes;
  (* make_object_prop: the name in camel case, quoted, and a colon *)
  object_prop : Name → bytes
}.

(** ** Encoders (json/encoder) *)

Definition null_text : bytes := str_bytes "null".
Definition quoted (b : bytes) : bytes := 34 :: b ++ [34].
(** Texts with a comma after each. *)
Definition with_commas (l : list bytes) : bytes := mjoin ((λ b, b ++ [comma]) <$> l).

(** [nulls.is_null(idx)] *)
Definition is_null (nulls : option NullBuffer) (idx : nat) : res bool := match nulls with Some n => slice_get n idx | None => Ok false end.
(** [NullableEncoder], for an array with a null buffer. *)
Definition nullable (nulls : option NullBuffer) (e : EncoderObject) : EncoderObject := λ idx,
  null ← is_null nulls idx; if null : bool then Ok null_text else e idx.

(** [write_hex]: the digits are written into a slice of as many bytes as there are values, which
    faster_hex refuses when it is too short. *)
Definition hex_digit (n : Z) : Z := nth (Z.to_nat n) (str_bytes "0123456789abcdef") 0.
Definition hex_digits (b : bytes) : bytes := mjoin ((λ x, [hex_digit (x / 16); hex_digit (x mod 16)]) <$> b).
Definition write_hex (b : bytes) : res bytes :=
  if (length b <? 2 * length b)%nat then Panic "called `Result::unwrap()` on an `Err` value: InvalidLength"
  else Ok (quoted (48 :: 120 :: hex_digits b)).
(** [HexEncode::encode]: all the digits of an unsigned integer of [bits] bits. *)
Definition be_bytes (bits v : Z) : bytes := (λ i, (v / 256 ^ Z.of_nat i) mod 256) <$> rev (seq 0 (Z.to_nat (bits / 8))).
Definition hex_number (bits v : Z) : bytes := quoted (48 :: 120 :: hex_digits (be_bytes bits v)).

(** [self.offsets[idx]..self.offsets[idx + 1]] *)
Definition item_range (offsets : list nat) (idx : nat) : res (list nat) :=
  start ← slice_get offsets idx; end_ ← slice_get offsets (S idx); Ok (seq start (end_ - start)).
(** [ListSpreadEncoder] and [ListEncoder] *)
Definition list_spread (offsets : list nat) (e : EncoderObject) : EncoderObject := λ idx,
  range ← item_range offsets idx; texts ← collect (e <$> range); Ok (with_commas texts).
Definition list_encoder (offsets : list nat) (e : EncoderObject) : EncoderObject := λ idx,
  items ← list_spread offsets e idx; json_close 93 (91 :: items).
(** [StructEncoder], with the text that starts each field. *)
Definition struct_encoder (fields : list (bytes * EncoderObject)) : EncoderObject := λ idx,
  texts ← collect ((λ f : bytes * EncoderObject, text ← f.2 idx; Ok (f.1 ++ text)) <$> fields);
  json_close 125 (123 :: with_commas texts).

Section json.
Context {JT : JsonTexts}.

Definition read_value {A} (values : list A) (text : A → res bytes) : EncoderObject := λ idx, v ← slice_get values idx; text v.

(** ** Plain values (encoder/factory.rs) *)

Definition unsupported : res EncoderObject := Err (EMsg "unsupported arrow type").

(** [make_encoder]; a list of lists and a list of other items are built alike. *)
Fixpoint make_encoder (a : jarray) : res EncoderObject :=
  match a with
  | JInts (JInt _ _ | JTimestamp (Second | Millisecond | Microsecond)) nulls values => Ok (nullable nulls (read_value values (λ v, Ok (int_text v))))
  | JInts _ _ _ => unsupported
  | JFloats bits nulls values => Ok (nullable nulls (read_value values (λ v, Ok (float_text bits v))))
  | JBools nulls values => Ok (nullable nulls (read_value values (λ v, Ok (str_bytes (if v : bool then "true" else "false")))))
  | JStrings nulls values => Ok (nullable nulls (read_value values (λ v, Ok (string_text v))))
  | JBinaries nulls values | JFixedBinaries _ nulls values => Ok (nullable nulls (read_value values write_hex))
  | JLists nulls offsets items => e ← make_encoder items; Ok (nullable nulls (list_encoder offsets e))
  | JStructs nulls columns =>
      fields ← collect (map (λ c : Name * jarray, e ← make_encoder c.2; Ok (object_prop c.1, e)) columns);
      Ok (nullable nulls (struct_encoder fields))
  | JNulls | JOthers _ => unsupported
  end.

(** [extract_nulls]: the array without its null buffer, and the buffer. *)
Definition extract_nulls (a : jarray) : res (jarray * option NullBuffer) :=
  match nulls_of a with
  | None => Ok (a, None)
  | Some n =>
      match a with
      | JInts (JInt s b) _ values => Ok (JInts (JInt s b) None values, Some n)
      | JFloats bits _ values => Ok (JFloats bits None values, Some n)
      | JBools _ values => Ok (JBools None values, Some n)
      | JStrings _ values => Ok (JStrings None values, Some n)
      | JBinaries _ values => Ok (JBinaries None values, Some n)
      | JFixedBinaries size _ values => Ok (JFixedBinaries size None values, Some n)
      | JLists _ offsets items => Ok (JLists None offsets items, Some n)
      | JStructs _ columns => Ok (JStructs None columns, Some n)
      | _ => Err (EMsg "unsupported arrow type")
      end
  end.

(** ** Expressions (exp.rs) *)

Definition eval_json (a : jarray) : res EncoderObject :=
  match a with
  | JBinaries nulls values | JStrings nulls values => Ok (nullable nulls (read_value values Ok))
  | _ => Err (EMsg "Expected a raw JSON column")
  end.

Definition eval_bignum (a : jarray) : res EncoderObject :=
  match a with
  | JInts ty nulls values =>
      if match ty with JInt _ _ => true | JDecimal128 scale => scale =? 0 | JTimestamp _ => false end
      then Ok (nullable nulls (read_value values (λ v, Ok (quoted (int_text v)))))
      else Err (EMsg "Expected numeric primitive value")
  | JFloats bits nulls values => Ok (nullable nulls (read_value values (λ v, Ok (quoted (float_text bits v)))))
  | _ => Err (EMsg "Expected numeric primitive value")
  end.

Definition eval_hex (a : jarray) : res EncoderObject :=
  match a with
  | JInts (JInt false bits) nulls values => Ok (nullable nulls (read_value values (λ v, Ok (hex_number bits v))))
  | _ => Err (EMsg "Expected unsigned numeric primitive value")
  end.

Definition eval_solana_transaction_version (a : jarray) : res EncoderObject :=
  match a with
  | JInts (JInt true 16) nulls values => Ok (nullable nulls (read_value values (λ v, Ok (if v =? -1 then quoted (str_bytes "legacy") else int_text v))))
  | _ => Err (EMsg "expected Int16 value")
  end.

(** [TimestampEncoder] *)
Definition scaled (mul div v : Z) : res bytes :=
  if (- 2 ^ 63 <=? v * mul) && (v * mul <? 2 ^ 63) then Ok (int_text (Z.quot (v * mul) div)) else Panic "attempt to multiply with overflow".
Definition eval_timestamp (target : TimeUnit) (a : jarray) : res EncoderObject :=
  match a with
  | JInts (JTimestamp (Second as unit) | JTimestamp (Millisecond as unit)) nulls values =>
      '(mul, div) ← (match unit, target with
        | Second, Millisecond => Ok (1000, 1)
        | Millisecond, Second => Ok (1, 1000)
        | actual, target => if decide (actual = target) then Ok (1, 1) else Panic "unexpected combination of actual and target time units"
        end);
      Ok (nullable nulls (read_value values (scaled mul div)))
  | _ => Err (EMsg "expected Timestamp measured in seconds or milliseconds")
  end.

(** The lists of a roll: items before the first column with nulls, those with nulls, and a list
    at the end. *)
Record Roll : Type := mkRoll { non_nullable : list EncoderObject; nullable_items : list (NullBuffer * EncoderObject); spread : option EncoderObject }.

Fixpoint nullable_texts (l : list (NullBuffer * EncoderObject)) (idx : nat) : res (list bytes * bool) :=
  match l with
  | [] => Ok ([], false)
  | (nulls, e) :: l =>
      null ← slice_get nulls idx;
      if null : bool then Ok ([], true) else
      text ← e idx;
      '(texts, stopped) ← nullable_texts l idx;
      Ok (text :: texts, stopped)
  end.
(** [ListRollEncoder] *)
Definition roll_encoder (r : Roll) : EncoderObject := λ idx,
  items ← collect ((λ e : EncoderObject, e idx) <$> non_nullable r);
  '(texts, stopped) ← nullable_texts (nullable_items r) idx;
  last_ ← (match spread r with Some e => if stopped : bool then Ok [] else e idx | None => Ok [] end);
  json_close 93 (91 :: with_commas (items ++ texts) ++ last_).

(** The loop of [eval_roll] over the columns. *)
Fixpoint roll_columns (eval : jarray → res EncoderObject) (columns : list (Name * jarray)) (names : list Name) (r : Roll) : res Roll :=
  match names with
  | [] => Ok r
  | name :: names =>
      item ← ok_or (struct_column columns name) (EMsg "column is not found");
      '(item, item_nulls) ← extract_nulls item;
      match item with
      | JLists nulls offsets values =>
          _ ← ensure (length names =? 0)%nat (EMsg "column is a list item of a roll, but it does not come last");
          _ ← ensure (negb (existsb id (default [] nulls))) (EMsg "list item of a roll is not supposed to be nullable");
          e ← eval values;
          Ok (mkRoll (non_nullable r) (nullable_items r) (Some (list_spread offsets e)))
      | _ =>
          match item_nulls with
          | None =>
              _ ← ensure (length (nullable_items r) =? 0)%nat (EMsg "Failed to construct list roll");
              e ← eval item;
              roll_columns eval columns names (mkRoll (non_nullable r ++ [e]) (nullable_items r) (spread r))
          | Some n =>
              e ← eval item;
              roll_columns eval columns names (mkRoll (non_nullable r) (nullable_items r ++ [(n, e)]) (spread r))
          end
      end
  end.

(** [EnumEncoder] *)
Definition enum_encoder (tags : list bytes) (variants : list (Name * EncoderObject)) : EncoderObject := λ idx,
  tag ← slice_get tags idx;
  match head (filter (λ v : Name * EncoderObject, str_bytes v.1 = tag) variants) with
  | Some v => v.2 idx
  | None => Ok null_text
  end.

Definition struct_expected {A} : res A := Err (EMsg "expected a StructArray").

(** [Exp::eval] *)
Fixpoint exp_eval (e : Exp) (a : jarray) : res EncoderObject :=
  match e with
  | EValue => make_encoder a
  | EJson => eval_json a
  | EBigNum => eval_bignum a
  | EHexNum => eval_hex a
  | ESolanaTransactionVersion => eval_solana_transaction_version a
  | ETimestampSecond => eval_timestamp Second a
  | ETimestampMillisecond => eval_timestamp Millisecond a
  | EObject props =>
      '(a, nulls) ← extract_nulls a;
      fields ← collect (map (λ p : Name * Exp, enc ← exp_eval p.2 a; Ok (object_prop p.1, enc)) props);
      Ok (nullable nulls (struct_encoder fields))
  | EProp name exp =>
      match a with
      | JStructs nulls columns =>
          column ← ok_or (struct_column columns name) (EMsg "column not found");
          match column with
          | JNulls => Ok (nullable nulls (λ _, Ok null_text))
          | _ => enc ← exp_eval exp column; Ok (nullable nulls enc)
          end
      | _ => struct_expected
      end
  | EList exp =>
      match a with
      | JLists nulls offsets items => enc ← exp_eval exp items; Ok (nullable nulls (list_encoder offsets enc))
      | _ => Panic "list array"
      end
  | ERoll columns exp =>
      '(a, nulls) ← extract_nulls a;
      match a with
      | JStructs _ cs => r ← roll_columns (exp_eval exp) cs columns (mkRoll [] [] None); Ok (nullable nulls (roll_encoder r))
      | _ => struct_expected
      end
  | EEnum tag_column variants =>
      '(a, nulls) ← extract_nulls a;
      match a with
      | JStructs _ cs =>
          tag ← ok_or (struct_column cs tag_column) (EMsg "column not found");
          '(tag, tag_nulls) ← extract_nulls tag;
          match tag with
          | JStrings _ tags =>
              vs ← collect (map (λ v : Name * Exp, enc ← exp_eval v.2 a; Ok (v.1, enc)) variants);
              Ok (nullable nulls (nullable tag_nulls (enum_encoder tags vs)))
          | _ => Err (EMsg "expected a StringArray")
          end
      | _ => struct_expected
      end
  end.
End json.

(** ** Rows *)

(** Row [i] of an array and row [j] of another one show the same: both are null, or hold the
    same value; hidden values of nulls differ at will, except that of a null list. *)
Inductive same_row : jarray → nat → jarray → nat → Prop :=
| same_ints ty n1 v1 n2 v2 i j : is_null n1 i = is_null n2 j → (is_null n1 i = Ok false → slice_get v1 i = slice_get v2 j) → same_row (JInts ty n1 v1) i (JInts ty n2 v2) j
| same_floats b n1 v1 n2 v2 i j : is_null n1 i = is_null n2 j → (is_null n1 i = Ok false → slice_get v1 i = slice_get v2 j) → same_row (JFloats b n1 v1) i (JFloats b n2 v2) j
| same_bools n1 v1 n2 v2 i j : is_null n1 i = is_null n2 j → (is_null n1 i = Ok false → slice_get v1 i = slice_get v2 j) → same_row (JBools n1 v1) i (JBools n2 v2) j
| same_strings n1 v1 n2 v2 i j : is_null n1 i = is_null n2 j → (is_null n1 i = Ok false → slice_get v1 i = slice_get v2 j) → same_row (JStrings n1 v1) i (JStrings n2 v2) j
| same_binaries n1 v1 n2 v2 i j : is_null n1 i = is_null n2 j → (is_null n1 i = Ok false → slice_get v1 i = slice_get v2 j) → same_row (JBinaries n1 v1) i (JBinaries n2 v2) j
| same_fixed s n1 v1 n2 v2 i j : is_null n1 i = is_null n2 j → (is_null n1 i = Ok false → slice_get v1 i = slice_get v2 j) →
    same_row (JFixedBinaries s n1 v1) i (JFixedBinaries s n2 v2) j
| same_lists n1 o1 a1 n2 o2 a2 i j r1 r2 : is_null n1 i = is_null n2 j → item_range o1 i = Ok r1 → item_range o2 j = Ok r2 →
    Forall2 (λ k l, same_row a1 k a2 l) r1 r2 → same_row (JLists n1 o1 a1) i (JLists n2 o2 a2) j
| same_structs n1 c1 n2 c2 i j : is_null n1 i = is_null n2 j → c1.*1 = c2.*1 →
    (is_null n1 i = Ok false → Forall2 (λ x y, same_row x.2 i y.2 j) c1 c2) → same_row (JStructs n1 c1) i (JStructs n2 c2) j
| same_nulls i j : same_row JNulls i JNulls j
| same_others n1 n2 i j : is_null n1 i = is_null n2 j → same_row (JOthers n1) i (JOthers n2) j.

(** Induction that reaches the columns of structs and the parts of expressions. *)
Lemma jarray_induction (P : jarray → Prop) :
  (∀ ty n v, P (JInts ty n v)) → (∀ b n v, P (JFloats b n v)) → (∀ n v, P (JBools n v)) → (∀ n v, P (JStrings n v)) → (∀ n v, P (JBinaries n v)) →
  (∀ s n v, P (JFixedBinaries s n v)) → (∀ n o a, P a → P (JLists n o a)) → (∀ n cs, Forall (λ c, P c.2) cs → P (JStructs n cs)) → P JNulls → (∀ n, P (JOthers n)) → ∀ a, P a.
Proof.
  intros H1 H2 H3 H4 H5 H6 H7 H8 H9 H10. fix IH 1. intros [ty n v|b n v|n v|n v|n v|s n v|n o a|n cs| |n];
    [apply H1|apply H2|apply H3|apply H4|apply H5|apply H6|apply H7, IH|apply H8|apply H9|apply H10].
  induction cs as [|[c a] cs IHc]; constructor; [apply IH|exact IHc].
Qed.
Lemma exp_induction (P : Exp → Prop) :
  P EValue → P EJson → P EBigNum → P EHexNum → P ESolanaTransactionVersion → P ETimestampSecond → P ETimestampMillisecond →
  (∀ ps, Forall (λ p, P p.2) ps → P (EObject ps)) → (∀ n e, P e → P (EProp n e)) → (∀ e, P e → P (EList e)) → (∀ cs e, P e → P (ERoll cs e)) →
  (∀ t vs, Forall (λ v, P v.2) vs → P (EEnum t vs)) → ∀ e, P e.
Proof.
  intros H1 H2 H3 H4 H5 H6 H7 H8 H9 H10 H11 H12. fix IH 1. intros [| | | | | | |ps|n e|e|cs e|t vs];
    [apply H1|apply H2|apply H3|apply H4|apply H5|apply H6|apply H7|apply H8|apply H9, IH|apply H10, IH|apply H11, IH|apply H12].
  - induction ps as [|[n e] ps IHp]; constructor; [apply IH|exact IHp].
  - induction vs as [|[n e] vs IHv]; constructor; [apply IH|exact IHv].
Qed.

Lemma nullable_row n1 n2 (f g : EncoderObject) i j : is_null n1 i = is_null n2 j → (is_null n1 i = Ok false → f i = g j) → nullable n1 f i = nullable n2 g j.
Proof. intros Hn Hf. unfold nullable. rewrite <-Hn. destruct (is_null n1 i) as [[]| |]; cbn [mbind res_bind]; auto. Qed.

Lemma value_row {A} n1 n2 (v1 v2 : list A) text i j : is_null n1 i = is_null n2 j → (is_null n1 i = Ok false → slice_get v1 i = slice_get v2 j) →
  nullable n1 (read_value v1 text) i = nullable n2 (read_value v2 text) j.
Proof. intros Hn Hv. apply nullable_row; [done|]. intros E. unfold read_value. by rewrite Hv. Qed.

(** Encoders in step for their rows. *)
Lemma collect_rows {A B} (f g : A → res B) (l1 l2 : list A) : Forall2 (λ x y, f x = g y) l1 l2 → collect (f <$> l1) = collect (g <$> l2).
Proof. induction 1 as [|x y l1 l2 E _ IH]; [done|]. rewrite !fmap_cons. cbn [collect]. by rewrite E, IH. Qed.

Lemma list_spread_row o1 o2 f g i j r1 r2 : item_range o1 i = Ok r1 → item_range o2 j = Ok r2 → Forall2 (λ k l, f k = g l) r1 r2 → list_spread o1 f i = list_spread o2 g j.
Proof. intros E1 E2 Hf. unfold list_spread. rewrite E1, E2. cbn [mbind res_bind]. by rewrite (collect_rows f g r1 r2). Qed.
Lemma list_row o1 o2 f g i j r1 r2 : item_range o1 i = Ok r1 → item_range o2 j = Ok r2 → Forall2 (λ k l, f k = g l) r1 r2 → list_encoder o1 f i = list_encoder o2 g j.
Proof. intros E1 E2 Hf. unfold list_encoder. by rewrite (list_spread_row o1 o2 f g i j r1 r2). Qed.

Lemma struct_row fs gs i j : Forall2 (λ f g, f.1 = g.1 ∧ f.2 i = g.2 j) fs gs → struct_encoder fs i = struct_encoder gs j.
Proof.
  intros Hf. unfold struct_encoder. assert (collect ((λ f : bytes * EncoderObject, text ← f.2 i; Ok (f.1 ++ text)) <$> fs) =
    collect ((λ f : bytes * EncoderObject, text ← f.2 j; Ok (f.1 ++ text)) <$> gs)) as ->; [|done].
  induction Hf as [|f g fs gs [E1 E2] _ IH]; [done|]. rewrite !fmap_cons. cbn [collect]. by rewrite E1, E2, IH.
Qed.

(** Two collections of encoders, member by member. *)
Lemma collect_members {A B X Y} (f : A → res X) (g : B → res Y) (Q : A → B → Prop) (R : X → Y → Prop) l1 l2 : Forall2 Q l1 l2 →
  (∀ a b x y, a ∈ l1 → Q a b → f a = Ok x → g b = Ok y → R x y) → ∀ xs ys, collect (map f l1) = Ok xs → collect (map g l2) = Ok ys → Forall2 R xs ys.
Proof.
  intros Hq. induction Hq as [|a b l1 l2 Hab _ IH]; intros HR xs ys E1 E2; cbn [map collect] in *; [injection E1 as <-; injection E2 as <-; constructor|].
  apply bind_Ok in E1 as (x & Ex & E1). apply bind_Ok in E1 as (xs' & Exs & [= <-]). apply bind_Ok in E2 as (y & Ey & E2). apply bind_Ok in E2 as (ys' & Eys & [= <-]).
  constructor; [eapply HR; [left|done|done|done]|]. eapply IH; [|done|done]. intros a' b' x' y' Hin. apply HR. by right.
Qed.

Section rows.
Context {JT : JsonTexts}.

Lemma make_encoder_row a : ∀ b f g i j, make_encoder a = Ok f → make_encoder b = Ok g → same_row a i b j → f i = g j.
Proof.
  induction a as [ty n v|bits n v|n v|n v|n v|s n v|n o a IH|n cs IH| |n] using jarray_induction; intros b f g i j Ef Eg Hs; inversion Hs; subst; cbn [make_encoder] in *;
    try (by unfold unsupported in Ef); try by (injection Ef as <-; injection Eg as <-; apply value_row).
  - destruct ty as [sg bits|[]|]; try done; injection Ef as <-; injection Eg as <-; by apply value_row.
  - apply bind_Ok in Ef as (e1 & E1 & [= <-]). apply bind_Ok in Eg as (e2 & E2 & [= <-]). apply nullable_row; [done|]. intros _. eapply list_row; [done|done|].
    eapply Forall2_impl; [eassumption|]. intros k l Hkl. by eapply IH.
  - apply bind_Ok in Ef as (fs & E1 & [= <-]). apply bind_Ok in Eg as (gs & E2 & [= <-]). apply nullable_row; [done|]. intros Hn. apply struct_row.
    match goal with H : is_null n i = Ok false → Forall2 _ cs _ |- _ => specialize (H Hn); rename H into Hc end.
    match goal with H : cs.*1 = _ |- _ => rename H into Hnames end.
    eapply (collect_members _ _ (λ x y, x.1 = y.1 ∧ same_row x.2 i y.2 j)); [| |exact E1|exact E2].
    + clear -Hc Hnames. induction Hc as [|x y l1 l2 Hxy _ IH]; [constructor|]. rewrite !fmap_cons in Hnames. injection Hnames as Hx Hnames. constructor; [done|by apply IH].
    + intros x y fx gy Hin [En Hxy] Ex Ey. apply bind_Ok in Ex as (e1 & Ex & [= <-]). apply bind_Ok in Ey as (e2 & Ey & [= <-]). rewrite Forall_forall in IH. cbn [fst snd]. split; [by rewrite En|]. by eapply IH.
Qed.

Lemma eval_json_row a b f g i j : eval_json a = Ok f → eval_json b = Ok g → same_row a i b j → f i = g j.
Proof. intros Ef Eg Hs. inversion Hs; subst; cbn [eval_json] in *; try done; injection Ef as <-; injection Eg as <-; by apply value_row. Qed.
Lemma eval_bignum_row a b f g i j : eval_bignum a = Ok f → eval_bignum b = Ok g → same_row a i b j → f i = g j.
Proof.
  intros Ef Eg Hs. inversion Hs; subst; cbn [eval_bignum] in *; try done; [destruct ty as [| |scale]; [|done|destruct (scale =? 0); [|done]]|];
    injection Ef as <-; injection Eg as <-; by apply value_row.
Qed.
Lemma eval_hex_row a b f g i j : eval_hex a = Ok f → eval_hex b = Ok g → same_row a i b j → f i = g j.
Proof.
  intros Ef Eg Hs. inversion Hs; subst; cbn [eval_hex] in *; try done. destruct ty as [[] bits| |]; try done. injection Ef as <-. injection Eg as <-. by apply value_row.
Qed.
Lemma eval_version_row a b f g i j : eval_solana_transaction_version a = Ok f → eval_solana_transaction_version b = Ok g → same_row a i b j → f i = g j.
Proof.
  intros Ef Eg Hs. inversion Hs; subst; unfold eval_solana_transaction_version in *; try done. repeat case_match; try done. injection Ef as <-. injection Eg as <-. by apply value_row.
Qed.
Lemma eval_timestamp_row u a b f g i j : eval_timestamp u a = Ok f → eval_timestamp u b = Ok g → same_row a i b j → f i = g j.
Proof.
  intros Ef Eg Hs. inversion Hs; subst; unfold eval_timestamp in *; try done.
  destruct ty as [|[]|]; try done; destruct u; try done; cbn in Ef, Eg; injection Ef as <-; injection Eg as <-; by apply value_row.
Qed.

(** *** Arrays without null buffers *)

Lemma extract_nulls_spec a a' n : extract_nulls a = Ok (a', n) → n = nulls_of a ∧ nulls_of a' = None.
Proof.
  unfold extract_nulls. destruct (nulls_of a) as [n'|] eqn:E; [|by intros [= <- <-]].
  destruct a as [ty ? ?|? ? ?|? ?|? ?|? ?|? ? ?|? ? ?|? ?| |?]; try done; try (intros [= <- <-]; done). destruct ty; try done. by intros [= <- <-].
Qed.

(** Rows that agree agree in being null, and without null buffers too unless they are null. *)
Lemma same_row_null a i b j : same_row a i b j → is_null (nulls_of a) i = is_null (nulls_of b) j.
Proof. by inversion 1. Qed.
Lemma same_row_extract a i b j a' b' n1 n2 : same_row a i b j → extract_nulls a = Ok (a', n1) → extract_nulls b = Ok (b', n2) →
  is_null n1 i = is_null n2 j ∧ (is_null n1 i = Ok false → same_row a' i b' j).
Proof.
  intros Hs E1 E2. pose proof (same_row_null _ _ _ _ Hs) as Hn. pose proof (extract_nulls_spec _ _ _ E1) as [-> _]. pose proof (extract_nulls_spec _ _ _ E2) as [-> _]. split; [done|].
  intros Hf. unfold extract_nulls in *. destruct Hs; cbn [nulls_of] in *;
    repeat match goal with n : option NullBuffer |- _ => destruct n end; try (destruct ty; try done); simplify_eq;
    first [done | by constructor; cbn [is_null]; auto | by econstructor].
Qed.

Lemma struct_column_row c1 c2 i j name x y : c1.*1 = c2.*1 → Forall2 (λ x y, same_row x.2 i y.2 j) c1 c2 →
  struct_column c1 name = Some x → struct_column c2 name = Some y → same_row x i y j.
Proof.
  intros Hn Hc. unfold struct_column. revert Hn. induction Hc as [|[m1 a1] [m2 a2] c1 c2 Hxy _ IH]; [done|]. rewrite !fmap_cons. cbn [fst snd] in *. intros [= -> Hn].
  rewrite !filter_cons. cbn [fst]. destruct (decide (m2 = name)); [|by apply IH]. cbn. by intros [= <-] [= <-].
Qed.

(** *** Rolls *)

(** The items of a roll in order, and what a row writes of them: all before the first null. *)
Definition roll_items (r : Roll) : list (option NullBuffer * EncoderObject) :=
  ((λ e, (None, e)) <$> non_nullable r) ++ ((λ p : NullBuffer * EncoderObject, (Some p.1, p.2)) <$> nullable_items r).
Fixpoint item_texts (l : list (option NullBuffer * EncoderObject)) (idx : nat) : res (list bytes * bool) :=
  match l with
  | [] => Ok ([], false)
  | (nulls, e) :: l =>
      null ← is_null nulls idx;
      if null : bool then Ok ([], true) else
      text ← e idx;
      '(texts, stopped) ← item_texts l idx;
      Ok (text :: texts, stopped)
  end.

Lemma item_texts_plain es l idx : item_texts (((λ e : EncoderObject, (None, e)) <$> es) ++ l) idx =
  (items ← collect ((λ e : EncoderObject, e idx) <$> es); '(texts, stopped) ← item_texts l idx; Ok (items ++ texts, stopped)).
Proof.
  induction es as [|e es IH].
  - cbn. by destruct (item_texts l idx) as [[? ?]| |].
  - rewrite !fmap_cons. cbn [app item_texts is_null mbind res_bind collect]. destruct (e idx) as [t| |]; [|done..]. cbn [mbind res_bind]. rewrite IH.
    destruct (collect _) as [ts| |]; [|done..]. cbn [mbind res_bind]. by destruct (item_texts l idx) as [[? ?]| |].
Qed.
Lemma item_texts_nullable l idx : item_texts ((λ p : NullBuffer * EncoderObject, (Some p.1, p.2)) <$> l) idx = nullable_texts l idx.
Proof. induction l as [|[n e] l IH]; [done|]. rewrite fmap_cons. cbn [item_texts nullable_texts is_null fst snd]. by rewrite IH. Qed.

Lemma roll_encoder_items r idx : roll_encoder r idx =
  ('(texts, stopped) ← item_texts (roll_items r) idx;
   last_ ← (match spread r with Some e => if stopped : bool then Ok [] else e idx | None => Ok [] end);
   json_close 93 (91 :: with_commas texts ++ last_)).
Proof.
  unfold roll_encoder, roll_items. rewrite item_texts_plain, item_texts_nullable. destruct (collect _) as [ts| |]; [|done..]. cbn [mbind res_bind].
  by destruct (nullable_texts _ idx) as [[? ?]| |].
Qed.

Section rolls.
Context (i j : nat).
Definition same_item (x y : option NullBuffer * EncoderObject) : Prop := is_null x.1 i = is_null y.1 j ∧ (is_null x.1 i = Ok false → x.2 i = y.2 j).
Definition same_spread (x y : option EncoderObject) : Prop := match x, y with None, None => True | Some e, Some e' => e i = e' j | _, _ => False end.

Lemma item_texts_row l1 l2 : Forall2 same_item l1 l2 → item_texts l1 i = item_texts l2 j.
Proof.
  induction 1 as [|[n1 e1] [n2 e2] l1 l2 [Hn He] _ IH]; [done|]. cbn [item_texts fst snd] in *. rewrite <-Hn. destruct (is_null n1 i) as [[]| |]; [done| |done..]. cbn [mbind res_bind].
  by rewrite He, IH.
Qed.
Lemma roll_encoder_row r1 r2 : Forall2 same_item (roll_items r1) (roll_items r2) → same_spread (spread r1) (spread r2) → roll_encoder r1 i = roll_encoder r2 j.
Proof.
  intros Hi Hs. rewrite !roll_encoder_items, (item_texts_row _ _ Hi). destruct (item_texts _ j) as [[texts stopped]| |]; [|done..]. cbn [mbind res_bind].
  unfold same_spread in Hs. destruct (spread r1), (spread r2); try done. destruct stopped; [done|]. by rewrite Hs.
Qed.

Lemma roll_push r n e : (n = None → nullable_items r = []) →
  roll_items (match n with None => mkRoll (non_nullable r ++ [e]) (nullable_items r) (spread r) | Some n => mkRoll (non_nullable r) (nullable_items r ++ [(n, e)]) (spread r) end) =
  roll_items r ++ [(n, e)].
Proof.
  intros Hn. unfold roll_items. destruct n as [n|]; cbn [non_nullable nullable_items]; [by rewrite fmap_app, app_assoc|]. rewrite (Hn eq_refl), fmap_app. by rewrite !app_nil_r.
Qed.

Context (eval : jarray → res EncoderObject) (Heval : ∀ a b f g k l, eval a = Ok f → eval b = Ok g → same_row a k b l → f k = g l).
Context (c1 c2 : list (Name * jarray)) (Hnames : c1.*1 = c2.*1) (Hrows : Forall2 (λ x y, same_row x.2 i y.2 j) c1 c2).

(** One column: a list at the end, or an item. *)
Definition is_list (a : jarray) : bool := match a with JLists _ _ _ => true | _ => false end.
Definition pushed (r : Roll) (n : option NullBuffer) (e : EncoderObject) : Roll :=
  match n with None => mkRoll (non_nullable r ++ [e]) (nullable_items r) (spread r) | Some n => mkRoll (non_nullable r) (nullable_items r ++ [(n, e)]) (spread r) end.

Lemma roll_step name names r r' cs : roll_columns eval cs (name :: names) r = Ok r' → ∃ a a' n, struct_column cs name = Some a ∧ extract_nulls a = Ok (a', n) ∧
  ((∃ nl o items e, a' = JLists nl o items ∧ names = [] ∧ eval items = Ok e ∧ r' = mkRoll (non_nullable r) (nullable_items r) (Some (list_spread o e))) ∨
   is_list a' = false ∧ (n = None → nullable_items r = []) ∧ ∃ e, eval a' = Ok e ∧ roll_columns eval cs names (pushed r n e) = Ok r').
Proof.
  cbn [roll_columns]. destruct (struct_column cs name) as [a|]; [|done]. cbn [ok_or mbind res_bind]. destruct (extract_nulls a) as [[a' n]| |] eqn:En; [|done..]. cbn [mbind res_bind].
  intros E. exists a, a', n. do 2 (split; [done|]). destruct (is_list a') eqn:El.
  - destruct a' as [ | | | | | |nl o items| | | ]; try done. left. destruct names; [|done]. cbn [length Nat.eqb ensure mbind res_bind] in E. destruct (negb _); [|done].
    cbn [ensure mbind res_bind] in E. apply bind_Ok in E as (e & Ee & [= <-]). eauto 10.
  - right. split; [done|]. assert ((match n with
      | None => _ ← ensure (length (nullable_items r) =? 0)%nat (EMsg "Failed to construct list roll"); e ← eval a'; roll_columns eval cs names (pushed r None e)
      | Some n => e ← eval a'; roll_columns eval cs names (pushed r (Some n) e) end) = Ok r') as E' by (by destruct a').
    destruct n as [n|]; [split; [done|]; apply bind_Ok in E' as (e & Ee & E'); eauto|].
    destruct (nullable_items r); [|done]. split; [done|]. apply bind_Ok in E' as (_ & _ & E'). apply bind_Ok in E' as (e & Ee & E'). eauto.
Qed.

(** Columns that agree in a row are both lists or both items. *)
Lemma same_row_kind a b a' b' n1 n2 : same_row a i b j → extract_nulls a = Ok (a', n1) → extract_nulls b = Ok (b', n2) →
  is_list a' = is_list b' ∧ ∀ nl1 o1 x1 nl2 o2 x2, a' = JLists nl1 o1 x1 → b' = JLists nl2 o2 x2 →
    ∃ r1 r2, item_range o1 i = Ok r1 ∧ item_range o2 j = Ok r2 ∧ Forall2 (λ k l, same_row x1 k x2 l) r1 r2.
Proof.
  intros Hs E1 E2. assert (∀ a a' n, extract_nulls a = Ok (a', n) → is_list a' = is_list a ∧ ∀ nl o x, a' = JLists nl o x → ∃ nl', a = JLists nl' o x) as Hk.
  { clear. intros a a' n. unfold extract_nulls. destruct (nulls_of a); [|intros [= <- <-]; split; [done|]; eauto].
    destruct a as [ty ? ?|? ? ?|? ?|? ?|? ?|? ? ?|? ? ?|? ?| |?]; try done; try (intros [= <- <-]; split; [done|]; naive_solver). destruct ty; try done. intros [= <- <-]. by split. }
  destruct (Hk _ _ _ E1) as [K1 L1], (Hk _ _ _ E2) as [K2 L2]. split; [rewrite K1, K2; by destruct Hs|].
  intros nl1 o1 x1 nl2 o2 x2 Ea Eb. destruct (L1 _ _ _ Ea) as [n1' ->], (L2 _ _ _ Eb) as [n2' ->]. inversion Hs; subst. eauto.
Qed.

Lemma roll_columns_row names : ∀ r1 r2 s1 s2, Forall2 same_item (roll_items r1) (roll_items r2) → same_spread (spread r1) (spread r2) →
  roll_columns eval c1 names r1 = Ok s1 → roll_columns eval c2 names r2 = Ok s2 → Forall2 same_item (roll_items s1) (roll_items s2) ∧ same_spread (spread s1) (spread s2).
Proof.
  induction names as [|name names IH]; intros r1 r2 s1 s2 Hi Hs E1 E2; [injection E1 as <-; by injection E2 as <-|].
  apply roll_step in E1 as (a1 & a1' & n1 & Hc1 & Hx1 & E1). apply roll_step in E2 as (a2 & a2' & n2 & Hc2 & Hx2 & E2).
  pose proof (struct_column_row c1 c2 i j name a1 a2 Hnames Hrows Hc1 Hc2) as Ha. destruct (same_row_extract _ _ _ _ _ _ _ _ Ha Hx1 Hx2) as [Hn Ha'].
  destruct (same_row_kind _ _ _ _ _ _ Ha Hx1 Hx2) as [Hk Hl]. destruct E1 as [(nl1 & o1 & x1 & e1 & -> & _ & Ee1 & ->)|(K1 & G1 & e1 & Ee1 & E1)],
    E2 as [(nl2 & o2 & x2 & e2 & -> & _ & Ee2 & ->)|(K2 & G2 & e2 & Ee2 & E2)]; [|by rewrite K2 in Hk|by rewrite K1 in Hk|].
  - split; [done|]. cbn [spread same_spread]. destruct (Hl _ _ _ _ _ _ eq_refl eq_refl) as (q1 & q2 & R1 & R2 & Hq). eapply list_spread_row; [done|done|].
    eapply Forall2_impl; [exact Hq|]. intros k l Hkl. by eapply Heval.
  - eapply IH; [| |exact E1|exact E2]; [|by destruct n1, n2]. unfold pushed. rewrite !roll_push by done. apply Forall2_app; [done|]. constructor; [|constructor].
    split; [done|]. cbn [fst snd]. intros Hf. eapply Heval; [done|done|by apply Ha'].
Qed.
End rolls.

(** *** Expressions *)

Lemma enum_row t1 t2 v1 v2 i j : slice_get t1 i = slice_get t2 j → Forall2 (λ x y, x.1 = y.1 ∧ x.2 i = y.2 j) v1 v2 → enum_encoder t1 v1 i = enum_encoder t2 v2 j.
Proof.
  intros Ht Hv. unfold enum_encoder. rewrite Ht. destruct (slice_get t2 j) as [tag| |]; [|done..]. cbn [mbind res_bind].
  induction Hv as [|x y v1 v2 [En Ee] _ IH]; [done|]. rewrite !filter_cons, En. by destruct (decide _).
Qed.

(** An expression writes a row by what the row holds. *)
Lemma exp_eval_row e : ∀ a b f g i j, exp_eval e a = Ok f → exp_eval e b = Ok g → same_row a i b j → f i = g j.
Proof.
  induction e as [| | | | | | |ps IH|name e IH|e IH|cs e IH|tag vs IH] using exp_induction; intros a b f g i j Ef Eg Hs; cbn [exp_eval] in Ef, Eg.
  1: by eapply make_encoder_row. 1: by eapply eval_json_row. 1: by eapply eval_bignum_row. 1: by eapply eval_hex_row. 1: by eapply eval_version_row.
  1-2: by eapply eval_timestamp_row.
  - apply bind_Ok in Ef as ([a' n1] & X1 & Ef). apply bind_Ok in Ef as (fs & F1 & [= <-]). apply bind_Ok in Eg as ([b' n2] & X2 & Eg). apply bind_Ok in Eg as (gs & G1 & [= <-]).
    destruct (same_row_extract _ _ _ _ _ _ _ _ Hs X1 X2) as [Hn Hs']. apply nullable_row; [done|]. intros Hf. apply struct_row.
    eapply (collect_members _ _ eq); [by apply Forall2_same_length_lookup; split; [done|]; congruence| |exact F1|exact G1].
    intros p q x y Hin <- Ex Ey. apply bind_Ok in Ex as (e1 & Ex & [= <-]). apply bind_Ok in Ey as (e2 & Ey & [= <-]). split; [done|]. rewrite Forall_forall in IH. by eapply IH; [..|apply Hs'].
  - destruct Hs; try done. destruct (struct_column c1 name) as [x|] eqn:E1; [|done]. destruct (struct_column c2 name) as [y|] eqn:E2; [|done]. cbn [ok_or mbind res_bind] in Ef, Eg.
    assert (∃ f' g', f = nullable n1 f' ∧ g = nullable n2 g' ∧ (same_row x i y j → f' i = g' j)) as (f' & g' & -> & -> & Hfg).
    { destruct x; try (apply bind_Ok in Ef as (e1 & Ef & [= <-])); destruct y; try (apply bind_Ok in Eg as (e2 & Eg & [= <-]));
        repeat match goal with H : Ok _ = Ok _ |- _ => injection H as <- end; do 2 eexists; (split; [reflexivity|]); (split; [reflexivity|]); intros Hxy; first [by inversion Hxy|by eapply IH|done]. }
    apply nullable_row; [done|]. intros Hf. apply Hfg. eapply struct_column_row; eauto.
  - destruct Hs; try done. apply bind_Ok in Ef as (e1 & Ef & [= <-]). apply bind_Ok in Eg as (e2 & Eg & [= <-]). apply nullable_row; [done|]. intros _. eapply list_row; [done|done|].
    eapply Forall2_impl; [eassumption|]. intros k l Hkl. by eapply IH.
  - apply bind_Ok in Ef as ([a' n1] & X1 & Ef). apply bind_Ok in Eg as ([b' n2] & X2 & Eg). destruct (same_row_extract _ _ _ _ _ _ _ _ Hs X1 X2) as [Hn Hs'].
    destruct a' as [ | | | | | | |m1 c1| | ]; try done. destruct b' as [ | | | | | | |m2 c2| | ]; try done. apply bind_Ok in Ef as (r1 & R1 & [= <-]). apply bind_Ok in Eg as (r2 & R2 & [= <-]).
    apply nullable_row; [done|]. intros Hf. specialize (Hs' Hf). pose proof (extract_nulls_spec _ _ _ X1) as [_ Hm]. cbn in Hm. subst m1. inversion Hs'; subst.
    destruct (roll_columns_row i j (exp_eval e) IH c1 c2) with (names := cs) (r1 := mkRoll [] [] None) (r2 := mkRoll [] [] None) (s1 := r1) (s2 := r2) as [Hi Hsp]; try done; [by eauto|].
    by apply roll_encoder_row.
  - apply bind_Ok in Ef as ([a' n1] & X1 & Ef). apply bind_Ok in Eg as ([b' n2] & X2 & Eg). destruct (same_row_extract _ _ _ _ _ _ _ _ Hs X1 X2) as [Hn Hs'].
    destruct a' as [ | | | | | | |m1 c1| | ]; try done. destruct b' as [ | | | | | | |m2 c2| | ]; try done.
    destruct (struct_column c1 tag) as [x|] eqn:T1; [|done]. destruct (struct_column c2 tag) as [y|] eqn:T2; [|done]. cbn [ok_or mbind res_bind] in Ef, Eg.
    apply bind_Ok in Ef as ([x' xn] & Y1 & Ef). apply bind_Ok in Eg as ([y' yn] & Y2 & Eg). destruct x' as [ | | |x' t1| | | | | | ]; try done. destruct y' as [ | | |y' t2| | | | | | ]; try done.
    apply bind_Ok in Ef as (fs & F1 & [= <-]). apply bind_Ok in Eg as (gs & G1 & [= <-]). apply nullable_row; [done|]. intros Hf. specialize (Hs' Hf).
    pose proof (extract_nulls_spec _ _ _ X1) as [_ Hm]. cbn in Hm. subst m1. pose proof Hs' as Hs''. inversion Hs''; subst.
    match goal with H : is_null None i = Ok false → _ |- _ => specialize (H eq_refl); rename H into Hrows end.
    assert (same_row x i y j) as Hxy by (by eapply struct_column_row). destruct (same_row_extract _ _ _ _ _ _ _ _ Hxy Y1 Y2) as [Hn' Hxy'].
    apply nullable_row; [done|]. intros Hf'. apply enum_row.
    + specialize (Hxy' Hf'). pose proof (extract_nulls_spec _ _ _ Y1) as [_ Hm]. cbn in Hm. subst x'. inversion Hxy'; subst. eauto.
    + eapply (collect_members _ _ eq); [by apply Forall2_same_length_lookup; split; [done|]; congruence| |exact F1|exact G1].
      intros p q u v Hin <- Ex Ey. apply bind_Ok in Ex as (e1 & Ex & [= <-]). apply bind_Ok in Ey as (e2 & Ey & [= <-]). split; [done|]. rewrite Forall_forall in IH. by eapply IH.
Qed.
End rows.

(** ** Examples *)

Module JsonExamples.
#[local] Instance example_texts : JsonTexts := {| int_text z := [z]; float_text bits z := [z]; string_text b := b; object_prop := str_bytes |}.

(** Expressions refuse columns of other types. *)
Lemma types_checked : exp_eval EBigNum (JStrings None []) = Err (EMsg "Expected numeric primitive value") ∧
  exp_eval EHexNum (JInts (JInt true 64) None []) = Err (EMsg "Expected unsigned numeric primitive value") ∧
  exp_eval (EProp "a" EValue) (JStructs None []) = Err (EMsg "column not found") ∧ exp_eval (EList EValue) JNulls = Panic "list array".
Proof. done. Qed.

(** A binary value that is not empty is never written. *)
Lemma binary_value_panics size nulls v values f : (0 < length v)%nat → is_null nulls 0 = Ok false → exp_eval EValue (JFixedBinaries size nulls (v :: values)) = Ok f →
  ∃ m, f 0%nat = Panic m.
Proof.
  intros Hv Hn [= <-]. unfold nullable, read_value, write_hex. rewrite Hn. cbn [mbind res_bind slice_get lookup list_lookup]. rewrite (proj2 (Nat.ltb_lt _ _)) by lia. by eexists.
Qed.

(** A row of a roll ends at its first null; the null buffer of a list at its end is taken away
    before it is looked at, so that a null list is not refused but written as it is hidden. *)
Definition roll_row (topics : option NullBuffer) (data : option NullBuffer) : jarray :=
  JStructs None [("topic0", JStrings None [[1]]); ("topic1", JStrings topics [[2]]); ("data", JLists data [0; 1]%nat (JStrings None [[3]]))].
Definition roll_json (a : jarray) : res bytes := f ← exp_eval (ERoll ["topic0"; "topic1"; "data"] EValue) a; f 0%nat.
Lemma null_list_in_roll : roll_json (roll_row None None) = Ok [91; 1; 44; 2; 44; 3; 93] ∧ roll_json (roll_row (Some [true]) None) = Ok [91; 1; 93] ∧
  roll_json (roll_row None (Some [true])) = Ok [91; 1; 44; 2; 44; 3; 93].
Proof. done. Qed.
End JsonExamples.
