(* ===== verification/QueryExamples.v ===== *)
(** * Concrete queries

    Plain implementations of the library operations the query engine is parametrised by, with
    their laws, a small chunk with a table of blocks and a table of traces, and the theorems of
    the query engine applied to it. *)
From stdpp Require Import gmap sorting.
From S2P Require Import Prelude Bytes Ranges QueryStack QueryArrow QueryPred QueryPredSpec QueryScanSpec QueryRel QueryRelSpec QueryPlan QueryPlanSpec QueryOutput QueryOutputSpec.

(** ** Record batches *)

Module PlainBatches.
#[export] Instance plain_batches : ArrowBatches := {
  filter_record_batch b m :=
    if (length m =? rb_num_rows b)%nat then Ok (map_columns (keep m) (length (filter (λ x, x = Some true) m)) b)
    else Err (EMsg "Filter predicate of length is larger than target array");
  batch_project b is_ :=
    if forallb (λ i, i <? length (rb_columns b))%nat is_ then Ok (mkBatch (omap (λ i, rb_columns b !! i) is_) (rb_num_rows b))
    else Err (EMsg "project index out of bounds")
}.

#[export] Instance plain_batches_laws : ArrowBatchesLaws.
Proof.
  split; cbn [filter_record_batch batch_project plain_batches].
  - intros b m _ Hl. by rewrite (proj2 (Nat.eqb_eq _ _) Hl).
  - intros b is_ Hi. rewrite (proj2 (forallb_forall _ _)); [done|]. rewrite Forall_forall in Hi. intros i Hin. apply Nat.ltb_lt, Hi. by apply list_elem_of_In.
Qed.
End PlainBatches.

(** ** Data frames *)

Module PlainFrames.
Definition has_columnsb (f : frame) (cs : list Name) : bool := forallb (λ c, bool_decide (c ∈ (fr_columns f).*1)) cs.
Definition missing_column {A} : res A := Err (EMsg "not found").
Definition row_groups (keys : list Name) (rows : list frow) : list (list frow) :=
  (λ k, filter (λ r, group_keys keys r = k) rows) <$> remove_dups (group_keys keys <$> rows).

#[export] Instance plain_polars : Polars := {
  semi_join l r lk rk :=
    if has_columnsb l lk && has_columnsb r rk
    then Ok (mkFrame (fr_columns l) (filter (λ x, Exists (λ y, keys_match lk rk x y = true) (fr_rows r)) (fr_rows l)))
    else missing_column;
  inner_join l r lk rk :=
    if has_columnsb l lk && has_columnsb r rk
    then Ok (mkFrame (fr_columns l ++ filter (λ c, c.1 ∉ rk) (fr_columns r))
               (mjoin ((λ x, (λ y, x ∪ y) <$> filter (λ y, keys_match lk rk x y = true) (fr_rows r)) <$> fr_rows l)))
    else missing_column;
  select cs f :=
    if has_columnsb f cs.*1
    then Ok (mkFrame ((λ c, (c.2, default DNull (frame_type f c.1))) <$> cs) (select_row cs <$> fr_rows f))
    else missing_column;
  unique f := Ok (mkFrame (fr_columns f) (remove_dups (fr_rows f)));
  with_index_column name f :=
    Ok (mkFrame ((name, DUInt32) :: fr_columns f) (imap (λ i r, <[name := Some (CInt (Z.of_nat i))]> r) (fr_rows f)));
  group_by keys f := if has_columnsb f keys then Ok (row_groups keys (fr_rows f)) else missing_column
}.

Lemma has_columnsb_true f cs : has_columns f cs → has_columnsb f cs = true.
Proof.
  unfold has_columns, has_columnsb. rewrite Forall_forall. intros H. apply forallb_forall. intros c Hc. apply bool_decide_eq_true_2, H. by apply list_elem_of_In.
Qed.

Lemma classes_perm {A B} `{EqDecision B} (f : A → B) (ks : list B) : NoDup ks → ∀ rows, (∀ x, x ∈ rows → f x ∈ ks) →
  mjoin ((λ k, filter (λ x, f x = k) rows) <$> ks) ≡ₚ rows.
Proof.
  intros Hk. induction Hk as [|k ks Hnin _ IH]; intros rows Hr.
  - destruct rows as [|x rows]; [done|]. by destruct (not_elem_of_nil (f x)); apply Hr; lmem.
  - rewrite fmap_cons. change (mjoin (?x :: ?l)) with (x ++ mjoin l). transitivity (filter (λ x, f x = k) rows ++ filter (λ x, ¬ f x = k) rows); [|apply filter_app_complement].
    apply Permutation_app_head. rewrite <-(IH (filter (λ x, ¬ f x = k) rows)).
    + apply reflexive_eq. f_equal. apply list_fmap_ext. intros i k' Hk'%list_elem_of_lookup_2. rewrite list_filter_filter. apply list_filter_iff'.
      apply Forall_forall. intros x _. split; [intros ->; split; [done|congruence]|by intros [? _]].
    + intros x Hx. apply list_elem_of_filter in Hx as [Hne Hx]. apply Hr, elem_of_cons in Hx as [?|?]; done.
Qed.

Lemma row_groups_spec keys rows :
  mjoin (row_groups keys rows) ≡ₚ rows ∧ Forall (λ g, g ≠ []) (row_groups keys rows) ∧
  (∀ g x y, g ∈ row_groups keys rows → x ∈ g → y ∈ g → group_keys keys x = group_keys keys y) ∧
  ∀ i j gi gj x y, row_groups keys rows !! i = Some gi → row_groups keys rows !! j = Some gj → x ∈ gi → y ∈ gj →
    group_keys keys x = group_keys keys y → i = j.
Proof.
  unfold row_groups. split; [|split; [|split]].
  - apply classes_perm; [apply NoDup_remove_dups|]. intros x Hx. by apply elem_of_remove_dups, list_elem_of_fmap_2.
  - apply Forall_forall. intros g Hg. apply list_elem_of_fmap in Hg as (k & -> & Hk). apply elem_of_remove_dups, list_elem_of_fmap in Hk as (x & -> & Hx).
    intros E. by apply (not_elem_of_nil x); rewrite <-E; apply list_elem_of_filter.
  - intros g x y Hg Hx Hy. apply list_elem_of_fmap in Hg as (k & -> & _). apply list_elem_of_filter in Hx as [-> _], Hy as [-> _]. done.
  - intros i j gi gj x y Hi Hj Hx Hy E. apply list_lookup_fmap_Some in Hi as (k & -> & Hi), Hj as (k' & -> & Hj).
    apply list_elem_of_filter in Hx as [<- _], Hy as [<- _]. rewrite E in Hi. eapply NoDup_lookup; [apply (NoDup_remove_dups (group_keys keys <$> rows))|exact Hi|exact Hj].
Qed.

#[export] Instance plain_polars_laws : PolarsLaws.
Proof.
  split; cbn [semi_join inner_join select unique with_index_column group_by plain_polars].
  - intros l r lk rk _ Hl Hr _. rewrite !has_columnsb_true by done. by eexists.
  - intros l r on _ Hl Hr _. rewrite !has_columnsb_true by done. by eexists.
  - intros cs f _ Hf _. rewrite has_columnsb_true by done. eexists. split; [done|]. split; [|done]. cbn [fr_columns]. rewrite <-list_fmap_compose. by apply list_fmap_ext.
  - intros f. eexists. split; [done|]. split; [done|]. split; [apply NoDup_remove_dups|]. intros r. apply elem_of_remove_dups.
  - intros name f _. by eexists.
  - intros keys f Hf. rewrite has_columnsb_true by done. eexists. split; [done|]. apply row_groups_spec.
Qed.
End PlainFrames.

Module PlainBlocks.
#[export] Instance plain_blocks : PolarsBlocks := {
  weigh_rows w cs key f := Ok ((λ r, mkORow (int_cell (get "row_index" r)) (int_cell (get key r))
    (fold_left (λ acc c, null_add acc (cell_int (get c r))) cs (Some w))) <$> fr_rows f);
  sum_by_block ls := Ok ((λ n, (n, weight_in (mjoin ls) n)) <$> remove_dups (mjoin ls).*1);
  add_weights l r := Ok ((λ x : bweight, (x.1, null_add x.2 (weight_at r x.1))) <$> l);
  cumulate rows := Ok (running 0 (merge_sort block_le rows));
  filter_weight limit rows := Ok (fst <$> filter (λ r, within limit r = true) rows)
}.

#[export] Instance plain_blocks_laws : PolarsBlocksLaws.
Proof.
  split; cbn [weigh_rows sum_by_block add_weights cumulate filter_weight plain_blocks].
  - done.
  - intros ls _. eexists. split; [done|]. assert (((λ n, (n, weight_in (mjoin ls) n)) <$> remove_dups (mjoin ls).*1).*1 = remove_dups (mjoin ls).*1) as ->.
    { rewrite <-list_fmap_compose. rewrite <-(list_fmap_id (remove_dups _)) at 2. by apply list_fmap_ext. }
    split; [apply NoDup_remove_dups|]. split; [intros; apply elem_of_remove_dups|]. intros n w Hn. apply list_elem_of_fmap in Hn as (m & E & _). by simplify_eq.
  - intros l r _ _. by eexists.
  - intros rows _. exists (merge_sort block_le rows). split; [apply merge_sort_Permutation|]. split; [|done]. apply StronglySorted_merge_sort.
    + intros x y z. unfold block_le. lia.
    + intros x y. unfold block_le. lia.
  - done.
Qed.
End PlainBlocks.

(** ** Tables in memory *)

Import PlainCompute PlainBatches PlainFrames PlainBlocks.

Definition plain_table (full : RecordBatch) : StoredTable :=
  mkStoredTable ((λ c, (c.1, arr_type c.2)) <$> rb_columns full)
    (λ columns sel, Ok (match rb_columns (keep_columns columns full) with
                        | [] => mkBatch [] (rb_num_rows full)
                        | _ => take_rows (rows_of sel (rb_num_rows full)) (keep_columns columns full)
                        end))
    (λ _, Ok None).

Lemma plain_table_ok full : batch_ok full → Z.of_nat (rb_num_rows full) < 2 ^ 32 → "row_index" ∉ (rb_columns full).*1 → stored_ok (plain_table full) full.
Proof.
  intros Hb Hs Hn. split; [done|done|done| |done]. intros c arr Hc. left. unfold storage_stats, plain_table, schema_index_of. cbn [sd_schema sd_column_stats].
  apply column_by_name_elem in Hc. destruct (list_find _ _) as [[i x]|] eqn:E; [done|]. exfalso.
  apply list_find_None in E. rewrite Forall_forall in E. apply (E (c, arr_type arr)); [|done]. apply list_elem_of_fmap. by exists (c, arr).
Qed.

Definition plain_chunk (tables : gmap Name RecordBatch) : Chunk :=
  chunk_scan_table (plain_table <$> tables).

Lemma plain_chunk_ok tables : map_Forall (λ _ full, batch_ok full ∧ Z.of_nat (rb_num_rows full) < 2 ^ 32 ∧ "row_index" ∉ (rb_columns full).*1) tables →
  chunk_ok (plain_chunk tables) tables.
Proof.
  intros Ht name full Hf. destruct (Ht name full Hf) as (Hb & Hs & Hn). unfold plain_chunk, chunk_scan_table. rewrite lookup_fmap, Hf. cbn [fmap option_fmap option_map].
  eexists. split; [done|]. split; [|done..]. apply storage_reader_laws. by apply plain_table_ok.
Qed.

(** ** A chunk with blocks and traces *)

Definition ints (l : list Z) : list (option cell) := (λ z, Some (CInt z)) <$> l.
Definition addresses (l : list (list Z)) : list (option cell) := (λ a, Some (CInts a)) <$> l.

Definition blocks_batch : RecordBatch := 
  mkBatch [("number", mkArray DUInt64 (ints [7; 8])); ("parent_hash", mkArray DUtf8 [Some (CStr "f"); Some (CStr "g")])] 2.
(** Block 7 has the traces [], [0] and [0, 1]; block 8 has the trace []. *)
Definition traces_batch : RecordBatch :=
  mkBatch [("block_number", mkArray DUInt64 (ints [7; 7; 7; 8])); ("address", mkArray (DList DUInt32) (addresses [[]; [0]; [0; 1]; []]))] 4.
Definition example_tables : gmap Name RecordBatch := <["blocks" := blocks_batch]> {["traces" := traces_batch]}.
Definition trace_key : list Name := ["block_number"; "address"].

Lemma example_batch_ok name full : example_tables !! name = Some full → (name = "blocks" ∧ full = blocks_batch) ∨ (name = "traces" ∧ full = traces_batch).
Proof.
  unfold example_tables. rewrite lookup_insert_Some, lookup_singleton_Some. naive_solver.
Qed.

Lemma example_chunk_ok : chunk_ok (plain_chunk example_tables) example_tables.
Proof.
  apply plain_chunk_ok. intros name full [[-> ->]|[-> ->]]%example_batch_ok; (split; [|split; [cbn; lia|by apply (bool_decide_unpack _)]]).
  - repeat constructor; cbn; unfold int_min, int_max; lia.
  - repeat constructor; cbn; unfold int_min, int_max; try lia; repeat constructor; lia.
Defined.

Lemma trace_tree_key : tree_key traces_batch trace_key.
Proof.
  split; [cbn; lia| | | |].
  - repeat constructor; by eexists.
  - by apply (bool_decide_unpack _).
  - by eexists.
  - intros i j Hi Hj. cbn in Hi, Hj. do 4 (destruct i as [|i]; [do 4 (destruct j as [|j]; [by vm_compute|]); lia|]). lia.
Qed.

(** ** Reading the traces of a block *)

Definition block_is (n : Z) : RowPredicate := col_eq "block_number" (mkScalar DUInt64 (CInt n)).

Lemma block_is_ok n : 0 <= n < 2 ^ 64 → opt_pred_ok traces_batch (Some (block_is n)).
Proof. intros Hn. split; [|done]. eexists. split; [done|]. cbn. unfold scalar_fits, scalar_ok. cbn. unfold int_min, int_max. lia. Qed.

(** The traces with page statistics of their block numbers: the rows 0 to 2 are in block 7, the
    row 3 is in block 8. *)
Definition number_stats : ColumnStats := mkColumnStats [0; 3; 4] (mkArray DUInt64 (ints [7; 8])) (mkArray DUInt64 (ints [7; 8])).
Definition paged_traces : StoredTable :=
  mkStoredTable (sd_schema (plain_table traces_batch)) (sd_read_table (plain_table traces_batch))
    (λ i, Ok (if decide (i = 0%nat) then Some number_stats else None)).

Lemma paged_traces_ok : stored_ok paged_traces traces_batch.
Proof.
  split; [|cbn; lia|by apply (bool_decide_unpack _)| |done].
  - repeat constructor; cbn; unfold int_min, int_max; try lia; repeat constructor; lia.
  - intros c arr Hc. apply column_by_name_elem in Hc. cbn in Hc.
    apply elem_of_cons in Hc as [[= -> ->]|[[= -> ->]|?%elem_of_nil]%elem_of_cons]; [right|by left|done].
    exists number_stats. split; [done|]. split.
    + split; try done; repeat constructor; cbn; unfold int_min, int_max; lia.
    + split; [done|]. split; [done|]. repeat constructor; lia.
    + done.
    + intros [|[|k]] x y mn mx Hx Hy Hm HM; cbn in Hx, Hy, Hm, HM; simplify_eq; cbn; unfold int_min, int_max;
        (split; [lia|]; split; [lia|]); repeat constructor; cbn; unfold int_min, int_max; lia.
Qed.

(** The rows 1 and 3 are asked for block 8: the statistics prune the first page, so that only
    row 3 is read. *)
Definition odd_rows : list range := [Range 1 2; Range 3 4].
Lemma storage_read_exact_witness :
  pruned_selection paged_traces (Some (block_is 8)) (Some odd_rows) = Ok (Some [Range 3 4]) ∧
  storage_read paged_traces (Some (block_is 8)) (Some {["address"]}) (Some odd_rows) true None =
  Ok [mkBatch [("row_index", mkArray DUInt32 (ints [3])); ("address", mkArray (DList DUInt32) (addresses [[]]))] 1].
Proof.
  split; [vm_compute; reflexivity|]. rewrite (storage_read_exact paged_traces traces_batch).
  - vm_compute. reflexivity.
  - exact paged_traces_ok.
  - apply block_is_ok. lia.
  - split; [exists 0; cbn; lia|]. intros i. unfold odd_rows. rewrite !covers_cons, covers_nil. unfold in_range. cbn. lia.
  - right. by vm_compute.
Defined.

(** ** The traces below a trace *)

Lemma relations_exact_witness :
  ∃ out, rel_eval (Children "traces" trace_key) (plain_chunk example_tables) {[1]} = Ok out ∧
    ∀ z, z ∈ out ↔ ∃ j, z = Z.of_nat j ∧ rel_rows example_tables (Children "traces" trace_key) {[1]} j.
Proof.
  apply (relations_exact (plain_chunk example_tables) example_tables (Children "traces" trace_key) {[1]} example_chunk_ok).
  - exists traces_batch. split; [done|]. split; [apply trace_tree_key|by apply (bool_decide_unpack _)].
  - intros f Hf z Hz. apply elem_of_singleton in Hz as ->. cbn [input_table] in Hf. apply example_batch_ok in Hf as [[? _]|[_ ->]]; [done|]. cbn. lia.
Defined.

(** ** All blocks with their traces, and the traces below those of block 8 *)

Definition example_table_set : res TableSet :=
  ts ← add_table [] "blocks" ["number"] (λ t, add_child t "traces" ["block_number"]);
  add_table ts "traces" trace_key Ok.
Definition example_plan : res PlanBuilder :=
  ts ← example_table_set;
  sb ← add_scan (plan_new ts) "blocks";
  sb ← scan_join sb "traces" ["block_number"] ["number"];
  sb ← add_scan sb.1 "traces";
  sb ← scan_with_predicate sb (block_is 8);
  sb ← include_children sb;
  Ok sb.1.

Definition blocks_join : Rel := Join "blocks" ["number"] "traces" ["block_number"].
Definition example_builder : PlanBuilder :=
  mkPlan [mkTable "blocks" ["number"] ∅ ∅ "blocks" {["traces" := ["block_number"]]}; mkTable "traces" trace_key ∅ ∅ "traces" ∅]
    [mkPlanScan "blocks" None [0%nat] (Some 0%nat); mkPlanScan "traces" (Some (block_is 8)) [1%nat] (Some 1%nat)]
    [blocks_join; Children "traces" trace_key]
    [mkOutput "blocks" ["number"] ∅ 0 [] (EObject []) "blocks"; mkOutput "traces" trace_key ∅ 0 [] (EObject []) "traces"]
    false None None None.

Lemma example_plan_ok : plan_ok example_tables example_builder.
Proof.
  assert ("traces" ∈ names (plan_tables example_builder)) by (by apply (bool_decide_unpack _)).
  assert ("blocks" ∈ names (plan_tables example_builder)) by (by apply (bool_decide_unpack _)).
  split; [split| | |].
  - done.
  - by apply (bool_decide_unpack _).
  - intros s Hs. cbn in Hs. rewrite !elem_of_cons in Hs. destruct Hs as [->|[->|?%elem_of_nil]]; [| |done]; (split; [done|]); (split; [by intros i [= <-]|]).
    + intros r ->%list_elem_of_singleton. by eexists.
    + intros r ->%list_elem_of_singleton. by eexists.
  - intros rel Hr. cbn in Hr. rewrite !elem_of_cons in Hr. destruct Hr as [->|[->|?%elem_of_nil]]; done.
  - intros name full [[-> _]|[-> _]]%example_batch_ok; done.
  - intros s Hs. cbn in Hs. rewrite !elem_of_cons in Hs. destruct Hs as [->|[->|?%elem_of_nil]]; [| |done].
    + exists blocks_batch. split; [done|]. split; [done|]. by intros [? ?].
    + exists traces_batch. split; [done|]. split; [apply block_is_ok; lia|]. by vm_compute.
  - intros rel Hr. cbn in Hr. rewrite !elem_of_cons in Hr. destruct Hr as [->|[->|?%elem_of_nil]]; [| |done].
    + exists blocks_batch, traces_batch. do 2 (split; [done|]). split; [repeat constructor; by eexists|]. split; [repeat constructor; by eexists|done].
    + exists traces_batch. split; [done|]. split; [apply trace_tree_key|by apply (bool_decide_unpack _)].
Qed.

Lemma example_integrity : integrity example_tables (plan_tables example_builder).
Proof.
  intros t child key fc Ht Hc Hf. cbn in Ht. rewrite !elem_of_cons in Ht. destruct Ht as [->|[->|?%elem_of_nil]]; [| |done]; cbn [table_children table_name primary_key] in *.
  - apply lookup_singleton_Some in Hc as [<- <-]. apply example_batch_ok in Hf as [[? _]|[_ ->]]; [done|]. exists blocks_batch. split; [done|]. intros j Hj. cbn in Hj.
    do 3 (destruct j as [|j]; [exists 0%nat; split; [cbn; lia|done]|]).
    destruct j; [exists 1%nat; split; [cbn; lia|done]|lia].
  - by rewrite lookup_empty in Hc.
Qed.

Lemma plan_execution_exact_witness : example_plan = Ok example_builder ∧
  ∃ p outs, plan_build example_builder = Ok p ∧ plan_select p (plain_chunk example_tables) = Ok outs ∧ length outs = 2%nat ∧
    ∀ o z, listed outs o z ↔ ∃ j, z = Z.of_nat j ∧ plan_rows example_tables example_builder o j.
Proof.
  split; [by vm_compute|].
  apply (plan_execution_exact example_tables (plain_chunk example_tables) example_builder example_chunk_ok example_plan_ok example_integrity).
  intros s r rel Hs. cbn in Hs. rewrite !elem_of_cons in Hs. destruct Hs as [->|[->|?%elem_of_nil]]; done.
Defined.

(** ** Responses *)

(** Three blocks, of which the first two fill the limit; block 6 has no items. *)
Definition header_rows : list orow := [mkORow 0 5 (Some 10); mkORow 1 6 (Some 10); mkORow 2 7 (Some 10); mkORow 3 8 (Some 10)].
Definition item_rows : list orow := [mkORow 0 5 (Some 20); mkORow 1 7 (Some 20971000); mkORow 2 8 (Some 30000000)].

Lemma response_blocks_exact_witness : select_blocks false header_rows [item_rows] = Ok ([5; 7], 7) ∧
  ∃ cs k last_block, candidates false header_rows [item_rows] cs ∧ chosen cs k ∧ select_blocks false header_rows [item_rows] = Ok (take k cs.*1, last_block) ∧
    ∀ idx rows, [header_rows; item_rows] !! idx = Some rows → Forall (λ r, or_block r ∈ or_block <$> header_rows) rows →
      returned_rows false idx (take k cs.*1) last_block rows = filter (λ r, or_block r ∈ take k cs.*1) rows.
Proof.
  split; [by vm_compute|]. apply (response_blocks_exact false header_rows [item_rows]).
  - done.
  - by apply (bool_decide_unpack _).
  - repeat constructor; by eexists.
  - split; [|by vm_compute]. repeat constructor; cbn; lia.
Defined.

(** Two blocks and an item of each of two tables. *)
Definition example_item (prop : bytes) (blocks : list Z) (rows : list bytes) (is_header : bool) : DataItem :=
  mkDataItem prop [blocks] [λ i, Ok (nth i rows [])] ((λ i, (0%nat, i)) <$> seq 0 (length blocks)) 0 0 is_header.
Definition header_item : DataItem := example_item [] [7; 8] [[1]; [2]] true.
Definition table_item (prop : bytes) (block : Z) : DataItem := example_item prop [block] [[3]] false.

Lemma response_written_exact_witness :
  let items := [table_item [100] 7; table_item [101] 8] in
  let hs := [(7, [1]); (8, [2])] in
  let tables := [([100], [(7, [3])]); ([101], [(8, [3])])] in
  (∃ j items', lines_write_blocks append_all (length hs) (writer_new []) (header_item :: items) = Ok (j, items') ∧
     lines_finish append_all j = Ok (mjoin ((λ hb, block_text tables hb ++ [10]) <$> hs))) ∧
  ∃ j items', array_write_blocks append_all (length hs) (writer_new []) (header_item :: items) = Ok (j, items') ∧
     array_finish append_all j = Ok ([91] ++ commas (block_text tables <$> hs) ++ [93]).
Proof.
  cbv zeta. apply response_written_exact.
  - by apply (bool_decide_unpack _).
  - repeat (apply Forall2_cons; split); [..|by apply Forall2_nil]; (split; [done|by eexists]).
  - repeat (apply Forall2_cons; split); [..|by apply Forall2_nil]; (split; [done|split]).
    1,3: apply Forall2_cons; split; [split; [done|by eexists]|by apply Forall2_nil].
    all: split; [by apply (bool_decide_unpack _)|]; intros m ->%list_elem_of_singleton; by apply (bool_decide_unpack _).
Defined.

(** ** A query after block 7 *)

Definition query_after (h : string) : Plan := set_first_block (set_parent_block_hash example_builder (Some h)) (Some 8).

Lemma parent_block_check_exact_witness :
  check_parent_block (query_after "g") (plain_chunk example_tables) = Ok None ∧
  ∃ refs, check_parent_block (query_after "x") (plain_chunk example_tables) = Ok (Some (mkUnexpected refs "x")) ∧ StronglySorted ref_le refs ∧
    ∀ b, b ∈ refs ↔ ∃ i, in_window blocks_batch false 8 i ∧ b = parent_of blocks_batch false 8 i.
Proof.
  assert (∀ h, parent_given (query_after h) (plain_chunk example_tables) blocks_batch 8 h false) as Hg.
  { intros h. split; [done|done|lia| |done| |by eexists].
    - destruct (example_chunk_ok "blocks" blocks_batch) as (s & E & Hs); [done|]. do 2 eexists. split; [done|]. split; [exact E|]. split; [done|]. injection E as <-. done.
    - exists false, 64. eexists. do 2 (split; [done|]). intros i Hi. cbn in Hi. destruct i as [|[|i]]; [eexists; split; [done|lia]..|lia]. }
  assert (in_window blocks_batch false 8 1) as Hw by (split; [cbn; lia|exists 8; split; [done|by vm_compute]]).
  assert (∀ i, in_window blocks_batch false 8 i → i = 1%nat ∨ (parent_of blocks_batch false 8 i).1 < (parent_of blocks_batch false 8 1).1) as Hmax.
  { intros [|[|i]] [Hi _]; cbn in Hi; [right; done|by left|lia]. }
  split.
  - apply (proj2 (parent_block_check_exact _ _ _ _ _ _ (Hg "g")) 1%nat Hw Hmax).
  - apply (proj2 (parent_block_check_exact _ _ _ _ _ _ (Hg "x")) 1%nat Hw Hmax).
Defined.

(** Block 200 follows block 7 of the same chunk.  Its parent is known, but it lies outside the
    100 positions that are looked at: the query fails whatever hash it names. *)
Definition hole_batch : RecordBatch :=
  mkBatch [("number", mkArray DUInt64 (ints [7; 200])); ("parent_number", mkArray DUInt64 (ints [6; 7]));
           ("parent_hash", mkArray DUtf8 [Some (CStr "f"); Some (CStr "g")])] 2.
Definition query_over_hole (h : string) : Plan := set_first_block (set_parent_block_hash example_builder (Some h)) (Some 200).
Lemma wide_hole_fails :
  check_parent_block (query_over_hole "g") (plain_chunk {["blocks" := hole_batch]}) = Err (EMsg "block is not present in the chunk") ∧
  check_parent_block (query_over_hole "x") (plain_chunk {["blocks" := hole_batch]}) = Err (EMsg "block is not present in the chunk").
Proof. split; vm_compute; reflexivity. Qed.
