(* ===== verification/QueryRequests.v ===== *)
(** * Requests and their compilation (crates/query/src/query)

    The JSON requests of the networks as records, the builder of their predicates, the
    projections of their fields (json/lang.rs), and the compilation of a request to a plan:
    util.rs, mod.rs and one section per network.  A struct of flags is the function that says
    which flag is set. *)
From stdpp Require Import gmap.
From S2P Require Import Prelude Bytes Ranges QueryStack QueryArrow QueryPred QueryRel QueryPlan.
From Stdlib Require Import Ascii.

(** Functions of other crates: identconv, faster_hex and the hash of the bloom filters. *)
Class QueryDeps : Type := {
  camel_strify : Name → Name;
  hex_check : string → bool;
  (* decodes into a buffer of the given length *)
  hex_decode : string → nat → option (list Z);
  xxh3_str : Z → string → Z
}.

(** ** Predicates of requests (util.rs) *)

Record PredicateBuilder : Type := mkPB { conditions : list RowPredicate; is_never : bool }.

Definition pb_new : PredicateBuilder := mkPB [] false.
Definition pb_add (condition : RowPredicate) (p : PredicateBuilder) : PredicateBuilder := mkPB (conditions p ++ [condition]) (is_never p).
Definition mark_as_never (p : PredicateBuilder) : PredicateBuilder := mkPB (conditions p) true.
Definition pb_build (p : PredicateBuilder) : option RowPredicate :=
  if (0 <? length (conditions p))%nat then Some (row_and (conditions p)) else None.

Definition pb_col_eq (name : Name) (maybe_value : option scalar) (p : PredicateBuilder) : PredicateBuilder :=
  match maybe_value with Some value => pb_add (col_eq name value) p | None => p end.
Definition pb_col_in_list (name : Name) (ty : DataType) (maybe_list : option (list cell)) (p : PredicateBuilder) : PredicateBuilder :=
  match maybe_list with
  | Some values =>
      let p := if (length values =? 0)%nat then mark_as_never p else p in
      pb_add (col_in_list name ty values) p
  | None => p
  end.
Definition pb_col_gt_eq (name : Name) (maybe_value : option scalar) (p : PredicateBuilder) : PredicateBuilder :=
  match maybe_value with Some value => pb_add (col_gt_eq name value) p | None => p end.
Definition pb_col_lt_eq (name : Name) (maybe_value : option scalar) (p : PredicateBuilder) : PredicateBuilder :=
  match maybe_value with Some value => pb_add (col_lt_eq name value) p | None => p end.
Definition pb_col_primitive_list_contains_any (name : Name) (ty : DataType) (maybe_list : option (list Z)) (p : PredicateBuilder) : PredicateBuilder :=
  match maybe_list with
  | Some [] => mark_as_never p
  | Some values => pb_add (col_primitive_list_contains_any name ty values) p
  | None => p
  end.
Definition pb_col_string_list_contains_any (name : Name) (maybe_list : option (list string)) (p : PredicateBuilder) : PredicateBuilder :=
  match maybe_list with
  | Some [] => mark_as_never p
  | Some values => pb_add (col_string_list_contains_any name values) p
  | None => p
  end.

(** Values as arrow scalars and arrays. *)
Definition str_scalar (s : string) : scalar := mkScalar DUtf8 (CStr s).
Definition bool_scalar (b : bool) : scalar := mkScalar DBoolean (CBool b).
Definition u64_scalar (n : Z) : scalar := mkScalar DUInt64 (CInt n).
Definition pb_strings (name : Name) (maybe_list : option (list string)) (p : PredicateBuilder) : PredicateBuilder :=
  pb_col_in_list name DUtf8 (option_map (map CStr) maybe_list) p.

(** [to_ascii_lowercase] *)
Definition ascii_lower (c : ascii) : ascii :=
  let n := nat_of_ascii c in if (65 <=? n)%nat && (n <=? 90)%nat then ascii_of_nat (n + 32) else c.
Fixpoint to_ascii_lowercase (s : string) : string :=
  match s with EmptyString => EmptyString | String c s => String (ascii_lower c) (to_ascii_lowercase s) end.
Definition to_lowercase_list (l : option (list string)) : option (list string) := option_map (map to_ascii_lowercase) l.

(** ** Relations of requests *)

(** The calls on a [ScanBuilder]. *)
Inductive RelStep : Type :=
| SJoin (output_table : Name) (output_key scan_key : list Name)
| SChildren
| SParents
| SForeignChildren (output_table : Name) (output_key scan_key : list Name)
| SForeignParents (output_table : Name) (output_key scan_key : list Name).

Definition apply_step (sb : PlanBuilder * nat) (s : RelStep) : res (PlanBuilder * nat) :=
  match s with
  | SJoin ot ok sk => scan_join sb ot ok sk
  | SChildren => include_children sb
  | SParents => include_parents sb
  | SForeignChildren ot ok sk => include_foreign_children sb ot ok sk
  | SForeignParents ot ok sk => include_foreign_parents sb ot ok sk
  end.
Definition step_if (flag : bool) (s : RelStep) : list RelStep := if flag then [s] else [].

(** ** Compilation ([compile_plan!]) *)

(** The fields every query has. *)
Record QueryBase : Type := mkBase { qb_from_block : Z; qb_parent_block_hash : option string; qb_to_block : option Z; qb_include_all_blocks : bool }.

(** An item request: the table it scans, its predicate and its relations. *)
Record Item : Type := mkItem { item_table : Name; item_predicate : PredicateBuilder → res PredicateBuilder; item_relations : list RelStep }.

(** [_compile_item!], for one item. *)
Definition compile_item (plan : PlanBuilder) (it : Item) : res PlanBuilder :=
  p ← item_predicate it pb_new;
  if is_never p then Ok plan else
  sb ← add_scan plan (item_table it);
  sb ← (match pb_build p with Some predicate => scan_with_predicate sb predicate | None => Ok sb end);
  sb ← fold_res apply_step (item_relations it) sb;
  Ok sb.1.

Definition compile_builder (q : QueryBase) (tables : TableSet) (projections : list (Name * Exp)) (items : list Item) : res PlanBuilder :=
  let plan := plan_new tables in
  let plan := set_include_all_blocks plan (qb_include_all_blocks q) in
  let plan := set_parent_block_hash plan (qb_parent_block_hash q) in
  let plan := set_first_block plan (Some (qb_from_block q)) in
  let plan := set_last_block plan (qb_to_block q) in
  plan ← fold_res (λ plan oe, set_projection plan oe.1 oe.2) projections plan;
  fold_res compile_item items plan.
Definition compile_plan (q : QueryBase) (tables : TableSet) (projections : list (Name * Exp)) (items : list Item) : res Plan :=
  plan ← compile_builder q tables projections items;
  plan_build plan.

(** [ensure_block_range!] and [ensure_item_count!] *)
Definition ensure_block_range (q : QueryBase) : res unit :=
  match qb_to_block q with
  | Some to_block => ensure (qb_from_block q <=? to_block) (EMsg "got toBlock < fromBlock")
  | None => Ok tt
  end.
Definition ensure_item_count (num_items : nat) : res unit :=
  ensure (num_items <=? 100)%nat (EMsg "query contains too many item requests, only 100 is allowed").

(** ** Projections (json/lang.rs) *)

Abbreviation selection := (Name → bool).
Abbreviation JsonObject := (list (Name * Exp)).
(** [if flag { object.add(name, exp) }] *)
Definition json_add (flag : bool) (name : Name) (exp : Exp) : JsonObject := if flag then [(name, exp)] else [].
Definition json_is_empty (o : JsonObject) : bool := (length o =? 0)%nat.

Section requests.
Context {QD : QueryDeps}.

(** [json_object!]: plain fields, and fields with an expression. *)
Definition json_exps (this : selection) (fields : list (Name * Exp)) : JsonObject :=
  flat_map (λ f, json_add (this f.1) (camel_strify f.1) (EProp f.1 f.2)) fields.
Definition json_fields (this : selection) (fields : list Name) : JsonObject := json_exps this ((λ f, (f, EValue)) <$> fields).

Definition pb_bloom_filter (name : Name) (byte_size num_hashes : nat) (maybe_list : option (list string)) (p : PredicateBuilder) : res PredicateBuilder :=
  match maybe_list with
  | Some values =>
      let p := if (length values =? 0)%nat then mark_as_never p else p in
      predicate ← col_bloom_filter xxh3_str name byte_size num_hashes values;
      Ok (pb_add predicate p)
  | None => Ok p
  end.

(** ** Hexadecimal strings (util.rs) *)

Definition strip2 (s : string) : string := String.substring 2 (String.length s - 2) s.
Definition check_hex (s : string) : res unit :=
  _ ← ensure (String.prefix "0x" s) (EMsg "binary hex string should start with '0x'");
  _ ← ensure (String.length s mod 2 =? 0)%nat (EMsg "binary hex string should have an even length");
  ensure (hex_check (strip2 s)) (EMsg "contains non-hex character").
Definition parse_hex (s : string) : option (list Z) :=
  if negb (String.prefix "0x" s) then None
  else if negb (String.length s mod 2 =? 0)%nat then None
  else hex_decode (strip2 s) (String.length s / 2 - 1).
Definition parse_static_hex (n : nat) (s : string) : option (list Z) :=
  if negb (String.prefix "0x" s) then None
  else if negb (String.length s =? 2 + n * 2)%nat then None
  else hex_decode (strip2 s) n.
(** [from_be_bytes] of the unsigned integers. *)
Definition from_be_bytes (b : list Z) : Z := fold_left (λ acc x, acc * 256 + x) b 0.
(** [list.iter().filter_map(parse_static_hex::<n>).map(from_be_bytes)] *)
Definition static_hex_cells (n : nat) (l : option (list string)) : option (list cell) :=
  option_map (λ l : list string, (λ b, CInt (from_be_bytes b)) <$> omap (parse_static_hex n) l) l.

(** ** Bitcoin (query/bitcoin.rs) *)

Definition bitcoin_TABLES : res TableSet :=
  let ts := [] in
  ts ← add_table ts "blocks" ["number"] Ok;
  ts ← add_table ts "transactions" ["block_number"; "transaction_index"] (λ t,
    t ← add_child t "inputs" ["block_number"; "transaction_index"]; t ← add_child t "outputs" ["block_number"; "transaction_index"]; Ok t);
  ts ← add_table ts "inputs" ["block_number"; "transaction_index"; "input_index"] Ok;
  ts ← add_table ts "outputs" ["block_number"; "transaction_index"; "output_index"] Ok;
  Ok ts.

Record BitcoinFieldSelection : Type := mkBitcoinFieldSelection { bitcoin_fs_block : selection; bitcoin_fs_transaction : selection; bitcoin_fs_input : selection; bitcoin_fs_output : selection }.

Definition bitcoin_block_columns : list Name :=
  ["number"; "hash"; "parent_hash"; "timestamp"; "median_time"; "version"; "merkle_root"; "nonce"; "target"; "bits"; "difficulty"; "chain_work";
   "stripped_size"; "size"; "weight"].
Definition bitcoin_block_project (this : selection) : Exp :=
  EObject (json_fields this ["number"; "hash"; "parent_hash"]
    ++ json_exps this [("timestamp", ETimestampSecond); ("median_time", ETimestampSecond); ("version", EValue); ("merkle_root", EValue); ("nonce", EValue);
      ("target", EValue); ("bits", EValue); ("difficulty", EValue); ("chain_work", EValue); ("stripped_size", EValue); ("size", EValue);
      ("weight", EValue)]).

Definition bitcoin_transaction_columns : list Name :=
  ["transaction_index"; "hex"; "txid"; "hash"; "size"; "vsize"; "weight"; "version"; "locktime"].
Definition bitcoin_transaction_project (this : selection) : Exp :=
  EObject (json_fields this ["transaction_index"; "hex"; "txid"; "hash"; "size"; "vsize"; "weight"; "version"; "locktime"]).

Definition bitcoin_input_columns : list Name :=
  ["transaction_index"; "input_index"; "type"; "txid"; "vout"; "script_sig_hex"; "script_sig_asm"; "sequence"; "coinbase"; "tx_in_witness";
   "prevout_generated"; "prevout_height"; "prevout_value"; "prevout_script_pub_key_hex"; "prevout_script_pub_key_asm"; "prevout_script_pub_key_desc";
   "prevout_script_pub_key_type"; "prevout_script_pub_key_address"].
Definition bitcoin_input_project (this : selection) : Exp :=
  EObject (json_fields this ["transaction_index"; "input_index"; "type"; "txid"; "vout"; "script_sig_hex"; "script_sig_asm"; "sequence"; "coinbase";
      "tx_in_witness"; "prevout_generated"; "prevout_height"; "prevout_value"; "prevout_script_pub_key_hex"; "prevout_script_pub_key_asm";
      "prevout_script_pub_key_desc"; "prevout_script_pub_key_type"; "prevout_script_pub_key_address"]).

Definition bitcoin_output_columns : list Name :=
  ["transaction_index"; "output_index"; "value"; "script_pub_key_hex"; "script_pub_key_asm"; "script_pub_key_desc"; "script_pub_key_type";
   "script_pub_key_address"].
Definition bitcoin_output_project (this : selection) : Exp :=
  EObject (json_fields this ["transaction_index"; "output_index"; "value"; "script_pub_key_hex"; "script_pub_key_asm"; "script_pub_key_desc";
      "script_pub_key_type"; "script_pub_key_address"]).

Record BitcoinTransactionRequest : Type := mkBitcoinTransactionRequest { bitcoin_transaction_inputs : bool; bitcoin_transaction_outputs : bool }.
Definition bitcoin_transaction_predicate (r : BitcoinTransactionRequest) (p : PredicateBuilder) : res PredicateBuilder :=
  Ok p.
Definition bitcoin_transaction_relations (r : BitcoinTransactionRequest) : list RelStep :=
  step_if (bitcoin_transaction_inputs r) (SJoin "inputs" ["block_number"; "transaction_index"] ["block_number"; "transaction_index"])
  ++ step_if (bitcoin_transaction_outputs r) (SJoin "outputs" ["block_number"; "transaction_index"] ["block_number"; "transaction_index"]).

Record BitcoinInputRequest : Type := mkBitcoinInputRequest { bitcoin_input_type : option (list string);
  bitcoin_input_prevout_script_pub_key_address : option (list string); bitcoin_input_prevout_script_pub_key_type : option (list string);
  bitcoin_input_prevout_generated : option bool; bitcoin_input_transaction : bool; bitcoin_input_transaction_inputs : bool;
  bitcoin_input_transaction_outputs : bool }.
Definition bitcoin_input_predicate (r : BitcoinInputRequest) (p : PredicateBuilder) : res PredicateBuilder :=
  let p := pb_strings "type" (bitcoin_input_type r) p in
  let p := pb_strings "prevout_script_pub_key_address" (bitcoin_input_prevout_script_pub_key_address r) p in
  let p := pb_strings "prevout_script_pub_key_type" (bitcoin_input_prevout_script_pub_key_type r) p in
  let p := pb_col_eq "prevout_generated" (bool_scalar <$> (bitcoin_input_prevout_generated r)) p in
  Ok p.
Definition bitcoin_input_relations (r : BitcoinInputRequest) : list RelStep :=
  step_if (bitcoin_input_transaction r) (SJoin "transactions" ["block_number"; "transaction_index"] ["block_number"; "transaction_index"])
  ++ step_if (bitcoin_input_transaction_inputs r) (SJoin "inputs" ["block_number"; "transaction_index"] ["block_number"; "transaction_index"])
  ++ step_if (bitcoin_input_transaction_outputs r) (SJoin "outputs" ["block_number"; "transaction_index"] ["block_number"; "transaction_index"]).

Record BitcoinOutputRequest : Type := mkBitcoinOutputRequest { bitcoin_output_script_pub_key_address : option (list string);
  bitcoin_output_script_pub_key_type : option (list string); bitcoin_output_transaction : bool; bitcoin_output_transaction_inputs : bool;
  bitcoin_output_transaction_outputs : bool }.
Definition bitcoin_output_predicate (r : BitcoinOutputRequest) (p : PredicateBuilder) : res PredicateBuilder :=
  let p := pb_strings "script_pub_key_address" (bitcoin_output_script_pub_key_address r) p in
  let p := pb_strings "script_pub_key_type" (bitcoin_output_script_pub_key_type r) p in
  Ok p.
Definition bitcoin_output_relations (r : BitcoinOutputRequest) : list RelStep :=
  step_if (bitcoin_output_transaction r) (SJoin "transactions" ["block_number"; "transaction_index"] ["block_number"; "transaction_index"])
  ++ step_if (bitcoin_output_transaction_inputs r) (SJoin "inputs" ["block_number"; "transaction_index"] ["block_number"; "transaction_index"])
  ++ step_if (bitcoin_output_transaction_outputs r) (SJoin "outputs" ["block_number"; "transaction_index"] ["block_number"; "transaction_index"]).

Record BitcoinQuery : Type := mkBitcoinQuery { bitcoin_base : QueryBase; bitcoin_fields : BitcoinFieldSelection;
  bitcoin_transactions : list BitcoinTransactionRequest; bitcoin_inputs : list BitcoinInputRequest; bitcoin_outputs : list BitcoinOutputRequest }.
Definition bitcoin_validate (q : BitcoinQuery) : res unit :=
  _ ← ensure_block_range (bitcoin_base q);
  ensure_item_count (length (bitcoin_transactions q) + length (bitcoin_inputs q) + length (bitcoin_outputs q)).
Definition bitcoin_projections (q : BitcoinQuery) : list (Name * Exp) :=
  [("blocks", bitcoin_block_project (bitcoin_fs_block (bitcoin_fields q)));
   ("transactions", bitcoin_transaction_project (bitcoin_fs_transaction (bitcoin_fields q)));
   ("inputs", bitcoin_input_project (bitcoin_fs_input (bitcoin_fields q)));
   ("outputs", bitcoin_output_project (bitcoin_fs_output (bitcoin_fields q)))].
Definition bitcoin_items (q : BitcoinQuery) : list Item :=
  ((λ r, mkItem "transactions" (bitcoin_transaction_predicate r) (bitcoin_transaction_relations r)) <$> bitcoin_transactions q)
  ++ ((λ r, mkItem "inputs" (bitcoin_input_predicate r) (bitcoin_input_relations r)) <$> bitcoin_inputs q)
  ++ ((λ r, mkItem "outputs" (bitcoin_output_predicate r) (bitcoin_output_relations r)) <$> bitcoin_outputs q).
Definition bitcoin_compile (q : BitcoinQuery) : res Plan :=
  tables ← bitcoin_TABLES;
  compile_plan (bitcoin_base q) tables (bitcoin_projections q) (bitcoin_items q).

(** ** EVM (query/eth.rs) *)

Definition eth_TABLES : res TableSet :=
  let ts := [] in
  ts ← add_table ts "blocks" ["number"] (λ t,
    let t := set_weight t "logs_bloom" (512) in let t := set_weight_column t "extra_data" "extra_data_size" in
    let t := set_weight_column t "withdrawals" "withdrawals_size" in Ok t);
  ts ← add_table ts "transactions" ["block_number"; "transaction_index"] (λ t,
    t ← add_child t "logs" ["block_number"; "transaction_index"]; t ← add_child t "traces" ["block_number"; "transaction_index"];
    t ← add_child t "statediffs" ["block_number"; "transaction_index"]; let t := set_weight t "logs_bloom" (512) in
    let t := set_weight_column t "input" "input_size" in let t := set_weight_column t "access_list" "access_list_size" in Ok t);
  ts ← add_table ts "logs" ["block_number"; "log_index"] (λ t,
    let t := set_weight_column t "data" "data_size" in Ok t);
  ts ← add_table ts "traces" ["block_number"; "transaction_index"; "trace_address"] (λ t,
    let t := set_weight_column t "create_init" "create_init_size" in let t := set_weight_column t "create_result_code" "create_result_code_size" in
    let t := set_weight_column t "call_input" "call_input_size" in let t := set_weight_column t "call_result_output" "call_result_output_size" in
    Ok t);
  ts ← add_table ts "statediffs" ["block_number"; "transaction_index"; "address"; "key"] (λ t,
    let t := set_weight_column t "prev" "prev_size" in let t := set_weight_column t "next" "next_size" in
    let t := set_result_item_name t "stateDiffs" in Ok t);
  Ok ts.

Record EthFieldSelection : Type := mkEthFieldSelection { eth_fs_block : selection; eth_fs_transaction : selection; eth_fs_log : selection; eth_fs_trace : selection; eth_fs_state_diff : selection }.

Definition eth_block_columns : list Name :=
  ["number"; "hash"; "parent_hash"; "timestamp"; "transactions_root"; "receipts_root"; "state_root"; "logs_bloom"; "sha3_uncles"; "extra_data";
   "miner"; "nonce"; "mix_hash"; "size"; "gas_limit"; "gas_used"; "difficulty"; "total_difficulty"; "base_fee_per_gas"; "uncles"; "withdrawals";
   "withdrawals_root"; "blob_gas_used"; "excess_blob_gas"; "parent_beacon_block_root"; "requests_hash"; "l1_block_number";
   "main_block_general_gas_limit"; "shared_gas_limit"; "timestamp_millis_part"].
Definition eth_block_project (this : selection) : Exp :=
  EObject (json_fields this ["number"; "hash"; "parent_hash"]
    ++ json_exps this [("timestamp", ETimestampSecond); ("transactions_root", EValue); ("receipts_root", EValue); ("state_root", EValue);
      ("logs_bloom", EValue); ("sha3_uncles", EValue); ("extra_data", EValue); ("miner", EValue); ("nonce", EValue); ("mix_hash", EValue);
      ("size", EValue); ("gas_limit", EValue); ("gas_used", EValue); ("difficulty", EValue); ("total_difficulty", EValue);
      ("base_fee_per_gas", EValue); ("uncles", EValue); ("withdrawals", EValue); ("withdrawals_root", EValue); ("blob_gas_used", EValue);
      ("excess_blob_gas", EValue); ("parent_beacon_block_root", EValue); ("requests_hash", EValue); ("l1_block_number", EValue);
      ("main_block_general_gas_limit", EValue); ("shared_gas_limit", EValue); ("timestamp_millis_part", EValue)]).

Definition eth_transaction_columns : list Name :=
  ["transaction_index"; "hash"; "nonce"; "from"; "to"; "input"; "value"; "gas"; "gas_price"; "max_fee_per_gas"; "max_priority_fee_per_gas"; "v"; "r";
   "s"; "y_parity"; "access_list"; "chain_id"; "sighash"; "contract_address"; "gas_used"; "logs_bloom"; "cumulative_gas_used"; "effective_gas_price";
   "type"; "status"; "blob_gas_used"; "blob_gas_price"; "max_fee_per_blob_gas"; "blob_versioned_hashes"; "authorization_list"; "calls"; "nonce_key";
   "signature"; "fee_token"; "fee_payer_v"; "fee_payer_r"; "fee_payer_s"; "valid_before"; "valid_after"; "aa_authorization_list"; "key_authorization";
   "l1_fee"; "l1_fee_scalar"; "l1_gas_price"; "l1_gas_used"; "l1_blob_base_fee"; "l1_blob_base_fee_scalar"; "l1_base_fee_scalar"].
Definition eth_transaction_project (this : selection) : Exp :=
  EObject (json_fields this ["transaction_index"; "hash"; "nonce"; "from"; "to"; "input"; "value"; "gas"; "gas_price"; "max_fee_per_gas";
      "max_priority_fee_per_gas"; "v"; "r"; "s"; "y_parity"; "access_list"; "chain_id"; "sighash"; "contract_address"; "gas_used"; "logs_bloom";
      "cumulative_gas_used"; "effective_gas_price"; "type"; "status"; "blob_gas_used"; "blob_gas_price"; "max_fee_per_blob_gas";
      "blob_versioned_hashes"]
    ++ json_add (this "authorization_list") "authorizationList" (EProp "authorization_list" (EList (EObject [("chainId", (EProp "chain_id" EValue)); ("address", (EProp "address" EValue)); ("nonce", (EProp "nonce" EBigNum)); ("yParity", (EProp "y_parity" EValue)); ("r", (EProp "r" EValue)); ("s", (EProp "s" EValue))])))
    ++ json_fields this ["calls"; "nonce_key"; "signature"; "fee_token"; "fee_payer_v"; "fee_payer_r"; "fee_payer_s"; "valid_before"; "valid_after";
      "aa_authorization_list"; "key_authorization"; "l1_fee"; "l1_fee_scalar"; "l1_gas_price"; "l1_gas_used"; "l1_blob_base_fee";
      "l1_blob_base_fee_scalar"; "l1_base_fee_scalar"]).

Definition eth_log_columns : list Name :=
  ["log_index"; "transaction_index"; "transaction_hash"; "address"; "data"; "topics"].
Definition eth_log_project (this : selection) : Exp :=
  EObject (json_fields this ["log_index"; "transaction_index"; "transaction_hash"; "address"; "data"]
    ++ json_add (this "topics") "topics" (ERoll ["topic0"; "topic1"; "topic2"; "topic3"] EValue)).

Definition eth_trace_columns : list Name :=
  ["transaction_index"; "trace_address"; "subtraces"; "type"; "error"; "revert_reason"; "create_from"; "create_value"; "create_gas"; "create_init";
   "create_result_gas_used"; "create_result_code"; "create_result_address"; "call_from"; "call_to"; "call_value"; "call_gas"; "call_input";
   "call_sighash"; "call_type"; "call_call_type"; "call_result_gas_used"; "call_result_output"; "suicide_address"; "suicide_refund_address";
   "suicide_balance"; "reward_author"; "reward_value"; "reward_type"].
Definition eth_trace_project (this : selection) : Exp :=
  let base := json_fields this ["transaction_index"; "trace_address"; "type"; "subtraces"; "error"; "revert_reason"] in
  let create := base in
  let create_action := [] in
  let create_action := create_action ++ json_add (this "create_from") "from" (EProp "create_from" EValue) in
  let create_action := create_action ++ json_add (this "create_value") "value" (EProp "create_value" EValue) in
  let create_action := create_action ++ json_add (this "create_gas") "gas" (EProp "create_gas" EValue) in
  let create_action := create_action ++ json_add (this "create_init") "init" (EProp "create_init" EValue) in
  let create := create ++ json_add (negb (json_is_empty create_action)) "action" (EObject create_action) in
  let create_result := [] in
  let create_result := create_result ++ json_add (this "create_result_gas_used") "gasUsed" (EProp "create_result_gas_used" EValue) in
  let create_result := create_result ++ json_add (this "create_result_code") "code" (EProp "create_result_code" EValue) in
  let create_result := create_result ++ json_add (this "create_result_address") "address" (EProp "create_result_address" EValue) in
  let create := create ++ json_add (negb (json_is_empty create_result)) "result" (EObject create_result) in
  let call := base in
  let call_action := [] in
  let call_action := call_action ++ json_add (this "call_from") "from" (EProp "call_from" EValue) in
  let call_action := call_action ++ json_add (this "call_to") "to" (EProp "call_to" EValue) in
  let call_action := call_action ++ json_add (this "call_value") "value" (EProp "call_value" EValue) in
  let call_action := call_action ++ json_add (this "call_gas") "gas" (EProp "call_gas" EValue) in
  let call_action := call_action ++ json_add (this "call_input") "input" (EProp "call_input" EValue) in
  let call_action := call_action ++ json_add (this "call_sighash") "sighash" (EProp "call_sighash" EValue) in
  let call_action := call_action ++ json_add (this "call_type") "type" (EProp "call_type" EValue) in
  let call_action := call_action ++ json_add (this "call_call_type") "callType" (EProp "call_type" EValue) in
  let call := call ++ json_add (negb (json_is_empty call_action)) "action" (EObject call_action) in
  let call_result := [] in
  let call_result := call_result ++ json_add (this "call_result_gas_used") "gasUsed" (EProp "call_result_gas_used" EValue) in
  let call_result := call_result ++ json_add (this "call_result_output") "output" (EProp "call_result_output" EValue) in
  let call := call ++ json_add (negb (json_is_empty call_result)) "result" (EObject call_result) in
  let suicide := base in
  let suicide_action := [] in
  let suicide_action := suicide_action ++ json_add (this "suicide_address") "address" (EProp "suicide_address" EValue) in
  let suicide_action := suicide_action ++ json_add (this "suicide_refund_address") "refundAddress" (EProp "suicide_refund_address" EValue) in
  let suicide_action := suicide_action ++ json_add (this "suicide_balance") "balance" (EProp "suicide_balance" EValue) in
  let suicide := suicide ++ json_add (negb (json_is_empty suicide_action)) "action" (EObject suicide_action) in
  let reward := base in
  let reward_action := [] in
  let reward_action := reward_action ++ json_add (this "reward_author") "author" (EProp "reward_author" EValue) in
  let reward_action := reward_action ++ json_add (this "reward_value") "value" (EProp "reward_value" EValue) in
  let reward_action := reward_action ++ json_add (this "reward_type") "type" (EProp "reward_type" EValue) in
  let reward := reward ++ json_add (negb (json_is_empty reward_action)) "action" (EObject reward_action) in
  EEnum "type" [("create", EObject create); ("call", EObject call); ("suicide", EObject suicide); ("reward", EObject reward)].

Definition eth_state_diff_columns : list Name :=
  ["transaction_index"; "address"; "key"; "kind"; "prev"; "next"].
Definition eth_state_diff_project (this : selection) : Exp :=
  EObject (json_fields this ["transaction_index"; "address"; "key"; "kind"; "prev"; "next"]).

Record EthTransactionRequest : Type := mkEthTransactionRequest { eth_transaction_from : option (list string);
  eth_transaction_to : option (list string); eth_transaction_sighash : option (list string); eth_transaction_first_nonce : option Z;
  eth_transaction_last_nonce : option Z; eth_transaction_logs : bool; eth_transaction_traces : bool; eth_transaction_state_diffs : bool }.
Definition eth_transaction_predicate (r : EthTransactionRequest) (p : PredicateBuilder) : res PredicateBuilder :=
  let p := pb_strings "from" (to_lowercase_list (eth_transaction_from r)) p in
  let p := pb_strings "to" (to_lowercase_list (eth_transaction_to r)) p in
  let p := pb_strings "sighash" (to_lowercase_list (eth_transaction_sighash r)) p in
  let p := pb_col_gt_eq "nonce" (u64_scalar <$> (eth_transaction_first_nonce r)) p in
  let p := pb_col_lt_eq "nonce" (u64_scalar <$> (eth_transaction_last_nonce r)) p in
  Ok p.
Definition eth_transaction_relations (r : EthTransactionRequest) : list RelStep :=
  step_if (eth_transaction_logs r) (SJoin "logs" ["block_number"; "transaction_index"] ["block_number"; "transaction_index"])
  ++ step_if (eth_transaction_traces r) (SJoin "traces" ["block_number"; "transaction_index"] ["block_number"; "transaction_index"])
  ++ step_if (eth_transaction_state_diffs r) (SJoin "statediffs" ["block_number"; "transaction_index"] ["block_number"; "transaction_index"]).

Record EthLogRequest : Type := mkEthLogRequest { eth_log_address : option (list string); eth_log_topic0 : option (list string);
  eth_log_topic1 : option (list string); eth_log_topic2 : option (list string); eth_log_topic3 : option (list string); eth_log_transaction : bool;
  eth_log_transaction_traces : bool; eth_log_transaction_logs : bool; eth_log_transaction_state_diffs : bool }.
Definition eth_log_predicate (r : EthLogRequest) (p : PredicateBuilder) : res PredicateBuilder :=
  let p := pb_strings "address" (to_lowercase_list (eth_log_address r)) p in
  let p := pb_strings "topic0" (to_lowercase_list (eth_log_topic0 r)) p in
  let p := pb_strings "topic1" (to_lowercase_list (eth_log_topic1 r)) p in
  let p := pb_strings "topic2" (to_lowercase_list (eth_log_topic2 r)) p in
  let p := pb_strings "topic3" (to_lowercase_list (eth_log_topic3 r)) p in
  Ok p.
Definition eth_log_relations (r : EthLogRequest) : list RelStep :=
  step_if (eth_log_transaction r) (SJoin "transactions" ["block_number"; "transaction_index"] ["block_number"; "transaction_index"])
  ++ step_if (eth_log_transaction_traces r) (SJoin "traces" ["block_number"; "transaction_index"] ["block_number"; "transaction_index"])
  ++ step_if (eth_log_transaction_logs r) (SJoin "logs" ["block_number"; "transaction_index"] ["block_number"; "transaction_index"])
  ++ step_if (eth_log_transaction_state_diffs r) (SJoin "statediffs" ["block_number"; "transaction_index"] ["block_number"; "transaction_index"]).

Record EthTraceRequest : Type := mkEthTraceRequest { eth_trace_type : option (list string); eth_trace_create_from : option (list string);
  eth_trace_create_result_address : option (list string); eth_trace_create_value_non_zero : bool; eth_trace_call_from : option (list string);
  eth_trace_call_to : option (list string); eth_trace_call_sighash : option (list string); eth_trace_call_call_type : option (list string);
  eth_trace_call_value_non_zero : bool; eth_trace_suicide_address : option (list string); eth_trace_suicide_refund_address : option (list string);
  eth_trace_suicide_balance_non_zero : bool; eth_trace_reward_author : option (list string); eth_trace_reward_value_non_zero : bool;
  eth_trace_transaction : bool; eth_trace_transaction_logs : bool; eth_trace_transaction_traces : bool; eth_trace_subtraces : bool;
  eth_trace_parents : bool }.
Definition eth_trace_predicate (r : EthTraceRequest) (p : PredicateBuilder) : res PredicateBuilder :=
  let p := pb_strings "type" (eth_trace_type r) p in
  let p := pb_strings "create_from" (to_lowercase_list (eth_trace_create_from r)) p in
  let p := pb_strings "create_result_address" (to_lowercase_list (eth_trace_create_result_address r)) p in
  let p := pb_strings "call_from" (to_lowercase_list (eth_trace_call_from r)) p in
  let p := pb_strings "call_to" (to_lowercase_list (eth_trace_call_to r)) p in
  let p := pb_strings "call_sighash" (to_lowercase_list (eth_trace_call_sighash r)) p in
  let p := pb_strings "call_type" (eth_trace_call_call_type r) p in
  let p := pb_strings "suicide_address" (to_lowercase_list (eth_trace_suicide_address r)) p in
  let p := pb_strings "suicide_refund_address" (to_lowercase_list (eth_trace_suicide_refund_address r)) p in
  let p := pb_strings "reward_author" (to_lowercase_list (eth_trace_reward_author r)) p in
  let p := if eth_trace_call_value_non_zero r then pb_col_gt_eq "call_value" (Some (str_scalar "0x1")) p else p in
  let p := if eth_trace_create_value_non_zero r then pb_col_gt_eq "create_value" (Some (str_scalar "0x1")) p else p in
  let p := if eth_trace_suicide_balance_non_zero r then pb_col_gt_eq "suicide_balance" (Some (str_scalar "0x1")) p else p in
  let p := if eth_trace_reward_value_non_zero r then pb_col_gt_eq "reward_value" (Some (str_scalar "0x1")) p else p in
  Ok p.
Definition eth_trace_relations (r : EthTraceRequest) : list RelStep :=
  step_if (eth_trace_transaction r) (SJoin "transactions" ["block_number"; "transaction_index"] ["block_number"; "transaction_index"])
  ++ step_if (eth_trace_transaction_logs r) (SJoin "logs" ["block_number"; "transaction_index"] ["block_number"; "transaction_index"])
  ++ step_if (eth_trace_transaction_traces r) (SJoin "traces" ["block_number"; "transaction_index"] ["block_number"; "transaction_index"])
  ++ step_if (eth_trace_subtraces r) SChildren
  ++ step_if (eth_trace_parents r) SParents.

Record EthStateDiffRequest : Type := mkEthStateDiffRequest { eth_state_diff_address : option (list string); eth_state_diff_key : option (list string);
  eth_state_diff_kind : option (list string); eth_state_diff_transaction : bool }.
Definition eth_state_diff_predicate (r : EthStateDiffRequest) (p : PredicateBuilder) : res PredicateBuilder :=
  let p := pb_strings "address" (to_lowercase_list (eth_state_diff_address r)) p in
  let p := pb_strings "key" (eth_state_diff_key r) p in
  let p := pb_strings "kind" (eth_state_diff_kind r) p in
  Ok p.
Definition eth_state_diff_relations (r : EthStateDiffRequest) : list RelStep :=
  step_if (eth_state_diff_transaction r) (SJoin "transactions" ["block_number"; "transaction_index"] ["block_number"; "transaction_index"]).

Record EthQuery : Type := mkEthQuery { eth_base : QueryBase; eth_fields : EthFieldSelection; eth_transactions : list EthTransactionRequest;
  eth_logs : list EthLogRequest; eth_traces : list EthTraceRequest; eth_statediffs : list EthStateDiffRequest }.
Definition eth_validate (q : EthQuery) : res unit :=
  _ ← ensure_block_range (eth_base q);
  ensure_item_count (length (eth_transactions q) + length (eth_logs q) + length (eth_traces q) + length (eth_statediffs q)).
Definition requires_traces (q : EthQuery) : bool :=
  negb (length (eth_traces q) =? 0)%nat || existsb eth_transaction_traces (eth_transactions q) || existsb eth_log_transaction_traces (eth_logs q).
Definition requires_statediffs (q : EthQuery) : bool :=
  negb (length (eth_statediffs q) =? 0)%nat || existsb eth_transaction_state_diffs (eth_transactions q) || existsb eth_log_transaction_state_diffs (eth_logs q).
Definition eth_projections (q : EthQuery) : list (Name * Exp) :=
  [("blocks", eth_block_project (eth_fs_block (eth_fields q)));
   ("transactions", eth_transaction_project (eth_fs_transaction (eth_fields q)));
   ("logs", eth_log_project (eth_fs_log (eth_fields q)));
   ("traces", eth_trace_project (eth_fs_trace (eth_fields q)));
   ("statediffs", eth_state_diff_project (eth_fs_state_diff (eth_fields q)))].
Definition eth_items (q : EthQuery) : list Item :=
  ((λ r, mkItem "transactions" (eth_transaction_predicate r) (eth_transaction_relations r)) <$> eth_transactions q)
  ++ ((λ r, mkItem "logs" (eth_log_predicate r) (eth_log_relations r)) <$> eth_logs q)
  ++ ((λ r, mkItem "traces" (eth_trace_predicate r) (eth_trace_relations r)) <$> eth_traces q)
  ++ ((λ r, mkItem "statediffs" (eth_state_diff_predicate r) (eth_state_diff_relations r)) <$> eth_statediffs q).
Definition eth_compile (q : EthQuery) : res Plan :=
  tables ← eth_TABLES;
  compile_plan (eth_base q) tables (eth_projections q) (eth_items q).

(** ** Tron (query/tron.rs) *)

Definition tron_TABLES : res TableSet :=
  let ts := [] in
  ts ← add_table ts "blocks" ["number"] Ok;
  ts ← add_table ts "transactions" ["block_number"; "transaction_index"] (λ t,
    t ← add_child t "logs" ["block_number"; "transaction_index"]; t ← add_child t "internal_transactions" ["block_number"; "transaction_index"];
    let t := set_weight_column t "raw_data_hex" "raw_data_hex_size" in Ok t);
  ts ← add_table ts "logs" ["block_number"; "transaction_index"; "log_index"] (λ t,
    let t := set_weight_column t "data" "data_size" in Ok t);
  ts ← add_table ts "internal_transactions" ["block_number"; "transaction_index"; "internal_transaction_index"] (λ t,
    let t := set_result_item_name t "internalTransactions" in Ok t);
  Ok ts.

Record TronFieldSelection : Type := mkTronFieldSelection { tron_fs_block : selection; tron_fs_transaction : selection; tron_fs_log : selection; tron_fs_internal_transaction : selection }.

Definition tron_block_columns : list Name :=
  ["number"; "hash"; "parent_hash"; "tx_trie_root"; "version"; "timestamp"; "witness_address"; "witness_signature"].
Definition tron_block_project (this : selection) : Exp :=
  EObject (json_fields this ["number"; "hash"; "parent_hash"; "tx_trie_root"; "version"; "witness_address"; "witness_signature"]
    ++ json_exps this [("timestamp", ETimestampMillisecond)]).

Definition tron_transaction_columns : list Name :=
  ["transaction_index"; "hash"; "ret"; "signature"; "type"; "parameter"; "permission_id"; "ref_block_bytes"; "ref_block_hash"; "fee_limit";
   "expiration"; "timestamp"; "raw_data_hex"; "fee"; "contract_result"; "contract_address"; "res_message"; "withdraw_amount"; "unfreeze_amount";
   "withdraw_expire_amount"; "cancel_unfreeze_v2_amount"; "result"; "energy_fee"; "energy_usage"; "energy_usage_total"; "net_usage"; "net_fee";
   "origin_energy_usage"; "energy_penalty_total"].
Definition tron_transaction_project (this : selection) : Exp :=
  EObject (json_fields this ["transaction_index"; "hash"; "signature"; "type"; "permission_id"; "ref_block_bytes"; "ref_block_hash"; "raw_data_hex";
      "contract_result"; "contract_address"; "res_message"; "result"]
    ++ json_exps this [("ret", EJson); ("parameter", EJson); ("fee_limit", EBigNum); ("expiration", ETimestampMillisecond);
      ("timestamp", ETimestampMillisecond); ("fee", EBigNum); ("withdraw_amount", EBigNum); ("unfreeze_amount", EBigNum);
      ("withdraw_expire_amount", EBigNum); ("cancel_unfreeze_v2_amount", EJson); ("energy_fee", EBigNum); ("energy_usage", EBigNum);
      ("energy_usage_total", EBigNum); ("net_usage", EBigNum); ("net_fee", EBigNum); ("origin_energy_usage", EBigNum);
      ("energy_penalty_total", EBigNum)]).

Definition tron_log_columns : list Name :=
  ["transaction_index"; "log_index"; "address"; "data"; "topics"].
Definition tron_log_project (this : selection) : Exp :=
  EObject (json_fields this ["transaction_index"; "log_index"; "address"; "data"]
    ++ json_add (this "topics") "topics" (ERoll ["topic0"; "topic1"; "topic2"; "topic3"] EValue)).

Definition tron_internal_transaction_columns : list Name :=
  ["transaction_index"; "internal_transaction_index"; "hash"; "caller_address"; "transfer_to_address"; "call_value_info"; "note"; "rejected"; "extra"].
Definition tron_internal_transaction_project (this : selection) : Exp :=
  EObject (json_fields this ["transaction_index"; "internal_transaction_index"; "hash"; "caller_address"; "transfer_to_address"; "note"; "rejected"; "extra"]
    ++ json_exps this [("call_value_info", EJson)]).

Record TronTransactionRequest : Type := mkTronTransactionRequest { tron_transaction_type : option (list string); tron_transaction_logs : bool;
  tron_transaction_internal_transactions : bool }.
Definition tron_transaction_predicate (r : TronTransactionRequest) (p : PredicateBuilder) : res PredicateBuilder :=
  let p := pb_strings "type" (tron_transaction_type r) p in
  Ok p.
Definition tron_transaction_relations (r : TronTransactionRequest) : list RelStep :=
  step_if (tron_transaction_logs r) (SJoin "logs" ["block_number"; "transaction_index"] ["block_number"; "transaction_index"])
  ++ step_if (tron_transaction_internal_transactions r) (SJoin "internal_transactions" ["block_number"; "transaction_index"] ["block_number"; "transaction_index"]).

Record TronTransferTransactionRequest : Type := mkTronTransferTransactionRequest { tron_transfer_transaction_owner : option (list string);
  tron_transfer_transaction_to : option (list string); tron_transfer_transaction_logs : bool; tron_transfer_transaction_internal_transactions : bool }.
Definition tron_transfer_transaction_predicate (r : TronTransferTransactionRequest) (p : PredicateBuilder) : res PredicateBuilder :=
  let p := pb_col_eq "type" (Some (str_scalar "TransferContract")) p in
  let p := pb_strings "_transfer_contract_owner" (to_lowercase_list (tron_transfer_transaction_owner r)) p in
  let p := pb_strings "_transfer_contract_to" (to_lowercase_list (tron_transfer_transaction_to r)) p in
  Ok p.
Definition tron_transfer_transaction_relations (r : TronTransferTransactionRequest) : list RelStep :=
  step_if (tron_transfer_transaction_logs r) (SJoin "logs" ["block_number"; "transaction_index"] ["block_number"; "transaction_index"])
  ++ step_if (tron_transfer_transaction_internal_transactions r) (SJoin "internal_transactions" ["block_number"; "transaction_index"] ["block_number"; "transaction_index"]).

Record TronTransferAssetTransactionRequest : Type := mkTronTransferAssetTransactionRequest {
  tron_transfer_asset_transaction_owner : option (list string); tron_transfer_asset_transaction_to : option (list string);
  tron_transfer_asset_transaction_asset : option (list string); tron_transfer_asset_transaction_logs : bool;
  tron_transfer_asset_transaction_internal_transactions : bool }.
Definition tron_transfer_asset_transaction_predicate (r : TronTransferAssetTransactionRequest) (p : PredicateBuilder) : res PredicateBuilder :=
  let p := pb_col_eq "type" (Some (str_scalar "TransferAssetContract")) p in
  let p := pb_strings "_transfer_asset_contract_owner" (to_lowercase_list (tron_transfer_asset_transaction_owner r)) p in
  let p := pb_strings "_transfer_asset_contract_to" (to_lowercase_list (tron_transfer_asset_transaction_to r)) p in
  let p := pb_strings "_transfer_asset_contract_asset" (tron_transfer_asset_transaction_asset r) p in
  Ok p.
Definition tron_transfer_asset_transaction_relations (r : TronTransferAssetTransactionRequest) : list RelStep :=
  step_if (tron_transfer_asset_transaction_logs r) (SJoin "logs" ["block_number"; "transaction_index"] ["block_number"; "transaction_index"])
  ++ step_if (tron_transfer_asset_transaction_internal_transactions r) (SJoin "internal_transactions" ["block_number"; "transaction_index"] ["block_number"; "transaction_index"]).

Record TronTriggerSmartContractTransactionRequest : Type := mkTronTriggerSmartContractTransactionRequest {
  tron_trigger_smart_contract_transaction_owner : option (list string); tron_trigger_smart_contract_transaction_contract : option (list string);
  tron_trigger_smart_contract_transaction_sighash : option (list string); tron_trigger_smart_contract_transaction_logs : bool;
  tron_trigger_smart_contract_transaction_internal_transactions : bool }.
Definition tron_trigger_smart_contract_transaction_predicate (r : TronTriggerSmartContractTransactionRequest) (p : PredicateBuilder) : res PredicateBuilder :=
  let p := pb_col_eq "type" (Some (str_scalar "TriggerSmartContract")) p in
  let p := pb_strings "_trigger_smart_contract_owner" (to_lowercase_list (tron_trigger_smart_contract_transaction_owner r)) p in
  let p := pb_strings "_trigger_smart_contract_contract" (to_lowercase_list (tron_trigger_smart_contract_transaction_contract r)) p in
  let p := pb_strings "_trigger_smart_contract_sighash" (to_lowercase_list (tron_trigger_smart_contract_transaction_sighash r)) p in
  Ok p.
Definition tron_trigger_smart_contract_transaction_relations (r : TronTriggerSmartContractTransactionRequest) : list RelStep :=
  step_if (tron_trigger_smart_contract_transaction_logs r) (SJoin "logs" ["block_number"; "transaction_index"] ["block_number"; "transaction_index"])
  ++ step_if (tron_trigger_smart_contract_transaction_internal_transactions r) (SJoin "internal_transactions" ["block_number"; "transaction_index"] ["block_number"; "transaction_index"]).

Record TronLogRequest : Type := mkTronLogRequest { tron_log_address : option (list string); tron_log_topic0 : option (list string);
  tron_log_topic1 : option (list string); tron_log_topic2 : option (list string); tron_log_topic3 : option (list string); tron_log_transaction : bool }.
Definition tron_log_predicate (r : TronLogRequest) (p : PredicateBuilder) : res PredicateBuilder :=
  let p := pb_strings "address" (to_lowercase_list (tron_log_address r)) p in
  let p := pb_strings "topic0" (to_lowercase_list (tron_log_topic0 r)) p in
  let p := pb_strings "topic1" (to_lowercase_list (tron_log_topic1 r)) p in
  let p := pb_strings "topic2" (to_lowercase_list (tron_log_topic2 r)) p in
  let p := pb_strings "topic3" (to_lowercase_list (tron_log_topic3 r)) p in
  Ok p.
Definition tron_log_relations (r : TronLogRequest) : list RelStep :=
  step_if (tron_log_transaction r) (SJoin "transactions" ["block_number"; "transaction_index"] ["block_number"; "transaction_index"]).

Record TronInternalTransactionRequest : Type := mkTronInternalTransactionRequest { tron_internal_transaction_caller : option (list string);
  tron_internal_transaction_transfer_to : option (list string); tron_internal_transaction_transaction : bool }.
Definition tron_internal_transaction_predicate (r : TronInternalTransactionRequest) (p : PredicateBuilder) : res PredicateBuilder :=
  let p := pb_strings "caller_address" (to_lowercase_list (tron_internal_transaction_caller r)) p in
  let p := pb_strings "transfer_to_address" (to_lowercase_list (tron_internal_transaction_transfer_to r)) p in
  Ok p.
Definition tron_internal_transaction_relations (r : TronInternalTransactionRequest) : list RelStep :=
  step_if (tron_internal_transaction_transaction r) (SJoin "transactions" ["block_number"; "transaction_index"] ["block_number"; "transaction_index"]).

Record TronQuery : Type := mkTronQuery { tron_base : QueryBase; tron_fields : TronFieldSelection; tron_transactions : list TronTransactionRequest;
  tron_transfer_transactions : list TronTransferTransactionRequest; tron_transfer_asset_transactions : list TronTransferAssetTransactionRequest;
  tron_trigger_smart_contract_transactions : list TronTriggerSmartContractTransactionRequest; tron_logs : list TronLogRequest;
  tron_internal_transactions : list TronInternalTransactionRequest }.
Definition tron_validate (q : TronQuery) : res unit :=
  _ ← ensure_block_range (tron_base q);
  ensure_item_count (length (tron_transactions q) + length (tron_transfer_transactions q) + length (tron_transfer_asset_transactions q) + length (tron_trigger_smart_contract_transactions q) + length (tron_logs q) + length (tron_internal_transactions q)).
Definition tron_projections (q : TronQuery) : list (Name * Exp) :=
  [("blocks", tron_block_project (tron_fs_block (tron_fields q)));
   ("transactions", tron_transaction_project (tron_fs_transaction (tron_fields q)));
   ("logs", tron_log_project (tron_fs_log (tron_fields q)));
   ("internal_transactions", tron_internal_transaction_project (tron_fs_internal_transaction (tron_fields q)))].
Definition tron_items (q : TronQuery) : list Item :=
  ((λ r, mkItem "transactions" (tron_transaction_predicate r) (tron_transaction_relations r)) <$> tron_transactions q)
  ++ ((λ r, mkItem "logs" (tron_log_predicate r) (tron_log_relations r)) <$> tron_logs q)
  ++ ((λ r, mkItem "internal_transactions" (tron_internal_transaction_predicate r) (tron_internal_transaction_relations r)) <$> tron_internal_transactions q)
  ++ ((λ r, mkItem "transactions" (tron_transfer_transaction_predicate r) (tron_transfer_transaction_relations r)) <$> tron_transfer_transactions q)
  ++ ((λ r, mkItem "transactions" (tron_transfer_asset_transaction_predicate r) (tron_transfer_asset_transaction_relations r)) <$> tron_transfer_asset_transactions q)
  ++ ((λ r, mkItem "transactions" (tron_trigger_smart_contract_transaction_predicate r) (tron_trigger_smart_contract_transaction_relations r)) <$> tron_trigger_smart_contract_transactions q).
Definition tron_compile (q : TronQuery) : res Plan :=
  tables ← tron_TABLES;
  compile_plan (tron_base q) tables (tron_projections q) (tron_items q).

(** ** Substrate (query/substrate.rs) *)

Definition substrate_TABLES : res TableSet :=
  let ts := [] in
  ts ← add_table ts "blocks" ["number"] (λ t,
    let t := set_weight t "digest" (32 * 4) in Ok t);
  ts ← add_table ts "events" ["block_number"; "index"] (λ t,
    let t := set_weight_column t "args" "args_size" in Ok t);
  ts ← add_table ts "calls" ["block_number"; "extrinsic_index"; "address"] (λ t,
    let t := set_weight_column t "args" "args_size" in Ok t);
  ts ← add_table ts "extrinsics" ["block_number"; "index"] (λ t,
    t ← add_child t "calls" ["block_number"; "extrinsic_index"]; let t := set_weight t "signature" (4 * 32) in Ok t);
  Ok ts.

Record SubstrateFieldSelection : Type := mkSubstrateFieldSelection { substrate_fs_block : selection; substrate_fs_extrinsic : selection; substrate_fs_call : selection; substrate_fs_event : selection }.

Definition substrate_block_columns : list Name :=
  ["number"; "hash"; "parent_hash"; "state_root"; "extrinsics_root"; "digest"; "spec_name"; "spec_version"; "impl_name"; "impl_version"; "validator";
   "timestamp"].
Definition substrate_block_project (this : selection) : Exp :=
  EObject (json_fields this ["number"; "hash"; "parent_hash"; "state_root"; "extrinsics_root"]
    ++ json_exps this [("digest", EJson); ("spec_name", EValue); ("spec_version", EValue); ("impl_name", EValue); ("impl_version", EValue);
      ("validator", EValue); ("timestamp", ETimestampMillisecond)]).

Definition substrate_extrinsic_columns : list Name :=
  ["index"; "version"; "success"; "hash"; "fee"; "tip"; "signature"; "error"].
Definition substrate_extrinsic_project (this : selection) : Exp :=
  EObject (json_fields this ["index"; "version"; "success"; "hash"]
    ++ json_exps this [("fee", EBigNum); ("tip", EBigNum); ("signature", EJson); ("error", EJson)]).

Definition substrate_call_columns : list Name :=
  ["extrinsic_index"; "address"; "name"; "success"; "args"; "origin"; "error"].
Definition substrate_call_project (this : selection) : Exp :=
  EObject (json_fields this ["extrinsic_index"; "address"; "name"; "success"]
    ++ json_exps this [("args", EJson); ("origin", EJson); ("error", EJson)]).

Definition substrate_event_columns : list Name :=
  ["index"; "extrinsic_index"; "name"; "phase"; "call_address"; "topics"; "args"].
Definition substrate_event_project (this : selection) : Exp :=
  EObject (json_fields this ["index"; "extrinsic_index"; "call_address"; "name"; "phase"; "topics"]
    ++ json_exps this [("args", EJson)]).

Record SubstrateEventRequest : Type := mkSubstrateEventRequest { substrate_event_name : option (list string); substrate_event_extrinsic : bool;
  substrate_event_call : bool; substrate_event_stack : bool }.
Definition substrate_event_predicate (r : SubstrateEventRequest) (p : PredicateBuilder) : res PredicateBuilder :=
  let p := pb_strings "name" (substrate_event_name r) p in
  Ok p.
Definition substrate_event_relations (r : SubstrateEventRequest) : list RelStep :=
  step_if (substrate_event_extrinsic r) (SJoin "extrinsics" ["block_number"; "index"] ["block_number"; "extrinsic_index"])
  ++ step_if (substrate_event_call r) (SJoin "calls" ["block_number"; "extrinsic_index"; "address"] ["block_number"; "extrinsic_index"; "call_address"])
  ++ step_if (substrate_event_stack r) (SForeignParents "calls" ["block_number"; "extrinsic_index"; "address"] ["block_number"; "extrinsic_index"; "call_address"]).

Record SubstrateCallRequest : Type := mkSubstrateCallRequest { substrate_call_name : option (list string); substrate_call_subcalls : bool;
  substrate_call_extrinsic : bool; substrate_call_stack : bool; substrate_call_events : bool }.
Definition substrate_call_predicate (r : SubstrateCallRequest) (p : PredicateBuilder) : res PredicateBuilder :=
  let p := pb_strings "name" (substrate_call_name r) p in
  Ok p.
Definition substrate_call_relations (r : SubstrateCallRequest) : list RelStep :=
  step_if (substrate_call_subcalls r) SChildren
  ++ step_if (substrate_call_extrinsic r) (SJoin "extrinsics" ["block_number"; "index"] ["block_number"; "extrinsic_index"])
  ++ step_if (substrate_call_stack r) SParents
  ++ step_if (substrate_call_events r) (SForeignChildren "events" ["block_number"; "extrinsic_index"; "call_address"] ["block_number"; "extrinsic_index"; "address"]).

Record SubstrateEvmLogRequest : Type := mkSubstrateEvmLogRequest { substrate_evm_log_address : option (list string);
  substrate_evm_log_topic0 : option (list string); substrate_evm_log_topic1 : option (list string); substrate_evm_log_topic2 : option (list string);
  substrate_evm_log_topic3 : option (list string); substrate_evm_log_extrinsic : bool; substrate_evm_log_call : bool; substrate_evm_log_stack : bool }.
Definition substrate_evm_log_predicate (r : SubstrateEvmLogRequest) (p : PredicateBuilder) : res PredicateBuilder :=
  let p := pb_col_eq "name" (Some (str_scalar "EVM.Log")) p in
  let p := pb_strings "_evm_log_address" (to_lowercase_list (substrate_evm_log_address r)) p in
  let p := pb_strings "_evm_log_topic0" (to_lowercase_list (substrate_evm_log_topic0 r)) p in
  let p := pb_strings "_evm_log_topic1" (to_lowercase_list (substrate_evm_log_topic1 r)) p in
  let p := pb_strings "_evm_log_topic2" (to_lowercase_list (substrate_evm_log_topic2 r)) p in
  let p := pb_strings "_evm_log_topic3" (to_lowercase_list (substrate_evm_log_topic3 r)) p in
  Ok p.
Definition substrate_evm_log_relations (r : SubstrateEvmLogRequest) : list RelStep :=
  step_if (substrate_evm_log_extrinsic r) (SJoin "extrinsics" ["block_number"; "index"] ["block_number"; "extrinsic_index"])
  ++ step_if (substrate_evm_log_call r) (SJoin "calls" ["block_number"; "extrinsic_index"; "address"] ["block_number"; "extrinsic_index"; "call_address"])
  ++ step_if (substrate_evm_log_stack r) (SForeignParents "calls" ["block_number"; "extrinsic_index"; "address"] ["block_number"; "extrinsic_index"; "call_address"]).

Record SubstrateEthereumTransactionRequest : Type := mkSubstrateEthereumTransactionRequest { substrate_ethereum_transaction_to : option (list string);
  substrate_ethereum_transaction_sighash : option (list string); substrate_ethereum_transaction_extrinsic : bool;
  substrate_ethereum_transaction_stack : bool; substrate_ethereum_transaction_events : bool }.
Definition substrate_ethereum_transaction_predicate (r : SubstrateEthereumTransactionRequest) (p : PredicateBuilder) : res PredicateBuilder :=
  let p := pb_col_eq "name" (Some (str_scalar "Ethereum.transact")) p in
  let p := pb_strings "_ethereum_transact_to" (to_lowercase_list (substrate_ethereum_transaction_to r)) p in
  let p := pb_strings "_ethereum_transact_sighash" (to_lowercase_list (substrate_ethereum_transaction_sighash r)) p in
  Ok p.
Definition substrate_ethereum_transaction_relations (r : SubstrateEthereumTransactionRequest) : list RelStep :=
  step_if (substrate_ethereum_transaction_extrinsic r) (SJoin "extrinsics" ["block_number"; "index"] ["block_number"; "extrinsic_index"])
  ++ step_if (substrate_ethereum_transaction_stack r) SParents
  ++ step_if (substrate_ethereum_transaction_events r) (SForeignChildren "events" ["block_number"; "extrinsic_index"; "call_address"] ["block_number"; "extrinsic_index"; "address"]).

Record SubstrateContractsContractEmittedRequest : Type := mkSubstrateContractsContractEmittedRequest {
  substrate_contracts_contract_emitted_contract_address : option (list string); substrate_contracts_contract_emitted_extrinsic : bool;
  substrate_contracts_contract_emitted_call : bool; substrate_contracts_contract_emitted_stack : bool }.
Definition substrate_contracts_contract_emitted_predicate (r : SubstrateContractsContractEmittedRequest) (p : PredicateBuilder) : res PredicateBuilder :=
  let p := pb_col_eq "name" (Some (str_scalar "Contracts.ContractEmitted")) p in
  let p := pb_strings "_contract_address" (substrate_contracts_contract_emitted_contract_address r) p in
  Ok p.
Definition substrate_contracts_contract_emitted_relations (r : SubstrateContractsContractEmittedRequest) : list RelStep :=
  step_if (substrate_contracts_contract_emitted_extrinsic r) (SJoin "extrinsics" ["block_number"; "index"] ["block_number"; "extrinsic_index"])
  ++ step_if (substrate_contracts_contract_emitted_call r) (SJoin "calls" ["block_number"; "extrinsic_index"; "address"] ["block_number"; "extrinsic_index"; "call_address"])
  ++ step_if (substrate_contracts_contract_emitted_stack r) (SForeignParents "calls" ["block_number"; "extrinsic_index"; "address"] ["block_number"; "extrinsic_index"; "call_address"]).

Record SubstrateGearMessageEnqueuedRequest : Type := mkSubstrateGearMessageEnqueuedRequest {
  substrate_gear_message_enqueued_program_id : option (list string); substrate_gear_message_enqueued_extrinsic : bool;
  substrate_gear_message_enqueued_call : bool; substrate_gear_message_enqueued_stack : bool }.
Definition substrate_gear_message_enqueued_predicate (r : SubstrateGearMessageEnqueuedRequest) (p : PredicateBuilder) : res PredicateBuilder :=
  let p := pb_col_eq "name" (Some (str_scalar "Gear.UserMessageEnqueued")) p in
  let p := pb_strings "_gear_program_id" (substrate_gear_message_enqueued_program_id r) p in
  Ok p.
Definition substrate_gear_message_enqueued_relations (r : SubstrateGearMessageEnqueuedRequest) : list RelStep :=
  step_if (substrate_gear_message_enqueued_extrinsic r) (SJoin "extrinsics" ["block_number"; "index"] ["block_number"; "extrinsic_index"])
  ++ step_if (substrate_gear_message_enqueued_call r) (SJoin "calls" ["block_number"; "extrinsic_index"; "address"] ["block_number"; "extrinsic_index"; "call_address"])
  ++ step_if (substrate_gear_message_enqueued_stack r) (SForeignParents "calls" ["block_number"; "extrinsic_index"; "address"] ["block_number"; "extrinsic_index"; "call_address"]).

Record SubstrateGearUserMessageSentRequest : Type := mkSubstrateGearUserMessageSentRequest {
  substrate_gear_user_message_sent_program_id : option (list string); substrate_gear_user_message_sent_extrinsic : bool;
  substrate_gear_user_message_sent_call : bool; substrate_gear_user_message_sent_stack : bool }.
Definition substrate_gear_user_message_sent_predicate (r : SubstrateGearUserMessageSentRequest) (p : PredicateBuilder) : res PredicateBuilder :=
  let p := pb_col_eq "name" (Some (str_scalar "Gear.UserMessageSent")) p in
  let p := pb_strings "_gear_program_id" (substrate_gear_user_message_sent_program_id r) p in
  Ok p.
Definition substrate_gear_user_message_sent_relations (r : SubstrateGearUserMessageSentRequest) : list RelStep :=
  step_if (substrate_gear_user_message_sent_extrinsic r) (SJoin "extrinsics" ["block_number"; "index"] ["block_number"; "extrinsic_index"])
  ++ step_if (substrate_gear_user_message_sent_call r) (SJoin "calls" ["block_number"; "extrinsic_index"; "address"] ["block_number"; "extrinsic_index"; "call_address"])
  ++ step_if (substrate_gear_user_message_sent_stack r) (SForeignParents "calls" ["block_number"; "extrinsic_index"; "address"] ["block_number"; "extrinsic_index"; "call_address"]).

Record SubstrateReviveContractEmittedRequest : Type := mkSubstrateReviveContractEmittedRequest {
  substrate_revive_contract_emitted_contract : option (list string); substrate_revive_contract_emitted_topic0 : option (list string);
  substrate_revive_contract_emitted_topic1 : option (list string); substrate_revive_contract_emitted_topic2 : option (list string);
  substrate_revive_contract_emitted_topic3 : option (list string); substrate_revive_contract_emitted_extrinsic : bool;
  substrate_revive_contract_emitted_call : bool; substrate_revive_contract_emitted_stack : bool }.
Definition substrate_revive_contract_emitted_predicate (r : SubstrateReviveContractEmittedRequest) (p : PredicateBuilder) : res PredicateBuilder :=
  let p := pb_col_eq "name" (Some (str_scalar "Revive.ContractEmitted")) p in
  let p := pb_strings "_revive_contract" (substrate_revive_contract_emitted_contract r) p in
  let p := pb_strings "_revive_topic0" (substrate_revive_contract_emitted_topic0 r) p in
  let p := pb_strings "_revive_topic1" (substrate_revive_contract_emitted_topic1 r) p in
  let p := pb_strings "_revive_topic2" (substrate_revive_contract_emitted_topic2 r) p in
  let p := pb_strings "_revive_topic3" (substrate_revive_contract_emitted_topic3 r) p in
  Ok p.
Definition substrate_revive_contract_emitted_relations (r : SubstrateReviveContractEmittedRequest) : list RelStep :=
  step_if (substrate_revive_contract_emitted_extrinsic r) (SJoin "extrinsics" ["block_number"; "index"] ["block_number"; "extrinsic_index"])
  ++ step_if (substrate_revive_contract_emitted_call r) (SJoin "calls" ["block_number"; "extrinsic_index"; "address"] ["block_number"; "extrinsic_index"; "call_address"])
  ++ step_if (substrate_revive_contract_emitted_stack r) (SForeignParents "calls" ["block_number"; "extrinsic_index"; "address"] ["block_number"; "extrinsic_index"; "call_address"]).

Record SubstrateQuery : Type := mkSubstrateQuery { substrate_base : QueryBase; substrate_fields : SubstrateFieldSelection;
  substrate_calls : list SubstrateCallRequest; substrate_events : list SubstrateEventRequest; substrate_evm_logs : list SubstrateEvmLogRequest;
  substrate_ethereum_transactions : list SubstrateEthereumTransactionRequest;
  substrate_contracts_events : list SubstrateContractsContractEmittedRequest;
  substrate_gear_messages_enqueued : list SubstrateGearMessageEnqueuedRequest;
  substrate_gear_user_messages_sent : list SubstrateGearUserMessageSentRequest;
  substrate_revive_contract_emitted : list SubstrateReviveContractEmittedRequest }.
Definition substrate_validate (q : SubstrateQuery) : res unit :=
  _ ← ensure_block_range (substrate_base q);
  ensure_item_count (length (substrate_calls q) + length (substrate_events q) + length (substrate_ethereum_transactions q) + length (substrate_contracts_events q) + length (substrate_gear_messages_enqueued q) + length (substrate_gear_user_messages_sent q) + length (substrate_evm_logs q) + length (substrate_revive_contract_emitted q)).
Definition substrate_projections (q : SubstrateQuery) : list (Name * Exp) :=
  [("blocks", substrate_block_project (substrate_fs_block (substrate_fields q)));
   ("extrinsics", substrate_extrinsic_project (substrate_fs_extrinsic (substrate_fields q)));
   ("calls", substrate_call_project (substrate_fs_call (substrate_fields q)));
   ("events", substrate_event_project (substrate_fs_event (substrate_fields q)))].
Definition substrate_items (q : SubstrateQuery) : list Item :=
  ((λ r, mkItem "calls" (substrate_call_predicate r) (substrate_call_relations r)) <$> substrate_calls q)
  ++ ((λ r, mkItem "events" (substrate_event_predicate r) (substrate_event_relations r)) <$> substrate_events q)
  ++ ((λ r, mkItem "calls" (substrate_ethereum_transaction_predicate r) (substrate_ethereum_transaction_relations r)) <$> substrate_ethereum_transactions q)
  ++ ((λ r, mkItem "events" (substrate_contracts_contract_emitted_predicate r) (substrate_contracts_contract_emitted_relations r)) <$> substrate_contracts_events q)
  ++ ((λ r, mkItem "events" (substrate_gear_message_enqueued_predicate r) (substrate_gear_message_enqueued_relations r)) <$> substrate_gear_messages_enqueued q)
  ++ ((λ r, mkItem "events" (substrate_gear_user_message_sent_predicate r) (substrate_gear_user_message_sent_relations r)) <$> substrate_gear_user_messages_sent q)
  ++ ((λ r, mkItem "events" (substrate_evm_log_predicate r) (substrate_evm_log_relations r)) <$> substrate_evm_logs q)
  ++ ((λ r, mkItem "events" (substrate_revive_contract_emitted_predicate r) (substrate_revive_contract_emitted_relations r)) <$> substrate_revive_contract_emitted q).
Definition substrate_compile (q : SubstrateQuery) : res Plan :=
  tables ← substrate_TABLES;
  compile_plan (substrate_base q) tables (substrate_projections q) (substrate_items q).

(** ** Fuel (query/fuel.rs) *)

Definition fuel_TABLES : res TableSet :=
  let ts := [] in
  ts ← add_table ts "blocks" ["number"] Ok;
  ts ← add_table ts "transactions" ["block_number"; "index"] (λ t,
    let t := set_weight_column t "input_asset_ids" "input_asset_ids_size" in let t := set_weight_column t "input_contracts" "input_contracts_size" in
    let t := set_weight_column t "witnesses" "witnesses_size" in let t := set_weight_column t "storage_slots" "storage_slots_size" in
    let t := set_weight_column t "proof_set" "proof_set_size" in let t := set_weight_column t "script_data" "script_data_size" in
    let t := set_weight_column t "raw_payload" "raw_payload_size" in Ok t);
  ts ← add_table ts "receipts" ["block_number"; "transaction_index"; "index"] (λ t,
    let t := set_weight_column t "data" "data_size" in Ok t);
  ts ← add_table ts "inputs" ["block_number"; "transaction_index"; "index"] (λ t,
    let t := set_weight_column t "coin_predicate" "coin_predicate_size" in
    let t := set_weight_column t "message_predicate" "message_predicate_size" in Ok t);
  ts ← add_table ts "outputs" ["block_number"; "transaction_index"; "index"] Ok;
  Ok ts.

Record FuelFieldSelection : Type := mkFuelFieldSelection { fuel_fs_block : selection; fuel_fs_transaction : selection; fuel_fs_receipt : selection; fuel_fs_input : selection; fuel_fs_output : selection }.

Definition fuel_block_columns : list Name :=
  ["number"; "hash"; "transactions_root"; "transactions_count"; "message_receipt_count"; "prev_root"; "application_hash"; "event_inbox_root";
   "consensus_parameters_version"; "state_transition_bytecode_version"; "message_outbox_root"; "da_height"; "time"].
Definition fuel_block_project (this : selection) : Exp :=
  EObject (json_fields this ["number"; "hash"; "transactions_root"; "transactions_count"; "message_receipt_count"; "prev_root"; "application_hash";
      "event_inbox_root"; "consensus_parameters_version"; "state_transition_bytecode_version"; "message_outbox_root"]
    ++ json_exps this [("da_height", EBigNum); ("time", EBigNum)]).

Definition fuel_transaction_columns : list Name :=
  ["index"; "hash"; "type"; "input_asset_ids"; "input_contracts"; "input_contract_utxo_id"; "input_contract_balance_root";
   "input_contract_state_root"; "input_contract_tx_pointer"; "input_contract_contract_id"; "output_contract_input_index";
   "output_contract_balance_root"; "output_contract_state_root"; "maturity"; "mint_asset_id"; "tx_pointer"; "is_script"; "is_create"; "is_mint";
   "is_upgrade"; "is_upload"; "witnesses"; "receipts_root"; "script"; "script_data"; "bytecode_witness_index"; "bytecode_root"; "salt";
   "storage_slots"; "raw_payload"; "subsection_index"; "subsections_number"; "proof_set"; "policies_maturity"; "policies_tip";
   "policies_witness_limit"; "policies_max_fee"; "script_gas_limit"; "mint_amount"; "mint_gas_price"; "status"; "upgrade_purpose"].
Definition fuel_transaction_project (this : selection) : Exp :=
  EObject (json_fields this ["index"; "hash"; "type"; "input_asset_ids"; "input_contracts"; "input_contract_utxo_id"; "input_contract_balance_root";
      "input_contract_state_root"; "input_contract_tx_pointer"; "input_contract_contract_id"; "output_contract_input_index";
      "output_contract_balance_root"; "output_contract_state_root"; "maturity"; "mint_asset_id"; "tx_pointer"; "is_script"; "is_create"; "is_mint";
      "is_upgrade"; "is_upload"; "witnesses"; "receipts_root"; "script"; "script_data"; "bytecode_witness_index"; "bytecode_root"; "salt";
      "storage_slots"; "raw_payload"; "subsection_index"; "subsections_number"; "proof_set"; "policies_maturity"]
    ++ json_exps this [("policies_tip", EBigNum); ("policies_witness_limit", EBigNum); ("policies_max_fee", EBigNum); ("script_gas_limit", EBigNum);
      ("mint_amount", EBigNum); ("mint_gas_price", EBigNum); ("status", EJson); ("upgrade_purpose", EJson)]).

Definition fuel_receipt_columns : list Name :=
  ["index"; "transaction_index"; "contract"; "to"; "to_address"; "asset_id"; "digest"; "receipt_type"; "data"; "sender"; "recipient"; "nonce";
   "contract_id"; "sub_id"; "pc"; "is"; "amount"; "gas"; "param1"; "param2"; "val"; "ptr"; "reason"; "ra"; "rb"; "rc"; "rd"; "len"; "result";
   "gas_used"].
Definition fuel_receipt_project (this : selection) : Exp :=
  EObject (json_fields this ["index"; "transaction_index"; "contract"; "to"; "to_address"; "asset_id"; "digest"; "receipt_type"; "data"; "sender"; "recipient";
      "nonce"; "contract_id"; "sub_id"]
    ++ json_exps this [("pc", EBigNum); ("is", EBigNum); ("amount", EBigNum); ("gas", EBigNum); ("param1", EBigNum); ("param2", EBigNum); ("val", EBigNum);
      ("ptr", EBigNum); ("reason", EBigNum); ("ra", EBigNum); ("rb", EBigNum); ("rc", EBigNum); ("rd", EBigNum); ("len", EBigNum);
      ("result", EBigNum); ("gas_used", EBigNum)]).

Definition fuel_input_columns : list Name :=
  ["transaction_index"; "index"; "type"; "coin_utxo_id"; "coin_owner"; "coin_amount"; "coin_asset_id"; "coin_tx_pointer"; "coin_witness_index";
   "coin_predicate_gas_used"; "coin_predicate"; "coin_predicate_data"; "contract_utxo_id"; "contract_balance_root"; "contract_state_root";
   "contract_tx_pointer"; "contract_contract_id"; "message_sender"; "message_recipient"; "message_amount"; "message_nonce"; "message_witness_index";
   "message_predicate_gas_used"; "message_data"; "message_predicate"; "message_predicate_data"].
Definition fuel_input_project (this : selection) : Exp :=
  let base := json_fields this ["transaction_index"; "index"; "type"] in
  let coin := base in
  let coin := coin ++ json_add (this "coin_utxo_id") "utxoId" (EProp "coin_utxo_id" EValue) in
  let coin := coin ++ json_add (this "coin_owner") "owner" (EProp "coin_owner" EValue) in
  let coin := coin ++ json_add (this "coin_amount") "amount" (EProp "coin_amount" EBigNum) in
  let coin := coin ++ json_add (this "coin_asset_id") "assetId" (EProp "coin_asset_id" EValue) in
  let coin := coin ++ json_add (this "coin_tx_pointer") "txPointer" (EProp "coin_tx_pointer" EValue) in
  let coin := coin ++ json_add (this "coin_witness_index") "witnessIndex" (EProp "coin_witness_index" EValue) in
  let coin := coin ++ json_add (this "coin_predicate_gas_used") "predicateGasUsed" (EProp "coin_predicate_gas_used" EBigNum) in
  let coin := coin ++ json_add (this "coin_predicate") "predicate" (EProp "coin_predicate" EValue) in
  let coin := coin ++ json_add (this "coin_predicate_data") "predicateData" (EProp "coin_predicate_data" EValue) in
  let contract := base in
  let contract := contract ++ json_add (this "contract_utxo_id") "utxoId" (EProp "contract_utxo_id" EValue) in
  let contract := contract ++ json_add (this "contract_balance_root") "balanceRoot" (EProp "contract_balance_root" EValue) in
  let contract := contract ++ json_add (this "contract_state_root") "stateRoot" (EProp "contract_state_root" EValue) in
  let contract := contract ++ json_add (this "contract_tx_pointer") "txPointer" (EProp "contract_tx_pointer" EValue) in
  let contract := contract ++ json_add (this "contract_contract_id") "contractId" (EProp "contract_contract_id" EValue) in
  let message := base in
  let message := message ++ json_add (this "message_sender") "sender" (EProp "message_sender" EValue) in
  let message := message ++ json_add (this "message_recipient") "recipient" (EProp "message_recipient" EValue) in
  let message := message ++ json_add (this "message_amount") "amount" (EProp "message_amount" EBigNum) in
  let message := message ++ json_add (this "message_nonce") "nonce" (EProp "message_nonce" EValue) in
  let message := message ++ json_add (this "message_witness_index") "witnessIndex" (EProp "message_witness_index" EValue) in
  let message := message ++ json_add (this "message_predicate_gas_used") "predicateGasUsed" (EProp "message_predicate_gas_used" EBigNum) in
  let message := message ++ json_add (this "message_data") "data" (EProp "message_data" EValue) in
  let message := message ++ json_add (this "message_predicate") "predicate" (EProp "message_predicate" EValue) in
  let message := message ++ json_add (this "message_predicate_data") "predicateData" (EProp "message_predicate_data" EValue) in
  EEnum "type" [("InputCoin", EObject coin); ("InputContract", EObject contract); ("InputMessage", EObject message)].

Definition fuel_output_columns : list Name :=
  ["transaction_index"; "index"; "type"; "coin_to"; "coin_amount"; "coin_asset_id"; "contract_input_index"; "contract_balance_root";
   "contract_state_root"; "change_to"; "change_amount"; "change_asset_id"; "variable_to"; "variable_amount"; "variable_asset_id";
   "contract_created_contract"; "contract_created_state_root"].
Definition fuel_output_project (this : selection) : Exp :=
  let base := json_fields this ["transaction_index"; "index"; "type"] in
  let coin := base in
  let coin := coin ++ json_add (this "coin_to") "to" (EProp "coin_to" EValue) in
  let coin := coin ++ json_add (this "coin_amount") "amount" (EProp "coin_amount" EValue) in
  let coin := coin ++ json_add (this "coin_asset_id") "assetId" (EProp "coin_asset_id" EValue) in
  let contract := base in
  let contract := contract ++ json_add (this "contract_input_index") "inputIndex" (EProp "contract_input_index" EValue) in
  let contract := contract ++ json_add (this "contract_balance_root") "balanceRoot" (EProp "contract_balance_root" EValue) in
  let contract := contract ++ json_add (this "contract_state_root") "stateRoot" (EProp "state_root" EValue) in
  let change := base in
  let change := change ++ json_add (this "change_to") "to" (EProp "change_to" EValue) in
  let change := change ++ json_add (this "change_amount") "amount" (EProp "change_amount" EValue) in
  let change := change ++ json_add (this "change_asset_id") "assetId" (EProp "change_asset_id" EValue) in
  let variable := base in
  let variable := variable ++ json_add (this "variable_to") "to" (EProp "variable_to" EValue) in
  let variable := variable ++ json_add (this "variable_amount") "amount" (EProp "variable_amount" EValue) in
  let variable := variable ++ json_add (this "variable_asset_id") "assetId" (EProp "variable_asset_id" EValue) in
  let contract_created := base in
  let contract_created := contract_created ++ json_add (this "contract_created_contract") "contract" (EProp "contract_created_contract" EValue) in
  let contract_created := contract_created ++ json_add (this "contract_created_state_root") "stateRoot" (EProp "contract_created_state_root" EValue) in
  EEnum "type" [("CoinOutput", EObject coin); ("ContractOutput", EObject contract); ("ChangeOutput", EObject change); ("VariableOutput", EObject variable); ("ContractCreated", EObject contract_created)].

Record FuelReceiptRequest : Type := mkFuelReceiptRequest { fuel_receipt_type : option (list string); fuel_receipt_contract : option (list string);
  fuel_receipt_transaction : bool }.
Definition fuel_receipt_predicate (r : FuelReceiptRequest) (p : PredicateBuilder) : res PredicateBuilder :=
  let p := pb_strings "receipt_type" (fuel_receipt_type r) p in
  let p := pb_strings "contract" (fuel_receipt_contract r) p in
  Ok p.
Definition fuel_receipt_relations (r : FuelReceiptRequest) : list RelStep :=
  step_if (fuel_receipt_transaction r) (SJoin "transactions" ["block_number"; "index"] ["block_number"; "transaction_index"]).

Record FuelTransactionRequest : Type := mkFuelTransactionRequest { fuel_transaction_type : option (list string); fuel_transaction_receipts : bool;
  fuel_transaction_inputs : bool; fuel_transaction_outputs : bool }.
Definition fuel_transaction_predicate (r : FuelTransactionRequest) (p : PredicateBuilder) : res PredicateBuilder :=
  let p := pb_strings "type" (fuel_transaction_type r) p in
  Ok p.
Definition fuel_transaction_relations (r : FuelTransactionRequest) : list RelStep :=
  step_if (fuel_transaction_receipts r) (SJoin "receipts" ["block_number"; "transaction_index"] ["block_number"; "transaction_index"])
  ++ step_if (fuel_transaction_inputs r) (SJoin "inputs" ["block_number"; "transaction_index"] ["block_number"; "transaction_index"])
  ++ step_if (fuel_transaction_outputs r) (SJoin "outputs" ["block_number"; "transaction_index"] ["block_number"; "transaction_index"]).

Record FuelInputRequest : Type := mkFuelInputRequest { fuel_input_type : option (list string); fuel_input_coin_owner : option (list string);
  fuel_input_coin_asset_id : option (list string); fuel_input_contract_contract : option (list string);
  fuel_input_message_sender : option (list string); fuel_input_message_recipient : option (list string); fuel_input_transaction : bool }.
Definition fuel_input_predicate (r : FuelInputRequest) (p : PredicateBuilder) : res PredicateBuilder :=
  let p := pb_strings "type" (fuel_input_type r) p in
  let p := pb_strings "coin_owner" (fuel_input_coin_owner r) p in
  let p := pb_strings "coin_asset_id" (fuel_input_coin_asset_id r) p in
  let p := pb_strings "contract_contract" (fuel_input_contract_contract r) p in
  let p := pb_strings "message_sender" (fuel_input_message_sender r) p in
  let p := pb_strings "message_recipient" (fuel_input_message_recipient r) p in
  Ok p.
Definition fuel_input_relations (r : FuelInputRequest) : list RelStep :=
  step_if (fuel_input_transaction r) (SJoin "transactions" ["block_number"; "index"] ["block_number"; "transaction_index"]).

Record FuelOutputRequest : Type := mkFuelOutputRequest { fuel_output_type : option (list string); fuel_output_transaction : bool }.
Definition fuel_output_predicate (r : FuelOutputRequest) (p : PredicateBuilder) : res PredicateBuilder :=
  let p := pb_strings "type" (fuel_output_type r) p in
  Ok p.
Definition fuel_output_relations (r : FuelOutputRequest) : list RelStep :=
  step_if (fuel_output_transaction r) (SJoin "transactions" ["block_number"; "index"] ["block_number"; "transaction_index"]).

Record FuelQuery : Type := mkFuelQuery { fuel_base : QueryBase; fuel_fields : FuelFieldSelection; fuel_transactions : list FuelTransactionRequest;
  fuel_receipts : list FuelReceiptRequest; fuel_inputs : list FuelInputRequest; fuel_outputs : list FuelOutputRequest }.
Definition fuel_validate (q : FuelQuery) : res unit :=
  _ ← ensure_block_range (fuel_base q);
  ensure_item_count (length (fuel_transactions q) + length (fuel_receipts q) + length (fuel_inputs q) + length (fuel_outputs q)).
Definition fuel_projections (q : FuelQuery) : list (Name * Exp) :=
  [("blocks", fuel_block_project (fuel_fs_block (fuel_fields q)));
   ("transactions", fuel_transaction_project (fuel_fs_transaction (fuel_fields q)));
   ("receipts", fuel_receipt_project (fuel_fs_receipt (fuel_fields q)));
   ("inputs", fuel_input_project (fuel_fs_input (fuel_fields q)));
   ("outputs", fuel_output_project (fuel_fs_output (fuel_fields q)))].
Definition fuel_items (q : FuelQuery) : list Item :=
  ((λ r, mkItem "transactions" (fuel_transaction_predicate r) (fuel_transaction_relations r)) <$> fuel_transactions q)
  ++ ((λ r, mkItem "receipts" (fuel_receipt_predicate r) (fuel_receipt_relations r)) <$> fuel_receipts q)
  ++ ((λ r, mkItem "inputs" (fuel_input_predicate r) (fuel_input_relations r)) <$> fuel_inputs q)
  ++ ((λ r, mkItem "outputs" (fuel_output_predicate r) (fuel_output_relations r)) <$> fuel_outputs q).
Definition fuel_compile (q : FuelQuery) : res Plan :=
  tables ← fuel_TABLES;
  compile_plan (fuel_base q) tables (fuel_projections q) (fuel_items q).

(** ** Hyperliquid fills (query/hyperliquid_fills.rs) *)

Definition fills_TABLES : res TableSet :=
  let ts := [] in
  ts ← add_table ts "blocks" ["number"] Ok;
  ts ← add_table ts "fills" ["block_number"; "fill_index"] Ok;
  Ok ts.

Record FillsFieldSelection : Type := mkFillsFieldSelection { fills_fs_block : selection; fills_fs_fill : selection }.

Definition fills_block_columns : list Name :=
  ["number"; "hash"; "parent_hash"; "timestamp"].
Definition fills_block_project (this : selection) : Exp :=
  EObject (json_fields this ["number"; "hash"; "parent_hash"; "timestamp"]).

Definition fills_fill_columns : list Name :=
  ["fill_index"; "user"; "coin"; "px"; "sz"; "side"; "time"; "start_position"; "dir"; "closed_pnl"; "hash"; "oid"; "crossed"; "fee"; "builder_fee";
   "tid"; "cloid"; "fee_token"; "builder"; "twap_id"].
Definition fills_fill_project (this : selection) : Exp :=
  EObject (json_fields this ["fill_index"; "user"; "coin"; "px"; "sz"; "side"; "time"; "start_position"; "dir"; "closed_pnl"; "hash"; "oid"; "crossed"; "fee";
      "builder_fee"; "tid"; "cloid"; "fee_token"; "builder"; "twap_id"]).

Record FillsFillRequest : Type := mkFillsFillRequest { fills_fill_user : option (list string); fills_fill_coin : option (list string);
  fills_fill_dir : option (list string); fills_fill_cloid : option (list string); fills_fill_fee_token : option (list string);
  fills_fill_builder : option (list string) }.
Definition fills_fill_predicate (r : FillsFillRequest) (p : PredicateBuilder) : res PredicateBuilder :=
  let p := pb_strings "user" (fills_fill_user r) p in
  let p := pb_strings "coin" (fills_fill_coin r) p in
  let p := pb_strings "dir" (fills_fill_dir r) p in
  let p := pb_strings "cloid" (fills_fill_cloid r) p in
  let p := pb_strings "fee_token" (fills_fill_fee_token r) p in
  let p := pb_strings "builder" (fills_fill_builder r) p in
  Ok p.
Definition fills_fill_relations (r : FillsFillRequest) : list RelStep :=
  [].

Record HyperliquidFillsQuery : Type := mkHyperliquidFillsQuery { fills_base : QueryBase; fills_fields : FillsFieldSelection;
  fills_fills : list FillsFillRequest }.
Definition fills_validate (q : HyperliquidFillsQuery) : res unit :=
  _ ← ensure_block_range (fills_base q);
  ensure_item_count (length (fills_fills q)).
Definition fills_projections (q : HyperliquidFillsQuery) : list (Name * Exp) :=
  [("blocks", fills_block_project (fills_fs_block (fills_fields q)));
   ("fills", fills_fill_project (fills_fs_fill (fills_fields q)))].
Definition fills_items (q : HyperliquidFillsQuery) : list Item :=
  ((λ r, mkItem "fills" (fills_fill_predicate r) (fills_fill_relations r)) <$> fills_fills q).
Definition fills_compile (q : HyperliquidFillsQuery) : res Plan :=
  tables ← fills_TABLES;
  compile_plan (fills_base q) tables (fills_projections q) (fills_items q).

(** ** Hyperliquid replica commands (query/hyperliquid_replica_cmds.rs) *)

Definition replica_TABLES : res TableSet :=
  let ts := [] in
  ts ← add_table ts "blocks" ["number"] Ok;
  ts ← add_table ts "actions" ["block_number"; "action_index"] (λ t,
    let t := set_weight_column t "action" "action_size" in let t := set_weight_column t "response" "response_size" in Ok t);
  Ok ts.

Record ReplicaFieldSelection : Type := mkReplicaFieldSelection { replica_fs_block : selection; replica_fs_action : selection }.

Definition replica_block_columns : list Name :=
  ["number"; "hash"; "parent_hash"; "round"; "parent_round"; "proposer"; "timestamp"; "hardfork"].
Definition replica_block_project (this : selection) : Exp :=
  EObject (json_fields this ["number"; "hash"; "parent_hash"; "round"; "parent_round"; "proposer"; "timestamp"]
    ++ json_exps this [("hardfork", EJson)]).

Definition replica_action_columns : list Name :=
  ["action_index"; "user"; "action"; "signature"; "nonce"; "vault_address"; "status"; "response"].
Definition replica_action_project (this : selection) : Exp :=
  EObject (json_fields this ["action_index"; "user"]
    ++ json_exps this [("action", EJson); ("signature", EJson); ("nonce", EValue); ("vault_address", EValue); ("status", EValue); ("response", EJson)]).

Inductive Status : Type := StatusOk | StatusErr.

Record ReplicaActionRequest : Type := mkReplicaActionRequest { replica_action_action_type : option (list string);
  replica_action_user : option (list string); replica_action_vault_address : option (list string); replica_action_status : option Status }.
Definition replica_action_predicate (r : ReplicaActionRequest) (p : PredicateBuilder) : res PredicateBuilder :=
  let p := pb_strings "action_type" (replica_action_action_type r) p in
  let p := pb_strings "user" (replica_action_user r) p in
  let p := pb_strings "vault_address" (replica_action_vault_address r) p in
  let p := pb_col_eq "status" ((λ val, str_scalar (match val with StatusOk => "ok" | StatusErr => "err" end)) <$> (replica_action_status r)) p in
  Ok p.
Definition replica_action_relations (r : ReplicaActionRequest) : list RelStep :=
  [].

Record ReplicaOrderActionRequest : Type := mkReplicaOrderActionRequest { replica_order_action_contains_asset : option (list Z);
  replica_order_action_contains_cloid : option (list string); replica_order_action_user : option (list string);
  replica_order_action_vault_address : option (list string); replica_order_action_status : option Status }.
Definition replica_order_action_predicate (r : ReplicaOrderActionRequest) (p : PredicateBuilder) : res PredicateBuilder :=
  let p := pb_col_primitive_list_contains_any "order_asset" DUInt32 (replica_order_action_contains_asset r) p in
  let p := pb_col_string_list_contains_any "order_cloid" (replica_order_action_contains_cloid r) p in
  let p := pb_strings "user" (replica_order_action_user r) p in
  let p := pb_strings "vault_address" (replica_order_action_vault_address r) p in
  let p := pb_col_eq "status" ((λ val, str_scalar (match val with StatusOk => "ok" | StatusErr => "err" end)) <$> (replica_order_action_status r)) p in
  Ok p.
Definition replica_order_action_relations (r : ReplicaOrderActionRequest) : list RelStep :=
  [].

Record ReplicaCancelActionRequest : Type := mkReplicaCancelActionRequest { replica_cancel_action_contains_asset : option (list Z);
  replica_cancel_action_user : option (list string); replica_cancel_action_vault_address : option (list string);
  replica_cancel_action_status : option Status }.
Definition replica_cancel_action_predicate (r : ReplicaCancelActionRequest) (p : PredicateBuilder) : res PredicateBuilder :=
  let p := pb_col_primitive_list_contains_any "cancel_asset" DUInt32 (replica_cancel_action_contains_asset r) p in
  let p := pb_strings "user" (replica_cancel_action_user r) p in
  let p := pb_strings "vault_address" (replica_cancel_action_vault_address r) p in
  let p := pb_col_eq "status" ((λ val, str_scalar (match val with StatusOk => "ok" | StatusErr => "err" end)) <$> (replica_cancel_action_status r)) p in
  Ok p.
Definition replica_cancel_action_relations (r : ReplicaCancelActionRequest) : list RelStep :=
  [].

Record ReplicaCancelByCloidActionRequest : Type := mkReplicaCancelByCloidActionRequest {
  replica_cancel_by_cloid_action_contains_asset : option (list Z); replica_cancel_by_cloid_action_contains_cloid : option (list string);
  replica_cancel_by_cloid_action_user : option (list string); replica_cancel_by_cloid_action_vault_address : option (list string);
  replica_cancel_by_cloid_action_status : option Status }.
Definition replica_cancel_by_cloid_action_predicate (r : ReplicaCancelByCloidActionRequest) (p : PredicateBuilder) : res PredicateBuilder :=
  let p := pb_col_primitive_list_contains_any "asset" DUInt32 (replica_cancel_by_cloid_action_contains_asset r) p in
  let p := pb_col_string_list_contains_any "cloid" (replica_cancel_by_cloid_action_contains_cloid r) p in
  let p := pb_strings "user" (replica_cancel_by_cloid_action_user r) p in
  let p := pb_strings "vault_address" (replica_cancel_by_cloid_action_vault_address r) p in
  let p := pb_col_eq "status" ((λ val, str_scalar (match val with StatusOk => "ok" | StatusErr => "err" end)) <$> (replica_cancel_by_cloid_action_status r)) p in
  Ok p.
Definition replica_cancel_by_cloid_action_relations (r : ReplicaCancelByCloidActionRequest) : list RelStep :=
  [].

Record ReplicaBatchModifyActionRequest : Type := mkReplicaBatchModifyActionRequest { replica_batch_modify_action_contains_asset : option (list Z);
  replica_batch_modify_action_contains_cloid : option (list string); replica_batch_modify_action_user : option (list string);
  replica_batch_modify_action_vault_address : option (list string); replica_batch_modify_action_status : option Status }.
Definition replica_batch_modify_action_predicate (r : ReplicaBatchModifyActionRequest) (p : PredicateBuilder) : res PredicateBuilder :=
  let p := pb_col_primitive_list_contains_any "batch_modify_asset" DUInt32 (replica_batch_modify_action_contains_asset r) p in
  let p := pb_col_string_list_contains_any "batch_modify_cloid" (replica_batch_modify_action_contains_cloid r) p in
  let p := pb_strings "user" (replica_batch_modify_action_user r) p in
  let p := pb_strings "vault_address" (replica_batch_modify_action_vault_address r) p in
  let p := pb_col_eq "status" ((λ val, str_scalar (match val with StatusOk => "ok" | StatusErr => "err" end)) <$> (replica_batch_modify_action_status r)) p in
  Ok p.
Definition replica_batch_modify_action_relations (r : ReplicaBatchModifyActionRequest) : list RelStep :=
  [].

Record HyperliquidReplicaCmdsQuery : Type := mkHyperliquidReplicaCmdsQuery { replica_base : QueryBase; replica_fields : ReplicaFieldSelection;
  replica_actions : list ReplicaActionRequest; replica_order_actions : list ReplicaOrderActionRequest;
  replica_cancel_actions : list ReplicaCancelActionRequest; replica_cancel_by_cloid_actions : list ReplicaCancelByCloidActionRequest;
  replica_batch_modify_actions : list ReplicaBatchModifyActionRequest }.
Definition replica_validate (q : HyperliquidReplicaCmdsQuery) : res unit :=
  _ ← ensure_block_range (replica_base q);
  ensure_item_count (length (replica_actions q)).
Definition replica_projections (q : HyperliquidReplicaCmdsQuery) : list (Name * Exp) :=
  [("blocks", replica_block_project (replica_fs_block (replica_fields q)));
   ("actions", replica_action_project (replica_fs_action (replica_fields q)))].
Definition replica_items (q : HyperliquidReplicaCmdsQuery) : list Item :=
  ((λ r, mkItem "actions" (replica_action_predicate r) (replica_action_relations r)) <$> replica_actions q)
  ++ ((λ r, mkItem "actions" (replica_order_action_predicate r) (replica_order_action_relations r)) <$> replica_order_actions q)
  ++ ((λ r, mkItem "actions" (replica_cancel_action_predicate r) (replica_cancel_action_relations r)) <$> replica_cancel_actions q)
  ++ ((λ r, mkItem "actions" (replica_cancel_by_cloid_action_predicate r) (replica_cancel_by_cloid_action_relations r)) <$> replica_cancel_by_cloid_actions q)
  ++ ((λ r, mkItem "actions" (replica_batch_modify_action_predicate r) (replica_batch_modify_action_relations r)) <$> replica_batch_modify_actions q).
Definition replica_compile (q : HyperliquidReplicaCmdsQuery) : res Plan :=
  tables ← replica_TABLES;
  compile_plan (replica_base q) tables (replica_projections q) (replica_items q).

(** ** Solana (query/solana.rs) *)

Definition solana_TABLES : res TableSet :=
  let ts := [] in
  ts ← add_table ts "blocks" ["number"] Ok;
  ts ← add_table ts "transactions" ["block_number"; "transaction_index"] (λ t,
    t ← add_child t "logs" ["block_number"; "transaction_index"]; t ← add_child t "balances" ["block_number"; "transaction_index"];
    t ← add_child t "token_balances" ["block_number"; "transaction_index"]; let t := set_weight_column t "account_keys" "account_keys_size" in
    let t := set_weight_column t "address_table_lookups" "address_table_lookups_size" in
    let t := set_weight_column t "signatures" "signatures_size" in let t := set_weight_column t "loaded_addresses" "loaded_addresses_size" in Ok t);
  ts ← add_table ts "instructions" ["block_number"; "transaction_index"; "instruction_address"] (λ t,
    let t := set_weight_column t "data" "data_size" in let t := set_weight_column t "a0" "accounts_size" in let t := set_weight t "a1" (0) in
    let t := set_weight t "a2" (0) in let t := set_weight t "a3" (0) in let t := set_weight t "a4" (0) in let t := set_weight t "a5" (0) in
    let t := set_weight t "a6" (0) in let t := set_weight t "a7" (0) in let t := set_weight t "a8" (0) in let t := set_weight t "a9" (0) in
    let t := set_weight t "a10" (0) in let t := set_weight t "a11" (0) in let t := set_weight t "a12" (0) in let t := set_weight t "a13" (0) in
    let t := set_weight t "a14" (0) in let t := set_weight t "a15" (0) in let t := set_weight t "rest_accounts" (0) in Ok t);
  ts ← add_table ts "logs" ["block_number"; "transaction_index"; "log_index"] (λ t,
    let t := set_weight_column t "message" "message_size" in Ok t);
  ts ← add_table ts "balances" ["block_number"; "transaction_index"; "account"] Ok;
  ts ← add_table ts "token_balances" ["block_number"; "transaction_index"; "account"] Ok;
  ts ← add_table ts "rewards" ["block_number"; "pubkey"; "reward_type"] Ok;
  Ok ts.

Record SolanaFieldSelection : Type := mkSolanaFieldSelection { solana_fs_block : selection; solana_fs_transaction : selection; solana_fs_instruction : selection; solana_fs_log : selection; solana_fs_balance : selection; solana_fs_token_balance : selection; solana_fs_reward : selection }.

Definition solana_block_columns : list Name :=
  ["number"; "hash"; "parent_number"; "parent_hash"; "height"; "timestamp"].
Definition solana_block_project (this : selection) : Exp :=
  EObject (json_fields this ["number"; "hash"; "parent_number"; "parent_hash"; "height"]
    ++ json_exps this [("timestamp", ETimestampSecond)]).

Definition solana_transaction_columns : list Name :=
  ["transaction_index"; "version"; "account_keys"; "address_table_lookups"; "num_readonly_signed_accounts"; "num_readonly_unsigned_accounts";
   "num_required_signatures"; "recent_blockhash"; "signatures"; "err"; "fee"; "compute_units_consumed"; "loaded_addresses"; "fee_payer";
   "has_dropped_log_messages"].
Definition solana_transaction_project (this : selection) : Exp :=
  EObject (json_fields this ["transaction_index"]
    ++ json_exps this [("version", ESolanaTransactionVersion)]
    ++ json_fields this ["account_keys"; "address_table_lookups"; "num_readonly_signed_accounts"; "num_readonly_unsigned_accounts";
      "num_required_signatures"; "recent_blockhash"; "signatures"]
    ++ json_exps this [("err", EJson); ("fee", EBigNum); ("compute_units_consumed", EBigNum); ("loaded_addresses", EValue); ("fee_payer", EValue);
      ("has_dropped_log_messages", EValue)]).

Definition solana_instruction_columns : list Name :=
  ["transaction_index"; "instruction_address"; "program_id"; "accounts"; "data"; "d1"; "d2"; "d4"; "d8"; "error"; "compute_units_consumed";
   "is_committed"; "has_dropped_log_messages"].
Definition solana_instruction_project (this : selection) : Exp :=
  EObject (json_fields this ["transaction_index"; "instruction_address"; "program_id"]
    ++ json_add (this "accounts") "accounts" (ERoll ["a0"; "a1"; "a2"; "a3"; "a4"; "a5"; "a6"; "a7"; "a8"; "a9"; "a10"; "a11"; "a12"; "a13"; "a14"; "a15"; "rest_accounts"] EValue)
    ++ json_fields this ["data"]
    ++ json_exps this [("d1", EHexNum); ("d2", EHexNum); ("d4", EHexNum); ("d8", EHexNum); ("error", EValue); ("compute_units_consumed", EBigNum);
      ("is_committed", EValue); ("has_dropped_log_messages", EValue)]).

Definition solana_log_columns : list Name :=
  ["transaction_index"; "log_index"; "instruction_address"; "program_id"; "kind"; "message"].
Definition solana_log_project (this : selection) : Exp :=
  EObject (json_fields this ["transaction_index"; "log_index"; "instruction_address"; "program_id"; "kind"; "message"]).

Definition solana_balance_columns : list Name :=
  ["transaction_index"; "account"; "pre"; "post"].
Definition solana_balance_project (this : selection) : Exp :=
  EObject (json_fields this ["transaction_index"; "account"]
    ++ json_exps this [("pre", EBigNum); ("post", EBigNum)]).

Definition solana_token_balance_columns : list Name :=
  ["transaction_index"; "account"; "pre_mint"; "post_mint"; "pre_decimals"; "post_decimals"; "pre_program_id"; "post_program_id"; "pre_owner";
   "post_owner"; "pre_amount"; "post_amount"].
Definition solana_token_balance_project (this : selection) : Exp :=
  EObject (json_fields this ["transaction_index"; "account"; "pre_mint"; "post_mint"; "pre_decimals"; "post_decimals"; "pre_program_id"; "post_program_id";
      "pre_owner"; "post_owner"]
    ++ json_exps this [("pre_amount", EBigNum); ("post_amount", EBigNum)]).

Definition solana_reward_columns : list Name :=
  ["pubkey"; "lamports"; "post_balance"; "reward_type"; "commission"].
Definition solana_reward_project (this : selection) : Exp :=
  EObject (json_fields this ["pubkey"]
    ++ json_exps this [("lamports", EBigNum); ("post_balance", EBigNum); ("reward_type", EValue); ("commission", EValue)]).

Record SolanaInstructionRequest : Type := mkSolanaInstructionRequest { solana_instruction_program_id : option (list string);
  solana_instruction_discriminator : option (list string); solana_instruction_d1 : option (list string); solana_instruction_d2 : option (list string);
  solana_instruction_d4 : option (list string); solana_instruction_d8 : option (list string);
  solana_instruction_mentions_account : option (list string); solana_instruction_a0 : option (list string);
  solana_instruction_a1 : option (list string); solana_instruction_a2 : option (list string); solana_instruction_a3 : option (list string);
  solana_instruction_a4 : option (list string); solana_instruction_a5 : option (list string); solana_instruction_a6 : option (list string);
  solana_instruction_a7 : option (list string); solana_instruction_a8 : option (list string); solana_instruction_a9 : option (list string);
  solana_instruction_a10 : option (list string); solana_instruction_a11 : option (list string); solana_instruction_a12 : option (list string);
  solana_instruction_a13 : option (list string); solana_instruction_a14 : option (list string); solana_instruction_a15 : option (list string);
  solana_instruction_is_committed : option bool; solana_instruction_transaction : bool; solana_instruction_transaction_balances : bool;
  solana_instruction_transaction_token_balances : bool; solana_instruction_transaction_instructions : bool;
  solana_instruction_inner_instructions : bool; solana_instruction_parent_instructions : bool; solana_instruction_logs : bool }.
Definition d_column (i : nat) : Name :=
  nth i [""; "d1"; "d2"; "d3"; "d4"; "d5"; "d6"; "d7"; "d8"; "d9"; "d10"; "d11"; "d12"; "d13"; "d14"; "d15"; "d16"] "".
Definition d_type (i : nat) : DataType :=
  match i with 1 => DUInt8 | 2 => DUInt16 | 4 => DUInt32 | 8 => DUInt64 | _ => DFixedSizeBinary i end%nat.
Definition d_cell (i : nat) (d : list Z) : cell := match i with 1 | 2 | 4 | 8 => CInt (from_be_bytes d) | _ => CBytes d end%nat.
Definition solana_instruction_discriminator_predicate (r : SolanaInstructionRequest) (p : PredicateBuilder) : PredicateBuilder :=
  match solana_instruction_discriminator r with
  | None => p
  | Some list =>
      let list := omap (λ s, d ← parse_hex s; if (16 <? length d)%nat then None else Some d) list in
      if (length list =? 0)%nat then mark_as_never p
      else if existsb (λ d, length d =? 0)%nat list then p
      else
        let ds := (λ i, (i, filter (λ d, length d = i) list)) <$> seq 0 17 in
        let predicates := omap (λ il : nat * _, if (length il.2 =? 0)%nat then None else
          Some (col_in_list (d_column il.1) (d_type il.1) (d_cell il.1 <$> il.2))) ds in
        pb_add (row_or predicates) p
  end.
Definition solana_instruction_predicate (r : SolanaInstructionRequest) (p : PredicateBuilder) : res PredicateBuilder :=
  let p := pb_strings "program_id" (solana_instruction_program_id r) p in
  let p := solana_instruction_discriminator_predicate r p in
  let p := pb_col_in_list "d1" DUInt8 (static_hex_cells 1 (solana_instruction_d1 r)) p in
  let p := pb_col_in_list "d2" DUInt16 (static_hex_cells 2 (solana_instruction_d2 r)) p in
  let p := pb_col_in_list "d4" DUInt32 (static_hex_cells 4 (solana_instruction_d4 r)) p in
  let p := pb_col_in_list "d8" DUInt64 (static_hex_cells 8 (solana_instruction_d8 r)) p in
  p ← pb_bloom_filter "accounts_bloom" 64 7 (solana_instruction_mentions_account r) p;
  let p := pb_strings "a0" (solana_instruction_a0 r) p in
  let p := pb_strings "a1" (solana_instruction_a1 r) p in
  let p := pb_strings "a2" (solana_instruction_a2 r) p in
  let p := pb_strings "a3" (solana_instruction_a3 r) p in
  let p := pb_strings "a4" (solana_instruction_a4 r) p in
  let p := pb_strings "a5" (solana_instruction_a5 r) p in
  let p := pb_strings "a6" (solana_instruction_a6 r) p in
  let p := pb_strings "a7" (solana_instruction_a7 r) p in
  let p := pb_strings "a8" (solana_instruction_a8 r) p in
  let p := pb_strings "a9" (solana_instruction_a9 r) p in
  let p := pb_strings "a10" (solana_instruction_a10 r) p in
  let p := pb_strings "a11" (solana_instruction_a11 r) p in
  let p := pb_strings "a12" (solana_instruction_a12 r) p in
  let p := pb_strings "a13" (solana_instruction_a13 r) p in
  let p := pb_strings "a14" (solana_instruction_a14 r) p in
  let p := pb_strings "a15" (solana_instruction_a15 r) p in
  let p := pb_col_eq "is_committed" (bool_scalar <$> (solana_instruction_is_committed r)) p in
  Ok p.
Definition solana_instruction_relations (r : SolanaInstructionRequest) : list RelStep :=
  step_if (solana_instruction_transaction r) (SJoin "transactions" ["block_number"; "transaction_index"] ["block_number"; "transaction_index"])
  ++ step_if (solana_instruction_transaction_balances r) (SJoin "balances" ["block_number"; "transaction_index"] ["block_number"; "transaction_index"])
  ++ step_if (solana_instruction_transaction_token_balances r) (SJoin "token_balances" ["block_number"; "transaction_index"] ["block_number"; "transaction_index"])
  ++ step_if (solana_instruction_transaction_instructions r) (SJoin "instructions" ["block_number"; "transaction_index"] ["block_number"; "transaction_index"])
  ++ step_if (solana_instruction_inner_instructions r) SChildren
  ++ step_if (solana_instruction_parent_instructions r) SParents
  ++ step_if (solana_instruction_logs r) (SJoin "logs" ["block_number"; "transaction_index"; "instruction_address"] ["block_number"; "transaction_index"; "instruction_address"]).

Record SolanaTransactionRequest : Type := mkSolanaTransactionRequest { solana_transaction_fee_payer : option (list string);
  solana_transaction_mentions_account : option (list string); solana_transaction_instructions : bool; solana_transaction_logs : bool;
  solana_transaction_balances : bool; solana_transaction_token_balances : bool }.
Definition solana_transaction_predicate (r : SolanaTransactionRequest) (p : PredicateBuilder) : res PredicateBuilder :=
  let p := pb_strings "fee_payer" (solana_transaction_fee_payer r) p in
  p ← pb_bloom_filter "accounts_bloom" 64 7 (solana_transaction_mentions_account r) p;
  Ok p.
Definition solana_transaction_relations (r : SolanaTransactionRequest) : list RelStep :=
  step_if (solana_transaction_instructions r) (SJoin "instructions" ["block_number"; "transaction_index"] ["block_number"; "transaction_index"])
  ++ step_if (solana_transaction_logs r) (SJoin "logs" ["block_number"; "transaction_index"] ["block_number"; "transaction_index"])
  ++ step_if (solana_transaction_balances r) (SJoin "balances" ["block_number"; "transaction_index"] ["block_number"; "transaction_index"])
  ++ step_if (solana_transaction_token_balances r) (SJoin "token_balances" ["block_number"; "transaction_index"] ["block_number"; "transaction_index"]).

Record SolanaLogRequest : Type := mkSolanaLogRequest { solana_log_program_id : option (list string); solana_log_kind : option (list string);
  solana_log_instruction : bool; solana_log_transaction : bool }.
Definition solana_log_predicate (r : SolanaLogRequest) (p : PredicateBuilder) : res PredicateBuilder :=
  let p := pb_strings "program_id" (solana_log_program_id r) p in
  let p := pb_strings "kind" (solana_log_kind r) p in
  Ok p.
Definition solana_log_relations (r : SolanaLogRequest) : list RelStep :=
  step_if (solana_log_instruction r) (SJoin "instructions" ["block_number"; "transaction_index"; "instruction_address"] ["block_number"; "transaction_index"; "instruction_address"])
  ++ step_if (solana_log_transaction r) (SJoin "transactions" ["block_number"; "transaction_index"] ["block_number"; "transaction_index"]).

Record SolanaBalanceRequest : Type := mkSolanaBalanceRequest { solana_balance_account : option (list string); solana_balance_transaction : bool;
  solana_balance_transaction_instructions : bool }.
Definition solana_balance_predicate (r : SolanaBalanceRequest) (p : PredicateBuilder) : res PredicateBuilder :=
  let p := pb_strings "account" (solana_balance_account r) p in
  Ok p.
Definition solana_balance_relations (r : SolanaBalanceRequest) : list RelStep :=
  step_if (solana_balance_transaction r) (SJoin "transactions" ["block_number"; "transaction_index"] ["block_number"; "transaction_index"])
  ++ step_if (solana_balance_transaction_instructions r) (SJoin "instructions" ["block_number"; "transaction_index"] ["block_number"; "transaction_index"]).

Record SolanaTokenBalanceRequest : Type := mkSolanaTokenBalanceRequest { solana_token_balance_account : option (list string);
  solana_token_balance_pre_mint : option (list string); solana_token_balance_post_mint : option (list string);
  solana_token_balance_pre_program_id : option (list string); solana_token_balance_post_program_id : option (list string);
  solana_token_balance_pre_owner : option (list string); solana_token_balance_post_owner : option (list string);
  solana_token_balance_transaction : bool; solana_token_balance_transaction_instructions : bool; solana_token_balance_transaction_balances : bool;
  solana_token_balance_transaction_token_balances : bool }.
Definition solana_token_balance_predicate (r : SolanaTokenBalanceRequest) (p : PredicateBuilder) : res PredicateBuilder :=
  let p := pb_strings "account" (solana_token_balance_account r) p in
  let p := pb_strings "pre_mint" (solana_token_balance_pre_mint r) p in
  let p := pb_strings "post_mint" (solana_token_balance_post_mint r) p in
  let p := pb_strings "pre_program_id" (solana_token_balance_pre_program_id r) p in
  let p := pb_strings "post_program_id" (solana_token_balance_post_program_id r) p in
  let p := pb_strings "pre_owner" (solana_token_balance_pre_owner r) p in
  let p := pb_strings "post_owner" (solana_token_balance_post_owner r) p in
  Ok p.
Definition solana_token_balance_relations (r : SolanaTokenBalanceRequest) : list RelStep :=
  step_if (solana_token_balance_transaction r) (SJoin "transactions" ["block_number"; "transaction_index"] ["block_number"; "transaction_index"])
  ++ step_if (solana_token_balance_transaction_instructions r) (SJoin "instructions" ["block_number"; "transaction_index"] ["block_number"; "transaction_index"])
  ++ step_if (solana_token_balance_transaction_balances r) (SJoin "balances" ["block_number"; "transaction_index"] ["block_number"; "transaction_index"])
  ++ step_if (solana_token_balance_transaction_token_balances r) (SJoin "token_balances" ["block_number"; "transaction_index"] ["block_number"; "transaction_index"]).

Record SolanaRewardRequest : Type := mkSolanaRewardRequest { solana_reward_pubkey : option (list string) }.
Definition solana_reward_predicate (r : SolanaRewardRequest) (p : PredicateBuilder) : res PredicateBuilder :=
  let p := pb_strings "pubkey" (solana_reward_pubkey r) p in
  Ok p.
Definition solana_reward_relations (r : SolanaRewardRequest) : list RelStep :=
  [].

Record SolanaQuery : Type := mkSolanaQuery { solana_base : QueryBase; solana_fields : SolanaFieldSelection;
  solana_transactions : list SolanaTransactionRequest; solana_instructions : list SolanaInstructionRequest; solana_logs : list SolanaLogRequest;
  solana_balances : list SolanaBalanceRequest; solana_token_balances : list SolanaTokenBalanceRequest; solana_rewards : list SolanaRewardRequest }.
Definition check_mentions (l : option (list string)) : res unit :=
  ensure (default 0 (length <$> l) <=? 10)%nat (EMsg "filter mentionsAccount has too many cases, maximum is 10").
Definition solana_check_transaction (tx : SolanaTransactionRequest) : res unit := check_mentions (solana_transaction_mentions_account tx).
Definition solana_check_instruction (ins : SolanaInstructionRequest) : res unit :=
  _ ← check_mentions (solana_instruction_mentions_account ins);
  let discriminator_filters := filter (λ o : option (list string), is_Some o) [solana_instruction_d1 ins; solana_instruction_d2 ins; solana_instruction_d4 ins;
    solana_instruction_d8 ins; solana_instruction_discriminator ins] in
  _ ← ensure (length discriminator_filters <? 2)%nat (EMsg "discriminator filters can't be specified simultaneously");
  match solana_instruction_discriminator ins with
  | Some ds =>
      _ ← collect ((λ d, _ ← check_hex d; ensure (String.length d <=? 34)%nat (EMsg "discriminator can't be longer than 16 bytes")) <$> ds);
      Ok tt
  | None => Ok tt
  end.
Definition solana_validate (q : SolanaQuery) : res unit :=
  _ ← ensure_block_range (solana_base q);
  _ ← ensure_item_count (length (solana_transactions q) + length (solana_instructions q) + length (solana_logs q) + length (solana_balances q) + length (solana_token_balances q) + length (solana_rewards q));
  _ ← collect (solana_check_transaction <$> solana_transactions q);
  _ ← collect (solana_check_instruction <$> solana_instructions q);
  Ok tt.
Definition solana_projections (q : SolanaQuery) : list (Name * Exp) :=
  [("blocks", solana_block_project (solana_fs_block (solana_fields q)));
   ("transactions", solana_transaction_project (solana_fs_transaction (solana_fields q)));
   ("instructions", solana_instruction_project (solana_fs_instruction (solana_fields q)));
   ("logs", solana_log_project (solana_fs_log (solana_fields q)));
   ("balances", solana_balance_project (solana_fs_balance (solana_fields q)));
   ("token_balances", solana_token_balance_project (solana_fs_token_balance (solana_fields q)));
   ("rewards", solana_reward_project (solana_fs_reward (solana_fields q)))].
Definition solana_items (q : SolanaQuery) : list Item :=
  ((λ r, mkItem "transactions" (solana_transaction_predicate r) (solana_transaction_relations r)) <$> solana_transactions q)
  ++ ((λ r, mkItem "instructions" (solana_instruction_predicate r) (solana_instruction_relations r)) <$> solana_instructions q)
  ++ ((λ r, mkItem "logs" (solana_log_predicate r) (solana_log_relations r)) <$> solana_logs q)
  ++ ((λ r, mkItem "balances" (solana_balance_predicate r) (solana_balance_relations r)) <$> solana_balances q)
  ++ ((λ r, mkItem "token_balances" (solana_token_balance_predicate r) (solana_token_balance_relations r)) <$> solana_token_balances q)
  ++ ((λ r, mkItem "rewards" (solana_reward_predicate r) (solana_reward_relations r)) <$> solana_rewards q).
Definition solana_compile (q : SolanaQuery) : res Plan :=
  tables ← solana_TABLES;
  compile_plan (solana_base q) tables (solana_projections q) (solana_items q).

(** ** Queries (query/mod.rs) *)

Inductive Query : Type :=
| Bitcoin (q : BitcoinQuery)
| Eth (q : EthQuery)
| Solana (q : SolanaQuery)
| Substrate (q : SubstrateQuery)
| Fuel (q : FuelQuery)
| HyperliquidFills (q : HyperliquidFillsQuery)
| HyperliquidReplicaCmds (q : HyperliquidReplicaCmdsQuery)
| Tron (q : TronQuery).

Definition query_base (q : Query) : QueryBase :=
  match q with
  | Bitcoin q => bitcoin_base q
  | Eth q => eth_base q
  | Solana q => solana_base q
  | Substrate q => substrate_base q
  | Fuel q => fuel_base q
  | HyperliquidFills q => fills_base q
  | HyperliquidReplicaCmds q => replica_base q
  | Tron q => tron_base q
  end.
Definition query_set_base (q : Query) (b : QueryBase) : Query :=
  match q with
  | Bitcoin q => Bitcoin (mkBitcoinQuery b (bitcoin_fields q) (bitcoin_transactions q) (bitcoin_inputs q) (bitcoin_outputs q))
  | Eth q => Eth (mkEthQuery b (eth_fields q) (eth_transactions q) (eth_logs q) (eth_traces q) (eth_statediffs q))
  | Solana q => Solana (mkSolanaQuery b (solana_fields q) (solana_transactions q) (solana_instructions q) (solana_logs q) (solana_balances q) (solana_token_balances q) (solana_rewards q))
  | Substrate q => Substrate (mkSubstrateQuery b (substrate_fields q) (substrate_calls q) (substrate_events q) (substrate_evm_logs q) (substrate_ethereum_transactions q) (substrate_contracts_events q) (substrate_gear_messages_enqueued q) (substrate_gear_user_messages_sent q) (substrate_revive_contract_emitted q))
  | Fuel q => Fuel (mkFuelQuery b (fuel_fields q) (fuel_transactions q) (fuel_receipts q) (fuel_inputs q) (fuel_outputs q))
  | HyperliquidFills q => HyperliquidFills (mkHyperliquidFillsQuery b (fills_fields q) (fills_fills q))
  | HyperliquidReplicaCmds q => HyperliquidReplicaCmds (mkHyperliquidReplicaCmdsQuery b (replica_fields q) (replica_actions q) (replica_order_actions q) (replica_cancel_actions q) (replica_cancel_by_cloid_actions q) (replica_batch_modify_actions q))
  | Tron q => Tron (mkTronQuery b (tron_fields q) (tron_transactions q) (tron_transfer_transactions q) (tron_transfer_asset_transactions q) (tron_trigger_smart_contract_transactions q) (tron_logs q) (tron_internal_transactions q))
  end.
Definition query_parent_block_hash (q : Query) : option string := qb_parent_block_hash (query_base q).
Definition query_first_block (q : Query) : Z := qb_from_block (query_base q).
Definition query_last_block (q : Query) : option Z := qb_to_block (query_base q).
Definition query_set_first_block (q : Query) (n : Z) : Query :=
  let b := query_base q in query_set_base q (mkBase n (qb_parent_block_hash b) (qb_to_block b) (qb_include_all_blocks b)).
Definition query_set_last_block (q : Query) (n : option Z) : Query :=
  let b := query_base q in query_set_base q (mkBase (qb_from_block b) (qb_parent_block_hash b) n (qb_include_all_blocks b)).

Definition query_validate (q : Query) : res unit :=
  match q with
  | Bitcoin q => bitcoin_validate q
  | Eth q => eth_validate q
  | Solana q => solana_validate q
  | Substrate q => substrate_validate q
  | Fuel q => fuel_validate q
  | HyperliquidFills q => fills_validate q
  | HyperliquidReplicaCmds q => replica_validate q
  | Tron q => tron_validate q
  end.
Definition query_compile (q : Query) : res Plan :=
  match q with
  | Bitcoin q => bitcoin_compile q
  | Eth q => eth_compile q
  | Solana q => solana_compile q
  | Substrate q => substrate_compile q
  | Fuel q => fuel_compile q
  | HyperliquidFills q => fills_compile q
  | HyperliquidReplicaCmds q => replica_compile q
  | Tron q => tron_compile q
  end.
End requests.
