(* ===== verification/QueryRequestsSpec.v ===== *)
(** * What a request returns

    The compilation of a request never panics and yields a well-formed plan, and the plan
    selects exactly the rows the request asks for, item by item. *)
From stdpp Require Import gmap sorting.
From S2P Require Import Prelude Bytes Ranges QueryStack QueryArrow QueryPred QueryPredSpec QueryScanSpec QueryRel QueryRelSpec QueryPlan QueryPlanSpec QueryOutput QueryExamples QueryRequests.

(** ** Filters

    What the fields of a request say about a row of its table, read off the cells of the row. *)

Abbreviation row_filter := (RecordBatch → nat → Prop).

(** The column holds one of the values, a value that is not null. *)
Definition one_of (c : Name) (vs : list cell) : row_filter := λ b i, ∃ v, tcell b c i = Some v ∧ v ∈ vs.
Definition is_string (c : Name) (s : string) : row_filter := one_of c [CStr s].
Definition is_bool (c : Name) (x : bool) : row_filter := one_of c [CBool x].
(** The column holds a value from the given one on; a value below all values of the type of the
    column bounds nothing, not even nulls. *)
Definition at_least (c : Name) (s : scalar) : row_filter := λ b i,
  ∃ arr, column_by_name b c = Some arr ∧ (value_domain s (arr_type arr) = Below ∨ ∃ v, cell_at arr i = Some v ∧ cell_leb (sc_value s) v = true).
Definition at_most (c : Name) (s : scalar) : row_filter := λ b i,
  ∃ arr, column_by_name b c = Some arr ∧ (value_domain s (arr_type arr) = Above ∨ ∃ v, cell_at arr i = Some v ∧ cell_leb v (sc_value s) = true).
(** The list in the column has one of the values. *)
Definition has_int (c : Name) (vs : list Z) : row_filter := λ b i, ∃ l z, tcell b c i = Some (CInts l) ∧ z ∈ l ∧ z ∈ vs.
Definition has_string (c : Name) (vs : list string) : row_filter := λ b i, ∃ l s, tcell b c i = Some (CStrs l) ∧ s ∈ l ∧ s ∈ vs.

(** A field that is not given filters nothing. *)
Definition given {A} (f : A → row_filter) (o : option A) : row_filter := λ b i, ∀ x, o = Some x → f x b i.
Definition strings (c : Name) (o : option (list string)) : row_filter := given (λ l, one_of c (map CStr l)) o.
Definition whenever (flag : bool) (f : row_filter) : row_filter := λ b i, flag = true → f b i.

(** A comparison that a null leaves open. *)
Definition unknown (c : Name) (s : scalar) : row_filter := λ b i,
  ∃ arr, column_by_name b c = Some arr ∧ cell_at arr i = None ∧ value_domain s (arr_type arr) = Inside.

(** *** Conditions and filters *)

Lemma tcell_column b c arr i : column_by_name b c = Some arr → tcell b c i = cell_at arr i.
Proof. intros E. unfold tcell. by rewrite E. Qed.

Lemma cell_at_ok arr i v : array_ok arr → cell_at arr i = Some v → cell_ok (arr_type arr) v.
Proof.
  unfold cell_at, array_ok. intros Ha E. rewrite nth_lookup in E. destruct (arr_cells arr !! i) as [c|] eqn:Ec; cbn in E; [|done]. subst c.
  by apply (Forall_lookup_1 _ _ _ _ Ha Ec).
Qed.

Lemma value_domain_inside s ty : cell_ok ty (sc_value s) → value_domain s ty = Inside.
Proof.
  unfold value_domain. destruct (sc_value s) as [z| | | | | |], ty as [signed bits| | | | | |]; try done. cbn. intros Hz.
  repeat case_if; zbool; try done; lia.
Qed.

(** Equality with one value: the answer, and when it is open. *)
Lemma eq_sem b c s arr i : column_by_name b c = Some arr → array_ok arr →
  (sem (PEq s) (arr_type arr) (cell_at arr i) = Some true ↔ cell_at arr i = Some (sc_value s)) ∧
  (is_Some (sem (PEq s) (arr_type arr) (cell_at arr i)) ↔ ¬ unknown c s b i).
Proof.
  intros Ec Ha. cbn [sem]. unfold sem_cmp. assert (unknown c s b i ↔ cell_at arr i = None ∧ value_domain s (arr_type arr) = Inside) as Hu.
  { unfold unknown. rewrite Ec. split; [intros (? & [= <-] & ?); done|eauto]. }
  rewrite Hu. destruct (cell_at arr i) as [v|] eqn:Ev.
  - pose proof (cell_at_ok arr i v Ha Ev) as Hv. split; [|destruct (value_domain s (arr_type arr)); cbn; split; intros; by (eauto || intros [? ?])].
    destruct (value_domain s (arr_type arr)) eqn:Ed; cbn.
    + split; [done|]. intros [= ->]. by rewrite value_domain_inside in Ed.
    + split; [by intros [= ->%bool_decide_eq_true]|]. intros [= ->]. by rewrite bool_decide_true.
    + split; [done|]. intros [= ->]. by rewrite value_domain_inside in Ed.
  - destruct (value_domain s (arr_type arr)); cbn; split; split; try done; try (by intros [? ?]); try (intros _; by eauto).
    + intros _ [_ ?]. done.
    + intros []. by split.
    + intros _ [_ ?]. done.
Qed.

Lemma any3_some l : is_Some (any3 l) ↔ Forall is_Some l.
Proof.
  unfold any3. assert (∀ a, is_Some (fold_left or3 l a) ↔ is_Some a ∧ Forall is_Some l) as H; [|rewrite H; split; [tauto|by eauto]].
  induction l as [|x l IH]; intros a; cbn [fold_left]; [rewrite Forall_nil; tauto|]. rewrite IH, Forall_cons.
  destruct a as [a|], x as [x|]; cbn; split; intros; destruct_and?; repeat split; eauto; by destruct_and? || by match goal with H : is_Some None |- _ => destruct H end.
Qed.

(** A list of values, in each of the three shapes it is compiled to. *)
Lemma in_list_sem b c ty vs i : batch_ok b → row_pred_ok (col_in_list c ty vs) b →
  (row_sem (col_in_list c ty vs) b i = Some true ↔ one_of c vs b i) ∧
  (vs ≠ [] → is_Some (row_sem (col_in_list c ty vs) b i) ↔ ∀ v, v ∈ vs → ¬ unknown c (mkScalar ty v) b i).
Proof.
  intros Hb Hp. assert (∃ arr, column_by_name b c = Some arr) as [arr Ec].
  { destruct vs as [|v [|w vs]]; cbn in Hp; [|by destruct Hp as (arr & ? & _); exists arr|]; repeat case_match; destruct Hp as (arr & ? & _); by exists arr. }
  destruct (batch_column_ok _ _ _ Hb Ec) as [Ha _]. unfold one_of. rewrite (tcell_column b c arr i Ec).
  assert ((∃ v, cell_at arr i = Some v ∧ v ∈ vs) ↔ Exists (λ v, cell_at arr i = Some v) vs) as ->. { rewrite Exists_exists. naive_solver. }
  assert (∀ ws, (row_sem (ColumnPredicate c (POr ((λ v, PEq (mkScalar ty v)) <$> ws))) b i = Some true ↔ Exists (λ v, cell_at arr i = Some v) ws) ∧
    (is_Some (row_sem (ColumnPredicate c (POr ((λ v, PEq (mkScalar ty v)) <$> ws))) b i) ↔ ∀ v, v ∈ ws → ¬ unknown c (mkScalar ty v) b i)) as Hor.
  { intros ws. cbn [row_sem sem]. rewrite Ec, any3_true, any3_some. change (map ?f (?g <$> ws)) with (f <$> (g <$> ws)). rewrite <-list_fmap_compose.
    assert (Forall is_Some ((λ p, sem p (arr_type arr) (cell_at arr i)) ∘ (λ v, PEq (mkScalar ty v)) <$> ws) ↔ ∀ v, v ∈ ws → ¬ unknown c (mkScalar ty v) b i) as Hs.
    { rewrite Forall_fmap, Forall_forall. apply forall_proper. intros v. unfold compose. by rewrite (proj2 (eq_sem b c (mkScalar ty v) arr i Ec Ha)). }
    split; [|done]. rewrite Hs, list_elem_of_fmap, Exists_exists. unfold compose. split.
    - intros [(v & Ev & Hv) _]. exists v. split; [done|]. apply (eq_sem b c (mkScalar ty v) arr i Ec Ha). done.
    - intros (v & Hv & E). split; [exists v; split; [symmetry; by apply (eq_sem b c (mkScalar ty v) arr i Ec Ha)|done]|].
      intros w _ (arr' & Ec' & En & _). rewrite Ec in Ec'. simplify_eq. }
  assert (∀ v, (row_sem (col_eq c (mkScalar ty v)) b i = Some true ↔ Exists (λ v, cell_at arr i = Some v) [v]) ∧
    (is_Some (row_sem (col_eq c (mkScalar ty v)) b i) ↔ ∀ w, w ∈ [v] → ¬ unknown c (mkScalar ty w) b i)) as Heq.
  { intros v. unfold col_eq. cbn [row_sem]. rewrite Ec. destruct (eq_sem b c (mkScalar ty v) arr i Ec Ha) as [-> ->]. rewrite Exists_cons, Exists_nil. split; [cbn; tauto|].
    setoid_rewrite list_elem_of_singleton. naive_solver. }
  unfold col_in_list in *. destruct vs as [|v [|w vs]]; [split; [apply (Hor [])|intros Hne; by destruct Hne]|split; [apply Heq|intros _; apply Heq]|].
  destruct (length _ <? 10)%nat; [split; [apply (Hor (v :: w :: vs))|intros _; apply (Hor (v :: w :: vs))]|]. destruct Hp as (arr' & Ec' & Ety & Hv). rewrite Ec in Ec'. injection Ec' as <-. subst ty.
  cbn [row_sem sem]. rewrite Ec. destruct (cell_at arr i) as [x|] eqn:Ex; cbn [fmap option_fmap option_map].
  - split.
    + rewrite Exists_exists. split; [intros [= H%bool_decide_eq_true]; by exists x|]. intros (y & Hy & [= <-]). by rewrite bool_decide_true.
    + intros _. split; [|by eauto]. intros _ y _ (arr' & Ec' & En & _). rewrite Ec in Ec'. injection Ec' as <-. by rewrite Ex in En.
  - split; [split; [done|]; by intros (y & _ & ?)%Exists_exists|]. intros _. split; [by intros [? ?]|]. intros Hu. exfalso. apply (Hu v); [lmem|].
    exists arr. do 2 (split; [done|]). apply value_domain_inside. by apply Forall_cons in Hv as [Hv _].
Qed.

(** *** Builders *)

(** What the builder asks of a row, and of the table. *)
Definition pb_wants (p : PredicateBuilder) : row_filter := λ b i, is_never p = false ∧ Forall (λ c, row_sem c b i = Some true) (conditions p).
Definition pb_fits (p : PredicateBuilder) (b : RecordBatch) : Prop := Forall (λ c, row_pred_ok c b) (conditions p).

(** A call that takes builder [p] to [p'] adds filter [f]; a builder that is marked as never
    has a filter no row satisfies. *)
Definition adds (p p' : PredicateBuilder) (f : row_filter) : Prop := ∀ b, batch_ok b →
  (is_never p' = true → is_never p = true ∨ ∀ i, ¬ f b i) ∧
  (pb_fits p' b → pb_fits p b ∧ ∀ i, pb_wants p' b i ↔ pb_wants p b i ∧ f b i).
Inductive chain : PredicateBuilder → PredicateBuilder → list row_filter → Prop :=
| chain_nil p : chain p p []
| chain_cons p p1 p' f fs : adds p p1 f → chain p1 p' fs → chain p p' (f :: fs).

Lemma chain_spec p p' fs b : chain p p' fs → batch_ok b →
  (is_never p' = true → is_never p = true ∨ ∀ i, ¬ Forall (λ f, f b i) fs) ∧
  (pb_fits p' b → pb_fits p b ∧ ∀ i, pb_wants p' b i ↔ pb_wants p b i ∧ Forall (λ f, f b i) fs).
Proof.
  intros Hc Hb. induction Hc as [p|p p1 p' f fs Ha _ [IHn IHf]]; [split; [by left|]; intros Hf; split; [done|]; intros i; rewrite Forall_nil; tauto|].
  destruct (Ha b Hb) as [An Af]. split.
  - intros Hn. destruct (IHn Hn) as [Hn1|Hno]; [destruct (An Hn1) as [?|Hno]; [by left|]|]; right; intros i [? ?]%Forall_cons; by eapply Hno.
  - intros [Hf1 Hw]%IHf. destruct (Af Hf1) as [Hf Hw1]. split; [done|]. intros i. rewrite Hw, Hw1, Forall_cons. tauto.
Qed.

Lemma adds_none p f : (∀ b i, f b i) → adds p p f.
Proof. intros Hf b _. split; [by left|]. intros Hp. split; [done|]. intros i. split; [by intros|by intros []]. Qed.

Lemma adds_never p f : (∀ b i, ¬ f b i) → adds p (mark_as_never p) f.
Proof. intros Hf b _. split; [right; apply Hf|]. intros Hp. split; [done|]. intros i. unfold pb_wants. cbn. split; [by intros [? _]|]. intros [_ ?]. by destruct (Hf b i). Qed.

Lemma adds_add p c f : (∀ b i, batch_ok b → row_pred_ok c b → row_sem c b i = Some true ↔ f b i) → adds p (pb_add c p) f.
Proof.
  intros Hc b Hb. split; [by left|]. unfold pb_fits, pb_wants. cbn. rewrite Forall_app, Forall_singleton. intros [Hf Hok]. split; [done|]. intros i.
  rewrite Forall_app, Forall_singleton, (Hc b i Hb Hok). tauto.
Qed.

Lemma adds_col_in_list c ty o p : adds p (pb_col_in_list c ty o p) (given (one_of c) o).
Proof.
  destruct o as [vs|]; cbn [pb_col_in_list]; [|apply adds_none; by intros b i ?].
  assert (∀ b i, given (one_of c) (Some vs) b i ↔ one_of c vs b i) as Hg by (unfold given; naive_solver).
  assert (∀ q, adds q (pb_add (col_in_list c ty vs) q) (given (one_of c) (Some vs))) as Ha.
  { intros q. apply adds_add. intros b i Hb Hp. rewrite Hg. by apply in_list_sem. }
  destruct vs as [|v vs]; cbn [length Nat.eqb]; [|apply Ha]. intros b Hb. destruct (Ha (mark_as_never p) b Hb) as [_ Hf]. split.
  - intros _. right. intros i (v & _ & ?%elem_of_nil)%Hg. done.
  - intros [Hq Hw]%Hf. split; [done|]. intros i. rewrite Hw. unfold pb_wants. cbn. split; [by intros [[? _] _]|]. intros [_ (v & _ & ?%elem_of_nil)%Hg]. done.
Qed.

Lemma adds_strings c o p : adds p (pb_strings c o p) (strings c o).
Proof.
  unfold pb_strings. intros b Hb. destruct (adds_col_in_list c DUtf8 (option_map (map CStr) o) p b Hb) as [Hn Hf].
  assert (∀ i, given (one_of c) (option_map (map CStr) o) b i ↔ strings c o b i) as Hg. { intros i. unfold strings, given. destruct o; cbn; naive_solver. }
  split; [intros [?|Hno]%Hn; [by left|right; intros i; rewrite <-Hg; apply Hno]|]. intros [Hp Hw]%Hf. split; [done|]. intros i. by rewrite Hw, Hg.
Qed.

Lemma eq_row_sem c s b i : batch_ok b → row_pred_ok (col_eq c s) b → row_sem (col_eq c s) b i = Some true ↔ one_of c [sc_value s] b i.
Proof.
  intros Hb (arr & Ec & _). destruct (batch_column_ok _ _ _ Hb Ec) as [Ha _]. unfold col_eq, one_of. cbn [row_sem]. rewrite Ec, (tcell_column b c arr i Ec).
  rewrite (proj1 (eq_sem b c s arr i Ec Ha)). setoid_rewrite list_elem_of_singleton. naive_solver.
Qed.

Lemma adds_col_eq c o p : adds p (pb_col_eq c o p) (given (λ s, one_of c [sc_value s]) o).
Proof.
  destruct o as [s|]; [|apply adds_none; by intros b i ?]. apply adds_add. intros b i Hb Hp. rewrite eq_row_sem by done. unfold given. naive_solver.
Qed.
Lemma adds_is_string c s p : adds p (pb_col_eq c (Some (str_scalar s)) p) (is_string c s).
Proof. apply adds_add. intros b i Hb Hp. by rewrite eq_row_sem. Qed.
Lemma adds_given_eq {A} c (f : A → scalar) o p : adds p (pb_col_eq c (f <$> o) p) (given (λ x, one_of c [sc_value (f x)]) o).
Proof.
  destruct o as [x|]; [|apply adds_none; by intros b i ?]. apply adds_add. intros b i Hb Hp. rewrite eq_row_sem by done. unfold given. naive_solver.
Qed.

(** Bounds: [col_gt_eq] builds the reversed comparison of the value with the column. *)
Lemma sem_at_least c s b i : batch_ok b → row_pred_ok (col_gt_eq c s) b → row_sem (col_gt_eq c s) b i = Some true ↔ at_least c s b i.
Proof.
  intros Hb (arr & Ec & Hs & _). destruct (batch_column_ok _ _ _ Hb Ec) as [Ha _]. unfold col_gt_eq, at_least. cbn [row_sem sem]. rewrite Ec.
  transitivity (value_domain s (arr_type arr) = Below ∨ ∃ v, cell_at arr i = Some v ∧ cell_leb (sc_value s) v = true); [|naive_solver].
  unfold sem_cmp. destruct (value_domain s (arr_type arr)) eqn:Ed; [split; [by left|done]| |].
  - destruct (cell_at arr i) as [v|]; cbn; [|split; [done|]; by intros [?|(w & ? & _)]]. split; [intros [= H]; right; by exists v|].
    intros [?|(w & [= <-] & H)]; [done|by rewrite H].
  - split; [done|]. intros [?|(v & Ev & Hl)]; [done|]. pose proof (cell_at_ok arr i v Ha Ev) as Hv. unfold value_domain in Ed.
    destruct (sc_value s); try done. destruct (arr_type arr); try done. destruct v; try done. cbn in Hv, Hl. exfalso. repeat case_match; zbool; try done; lia.
Qed.
Lemma sem_at_most c s b i : batch_ok b → row_pred_ok (col_lt_eq c s) b → row_sem (col_lt_eq c s) b i = Some true ↔ at_most c s b i.
Proof.
  intros Hb (arr & Ec & Hs & _). destruct (batch_column_ok _ _ _ Hb Ec) as [Ha _]. unfold col_lt_eq, at_most. cbn [row_sem sem]. rewrite Ec.
  transitivity (value_domain s (arr_type arr) = Above ∨ ∃ v, cell_at arr i = Some v ∧ cell_leb v (sc_value s) = true); [|naive_solver].
  unfold sem_cmp. destruct (value_domain s (arr_type arr)) eqn:Ed; [| |split; [by left|done]].
  - split; [done|]. intros [?|(v & Ev & Hl)]; [done|]. pose proof (cell_at_ok arr i v Ha Ev) as Hv. unfold value_domain in Ed.
    destruct (sc_value s); try done. destruct (arr_type arr); try done. destruct v; try done. cbn in Hv, Hl. exfalso. repeat case_match; zbool; try done; lia.
  - destruct (cell_at arr i) as [v|]; cbn; [|split; [done|]; by intros [?|(w & ? & _)]]. split; [intros [= H]; right; by exists v|].
    intros [?|(w & [= <-] & H)]; [done|by rewrite H].
Qed.
Lemma adds_gt_eq {A} c (f : A → scalar) o p : adds p (pb_col_gt_eq c (f <$> o) p) (given (λ x, at_least c (f x)) o).
Proof. destruct o as [x|]; [|apply adds_none; by intros b i ?]. apply adds_add. intros b i Hb Hp. rewrite sem_at_least by done. unfold given. naive_solver. Qed.
Lemma adds_lt_eq {A} c (f : A → scalar) o p : adds p (pb_col_lt_eq c (f <$> o) p) (given (λ x, at_most c (f x)) o).
Proof. destruct o as [x|]; [|apply adds_none; by intros b i ?]. apply adds_add. intros b i Hb Hp. rewrite sem_at_most by done. unfold given. naive_solver. Qed.
Lemma adds_whenever (flag : bool) c s p : adds p (if flag then pb_col_gt_eq c (Some s) p else p) (whenever flag (at_least c s)).
Proof. destruct flag; [|apply adds_none; by intros b i ?]. apply adds_add. intros b i Hb Hp. rewrite sem_at_least by done. unfold whenever. naive_solver. Qed.

Lemma adds_has_int c ty o p : adds p (pb_col_primitive_list_contains_any c ty o p) (given (has_int c) o).
Proof.
  destruct o as [[|z vs]|]; cbn [pb_col_primitive_list_contains_any].
  - apply adds_never. intros b i H. destruct (H [] eq_refl) as (? & ? & _ & _ & ?%elem_of_nil). done.
  - apply adds_add. intros b i Hb (arr & Ec & _). unfold given, has_int, col_primitive_list_contains_any. cbn [row_sem sem]. rewrite Ec, (tcell_column b c arr i Ec). split.
    + intros [= H] ? [= <-]. destruct (cell_at arr i) as [[| | | |l| |]|]; try done. apply existsb_exists in H as (x & Hx%list_elem_of_In & Hv%bool_decide_eq_true). eauto.
    + intros H. destruct (H _ eq_refl) as (l & x & -> & Hx & Hv). f_equal. apply existsb_exists. exists x. split; [by apply list_elem_of_In|by apply bool_decide_eq_true].
  - apply adds_none. by intros b i ?.
Qed.
Lemma adds_has_string c o p : adds p (pb_col_string_list_contains_any c o p) (given (has_string c) o).
Proof.
  destruct o as [[|z vs]|]; cbn [pb_col_string_list_contains_any].
  - apply adds_never. intros b i H. destruct (H [] eq_refl) as (? & ? & _ & _ & ?%elem_of_nil). done.
  - apply adds_add. intros b i Hb (arr & Ec & _). unfold given, has_string, col_string_list_contains_any. cbn [row_sem sem]. rewrite Ec, (tcell_column b c arr i Ec). split.
    + intros [= H] ? [= <-]. destruct (cell_at arr i) as [[| | | | |l|]|]; try done. apply existsb_exists in H as (x & Hx%list_elem_of_In & Hv%bool_decide_eq_true). eauto.
    + intros H. destruct (H _ eq_refl) as (l & x & -> & Hx & Hv). f_equal. apply existsb_exists. exists x. split; [by apply list_elem_of_In|by apply bool_decide_eq_true].
  - apply adds_none. by intros b i ?.
Qed.

(** The conjunction of the conditions selects the rows that satisfy all of them. *)
Lemma row_and_sem ps b i : row_sem (row_and ps) b i = Some true ↔ Forall (λ p, row_sem p b i = Some true) ps.
Proof.
  assert (row_sem (AndPredicate ps) b i = Some true ↔ Forall (λ p, row_sem p b i = Some true) ps) as H by (cbn [row_sem]; by rewrite all3_true, Forall_map).
  destruct ps as [|p [|q ps]]; cbn [row_and]; [done| |done]. by rewrite Forall_singleton.
Qed.
Lemma row_and_ok ps b : row_pred_ok (row_and ps) b ↔ Forall (λ p, row_pred_ok p b) ps.
Proof. destruct ps as [|p [|q ps]]; cbn [row_and]; [cbn; by rewrite !Forall_nil|by rewrite Forall_singleton|]. cbn [row_pred_ok]. by rewrite Forall_map. Qed.
Lemma pb_build_picks p b i : picked (pb_build p) b i = true ↔ Forall (λ c, row_sem c b i = Some true) (conditions p).
Proof.
  unfold pb_build. destruct (conditions p) as [|c cs] eqn:E; [by cbn; rewrite Forall_nil|]. cbn [length Nat.ltb Nat.leb picked]. by rewrite bool_decide_eq_true, row_and_sem.
Qed.
Lemma pb_build_fits p b : opt_pred_ok b (pb_build p) → pb_fits p b.
Proof.
  unfold pb_build, pb_fits. destruct (conditions p) as [|c cs] eqn:E; [constructor|]. cbn [length Nat.ltb Nat.leb opt_pred_ok]. intros [Hp _]. by apply row_and_ok.
Qed.

(** *** Filters of hashes *)

Section deps.
Context {QD : QueryDeps}.

(** The bloom filter of the row contains one of the values. *)
Definition mentions (c : Name) (vs : list string) : row_filter := λ b i,
  ∃ w v, tcell b c i = Some (CBytes w) ∧ v ∈ vs ∧ bloom_contains xxh3_str (mkBloom w 7) v = Ok true.

(** The discriminators of a Solana request that can be decoded and are not too long. *)
Definition discriminators (l : list string) : list (list Z) := omap (λ s, d ← parse_hex s; if (16 <? length d)%nat then None else Some d) l.
(** The data of the instruction starts with one of them: the column of its length holds it.  A
    null in the column of another requested length hides the match. *)
Definition starts_with (ds : list (list Z)) : row_filter := λ b i, [] ∈ ds ∨
  (∃ d, d ∈ ds ∧ tcell b (d_column (length d)) i = Some (d_cell (length d) d)) ∧
  ∀ d, d ∈ ds → ¬ unknown (d_column (length d)) (mkScalar (d_type (length d)) (d_cell (length d) d)) b i.

Lemma bloom_sem v f ty x : bloom_insert xxh3_str (bloom_new 64 7) v = Ok f → pred_ok (PBloomFilter (bf_bytes f)) ty → cell_ok ty x →
  sem (PBloomFilter (bf_bytes f)) ty (Some x) = Some true ↔ ∃ w, x = CBytes w ∧ bloom_contains xxh3_str (mkBloom w 7) v = Ok true.
Proof.
  intros Ef (-> & Hl & Hb) Hx. destruct x as [| | |w| | |]; try done. destruct Hx as [Hw _]. cbn [sem fmap option_fmap option_map].
  destruct (contains_subset xxh3_str 7 v f w Ef Hw) as (r & Er & Hr). rewrite <-land_subset in Hr by (done || congruence). split.
  - intros [= H]. exists w. split; [done|]. rewrite Er. f_equal. by apply Hr.
  - intros (w' & [= <-] & E). rewrite Er in E. injection E as ->. f_equal. by apply Hr.
Qed.

Lemma bloom_column_sem c vs pred b i : col_bloom_filter xxh3_str c 64 7 vs = Ok pred → batch_ok b → row_pred_ok pred b →
  row_sem pred b i = Some true ↔ mentions c vs b i.
Proof.
  unfold col_bloom_filter. intros E Hb Hp.
  destruct (collect_map_spec (λ v, f ← bloom_insert xxh3_str (bloom_new 64 7) v; Ok (PBloomFilter (bf_bytes f)))
    (λ v p, ∃ f, bloom_insert xxh3_str (bloom_new 64 7) v = Ok f ∧ p = PBloomFilter (bf_bytes f)) vs) as (ps & Eps & Hps).
  { intros v _. destruct (bloom_insert_spec xxh3_str (bloom_new 64 7) v) as (f & -> & _); [cbn; lia|]. cbn. eauto. }
  rewrite Eps in E. cbn [mbind res_bind] in E. injection E as <-. destruct Hp as (arr & Ec & Hp). destruct (batch_column_ok _ _ _ Hb Ec) as [Ha _].
  cbn [row_sem]. unfold mentions. rewrite Ec, (tcell_column b c arr i Ec).
  assert (Forall (λ p, pred_ok p (arr_type arr)) ps) as Hok.
  { destruct ps as [|p [|q ps]]; [constructor|by apply Forall_singleton|]. cbn [array_or pred_ok] in Hp. by rewrite Forall_map in Hp. }
  assert (sem (array_or ps) (arr_type arr) (cell_at arr i) = Some true ↔ any3 (map (λ p, sem p (arr_type arr) (cell_at arr i)) ps) = Some true) as ->.
  { destruct ps as [|p [|q ps]]; [done| |done]. cbn [array_or map]. unfold any3. cbn [fold_left]. by rewrite or3_false_l. }
  rewrite any3_true, Forall_map. split.
  - intros [Hin Hs]. apply list_elem_of_In, in_map_iff in Hin as (p & Ep & Hp'%list_elem_of_In). apply list_elem_of_lookup in Hp' as [k Hk].
    destruct (Forall2_lookup_r _ _ _ _ _ Hps Hk) as (v & Hv & f & Ef & ->). destruct (cell_at arr i) as [x|] eqn:Ex; [|done].
    apply (bloom_sem v f) in Ep as (w & -> & Hc); [|done|by eapply (Forall_lookup_1 _ _ _ _ Hok)|by eapply cell_at_ok]. exists w, v. split; [done|].
    split; [by eapply list_elem_of_lookup_2|done].
  - intros (w & v & Ex & Hv & Hc). rewrite Ex. split.
    + apply list_elem_of_lookup in Hv as [k Hk]. destruct (Forall2_lookup_l _ _ _ _ _ Hps Hk) as (p & Hp' & f & Ef & ->). apply list_elem_of_In, in_map_iff.
      exists (PBloomFilter (bf_bytes f)). split; [|by eapply list_elem_of_In, list_elem_of_lookup_2]. apply (bloom_sem v f); [done|by eapply (Forall_lookup_1 _ _ _ _ Hok)| |eauto].
      by eapply cell_at_ok.
    + apply Forall_forall. intros p Hp'. apply list_elem_of_lookup in Hp' as [k Hk]. destruct (Forall2_lookup_r _ _ _ _ _ Hps Hk) as (v' & _ & f & _ & ->). by eexists.
Qed.

Lemma adds_mentions c o p p' : pb_bloom_filter c 64 7 o p = Ok p' → adds p p' (given (mentions c) o).
Proof.
  destruct o as [vs|]; cbn [pb_bloom_filter]; [|intros [= <-]; apply adds_none; by intros b i ?]. intros E. apply bind_Ok in E as (pred & Ep & [= <-]).
  assert (∀ b i, given (mentions c) (Some vs) b i ↔ mentions c vs b i) as Hg by (unfold given; naive_solver).
  assert (∀ q, adds q (pb_add pred q) (given (mentions c) (Some vs))) as Ha.
  { intros q. apply adds_add. intros b i Hb Hp. rewrite Hg. by eapply bloom_column_sem. }
  destruct vs as [|v vs]; cbn [length Nat.eqb]; [|apply Ha]. intros b Hb. destruct (Ha (mark_as_never p) b Hb) as [_ Hf]. split.
  - intros _. right. intros i (w & v & _ & ?%elem_of_nil & _)%Hg. done.
  - intros [Hq Hw]%Hf. split; [done|]. intros i. rewrite Hw. unfold pb_wants. cbn. split; [by intros [[? _] _]|]. intros [_ (w & v & _ & ?%elem_of_nil & _)%Hg]. done.
Qed.

(** *** Discriminators *)

Lemma row_or_sem ps b i : row_sem (row_or ps) b i = Some true ↔ Exists (λ p, row_sem p b i = Some true) ps ∧ Forall (λ p, is_Some (row_sem p b i)) ps.
Proof.
  assert (row_sem (OrPredicate ps) b i = Some true ↔ Exists (λ p, row_sem p b i = Some true) ps ∧ Forall (λ p, is_Some (row_sem p b i)) ps) as H.
  { cbn [row_sem]. rewrite any3_true, Forall_map. apply and_iff_compat_r. rewrite list_elem_of_In, in_map_iff, Exists_exists. setoid_rewrite <-list_elem_of_In. naive_solver. }
  destruct ps as [|p [|q ps]]; cbn [row_or]; [done| |done]. rewrite Exists_cons, Exists_nil, Forall_singleton. split; [intros E; rewrite E; eauto|tauto].
Qed.
Lemma row_or_ok ps b : row_pred_ok (row_or ps) b ↔ Forall (λ p, row_pred_ok p b) ps.
Proof. destruct ps as [|p [|q ps]]; cbn [row_or]; [cbn; by rewrite !Forall_nil|by rewrite Forall_singleton|]. cbn [row_pred_ok]. by rewrite Forall_map. Qed.

(** The comparison of one length. *)
Definition of_length (ds : list (list Z)) (n : nat) : list (list Z) := filter (λ d, length d = n) ds.
Definition length_predicate (ds : list (list Z)) (n : nat) : RowPredicate := col_in_list (d_column n) (d_type n) (d_cell n <$> of_length ds n).

Lemma discriminator_sem ds ps b i : Forall (λ d, length d ≤ 16)%nat ds → (∀ p, p ∈ ps ↔ ∃ n, (n < 17)%nat ∧ of_length ds n ≠ [] ∧ p = length_predicate ds n) →
  batch_ok b → row_pred_ok (row_or ps) b → row_sem (row_or ps) b i = Some true ↔
    (∃ d, d ∈ ds ∧ tcell b (d_column (length d)) i = Some (d_cell (length d) d)) ∧
    ∀ d, d ∈ ds → ¬ unknown (d_column (length d)) (mkScalar (d_type (length d)) (d_cell (length d) d)) b i.
Proof.
  intros Hl Hps Hb Hp. rewrite row_or_ok, Forall_forall in Hp. rewrite Forall_forall in Hl. rewrite row_or_sem, Exists_exists, Forall_forall.
  assert (∀ d, d ∈ ds → d ∈ of_length ds (length d) ∧ length_predicate ds (length d) ∈ ps) as Hd.
  { intros d Hd. assert (d ∈ of_length ds (length d)) as Ho by (by apply list_elem_of_filter). split; [done|]. apply Hps. exists (length d). specialize (Hl d Hd). cbn in Hl.
    split; [lia|]. split; [|done]. intros E. rewrite E in Ho. by apply elem_of_nil in Ho. }
  assert (∀ n, length_predicate ds n ∈ ps → (row_sem (length_predicate ds n) b i = Some true ↔ one_of (d_column n) (d_cell n <$> of_length ds n) b i) ∧
    (of_length ds n ≠ [] → is_Some (row_sem (length_predicate ds n) b i) ↔ ∀ d, d ∈ of_length ds n → ¬ unknown (d_column n) (mkScalar (d_type n) (d_cell n d)) b i)) as Hs.
  { intros n Hn. destruct (in_list_sem b (d_column n) (d_type n) (d_cell n <$> of_length ds n) i Hb (Hp _ Hn)) as [H1 H2]. split; [done|]. intros Hne. unfold length_predicate.
    rewrite H2 by (by intros E%fmap_nil_inv). setoid_rewrite list_elem_of_fmap. naive_solver. }
  split; intros [Hx Ha]; split.
  - destruct Hx as (p & Hin & E). pose proof Hin as (n & _ & _ & ->)%Hps. apply (proj1 (Hs n Hin)) in E as (v & Ev & (d & -> & [<- Hd']%list_elem_of_filter)%list_elem_of_fmap). eauto.
  - intros d Hin. destruct (Hd d Hin) as [Ho Hpr]. assert (of_length ds (length d) ≠ []) as Hne by (intros E; rewrite E in Ho; by apply elem_of_nil in Ho).
    by apply (proj1 (proj2 (Hs _ Hpr) Hne) (Ha _ Hpr)).
  - destruct Hx as (d & Hin & E). destruct (Hd d Hin) as [Ho Hpr]. exists (length_predicate ds (length d)). split; [done|]. apply (proj1 (Hs _ Hpr)). eexists. split; [exact E|]. by apply list_elem_of_fmap_2.
  - intros p Hin. pose proof Hin as (n & _ & Hne & ->)%Hps. apply (proj2 (Hs n Hin)); [done|]. intros d [<- Hd']%list_elem_of_filter. by apply Ha.
Qed.

Lemma adds_discriminators r p : adds p (solana_instruction_discriminator_predicate r p) (given (λ l, starts_with (discriminators l)) (solana_instruction_discriminator r)).
Proof.
  unfold solana_instruction_discriminator_predicate. destruct (solana_instruction_discriminator r) as [l|]; [|apply adds_none; by intros b i ?]. cbv zeta. fold (discriminators l).
  assert (Forall (λ d, length d ≤ 16)%nat (discriminators l)) as Hl.
  { apply Forall_forall. intros d (s & _ & E)%list_elem_of_omap. destruct (parse_hex s) as [d'|]; [|done]. cbn [mbind option_bind] in E. destruct (16 <? length d')%nat eqn:Ed; [done|].
    injection E as ->. by apply Nat.ltb_ge in Ed. }
  set (ds := discriminators l) in *.
  assert (∀ b i, given (λ l, starts_with (discriminators l)) (Some l) b i ↔ starts_with ds b i) as Hg by (unfold given; naive_solver).
  destruct (length ds =? 0)%nat eqn:E0.
  - apply adds_never. intros b i. rewrite Hg. apply Nat.eqb_eq, length_zero_iff_nil in E0. rewrite E0. intros [?%elem_of_nil|[(d & ?%elem_of_nil & _) _]]; done.
  - destruct (existsb (λ d, length d =? 0)%nat ds) eqn:Ee.
    + apply adds_none. intros b i. apply Hg. left. apply existsb_exists in Ee as (d & Hd%list_elem_of_In & E%Nat.eqb_eq). by apply length_zero_iff_nil in E as ->.
    + apply adds_add. intros b i Hb Hp. rewrite Hg. unfold starts_with. assert ([] ∉ ds) as Hne.
      { intros Hin%list_elem_of_In. apply not_true_iff_false in Ee. apply Ee, existsb_exists. by exists []. }
      rewrite (discriminator_sem ds); [split; [by right|by intros [?|?]]|done| |done|done]. intros q. rewrite list_elem_of_omap. setoid_rewrite list_elem_of_fmap. setoid_rewrite elem_of_seq. split.
      * intros ([n ds'] & (n' & [= -> ->] & Hn) & E). cbn [fst snd] in E. destruct (length (filter (λ d, length d = n') ds) =? 0)%nat eqn:En; [done|]. injection E as <-. exists n'. split; [lia|]. split; [|done].
        intros Hnil. unfold of_length in Hnil. by rewrite Hnil in En.
      * intros (n & Hn & Hne' & ->). eexists. split; [exists n; split; [done|lia]|]. cbn [fst snd]. destruct (length (filter (λ d, length d = n) ds) =? 0)%nat eqn:En; [|done].
        by apply Nat.eqb_eq, length_zero_iff_nil in En.
Qed.

(** ** Requests

    What each item request of each network asks for: a table, the filters of its fields, and
    the relations that its flags add. *)

Record Asked : Type := mkAsked { asked_table : Name; asked_filters : list row_filter; asked_relations : list RelStep }.

Definition bitcoin_transaction_filters (r : BitcoinTransactionRequest) : list row_filter :=
  [].
Definition bitcoin_input_filters (r : BitcoinInputRequest) : list row_filter :=
  [strings "type" (bitcoin_input_type r); strings "prevout_script_pub_key_address" (bitcoin_input_prevout_script_pub_key_address r);
   strings "prevout_script_pub_key_type" (bitcoin_input_prevout_script_pub_key_type r);
   given (is_bool "prevout_generated") (bitcoin_input_prevout_generated r)].
Definition bitcoin_output_filters (r : BitcoinOutputRequest) : list row_filter :=
  [strings "script_pub_key_address" (bitcoin_output_script_pub_key_address r); strings "script_pub_key_type" (bitcoin_output_script_pub_key_type r)].
Definition eth_transaction_filters (r : EthTransactionRequest) : list row_filter :=
  [strings "from" (to_lowercase_list (eth_transaction_from r)); strings "to" (to_lowercase_list (eth_transaction_to r));
   strings "sighash" (to_lowercase_list (eth_transaction_sighash r)); given (λ n, at_least "nonce" (u64_scalar n)) (eth_transaction_first_nonce r);
   given (λ n, at_most "nonce" (u64_scalar n)) (eth_transaction_last_nonce r)].
Definition eth_log_filters (r : EthLogRequest) : list row_filter :=
  [strings "address" (to_lowercase_list (eth_log_address r)); strings "topic0" (to_lowercase_list (eth_log_topic0 r));
   strings "topic1" (to_lowercase_list (eth_log_topic1 r)); strings "topic2" (to_lowercase_list (eth_log_topic2 r));
   strings "topic3" (to_lowercase_list (eth_log_topic3 r))].
Definition eth_trace_filters (r : EthTraceRequest) : list row_filter :=
  [strings "type" (eth_trace_type r); strings "create_from" (to_lowercase_list (eth_trace_create_from r));
   strings "create_result_address" (to_lowercase_list (eth_trace_create_result_address r));
   strings "call_from" (to_lowercase_list (eth_trace_call_from r)); strings "call_to" (to_lowercase_list (eth_trace_call_to r));
   strings "call_sighash" (to_lowercase_list (eth_trace_call_sighash r)); strings "call_type" (eth_trace_call_call_type r);
   strings "suicide_address" (to_lowercase_list (eth_trace_suicide_address r));
   strings "suicide_refund_address" (to_lowercase_list (eth_trace_suicide_refund_address r));
   strings "reward_author" (to_lowercase_list (eth_trace_reward_author r));
   whenever (eth_trace_call_value_non_zero r) (at_least "call_value" (str_scalar "0x1"));
   whenever (eth_trace_create_value_non_zero r) (at_least "create_value" (str_scalar "0x1"));
   whenever (eth_trace_suicide_balance_non_zero r) (at_least "suicide_balance" (str_scalar "0x1"));
   whenever (eth_trace_reward_value_non_zero r) (at_least "reward_value" (str_scalar "0x1"))].
Definition eth_state_diff_filters (r : EthStateDiffRequest) : list row_filter :=
  [strings "address" (to_lowercase_list (eth_state_diff_address r)); strings "key" (eth_state_diff_key r); strings "kind" (eth_state_diff_kind r)].
Definition tron_transaction_filters (r : TronTransactionRequest) : list row_filter :=
  [strings "type" (tron_transaction_type r)].
Definition tron_transfer_transaction_filters (r : TronTransferTransactionRequest) : list row_filter :=
  [is_string "type" "TransferContract"; strings "_transfer_contract_owner" (to_lowercase_list (tron_transfer_transaction_owner r));
   strings "_transfer_contract_to" (to_lowercase_list (tron_transfer_transaction_to r))].
Definition tron_transfer_asset_transaction_filters (r : TronTransferAssetTransactionRequest) : list row_filter :=
  [is_string "type" "TransferAssetContract"; strings "_transfer_asset_contract_owner" (to_lowercase_list (tron_transfer_asset_transaction_owner r));
   strings "_transfer_asset_contract_to" (to_lowercase_list (tron_transfer_asset_transaction_to r));
   strings "_transfer_asset_contract_asset" (tron_transfer_asset_transaction_asset r)].
Definition tron_trigger_smart_contract_transaction_filters (r : TronTriggerSmartContractTransactionRequest) : list row_filter :=
  [is_string "type" "TriggerSmartContract";
   strings "_trigger_smart_contract_owner" (to_lowercase_list (tron_trigger_smart_contract_transaction_owner r));
   strings "_trigger_smart_contract_contract" (to_lowercase_list (tron_trigger_smart_contract_transaction_contract r));
   strings "_trigger_smart_contract_sighash" (to_lowercase_list (tron_trigger_smart_contract_transaction_sighash r))].
Definition tron_log_filters (r : TronLogRequest) : list row_filter :=
  [strings "address" (to_lowercase_list (tron_log_address r)); strings "topic0" (to_lowercase_list (tron_log_topic0 r));
   strings "topic1" (to_lowercase_list (tron_log_topic1 r)); strings "topic2" (to_lowercase_list (tron_log_topic2 r));
   strings "topic3" (to_lowercase_list (tron_log_topic3 r))].
Definition tron_internal_transaction_filters (r : TronInternalTransactionRequest) : list row_filter :=
  [strings "caller_address" (to_lowercase_list (tron_internal_transaction_caller r));
   strings "transfer_to_address" (to_lowercase_list (tron_internal_transaction_transfer_to r))].
Definition substrate_event_filters (r : SubstrateEventRequest) : list row_filter :=
  [strings "name" (substrate_event_name r)].
Definition substrate_call_filters (r : SubstrateCallRequest) : list row_filter :=
  [strings "name" (substrate_call_name r)].
Definition substrate_evm_log_filters (r : SubstrateEvmLogRequest) : list row_filter :=
  [is_string "name" "EVM.Log"; strings "_evm_log_address" (to_lowercase_list (substrate_evm_log_address r));
   strings "_evm_log_topic0" (to_lowercase_list (substrate_evm_log_topic0 r));
   strings "_evm_log_topic1" (to_lowercase_list (substrate_evm_log_topic1 r));
   strings "_evm_log_topic2" (to_lowercase_list (substrate_evm_log_topic2 r));
   strings "_evm_log_topic3" (to_lowercase_list (substrate_evm_log_topic3 r))].
Definition substrate_ethereum_transaction_filters (r : SubstrateEthereumTransactionRequest) : list row_filter :=
  [is_string "name" "Ethereum.transact"; strings "_ethereum_transact_to" (to_lowercase_list (substrate_ethereum_transaction_to r));
   strings "_ethereum_transact_sighash" (to_lowercase_list (substrate_ethereum_transaction_sighash r))].
Definition substrate_contracts_contract_emitted_filters (r : SubstrateContractsContractEmittedRequest) : list row_filter :=
  [is_string "name" "Contracts.ContractEmitted"; strings "_contract_address" (substrate_contracts_contract_emitted_contract_address r)].
Definition substrate_gear_message_enqueued_filters (r : SubstrateGearMessageEnqueuedRequest) : list row_filter :=
  [is_string "name" "Gear.UserMessageEnqueued"; strings "_gear_program_id" (substrate_gear_message_enqueued_program_id r)].
Definition substrate_gear_user_message_sent_filters (r : SubstrateGearUserMessageSentRequest) : list row_filter :=
  [is_string "name" "Gear.UserMessageSent"; strings "_gear_program_id" (substrate_gear_user_message_sent_program_id r)].
Definition substrate_revive_contract_emitted_filters (r : SubstrateReviveContractEmittedRequest) : list row_filter :=
  [is_string "name" "Revive.ContractEmitted"; strings "_revive_contract" (substrate_revive_contract_emitted_contract r);
   strings "_revive_topic0" (substrate_revive_contract_emitted_topic0 r); strings "_revive_topic1" (substrate_revive_contract_emitted_topic1 r);
   strings "_revive_topic2" (substrate_revive_contract_emitted_topic2 r); strings "_revive_topic3" (substrate_revive_contract_emitted_topic3 r)].
Definition fuel_receipt_filters (r : FuelReceiptRequest) : list row_filter :=
  [strings "receipt_type" (fuel_receipt_type r); strings "contract" (fuel_receipt_contract r)].
Definition fuel_transaction_filters (r : FuelTransactionRequest) : list row_filter :=
  [strings "type" (fuel_transaction_type r)].
Definition fuel_input_filters (r : FuelInputRequest) : list row_filter :=
  [strings "type" (fuel_input_type r); strings "coin_owner" (fuel_input_coin_owner r); strings "coin_asset_id" (fuel_input_coin_asset_id r);
   strings "contract_contract" (fuel_input_contract_contract r); strings "message_sender" (fuel_input_message_sender r);
   strings "message_recipient" (fuel_input_message_recipient r)].
Definition fuel_output_filters (r : FuelOutputRequest) : list row_filter :=
  [strings "type" (fuel_output_type r)].
Definition fills_fill_filters (r : FillsFillRequest) : list row_filter :=
  [strings "user" (fills_fill_user r); strings "coin" (fills_fill_coin r); strings "dir" (fills_fill_dir r); strings "cloid" (fills_fill_cloid r);
   strings "fee_token" (fills_fill_fee_token r); strings "builder" (fills_fill_builder r)].
Definition replica_action_filters (r : ReplicaActionRequest) : list row_filter :=
  [strings "action_type" (replica_action_action_type r); strings "user" (replica_action_user r);
   strings "vault_address" (replica_action_vault_address r);
   given (λ val, is_string "status" (match val with StatusOk => "ok" | StatusErr => "err" end)) (replica_action_status r)].
Definition replica_order_action_filters (r : ReplicaOrderActionRequest) : list row_filter :=
  [given (has_int "order_asset") (replica_order_action_contains_asset r); given (has_string "order_cloid") (replica_order_action_contains_cloid r);
   strings "user" (replica_order_action_user r); strings "vault_address" (replica_order_action_vault_address r);
   given (λ val, is_string "status" (match val with StatusOk => "ok" | StatusErr => "err" end)) (replica_order_action_status r)].
Definition replica_cancel_action_filters (r : ReplicaCancelActionRequest) : list row_filter :=
  [given (has_int "cancel_asset") (replica_cancel_action_contains_asset r); strings "user" (replica_cancel_action_user r);
   strings "vault_address" (replica_cancel_action_vault_address r);
   given (λ val, is_string "status" (match val with StatusOk => "ok" | StatusErr => "err" end)) (replica_cancel_action_status r)].
Definition replica_cancel_by_cloid_action_filters (r : ReplicaCancelByCloidActionRequest) : list row_filter :=
  [given (has_int "asset") (replica_cancel_by_cloid_action_contains_asset r);
   given (has_string "cloid") (replica_cancel_by_cloid_action_contains_cloid r); strings "user" (replica_cancel_by_cloid_action_user r);
   strings "vault_address" (replica_cancel_by_cloid_action_vault_address r);
   given (λ val, is_string "status" (match val with StatusOk => "ok" | StatusErr => "err" end)) (replica_cancel_by_cloid_action_status r)].
Definition replica_batch_modify_action_filters (r : ReplicaBatchModifyActionRequest) : list row_filter :=
  [given (has_int "batch_modify_asset") (replica_batch_modify_action_contains_asset r);
   given (has_string "batch_modify_cloid") (replica_batch_modify_action_contains_cloid r); strings "user" (replica_batch_modify_action_user r);
   strings "vault_address" (replica_batch_modify_action_vault_address r);
   given (λ val, is_string "status" (match val with StatusOk => "ok" | StatusErr => "err" end)) (replica_batch_modify_action_status r)].
Definition solana_instruction_filters (r : SolanaInstructionRequest) : list row_filter :=
  [strings "program_id" (solana_instruction_program_id r); given (λ l, starts_with (discriminators l)) (solana_instruction_discriminator r);
   given (one_of "d1") (static_hex_cells 1 (solana_instruction_d1 r)); given (one_of "d2") (static_hex_cells 2 (solana_instruction_d2 r));
   given (one_of "d4") (static_hex_cells 4 (solana_instruction_d4 r)); given (one_of "d8") (static_hex_cells 8 (solana_instruction_d8 r));
   given (mentions "accounts_bloom") (solana_instruction_mentions_account r); strings "a0" (solana_instruction_a0 r);
   strings "a1" (solana_instruction_a1 r); strings "a2" (solana_instruction_a2 r); strings "a3" (solana_instruction_a3 r);
   strings "a4" (solana_instruction_a4 r); strings "a5" (solana_instruction_a5 r); strings "a6" (solana_instruction_a6 r);
   strings "a7" (solana_instruction_a7 r); strings "a8" (solana_instruction_a8 r); strings "a9" (solana_instruction_a9 r);
   strings "a10" (solana_instruction_a10 r); strings "a11" (solana_instruction_a11 r); strings "a12" (solana_instruction_a12 r);
   strings "a13" (solana_instruction_a13 r); strings "a14" (solana_instruction_a14 r); strings "a15" (solana_instruction_a15 r);
   given (is_bool "is_committed") (solana_instruction_is_committed r)].
Definition solana_transaction_filters (r : SolanaTransactionRequest) : list row_filter :=
  [strings "fee_payer" (solana_transaction_fee_payer r); given (mentions "accounts_bloom") (solana_transaction_mentions_account r)].
Definition solana_log_filters (r : SolanaLogRequest) : list row_filter :=
  [strings "program_id" (solana_log_program_id r); strings "kind" (solana_log_kind r)].
Definition solana_balance_filters (r : SolanaBalanceRequest) : list row_filter :=
  [strings "account" (solana_balance_account r)].
Definition solana_token_balance_filters (r : SolanaTokenBalanceRequest) : list row_filter :=
  [strings "account" (solana_token_balance_account r); strings "pre_mint" (solana_token_balance_pre_mint r);
   strings "post_mint" (solana_token_balance_post_mint r); strings "pre_program_id" (solana_token_balance_pre_program_id r);
   strings "post_program_id" (solana_token_balance_post_program_id r); strings "pre_owner" (solana_token_balance_pre_owner r);
   strings "post_owner" (solana_token_balance_post_owner r)].
Definition solana_reward_filters (r : SolanaRewardRequest) : list row_filter :=
  [strings "pubkey" (solana_reward_pubkey r)].

Definition bitcoin_asked (q : BitcoinQuery) : list Asked :=
  ((λ r, mkAsked "transactions" (bitcoin_transaction_filters r) (bitcoin_transaction_relations r)) <$> bitcoin_transactions q)
  ++ ((λ r, mkAsked "inputs" (bitcoin_input_filters r) (bitcoin_input_relations r)) <$> bitcoin_inputs q)
  ++ ((λ r, mkAsked "outputs" (bitcoin_output_filters r) (bitcoin_output_relations r)) <$> bitcoin_outputs q).
Definition eth_asked (q : EthQuery) : list Asked :=
  ((λ r, mkAsked "transactions" (eth_transaction_filters r) (eth_transaction_relations r)) <$> eth_transactions q)
  ++ ((λ r, mkAsked "logs" (eth_log_filters r) (eth_log_relations r)) <$> eth_logs q)
  ++ ((λ r, mkAsked "traces" (eth_trace_filters r) (eth_trace_relations r)) <$> eth_traces q)
  ++ ((λ r, mkAsked "statediffs" (eth_state_diff_filters r) (eth_state_diff_relations r)) <$> eth_statediffs q).
Definition tron_asked (q : TronQuery) : list Asked :=
  ((λ r, mkAsked "transactions" (tron_transaction_filters r) (tron_transaction_relations r)) <$> tron_transactions q)
  ++ ((λ r, mkAsked "logs" (tron_log_filters r) (tron_log_relations r)) <$> tron_logs q)
  ++ ((λ r, mkAsked "internal_transactions" (tron_internal_transaction_filters r) (tron_internal_transaction_relations r)) <$> tron_internal_transactions q)
  ++ ((λ r, mkAsked "transactions" (tron_transfer_transaction_filters r) (tron_transfer_transaction_relations r)) <$> tron_transfer_transactions q)
  ++ ((λ r, mkAsked "transactions" (tron_transfer_asset_transaction_filters r) (tron_transfer_asset_transaction_relations r)) <$> tron_transfer_asset_transactions q)
  ++ ((λ r, mkAsked "transactions" (tron_trigger_smart_contract_transaction_filters r) (tron_trigger_smart_contract_transaction_relations r)) <$> tron_trigger_smart_contract_transactions q).
Definition substrate_asked (q : SubstrateQuery) : list Asked :=
  ((λ r, mkAsked "calls" (substrate_call_filters r) (substrate_call_relations r)) <$> substrate_calls q)
  ++ ((λ r, mkAsked "events" (substrate_event_filters r) (substrate_event_relations r)) <$> substrate_events q)
  ++ ((λ r, mkAsked "calls" (substrate_ethereum_transaction_filters r) (substrate_ethereum_transaction_relations r)) <$> substrate_ethereum_transactions q)
  ++ ((λ r, mkAsked "events" (substrate_contracts_contract_emitted_filters r) (substrate_contracts_contract_emitted_relations r)) <$> substrate_contracts_events q)
  ++ ((λ r, mkAsked "events" (substrate_gear_message_enqueued_filters r) (substrate_gear_message_enqueued_relations r)) <$> substrate_gear_messages_enqueued q)
  ++ ((λ r, mkAsked "events" (substrate_gear_user_message_sent_filters r) (substrate_gear_user_message_sent_relations r)) <$> substrate_gear_user_messages_sent q)
  ++ ((λ r, mkAsked "events" (substrate_evm_log_filters r) (substrate_evm_log_relations r)) <$> substrate_evm_logs q)
  ++ ((λ r, mkAsked "events" (substrate_revive_contract_emitted_filters r) (substrate_revive_contract_emitted_relations r)) <$> substrate_revive_contract_emitted q).
Definition fuel_asked (q : FuelQuery) : list Asked :=
  ((λ r, mkAsked "transactions" (fuel_transaction_filters r) (fuel_transaction_relations r)) <$> fuel_transactions q)
  ++ ((λ r, mkAsked "receipts" (fuel_receipt_filters r) (fuel_receipt_relations r)) <$> fuel_receipts q)
  ++ ((λ r, mkAsked "inputs" (fuel_input_filters r) (fuel_input_relations r)) <$> fuel_inputs q)
  ++ ((λ r, mkAsked "outputs" (fuel_output_filters r) (fuel_output_relations r)) <$> fuel_outputs q).
Definition fills_asked (q : HyperliquidFillsQuery) : list Asked :=
  ((λ r, mkAsked "fills" (fills_fill_filters r) (fills_fill_relations r)) <$> fills_fills q).
Definition replica_asked (q : HyperliquidReplicaCmdsQuery) : list Asked :=
  ((λ r, mkAsked "actions" (replica_action_filters r) (replica_action_relations r)) <$> replica_actions q)
  ++ ((λ r, mkAsked "actions" (replica_order_action_filters r) (replica_order_action_relations r)) <$> replica_order_actions q)
  ++ ((λ r, mkAsked "actions" (replica_cancel_action_filters r) (replica_cancel_action_relations r)) <$> replica_cancel_actions q)
  ++ ((λ r, mkAsked "actions" (replica_cancel_by_cloid_action_filters r) (replica_cancel_by_cloid_action_relations r)) <$> replica_cancel_by_cloid_actions q)
  ++ ((λ r, mkAsked "actions" (replica_batch_modify_action_filters r) (replica_batch_modify_action_relations r)) <$> replica_batch_modify_actions q).
Definition solana_asked (q : SolanaQuery) : list Asked :=
  ((λ r, mkAsked "transactions" (solana_transaction_filters r) (solana_transaction_relations r)) <$> solana_transactions q)
  ++ ((λ r, mkAsked "instructions" (solana_instruction_filters r) (solana_instruction_relations r)) <$> solana_instructions q)
  ++ ((λ r, mkAsked "logs" (solana_log_filters r) (solana_log_relations r)) <$> solana_logs q)
  ++ ((λ r, mkAsked "balances" (solana_balance_filters r) (solana_balance_relations r)) <$> solana_balances q)
  ++ ((λ r, mkAsked "token_balances" (solana_token_balance_filters r) (solana_token_balance_relations r)) <$> solana_token_balances q)
  ++ ((λ r, mkAsked "rewards" (solana_reward_filters r) (solana_reward_relations r)) <$> solana_rewards q).
Definition query_asked (q : Query) : list Asked :=
  match q with
  | Bitcoin q => bitcoin_asked q
  | Eth q => eth_asked q
  | Solana q => solana_asked q
  | Substrate q => substrate_asked q
  | Fuel q => fuel_asked q
  | HyperliquidFills q => fills_asked q
  | HyperliquidReplicaCmds q => replica_asked q
  | Tron q => tron_asked q
  end.

Definition query_items (q : Query) : list Item :=
  match q with
  | Bitcoin q => bitcoin_items q
  | Eth q => eth_items q
  | Solana q => solana_items q
  | Substrate q => substrate_items q
  | Fuel q => fuel_items q
  | HyperliquidFills q => fills_items q
  | HyperliquidReplicaCmds q => replica_items q
  | Tron q => tron_items q
  end.

(** An item is compiled to the filters of its request. *)
Definition item_means (it : Item) (a : Asked) : Prop :=
  item_table it = asked_table a ∧ item_relations it = asked_relations a ∧ ∃ pb, item_predicate it pb_new = Ok pb ∧ chain pb_new pb (asked_filters a).

Lemma adds_is_bool c o p : adds p (pb_col_eq c (bool_scalar <$> o) p) (given (is_bool c) o).
Proof. apply adds_given_eq. Qed.
Lemma adds_some_string {A} c (f : A → string) o p : adds p (pb_col_eq c ((λ x, str_scalar (f x)) <$> o) p) (given (λ x, is_string c (f x)) o).
Proof. apply (adds_given_eq c (λ x, str_scalar (f x))). Qed.

Ltac one_filter := first [apply adds_strings | apply adds_is_string | apply adds_is_bool | apply adds_some_string | apply adds_gt_eq | apply adds_lt_eq | apply adds_whenever
  | apply adds_has_int | apply adds_has_string | apply adds_discriminators | apply adds_col_in_list | eapply adds_mentions; eassumption].
Ltac filters := repeat (eapply chain_cons; [one_filter|]); apply chain_nil.
Ltac plain_items := repeat (apply Forall2_app); apply Forall2_fmap_2, Forall_Forall2_diag, Forall_forall; intros r _; (split; [done|]); (split; [done|]).
Ltac plain_item := eexists; (split; [reflexivity|]); filters.

Lemma bloom_filter_total name n k l p : (0 < n)%nat → ∃ p', pb_bloom_filter name n k l p = Ok p'.
Proof.
  intros Hn. unfold pb_bloom_filter. destruct l as [l|]; [|eauto]. unfold col_bloom_filter.
  match goal with |- context [collect (?f <$> l)] => destruct (collect_map_spec f (λ _ _, True) l) as (ps & -> & _) end.
  - intros v _. destruct (bloom_insert_spec xxh3_str (bloom_new n k) v) as (g & -> & _); [cbn; by rewrite length_replicate|]. cbn [mbind res_bind]. eauto.
  - cbn [mbind res_bind]. eauto.
Qed.

Lemma solana_means q : Forall2 item_means (solana_items q) (solana_asked q).
Proof.
  unfold solana_items, solana_asked. plain_items; [| |plain_item..]; cbn [item_predicate asked_filters]; unfold solana_transaction_predicate, solana_instruction_predicate; cbv zeta;
    match goal with |- context [pb_bloom_filter ?a ?b ?c ?d ?e] => destruct (bloom_filter_total a b c d e) as (p' & E); [lia|] end; rewrite E; plain_item.
Qed.
Lemma query_means q : Forall2 item_means (query_items q) (query_asked q).
Proof.
  destruct q; cbn [query_items query_asked]; [| |apply solana_means|..];
    unfold bitcoin_items, bitcoin_asked, eth_items, eth_asked, substrate_items, substrate_asked, fuel_items, fuel_asked, fills_items, fills_asked, replica_items, replica_asked,
      tron_items, tron_asked; plain_items; plain_item.
Qed.
End deps.

(** ** The meaning of items *)

Definition table_pk (ts : TableSet) (t : Name) : list Name := match ts_get ts t with Ok tab => primary_key tab | _ => [] end.
(** The relation a step adds to a scan of table [t]. *)
Definition step_rel (ts : TableSet) (t : Name) (s : RelStep) : Rel :=
  match s with
  | SJoin ot ok sk => Join t sk ot ok
  | SChildren => Children t (table_pk ts t)
  | SParents => Parents t (table_pk ts t)
  | SForeignChildren ot ok sk => ForeignChildren t sk ot ok
  | SForeignParents ot ok sk => ForeignParents t sk ot ok
  end.

(** Item [it] of a request asks for the rows of its table that [p] selects. *)
Definition asks (items : list Item) (it : Item) (p : option RowPredicate) : Prop :=
  it ∈ items ∧ ∃ pb, item_predicate it pb_new = Ok pb ∧ is_never pb = false ∧ p = pb_build pb.
Definition asked_rows (T : gmap Name RecordBatch) (it : Item) (p : option RowPredicate) : RowList := scan_rows T (mkPlanScan (item_table it) p [] None).
(** Row [i] of the table of a request satisfies the filters of all of its fields. *)
Definition asks_for (T : gmap Name RecordBatch) (a : Asked) (i : nat) : Prop :=
  ∃ full, T !! asked_table a = Some full ∧ (i < rb_num_rows full)%nat ∧ Forall (λ f, f full i) (asked_filters a).
(** Row [j] of table [t] is part of the answer: a request asks for it, or for a row it is
    related to. *)
Definition query_rows (T : gmap Name RecordBatch) (ts : TableSet) (asked : list Asked) (t : Name) (j : nat) : Prop :=
  ∃ a i, a ∈ asked ∧ asks_for T a i ∧
    (asked_table a = t ∧ j = i ∨
     ∃ s, s ∈ asked_relations a ∧ output_table (step_rel ts (asked_table a) s) = t ∧ rel_rows T (step_rel ts (asked_table a) s) {[Z.of_nat i]} j).

(** The same, by the predicates of the compiled items. *)
Definition item_rows (T : gmap Name RecordBatch) (ts : TableSet) (items : list Item) (t : Name) (j : nat) : Prop :=
  ∃ it p, asks items it p ∧
    (item_table it = t ∧ Z.of_nat j ∈ asked_rows T it p ∨
     ∃ s, s ∈ item_relations it ∧ output_table (step_rel ts (item_table it) s) = t ∧ rel_rows T (step_rel ts (item_table it) s) (asked_rows T it p) j).

(** An item of known tables whose predicate can be built. *)
Definition step_ok (ts : TableSet) (t : Name) (s : RelStep) : Prop := output_table (step_rel ts t s) ∈ names ts.
Record item_ok (ts : TableSet) (it : Item) : Prop := mkItemOk {
  io_table : item_table it ∈ names ts;
  io_predicate : ∃ pb, item_predicate it pb_new = Ok pb;
  io_steps : Forall (step_ok ts (item_table it)) (item_relations it)
}.

(** ** Relations, row by row *)

Lemma selected_mono fo ok fi ik (input input' : RowList) j : input ⊆ input' → selected fo ok fi ik input j → selected fo ok fi ik input' j.
Proof. intros Hs (Hj & i & Hi & Hm). split; [done|]. exists i. split; [by apply Hs|done]. Qed.
Lemma selected_point fo ok fi ik input j : selected fo ok fi ik input j → ∃ i, Z.of_nat i ∈ input ∧ selected fo ok fi ik {[Z.of_nat i]} j.
Proof. intros (Hj & i & Hi & Hm). exists i. split; [done|]. split; [done|]. exists i. split; [by apply elem_of_singleton|done]. Qed.

Lemma rel_rows_mono T rel (input input' : RowList) j : input ⊆ input' → rel_rows T rel input j → rel_rows T rel input' j.
Proof.
  intros Hs. destruct rel as [it ik ot ok|it ik ot ok|it ik ot ok|t k|t k]; cbn [rel_rows].
  - intros (fi & fo & Hi & Ho & Hj). exists fi, fo. eauto using selected_mono.
  - intros (fi & fo & Hi & Ho & [Hj|(p & Hp & Hb)]); exists fi, fo; eauto 8 using selected_mono.
  - intros (fi & fo & Hi & Ho & c & Hc & Ha). exists fi, fo. eauto 8 using selected_mono.
  - intros (f & Hf & i & Hi & Hb). eauto 8.
  - intros (f & Hf & i & Hi & Hb). eauto 8.
Qed.

(** A relation adds what its single input rows add. *)
Lemma rel_rows_point T rel input j : rel_rows T rel input j → ∃ i, Z.of_nat i ∈ input ∧ rel_rows T rel {[Z.of_nat i]} j.
Proof.
  destruct rel as [it ik ot ok|it ik ot ok|it ik ot ok|t k|t k]; cbn [rel_rows].
  - intros (fi & fo & Hi & Ho & (i & ? & ?)%selected_point). exists i. eauto 8.
  - intros (fi & fo & Hi & Ho & [(i & ? & ?)%selected_point|(p & (i & ? & ?)%selected_point & Hb)]); exists i; split; eauto 10.
  - intros (fi & fo & Hi & Ho & c & (i & ? & ?)%selected_point & Ha). exists i. eauto 10.
  - intros (f & Hf & i & Hi & Hb). exists i. split; [done|]. exists f. split; [done|]. exists i. split; [by apply elem_of_singleton|done].
  - intros (f & Hf & i & Hi & Hb). exists i. split; [done|]. exists f. split; [done|]. exists i. split; [by apply elem_of_singleton|done].
Qed.

(** ** Building the plan *)

(** What [add_rel] leaves and where the relation is. *)
Lemma add_rel_spec b rel : let b' := (add_rel b rel).1 in
  plan_tables b' = plan_tables b ∧ plan_outputs b' = plan_outputs b ∧ plan_scans b' = plan_scans b ∧ plan_relations b' !! (add_rel b rel).2 = Some rel ∧
  (∀ r x, plan_relations b !! r = Some x → plan_relations b' !! r = Some x) ∧ ∀ x, x ∈ plan_relations b' → x = rel ∨ x ∈ plan_relations b.
Proof.
  unfold add_rel. destruct (list_find _ _) as [[i x]|] eqn:E; cbn [fst snd].
  - apply list_find_Some in E as (Hr & -> & _). do 4 (split; [done|]). split; [done|]. by right.
  - cbn. do 3 (split; [done|]). rewrite list_lookup_middle by done. split; [done|]. split; [intros r x Hr; by apply lookup_app_l_Some|].
    intros x [Hx|Hx]%elem_of_app; [by right|left]. by apply list_elem_of_singleton in Hx.
Qed.

(** The scan of an item: its table, predicate, output and relations. *)
Definition scan_of (b : PlanBuilder) (ip : Item * option RowPredicate) (s : PlanScan) : Prop :=
  ps_table s = item_table ip.1 ∧ ps_predicate s = ip.2 ∧ (∃ o, ps_output s = Some o ∧ get_index (plan_tables b) (item_table ip.1) = Ok o) ∧
  Forall2 (λ st r, plan_relations b !! r = Some (step_rel (plan_tables b) (item_table ip.1) st)) (item_relations ip.1) (ps_relations s).

(** A builder that holds exactly the scans of [ips] and their relations. *)
Record holds (ts : TableSet) (ips : list (Item * option RowPredicate)) (b : PlanBuilder) : Prop := mkHolds {
  hd_tables : plan_tables b = ts;
  hd_outputs : out_table <$> plan_outputs b = names ts;
  hd_scans : Forall2 (scan_of b) ips (plan_scans b);
  hd_relations rel : rel ∈ plan_relations b → ∃ ip st, ip ∈ ips ∧ st ∈ item_relations ip.1 ∧ rel = step_rel ts (item_table ip.1) st
}.

(** An item of which the steps [done] are compiled. *)
Definition partial (it : Item) (done : list RelStep) (p : option RowPredicate) : Item * option RowPredicate :=
  (mkItem (item_table it) (item_predicate it) done, p).

Lemma scan_of_relations b b' ip s : plan_tables b' = plan_tables b → (∀ r x, plan_relations b !! r = Some x → plan_relations b' !! r = Some x) →
  scan_of b ip s → scan_of b' ip s.
Proof.
  intros Ht Hr (H1 & H2 & H3 & H4). unfold scan_of. rewrite Ht. do 3 (split; [done|]). eapply Forall2_impl; [exact H4|]. intros st r Hrs. by apply Hr.
Qed.

Lemma push_rel_holds ts ips it done p st b : holds ts (ips ++ [partial it done p]) b →
  ∃ b', push_rel (b, length ips) (step_rel ts (item_table it) st) = Ok (b', length ips) ∧ holds ts (ips ++ [partial it (done ++ [st]) p]) b'.
Proof.
  intros [Ht Ho Hs Hr]. set (rel := step_rel ts (item_table it) st). destruct (add_rel_spec b rel) as (A1 & A2 & A3 & A4 & A5 & A6).
  apply Forall2_app_inv_l in Hs as (ss & sl & Hss & Hsl & Es). apply Forall2_cons_inv_l in Hsl as (s & sl' & Hs & Hnil & ->). apply Forall2_nil_inv_l in Hnil as ->.
  unfold push_rel, scan_mut. cbn [fst snd]. rewrite (slice_update_ok _ _ _ s (mkPlanScan (ps_table s) (ps_predicate s) (ps_relations s ++ [(add_rel b rel).2]) (ps_output s))).
  - cbn [mbind res_bind]. eexists. split; [done|]. rewrite A3, Es. rewrite (Forall2_length _ _ _ Hss). rewrite insert_app_r_alt, Nat.sub_diag by lia. cbn [list_insert insert].
    split; cbn [plan_tables plan_outputs plan_scans plan_relations with_scans].
    + by rewrite A1.
    + by rewrite A2.
    + apply Forall2_app; [eapply Forall2_impl; [exact Hss|]; intros ip s' Hip; by apply (scan_of_relations b)|]. constructor; [|constructor].
      destruct Hs as (H1 & H2 & H3 & H4). unfold scan_of. cbn [plan_tables plan_relations with_scans partial fst snd item_table item_relations ps_table ps_predicate ps_output ps_relations] in *.
      rewrite A1. do 3 (split; [done|]). apply Forall2_app; [eapply Forall2_impl; [exact H4|]; intros st' r Hst; by apply A5|]. constructor; [|constructor]. by rewrite A4, Ht.
    + intros x [->|Hx]%A6.
      * exists (partial it (done ++ [st]) p), st. split; [lmem|]. split; [cbn; lmem|done].
      * destruct (Hr x Hx) as (ip & st' & [Hip|Hip]%elem_of_app & Hst & ->); [exists ip, st'; split; [apply elem_of_app; by left|done]|].
        apply list_elem_of_singleton in Hip as ->. exists (partial it (done ++ [st]) p), st'. split; [lmem|]. split; [cbn in Hst |- *; apply elem_of_app; by left|done].
  - rewrite A3, Es, (Forall2_length _ _ _ Hss). by rewrite list_lookup_middle.
  - done.
Qed.

Lemma ts_get_elem ts t : NoDup (names ts) → t ∈ names ts → ∃ tab, ts_get ts t = Ok tab.
Proof.
  intros Hn Ht. destruct (get_index_elem ts t Hn Ht) as (i & Ei & Hi). unfold names in Hi. rewrite list_lookup_fmap in Hi. destruct (ts !! i) as [tab|] eqn:E; [|done].
  exists tab. unfold ts_get. rewrite Ei. cbn [mbind res_bind]. by apply slice_get_Some.
Qed.

Lemma apply_step_holds ts ips it done p st b : NoDup (names ts) → item_table it ∈ names ts → holds ts (ips ++ [partial it done p]) b →
  ∃ b', apply_step (b, length ips) st = Ok (b', length ips) ∧ holds ts (ips ++ [partial it (done ++ [st]) p]) b'.
Proof.
  intros Hn Hit Hh. destruct (push_rel_holds ts ips it done p st b Hh) as (b' & E & Hh'). exists b'. split; [|done].
  destruct Hh as [Ht _ Hs _]. apply Forall2_app_inv_l in Hs as (ss & sl & Hss & Hsl & Es). apply Forall2_cons_inv_l in Hsl as (s & sl' & (Hst & _) & _ & ->).
  assert (slice_get (plan_scans b) (length ips) = Ok s) as Eg by (apply slice_get_Some; rewrite Es, (Forall2_length _ _ _ Hss); by rewrite list_lookup_middle).
  destruct (ts_get_elem ts (item_table it) Hn Hit) as (tab & Etab). unfold step_rel, table_pk in E. rewrite Etab in E. cbn [partial fst item_table] in Hst.
  destruct st; cbn [apply_step]; unfold scan_join, include_children, include_parents, include_foreign_children, include_foreign_parents; cbn [fst snd];
    rewrite Eg; cbn [mbind res_bind]; rewrite Hst; [done| | |done|done]; rewrite Ht, Etab; done.
Qed.

Lemma apply_steps_holds ts ips it p steps : NoDup (names ts) → item_table it ∈ names ts → ∀ b done, holds ts (ips ++ [partial it done p]) b →
  ∃ b', fold_res apply_step steps (b, length ips) = Ok (b', length ips) ∧ holds ts (ips ++ [partial it (done ++ steps) p]) b'.
Proof.
  intros Hn Hit. induction steps as [|st steps IH]; intros b done Hh; cbn [fold_res].
  - exists b. by rewrite app_nil_r.
  - destruct (apply_step_holds ts ips it done p st b Hn Hit Hh) as (b1 & -> & Hh1). cbn [mbind res_bind].
    destruct (IH b1 (done ++ [st]) Hh1) as (b' & E & Hh'). exists b'. by rewrite <-app_assoc in Hh'.
Qed.

(** What an item leaves in the plan. *)
Definition scans_of (pb : PredicateBuilder) (it : Item) : list (Item * option RowPredicate) := if is_never pb then [] else [(it, pb_build pb)].

Lemma add_scan_holds ts ips it b : NoDup (names ts) → item_table it ∈ names ts → holds ts ips b →
  ∃ b', add_scan b (item_table it) = Ok (b', length ips) ∧ holds ts (ips ++ [partial it [] None]) b'.
Proof.
  intros Hn Hit [Ht Ho Hs Hr]. destruct (get_index_elem ts (item_table it) Hn Hit) as (o & Eo & _). unfold add_scan. rewrite Ht, Eo. cbn [mbind res_bind].
  rewrite <-(Forall2_length _ _ _ Hs). eexists. split; [done|]. split; cbn [plan_tables plan_outputs plan_scans plan_relations with_scans]; [done|done| |].
  - apply Forall2_app; [eapply Forall2_impl; [exact Hs|]; intros ip s Hip; by apply (scan_of_relations b)|]. constructor; [|constructor].
    unfold scan_of. cbn. rewrite Ht. do 2 (split; [done|]). split; [eauto|constructor].
  - intros rel Hrel. destruct (Hr rel Hrel) as (ip & st & Hip & H). exists ip, st. split; [apply elem_of_app; by left|done].
Qed.

Lemma predicate_holds ts ips it p b : holds ts (ips ++ [partial it [] None]) b →
  ∃ b', (match p with Some pr => scan_with_predicate (b, length ips) pr | None => Ok (b, length ips) end) = Ok (b', length ips) ∧ holds ts (ips ++ [partial it [] p]) b'.
Proof.
  intros Hh. destruct p as [pr|]; [|by exists b]. destruct Hh as [Ht Ho Hs Hr].
  apply Forall2_app_inv_l in Hs as (ss & sl & Hss & Hsl & Es). apply Forall2_cons_inv_l in Hsl as (s & sl' & Hs & Hnil & ->). apply Forall2_nil_inv_l in Hnil as ->.
  unfold scan_with_predicate, scan_mut. cbn [fst snd]. rewrite (slice_update_ok _ _ _ s (mkPlanScan (ps_table s) (Some pr) (ps_relations s) (ps_output s))).
  - cbn [mbind res_bind]. eexists. split; [done|]. rewrite Es, (Forall2_length _ _ _ Hss). rewrite insert_app_r_alt, Nat.sub_diag by lia. cbn [list_insert insert].
    split; cbn [plan_tables plan_outputs plan_scans plan_relations with_scans]; [done|done| |].
    + apply Forall2_app; [eapply Forall2_impl; [exact Hss|]; intros ip s' Hip; by apply (scan_of_relations b)|]. constructor; [|constructor].
      destruct Hs as (H1 & H2 & H3 & H4). by split.
    + intros rel Hrel. destruct (Hr rel Hrel) as (ip & st & [Hip|Hip]%elem_of_app & Hst & ->); [exists ip, st; split; [apply elem_of_app; by left|done]|].
      apply list_elem_of_singleton in Hip as ->. by apply elem_of_nil in Hst.
  - rewrite Es, (Forall2_length _ _ _ Hss). by rewrite list_lookup_middle.
  - done.
Qed.

Lemma compile_item_holds ts ips it pb b : NoDup (names ts) → item_table it ∈ names ts → item_predicate it pb_new = Ok pb → holds ts ips b →
  ∃ b', compile_item b it = Ok b' ∧ holds ts (ips ++ scans_of pb it) b'.
Proof.
  intros Hn Hit Ep Hh. unfold compile_item, scans_of. rewrite Ep. cbn [mbind res_bind]. destruct (is_never pb); [exists b; by rewrite app_nil_r|].
  destruct (add_scan_holds ts ips it b Hn Hit Hh) as (b1 & -> & Hh1). cbn [mbind res_bind].
  destruct (predicate_holds ts ips it (pb_build pb) b1 Hh1) as (b2 & E2 & Hh2). rewrite E2. cbn [mbind res_bind].
  destruct (apply_steps_holds ts ips it (pb_build pb) (item_relations it) Hn Hit b2 [] Hh2) as (b3 & -> & Hh3). cbn [mbind res_bind fst].
  exists b3. split; [done|]. by destruct it.
Qed.

(** The items that are compiled to scans, with their predicates. *)
Fixpoint compiled (items : list Item) : list (Item * option RowPredicate) :=
  match items with
  | [] => []
  | it :: items => (match item_predicate it pb_new with Ok pb => scans_of pb it | _ => [] end) ++ compiled items
  end.

Lemma elem_compiled items it p : (it, p) ∈ compiled items ↔ asks items it p.
Proof.
  unfold asks. induction items as [|it' items IH]; cbn [compiled]; [split; [by intros ?%elem_of_nil|by intros [?%elem_of_nil _]]|].
  rewrite elem_of_app, IH, elem_of_cons. unfold scans_of. split.
  - intros [Hin|[? ?]]; [|tauto]. destruct (item_predicate it' pb_new) as [pb| |] eqn:E; try by apply elem_of_nil in Hin. destruct (is_never pb) eqn:En; [by apply elem_of_nil in Hin|].
    apply list_elem_of_singleton in Hin as [= -> ->]. split; [by left|]. eauto.
  - intros [[->|Hin] (pb & E & En & ->)]; [|right; split; [done|]; eauto]. left. rewrite E, En. by apply list_elem_of_singleton.
Qed.

Lemma compile_items_holds ts items : NoDup (names ts) → Forall (item_ok ts) items → ∀ ips b, holds ts ips b →
  ∃ b', fold_res compile_item items b = Ok b' ∧ holds ts (ips ++ compiled items) b'.
Proof.
  intros Hn Hi. induction Hi as [|it items [Hit (pb & Ep) _] _ IH]; intros ips b Hh; cbn [fold_res compiled]; [exists b; by rewrite app_nil_r|].
  destruct (compile_item_holds ts ips it pb b Hn Hit Ep Hh) as (b1 & -> & Hh1). cbn [mbind res_bind]. rewrite Ep.
  destruct (IH _ _ Hh1) as (b' & E & Hh'). exists b'. by rewrite <-app_assoc in Hh'.
Qed.

Lemma set_projections_holds ts ps : NoDup (names ts) → Forall (λ t, t ∈ names ts) ps.*1 → ∀ b, holds ts [] b →
  ∃ b', fold_res (λ plan oe, set_projection plan oe.1 oe.2) ps b = Ok b' ∧ holds ts [] b'.
Proof.
  intros Hn. induction ps as [|[t e] ps IH]; intros Hp b Hh; cbn [fold_res]; [eauto|]. rewrite fmap_cons in Hp. apply Forall_cons in Hp as [Ht Hp].
  cbn [fst snd] in *. destruct (get_index_elem ts t Hn Ht) as (i & Ei & Hi). destruct Hh as [Hts Ho Hs Hr].
  assert (is_Some (plan_outputs b !! i)) as [o Eo]. { rewrite <-Ho, list_lookup_fmap in Hi. by destruct (plan_outputs b !! i). }
  set (o' := mkOutput (out_table o) (out_key o) (out_projection o) (weight_per_row o) (weight_columns o) e (item_name o)).
  assert (set_projection b t e = Ok (with_outputs b (<[i := o']> (plan_outputs b)))) as E.
  { unfold set_projection. rewrite Hts, Ei. cbn [mbind res_bind]. by rewrite (slice_update_ok _ _ _ o o') by done. }
  rewrite E. cbn [mbind res_bind].
  apply IH; [done|]. split; cbn [plan_tables plan_outputs plan_scans plan_relations with_outputs]; [done| | |done].
  - rewrite list_fmap_insert. cbn [out_table]. rewrite list_insert_id; [done|]. rewrite list_lookup_fmap, Eo. done.
  - destruct (plan_scans b); [done|]. by apply Forall2_nil_inv_l in Hs.
Qed.

Lemma compile_builder_holds q ts ps items : NoDup (names ts) → Forall (λ t, t ∈ names ts) ps.*1 → Forall (item_ok ts) items →
  ∃ b, compile_builder q ts ps items = Ok b ∧ holds ts (compiled items) b.
Proof.
  intros Hn Hp Hi. unfold compile_builder. cbv zeta.
  match goal with |- context [fold_res (λ plan oe, _) ps ?b0] => destruct (set_projections_holds ts ps Hn Hp b0) as (b & -> & Hh) end.
  - split; [done| |constructor|intros rel Hrel; by apply elem_of_nil in Hrel]. unfold names. cbn. rewrite <-list_fmap_compose. by apply list_fmap_ext.
  - cbn [mbind res_bind]. apply (compile_items_holds ts items Hn Hi [] b Hh).
Qed.

(** ** What the builder selects *)

Lemma step_rel_input ts t st : input_table (step_rel ts t st) = t.
Proof. by destruct st. Qed.

Section holds.
Context (ts : TableSet) (items : list Item) (b : PlanBuilder) (Hn : NoDup (names ts)) (Hi : Forall (item_ok ts) items) (Hh : holds ts (compiled items) b).

Lemma compiled_ok it p : (it, p) ∈ compiled items → item_ok ts it.
Proof. intros [Hin _]%elem_compiled. rewrite Forall_forall in Hi. by apply Hi. Qed.

(** Scans and compiled items correspond. *)
Lemma scan_item s : s ∈ plan_scans b → ∃ it p, (it, p) ∈ compiled items ∧ scan_of b (it, p) s.
Proof.
  intros Hs. apply list_elem_of_lookup in Hs as [k Hk]. destruct (Forall2_lookup_r _ _ _ _ _ (hd_scans _ _ _ Hh) Hk) as ([it p] & Hip & Hs). exists it, p.
  split; [by eapply list_elem_of_lookup_2|done].
Qed.
Lemma item_scan it p : (it, p) ∈ compiled items → ∃ s, s ∈ plan_scans b ∧ scan_of b (it, p) s.
Proof.
  intros Hip. apply list_elem_of_lookup in Hip as [k Hk]. destruct (Forall2_lookup_l _ _ _ _ _ (hd_scans _ _ _ Hh) Hk) as (s & Hs & Hsc). exists s.
  split; [by eapply list_elem_of_lookup_2|done].
Qed.

(** The relations of a scan are the steps of its item. *)
Lemma scan_relation it p s r : scan_of b (it, p) s → r ∈ ps_relations s → ∃ st, st ∈ item_relations it ∧ plan_relations b !! r = Some (step_rel ts (item_table it) st).
Proof.
  intros (_ & _ & _ & Hf) Hr. apply list_elem_of_lookup in Hr as [k Hk]. destruct (Forall2_lookup_r _ _ _ _ _ Hf Hk) as (st & Hst & E). exists st. cbn [fst] in *.
  rewrite (hd_tables _ _ _ Hh) in E. split; [by eapply list_elem_of_lookup_2|done].
Qed.
Lemma item_relation it p s st : scan_of b (it, p) s → st ∈ item_relations it → ∃ r, r ∈ ps_relations s ∧ plan_relations b !! r = Some (step_rel ts (item_table it) st).
Proof.
  intros (_ & _ & _ & Hf) Hst. apply list_elem_of_lookup in Hst as [k Hk]. destruct (Forall2_lookup_l _ _ _ _ _ Hf Hk) as (r & Hr & E). exists r. cbn [fst] in *.
  rewrite (hd_tables _ _ _ Hh) in E. split; [by eapply list_elem_of_lookup_2|done].
Qed.

Lemma holds_wf : plan_wf b ∧ tree_outputs b.
Proof.
  pose proof (hd_tables _ _ _ Hh) as Ht. split; [split|].
  - rewrite Ht. apply Hh.
  - by rewrite Ht.
  - intros s Hs. destruct (scan_item s Hs) as (it & p & Hip & Hsc). pose proof (compiled_ok it p Hip) as [Hit _ _]. pose proof Hsc as (Es & _ & (o & Eo & Ho) & _). cbn [fst] in *.
    unfold scan_wf. rewrite Es. rewrite Ht in *. split; [done|]. split; [congruence|]. intros r Hr. destruct (scan_relation it p s r Hsc Hr) as (st & _ & E).
    eexists. split; [exact E|]. apply step_rel_input.
  - intros rel Hrel. destruct (hd_relations _ _ _ Hh rel Hrel) as ([it p] & st & Hip & Hst & ->). destruct (compiled_ok it p Hip) as [Hit _ Hsteps]. rewrite Ht. cbn [fst] in *.
    rewrite step_rel_input. split; [done|]. rewrite Forall_forall in Hsteps. by apply Hsteps.
  - intros s r rel Hs _ _ _ _. destruct (scan_item s Hs) as (it & p & _ & _ & _ & (o & -> & _) & _). by eexists.
Qed.

Lemma scan_of_rows T it p s : scan_of b (it, p) s → scan_rows T s = asked_rows T it p.
Proof. intros (Et & Ep & _ & _). unfold scan_rows, asked_rows, scan_rows. cbn in *. by rewrite Et, Ep. Qed.

(** The plan asks for the rows of the request. *)
Lemma holds_rows T t o j : get_index ts t = Ok o → plan_rows T b o j ↔ item_rows T ts items t j.
Proof.
  intros Eo. pose proof (hd_tables _ _ _ Hh) as Ht. unfold plan_rows, item_rows. rewrite Ht. split.
  - intros [(s & Hs & Hso & Hj)|(r & rel & Hr & Hro & Hj)].
    + destruct (scan_item s Hs) as (it & p & Hip & Hsc). exists it, p. split; [by apply elem_compiled|]. left. split; [|by rewrite <-(scan_of_rows T it p s)].
      destruct Hsc as (_ & _ & (o' & Eo' & Ho') & _). cbn [fst] in *. rewrite Ht in Ho'. rewrite Hso in Eo'. simplify_eq. apply get_index_Ok in Eo, Ho'; [|done..]. congruence.
    + apply rel_rows_point in Hj as (i & Hin & Hj). apply elem_rel_input in Hin as (s & Hs & Hrs & Hz). destruct (scan_item s Hs) as (it & p & Hip & Hsc).
      destruct (scan_relation it p s r Hsc Hrs) as (st & Hst & E). rewrite Hr in E. injection E as ->. exists it, p. split; [by apply elem_compiled|]. right. exists st.
      split; [done|]. split; [apply get_index_Ok in Eo, Hro; [congruence|done..]|]. eapply rel_rows_mono; [|exact Hj]. rewrite (scan_of_rows T it p s Hsc) in Hz. set_solver.
  - intros (it & p & Hip%elem_compiled & [[Hit Hj]|(st & Hst & Hot & Hj)]); destruct (item_scan it p Hip) as (s & Hs & Hsc).
    + left. exists s. split; [done|]. split; [|by rewrite (scan_of_rows T it p s)]. destruct Hsc as (_ & _ & (o' & -> & Ho') & _). cbn [fst] in *. rewrite Ht, Hit in Ho'. congruence.
    + right. destruct (item_relation it p s st Hsc Hst) as (r & Hr & E). exists r, (step_rel ts (item_table it) st). split; [done|]. split; [by rewrite Hot|].
      eapply rel_rows_mono; [|exact Hj]. intros z Hz. apply elem_rel_input. exists s. split; [done|]. split; [done|]. by rewrite (scan_of_rows T it p s).
Qed.
End holds.

(** The tables hold what an item asks for. *)
Definition asked_ok (T : gmap Name RecordBatch) (ts : TableSet) (it : Item) (p : option RowPredicate) : Prop :=
  scan_pred_ok T (mkPlanScan (item_table it) p [] None) ∧ ∀ st, st ∈ item_relations it → rel_ok T (step_rel ts (item_table it) st).

(** *** Items and requests *)

Section means.
Context {QD : QueryDeps}.

Lemma elem_asked_rows T it p z : z ∈ asked_rows T it p ↔
  ∃ full i, T !! item_table it = Some full ∧ z = Z.of_nat i ∧ (i < rb_num_rows full)%nat ∧ picked p full i = true.
Proof.
  unfold asked_rows, scan_rows. cbn [ps_table ps_predicate]. destruct (T !! item_table it) as [full|]; [|split; [set_solver|by intros (? & ? & ? & _)]].
  rewrite elem_of_list_to_set, list_elem_of_fmap. unfold picked_rows. cbn [rows_of]. setoid_rewrite list_elem_of_filter. setoid_rewrite elem_of_seq. split.
  - intros (i & -> & Hp & Hi). exists full, i. split; [done|]. split; [done|]. split; [lia|done].
  - intros (f & i & [= <-] & -> & Hi & Hp). exists i. split; [done|]. split; [done|]. lia.
Qed.

(** The rows an item selects are those its request asks for; a builder that was marked as never
    selects nothing, and its request asks for nothing. *)
Lemma item_asks_for T ts items it a i : (∀ name full, T !! name = Some full → batch_ok full) → item_means it a → it ∈ items →
  (∀ p, asks items it p → asked_ok T ts it p) → (∃ p, asks items it p ∧ Z.of_nat i ∈ asked_rows T it p) ↔ asks_for T a i.
Proof.
  intros HT (Et & _ & pb & Epb & Hc) Hit Hok. unfold asks_for. rewrite <-Et.
  assert (∀ full, T !! item_table it = Some full → is_never pb = false → picked (pb_build pb) full i = true ↔ Forall (λ f, f full i) (asked_filters a)) as Hpick.
  { intros full Hf Hn. destruct (Hok (pb_build pb)) as [(full' & Hf' & Hp & _) _]; [by split; [|exists pb]|]. cbn [ps_table ps_predicate] in *. rewrite Hf in Hf'. injection Hf' as <-.
    destruct (chain_spec _ _ _ full Hc (HT _ _ Hf)) as [_ Hw]. destruct (Hw (pb_build_fits _ _ Hp)) as [_ Hi]. specialize (Hi i). unfold pb_wants in Hi. cbn in Hi.
    rewrite pb_build_picks. rewrite Forall_nil in Hi. tauto. }
  split.
  - intros (p & (_ & pb' & Epb' & Hn & ->) & (full & i' & Hf & Hz & Hi & Hp)%elem_asked_rows). rewrite Epb in Epb'. injection Epb' as <-. apply Nat2Z.inj in Hz as <-.
    exists full. split; [done|]. split; [done|]. by apply Hpick.
  - intros (full & Hf & Hi & Hp). assert (is_never pb = false) as Hn.
    { destruct (is_never pb) eqn:En; [|done]. destruct (chain_spec _ _ _ full Hc (HT _ _ Hf)) as [Hnv _]. destruct (Hnv En) as [?|Hno]; [done|].
      by destruct (Hno i). }
    exists (pb_build pb). split; [by split; [|exists pb]|]. apply elem_asked_rows. exists full, i. do 3 (split; [done|]). by apply Hpick.
Qed.

Lemma item_query_rows T ts items asked t j : (∀ name full, T !! name = Some full → batch_ok full) → Forall2 item_means items asked →
  (∀ it p, asks items it p → asked_ok T ts it p) → item_rows T ts items t j ↔ query_rows T ts asked t j.
Proof.
  intros HT Hm Hok. unfold item_rows, query_rows. split.
  - intros (it & p & Hp & Hrow). pose proof Hp as [Hit _]. apply list_elem_of_lookup in Hit as [k Hk]. destruct (Forall2_lookup_l _ _ _ _ _ Hm Hk) as (a & Ha & Hia).
    pose proof (item_asks_for T ts items it a) as Hia'. pose proof Hia as (Et & Er & _). pose proof (list_elem_of_lookup_2 _ _ _ Hk) as Hit. rewrite <-?Et, <-?Er in *.
    destruct Hrow as [[Ht Hj]|(s & Hs & Ho & (i & Hi & Hj)%rel_rows_point)]; exists a.
    + exists j. split; [by eapply list_elem_of_lookup_2|]. split; [apply Hia'; eauto|]. left. by rewrite <-Et.
    + exists i. split; [by eapply list_elem_of_lookup_2|]. split; [apply Hia'; eauto|]. right. exists s. by rewrite <-Et, <-Er.
  - intros (a & i & Ha & Hi & Hrow). apply list_elem_of_lookup in Ha as [k Hk]. destruct (Forall2_lookup_r _ _ _ _ _ Hm Hk) as (it & Hit & Hia).
    apply (item_asks_for T ts items it a) in Hi as (p & Hp & Hi); [|done|done|by eapply list_elem_of_lookup_2|eauto]. destruct Hia as (Et & Er & _). exists it, p. split; [done|].
    rewrite <-Et, <-Er in Hrow. destruct Hrow as [[Ht ->]|(s & Hs & Ho & Hj)]; [by left|]. right. exists s. do 2 (split; [done|]). eapply rel_rows_mono; [|exact Hj]. set_solver.
Qed.
End means.

Section execute.
Context {PL : Polars} {PLL : PolarsLaws}.

Lemma compile_plan_rows q T chunk ts ps items : NoDup (names ts) → Forall (λ t, t ∈ names ts) ps.*1 → Forall (item_ok ts) items →
  chunk_ok chunk T → (∀ name full, T !! name = Some full → name ∈ names ts) → integrity T ts → (∀ it p, asks items it p → asked_ok T ts it p) →
  ∃ p outs, compile_plan q ts ps items = Ok p ∧ plan_select p chunk = Ok outs ∧ length outs = length ts ∧
    ∀ t o z, get_index ts t = Ok o → listed outs o z ↔ ∃ j, z = Z.of_nat j ∧ item_rows T ts items t j.
Proof.
  intros Hn Hp Hi Hc HT Hint Hask. destruct (compile_builder_holds q ts ps items Hn Hp Hi) as (b & Eb & Hh). destruct (holds_wf ts items b Hn Hi Hh) as [Hw Htree].
  pose proof (hd_tables _ _ _ Hh) as Ht. destruct (plan_execution_spec T chunk b) as (p & outs & Ep & Es & Hl & Hrows).
  - done.
  - split; [done|by rewrite Ht| |].
    + intros s Hs. destruct (scan_item ts items b Hh s Hs) as (it & pr & Hip & Hsc). destruct (Hask it pr) as [Hok _]; [by apply elem_compiled|].
      destruct Hsc as (Et & Epr & _). unfold scan_pred_ok in *. cbn in *. by rewrite Et, Epr.
    + intros rel Hrel. destruct (hd_relations _ _ _ Hh rel Hrel) as ([it pr] & st & Hip & Hst & ->). destruct (Hask it pr) as [_ Hok]; [by apply elem_compiled|]. by apply Hok.
  - by rewrite Ht.
  - done.
  - exists p, outs. unfold compile_plan. rewrite Eb. cbn [mbind res_bind]. split; [done|]. split; [done|]. split.
    + rewrite Hl. pose proof (f_equal length (hd_outputs _ _ _ Hh)) as E. unfold names in E. by rewrite !length_fmap in E.
    + intros t o z Ho. rewrite Hrows. setoid_rewrite (holds_rows ts items b Hn Hi Hh T t); done.
Qed.
End execute.

(** ** The blocks a plan is about *)

Definition plan_blocks (b : PlanBuilder) : bool * option string * option Z * option Z :=
  (include_all_blocks b, parent_block_hash b, first_block b, last_block b).
Definition keeps_blocks (b : PlanBuilder) (r : res PlanBuilder) : Prop := ∀ b', r = Ok b' → plan_blocks b' = plan_blocks b.

Lemma fold_res_keeps {A B C} (P : A → C) (f : A → B → res A) l : (∀ a x a', f a x = Ok a' → P a' = P a) → ∀ a a', fold_res f l a = Ok a' → P a' = P a.
Proof.
  intros Hf. induction l as [|x l IH]; intros a a' E; cbn [fold_res] in E; [by injection E as <-|].
  inv_res E. erewrite IH, Hf; done.
Qed.

Lemma set_projection_blocks b t e : keeps_blocks b (set_projection b t e).
Proof. intros b' E. unfold set_projection in E. by inv_res E. Qed.

Lemma scan_mut_blocks sb f sb' : scan_mut sb f = Ok sb' → plan_blocks sb'.1 = plan_blocks sb.1.
Proof. intros E. unfold scan_mut in E. by inv_res E. Qed.

Lemma push_rel_blocks sb rel sb' : push_rel sb rel = Ok sb' → plan_blocks sb'.1 = plan_blocks sb.1.
Proof. intros E. unfold push_rel in E. apply scan_mut_blocks in E. rewrite E. cbn [fst]. unfold add_rel. by destruct (list_find _ _) as [[? ?]|]. Qed.

Lemma apply_step_blocks sb st sb' : apply_step sb st = Ok sb' → plan_blocks sb'.1 = plan_blocks sb.1.
Proof.
  destruct st; intros E; cbn [apply_step] in E; unfold scan_join, include_children, include_parents, include_foreign_children, include_foreign_parents in E;
    inv_res E; eapply push_rel_blocks; eassumption.
Qed.

Lemma compile_item_blocks b it : keeps_blocks b (compile_item b it).
Proof.
  intros b' E. unfold compile_item in E. apply bind_Ok in E as (p & _ & E). destruct (is_never p); [by injection E as <-|].
  apply bind_Ok in E as (sb & Es & E). apply bind_Ok in E as (sb1 & Ep & E). apply bind_Ok in E as (sb2 & Ef & E). injection E as <-.
  rewrite (fold_res_keeps (λ sb, plan_blocks sb.1) _ _ apply_step_blocks _ _ Ef).
  transitivity (plan_blocks sb.1); [|unfold add_scan in Es; by inv_res Es].
  destruct (pb_build p); [by eapply scan_mut_blocks|by injection Ep as <-].
Qed.

Lemma compile_builder_blocks q ts ps items b : compile_builder q ts ps items = Ok b →
  plan_blocks b = (qb_include_all_blocks q, qb_parent_block_hash q, Some (qb_from_block q), qb_to_block q).
Proof.
  intros E. unfold compile_builder in E. apply bind_Ok in E as (b1 & E1 & E). rewrite (fold_res_keeps plan_blocks _ _ compile_item_blocks _ _ E).
  by rewrite (fold_res_keeps plan_blocks _ _ (λ b oe b', set_projection_blocks b oe.1 oe.2 b') _ _ E1).
Qed.

Lemma simplify_blocks b : keeps_blocks b (simplify b).
Proof.
  intros b' E. unfold simplify in E. destruct (forallb _ _); [by injection E as <-|]. apply bind_Ok in E as ([F R] & _ & E).
  apply bind_Ok in E as (m & _ & E). apply bind_Ok in E as (R' & _ & E). apply bind_Ok in E as (b1 & Er & E). unfold remove_relations in Er. inv_res Er. by inv_res E.
Qed.

Lemma plan_build_blocks b : keeps_blocks b (plan_build b).
Proof.
  intros p E. unfold plan_build in E. apply bind_Ok in E as (b' & Es & E). rewrite <-(simplify_blocks b b' Es). unfold set_output_weights in E. by inv_res E.
Qed.

Lemma compile_plan_wf q ts ps items : NoDup (names ts) → Forall (λ t, t ∈ names ts) ps.*1 → Forall (item_ok ts) items →
  ∃ p, compile_plan q ts ps items = Ok p ∧ plan_wf p ∧ plan_tables p = ts ∧
    plan_blocks p = (qb_include_all_blocks q, qb_parent_block_hash q, Some (qb_from_block q), qb_to_block q).
Proof.
  intros Hn Hp Hi. destruct (compile_builder_holds q ts ps items Hn Hp Hi) as (b & Eb & Hh). destruct (holds_wf ts items b Hn Hi Hh) as [Hw _].
  unfold compile_plan. rewrite Eb. cbn [mbind res_bind]. destruct (plan_build_wf b Hw) as (p & E & Hwp & Et). exists p. rewrite Et. split; [done|]. split; [done|].
  split; [apply Hh|]. by rewrite (plan_build_blocks b p E), (compile_builder_blocks q ts ps items b Eb).
Qed.

(** ** The networks *)

Section networks.
Context {QD : QueryDeps}.

Definition query_tables (q : Query) : res TableSet :=
  match q with
  | Bitcoin _ => bitcoin_TABLES
  | Eth _ => eth_TABLES
  | Solana _ => solana_TABLES
  | Substrate _ => substrate_TABLES
  | Fuel _ => fuel_TABLES
  | HyperliquidFills _ => fills_TABLES
  | HyperliquidReplicaCmds _ => replica_TABLES
  | Tron _ => tron_TABLES
  end.
Definition query_projections (q : Query) : list (Name * Exp) :=
  match q with
  | Bitcoin q => bitcoin_projections q
  | Eth q => eth_projections q
  | Solana q => solana_projections q
  | Substrate q => substrate_projections q
  | Fuel q => fuel_projections q
  | HyperliquidFills q => fills_projections q
  | HyperliquidReplicaCmds q => replica_projections q
  | Tron q => tron_projections q
  end.
Lemma query_compile_eq q : query_compile q = (ts ← query_tables q; compile_plan (query_base q) ts (query_projections q) (query_items q)).
Proof.
  destruct q; cbn [query_compile query_tables query_base query_projections query_items];
    unfold bitcoin_compile, eth_compile, solana_compile, substrate_compile, fuel_compile, fills_compile, replica_compile, tron_compile; reflexivity.
Qed.

Lemma step_if_ok ts t flag s : step_ok ts t s → Forall (step_ok ts t) (step_if flag s).
Proof. intros Hs. destruct flag; cbn; [by constructor|constructor]. Qed.

(** Tables by name, and the checks that depend on the names only. *)
Ltac known_table := by apply (bool_decide_unpack _); vm_compute.
Ltac known_steps Hn :=
  repeat (apply Forall_app; split); try apply List.Forall_nil;
  try (apply step_if_ok; unfold step_ok; cbn [step_rel output_table]; rewrite Hn; known_table).
Ltac known_item Hn :=
  split; cbn [item_table item_predicate item_relations compose]; [rewrite Hn; known_table|try (eexists; reflexivity)|unfold compose; known_steps Hn].
Ltac known_items Hn := repeat (apply Forall_app; split); apply Forall_fmap, Forall_forall; intros r _; known_item Hn.

(** The tables, projections and items of a network fit together. *)
Definition network_ok (ts : TableSet) (ps : list (Name * Exp)) (items : list Item) : Prop :=
  NoDup (names ts) ∧ Forall (λ t, t ∈ names ts) ps.*1 ∧ Forall (item_ok ts) items.
Ltac known_network Hn := split; [rewrite Hn; known_table|]; split; [rewrite Hn; repeat constructor; known_table|].

Lemma bitcoin_ok q ts : bitcoin_TABLES = Ok ts → network_ok ts (bitcoin_projections q) (bitcoin_items q).
Proof.
  intros E. assert (names ts = ["blocks"; "transactions"; "inputs"; "outputs"]) as Hn by (vm_compute in E; injection E as <-; done).
  known_network Hn. unfold bitcoin_items. known_items Hn.
Qed.
Lemma eth_ok q ts : eth_TABLES = Ok ts → network_ok ts (eth_projections q) (eth_items q).
Proof.
  intros E. assert (names ts = ["blocks"; "transactions"; "logs"; "traces"; "statediffs"]) as Hn by (vm_compute in E; injection E as <-; done).
  known_network Hn. unfold eth_items. known_items Hn.
Qed.
Lemma tron_ok q ts : tron_TABLES = Ok ts → network_ok ts (tron_projections q) (tron_items q).
Proof.
  intros E. assert (names ts = ["blocks"; "transactions"; "logs"; "internal_transactions"]) as Hn by (vm_compute in E; injection E as <-; done).
  known_network Hn. unfold tron_items. known_items Hn.
Qed.
Lemma substrate_ok q ts : substrate_TABLES = Ok ts → network_ok ts (substrate_projections q) (substrate_items q).
Proof.
  intros E. assert (names ts = ["blocks"; "events"; "calls"; "extrinsics"]) as Hn by (vm_compute in E; injection E as <-; done).
  known_network Hn. unfold substrate_items. known_items Hn.
Qed.
Lemma fuel_ok q ts : fuel_TABLES = Ok ts → network_ok ts (fuel_projections q) (fuel_items q).
Proof.
  intros E. assert (names ts = ["blocks"; "transactions"; "receipts"; "inputs"; "outputs"]) as Hn by (vm_compute in E; injection E as <-; done).
  known_network Hn. unfold fuel_items. known_items Hn.
Qed.
Lemma fills_ok q ts : fills_TABLES = Ok ts → network_ok ts (fills_projections q) (fills_items q).
Proof.
  intros E. assert (names ts = ["blocks"; "fills"]) as Hn by (vm_compute in E; injection E as <-; done).
  known_network Hn. unfold fills_items. known_items Hn.
Qed.
Lemma replica_ok q ts : replica_TABLES = Ok ts → network_ok ts (replica_projections q) (replica_items q).
Proof.
  intros E. assert (names ts = ["blocks"; "actions"]) as Hn by (vm_compute in E; injection E as <-; done).
  known_network Hn. unfold replica_items. known_items Hn.
Qed.
Lemma solana_ok q ts : solana_TABLES = Ok ts → network_ok ts (solana_projections q) (solana_items q).
Proof.
  intros E. assert (names ts = ["blocks"; "transactions"; "instructions"; "logs"; "balances"; "token_balances"; "rewards"]) as Hn by (vm_compute in E; injection E as <-; done).
  known_network Hn. unfold solana_items. known_items Hn.
  - unfold solana_transaction_predicate. destruct (bloom_filter_total "accounts_bloom" 64 7 (solana_transaction_mentions_account r) (pb_strings "fee_payer" (solana_transaction_fee_payer r) pb_new))
      as (p' & ->); [lia|]. by eexists.
  - unfold solana_instruction_predicate. cbv zeta. match goal with |- context [pb_bloom_filter ?a ?b ?c ?d ?e] => destruct (bloom_filter_total a b c d e) as (p' & ->); [lia|] end. by eexists.
Qed.

Lemma query_ok q : ∃ ts, query_tables q = Ok ts ∧ network_ok ts (query_projections q) (query_items q).
Proof.
  destruct q; cbn [query_tables query_projections query_items].
  - destruct bitcoin_TABLES as [ts| |] eqn:E; [exists ts; split; [done|by apply bitcoin_ok]|vm_compute in E; done..].
  - destruct eth_TABLES as [ts| |] eqn:E; [exists ts; split; [done|by apply eth_ok]|vm_compute in E; done..].
  - destruct solana_TABLES as [ts| |] eqn:E; [exists ts; split; [done|by apply solana_ok]|vm_compute in E; done..].
  - destruct substrate_TABLES as [ts| |] eqn:E; [exists ts; split; [done|by apply substrate_ok]|vm_compute in E; done..].
  - destruct fuel_TABLES as [ts| |] eqn:E; [exists ts; split; [done|by apply fuel_ok]|vm_compute in E; done..].
  - destruct fills_TABLES as [ts| |] eqn:E; [exists ts; split; [done|by apply fills_ok]|vm_compute in E; done..].
  - destruct replica_TABLES as [ts| |] eqn:E; [exists ts; split; [done|by apply replica_ok]|vm_compute in E; done..].
  - destruct tron_TABLES as [ts| |] eqn:E; [exists ts; split; [done|by apply tron_ok]|vm_compute in E; done..].
Qed.

Lemma query_compile_spec (q : Query) : ∃ ts p, query_tables q = Ok ts ∧ query_compile q = Ok p ∧ plan_wf p ∧ plan_tables p = ts ∧
  include_all_blocks p = qb_include_all_blocks (query_base q) ∧ parent_block_hash p = query_parent_block_hash q ∧
  first_block p = Some (query_first_block q) ∧ last_block p = query_last_block q.
Proof.
  destruct (query_ok q) as (ts & Et & Hn & Hp & Hi). destruct (compile_plan_wf (query_base q) ts (query_projections q) (query_items q) Hn Hp Hi) as (p & E & Hw & Ht & Hb).
  exists ts, p. split; [done|]. split; [rewrite query_compile_eq, Et; exact E|]. injection Hb as -> -> -> ->. done.
Qed.

(** C38: Every request of every network, whatever its fields, filters and flags, compiles
    without a panic to a well-formed plan over the tables of its network: outputs match
    tables, every scan and relation names a known table, and every scan feeds only relations
    that start at its table; and the plan is about the blocks the request names. *)
Theorem query_compile_typed (q : Query) : ∃ ts p, query_tables q = Ok ts ∧ query_compile q = Ok p ∧ plan_wf p ∧ plan_tables p = ts ∧
  include_all_blocks p = qb_include_all_blocks (query_base q) ∧ parent_block_hash p = query_parent_block_hash q ∧
  first_block p = Some (query_first_block q) ∧ last_block p = query_last_block q.
Proof. apply query_compile_spec. Qed.

(** C37: A compiled request, executed on a chunk, returns, and lists for every table exactly the
    rows the request asks for: those of an item's table that satisfy every filter its fields
    give ([query_asked]: a column holds one of the listed values, a list column has one, a bound
    is kept, a bloom filter contains a listed account, the data starts with a listed
    discriminator), and those its relations reach from them.  An empty list of values asks for
    nothing, a field that is not given filters nothing.  The chunk has the tables of the
    request, with the columns its filters read in a type the values compare with and the key
    columns of its relations ([asked_ok]), and the child tables of every table refer to its rows
    ([integrity]).  [asked_ok] leaves out the requests that name columns the tables do not have:
    the relations of Fuel transactions and the asset and cloid filters of Hyperliquid
    cancel-by-cloid requests. *)
Theorem query_rows_exact {PL : Polars} {PLL : PolarsLaws} (q : Query) T chunk ts :
  query_tables q = Ok ts → chunk_ok chunk T → (∀ name full, T !! name = Some full → name ∈ names ts) → integrity T ts →
  (∀ it p, asks (query_items q) it p → asked_ok T ts it p) →
  ∃ p outs, query_compile q = Ok p ∧ plan_select p chunk = Ok outs ∧ length outs = length ts ∧
    ∀ t o z, get_index ts t = Ok o → listed outs o z ↔ ∃ j, z = Z.of_nat j ∧ query_rows T ts (query_asked q) t j.
Proof.
  intros Et Hc HT Hint Hask. destruct (query_ok q) as (ts' & Et' & Hn & Hp & Hi). rewrite Et in Et'. injection Et' as <-.
  destruct (compile_plan_rows (query_base q) T chunk ts (query_projections q) (query_items q) Hn Hp Hi Hc HT Hint Hask) as (p & outs & E & Es & Hl & Hrows).
  exists p, outs. split; [rewrite query_compile_eq, Et; exact E|]. do 2 (split; [done|]). intros t o z Ho. rewrite (Hrows t o z Ho).
  setoid_rewrite (item_query_rows T ts (query_items q) (query_asked q)); [done|intros name full Hf|apply query_means|done].
  destruct (Hc name full Hf) as (s & _ & [[Hb _] _ _ _ _]). exact Hb.
Qed.
End networks.

(** ** A request *)

Module RequestExamples.
Import PlainCompute PlainBatches PlainFrames PlainBlocks.

(** Decodes nothing and hashes everything alike. *)
#[export] Instance example_deps : QueryDeps := {
  camel_strify name := name;
  hex_check s := false;
  hex_decode s n := None;
  xxh3_str seed s := seed
}.

Definition no_fields : selection := λ _, false.
(** All transactions with their inputs, and the coinbase inputs with their transactions. *)
Definition example_query : BitcoinQuery :=
  mkBitcoinQuery (mkBase 1 None None false) (mkBitcoinFieldSelection no_fields no_fields no_fields no_fields)
    [mkBitcoinTransactionRequest true false]
    [mkBitcoinInputRequest (Some ["coinbase"]) None None None true false false] [].

Definition tx_key : list Name := ["block_number"; "transaction_index"].
Definition transactions_batch : RecordBatch :=
  mkBatch [("block_number", mkArray DUInt64 (ints [1; 2])); ("transaction_index", mkArray DUInt32 (ints [0; 0]))] 2.
Definition inputs_batch : RecordBatch :=
  mkBatch [("block_number", mkArray DUInt64 (ints [1; 2])); ("transaction_index", mkArray DUInt32 (ints [0; 0]));
           ("input_index", mkArray DUInt32 (ints [0; 0])); ("type", mkArray DUtf8 [Some (CStr "coinbase"); Some (CStr "tx")])] 2.
Definition bitcoin_tables : gmap Name RecordBatch := <["transactions" := transactions_batch]> {["inputs" := inputs_batch]}.
Definition bitcoin_ts : TableSet :=
  [mkTable "blocks" ["number"] ∅ ∅ "blocks" ∅;
   mkTable "transactions" tx_key ∅ ∅ "transactions" (<["outputs" := tx_key]> {["inputs" := tx_key]});
   mkTable "inputs" ["block_number"; "transaction_index"; "input_index"] ∅ ∅ "inputs" ∅;
   mkTable "outputs" ["block_number"; "transaction_index"; "output_index"] ∅ ∅ "outputs" ∅].

Lemma bitcoin_tables_cases name full : bitcoin_tables !! name = Some full → (name = "transactions" ∧ full = transactions_batch) ∨ (name = "inputs" ∧ full = inputs_batch).
Proof. unfold bitcoin_tables. rewrite lookup_insert_Some, lookup_singleton_Some. naive_solver. Qed.

Lemma bitcoin_chunk_ok : chunk_ok (plain_chunk bitcoin_tables) bitcoin_tables.
Proof.
  apply plain_chunk_ok. intros name full [[-> ->]|[-> ->]]%bitcoin_tables_cases; (split; [|split; [cbn; lia|by apply (bool_decide_unpack _)]]);
    repeat constructor; cbn; unfold int_min, int_max; lia.
Qed.

Lemma bitcoin_integrity : integrity bitcoin_tables bitcoin_ts.
Proof.
  intros t child key fc Ht Hc Hf. unfold bitcoin_ts in Ht. rewrite !elem_of_cons in Ht. destruct Ht as [->|[->|[->|[->|?%elem_of_nil]]]]; [| | | |done]; cbn [table_children] in Hc;
    [by rewrite lookup_empty in Hc| |by rewrite lookup_empty in Hc..].
  apply lookup_insert_Some in Hc as [[<- _]|[_ [<- <-]%lookup_singleton_Some]]; apply bitcoin_tables_cases in Hf as [[? _]|[? ->]]; try done.
  exists transactions_batch. split; [done|]. intros j Hj. cbn in Hj. exists j. split; [done|]. by destruct j as [|[|j]]; [..|lia].
Qed.

Lemma bitcoin_items_ok it p : asks (bitcoin_items example_query) it p → asked_ok bitcoin_tables bitcoin_ts it p.
Proof.
  intros (Hit & pb & Epb & _ & ->). cbn in Hit. rewrite !elem_of_cons in Hit.
  assert (∀ a b, (a = "transactions" ∧ b = "inputs") ∨ (a = "inputs" ∧ b = "transactions") → rel_ok bitcoin_tables (Join a tx_key b tx_key)) as Hrel.
  { intros a b [[-> ->]|[-> ->]]; do 2 eexists; (split; [done|]); (split; [done|]); (split; [repeat constructor; by eexists|]); (split; [repeat constructor; by eexists|done]). }
  destruct Hit as [->|[->|?%elem_of_nil]]; [| |done]; injection Epb as <-; split.
  - exists transactions_batch. split; [done|]. split; [done|]. by intros [? ?].
  - intros st Hst. cbn in Hst. apply list_elem_of_singleton in Hst as ->. apply Hrel. by left.
  - exists inputs_batch. split; [done|]. split; [|by vm_compute]. split; [|done]. eexists. split; [done|].
    cbn. unfold scalar_fits, scalar_ok. cbn. split; [done|split; [done|by left]].
  - intros st Hst. cbn in Hst. apply list_elem_of_singleton in Hst as ->. apply Hrel. by right.
Qed.

Lemma query_rows_exact_witness :
  ∃ p outs, query_compile (Bitcoin example_query) = Ok p ∧ plan_select p (plain_chunk bitcoin_tables) = Ok outs ∧ length outs = 4%nat ∧
    ∀ t o z, get_index bitcoin_ts t = Ok o → listed outs o z ↔ ∃ j, z = Z.of_nat j ∧ query_rows bitcoin_tables bitcoin_ts (bitcoin_asked example_query) t j.
Proof.
  apply (query_rows_exact (Bitcoin example_query) bitcoin_tables (plain_chunk bitcoin_tables) bitcoin_ts).
  - by vm_compute.
  - apply bitcoin_chunk_ok.
  - intros name full [[-> _]|[-> _]]%bitcoin_tables_cases; by apply (bool_decide_unpack _).
  - apply bitcoin_integrity.
  - apply bitcoin_items_ok.
Defined.

(** The limit of 100 items counts only the plain actions of a Hyperliquid request. *)
Lemma replica_items_unlimited (n : nat) : ∃ q, length (query_items (HyperliquidReplicaCmds q)) = n ∧ query_validate (HyperliquidReplicaCmds q) = Ok tt.
Proof.
  exists (mkHyperliquidReplicaCmdsQuery (mkBase 0 None None false) (mkReplicaFieldSelection no_fields no_fields) []
    (replicate n (mkReplicaOrderActionRequest None None None None None)) [] [] []).
  split; [|done]. cbn [query_items]. unfold replica_items. rewrite !length_app, !length_fmap. cbn. rewrite length_replicate. lia.
Qed.
End RequestExamples.
