(* ===== verification/QueryRun.v ===== *)
(** * Serving queries (crates/hotblocks/src/query)

    A query runs over a snapshot of the database: running.rs goes through the chunks from the
    first block of the query, executes its plan on one after another and writes the blocks into
    a compressed buffer; response.rs cuts the run into tasks and hands out the buffer as packs;
    api.rs turns the packs into the body of a response; executor.rs and service.rs limit the
    tasks and the waiting queries.  Clocks and slots are inputs. *)
From stdpp Require Import gmap.
From S2P Require Import WriteController.
From S2P Require Import Prelude Bytes Ranges QueryStack QueryArrow QueryPred QueryRel QueryPlan QueryOutput QueryJson QueryRequests.
From S2P Require Import Data Kv ChunkIter Tables Chain Tx Concrete TxSpec UpdateSpec Retry Cleanup Db.

(** ** Errors (errors.rs) *)

Inductive query_error : Type :=
| QErr (e : error)
| UnsupportedQuery (query_kind : string)
| QueryKindMismatch (query_kind dataset_kind : DatasetKind)
| QueryIsAboveTheHead (finalized_head : option BlockRef)
| BlockRangeMissing (first_block last_block : Z)
| QUnexpectedBaseBlock (e : UnexpectedBaseBlock)
| BlockItemIsNotAvailable (first_block last_block : Z)
| Busy
| QueryTaskPanicked.

(** A result with these errors. *)
Inductive outcome (A : Type) : Type :=
| Done (a : A)
| Failed (e : query_error)
| Panicked (m : string).
Arguments Done {A} a.
Arguments Failed {A} e.
Arguments Panicked {A} m.

#[export] Instance outcome_bind : MBind outcome := λ A B f o, match o with Done a => f a | Failed e => Failed e | Panicked m => Panicked m end.
Definition lift {A} (r : res A) : outcome A := match r with Ok a => Done a | Err e => Failed (QErr e) | Panic m => Panicked m end.
Definition qensure (b : bool) (e : query_error) : outcome unit := if b then Done tt else Failed e.

(** ** Kinds of datasets (types.rs) *)

#[export] Instance dataset_kind_eq_dec : EqDecision dataset_kind.
Proof. solve_decision. Defined.

Definition from_query (q : Query) : outcome dataset_kind :=
  match q with
  | Eth _ => Done WriteController.Evm
  | Solana _ => Done WriteController.Solana
  | Bitcoin _ => Done WriteController.Bitcoin
  | HyperliquidFills _ => Done WriteController.HyperliquidFills
  | HyperliquidReplicaCmds _ => Done WriteController.HyperliquidReplicaCmds
  | Tron _ => Done WriteController.Tron
  | Substrate _ => Failed (UnsupportedQuery "substrate")
  | Fuel _ => Failed (UnsupportedQuery "fuel")
  end.

(** ** The compressor *)

Inductive ContentEncoding : Type := Gzip | Zstd.

(** The encoders of flate2 and zstd over a growing buffer. *)
Class Compressors (K : Type) : Type := {
  compressor_new : ContentEncoding → res K;
  compressor_write : K → bytes → K;
  compressor_flush : K → K;
  compressor_buffer : K → bytes;
  (* get_mut().split() *)
  compressor_split : K → K;
  compressor_finish : K → bytes
}.

(** [BlockWriter::last_block] (query/src/plan/result.rs) *)
Definition writer_last_block (items : list DataItem) : res Z :=
  d ← slice_get items 0;
  n ← num_blocks items;
  b ← (match n with O => Ok None | S n => get_block_at d n end);
  match b with Some b => Ok b | None => Panic "called `Option::unwrap()` on a `None` value" end.

(** ** Data items of a plan (query/src/plan/result.rs, plan.rs) *)

(** The arrow array of a column, the memory of a batch and arrow's cast to UInt64. *)
Class Encoders : Type := {
  json_texts :: JsonTexts;
  arrow_column : array → jarray;
  memory_size : RecordBatch → Z;
  cast_u64 : array → res (list Z)
}.

Section items.
Context {EN : Encoders}.

(** [StructArray::from(batch)] *)
Definition struct_array (b : RecordBatch) : jarray := JStructs None ((λ c : Name * array, (c.1, arrow_column c.2)) <$> rb_columns b).

Definition data_item_new (name : Name) (key : list Name) (records : list RecordBatch) (exp : Exp) : res DataItem :=
  block_number_column ← slice_get key 0;
  block_numbers ← collect ((λ b, column ← ok_or (column_by_name b block_number_column) (EMsg "key column is not present in output"); cast_u64 column) <$> records);
  order ← compute_order records key;
  encoders ← collect ((λ b, exp_eval exp (struct_array b)) <$> records);
  Ok (mkDataItem (object_prop name) block_numbers encoders order (foldr Z.add 0 (memory_size <$> records)) 0 (length key =? 1)%nat).

(** The writer of the outputs that have rows. *)
Definition plan_writer (p : Plan) (records : list (option (list RecordBatch))) : res (list DataItem) :=
  items ← collect (omap (λ or : Output * option (list RecordBatch),
    bs ← or.2; Some (data_item_new (item_name or.1) (out_key or.1) bs (out_exp or.1))) (zip (plan_outputs p) records));
  block_writer_new items.
End items.

(** ** Running queries (running.rs) *)

Record LeftOver : Type := mkLeftOver { lo_chunk : Chunk; lo_next_block : Z }.
Record RunningQueryStats : Type := mkStats { chunks_read : Z; blocks_read : Z; chunks_returned : Z; blocks_returned : Z }.

(** What [plan.execute] gives on the reader of a chunk. *)
Class Execution : Type := { execute : Plan → Chunk → outcome (option (list DataItem)) }.

(** The execution of plan.rs over the readers [open] gives for the chunks. *)
Definition plan_execution {PL : Polars} {PB : PolarsBlocks} {EN : Encoders} (open : Chunk → QueryRel.Chunk) : Execution := {|
  execute p c :=
    x ← lift (plan_execute p (open c));
    match x with
    | QueryOutput.Mismatch e => Failed (QUnexpectedBaseBlock e)
    | Records None => Done None
    | Records (Some records) => items ← lift (plan_writer p records); Done (Some items)
    end
|}.

Record RunningQuery (K : Type) : Type := mkRunning {
  rq_plan : Plan;
  rq_last_block : option Z;
  rq_left_over : option LeftOver;
  rq_next_chunk : option (res Chunk);
  (* what the chunk iterator has still to yield *)
  rq_chunk_iterator : list (res Chunk);
  rq_finalized_head : option BlockRef;
  rq_buf : K;
  rq_stats : RunningQueryStats
}.
Arguments mkRunning {K}.
Arguments rq_plan {K}.
Arguments rq_last_block {K}.
Arguments rq_left_over {K}.
Arguments rq_next_chunk {K}.
Arguments rq_chunk_iterator {K}.
Arguments rq_finalized_head {K}.
Arguments rq_buf {K}.
Arguments rq_stats {K}.

Definition finalized_query_last_block (q : Query) (finalized_head : option BlockRef) : outcome Z :=
  match finalized_head with
  | None => Failed (QueryIsAboveTheHead None)
  | Some head => Done (match query_last_block q with Some end_ => Z.min end_ (number head) | None => number head end)
  end.

(** [first_block <= end] for an optional end. *)
Definition opt_le (n : Z) (end_ : option Z) : bool := match end_ with Some e => n <=? e | None => true end.
Definition opt_lt (n : Z) (end_ : option Z) : bool := match end_ with Some e => n <? e | None => true end.

(** The stats after a chunk was taken from the iterator, counting the blocks of [chunk]. *)
Definition count_read (chunk : Chunk) (s : RunningQueryStats) : RunningQueryStats :=
  mkStats (u64_add (chunks_read s) 1) (u64_add (blocks_read s) (u64_add (u64_sub (last_block chunk) (first_block chunk)) 1)) (chunks_returned s) (blocks_returned s).
Definition count_returned (is_new_chunk : bool) (blocks : nat) (s : RunningQueryStats) : RunningQueryStats :=
  mkStats (chunks_read s) (blocks_read s) (if is_new_chunk then u64_add (chunks_returned s) 1 else chunks_returned s) (u64_add (blocks_returned s) (Z.of_nat blocks)).

Section new.
Context {M C K : Type} `{KvStore M C} `{Borsh} {QD : QueryDeps} `{Compressors K}.

(** The part of [new] that chooses the plan for the first chunk. *)
Definition first_plan (q : Query) (first_chunk : Chunk) : outcome Plan :=
  if query_first_block q =? first_block first_chunk then
    _ ← (match query_parent_block_hash q with
         | Some parent_hash => qensure (bool_decide (parent_hash = parent_block_hash first_chunk))
             (QUnexpectedBaseBlock (mkUnexpected [(saturating_sub (first_block first_chunk) 1, parent_block_hash first_chunk)] parent_hash))
         | None => Done tt
         end);
    plan ← lift (query_compile q);
    Done (set_parent_block_hash (set_first_block plan None) None)
  else lift (query_compile q).

Definition running_new (db : db M) (dataset_id : DatasetId) (q : Query) (only_finalized : bool) (encoding : ContentEncoding) : outcome (RunningQuery K) :=
  label ← lift (get_label db dataset_id);
  finalized_head ← (match label with
    | None => Failed (QErr (EMsg "dataset does not exist"))
    | Some label =>
        kind ← from_query q;
        query_kind ← lift (storage_kind kind);
        _ ← qensure (bool_decide (query_kind = label_kind label)) (QueryKindMismatch query_kind (label_kind label));
        Done (label_finalized_head label)
    end);
  let items := list_chunks (db CF_CHUNKS) dataset_id (query_first_block q) None in
  maybe ← lift (first_item items);
  match maybe with
  | None => Failed (QueryIsAboveTheHead None)
  | Some first_chunk =>
      let stats := count_read first_chunk (mkStats 0 0 0 0) in
      _ ← qensure (first_block first_chunk <=? query_first_block q) (BlockRangeMissing (query_first_block q) (u64_sub (first_block first_chunk) 1));
      plan ← first_plan q first_chunk;
      last_block ← (if only_finalized then n ← finalized_query_last_block q finalized_head; Done (Some n) else Done (query_last_block q));
      buf ← lift (compressor_new encoding);
      Done (mkRunning plan last_block None (Some (Ok first_chunk)) (tail items) finalized_head buf stats)
  end.
End new.

Section run.
Context {K : Type} `{CK : Compressors K} {EX : Execution}.
Implicit Types q : RunningQuery K.

Definition has_next_chunk q : bool := bool_decide (is_Some (rq_next_chunk q)) || bool_decide (is_Some (rq_left_over q)).
Definition buffered_bytes q : nat := length (compressor_buffer (rq_buf q)).
Definition take_buffered_bytes q : bytes * RunningQuery K :=
  (compressor_buffer (rq_buf q),
   mkRunning (rq_plan q) (rq_last_block q) (rq_left_over q) (rq_next_chunk q) (rq_chunk_iterator q) (rq_finalized_head q) (compressor_split (rq_buf q)) (rq_stats q)).
Definition running_finish q : bytes := compressor_finish (rq_buf q).
Definition take_finalized_head q : option BlockRef * RunningQuery K :=
  (rq_finalized_head q, mkRunning (rq_plan q) (rq_last_block q) (rq_left_over q) (rq_next_chunk q) (rq_chunk_iterator q) None (rq_buf q) (rq_stats q)).

(** The size of a chunk in blocks. *)
Definition chunk_size (c : Chunk) : Z := u64_add (u64_sub (last_block c) (first_block c)) 1.
Definition next_chunk_size q : Z :=
  match rq_left_over q with
  | Some lo => chunk_size (lo_chunk lo)
  | None => match rq_next_chunk q with Some (Ok c) => chunk_size c | _ => 0 end
  end.

(** [self.next_chunk.take()] and the read ahead of the next one; the mutations of [self] stay
    also when the call fails. *)
Definition running_next_chunk q : RunningQuery K * outcome Chunk :=
  let set next its stats := mkRunning (rq_plan q) (rq_last_block q) (rq_left_over q) next its (rq_finalized_head q) (rq_buf q) stats in
  match rq_next_chunk q with
  | None => (q, Failed (QErr (EMsg "no more chunks left")))
  | Some (Err e) => (set None (rq_chunk_iterator q) (rq_stats q), Failed (QErr e))
  | Some (Panic m) => (set None (rq_chunk_iterator q) (rq_stats q), Panicked m)
  | Some (Ok chunk) =>
      match rq_chunk_iterator q with
      | [] => (set None [] (rq_stats q), Done chunk)
      | Err e :: its => (set (Some (Err e)) its (rq_stats q), Done chunk)
      | Panic m :: its => (set None its (rq_stats q), Panicked m)
      | Ok next :: its =>
          let is_continuous := u64_add (last_block chunk) 1 =? first_block next in
          let is_requested := opt_le (first_block next) (rq_last_block q) in
          (set (if is_continuous && is_requested then Some (Ok next) else None) its (count_read chunk (rq_stats q)), Done chunk)
      end
  end.

(** The chunk to query next: the rest of the last one, or a new one. *)
Definition take_chunk q : RunningQuery K * outcome (Chunk * bool) :=
  match rq_left_over q with
  | Some lo =>
      (mkRunning (set_first_block (rq_plan q) (Some (lo_next_block lo))) (rq_last_block q) None (rq_next_chunk q) (rq_chunk_iterator q)
         (rq_finalized_head q) (rq_buf q) (rq_stats q), Done (lo_chunk lo, false))
  | None => let '(q, o) := running_next_chunk q in (q, chunk ← o; Done (chunk, true))
  end.

Definition map_error (chunk : Chunk) (o : outcome (option (list DataItem))) : outcome (option (list DataItem)) :=
  match o with
  | Failed (QErr e) =>
      if decide (e = EMsg "table does not exist") then Failed (BlockItemIsNotAvailable (first_block chunk) (last_block chunk)) else o
  | o => o
  end.

Definition write_all (k : K) (b : bytes) : res K := Ok (compressor_write k b).

(** Writing the result of a chunk, and what is left of the chunk. *)
Definition write_result q (chunk : Chunk) (is_new_chunk : bool) (items : list DataItem) : RunningQuery K * outcome unit :=
  let r :=
    n ← num_blocks items;
    written ← writer_last_block items;
    '(j, _) ← lines_write_blocks write_all n (writer_new (rq_buf q)) items;
    k ← lines_finish write_all j;
    Ok (n, written, compressor_flush k) in
  match r with
  | Ok (n, written, buf) =>
      let left_over := if (written <? last_block chunk) && opt_lt written (rq_last_block q) then Some (mkLeftOver chunk (u64_add written 1)) else rq_left_over q in
      (mkRunning (rq_plan q) (rq_last_block q) left_over (rq_next_chunk q) (rq_chunk_iterator q) (rq_finalized_head q) buf (count_returned is_new_chunk n (rq_stats q)), Done tt)
  | Err e => (q, Panicked "IO errors are not possible")
  | Panic m => (q, Panicked m)
  end.

Definition set_plan q (p : Plan) : RunningQuery K :=
  mkRunning p (rq_last_block q) (rq_left_over q) (rq_next_chunk q) (rq_chunk_iterator q) (rq_finalized_head q) (rq_buf q) (rq_stats q).

Definition write_next_chunk q : RunningQuery K * outcome unit :=
  let '(q, o) := take_chunk q in
  match o with
  | Failed e => (q, Failed e)
  | Panicked m => (q, Panicked m)
  | Done (chunk, is_new_chunk) =>
      let plan := set_last_block (rq_plan q) (if opt_le (last_block chunk) (rq_last_block q) then None else rq_last_block q) in
      let query_result := map_error chunk (execute plan chunk) in
      let q := set_plan q (set_parent_block_hash (set_first_block plan None) None) in
      match query_result with
      | Failed e => (q, Failed e)
      | Panicked m => (q, Panicked m)
      | Done None => (q, Done tt)
      | Done (Some items) => write_result q chunk is_new_chunk items
      end
  end.

(** ** Responses (response.rs) *)

(** The clock of a task in milliseconds and the time limit of its slot, at each reading. *)
Abbreviation readings := (nat → Z * Z).

(** A step takes a chunk, a part of it that has a block, or finds nothing left of it. *)
Definition chunk_steps (c : Chunk) : nat := S (Z.to_nat (chunk_size c)).
Definition item_steps (r : res Chunk) : nat := match r with Ok c => chunk_steps c | _ => 1 end.
Definition run_fuel q : nat :=
  S (match rq_left_over q with Some lo => chunk_steps (lo_chunk lo) | None => 0 end
     + match rq_next_chunk q with Some r => item_steps r | None => 0 end + sum_list_with item_steps (rq_chunk_iterator q)).

(** [next_run] *)
Fixpoint next_run (fuel : nat) (clock : readings) (i : nat) (elapsed : Z) q : RunningQuery K * outcome unit :=
  match fuel with
  | O => (q, Panicked "out of fuel")
  | S fuel =>
      let processed := next_chunk_size q in
      let '(q, o) := write_next_chunk q in
      match o with
      | Failed e => (q, Failed e)
      | Panicked m => (q, Panicked m)
      | Done _ =>
          if negb (has_next_chunk q) || (512 * 1024 <? Z.of_nat (buffered_bytes q)) then (q, Done tt) else
          let now := (clock i).1 in
          let chunk_time := now - elapsed in
          if processed =? 0 then (q, Panicked "attempt to divide by zero") else
          let next_chunk_eta := chunk_time * next_chunk_size q / processed in
          let next_chunk_eta := Z.max (Z.min next_chunk_eta (chunk_time * 5)) (chunk_time / 5) in
          if (clock i).2 <? now + next_chunk_eta then (q, Done tt) else next_run fuel clock (S i) now q
      end
  end.

Record QueryResponse : Type := mkResponse {
  qr_runner : option (RunningQuery K);
  qr_finalized_head : option BlockRef;
  qr_response_chunks : Z;
  qr_response_blocks : Z;
  qr_response_bytes : Z
}.

(** What a call of [next_data_pack] sees: whether the time is over, whether there is a slot, and
    the clock of its task. *)
Record pack_env : Type := mkPackEnv { pe_over : bool; pe_slot : bool; pe_clock : readings }.

Definition saturating_add (a b : Z) : Z := Z.min u64_max (a + b).

(** [slot.run]: a panic of the task loses what it owns. *)
Definition slot_run {A} (o : outcome A) : outcome A := match o with Panicked _ => Failed QueryTaskPanicked | o => o end.

Definition response_new (e : pack_env) (runner : outcome (RunningQuery K)) : outcome QueryResponse :=
  if negb (pe_slot e) then Failed Busy else
  runner ← slot_run (runner ← runner; let '(runner, o) := next_run (run_fuel runner) (pe_clock e) 0 0 runner in _ ← o; Done runner);
  let '(head, runner) := take_finalized_head runner in
  Done (mkResponse (Some runner) head 0 0 0).

Definition finish_with_runner (r : QueryResponse) (runner : RunningQuery K) : QueryResponse * bytes :=
  let bs := running_finish runner in
  (mkResponse None (qr_finalized_head r) (saturating_add (qr_response_chunks r) (chunks_returned (rq_stats runner)))
     (saturating_add (qr_response_blocks r) (blocks_returned (rq_stats runner))) (saturating_add (qr_response_bytes r) (Z.of_nat (length bs))), bs).

Definition with_runner (r : QueryResponse) (runner : option (RunningQuery K)) : QueryResponse :=
  mkResponse runner (qr_finalized_head r) (qr_response_chunks r) (qr_response_blocks r) (qr_response_bytes r).

(** Handing out the buffer. *)
Definition give_pack (r : QueryResponse) (runner : RunningQuery K) : QueryResponse * bytes :=
  let '(bs, runner) := take_buffered_bytes runner in
  (mkResponse (Some runner) (qr_finalized_head r) (qr_response_chunks r) (qr_response_blocks r) (saturating_add (qr_response_bytes r) (Z.of_nat (length bs))), bs).

Definition pack {A} (x : A * bytes) : A * outcome (option bytes) := (x.1, Done (Some x.2)).

Definition next_data_pack (e : pack_env) (r : QueryResponse) : QueryResponse * outcome (option bytes) :=
  match qr_runner r with
  | None => (r, Done None)
  | Some runner =>
      if negb (has_next_chunk runner) then pack (finish_with_runner r runner)
      else if pe_over e then pack (finish_with_runner r runner)
      else if (0 <? buffered_bytes runner)%nat then pack (give_pack r runner)
      else if negb (pe_slot e) then (r, Failed Busy)
      else
        match next_run (run_fuel runner) (pe_clock e) 0 0 runner with
        | (_, Panicked _) => (with_runner r None, Failed QueryTaskPanicked)
        | (runner, Failed err) => (with_runner r (Some runner), Failed err)
        | (runner, Done _) => pack (if has_next_chunk runner then give_pack r runner else finish_with_runner r runner)
        end
  end.

Definition response_finish (r : QueryResponse) : QueryResponse * bytes :=
  match qr_runner r with Some runner => finish_with_runner r runner | None => (r, []) end.

(** ** The body (api.rs) *)

Definition stream_can_finish_cleanly (e : query_error) : bool := match e with QueryTaskPanicked => false | _ => true end.

(** How the body of a response ends: it goes on, it is complete, it is aborted. *)
Inductive stream_end : Type := StreamOpen | StreamClosed | StreamAborted.

(** [stream_query_response], for the calls of [next_pack] it makes. *)
Fixpoint stream_query_response (calls : list pack_env) (r : QueryResponse) : list bytes * stream_end :=
  match calls with
  | [] => ([], StreamOpen)
  | e :: calls =>
      match next_data_pack e r with
      | (r, Done (Some bs)) => let '(packs, end_) := stream_query_response calls r in (bs :: packs, end_)
      | (r, Done None) => ([], StreamClosed)
      | (r, Failed err) => if stream_can_finish_cleanly err then ([(response_finish r).2], StreamClosed) else ([], StreamAborted)
      | (r, Panicked _) => ([], StreamAborted)
      end
  end.
End run.
Arguments QueryResponse : clear implicits.

(** ** Admission (executor.rs, service.rs) *)

(** A counter shared by all queries, with the live slots and the refusals that have not yet
    taken back their increment. *)
Record Slots : Type := mkSlots { in_flight : Z; slots_live : nat; slots_refused : nat }.

Inductive slot_step (limit : Z) : Slots → Slots → Prop :=
(* fetch_add finds a count below the limit: a slot *)
| Admit n l r : n < limit → slot_step limit (mkSlots n l r) (mkSlots (n + 1) (S l) r)
(* fetch_add finds a count at the limit: refused *)
| Refuse n l r : limit <= n → slot_step limit (mkSlots n l r) (mkSlots (n + 1) l (S r))
(* the fetch_sub of a refusal *)
| TakeBack n l r : slot_step limit (mkSlots n l (S r)) (mkSlots (n - 1) l r)
(* the slot is dropped *)
| Release n l r : slot_step limit (mkSlots n (S l) r) (mkSlots (n - 1) l r).

(** [QuerySlot::time_limit] *)
Definition time_limit (urgency threads in_flight : Z) : Z := if in_flight =? 0 then 100 else Z.min (urgency * threads / in_flight) 100.

(** [is_long_poll] (service.rs): whether to wait for the first block of the query. *)
Definition is_long_poll (kind : dataset_kind) (head finalized_head : option BlockRef) (q : Query) (finalized : bool) : outcome bool :=
  query_kind ← from_query q;
  qk ← lift (storage_kind query_kind);
  dk ← lift (storage_kind kind);
  _ ← qensure (bool_decide (kind = query_kind)) (QueryKindMismatch qk dk);
  match (if finalized then finalized_head else head) with
  | None => Done true
  | Some head =>
      if query_first_block q <=? number head then Done false
      else if u64_add (number head) 1 =? query_first_block q then
        match query_parent_block_hash q with
        | Some parent_hash =>
            _ ← qensure (bool_decide (hash head = parent_hash)) (QUnexpectedBaseBlock (mkUnexpected [(number head, hash head)] parent_hash));
            Done true
        | None => Done true
        end
      else Done true
  end.

(** [query_internal] (service.rs): a query for blocks to come waits in a slot for its first
    block, and then starts. *)
Record wait_env : Type := mkWaitEnv { we_slot : bool; we_arrived : bool }.
Definition query_internal {K : Type} `{CK : Compressors K} {EX : Execution} (kind : dataset_kind) (head finalized_head : option BlockRef) (q : Query) (finalized : bool)
    (w : wait_env) (e : pack_env) (runner : outcome (RunningQuery K)) : outcome (QueryResponse K) :=
  long_poll ← is_long_poll kind head finalized_head q finalized;
  _ ← (if (long_poll : bool) then
         _ ← qensure (we_slot w) Busy;
         qensure (we_arrived w) (QueryIsAboveTheHead None)
       else Done tt);
  response_new e runner.
