(* ===== verification/QueryRunSpec.v ===== *)
(** * Serving queries: theorems

    A running query delivers the blocks of the requested range chunk by chunk, and the body of a
    response, however it is cut into tasks and packs, is the text of the delivered blocks. *)
From stdpp Require Import gmap sorting.
From S2P Require Import WriteController.
From S2P Require Import Prelude Bytes Ranges QueryStack QueryArrow QueryPred QueryRel QueryPlan QueryOutput QueryOutputSpec QueryRequests.
From S2P Require Import QueryPlanSpec QueryRequestsSpec Data Kv ChunkIter Tables Chain Tx Concrete TxSpec UpdateSpec Retry Cleanup Db QueryRun.

(** ** Compression *)

(** What the formats promise: the bytes handed out and the rest of the stream decompress to what
    was written. *)
Class CompressorLaws (K : Type) `{Compressors K} : Type := {
  decompress : ContentEncoding → bytes → option bytes;
  represents : ContentEncoding → K → bytes → bytes → Prop;
  new_represents enc : ∃ k, compressor_new enc = Ok k ∧ represents enc k [] [];
  write_represents enc k out text b : represents enc k out text → represents enc (compressor_write k b) out (text ++ b);
  flush_represents enc k out text : represents enc k out text → represents enc (compressor_flush k) out text;
  split_buffer k : compressor_buffer (compressor_split k) = [];
  split_represents enc k out text : represents enc k out text → represents enc (compressor_split k) (out ++ compressor_buffer k) text;
  finish_represents enc k out text : represents enc k out text → decompress enc (out ++ compressor_finish k) = Some text
}.

Section compressor.
Context {K : Type} `{CL : CompressorLaws K} (enc : ContentEncoding) (out : bytes).

Lemma lines_compressor fuel : ∀ items k text buf rw j items', lines_write_blocks append_all fuel (mkWriter text buf rw) items = Ok (j, items') →
  represents enc k out text → ∃ k', lines_write_blocks write_all fuel (mkWriter k buf rw) items = Ok (mkWriter k' (jw_buf j) (jw_rows_written j), items') ∧
    represents enc k' out (jw_write j).
Proof.
  induction fuel as [|fuel IH]; intros items k text buf rw j items' E Hk; cbn [lines_write_blocks] in *; [injection E as <- <-; by exists k|].
  destruct (has_next_block items) as [more| |]; try done. cbn [mbind res_bind] in *. destruct more; [|injection E as <- <-; by exists k].
  cbn [jw_buf jw_write jw_rows_written] in *. destruct (write_next_block items buf) as [[items1 buf1]| |]; try done. cbn [mbind res_bind] in *.
  destruct (_ <? _); cbn [mbind res_bind writer_flush append_all write_all jw_buf jw_write jw_rows_written] in *; eapply IH; try eassumption.
  by apply write_represents.
Qed.

(** Writing the blocks [hs] of a result. *)
Lemma write_lines h items hs (tables : list otable) k text : StronglySorted Z.lt hs.*1 → di_pos h = 0%nat → pending h hs → Forall2 (rows_ok hs.*1) items tables →
  represents enc k out text →
  num_blocks (h :: items) = Ok (length hs) ∧
  ∃ j items' k', lines_write_blocks write_all (length hs) (writer_new k) (h :: items) = Ok (j, items') ∧ lines_finish write_all j = Ok k' ∧
    represents enc (compressor_flush k') out (text ++ mjoin ((λ hb, block_text tables hb ++ [10]) <$> hs)).
Proof.
  intros Hs Hp Hh Hi Hk. assert (length (di_order h) = length hs) as Hl.
  { unfold pending in Hh. apply Forall2_length in Hh. by rewrite Hp, drop_0 in Hh. }
  split; [by unfold num_blocks; cbn; rewrite Hl|].
  destruct (lines_write_spec hs (length hs) h items tables (writer_new text) Hs Hh Hi) as (j & items' & E & Ej); [lia|].
  destruct (lines_compressor _ _ k _ _ _ _ _ E Hk) as (k1 & E1 & Hk1). eexists _, items', _. split; [exact E1|]. split; [done|].
  cbn [jw_write jw_buf]. apply flush_represents. cbn [jw_write jw_buf writer_new app] in Ej. rewrite <-Ej. by apply write_represents.
Qed.

Lemma writer_last h items hs n : di_pos h = 0%nat → pending h hs → last hs.*1 = Some n → writer_last_block (h :: items) = Ok n.
Proof.
  intros Hp Hh Hn. unfold pending in Hh. rewrite Hp, drop_0 in Hh. unfold writer_last_block, num_blocks. cbn [slice_get lookup list_lookup mbind res_bind].
  pose proof (Forall2_length _ _ _ Hh) as Hl. apply last_Some in Hn as (l & El). assert (hs ≠ []) as Hne by (intros ->; by destruct l).
  destruct hs as [|x hs _] using rev_ind; [done|]. rewrite fmap_app in El. apply app_inj_2 in El as [_ [= <-]]; [|done].
  rewrite length_app in Hl. cbn in Hl. rewrite Hl, Nat.add_1_r. unfold get_block_at. generalize dependent (di_order h). intros ord Hh Hl.
  destruct ord as [|p l' _] using rev_ind; [cbn in Hl; lia|]. rewrite length_app in Hl. cbn in Hl. rewrite lookup_app_r by lia. replace (length hs - length l')%nat with 0%nat by lia. cbn [lookup list_lookup].
  apply Forall2_app_inv in Hh as [_ Hh]; [|lia]. apply Forall2_cons in Hh as [[-> _] _]. done.
Qed.
End compressor.

(** ** What is delivered *)

(** A block of a chunk. *)
Abbreviation cblock := (Chunk * Z)%type.

Definition opt_u64 (n : option Z) : Prop := match n with Some n => u64_ok n | None => True end.
Definition in_block_range (f l : option Z) (n : Z) : Prop :=
  match f with Some f => f <= n | None => True end ∧ match l with Some l => n <= l | None => True end.
#[export] Instance in_block_range_dec f l n : Decision (in_block_range f l n).
Proof. unfold in_block_range. destruct f, l; apply _. Defined.

(** A prefix of the chosen elements ends at some element of the list. *)
Lemma take_filter {A} (P : A → Prop) `{!∀ x, Decision (P x)} (W : list A) : ∀ k, filter P W ≠ [] →
  ∃ W1 n W2, W = W1 ++ n :: W2 ∧ take (S k) (filter P W) = filter P (W1 ++ [n]) ∧ P n.
Proof.
  induction W as [|x W IH]; intros k Hne; [done|]. rewrite filter_cons in *. destruct (decide (P x)) as [Hx|Hx].
  - destruct k as [|k]; [|destruct (decide (filter P W = [])) as [E|E]].
    1-2: exists [], x, W; split; [done|]; rewrite filter_app, filter_cons_True by done; rewrite ?E; done.
    destruct (IH k E) as (W1 & n & W2 & -> & Et & Hn). exists (x :: W1), n, W2. split; [done|]. split; [|done].
    cbn [app]. rewrite filter_cons_True by done. rewrite <-Et. done.
  - destruct (IH k Hne) as (W1 & n & W2 & -> & Et & Hn). exists (x :: W1), n, W2. split; [done|]. split; [|done]. cbn [app]. by rewrite filter_cons_False.
Qed.

Lemma plan_eta (p : Plan) :
  set_parent_block_hash (set_last_block (set_first_block p (QueryPlan.first_block p)) (QueryPlan.last_block p)) (QueryPlan.parent_block_hash p) = p.
Proof. by destruct p. Qed.

Section run.
Context (p0 : Plan) (stored : Chunk → Prop) (blocks : Chunk → list Z) (wanted : Chunk → Z → Prop) {wanted_dec : ∀ c n, Decision (wanted c n)} (line : Chunk → Z → bytes).

Definition text_of (ls : list cblock) : bytes := mjoin ((λ x : cblock, line x.1 x.2 ++ [10]) <$> ls).

(** [ls] delivers the blocks [asked]: in order, all the wanted ones, and the last one. *)
Record delivers (asked ls : list cblock) : Prop := mkDelivers {
  dl_sublist : ls `sublist_of` asked;
  dl_wanted c n : (c, n) ∈ asked → wanted c n → (c, n) ∈ ls;
  dl_last : last ls = last asked
}.

Lemma delivers_nil : delivers [] [].
Proof. split; [done|set_solver|done]. Qed.

Lemma delivers_app a b l k : delivers a l → delivers b k → delivers (a ++ b) (l ++ k).
Proof.
  intros [H1 H2 H3] [K1 K2 K3]. split.
  - by apply sublist_app.
  - intros c n [Hin|Hin]%elem_of_app Hw; apply elem_of_app; auto.
  - rewrite !last_app, H3, K3. done.
Qed.

Lemma text_of_app l k : text_of (l ++ k) = text_of l ++ text_of k.
Proof. unfold text_of. by rewrite fmap_app, join_app. Qed.

(** The plan of the query on a window of blocks. *)
Definition windowed (f l : option Z) (h : option string) : Plan := set_parent_block_hash (set_last_block (set_first_block p0 f) l) h.
Definition window (f l : option Z) (c : Chunk) : list Z := filter (in_block_range f l) (blocks c).
Definition candidate (c : Chunk) (W : list Z) (n : Z) : Prop := wanted c n ∨ head W = Some n ∨ last W = Some n.
#[local] Instance candidate_dec c W n : Decision (candidate c W n).
Proof. unfold candidate. apply _. Defined.

(** A stored chunk holds ascending blocks between its bounds, and its last block. *)
Record served (c : Chunk) : Prop := mkServed {
  sv_stored : stored c;
  sv_chunk : chunk_ok c;
  sv_sorted : StronglySorted Z.lt (blocks c);
  sv_bounds n : n ∈ blocks c → first_block c <= n <= last_block c;
  sv_last : last_block c ∈ blocks c
}.

(** The result holds the first candidates of the window, with their text. *)
Definition answered (f l : option Z) (c : Chunk) (o : outcome (option (list DataItem))) : Prop :=
  let W := window f l c in
  (W = [] ∧ o = Done None) ∨
  (W ≠ [] ∧ ∃ h items hs tables k, o = Done (Some (h :: items)) ∧ di_pos h = 0%nat ∧ pending h hs ∧ Forall2 (rows_ok hs.*1) items tables ∧
     hs.*1 = take (S k) (filter (candidate c W) W) ∧ ∀ hb, hb ∈ hs → block_text tables hb = line c hb.1).

(** What running queries rely on: the execution of the plan on a window of a chunk answers the
    window, and may fail only where it checks the parent block. *)
Class ExecutionLaws {EX : Execution} : Prop := {
  execute_spec f l c : served c → opt_u64 f → opt_u64 l → answered f l c (execute (windowed f l None) c);
  execute_parent f l h c : served c → opt_u64 f → opt_u64 l →
    (∃ e, execute (windowed f l (Some h)) c = Failed e ∧ e ≠ QueryTaskPanicked) ∨ answered f l c (execute (windowed f l (Some h)) c)
}.

(** A window is delivered up to the last written block, and the rest of it begins after. *)
Lemma window_split f l c k : served c → window f l c ≠ [] →
  ∃ W1 n W2, window f l c = W1 ++ n :: W2 ∧ take (S k) (filter (candidate c (window f l c)) (window f l c)) = filter (candidate c (window f l c)) (W1 ++ [n]) ∧
    candidate c (window f l c) n ∧ window (Some (n + 1)) l c = W2 ∧ n ∈ blocks c ∧ delivers (pair c <$> (W1 ++ [n])) (pair c <$> filter (candidate c (window f l c)) (W1 ++ [n])).
Proof.
  intros Hc Hne. set (W := window f l c) in *.
  assert (filter (candidate c W) W ≠ []) as Hf.
  { destruct W as [|x W']; [done|]. rewrite filter_cons_True; [done|]. right. by left. }
  destruct (take_filter (candidate c W) W k Hf) as (W1 & n & W2 & E & Et & Hn). exists W1, n, W2. do 3 (split; [done|]).
  assert (StronglySorted Z.lt W) as Hs by apply StronglySorted_filter, Hc.
  split; [|split].
  - assert (window (Some (n + 1)) l c = filter (λ m, n + 1 <= m) W) as ->.
    { assert (n ∈ W) as Hin by (rewrite E; set_solver). apply list_elem_of_filter in Hin as [[Hfn _] _].
      unfold W, window. rewrite list_filter_filter. apply list_filter_iff. intros m. unfold in_block_range in *. destruct f, l; naive_solver lia. }
    rewrite E in Hs |- *. apply StronglySorted_app in Hs as (Hlt & _ & Hs2). apply StronglySorted_inv in Hs2 as [_ Hn2].
    rewrite filter_app, filter_cons_False by lia. rewrite (list_filter_all (λ m, n + 1 <= m) W2) by (rewrite Forall_forall in Hn2; intros m Hm; specialize (Hn2 m Hm); lia).
    destruct (filter (λ m, n + 1 <= m) W1) as [|m l'] eqn:Em; [done|]. assert (m ∈ filter (λ m, n + 1 <= m) W1) as [Hm1 Hm2]%list_elem_of_filter by (rewrite Em; left).
    assert (m < n); [|lia]. apply Hlt; [done|left].
  - assert (n ∈ W) as Hin by (rewrite E; set_solver). by apply list_elem_of_filter in Hin as [_ ?].
  - split.
    + apply (fmap_sublist (pair c)), sublist_filter.
    + intros c' m Hm Hw. apply list_elem_of_fmap in Hm as (m' & [= -> ->] & Hm). apply list_elem_of_fmap. exists m'. split; [done|]. apply list_elem_of_filter. split; [by left|done].
    + rewrite filter_app, filter_cons_True by done. rewrite !fmap_app. cbn. by rewrite !last_snoc.
Qed.

(** ** Steps of a running query *)

Context {K : Type} `{CL : CompressorLaws K} {EX : Execution} {EL : ExecutionLaws} (enc : ContentEncoding).
Implicit Types q : RunningQuery K.

(** The chunks that continue a chunk without a gap, up to the end. *)
Fixpoint continuation (end_ : option Z) (c : Chunk) (items : list (res Chunk)) : list Chunk :=
  match items with
  | Ok next :: items => if (u64_add (last_block c) 1 =? first_block next) && opt_le (first_block next) end_ then next :: continuation end_ next items else []
  | _ => []
  end.

(** The blocks a running query has still to go through. *)
Definition chunk_blocks (f l : option Z) (c : Chunk) : list cblock := pair c <$> window f l c.
Definition left_todo q : list cblock :=
  match rq_left_over q with Some lo => chunk_blocks (Some (lo_next_block lo)) (rq_last_block q) (lo_chunk lo) | None => [] end.
Definition next_todo q : list cblock :=
  match rq_next_chunk q with
  | Some (Ok c) => chunk_blocks (QueryPlan.first_block (rq_plan q)) (rq_last_block q) c ++
                   mjoin (chunk_blocks None (rq_last_block q) <$> continuation (rq_last_block q) c (rq_chunk_iterator q))
  | _ => []
  end.
Definition todo q : list cblock := left_todo q ++ next_todo q.

Definition item_ok (r : res Chunk) : Prop := match r with Ok c => served c | Err _ => True | Panic _ => False end.
Record valid q : Prop := mkValid {
  vq_plan : ∃ l h, rq_plan q = windowed (QueryPlan.first_block (rq_plan q)) l h;
  vq_first : opt_u64 (QueryPlan.first_block (rq_plan q));
  vq_end : opt_u64 (rq_last_block q);
  vq_left lo : rq_left_over q = Some lo → served (lo_chunk lo) ∧ u64_ok (lo_next_block lo) ∧ QueryPlan.first_block (rq_plan q) = None ∧ QueryPlan.parent_block_hash (rq_plan q) = None;
  vq_next r : rq_next_chunk q = Some r → item_ok r;
  vq_items : Forall item_ok (rq_chunk_iterator q)
}.

(** The steps a running query has still to make, at most. *)
Definition steps q : nat :=
  (match rq_left_over q with Some lo => S (length (window (Some (lo_next_block lo)) (rq_last_block q) (lo_chunk lo))) | None => 0 end
   + match rq_next_chunk q with Some r => item_steps r | None => 0 end + sum_list_with item_steps (rq_chunk_iterator q))%nat.

Lemma sorted_bound (l : list Z) : ∀ a b, StronglySorted Z.lt l → (∀ n, n ∈ l → a <= n <= b) → Z.of_nat (length l) <= Z.max 0 (b - a + 1).
Proof.
  induction l as [|x l IH]; intros a b Hs Hb; [cbn; lia|]. apply StronglySorted_inv in Hs as [Hs Hx]. rewrite Forall_forall in Hx.
  pose proof (Hb x ltac:(left)). assert (Z.of_nat (length l) <= Z.max 0 (b - (x + 1) + 1)) as Hl.
  { apply IH; [done|]. intros n Hn. specialize (Hx n Hn). specialize (Hb n ltac:(by right)). lia. }
  cbn [length]. lia.
Qed.

Lemma chunk_size_ok c : chunk_ok c → chunk_size c = last_block c - first_block c + 1.
Proof. intros [H1 H2]. unfold chunk_size. rewrite u64_sub_small by lia. apply u64_add_small. lia. Qed.

Lemma window_length f l c : served c → (length (window f l c) < chunk_steps c)%nat.
Proof.
  intros Hc. pose proof (sorted_bound (blocks c) (first_block c) (last_block c) (sv_sorted c Hc) (sv_bounds c Hc)) as Hl. destruct (sv_chunk c Hc) as [H1 H2].
  unfold chunk_steps. rewrite chunk_size_ok by apply Hc. unfold window. pose proof (length_filter (in_block_range f l) (blocks c)). lia.
Qed.

Lemma steps_fuel q : valid q → (steps q < run_fuel q)%nat.
Proof.
  intros Hq. unfold steps, run_fuel. destruct (rq_left_over q) as [lo|] eqn:El; [|lia]. destruct (vq_left q Hq lo El) as (Hc & _).
  pose proof (window_length (Some (lo_next_block lo)) (rq_last_block q) _ Hc). lia.
Qed.

(** A plan on another window. *)
Lemma windowed_first f l h g : set_first_block (windowed f l h) g = windowed g l h.
Proof. done. Qed.
Lemma windowed_last f l h g : set_last_block (windowed f l h) g = windowed f g h.
Proof. done. Qed.
Lemma windowed_parent f l h g : set_parent_block_hash (windowed f l h) g = windowed f l g.
Proof. done. Qed.

(** The last block of the plan: the end of the query where the chunk goes beyond it. *)
Lemma window_end f c end_ : served c → window f (if opt_le (last_block c) end_ then None else end_) c = window f end_ c.
Proof.
  intros Hc. destruct end_ as [e|]; [|done]. cbn [opt_le]. destruct (last_block c <=? e) eqn:E; [|done]. zbool. apply list_filter_iff'.
  apply Forall_forall. intros n Hn. pose proof (sv_bounds c Hc n Hn). unfold in_block_range. destruct f; naive_solver lia.
Qed.

(** Nothing stands in the way: no chunk is unreadable, and the next one follows the expected
    parent. *)
Record sure q : Prop := mkSure {
  su_next r : rq_next_chunk q = Some r → ∃ c, r = Ok c;
  su_items : Forall (λ r : res Chunk, ∃ c, r = Ok c) (rq_chunk_iterator q);
  su_execute l h c e : QueryPlan.parent_block_hash (rq_plan q) = Some h → rq_next_chunk q = Some (Ok c) → opt_u64 l →
    execute (windowed (QueryPlan.first_block (rq_plan q)) l (Some h)) c ≠ Failed e
}.

Definition next_steps q : nat := (match rq_next_chunk q with Some r => item_steps r | None => 0 end + sum_list_with item_steps (rq_chunk_iterator q))%nat.

(** The query [q] has taken chunk [c] from block [f] on. *)
Record taken q (c : Chunk) (f : option Z) (q1 : RunningQuery K) : Prop := mkTaken {
  tk_plan : ∃ l h, rq_plan q1 = windowed f l h ∧ h = QueryPlan.parent_block_hash (rq_plan q);
  tk_from : QueryPlan.parent_block_hash (rq_plan q) = None ∨ rq_next_chunk q = Some (Ok c) ∧ f = QueryPlan.first_block (rq_plan q);
  tk_first : opt_u64 f;
  tk_chunk : served c;
  tk_left : rq_left_over q1 = None;
  tk_end : rq_last_block q1 = rq_last_block q;
  tk_buf : rq_buf q1 = rq_buf q;
  tk_todo l h : todo q = chunk_blocks f (rq_last_block q) c ++ next_todo (set_plan q1 (windowed None l h));
  tk_next r : rq_next_chunk q1 = Some r → item_ok r;
  tk_items : Forall item_ok (rq_chunk_iterator q1);
  tk_steps : (length (window f (rq_last_block q) c) + next_steps q1 < steps q)%nat;
  tk_size : 0 < next_chunk_size q;
  tk_sure : sure q → (∀ r, rq_next_chunk q1 = Some r → ∃ c, r = Ok c) ∧ Forall (λ r : res Chunk, ∃ c, r = Ok c) (rq_chunk_iterator q1)
}.

Lemma served_size c : served c → 0 < chunk_size c.
Proof. intros Hc. rewrite chunk_size_ok by apply Hc. destruct (sv_chunk c Hc). lia. Qed.

Lemma take_left q lo : valid q → rq_left_over q = Some lo →
  ∃ q1, take_chunk q = (q1, Done (lo_chunk lo, false)) ∧ taken q (lo_chunk lo) (Some (lo_next_block lo)) q1.
Proof.
  intros Hq El. destruct (vq_left q Hq lo El) as (Hc & Hn & Hf & Hp). destruct (vq_plan q Hq) as (l & h & Ep). unfold take_chunk. rewrite El. eexists. split; [done|].
  split; cbn [rq_plan rq_left_over rq_last_block rq_buf rq_next_chunk rq_chunk_iterator]; try done.
  - exists l, h. rewrite Ep. by rewrite windowed_first.
  - by left.
  - intros l' h'. unfold todo, left_todo, next_todo. rewrite El. f_equal. cbn [set_plan rq_next_chunk rq_plan rq_last_block rq_chunk_iterator]. by rewrite Hf.
  - apply Hq.
  - apply Hq.
  - unfold steps, next_steps. rewrite El. cbn [rq_next_chunk rq_chunk_iterator]. lia.
  - unfold next_chunk_size. rewrite El. by apply served_size.
  - intros Hs. split; apply Hs.
Qed.

Lemma take_next q c : valid q → rq_left_over q = None → rq_next_chunk q = Some (Ok c) →
  ∃ q1, take_chunk q = (q1, Done (c, true)) ∧ taken q c (QueryPlan.first_block (rq_plan q)) q1.
Proof.
  intros Hq El En. pose proof (vq_next q Hq _ En) as Hc. cbn in Hc. unfold take_chunk, running_next_chunk. rewrite El, En. pose proof (vq_items q Hq) as Hi.
  destruct (vq_plan q Hq) as (l & h & Ep).
  assert (0 < next_chunk_size q) as Hsz by (unfold next_chunk_size; rewrite El, En; by apply served_size).
  pose proof (window_length (QueryPlan.first_block (rq_plan q)) (rq_last_block q) c Hc) as Hw.
  assert (∃ l h, rq_plan q = windowed (QueryPlan.first_block (rq_plan q)) l h ∧ h = QueryPlan.parent_block_hash (rq_plan q)) as Hp by (exists l, h; rewrite Ep; done).
  destruct (rq_chunk_iterator q) as [|[next|e|m] its] eqn:Ei; [| | |by apply Forall_cons in Hi as [[] _]].
  all: eexists; split; [reflexivity|]; split; cbn [rq_plan rq_left_over rq_last_block rq_buf rq_next_chunk rq_chunk_iterator]; try done; try apply Hq; try (by right).
  all: try (by intros Hs; pose proof (su_items q Hs) as Hok; rewrite Ei in Hok; apply Forall_cons in Hok as [[? ?] ?]).
  all: try (by apply Forall_cons in Hi as [_ Hi]).
  all: try (intros l' h'; unfold todo, left_todo, next_todo; rewrite El, En, Ei; cbn [app continuation set_plan rq_next_chunk rq_plan rq_last_block rq_chunk_iterator]; try done; f_equal; by destruct (_ && _)).
  all: try (unfold steps, next_steps; rewrite El, En, Ei; cbn [rq_next_chunk rq_chunk_iterator sum_list_with foldr item_steps]; try destruct (_ && _); cbn [item_steps]; lia).
  - apply Forall_cons in Hi as [Hn _]. intros r. destruct (_ && _); [|done]. by intros [= <-].
  - intros Hs. pose proof (su_items q Hs) as Hok. rewrite Ei in Hok. apply Forall_cons in Hok as [_ Hok]. split; [|done]. intros r. destruct (_ && _); [|done]. intros [= <-]. by eexists.
  - by intros r [= <-].
Qed.

(** A chunk is taken, or the query fails because it has none or cannot read it. *)
Lemma take_chunk_spec q : valid q → (∃ q1 e, take_chunk q = (q1, Failed e) ∧ e ≠ QueryTaskPanicked ∧ rq_buf q1 = rq_buf q ∧ (has_next_chunk q = true → ¬ sure q)) ∨
  ∃ q1 c new f, take_chunk q = (q1, Done (c, new)) ∧ taken q c f q1.
Proof.
  intros Hq. destruct (rq_left_over q) as [lo|] eqn:El; [right; destruct (take_left q lo Hq El) as (q1 & E & Ht); by eexists _, _, _, _|].
  destruct (rq_next_chunk q) as [[c|e|m]|] eqn:En.
  - right. destruct (take_next q c Hq El En) as (q1 & E & Ht). by eexists _, _, _, _.
  - left. unfold take_chunk, running_next_chunk. rewrite El, En. eexists _, _. split; [done|]. split; [done|]. split; [done|]. intros _ Hs. by destruct (su_next q Hs _ En).
  - by pose proof (vq_next q Hq _ En).
  - left. unfold take_chunk, running_next_chunk. rewrite El, En. eexists _, _. split; [done|]. split; [done|]. split; [done|]. unfold has_next_chunk. rewrite En, El. done.
Qed.

(** One step: blocks [pre] are gone through, and [ls] of them are written. *)
Record stepped q q' (out text : bytes) (ls : list cblock) : Prop := mkStepped {
  st_valid : valid q';
  st_fewer : (steps q' < steps q)%nat;
  st_size : 0 < next_chunk_size q;
  st_todo : ∃ pre, todo q = pre ++ todo q' ∧ delivers pre ls;
  st_buf : represents enc (rq_buf q') out (text ++ text_of ls);
  st_sure : sure q → sure q'
}.

(** What follows when the whole window of the chunk is gone through. *)
Lemma step_done q c f q1 q' out text ls : taken q c f q1 → rq_plan q' = windowed None (QueryPlan.last_block (rq_plan q')) None → rq_left_over q' = None →
  rq_last_block q' = rq_last_block q → rq_next_chunk q' = rq_next_chunk q1 → rq_chunk_iterator q' = rq_chunk_iterator q1 → valid q →
  delivers (chunk_blocks f (rq_last_block q) c) ls → represents enc (rq_buf q') out (text ++ text_of ls) → stepped q q' out text ls.
Proof.
  intros Ht Ep El Ee En Ei Hq Hd Hb. pose proof (f_equal QueryPlan.first_block Ep) as Ef. cbn in Ef. split.
  - split; rewrite ?Ef, ?Ee, ?El, ?En, ?Ei; try done; try apply Hq; try apply Ht. by eexists _, _.
  - pose proof (tk_steps _ _ _ _ Ht) as Hs. unfold steps in *. unfold next_steps in Hs. rewrite El, En, Ei. lia.
  - apply Ht.
  - exists (chunk_blocks f (rq_last_block q) c). split; [|done]. rewrite (tk_todo _ _ _ _ Ht (QueryPlan.last_block (rq_plan q')) None). f_equal.
    unfold todo, left_todo, next_todo. rewrite El. cbn [app set_plan rq_next_chunk rq_plan rq_last_block rq_chunk_iterator]. by rewrite En, Ei, Ee, Ef, (tk_end _ _ _ _ Ht).
  - done.
  - intros Hs. destruct (tk_sure _ _ _ _ Ht Hs) as [H1 H2]. split; rewrite ?En, ?Ei; try done. intros l' h' c' e Hh. by rewrite Ep in Hh.
Qed.

(** What follows when a part of the chunk is left. *)
Lemma step_left q c f q1 q' out text ls n W1 W2 : taken q c f q1 → rq_plan q' = windowed None (QueryPlan.last_block (rq_plan q')) None →
  rq_left_over q' = Some (mkLeftOver c (n + 1)) → rq_last_block q' = rq_last_block q → rq_next_chunk q' = rq_next_chunk q1 → rq_chunk_iterator q' = rq_chunk_iterator q1 →
  valid q → n ∈ blocks c → window f (rq_last_block q) c = W1 ++ n :: W2 → window (Some (n + 1)) (rq_last_block q) c = W2 →
  delivers (pair c <$> (W1 ++ [n])) ls → represents enc (rq_buf q') out (text ++ text_of ls) → stepped q q' out text ls.
Proof.
  intros Ht Ep El Ee En Ei Hq Hn EW EW2 Hd Hb. pose proof (f_equal QueryPlan.first_block Ep) as Ef. cbn in Ef. pose proof (tk_chunk _ _ _ _ Ht) as Hc. split.
  - split; rewrite ?Ef, ?Ee, ?En, ?Ei; try done; try apply Hq; try apply Ht; [by eexists _, _|]. rewrite El. intros lo [= <-]. cbn. split; [done|]. split; [|by rewrite Ep].
    pose proof (sv_bounds c Hc n Hn). destruct (sv_chunk c Hc). unfold u64_ok. lia.
  - pose proof (tk_steps _ _ _ _ Ht) as Hs. unfold steps in *. unfold next_steps in Hs. rewrite El, En, Ei, Ee. cbn [lo_next_block lo_chunk]. rewrite EW2.
    rewrite EW, length_app in Hs. cbn [length] in Hs. lia.
  - apply Ht.
  - exists (pair c <$> (W1 ++ [n])). split; [|done]. rewrite (tk_todo _ _ _ _ Ht (QueryPlan.last_block (rq_plan q')) None).
    unfold todo, left_todo, next_todo, chunk_blocks. rewrite El. cbn [app set_plan rq_next_chunk rq_plan rq_last_block rq_chunk_iterator lo_chunk lo_next_block].
    rewrite En, Ei, Ee, Ef, (tk_end _ _ _ _ Ht), EW, EW2. rewrite app_assoc. f_equal. rewrite <-fmap_app, <-app_assoc. done.
  - done.
  - intros Hs. destruct (tk_sure _ _ _ _ Ht Hs) as [H1 H2]. split; rewrite ?En, ?Ei; try done. intros l' h' c' e Hh. by rewrite Ep in Hh.
Qed.

Lemma text_lines c hs (tables : list otable) : (∀ hb, hb ∈ hs → block_text tables hb = line c hb.1) →
  mjoin ((λ hb, block_text tables hb ++ [10]) <$> hs) = text_of (pair c <$> hs.*1).
Proof.
  intros Hl. unfold text_of. f_equal. rewrite <-!list_fmap_compose. apply list_fmap_ext. intros i hb Hi. unfold compose. cbn [fst snd]. rewrite (Hl hb); [done|]. by eapply list_elem_of_lookup_2.
Qed.

Lemma window_rest c n end_ : served c → n ∈ blocks c → (n <? last_block c) && opt_lt n end_ = false → window (Some (n + 1)) end_ c = [].
Proof.
  intros Hc Hn E. apply list_filter_none. intros m Hm [H1 H2]. pose proof (sv_bounds c Hc m Hm). pose proof (sv_bounds c Hc n Hn).
  destruct end_ as [e|]; cbn [opt_lt] in E; destruct (n <? last_block c) eqn:E1; zbool; cbn [andb] in E; try done; zbool; lia.
Qed.

(** Writing the result of a chunk. *)
Lemma write_result_spec q c f q1 l h items hs (tables : list otable) k new out text : valid q → taken q c f q1 → window f (rq_last_block q) c ≠ [] →
  di_pos h = 0%nat → pending h hs → Forall2 (rows_ok hs.*1) items tables →
  hs.*1 = take (S k) (filter (candidate c (window f (rq_last_block q) c)) (window f (rq_last_block q) c)) → (∀ hb, hb ∈ hs → block_text tables hb = line c hb.1) →
  represents enc (rq_buf q) out text →
  ∃ q' ls, write_result (set_plan q1 (windowed None l None)) c new (h :: items) = (q', Done tt) ∧ stepped q q' out text ls.
Proof.
  intros Hq Ht Hne Hpos Hh Hi Ehs Hl Hb. pose proof (tk_chunk _ _ _ _ Ht) as Hc.
  destruct (window_split f (rq_last_block q) c k Hc Hne) as (W1 & n & W2 & EW & Etake & Hcand & EW2 & Hn & Hd). rewrite Etake in Ehs.
  assert (StronglySorted Z.lt hs.*1) as Hs.
  { rewrite Ehs. apply StronglySorted_filter. assert (StronglySorted Z.lt ((W1 ++ [n]) ++ W2)) as Hsw by (rewrite <-app_assoc; cbn [app]; rewrite <-EW; apply StronglySorted_filter, Hc).
    by apply StronglySorted_app in Hsw as (_ & Hsw & _). }
  assert (last hs.*1 = Some n) as Hlast by (rewrite Ehs, filter_app, (filter_cons_True _ n []) by done; rewrite filter_nil; apply last_snoc).
  rewrite <-(tk_buf _ _ _ _ Ht) in Hb. destruct (write_lines enc out h items hs tables (rq_buf q1) text Hs Hpos Hh Hi Hb) as (En & j & items' & k' & Ew & Ef & Hk').
  unfold write_result. cbn [set_plan rq_buf]. rewrite En. cbn [mbind res_bind]. rewrite (writer_last h items hs n Hpos Hh Hlast). cbn [mbind res_bind]. rewrite Ew. cbn [mbind res_bind].
  rewrite Ef. cbn [mbind res_bind set_plan rq_last_block rq_left_over rq_next_chunk rq_chunk_iterator rq_plan rq_finalized_head rq_stats].
  rewrite (text_lines c hs tables Hl), Ehs in Hk'. rewrite (tk_end _ _ _ _ Ht), (tk_left _ _ _ _ Ht).
  destruct ((n <? last_block c) && opt_lt n (rq_last_block q)) eqn:Ec.
  - eexists _, _. split; [done|]. eapply (step_left q c f q1); try done.
    cbn. f_equal. f_equal. pose proof (sv_bounds c Hc n Hn). destruct (sv_chunk c Hc). apply u64_add_small. lia.
  - eexists _, (pair c <$> filter (candidate c (window f (rq_last_block q) c)) (W1 ++ [n])). split; [done|]. assert (W2 = []) as -> by (rewrite <-EW2; exact (window_rest c n (rq_last_block q) Hc Hn Ec)).
    assert (chunk_blocks f (rq_last_block q) c = pair c <$> (W1 ++ [n])) as Ecb by (unfold chunk_blocks; by rewrite EW).
    eapply (step_done q c f q1); try done. rewrite Ecb. exact Hd.
Qed.

Lemma write_next_chunk_spec q out text : valid q → represents enc (rq_buf q) out text →
  (∃ q' e, write_next_chunk q = (q', Failed e) ∧ e ≠ QueryTaskPanicked ∧ represents enc (rq_buf q') out text ∧ (has_next_chunk q = true → ¬ sure q)) ∨
  ∃ q' ls, write_next_chunk q = (q', Done tt) ∧ stepped q q' out text ls.
Proof.
  intros Hq Hb. unfold write_next_chunk. destruct (take_chunk_spec q Hq) as [(q1 & e & -> & He & Eb & Hs)|(q1 & c & new & f & -> & Ht)].
  { left. eexists _, _. split; [done|]. split; [done|]. by rewrite Eb. }
  destruct (tk_plan _ _ _ _ Ht) as (l & h & Ep & Eh). rewrite Ep, windowed_last, windowed_first, windowed_parent. rewrite (tk_end _ _ _ _ Ht).
  set (l' := if opt_le (last_block c) (rq_last_block q) then None else rq_last_block q). pose proof (tk_chunk _ _ _ _ Ht) as Hc.
  assert (opt_u64 l') as Hl' by (unfold l'; destruct (opt_le _ _); [done|apply Hq]).
  pose proof (window_end f c (rq_last_block q) Hc) as EW. fold l' in EW.
  assert ((∃ e, execute (windowed f l' h) c = Failed e ∧ e ≠ QueryTaskPanicked ∧ ¬ sure q) ∨ answered f l' c (execute (windowed f l' h) c)) as [(e & Ee & He & Hs)|Ha].
  { destruct h as [h|]; [|right; apply execute_spec; [done|apply Ht|done]].
    destruct (execute_parent f l' h c Hc (tk_first _ _ _ _ Ht) Hl') as [(e & Ee & He)|Ha]; [|by right]. left. exists e. split; [done|]. split; [done|]. intros Hs.
    destruct (tk_from _ _ _ _ Ht) as [En|[En ->]]; [congruence|]. by eapply (su_execute q Hs l' h c e). }
  - left. rewrite Ee. assert (∃ e', map_error c (Failed e) = Failed e' ∧ e' ≠ QueryTaskPanicked) as (e' & -> & He') by (destruct e; cbn; try case_decide; eexists; (split; [reflexivity|done])).
    eexists _, _. split; [done|]. split; [done|]. cbn [set_plan rq_buf]. rewrite (tk_buf _ _ _ _ Ht). done.
  - right. unfold answered in Ha. rewrite EW in Ha. destruct Ha as [[Ew ->]|[Hne (d & items & hs & tables & k & -> & Hpos & Hh & Hi & Ehs & Hl)]]; cbn [map_error].
    + eexists _, []. split; [done|]. eapply (step_done q c f q1); try done.
      * cbn. apply Ht.
      * cbn. apply Ht.
      * unfold chunk_blocks. rewrite Ew. apply delivers_nil.
      * cbn. rewrite app_nil_r, (tk_buf _ _ _ _ Ht). done.
    + by eapply (write_result_spec q c f q1).
Qed.

(** ** Tasks *)

(** A task makes steps; it stops, or fails where a step fails. *)
Definition ran q q' (o : outcome unit) (pre : list cblock) : Prop :=
  (∃ e rest, o = Failed e ∧ e ≠ QueryTaskPanicked ∧ todo q = pre ++ rest ∧ (has_next_chunk q = true → ¬ sure q)) ∨
  (o = Done tt ∧ valid q' ∧ todo q = pre ++ todo q' ∧ (sure q → sure q') ∧ (steps q' < steps q)%nat).

Lemma next_run_spec clock fuel : ∀ i elapsed q out text, valid q → represents enc (rq_buf q) out text → (steps q < fuel)%nat →
  ∃ q' o pre ls, next_run fuel clock i elapsed q = (q', o) ∧ represents enc (rq_buf q') out (text ++ text_of ls) ∧ delivers pre ls ∧ ran q q' o pre.
Proof.
  induction fuel as [|fuel IH]; intros i elapsed q out text Hq Hb Hf; [lia|]. cbn [next_run].
  destruct (write_next_chunk_spec q out text Hq Hb) as [(q' & e & -> & He & Hb' & Hs)|(q' & ls & -> & Hst)].
  { exists q', (Failed e), [], []. split; [done|]. split; [by rewrite app_nil_r|]. split; [apply delivers_nil|]. left. by exists e, (todo q). }
  destruct Hst as [Hv Hfew Hsz (pre & Et & Hd) Hb' Hsure].
  assert (∃ o, o = Done tt ∧ represents enc (rq_buf q') out (text ++ text_of ls) ∧ delivers pre ls ∧ ran q q' o pre) as (o & Eo & Hstop) by (exists (Done tt); do 3 (split; [done|]); by right).
  destruct (negb (has_next_chunk q') || _) eqn:En; [subst o; by exists q', (Done tt), pre, ls|]. apply orb_false_iff in En as [En _].
  rewrite (proj2 (Z.eqb_neq _ _)) by lia. destruct (_ <? _); [subst o; by exists q', (Done tt), pre, ls|].
  destruct (IH (S i) (clock i).1 q' out (text ++ text_of ls) Hv Hb') as (q2 & o2 & pre2 & ls2 & E2 & Hb2 & Hd2 & Hr2); [lia|].
  exists q2, o2, (pre ++ pre2), (ls ++ ls2). split; [done|]. split; [by rewrite text_of_app, app_assoc|]. split; [by apply delivers_app|].
  destruct Hr2 as [(e & rest & -> & He & Et2 & Hs2)|(-> & Hv2 & Et2 & Hs2 & Hf2)].
  - left. exists e, rest. split; [done|]. split; [done|]. split; [by rewrite Et, Et2, app_assoc|]. intros _ Hs. apply Hs2; [by destruct (has_next_chunk q')|auto].
  - right. split; [done|]. split; [done|]. split; [by rewrite Et, Et2, app_assoc|]. split; [auto|lia].
Qed.

Lemma no_next_todo q : has_next_chunk q = false → todo q = [].
Proof.
  unfold has_next_chunk, todo, left_todo, next_todo. intros [E1 E2]%orb_false_iff. apply bool_decide_eq_false in E1, E2.
  destruct (rq_next_chunk q); [destruct E1; by eexists|]. destruct (rq_left_over q); [destruct E2; by eexists|]. done.
Qed.

(** ** Packs *)

(** The body is read in time, and there are slots. *)
Definition patient (e : pack_env) : Prop := pe_over e = false ∧ pe_slot e = true.

(** What a closed stream has given for the blocks [asked]. *)
Definition streamed (asked : list cblock) (out text : bytes) (complete : Prop) (packs : list bytes) : Prop :=
  ∃ pre rest ls, asked = pre ++ rest ∧ delivers pre ls ∧ decompress enc (out ++ mjoin packs) = Some (text ++ text_of ls) ∧ (complete → rest = []).

Definition stream_ok q (out text : bytes) (calls : list pack_env) (x : list bytes * stream_end) : Prop :=
  x.2 ≠ StreamAborted ∧ (x.2 = StreamClosed → streamed (todo q) out text (sure q ∧ Forall patient calls) x.1).

Lemma stream_none calls (r : QueryResponse K) : qr_runner r = None → stream_query_response calls r = ([], match calls with [] => StreamOpen | _ => StreamClosed end).
Proof. destruct calls as [|e calls]; [done|]. intros E. cbn [stream_query_response]. unfold next_data_pack. by rewrite E. Qed.

(** The stream that ends with the rest of the buffer. *)
Lemma stream_finish q r out text calls e : represents enc (rq_buf q) out text → (sure q → Forall patient (e :: calls) → todo q = []) →
  stream_ok q out text (e :: calls) (let '(packs, end_) := stream_query_response calls (finish_with_runner r q).1 in ((finish_with_runner r q).2 :: packs, end_)).
Proof.
  intros Hb Hc. rewrite stream_none by done. unfold stream_ok. cbn [fst snd finish_with_runner]. split; [by destruct calls|]. intros _. exists [], (todo q), [].
  split; [done|]. split; [apply delivers_nil|]. split; [|intros [? ?]; by apply Hc]. cbn [mjoin list_join]. unfold running_finish. rewrite !app_nil_r. by apply finish_represents.
Qed.

Lemma take_buffered_valid q : valid q → valid (take_buffered_bytes q).2.
Proof. intros [? ? ? ? ? ?]. by split. Qed.
Lemma take_buffered_sure q : sure q → sure (take_buffered_bytes q).2.
Proof. intros [? ? ?]. by split. Qed.

Lemma stream_give q out text e calls x : stream_ok (take_buffered_bytes q).2 (out ++ compressor_buffer (rq_buf q)) text calls x →
  stream_ok q out text (e :: calls) (let '(packs, end_) := x in ((take_buffered_bytes q).1 :: packs, end_)).
Proof.
  destruct x as [packs end_]. intros [Ha Hc]. split; [done|]. cbn [fst snd] in *. intros E. destruct (Hc E) as (pre & rest & ls & Et & Hd & Hdec & Hcomp).
  exists pre, rest, ls. split; [done|]. split; [done|]. split; [by rewrite <-app_assoc in Hdec|]. intros [Hs Hp]. apply Hcomp. split; [by apply take_buffered_sure|].
  by apply Forall_cons in Hp as [_ Hp].
Qed.

Lemma stream_step q q' out text calls x pre ls : todo q = pre ++ todo q' → delivers pre ls → (sure q → sure q') →
  stream_ok q' out (text ++ text_of ls) calls x → stream_ok q out text calls x.
Proof.
  intros Et Hd Hs [Ha Hc]. split; [done|]. intros E. destruct (Hc E) as (pre' & rest & ls' & Et' & Hd' & Hdec & Hcomp). exists (pre ++ pre'), rest, (ls ++ ls').
  split; [by rewrite Et, Et', app_assoc|]. split; [by apply delivers_app|]. split; [by rewrite text_of_app, app_assoc|]. intros [? ?]. apply Hcomp. auto.
Qed.

(** Whatever the calls, a closed body is the text of blocks delivered in order from the first
    one on; all of them if nothing fails and the calls are patient. *)
Lemma stream_spec calls : ∀ (r : QueryResponse K) q out text, qr_runner r = Some q → valid q → represents enc (rq_buf q) out text →
  stream_ok q out text calls (stream_query_response calls r).
Proof.
  induction calls as [|e calls IH]; intros r q out text Er Hq Hb; [done|].
  assert (∀ r q out text, valid q → represents enc (rq_buf q) out text →
    stream_ok q out text (e :: calls) (let '(packs, end_) := stream_query_response calls (give_pack r q).1 in ((give_pack r q).2 :: packs, end_))) as Hgive.
  { intros r1 q1 out1 text1 Hq1 Hb1. apply stream_give, IH; [done|by apply take_buffered_valid|by apply split_represents]. }
  cbn [stream_query_response]. unfold next_data_pack. rewrite Er. unfold pack.
  destruct (has_next_chunk q) eqn:En; cbn [negb]; [|apply stream_finish; [done|]; intros _ _; by apply no_next_todo].
  destruct (pe_over e) eqn:Eo; [apply stream_finish; [done|]; intros _ [[Hp _] _]%Forall_cons; congruence|].
  destruct (0 <? buffered_bytes q)%nat; [by apply Hgive|].
  destruct (pe_slot e) eqn:Es; cbn [negb].
  2: { cbn. split; [done|]. intros _. exists [], (todo q), []. split; [done|]. split; [apply delivers_nil|]. unfold response_finish. rewrite Er. cbn.
       split; [rewrite !app_nil_r; by apply finish_represents|]. intros [_ [[_ Hp] _]%Forall_cons]. congruence. }
  destruct (next_run_spec (pe_clock e) (run_fuel q) 0 0 q out text Hq Hb) as (q' & o & pre & ls & -> & Hb' & Hd & Hr); [by apply steps_fuel|].
  destruct Hr as [(err & rest & -> & He & Et & Hs)|(-> & Hv & Et & Hs & _)].
  - assert (stream_ok q out text (e :: calls) ([(response_finish (with_runner r (Some q'))).2], StreamClosed)) as Hok.
    { split; [done|]. intros _. exists pre, rest, ls. split; [done|]. split; [done|]. cbn. split; [rewrite app_nil_r; by apply finish_represents|]. intros [? _]. by destruct Hs. }
    by destruct err.
  - eapply stream_step; [done..|]. destruct (has_next_chunk q') eqn:En'; [by apply Hgive|]. apply stream_finish; [done|]. intros _ _. by apply no_next_todo.
Qed.

(** Patient calls come to an end: two for every step, one for the rest of the buffer, one for
    the trailer and one that finds nothing left. *)
Definition calls_left q : nat := (2 * steps q + if (0 <? buffered_bytes q)%nat then 1 else 0)%nat.

Lemma stream_closes calls : ∀ (r : QueryResponse K) q out text, qr_runner r = Some q → valid q → represents enc (rq_buf q) out text → sure q →
  Forall patient calls → (calls_left q + 1 < length calls)%nat → (stream_query_response calls r).2 = StreamClosed.
Proof.
  induction calls as [|e calls IH]; intros r q out text Er Hq Hb Hs Hp Hl; [cbn in Hl; lia|]. apply Forall_cons in Hp as [[Ho Hsl] Hp]. cbn [length] in Hl.
  assert (calls ≠ []) as Hne by (intros ->; cbn in Hl; lia).
  assert (∀ r q out text, valid q → represents enc (rq_buf q) out text → sure q → (2 * steps q + 1 < length calls)%nat →
    (let '(packs, end_) := stream_query_response calls (give_pack r q).1 in ((give_pack r q).2 :: packs, end_)).2 = StreamClosed) as Hgive.
  { intros r1 q1 out1 text1 Hq1 Hb1 Hs1 Hl1. pose proof (IH (give_pack r1 q1).1 (take_buffered_bytes q1).2 (out1 ++ compressor_buffer (rq_buf q1)) text1 eq_refl
      (take_buffered_valid q1 Hq1) (split_represents _ _ _ _ Hb1) (take_buffered_sure q1 Hs1) Hp) as IH1.
    destruct (stream_query_response calls _) as [packs end_]. apply IH1. unfold calls_left, buffered_bytes. cbn [take_buffered_bytes snd rq_buf]. rewrite split_buffer. cbn.
    unfold steps in *. cbn. lia. }
  assert (∀ r q, (let '(packs, end_) := stream_query_response calls (finish_with_runner r q).1 in ((finish_with_runner r q).2 :: packs, end_)).2 = StreamClosed) as Hfin.
  { intros r1 q1. rewrite stream_none by done. by destruct calls. }
  cbn [stream_query_response]. unfold next_data_pack. rewrite Er, Ho, Hsl. unfold pack. cbn [negb]. unfold calls_left in Hl.
  destruct (has_next_chunk q) eqn:En; cbn [negb]; [|apply Hfin]. destruct (0 <? buffered_bytes q)%nat; [apply (Hgive _ _ out text); try done; lia|].
  destruct (next_run_spec (pe_clock e) (run_fuel q) 0 0 q out text Hq Hb) as (q' & o & pre & ls & -> & Hb' & Hd & Hr); [by apply steps_fuel|].
  destruct Hr as [(err & rest & -> & He & _)|(-> & Hv & Et & Hs' & Hf)]; [by destruct err|].
  destruct (has_next_chunk q'); [|apply Hfin]. eapply Hgive; [done..|auto|lia].
Qed.

(** ** The requested blocks *)

(** The chunks from the one with the first block on, without a gap, up to the end. *)
Definition run_of (end_ : option Z) (cs : list Chunk) : list Chunk := match cs with [] => [] | c :: cs => c :: continuation end_ c (Ok <$> cs) end.
Definition requested (first : Z) (end_ : option Z) (cs : list Chunk) : list cblock :=
  mjoin (chunk_blocks (Some first) end_ <$> run_of end_ (filter (λ c, first <= last_block c) cs)).

Lemma continuation_cons end_ c cs n : n ∈ continuation end_ c (Ok <$> cs) → ∃ next cs', cs = next :: cs' ∧ u64_add (last_block c) 1 = first_block next ∧
  continuation end_ c (Ok <$> cs) = next :: continuation end_ next (Ok <$> cs') ∧ (n = next ∨ n ∈ continuation end_ next (Ok <$> cs')).
Proof.
  destruct cs as [|next cs]; [by intros ?%elem_of_nil|]. cbn [fmap list_fmap continuation]. destruct (_ && _) eqn:E; [|by intros ?%elem_of_nil].
  apply andb_true_iff in E as [E _]. zbool. rewrite elem_of_cons. intros Hn. by exists next, cs.
Qed.

Lemma continuation_above end_ cs : ∀ c n, served c → Forall served cs → n ∈ continuation end_ c (Ok <$> cs) → served n ∧ last_block c < first_block n.
Proof.
  induction cs as [|next cs IH]; intros c n Hc Hcs Hn; [by apply elem_of_nil in Hn|]. apply Forall_cons in Hcs as [Hnext Hcs].
  destruct (continuation_cons _ _ _ _ Hn) as (next' & cs' & [= <- <-] & E & _ & Hor). destruct (sv_chunk c Hc). rewrite u64_add_small in E by lia.
  destruct Hor as [->|Hin]; [split; [done|lia]|]. destruct (IH next n Hnext Hcs Hin) as [Hs Hlt]. split; [done|]. destruct (sv_chunk next Hnext). lia.
Qed.

Lemma window_above f l c : served c → f <= first_block c → window (Some f) l c = window None l c.
Proof.
  intros Hc Hf. apply list_filter_iff', Forall_forall. intros n Hn. pose proof (sv_bounds c Hc n Hn). unfold in_block_range. destruct l; naive_solver lia.
Qed.

Lemma run_sorted f l end_ cs : ∀ c, served c → Forall served cs →
  StronglySorted Z.lt (mjoin (chunk_blocks f l <$> c :: continuation end_ c (Ok <$> cs))).*2 ∧
  ∀ n, n ∈ (mjoin (chunk_blocks f l <$> c :: continuation end_ c (Ok <$> cs))).*2 → first_block c <= n.
Proof.
  assert (∀ c n, n ∈ (chunk_blocks f l c).*2 → n ∈ blocks c) as Hin.
  { intros c n. unfold chunk_blocks. rewrite <-list_fmap_compose. unfold compose. cbn. rewrite list_fmap_id. by intros [_ ?]%list_elem_of_filter. }
  assert (∀ c, served c → StronglySorted Z.lt (chunk_blocks f l c).*2) as Hsort.
  { intros c Hc. unfold chunk_blocks. rewrite <-list_fmap_compose. unfold compose. cbn. rewrite list_fmap_id. apply StronglySorted_filter, Hc. }
  induction cs as [|next cs IH]; intros c Hc Hcs.
  - cbn. rewrite app_nil_r. split; [by apply Hsort|]. intros n Hn. by apply (sv_bounds c Hc), Hin.
  - apply Forall_cons in Hcs as [Hnext Hcs]. destruct (IH next Hnext Hcs) as [IH1 IH2]. cbn [fmap list_fmap continuation].
    destruct (_ && _) eqn:E; [|cbn; rewrite app_nil_r; split; [by apply Hsort|]; intros n Hn; by apply (sv_bounds c Hc), Hin].
    apply andb_true_iff in E as [E _]. zbool. destruct (sv_chunk c Hc). rewrite u64_add_small in E by lia.
    change (mjoin (?a :: ?l)) with (a ++ mjoin l). rewrite fmap_app. split.
    + apply StronglySorted_app. split; [|split; [by apply Hsort|exact IH1]]. intros x y Hx Hy. pose proof (sv_bounds c Hc x (Hin c x Hx)). specialize (IH2 y Hy). lia.
    + intros n [Hn|Hn]%elem_of_app; [by apply (sv_bounds c Hc), Hin|]. specialize (IH2 n Hn). lia.
Qed.

(** ** Starting a query *)

Context {M C : Type} `{HKV : KvStore M C} `{HKL : !KvStoreLaws M C} `{HB : Borsh} `{HBL : !BorshLaws} {QD : QueryDeps}.

(** The last block to deliver. *)
Definition end_of (rq : Query) (only_finalized : bool) (label : DatasetLabel) : option Z :=
  if only_finalized then
    match label_finalized_head label with
    | Some head => Some (match query_last_block rq with Some e => Z.min e (number head) | None => number head end)
    | None => None
    end
  else query_last_block rq.

(** The database can serve the query: the dataset is there and of its kind, its chunks are
    readable, the chunk [c0] holds the first block, its parent is the expected one, and a
    finalized query has a finalized head. *)
Record servable (d : db M) (id : DatasetId) (rq : Query) (only_finalized : bool) (label : DatasetLabel) (c0 : Chunk) : Prop := mkServable {
  sb_cf : chunks_cf_ok (d CF_CHUNKS);
  sb_id : dataset_id_ok id;
  sb_chain : chain (chunks_of (d CF_CHUNKS) id);
  sb_served : Forall served (chunks_of (d CF_CHUNKS) id);
  sb_label : get_label d id = Ok (Some label);
  sb_kind : ∃ k, from_query rq = Done k ∧ storage_kind k = Ok (label_kind label);
  sb_plan : query_compile rq = Ok p0;
  sb_first : u64_ok (query_first_block rq);
  sb_last : opt_u64 (query_last_block rq);
  sb_chunk : head (filter (λ c, query_first_block rq <= last_block c) (chunks_of (d CF_CHUNKS) id)) = Some c0 ∧ first_block c0 <= query_first_block rq;
  sb_parent h : query_parent_block_hash rq = Some h → query_first_block rq = first_block c0 → h = parent_block_hash c0;
  sb_finalized : only_finalized = true → ∃ head, label_finalized_head label = Some head ∧ u64_ok (number head)
}.

(** The first block of the query, inside of a chunk, follows the expected parent. *)
Definition accepted (rq : Query) (c0 : Chunk) : Prop := ∀ l h e, query_parent_block_hash rq = Some h → query_first_block rq ≠ first_block c0 → opt_u64 l →
  execute (windowed (Some (query_first_block rq)) l (Some h)) c0 ≠ Failed e.

Lemma first_plan_spec d id rq fin label c0 : servable d id rq fin label c0 →
  ∃ f l h, first_plan rq c0 = Done (windowed f l h) ∧ opt_u64 f ∧ (h = None ∨ h = query_parent_block_hash rq ∧ f = Some (query_first_block rq) ∧ query_first_block rq ≠ first_block c0) ∧
    ∀ e, window f e c0 = window (Some (query_first_block rq)) e c0.
Proof.
  intros Hs. destruct (query_compile_spec rq) as (ts & p & _ & Ep & _ & _ & _ & Eh & Ef & El). rewrite (sb_plan _ _ _ _ _ _ Hs) in Ep. injection Ep as <-.
  assert (served c0) as Hc0.
  { pose proof (sb_served _ _ _ _ _ _ Hs) as Hsv. rewrite Forall_forall in Hsv. apply Hsv. destruct (sb_chunk _ _ _ _ _ _ Hs) as [Hh _].
    apply head_Some_elem_of, list_elem_of_filter in Hh. apply Hh. }
  unfold first_plan. rewrite (sb_plan _ _ _ _ _ _ Hs). destruct (_ =? _) eqn:Efb; zbool.
  - exists None, (QueryPlan.last_block p0), None. split; [|split; [done|]; split; [by left|]; intros e; symmetry; apply window_above; [done|lia]].
    destruct (query_parent_block_hash rq) as [h|] eqn:Ehash; [|done]. rewrite (sb_parent _ _ _ _ _ _ Hs h Ehash Efb), bool_decide_eq_true_2 by done. done.
  - exists (QueryPlan.first_block p0), (QueryPlan.last_block p0), (QueryPlan.parent_block_hash p0). split; [unfold windowed; by rewrite plan_eta|].
    rewrite Ef, Eh. split; [apply Hs|]. split; [by right|done].
Qed.

Lemma todo_requested rq end_ c0 cs plan buf fin stats f : served c0 → Forall served cs → QueryPlan.first_block plan = f → query_first_block rq <= last_block c0 →
  window f end_ c0 = window (Some (query_first_block rq)) end_ c0 →
  todo (mkRunning plan end_ None (Some (Ok c0)) (Ok <$> cs) fin buf stats) = mjoin (chunk_blocks (Some (query_first_block rq)) end_ <$> c0 :: continuation end_ c0 (Ok <$> cs)).
Proof.
  intros Hc0 Hcs <- Hle Ew. unfold todo, left_todo, next_todo. cbn [rq_left_over rq_next_chunk rq_plan rq_last_block rq_chunk_iterator app]. rewrite fmap_cons.
  change (mjoin (?a :: ?l)) with (a ++ mjoin l). unfold chunk_blocks at 1 3. rewrite Ew. f_equal. f_equal. apply list_fmap_ext. intros i n Hi. unfold chunk_blocks. f_equal.
  symmetry. apply list_elem_of_lookup_2 in Hi. destruct (continuation_above end_ cs c0 n Hc0 Hcs Hi) as [Hn Hlt]. apply window_above; [done|lia].
Qed.

Lemma running_new_spec d id rq fin label c0 : servable d id rq fin label c0 →
  ∃ q, running_new d id rq fin enc = Done q ∧ valid q ∧ represents enc (rq_buf q) [] [] ∧
    todo q = requested (query_first_block rq) (end_of rq fin label) (chunks_of (d CF_CHUNKS) id) ∧ has_next_chunk q = true ∧ (accepted rq c0 → sure q).
Proof.
  intros Hs. destruct (first_plan_spec d id rq fin label c0 Hs) as (f & l & h & Efp & Hf & Hh & Hw). destruct (sb_kind _ _ _ _ _ _ Hs) as (k & Ek & Esk).
  destruct (new_represents enc) as (buf & Ebuf & Hbuf). unfold running_new. rewrite (sb_label _ _ _ _ _ _ Hs). cbn [lift mbind outcome_bind]. rewrite Ek.
  cbn [lift mbind outcome_bind]. rewrite Esk. cbn [lift mbind outcome_bind]. rewrite bool_decide_eq_true_2 by done. cbn [qensure mbind outcome_bind].
  rewrite (list_chunks_window _ _ _ None (sb_cf _ _ _ _ _ _ Hs) (sb_id _ _ _ _ _ _ Hs) (sb_first _ _ _ _ _ _ Hs) (sb_chain _ _ _ _ _ _ Hs)).
  assert (filter (λ c, in_window (query_first_block rq) None c = true) (chunks_of (d CF_CHUNKS) id) = filter (λ c, query_first_block rq <= last_block c) (chunks_of (d CF_CHUNKS) id)) as ->.
  { apply list_filter_iff. intros c. unfold in_window. rewrite andb_true_r. apply Z.leb_le. }
  destruct (sb_chunk _ _ _ _ _ _ Hs) as [Hc0 Hle]. unfold requested. assert (Forall served (filter (λ c, query_first_block rq <= last_block c) (chunks_of (d CF_CHUNKS) id))) as Hsv.
  { apply Forall_forall. intros c [_ Hc]%list_elem_of_filter. pose proof (sb_served _ _ _ _ _ _ Hs) as Hall. rewrite Forall_forall in Hall. by apply Hall. }
  assert (query_first_block rq <= last_block c0) as Hreach by (by apply head_Some_elem_of, list_elem_of_filter in Hc0 as [? _]).
  destruct (filter _ (chunks_of _ _)) as [|c cs]; [done|]. injection Hc0 as ->. apply Forall_cons in Hsv as [Hsc0 Hcs].
  cbn [fmap list_fmap first_item lift mbind outcome_bind tail option_fmap option_map]. cbn. rewrite (proj2 (Z.leb_le _ _) Hle). cbn. rewrite Efp. cbn.
  assert ((if fin then n ← finalized_query_last_block rq (label_finalized_head label); Done (Some n) else Done (query_last_block rq)) = Done (end_of rq fin label)) as ->.
  { unfold end_of. destruct fin; [|done]. destruct (sb_finalized _ _ _ _ _ _ Hs eq_refl) as (head & Eh & _). unfold finalized_query_last_block. by rewrite Eh. }
  cbn. rewrite Ebuf. cbn. eexists. split; [done|].
  assert (opt_u64 (end_of rq fin label)) as Hend.
  { pose proof (sb_last _ _ _ _ _ _ Hs) as Hlast. unfold end_of. destruct fin; [|done]. destruct (sb_finalized _ _ _ _ _ _ Hs eq_refl) as (head & -> & Hn). unfold opt_u64, u64_ok in *.
    destruct (query_last_block rq); lia. }
  split; [|split; [done|split; [|split; [done|]]]].
  - split; cbn; try done; [by eexists _, _|by intros r [= <-]|]. apply Forall_fmap. eapply Forall_impl; [exact Hcs|done].
  - rewrite (todo_requested rq (end_of rq fin label) c0 cs _ _ _ _ f Hsc0 Hcs); [done|done|done|apply Hw].
  - intros Hnf. split; cbn; [intros r [= <-]; by eexists|apply Forall_fmap, Forall_true; intros c'; by eexists|].
    intros l' h' c' e Eh [= <-] Hl'. destruct Hh as [->|(-> & -> & Hne)]; [done|]. by apply Hnf.
Qed.

(** The first task of a response. *)
Lemma response_new_spec e q : valid q → represents enc (rq_buf q) [] [] → has_next_chunk q = true →
  match response_new e (Done q) with
  | Panicked _ => False
  | Failed _ => pe_slot e = false ∨ ¬ sure q
  | Done r => ∃ q' pre ls, qr_runner r = Some q' ∧ valid q' ∧ represents enc (rq_buf q') [] (text_of ls) ∧ todo q = pre ++ todo q' ∧ delivers pre ls ∧
      (sure q → sure q') ∧ (steps q' < steps q)%nat
  end.
Proof.
  intros Hq Hb Hn. unfold response_new. destruct (pe_slot e); cbn [negb]; [|by left]. cbn [mbind outcome_bind].
  destruct (next_run_spec (pe_clock e) (run_fuel q) 0 0 q [] [] Hq Hb) as (q' & o & pre & ls & -> & Hb' & Hd & Hr); [by apply steps_fuel|].
  destruct Hr as [(err & rest & -> & _ & _ & Hs)|(-> & Hv & Et & Hs & Hf)]; cbn; [right; auto|].
  exists (take_finalized_head q').2, pre, ls. split; [done|]. split; [by destruct Hv; split|]. do 3 (split; [done|]). split; [|done]. intros [? ? ?]%Hs. by split.
Qed.

(** A query the database can serve starts; its body, for any clock, any slots and any
    time limit, is never aborted, and when it is closed it decompresses to the lines of blocks
    of the requested range, delivered from the first block on in ascending order without
    leaving out a wanted one; if its first block follows the expected parent and the client is
    patient, the body is closed after a bounded number of packs and covers the whole range. *)
Lemma query_stream_spec d id rq fin label c0 : servable d id rq fin label c0 →
  ∃ q, running_new d id rq fin enc = Done q ∧
    let asked := requested (query_first_block rq) (end_of rq fin label) (chunks_of (d CF_CHUNKS) id) in
    StronglySorted Z.lt asked.*2 ∧
    ∀ e calls, match response_new e (Done q) with
      | Panicked _ => False
      | Failed _ => pe_slot e = false ∨ ¬ accepted rq c0
      | Done r =>
          let '(packs, end_) := stream_query_response calls r in
          end_ ≠ StreamAborted ∧
          (end_ = StreamClosed → ∃ pre rest ls, asked = pre ++ rest ∧ delivers pre ls ∧ decompress enc (mjoin packs) = Some (text_of ls) ∧
             (accepted rq c0 → Forall patient calls → rest = [])) ∧
          (accepted rq c0 → Forall patient calls → (2 * run_fuel q <= length calls)%nat → end_ = StreamClosed)
      end.
Proof.
  intros Hs. destruct (running_new_spec d id rq fin label c0 Hs) as (q & Eq & Hq & Hb & Et & Hn & Hsure). exists q. split; [done|]. cbn zeta. split.
  { unfold requested. pose proof (sb_served _ _ _ _ _ _ Hs) as Hall. destruct (filter _ _) as [|c cs] eqn:Ef; [constructor|].
    assert (Forall served (c :: cs)) as [Hc Hcs]%Forall_cons; [|by apply run_sorted].
    rewrite <-Ef. apply Forall_forall. intros c' [_ Hc']%list_elem_of_filter. rewrite Forall_forall in Hall. by apply Hall. }
  intros e calls. pose proof (response_new_spec e q Hq Hb Hn) as Hr. pose proof (steps_fuel q Hq) as Hfuel. rewrite <-Et.
  destruct (response_new e (Done q)) as [r|err|m]; [|destruct Hr; [by left|right; auto]|done].
  destruct Hr as (q' & pre & ls & Er & Hv & Hb' & Et' & Hd & Hs' & Hf). pose proof (stream_spec calls r q' [] (text_of ls) Er Hv Hb') as [Ha Hc].
  pose proof (stream_closes calls r q' [] (text_of ls) Er Hv Hb') as Hcl. destruct (stream_query_response calls r) as [packs end_]. cbn [fst snd] in *.
  split; [done|]. split.
  - intros E. destruct (Hc E) as (pre' & rest & ls' & Et2 & Hd2 & Hdec & Hcomp). exists (pre ++ pre'), rest, (ls ++ ls'). split; [by rewrite Et', Et2, app_assoc|].
    split; [by apply delivers_app|]. split; [by rewrite text_of_app|]. intros Hnf Hp. apply Hcomp. auto.
  - intros Hnf Hp Hl. apply Hcl; [auto|done|]. unfold calls_left. destruct (_ <? _)%nat; lia.
Qed.
End run.

(** ** Admission *)

(** However admissions, refusals and releases interleave, the counter is the number of live
    slots and of refusals not yet taken back, and there are never more live slots than the
    limit. *)
Lemma slots_bounded limit s : 0 <= limit → rtc (slot_step limit) (mkSlots 0 0 0) s →
  in_flight s = Z.of_nat (slots_live s + slots_refused s) ∧ Z.of_nat (slots_live s) <= limit.
Proof.
  intros Hl Hr. assert (∀ s s', rtc (slot_step limit) s s' → in_flight s = Z.of_nat (slots_live s + slots_refused s) ∧ Z.of_nat (slots_live s) <= limit →
    in_flight s' = Z.of_nat (slots_live s' + slots_refused s') ∧ Z.of_nat (slots_live s') <= limit) as Hinv; [|eapply Hinv; [exact Hr|cbn; lia]].
  induction 1 as [|s1 s2 s3 Hs _ IH]; [done|]. intros Hi. apply IH. destruct Hs; cbn in *; lia.
Qed.

(** A query is refused only while the slots are taken or others are being refused. *)
Lemma slot_admitted limit s : 0 < limit → rtc (slot_step limit) (mkSlots 0 0 0) s → Z.of_nat (slots_live s + slots_refused s) < limit ↔ ∃ s', slot_step limit s s' ∧ slots_live s' = S (slots_live s).
Proof.
  intros Hl Hr. destruct (slots_bounded limit s ltac:(lia) Hr) as [Ei _]. destruct s as [n l r]. cbn in *. split.
  - intros Hlt. eexists. split; [apply Admit; lia|done].
  - intros (s' & Hs & E). inversion Hs; subst; cbn in E; lia.
Qed.

(** A task gets at most a tenth of a second. *)
Lemma time_limit_bounds urgency threads n : 0 <= urgency → 0 <= threads → 0 <= n → 0 <= time_limit urgency threads n <= 100.
Proof.
  intros Hu Ht Hn. unfold time_limit. destruct (n =? 0) eqn:E; zbool; [lia|]. split; [|lia]. apply Z.min_glb; [|lia]. apply Z.div_pos; [nia|lia].
Qed.

(** A query starts without waiting exactly when it is of the dataset's kind and the head it is
    about has reached its first block. *)
Lemma starts_at_once kind head finalized_head q finalized : is_long_poll kind head finalized_head q finalized = Done false ↔
  from_query q = Done kind ∧ ∃ h, (if finalized then finalized_head else head) = Some h ∧ query_first_block q <= number h.
Proof.
  assert (∀ k, ∃ sk, storage_kind k = Ok sk) as Hk by (intros []; eexists; by vm_compute). unfold is_long_poll.
  destruct (from_query q) as [qk|e|m]; cbn [mbind outcome_bind]; [|by split; [|intros [? _]]..]. destruct (Hk qk) as [sq ->], (Hk kind) as [sd ->]. cbn [lift mbind outcome_bind].
  case_bool_decide as E; cbn [qensure mbind outcome_bind]; [subst qk|split; [done|intros [[= ->] _]; done]].
  destruct (if finalized then finalized_head else head) as [h|]; [|split; [done|intros (_ & h & ? & _); done]].
  destruct (query_first_block q <=? number h) eqn:El; zbool; [split; [intros _; split; [done|by exists h]|done]|].
  split; [|intros (_ & h' & [= <-] & ?); lia]. destruct (_ =? _); [|done]. destruct (query_parent_block_hash q); [|done]. by case_bool_decide.
Qed.
