(* ===== verification/QueryExecSpec.v ===== *)
(** * Executing a plan on a stored chunk

    The execution of plan.rs, its data items and its writer keep the interface that running
    queries rely on: the window of blocks is answered with the first blocks that may be returned
    and fit, and the text of a block does not depend on the window. *)
From stdpp Require Import gmap sorting.
From S2P Require Import Prelude Bytes Ranges QueryStack QueryArrow QueryPred QueryPredSpec QueryScanSpec QueryRel QueryRelSpec QueryPlan QueryPlanSpec QueryOutput QueryOutputSpec QueryJson QueryRequests QueryRun QueryRunSpec.

(** ** Stored tables *)

(** A scan of a stored table: every read returns one batch. *)
Record stored_scan (s : Scan) (full : RecordBatch) : Prop := mkStoredScan {
  ss_fresh : fresh_scan s full;
  ss_schema : (reader_schema (reader s)).*1 = (rb_columns full).*1;
  ss_read p columns sel w dn : opt_pred_ok full p → ranges_ok sel (rb_num_rows full) →
    p = None ∧ sel = None ∨ rb_columns (keep_columns (read_columns p columns) full) ≠ [] →
    read (reader s) p columns sel w dn = Ok [indexed w (picked_rows p full sel) (take_rows (picked_rows p full sel) (keep_columns columns full))]
}.

(** The chunks of the database are such chunks. *)
Lemma stored_scan_table {AC : ArrowCompute} {ACL : ArrowComputeLaws} {AB : ArrowBatches} {ABL : ArrowBatchesLaws} t full :
  stored_ok t full → (sd_schema t).*1 = (rb_columns full).*1 → stored_scan (scan_new (storage_reader t)) full.
Proof. intros Ht Hn. split; [split; try done; by apply storage_reader_laws|done|]. intros. by apply storage_read_spec. Qed.

Definition stored_chunk (chunk : Chunk) (tables : gmap Name RecordBatch) : Prop :=
  ∀ name full, tables !! name = Some full → ∃ s, chunk name = Ok s ∧ stored_scan s full.

(** ** The window of blocks *)

(** The number in column [k] of a row. *)
Definition number_at (full : RecordBatch) (k : Name) (i : nat) : Z := int_cell (tcell full k i).

Definition window_predicate (f l : option Z) (k : Name) : option RowPredicate :=
  match f, l with
  | Some fst, Some lst => Some (col_between k (block_scalar fst) (block_scalar lst))
  | None, Some lst => Some (col_lt_eq k (block_scalar lst))
  | Some fst, None => Some (col_gt_eq k (block_scalar fst))
  | None, None => None
  end.

Definition opt_number (n : option Z) : Prop := match n with Some n => 0 <= n < 2 ^ 64 | None => True end.

Section window.
Context (full : RecordBatch) (k : Name) (Hb : batch_ok full) (Hk : number_column full k).
Context (f l : option Z) (Hf : opt_number f) (Hl : opt_number l).

Lemma window_predicate_ok : opt_pred_ok full (window_predicate f l k).
Proof.
  destruct Hk as (sg & bits & arr & Ha & Ht & _). unfold window_predicate. destruct f, l; cbn in Hf, Hl; try done; (split; [|done]); exists arr; (split; [done|]); rewrite Ht; cbn;
    unfold scalar_fits, scalar_ok; cbn; repeat constructor; unfold int_min, int_max; try lia; right; done.
Qed.

Lemma window_sem p i z : window_predicate f l k = Some p → (i < rb_num_rows full)%nat → tcell full k i = Some (CInt z) → row_sem p full i = Some (bool_decide (in_block_range f l z)).
Proof.
  intros Ep Hi Ez. destruct Hk as (sg & bits & arr & Ha & Ht & _). unfold tcell in Ez. rewrite Ha in Ez.
  assert (cell_ok (DInt sg bits) (CInt z)) as Hz.
  { rewrite <-Ht. destruct (batch_column_ok _ _ _ Hb Ha) as [Hok _]. unfold array_ok in Hok. rewrite Forall_forall in Hok. apply (Hok (Some (CInt z))).
    rewrite <-Ez. unfold cell_at in Ez |- *. destruct (nth_in_or_default i (arr_cells arr) None) as [Hin|E]; [by apply list_elem_of_In|congruence]. }
  unfold window_predicate in Ep. destruct f as [a|], l as [b|]; try done; injection Ep as <-; unfold col_between, col_lt_eq, col_gt_eq; cbn [row_sem]; rewrite Ha, Ez, Ht.
  - apply between_sem. done.
  - cbn in Hz. cbn [sem]. unfold sem_cmp, value_domain, block_scalar, in_block_range. cbn [sc_value fmap option_fmap option_map cell_leb].
    repeat case_if; zbool; f_equal; case_bool_decide; lia.
  - cbn in Hz. cbn [sem]. unfold sem_cmp, value_domain, block_scalar, in_block_range. cbn [sc_value fmap option_fmap option_map cell_leb].
    repeat case_if; zbool; f_equal; case_bool_decide; lia.
Qed.

(** The rows of the window. *)
Lemma window_picks sel : ranges_ok sel (rb_num_rows full) →
  picked_rows (window_predicate f l k) full sel = filter (λ i, in_block_range f l (number_at full k i)) (rows_of sel (rb_num_rows full)).
Proof.
  intros Hs. destruct (rows_of_sorted_ok sel (rb_num_rows full) Hs) as [_ Hlt]. unfold picked_rows. apply list_filter_iff', Forall_forall. intros i Hi. specialize (Hlt i Hi).
  destruct Hk as (_ & _ & _ & _ & _ & Hz). destruct (Hz i Hlt) as (z & Ez & _). unfold number_at. rewrite Ez. cbn [int_cell]. unfold picked.
  destruct (window_predicate f l k) as [p|] eqn:Ep; [rewrite bool_decide_eq_true, (window_sem p i z Ep Hlt Ez); split; [intros [= E]; by apply bool_decide_eq_true in E|]; intros H; f_equal; by apply bool_decide_eq_true_2|].
  unfold window_predicate in Ep. by destruct f, l.
Qed.
End window.

(** ** Weighed rows *)

(** The order of rows by key. *)
Fixpoint key_cmp (full : RecordBatch) (key : list Name) (i j : nat) : comparison :=
  match key with
  | [] => Eq
  | c :: key => match bytes_cmp (cell_key (tcell full c i)) (cell_key (tcell full c j)) with Eq => key_cmp full key i j | o => o end
  end.

(** A table fits an output of the plan: its key begins with block numbers, identifies the rows,
    can be sorted and is projected, and the columns of weights hold numbers. *)
Record output_data (o : Output) (full : RecordBatch) (k : Name) (ks : list Name) : Prop := mkOutputData {
  od_key : out_key o = k :: ks;
  od_number : number_column full k;
  od_weights : Forall (λ c, is_Some (column_by_name full c) ∧ ∀ i, (i < rb_num_rows full)%nat → ∃ z, tcell full c i = Some (CInt z) ∧ 0 <= z) (weight_columns o);
  od_weight : 0 <= weight_per_row o;
  od_sortable : Forall (λ c, ∃ arr, column_by_name full c = Some arr ∧ key_type_ok (arr_type arr) = true) (out_key o);
  od_projected : Forall (λ c, c ∈ out_projection o) (out_key o);
  od_unique i j : (i < rb_num_rows full)%nat → (j < rb_num_rows full)%nat → key_cmp full (out_key o) i j = Eq → i = j
}.

Definition row_weight (o : Output) (full : RecordBatch) (i : nat) : Z := fold_left (λ acc c, acc + int_cell (tcell full c i)) (weight_columns o) (weight_per_row o).
Definition orow_of (o : Output) (full : RecordBatch) (k : Name) (i : nat) : orow := mkORow (Z.of_nat i) (number_at full k i) (Some (row_weight o full i)).

(** The rows of the selection in the window. *)
Definition window_of (full : RecordBatch) (k : Name) (f l : option Z) (sel : option (list range)) : list nat :=
  filter (λ i, in_block_range f l (number_at full k i)) (rows_of sel (rb_num_rows full)).

Section weigh.
Context {PB : PolarsBlocks} {PBL : PolarsBlocksLaws}.
Context (o : Output) (full : RecordBatch) (k : Name) (ks : list Name) (Hd : output_data o full k ks) (s : Scan) (Hs : stored_scan s full).

Lemma table_batch_ok : batch_ok full.
Proof. apply (fs_reader s full (ss_fresh s full Hs)). Qed.
Lemma table_not_index c : is_Some (column_by_name full c) → c ≠ "row_index".
Proof.
  intros Hc. pose proof (reader_names (ReaderLaws := fs_reader s full (ss_fresh s full Hs))) as Hn. assert (key_columns full [c]) as Hk by (by constructor).
  by apply (key_not_index full [c] Hn), Forall_cons in Hk as [? _].
Qed.
Lemma number_is_Some : is_Some (column_by_name full k).
Proof. destruct (od_number _ _ _ _ Hd) as (? & ? & arr & Ha & _). by eexists. Qed.

Lemma weigh_scan f l sel : opt_number f → opt_number l → ranges_ok sel (rb_num_rows full) →
  ∃ b, scan_execute (with_columns (with_column (with_row_index (with_predicate (with_row_selection s sel) (window_predicate f l k)) true) k) (weight_columns o)) = Ok [b] ∧
    weigh_rows (weight_per_row o) (weight_columns o) k (batches_frame [b]) = Ok (orow_of o full k <$> window_of full k f l sel).
Proof.
  intros Hf Hl Hsel. pose proof table_batch_ok as Hb. pose proof (ss_read s full Hs (window_predicate f l k) (Some ({[k]} ∪ list_to_set (weight_columns o))) sel true (default_null_columns s)) as Hr.
  assert (key_columns full (k :: weight_columns o)) as Hk.
  { constructor; [apply number_is_Some|]. eapply Forall_impl; [apply Hd|]. by intros c [? _]. }
  assert (Forall (λ c, in_projection (Some ({[k]} ∪ list_to_set (weight_columns o))) c) (k :: weight_columns o)) as Hp.
  { apply Forall_forall. intros c Hc. cbn. apply elem_of_cons in Hc as [->|Hc]; [set_solver|]. apply elem_of_union. right. by apply elem_of_list_to_set. }
  eexists. split.
  - unfold scan_execute, with_column, with_columns. pose proof (ss_fresh s full Hs) as [_ _ Hpr _ _]. cbn [scan_projection with_row_index with_predicate with_row_selection with_projection]. rewrite Hpr.
    cbn [scan_projection with_projection reader predicate row_selection row_index default_null_columns with_row_index with_predicate with_row_selection].
    replace (list_to_set [k] : gset Name) with ({[k]} : gset Name) by set_solver. apply Hr; [apply window_predicate_ok; [apply Hd|done..]|done|].
    right. apply (keep_columns_ne full [k]); [done|by constructor; [apply number_is_Some|]|]. constructor; [|done]. cbn [read_columns]. destruct (window_predicate f l k); cbn; set_solver.
  - fold (table_frame full (Some ({[k]} ∪ list_to_set (weight_columns o))) true (picked_rows (window_predicate f l k) full sel)). rewrite (window_picks full k Hb (od_number _ _ _ _ Hd)) by done.
    fold (window_of full k f l sel). rewrite weigh_rows_spec.
    2: { constructor; [|by apply table_frame_has]. pose proof (table_frame_index full (Some ({[k]} ∪ list_to_set (weight_columns o))) (window_of full k f l sel)) as Hix.
       by apply Forall_cons in Hix as [? _]. }
    rewrite table_frame_rows, <-list_fmap_compose. f_equal. apply list_fmap_ext. intros x i Hi. unfold compose. rewrite get_row_index. cbn [int_cell].
    assert (∀ c, c ∈ k :: weight_columns o → get c (row_of full (Some ({[k]} ∪ list_to_set (weight_columns o))) true i) = tcell full c i) as Hget.
    { intros c Hc. unfold key_columns in Hk. rewrite Forall_forall in Hk, Hp. apply get_row_of; [by apply table_not_index, Hk|by apply Hp]. }
    unfold orow_of, number_at. rewrite Hget by left. f_equal. unfold row_weight.
    assert (i < rb_num_rows full)%nat as Hlt.
    { apply list_elem_of_lookup_2 in Hi. apply list_elem_of_filter in Hi as [_ Hi]. by apply (rows_of_sorted_ok sel). }
    assert (∀ cs w, (∀ c, c ∈ cs → c ∈ weight_columns o) → fold_left (λ acc c, null_add acc (cell_int (get c (row_of full (Some ({[k]} ∪ list_to_set (weight_columns o))) true i)))) cs (Some w) =
      Some (fold_left (λ acc c, acc + int_cell (tcell full c i)) cs w)) as Hfold; [|by apply Hfold].
    pose proof (od_weights _ _ _ _ Hd) as Hw. rewrite Forall_forall in Hw. induction cs as [|c cs IH]; intros w Hin; [done|]. cbn [fold_left]. rewrite Hget by (right; apply Hin; left).
    destruct (Hw c (Hin c ltac:(left))) as [_ Hz]. destruct (Hz i Hlt) as (z & -> & _). cbn [cell_int null_add int_cell]. apply IH. intros c' Hc'. apply Hin. by right.
Qed.
End weigh.

(** ** Lists *)

Lemma collect_imap {A B} (g : nat → A → res B) (h : nat → A → B) l : (∀ idx x, l !! idx = Some x → g idx x = Ok (h idx x)) → collect (imap g l) = Ok (imap h l).
Proof.
  intros Hg. rewrite <-(collect_Ok (imap h l)). f_equal. apply list_eq. intros i. rewrite list_lookup_fmap, !list_lookup_imap. destruct (l !! i) as [x|] eqn:E; [|done]. cbn. by rewrite (Hg i x E).
Qed.
Lemma imap_imap {A B C} (g : nat → A → B) (h : nat → B → C) l : imap h (imap g l) = imap (λ i x, h i (g i x)) l.
Proof. apply list_eq. intros i. rewrite !list_lookup_imap. by destruct (l !! i). Qed.
Lemma filter_fmap {A B} (f : A → B) (P : B → Prop) `{!∀ x, Decision (P x)} (l : list A) : filter P (f <$> l) = f <$> filter (λ x, P (f x)) l.
Proof. induction l as [|x l IH]; [done|]. rewrite fmap_cons, !filter_cons, IH. by case_decide. Qed.
Lemma sorted_lt (l : list Z) : StronglySorted Z.le l → NoDup l → StronglySorted Z.lt l.
Proof.
  intros Hs Hn. induction Hs as [|x l Hs IH Hx]; [constructor|]. apply NoDup_cons in Hn as [Hnin Hn]. constructor; [auto|]. rewrite Forall_forall in Hx |- *. intros y Hy.
  specialize (Hx y Hy). assert (x ≠ y) by (intros ->; done). lia.
Qed.
Lemma sorted_Z_ext (l k : list Z) : StronglySorted Z.lt l → StronglySorted Z.lt k → (∀ n, n ∈ l ↔ n ∈ k) → l = k.
Proof.
  assert (∀ l, StronglySorted Z.lt l → NoDup l ∧ StronglySorted Z.le l) as Hs.
  { induction 1 as [|x l' Hs [IH1 IH2] Hx]; [by split; constructor|]. rewrite Forall_forall in Hx. split; constructor; try done; [intros Hin; specialize (Hx x Hin); lia|].
    apply Forall_forall. intros y Hy. specialize (Hx y Hy). lia. }
  intros Hl Hk E. destruct (Hs l Hl), (Hs k Hk). apply (StronglySorted_unique Z.le); [done..|]. by apply NoDup_Permutation.
Qed.
Lemma max_block_spec l : l ≠ [] → max_block l ∈ l ∧ ∀ n, n ∈ l → n <= max_block l.
Proof.
  intros Hne. split; [by apply max_block_elem|]. unfold max_block. generalize (hd 0 l). clear Hne. induction l as [|x l IH]; intros d n Hn; [by apply elem_of_nil in Hn|].
  cbn [foldr]. apply elem_of_cons in Hn as [->|Hn]; [lia|]. specialize (IH d n Hn). lia.
Qed.
Lemma sorted_head_min (W : list Z) n : StronglySorted Z.lt W → head W = Some n ↔ n ∈ W ∧ ∀ m, m ∈ W → n <= m.
Proof.
  intros Hs. destruct W as [|x W]; [split; [done|intros [[]%elem_of_nil _]]|]. apply StronglySorted_inv in Hs as [_ Hx]. rewrite Forall_forall in Hx. cbn [head]. split.
  - intros [= ->]. split; [left|]. intros m [->|Hm]%elem_of_cons; [lia|]. specialize (Hx m Hm). lia.
  - intros [Hn Hle]. apply elem_of_cons in Hn as [->|Hn]; [done|]. specialize (Hx n Hn). specialize (Hle x ltac:(left)). lia.
Qed.
Lemma sorted_last_max (W : list Z) n : StronglySorted Z.lt W → last W = Some n ↔ n ∈ W ∧ ∀ m, m ∈ W → m <= n.
Proof.
  intros Hs. destruct W as [|x W _] using rev_ind; [split; [done|intros [[]%elem_of_nil _]]|]. apply StronglySorted_app in Hs as (Hlt & _ & _). rewrite last_snoc. split.
  - intros [= ->]. split; [set_solver|]. intros m [Hm|Hm]%elem_of_app; [|apply list_elem_of_singleton in Hm; lia]. specialize (Hlt m n Hm ltac:(left)). lia.
  - intros [Hn Hle]. apply elem_of_app in Hn as [Hn|Hn]; [|by apply list_elem_of_singleton in Hn as ->]. specialize (Hlt n x Hn ltac:(left)). specialize (Hle x ltac:(set_solver)). lia.
Qed.

(** ** The rows of the outputs *)

(** An output of the plan with its table. *)
Record otab : Type := mkOtab { ot_out : Output; ot_full : RecordBatch; ot_key : Name; ot_keys : list Name }.
Definition otab_ok (t : otab) : Prop := output_data (ot_out t) (ot_full t) (ot_key t) (ot_keys t).
Definition tnumber (t : otab) (i : nat) : Z := number_at (ot_full t) (ot_key t) i.
Definition torow (t : otab) : nat → orow := orow_of (ot_out t) (ot_full t) (ot_key t).

(** The rows of an output before the window: all blocks, or the selected rows. *)
Definition base_rows (idx : nat) (t : otab) (rl : RowList) : list nat :=
  if (idx =? 0)%nat then seq 0 (rb_num_rows (ot_full t)) else filter (λ i, Z.of_nat i ∈ rl) (seq 0 (rb_num_rows (ot_full t))).
Definition rows_in (f l : option Z) (idx : nat) (t : otab) (rl : RowList) : list nat := filter (λ i, in_block_range f l (tnumber t i)) (base_rows idx t rl).

Lemma base_rows_sorted idx t rl : StronglySorted lt (base_rows idx t rl) ∧ ∀ i, i ∈ base_rows idx t rl → (i < rb_num_rows (ot_full t))%nat.
Proof.
  unfold base_rows. destruct (idx =? 0)%nat.
  - split; [apply seq_StronglySorted|]. intros i Hi%elem_of_seq. lia.
  - split; [apply filter_rows_sorted, seq_StronglySorted|]. intros i [_ Hi%elem_of_seq]%list_elem_of_filter. lia.
Qed.
Lemma rows_in_sorted f l idx t rl : StronglySorted lt (rows_in f l idx t rl) ∧ ∀ i, i ∈ rows_in f l idx t rl → (i < rb_num_rows (ot_full t))%nat.
Proof.
  destruct (base_rows_sorted idx t rl) as [Hs Hb]. split; [by apply filter_rows_sorted|]. intros i [_ Hi]%list_elem_of_filter. by apply Hb.
Qed.

(** A selection of given rows. *)
Lemma select_rows (R : list nat) n : StronglySorted lt R → (∀ i, i ∈ R → (i < n)%nat) → Z.of_nat n < 2 ^ 32 →
  ∃ sel, from_sorted_indexes (Z.of_nat <$> R) = Ok sel ∧ ranges_ok (Some sel) n ∧ rows_of (Some sel) n = R.
Proof.
  intros Hs Hb Hn. destruct (range_from_sorted_indexes_spec (Z.of_nat <$> R)) as (out & lo & E & Hsl & Hc).
  - apply Forall_fmap, Forall_forall. intros i Hi. specialize (Hb i Hi). cbn. unfold u32_max. lia.
  - clear -Hs. induction Hs as [|x l Hs IH Hx]; [constructor|]. rewrite fmap_cons. constructor; [done|]. apply Forall_fmap. eapply Forall_impl; [exact Hx|]. intros y. cbn. lia.
  - assert (ranges_ok (Some out) n) as Hok.
    { split; [by exists lo|]. intros i Hi. apply Hc, list_elem_of_fmap in Hi as (j & -> & Hj). specialize (Hb j Hj). lia. }
    exists out. split; [done|]. split; [done|]. apply sorted_ext; [by apply rows_of_sorted_ok|done|]. intros i. rewrite elem_rows_of by (by apply ranges_ok_lo in Hok).
    rewrite Hc, list_elem_of_fmap. split; [intros (j & E' & Hj); by replace i with j by lia|]. intros Hi. by exists i.
Qed.

(** A plan on a window, the tables of its outputs and the selected rows. *)
Section execution.
Context {PB : PolarsBlocks} {PBL : PolarsBlocksLaws}.
Context (chunk : Chunk) (T : gmap Name RecordBatch) (tabs : list otab).
Context (Hchunk : stored_chunk chunk T).
Context (Htabs : Forall (λ t, otab_ok t ∧ T !! out_table (ot_out t) = Some (ot_full t)) tabs).
Context (p : Plan) (Hp : plan_outputs p = ot_out <$> tabs).
Context (Hf : opt_number (first_block p)) (Hl : opt_number (last_block p)).

Lemma tab_scan idx t : tabs !! idx = Some t → otab_ok t ∧ slice_get (plan_outputs p) idx = Ok (ot_out t) ∧ ∃ s, chunk (out_table (ot_out t)) = Ok s ∧ stored_scan s (ot_full t).
Proof.
  intros Hi. rewrite Forall_forall in Htabs. destruct (Htabs t) as [Ht HT]; [by eapply list_elem_of_lookup_2|]. split; [done|]. split; [|by apply Hchunk].
  unfold slice_get. by rewrite Hp, list_lookup_fmap, Hi.
Qed.

Lemma weighed_rows_spec idx t rl : tabs !! idx = Some t → rows_in_table rl (ot_full t) →
  weighed_rows p chunk idx rl = Ok (torow t <$> rows_in (first_block p) (last_block p) idx t rl).
Proof.
  intros Hi Hr. destruct (tab_scan idx t Hi) as (Ht & Ho & s & Es & Hs). pose proof (reader_small (ReaderLaws := fs_reader _ _ (ss_fresh _ _ Hs))) as Hsmall. unfold weighed_rows. rewrite Ho.
  cbn [mbind res_bind]. rewrite (od_key _ _ _ _ Ht). cbn [slice_get lookup list_lookup mbind res_bind].
  assert (∀ sel, ranges_ok sel (rb_num_rows (ot_full t)) → rows_of sel (rb_num_rows (ot_full t)) = base_rows idx t rl → (scan ← chunk (out_table (ot_out t));
    predicate ← get_block_number_predicate p idx;
    bs ← scan_execute (with_columns (with_column (with_row_index (with_predicate (with_row_selection scan sel) predicate) true) (ot_key t)) (weight_columns (ot_out t)));
    match bs with [] => Ok [] | _ => weigh_rows (weight_per_row (ot_out t)) (weight_columns (ot_out t)) (ot_key t) (batches_frame bs) end) =
    Ok (torow t <$> rows_in (first_block p) (last_block p) idx t rl)) as Hscan.
  { intros sel Hsel Erows. rewrite Es. cbn [mbind res_bind]. unfold get_block_number_predicate. rewrite Ho. cbn [mbind res_bind]. rewrite (od_key _ _ _ _ Ht).
    cbn [slice_get lookup list_lookup mbind res_bind]. change (match first_block p with Some _ => _ | None => _ end) with (window_predicate (first_block p) (last_block p) (ot_key t)).
    destruct (weigh_scan (ot_out t) (ot_full t) (ot_key t) (ot_keys t) Ht s Hs (first_block p) (last_block p) sel Hf Hl Hsel) as (b & Eb & Ew). rewrite Eb. cbn [mbind res_bind].
    rewrite Ew. unfold window_of. by rewrite Erows. }
  destruct (idx =? 0)%nat eqn:Ei; cbn [negb andb mbind res_bind].
  - apply Hscan; [done|]. unfold base_rows. by rewrite Ei.
  - case_bool_decide as Hrl.
    + unfold rows_in, base_rows. rewrite Ei, Hrl. rewrite (list_filter_none (λ i, Z.of_nat i ∈ (∅ : RowList))); [done|]. set_solver.
    + destruct (input_selection rl (ot_full t) Hsmall Hr) as (sel & Esel & Hok & Hel). rewrite Esel. cbn [mbind res_bind]. apply Hscan; [done|].
      apply sorted_ext; [by apply rows_of_sorted_ok|apply base_rows_sorted|]. intros i. rewrite Hel. unfold base_rows. rewrite Ei, list_elem_of_filter, elem_of_seq.
      split; [intros Hin; split; [done|]; specialize (Hr _ Hin); lia|by intros [? _]].
Qed.

(** The records of returned rows. *)
Lemma output_records_spec idx t R : tabs !! idx = Some t → StronglySorted lt R → (∀ i, i ∈ R → (i < rb_num_rows (ot_full t))%nat) →
  output_records p chunk idx (torow t <$> R) = Ok [take_rows R (keep_columns (Some (out_projection (ot_out t))) (ot_full t))].
Proof.
  intros Hi Hs Hb. destruct (tab_scan idx t Hi) as (Ht & Ho & s & Es & Hss). pose proof (reader_small (ReaderLaws := fs_reader _ _ (ss_fresh _ _ Hss))) as Hsmall.
  unfold output_records. rewrite Ho. cbn [mbind res_bind]. rewrite <-list_fmap_compose. change (or_index ∘ torow t) with Z.of_nat.
  destruct (select_rows R _ Hs Hb Hsmall) as (sel & -> & Hok & Erows). cbn [mbind res_bind]. rewrite Es. cbn [mbind res_bind]. unfold scan_execute.
  pose proof (ss_fresh _ _ Hss) as [_ Hpred _ _ Hix]. cbn [with_projection with_row_selection reader predicate scan_projection row_selection row_index default_null_columns].
  rewrite Hpred, Hix. rewrite (ss_read _ _ Hss); [|done|done|].
  - unfold indexed. by rewrite picked_rows_none, Erows.
  - right. apply (keep_columns_ne (ot_full t) [ot_key t]); [done|constructor; [|done]; by eapply number_is_Some|]. constructor; [|done]. cbn [read_columns in_projection].
    pose proof (od_projected _ _ _ _ Ht) as Hpr. rewrite (od_key _ _ _ _ Ht) in Hpr. by apply Forall_cons in Hpr as [? _].
Qed.
End execution.

(** ** The blocks and records of a window *)

(** The block table, and the other outputs with their selected rows. *)
Abbreviation odata := (otab * RowList)%type.
Definition data_rows (f l : option Z) (idx : nat) (x : odata) : list nat := rows_in f l idx x.1 x.2.
Definition item_blocks (data : list odata) : list Z := mjoin (imap (λ idx x, tnumber x.1 <$> base_rows (S idx) x.1 x.2) data).
Definition table_blocks (t : otab) : list Z := merge_sort Z.le (tnumber t <$> seq 0 (rb_num_rows (ot_full t))).
Definition block_window (f l : option Z) (t : otab) : list Z := filter (in_block_range f l) (table_blocks t).

(** What is assumed of the data of a chunk. *)
Record chunk_data (d0 : odata) (data : list odata) : Prop := mkChunkData {
  cd_header : ot_keys d0.1 = [];
  cd_rows : Forall (λ x : odata, rows_in_table x.2 (ot_full x.1)) (d0 :: data);
  cd_blocks n : n ∈ item_blocks data → n ∈ table_blocks d0.1;
  cd_weights : weights_ok (weights (mjoin (imap (λ idx x, torow x.1 <$> base_rows idx x.1 x.2) (d0 :: data))))
}.

Definition wanted_block (include_all : bool) (data : list odata) (n : Z) : Prop := include_all = true ∨ n ∈ item_blocks data.
Definition candidate_block (include_all : bool) (data : list odata) (W : list Z) (n : Z) : Prop := wanted_block include_all data n ∨ head W = Some n ∨ last W = Some n.
#[export] Instance candidate_block_dec include_all data W n : Decision (candidate_block include_all data W n).
Proof. unfold candidate_block, wanted_block. apply _. Defined.

(** The rows of output [idx] that are returned, and their records. *)
Definition chosen_rows (f l : option Z) (chosen : list Z) (idx : nat) (x : odata) : list nat := filter (λ i, tnumber x.1 i ∈ chosen) (data_rows f l idx x).
Definition records_of (f l : option Z) (chosen : list Z) (idx : nat) (x : odata) : option (list RecordBatch) :=
  if decide (data_rows f l idx x = []) then None
  else Some [take_rows (chosen_rows f l chosen idx x) (keep_columns (Some (out_projection (ot_out x.1))) (ot_full x.1))].

Section answer.
Context (d0 : odata) (data : list odata) (Hd : chunk_data d0 data).
Context (H0 : otab_ok d0.1).

Lemma header_numbers : NoDup (tnumber d0.1 <$> seq 0 (rb_num_rows (ot_full d0.1))).
Proof.
  apply NoDup_alt. intros a b n Ha Hb. rewrite list_lookup_fmap in Ha, Hb. destruct (seq 0 _ !! a) as [i|] eqn:Ei; [|done]. destruct (seq 0 _ !! b) as [j|] eqn:Ej; [|done].
  apply lookup_seq in Ei as [-> Hi], Ej as [-> Hj]. cbn [Nat.add] in *. injection Ha as Ha. injection Hb as Hb. apply (od_unique _ _ _ _ H0); [done..|].
  rewrite (od_key _ _ _ _ H0), (cd_header _ _ Hd). cbn [key_cmp]. unfold tnumber, number_at in Ha, Hb. destruct (od_number _ _ _ _ H0) as (_ & _ & _ & _ & _ & Hz).
  destruct (Hz a Hi) as (z1 & E1 & _), (Hz b Hj) as (z2 & E2 & _). rewrite E1 in Ha |- *. rewrite E2 in Hb |- *. cbn in Ha, Hb. subst. cbn [cell_key]. by rewrite (proj2 (bytes_cmp_eq _ _) eq_refl).
Qed.

Lemma table_blocks_sorted : StronglySorted Z.lt (table_blocks d0.1).
Proof.
  assert (StronglySorted Z.le (table_blocks d0.1)) as Hs by apply (StronglySorted_merge_sort Z.le).
  assert (NoDup (table_blocks d0.1)) as Hn by (unfold table_blocks; rewrite merge_sort_Permutation; apply header_numbers).
  by apply sorted_lt.
Qed.

Lemma elem_table_blocks n : n ∈ table_blocks d0.1 ↔ ∃ i, (i < rb_num_rows (ot_full d0.1))%nat ∧ n = tnumber d0.1 i.
Proof. unfold table_blocks. rewrite merge_sort_Permutation, list_elem_of_fmap. setoid_rewrite elem_of_seq. split; intros (i & ? & ?); exists i; (split; [lia|done]) || (split; [done|lia]). Qed.

Lemma elem_header_window f l n : n ∈ tnumber d0.1 <$> data_rows f l 0 d0 ↔ n ∈ block_window f l d0.1.
Proof.
  unfold block_window. rewrite list_elem_of_filter, elem_table_blocks, list_elem_of_fmap. unfold data_rows, rows_in, base_rows. cbn [Nat.eqb]. setoid_rewrite list_elem_of_filter. setoid_rewrite elem_of_seq.
  split; [intros (i & -> & Hin & Hi); split; [done|]; exists i; split; [lia|done]|]. intros (Hin & i & Hi & ->). exists i. split; [done|]. split; [done|lia].
Qed.

Lemma elem_item_window f l n : n ∈ or_block <$> mjoin (imap (λ idx x, torow x.1 <$> data_rows f l (S idx) x) data) ↔ n ∈ item_blocks data ∧ in_block_range f l n.
Proof.
  unfold item_blocks. rewrite list_elem_of_fmap. setoid_rewrite list_elem_of_join. split.
  - intros (r & -> & rows & Hr & Hrows). apply elem_of_lookup_imap in Hrows as (idx & x & -> & Hx). apply list_elem_of_fmap in Hr as (i & -> & Hi). apply list_elem_of_filter in Hi as [Hin Hi].
    split; [|done]. exists (tnumber x.1 <$> base_rows (S idx) x.1 x.2). split; [by apply (list_elem_of_fmap_2 (tnumber x.1))|]. apply elem_of_lookup_imap. by exists idx, x.
  - intros ((ns & Hn & Hns) & Hin). apply elem_of_lookup_imap in Hns as (idx & x & -> & Hx). apply list_elem_of_fmap in Hn as (i & -> & Hi). exists (torow x.1 i). split; [done|].
    exists (torow x.1 <$> data_rows f l (S idx) x). split; [|apply elem_of_lookup_imap; by exists idx, x]. apply list_elem_of_fmap_2, list_elem_of_filter. done.
Qed.

Lemma weights_sublist l k : l `sublist_of` k → weights_ok (weights k) → weights_ok (weights l).
Proof.
  intros Hs [Hn Ht]. unfold weights_ok. assert (Forall (λ r : bweight, 0 <= oweight r.2) (weights l) ∧ total (weights l) <= total (weights k)) as [? ?]; [|split; [done|lia]]. clear Ht.
  induction Hs as [|r l k Hs IH|r l k Hs IH]; [done| |]; unfold weights in *; rewrite fmap_cons in Hn; apply Forall_cons in Hn as [Hr Hn]; destruct (IH Hn) as [H1 H2];
    rewrite ?fmap_cons, ?weight_total_cons; cbn [snd] in *; (split; [by try constructor|lia]).
Qed.

Lemma window_sublist f l : ∀ (off : nat) (ds : list odata), mjoin (imap (λ idx x, torow x.1 <$> data_rows f l (off + idx) x) ds) `sublist_of` mjoin (imap (λ idx x, torow x.1 <$> base_rows (off + idx) x.1 x.2) ds).
Proof.
  intros off ds. revert off. induction ds as [|x ds IH]; intros off; [done|]. rewrite !imap_cons. change (mjoin (?a :: ?l)) with (a ++ mjoin l). apply sublist_app.
  - apply fmap_sublist, sublist_filter.
  - specialize (IH (S off)). replace (imap ((λ idx x, torow x.1 <$> data_rows f l (off + idx) x) ∘ S) ds) with (imap (λ idx x, torow x.1 <$> data_rows f l (S off + idx) x) ds)
      by (apply imap_ext; intros i y _; unfold compose; do 2 f_equal; lia).
    replace (imap ((λ idx x, torow x.1 <$> base_rows (off + idx) x.1 x.2) ∘ S) ds) with (imap (λ idx x, torow x.1 <$> base_rows (S off + idx) x.1 x.2) ds)
      by (apply imap_ext; intros i y _; unfold compose; do 2 f_equal; lia). done.
Qed.

Lemma block_window_sorted f l : StronglySorted Z.lt (block_window f l d0.1).
Proof.
  unfold block_window. pose proof table_blocks_sorted as Hs. induction Hs as [|x k Hs IH Hx]; [constructor|]. rewrite filter_cons. case_decide; [|done]. constructor; [done|].
  rewrite Forall_forall in Hx |- *. intros y [_ Hy]%list_elem_of_filter. auto.
Qed.

Context {PB : PolarsBlocks} {PBL : PolarsBlocksLaws}.

(** The chosen blocks: the first candidates of the window. *)
Lemma window_blocks include_all f l : data_rows f l 0 d0 ≠ [] →
  let W := block_window f l d0.1 in
  let header := torow d0.1 <$> data_rows f l 0 d0 in
  let items := imap (λ idx x, torow x.1 <$> data_rows f l (S idx) x) data in
  ∃ k last, select_blocks include_all header items = Ok (take (S k) (filter (candidate_block include_all data W) W), last) ∧
    ∀ idx x, (d0 :: data) !! idx = Some x → returned_rows include_all idx (take (S k) (filter (candidate_block include_all data W) W)) last (torow x.1 <$> data_rows f l idx x) =
      torow x.1 <$> chosen_rows f l (take (S k) (filter (candidate_block include_all data W) W)) idx x.
Proof.
  intros Hne W header items. assert (or_block <$> header = tnumber d0.1 <$> data_rows f l 0 d0) as Eh by (unfold header; by rewrite <-list_fmap_compose).
  assert (∀ n, n ∈ or_block <$> header ↔ n ∈ W) as HW by (intros n; rewrite Eh; apply elem_header_window).
  assert (∀ n, n ∈ or_block <$> mjoin items → n ∈ W) as Hitems.
  { intros n Hn. apply elem_item_window in Hn as [Hn Hin]. apply list_elem_of_filter. split; [done|]. by apply (cd_blocks _ _ Hd). }
  assert (header ≠ []) as Hh by (unfold header; by destruct (data_rows f l 0 d0)).
  destruct (response_blocks_spec include_all header items) as (cs & k & last_ & Hc & Hk & Esel & Hret).
  - done.
  - rewrite Eh. eapply sublist_NoDup; [apply header_numbers|]. apply fmap_sublist. unfold data_rows, rows_in. etrans; [apply sublist_filter|]. done.
  - unfold header. apply Forall_fmap, Forall_true. intros i. by eexists.
  - eapply weights_sublist; [|apply (cd_weights _ _ Hd)]. unfold header, items. apply (window_sublist f l 0 (d0 :: data)).
  - assert (cs.*1 = filter (candidate_block include_all data W) W) as Ecs.
    { pose proof (block_window_sorted f l) as Hs. fold W in Hs. apply sorted_Z_ext; [apply Hc| |].
      - by apply StronglySorted_filter.
      - intros n. rewrite (cn_blocks _ _ _ _ Hc), list_elem_of_filter. unfold candidate_block, wanted_block. rewrite sorted_head_min, sorted_last_max by done.
        destruct (min_block_spec (or_block <$> header)) as [Hmin1 Hmin2]; [by destruct header|]. destruct (max_block_spec (or_block <$> header)) as [Hmax1 Hmax2]; [by destruct header|].
        rewrite HW in Hmin1, Hmax1. setoid_rewrite HW in Hmin2. setoid_rewrite HW in Hmax2. pose proof (elem_item_window f l n) as Hi. fold items in Hi.
        assert (n ∈ W → in_block_range f l n) as Hin by (by intros [? _]%list_elem_of_filter). destruct include_all; [rewrite fmap_app, elem_of_app, HW; clear -Hitems; naive_solver|]. rewrite HW.
        assert (n ∈ W → n = min_block (or_block <$> header) ↔ ∀ m, m ∈ W → n <= m) as Emin by (intros Hn; split; [intros ->; done|]; intros Hle; specialize (Hle _ Hmin1); specialize (Hmin2 _ Hn); lia).
        assert (n ∈ W → n = max_block (or_block <$> header) ↔ ∀ m, m ∈ W → m <= n) as Emax by (intros Hn; split; [intros ->; done|]; intros Hle; specialize (Hle _ Hmax1); specialize (Hmax2 _ Hn); lia).
        clear -Hi Hin Emin Emax. naive_solver. }
    destruct Hk as [[Hk1 Hk2] _]. destruct k as [|k]; [lia|]. rewrite Ecs in *. exists k, last_. split; [done|]. intros idx x Hx.
    rewrite (Hret idx).
    + by rewrite filter_fmap.
    + destruct idx as [|idx]; [by injection Hx as <-|]. change (items !! idx = Some (torow x.1 <$> data_rows f l (S idx) x)). unfold items. rewrite list_lookup_imap. change (data !! idx = Some x) in Hx. by rewrite Hx.
    + apply Forall_forall. intros r Hr. rewrite HW. destruct idx as [|idx]; [injection Hx as <-; apply HW; by apply list_elem_of_fmap_2|]. apply Hitems, list_elem_of_fmap_2, list_elem_of_join.
      eexists. split; [exact Hr|]. apply elem_of_lookup_imap. by exists idx, x.
Qed.
End answer.

Section output_phase.
Context {PB : PolarsBlocks} {PBL : PolarsBlocksLaws}.
Context (d0 : odata) (data : list odata) (Hd : chunk_data d0 data) (chunk : Chunk) (T : gmap Name RecordBatch) (Hchunk : stored_chunk chunk T).
Context (Htabs : Forall (λ t, otab_ok t ∧ T !! out_table (ot_out t) = Some (ot_full t)) (d0 :: data).*1).
Context (p : Plan) (Hp : plan_outputs p = ot_out <$> (d0 :: data).*1) (Hf : opt_number (first_block p)) (Hl : opt_number (last_block p)).

Lemma header_ok : otab_ok d0.1.
Proof. rewrite fmap_cons in Htabs. by apply Forall_cons in Htabs as [[? _] _]. Qed.

Lemma execute_output_spec :
  let f := first_block p in let l := last_block p in let W := block_window f l d0.1 in
  (W = [] → execute_output p chunk (d0 :: data).*2 = Ok None) ∧
  (W ≠ [] → ∃ k, execute_output p chunk (d0 :: data).*2 = Ok (Some (imap (records_of f l (take (S k) (filter (candidate_block (include_all_blocks p) data W) W))) (d0 :: data)))).
Proof.
  intros f l W. pose proof header_ok as H0.
  assert (data_rows f l 0 d0 = [] ↔ W = []) as Enil.
  { split; intros E; [destruct W as [|n W'] eqn:EW|destruct (data_rows f l 0 d0) as [|i R] eqn:ER]; try done.
    - assert (n ∈ tnumber d0.1 <$> data_rows f l 0 d0) as Hn by (apply elem_header_window; fold W; rewrite EW; left). rewrite E in Hn. by apply elem_of_nil in Hn.
    - assert (tnumber d0.1 i ∈ block_window f l d0.1) as Hn by (apply elem_header_window; rewrite ER; left). fold W in Hn. rewrite E in Hn. by apply elem_of_nil in Hn. }
  assert (collect (imap (λ idx row_list, weighed_rows p chunk idx row_list) (d0 :: data).*2) = Ok (imap (λ idx x, torow x.1 <$> data_rows f l idx x) (d0 :: data))) as Ew.
  { rewrite imap_fmap. apply collect_imap. intros idx x Hx. unfold compose. apply (weighed_rows_spec chunk T (d0 :: data).*1); try done; [by rewrite list_lookup_fmap, Hx|].
    pose proof (cd_rows _ _ Hd) as Hr. rewrite Forall_forall in Hr. apply Hr. by eapply list_elem_of_lookup_2. }
  unfold execute_output. rewrite Ew. cbn [mbind res_bind]. rewrite imap_cons. cbn [slice_get lookup list_lookup mbind res_bind tail]. split.
  - intros E. apply Enil in E. rewrite E. cbn [fmap list_fmap]. by rewrite decide_True.
  - intros HW. assert (data_rows f l 0 d0 ≠ []) as Hne by (by rewrite Enil). rewrite decide_False by (by destruct (data_rows f l 0 d0)).
    destruct (window_blocks d0 data Hd H0 (include_all_blocks p) f l Hne) as (k & last_ & Esel & Hret). fold W in Esel, Hret.
    change ((λ idx x, torow x.1 <$> data_rows f l idx x) ∘ S) with (λ idx (x : odata), torow x.1 <$> data_rows f l (S idx) x). rewrite Esel. cbn [mbind res_bind]. exists k.
    set (chosen := take (S k) _) in *. change (imap ?g (?a :: ?b)) with (imap g (a :: b)).
    replace ((torow d0.1 <$> data_rows f l 0 d0) :: imap (λ idx (x : odata), torow x.1 <$> data_rows f l (S idx) x) data) with (imap (λ idx x, torow x.1 <$> data_rows f l idx x) (d0 :: data)) by (by rewrite imap_cons).
    rewrite imap_imap. rewrite (collect_imap _ (records_of f l chosen)); [done|]. intros idx x Hx. unfold records_of. destruct (decide (data_rows f l idx x = [])) as [E|E].
    + rewrite E. by rewrite decide_True.
    + rewrite decide_False by (by destruct (data_rows f l idx x)). rewrite (Hret idx x Hx). rewrite (output_records_spec chunk T (d0 :: data).*1 Hchunk Htabs p Hp idx); [done|by rewrite list_lookup_fmap, Hx| |].
      * apply filter_rows_sorted, rows_in_sorted.
      * intros i [_ Hi]%list_elem_of_filter. by eapply rows_in_sorted.
Qed.
End output_phase.

(** ** Data items *)

(** The arrow array of a column shows its cells, and the cast keeps numbers of 64 bits. *)
Class EncoderLaws {EN : Encoders} : Prop := {
  arrow_column_row arr arr' i j c : arr_type arr = arr_type arr' → arr_cells arr !! i = Some c → arr_cells arr' !! j = Some c →
    same_row (arrow_column arr) i (arrow_column arr') j;
  cast_u64_spec arr signed bits : arr_type arr = DInt signed bits → Forall (λ c, ∃ z, c = Some (CInt z) ∧ 0 <= z < 2 ^ 64) (arr_cells arr) →
    cast_u64 arr = Ok (int_cell <$> arr_cells arr)
}.

Section encode.
Context {EN : Encoders} {ENL : EncoderLaws}.

(** [Exp::eval] accepts the columns of the batch, and every row can be written. *)
Definition encodable (e : Exp) (b : RecordBatch) : Prop :=
  ∃ f, exp_eval e (struct_array b) = Ok f ∧ ∀ k, (k < rb_num_rows b)%nat → ∃ json, f k = Ok json.
(** The JSON of a row of a batch: that of the row alone. *)
Definition encode_row (e : Exp) (b : RecordBatch) (i : nat) : bytes :=
  match exp_eval e (struct_array (take_rows [i] b)) with Ok f => match f 0%nat with Ok json => json | _ => [] end | _ => [] end.

Lemma struct_array_row b R R' k k' i : R !! k = Some i → R' !! k' = Some i → same_row (struct_array (take_rows R b)) k (struct_array (take_rows R' b)) k'.
Proof.
  intros Hk Hk'. unfold struct_array, take_rows, map_columns. cbn [rb_columns]. constructor; [done| |].
  - rewrite <-!list_fmap_compose. by apply list_fmap_ext.
  - intros _. rewrite <-!list_fmap_compose. apply Forall2_fmap_2, Forall_Forall2_diag, Forall_forall. intros [c arr] _. unfold compose. cbn [fst snd].
    eapply arrow_column_row; [done| |]; cbn [arr_cells]; [by rewrite list_lookup_fmap, Hk|by rewrite list_lookup_fmap, Hk'].
Qed.

(** The encoder of a batch writes its rows one by one. *)
Lemma exp_eval_rows e b R : (∀ R', Forall (λ i, (i < rb_num_rows b)%nat) R' → encodable e (take_rows R' b)) → Forall (λ i, (i < rb_num_rows b)%nat) R →
  ∃ f, exp_eval e (struct_array (take_rows R b)) = Ok f ∧ ∀ k i, R !! k = Some i → f k = Ok (encode_row e b i).
Proof.
  intros He HR. destruct (He R HR) as (f & Ef & Hf). exists f. split; [done|]. intros k i Hk. destruct (Hf k) as [json Ej]; [cbn; by eapply lookup_lt_Some|].
  unfold encode_row. destruct (He [i]) as (g & Eg & Hg); [constructor; [by apply (Forall_lookup_1 _ _ _ _ HR Hk)|constructor]|]. rewrite Eg.
  pose proof (exp_eval_row e _ _ f g k 0%nat Ef Eg (struct_array_row b R [i] k 0%nat i Hk eq_refl)) as E. rewrite <-E, Ej. done.
Qed.
End encode.

Definition key_le (full : RecordBatch) (key : list Name) (i j : nat) : Prop := key_cmp full key i j ≠ Gt.
#[export] Instance key_le_dec full key : RelDecision (key_le full key).
Proof. intros i j. unfold key_le. apply _. Defined.

(** The comparison of rows as a comparison of columns. *)
Definition full_columns (full : RecordBatch) (key : list Name) : list Column :=
  (λ c, match column_by_name full c with Some arr => [arr] | None => [] end) <$> key.
Lemma key_cmp_columns full key i j : key_cmp full key i j = column_list_compare (full_columns full key) (0%nat, i) (0%nat, j).
Proof.
  induction key as [|c key IH]; [done|]. cbn [key_cmp full_columns fmap list_fmap column_list_compare]. rewrite IH. unfold compare_positions, column_value, tcell, cell_at.
  by destruct (column_by_name full c).
Qed.
#[export] Instance key_le_trans full key : Transitive (key_le full key).
Proof. intros i j k. unfold key_le. rewrite !key_cmp_columns. apply (column_list_trans (full_columns full key)). Qed.
#[export] Instance key_le_total full key : Total (key_le full key).
Proof. intros i j. unfold key_le. rewrite !key_cmp_columns. apply (column_list_total (full_columns full key)). Qed.

Lemma column_find b n arr : column_by_name b n = Some arr → ∃ i, list_find (λ c, c.1 = n) (rb_columns b) = Some (i, (n, arr)).
Proof.
  unfold column_by_name. induction (rb_columns b) as [|[c a] l IH]; [done|]. rewrite filter_cons. cbn [list_find fst]. destruct (decide (c = n)) as [->|Hne].
  - cbn. intros [= ->]. by exists 0%nat.
  - intros E. destruct (IH E) as (i & ->). by exists (S i).
Qed.

Section item.
Context {EN : Encoders} {ENL : EncoderLaws}.
Context (t : otab) (Ht : otab_ok t) (R : list nat) (HR : ∀ i, i ∈ R → (i < rb_num_rows (ot_full t))%nat).

Definition row_json (t : otab) (i : nat) : Z * bytes := (tnumber t i, encode_row (out_exp (ot_out t)) (keep_columns (Some (out_projection (ot_out t))) (ot_full t)) i).
(** Every selection of rows of the projected columns can be written. *)
Definition exp_ok (t : otab) : Prop := ∀ R, Forall (λ i, (i < rb_num_rows (ot_full t))%nat) R →
  encodable (out_exp (ot_out t)) (take_rows R (keep_columns (Some (out_projection (ot_out t))) (ot_full t))).
(** The rows in the order of their keys, with their JSON. *)
Definition item_rows (t : otab) (R : list nat) : list (Z * bytes) := row_json t <$> merge_sort (key_le (ot_full t) (out_key (ot_out t))) R.

Abbreviation batch := (take_rows R (keep_columns (Some (out_projection (ot_out t))) (ot_full t))).

Lemma key_column c arr : c ∈ out_key (ot_out t) → column_by_name (ot_full t) c = Some arr →
  column_by_name batch c = Some (mkArray (arr_type arr) ((λ i, nth i (arr_cells arr) None) <$> R)).
Proof.
  intros Hc Ha. unfold take_rows. rewrite column_map_columns, column_keep_columns. pose proof (od_projected _ _ _ _ Ht) as Hp. rewrite Forall_forall in Hp.
  rewrite decide_True by (cbn; by apply Hp). by rewrite Ha.
Qed.

Lemma batch_sortable : key_sortable batch (out_key (ot_out t)).
Proof.
  apply Forall_forall. intros c Hc. pose proof (od_sortable _ _ _ _ Ht) as Hs. rewrite Forall_forall in Hs. destruct (Hs c Hc) as (arr & Ha & Hk).
  destruct (column_find _ _ _ (key_column c arr Hc Ha)) as (i & E). eexists _, _. split; [exact E|done].
Qed.

Lemma order_compare key cs : (∀ c, c ∈ key → c ∈ out_key (ot_out t)) →
  Forall2 (λ name c, Forall2 (λ b' arr, column_by_name b' name = Some arr) [batch] c) key cs → ∀ a b, (a < length R)%nat → (b < length R)%nat →
  column_list_compare cs (0%nat, a) (0%nat, b) = key_cmp (ot_full t) key (nth a R 0%nat) (nth b R 0%nat).
Proof.
  intros Hin Hcs a b Ha Hb. induction Hcs as [|c col key cs Hc _ IH]; [done|]. cbn [column_list_compare key_cmp]. rewrite IH by (intros; apply Hin; by right). unfold compare_positions.
  pose proof (od_sortable _ _ _ _ Ht) as Hs. rewrite Forall_forall in Hs. destruct (Hs c (Hin c ltac:(left))) as (arr & Harr & _).
  inversion Hc as [|? arr' ? ? E Hnil]; subst. inversion Hnil; subst. rewrite (key_column c arr (Hin c ltac:(left)) Harr) in E. injection E as <-.
  assert (∀ x, (x < length R)%nat → column_value [mkArray (arr_type arr) ((λ i, nth i (arr_cells arr) None) <$> R)] (0%nat, x) = cell_key (tcell (ot_full t) c (nth x R 0%nat))) as Hv.
  { intros x Hx. unfold column_value, tcell, cell_at. cbn [fst snd lookup list_lookup arr_cells]. rewrite Harr. f_equal.
    rewrite (nth_indep _ None (nth 0%nat (arr_cells arr) None)) by (by rewrite length_fmap). exact (map_nth (λ i, nth i (arr_cells arr) None) R 0%nat x). }
  by rewrite !Hv.
Qed.

Lemma key_le_antisym i j : (i < rb_num_rows (ot_full t))%nat → (j < rb_num_rows (ot_full t))%nat →
  key_le (ot_full t) (out_key (ot_out t)) i j → key_le (ot_full t) (out_key (ot_out t)) j i → i = j.
Proof.
  intros Hi Hj H1 H2. apply (od_unique _ _ _ _ Ht); [done..|]. unfold key_le in *. revert H1 H2. generalize (out_key (ot_out t)). clear. induction l as [|c key IH]; [done|].
  cbn [key_cmp]. rewrite (bytes_cmp_antisym (cell_key (tcell (ot_full t) c j)) (cell_key (tcell (ot_full t) c i))).
  destruct (bytes_cmp (cell_key (tcell (ot_full t) c j)) (cell_key (tcell (ot_full t) c i))); cbn [CompOpp]; done.
Qed.

(** Two sorted lists of the same rows are equal. *)
Lemma sorted_rows_unique l k : l ≡ₚ k → (∀ i, i ∈ k → (i < rb_num_rows (ot_full t))%nat) → StronglySorted (key_le (ot_full t) (out_key (ot_out t))) l →
  StronglySorted (key_le (ot_full t) (out_key (ot_out t))) k → l = k.
Proof.
  intros Hp Hb Hl Hk. apply (StronglySorted_unique_strong (key_le (ot_full t) (out_key (ot_out t)))); [|done..]. intros i j Hi Hj. apply key_le_antisym; apply Hb; [by rewrite <-Hp|done].
Qed.

Lemma order_rows order cs : order ≡ₚ all_positions [batch] → StronglySorted (cmp_le (column_list_compare cs)) order →
  Forall2 (λ name c, Forall2 (λ b' arr, column_by_name b' name = Some arr) [batch] c) (out_key (ot_out t)) cs →
  Forall (λ p, p.1 = 0%nat ∧ (p.2 < length R)%nat) order ∧ (λ p, nth p.2 R 0%nat) <$> order = merge_sort (key_le (ot_full t) (out_key (ot_out t))) R.
Proof.
  intros Hperm Hsort Hcs. assert (all_positions [batch] = pair 0%nat <$> seq 0 (length R)) as Eall by (unfold all_positions; cbn; by rewrite app_nil_r).
  assert (Forall (λ p : Position, p.1 = 0%nat ∧ (p.2 < length R)%nat) order) as Hpos.
  { rewrite Hperm, Eall. apply Forall_fmap, Forall_forall. intros k Hk%elem_of_seq. cbn. lia. }
  split; [done|]. assert ((λ p : Position, nth p.2 R 0%nat) <$> order ≡ₚ R) as Hrows.
  { rewrite Hperm, Eall, <-list_fmap_compose. unfold compose. cbn [snd]. clear. induction R as [|x l IH]; [done|]. cbn [length seq fmap list_fmap]. constructor.
    rewrite <-fmap_S_seq, <-list_fmap_compose. exact IH. }
  apply sorted_rows_unique.
  - by rewrite merge_sort_Permutation.
  - intros i Hi. rewrite merge_sort_Permutation in Hi. by apply HR.
  - clear Hperm Hrows. induction Hsort as [|p order Hs IH Hp]; [constructor|]. apply Forall_cons in Hpos as [[Ep1 Hp2] Hpos]. rewrite fmap_cons. constructor; [by apply IH|].
    apply Forall_fmap, Forall_forall. intros p' Hp'. rewrite Forall_forall in Hp, Hpos. specialize (Hp p' Hp'). destruct (Hpos p' Hp') as [Ep1' Hp2']. destruct p as [x a], p' as [y b]. cbn in *. subst.
    unfold compose, key_le. cbn [snd]. rewrite <-(order_compare (out_key (ot_out t)) cs) by done. exact Hp.
  - apply StronglySorted_merge_sort; apply _.
Qed.

(** The item of an output. *)
Lemma data_item_spec name : exp_ok t →
  ∃ d, data_item_new name (out_key (ot_out t)) [batch] (out_exp (ot_out t)) = Ok d ∧ di_pos d = 0%nat ∧ di_prop d = object_prop name ∧
    is_block_header d = (length (out_key (ot_out t)) =? 1)%nat ∧ pending d (item_rows t R).
Proof.
  intros Hexp. destruct (exp_eval_rows (out_exp (ot_out t)) (keep_columns (Some (out_projection (ot_out t))) (ot_full t)) R Hexp) as (e & Ee & He); [by apply Forall_forall|].
  destruct (compute_order_spec batch [] (out_key (ot_out t))) as (cs & order & Eo & Hperm & Hsort & Hcs); [by constructor|apply batch_sortable|].
  destruct (order_rows order cs Hperm Hsort Hcs) as [Hpos Hrows].
  destruct (od_number _ _ _ _ Ht) as (sg & bits & arr & Harr & Hty & Hz). assert (ot_key t ∈ out_key (ot_out t)) as Hk by (rewrite (od_key _ _ _ _ Ht); left).
  assert (∀ i, i ∈ R → nth i (arr_cells arr) None = Some (CInt (tnumber t i)) ∧ 0 <= tnumber t i < 2 ^ 64) as Hcell.
  { intros i Hi. destruct (Hz i (HR i Hi)) as (z & Ez & Hzb). unfold tnumber, number_at. rewrite Ez. cbn [int_cell]. unfold tcell in Ez. rewrite Harr in Ez. done. }
  assert (slice_get (out_key (ot_out t)) 0 = Ok (ot_key t)) as Eslice by (by rewrite (od_key _ _ _ _ Ht)).
  unfold data_item_new. rewrite Eslice. cbn [mbind res_bind fmap list_fmap collect]. rewrite (key_column _ _ Hk Harr). cbn [ok_or mbind res_bind].
  rewrite (cast_u64_spec _ sg bits); [|done|].
  2: { cbn [arr_cells]. apply Forall_fmap, Forall_forall. intros i Hi. destruct (Hcell i Hi) as [E Hb]. cbn. exists (tnumber t i). done. }
  cbn [mbind res_bind]. rewrite Eo. cbn [mbind res_bind]. rewrite Ee. cbn [mbind res_bind collect]. eexists. split; [done|]. do 3 (split; [done|]).
  unfold pending, item_rows. cbn [di_pos di_order]. rewrite drop_0, <-Hrows, <-list_fmap_compose. apply Forall2_fmap_r, Forall_Forall2_diag. eapply Forall_impl; [exact Hpos|].
  intros [x k] [Ex Hk']. cbn in Ex, Hk'. subst x. unfold compose, row_json. cbn [fst snd]. destruct (lookup_lt_is_Some_2 R k Hk') as [i Hi].
  assert (nth k R 0%nat = i) as Enth by (by rewrite <-(nth_lookup_Some R k 0%nat i Hi)). rewrite Enth. pose proof (list_elem_of_lookup_2 _ _ _ Hi) as HiR. split.
  - unfold block_of. cbn [di_block_numbers slice_get lookup list_lookup fst snd mbind res_bind arr_cells]. rewrite <-list_fmap_compose. unfold slice_get. rewrite list_lookup_fmap, Hi.
    cbn [fmap option_fmap option_map]. unfold compose. destruct (Hcell i HiR) as [-> _]. done.
  - exists e. split; [done|]. by apply He.
Qed.

(** Rows in the order of their keys are in the order of their blocks. *)
Lemma key_le_number i j : (i < rb_num_rows (ot_full t))%nat → (j < rb_num_rows (ot_full t))%nat → key_le (ot_full t) (out_key (ot_out t)) i j → tnumber t i <= tnumber t j.
Proof.
  intros Hi Hj. destruct (od_number _ _ _ _ Ht) as (_ & _ & _ & _ & _ & Hz). destruct (Hz i Hi) as (a & Ea & _), (Hz j Hj) as (b & Eb & _).
  unfold key_le, tnumber, number_at. rewrite (od_key _ _ _ _ Ht). cbn [key_cmp]. rewrite Ea, Eb. cbn [cell_key int_cell bytes_cmp]. destruct (Z.compare_spec a b); [lia|lia|done].
Qed.

Lemma item_rows_by_block : by_block (item_rows t R).
Proof.
  unfold by_block, item_rows. rewrite <-list_fmap_compose. assert (StronglySorted (key_le (ot_full t) (out_key (ot_out t))) (merge_sort (key_le (ot_full t) (out_key (ot_out t))) R)) as Hs
    by (apply StronglySorted_merge_sort; apply _).
  assert (∀ i, i ∈ merge_sort (key_le (ot_full t) (out_key (ot_out t))) R → (i < rb_num_rows (ot_full t))%nat) as Hb by (intros i Hi; rewrite merge_sort_Permutation in Hi; by apply HR).
  induction Hs as [|i l Hs IH Hi]; [constructor|]. rewrite fmap_cons. constructor; [apply IH; intros; apply Hb; by right|]. apply Forall_fmap, Forall_forall. intros j Hj.
  rewrite Forall_forall in Hi. apply key_le_number; [apply Hb; left|apply Hb; by right|by apply Hi].
Qed.

Lemma elem_item_rows n : n ∈ (item_rows t R).*1 ↔ ∃ i, i ∈ R ∧ n = tnumber t i.
Proof.
  unfold item_rows. rewrite <-list_fmap_compose, list_elem_of_fmap. setoid_rewrite merge_sort_Permutation. split; intros (i & ? & ?); exists i; done.
Qed.

(** The rows of one block. *)
Lemma item_rows_at n : at_block n (item_rows t R) = item_rows t (filter (λ i, tnumber t i = n) R).
Proof.
  unfold at_block, item_rows. rewrite filter_fmap. f_equal. cbn [fst row_json]. apply sorted_rows_unique.
  - by rewrite !merge_sort_Permutation.
  - intros i Hi. rewrite merge_sort_Permutation in Hi. apply list_elem_of_filter in Hi as [_ Hi]. by apply HR.
  - apply StronglySorted_filter, StronglySorted_merge_sort; apply _.
  - apply StronglySorted_merge_sort; apply _.
Qed.
End item.

(** ** The text of a block *)

Section text.
Context {EN : Encoders} {ENL : EncoderLaws}.

(** The rows of a block in an output, and their JSON in the order of their keys. *)
Definition block_rows (idx : nat) (x : odata) (n : Z) : list nat := filter (λ i, tnumber x.1 i = n) (base_rows idx x.1 x.2).
Definition block_member (idx : nat) (x : odata) (n : Z) : bytes * list bytes := (object_prop (item_name (ot_out x.1)), (item_rows x.1 (block_rows idx x n)).*2).
(** The line of a block: the row of the block table, and a member for every output with rows. *)
Definition block_line (d0 : odata) (data : list odata) (n : Z) : bytes :=
  block_json (mjoin (item_rows d0.1 (block_rows 0 d0 n)).*2) (imap (λ idx x, block_member (S idx) x n) data).

Context (f l : option Z) (chosen : list Z).

(** The table of an output in the answer, when it has rows. *)
Definition answer_table (idx : nat) (x : odata) : list otable :=
  if decide (data_rows f l idx x = []) then [] else [(object_prop (item_name (ot_out x.1)), item_rows x.1 (chosen_rows f l chosen idx x))].

Lemma chosen_rows_bound idx x i : i ∈ chosen_rows f l chosen idx x → (i < rb_num_rows (ot_full x.1))%nat.
Proof. intros [_ Hi]%list_elem_of_filter. by eapply rows_in_sorted. Qed.

Lemma chosen_block_rows idx x n : n ∈ chosen → in_block_range f l n → filter (λ i, tnumber x.1 i = n) (chosen_rows f l chosen idx x) = block_rows idx x n.
Proof.
  intros Hn Hr. unfold chosen_rows, data_rows, rows_in, block_rows. rewrite !list_filter_filter. apply list_filter_iff. intros i. split; [tauto|]. intros <-. done.
Qed.

Lemma member_answer idx x n : otab_ok x.1 → n ∈ chosen → in_block_range f l n →
  omap (λ t : bytes * list bytes, member t.1 t.2) ((λ t : otable, (t.1, (at_block n t.2).*2)) <$> answer_table idx x) = omap (λ t : bytes * list bytes, member t.1 t.2) [block_member idx x n].
Proof.
  intros Hx Hn Hr. unfold answer_table, block_member. destruct (decide (data_rows f l idx x = [])) as [E|E].
  - rewrite <-(chosen_block_rows idx x n Hn Hr). unfold chosen_rows. by rewrite E.
  - cbn [fmap list_fmap fst snd]. rewrite item_rows_at by (try done; apply chosen_rows_bound). by rewrite chosen_block_rows.
Qed.

Lemma answer_text data n header : Forall (λ x : odata, otab_ok x.1) data → n ∈ chosen → in_block_range f l n →
  block_text (mjoin (imap (λ idx, answer_table (S idx)) data)) (n, header) = block_json header (imap (λ idx x, block_member (S idx) x n) data).
Proof.
  intros Hd Hn Hr. unfold block_text, block_json. cbn [fst snd]. do 4 f_equal.
  assert (∀ off, omap (λ t : bytes * list bytes, member t.1 t.2) ((λ t : otable, (t.1, (at_block n t.2).*2)) <$> mjoin (imap (λ idx, answer_table (S (off + idx))) data)) =
    omap (λ t : bytes * list bytes, member t.1 t.2) (imap (λ idx x, block_member (S (off + idx)) x n) data)) as Hoff; [|exact (Hoff 0%nat)].
  induction Hd as [|x data Hx Hd IH]; intros off; [done|]. rewrite !imap_cons. change (mjoin (?a :: ?l)) with (a ++ mjoin l). rewrite fmap_app, omap_app, Nat.add_0_r.
  rewrite (member_answer (S off) x n Hx Hn Hr). change (?a :: ?l) with ([a] ++ l) at 2. rewrite omap_app. f_equal.
  rewrite (imap_ext _ (λ idx, answer_table (S (S off + idx)))) by (intros; unfold compose; do 2 f_equal; lia). rewrite IH. f_equal.
Qed.

(** ** The writer of a window *)

(** The item of an output of the plan. *)
Definition output_item (or : Output * option (list RecordBatch)) : option (res DataItem) :=
  bs ← or.2; Some (data_item_new (item_name or.1) (out_key or.1) bs (out_exp or.1)).

Lemma output_item_spec idx x : otab_ok x.1 → exp_ok x.1 → data_rows f l idx x ≠ [] →
  ∃ d, output_item (ot_out x.1, records_of f l chosen idx x) = Some (Ok d) ∧ di_pos d = 0%nat ∧ di_prop d = object_prop (item_name (ot_out x.1)) ∧
    is_block_header d = (length (out_key (ot_out x.1)) =? 1)%nat ∧ pending d (item_rows x.1 (chosen_rows f l chosen idx x)).
Proof.
  intros Hx He Hne. unfold output_item, records_of. rewrite decide_False by done. cbn [fst snd mbind option_bind].
  destruct (data_item_spec x.1 Hx (chosen_rows f l chosen idx x) (chosen_rows_bound idx x) (item_name (ot_out x.1)) He) as (d & -> & Hd). by exists d.
Qed.

Lemma output_items_spec : ∀ off data, Forall (λ x : odata, otab_ok x.1 ∧ exp_ok x.1) data →
  ∃ items, collect (omap output_item (zip (ot_out <$> data.*1) (imap (λ idx, records_of f l chosen (off + idx)) data))) = Ok items ∧
    Forall2 (rows_ok chosen) items (mjoin (imap (λ idx, answer_table (off + idx)) data)).
Proof.
  intros off data Hd. revert off. induction Hd as [|x data [Hx He] Hd IH]; intros off; [exists []; split; [done|constructor]|].
  destruct (IH (S off)) as (items & E & Hi). rewrite !imap_cons, Nat.add_0_r. cbn [fmap list_fmap zip zip_with omap list_omap].
  assert (imap ((λ idx, records_of f l chosen (off + idx)) ∘ S) data = imap (λ idx, records_of f l chosen (S off + idx)) data) as ->
    by (apply imap_ext; intros; unfold compose; f_equal; lia).
  assert (imap ((λ idx, answer_table (off + idx)) ∘ S) data = imap (λ idx, answer_table (S off + idx)) data) as -> by (apply imap_ext; intros; unfold compose; f_equal; lia).
  change (mjoin (?a :: ?l)) with (a ++ mjoin l). unfold answer_table at 1. destruct (decide (data_rows f l off x = [])) as [En|En].
  - exists items. split; [|done]. unfold records_of at 1. rewrite decide_True by done. exact E.
  - destruct (output_item_spec off x Hx He En) as (d & -> & Hpos & Hprop & _ & Hp). exists (d :: items). split.
    + cbn [collect]. by rewrite E.
    + constructor; [|done]. split; [done|]. split; [done|]. split; [by apply item_rows_by_block; [|apply chosen_rows_bound]|]. cbn [snd]. intros m (i & Hi' & ->)%elem_item_rows.
      by apply list_elem_of_filter in Hi' as [? _].
Qed.
End text.

Lemma at_block_singleton (hs : list (Z * bytes)) hb : NoDup hs.*1 → hb ∈ hs → at_block hb.1 hs = [hb].
Proof.
  unfold at_block. induction hs as [|x hs IH]; [by intros _ ?%elem_of_nil|]. rewrite fmap_cons. intros [Hx Hn]%NoDup_cons Hin. rewrite filter_cons.
  apply elem_of_cons in Hin as [->|Hin].
  - rewrite decide_True by done. rewrite list_filter_none; [done|]. intros y Hy E. apply Hx. rewrite <-E. by apply list_elem_of_fmap_2.
  - rewrite decide_False by (intros E; apply Hx; rewrite E; by apply list_elem_of_fmap_2). by apply IH.
Qed.

Section writer.
Context {EN : Encoders} {ENL : EncoderLaws}.
Context (d0 : odata) (data : list odata) (Hd : chunk_data d0 data) (Hok : Forall (λ x : odata, otab_ok x.1 ∧ exp_ok x.1) (d0 :: data)).
Context (f l : option Z) (chosen : list Z) (Hs : StronglySorted Z.lt chosen) (Hc : ∀ n, n ∈ chosen → n ∈ block_window f l d0.1).

Lemma header_otab : otab_ok d0.1.
Proof. by apply Forall_cons in Hok as [[? _] _]. Qed.

Abbreviation hs := (item_rows d0.1 (chosen_rows f l chosen 0 d0)).

Lemma header_blocks : hs.*1 = chosen ∧ NoDup hs.*1.
Proof.
  assert (NoDup hs.*1) as Hn.
  { unfold item_rows. rewrite <-list_fmap_compose. change (fst ∘ row_json d0.1) with (tnumber d0.1). rewrite merge_sort_Permutation. eapply sublist_NoDup; [apply (header_numbers d0 data Hd header_otab)|].
    apply fmap_sublist. unfold chosen_rows, data_rows, rows_in. do 2 (etrans; [apply sublist_filter|]). done. }
  split; [|done]. apply sorted_Z_ext; [|done|].
  - apply sorted_lt; [|done]. apply item_rows_by_block; [apply header_otab|apply chosen_rows_bound].
  - intros n. rewrite elem_item_rows. split; [intros (i & [Hi _]%list_elem_of_filter & ->); done|]. intros Hin. pose proof (Hc n Hin) as HW. apply elem_header_window in HW.
    apply list_elem_of_fmap in HW as (i & -> & Hi). exists i. split; [|done]. by apply list_elem_of_filter.
Qed.

(** A block of the window has the same text whatever the window. *)
Lemma header_text hb : hb ∈ hs → block_text (mjoin (imap (λ idx, answer_table f l chosen (S idx)) data)) hb = block_line d0 data hb.1.
Proof.
  intros Hhb. destruct header_blocks as [Eh Hn]. assert (hb.1 ∈ chosen) as Hin by (rewrite <-Eh; by apply list_elem_of_fmap_2).
  assert (in_block_range f l hb.1) as Hr by (by apply Hc, list_elem_of_filter in Hin as [? _]). destruct hb as [n b]. cbn [fst] in *. rewrite answer_text; [|by apply Forall_cons in Hok as [_ Hok']; eapply Forall_impl; [exact Hok'|]; intros x [? _]|done|done].
  unfold block_line. f_equal. rewrite <-(chosen_block_rows f l chosen 0 d0 n Hin Hr), <-item_rows_at; [|apply header_otab|apply chosen_rows_bound].
  pose proof (at_block_singleton hs (n, b) Hn Hhb) as E. cbn [fst] in E. rewrite E. cbn. by rewrite app_nil_r.
Qed.

Lemma plan_writer_spec p : plan_outputs p = ot_out <$> (d0 :: data).*1 → block_window f l d0.1 ≠ [] →
  ∃ h items, plan_writer p (imap (records_of f l chosen) (d0 :: data)) = Ok (h :: items) ∧ di_pos h = 0%nat ∧ pending h hs ∧
    Forall2 (rows_ok hs.*1) items (mjoin (imap (λ idx, answer_table f l chosen (S idx)) data)).
Proof.
  intros Ep HW. pose proof header_otab as H0. pose proof Hok as [[_ He] Hok']%Forall_cons.
  assert (data_rows f l 0 d0 ≠ []) as Hne.
  { intros E. apply HW. destruct (block_window f l d0.1) as [|n W] eqn:EW; [done|]. assert (n ∈ tnumber d0.1 <$> data_rows f l 0 d0) as Hn by (apply elem_header_window; rewrite EW; left).
    rewrite E in Hn. by apply elem_of_nil in Hn. }
  destruct (output_item_spec f l chosen 0 d0 H0 He Hne) as (h & Eh & Hpos & _ & Hb & Hp). destruct (output_items_spec f l chosen 1 data Hok') as (items & Ei & Hi).
  exists h, items. split; [|by rewrite (proj1 header_blocks)]. unfold plan_writer. fold output_item. rewrite Ep, imap_cons. cbn [fmap list_fmap zip zip_with omap list_omap].
  rewrite Eh. cbn [collect mbind res_bind]. change (records_of f l chosen ∘ S) with (λ idx, records_of f l chosen (1 + idx)). rewrite Ei. cbn [mbind res_bind block_writer_new].
  rewrite Hb, (od_key _ _ _ _ H0), (cd_header _ _ Hd). done.
Qed.
End writer.

(** ** Stored chunks *)

(** The tables of a chunk, by name and by output. *)
Record contents : Type := mkContents { ct_tables : gmap Name RecordBatch; ct_block : otab; ct_items : list otab }.

(** The block table has the numbers and hashes of the parents. *)
Definition parents_ok (full : RecordBatch) : Prop :=
  number_column full (if decide ("parent_number" ∈ (rb_columns full).*1) then "parent_number" else "number") ∧ is_Some (column_by_name full "parent_hash").

Section stored.
Context {PL : Polars} {PLL : PolarsLaws} {PB : PolarsBlocks} {PBL : PolarsBlocksLaws} {EN : Encoders} {ENL : EncoderLaws}.
Context (p0 : Plan).

(** The tables [ct] of a chunk fit the plan: every output has its table, whose projected columns
    have the types its expression asks for and values that can be written ([exp_ok]), the rows
    of the others are of blocks of the block table, and the sum of all weights is a number of 64
    bits. *)
Record fits_plan (chunk : Chunk) (ct : contents) : Prop := mkFitsPlan {
  fp_chunk : stored_chunk chunk (ct_tables ct);
  fp_plan : plan_ok (ct_tables ct) p0;
  fp_outputs : plan_outputs p0 = ot_out <$> ct_block ct :: ct_items ct;
  fp_tables : Forall (λ t, otab_ok t ∧ exp_ok t ∧ ct_tables ct !! out_table (ot_out t) = Some (ot_full t)) (ct_block ct :: ct_items ct);
  fp_header : ot_keys (ct_block ct) = [];
  fp_blocks t i : t ∈ ct_items ct → (i < rb_num_rows (ot_full t))%nat → tnumber t i ∈ table_blocks (ct_block ct);
  fp_weights : weights_ok (weights (mjoin ((λ t, torow t <$> seq 0 (rb_num_rows (ot_full t))) <$> ct_block ct :: ct_items ct)));
  fp_parents : parents_ok (ot_full (ct_block ct))
}.

(** The rows the plan selects. *)
Definition selected_rows (chunk : Chunk) : list RowList := match plan_select p0 chunk with Ok outs => outs | _ => [] end.
Definition header_data (chunk : Chunk) (ct : contents) : odata := (ct_block ct, hd ∅ (selected_rows chunk)).
Definition item_data (chunk : Chunk) (ct : contents) : list odata := zip (ct_items ct) (tail (selected_rows chunk)).

(** Selected rows are rows of the output's table. *)
Lemma output_rows_table T p o ot j : plan_wf p → plan_rows T p o j → plan_outputs p !! o = Some ot → Z.of_nat j ∈ table_rows T (out_table ot).
Proof.
  intros Hw Hj Ho. eapply plan_rows_table; [done| |done]. apply get_index_Ok; [apply (pw_names p Hw)|]. by rewrite <-(pw_outputs p Hw), list_lookup_fmap, Ho.
Qed.

Section chunk.
Context (chunk : Chunk) (ct : contents) (Hct : fits_plan chunk ct).
Abbreviation d0 := (header_data chunk ct).
Abbreviation data := (item_data chunk ct).

Lemma stored_chunk_ok : chunk_ok chunk (ct_tables ct).
Proof. intros name full Hn. destruct (fp_chunk _ _ Hct name full Hn) as (s & Es & Hs). exists s. split; [done|apply Hs]. Qed.

Lemma selected_spec : plan_select p0 chunk = Ok (d0 :: data).*2 ∧ (d0 :: data).*1 = ct_block ct :: ct_items ct ∧
  Forall (λ x : odata, rows_in_table x.2 (ot_full x.1)) (d0 :: data).
Proof.
  destruct (plan_select_spec (ct_tables ct) chunk stored_chunk_ok p0 (fp_plan _ _ Hct)) as (outs & E & Hl & Hr). rewrite (fp_outputs _ _ Hct), length_fmap in Hl. cbn [length] in Hl.
  unfold item_data, header_data, selected_rows. rewrite E. destruct outs as [|rl outs]; [done|]. cbn [hd tail length] in *. injection Hl as Hl. split; [|split].
  - rewrite fmap_cons. by rewrite snd_zip by lia.
  - rewrite fmap_cons. by rewrite fst_zip by lia.
  - assert (zip (ct_block ct :: ct_items ct) (rl :: outs) = (ct_block ct, rl) :: zip (ct_items ct) outs) as <- by done. apply Forall_lookup. intros o [t set] Ho. cbn [fst snd].
    apply lookup_zip_with_Some in Ho as (t' & set' & [= <- <-] & Ht & Hset). intros z Hz. assert (listed (rl :: outs) o z) as Hz' by (by exists set).
    apply Hr in Hz' as (j & -> & Hj). apply (output_rows_table _ _ _ (ot_out t)) in Hj; [|apply (fp_plan _ _ Hct)|by rewrite (fp_outputs _ _ Hct), list_lookup_fmap, Ht].
    pose proof (fp_tables _ _ Hct) as Htab. rewrite Forall_forall in Htab. destruct (Htab t) as (_ & _ & HT); [by eapply list_elem_of_lookup_2|]. unfold table_rows in Hj. rewrite HT in Hj.
    by apply elem_all_rows in Hj.
Qed.

Lemma base_rows_all idx t rl : base_rows idx t rl `sublist_of` seq 0 (rb_num_rows (ot_full t)).
Proof. unfold base_rows. destruct (idx =? 0)%nat; [done|apply sublist_filter]. Qed.

Lemma stored_chunk_data : chunk_data d0 data.
Proof.
  destruct selected_spec as (_ & Et & Hr). split; [apply (fp_header _ _ Hct)|done| |].
  - intros n Hn. unfold item_blocks in Hn. apply list_elem_of_join in Hn as (ns & Hn & Hns). apply elem_of_lookup_imap in Hns as (idx & x & -> & Hx).
    apply list_elem_of_fmap in Hn as (i & -> & Hi). apply base_rows_sorted in Hi. apply (fp_blocks _ _ Hct); [|done]. rewrite fmap_cons in Et. injection Et as Et. rewrite <-Et.
    apply list_elem_of_fmap_2. by eapply list_elem_of_lookup_2.
  - eapply weights_sublist; [|apply (fp_weights _ _ Hct)]. rewrite <-Et. generalize (d0 :: data). clear. intros ds.
    assert (∀ off, mjoin (imap (λ idx (x : odata), torow x.1 <$> base_rows (off + idx) x.1 x.2) ds) `sublist_of` mjoin ((λ t, torow t <$> seq 0 (rb_num_rows (ot_full t))) <$> ds.*1)) as Hoff;
      [|exact (Hoff 0%nat)].
    induction ds as [|x ds IH]; intros off; [done|]. rewrite imap_cons, !fmap_cons. change (mjoin (?a :: ?l)) with (a ++ mjoin l). apply sublist_app; [apply fmap_sublist, base_rows_all|].
    specialize (IH (S off)). erewrite imap_ext; [exact IH|]. intros i y _. unfold compose. do 2 f_equal. lia.
Qed.

Lemma stored_with_defaults : stored_chunk (chunk_with_defaults (plan_tables p0) chunk) (ct_tables ct).
Proof.
  intros name full Hn. destruct (fp_chunk _ _ Hct name full Hn) as (s & Es & [[HR Hp Hpr Hs Hx] Hsch Hread]). pose proof (fp_plan _ _ Hct) as Hok. pose proof (po_wf _ _ Hok) as Hw.
  destruct (get_index_elem _ _ (pw_names _ Hw) (po_tables _ _ Hok _ _ Hn)) as (i & Ei & Hi). unfold names in Hi. rewrite list_lookup_fmap in Hi.
  destruct (plan_tables p0 !! i) as [t|] eqn:Et; [|done]. unfold chunk_with_defaults. rewrite Es. cbn [mbind res_bind]. unfold ts_get. rewrite Ei. cbn [mbind res_bind].
  rewrite (proj2 (slice_get_Some _ _ _) Et). cbn [mbind res_bind]. eexists. split; [done|]. destruct (decide _); (split; [by split|done|done]).
Qed.

(** The parent check refuses or passes. *)
Lemma parent_checked f l h : opt_number f → (∃ e, check_parent_block (windowed p0 f l (Some h)) (chunk_with_defaults (plan_tables p0) chunk) = Err e) ∨
  ∃ o, check_parent_block (windowed p0 f l (Some h)) (chunk_with_defaults (plan_tables p0) chunk) = Ok o.
Proof.
  intros Hf. destruct f as [n|]; [|left; by eexists]. pose proof (fp_tables _ _ Hct) as [(_ & _ & HT) _]%Forall_cons. destruct (stored_with_defaults _ _ HT) as (s & Es & Hs).
  destruct (check_parent_block_spec (windowed p0 (Some n) l (Some h)) (chunk_with_defaults (plan_tables p0) chunk) (ot_full (ct_block ct)) n h
    (bool_decide ("parent_number" ∈ (rb_columns (ot_full (ct_block ct))).*1))) as (refs & _ & _ & -> & _).
  - split; try done.
    + exists (ot_out (ct_block ct)), s. split; [cbn; by rewrite (fp_outputs _ _ Hct)|]. split; [done|]. split; apply Hs.
    + destruct (fp_parents _ _ Hct) as [Hn _]. unfold parent_window. by case_bool_decide; case_decide.
    + apply (fp_parents _ _ Hct).
  - destruct (last refs); [right|left]; by eexists.
Qed.
End chunk.

(** ** The execution of running queries *)

Context (open : Data.Chunk → Chunk) (cts : Data.Chunk → contents).

Definition stored_in (c : Data.Chunk) : Prop := fits_plan (open c) (cts c).
Definition stored_blocks (c : Data.Chunk) : list Z := table_blocks (ct_block (cts c)).
Definition wanted_in (c : Data.Chunk) (n : Z) : Prop := wanted_block (include_all_blocks p0) (item_data (open c) (cts c)) n.
#[export] Instance wanted_in_dec c n : Decision (wanted_in c n).
Proof. unfold wanted_in, wanted_block. apply _. Defined.
Definition line_in (c : Data.Chunk) (n : Z) : bytes := block_line (header_data (open c) (cts c)) (item_data (open c) (cts c)) n.

(** An execution that passes the parent check answers the window. *)
Lemma execution_answers f l h c : stored_in c → opt_number f → opt_number l →
  check_parent_block (windowed p0 f l h) (chunk_with_defaults (plan_tables p0) (open c)) = Ok None →
  answered stored_blocks wanted_in line_in f l c (execute (Execution := plan_execution open) (windowed p0 f l h) c).
Proof.
  intros Hc Hf Hl Hcheck. destruct (selected_spec _ _ Hc) as (Esel & Etab & _). pose proof (stored_chunk_data _ _ Hc) as Hd. pose proof (fp_tables _ _ Hc) as Htab.
  set (d0 := header_data (open c) (cts c)) in *. set (data := item_data (open c) (cts c)) in *.
  assert (plan_outputs (windowed p0 f l h) = ot_out <$> (d0 :: data).*1) as Hout by (cbn [windowed]; rewrite Etab; apply (fp_outputs _ _ Hc)).
  assert (Forall (λ t, otab_ok t ∧ ct_tables (cts c) !! out_table (ot_out t) = Some (ot_full t)) (d0 :: data).*1) as Htab'.
  { rewrite Etab. eapply Forall_impl; [exact Htab|]. by intros t (? & _ & ?). }
  destruct (execute_output_spec d0 data Hd _ _ (stored_with_defaults _ _ Hc) Htab' (windowed p0 f l h) Hout Hf Hl) as [Hnone Hsome].
  cbn [execute plan_execution]. unfold plan_execute. change (plan_tables (windowed p0 f l h)) with (plan_tables p0). rewrite Hcheck. cbn [mbind res_bind].
  change (plan_select (windowed p0 f l h) (open c)) with (plan_select p0 (open c)). rewrite Esel. cbn [mbind res_bind].
  unfold answered. change (window stored_blocks f l c) with (block_window f l d0.1). change (first_block (windowed p0 f l h)) with f in *. change (last_block (windowed p0 f l h)) with l in *.
  destruct (decide (block_window f l d0.1 = [])) as [E|Hne]; [left; split; [done|]; by rewrite (Hnone E)|]. right. split; [done|]. destruct (Hsome Hne) as (k & ->). cbn [mbind res_bind lift outcome_bind].
  set (W := block_window f l d0.1) in *. set (chosen := take (S k) _).
  assert (StronglySorted Z.lt chosen) as Hs.
  { assert (StronglySorted Z.lt (chosen ++ drop (S k) (filter (candidate_block (include_all_blocks (windowed p0 f l h)) data W) W))) as Hs.
    { unfold chosen. rewrite take_drop. apply StronglySorted_filter, (block_window_sorted d0 data Hd). by apply Forall_cons in Htab as [[? _] _]. }
    by apply StronglySorted_app in Hs as (_ & ? & _). }
  assert (∀ n, n ∈ chosen → n ∈ W) as Hin by (intros n Hn; by apply elem_of_take in Hn as (i & Hn%list_elem_of_lookup_2%list_elem_of_filter & _); destruct Hn).
  assert (Forall (λ x : odata, otab_ok x.1 ∧ exp_ok x.1) (d0 :: data)) as Hok.
  { rewrite <-Etab in Htab. apply Forall_fmap in Htab. eapply Forall_impl; [exact Htab|]. by intros x (? & ? & _). }
  destruct (plan_writer_spec d0 data Hd Hok f l chosen Hs Hin (windowed p0 f l h)) as (hd_ & items & -> & Hpos & Hp & Hi); [done|done|].
  cbn [lift mbind outcome_bind]. eexists hd_, items, _, _, k. split; [done|]. split; [done|]. split; [exact Hp|]. split; [exact Hi|]. split.
  - rewrite (proj1 (header_blocks d0 data Hd Hok f l chosen Hs Hin)). unfold chosen. f_equal.
  - intros hb Hhb. exact (header_text d0 data Hd Hok f l chosen Hs Hin hb Hhb).
Qed.

Lemma opt_u64_number n : opt_u64 n → opt_number n.
Proof. destruct n as [n|]; [|done]. unfold opt_u64, u64_ok, u64_max. cbn. lia. Qed.

(** The execution on a window of a stored chunk: it fails where the parent check does, and
    answers the window otherwise. *)
Definition executed (f l : option Z) (h : option string) (c : Data.Chunk) (o : outcome (option (list DataItem))) : Prop :=
  match check_parent_block (windowed p0 f l h) (chunk_with_defaults (plan_tables p0) (open c)) with
  | Ok None => answered stored_blocks wanted_in line_in f l c o
  | Ok (Some e) => o = Failed (QUnexpectedBaseBlock e)
  | Err e => o = Failed (QErr e)
  | Panic _ => False
  end.

Lemma execution_spec f l h c : stored_in c → opt_u64 f → opt_u64 l → executed f l h c (execute (Execution := plan_execution open) (windowed p0 f l h) c).
Proof.
  intros Hc Hf%opt_u64_number Hl%opt_u64_number. unfold executed.
  assert ((∃ e, check_parent_block (windowed p0 f l h) (chunk_with_defaults (plan_tables p0) (open c)) = Err e) ∨
    ∃ o, check_parent_block (windowed p0 f l h) (chunk_with_defaults (plan_tables p0) (open c)) = Ok o) as [[e E]|[[e|] E]].
  { destruct h as [h|]; [by apply (parent_checked _ _ Hc)|right; by exists None]. }
  3: rewrite E; by apply (execution_answers f l h c).
  all: rewrite E; cbn [execute plan_execution]; unfold plan_execute; change (plan_tables (windowed p0 f l h)) with (plan_tables p0); by rewrite E.
Qed.

(** The execution of plans on stored chunks keeps the interface of running queries. *)
#[export] Instance stored_execution_laws : ExecutionLaws p0 stored_in stored_blocks wanted_in line_in (EX := plan_execution open).
Proof.
  split; [intros f l c Hc Hf Hl; exact (execution_spec f l None c (sv_stored _ _ _ Hc) Hf Hl)|]. intros f l h c Hc Hf Hl.
  pose proof (execution_spec f l (Some h) c (sv_stored _ _ _ Hc) Hf Hl) as Hex. unfold executed in Hex. destruct (check_parent_block _ _) as [[e|]|e|m]; [|by right| |done].
  all: left; eexists; split; [exact Hex|done].
Qed.

(** C40: Executing a plan on a window of the blocks of a stored chunk whose tables fit the plan
    never panics.  It fails exactly where the parent check refuses or fails; otherwise the
    result is empty for a window without blocks, and else holds the first blocks of the window
    that may be returned (the wanted ones, the first and the last), at least one of them, and
    the text of each is the header row and the selected rows of the block in the order of their
    keys, each row as the expression of its output writes it alone, whatever the window.  The
    tables fit ([stored_in]) when, besides the keys and block numbers of the outputs, the
    projected columns pass the type checks of [Exp::eval] for every selection of rows and their
    values can be written: no binary value that is not empty, which the encoder panics on, and
    no timestamp that overflows. *)
Theorem plan_window_exact f l h c : stored_in c → opt_u64 f → opt_u64 l → executed f l h c (execute (Execution := plan_execution open) (windowed p0 f l h) c).
Proof. apply execution_spec. Qed.
End stored.
