(* ===== verification/QueryServe.v ===== *)
(** * Queries over stored chunks

    The parts of query serving together: requests are compiled, run over the chunks of the
    database, executed on the stored tables of a chunk, written, compressed and handed out as
    the body of a response. *)
From stdpp Require Import gmap sorting.
From S2P Require Import Prelude Bytes Ranges QueryStack QueryArrow QueryPred QueryPredSpec QueryScanSpec QueryRel QueryRelSpec QueryPlan QueryPlanSpec QueryOutput QueryOutputSpec QueryJson QueryExamples QueryRequests QueryRequestsSpec.
From S2P Require Import Data Kv ChunkIter Tables Chain Tx Concrete TxSpec UpdateSpec Retry Cleanup Db QueryRun QueryRunSpec QueryExecSpec.

Section served.
Context {PL : Polars} {PLL : PolarsLaws} {PB : PolarsBlocks} {PBL : PolarsBlocksLaws} {EN : Encoders} {ENL : EncoderLaws}.
Context {K : Type} `{CL : CompressorLaws K} (enc : ContentEncoding).
Context {M C : Type} `{HKV : KvStore M C} `{HKL : !KvStoreLaws M C} `{HB : Borsh} `{HBL : !BorshLaws} {QD : QueryDeps}.
Context (p0 : Plan) (open : Chunk → QueryRel.Chunk) (cts : Chunk → contents).

(** The parent check on the chunk with the first block of the query passes. *)
Definition parent_matches (rq : Query) (c0 : Chunk) : Prop := ∀ h, query_parent_block_hash rq = Some h → query_first_block rq ≠ first_block c0 →
  check_parent_block (windowed p0 (Some (query_first_block rq)) None (Some h)) (chunk_with_defaults (plan_tables p0) (open c0)) = Ok None.

Lemma parent_matches_accepted d id rq fin label c0 : servable p0 (stored_in p0 open cts) (stored_blocks cts) d id rq fin label c0 → parent_matches rq c0 → accepted p0 (EX := plan_execution open) rq c0.
Proof.
  intros Hs Hp l h e Eh Hne Hl. assert (stored_in p0 open cts c0) as Hc0.
  { destruct (sb_chunk _ _ _ _ _ _ _ _ _ Hs) as [Hh _]. pose proof (sb_served _ _ _ _ _ _ _ _ _ Hs) as Hall. rewrite Forall_forall in Hall. apply Hall.
    by apply head_Some_elem_of, list_elem_of_filter in Hh as [_ ?]. }
  pose proof (execution_spec p0 open cts (Some (query_first_block rq)) l (Some h) c0 Hc0 (sb_first _ _ _ _ _ _ _ _ _ Hs) Hl) as Hex. unfold executed in Hex.
  change (check_parent_block (windowed p0 (Some (query_first_block rq)) l (Some h))) with (check_parent_block (windowed p0 (Some (query_first_block rq)) None (Some h))) in Hex.
  rewrite (Hp h Eh Hne) in Hex. destruct Hex as [[_ ->]|(_ & ? & ? & ? & ? & ? & -> & _)]; done.
Qed.

(** C39: A query the database can serve, over stored chunks, starts.  Its body, for any clocks,
    any slots and any time limit, is never aborted, and when it is closed it decompresses to
    the lines of blocks of the requested range, one line per block with the rows the query
    asks for, in ascending order from the first block on and without leaving out a wanted
    block.  If the first block follows the expected parent and the client is patient, the body
    is closed after a bounded number of packs and covers the whole range.  The tables of every
    chunk fit the compiled plan ([stored_in], a part of [servable]): the projected columns pass
    the type checks of [Exp::eval] for every selection of rows and their values can be written;
    a column of another type or a binary value that is not empty would abort the body. *)
Theorem query_stream_exact d id rq fin label c0 : servable p0 (stored_in p0 open cts) (stored_blocks cts) d id rq fin label c0 →
  ∃ q, running_new d id rq fin enc = Done q ∧
    let asked := requested (stored_blocks cts) (query_first_block rq) (end_of rq fin label) (chunks_of (d CF_CHUNKS) id) in
    StronglySorted Z.lt asked.*2 ∧
    ∀ e calls, match response_new (EX := plan_execution open) e (Done q) with
      | Panicked _ => False
      | Failed _ => pe_slot e = false ∨ ¬ parent_matches rq c0
      | Done r =>
          let '(packs, end_) := stream_query_response (EX := plan_execution open) calls r in
          end_ ≠ StreamAborted ∧
          (end_ = StreamClosed → ∃ pre rest ls, asked = pre ++ rest ∧ delivers (wanted_in p0 open cts) pre ls ∧
             decompress enc (mjoin packs) = Some (text_of (line_in p0 open cts) ls) ∧ (parent_matches rq c0 → Forall patient calls → rest = [])) ∧
          (parent_matches rq c0 → Forall patient calls → (2 * run_fuel q <= length calls)%nat → end_ = StreamClosed)
      end.
Proof.
  intros Hs. pose proof (parent_matches_accepted d id rq fin label c0 Hs) as Hp.
  destruct (query_stream_spec p0 (stored_in p0 open cts) (stored_blocks cts) (wanted_in p0 open cts) (line_in p0 open cts) (EX := plan_execution open) enc d id rq fin label c0 Hs) as (q & Eq & Hsort & Hst).
  exists q. split; [done|]. split; [done|]. intros e calls. specialize (Hst e calls). destruct (response_new e (Done q)) as [r|err|m]; [|destruct Hst as [?|Hn]; [by left|right; intros Hm; by apply Hn, Hp]|done].
  destruct (stream_query_response calls r) as [packs end_]. destruct Hst as (Ha & Hc & Hl). split; [done|]. split; [|by intros Hm; apply Hl, Hp].
  intros E. destruct (Hc E) as (pre & rest & ls & E1 & E2 & E3 & E4). exists pre, rest, ls. do 3 (split; [done|]). intros Hm. by apply E4, Hp.
Qed.
End served.

(** ** A served query *)

Module ServeExamples.
Import PlainCompute PlainBatches PlainFrames PlainBlocks RequestExamples.

(** Texts that only the tests of the example see. *)
Definition plain_texts : JsonTexts := {|
  int_text z := [z];
  float_text bits z := [z];
  string_text b := b;
  object_prop := str_bytes
|}.
Definition cell_bytes (c : option QueryArrow.cell) : bytes := match c with Some (CStr s) => str_bytes s | _ => [] end.
(** The arrays of numbers and strings; no array of another type is written. *)
Definition plain_column (arr : array) : jarray :=
  let nulls := Some ((λ c : option QueryArrow.cell, bool_decide (c = None)) <$> arr_cells arr) in
  match arr_type arr with
  | DInt signed bits => JInts (JInt signed bits) nulls (int_cell <$> arr_cells arr)
  | DUtf8 => JStrings nulls (cell_bytes <$> arr_cells arr)
  | _ => JOthers nulls
  end.
#[export] Instance plain_encoders : Encoders := {
  json_texts := plain_texts;
  arrow_column := plain_column;
  memory_size b := Z.of_nat (rb_num_rows b);
  cast_u64 arr := Ok (int_cell <$> arr_cells arr)
}.
Lemma slice_get_fmap {A B} (f : A → B) l i x : l !! i = Some x → slice_get (f <$> l) i = Ok (f x).
Proof. intros E. unfold slice_get. by rewrite list_lookup_fmap, E. Qed.
#[export] Instance plain_encoder_laws : EncoderLaws.
Proof.
  split; [|done]. intros arr arr' i j c Ht Ei Ej. cbn [arrow_column plain_encoders]. unfold plain_column. rewrite Ht.
  destruct (arr_type arr'); constructor; cbn [is_null]; intros; by rewrite !(slice_get_fmap _ _ _ _ Ei), !(slice_get_fmap _ _ _ _ Ej).
Defined.

(** Fields of plain numbers and strings can be written for every row. *)
Definition plain_field (cs : gset Name) (full : RecordBatch) (p : Name * Exp) : bool :=
  match p.2 with
  | EProp c EValue => bool_decide (c ∈ cs) && match column_by_name full c with Some arr => match arr_type arr with DInt _ _ | DUtf8 => true | _ => false end | None => false end
  | _ => false
  end.
Lemma struct_array_column b c arr : column_by_name b c = Some arr → struct_column ((λ c : Name * array, (c.1, arrow_column c.2)) <$> rb_columns b) c = Some (arrow_column arr).
Proof.
  unfold column_by_name, struct_column. induction (rb_columns b) as [|[n a] l IH]; [done|]. rewrite fmap_cons, !filter_cons. cbn [fst snd]. destruct (decide (n = c)); [|done]. cbn. by intros [= ->].
Qed.

Lemma plain_value arr : (∃ s b, arr_type arr = DInt s b) ∨ arr_type arr = DUtf8 →
  ∃ f, make_encoder (plain_column arr) = Ok f ∧ ∀ k, (k < array_len arr)%nat → ∃ json, f k = Ok json.
Proof.
  assert (∀ {A} (g : option QueryArrow.cell → A) (text : A → bytes) k, (k < array_len arr)%nat →
    ∃ json, nullable (Some ((λ c : option QueryArrow.cell, bool_decide (c = None)) <$> arr_cells arr)) (read_value (g <$> arr_cells arr) (λ v, Ok (text v))) k = Ok json) as Hk.
  { intros A g text k Hk. destruct (lookup_lt_is_Some_2 (arr_cells arr) k Hk) as [c Hc]. unfold nullable, read_value. cbn [is_null]. rewrite !(slice_get_fmap _ _ _ _ Hc). cbn [mbind res_bind].
    case_bool_decide; eauto. }
  unfold plain_column. intros [(s & b & ->)| ->]; cbn [make_encoder]; eexists; (split; [done|]); intros k; apply Hk.
Qed.

Lemma plain_encodable cs full ps R : forallb (plain_field cs full) ps = true → encodable (EObject ps) (take_rows R (keep_columns (Some cs) full)).
Proof.
  intros Hp. set (b := take_rows R (keep_columns (Some cs) full)).
  assert (∃ fs, collect (map (λ p : Name * Exp, enc ← exp_eval p.2 (struct_array b); Ok (object_prop p.1, enc)) ps) = Ok fs ∧ Forall (λ f, ∀ k, (k < length R)%nat → ∃ json, f.2 k = Ok json) fs) as (fs & Efs & Hfs).
  { induction ps as [|[n e] ps IH]; [exists []; split; [done|constructor]|]. cbn [forallb] in Hp. apply andb_true_iff in Hp as [He Hp]. destruct (IH Hp) as (fs & Efs & Hfs).
    unfold plain_field in He. cbn [snd] in He. destruct e as [| | | | | | | |c [| | | | | | | | | | |]| | |]; try done. apply andb_true_iff in He as [Hc%bool_decide_eq_true Ht].
    destruct (column_by_name full c) as [arr|] eqn:Ea; [|done].
    assert (column_by_name b c = Some (mkArray (arr_type arr) ((λ i, nth i (arr_cells arr) None) <$> R))) as Eb.
    { unfold b, take_rows. rewrite column_map_columns, column_keep_columns, decide_True by done. by rewrite Ea. }
    destruct (plain_value (mkArray (arr_type arr) ((λ i, nth i (arr_cells arr) None) <$> R))) as (f & Ef & Hf); [cbn; destruct (arr_type arr); eauto; done|].
    assert (exp_eval (EProp c EValue) (struct_array b) = Ok (nullable None f)) as Ee.
    { unfold struct_array. cbn [exp_eval]. rewrite (struct_array_column _ _ _ Eb). cbn [ok_or mbind res_bind arrow_column plain_encoders]. rewrite Ef. by destruct (plain_column _). }
    exists ((object_prop n, nullable None f) :: fs). split.
    - cbn [map collect snd fst]. rewrite Ee. cbn [mbind res_bind]. by rewrite Efs.
    - constructor; [|done]. cbn [snd]. intros k Hk. destruct (Hf k) as [json Ej]; [unfold array_len; cbn; by rewrite length_fmap|]. exists json. unfold nullable. cbn. exact Ej. }
  exists (nullable None (struct_encoder fs)). split.
  { cbn [exp_eval]. change (extract_nulls (struct_array b)) with (Ok (struct_array b, @None NullBuffer)). cbn [mbind res_bind]. by rewrite Efs. }
  intros k Hk. unfold nullable, struct_encoder. cbn [is_null mbind res_bind].
  destruct (collect_map_spec (λ f : bytes * EncoderObject, text ← f.2 k; Ok (f.1 ++ text)) (λ _ _, True) fs) as (ts & -> & _).
  { intros f Hf. rewrite Forall_forall in Hfs. destruct (Hfs f Hf k Hk) as [json ->]. cbn. eauto. }
  cbn [mbind res_bind]. unfold json_close. destruct (last (123 :: with_commas ts)) as [c|] eqn:El; [eauto|]. by apply last_None in El.
Qed.

(** The identity as a compression. *)
#[export] Instance plain_compressors : Compressors bytes := {
  compressor_new enc := Ok [];
  compressor_write k b := k ++ b;
  compressor_flush k := k;
  compressor_buffer k := k;
  compressor_split k := [];
  compressor_finish k := k
}.
#[export] Instance plain_compressor_laws : CompressorLaws bytes.
Proof.
  refine {| decompress enc b := Some b; represents enc k out text := out ++ k = text |}; cbn.
  - intros enc. by exists [].
  - intros enc k out text b <-. by rewrite app_assoc.
  - done.
  - done.
  - intros enc k out text <-. by rewrite app_nil_r.
  - intros enc k out text <-. done.
Defined.

(** ** Two chunks *)

(** Blocks [b] and [b + 1]; the first one has a transaction with an input and an output. *)
Definition blocks_at (b : Z) : RecordBatch :=
  mkBatch [("number", mkArray DUInt64 (ints [b; b + 1])); ("parent_hash", mkArray DUtf8 [Some (CStr "p"); Some (CStr "a")])] 2.
Definition transactions_at (b : Z) : RecordBatch :=
  mkBatch [("block_number", mkArray DUInt64 (ints [b])); ("transaction_index", mkArray DUInt32 (ints [0]))] 1.
Definition indexed_at (b : Z) (index : Name) : RecordBatch :=
  mkBatch [("block_number", mkArray DUInt64 (ints [b])); ("transaction_index", mkArray DUInt32 (ints [0])); (index, mkArray DUInt32 (ints [0]))] 1.
Definition tables_at (b : Z) : gmap Name RecordBatch :=
  <["blocks" := blocks_at b]> (<["transactions" := transactions_at b]> (<["inputs" := indexed_at b "input_index"]> {["outputs" := indexed_at b "output_index"]})).

(** All transactions from block 2 on, whose parent is "a". *)
Definition field (name : Name) : selection := λ n, String.eqb n name.
Definition served_query : Query := Bitcoin
  (mkBitcoinQuery (mkBase 2 (Some "a") None false) (mkBitcoinFieldSelection (field "number") (field "transaction_index") no_fields no_fields)
    [mkBitcoinTransactionRequest false false] [] []).
Definition served_plan : Plan := Eval vm_compute in match query_compile served_query with Ok p => p | _ => mkPlan [] [] [] [] false None None None end.

Definition outputs_of : list Output := plan_outputs served_plan.
Definition output_at (i : nat) : Output := nth i outputs_of (mkOutput "" [] ∅ 0 [] (EObject []) "").
Definition contents_at (b : Z) : contents :=
  mkContents (tables_at b) (mkOtab (output_at 0) (blocks_at b) "number" [])
    [mkOtab (output_at 1) (transactions_at b) "block_number" ["transaction_index"];
     mkOtab (output_at 2) (indexed_at b "input_index") "block_number" ["transaction_index"; "input_index"];
     mkOtab (output_at 3) (indexed_at b "output_index") "block_number" ["transaction_index"; "output_index"]].

Lemma plain_stored_chunk tables : map_Forall (λ _ full, batch_ok full ∧ Z.of_nat (rb_num_rows full) < 2 ^ 32 ∧ "row_index" ∉ (rb_columns full).*1) tables →
  stored_chunk (plain_chunk tables) tables.
Proof.
  intros Ht name full Hf. destruct (Ht name full Hf) as (Hb & Hs & Hn). unfold plain_chunk, chunk_scan_table. rewrite lookup_fmap, Hf. cbn [fmap option_fmap option_map].
  eexists. split; [done|]. apply stored_scan_table; [by apply plain_table_ok|]. cbn. by rewrite <-list_fmap_compose.
Qed.

Lemma tables_cases b name full : tables_at b !! name = Some full → name = "blocks" ∧ full = blocks_at b ∨ name = "transactions" ∧ full = transactions_at b ∨
  name = "inputs" ∧ full = indexed_at b "input_index" ∨ name = "outputs" ∧ full = indexed_at b "output_index".
Proof. unfold tables_at. rewrite !lookup_insert_Some, lookup_singleton_Some. naive_solver. Qed.

Lemma tables_stored b : 0 <= b < 100 → stored_chunk (plain_chunk (tables_at b)) (tables_at b).
Proof.
  intros Hb. apply plain_stored_chunk. intros name full [[-> ->]|[[-> ->]|[[-> ->]|[-> ->]]]]%tables_cases; (split; [|split; [cbn; lia|by apply (bool_decide_unpack _)]]);
    repeat constructor; cbn; unfold int_min, int_max; lia.
Qed.

Lemma served_plan_eq : query_compile served_query = Ok served_plan.
Proof. by vm_compute. Qed.

Lemma served_plan_ok b : plan_ok (tables_at b) served_plan.
Proof.
  split.
  - destruct (query_compile_spec served_query) as (ts & p & _ & E & Hw & _). rewrite served_plan_eq in E. by injection E as <-.
  - intros name full [[-> _]|[[-> _]|[[-> _]|[-> _]]]]%tables_cases; by apply (bool_decide_unpack _).
  - assert (plan_scans served_plan = [mkPlanScan "transactions" None [] (Some 1%nat)]) as -> by (by vm_compute). intros s ->%list_elem_of_singleton. exists (transactions_at b).
    split; [done|]. split; [done|]. by intros [? ?].
  - assert (plan_relations served_plan = []) as -> by (by vm_compute). by intros r ?%elem_of_nil.
Qed.

(** The checks of a concrete table that evaluate. *)
Definition table_check (t : otab) : bool :=
  bool_decide (out_key (ot_out t) = ot_key t :: ot_keys t) && bool_decide (weight_columns (ot_out t) = []) && (0 <=? weight_per_row (ot_out t))
  && forallb (λ c, match column_by_name (ot_full t) c with Some arr => key_type_ok (arr_type arr) | None => false end) (out_key (ot_out t))
  && forallb (λ c, bool_decide (c ∈ out_projection (ot_out t))) (out_key (ot_out t))
  && match out_exp (ot_out t) with EObject ps => forallb (plain_field (out_projection (ot_out t)) (ot_full t)) ps | _ => false end
  && match column_by_name (ot_full t) (ot_key t) with Some arr => bool_decide (arr_type arr = DUInt64) | None => false end
  && forallb (λ i, match tcell (ot_full t) (ot_key t) i with Some (CInt z) => (0 <=? z) && (z <? 2 ^ 64) | _ => false end) (seq 0 (rb_num_rows (ot_full t)))
  && forallb (λ i, forallb (λ j, match key_cmp (ot_full t) (out_key (ot_out t)) i j with Eq => (i =? j)%nat | _ => true end) (seq 0 (rb_num_rows (ot_full t)))) (seq 0 (rb_num_rows (ot_full t))).

Lemma forallb_elem {A} (f : A → bool) l x : forallb f l = true → x ∈ l → f x = true.
Proof. intros Hf Hx. rewrite forallb_forall in Hf. by apply Hf, list_elem_of_In. Qed.

Lemma table_checked t : table_check t = true → otab_ok t ∧ exp_ok t.
Proof.
  unfold table_check. rewrite !andb_true_iff. intros ((((((((Hk & Hw) & Hwr) & Hs) & Hp) & He) & Ht) & Hz) & Hu). zbool. apply bool_decide_eq_true in Hk, Hw.
  assert (∀ i, (i < rb_num_rows (ot_full t))%nat → i ∈ seq 0 (rb_num_rows (ot_full t))) as Hseq by (intros i Hi; apply elem_of_seq; lia). split; [split|].
  - done.
  - destruct (column_by_name (ot_full t) (ot_key t)) as [arr|] eqn:Ea; [|done]. apply bool_decide_eq_true in Ht. exists false, 64, arr. do 2 (split; [done|]). intros i Hi.
    pose proof (forallb_elem _ _ _ Hz (Hseq i Hi)) as Hc. cbn in Hc. destruct (tcell _ _ i) as [c|]; [|done]. destruct c; try done. eexists. split; [done|]. apply andb_true_iff in Hc. zbool. lia.
  - rewrite Hw. constructor.
  - done.
  - apply Forall_forall. intros c Hc. pose proof (forallb_elem _ _ _ Hs Hc) as Ha. cbn in Ha. destruct (column_by_name _ c) as [arr|]; [|done]. by exists arr.
  - apply Forall_forall. intros c Hc. pose proof (forallb_elem _ _ _ Hp Hc) as Ha. by apply bool_decide_eq_true in Ha.
  - intros i j Hi Hj E. pose proof (forallb_elem _ _ _ (forallb_elem _ _ _ Hu (Hseq i Hi)) (Hseq j Hj)) as Hc. cbn in Hc. rewrite E in Hc. by apply Nat.eqb_eq in Hc.
  - intros R _. destruct (out_exp (ot_out t)); try done. by apply plain_encodable.
Qed.

Lemma contents_fit b : b = 1 ∨ b = 3 → fits_plan served_plan (plain_chunk (tables_at b)) (contents_at b).
Proof.
  intros Hb. split.
  - apply tables_stored. lia.
  - apply served_plan_ok.
  - done.
  - apply Forall_forall. intros t Ht. cbn [ct_block ct_items contents_at] in Ht. rewrite !elem_of_cons in Ht.
    assert (table_check t = true ∧ tables_at b !! out_table (ot_out t) = Some (ot_full t)) as [[? ?]%table_checked ?]; [|done].
    destruct Hb as [-> | ->], Ht as [->|[->|[->|[->|?%elem_of_nil]]]]; try done; by vm_compute.
  - done.
  - intros t i Ht Hi. cbn [ct_items contents_at] in Ht. rewrite !elem_of_cons in Ht. apply (bool_decide_unpack _).
    destruct Hb as [-> | ->], Ht as [->|[->|[->|?%elem_of_nil]]]; try done; (destruct i; [by vm_compute|cbn in Hi; lia]).
  - destruct Hb as [-> | ->]; (split; [repeat constructor; by vm_compute|by vm_compute]).
  - destruct Hb as [-> | ->]; (split; [exists false, 64; eexists; do 2 (split; [done|]); intros [|[|i]] Hi; [eexists; split; [done|lia]..|cbn in Hi; lia]|by eexists]).
Qed.

(** ** The database *)

Import Mem.
Definition chunk1 : Chunk := plain 1 2 "p" "b".
Definition chunk2 : Chunk := plain 3 4 "b" "d".
Definition bitcoin_label : DatasetLabel := LabelV0 (pad 16 (str_bytes "bitcoin")) 0 None.
Definition served_db : mdb := make_db [(d0, bitcoin_label)] [(d0, [chunk1; chunk2])] [].
Definition open_at (c : Chunk) : QueryRel.Chunk := plain_chunk (tables_at (first_block c)).
Definition contents_of (c : Chunk) : contents := contents_at (first_block c).

Lemma served_db_chunks : chunks_of (served_db CF_CHUNKS) d0 = [chunk1; chunk2].
Proof. by vm_compute. Qed.

Lemma example_blocks b : b = 1 ∨ b = 3 → table_blocks (ct_block (contents_at b)) = [b; b + 1].
Proof. intros [-> | ->]; by vm_compute. Qed.

Lemma example_served p h b : b = 1 ∨ b = 3 → served (stored_in served_plan open_at contents_of) (stored_blocks contents_of) (plain b (b + 1) p h).
Proof.
  intros Hb. assert (stored_blocks contents_of (plain b (b + 1) p h) = [b; b + 1]) as E by (by apply example_blocks). split; [by apply contents_fit|cbn; unfold chunk_ok, u64_max; cbn; lia|..]; rewrite E.
  - repeat constructor. lia.
  - intros n. rewrite !elem_of_cons, elem_of_nil. cbn. lia.
  - cbn. set_solver.
Qed.

Lemma example_servable : servable served_plan (stored_in served_plan open_at contents_of) (stored_blocks contents_of) served_db d0 served_query false bitcoin_label chunk1.
Proof.
  assert (Forall (served (stored_in served_plan open_at contents_of) (stored_blocks contents_of)) [chunk1; chunk2]) as Hs.
  { constructor; [|constructor; [|constructor]]; [apply (example_served "p" "b" 1)|apply (example_served "b" "d" 3)]; lia. }
  assert (Forall chunk_ok [chunk1; chunk2]) as Hok by (eapply Forall_impl; [exact Hs|]; by intros c [? ? _ _ _]).
  split; rewrite ?served_db_chunks.
  - apply make_db_chunks_ok. constructor; [|constructor]. split; [apply d0_ok|done].
  - apply d0_ok.
  - split; [done|]. by vm_compute.
  - done.
  - by vm_compute.
  - exists WriteController.Bitcoin. split; [done|]. by vm_compute.
  - apply served_plan_eq.
  - cbn. unfold u64_ok, u64_max. lia.
  - done.
  - split; [by vm_compute|done].
  - intros h _ E. by vm_compute in E.
  - done.
Qed.

(** A patient client gets the blocks from 2 on: 2 is the first one, 3 has a transaction, 4 is
    the last one. *)
Lemma query_stream_exact_witness :
  ∃ q, running_new served_db d0 served_query false Gzip = Done q ∧
    ∀ e calls, pe_slot e = true → Forall patient calls → (2 * run_fuel q <= length calls)%nat →
      match response_new (EX := plan_execution open_at) e (Done q) with
      | Done r => ∃ ls, (stream_query_response (EX := plan_execution open_at) calls r).2 = StreamClosed ∧
          delivers (wanted_in served_plan open_at contents_of) [(chunk1, 2); (chunk2, 3); (chunk2, 4)] ls ∧
          decompress Gzip (mjoin (stream_query_response (EX := plan_execution open_at) calls r).1) = Some (text_of (line_in served_plan open_at contents_of) ls)
      | _ => False
      end.
Proof.
  destruct (query_stream_exact Gzip served_plan open_at contents_of served_db d0 served_query false bitcoin_label chunk1 example_servable) as (q & Eq & _ & Hst).
  exists q. split; [exact Eq|]. intros e calls He Hp Hl. specialize (Hst e calls).
  assert (parent_matches served_plan open_at served_query chunk1) as Hm by (intros h [= <-] _; by vm_compute).
  destruct (response_new e (Done q)) as [r|err|m]; [|destruct Hst as [Es|Hn]; [congruence|by destruct Hn]|destruct Hst].
  destruct (stream_query_response calls r) as [packs end_]. destruct Hst as (_ & Hc & Hcl). destruct (Hc (Hcl Hm Hp Hl)) as (pre & rest & ls & E & Hd & Hdec & Hrest).
  rewrite (Hrest Hm Hp), app_nil_r in E. subst pre. exists ls. split; [by apply Hcl|]. split; [|exact Hdec].
  replace [(chunk1, 2); (chunk2, 3); (chunk2, 4)] with (requested (stored_blocks contents_of) (query_first_block served_query) (end_of served_query false bitcoin_label) (chunks_of (served_db CF_CHUNKS) d0));
    [exact Hd|by vm_compute].
Defined.

(** The window of chunk 1 from block 2 on, after the parent check. *)
Lemma plan_window_exact_witness :
  answered (stored_blocks contents_of) (wanted_in served_plan open_at contents_of) (line_in served_plan open_at contents_of) (Some 2) None chunk1
    (execute (Execution := plan_execution open_at) (windowed served_plan (Some 2) None (Some "a")) chunk1).
Proof.
  pose proof (plan_window_exact served_plan open_at contents_of (Some 2) None (Some "a") chunk1) as Hx. unfold executed in Hx.
  replace (check_parent_block _ _) with (Ok (None : option UnexpectedBaseBlock)) in Hx by (by vm_compute). apply Hx.
  - apply contents_fit. by left.
  - cbn. unfold u64_ok, u64_max. lia.
  - done.
Defined.
End ServeExamples.
